(* ===== verification/_CoqProject ===== *)
-Q . S2P
Prelude.v
CoreError.v
F64.v
Filter.v
FilterSpec.v
FilterText.v
Json.v
Sql.v
Types.v
Ddl.v
Compile.v
CompileSpec.v
Samples.v
CompileProps.v
Sort.v
Pagination.v
Projection.v
Read.v
Policy.v
Rls.v
DdlSpec.v
ViewBuilder.v
Indexes.v
RecordId.v
RateLimit.v
Hub.v
Validation.v
Net.v
Sessions.v
Principal.v
Accounts.v
Jobs.v
Crons.v
Mail.v
HookHttp.v
Effects.v
Records.v
FileLinks.v
Handlers.v
Hooks.v
Collections.v
CollectionsApi.v
ImageCheck.v
FileKeys.v
FileStore.v
FileRules.v
History.v
Presets.v
FilesApi.v
Backup.v
BackupProps.v
Emails.v
OAuth2.v
StorageConfig.v
S3.v
Settings.v
SettingsProps.v
Migrate.v
Thumbnail.v
Logs.v
BackupApi.v
