(* ===== verification/Prelude.v ===== *)
(** * Lazypock, verified

    Lazypock is a backend in one binary: collections that are PostgreSQL tables,
    a JSON API over them, files, hooks in JavaScript, a realtime stream, and the
    accounts that use all of it. This library models the program under
    src/crates and proves what makes it correct. It is a shallow embedding:
    pure functions are functions, a fallible one returns [result] or [option],
    a statement on a table is a function on its rows, and a handler that talks
    to the database, to storage, to hooks or to mail is a program that waits for
    each answer ([Effects]), so that a property of it holds whatever the
    answers are.

    ** The parts, and how they meet

    A client's [filter], [sort], [fields], [expand] and paging are text. The
    filter language (crates/db/src/query) is lexed and parsed, compiled against
    the schema into SQL with parameters, and put together with the other four
    into one statement. The rules of a collection are the same language,
    compiled into row-level-security policies (crates/db/src/rls), so that what
    a request may do is decided by PostgreSQL under the context the request
    applies. Records are validated and encoded (validation.rs), written with
    their hooks (records.rs), and answered by the endpoints (crates/api). The
    schema itself (collections.rs, reflect.rs, ddl.rs, indexes.rs,
    view_builder.rs) changes by statements of the same client. Every committed
    write is announced to the hub (crates/realtime), which asks the policies
    again for every subscriber. Around this: who a request is (crates/auth and
    api/src/auth.rs), the limits on it, mail, jobs and schedules, hooks and
    their HTTP client, files and their clean-up (crates/files), settings,
    backups.

    ** The files

    Shared:
    - Prelude: characters, strings, lists, integers of a width, tactics.
    - CoreError: [error.rs], the [result] monad. An error is its variant.
    - F64, Json: binary64 numbers and [serde_json::Value] as the code reads them.
    - Sql: what a text of SQL scans to by PostgreSQL's lexical rules. Every
      claim that a statement is parameterised is a claim about [lexemes].
    - Effects, History: programs of interactions; [runs] are their traces,
      [safe] is a proof rule for a monitor automaton, [obeys] one for
      statements that look back at what has happened.
    - Samples: the workspace on which the witnesses are evaluated.

    Queries and rights:
    - Filter, FilterSpec, FilterText: lexer and parser of query/filter.rs; the
      grammar they decide; the printer they invert.
    - Types, Ddl, DdlSpec, Indexes, ViewBuilder: field types, statements on the
      schema, declared indexes, the view builder.
    - Compile, CompileSpec, CompileProps: query/compile.rs.
    - Sort, Pagination, Projection, Read: the rest of crates/db/src/query.
    - Policy, Rls: rules as policies, the context of a request.

    Records and the schema:
    - RecordId, Validation, Records, Handlers: ids, checks, statements, and the
      endpoints of records and of batches as programs.
    - Collections, CollectionsApi: the operations on the schema and their
      endpoints.
    - Hub: the realtime fan-out as a transition system.
    - Backup, BackupProps, BackupApi: archives, imports and restores, over the
      interface [Backup.SchemaOps] that Collections implements, and the endpoints
      of backups with the snapshots they take.
    - Migrate: the migration runner, by any number of nodes at once.

    Callers:
    - RateLimit, Net: limits and lockouts; proxies, hosts, public addresses.
    - Sessions, Principal, Accounts: refresh sessions as a table with
      interleaved requests, tokens and keys, password sign-in and refresh.
    - Emails, OAuth2: the flows that mail a one-time token; sign-in through a
      provider.

    The server's own work:
    - Jobs, Crons, Mail: the queue with its workers, schedules, the mailer.
    - HookHttp, Hooks: what a hook may send, and what it may do at all.
    - ImageCheck, FileKeys, FileLinks, FileStore, FileRules, Presets, FilesApi:
      uploads, their keys, their rows and queues, their rules, image presets,
      and the endpoints.
    - Thumbnail: the sizes of thumbnails, made in process or by the image
      service.
    - StorageConfig, S3: the configuration of the file storage with its
      encrypted secrets; the client of a bucket, its signatures and listings.
    - Settings, SettingsProps: the settings, their export and import, the
      storage configuration that is saved, API keys.
    - Logs: the request recorder and the address of a caller, the endpoints
      over what was recorded.

    A function of the code keeps its name where Rocq allows it; a module is a
    file and a handler of the same name twice in a file is told apart by a
    Module. Each file opens with the sources it models.

    ** What the theorems show

    - Text in, meaning out: the parser decides its grammar and prints back; the
      compiler, the listing and the view builder produce SQL whose identifiers
      are the schema's and whose values are placeholders, and reach no
      credential.
    - Rights: policies admit exactly what the rules say; every data statement
      and hook of a record request runs as its caller for its action; a hook
      script, whatever it does, acts as its caller; a file is listed, attached
      and deleted as its rules say; deliveries of the hub show only what the
      select policy shows.
    - Atomicity: a batch, a change of the schema, a rule and its policy are
      committed together or not at all.
    - State machines: sessions, the job queue, the file table, one-time tokens,
      migrations and the hub are step relations; their invariants hold under
      every interleaving. The queue and the reaper make progress whatever else
      happens between their passes, in a number of passes that is counted from
      what is in front ([jobs_settle], [deletions_are_carried_out]).
    - Other programs: requests to a bucket are proved against a model of the
      service written from its documentation, as they arrive through a client
      that reads URLs as their standard says ([S3.verify], [S3.documented]); the
      requests of a hook against the client's documented resolver override
      ([HookHttp.dials]).
    - Round trips: filters, messages, definitions, archives, settings.
    - Bounds: an image header is read without leaving its bytes; counters,
      sizes and dates stay in their widths.

    ** Fuel and bounds

    Loops that are not structural take fuel, and each entry point passes an
    amount that is shown never to run out: the lexer and the parser the length
    of what is left ([tokenize_total], [parse_total]), the renaming loop of the
    view builder the number of names taken ([unique_name_fresh]), the keyset
    loop of a client one page per row and one ([keyset_paging_complete]), the
    image headers the number of bytes ([uploads_are_measured]). Integers keep
    their width where the code could leave it: wrapping, saturating and checked
    operations are written out, and a panic is [None].

    ** Parameters

    What is not under src is a parameter, with the documented behaviour a
    theorem needs as a named hypothesis: Argon2, SHA-256 and HMAC, AES-GCM and the
    JWT library, PostgreSQL's evaluation of policies, cron expressions and time
    zones, the template engine, the JavaScript engine (any tree of calls), the
    URL parser of hooks, DNS and the network, the image codecs, the multipart reader,
    the zip container. The clock and random bytes are arguments. A database
    answers a program as it likes, errors included.

    ** Not modelled

    - Wording: messages of errors, logs, HTTP framing and status texts.
    - Pure input and output: the process and its command line, the pool of
      connections, LISTEN and its reconnection, the transport of the realtime
      stream, the exchange with a bucket, telemetry, the embedded Studio.
    - PostgreSQL: what a statement does beyond the tables that are modelled as
      functions on rows, and its triggers outside migrations/0011_files.sql.
    - The endpoints of ad-hoc SQL and of database views, which pass a statement
      of the superuser on, and the setup of the first superuser.
    - In Accounts the failures of the database itself, and the record that is
      read back for the answer to a sign-in.

    A reader looking for one module of the program finds it above by its file
    name; what the manifest calls partly modelled is listed there with the part
    that is left out. *)
From stdpp Require Export base tactics list strings gmap pretty sorting.
From Stdlib Require Export ZArith Lia Ascii.
From Stdlib Require String.

(** * Notations and automation *)

Declare Scope lp_scope.
Delimit Scope lp_scope with lp.

(** The development's hint database: lemmas about the string library that
    the component files use for their routine goals. *)
Create HintDb lp.
Create Rewrite HintDb lp.

(** Case analysis on every [match] and [decide] of the goal and of the
    hypotheses, keeping only the cases that are not contradictory. *)
Ltac split_cases :=
  repeat (case_match || case_decide || case_bool_decide); simplify_eq/=.

(** * Characters

    A Rust [String] is a sequence of UTF-8 bytes; it is modelled by Rocq's
    [string], one [ascii] per byte. *)

Definition byte_of (c : ascii) : N := N_of_ascii c.

Definition in_range (lo hi : N) (c : ascii) : bool :=
  (lo <=? byte_of c)%N && (byte_of c <=? hi)%N.

(** [char::is_ascii_digit] and its siblings. *)
Definition is_ascii_digit (c : ascii) : bool := in_range 48 57 c.
Definition is_ascii_lowercase (c : ascii) : bool := in_range 97 122 c.
Definition is_ascii_uppercase (c : ascii) : bool := in_range 65 90 c.
Definition is_ascii_alphabetic (c : ascii) : bool :=
  is_ascii_lowercase c || is_ascii_uppercase c.
Definition is_ascii_alphanumeric (c : ascii) : bool :=
  is_ascii_alphabetic c || is_ascii_digit c.

(** [char::to_ascii_lowercase] on one byte. *)
Definition ascii_lower (c : ascii) : ascii :=
  if is_ascii_uppercase c then ascii_of_N (byte_of c + 32) else c.

Definition quote_char : ascii := "034"%char.
Definition tick_char : ascii := "'"%char.
Definition backslash : ascii := "\"%char.

(** A fact about one byte, checked on all 256 of them. *)
Ltac by_bytes c := destruct c as [[] [] [] [] [] [] [] []]; try done; vm_compute; done.

(** * Strings *)

Fixpoint str_forall (p : ascii → bool) (s : string) : bool :=
  match s with
  | EmptyString => true
  | String c r => p c && str_forall p r
  end.

Definition str_exists (p : ascii → bool) (s : string) : bool :=
  negb (str_forall (λ c, negb (p c)) s).

(** [str::contains(char)] for an ASCII character. *)
Definition str_contains (c : ascii) (s : string) : bool :=
  str_exists (λ d, bool_decide (d = c)) s.

Fixpoint str_map (f : ascii → ascii) (s : string) : string :=
  match s with
  | EmptyString => EmptyString
  | String c r => String (f c) (str_map f r)
  end.

(** [str::to_ascii_lowercase]. *)
Definition to_ascii_lowercase : string → string := str_map ascii_lower.

(** The first [char] of the string when it is Unicode white space, removed.
    [White_Space] is U+0009-U+000D, U+0020, U+0085, U+00A0, U+1680,
    U+2000-U+200A, U+2028, U+2029, U+202F, U+205F and U+3000, here by its
    UTF-8 encodings. *)
Definition is_ws1 (a : ascii) : bool :=
  in_range 9 13 a || (byte_of a =? 32)%N.
Definition is_ws2 (a b : ascii) : bool :=
  (byte_of a =? 194)%N && ((byte_of b =? 133)%N || (byte_of b =? 160)%N).
Definition is_ws3 (a b c : ascii) : bool :=
  let x := byte_of a in let y := byte_of b in let z := byte_of c in
  ((x =? 225)%N && (y =? 154)%N && (z =? 128)%N)
  || ((x =? 226)%N && (y =? 128)%N
      && (((128 <=? z)%N && (z <=? 138)%N)
          || (z =? 168)%N || (z =? 169)%N || (z =? 175)%N))
  || ((x =? 226)%N && (y =? 129)%N && (z =? 159)%N)
  || ((x =? 227)%N && (y =? 128)%N && (z =? 128)%N).

(** [str::trim_start]. *)
Fixpoint trim_start (s : string) : string :=
  match s with
  | EmptyString => EmptyString
  | String a r =>
      if is_ws1 a then trim_start r
      else match r with
           | EmptyString => s
           | String b r2 =>
               if is_ws2 a b then trim_start r2
               else match r2 with
                    | EmptyString => s
                    | String c r3 => if is_ws3 a b c then trim_start r3 else s
                    end
           end
  end.

Definition is_blank (s : string) : bool := bool_decide (trim_start s = "").

(** [str::trim_end]: the longest prefix whose remainder is white space. *)
Fixpoint trim_end (s : string) : string :=
  match s with
  | EmptyString => EmptyString
  | String a r => if is_blank s then EmptyString else String a (trim_end r)
  end.

(** [str::trim]. *)
Definition trim (s : string) : string := trim_end (trim_start s).

(** [str::split(char)]: always at least one piece. *)
Fixpoint split_on (sep : ascii) (s : string) : list string :=
  match s with
  | EmptyString => [""]
  | String c r =>
      if decide (c = sep) then "" :: split_on sep r
      else match split_on sep r with
           | [] => [String c ""]
           | p :: ps => String c p :: ps
           end
  end.

(** [str::split_once(char)]. *)
Fixpoint split_once (sep : ascii) (s : string) : option (string * string) :=
  match s with
  | EmptyString => None
  | String c r =>
      if decide (c = sep) then Some ("", r)
      else match split_once sep r with
           | None => None
           | Some (a, b) => Some (String c a, b)
           end
  end.

(** [str::strip_prefix] and [str::starts_with]. *)
Fixpoint strip_prefix (p s : string) : option string :=
  match p, s with
  | EmptyString, _ => Some s
  | String a p', String b s' => if decide (a = b) then strip_prefix p' s' else None
  | String _ _, EmptyString => None
  end.

Definition starts_with (p s : string) : bool :=
  match strip_prefix p s with Some _ => true | None => false end.

(** [str::ends_with]. *)
Fixpoint ends_with (p s : string) : bool :=
  bool_decide (s = p)
  || match s with EmptyString => false | String _ r => ends_with p r end.

(** [str::contains] of a text. *)
Fixpoint contains_text (p s : string) : bool :=
  starts_with p s || match s with EmptyString => false | String _ r => contains_text p r end.

(** [str::rsplit_once(char)]. *)
Fixpoint rsplit_once (c : ascii) (s : string) : option (string * string) :=
  match s with
  | EmptyString => None
  | String d r =>
      match rsplit_once c r with
      | Some (a, b) => Some (String d a, b)
      | None => if decide (d = c) then Some ("", r) else None
      end
  end.

(** [str::strip_suffix]. *)
Fixpoint strip_suffix (p s : string) : option string :=
  if decide (s = p) then Some ""
  else match s with EmptyString => None | String c r => String c <$> strip_suffix p r end.

(** [[String]::join]. *)
Definition join (sep : string) (l : list string) : string := String.concat sep l.

(** [str::replace(char, str)]. *)
Fixpoint replace_char (c : ascii) (by_ : string) (s : string) : string :=
  match s with
  | EmptyString => EmptyString
  | String d r => (if decide (d = c) then by_ else String d "") +:+ replace_char c by_ r
  end.

(** [char::is_control] somewhere in the string: U+0000-U+001F, U+007F and
    U+0080-U+009F. *)
Fixpoint has_control (s : string) : bool :=
  match s with
  | EmptyString => false
  | String a r =>
      in_range 0 31 a || (byte_of a =? 127)%N
      || ((byte_of a =? 194)%N
          && match r with
             | EmptyString => false
             | String b _ => in_range 128 159 b
             end)
      || has_control r
  end.

(** [str::chars().count()]: the bytes that are not UTF-8 continuations. *)
Fixpoint char_count (s : string) : N :=
  match s with
  | EmptyString => 0
  | String c r => (if in_range 128 191 c then 0 else 1) + char_count r
  end.

(** [format!("{n}")] of an integer. *)
Definition dec (z : Z) : string := pretty z.
Definition dec_nat (n : nat) : string := pretty n.

(** * String lemmas *)

Lemma str_app_nil_r s : s +:+ "" = s.
Proof. induction s as [|c s IH]; [done|]. change (String c (s +:+ "") = String c s). by rewrite IH. Qed.

Lemma str_app_assoc s1 s2 s3 : s1 +:+ (s2 +:+ s3) = (s1 +:+ s2) +:+ s3.
Proof.
  induction s1 as [|c s IH]; [done|].
  change (String c (s +:+ (s2 +:+ s3)) = String c ((s +:+ s2) +:+ s3)). by rewrite IH.
Qed.

Lemma str_app_cons c s t : String c s +:+ t = String c (s +:+ t).
Proof. done. Qed.

Lemma str_app_nil_l s : "" +:+ s = s.
Proof. done. Qed.

(** Pushes appends through literal characters. *)
Ltac str_simpl := repeat first [rewrite str_app_cons | rewrite str_app_nil_l].

Lemma str_length_app s t : String.length (s +:+ t) = String.length s + String.length t.
Proof. induction s as [|c s IH]; [done|]. rewrite str_app_cons. cbn. by rewrite IH. Qed.

Lemma str_forall_app p s t : str_forall p (s +:+ t) = str_forall p s && str_forall p t.
Proof. induction s as [|c s IH]; [done|]. rewrite str_app_cons. cbn. by rewrite IH, andb_assoc. Qed.

Lemma str_forall_impl (p q : ascii → bool) s :
  (∀ c, p c = true → q c = true) → str_forall p s = true → str_forall q s = true.
Proof.
  intros Hpq. induction s as [|c s IH]; [done|]. cbn.
  rewrite !andb_true_iff. naive_solver.
Qed.

Lemma rsplit_once_Some c s a b : rsplit_once c s = Some (a, b) → s = a +:+ String c b.
Proof.
  revert a b. induction s as [|d s IH]; intros a b; [done|]. cbn [rsplit_once].
  destruct (rsplit_once c s) as [[x y]|].
  - intros [= <- <-]. change (String d s = String d (x +:+ String c y)). f_equal. by apply IH.
  - case_decide as E; [|done]. intros [= <- <-]. by rewrite E.
Qed.

#[export] Hint Rewrite str_app_nil_r str_app_cons str_length_app str_forall_app : lp.

Lemma split_on_nonempty c s : split_on c s ≠ [].
Proof. destruct s as [|d s]; cbn; [done|]. case_decide; [done|]. by destruct (split_on c s). Qed.

(** [split] undoes [join] on pieces without the separator. *)
Lemma split_on_none c s :
  str_forall (λ d, bool_decide (d ≠ c)) s = true → split_on c s = [s].
Proof.
  induction s as [|d s IH]; [done|]. cbn.
  intros [Hd Hs]%andb_true_iff. apply bool_decide_eq_true in Hd.
  rewrite decide_False by done. by rewrite IH.
Qed.

Lemma split_on_app c s t :
  str_forall (λ d, bool_decide (d ≠ c)) s = true →
  split_on c (s +:+ String c t) = s :: split_on c t.
Proof.
  induction s as [|d s IH]; cbn.
  { intros _. change ("" +:+ ?x) with x. cbn. by rewrite decide_True. }
  intros [Hd Hs]%andb_true_iff. apply bool_decide_eq_true in Hd.
  rewrite str_app_cons; cbn. rewrite decide_False by done. by rewrite IH.
Qed.

Lemma join_cons2 sep a b l : join sep (a :: b :: l) = a +:+ sep +:+ join sep (b :: l).
Proof. done. Qed.

Lemma split_join c l :
  l ≠ [] → Forall (λ s, str_forall (λ d, bool_decide (d ≠ c)) s = true) l →
  split_on c (join (String c "") l) = l.
Proof.
  intros Hne Hl. induction Hl as [|a l Ha Hl IH]; [done|].
  destruct l as [|b l]; [by apply split_on_none|].
  rewrite join_cons2, str_app_cons. cbn [String.append].
  change ("" +:+ ?x) with x. rewrite split_on_app by done. by rewrite IH.
Qed.

Lemma join_forall p sep l :
  str_forall p sep = true → Forall (λ s, str_forall p s = true) l →
  str_forall p (join sep l) = true.
Proof.
  intros Hsep Hl. induction Hl as [|a l Ha Hl IH]; [done|].
  destruct l as [|b l]; [done|]. rewrite join_cons2, !str_forall_app, Ha, Hsep, IH. done.
Qed.

(** * List lemmas *)

Lemma forallb_Forall {A} (f : A → bool) l :
  forallb f l = true ↔ Forall (λ x, f x = true) l.
Proof.
  induction l as [|x l IH]; cbn; [naive_solver|].
  rewrite andb_true_iff, IH, Forall_cons. done.
Qed.

Lemma filter_all {A} (P : A → Prop) `{!∀ x, Decision (P x)} l : Forall P l → filter P l = l.
Proof. induction 1 as [|x l Hx Hl IH]; [done|]. by rewrite filter_cons_True, IH. Qed.

(** * Decimal numerals *)

Fixpoint dec_value (acc : N) (s : string) : N :=
  match s with
  | EmptyString => acc
  | String c r => dec_value (10 * acc + (byte_of c - 48)) r
  end.

Lemma pretty_N_char_digit n :
  (n < 10)%N → is_ascii_digit (pretty_N_char n) = true ∧ (byte_of (pretty_N_char n) - 48 = n)%N.
Proof.
  intros H. assert (n = 0 ∨ n = 1 ∨ n = 2 ∨ n = 3 ∨ n = 4 ∨ n = 5 ∨ n = 6 ∨ n = 7
    ∨ n = 8 ∨ n = 9)%N as Hn by lia. naive_solver.
Qed.

Lemma pretty_N_go_value n s :
  str_forall is_ascii_digit s = true →
  dec_value 0 (pretty_N_go n s) = dec_value n s
  ∧ str_forall is_ascii_digit (pretty_N_go n s) = true.
Proof.
  revert s. induction (N.lt_wf_0 n) as [n _ IH]; intros s Hs.
  destruct (decide (n = 0)%N) as [->|Hn]; [by rewrite pretty_N_go_0|].
  rewrite pretty_N_go_step by lia.
  destruct (pretty_N_char_digit (n mod 10)) as [Hd Hv]; [by apply N.mod_lt|].
  destruct (IH (n / 10)%N) with (s := String (pretty_N_char (n mod 10)) s) as [H1 H2].
  - apply N.div_lt; lia.
  - cbn. by rewrite Hd, Hs.
  - split; [|done]. rewrite H1. cbn [dec_value]. rewrite Hv.
    f_equal. rewrite (N.div_mod n 10) at 3 by done. done.
Qed.

(** A printed natural number is a numeral of that number. *)
Lemma pretty_N_value (n : N) :
  dec_value 0 (pretty n) = n ∧ str_forall is_ascii_digit (pretty n) = true.
Proof.
  unfold pretty, pretty_N. case_decide; [by subst|]. by apply pretty_N_go_value.
Qed.

Lemma pretty_N_nonempty (n : N) : pretty n ≠ "".
Proof.
  intros H. destruct (decide (n = 0)%N) as [->|Hn]; [done|].
  destruct (pretty_N_value n) as [Hv _]. rewrite H in Hv. cbn in Hv. lia.
Qed.

(** * Filtering lists *)

Lemma filter_ext_in {A} (P Q : A → Prop) `{∀ x, Decision (P x), ∀ x, Decision (Q x)} (l : list A) :
  (∀ x, x ∈ l → P x ↔ Q x) → filter P l = filter Q l.
Proof.
  induction l as [|x l IH]; intros E; [done|]. rewrite !filter_cons.
  rewrite IH by (intros; apply E; by right). pose proof (E x ltac:(by left)).
  by repeat case_decide; tauto.
Qed.

Lemma filter_map {A B} (f : A → B) (P : B → Prop) `{∀ x, Decision (P x)} (l : list A) :
  filter P (f <$> l) = f <$> filter (λ x, P (f x)) l.
Proof.
  induction l as [|x l IH]; [done|]. rewrite fmap_cons, !filter_cons, IH. by case_decide.
Qed.

Lemma omap_short {A B} (f : A → option B) (l : list A) : length (omap f l) ≤ length l.
Proof. induction l as [|x l IH]; cbn; [done|]. destruct (f x); cbn; lia. Qed.

(** * White space *)

(** A visible ASCII character. *)
Definition is_graphic (c : ascii) : bool := in_range 33 126 c.

Lemma trim_start_graphic c r : is_graphic c = true → trim_start (String c r) = String c r.
Proof.
  intros Hc. cbn [trim_start]. assert (is_ws1 c = false) as -> by (revert Hc; by_bytes c).
  destruct r as [|d r]; [done|].
  assert (is_ws2 c d = false) as ->.
  { unfold is_ws2. assert ((byte_of c =? 194)%N = false) as ->; [revert Hc; by_bytes c|done]. }
  destruct r as [|e r]; [done|].
  assert (is_ws3 c d e = false) as ->; [|done].
  unfold is_ws3. cbv zeta.
  assert ((byte_of c =? 225)%N = false ∧ (byte_of c =? 226)%N = false ∧ (byte_of c =? 227)%N = false)
    as (-> & -> & ->); [|done].
  revert Hc; by_bytes c.
Qed.

Lemma trim_end_graphic c r : is_graphic c = true → trim_end (String c r) = String c (trim_end r).
Proof.
  intros Hc. cbn [trim_end]. unfold is_blank. rewrite trim_start_graphic by done.
  by rewrite bool_decide_false.
Qed.

Lemma trim_end_app s t :
  str_forall is_graphic s = true → trim_end (s +:+ t) = s +:+ trim_end t.
Proof.
  induction s as [|c s IH]; [done|]. cbn [str_forall]. intros [Hc Hs]%andb_true_iff.
  rewrite !str_app_cons, trim_end_graphic by done. by rewrite IH.
Qed.

Lemma trim_graphic s : str_forall is_graphic s = true → trim s = s.
Proof.
  intros Hs. unfold trim. destruct s as [|c s]; [done|].
  rewrite trim_start_graphic by (by apply andb_true_iff in Hs as [? _]).
  rewrite <-(str_app_nil_r (String c s)) at 1. rewrite trim_end_app by done. apply str_app_nil_r.
Qed.

(** The length of a list as Rust counts it. *)
Definition len {A} (l : list A) : Z := Z.of_nat (length l).
