(* ===== verification/CoreError.v ===== *)
(** The application error model of [crates/core/src/error.rs] and the
    [Result] monad every fallible operation of the development runs in.

    An error is modelled by its variant: the human-readable message is not
    part of the model, because nothing in the program branches on it. *)
From S2P Require Import Prelude.

(** [enum Error]. *)
Inductive Error :=
  | Config
  | Unsupported
  | Invalid
  | NotFound
  | Conflict
  | Unauthorized
  | Forbidden
  | Internal.

#[export] Instance Error_eq_dec : EqDecision Error.
Proof. solve_decision. Defined.

(** [Error::status]. *)
Definition status (e : Error) : Z :=
  match e with
  | Config | Internal => 500
  | Unsupported => 501
  | Invalid => 400
  | NotFound => 404
  | Conflict => 409
  | Unauthorized => 401
  | Forbidden => 403
  end.

(** [Error::code]. *)
Definition code (e : Error) : string :=
  match e with
  | Config => "config_error"
  | Unsupported => "unsupported"
  | Invalid => "invalid_request"
  | NotFound => "not_found"
  | Conflict => "conflict"
  | Unauthorized => "unauthorized"
  | Forbidden => "forbidden"
  | Internal => "internal_error"
  end.

(** [Result<T>], with [?] as the monadic bind. *)
Inductive result (A : Type) :=
  | Ok (a : A)
  | Err (e : Error).
Arguments Ok {A} a.
Arguments Err {A} e.

#[export] Instance result_ret : MRet result := λ A a, Ok a.
#[export] Instance result_bind : MBind result := λ A B k m,
  match m with Ok a => k a | Err e => Err e end.
#[export] Instance result_fmap : FMap result := λ A B f m,
  match m with Ok a => Ok (f a) | Err e => Err e end.

#[export] Instance result_eq_dec `{EqDecision A} : EqDecision (result A).
Proof. solve_decision. Defined.

Definition is_ok {A} (r : result A) : bool :=
  match r with Ok _ => true | Err _ => false end.

(** [Option::ok_or]. *)
Definition ok_or {A} (o : option A) (e : Error) : result A :=
  match o with Some a => Ok a | None => Err e end.

(** [iter().map(f).collect::<Result<Vec<_>>>()] and the [for] loops that
    push [f(x)?]. *)
Fixpoint try_map {A B} (f : A → result B) (l : list A) : result (list B) :=
  match l with
  | [] => Ok []
  | x :: l => y ← f x; ys ← try_map f l; Ok (y :: ys)
  end.

(** A loop that updates an accumulator and may stop with an error. *)
Fixpoint try_fold {A B} (f : B → A → result B) (b : B) (l : list A) : result B :=
  match l with
  | [] => Ok b
  | x :: l => b' ← f b x; try_fold f b' l
  end.

Lemma Ok_inj {A} (a b : A) : Ok a = Ok b → a = b.
Proof. by intros [= ->]. Qed.

Lemma bind_Ok {A B} (m : result A) (k : A → result B) b :
  m ≫= k = Ok b ↔ ∃ a, m = Ok a ∧ k a = Ok b.
Proof. destruct m; cbn; naive_solver. Qed.

Lemma fmap_Ok {A B} (m : result A) (f : A → B) b :
  f <$> m = Ok b ↔ ∃ a, m = Ok a ∧ b = f a.
Proof. destruct m; cbn; naive_solver. Qed.

Lemma ok_or_Ok {A} (o : option A) e a : ok_or o e = Ok a ↔ o = Some a.
Proof. destruct o; cbn; naive_solver. Qed.

(** [run H] splits a hypothesis [m ≫= k = Ok b] into its successful steps. *)
Ltac run H :=
  repeat (first
    [ apply bind_Ok in H as (? & ? & H)
    | apply fmap_Ok in H as (? & H & ->) ]); simplify_eq/=.

Lemma try_map_Ok {A B} (f : A → result B) l ys :
  try_map f l = Ok ys ↔ Forall2 (λ x y, f x = Ok y) l ys.
Proof.
  revert ys; induction l as [|x l IH]; intros ys; cbn.
  - split; [intros [= <-]; constructor | by inversion 1].
  - split.
    + intros H. apply bind_Ok in H as (y & Hy & H).
      apply bind_Ok in H as (ys' & Hys & [= <-]). constructor; [done|]. by apply IH.
    + inversion 1 as [|? y ? ys' Hy Hys]; subst. rewrite Hy. cbn.
      apply IH in Hys. by rewrite Hys.
Qed.

Lemma try_fold_app {A B} (f : B → A → result B) b l1 l2 :
  try_fold f b (l1 ++ l2) = (b' ← try_fold f b l1; try_fold f b' l2).
Proof.
  revert b; induction l1 as [|x l1 IH]; intros b; cbn; [done|].
  destruct (f b x); cbn; auto.
Qed.

(** Invariants of a fallible loop. *)
Lemma try_fold_inv {A B} (I : B → Prop) (f : B → A → result B) b l b' :
  (∀ b x b', I b → x ∈ l → f b x = Ok b' → I b') → I b → try_fold f b l = Ok b' → I b'.
Proof.
  revert b. induction l as [|x l IH]; intros b Hf Hb H; cbn in H; [congruence|].
  apply bind_Ok in H as (b1 & Hb1 & H). eapply IH; [|eapply Hf; [done|by left|done]|done].
  intros b2 y b3 H2 Hy. apply Hf; [done|by right].
Qed.
