(* ===== verification/F64.v ===== *)
(** Binary64 numbers as Rust's standard library handles them: [str::parse],
    [Display], comparison and [fract]. The values are [spec_float]s of the
    Standard Library at precision 53 and maximal exponent 1024. *)
From Stdlib Require Import SpecFloat.
From S2P Require Import Prelude CoreError.

Local Open Scope Z_scope.

Abbreviation f64 := spec_float.

#[export] Instance f64_eq_dec : EqDecision f64.
Proof. solve_decision. Defined.

Definition f64_infinity : f64 := S754_infinity false.

(** The binary64 nearest to [n / d], ties to even. *)
Definition round_ratio (s : bool) (n d : positive) : f64 :=
  let '(q, e, l) := SFdiv_core_binary 53 1024 (Zpos n) 0 (Zpos d) 0 in
  binary_round_aux 53 1024 s q e l.

(** [z as f64]. *)
Definition f64_of_Z (z : Z) : f64 :=
  match z with
  | Z0 => S754_zero false
  | Zpos p => round_ratio false p 1
  | Zneg p => round_ratio true p 1
  end.

(** The number of decimal digits of [z]. *)
Definition digits10 (z : Z) : Z := Z.of_nat (String.length (dec z)).

(** The binary64 nearest to [d * 10^x]. Magnitudes outside [10^-330, 10^310]
    are decided without computing the power: they are zero and infinity. *)
Definition round_dec (s : bool) (d x : Z) : f64 :=
  match d with
  | Zpos p =>
      let magnitude := digits10 d + x in
      if (310 <? magnitude)%Z then S754_infinity s
      else if (magnitude <? -330)%Z then S754_zero s
      else if (0 <=? x)%Z then round_ratio s (p * Z.to_pos (10 ^ x))%positive 1
      else round_ratio s p (Z.to_pos (10 ^ (- x)))
  | _ => S754_zero s
  end.

(** Reads decimal digits: their value (after [acc]), their number, the rest. *)
Fixpoint read_digits (acc : Z) (n : nat) (s : string) : Z * nat * string :=
  match s with
  | String c r =>
      if is_ascii_digit c
      then read_digits (10 * acc + (Z.of_N (byte_of c) - 48)) (S n) r
      else (acc, n, s)
  | EmptyString => (acc, n, s)
  end.

(** The exponent part: nothing, or [e]/[E], a sign and at least one digit. *)
Definition read_exponent (s : string) : option Z :=
  match s with
  | EmptyString => Some 0%Z
  | String c r =>
      if decide (ascii_lower c = "e"%char) then
        let '(neg, r) :=
          match r with
          | String "-" r => (true, r)
          | String "+" r => (false, r)
          | _ => (false, r)
          end in
        match read_digits 0 0%nat r with
        | (v, S _, EmptyString) => Some (if neg then - v else v)%Z
        | _ => None
        end
      else None
  end.

(** An unsigned decimal literal. *)
Definition parse_decimal (neg : bool) (s : string) : option f64 :=
  let '(i, ni, r) := read_digits 0 0%nat s in
  let '(m, nf, r) :=
    match r with
    | String "." r => read_digits i 0%nat r
    | _ => (i, 0%nat, r)
    end in
  if (ni + nf =? 0)%nat then None
  else match read_exponent r with
       | Some x => Some (round_dec neg m (x - Z.of_nat nf))
       | None => None
       end.

(** [str::parse::<f64>]. *)
Definition parse_f64 (s : string) : option f64 :=
  let '(neg, r) :=
    match s with
    | String "-" r => (true, r)
    | String "+" r => (false, r)
    | _ => (false, s)
    end in
  match parse_decimal neg r with
  | Some v => Some v
  | None =>
      let w := to_ascii_lowercase r in
      if decide (w = "inf" ∨ w = "infinity") then Some (S754_infinity neg)
      else if decide (w = "nan") then Some S754_nan
      else None
  end.

(** The decimal exponent [p] with [10^(p-1) <= n/d < 10^p]. *)
Definition exponent10 (n d : Z) : Z :=
  if (d <=? n)%Z then digits10 (n / d)
  else 1 - digits10 ((d + n - 1) / n - 1).

Fixpoint strip_zeros (fuel : nat) (d x : Z) : Z * Z :=
  match fuel with
  | O => (d, x)
  | S fuel => if (d mod 10 =? 0)%Z then strip_zeros fuel (d / 10) (x + 1) else (d, x)
  end.

Definition zeros (n : Z) : string := String.concat "" (replicate (Z.to_nat n) "0").

(** [d * 10^x] without an exponent. *)
Definition render_decimal (d x : Z) : string :=
  let s := dec d in
  if (0 <=? x)%Z then s +:+ zeros x
  else
    let k := (- x)%Z in
    let len := Z.of_nat (String.length s) in
    if (k <? len)%Z then
      String.substring 0%nat (Z.to_nat (len - k)) s +:+ "."
        +:+ String.substring (Z.to_nat (len - k)) (Z.to_nat k) s
    else "0." +:+ zeros (k - len) +:+ s.

(** The shortest decimal that reads back as [v = n/d], closest to [v]:
    [len] digits are tried from one upwards, and 17 always suffice. *)
Fixpoint shortest (fuel : nat) (v : f64) (n d p len : Z) : Z * Z :=
  match fuel with
  | O => (0, 0)%Z
  | S fuel =>
      let x := (p - len)%Z in
      let '(n', d') := if (0 <=? x)%Z then (n, d * 10 ^ x)%Z else (n * 10 ^ (- x), d)%Z in
      let lo := (n' / d')%Z in
      let lo_ok := bool_decide (round_dec false lo x = v) in
      let hi_ok := bool_decide (round_dec false (lo + 1) x = v) in
      if lo_ok && (negb hi_ok || (2 * (n' mod d') <? d')%Z) then (lo, x)
      else if hi_ok then ((lo + 1)%Z, x)
      else shortest fuel v n d p (len + 1)
  end.

(** [Display for f64], that is [f64::to_string]. *)
Definition f64_to_string (v : f64) : string :=
  match v with
  | S754_nan => "NaN"
  | S754_infinity s => (if s then "-" else "") +:+ "inf"
  | S754_zero s => (if s then "-" else "") +:+ "0"
  | S754_finite s m e =>
      let '(n, d) :=
        if (0 <=? e)%Z then (Zpos m * 2 ^ e, 1)%Z else (Zpos m, 2 ^ (- e))%Z in
      let '(ds, x) := shortest 17%nat (S754_finite false m e) n d (exponent10 n d) 1 in
      let '(ds, x) := strip_zeros 17%nat ds x in
      (if s then "-" else "") +:+ render_decimal ds x
  end.

(** [f64::is_finite]. *)
Definition f64_is_finite (v : f64) : bool :=
  match v with S754_zero _ | S754_finite _ _ _ => true | _ => false end.

(** [v.fract() != 0.0]; infinities and NaN have a NaN fraction. *)
Definition f64_has_fract (v : f64) : bool :=
  match v with
  | S754_zero _ => false
  | S754_finite _ m e => if (0 <=? e)%Z then false else negb (Zpos m mod 2 ^ (- e) =? 0)%Z
  | _ => true
  end.

(** The comparison operators: every one is false on NaN. *)
Definition f64_lt (a b : f64) : bool := SFltb a b.
Definition f64_gt (a b : f64) : bool := SFltb b a.
Definition f64_le (a b : f64) : bool := SFleb a b.

Lemma f64_lt_nan_l b : f64_lt S754_nan b = false.
Proof. by destruct b. Qed.
Lemma f64_gt_nan_l b : f64_gt S754_nan b = false.
Proof. by destruct b as [[]|[]| |[]]. Qed.

(** The comparisons are total away from NaN. *)
Lemma SFcompare_swap a b c : SFcompare a b = Some c → SFcompare b a = Some (CompOpp c).
Proof.
  destruct a as [s1|s1| |s1 m1 e1], b as [s2|s2| |s2 m2 e2]; cbn;
    try (destruct s1); try (destruct s2); try (by intros [= <-]); try done;
    rewrite (Z.compare_antisym e1 e2); destruct (e1 ?= e2)%Z; cbn; intros [= <-]; try done;
    pose proof (Pos.compare_cont_antisym m1 m2 Eq) as E; cbn in E; rewrite <- E;
    by destruct (Pos.compare_cont Eq m1 m2).
Qed.

Lemma SFcompare_Some a b : a ≠ S754_nan → b ≠ S754_nan → is_Some (SFcompare a b).
Proof. destruct a as [[]|[]| |[]], b as [[]|[]| |[]]; cbn; intros; try done; eauto; by case_match; eauto. Qed.

Lemma f64_not_lt_le a b : a ≠ S754_nan → b ≠ S754_nan → f64_lt a b = false → f64_le b a = true.
Proof.
  intros A B. unfold f64_lt, f64_le, SFltb, SFleb. destruct (SFcompare_Some a b A B) as [c E].
  rewrite E, (SFcompare_swap _ _ _ E). by destruct c.
Qed.

Example parse_display_1 : f64_to_string <$> parse_f64 "3.14" = Some "3.14".
Proof. vm_compute. reflexivity. Qed.
Example parse_display_2 : f64_to_string <$> parse_f64 "0.1" = Some "0.1".
Proof. vm_compute. reflexivity. Qed.
Example parse_display_3 : f64_to_string <$> parse_f64 "-1e21" = Some "-1000000000000000000000".
Proof. vm_compute. reflexivity. Qed.
Example parse_display_4 : f64_to_string <$> parse_f64 "1e-7" = Some "0.0000001".
Proof. vm_compute. reflexivity. Qed.
Example parse_display_5 :
  parse_f64 "1.797693134862315807938e308" = Some f64_infinity
  ∧ f64_is_finite <$> parse_f64 "1.797693134862315807937e308" = Some true.
Proof. by vm_compute. Qed.
Example parse_display_6 : f64_to_string <$> parse_f64 "123456789.125" = Some "123456789.125".
Proof. vm_compute. reflexivity. Qed.
Example parse_display_7 : f64_to_string <$> parse_f64 "5e-324" = Some ("0." +:+ zeros 323 +:+ "5").
Proof. vm_compute. reflexivity. Qed.
Example parse_display_8 : f64_to_string <$> parse_f64 "9007199254740993" = Some "9007199254740992".
Proof. vm_compute. reflexivity. Qed.
Example parse_display_9 : parse_f64 "1.2.3" = None ∧ parse_f64 "." = None ∧ parse_f64 "nAn" = Some S754_nan.
Proof. by vm_compute. Qed.

(** The characters a float prints with. *)
Definition f64_char (c : ascii) : bool :=
  is_ascii_digit c || bool_decide (c ∈ ["-"%char; "."%char; "N"%char; "a"%char; "i"%char; "n"%char; "f"%char]).

Lemma str_forall_substring p n m s :
  str_forall p s = true → str_forall p (String.substring n m s) = true.
Proof.
  revert n m. induction s as [|c s IH]; intros n m; cbn; [by destruct n, m|].
  intros [Hc Hs]%andb_true_iff. destruct n as [|n]; [destruct m as [|m]|]; cbn; auto.
  rewrite Hc. by apply IH.
Qed.

Lemma zeros_chars n : str_forall f64_char (zeros n) = true.
Proof.
  unfold zeros. apply (join_forall f64_char ""); [done|]. apply Forall_replicate. done.
Qed.

Lemma pretty_Z_chars (z : Z) : str_forall f64_char (pretty z) = true.
Proof.
  assert (∀ n : N, str_forall f64_char (pretty n) = true) as Hn.
  { intros n. eapply str_forall_impl; [|apply (pretty_N_value n)].
    intros c Hc. unfold f64_char. by rewrite Hc. }
  unfold pretty, pretty_Z. destruct z as [|p|p]; [apply (Hn 0%N)|apply (Hn (Npos p))|].
  rewrite str_app_cons. cbn [str_forall]. apply (Hn (Npos p)).
Qed.

Lemma render_decimal_chars d x : str_forall f64_char (render_decimal d x) = true.
Proof.
  unfold render_decimal, dec. pose proof (pretty_Z_chars d) as Hd. revert Hd.
  generalize (pretty d). intros s Hs. cbv zeta.
  repeat case_match; rewrite !str_forall_app, ?zeros_chars, ?Hs, ?str_forall_substring by done; done.
Qed.

Lemma f64_to_string_chars v : str_forall f64_char (f64_to_string v) = true.
Proof.
  destruct v as [s|s| |s m e]; cbn [f64_to_string]; [by destruct s|by destruct s|done|].
  cut (∃ ds x, f64_to_string (S754_finite s m e) = (if s then "-" else "") +:+ render_decimal ds x).
  { cbn [f64_to_string]. intros (ds & x & ->). rewrite str_forall_app, render_decimal_chars. by destruct s. }
  cbn [f64_to_string].
  destruct (0 <=? e)%Z; destruct (shortest _ _ _ _ _ _) as [ds x];
    destruct (strip_zeros _ _ _) as [ds' x']; by do 2 eexists.
Qed.
