(* ===== verification/Filter.v ===== *)
(** The filter language of [crates/db/src/query/filter.rs]: tokens, lexer,
    AST and precedence parser.

    The lexer's state is the input that is left ([input[position..]]); the
    parser's is the tokens that are left and the nesting depth. Loops run on
    fuel, and [tokenize_total] and [parse_total] show that the fuel the entry
    points pass is never used up. *)
From S2P Require Import Prelude CoreError F64.

Definition MAX_TOKENS : nat := 512.
Definition MAX_DEPTH : nat := 32.

(** * Syntax *)

Inductive CompareOp :=
  | OEq | ONotEq | OGt | OGte | OLt | OLte | OLike | ONotLike | OAny | ONotAny.

(** [CompareOp::as_str]. *)
Definition op_as_str (op : CompareOp) : string :=
  match op with
  | OEq => "="
  | ONotEq => "!="
  | OGt => ">"
  | OGte => ">="
  | OLt => "<"
  | OLte => "<="
  | OLike => "~"
  | ONotLike => "!~"
  | OAny => "?="
  | ONotAny => "?!="
  end.

Inductive AuthRef :=
  | ARId
  | AREmail
  | ARCollectionId
  | ARCollectionName
  | ARClaim (name : string).

Inductive Operand :=
  | OpText (s : string)
  | OpNumber (n : f64)
  | OpBool (b : bool)
  | OpNull
  | OpNow
  | OpAuth (r : AuthRef).

Inductive Side :=
  | SPath (path : list string)
  | SValue (v : Operand).

Inductive Expr :=
  | EAnd (l r : Expr)
  | EOr (l r : Expr)
  | ECompare (left : Side) (op : CompareOp) (right : Side).

Inductive Token :=
  | TPath (path : list string)
  | TText (s : string)
  | TNumber (n : f64)
  | TBool (b : bool)
  | TNull
  | TNow
  | TAuth (r : AuthRef)
  | TOp (op : CompareOp)
  | TAnd
  | TOr
  | TLParen
  | TRParen.

#[export] Instance CompareOp_eq_dec : EqDecision CompareOp.
Proof. solve_decision. Defined.
#[export] Instance AuthRef_eq_dec : EqDecision AuthRef.
Proof. solve_decision. Defined.
#[export] Instance Operand_eq_dec : EqDecision Operand.
Proof. solve_decision. Defined.
#[export] Instance Side_eq_dec : EqDecision Side.
Proof. solve_decision. Defined.
#[export] Instance Expr_eq_dec : EqDecision Expr.
Proof. solve_decision. Defined.
#[export] Instance Token_eq_dec : EqDecision Token.
Proof. solve_decision. Defined.

(** * Lexer *)

(** [Lexer::read_string], after the opening quote. *)
Definition unescape (c : ascii) : option ascii :=
  if decide (c = backslash) then Some backslash
  else if decide (c = tick_char) then Some tick_char
  else if decide (c = quote_char) then Some quote_char
  else if decide (c = "n"%char) then Some "010"%char
  else if decide (c = "r"%char) then Some "013"%char
  else if decide (c = "t"%char) then Some "009"%char
  else None.

Fixpoint read_string (quote : ascii) (s : string) : result (string * string) :=
  match s with
  | EmptyString => Err Invalid
  | String c r =>
      if decide (c = quote) then Ok ("", r)
      else if decide (c = backslash) then
        match r with
        | EmptyString => Err Invalid
        | String e r' =>
            match unescape e with
            | Some x => '(out, rest) ← read_string quote r'; Ok (String x out, rest)
            | None => Err Invalid
            end
        end
      else '(out, rest) ← read_string quote r; Ok (String c out, rest)
  end.

(** The longest prefix of characters satisfying [p], and the rest. *)
Fixpoint span (p : ascii → bool) (s : string) : string * string :=
  match s with
  | EmptyString => ("", "")
  | String c r =>
      if p c then let '(a, b) := span p r in (String c a, b) else ("", s)
  end.

(** [Lexer::read_number_digits]. *)
Definition read_number_digits : string → string * string :=
  span (λ c, is_ascii_digit c || bool_decide (c = "."%char)).

(** [Lexer::read_ident_word]. *)
Definition is_word_char (c : ascii) : bool :=
  is_ascii_alphanumeric c || bool_decide (c = "_"%char) || bool_decide (c = "."%char).
Definition read_ident_word : string → string * string := span is_word_char.

(** [parse_number]. *)
Definition parse_number (digits : string) : result f64 := ok_or (parse_f64 digits) Invalid.

(** The identifier check of a path segment, shared (in spelling) by
    [read_word], [sort::validate_segment] and [projection::split_path]. *)
Definition is_ident_start (c : ascii) : bool :=
  is_ascii_alphabetic c || bool_decide (c = "_"%char).
Definition is_ident_char (c : ascii) : bool :=
  is_ascii_alphanumeric c || bool_decide (c = "_"%char).
Definition valid_segment (s : string) : bool :=
  match s with
  | EmptyString => false
  | String c r => is_ident_start c && str_forall is_ident_char r
  end.

(** [Lexer::read_at_reference], after the [@]. *)
Definition at_reference (word : string) : result Token :=
  match filter (λ s, s ≠ "") (split_on "." word) with
  | ["now"] => Ok TNow
  | ["request"; "auth"; property] =>
      Ok (TAuth (if decide (property = "id") then ARId
                 else if decide (property = "email") then AREmail
                 else if decide (property = "collectionId") then ARCollectionId
                 else if decide (property = "collectionName") then ARCollectionName
                 else ARClaim property))
  | _ => Err Invalid
  end.

Definition read_at_reference (s : string) : result (Token * string) :=
  let '(word, rest) := read_ident_word s in
  t ← at_reference word; Ok (t, rest).

(** [Lexer::read_word]. *)
Definition word_token (word : string) : result Token :=
  if decide (word = "true") then Ok (TBool true)
  else if decide (word = "false") then Ok (TBool false)
  else if decide (word = "null") then Ok TNull
  else
    let segments := split_on "." word in
    if forallb valid_segment segments then Ok (TPath segments) else Err Invalid.

Definition read_word (s : string) : result (Token * string) :=
  let '(word, rest) := read_ident_word s in
  t ← word_token word; Ok (t, rest).

(** One iteration of [Lexer::tokenize]'s loop, at a character that is not
    white space. *)
Definition next_token (c : ascii) (r : string) : result (Token * string) :=
  if decide (c = "("%char) then Ok (TLParen, r)
  else if decide (c = ")"%char) then Ok (TRParen, r)
  else if decide (c = "&"%char) then
    match r with String "&" r => Ok (TAnd, r) | _ => Err Invalid end
  else if decide (c = "|"%char) then
    match r with String "|" r => Ok (TOr, r) | _ => Err Invalid end
  else if decide (c = quote_char ∨ c = tick_char) then
    '(out, rest) ← read_string c r; Ok (TText out, rest)
  else if decide (c = "@"%char) then read_at_reference r
  else if decide (c = "~"%char) then Ok (TOp OLike, r)
  else if decide (c = "="%char) then Ok (TOp OEq, r)
  else if decide (c = "!"%char) then
    match r with
    | String "=" r => Ok (TOp ONotEq, r)
    | String "~" r => Ok (TOp ONotLike, r)
    | _ => Err Invalid
    end
  else if decide (c = ">"%char) then
    match r with String "=" r => Ok (TOp OGte, r) | _ => Ok (TOp OGt, r) end
  else if decide (c = "<"%char) then
    match r with String "=" r => Ok (TOp OLte, r) | _ => Ok (TOp OLt, r) end
  else if decide (c = "?"%char) then
    match r with
    | String "=" r => Ok (TOp OAny, r)
    | String "!" (String "=" r) => Ok (TOp ONotAny, r)
    | _ => Err Invalid
    end
  else if bool_decide (c = "-"%char) && match r with String d _ => is_ascii_digit d | _ => false end then
    let '(digits, rest) := read_number_digits r in
    n ← parse_number (String "-" digits); Ok (TNumber n, rest)
  else if is_ascii_digit c then
    let '(digits, rest) := read_number_digits (String c r) in
    n ← parse_number digits; Ok (TNumber n, rest)
  else if is_ascii_alphabetic c || bool_decide (c = "_"%char) then read_word (String c r)
  else Err Invalid.

Fixpoint tokenize_loop (fuel : nat) (s : string) : option (result (list Token)) :=
  match fuel with
  | O => None
  | S fuel =>
      match trim_start s with
      | EmptyString => Some (Ok [])
      | String c r =>
          match next_token c r with
          | Err e => Some (Err e)
          | Ok (t, rest) =>
              match tokenize_loop fuel rest with
              | Some (Ok ts) => Some (Ok (t :: ts))
              | other => other
              end
          end
      end
  end.

(** [Lexer::tokenize]. *)
Definition tokenize (s : string) : result (list Token) :=
  default (Err Internal) (tokenize_loop (S (String.length s)) s).

(** * Parser *)

(** A parsing step: [None] is fuel exhaustion; otherwise the outcome and the
    tokens that are left. *)
Abbreviation step A := (option (result (A * list Token))).

Definition sbind {A B} (k : A → list Token → step B) (m : step A) : step B :=
  match m with
  | None => None
  | Some (Err e) => Some (Err e)
  | Some (Ok (a, ts)) => k a ts
  end.

(** [Parser::parse_side]. *)
Definition parse_side (ts : list Token) : result (Side * list Token) :=
  match ts with
  | TPath path :: ts => Ok (SPath path, ts)
  | TText v :: ts => Ok (SValue (OpText v), ts)
  | TNumber v :: ts => Ok (SValue (OpNumber v), ts)
  | TBool v :: ts => Ok (SValue (OpBool v), ts)
  | TNull :: ts => Ok (SValue OpNull, ts)
  | TNow :: ts => Ok (SValue OpNow, ts)
  | TAuth r :: ts => Ok (SValue (OpAuth r), ts)
  | _ => Err Invalid
  end.

(** [Parser::parse_compare_from]. *)
Definition parse_compare_from (left : Side) (ts : list Token) : result (Expr * list Token) :=
  match ts with
  | TOp op :: ts => '(rhs, ts) ← parse_side ts; Ok (ECompare left op rhs, ts)
  | _ => Err Invalid
  end.

(** The [while matches!(self.peek(), Some(token))] loops of [parse_or] and
    [parse_and]. *)
Fixpoint infix_loop (tok : Token) (mk : Expr → Expr → Expr)
    (operand : list Token → step Expr) (fuel : nat) (left : Expr) (ts : list Token)
    : step Expr :=
  match fuel with
  | O => None
  | S fuel =>
      match ts with
      | t :: ts' =>
          if decide (t = tok) then
            sbind (λ right ts'', infix_loop tok mk operand fuel (mk left right) ts'')
              (operand ts')
          else Some (Ok (left, ts))
      | [] => Some (Ok (left, ts))
      end
  end.

(** [Parser::parse_or], [parse_and] and [parse_comparison]. [depth] is the
    parser's field on entry; [parse_or] is the only one that enters a level,
    and it leaves it on return, so the depth is passed down. *)
Fixpoint parse_or (fuel depth : nat) (ts : list Token) : step Expr :=
  match fuel with
  | O => None
  | S fuel =>
      let depth := S depth in
      if decide (MAX_DEPTH < depth) then Some (Err Invalid)
      else
        let parse_comparison ts :=
          match ts with
          | TLParen :: ts =>
              sbind (λ inner ts,
                match ts with
                | TRParen :: ts => Some (Ok (inner, ts))
                | _ => Some (Err Invalid)
                end) (parse_or fuel depth ts)
          | TPath path :: ts => Some (parse_compare_from (SPath path) ts)
          | TAuth r :: ts => Some (parse_compare_from (SValue (OpAuth r)) ts)
          | TNow :: ts => Some (parse_compare_from (SValue OpNow) ts)
          | _ => Some (Err Invalid)
          end in
        let parse_and ts :=
          sbind (infix_loop TAnd EAnd parse_comparison fuel) (parse_comparison ts) in
        sbind (infix_loop TOr EOr parse_and fuel) (parse_and ts)
  end.

(** The parser half of [parse_optional]: everything after the token limit. *)
Definition parse_tokens (ts : list Token) : result Expr :=
  match parse_or (S (length ts)) 0 ts with
  | Some (Ok (e, [])) => Ok e
  | Some (Ok (_, _ :: _)) => Err Invalid
  | Some (Err e) => Err e
  | None => Err Internal
  end.

(** [parse_optional]. *)
Definition parse_optional (input : string) : result (option Expr) :=
  if decide (trim input = "") then Ok None
  else
    tokens ← tokenize input;
    if decide (MAX_TOKENS < length tokens) then Err Invalid
    else Some <$> parse_tokens tokens.

(** [parse]. *)
Definition parse (input : string) : result Expr :=
  o ← parse_optional input;
  match o with Some e => Ok e | None => Err Invalid end.

Example parse_precedence :
  parse "a = 1 && b ~ 'x' || (c.d != @request.auth.id)"
  = Ok (EOr (EAnd (ECompare (SPath ["a"]) OEq (SValue (OpNumber (f64_of_Z 1))))
                  (ECompare (SPath ["b"]) OLike (SValue (OpText "x"))))
            (ECompare (SPath ["c"; "d"]) ONotEq (SValue (OpAuth ARId)))).
Proof. vm_compute. reflexivity. Qed.
