(* ===== verification/FilterSpec.v ===== *)
(** What the filter parser promises: it accepts exactly the grammar below, with
    its precedences and its nesting limit. The round trip through the text is
    in FilterText.v. *)
From S2P Require Import Prelude CoreError F64 Filter.

Local Set Warnings "-register-all,-clear-no-such-hyp".

(** * The grammar *)

(** A left-associative chain of [G]s separated by [tok]. *)
Inductive chain (tok : Token) (mk : Expr → Expr → Expr) (G : list Token → Expr → Prop)
    : list Token → Expr → Prop :=
  | chain_one ts e : G ts e → chain tok mk G ts e
  | chain_more ts1 ts2 e1 e2 :
      chain tok mk G ts1 e1 → G ts2 e2 → chain tok mk G (ts1 ++ tok :: ts2) (mk e1 e2).

(** The token of an operand. *)
Definition side_token (s : Side) : Token :=
  match s with
  | SPath p => TPath p
  | SValue (OpText v) => TText v
  | SValue (OpNumber v) => TNumber v
  | SValue (OpBool v) => TBool v
  | SValue OpNull => TNull
  | SValue OpNow => TNow
  | SValue (OpAuth r) => TAuth r
  end.

(** What may stand on the left of an operator. *)
Definition left_side (s : Side) : bool :=
  match s with
  | SPath _ | SValue (OpAuth _) | SValue OpNow => true
  | _ => false
  end.

(** [comparison n]: a comparison, or a parenthesised expression with at most
    [n] levels of parentheses. *)
Inductive comparison : nat → list Token → Expr → Prop :=
  | comparison_rel n l op r :
      left_side l = true →
      comparison n [side_token l; TOp op; side_token r] (ECompare l op r)
  | comparison_paren n ts e :
      chain TOr EOr (chain TAnd EAnd (comparison n)) ts e →
      comparison (S n) (TLParen :: ts ++ [TRParen]) e.

Definition conjunction (n : nat) : list Token → Expr → Prop :=
  chain TAnd EAnd (comparison n).
Definition disjunction (n : nat) : list Token → Expr → Prop :=
  chain TOr EOr (conjunction n).

(** * Soundness *)

Lemma sbind_Ok {A B} (k : A → list Token → step B) m b rest :
  sbind k m = Some (Ok (b, rest)) ↔
  ∃ a ts, m = Some (Ok (a, ts)) ∧ k a ts = Some (Ok (b, rest)).
Proof. destruct m as [[[a ts]|e]|]; cbn; naive_solver. Qed.

(** An operand parser consumes a prefix that the grammar derives. *)
Definition sound (G : list Token → Expr → Prop) (p : list Token → step Expr) : Prop :=
  ∀ ts e rest, p ts = Some (Ok (e, rest)) → ∃ pre, ts = pre ++ rest ∧ G pre e.

Section chains.
Context (tok : Token) (mk : Expr → Expr → Expr) (G : list Token → Expr → Prop).
Context (operand : list Token → step Expr).

Lemma infix_loop_sound (Hs : sound G operand) fuel left ts e rest pre :
  infix_loop tok mk operand fuel left ts = Some (Ok (e, rest)) →
  chain tok mk G pre left →
  ∃ mid, ts = mid ++ rest ∧ chain tok mk G (pre ++ mid) e.
Proof.
  revert left ts pre. induction fuel as [|fuel IH]; intros left ts pre; [done|].
  destruct ts as [|t ts]; cbn.
  { intros [= <- <-] ?. exists []. split; [done|]. by rewrite app_nil_r. }
  case_decide as Ht; [subst t|]; last first.
  { intros [= <- <-] ?. exists []. split; [done|]. by rewrite app_nil_r. }
  intros (right_ & ts' & Hop & Hl)%sbind_Ok Hpre.
  apply Hs in Hop as (p2 & -> & Hp2).
  destruct (IH _ _ (pre ++ tok :: p2) Hl) as (mid & -> & Hc); [by constructor|].
  exists (tok :: p2 ++ mid). split; [cbn; by rewrite app_assoc|].
  rewrite <-app_assoc in Hc. exact Hc.
Qed.

Lemma chain_parser_sound (Hs : sound G operand) fuel :
  sound (chain tok mk G)
    (λ ts, sbind (infix_loop tok mk operand fuel) (operand ts)).
Proof.
  intros ts e rest (a & ts' & Hop & Hl)%sbind_Ok.
  apply Hs in Hop as (pre & -> & HG).
  destruct (infix_loop_sound Hs _ _ _ _ _ pre Hl) as (mid & -> & ?);
    [by constructor|].
  exists (pre ++ mid). by rewrite <-app_assoc.
Qed.

(** Completeness: after [chain ts e], the loop is entered with [e]. *)
Lemma chain_parser_complete (P : list Token → Prop) ts e :
  chain tok mk G ts e →
  (∀ ts, P (tok :: ts)) →
  (∀ ts e rest, G ts e → P rest → operand (ts ++ rest) = Some (Ok (e, rest))) →
  ∃ m, (∀ k, (∀ ts e, G ts e → k ≤ length ts) → m + k ≤ length ts) ∧
    ∀ fuel rest, P rest →
      sbind (infix_loop tok mk operand (m + fuel)) (operand (ts ++ rest))
      = infix_loop tok mk operand fuel e rest.
Proof.
  intros Hc Htok Hop. induction Hc as [ts e HG|ts1 ts2 e1 e2 _ (m & Hm & IH) HG].
  - exists 0. split; [intros k Hk; by apply Hk in HG|].
    intros fuel rest HP. by rewrite (Hop _ _ _ HG HP).
  - exists (S m). split.
    { intros k Hk. specialize (Hm k Hk). rewrite length_app. cbn. lia. }
    intros fuel rest HP. rewrite <-app_assoc. cbn [app].
    replace (S m + fuel) with (m + S fuel) by lia.
    rewrite IH by apply Htok. cbn. rewrite decide_True by done.
    by rewrite (Hop _ _ _ HG HP).
Qed.
End chains.

Lemma parse_side_spec ts s rest :
  parse_side ts = Ok (s, rest) ↔ ts = side_token s :: rest.
Proof.
  split.
  - intros H. destruct ts as [|[] ts]; by simplify_eq/=.
  - intros ->. by destruct s as [|[]].
Qed.

Lemma parse_compare_from_spec left ts e rest :
  parse_compare_from left ts = Ok (e, rest) ↔
  ∃ op r, ts = TOp op :: side_token r :: rest ∧ e = ECompare left op r.
Proof.
  split.
  - intros H. destruct ts as [|[] ts]; simplify_eq/=.
    apply bind_Ok in H as ([s ts'] & Hs & H). simplify_eq/=.
    apply parse_side_spec in Hs as ->. eauto.
  - intros (op & r & -> & ->). unfold parse_compare_from.
    by rewrite (proj2 (parse_side_spec (side_token r :: rest) r rest) eq_refl).
Qed.

(** [Parser::parse_comparison] on top of a [parse_or]. *)
Definition parse_cmp (p_or : list Token → step Expr) (ts : list Token) : step Expr :=
  match ts with
  | TLParen :: ts =>
      sbind (λ inner ts,
        match ts with
        | TRParen :: ts => Some (Ok (inner, ts))
        | _ => Some (Err Invalid)
        end) (p_or ts)
  | TPath path :: ts => Some (parse_compare_from (SPath path) ts)
  | TAuth r :: ts => Some (parse_compare_from (SValue (OpAuth r)) ts)
  | TNow :: ts => Some (parse_compare_from (SValue OpNow) ts)
  | _ => Some (Err Invalid)
  end.

Definition parse_conj (fuel : nat) (p_or : list Token → step Expr) (ts : list Token) :=
  sbind (infix_loop TAnd EAnd (parse_cmp p_or) fuel) (parse_cmp p_or ts).

Lemma parse_or_unfold fuel depth ts :
  parse_or (S fuel) depth ts =
  if decide (MAX_DEPTH < S depth) then Some (Err Invalid)
  else sbind (infix_loop TOr EOr (parse_conj fuel (parse_or fuel (S depth))) fuel)
         (parse_conj fuel (parse_or fuel (S depth)) ts).
Proof. done. Qed.

(** A comparison token list that is not parenthesised. *)
Lemma parse_cmp_rel p_or l ts :
  left_side l = true → parse_cmp p_or (side_token l :: ts) = Some (parse_compare_from l ts).
Proof. by destruct l as [|[]]. Qed.

Lemma parse_cmp_Ok p_or ts e rest :
  parse_cmp p_or ts = Some (Ok (e, rest)) →
  (∃ l op r, left_side l = true ∧ e = ECompare l op r
     ∧ ts = side_token l :: TOp op :: side_token r :: rest)
  ∨ (∃ ts', ts = TLParen :: ts' ∧ p_or ts' = Some (Ok (e, TRParen :: rest))).
Proof.
  assert (∀ l ts', left_side l = true →
    Some (parse_compare_from l ts') = Some (Ok (e, rest)) →
    ∃ l' op r, left_side l' = true ∧ e = ECompare l' op r
     ∧ side_token l :: ts' = side_token l' :: TOp op :: side_token r :: rest) as Hrel.
  { intros l ts' Hl [= H]. apply parse_compare_from_spec in H as (op & r & -> & ->).
    by exists l, op, r. }
  destruct ts as [|[] ts]; cbn; intros H; try done.
  - left. by apply (Hrel (SPath _)).
  - left. by apply (Hrel (SValue OpNow)).
  - left. by apply (Hrel (SValue (OpAuth _))).
  - right. apply sbind_Ok in H as (a & ts' & Hp & H).
    destruct ts' as [|[] ts']; simplify_eq/=. eauto.
Qed.

Lemma parse_or_sound fuel depth :
  sound (λ ts e, S depth ≤ MAX_DEPTH ∧ disjunction (MAX_DEPTH - S depth) ts e)
    (parse_or fuel depth).
Proof.
  revert depth. induction fuel as [|fuel IH]; intros depth ts e rest; [done|].
  rewrite parse_or_unfold. case_decide as Hd; [done|]. intros H.
  cut (∃ pre, ts = pre ++ rest ∧ disjunction (MAX_DEPTH - S depth) pre e).
  { intros (pre & -> & ?). exists pre. repeat split; [lia|done]. }
  eapply (chain_parser_sound _ _ (conjunction (MAX_DEPTH - S depth))); [|exact H].
  apply chain_parser_sound. clear ts e rest H. intros ts e rest H.
  apply parse_cmp_Ok in H as [(l & op & r & Hl & -> & ->)|(ts' & -> & H)].
  - exists [side_token l; TOp op; side_token r]. split; [done|by constructor].
  - apply IH in H as (pre & -> & Hd' & HG).
    exists (TLParen :: pre ++ [TRParen]). split; [cbn; by rewrite <-app_assoc|].
    replace (MAX_DEPTH - S depth) with (S (MAX_DEPTH - S (S depth))) by lia.
    by constructor.
Qed.

(** * Completeness *)

Definition no_tok (tok : Token) (rest : list Token) : Prop :=
  match rest with t :: _ => t ≠ tok | [] => True end.

Lemma infix_loop_stop tok mk operand fuel e rest :
  no_tok tok rest → infix_loop tok mk operand (S fuel) e rest = Some (Ok (e, rest)).
Proof. destruct rest as [|t rest]; cbn; intros; [done|]. by rewrite decide_False. Qed.

Lemma chain_length tok mk G k ts e :
  (∀ ts e, G ts e → k ≤ length ts) → chain tok mk G ts e → k ≤ length ts.
Proof.
  intros Hk. induction 1 as [|ts1 ts2]; [by eauto|]. rewrite length_app. lia.
Qed.

Lemma comparison_length n ts e : comparison n ts e → 3 ≤ length ts.
Proof.
  revert ts e. induction n as [|n IH]; intros ts e; inversion 1; subst; cbn; [lia..|].
  rewrite length_app. cbn. assert (3 ≤ length ts0); [|lia].
  eapply chain_length; [|done]. intros ? ?. by apply chain_length.
Qed.

Lemma parse_cmp_complete n p_or ts e rest :
  comparison n ts e →
  (∀ n' ts' e', n = S n' → disjunction n' ts' e' → length ts' + 2 ≤ length ts →
     p_or (ts' ++ TRParen :: rest) = Some (Ok (e', TRParen :: rest))) →
  parse_cmp p_or (ts ++ rest) = Some (Ok (e, rest)).
Proof.
  destruct 1 as [n l op r Hl|n ts e HG]; intros Hor.
  - cbn [app]. rewrite parse_cmp_rel by done. do 2 f_equal.
    apply parse_compare_from_spec. eauto.
  - cbn. rewrite <-app_assoc. cbn. rewrite (Hor n ts e); [done..|].
    cbn. rewrite length_app. cbn. lia.
Qed.

Lemma parse_or_complete fuel depth ts e rest :
  S depth ≤ MAX_DEPTH → disjunction (MAX_DEPTH - S depth) ts e → length ts ≤ fuel →
  no_tok TOr rest → no_tok TAnd rest →
  parse_or (S fuel) depth (ts ++ rest) = Some (Ok (e, rest)).
Proof.
  revert depth ts e rest.
  induction fuel as [fuel IH] using lt_wf_ind; intros depth ts e rest Hd HG Hlen Ho Ha.
  set (n := MAX_DEPTH - S depth) in *.
  assert (∀ ts e rest, comparison n ts e → length ts ≤ fuel →
    parse_cmp (parse_or fuel (S depth)) (ts ++ rest) = Some (Ok (e, rest))) as Hcmp.
  { intros ts' e' rest' HG' Hl'. eapply parse_cmp_complete; [done|].
    intros n' ts1 e1 Hn Hdis Hl1.
    destruct fuel as [|fuel]; [lia|].
    apply IH; [lia|lia| |lia|done|done].
    by replace (MAX_DEPTH - S (S depth)) with n' by lia. }
  assert (Hcl : ∀ ts e, comparison n ts e → 3 ≤ length ts) by apply comparison_length.
  assert (∀ ts e, conjunction n ts e → 3 ≤ length ts) as Hjl
    by (intros ? ?; by apply chain_length).
  assert (∀ ts e rest, conjunction n ts e → length ts ≤ fuel → no_tok TAnd rest →
    parse_conj fuel (parse_or fuel (S depth)) (ts ++ rest) = Some (Ok (e, rest))) as Hconj.
  { intros ts' e' rest' HG' Hl' Hr'.
    destruct (chain_parser_complete TAnd EAnd
      (λ ts e, comparison n ts e ∧ length ts ≤ fuel)
      (parse_cmp (parse_or fuel (S depth))) (λ _, True) ts' e') as (m & Hm & Hp);
      [|done|naive_solver|].
    { clear Hr' rest'. induction HG' as [|ts1 ts2 ? ? ? IHc]; [by constructor|].
      rewrite length_app in Hl'. cbn in Hl'. constructor; [|split; [done|lia]].
      apply IHc. lia. }
    specialize (Hm 3 ltac:(naive_solver)).
    specialize (Hp (S (fuel - S m)) rest' I).
    replace (m + S (fuel - S m)) with fuel in Hp by lia.
    unfold parse_conj. rewrite Hp. by apply infix_loop_stop. }
  rewrite parse_or_unfold, decide_False by lia.
  destruct (chain_parser_complete TOr EOr
    (λ ts e, conjunction n ts e ∧ length ts ≤ fuel)
    (parse_conj fuel (parse_or fuel (S depth))) (no_tok TAnd) ts e) as (m & Hm & Hp);
    [|done|naive_solver|].
  { clear Ho Ha rest. unfold disjunction in HG.
    induction HG as [|ts1 ts2 ? ? ? IHc]; [by constructor|].
    rewrite length_app in Hlen. cbn in Hlen. constructor; [|split; [done|lia]].
    apply IHc. lia. }
  specialize (Hm 3 ltac:(naive_solver)).
  specialize (Hp (S (fuel - S m)) rest Ha).
  replace (m + S (fuel - S m)) with fuel in Hp by lia.
  rewrite Hp. by apply infix_loop_stop.
Qed.

(** * Fuel *)

(** [total k p]: [p] returns on every list of at most [k] tokens. *)
Definition total (k : nat) (p : list Token → step Expr) : Prop :=
  ∀ ts, length ts ≤ k → p ts ≠ None.

(** A parser that returns has consumed at least one token. *)
Definition consumes (p : list Token → step Expr) : Prop :=
  ∀ ts e rest, p ts = Some (Ok (e, rest)) → length rest < length ts.

Lemma sbind_None {A B} (k : A → list Token → step B) m :
  sbind k m = None ↔ m = None ∨ ∃ a ts, m = Some (Ok (a, ts)) ∧ k a ts = None.
Proof. destruct m as [[[a ts]|e]|]; cbn; naive_solver. Qed.

Lemma infix_loop_total tok mk operand fuel e ts :
  consumes operand → total (length ts) operand → length ts < fuel →
  infix_loop tok mk operand fuel e ts ≠ None.
Proof.
  intros Hc. revert e ts. induction fuel as [|fuel IH]; intros e ts Ht Hf; [lia|].
  destruct ts as [|t ts]; cbn in *; [done|]. case_decide; [|done].
  intros [Hn|(a & ts' & Hop & Hn)]%sbind_None; [by apply (Ht ts); [lia|]|].
  revert Hn. apply Hc in Hop as Hl. apply IH; [|lia].
  intros ts'' Hl''. apply Ht. lia.
Qed.

Lemma infix_loop_length tok mk operand fuel e ts e' rest :
  consumes operand → infix_loop tok mk operand fuel e ts = Some (Ok (e', rest)) →
  length rest ≤ length ts.
Proof.
  intros Hc. revert e ts. induction fuel as [|fuel IH]; intros e ts; [done|].
  destruct ts as [|t ts]; cbn; [by intros [= _ <-]|].
  case_decide; [|by intros [= _ <-]].
  intros (a & ts' & Hop & Hl)%sbind_Ok. apply Hc in Hop. apply IH in Hl. lia.
Qed.

Lemma chain_parser_consumes tok mk operand fuel :
  consumes operand → consumes (λ ts, sbind (infix_loop tok mk operand fuel) (operand ts)).
Proof.
  intros Hc ts e rest (a & ts' & Hop & Hl)%sbind_Ok.
  apply Hc in Hop. apply infix_loop_length in Hl; [lia|done].
Qed.

Lemma chain_parser_total tok mk operand fuel k :
  consumes operand → total k operand → k ≤ fuel →
  total k (λ ts, sbind (infix_loop tok mk operand fuel) (operand ts)).
Proof.
  intros Hc Ht Hk ts Hts [Hn|(a & ts' & Hop & Hn)]%sbind_None; [by apply (Ht ts)|].
  revert Hn. apply Hc in Hop as Hl. apply infix_loop_total; [done| |lia].
  intros ts'' ?. apply Ht. lia.
Qed.

Lemma parse_cmp_consumes p_or : consumes p_or → consumes (parse_cmp p_or).
Proof.
  intros Hc ts e rest H.
  apply parse_cmp_Ok in H as [(l & op & r & Hl & -> & ->)|(ts' & -> & H)]; cbn; [lia|].
  apply Hc in H. cbn in *. lia.
Qed.

Lemma parse_cmp_total p_or k : total k p_or → total (S k) (parse_cmp p_or).
Proof.
  intros Ht ts Hts Hn.
  assert (∃ ts', ts = TLParen :: ts') as [ts' ->]
    by (destruct ts as [|[] ts]; naive_solver).
  cbn in *. apply sbind_None in Hn as [Hn|(a & ts'' & _ & Hn)].
  - apply (Ht ts'); [lia|done].
  - destruct ts'' as [|[] ?]; done.
Qed.

Lemma parse_or_consumes fuel depth : consumes (parse_or fuel depth).
Proof.
  revert depth. induction fuel as [|fuel IH]; intros depth ts e rest; [done|].
  rewrite parse_or_unfold. case_decide; [done|].
  apply chain_parser_consumes, chain_parser_consumes, parse_cmp_consumes, IH.
Qed.

Lemma parse_or_total fuel depth ts : length ts < fuel → parse_or fuel depth ts ≠ None.
Proof.
  revert depth ts. induction fuel as [|fuel IH]; intros depth ts Hl; [lia|].
  rewrite parse_or_unfold. case_decide; [done|].
  assert (Hc : consumes (parse_cmp (parse_or fuel (S depth))))
    by apply parse_cmp_consumes, parse_or_consumes.
  apply (chain_parser_total TOr EOr (parse_conj fuel (parse_or fuel (S depth))) fuel fuel);
    [by apply chain_parser_consumes| |lia|lia].
  apply chain_parser_total; [done| |lia].
  destruct fuel as [|fuel]; [|by apply parse_cmp_total; intros ??; apply IH; lia].
  intros [|? ?]; cbn; [done|lia].
Qed.

(** * The parser *)

Lemma parse_tokens_spec ts e :
  parse_tokens ts = Ok e ↔ disjunction (MAX_DEPTH - 1) ts e.
Proof.
  unfold parse_tokens. split.
  - destruct (parse_or _ 0 ts) as [[[e' [|]]|]|] eqn:H; intros [= ->].
    apply parse_or_sound in H as (pre & -> & _ & HG). by rewrite app_nil_r.
  - intros HG.
    assert (parse_or (S (length ts)) 0 (ts ++ []) = Some (Ok (e, []))) as H
      by (apply parse_or_complete; cbn; [unfold MAX_DEPTH; lia|done|lia|done|done]).
    by rewrite app_nil_r in H; rewrite H.
Qed.

Lemma parse_or_error fuel depth ts e : parse_or fuel depth ts = Some (Err e) → e = Invalid.
Proof.
  assert (Hside : ∀ l ts e', parse_compare_from l ts = Err e' → e' = Invalid).
  { intros l [|[] ts'] e'; cbn; try congruence.
    destruct ts' as [|[] ts']; cbn; congruence. }
  assert (Hloop : ∀ tok mk operand fuel left ts,
    (∀ ts, operand ts = Some (Err e) → e = Invalid) →
    infix_loop tok mk operand fuel left ts = Some (Err e) → e = Invalid).
  { intros tok mk operand f left ts' Ho. revert left ts'.
    induction f as [|f IHf]; intros left [|t ts']; cbn; try done.
    case_decide; [|done]. destruct (operand ts') as [[[]|]|] eqn:Hop; cbn; [apply IHf| |done].
    intros [= ->]. eauto. }
  revert depth ts. induction fuel as [|fuel IH]; intros depth ts; [done|].
  assert (Hcmp : ∀ ts, parse_cmp (parse_or fuel (S depth)) ts = Some (Err e) → e = Invalid).
  { intros [|[] ts']; cbn; try (intros [= H]; by eauto); try congruence.
    destruct (parse_or fuel _ ts') as [[[? [|[] ?]]|]|] eqn:Hp; cbn; try congruence.
    intros [= ->]. eauto. }
  assert (Hconj : ∀ ts, parse_conj fuel (parse_or fuel (S depth)) ts = Some (Err e) → e = Invalid).
  { intros ts'. unfold parse_conj.
    destruct (parse_cmp _ ts') as [[[]|]|] eqn:Hp; cbn; [by apply Hloop| |done].
    intros [= ->]. eauto. }
  rewrite parse_or_unfold. case_decide; [congruence|].
  destruct (parse_conj _ _ ts) as [[[]|]|] eqn:Hp; cbn; [by apply Hloop| |done].
  intros [= ->]. eauto.
Qed.

Lemma parse_tokens_error ts e : parse_tokens ts = Err e → e = Invalid.
Proof.
  unfold parse_tokens.
  pose proof (parse_or_total (S (length ts)) 0 ts ltac:(lia)) as Ht.
  destruct (parse_or _ 0 ts) as [[[e' [|]]|e']|] eqn:Hp; intros [= <-]; try done.
  by apply parse_or_error in Hp.
Qed.

(** * Paths *)

(** No comparison has an empty path: what [compile_path] expects. *)
Definition side_pathed (s : Side) : bool := match s with SPath [] => false | _ => true end.
Fixpoint well_pathed (e : Expr) : bool :=
  match e with
  | EAnd l r | EOr l r => well_pathed l && well_pathed r
  | ECompare l _ r => side_pathed l && side_pathed r
  end.

Definition token_pathed (t : Token) : Prop := t ≠ TPath [].

Lemma chain_pathed tok mk (G : list Token → Expr → Prop) ts e :
  (∀ l r, well_pathed (mk l r) = well_pathed l && well_pathed r) →
  (∀ ts e, G ts e → Forall token_pathed ts → well_pathed e = true) →
  chain tok mk G ts e → Forall token_pathed ts → well_pathed e = true.
Proof.
  intros Hmk HG. induction 1 as [ts e H|ts1 ts2 e1 e2 H1 IH1 H2]; [by apply HG|].
  intros [Ht1 [_ Ht2]%Forall_cons]%Forall_app.
  rewrite Hmk. apply andb_true_iff. split; [by apply IH1|by eapply HG].
Qed.

Lemma side_token_pathed s : token_pathed (side_token s) → side_pathed s = true.
Proof. destruct s as [[|]|[]]; cbn; intros H; try done; by destruct H. Qed.

Lemma comparison_pathed n ts e : comparison n ts e → Forall token_pathed ts → well_pathed e = true.
Proof.
  revert ts e. induction n as [|n IH]; intros ts e H; inversion H; subst; rewrite !Forall_cons.
  1,2: intros (Hl & _ & Hr & _); cbn; apply andb_true_iff; by split; apply side_token_pathed.
  intros [_ [Hts _]%Forall_app]. eapply (chain_pathed TOr EOr); [done| |done|done].
  intros ts' e' H'. eapply (chain_pathed TAnd EAnd); [done|exact IH|done].
Qed.

Lemma word_token_pathed w t : word_token w = Ok t → token_pathed t.
Proof.
  unfold word_token. repeat case_decide; try (by intros [= <-]).
  case_match; [|done]. intros [= <-] [= H']. by apply (split_on_nonempty "." w).
Qed.

Lemma next_token_pathed c r t rest : next_token c r = Ok (t, rest) → token_pathed t.
Proof.
  intros H. unfold next_token in H.
  repeat match type of H with
  | (if decide ?P then _ else _) = _ => destruct (decide P)
  | (if ?b then _ else _) = _ => destruct b
  | match ?s with _ => _ end = _ => destruct s
  end; try (injection H as <- <-; done); try done.
  all: try (unfold read_at_reference, read_word in H; destruct (read_ident_word _)).
  all: try (destruct (read_number_digits _)).
  all: apply bind_Ok in H as (x & Hx & H).
  all: try (destruct x); try (injection H as <- <-); try done.
  all: try (by eapply word_token_pathed).
  all: unfold at_reference in Hx; repeat case_match; simplify_eq/=; done.
Qed.

Lemma tokenize_pathed s ts : tokenize s = Ok ts → Forall token_pathed ts.
Proof.
  unfold tokenize. destruct (tokenize_loop _ s) as [r|] eqn:H; [|done]. cbn. intros ->.
  revert H. generalize (S (String.length s)). intros fuel. revert s ts.
  induction fuel as [|fuel IH]; intros s ts H; cbn in H; [done|].
  destruct (trim_start s) as [|c r]; [by injection H as <-|].
  destruct (next_token c r) as [[t rest]|] eqn:Hn; [|done].
  destruct (tokenize_loop fuel rest) as [[ts'|]|] eqn:Hl; [|done..].
  injection H as <-. constructor; [by eapply next_token_pathed|by eapply IH].
Qed.

Lemma parse_pathed s e : parse s = Ok e → well_pathed e = true.
Proof.
  unfold parse, parse_optional. case_decide; [done|].
  destruct (tokenize s) as [ts|] eqn:Ht; cbn; [|done]. case_decide; [done|].
  destruct (parse_tokens ts) as [e'|] eqn:Hp; cbn; [|done]. intros [= <-].
  apply parse_tokens_spec in Hp. apply tokenize_pathed in Ht.
  eapply (chain_pathed TOr EOr); [done| |exact Hp|done].
  intros ts' e1 H'. eapply (chain_pathed TAnd EAnd); [done|apply comparison_pathed|done].
Qed.
