(* ===== verification/FilterText.v ===== *)
(** The text of a filter: what the lexer does with printed tokens, and the
    round trip from an expression through its text. *)
From S2P Require Import Prelude CoreError F64 Filter FilterSpec.

Local Set Warnings "-clear-no-such-hyp".

(** * Printing *)

(** A text literal in double quotes. *)
Fixpoint escape_text (s : string) : string :=
  match s with
  | EmptyString => ""
  | String c r =>
      (if decide (c = backslash ∨ c = quote_char) then String backslash (String c "")
       else String c "") +:+ escape_text r
  end.

Definition auth_text (r : AuthRef) : string :=
  match r with
  | ARId => "id"
  | AREmail => "email"
  | ARCollectionId => "collectionId"
  | ARCollectionName => "collectionName"
  | ARClaim name => name
  end.

(** The text of a token; [spell] writes the numbers. *)
Definition token_text (spell : f64 → string) (t : Token) : string :=
  match t with
  | TPath p => join "." p
  | TText s => String quote_char (escape_text s +:+ String quote_char "")
  | TNumber n => spell n
  | TBool b => if b then "true" else "false"
  | TNull => "null"
  | TNow => "@now"
  | TAuth r => "@request.auth." +:+ auth_text r
  | TOp op => op_as_str op
  | TAnd => "&&"
  | TOr => "||"
  | TLParen => "("
  | TRParen => ")"
  end.

Fixpoint tokens_text (spell : f64 → string) (ts : list Token) : string :=
  match ts with
  | [] => ""
  | t :: ts => token_text spell t +:+ String " " (tokens_text spell ts)
  end.

(** The tokens of an expression, every operand of a connective that is itself
    a connective in parentheses. *)
Fixpoint expr_tokens (e : Expr) : list Token :=
  let atom e :=
    match e with
    | ECompare _ _ _ => expr_tokens e
    | _ => TLParen :: expr_tokens e ++ [TRParen]
    end in
  match e with
  | EAnd l r => atom l ++ TAnd :: atom r
  | EOr l r => atom l ++ TOr :: atom r
  | ECompare l op r => [side_token l; TOp op; side_token r]
  end.

Definition print (spell : f64 → string) (e : Expr) : string :=
  tokens_text spell (expr_tokens e).

(** The levels of parentheses [print] writes. *)
Fixpoint levels (e : Expr) : nat :=
  let atom e := match e with ECompare _ _ _ => 0 | _ => S (levels e) end in
  match e with
  | EAnd l r | EOr l r => atom l `max` atom r
  | ECompare _ _ _ => 0
  end.

(** * Printable expressions *)

Definition no_dot : string → bool := str_forall (λ d, bool_decide (d ≠ "."%char)).

(** A claim name the lexer reads back as a claim. *)
Definition claim_ok (name : string) : bool :=
  bool_decide (name ≠ "") && str_forall is_word_char name && no_dot name
  && bool_decide (name ∉ ["id"; "email"; "collectionId"; "collectionName"]).

(** A dotted path of identifiers that is not one of the three keywords. *)
Definition path_ok (p : list string) : bool :=
  bool_decide (p ≠ []) && forallb valid_segment p
  && bool_decide (join "." p ∉ ["true"; "false"; "null"]).

(** A spelling of a number the lexer reads back: an optional minus sign, a
    digit, then digits and dots. *)
Definition spelling_ok (s : string) (n : f64) : bool :=
  let digits := match s with String "-" r => r | _ => s end in
  match digits with String c _ => is_ascii_digit c | _ => false end
  && str_forall (λ c, is_ascii_digit c || bool_decide (c = "."%char)) digits
  && bool_decide (parse_f64 s = Some n).

Definition token_ok (spell : f64 → string) (t : Token) : bool :=
  match t with
  | TPath p => path_ok p
  | TNumber n => spelling_ok (spell n) n
  | TAuth (ARClaim name) => claim_ok name
  | _ => true
  end.

Fixpoint printable (spell : f64 → string) (e : Expr) : bool :=
  match e with
  | EAnd l r | EOr l r => printable spell l && printable spell r
  | ECompare l _ r =>
      left_side l && token_ok spell (side_token l) && token_ok spell (side_token r)
  end.

(** * The lexer on printed tokens *)

Lemma span_app p a c b :
  str_forall p a = true → p c = false → span p (a +:+ String c b) = (a, String c b).
Proof.
  intros Ha Hc. induction a as [|d a IH].
  - change (span p (String c b) = ("", String c b)). cbn. by rewrite Hc.
  - cbn in Ha. apply andb_true_iff in Ha as [Hd Ha]. rewrite str_app_cons. cbn.
    by rewrite Hd, IH.
Qed.

Lemma read_string_escape q s rest :
  q = quote_char →
  read_string q (escape_text s +:+ String q rest) = Ok (s, rest).
Proof.
  intros ->. induction s as [|c s IH].
  - change (read_string quote_char (String quote_char rest) = Ok ("", rest)).
    cbn. by rewrite decide_True.
  - cbn [escape_text]. case_decide as Hc.
    + str_simpl. cbn [read_string]. rewrite IH. by destruct Hc as [-> | ->].
    + str_simpl. cbn [read_string].
      rewrite decide_False by naive_solver. rewrite decide_False by naive_solver.
      by rewrite IH.
Qed.

Lemma is_ident_char_word c : is_ident_char c = true → is_word_char c = true.
Proof. unfold is_ident_char, is_word_char. intros ->. done. Qed.

Lemma valid_segment_chars s : valid_segment s = true → str_forall is_ident_char s = true.
Proof.
  destruct s as [|c s]; [done|]. cbn. intros [Hc Hs]%andb_true_iff. rewrite Hs, andb_true_r.
  unfold is_ident_start in Hc. unfold is_ident_char, is_ascii_alphanumeric.
  by destruct (is_ascii_alphabetic c), (bool_decide _), (is_ascii_digit c).
Qed.

Lemma is_ident_char_no_dot c : is_ident_char c = true → bool_decide (c ≠ "."%char) = true.
Proof. intros Hc. apply bool_decide_eq_true. by intros ->. Qed.

Lemma path_word_chars p :
  forallb valid_segment p = true → str_forall is_word_char (join "." p) = true.
Proof.
  intros Hp%forallb_Forall. apply join_forall; [done|].
  eapply Forall_impl; [exact Hp|]. intros s Hs.
  eapply str_forall_impl; [exact is_ident_char_word|]. by apply valid_segment_chars.
Qed.

Lemma word_token_path p : path_ok p = true → word_token (join "." p) = Ok (TPath p).
Proof.
  unfold path_ok, word_token. rewrite !andb_true_iff, !bool_decide_eq_true.
  intros [[Hne Hp] Hk]. rewrite !decide_False by set_solver.
  rewrite split_join; [by rewrite Hp|done|].
  apply forallb_Forall in Hp. eapply Forall_impl; [exact Hp|]. intros s Hs.
  eapply str_forall_impl; [exact is_ident_char_no_dot|]. by apply valid_segment_chars.
Qed.

Lemma at_reference_auth r :
  token_ok (λ _, "") (TAuth r) = true →
  at_reference ("request.auth." +:+ auth_text r) = Ok (TAuth r).
Proof.
  destruct r as [| | | |name]; try done. cbn. unfold claim_ok.
  rewrite !andb_true_iff, !bool_decide_eq_true. intros [[[Hne _] Hd] Hk].
  unfold at_reference.
  change ("request.auth." +:+ name) with ("request" +:+ String "." ("auth" +:+ String "." name)).
  rewrite !split_on_app, (split_on_none "."%char name) by done.
  rewrite !filter_cons_True by done. rewrite filter_nil.
  rewrite !decide_False by set_solver. done.
Qed.

Definition token_start (c : ascii) : bool := negb (is_ws1 c) && (byte_of c <? 194)%N.

Lemma trim_start_token c r : token_start c = true → trim_start (String c r) = String c r.
Proof.
  unfold token_start. intros [Hw Hb]%andb_true_iff. apply negb_true_iff in Hw.
  apply N.ltb_lt in Hb. cbn. rewrite Hw. destruct r as [|b r]; [done|].
  assert ((byte_of c =? 194)%N = false) as H1 by (apply N.eqb_neq; lia).
  unfold is_ws2. rewrite H1. cbn. destruct r as [|d r]; [done|].
  unfold is_ws3. rewrite !(proj2 (N.eqb_neq (byte_of c) _)) by lia. done.
Qed.

Lemma next_token_word c r : is_ident_start c = true → next_token c r = read_word (String c r).
Proof. by_bytes c. Qed.

Lemma ident_token_start c : is_ident_start c = true → token_start c = true.
Proof. by_bytes c. Qed.

Lemma next_token_digit c r :
  is_ascii_digit c = true →
  next_token c r =
    let '(digits, rest) := read_number_digits (String c r) in
    n ← parse_number digits; Ok (TNumber n, rest).
Proof. by_bytes c. Qed.

Lemma digit_token_start c : is_ascii_digit c = true → token_start c = true.
Proof. by_bytes c. Qed.

Lemma next_token_minus c r :
  is_ascii_digit c = true →
  next_token "-" (String c r) =
    let '(digits, rest) := read_number_digits (String c r) in
    n ← parse_number (String "-" digits); Ok (TNumber n, rest).
Proof. by_bytes c. Qed.

(** A printed token is lexed as that token, up to the space that follows. *)
Definition lexes (text : string) (t : Token) : Prop :=
  ∃ c r, text = String c r ∧ token_start c = true ∧
    ∀ rest, next_token c (r +:+ String " " rest) = Ok (t, String " " rest).

Lemma lexes_word w t c r :
  w = String c r → is_ident_start c = true → str_forall is_word_char w = true →
  word_token w = Ok t → lexes w t.
Proof.
  intros -> Hc Hw Ht. exists c, r. split; [done|]. split; [by apply ident_token_start|].
  intros rest. rewrite next_token_word by done. unfold read_word, read_ident_word.
  rewrite <-str_app_cons, span_app by done. by rewrite Ht.
Qed.

Lemma lexes_number s n : spelling_ok s n = true → lexes s (TNumber n).
Proof.
  unfold spelling_ok. rewrite !andb_true_iff, bool_decide_eq_true. intros [[Hd Hw] Hp].
  assert ((∃ c r, s = String c r ∧ is_ascii_digit c = true
       ∧ str_forall (λ c, is_ascii_digit c || bool_decide (c = "."%char)) s = true)
    ∨ (∃ c r, s = String "-" (String c r) ∧ is_ascii_digit c = true
       ∧ str_forall (λ c, is_ascii_digit c || bool_decide (c = "."%char)) (String c r) = true))
    as [(c & r & -> & Hc & Hr)|(c & r & -> & Hc & Hr)].
  { destruct s as [|c s]; [done|].
    destruct (decide (c = "-"%char)) as [->|Hne].
    - right. destruct s as [|d s]; [done|]. eauto.
    - left. exists c, s.
      assert (match String c s with String "-" r => r | _ => String c s end = String c s) as He.
      { destruct c as [[] [] [] [] [] [] [] []]; try done. }
      rewrite He in *. done. }
  - exists c, r. split; [done|]. split; [by apply digit_token_start|]. intros rest.
    rewrite next_token_digit by done. unfold read_number_digits, parse_number.
    rewrite <-str_app_cons, span_app by done. by rewrite Hp.
  - exists "-"%char, (String c r). split; [done|]. split; [done|]. intros rest.
    rewrite str_app_cons, next_token_minus by done. unfold read_number_digits, parse_number.
    rewrite <-str_app_cons, span_app by done. by rewrite Hp.
Qed.

Lemma join_cons_start p :
  p ≠ [] → forallb valid_segment p = true →
  ∃ c r, join "." p = String c r ∧ is_ident_start c = true.
Proof.
  destruct p as [|[|c s] p]; [done|done|]. intros _. cbn.
  rewrite !andb_true_iff. intros [[Hc _] _]. destruct p as [|s' p]; eauto.
Qed.

Lemma auth_text_word r :
  token_ok (λ _, "") (TAuth r) = true → str_forall is_word_char (auth_text r) = true.
Proof.
  destruct r; try done. cbn. unfold claim_ok. rewrite !andb_true_iff. naive_solver.
Qed.

Lemma lexes_fixed text t c r :
  text = String c r → token_start c = true →
  (∀ rest, next_token c (r +:+ String " " rest) = Ok (t, String " " rest)) → lexes text t.
Proof. intros. by exists c, r. Qed.

Lemma token_lexes spell t : token_ok spell t = true → lexes (token_text spell t) t.
Proof.
  destruct t as [p|s|n|b| | |r|op| | | |]; intros Ht.
  - pose proof Ht as Hp. unfold token_ok, path_ok in Hp.
    rewrite !andb_true_iff, !bool_decide_eq_true in Hp. destruct Hp as [[Hne Hp] _].
    destruct (join_cons_start p Hne Hp) as (c & r & Hj & Hc).
    eapply lexes_word; [exact Hj|done|by apply path_word_chars|by apply word_token_path].
  - eapply lexes_fixed; [done|done|]. intros rest. rewrite <-str_app_assoc. str_simpl.
    unfold next_token. cbn -[read_string quote_char]. by rewrite read_string_escape.
  - by apply lexes_number.
  - destruct b; eapply lexes_word; done.
  - by eapply lexes_word.
  - by eapply lexes_fixed.
  - eapply (lexes_fixed _ _ "@"%char); [done|done|]. intros rest.
    change (next_token "@" ?s) with (read_at_reference s).
    change (?f (?g ?x) +:+ String " " rest) with (("request.auth." +:+ auth_text r) +:+ String " " rest).
    unfold read_at_reference, read_ident_word. rewrite span_app; [|by rewrite str_forall_app, auth_text_word|done].
    by rewrite at_reference_auth.
  - destruct op; by eapply lexes_fixed.
  - by eapply lexes_fixed.
  - by eapply lexes_fixed.
  - by eapply lexes_fixed.
  - by eapply lexes_fixed.
Qed.

(** * Progress of the lexer *)

Lemma span_length p s a b : span p s = (a, b) → String.length b ≤ String.length s.
Proof.
  revert a b. induction s as [|c s IH]; cbn; intros a b; [by intros [= _ <-]|].
  destruct (p c); [|by intros [= _ <-]].
  destruct (span p s) as [a' b'] eqn:E. intros [= _ <-]. specialize (IH _ _ eq_refl). lia.
Qed.

Lemma read_string_length q s a b :
  read_string q s = Ok (a, b) → String.length b ≤ String.length s.
Proof.
  remember (String.length s) as n eqn:Hn. revert s a b Hn.
  induction n as [n IH] using lt_wf_ind. intros [|c s] a b ->; cbn; [done|].
  repeat case_decide; [by intros [= _ <-]; lia| |].
  - destruct s as [|e s]; [done|]. destruct (unescape e); [|done].
    intros ([a' b'] & Hr & [= _ <-])%bind_Ok. apply (IH (String.length s)) in Hr; cbn in *; lia.
  - intros ([a' b'] & Hr & [= _ <-])%bind_Ok. apply (IH (String.length s)) in Hr; cbn in *; lia.
Qed.

Lemma read_string_error q s e : read_string q s = Err e → e = Invalid.
Proof.
  remember (String.length s) as n eqn:Hn. revert s Hn.
  induction n as [n IH] using lt_wf_ind. intros [|c s] ->; cbn; [congruence|].
  repeat case_decide; [done| |].
  - destruct s as [|e' s]; [congruence|]. destruct (unescape e'); [|congruence].
    destruct (read_string q s) as [[? ?]|] eqn:Hr; cbn; [done|]. intros [= ->].
    apply (IH (String.length s)) in Hr; cbn in *; [done|lia|done].
  - destruct (read_string q s) as [[? ?]|] eqn:Hr; cbn; [done|]. intros [= ->].
    apply (IH (String.length s)) in Hr; cbn in *; [done|lia|done].
Qed.

Lemma at_reference_error w e : at_reference w = Err e → e = Invalid.
Proof. unfold at_reference. repeat case_match; congruence. Qed.

Lemma word_token_error w e : word_token w = Err e → e = Invalid.
Proof. unfold word_token. repeat (case_decide || case_match); congruence. Qed.

(** What a lexing step may return from [c :: r]. *)
Definition step_ok (r : string) (o : result (Token * string)) : Prop :=
  match o with
  | Ok (_, rest) => String.length rest ≤ String.length r
  | Err e => e = Invalid
  end.

Lemma step_ok_span p r k :
  (∀ w, is_ok (k w) = true ∨ k w = Err Invalid) →
  step_ok r (let '(w, rest) := span p r in t ← k w; Ok (t, rest)).
Proof.
  intros Hk. destruct (span p r) as [w rest] eqn:Hs. apply span_length in Hs.
  destruct (Hk w) as [H|H]; destruct (k w); simplify_eq/=; done || lia.
Qed.

(** After the first character, which [span] always takes. *)
Lemma step_ok_span_cons p c r k :
  p c = true → (∀ w, is_ok (k w) = true ∨ k w = Err Invalid) →
  step_ok r (let '(w, rest) := span p (String c r) in t ← k w; Ok (t, rest)).
Proof.
  intros Hc Hk. cbn. rewrite Hc. destruct (span p r) as [w rest] eqn:Hs.
  apply span_length in Hs. destruct (Hk (String c w)) as [H|H];
    destruct (k (String c w)); simplify_eq/=; done || lia.
Qed.

Lemma parse_number_cases w : is_ok (parse_number w) = true ∨ parse_number w = Err Invalid.
Proof. unfold parse_number. destruct (parse_f64 w); cbn; auto. Qed.

Lemma number_step_ok p r k :
  (∀ n, is_ok (k n) = true ∨ k n = Err Invalid) →
  step_ok r (let '(w, rest) := span p r in n ← k w; Ok (TNumber n, rest)).
Proof.
  intros Hk. destruct (span p r) as [w rest] eqn:Hs. apply span_length in Hs.
  destruct (Hk w) as [H|H]; destruct (k w); simplify_eq/=; done || lia.
Qed.

Lemma number_step_ok_cons p c r k :
  p c = true → (∀ n, is_ok (k n) = true ∨ k n = Err Invalid) →
  step_ok r (let '(w, rest) := span p (String c r) in n ← k w; Ok (TNumber n, rest)).
Proof.
  intros Hc Hk. cbn. rewrite Hc. destruct (span p r) as [w rest] eqn:Hs.
  apply span_length in Hs. destruct (Hk (String c w)) as [H|H];
    destruct (k (String c w)); simplify_eq/=; done || lia.
Qed.

Lemma at_reference_cases w : is_ok (at_reference w) = true ∨ at_reference w = Err Invalid.
Proof. destruct (at_reference w) eqn:E; [by left|]. apply at_reference_error in E as ->. by right. Qed.

Lemma word_token_cases w : is_ok (word_token w) = true ∨ word_token w = Err Invalid.
Proof. destruct (word_token w) eqn:E; [by left|]. apply word_token_error in E as ->. by right. Qed.

(** The tail of [next_token]: numbers and words. *)
Lemma next_token_tail c r :
  step_ok r
    (if bool_decide (c = "-"%char)
        && match r with String d _ => is_ascii_digit d | _ => false end then
       let '(digits, rest) := read_number_digits r in
       n ← parse_number (String "-" digits); Ok (TNumber n, rest)
     else if is_ascii_digit c then
       let '(digits, rest) := read_number_digits (String c r) in
       n ← parse_number digits; Ok (TNumber n, rest)
     else if is_ascii_alphabetic c || bool_decide (c = "_"%char) then read_word (String c r)
     else Err Invalid).
Proof.
  destruct (bool_decide (c = "-"%char) && _);
    [apply number_step_ok; intros w; apply parse_number_cases|].
  destruct (is_ascii_digit c) eqn:Hd.
  { apply number_step_ok_cons; [by rewrite Hd|]. apply parse_number_cases. }
  destruct (is_ascii_alphabetic c || _) eqn:Ha; [|done].
  apply (step_ok_span_cons is_word_char); [|apply word_token_cases].
  unfold is_word_char, is_ascii_alphanumeric. rewrite Hd.
  revert Ha. by destruct (is_ascii_alphabetic c), (bool_decide (c = "_"%char)).
Qed.

Lemma next_token_step c r : step_ok r (next_token c r).
Proof.
  unfold next_token. pose proof (next_token_tail c r) as Htail. revert Htail.
  match goal with |- step_ok r ?t → _ => generalize t; intros tail Htail end.
  repeat (case_decide; [first [done
    | by (destruct r as [|[[] [] [] [] [] [] [] []] r]; cbn; try lia; done)
    | idtac]|]).
  - destruct (read_string c r) as [[out rest]|e] eqn:E; cbn.
    + by apply read_string_length in E.
    + by apply read_string_error in E.
  - apply (step_ok_span is_word_char), at_reference_cases.
  - destruct r as [|d r]; [done|]. cbn.
    repeat case_match; simplify_eq/=; try done; lia.
  - done.
Qed.

Lemma trim_start_length s : String.length (trim_start s) ≤ String.length s.
Proof.
  remember (String.length s) as n eqn:Hn. revert s Hn.
  induction n as [n IH] using lt_wf_ind. intros [|a s] ->; [done|]. cbn.
  destruct (is_ws1 a).
  { specialize (IH (String.length s) ltac:(cbn; lia) s eq_refl). lia. }
  destruct s as [|b s]; [done|]. destruct (is_ws2 a b).
  { specialize (IH (String.length s) ltac:(cbn; lia) s eq_refl). cbn. lia. }
  destruct s as [|d s]; [done|]. destruct (is_ws3 a b d); [|done].
  specialize (IH (String.length s) ltac:(cbn; lia) s eq_refl). cbn. lia.
Qed.

(** The lexer's fuel is never used up, and it fails with [Invalid] only. *)
Lemma tokenize_loop_total fuel s :
  String.length s < fuel →
  ∃ o, tokenize_loop fuel s = Some o ∧ ∀ e, o = Err e → e = Invalid.
Proof.
  revert s. induction fuel as [|fuel IH]; intros s Hl; [lia|]. cbn.
  pose proof (trim_start_length s) as Ht.
  destruct (trim_start s) as [|c r]; [naive_solver|].
  pose proof (next_token_step c r) as Hs.
  destruct (next_token c r) as [[t rest]|e]; cbn in Hs; [|naive_solver].
  destruct (IH rest) as (o & -> & Ho); [cbn in Ht; lia|].
  destruct o as [ts|e]; naive_solver.
Qed.

Lemma tokenize_error s e : tokenize s = Err e → e = Invalid.
Proof.
  unfold tokenize. destruct (tokenize_loop_total (S (String.length s)) s) as (o & -> & Ho);
    [lia|]. apply Ho.
Qed.

(** * The round trip *)

Lemma tokenize_loop_text spell ts fuel :
  Forall (λ t, token_ok spell t = true) ts → length ts < fuel →
  tokenize_loop fuel (tokens_text spell ts) = Some (Ok ts).
Proof.
  intros Hts. revert fuel.
  assert (∀ fuel s, tokenize_loop fuel (String " " s) = tokenize_loop fuel s) as Hsp
    by (intros [|fuel] s; done).
  induction Hts as [|t ts Ht Hts IH]; intros [|fuel] Hf; cbn in Hf; [lia|done|lia|].
  cbn [tokens_text]. destruct (token_lexes _ _ Ht) as (c & r & -> & Hc & Hn).
  cbn [tokenize_loop]. rewrite str_app_cons, trim_start_token, Hn by done.
  rewrite Hsp, IH by lia. done.
Qed.

Lemma tokens_text_length spell ts : length ts ≤ String.length (tokens_text spell ts).
Proof.
  induction ts as [|t ts IH]; [done|]. cbn [tokens_text length].
  rewrite str_length_app. cbn. lia.
Qed.

Lemma tokenize_text spell ts :
  Forall (λ t, token_ok spell t = true) ts → tokenize (tokens_text spell ts) = Ok ts.
Proof.
  intros Hts. unfold tokenize. rewrite tokenize_loop_text; [done|done|].
  pose proof (tokens_text_length spell ts). lia.
Qed.

(** An expression's tokens, wrapped in parentheses when it is a connective. *)
Definition atom_tokens (e : Expr) : list Token :=
  match e with
  | ECompare _ _ _ => expr_tokens e
  | _ => TLParen :: expr_tokens e ++ [TRParen]
  end.
Definition atom_levels (e : Expr) : nat :=
  match e with ECompare _ _ _ => 0 | _ => S (levels e) end.

Lemma comparison_mono n m ts e : comparison n ts e → n ≤ m → comparison m ts e.
Proof.
  revert m ts e. induction n as [|n IH]; intros m ts e Hc Hm.
  - inversion Hc; subst. by constructor.
  - destruct m as [|m]; [lia|]. inversion Hc as [? l op r Hl|? ts' ? HG]; subst.
    { by constructor. }
    apply comparison_paren. clear Hc.
    assert (∀ ts e, conjunction n ts e → conjunction m ts e) as Hj.
    { assert (n ≤ m) as Hnm by lia. intros ts1 e1 Hj.
      induction Hj; [apply chain_one|apply chain_more]; eauto. }
    induction HG; [apply chain_one; by apply Hj|apply chain_more; [done|by apply Hj]].
Qed.

Lemma expr_tokens_grammar spell e :
  printable spell e = true →
  (∀ n, levels e ≤ n → disjunction n (expr_tokens e) e)
  ∧ (∀ n, atom_levels e ≤ n → comparison n (atom_tokens e) e).
Proof.
  induction e as [l IHl r IHr|l IHl r IHr|l op r]; cbn [printable].
  1,2: intros [Hl Hr]%andb_true_iff;
    destruct (IHl Hl) as [_ IHl']; destruct (IHr Hr) as [_ IHr'].
  - assert (∀ n, levels (EAnd l r) ≤ n → disjunction n (expr_tokens (EAnd l r)) (EAnd l r)) as H.
    { intros n Hn. change (atom_levels l `max` atom_levels r ≤ n) in Hn.
      apply chain_one. change (expr_tokens (EAnd l r)) with (atom_tokens l ++ TAnd :: atom_tokens r).
      apply chain_more; [apply chain_one, IHl'; lia|apply IHr'; lia]. }
    split; [done|]. intros [|n]; cbn [atom_levels]; intros Hn; [lia|].
    apply comparison_paren, H. lia.
  - assert (∀ n, levels (EOr l r) ≤ n → disjunction n (expr_tokens (EOr l r)) (EOr l r)) as H.
    { intros n Hn. change (atom_levels l `max` atom_levels r ≤ n) in Hn.
      change (expr_tokens (EOr l r)) with (atom_tokens l ++ TOr :: atom_tokens r).
      apply chain_more; [apply chain_one, chain_one, IHl'; lia|apply chain_one, IHr'; lia]. }
    split; [done|]. intros [|n]; cbn [atom_levels]; intros Hn; [lia|].
    apply comparison_paren, H. lia.
  - rewrite !andb_true_iff. intros [[Hl _] _].
    split; intros n _; [apply chain_one, chain_one|]; by apply comparison_rel.
Qed.

Lemma expr_tokens_ok spell e :
  printable spell e = true → Forall (λ t, token_ok spell t = true) (expr_tokens e).
Proof.
  assert (∀ e, Forall (λ t, token_ok spell t = true) (expr_tokens e) →
    Forall (λ t, token_ok spell t = true) (atom_tokens e)) as Ha.
  { intros [] H; [| |done]; cbn [atom_tokens]; constructor; [done| |done|];
      apply Forall_app; split; [done|by repeat constructor|done|by repeat constructor]. }
  induction e as [l IHl r IHr|l IHl r IHr|l op r]; cbn [printable].
  1,2: intros [Hl Hr]%andb_true_iff.
  - change (expr_tokens (EAnd l r)) with (atom_tokens l ++ TAnd :: atom_tokens r).
    apply Forall_app; split; [|constructor]; auto.
  - change (expr_tokens (EOr l r)) with (atom_tokens l ++ TOr :: atom_tokens r).
    apply Forall_app; split; [|constructor]; auto.
  - rewrite !andb_true_iff. intros [[_ Hl] Hr]. by repeat constructor.
Qed.

Lemma trim_nonblank c r : token_start c = true → trim (String c r) ≠ "".
Proof.
  intros Hc. unfold trim. rewrite trim_start_token by done.
  cbn [trim_end]. unfold is_blank. rewrite trim_start_token by done.
  by rewrite bool_decide_false.
Qed.

Lemma print_start spell e :
  printable spell e = true → ∃ c r, print spell e = String c r ∧ token_start c = true.
Proof.
  intros Hp. apply expr_tokens_ok in Hp as Ht. unfold print.
  destruct (expr_tokens e) as [|t ts] eqn:E.
  - destruct (expr_tokens_grammar _ _ Hp) as [H _]. specialize (H _ (le_n _)).
    assert (3 ≤ length (expr_tokens e)) as Hl; [|rewrite E in Hl; cbn in Hl; lia].
    eapply chain_length; [|exact H]. intros ? ?. apply chain_length, comparison_length.
  - apply Forall_cons in Ht as [Ht _].
    destruct (token_lexes _ _ Ht) as (c & r & Htext & Hc & _).
    exists c, (r +:+ String " " (tokens_text spell ts)). cbn [tokens_text].
    by rewrite Htext, str_app_cons.
Qed.

Lemma parse_error input err : parse input = Err err → err = Invalid.
Proof.
  unfold parse, parse_optional.
  case_decide; [cbn; congruence|].
  destruct (tokenize input) as [ts|e] eqn:Ht; cbn.
  - case_decide; [cbn; congruence|].
    destruct (parse_tokens ts) as [e|e] eqn:He; cbn; [congruence|].
    intros [= <-]. by eapply parse_tokens_error.
  - intros [= <-]. by apply tokenize_error in Ht.
Qed.

(** C1. the parser decides the grammar. For every token list it either returns
    the one expression the grammar derives from it, or answers [Invalid] and
    the grammar derives nothing: precedence, left associativity, the nesting
    limit and the termination of the loops in one statement. *)
Theorem parse_tokens_decides_grammar ts :
  (∃ e, parse_tokens ts = Ok e ∧ disjunction (MAX_DEPTH - 1) ts e
     ∧ ∀ e', disjunction (MAX_DEPTH - 1) ts e' → e' = e)
  ∨ (parse_tokens ts = Err Invalid ∧ ∀ e, ¬ disjunction (MAX_DEPTH - 1) ts e).
Proof.
  destruct (parse_tokens ts) as [e|err] eqn:H; [left|right].
  - exists e. split; [done|]. apply parse_tokens_spec in H as HG. split; [done|].
    intros e' He'%parse_tokens_spec. congruence.
  - split; [f_equal; by eapply parse_tokens_error|].
    intros e He%parse_tokens_spec. congruence.
Qed.

(** C2. printing and parsing round trip. Whatever spelling of numbers the
    printer uses, if the lexer reads it back then the text of an expression
    within the nesting and token limits parses to that expression. *)
Theorem parse_print_roundtrip spell e :
  printable spell e = true → levels e < MAX_DEPTH → length (expr_tokens e) ≤ MAX_TOKENS →
  parse (print spell e) = Ok e.
Proof.
  intros Hp Hl Hn. unfold parse, parse_optional.
  destruct (print_start _ _ Hp) as (c & r & Htext & Hc).
  rewrite decide_False by (rewrite Htext; by apply trim_nonblank).
  unfold print. rewrite tokenize_text by by apply expr_tokens_ok.
  cbn [mbind result_bind]. rewrite decide_False by lia.
  destruct (expr_tokens_grammar _ _ Hp) as [Hg _].
  rewrite (proj2 (parse_tokens_spec _ _) (Hg (MAX_DEPTH - 1) ltac:(lia))). done.
Qed.

(** on any input the parser returns, and what it refuses it refuses as a
    malformed value (status 400), never as an internal error. *)
Theorem parse_refuses_with_invalid input :
  (∃ e, parse input = Ok e) ∨ parse input = Err Invalid.
Proof.
  destruct (parse input) as [e|err] eqn:H; [by left; exists e|right].
  f_equal. by eapply parse_error.
Qed.

Definition sample_expr : Expr :=
  EOr (EAnd (ECompare (SPath ["author"; "name"]) OLike (SValue (OpText (String quote_char "50%\_'"))))
            (ECompare (SPath ["views"]) OGt (SValue (OpNumber (f64_of_Z (-10))))))
      (ECompare (SValue (OpAuth (ARClaim "role"))) OEq (SValue (OpText "admin"))).

Lemma parse_print_roundtrip_witness :
  print f64_to_string sample_expr
  = "( author.name ~ " +:+ String quote_char ("\" +:+ String quote_char ("50%\\_'" +:+ String quote_char
      (" && views > -10 ) || @request.auth.role = " +:+ String quote_char ("admin" +:+ String quote_char " "))))
  ∧ parse (print f64_to_string sample_expr) = Ok sample_expr.
Proof.
  split; [vm_compute; reflexivity|].
  apply (parse_print_roundtrip f64_to_string sample_expr);
    [vm_compute; reflexivity|vm_compute; lia|vm_compute; lia].
Defined.
