(* ===== verification/Json.v ===== *)
(** [serde_json::Value] as the program reads it: the enum, its accessors, and
    the compact text as an interface.

    An object is its list of entries with distinct keys in key order (the
    crate's default map is a [BTreeMap]). *)
From S2P Require Import Prelude CoreError F64.

(** A number is an unsigned integer, a negative integer or a finite float. *)
Inductive Number :=
  | PosInt (z : Z)
  | NegInt (z : Z)
  | Float (v : f64).

Inductive Value :=
  | JNull
  | JBool (b : bool)
  | JNumber (n : Number)
  | JString (s : string)
  | JArray (l : list Value)
  | JObject (l : list (string * Value)).

(** Induction through lists and objects. *)
Section value_ind.
Context (P : Value → Prop).
Context (Null : P JNull) (Bool : ∀ b, P (JBool b)) (Number : ∀ n, P (JNumber n)) (Str : ∀ s, P (JString s)).
Context (Arr : ∀ l, Forall P l → P (JArray l)) (Obj : ∀ l, Forall (λ p, P p.2) l → P (JObject l)).
Fixpoint nested_value_ind (v : Value) : P v :=
  match v with
  | JNull => Null
  | JBool b => Bool b
  | JNumber n => Number n
  | JString s => Str s
  | JArray l => Arr l ((fix go l := match l return Forall P l with [] => Forall_nil_2 _ | v :: l => Forall_cons_2 _ _ _ (nested_value_ind v) (go l) end) l)
  | JObject l => Obj l ((fix go l := match l return Forall (λ p, P p.2) l with
                                     | [] => Forall_nil_2 _
                                     | p :: l => Forall_cons_2 _ _ _ (nested_value_ind p.2) (go l) end) l)
  end.
End value_ind.

(** [serde_json::to_string] and [Display for Value], which agree. *)
Class JsonText := json_text : Value → string.

(** [Map::get]. *)
Fixpoint assoc {A} (key : string) (l : list (string * A)) : option A :=
  match l with
  | [] => None
  | (k, v) :: l => if decide (k = key) then Some v else assoc key l
  end.

(** [Value::get]: [None] unless the value is an object with the key. *)
Definition get (v : Value) (key : string) : option Value :=
  match v with JObject l => assoc key l | _ => None end.

Definition as_str (v : Value) : option string :=
  match v with JString s => Some s | _ => None end.
Definition as_bool (v : Value) : option bool :=
  match v with JBool b => Some b | _ => None end.
Definition as_array (v : Value) : option (list Value) :=
  match v with JArray l => Some l | _ => None end.
Definition as_object (v : Value) : option (list (string * Value)) :=
  match v with JObject l => Some l | _ => None end.
Definition is_null (v : Value) : bool :=
  match v with JNull => true | _ => false end.

Definition number_f64 (n : Number) : f64 :=
  match n with PosInt z | NegInt z => f64_of_Z z | Float v => v end.
Definition as_f64 (v : Value) : option f64 :=
  match v with JNumber n => Some (number_f64 n) | _ => None end.
Definition as_u64 (v : Value) : option Z :=
  match v with JNumber (PosInt z) => Some z | _ => None end.

Lemma assoc_In {A} key (l : list (string * A)) v : assoc key l = Some v → In (key, v) l.
Proof.
  induction l as [|[k w] l IH]; cbn; [done|]. case_decide; [|auto].
  intros [= ->]. subst. by left.
Qed.
