(* ===== verification/Sql.v ===== *)
(** The lexical structure of the SQL the program builds.

    [lexemes] reads a statement by PostgreSQL's lexical rules with
    [standard_conforming_strings] on: a double-quoted identifier in which a
    doubled quote is one quote, a string constant in which a doubled
    apostrophe is one apostrophe, and a positional parameter [$n]. Everything
    else is text the program wrote itself and is not reported. [None] is a
    quote that is never closed.

    The component files prove what their statements' lexemes are; the lemmas
    here compose those facts along string concatenation. *)
From S2P Require Import Prelude.

Inductive lexeme :=
  | QIdent (name : string)
  | SLit (value : string)
  | Param (n : N).

#[export] Instance lexeme_eq_dec : EqDecision lexeme.
Proof. solve_decision. Defined.

(** The scanner's state: in plain text, inside a quotation (with what was read,
    and whether the last character may be its end), or after a [$]. *)
Inductive lex_state :=
  | LText
  | LQuote (q : ascii) (acc : string)
  | LQuoteEnd (q : ascii) (acc : string)
  | LParam (n : N).

Definition quoted (q : ascii) (acc : string) : lexeme :=
  if decide (q = quote_char) then QIdent acc else SLit acc.

(** One character: the new state and the lexeme it completes. *)
Definition lex_text (c : ascii) : lex_state :=
  if decide (c = quote_char ∨ c = tick_char) then LQuote c ""
  else if decide (c = "$"%char) then LParam 0
  else LText.

Definition lex_char (st : lex_state) (c : ascii) : lex_state * list lexeme :=
  match st with
  | LText => (lex_text c, [])
  | LQuote q acc =>
      if decide (c = q) then (LQuoteEnd q acc, []) else (LQuote q (acc +:+ String c ""), [])
  | LQuoteEnd q acc =>
      if decide (c = q) then (LQuote q (acc +:+ String c ""), [])
      else (lex_text c, [quoted q acc])
  | LParam n =>
      if is_ascii_digit c then (LParam (10 * n + (byte_of c - 48)), [])
      else (lex_text c, [Param n])
  end.

Definition lex_end (st : lex_state) : option (list lexeme) :=
  match st with
  | LText => Some []
  | LQuote _ _ => None
  | LQuoteEnd q acc => Some [quoted q acc]
  | LParam n => Some [Param n]
  end.

Fixpoint lex (st : lex_state) (s : string) : option (list lexeme) :=
  match s with
  | EmptyString => lex_end st
  | String c r =>
      let '(st', out) := lex_char st c in app out <$> lex st' r
  end.

Definition lexemes (s : string) : option (list lexeme) := lex LText s.

(** The parameter numbers of a statement, in order. *)
Definition lexeme_params (ts : list lexeme) : list N :=
  omap (λ t, match t with Param n => Some n | _ => None end) ts.
Definition lexeme_literals (ts : list lexeme) : list string :=
  omap (λ t, match t with SLit s => Some s | _ => None end) ts.
Definition lexeme_idents (ts : list lexeme) : list string :=
  omap (λ t, match t with QIdent s => Some s | _ => None end) ts.

(** * Fragments

    [frag s ts]: wherever [s] stands in plain text, followed by a character
    that cannot extend its last lexeme, it contributes exactly [ts]. *)
Definition plain_start (s : string) : bool :=
  match s with
  | EmptyString => true
  | String c _ => negb (bool_decide (c = quote_char ∨ c = tick_char) || is_ascii_digit c)
  end.

Definition frag (s : string) (ts : list lexeme) : Prop :=
  ∀ rest, plain_start rest = true → lex LText (s +:+ rest) = app ts <$> lex LText rest.

(** [open s]: text without lexemes that any character may follow. *)
Definition is_open (s : string) : Prop :=
  ∀ rest, lex LText (s +:+ rest) = lex LText rest.

Lemma app_nil_fmap {A} (o : option (list A)) : app [] <$> o = o.
Proof. by destruct o. Qed.

Lemma app_app_fmap {A} (l1 l2 : list A) (o : option (list A)) : app l1 <$> (app l2 <$> o) = app (l1 ++ l2) <$> o.
Proof. destruct o; cbn; [by rewrite app_assoc|done]. Qed.

Lemma lex_quote q acc c r :
  lex (LQuote q acc) (String c r)
  = if decide (c = q) then lex (LQuoteEnd q acc) r else lex (LQuote q (acc +:+ String c "")) r.
Proof. cbn [lex lex_char]. case_decide; by rewrite app_nil_fmap. Qed.

Lemma lex_quote_end q acc c r :
  lex (LQuoteEnd q acc) (String c r)
  = if decide (c = q) then lex (LQuote q (acc +:+ String c "")) r
    else app [quoted q acc] <$> lex LText (String c r).
Proof. cbn [lex lex_char]. case_decide; by rewrite !app_nil_fmap. Qed.

Lemma lex_param n c r :
  lex (LParam n) (String c r)
  = if is_ascii_digit c then lex (LParam (10 * n + (byte_of c - 48))) r
    else app [Param n] <$> lex LText (String c r).
Proof. cbn [lex lex_char]. destruct (is_ascii_digit c); by rewrite !app_nil_fmap. Qed.

Lemma lex_plain c r : lex LText (String c r) = lex (lex_text c) r.
Proof. cbn [lex lex_char]. by rewrite app_nil_fmap. Qed.

Lemma frag_lexemes s ts : frag s ts → lexemes s = Some ts.
Proof.
  intros Hf. specialize (Hf "" eq_refl). rewrite str_app_nil_r in Hf.
  unfold lexemes. rewrite Hf. cbn. by rewrite app_nil_r.
Qed.

Lemma frag_nil : frag "" [].
Proof. intros rest _. by rewrite app_nil_fmap. Qed.

Lemma plain_start_app s t : s ≠ "" → plain_start (s +:+ t) = plain_start s.
Proof. by destruct s. Qed.

(** Concatenation: the second fragment must not begin with a character that
    the first one's last lexeme could absorb. *)
Lemma frag_app s1 ts1 s2 ts2 :
  frag s1 ts1 → frag s2 ts2 → s2 ≠ "" → plain_start s2 = true → frag (s1 +:+ s2) (ts1 ++ ts2).
Proof.
  intros H1 H2 Hne Hp rest Hr. rewrite <-str_app_assoc, H1 by by rewrite plain_start_app.
  rewrite H2 by done. apply app_app_fmap.
Qed.

Lemma frag_open s1 s2 ts : is_open s1 → frag s2 ts → frag (s1 +:+ s2) ts.
Proof. intros H1 H2 rest Hr. by rewrite <-str_app_assoc, H1, H2. Qed.

Lemma is_open_frag s : is_open s → frag s [].
Proof. intros H rest _. by rewrite H, app_nil_fmap. Qed.

Lemma is_open_app s1 s2 : is_open s1 → is_open s2 → is_open (s1 +:+ s2).
Proof. intros H1 H2 rest. by rewrite <-str_app_assoc, H1, H2. Qed.

(** Characters with no lexical meaning. *)
Definition bare_char (c : ascii) : bool :=
  negb (bool_decide (c = quote_char ∨ c = tick_char ∨ c = "$"%char)).
Definition bare (s : string) : bool := str_forall bare_char s.

Lemma bare_open s : bare s = true → is_open s.
Proof.
  intros Hs rest. induction s as [|c s IH]; [done|]. cbn in Hs.
  apply andb_true_iff in Hs as [Hc Hs]. rewrite str_app_cons, lex_plain.
  assert (lex_text c = LText) as ->.
  { unfold bare_char in Hc. apply negb_true_iff, bool_decide_eq_false in Hc.
    unfold lex_text. rewrite !decide_False by naive_solver. done. }
  by apply IH.
Qed.

(** A quotation of arbitrary text, its quote doubled. *)
Definition quotation (q : ascii) (s : string) : string :=
  String q (replace_char q (String q (String q "")) s +:+ String q "").

Lemma lex_quotation_body q s acc rest :
  lex (LQuote q acc) (replace_char q (String q (String q "")) s +:+ rest)
  = lex (LQuote q (acc +:+ s)) rest.
Proof.
  revert acc. induction s as [|c s IH]; intros acc.
  { cbn [replace_char]. str_simpl. by rewrite str_app_nil_r. }
  cbn [replace_char]. case_decide as Hc.
  - subst c. str_simpl. rewrite lex_quote, decide_True by done.
    rewrite lex_quote_end, decide_True, IH by done. by rewrite <-str_app_assoc.
  - str_simpl. rewrite lex_quote, decide_False, IH by done. by rewrite <-str_app_assoc.
Qed.

Lemma quoted_frag q s :
  q = quote_char ∨ q = tick_char → frag (quotation q s) [quoted q s].
Proof.
  intros Hq rest Hr. unfold quotation. str_simpl. rewrite lex_plain.
  unfold lex_text at 1. rewrite decide_True by done.
  rewrite <-str_app_assoc, lex_quotation_body. str_simpl.
  rewrite lex_quote, decide_True by done.
  destruct rest as [|c rest]; [done|].
  cbn in Hr. apply negb_true_iff, orb_false_iff in Hr as [Hc _].
  apply bool_decide_eq_false in Hc. rewrite lex_quote_end, decide_False by naive_solver.
  done.
Qed.

Lemma lex_digits s acc rest :
  str_forall is_ascii_digit s = true →
  lex (LParam acc) (s +:+ rest) = lex (LParam (dec_value acc s)) rest.
Proof.
  revert acc. induction s as [|c s IH]; intros acc; [done|]. cbn [str_forall].
  intros [Hc Hs]%andb_true_iff. str_simpl. rewrite lex_param, Hc. by apply IH.
Qed.

(** A positional parameter. *)
Lemma param_frag n : frag ("$" +:+ dec_nat n) [Param (N.of_nat n)].
Proof.
  intros rest Hr. str_simpl. rewrite lex_plain. change (lex_text "$") with (LParam 0).
  destruct (pretty_N_value (N.of_nat n)) as [Hv Hd].
  rewrite lex_digits by done. change (dec_nat n) with (pretty (N.of_nat n)). rewrite Hv.
  destruct rest as [|c rest]; [done|]. cbn in Hr.
  apply negb_true_iff, orb_false_iff in Hr as [_ Hc].
  by rewrite lex_param, Hc.
Qed.

(** * Literal text of the program

    A closed string is run through the scanner by computation. *)
Fixpoint lex_run (st : lex_state) (s : string) : lex_state * list lexeme :=
  match s with
  | EmptyString => (st, [])
  | String c r =>
      let '(st', out) := lex_char st c in
      let '(st'', out') := lex_run st' r in (st'', app out out')
  end.

Lemma lex_run_spec st s rest :
  lex st (s +:+ rest) = app (snd (lex_run st s)) <$> lex (fst (lex_run st s)) rest.
Proof.
  revert st. induction s as [|c s IH]; intros st; str_simpl.
  { by rewrite app_nil_fmap. }
  cbn [lex lex_run]. destruct (lex_char st c) as [st' out]. rewrite IH.
  destruct (lex_run st' s) as [st'' out']. cbn. by rewrite app_app_fmap.
Qed.

Lemma frag_lit_app s1 ts1 s2 ts2 :
  lex_run LText s1 = (LText, ts1) → frag s2 ts2 → frag (s1 +:+ s2) (ts1 ++ ts2).
Proof.
  intros H1 H2 rest Hr. rewrite <-str_app_assoc, lex_run_spec, H1. cbn.
  by rewrite H2, app_app_fmap.
Qed.

Lemma frag_lit s ts : lex_run LText s = (LText, ts) → frag s ts.
Proof. intros H rest _. by rewrite lex_run_spec, H. Qed.

(** A literal that ends with a quotation. *)
Lemma frag_lit_end s q acc ts :
  q = quote_char ∨ q = tick_char →
  lex_run LText s = (LQuoteEnd q acc, ts) → frag s (ts ++ [quoted q acc]).
Proof.
  intros Hq H rest Hr. rewrite lex_run_spec, H. cbn [fst snd].
  rewrite <-app_app_fmap. f_equal. destruct rest as [|c rest]; [done|].
  cbn in Hr. apply negb_true_iff, orb_false_iff in Hr as [Hc _].
  apply bool_decide_eq_false in Hc. by rewrite lex_quote_end, decide_False by naive_solver.
Qed.

Lemma frag_lit_ident s acc ts :
  lex_run LText s = (LQuoteEnd quote_char acc, ts) → frag s (ts ++ [QIdent acc]).
Proof. intros H. apply (frag_lit_end _ quote_char); [by left|done]. Qed.
Lemma frag_lit_const s acc ts :
  lex_run LText s = (LQuoteEnd tick_char acc, ts) → frag s (ts ++ [SLit acc]).
Proof. intros H. apply (frag_lit_end _ tick_char); [by right|done]. Qed.

(** * Statements with parameters

    [part P params s params']: the text [s], built while the parameter list
    grew from [params] to [params'], contributes exactly the placeholders of
    the parameters that were pushed, in order; its identifiers satisfy [P] and
    its string constants satisfy [Q]. *)
Definition placeholders (k n : nat) : list N := N.of_nat <$> seq (S k) n.

Definition lexeme_ok (P Q : string → Prop) (t : lexeme) : Prop :=
  match t with
  | QIdent x => P x
  | SLit v => Q v
  | Param _ => True
  end.

Definition part (P Q : string → Prop) (params : list string) (s : string)
    (params' : list string) : Prop :=
  ∃ extra ts, params' = params ++ extra ∧ frag s ts
    ∧ lexeme_params ts = placeholders (length params) (length extra)
    ∧ Forall (lexeme_ok P Q) ts.

Lemma placeholders_app k n m : placeholders k (n + m) = placeholders k n ++ placeholders (k + n) m.
Proof. unfold placeholders. by rewrite seq_app, fmap_app. Qed.

Lemma lexeme_params_app ts1 ts2 : lexeme_params (ts1 ++ ts2) = lexeme_params ts1 ++ lexeme_params ts2.
Proof. apply omap_app. Qed.

Section parts.
Context (P Q : string → Prop).

Lemma part_app p s1 p1 s2 p2 :
  part P Q p s1 p1 → part P Q p1 s2 p2 → s2 ≠ "" → plain_start s2 = true →
  part P Q p (s1 +:+ s2) p2.
Proof.
  intros (e1 & ts1 & -> & Hf1 & Hp1 & Ho1) (e2 & ts2 & -> & Hf2 & Hp2 & Ho2) Hne Hs.
  exists (e1 ++ e2), (ts1 ++ ts2). split; [by rewrite app_assoc|].
  split; [by apply frag_app|]. rewrite !length_app in *.
  split; [by rewrite lexeme_params_app, placeholders_app, Hp1, Hp2|by apply Forall_app].
Qed.

Lemma part_frag p s ts :
  frag s ts → lexeme_params ts = [] → Forall (lexeme_ok P Q) ts → part P Q p s p.
Proof. intros. exists [], ts. by rewrite app_nil_r. Qed.

Lemma part_lit_app lit ts p s p' :
  lex_run LText lit = (LText, ts) → lexeme_params ts = [] → Forall (lexeme_ok P Q) ts →
  part P Q p s p' → part P Q p (lit +:+ s) p'.
Proof.
  intros Hl Hn Ho (e2 & ts2 & -> & Hf2 & Hp2 & Ho2).
  exists e2, (ts ++ ts2). split; [done|]. split; [by apply frag_lit_app|].
  split; [by rewrite lexeme_params_app, Hn|by apply Forall_app].
Qed.

Lemma part_lit lit ts p :
  lex_run LText lit = (LText, ts) → lexeme_params ts = [] → Forall (lexeme_ok P Q) ts →
  part P Q p lit p.
Proof. intros H. by eapply part_frag, frag_lit. Qed.

Lemma part_lit_const lit acc ts p :
  lex_run LText lit = (LQuoteEnd tick_char acc, ts) → lexeme_params ts = [] →
  Forall (lexeme_ok P Q) ts → Q acc → part P Q p lit p.
Proof.
  intros H Hn Ho Hq. eapply part_frag; [by apply frag_lit_const| |].
  - by rewrite lexeme_params_app, Hn.
  - apply Forall_app. by repeat constructor.
Qed.

Lemma part_lit_ident lit acc ts p :
  lex_run LText lit = (LQuoteEnd quote_char acc, ts) → lexeme_params ts = [] →
  Forall (lexeme_ok P Q) ts → P acc → part P Q p lit p.
Proof.
  intros H Hn Ho Hq. eapply part_frag; [by apply frag_lit_ident| |].
  - by rewrite lexeme_params_app, Hn.
  - apply Forall_app. by repeat constructor.
Qed.

Lemma part_bare s p : bare s = true → part P Q p s p.
Proof. intros. by eapply part_frag; [apply is_open_frag, bare_open| |constructor]. Qed.

Lemma part_param value params :
  part P Q params ("$" +:+ dec_nat (length (params ++ [value]))) (params ++ [value]).
Proof.
  rewrite length_app, Nat.add_1_r. eexists [value], _. split; [done|].
  split; [apply param_frag|]. split; [done|]. by repeat constructor.
Qed.

Lemma part_quotation q s p :
  (q = quote_char ∧ P s) ∨ (q = tick_char ∧ Q s) → part P Q p (quotation q s) p.
Proof.
  intros Hq. eapply part_frag.
  - apply quoted_frag. destruct Hq as [[-> _]|[-> _]]; auto.
  - by destruct Hq as [[-> _]|[-> _]].
  - destruct Hq as [[-> H]|[-> H]]; by repeat constructor.
Qed.

Lemma lexeme_ok_split ts :
  Forall (lexeme_ok P Q) ts → Forall P (lexeme_idents ts) ∧ Forall Q (lexeme_literals ts).
Proof.
  induction 1 as [|[x|v|n] ts Hx _ [IH1 IH2]]; [done|..]; split; try done;
    by constructor.
Qed.

(** What a finished statement's lexemes are. *)
Lemma part_statement s params :
  part P Q [] s params →
  ∃ ts, lexemes s = Some ts
    ∧ lexeme_params ts = N.of_nat <$> seq 1 (length params)
    ∧ Forall P (lexeme_idents ts) ∧ Forall Q (lexeme_literals ts).
Proof.
  intros (e & ts & -> & Hf & Hp & Ho). exists ts. split; [by apply frag_lexemes|].
  split; [done|]. by apply lexeme_ok_split.
Qed.
End parts.

Lemma part_mono (P P' Q Q' : string → Prop) p s p' :
  (∀ x, P x → P' x) → (∀ x, Q x → Q' x) → part P Q p s p' → part P' Q' p s p'.
Proof.
  intros HP HQ (e & ts & -> & Hf & Hn & Ho). exists e, ts. split; [done|]. split; [done|].
  split; [done|]. eapply Forall_impl; [exact Ho|]. intros [x|v|n]; cbn; auto.
Qed.

(** Closes or decomposes a [part] goal: hypotheses, atoms by the [part]
    database, literals by running the scanner, concatenations by
    [part_lit_app] and [part_app]. *)
Create HintDb part.
#[export] Hint Resolve part_param : part.
#[export] Hint Opaque quotation : part.

Ltac part_side := first [reflexivity | solve [repeat constructor; cbn [lexeme_ok]; auto 8 with part]].
Ltac part_literal :=
  first
    [ eapply part_lit; [vm_compute; reflexivity | part_side..]
    | eapply part_lit_const; [vm_compute; reflexivity | part_side..]
    | eapply part_lit_ident; [vm_compute; reflexivity | part_side..] ].
Ltac part_atom := first [eassumption | solve [eauto 2 with part nocore]].

Ltac part_solve :=
  lazymatch goal with
  | |- part _ _ _ (String _ _ +:+ _) _ =>
      first
        [ eapply part_lit_app; [vm_compute; reflexivity | part_side | part_side | part_solve]
        | part_literal ]
  | |- part _ _ _ (_ +:+ _) _ =>
      first
        [ eapply part_app; [part_atom | part_solve | discriminate | reflexivity]
        | eapply part_lit_app; [vm_compute; reflexivity | part_side | part_side | part_solve]
        | part_literal
        | eapply part_app; [part_solve | part_solve | discriminate | reflexivity] ]
  | |- part _ _ _ (String _ _) _ => part_literal
  | |- part _ _ _ _ _ => first [ part_atom | part_literal ]
  end.

Lemma part_bare_app P Q s t p p' :
  bare s = true → part P Q p t p' → part P Q p (s +:+ t) p'.
Proof.
  intros Hs (e & ts & -> & Hf & Hn & Ho). exists e, ts. split; [done|].
  split; [|done]. by apply frag_open; [apply bare_open|].
Qed.

Section inert.
Context (P Q : string → Prop).

(** A piece of text without placeholders. *)
Definition inert (s : string) : Prop := ∀ p, part P Q p s p.

Lemma inert_join sep l :
  bare sep = true → sep ≠ "" → plain_start sep = true → Forall inert l → inert (join sep l).
Proof.
  intros Hs Hne Hp. induction 1 as [|s l Hs1 Hl IH]; intros p; [by apply part_bare|].
  destruct l as [|t l]; [apply Hs1|]. rewrite join_cons2.
  eapply part_app; [apply Hs1| |by destruct sep|by destruct sep].
  by apply part_bare_app; [|apply IH].
Qed.
End inert.
