(* ===== verification/Types.v ===== *)
(** Collection and field types, identifier validation and the mapping from
    field types to Postgres columns ([crates/db/src/types.rs]), with the
    collection and field records of [crates/db/src/collections.rs]. *)
From S2P Require Import Prelude CoreError F64 Json.

(** [usize] and [u64] option values are compared as integers. *)
Local Open Scope Z_scope.

Definition MAX_IDENTIFIER_LEN : nat := 63.

Definition SYSTEM_COLUMNS : list string := ["id"; "created"; "updated"].
Definition AUTH_SYSTEM_COLUMNS : list string :=
  ["email"; "password_hash"; "verified"; "token_key"; "emailVisibility"].
Definition CREDENTIAL_COLUMNS : list string := ["password_hash"; "token_key"].

Inductive CollectionType := CBase | CAuth | CView.

Inductive FieldType :=
  | FText | FEditor | FEmail | FUrl | FNumber | FBool | FDate | FSelect | FFile
  | FRelation | FJson | FGeoPoint | FAutodate | FPassword.

#[export] Instance CollectionType_eq_dec : EqDecision CollectionType.
Proof. solve_decision. Defined.
#[export] Instance FieldType_eq_dec : EqDecision FieldType.
Proof. solve_decision. Defined.

(** [CollectionType::as_str], [parse], [is_table], [is_auth]. *)
Definition collection_type_as_str (t : CollectionType) : string :=
  match t with CBase => "base" | CAuth => "auth" | CView => "view" end.

Definition collection_type_parse (raw : string) : result CollectionType :=
  if decide (raw = "base") then Ok CBase
  else if decide (raw = "auth") then Ok CAuth
  else if decide (raw = "view") then Ok CView
  else Err Invalid.

Definition is_table (t : CollectionType) : bool := negb (bool_decide (t = CView)).
Definition is_auth (t : CollectionType) : bool := bool_decide (t = CAuth).

(** [FieldType::as_str]. *)
Definition field_type_as_str (t : FieldType) : string :=
  match t with
  | FText => "text" | FEditor => "editor" | FEmail => "email" | FUrl => "url"
  | FNumber => "number" | FBool => "bool" | FDate => "date" | FSelect => "select"
  | FFile => "file" | FRelation => "relation" | FJson => "json"
  | FGeoPoint => "geoPoint" | FAutodate => "autodate" | FPassword => "password"
  end.

(** [FieldType::parse], aliases included. *)
Definition field_type_parse (raw : string) : result FieldType :=
  match assoc raw
    [("text", FText); ("editor", FEditor); ("email", FEmail); ("url", FUrl);
     ("number", FNumber); ("bool", FBool); ("date", FDate); ("datetime", FDate);
     ("select", FSelect); ("multi_select", FSelect); ("file", FFile); ("multi_file", FFile);
     ("relation", FRelation); ("json", FJson); ("geoPoint", FGeoPoint); ("geo", FGeoPoint);
     ("autodate", FAutodate); ("password", FPassword)] with
  | Some t => Ok t
  | None => Err Invalid
  end.

Definition supports_multiple (t : FieldType) : bool :=
  match t with FSelect | FFile | FRelation => true | _ => false end.

(** [relation_target]. *)
Definition nonempty_str (o : option Value) : option string :=
  v ← o; s ← as_str v; if decide (s = "") then None else Some s.

Definition relation_target (options : Value) : option string :=
  match nonempty_str (get options "collectionId") with
  | Some s => Some s
  | None => nonempty_str (get options "collection")
  end.

(** [validate_identifier]. *)
Definition validate_identifier (name : string) : result unit :=
  if decide (name = "") then Err Invalid
  else if decide (MAX_IDENTIFIER_LEN < String.length name)%nat then Err Invalid
  else if starts_with "_" name then Err Invalid
  else match name with
       | EmptyString => Err Invalid
       | String first _ =>
           if negb (is_ascii_lowercase first) then Err Invalid
           else if str_exists (λ c, negb (is_ascii_alphanumeric c || bool_decide (c = "_"%char))) name
           then Err Invalid
           else Ok ()
       end.

(** [validate_field_name]. *)
Definition validate_field_name (name : string) (t : CollectionType) : result unit :=
  _ ← validate_identifier name;
  if decide (name ∈ SYSTEM_COLUMNS) then Err Invalid
  else if decide (t = CAuth ∧ name ∈ AUTH_SYSTEM_COLUMNS) then Err Invalid
  else Ok ().

(** * Options *)

Definition option_bool (options : Value) (key : string) : bool :=
  default false (v ← get options key; as_bool v).
Definition option_f64 (options : Value) (key : string) : option f64 :=
  v ← get options key; as_f64 v.
Definition option_u64 (options : Value) (key : string) : option Z :=
  v ← get options key; as_u64 v.
Definition option_str_list (options : Value) (key : string) : list string :=
  match v ← get options key; as_array v with
  | Some values => omap as_str values
  | None => []
  end.

(** [is_multiple]. *)
Definition is_multiple (options : Value) : bool :=
  (1 <? default 1 (option_u64 options "maxSelect")).

(** [file_size_limit]. *)
Definition file_size_limit (options : Value) : option Z :=
  match option_u64 options "maxFileSize" with
  | Some n => Some n
  | None => option_u64 options "maxSize"
  end.

(** A key with a value other than [null]. *)
Definition has_option (options : Value) (key : string) : bool :=
  match get options key with Some v => negb (is_null v) | None => false end.

(** [validate_file_options]. *)
Definition validate_file_options (t : FieldType) (options : Value) : result unit :=
  if decide (t ≠ FFile) then
    if existsb (has_option options) ["maxFileSize"; "maxSize"; "mimeTypes"; "thumbs"]
    then Err Invalid else Ok ()
  else if existsb (λ key, has_option options key
      && negb match option_u64 options key with Some n => 0 <? n | None => false end)
      ["maxFileSize"; "maxSize"]
  then Err Invalid
  else
    _ ← (if has_option options "mimeTypes" then
           match v ← get options "mimeTypes"; as_array v with
           | None => Err Invalid
           | Some types =>
               if decide (types = []) then Err Invalid
               else if forallb (λ entry,
                   match as_str entry with
                   | Some text => bool_decide (trim text ≠ "")
                   | None => false
                   end) types
               then Ok () else Err Invalid
           end
         else Ok ());
    if has_option options "thumbs" then Err Unsupported else Ok ().

(** [sql_literal]. *)
Definition sql_literal (value : string) : string :=
  "'" +:+ replace_char tick_char "''" value +:+ "'".

Definition bool_str (b : bool) : string := if b then "true" else "false".

Section json.
Context `{JsonText}.

(** [default_sql]. *)
Definition default_sql (t : FieldType) (options : Value) : result (option string) :=
  if option_bool options "reflected" then Ok None
  else if has_option options "default" then
    let value := default JNull (get options "default") in
    match t with
    | FSelect =>
        if is_multiple options then Err Unsupported
        else
          text ← ok_or (as_str value) Invalid;
          if decide (text ∈ option_str_list options "values")
          then Ok (Some (sql_literal text +:+ "::text")) else Err Invalid
    | FText | FEditor | FEmail | FUrl | FPassword =>
        text ← ok_or (as_str value) Invalid; Ok (Some (sql_literal text +:+ "::text"))
    | FNumber =>
        number ← ok_or (n ← as_f64 value; if f64_is_finite n then Some n else None) Invalid;
        if option_bool options "onlyInt" && f64_has_fract number then Err Invalid
        else
          let cast := if option_bool options "onlyInt" then "bigint" else "double precision" in
          Ok (Some (f64_to_string number +:+ "::" +:+ cast))
    | FBool =>
        flag ← ok_or (as_bool value) Invalid; Ok (Some (bool_str flag +:+ "::boolean"))
    | FDate | FAutodate =>
        text ← ok_or (as_str value) Invalid; Ok (Some (sql_literal text +:+ "::timestamptz"))
    | FJson | FGeoPoint => Ok (Some (sql_literal (json_text value) +:+ "::jsonb"))
    | FFile =>
        text ← ok_or (as_str value) Invalid; Ok (Some (sql_literal text +:+ "::text"))
    | FRelation => Err Unsupported
    end
  else Ok None.

(** [validate_options]. *)
Definition validate_options (t : FieldType) (options : Value) : result unit :=
  match as_object options with
  | None => Err Invalid
  | Some _ =>
      _ ← (if supports_multiple t then
             match option_u64 options "maxSelect" with
             | Some n => if n <? 1 then Err Invalid else Ok ()
             | None => Ok ()
             end
           else match get options "maxSelect" with Some _ => Err Invalid | None => Ok () end);
      _ ← match option_f64 options "min", option_f64 options "max" with
          | Some min, Some max => if f64_gt min max then Err Invalid else Ok ()
          | _, _ => Ok ()
          end;
      _ ← (if decide (t = FSelect) then
             match get options "values" with
             | Some (JArray values) => if decide (values = []) then Err Invalid else Ok ()
             | Some _ => Err Invalid
             | None => Err Invalid
             end
           else Ok ());
      _ ← (if decide (t = FRelation ∧ relation_target options = None) then Err Invalid else Ok ());
      _ ← (if has_option options "pattern" then Err Unsupported else Ok ());
      _ ← validate_file_options t options;
      _ ← default_sql t options; Ok ()
  end.

(** [column_type]. *)
Definition column_type (t : FieldType) (options : Value) : result string :=
  _ ← validate_options t options;
  Ok match t with
     | FText | FEditor | FEmail | FUrl | FPassword => "text"
     | FNumber => if option_bool options "onlyInt" then "bigint" else "double precision"
     | FBool => "boolean"
     | FDate | FAutodate => "timestamptz"
     | FSelect => if is_multiple options then "text[]" else "text"
     | FFile => if is_multiple options then "jsonb" else "text"
     | FRelation => if is_multiple options then "text[]" else "text"
     | FJson | FGeoPoint => "jsonb"
     end.

End json.

(** [zero_default]. *)
Definition zero_default (t : FieldType) (options : Value) : option string :=
  match t with
  | FText | FEditor | FEmail | FUrl | FPassword => Some "''"
  | FNumber => Some "0"
  | FBool => Some "false"
  | FDate | FAutodate => Some "now()"
  | FSelect => Some (if is_multiple options then "'{}'::text[]" else "''")
  | FFile => Some (if is_multiple options then "'[]'::jsonb" else "''")
  | FJson | FGeoPoint => Some "'{}'::jsonb"
  | FRelation => if is_multiple options then Some "'{}'::text[]" else None
  end.

(** [auth_system_column_definitions]. *)
Definition auth_system_column_definitions : list (string * string) :=
  [("email", "text"); ("password_hash", "text");
   ("verified", "boolean not null default false"); ("token_key", "text");
   ("emailVisibility", "boolean not null default false")].

(** [auth_system_fields]: name, type, required, unique, options. *)
Definition auth_system_fields : list (string * FieldType * bool * bool * Value) :=
  [("email", FEmail, true, true, JObject []);
   ("password_hash", FPassword, false, false,
     JObject [("hidden", JBool true); ("writeOnly", JBool true)]);
   ("emailVisibility", FBool, false, false, JObject []);
   ("verified", FBool, false, false, JObject [("hidden", JBool true)])].

(** * Fields and collections *)

(** [struct Field]. *)
Record Field := {
  field_id : string;
  field_collection_id : string;
  field_name : string;
  field_type : FieldType;
  required : bool;
  is_unique : bool;
  field_options : Value;
  position : Z;
}.

(** [struct Collection]; the timestamps are not modelled. *)
Record Collection := {
  collection_id : string;
  collection_name : string;
  collection_type : CollectionType;
  collection_options : Value;
  rules : Value;
  fields : list Field;
}.

(** [Field::column_type] and [Field::is_multiple]. *)
Definition field_column_type `{JsonText} (f : Field) : result string :=
  column_type (field_type f) (field_options f).
Definition field_is_multiple (f : Field) : bool := is_multiple (field_options f).
Definition field_is_indexed (f : Field) : bool := option_bool (field_options f) "indexed".

(** [Field::validate]. *)
Definition field_validate `{JsonText} (f : Field) (t : CollectionType) : result unit :=
  _ ← validate_field_name (field_name f) t;
  if decide (field_type f = FPassword) then Err Unsupported
  else validate_options (field_type f) (field_options f).

(** [realtime::OPTION]. *)
Definition REALTIME_OPTION : string := "realtime".

(** The loop of [Collection::validate] over the fields, with the names seen. *)
Fixpoint validate_fields `{JsonText} (seen : gset string) (t : CollectionType) (fs : list Field)
    : result unit :=
  match fs with
  | [] => Ok ()
  | f :: fs =>
      if decide (field_name f ∈ seen) then Err Invalid
      else _ ← field_validate f t; validate_fields ({[field_name f]} ∪ seen) t fs
  end.

(** [Collection::validate]. *)
Definition collection_validate `{JsonText} (c : Collection) : result unit :=
  _ ← validate_identifier (collection_name c);
  _ ← match get (collection_options c) REALTIME_OPTION with
      | Some value => match as_bool value with Some _ => Ok () | None => Err Invalid end
      | None => Ok ()
      end;
  validate_fields ∅ (collection_type c) (fields c).

(** [Collection::field]. *)
Definition collection_field (c : Collection) (name : string) : option Field :=
  head (filter (λ f, field_name f = name) (fields c)).

(** [Collection::realtime_enabled]. *)
Definition realtime_enabled (c : Collection) : bool :=
  default true (v ← get (collection_options c) REALTIME_OPTION; as_bool v).

(** [Collection::password_field] and [password_input]. *)
Definition password_field (c : Collection) : option Field :=
  head (filter (λ f, field_type f = FPassword) (fields c)).
Definition password_input (c : Collection) (input : list (string * Value)) : option Value :=
  f ← password_field c;
  match assoc "password" input with Some v => Some v | None => assoc (field_name f) input end.
