(* ===== verification/Ddl.v ===== *)
(** DDL generation, [crates/db/src/ddl.rs]. *)
From S2P Require Import Prelude CoreError F64 Json Sql Types.

(** The digest of the [sha2] crate: 32 bytes. *)
Class Sha256 := sha256 : string → list Z.

Definition dq : string := String quote_char "".

(** [quote_ident]. *)
Definition quote_ident (name : string) : string :=
  dq +:+ replace_char quote_char (dq +:+ dq) name +:+ dq.

(** [format!("{byte:02x}")]. *)
Definition hex_digit (n : Z) : ascii :=
  ascii_of_N (Z.to_N (if (n <? 10)%Z then 48 + n else 87 + n)).
Definition hex_byte (b : Z) : string :=
  String (hex_digit (b / 16)) (String (hex_digit (b mod 16)) "").

(** [index_name]. *)
Definition index_name `{Sha256} (table column : string) : string :=
  let base := "idx_" +:+ table +:+ "_" +:+ column in
  if decide (String.length base ≤ MAX_IDENTIFIER_LEN) then base
  else
    let suffix := join "" (hex_byte <$> take 4 (sha256 base)) in
    let keep := MAX_IDENTIFIER_LEN - String.length suffix - 1 in
    String.substring 0 keep base +:+ "_" +:+ suffix.

Section ddl.
Context `{JsonText}.

(** [column_definition]. *)
Definition column_definition (f : Field) (resolve_table : string → option string)
    : result string :=
  column_type ← field_column_type f;
  default ← default_sql (field_type f) (field_options f);
  let definition :=
    quote_ident (field_name f) +:+ " " +:+ column_type
    +:+ (match default with Some d => " default " +:+ d | None => "" end)
    +:+ (if required f then " not null" else "") in
  if decide (field_type f = FRelation) then
    if field_is_multiple f then Ok definition
    else
      target_id ← ok_or (relation_target (field_options f)) Invalid;
      target ← ok_or (resolve_table target_id) Invalid;
      let on_delete :=
        if option_bool (field_options f) "cascadeDelete"
        then "on delete cascade" else "on delete set null" in
      Ok (definition +:+ " references " +:+ quote_ident target
            +:+ " (" +:+ quote_ident "id" +:+ ") " +:+ on_delete)
  else Ok definition.

(** [create_table_statement]. *)
Definition create_table_statement (c : Collection) (resolve_table : string → option string)
    : result string :=
  _ ← validate_identifier (collection_name c);
  if decide (collection_type c = CView) then Err Unsupported
  else
    let columns :=
      [quote_ident "id" +:+ " text primary key";
       quote_ident "created" +:+ " timestamptz not null default now()";
       quote_ident "updated" +:+ " timestamptz not null default now()"]
      ++ (if decide (collection_type c = CAuth)
          then (λ '(name, definition), quote_ident name +:+ " " +:+ definition)
                 <$> auth_system_column_definitions
          else []) in
    field_columns ← try_map (λ f, column_definition f resolve_table) (fields c);
    Ok ("create table " +:+ quote_ident (collection_name c) +:+ " (" +:+ String "010" "    "
        +:+ join ("," +:+ String "010" "    ") (columns ++ field_columns)
        +:+ String "010" ")").

(** [add_column_statements]. *)
Definition add_column_statements (table : string) (f : Field) : result (list string) :=
  _ ← validate_identifier table;
  column_type ← field_column_type f;
  default ← default_sql (field_type f) (field_options f);
  let target := quote_ident table in
  let column := quote_ident (field_name f) in
  let add := "alter table " +:+ target +:+ " add column " +:+ column +:+ " " +:+ column_type in
  if negb (required f) then
    Ok [add +:+ match default with Some d => " default " +:+ d | None => "" end]
  else
    match default with
    | Some d => Ok [add +:+ " not null default " +:+ d]
    | None =>
        match zero_default (field_type f) (field_options f) with
        | None => Err Invalid
        | Some zero =>
            Ok [add +:+ " not null default " +:+ zero;
                "alter table " +:+ target +:+ " alter column " +:+ column +:+ " drop default"]
        end
    end.

(** [drop_column_statement]. *)
Definition drop_column_statement (table column : string) : result string :=
  _ ← validate_identifier table;
  _ ← validate_identifier column;
  if decide (column ∈ SYSTEM_COLUMNS ∨ column ∈ AUTH_SYSTEM_COLUMNS) then Err Invalid
  else Ok ("alter table " +:+ quote_ident table +:+ " drop column " +:+ quote_ident column).

(** [is_known_column_type]. *)
Definition is_known_column_type (t : string) : bool :=
  bool_decide (t ∈ ["text"; "bigint"; "double precision"; "boolean"; "timestamptz"; "text[]"; "jsonb"]).

(** [alter_column_type_statement]. *)
Definition alter_column_type_statement (table column column_type : string) : result string :=
  _ ← validate_identifier table;
  _ ← validate_identifier column;
  if is_known_column_type column_type then
    Ok ("alter table " +:+ quote_ident table +:+ " alter column " +:+ quote_ident column
        +:+ " type " +:+ column_type +:+ " using " +:+ quote_ident column +:+ "::" +:+ column_type)
  else Err Invalid.

(** [rename_column_statement]. *)
Definition rename_column_statement (table from to : string) : result string :=
  _ ← validate_identifier table;
  _ ← validate_identifier from;
  _ ← validate_identifier to;
  Ok ("alter table " +:+ quote_ident table +:+ " rename column " +:+ quote_ident from
      +:+ " to " +:+ quote_ident to).

(** [realtime_trigger_statements]. *)
Definition REALTIME_TRIGGER : string := "lazypock_change".
Definition realtime_trigger_statements (table : string) (enabled : bool) : result (list string) :=
  _ ← validate_identifier table;
  let table := quote_ident table in
  let drop := "drop trigger if exists " +:+ REALTIME_TRIGGER +:+ " on " +:+ table in
  if negb enabled then Ok [drop]
  else Ok [drop;
    "create trigger " +:+ REALTIME_TRIGGER +:+ " after insert or update or delete on " +:+ table
    +:+ " for each row execute function lazypock_change_event()"].

(** [view_query]. *)
Definition view_query (query : string) : result string :=
  let query := trim query in
  if decide (query = "") then Err Invalid
  else if str_contains ";" query then Err Invalid
  else Ok query.

(** [create_view_statement], [replace_view_statement], [drop_view_statement]. *)
Definition create_view_statement (name query : string) : result string :=
  _ ← validate_identifier name;
  q ← view_query query;
  Ok ("create view " +:+ quote_ident name +:+ " with (security_invoker = true) as " +:+ q).
Definition replace_view_statement (name query : string) : result string :=
  _ ← validate_identifier name;
  q ← view_query query;
  Ok ("create or replace view " +:+ quote_ident name +:+ " with (security_invoker = true) as " +:+ q).
Definition drop_view_statement (name : string) : result string :=
  _ ← validate_identifier name;
  Ok ("drop view if exists " +:+ quote_ident name +:+ " cascade").

(** [drop_table_statement]. *)
Definition drop_table_statement (table : string) : result string :=
  _ ← validate_identifier table;
  Ok ("drop table if exists " +:+ quote_ident table +:+ " cascade").

Context `{Sha256}.

(** [create_unique_index_statement], [create_index_statement],
    [create_auth_email_index_statement], [drop_index_statement]. *)
Definition create_unique_index_statement (table column : string) : string :=
  "create unique index " +:+ quote_ident (index_name table column) +:+ " on "
  +:+ quote_ident table +:+ " (" +:+ quote_ident column +:+ ")".
Definition create_index_statement (table column : string) : string :=
  "create index " +:+ quote_ident (index_name table column) +:+ " on "
  +:+ quote_ident table +:+ " (" +:+ quote_ident column +:+ ")".
Definition create_auth_email_index_statement (table : string) : string :=
  "create unique index " +:+ quote_ident (index_name table "email") +:+ " on "
  +:+ quote_ident table +:+ " (lower(" +:+ dq +:+ "email" +:+ dq +:+ ")) where "
  +:+ dq +:+ "email" +:+ dq +:+ " is not null".
Definition drop_index_statement (table column : string) : string :=
  "drop index if exists " +:+ quote_ident (index_name table column).

End ddl.

(** * Lexemes *)

Lemma quote_ident_quotation s : quote_ident s = quotation quote_char s.
Proof. done. Qed.

Lemma quote_ident_frag s : frag (quote_ident s) [QIdent s].
Proof. rewrite quote_ident_quotation. apply quoted_frag. by left. Qed.

Lemma sql_literal_frag s : frag (sql_literal s) [SLit s].
Proof.
  change (sql_literal s) with (quotation tick_char s). apply (quoted_frag tick_char s). by right.
Qed.
