(* ===== verification/Compile.v ===== *)
(** Compiling filters to parameterised SQL, [crates/db/src/query/compile.rs]. *)
From S2P Require Import Prelude CoreError F64 Json Filter Types Ddl.

Definition MAX_PATH_DEPTH : nat := 4.

(** * The whitelist a filter is compiled against *)

(** [struct RelationTarget], over the type of contexts. *)
Record RelationTarget (C : Type) := {
  rel_column : string;
  multiple : bool;
  rel_table : string;
  rel_context : C;
}.
Arguments Build_RelationTarget {C}.
Arguments rel_column {C}.
Arguments multiple {C}.
Arguments rel_table {C}.
Arguments rel_context {C}.

(** [struct FilterContext]. The relation map is kept as an association list
    with distinct keys: the code only looks it up and lists its keys sorted. *)
Local Set Warnings "-register-all".
Inductive FilterContext := MkContext {
  table : string;
  ctx_collection_id : string;
  columns : gmap string string;
  relations : list (string * RelationTarget FilterContext);
}.

(** [HashMap::insert] on an association list. *)
Fixpoint assoc_insert {A} (key : string) (v : A) (l : list (string * A)) : list (string * A) :=
  match l with
  | [] => [(key, v)]
  | (k, w) :: l => if decide (k = key) then (key, v) :: l else (k, w) :: assoc_insert key v l
  end.

(** [implicit_fields]. *)
Definition implicit_fields (c : Collection) : list (string * FieldType) :=
  ("id", FText)
  :: if decide (collection_type c ≠ CView) then [("created", FAutodate); ("updated", FAutodate)]
     else [].

(** [candidate.id == target_id || candidate.name == target_id]. *)
Definition find_target (all : list Collection) (target_id : string) : option Collection :=
  head (filter (λ c, collection_id c = target_id ∨ collection_name c = target_id) all).

(** The columns of [build] before any declared field. *)
Definition base_columns `{JsonText} (c : Collection) : result (gmap string string) :=
  cols ← try_fold (λ cols '(name, t),
    ty ← column_type t (JObject []); Ok (<[name := ty]> cols)) ∅ (implicit_fields c);
  Ok (if decide (collection_type c = CAuth)
      then <["verified" := "boolean"]> (<["email" := "text"]> cols) else cols).

(** [FilterContext::build]. [levels] is [MAX_PATH_DEPTH - depth]; [for_collection]
    starts at depth 0. *)
Fixpoint build `{JsonText} (levels : nat) (c : Collection) (all : list Collection)
    : result FilterContext :=
  cols ← base_columns c;
  '(cols, rels) ← try_fold (λ '(cols, rels) f,
    if is_auth (collection_type c) && bool_decide (field_name f ∈ CREDENTIAL_COLUMNS)
    then Ok (cols, rels)
    else
      ty ← field_column_type f;
      let cols := <[field_name f := ty]> cols in
      if decide (field_type f ≠ FRelation) then Ok (cols, rels)
      else match levels with
           | O => Ok (cols, rels)
           | S levels =>
               target_id ← ok_or (relation_target (field_options f)) Invalid;
               match find_target all target_id with
               | None => Ok (cols, rels)
               | Some target =>
                   ctx ← build levels target all;
                   Ok (cols, assoc_insert (field_name f)
                         {| rel_column := field_name f; multiple := field_is_multiple f;
                            rel_table := collection_name target; rel_context := ctx |} rels)
               end
           end) (cols, []) (fields c);
  Ok {| table := collection_name c; ctx_collection_id := collection_id c;
        columns := cols; relations := rels |}.

(** [FilterContext::for_collection]. *)
Definition for_collection `{JsonText} (c : Collection) (all : list Collection)
    : result FilterContext := build MAX_PATH_DEPTH c all.

(** [FilterContext::has_column]. *)
Definition has_column (ctx : FilterContext) (column : string) : bool :=
  bool_decide (is_Some (columns ctx !! column)).

(** [struct AuthContext]. *)
Record AuthContext := {
  ac_id : option string;
  ac_email : option string;
  ac_collection_id : option string;
  ac_collection_name : option string;
  ac_claims : gmap string string;
}.

(** * Operators and values *)

(** [sql_operator]. *)
Definition sql_operator (op : CompareOp) : string :=
  match op with
  | OEq => "=" | ONotEq => "<>" | OGt => ">" | OGte => ">=" | OLt => "<" | OLte => "<="
  | OLike => "ilike" | ONotLike => "not ilike" | OAny => "= any" | ONotAny => "<> all"
  end.

(** [check_operator_supported]. *)
Definition check_operator_supported (op : CompareOp) (column_type : string) : result unit :=
  let is_array := bool_decide (column_type = "text[]") in
  match op with
  | OAny | ONotAny => if negb is_array then Err Invalid else Ok ()
  | OLike | ONotLike => if decide (column_type ≠ "text") then Err Invalid else Ok ()
  | OEq | ONotEq => if is_array then Err Invalid else Ok ()
  | OGt | OGte | OLt | OLte =>
      if is_array || bool_decide (column_type = "jsonb") || bool_decide (column_type = "boolean")
      then Err Invalid else Ok ()
  end.

(** [literal_value]. *)
Definition literal_value (operand : Operand) (auth : AuthContext) : result string :=
  match operand with
  | OpText v => Ok v
  | OpNumber v => Ok (f64_to_string v)
  | OpBool b => Ok (bool_str b)
  | OpAuth r => Ok (default "" match r with
                               | ARId => ac_id auth
                               | AREmail => ac_email auth
                               | ARCollectionId => ac_collection_id auth
                               | ARCollectionName => ac_collection_name auth
                               | ARClaim name => ac_claims auth !! name
                               end)
  | OpNull | OpNow => Err Internal
  end.

(** [push_param]: the placeholder and the extended parameter list. *)
Definition push_param (value cast : string) (params : list string) : string * list string :=
  let params := params ++ [value] in
  let index := dec_nat (length params) in
  (if decide (cast = "text") then "$" +:+ index +:+ "::text"
   else "$" +:+ index +:+ "::text::" +:+ cast, params).

(** [cast_for]. *)
Definition cast_for (column_type : string) : string :=
  if decide (column_type ∈ ["bigint"; "double precision"; "boolean"; "timestamptz"; "jsonb"; "text[]"])
  then column_type else "text".

(** [escape_like]. *)
Fixpoint escape_like (value : string) : string :=
  match value with
  | EmptyString => EmptyString
  | String c r =>
      if decide (c = backslash ∨ c = "%"%char ∨ c = "_"%char)
      then String backslash (String c (escape_like r)) else String c (escape_like r)
  end.

(** [value_sql]. *)
Definition value_sql (operand : Operand) (cast : string) (auth : AuthContext)
    (params : list string) : result (string * list string) :=
  if decide (operand = OpNow) then Ok ("now()", params)
  else value ← literal_value operand auth; Ok (push_param value cast params).

Definition is_now (o : Operand) : bool := match o with OpNow => true | _ => false end.
Definition is_number (o : Operand) : bool := match o with OpNumber _ => true | _ => false end.

(** The pattern [escape '\'] that ends every [like]. *)
Definition like_escape : string := " escape '\'".

Definition like_keyword (op : CompareOp) : string :=
  if decide (op = OLike) then "ilike" else "not ilike".

(** [compile_operator]. *)
Definition compile_operator (target column_type : string) (op : CompareOp) (operand : Operand)
    (swapped : bool) (auth : AuthContext) (params : list string) : result (string * list string) :=
  if decide (operand = OpNull) then
    match op with
    | OEq => Ok (target +:+ " is null", params)
    | ONotEq => Ok (target +:+ " is not null", params)
    | _ => Err Invalid
    end
  else
    _ ← check_operator_supported op column_type;
    match op with
    | OAny | ONotAny =>
        value ← literal_value operand auth;
        let '(placeholder, params) := push_param value "text" params in
        let predicate := placeholder +:+ " = any(" +:+ target +:+ ")" in
        Ok (if decide (op = OAny) then predicate else "not (" +:+ predicate +:+ ")", params)
    | OLike | ONotLike =>
        value ← literal_value operand auth;
        let '(placeholder, params) := push_param (escape_like value) "text" params in
        let keyword := like_keyword op in
        Ok (if swapped : bool
            then placeholder +:+ " " +:+ keyword +:+ " '%' || " +:+ target +:+ " || '%'" +:+ like_escape
            else target +:+ " " +:+ keyword +:+ " '%' || " +:+ placeholder +:+ " || '%'" +:+ like_escape,
            params)
    | _ =>
        let operator := " " +:+ sql_operator op +:+ " " in
        if decide (operand = OpNow) then
          if decide (column_type ≠ "timestamptz") then Err Invalid
          else Ok (if swapped : bool then "now()" +:+ operator +:+ target
                   else target +:+ operator +:+ "now()", params)
        else
          value ← literal_value operand auth;
          let '(placeholder, params) := push_param value (cast_for column_type) params in
          Ok (if swapped : bool then placeholder +:+ operator +:+ target
              else target +:+ operator +:+ placeholder, params)
    end.

(** [compile_values]. *)
Definition compile_values (left : Operand) (op : CompareOp) (right : Operand)
    (auth : AuthContext) (params : list string) : result (string * list string) :=
  if decide (left = OpNull ∨ right = OpNull) then Err Invalid
  else match op with
  | OAny | ONotAny => Err Invalid
  | OLike | ONotLike =>
      '(haystack, params) ← value_sql left "text" auth params;
      value ← literal_value right auth;
      let '(placeholder, params) := push_param (escape_like value) "text" params in
      Ok (haystack +:+ " " +:+ like_keyword op +:+ " '%' || " +:+ placeholder +:+ " || '%'"
            +:+ like_escape, params)
  | _ =>
      let cast := if is_now left || is_now right then "timestamptz"
                  else if is_number left || is_number right then "double precision"
                  else "text" in
      '(left_sql, params) ← value_sql left cast auth params;
      '(right_sql, params) ← value_sql right cast auth params;
      Ok (left_sql +:+ " " +:+ sql_operator op +:+ " " +:+ right_sql, params)
  end.

(** * Paths and expressions *)

(** [compile_at]; [alias_counter] is the counter on entry. *)
Fixpoint compile_at (ctx : FilterContext) (parent : string) (hops : list string) (column : string)
    (op : CompareOp) (operand : Operand) (swapped : bool) (auth : AuthContext)
    (params : list string) (alias_counter : nat) : result (string * list string) :=
  match hops with
  | [] =>
      column_type ← ok_or (columns ctx !! column) Invalid;
      compile_operator (parent +:+ "." +:+ quote_ident column) column_type op operand swapped
        auth params
  | relation_name :: rest =>
      relation ← ok_or (assoc relation_name (relations ctx)) Invalid;
      let alias_counter := S alias_counter in
      let alias := "rt" +:+ dec_nat alias_counter in
      let key := alias +:+ "." +:+ dq +:+ "id" +:+ dq in
      let join :=
        if multiple relation
        then key +:+ " = any(" +:+ parent +:+ "." +:+ quote_ident (rel_column relation) +:+ ")"
        else key +:+ " = " +:+ parent +:+ "." +:+ quote_ident (rel_column relation) in
      '(inner, params) ←
        compile_at (rel_context relation) alias rest column op operand swapped auth params alias_counter;
      Ok ("exists (select 1 from " +:+ quote_ident (rel_table relation) +:+ " " +:+ alias
            +:+ " where " +:+ join +:+ " and " +:+ inner +:+ ")", params)
  end.

(** [split_last]: the column and the hops before it. *)
Fixpoint split_last (path : list string) : option (string * list string) :=
  match path with
  | [] => None
  | [x] => Some (x, [])
  | x :: l => '(y, hops) ← split_last l; Some (y, x :: hops)
  end.

(** [compile_path]; an empty path is the [expect] that a parsed comparison
    never reaches. *)
Definition compile_path (path : list string) (op : CompareOp) (operand : Operand) (swapped : bool)
    (ctx : FilterContext) (auth : AuthContext) (root : string) (params : list string)
    : result (string * list string) :=
  if decide (MAX_PATH_DEPTH < length path) then Err Invalid
  else
    '(column, hops) ← ok_or (split_last path) Internal;
    compile_at ctx root hops column op operand swapped auth params 0.

(** [compile_comparison]. *)
Definition compile_comparison (left : Side) (op : CompareOp) (right : Side)
    (ctx : FilterContext) (auth : AuthContext) (root : string) (params : list string)
    : result (string * list string) :=
  match left, right with
  | SPath path, SValue operand => compile_path path op operand false ctx auth root params
  | SValue operand, SPath path => compile_path path op operand true ctx auth root params
  | SValue l, SValue r => compile_values l op r auth params
  | SPath _, SPath _ => Err Unsupported
  end.

(** [compile_expr]. *)
Fixpoint compile_expr (e : Expr) (ctx : FilterContext) (auth : AuthContext) (root : string)
    (params : list string) : result (string * list string) :=
  match e with
  | EAnd l r =>
      '(sl, params) ← compile_expr l ctx auth root params;
      '(sr, params) ← compile_expr r ctx auth root params;
      Ok ("(" +:+ sl +:+ " and " +:+ sr +:+ ")", params)
  | EOr l r =>
      '(sl, params) ← compile_expr l ctx auth root params;
      '(sr, params) ← compile_expr r ctx auth root params;
      Ok ("(" +:+ sl +:+ " or " +:+ sr +:+ ")", params)
  | ECompare l op r => compile_comparison l op r ctx auth root params
  end.

(** [struct CompiledFilter]. *)
Record CompiledFilter := { cf_sql : string; cf_params : list string }.

(** [compile_with_root] and [compile]. *)
Definition compile_with_root (e : Expr) (ctx : FilterContext) (auth : AuthContext) (root : string)
    : result CompiledFilter :=
  '(sql, params) ← compile_expr e ctx auth root [];
  Ok {| cf_sql := sql; cf_params := params |}.

Definition compile (e : Expr) (ctx : FilterContext) (auth : AuthContext) : result CompiledFilter :=
  compile_with_root e ctx auth (quote_ident (table ctx)).
