(* ===== verification/CompileSpec.v ===== *)
(** What the filter compiler promises: a request's values never become SQL
    text, the placeholders are numbered as the parameters are pushed, and the
    only names in the statement are the schema's. *)
From S2P Require Import Prelude CoreError F64 Json Filter Types Sql Ddl Compile.

Local Set Warnings "-clear-no-such-hyp,-register-all".

(** The names a context can put in a statement. *)
Inductive schema_name : FilterContext → string → Prop :=
  | name_id ctx : schema_name ctx "id"
  | name_column ctx c t : columns ctx !! c = Some t → schema_name ctx c
  | name_relation_column ctx k r :
      assoc k (relations ctx) = Some r → schema_name ctx (rel_column r)
  | name_relation_table ctx k r :
      assoc k (relations ctx) = Some r → schema_name ctx (rel_table r)
  | name_nested ctx k r x :
      assoc k (relations ctx) = Some r → schema_name (rel_context r) x → schema_name ctx x.

(** The two string constants the compiler itself writes. *)
Definition like_const (v : string) : Prop := v = "%" ∨ v = "\".

Lemma like_const_wildcard : like_const "%".
Proof. by left. Qed.
Lemma like_const_escape : like_const "\".
Proof. by right. Qed.
#[export] Hint Resolve like_const_wildcard like_const_escape : part.

(** What a compilation step that starts with [params] may return. *)
Definition compiles (P : string → Prop) (params : list string)
    (r : result (string * list string)) : Prop :=
  match r with
  | Ok (s, params') => part P like_const params s params'
  | Err _ => True
  end.

Lemma compiles_bind P params p r (k : string * list string → result (string * list string)) :
  compiles P p r →
  (∀ s p', part P like_const p s p' → compiles P params (k (s, p'))) →
  compiles P params (r ≫= k).
Proof. destruct r as [[s p1]|]; cbn; auto. Qed.

Lemma quote_ident_part P Q x p : P x → part P Q p (quote_ident x) p.
Proof. intros. rewrite quote_ident_quotation. apply part_quotation. by left. Qed.
Lemma sql_literal_part (P Q : string → Prop) x p : Q x → part P Q p (sql_literal x) p.
Proof. intros. apply (part_quotation P Q tick_char x). by right. Qed.
#[export] Hint Resolve quote_ident_part sql_literal_part : part.
#[export] Hint Opaque quote_ident sql_literal : part.

Lemma push_param_part P Q value cast params s params' :
  bare cast = true → push_param value cast params = (s, params') → part P Q params s params'.
Proof.
  intros Hc [= <- <-]. case_decide.
  - rewrite str_app_assoc. eapply part_app; [apply part_param|by apply part_bare|done|done].
  - rewrite str_app_assoc. eapply part_app; [apply part_param| |done|done].
    by apply part_bare.
Qed.

Lemma cast_for_bare t : bare (cast_for t) = true.
Proof.
  unfold cast_for. case_decide as H; [|done].
  rewrite !elem_of_cons in H. naive_solver set_solver.
Qed.

(** Names the placeholders of the goal's [push_param]s. *)
Ltac push_all :=
  repeat match goal with
  | |- context [push_param ?value ?cast ?params] =>
      let E := fresh "E" in let H := fresh "Hpush" in
      let Hc := fresh "Hc" in
      assert (Hc : bare cast = true) by first [done | apply cast_for_bare];
      destruct (push_param value cast params) as [? ?] eqn:E;
      pose proof (λ P Q, push_param_part P Q value cast params _ _ Hc E) as H;
      clear E Hc
  end.

Lemma compile_operator_spec P target ty op operand swapped auth params :
  (∀ p, part P like_const p target p) →
  compiles P params (compile_operator target ty op operand swapped auth params).
Proof.
  intros Ht. unfold compile_operator. case_decide.
  { destruct op; cbn [compiles]; try done; part_solve. }
  destruct (check_operator_supported op ty); [cbn [mbind result_bind]|done].
  destruct op; repeat (case_decide; try done).
  all: try (destruct swapped; cbn [compiles]; part_solve).
  all: destruct (literal_value operand auth) as [value|]; cbn [mbind result_bind]; [|done].
  all: push_all; try destruct swapped; cbn [compiles]; part_solve.
Qed.

Lemma value_sql_spec P operand cast auth params :
  bare cast = true → compiles P params (value_sql operand cast auth params).
Proof.
  intros Hc. unfold value_sql. case_decide; cbn [compiles]; [part_solve|].
  destruct (literal_value operand auth) as [value|]; cbn [mbind result_bind]; [|done].
  destruct (push_param value cast params) as [s p] eqn:E. by eapply push_param_part.
Qed.

Lemma compile_values_spec P l op r auth params :
  compiles P params (compile_values l op r auth params).
Proof.
  unfold compile_values. case_decide; [done|].
  set (cast := if is_now l || is_now r then _ else _).
  assert (bare cast = true) as Hcast
    by (subst cast; destruct (is_now l || is_now r), (is_number l || is_number r); done).
  clearbody cast. destruct op; try done.
  all: eapply compiles_bind; [by apply value_sql_spec|]; intros s1 p1 H1.
  all: try (eapply compiles_bind; [by apply value_sql_spec|]; intros s2 p2 H2;
    cbn [compiles]; part_solve).
  all: destruct (literal_value r auth) as [value|]; cbn [mbind result_bind]; [|done].
  all: push_all; cbn [compiles]; part_solve.
Qed.

Lemma alias_part P n p : part P like_const p ("rt" +:+ dec_nat n) p.
Proof.
  apply part_bare. unfold bare. rewrite str_forall_app. apply andb_true_iff. split; [done|].
  eapply str_forall_impl; [|apply (pretty_N_value (N.of_nat n))].
  intros c. by_bytes c.
Qed.

Lemma compile_at_spec P ctx parent hops column op operand swapped auth params k :
  (∀ p, part P like_const p parent p) → (∀ x, schema_name ctx x → P x) →
  compiles P params (compile_at ctx parent hops column op operand swapped auth params k).
Proof.
  revert ctx parent params k. induction hops as [|hop hops IH]; intros ctx parent params k Hp Hn.
  - cbn [compile_at]. destruct (columns ctx !! column) as [ty|] eqn:Hc; cbn [ok_or mbind result_bind]; [|done].
    assert (P column) by (eapply Hn, name_column, Hc).
    apply compile_operator_spec. intros p. part_solve.
  - cbn [compile_at]. destruct (assoc hop (relations ctx)) as [r|] eqn:Hr;
      cbn [ok_or mbind result_bind]; [|done].
    pose proof (alias_part P (S k)) as Ha.
    remember ("rt" +:+ dec_nat (S k)) as alias eqn:Halias. clear Halias.
    apply (compiles_bind _ _ params).
    { apply IH; [done|]. intros x Hx. eapply Hn, name_nested; done. }
    intros inner p Hi. cbn [compiles].
    assert (P (rel_column r)) by (eapply Hn, name_relation_column, Hr).
    assert (P (rel_table r)) by (eapply Hn, name_relation_table, Hr).
    assert (P "id") by apply Hn, name_id.
    destruct (multiple r); part_solve.
Qed.

Lemma compile_expr_spec P e ctx auth root params :
  (∀ p, part P like_const p root p) → (∀ x, schema_name ctx x → P x) →
  compiles P params (compile_expr e ctx auth root params).
Proof.
  intros Hr Hn. revert params. induction e as [l IHl r IHr|l IHl r IHr|l op r]; intros params.
  1,2: cbn [compile_expr]; apply (compiles_bind _ _ params); [done|]; intros s1 p1 H1;
    apply (compiles_bind _ _ p1); [done|]; intros s2 p2 H2; cbn [compiles]; part_solve.
  cbn [compile_expr]. destruct l as [path|v], r as [path'|v']; cbn [compile_comparison]; try done.
  3: apply compile_values_spec.
  all: unfold compile_path; case_decide; [done|].
  all: destruct (split_last _) as [[column hops]|]; cbn [ok_or mbind result_bind]; [|done].
  all: by apply compile_at_spec.
Qed.
