(* ===== verification/Samples.v ===== *)
(** The concrete workspace on which the witnesses of the query components are
    evaluated: a [posts] collection with a relation to an auth collection. *)
From S2P Require Import Prelude CoreError Json Types Compile.

Definition sample_json_text : JsonText := λ _, "{}".

Definition sample_field (name : string) (t : FieldType) (options : Value) : Field :=
  {| field_id := name; field_collection_id := "c"; field_name := name; field_type := t;
     required := false; is_unique := false; field_options := options; position := 0 |}.

Definition sample_users : Collection :=
  {| collection_id := "u"; collection_name := "users"; collection_type := CAuth;
     collection_options := JObject []; rules := JObject [];
     fields := [sample_field "name" FText (JObject []);
                sample_field "password_hash" FText (JObject [])] |}.

Definition sample_posts : Collection :=
  {| collection_id := "p"; collection_name := "posts"; collection_type := CBase;
     collection_options := JObject []; rules := JObject [];
     fields := [sample_field "title" FText (JObject []);
                sample_field "author" FRelation (JObject [("collectionId", JString "u")])] |}.

Definition sample_context : FilterContext :=
  match @for_collection sample_json_text sample_posts [sample_users; sample_posts] with
  | Ok ctx => ctx
  | Err _ => MkContext "" "" ∅ []
  end.

Definition sample_auth : AuthContext :=
  {| ac_id := None; ac_email := None; ac_collection_id := None; ac_collection_name := None;
     ac_claims := ∅ |}.

(** A strict order on ids: the bytewise one. *)
Definition sample_id_lt (a b : string) : Prop := String.leb b a = false.

#[export] Instance sample_id_lt_dec : RelDecision sample_id_lt.
Proof. unfold sample_id_lt. intros a b. apply _. Defined.

#[export] Instance sample_id_lt_strict : StrictOrder sample_id_lt.
Proof.
  unfold sample_id_lt. split.
  - intros a H. pose proof (String.leb_total a a) as []; congruence.
  - intros a b c H1 H2. destruct (String.leb c a) eqn:Hca; [|done].
    assert (String.leb a b = true) as Hab by (destruct (String.leb_total a b); congruence).
    assert ((c ≤ b)%string) as Hle.
    { trans a; unfold String.le; [by rewrite Hca|by rewrite Hab]. }
    unfold String.le in Hle. rewrite H2 in Hle. by destruct Hle.
Qed.
