(* ===== verification/CompileProps.v ===== *)
(** The filter compiler's contract: parameterised SQL with the schema's names
    only, text that does not depend on the request's values, patterns that
    match literally, and credential columns that no filter reaches. *)
From S2P Require Import Prelude CoreError F64 Json Filter FilterSpec FilterText Types Sql Ddl Compile CompileSpec Samples.

Local Set Warnings "-clear-no-such-hyp,-register-all".

(** * The text does not depend on the values *)

(** What the compiler may look at in a value: whether it is [null], [@now], a
    number, or anything else. *)
Definition operand_shape (o : Operand) : Operand :=
  match o with
  | OpNull => OpNull
  | OpNow => OpNow
  | OpNumber _ => OpNumber (f64_of_Z 0)
  | OpText _ | OpBool _ | OpAuth _ => OpText ""
  end.
Definition side_shape (s : Side) : Side :=
  match s with SPath p => SPath p | SValue o => SValue (operand_shape o) end.
Fixpoint shape (e : Expr) : Expr :=
  match e with
  | EAnd l r => EAnd (shape l) (shape r)
  | EOr l r => EOr (shape l) (shape r)
  | ECompare l op r => ECompare (side_shape l) op (side_shape r)
  end.

(** Two steps that agree on everything but the parameters' values. *)
Definition alike (r1 r2 : result (string * list string)) : Prop :=
  match r1, r2 with
  | Ok (s1, p1), Ok (s2, p2) => s1 = s2 ∧ length p1 = length p2
  | Err e1, Err e2 => e1 = e2
  | _, _ => False
  end.

Lemma alike_bind r1 r2 (k1 k2 : string * list string → result (string * list string)) :
  alike r1 r2 →
  (∀ s p1 p2, length p1 = length p2 → alike (k1 (s, p1)) (k2 (s, p2))) →
  alike (r1 ≫= k1) (r2 ≫= k2).
Proof.
  destruct r1 as [[s1 p1]|], r2 as [[s2 p2]|]; cbn; try done; try naive_solver.
Qed.

Lemma literal_value_alike o a1 a2 :
  (∃ v1 v2, literal_value o a1 = Ok v1 ∧ literal_value (operand_shape o) a2 = Ok v2)
  ∨ ∃ e, literal_value o a1 = Err e ∧ literal_value (operand_shape o) a2 = Err e.
Proof. destruct o; cbn; eauto 6. Qed.

Lemma push_param_alike v1 v2 cast p1 p2 :
  length p1 = length p2 →
  ∃ s q1 q2, push_param v1 cast p1 = (s, q1) ∧ push_param v2 cast p2 = (s, q2)
    ∧ length q1 = length q2.
Proof.
  intros H. assert (length (p1 ++ [v1]) = length (p2 ++ [v2])) as Hl by by rewrite !length_app, H.
  unfold push_param. cbv zeta. rewrite Hl. by do 3 eexists.
Qed.

Ltac alike_value o a1 a2 :=
  destruct (literal_value_alike o a1 a2) as [(?v1 & ?v2 & -> & ->)|(?e & -> & ->)];
  cbn [mbind result_bind]; [|done].
Ltac alike_push :=
  match goal with
  | |- context [push_param ?v1 ?cast ?p1] =>
      match goal with
      | |- context [push_param ?v2 cast ?p2] =>
          tryif constr_eq v1 v2 then fail else
          let H := fresh in
          destruct (push_param_alike v1 v2 cast p1 p2) as (?s & ?q1 & ?q2 & -> & -> & ?); [done|]
      end
  end.

Lemma operand_shape_null o : operand_shape o = OpNull ↔ o = OpNull.
Proof. destruct o; cbn; naive_solver. Qed.
Lemma operand_shape_now o : operand_shape o = OpNow ↔ o = OpNow.
Proof. destruct o; cbn; naive_solver. Qed.

Lemma compile_operator_alike target ty op o sw a1 a2 p1 p2 :
  length p1 = length p2 →
  alike (compile_operator target ty op o sw a1 p1)
    (compile_operator target ty op (operand_shape o) sw a2 p2).
Proof.
  intros Hl. unfold compile_operator.
  rewrite (decide_ext _ _ _ _ (operand_shape_null o)), !(decide_ext _ _ _ _ (operand_shape_now o)).
  case_decide; [by destruct op|].
  destruct (check_operator_supported op ty); cbn [mbind result_bind]; [|done].
  destruct op.
  all: repeat (case_decide; [try (case_decide; done)|]).
  all: try alike_value o a1 a2; try alike_push; cbn; done.
Qed.

Lemma value_sql_alike o cast a1 a2 p1 p2 :
  length p1 = length p2 →
  alike (value_sql o cast a1 p1) (value_sql (operand_shape o) cast a2 p2).
Proof.
  intros Hl. unfold value_sql. rewrite (decide_ext _ _ _ _ (operand_shape_now o)).
  case_decide; [done|]. alike_value o a1 a2. alike_push. done.
Qed.

Lemma compile_values_alike l op r a1 a2 p1 p2 :
  length p1 = length p2 →
  alike (compile_values l op r a1 p1)
    (compile_values (operand_shape l) op (operand_shape r) a2 p2).
Proof.
  intros Hl. unfold compile_values.
  assert (∀ o, is_now (operand_shape o) = is_now o) as Hnow by by intros [].
  assert (∀ o, is_number (operand_shape o) = is_number o) as Hnum by by intros [].
  assert ((operand_shape l = OpNull ∨ operand_shape r = OpNull) ↔ (l = OpNull ∨ r = OpNull)) as Hn
    by by rewrite !operand_shape_null.
  rewrite !Hnow, !Hnum, (decide_ext _ _ _ _ Hn). case_decide; [done|].
  generalize (if is_now l || is_now r then "timestamptz" else
    if is_number l || is_number r then "double precision" else "text"); intros cast.
  destruct op; try done.
  all: apply alike_bind; [by apply value_sql_alike|]; intros s q1 q2 Hq.
  1-6: apply alike_bind; [by apply value_sql_alike|]; by intros.
  all: alike_value r a1 a2; alike_push; done.
Qed.

Lemma compile_at_alike ctx parent hops column op o sw a1 a2 p1 p2 k :
  length p1 = length p2 →
  alike (compile_at ctx parent hops column op o sw a1 p1 k)
    (compile_at ctx parent hops column op (operand_shape o) sw a2 p2 k).
Proof.
  revert ctx parent k. induction hops as [|hop hops IH]; intros ctx parent k Hl; cbn [compile_at].
  - destruct (columns ctx !! column); cbn [ok_or mbind result_bind]; [|done].
    by apply compile_operator_alike.
  - destruct (assoc hop (relations ctx)) as [r|]; cbn [ok_or mbind result_bind]; [|done].
    apply alike_bind; [by apply IH|]. by intros.
Qed.

Lemma compile_expr_alike e ctx a1 a2 root p1 p2 :
  length p1 = length p2 →
  alike (compile_expr e ctx a1 root p1) (compile_expr (shape e) ctx a2 root p2).
Proof.
  revert p1 p2. induction e as [l IHl r IHr|l IHl r IHr|l op r]; intros p1 p2 Hl.
  1,2: cbn [shape compile_expr]; apply alike_bind; [by apply IHl|]; intros s q1 q2 Hq;
    apply alike_bind; [by apply IHr|]; by intros.
  cbn [shape compile_expr]. destruct l as [path|v], r as [path'|v']; cbn [compile_comparison side_shape].
  1: done.
  3: by apply compile_values_alike.
  all: unfold compile_path; case_decide; [done|].
  all: destruct (split_last _) as [[column hops]|]; cbn [ok_or mbind result_bind]; [|done].
  all: by apply compile_at_alike.
Qed.

(** * What a context exposes *)

(** The contexts a path can reach. *)
Inductive reaches : FilterContext → FilterContext → Prop :=
  | reaches_here ctx : reaches ctx ctx
  | reaches_there ctx k r ctx' :
      assoc k (relations ctx) = Some r → reaches (rel_context r) ctx' → reaches ctx ctx'.

Lemma assoc_insert_lookup {A} k (v : A) l k' :
  assoc k' (assoc_insert k v l) = if decide (k = k') then Some v else assoc k' l.
Proof.
  induction l as [|[k2 v2] l IH]; cbn.
  - by destruct (decide (k = k')).
  - destruct (decide (k2 = k)) as [->|]; cbn; [by destruct (decide (k = k'))|].
    rewrite IH. by destruct (decide (k2 = k')), (decide (k = k')); subst.
Qed.

(** Every relation of a built context leads to a context built one level
    down, for a collection of the workspace. *)
Definition relations_built `{JsonText} (levels : nat) (all : list Collection)
    (rels : list (string * RelationTarget FilterContext)) : Prop :=
  ∀ k r, assoc k rels = Some r →
    ∃ l target, levels = S l ∧ target ∈ all ∧ build l target all = Ok (rel_context r)
      ∧ rel_table r = collection_name target.

Lemma find_target_elem all id t : find_target all id = Some t → t ∈ all.
Proof.
  unfold find_target. intros H%head_Some_elem_of. by apply list_elem_of_filter in H as [_ H].
Qed.

Lemma base_columns_credentials `{JsonText} c cols col :
  base_columns c = Ok cols → col ∈ CREDENTIAL_COLUMNS → cols !! col = None.
Proof.
  unfold base_columns, implicit_fields. intros H1 Hc.
  destruct (decide (collection_type c ≠ CView)), (decide (collection_type c = CAuth)); cbn in H1;
    injection H1 as <-; unfold CREDENTIAL_COLUMNS in Hc; rewrite !elem_of_cons, elem_of_nil in Hc;
    destruct Hc as [->|[->|[]]]; reflexivity.
Qed.

Lemma build_spec `{JsonText} levels c all ctx :
  build levels c all = Ok ctx →
  table ctx = collection_name c ∧ ctx_collection_id ctx = collection_id c
  ∧ relations_built levels all (relations ctx)
  ∧ (collection_type c = CAuth → ∀ col, col ∈ CREDENTIAL_COLUMNS →
       columns ctx !! col = None ∧ assoc col (relations ctx) = None).
Proof.
  intros Hb. destruct levels as [|levels]; cbn [build] in Hb;
    apply bind_Ok in Hb as (base & Hbase & Hb);
    apply bind_Ok in Hb as ([cols rels] & Hf & [= <-]); cbn.
  all: split; [done|]; split; [done|].
  all: match goal with |- relations_built ?n _ _ ∧ _ =>
    apply (try_fold_inv (λ st : gmap string string * _, relations_built n all st.2
      ∧ (collection_type c = CAuth → ∀ col, col ∈ CREDENTIAL_COLUMNS →
          st.1 !! col = None ∧ assoc col st.2 = None))) in Hf; [exact Hf| |] end.
  2,4: cbn; split; [by intros ??|]; intros _ col Hc; split; [by eapply base_columns_credentials|done].
  all: clear; intros [cols rels] f [cols' rels'] [Hr Hc] _ Hstep; cbn in *.
  all: destruct (is_auth (collection_type c) && bool_decide (field_name f ∈ CREDENTIAL_COLUMNS)) eqn:Hg;
    [by injection Hstep as <- <-|].
  all: apply bind_Ok in Hstep as (ty & _ & Hstep).
  all: assert (collection_type c = CAuth → ∀ col, col ∈ CREDENTIAL_COLUMNS → field_name f ≠ col) as Hn
    by (intros Ha col Hcol <-; rewrite Ha, bool_decide_true in Hg by done; done).
  all: assert (collection_type c = CAuth → ∀ col, col ∈ CREDENTIAL_COLUMNS →
    <[field_name f := ty]> cols !! col = None ∧ assoc col rels = None) as Hc'
    by (intros Ha col Hcol; rewrite lookup_insert_ne by auto; by apply Hc).
  all: case_decide; [by injection Hstep as <- <-|].
  1: by injection Hstep as <- <-.
  apply bind_Ok in Hstep as (tid & _ & Hstep).
  destruct (find_target all tid) as [t|] eqn:Ht; [|by injection Hstep as <- <-].
  apply bind_Ok in Hstep as (ctx & Hctx & Hstep). injection Hstep as <- <-.
  split.
  - intros k r. cbn [snd]. rewrite assoc_insert_lookup. destruct (decide (field_name f = k)); [|exact (Hr k r)].
    intros [= <-]. exists levels, t. by eauto using find_target_elem.
  - intros Ha col Hcol. cbn [snd]. rewrite assoc_insert_lookup, decide_False by auto. exact (Hc' Ha col Hcol).
Qed.

Lemma build_reaches `{JsonText} levels c all ctx ctx' :
  build levels c all = Ok ctx → reaches ctx ctx' →
  ∃ l c', (c' = c ∨ c' ∈ all) ∧ build l c' all = Ok ctx'.
Proof.
  intros Hb Hr. revert levels c Hb.
  induction Hr as [ctx|ctx k r ctx' Hk Hr IH]; intros levels c Hb; [by eauto|].
  apply build_spec in Hb as (_ & _ & Hrel & _).
  destruct (Hrel _ _ Hk) as (l & t & -> & Ht & Hbt & _).
  destruct (IH _ _ Hbt) as (l' & c' & [->|Hc'] & Hb'); eauto.
Qed.

(** * Patterns *)

(** [s LIKE p ESCAPE '\'] as PostgreSQL documents it: [%] stands for any
    sequence, [_] for any one character, the escape takes the next one
    literally. *)
Fixpoint like (p : string) : string → bool :=
  match p with
  | EmptyString => λ s, bool_decide (s = "")
  | String c p =>
      if decide (c = backslash) then
        match p with
        | EmptyString => λ _, false
        | String d p => λ s,
            match s with EmptyString => false | String e s => bool_decide (d = e) && like p s end
        end
      else if decide (c = "%"%char) then
        fix any s := like p s || match s with EmptyString => false | String _ s => any s end
      else if decide (c = "_"%char) then λ s,
        match s with EmptyString => false | String _ s => like p s end
      else λ s,
        match s with EmptyString => false | String e s => bool_decide (c = e) && like p s end
  end.

(** [ILIKE]: both sides lower-cased first. *)
Definition ilike (p s : string) : bool := like (to_ascii_lowercase p) (to_ascii_lowercase s).

Lemma to_ascii_lowercase_app s t :
  to_ascii_lowercase (s +:+ t) = to_ascii_lowercase s +:+ to_ascii_lowercase t.
Proof.
  induction s as [|c s IH]; [done|]. rewrite str_app_cons. cbn in *. by rewrite str_app_cons, IH.
Qed.

Lemma ascii_lower_meta c :
  (ascii_lower c = backslash ↔ c = backslash) ∧ (ascii_lower c = "%"%char ↔ c = "%"%char)
  ∧ (ascii_lower c = "_"%char ↔ c = "_"%char).
Proof.
  destruct c as [[] [] [] [] [] [] [] []]; vm_compute; repeat split; congruence.
Qed.

Lemma escape_like_lower v : to_ascii_lowercase (escape_like v) = escape_like (to_ascii_lowercase v).
Proof.
  induction v as [|c v IH]; [done|]. cbn in *.
  destruct (ascii_lower_meta c) as (H1 & H2 & H3).
  case_decide as Hc; [rewrite decide_True by tauto|rewrite decide_False by tauto]; cbn; by rewrite IH.
Qed.

(** An escaped value, then [p], matches that value followed by a match of [p]. *)
Lemma like_escaped v p s :
  like (escape_like v +:+ p) s = true ↔ ∃ t, s = v +:+ t ∧ like p t = true.
Proof.
  revert s. induction v as [|c v IH]; intros s.
  - cbn [escape_like]. str_simpl. split; [by exists s|]. by intros (t & -> & H).
  - assert (like (escape_like (String c v) +:+ p) s
      = match s with EmptyString => false
        | String e s => bool_decide (c = e) && like (escape_like v +:+ p) s end) as ->.
    { cbn [escape_like]. case_decide as Hc; str_simpl; cbn [like]; [done|].
      by rewrite !decide_False by tauto. }
    destruct s as [|e s]; [split; [done|by intros (t & ? & _)]|].
    rewrite andb_true_iff, bool_decide_eq_true, IH. split.
    + intros (-> & t & -> & H). by exists t.
    + intros (t & [= -> ->] & H). eauto.
Qed.

Lemma like_any p s : like ("%" +:+ p) s = true ↔ ∃ a t, s = a +:+ t ∧ like p t = true.
Proof.
  str_simpl. induction s as [|c s IH].
  - change (like (String "%" p) "") with (like p "" || false). rewrite orb_false_r. split.
    + by exists "", "".
    + intros (a & t & H & Ht). destruct a; [rewrite str_app_nil_l in H; by subst|done].
  - change (like (String "%" p) (String c s))
      with (like p (String c s) || like (String "%" p) s).
    rewrite orb_true_iff, IH. split.
    + intros [H|(a & t & -> & H)]; [by exists "", (String c s)|by exists (String c a), t].
    + intros ([|d a] & t & H & Ht); [left|right].
      * rewrite str_app_nil_l in H. by subst.
      * rewrite str_app_cons in H. injection H as -> ->. eauto.
Qed.

Lemma like_contains v s : like ("%" +:+ escape_like v +:+ "%") s = true ↔ ∃ a b, s = a +:+ v +:+ b.
Proof.
  rewrite like_any. split.
  - intros (a & t & -> & (b & -> & _)%like_escaped). eauto.
  - intros (a & b & ->). exists a, (v +:+ b). split; [done|]. apply like_escaped.
    exists b. split; [done|]. change "%" with ("%" +:+ ""). apply like_any.
    exists b, "". by rewrite str_app_nil_r.
Qed.

(** * Errors *)

(** A pattern or membership test against [@now]: the one shape the compiler
    takes for a bug of its own. *)
Definition is_pattern (op : CompareOp) : bool :=
  bool_decide (op ∈ [OLike; ONotLike; OAny; ONotAny]).
Definition now_side (s : Side) : bool := bool_decide (s = SValue OpNow).
Fixpoint now_pattern (e : Expr) : bool :=
  match e with
  | EAnd l r | EOr l r => now_pattern l || now_pattern r
  | ECompare l op r => is_pattern op && (now_side l || now_side r)
  end.

(** The refusals of a compilation step; [now] tells whether it met [@now] in
    a pattern. *)
Definition refuses (now : bool) {A} (r : result A) : Prop :=
  match r with
  | Ok _ => True
  | Err e => e = Invalid ∨ e = Unsupported ∨ (e = Internal ∧ now = true)
  end.

Lemma refuses_bind now {A B} (r : result A) (k : A → result B) :
  refuses now r → (∀ a, refuses now (k a)) → refuses now (r ≫= k).
Proof. destruct r; cbn; auto. Qed.

Lemma refuses_weaken (now : bool) {A} (r : result A) (b : bool) :
  refuses now r → (now = true → b = true) → refuses b r.
Proof. destruct r; cbn; naive_solver. Qed.

Lemma literal_value_refuses o auth :
  o ≠ OpNull → refuses (bool_decide (o = OpNow)) (literal_value o auth).
Proof. destruct o; cbn; intros H; try done. by right; right. Qed.

Lemma value_sql_refuses o cast auth params : o ≠ OpNull → refuses false (value_sql o cast auth params).
Proof.
  intros Hn. unfold value_sql. case_decide; [done|].
  apply refuses_bind; [|done]. eapply refuses_weaken; [by apply literal_value_refuses|].
  by rewrite bool_decide_false.
Qed.

Lemma compile_operator_refuses target ty op o sw auth params :
  refuses (is_pattern op && bool_decide (o = OpNow)) (compile_operator target ty op o sw auth params).
Proof.
  unfold compile_operator. case_decide; [destruct op; cbn; auto|].
  apply refuses_bind.
  { unfold check_operator_supported. destruct op; repeat case_match; cbn; auto. }
  intros _. pose proof (literal_value_refuses o auth H) as Hl.
  assert (o ≠ OpNow → refuses false (literal_value o auth)) as Hl'
    by (intros Ho; by rewrite bool_decide_false in Hl).
  destruct op; cbn [is_pattern].
  all: try match goal with |- context [if decide (?x = OpNow) then _ else _] =>
    destruct (decide (x = OpNow)); [destruct (decide (ty ≠ "timestamptz")); cbn; auto|] end.
  all: apply refuses_bind; [by auto|]; intros v; by destruct (push_param _ _ _).
Qed.

Lemma compile_at_refuses ctx parent hops column op o sw auth params k :
  refuses (is_pattern op && bool_decide (o = OpNow))
    (compile_at ctx parent hops column op o sw auth params k).
Proof.
  revert ctx parent k. induction hops as [|hop hops IH]; intros ctx parent k; cbn [compile_at].
  - apply refuses_bind; [destruct (columns ctx !! column); cbn; auto|].
    intros ty. apply compile_operator_refuses.
  - apply refuses_bind; [destruct (assoc hop (relations ctx)); cbn; auto|].
    intros r. apply refuses_bind; [apply IH|]. by intros [].
Qed.

Lemma compile_values_refuses l op r auth params :
  refuses (is_pattern op && (bool_decide (l = OpNow) || bool_decide (r = OpNow)))
    (compile_values l op r auth params).
Proof.
  unfold compile_values. case_decide as Hn; [cbn; auto|].
  apply Decidable.not_or in Hn as [Hl Hr].
  destruct op; cbn [is_pattern]; try (cbn; auto; fail).
  all: apply refuses_bind; [by eapply refuses_weaken; [by apply value_sql_refuses|]|]; intros [].
  all: try (apply refuses_bind;
    [by eapply refuses_weaken; [by apply value_sql_refuses|]|by intros []]).
  all: apply refuses_bind; [|intros v; by destruct (push_param _ _ _)].
  all: eapply refuses_weaken; [by apply literal_value_refuses|]; intros ->.
  all: by rewrite orb_true_r.
Qed.

Lemma split_last_Some (path : list string) : path ≠ [] → is_Some (split_last path).
Proof.
  induction path as [|x path IH]; [done|]. intros _. destruct path as [|y path]; [by eexists|].
  cbn [split_last]. destruct IH as [[c hops] Hs]; [done|]. cbn [split_last] in Hs. rewrite Hs. by eexists.
Qed.

Lemma compile_path_refuses path op o sw ctx auth root params :
  path ≠ [] →
  refuses (is_pattern op && bool_decide (o = OpNow))
    (compile_path path op o sw ctx auth root params).
Proof.
  intros Hp. unfold compile_path. case_decide; [cbn; auto|].
  destruct (split_last_Some path Hp) as [[c hops] ->]. cbn. apply compile_at_refuses.
Qed.

Lemma now_side_value o : now_side (SValue o) = bool_decide (o = OpNow).
Proof. by destruct o. Qed.

Lemma compile_expr_refuses e ctx auth root params :
  well_pathed e = true → refuses (now_pattern e) (compile_expr e ctx auth root params).
Proof.
  revert params. induction e as [l IHl r IHr|l IHl r IHr|l op r]; intros params.
  1,2: cbn [well_pathed now_pattern compile_expr]; intros [Hl Hr]%andb_true_iff;
    apply refuses_bind; [eapply refuses_weaken; [by apply IHl|by intros ->]|]; intros [];
    apply refuses_bind; [|by intros []];
    eapply refuses_weaken; [by apply IHr|intros ->; apply orb_true_r].
  cbn [well_pathed now_pattern compile_expr]. intros [Hl Hr]%andb_true_iff.
  destruct l as [path|v], r as [path'|v']; cbn [compile_comparison]; rewrite ?now_side_value.
  - cbn. auto.
  - eapply refuses_weaken; [apply compile_path_refuses; by destruct path|].
    by intros [-> ->]%andb_true_iff.
  - eapply refuses_weaken; [apply compile_path_refuses; by destruct path'|].
    by intros [-> ->]%andb_true_iff.
  - apply compile_values_refuses.
Qed.

(** * The properties *)

(** C3. a compiled filter is a parameterised statement. PostgreSQL's scanner
    reads its text to the end; its placeholders are [$1], [$2], ... in order,
    one per parameter; every quoted identifier is the table or a name the
    context declares; and the only string constants are the wildcard and the
    escape the compiler writes. No value of the request is in the text. *)
Theorem compiled_filter_is_parameterised e ctx auth cf :
  compile e ctx auth = Ok cf →
  ∃ ts, lexemes (cf_sql cf) = Some ts
    ∧ lexeme_params ts = N.of_nat <$> seq 1 (length (cf_params cf))
    ∧ Forall (λ x, x = table ctx ∨ schema_name ctx x) (lexeme_idents ts)
    ∧ Forall (λ v, v = "%" ∨ v = "\") (lexeme_literals ts).
Proof.
  unfold compile, compile_with_root. intros H.
  apply bind_Ok in H as ([sql params] & He & [= <-]). cbn.
  pose proof (compile_expr_spec (λ x, x = table ctx ∨ schema_name ctx x) e ctx auth
    (quote_ident (table ctx)) []) as Hs.
  rewrite He in Hs. apply part_statement, Hs; [|auto].
  intros p. apply quote_ident_part. by left.
Qed.

(** two filters that differ only in the values they compare with, or in
    who makes the request, compile to the same text with as many parameters,
    or are refused alike. *)
Theorem compiled_text_ignores_values e1 e2 ctx auth1 auth2 :
  shape e1 = shape e2 →
  match compile e1 ctx auth1, compile e2 ctx auth2 with
  | Ok cf1, Ok cf2 =>
      cf_sql cf1 = cf_sql cf2 ∧ length (cf_params cf1) = length (cf_params cf2)
  | Err err1, Err err2 => err1 = err2
  | _, _ => False
  end.
Proof.
  intros Hs. unfold compile, compile_with_root. generalize (quote_ident (table ctx)); intros root.
  pose proof (compile_expr_alike e1 ctx auth1 auth1 root [] [] eq_refl) as H1.
  pose proof (compile_expr_alike e2 ctx auth2 auth1 root [] [] eq_refl) as H2.
  rewrite <-Hs in H2. unfold alike in *.
  destruct (compile_expr (shape e1) ctx auth1 root []) as [[s p]|],
    (compile_expr e1 ctx auth1 root []) as [[s1 p1]|],
    (compile_expr e2 ctx auth2 root []) as [[s2 p2]|]; cbn; try done; intuition congruence.
Qed.

(** C4. whatever relations a path follows, a context built for a collection
    never gives access to the credential columns of an auth collection: the
    context it ends in is that of a collection of the workspace, and if that
    one is an auth collection, [password_hash] and [token_key] are neither
    columns nor relations of it, so comparing one of them is refused. *)
Theorem credentials_unreachable `{JsonText} c all ctx ctx' :
  for_collection c all = Ok ctx → reaches ctx ctx' →
  ∃ c', (c' = c ∨ c' ∈ all) ∧ table ctx' = collection_name c'
    ∧ (collection_type c' = CAuth → ∀ col, col ∈ CREDENTIAL_COLUMNS →
        has_column ctx' col = false
        ∧ ∀ parent hops column op v sw auth params k,
            compile_at ctx' parent [] col op v sw auth params k = Err Invalid
            ∧ compile_at ctx' parent (col :: hops) column op v sw auth params k = Err Invalid).
Proof.
  intros Hf Hr. destruct (build_reaches _ _ _ _ _ Hf Hr) as (l & c' & Hc' & Hb).
  apply build_spec in Hb as (Ht & _ & _ & Hcred).
  exists c'. split; [done|]. split; [done|]. intros Ha col Hcol.
  destruct (Hcred Ha col Hcol) as [Hno Hrel]. split.
  - unfold has_column. by rewrite Hno.
  - intros. cbn [compile_at]. by rewrite Hno, Hrel.
Qed.

(** a text pattern matches literally. [column ~ value] compiles to one
    parameter, and the documented meaning of the pattern around it is that
    the row's text contains the value, wildcards included, up to case. *)
Theorem like_matches_literally f v ctx auth cf :
  compile (ECompare (SPath [f]) OLike (SValue (OpText v))) ctx auth = Ok cf →
  cf_sql cf = quote_ident (table ctx) +:+ "." +:+ quote_ident f
                +:+ " ilike '%' || $1::text || '%' escape '\'"
  ∧ ∃ pattern, cf_params cf = [pattern]
    ∧ ∀ s, ilike ("%" +:+ pattern +:+ "%") s = true
        ↔ ∃ a b, to_ascii_lowercase s = a +:+ to_ascii_lowercase v +:+ b.
Proof.
  intros H. unfold compile, compile_with_root in H. apply bind_Ok in H as ([sql params] & He & [= <-]).
  cbn [compile_expr compile_comparison] in He. unfold compile_path in He.
  cbn [length] in He. rewrite decide_False in He by (unfold MAX_PATH_DEPTH; lia).
  cbn [split_last ok_or mbind result_bind compile_at] in He.
  destruct (columns ctx !! f) as [ty|]; cbn [ok_or mbind result_bind] in He; [|done].
  unfold compile_operator in He. rewrite decide_False in He by done.
  apply bind_Ok in He as ([] & _ & He). cbn [literal_value mbind result_bind] in He.
  injection He as <- <-. cbn [cf_sql cf_params]. split.
  { rewrite <-!str_app_assoc. reflexivity. }
  exists (escape_like v). split; [done|]. intros s. unfold ilike.
  rewrite !to_ascii_lowercase_app, escape_like_lower. apply like_contains.
Qed.

(** parsing and compiling a request's filter returns, and a refusal is 400,
    or 501 for a comparison of two fields, except for a pattern or membership test against [@now]:
    [literal_value] takes that for a bug of its own and answers 500. *)
Theorem filter_refusals input ctx auth err :
  (e ← parse input; compile e ctx auth) = Err err →
  status err ∈ [400; 501]%Z ∨ (err = Internal ∧ ∃ e, parse input = Ok e ∧ now_pattern e = true).
Proof.
  destruct (parse input) as [e|e] eqn:Hp; cbn [mbind result_bind].
  - intros H. pose proof (compile_expr_refuses e ctx auth (quote_ident (table ctx)) []
      (parse_pathed _ _ Hp)) as Hr.
    unfold compile, compile_with_root in H.
    destruct (compile_expr e ctx auth _ []) as [[]|err']; cbn in H; [done|].
    injection H as ->. destruct Hr as [->|[->|[-> Hn]]]; [left|left|eauto]; set_solver.
  - intros [= <-]. left. apply parse_error in Hp as ->. set_solver.
Qed.

(** * Concrete inputs *)

Definition sample_filter (v : string) : Expr :=
  EAnd (ECompare (SPath ["author"; "name"]) OEq (SValue (OpText v)))
    (ECompare (SPath ["title"]) OLike (SValue (OpText "50%"))).

Definition sample_compiled : CompiledFilter :=
  match compile (sample_filter "x' or 1=1") sample_context sample_auth with
  | Ok cf => cf
  | Err _ => {| cf_sql := ""; cf_params := [] |}
  end.

Example sample_compiled_params : cf_params sample_compiled = ["x' or 1=1"; "50\%"].
Proof. vm_compute. reflexivity. Qed.

Lemma compiled_filter_is_parameterised_witness :
  ∃ ts, lexemes (cf_sql sample_compiled) = Some ts
    ∧ lexeme_params ts = N.of_nat <$> seq 1 (length (cf_params sample_compiled))
    ∧ Forall (λ x, x = table sample_context ∨ schema_name sample_context x) (lexeme_idents ts)
    ∧ Forall (λ v, v = "%" ∨ v = "\") (lexeme_literals ts).
Proof.
  apply (compiled_filter_is_parameterised (sample_filter "x' or 1=1") sample_context sample_auth).
  vm_compute. reflexivity.
Defined.

Lemma compiled_text_ignores_values_witness :
  match compile (sample_filter "a") sample_context sample_auth,
        compile (sample_filter "x' or 1=1") sample_context sample_auth with
  | Ok cf1, Ok cf2 =>
      cf_sql cf1 = cf_sql cf2 ∧ length (cf_params cf1) = length (cf_params cf2)
  | Err err1, Err err2 => err1 = err2
  | _, _ => False
  end.
Proof.
  apply (compiled_text_ignores_values (sample_filter "a") (sample_filter "x' or 1=1")).
  reflexivity.
Defined.

Lemma credentials_unreachable_witness :
  ∃ ctx', reaches sample_context ctx' ∧ table ctx' = "users"
    ∧ ∃ c', (c' = sample_posts ∨ c' ∈ [sample_users; sample_posts]) ∧ table ctx' = collection_name c'
      ∧ (collection_type c' = CAuth → ∀ col, col ∈ CREDENTIAL_COLUMNS →
        has_column ctx' col = false
        ∧ ∀ parent hops column op v sw auth params k,
            compile_at ctx' parent [] col op v sw auth params k = Err Invalid
            ∧ compile_at ctx' parent (col :: hops) column op v sw auth params k = Err Invalid).
Proof.
  assert (∃ r, assoc "author" (relations sample_context) = Some r ∧ table (rel_context r) = "users")
    as (r & Hk & Ht) by (eexists; split; [vm_compute; reflexivity|reflexivity]).
  exists (rel_context r).
  assert (reaches sample_context (rel_context r)) as Hr
    by exact (reaches_there _ "author" r _ Hk (reaches_here _)).
  split; [exact Hr|]. split; [exact Ht|].
  apply (@credentials_unreachable sample_json_text sample_posts [sample_users; sample_posts]
    sample_context); [vm_compute; reflexivity|exact Hr].
Defined.

Lemma like_matches_literally_witness :
  ∃ cf, compile (ECompare (SPath ["title"]) OLike (SValue (OpText "50%"))) sample_context sample_auth = Ok cf
  ∧ cf_sql cf = quote_ident (table sample_context) +:+ "." +:+ quote_ident "title"
                +:+ " ilike '%' || $1::text || '%' escape '\'"
  ∧ ∃ pattern, cf_params cf = [pattern]
    ∧ ∀ s, ilike ("%" +:+ pattern +:+ "%") s = true
        ↔ ∃ a b, to_ascii_lowercase s = a +:+ to_ascii_lowercase "50%" +:+ b.
Proof.
  eexists. split; [vm_compute; reflexivity|].
  apply (like_matches_literally "title" "50%" sample_context sample_auth). vm_compute. reflexivity.
Defined.

(** The known exception: [title ~ @now]. *)
Lemma filter_refusals_witness :
  (e ← parse "title ~ @now"; compile e sample_context sample_auth) = Err Internal
  ∧ (status Internal ∈ [400; 501]%Z
     ∨ (Internal = Internal ∧ ∃ e, parse "title ~ @now" = Ok e ∧ now_pattern e = true)).
Proof.
  split; [vm_compute; reflexivity|].
  apply (filter_refusals "title ~ @now" sample_context sample_auth). vm_compute. reflexivity.
Defined.
