(* ===== verification/Sort.v ===== *)
(** The [sort] parameter, [crates/db/src/query/sort.rs]. *)
From S2P Require Import Prelude CoreError Filter Types Sql Ddl Compile CompileSpec Samples.

Local Set Warnings "-register-all".

Definition MAX_SORT_FIELDS : nat := 8.

(** [struct SortField]; a [SortSpec] is the list of its keys. *)
Record SortField := { path : list string; descending : bool }.
Definition SortSpec : Type := list SortField.

(** [validate_segment]. *)
Definition validate_segment (segment : string) : result unit :=
  match segment with
  | EmptyString => Err Invalid
  | String first r =>
      if negb (is_ascii_alphabetic first || bool_decide (first = "_"%char)) then Err Invalid
      else if str_exists (λ c, negb (is_ascii_alphanumeric c || bool_decide (c = "_"%char))) r
      then Err Invalid else Ok ()
  end.

(** One iteration of [parse]'s loop: no key for a blank piece. *)
Definition parse_key (raw : string) : result (option SortField) :=
  let raw := trim raw in
  if decide (raw = "") then Ok None
  else
    let '(descending, path) :=
      match strip_prefix "-" raw with
      | Some rest => (true, rest)
      | None => (false, default raw (strip_prefix "+" raw))
      end in
    if decide (path = "") then Err Invalid
    else
      let segments := split_on "." path in
      _ ← try_map validate_segment segments;
      Ok (Some {| path := segments; descending := descending |}).

(** [parse]. *)
Definition parse (input : string) : result SortSpec :=
  keys ← try_map parse_key (split_on "," input);
  let fields := omap id keys in
  if decide (fields = []) then Err Invalid
  else if decide (MAX_SORT_FIELDS < length fields) then Err Invalid
  else Ok fields.

(** [SortSpec::default_spec]. *)
Definition default_spec : result SortSpec := parse "-created".

(** One key of [compile]. *)
Definition compile_key (context : FilterContext) (field : SortField) : result string :=
  match path field with
  | [column] =>
      if negb (has_column context column) then Err Invalid
      else Ok (quote_ident column +:+ " " +:+ if descending field then "desc" else "asc")
  | _ => Err Unsupported
  end.

(** [compile]. *)
Definition compile (spec : SortSpec) (context : FilterContext) : result string :=
  if decide (spec = []) then Err Internal
  else parts ← try_map (compile_key context) spec; Ok (join ", " parts).

(** * Printing *)

Definition print_key (k : SortField) : string :=
  (if descending k then "-" else "") +:+ join "." (path k).
Definition print_spec (spec : SortSpec) : string := join "," (print_key <$> spec).

Definition valid_key (k : SortField) : bool :=
  negb (bool_decide (path k = [])) && forallb valid_segment (path k).

(** What the keys of a parsed specification are. *)
Definition valid_spec (spec : SortSpec) : bool :=
  negb (bool_decide (spec = [])) && (length spec <=? MAX_SORT_FIELDS) && forallb valid_key spec.

Lemma validate_segment_spec s :
  validate_segment s = if valid_segment s then Ok () else Err Invalid.
Proof.
  destruct s as [|c r]; [done|]. unfold validate_segment, valid_segment, is_ident_start, str_exists.
  destruct (is_ascii_alphabetic c || _); [|done]. cbn [negb andb].
  assert (str_forall (λ c, negb (negb (is_ascii_alphanumeric c || bool_decide (c = "_"%char)))) r
    = str_forall is_ident_char r) as ->; [|by destruct (str_forall _ r)].
  induction r as [|d r IH]; [done|]. cbn. by rewrite IH, negb_involutive.
Qed.

Lemma try_map_check {A} (f : A → result unit) (p : A → bool) l :
  (∀ x, f x = if p x then Ok () else Err Invalid) →
  try_map f l = if forallb p l then Ok ((λ _, ()) <$> l) else Err Invalid.
Proof.
  intros Hf. induction l as [|x l IH]; [done|]. cbn. rewrite Hf, IH.
  by destruct (p x), (forallb p l).
Qed.

Lemma ident_char_graphic c : is_ident_char c = true → is_graphic c = true.
Proof. by_bytes c. Qed.

Lemma valid_segment_graphic s : valid_segment s = true → str_forall is_ident_char s = true.
Proof.
  destruct s as [|c r]; [done|]. cbn. intros [Hc Hr]%andb_true_iff.
  rewrite Hr, andb_true_r. revert Hc. by_bytes c.
Qed.

Lemma path_start p :
  p ≠ [] → forallb valid_segment p = true →
  ∃ c r, join "." p = String c r ∧ is_ident_start c = true.
Proof.
  destruct p as [|s p]; [done|]. intros _. cbn. intros [Hs _]%andb_true_iff.
  destruct s as [|c r]; [done|]. cbn in Hs. apply andb_true_iff in Hs as [Hc _].
  destruct p as [|q p]; [by exists c, r|].
  exists c, (r +:+ "." +:+ join "." (q :: p)). by split.
Qed.

Lemma path_no_comma p c :
  is_ident_char c = false → c ≠ "."%char → forallb valid_segment p = true →
  str_forall (λ d, bool_decide (d ≠ c)) (join "." p) = true.
Proof.
  intros Hc Hd Hp%forallb_Forall. apply join_forall; [cbn; by rewrite bool_decide_true by congruence|].
  eapply Forall_impl; [exact Hp|]. intros s Hs%valid_segment_graphic.
  eapply str_forall_impl; [|exact Hs]. intros d Hi. apply bool_decide_eq_true. congruence.
Qed.

Lemma path_graphic p : forallb valid_segment p = true → str_forall is_graphic (join "." p) = true.
Proof.
  intros Hp%forallb_Forall. apply join_forall; [done|].
  eapply Forall_impl; [exact Hp|]. intros s Hs%valid_segment_graphic.
  eapply str_forall_impl; [exact ident_char_graphic|exact Hs].
Qed.

Lemma split_path p :
  p ≠ [] → forallb valid_segment p = true → split_on "." (join "." p) = p.
Proof.
  intros Hne Hp. apply split_join; [done|]. apply forallb_Forall in Hp.
  eapply Forall_impl; [exact Hp|]. intros s Hs%valid_segment_graphic.
  eapply str_forall_impl; [|exact Hs]. intros d. by_bytes d.
Qed.

Lemma parse_key_print k : valid_key k = true → parse_key (print_key k) = Ok (Some k).
Proof.
  unfold valid_key. intros [Hne Hp]%andb_true_iff. apply negb_true_iff, bool_decide_eq_false in Hne.
  destruct (path_start _ Hne Hp) as (c & r & Hj & Hc).
  unfold parse_key, print_key. rewrite trim_graphic.
  2: { rewrite str_forall_app, path_graphic by done. by destruct (descending k). }
  assert (∀ d, (λ c, bool_decide (c = d)) c = false →
    strip_prefix (String d "") (String c r) = None) as Hstrip.
  { intros d Hd. cbn. apply bool_decide_eq_false in Hd. by rewrite decide_False by congruence. }
  assert ((if descending k then (true, join "." (path k)) else (false, join "." (path k)))
    = match strip_prefix "-" ((if descending k then "-" else "") +:+ join "." (path k)) with
      | Some rest => (true, rest)
      | None => (false, default ((if descending k then "-" else "") +:+ join "." (path k))
          (strip_prefix "+" ((if descending k then "-" else "") +:+ join "." (path k))))
      end) as <-.
  { destruct (descending k); str_simpl; [done|].
    rewrite Hj, !Hstrip by (revert Hc; by_bytes c). done. }
  rewrite decide_False by (rewrite Hj; by destruct (descending k)).
  assert ((if descending k then (true, join "." (path k)) else (false, join "." (path k)))
    = (descending k, join "." (path k))) as -> by by destruct (descending k).
  rewrite decide_False by by rewrite Hj.
  rewrite split_path by done.
  rewrite (try_map_check _ _ _ validate_segment_spec), Hp. cbn. by destruct k.
Qed.

Lemma parse_key_valid raw k : parse_key raw = Ok (Some k) → valid_key k = true.
Proof.
  unfold parse_key. cbv zeta. case_decide; [done|].
  generalize (match strip_prefix "-" (trim raw) with
    | Some rest => (true, rest)
    | None => (false, default (trim raw) (strip_prefix "+" (trim raw))) end).
  intros [d p]. case_decide; [done|].
  rewrite (try_map_check _ _ _ validate_segment_spec).
  destruct (forallb valid_segment (split_on "." p)) eqn:Hv; cbn; [|done].
  intros [= <-]. unfold valid_key. cbn. rewrite Hv, bool_decide_false by apply split_on_nonempty. done.
Qed.

Lemma parse_valid input spec : parse input = Ok spec → valid_spec spec = true.
Proof.
  unfold parse. intros H. apply bind_Ok in H as (keys & Hk & H). cbv zeta in H.
  case_decide as Hne; [done|]. case_decide as Hlen; [done|]. injection H as <-.
  unfold valid_spec. rewrite bool_decide_false by done.
  rewrite (proj2 (Nat.leb_le _ _)) by lia. cbn. apply forallb_Forall.
  apply try_map_Ok in Hk. clear Hne Hlen.
  induction Hk as [|raw [k|] l keys H Hl IH]; cbn; [constructor| |done].
  constructor; [|done]. by eapply parse_key_valid.
Qed.

Lemma compile_key_frag column d :
  frag (quote_ident column +:+ " " +:+ if d : bool then "desc" else "asc") [QIdent column].
Proof.
  rewrite <-(app_nil_r [QIdent column]). apply frag_app; [apply quote_ident_frag| |done|done].
  apply is_open_frag, bare_open. by destruct d.
Qed.

Lemma compile_key_cases ctx k :
  (∃ c, path k = [c] ∧ has_column ctx c = true
     ∧ ∃ s, compile_key ctx k = Ok s ∧ frag s [QIdent c])
  ∨ (∃ err, compile_key ctx k = Err err ∧ status err ∈ [400; 501]%Z
     ∧ ∀ c, path k = [c] → has_column ctx c = false).
Proof.
  unfold compile_key. destruct (path k) as [|c [|c2 p]].
  1,3: right; exists Unsupported; split; [done|]; split; [set_solver|done].
  destruct (has_column ctx c) eqn:Hc; cbn [negb].
  - left. exists c. do 2 (split; [done|]). eexists. split; [reflexivity|]. apply compile_key_frag.
  - right. exists Invalid. split; [done|]. split; [set_solver|]. by intros ? [= <-].
Qed.

Lemma frag_join parts names :
  Forall2 (λ s n, frag s [QIdent n]) parts names → frag (join ", " parts) (QIdent <$> names).
Proof.
  induction 1 as [|s n parts names Hs Hl IH]; [apply frag_nil|].
  destruct Hl as [|s2 n2 parts names Hs2 Hl]; [done|].
  rewrite join_cons2. apply (frag_app _ [QIdent n]); [done| |done|done].
  by apply frag_open; [apply bare_open|].
Qed.

Lemma compile_frag spec ctx s :
  compile spec ctx = Ok s →
  ∃ names, frag s (QIdent <$> names) ∧ Forall (λ c, has_column ctx c = true) names.
Proof.
  unfold compile. destruct (decide (spec = [])); [done|]. intros H.
  apply bind_Ok in H as (parts & Hp & [= <-]).
  apply try_map_Ok in Hp.
  assert (∃ names, Forall2 (λ s n, frag s [QIdent n]) parts names
    ∧ Forall (λ c, has_column ctx c = true) names) as (names & Hn & Hc).
  { clear n. induction Hp as [|k s spec parts Hk Hp (names & Hn & Hc)]; [by exists []|].
    destruct (compile_key_cases ctx k) as [(c & _ & Hcol & s' & Hs & Hf)|(err & Hs & _)];
      [|congruence].
    exists (c :: names). rewrite Hs in Hk. injection Hk as ->. by split; constructor. }
  exists names. split; [by apply frag_join|done].
Qed.

(** a parsed [sort] compiles exactly when every key names one column of
    the collection; the text then scans as those columns, in the order of the
    keys and with nothing else quoted, and no parameter. Otherwise it is
    refused as a client error: dotted keys 501, unknown columns 400. *)
Theorem parsed_sort_compiles input spec ctx :
  parse input = Ok spec →
  (∃ names sql, path <$> spec = (λ c, [c]) <$> names
     ∧ Forall (λ c, has_column ctx c = true) names
     ∧ compile spec ctx = Ok sql ∧ lexemes sql = Some (QIdent <$> names))
  ∨ (∃ err, compile spec ctx = Err err ∧ status err ∈ [400; 501]%Z
     ∧ Exists (λ k, ∀ c, path k = [c] → has_column ctx c = false) spec).
Proof.
  intros Hp%parse_valid. unfold valid_spec in Hp. rewrite !andb_true_iff in Hp.
  destruct Hp as [[Hne _] _]. apply negb_true_iff, bool_decide_eq_false in Hne.
  unfold compile. rewrite decide_False by done.
  assert ((∃ names parts, path <$> spec = (λ c, [c]) <$> names
      ∧ Forall (λ c, has_column ctx c = true) names
      ∧ try_map (compile_key ctx) spec = Ok parts ∧ Forall2 (λ s n, frag s [QIdent n]) parts names)
    ∨ (∃ err, try_map (compile_key ctx) spec = Err err ∧ status err ∈ [400; 501]%Z
      ∧ Exists (λ k, ∀ c, path k = [c] → has_column ctx c = false) spec))
    as [(names & parts & H1 & H2 & H3 & H4)|(err & He & Hs & Hx)].
  { clear Hne. induction spec as [|k spec IH]; [left; by exists [], []|].
    cbn [try_map].
    destruct (compile_key_cases ctx k) as [(c & Hk & Hc & s & -> & Hs)|(err & -> & Hs & Hx)].
    2: { right. exists err. split; [done|]. split; [done|]. by left. }
    cbn [mbind result_bind].
    destruct IH as [(names & parts & H1 & H2 & -> & H4)|(err & -> & Hst & Hx)].
    - left. exists (c :: names), (s :: parts). cbn. rewrite Hk, H1. by repeat constructor.
    - right. exists err. split; [done|]. split; [done|]. by right. }
  - left. exists names, (join ", " parts). rewrite H3. do 3 (split; [done|]).
    apply frag_lexemes. by apply frag_join.
  - right. exists err. by rewrite He.
Qed.

(** a specification within the limits is what its text parses to, and
    only such specifications come out of the parser. *)
Theorem sort_roundtrip spec :
  valid_spec spec = true ↔ parse (print_spec spec) = Ok spec.
Proof.
  split; [|apply parse_valid]. unfold valid_spec. rewrite !andb_true_iff. intros [[Hne Hlen] Hv].
  apply negb_true_iff, bool_decide_eq_false in Hne. apply Nat.leb_le in Hlen.
  apply forallb_Forall in Hv. unfold parse, print_spec.
  rewrite split_join.
  - assert (try_map parse_key (print_key <$> spec) = Ok (Some <$> spec)) as ->.
    { apply try_map_Ok. clear Hne Hlen. induction Hv as [|k spec Hk Hv IH]; cbn; constructor; [|done].
      by apply parse_key_print. }
    cbn. assert (omap id (Some <$> spec) = spec) as Ho.
    { clear. induction spec as [|k spec IH]; [done|]. cbn. by f_equal. }
    rewrite Ho, !decide_False by (done || lia). done.
  - by destruct spec.
  - apply Forall_fmap. eapply Forall_impl; [exact Hv|]. intros k [_ Hk]%andb_true_iff. cbn.
    unfold print_key. rewrite str_forall_app.
    rewrite (path_no_comma (path k) ",") by done. by destruct (descending k).
Qed.

Definition sample_spec : SortSpec :=
  [{| path := ["title"]; descending := true |}; {| path := ["author"]; descending := false |}].

Lemma parsed_sort_compiles_witness :
  parse "-title , author" = Ok sample_spec
  ∧ ((∃ names sql, path <$> sample_spec = (λ c, [c]) <$> names
     ∧ Forall (λ c, has_column sample_context c = true) names
     ∧ compile sample_spec sample_context = Ok sql ∧ lexemes sql = Some (QIdent <$> names))
  ∨ (∃ err, compile sample_spec sample_context = Err err ∧ status err ∈ [400; 501]%Z
     ∧ Exists (λ k, ∀ c, path k = [c] → has_column sample_context c = false) sample_spec)).
Proof.
  split; [vm_compute; reflexivity|].
  apply (parsed_sort_compiles "-title , author"). vm_compute. reflexivity.
Defined.
