(* ===== verification/Pagination.v ===== *)
(** Paging, [crates/db/src/query/pagination.rs], and the keyset loop of
    [list_records] in [crates/api/src/records.rs]. *)
From S2P Require Import Prelude CoreError Filter Types Sql Ddl Compile Samples Sort.

Local Set Warnings "-register-all".
Local Open Scope Z_scope.

Definition DEFAULT_PER_PAGE : Z := 30.
Definition MAX_PER_PAGE : Z := 500.
Definition MAX_CURSOR_ID_LEN : nat := 64.

(** * Offset paging *)

(** [struct PageRequest]; [u32] values as [Z]. *)
Record PageRequest := { page : Z; per_page : Z; skip_total : bool }.

(** [PageRequest::new]. *)
Definition page_request_new (page per_page : option Z) (skip_total : bool) : result PageRequest :=
  let page := default 1 page in
  if decide (page = 0) then Err Invalid
  else
    let per_page := default DEFAULT_PER_PAGE per_page in
    if decide (per_page = 0) then Err Invalid
    else if decide (per_page > MAX_PER_PAGE) then Err Invalid
    else Ok {| page := page; per_page := per_page; skip_total := skip_total |}.

(** [PageRequest::limit], [offset] and [total_pages], in [i64]. *)
Definition request_limit (r : PageRequest) : Z := per_page r.
Definition request_offset (r : PageRequest) : Z := (page r - 1) * per_page r.
Definition total_pages (r : PageRequest) (total_items : Z) : Z :=
  Z.quot (total_items + per_page r - 1) (per_page r).

(** * Cursors *)

(** [struct Cursor]; [created_micros] is an [i64]. *)
Record Cursor := { created_micros : Z; cursor_id : string }.

(** [value as i64]. *)
Definition to_i64 (z : Z) : Z := (z + 2 ^ 63) mod 2 ^ 64 - 2 ^ 63.

(** [Cursor::from_time]; a [SystemTime] is its nanoseconds since the epoch. *)
Definition from_time (created : Z) (id : string) : result Cursor :=
  if decide (created < 0) then Err Invalid
  else Ok {| created_micros := to_i64 (created `div` 1000); cursor_id := id |}.

Definition hex_char (d : Z) : ascii :=
  ascii_of_N (Z.to_N (if decide (d < 10) then 48 + d else 87 + d)).

(** [format!("{:x}")] of an [i64]: its two's complement bits. *)
Fixpoint hex_go (fuel : nat) (n : Z) (acc : string) : string :=
  match fuel with
  | O => acc
  | S fuel =>
      let acc := String (hex_char (n mod 16)) acc in
      if decide (n / 16 = 0) then acc else hex_go fuel (n / 16) acc
  end.
Definition to_hex (z : Z) : string := hex_go 16 (z mod 2 ^ 64) "".

(** [Cursor::encode]. *)
Definition encode (c : Cursor) : string := to_hex (created_micros c) +:+ "." +:+ cursor_id c.

(** [char::to_digit(16)]. *)
Definition hex_value (c : ascii) : option Z :=
  let b := Z.of_N (byte_of c) in
  if is_ascii_digit c then Some (b - 48)
  else if in_range 97 102 c then Some (b - 87)
  else if in_range 65 70 c then Some (b - 55)
  else None.

Fixpoint hex_digits (acc : Z) (s : string) : option Z :=
  match s with
  | EmptyString => Some acc
  | String c r => v ← hex_value c; hex_digits (16 * acc + v) r
  end.

(** [i64::from_str_radix(s, 16)]. *)
Definition i64_from_hex (s : string) : option Z :=
  v ← match s with
      | EmptyString | String "+" EmptyString | String "-" EmptyString => None
      | String "+" r => hex_digits 0 r
      | String "-" r => Z.opp <$> hex_digits 0 r
      | _ => hex_digits 0 s
      end;
  if decide (- 2 ^ 63 ≤ v < 2 ^ 63) then Some v else None.

(** [Cursor::decode]. *)
Definition decode (raw : string) : result Cursor :=
  let raw := trim raw in
  if decide (raw = "") then Err Invalid
  else
    '(micros, id) ← ok_or (split_once "." raw) Invalid;
    created_micros ← ok_or (i64_from_hex micros) Invalid;
    if bool_decide (id = "") || bool_decide (MAX_CURSOR_ID_LEN < String.length id)%nat
       || has_control id
    then Err Invalid
    else Ok {| created_micros := created_micros; cursor_id := id |}.

(** [Cursor::predicate]. *)
Definition predicate (c : Cursor) (alias : string) (params : list string) : string * list string :=
  let params := params ++ [dec (created_micros c)] in
  let timestamp_index := dec_nat (length params) in
  let params := params ++ [cursor_id c] in
  let id_index := dec_nat (length params) in
  ("(" +:+ alias +:+ "." +:+ String quote_char ("created" +:+ String quote_char ", ")
     +:+ alias +:+ "." +:+ String quote_char ("id" +:+ String quote_char ") < (to_timestamp($")
     +:+ timestamp_index +:+ "::text::bigint / 1000000.0), $" +:+ id_index +:+ "::text)",
   params).

(** [enum Page]. *)
Inductive Page :=
  | POffset (r : PageRequest)
  | PKeyset (after : option Cursor) (limit : Z).

(** [Page::from_params]. *)
Definition from_params (page per_page : option Z) (skip_total : bool) (after : option string)
    : result Page :=
  match after with
  | Some raw =>
      match page with
      | Some _ => Err Invalid
      | None =>
          request ← page_request_new None per_page skip_total;
          after ← (if decide (trim raw = "") then Ok None else Some <$> decode raw);
          Ok (PKeyset after (request_limit request))
      end
  | None => r ← page_request_new page per_page skip_total; Ok (POffset r)
  end.

(** [Page::limit]. *)
Definition page_limit (p : Page) : Z :=
  match p with POffset r => request_limit r | PKeyset _ limit => limit end.

(** [Page::next_cursor]. *)
Definition next_cursor (p : Page) (last : option (Z * string)) : result (option string) :=
  match p, last with
  | PKeyset _ _, Some (created, id) => c ← from_time created id; Ok (Some (encode c))
  | _, _ => Ok None
  end.

(** * The keyset loop *)

(** What a cursor needs to know of a row; timestamps have the database's
    microsecond precision. *)
Record Row := { row_created : Z; row_id : string }.

Section keyset.
(** The database's order on ids. *)
Context (id_lt : string → string → Prop) `{!RelDecision id_lt}.

(** The meaning of [Cursor::predicate]: a row comparison. *)
Definition row_lt (r : Row) (c : Cursor) : Prop :=
  row_created r < created_micros c ∨ (row_created r = created_micros c ∧ id_lt (row_id r) (cursor_id c)).
#[export] Instance row_lt_dec r c : Decision (row_lt r c).
Proof. unfold row_lt. apply _. Defined.

Definition after_cursor (after : option Cursor) (r : Row) : Prop :=
  match after with Some c => row_lt r c | None => True end.
#[export] Instance after_cursor_dec after r : Decision (after_cursor after r).
Proof. destruct after; cbn; apply _. Defined.

(** One request of [list_records] with [after]: the rows of the collection,
    in the order the statement returns them, cut by the predicate and the
    limit; then the cursor of the last row, when the page is full. *)
Definition keyset_request (listing : list Row) (per_page : option Z) (after : string)
    : result (list Row * option string) :=
  p ← from_params None per_page false (Some after);
  let rows := match p with
    | PKeyset after limit => take (Z.to_nat limit) (filter (after_cursor after) listing)
    | POffset _ => []
    end in
  next ← (if decide (len rows = page_limit p) then
            match list.last rows with
            | Some r => c ← from_time (row_created r * 1000) (row_id r); Ok (Some (encode c))
            | None => Ok None
            end
          else Ok None);
  Ok (rows, next).

(** A client that follows the cursors to the end. *)
Fixpoint follow (fuel : nat) (listing : list Row) (per_page : option Z) (after : string)
    : result (list Row) :=
  match fuel with
  | O => Err Internal
  | S fuel =>
      '(rows, next) ← keyset_request listing per_page after;
      match next with
      | None => Ok rows
      | Some raw => more ← follow fuel listing per_page raw; Ok (rows ++ more)
      end
  end.
End keyset.

(** * Hexadecimal *)

Definition is_hex (c : ascii) : bool := is_ascii_digit c || in_range 97 102 c.

Lemma hex_char_value d :
  0 ≤ d < 16 → is_hex (hex_char d) = true ∧ hex_value (hex_char d) = Some d.
Proof.
  intros H. assert (d = 0 ∨ d = 1 ∨ d = 2 ∨ d = 3 ∨ d = 4 ∨ d = 5 ∨ d = 6 ∨ d = 7 ∨ d = 8
    ∨ d = 9 ∨ d = 10 ∨ d = 11 ∨ d = 12 ∨ d = 13 ∨ d = 14 ∨ d = 15) as Hd by lia.
  repeat (destruct Hd as [->|Hd]; [done|]). by subst.
Qed.

Lemma hex_go_spec fuel n acc :
  0 ≤ n < 16 ^ Z.of_nat fuel → (0 < fuel)%nat →
  ∃ s, hex_go fuel n acc = s +:+ acc ∧ str_forall is_hex s = true ∧ s ≠ ""
    ∧ ∀ t, hex_digits 0 (s +:+ t) = hex_digits n t.
Proof.
  revert n acc. induction fuel as [|fuel IH]; intros n acc Hn Hf; [lia|]. cbn [hex_go].
  destruct (hex_char_value (n mod 16)) as [Hh Hv]; [by apply Z.mod_pos_bound|].
  assert (0 ≤ n / 16) as Hq by (apply Z.div_pos; lia).
  pose proof (Z.div_mod n 16) as Hdm.
  case_decide as Hz.
  - exists (String (hex_char (n mod 16)) ""). split; [done|]. cbn [str_forall]. rewrite Hh.
    do 2 (split; [done|]). intros t. str_simpl. cbn [hex_digits]. rewrite Hv. cbn. f_equal. lia.
  - destruct fuel as [|fuel].
    { change (16 ^ Z.of_nat 1) with 16 in Hn. by rewrite Z.div_small in Hz. }
    destruct (IH (n / 16) (String (hex_char (n mod 16)) acc)) as (s & Hs & Hall & Hne & Hval); [|lia|].
    { split; [done|]. apply Z.div_lt_upper_bound; [lia|].
      assert (16 ^ Z.of_nat (S (S fuel)) = 16 * 16 ^ Z.of_nat (S fuel)) as Hp
        by (rewrite (Nat2Z.inj_succ (S fuel)); apply Z.pow_succ_r; lia).
      rewrite <-Hp. apply Hn. }
    exists (s +:+ String (hex_char (n mod 16)) ""). rewrite Hs. split; [|split; [|split]].
    + by rewrite <-str_app_assoc.
    + rewrite str_forall_app, Hall. cbn. by rewrite Hh.
    + by destruct s.
    + intros t. rewrite <-str_app_assoc. str_simpl. rewrite Hval. cbn [hex_digits].
      rewrite Hv. cbn. f_equal. lia.
Qed.

Lemma hex_digit_chars s t :
  str_forall is_hex s = true → s ≠ "" →
  ∃ c r, s +:+ t = String c r ∧ c ≠ "+"%char ∧ c ≠ "-"%char ∧ is_graphic c = true.
Proof.
  destruct s as [|c s]; [done|]. cbn [str_forall]. intros [Hc _]%andb_true_iff _.
  exists c, (s +:+ t). split; [done|]. split_and!; [intros ->; done..|revert Hc; by_bytes c].
Qed.

Lemma to_hex_spec z :
  0 ≤ z < 2 ^ 63 →
  str_forall is_hex (to_hex z) = true ∧ to_hex z ≠ "" ∧ i64_from_hex (to_hex z) = Some z.
Proof.
  intros Hz. unfold to_hex. rewrite Z.mod_small by lia.
  destruct (hex_go_spec 16 z "") as (s & -> & Hall & Hne & Hval); [cbn; lia|lia|].
  rewrite str_app_nil_r. split; [done|]. split; [done|].
  specialize (Hval ""). rewrite str_app_nil_r in Hval.
  unfold i64_from_hex. destruct (hex_digit_chars s "" Hall Hne) as (c & r & Hs & Hp & Hm & _).
  rewrite str_app_nil_r in Hs. rewrite Hs in *.
  assert (match String c r with
    | EmptyString | String "+" EmptyString | String "-" EmptyString => None
    | String "+" r => hex_digits 0 r
    | String "-" r => Z.opp <$> hex_digits 0 r
    | _ => hex_digits 0 (String c r)
    end = hex_digits 0 (String c r)) as ->.
  { clear -Hp Hm. destruct c as [[] [] [] [] [] [] [] []]; try reflexivity; congruence. }
  rewrite Hval. cbn. by rewrite decide_True by lia.
Qed.

(** A record id that a cursor can carry. *)
Definition cursor_id_ok (id : string) : Prop :=
  id ≠ "" ∧ (String.length id ≤ MAX_CURSOR_ID_LEN)%nat ∧ has_control id = false ∧ trim_end id = id.

Lemma split_once_none s c t :
  str_forall (λ d, bool_decide (d ≠ c)) s = true → split_once c (s +:+ String c t) = Some (s, t).
Proof.
  induction s as [|d s IH]; [intros _; str_simpl; cbn; by rewrite decide_True|].
  cbn [str_forall]. intros [Hd Hs]%andb_true_iff. apply bool_decide_eq_true in Hd.
  rewrite str_app_cons. cbn. rewrite decide_False by done. by rewrite IH.
Qed.

Lemma decode_encode c :
  0 ≤ created_micros c < 2 ^ 63 → cursor_id_ok (cursor_id c) → decode (encode c) = Ok c.
Proof.
  intros Hz (Hne & Hlen & Hctl & Htrim).
  destruct (to_hex_spec _ Hz) as (Hhex & Hnehex & Hval).
  unfold encode, decode.
  assert (str_forall is_graphic (to_hex (created_micros c) +:+ ".") = true) as Hg.
  { rewrite str_forall_app. apply andb_true_iff. split; [|done].
    eapply str_forall_impl; [|exact Hhex]. intros d. by_bytes d. }
  assert (trim (to_hex (created_micros c) +:+ "." +:+ cursor_id c)
    = to_hex (created_micros c) +:+ "." +:+ cursor_id c) as ->.
  { unfold trim.
    destruct (hex_digit_chars _ ("." +:+ cursor_id c) Hhex Hnehex) as (d & r & Hd & _ & _ & Hdg).
    rewrite Hd, trim_start_graphic by done. rewrite <-Hd, str_app_assoc, trim_end_app by done.
    by rewrite Htrim. }
  cbv zeta. rewrite decide_False by (by destruct (to_hex (created_micros c))).
  str_simpl. rewrite split_once_none.
  2: { eapply str_forall_impl; [|exact Hhex]. intros d. by_bytes d. }
  cbn [ok_or mbind result_bind]. rewrite Hval. cbn [ok_or mbind result_bind].
  rewrite bool_decide_false by done. rewrite bool_decide_false by lia. rewrite Hctl. cbn.
  by destruct c.
Qed.

(** * The keyset loop visits every row once *)

Definition row_ok (r : Row) : Prop := 0 ≤ row_created r < 2 ^ 63 ∧ cursor_id_ok (row_id r).

Definition cursor_of (r : Row) : Cursor := {| created_micros := row_created r; cursor_id := row_id r |}.

Lemma from_time_row r :
  row_ok r → from_time (row_created r * 1000) (row_id r) = Ok (cursor_of r).
Proof.
  intros [Hc _]. unfold from_time, to_i64. rewrite decide_False by lia.
  rewrite Z.div_mul by lia. rewrite Z.mod_small by lia. unfold cursor_of. repeat f_equal. lia.
Qed.

Lemma encode_nonblank c : 0 ≤ created_micros c < 2 ^ 63 → trim (encode c) ≠ "".
Proof.
  intros Hz. destruct (to_hex_spec _ Hz) as (Hhex & Hne & _). unfold encode, trim.
  destruct (hex_digit_chars _ ("." +:+ cursor_id c) Hhex Hne) as (d & r & Hd & _ & _ & Hg).
  rewrite Hd, trim_start_graphic, trim_end_graphic by done. done.
Qed.

Lemma request_limit_bounds n st :
  page_request_new None n st = Ok {| page := 1; per_page := default DEFAULT_PER_PAGE n; skip_total := st |}
  ∨ page_request_new None n st = Err Invalid.
Proof. unfold page_request_new. cbn. repeat case_decide; auto. Qed.

Section complete.
Context (id_lt : string → string → Prop) `{!RelDecision id_lt} `{!StrictOrder id_lt}.

(** The order [created desc, id desc]. *)
Definition row_gt (r1 r2 : Row) : Prop := row_lt id_lt r2 (cursor_of r1).

Lemma row_gt_irrefl r : ¬ row_gt r r.
Proof. intros [H|[_ H]]; cbn in *; [lia|by eapply (StrictOrder_Irreflexive (R := id_lt))]. Qed.

Lemma row_gt_asym r1 r2 : row_gt r1 r2 → ¬ row_gt r2 r1.
Proof.
  intros [H1|[H1 H1']] [H2|[H2 H2']]; cbn in *; try lia.
  eapply (StrictOrder_Irreflexive (R := id_lt)). by etrans.
Qed.

Lemma filter_after done_ r rest :
  StronglySorted row_gt (done_ ++ r :: rest) →
  filter (after_cursor id_lt (Some (cursor_of r))) (done_ ++ r :: rest) = rest.
Proof.
  induction done_ as [|d done_ IH]; cbn [app].
  - intros [_ Hr]%StronglySorted_inv. rewrite filter_cons_False by apply row_gt_irrefl.
    by apply filter_all.
  - intros [Hs Hd]%StronglySorted_inv. rewrite filter_cons_False; [by apply IH|].
    rewrite Forall_app, Forall_cons in Hd.
    change (¬ row_gt r d). by apply row_gt_asym, Hd.
Qed.

(** A request that decodes to the cursor [a], [rest] being what it leaves. *)
Lemma keyset_request_spec listing n after a rest limit :
  from_params None n false (Some after) = Ok (PKeyset a limit) →
  filter (after_cursor id_lt a) listing = rest → Forall row_ok rest → 0 < limit →
  keyset_request id_lt listing n after
  = Ok (take (Z.to_nat limit) rest,
        if decide (limit ≤ len rest)
        then encode <$> (cursor_of <$> list.last (take (Z.to_nat limit) rest)) else None).
Proof.
  intros Hp Hf Hok Hl. unfold keyset_request. rewrite Hp. cbn [mbind result_bind page_limit].
  rewrite Hf. cbv zeta.
  assert (len (take (Z.to_nat limit) rest) = limit ↔ limit ≤ len rest) as Hlen
    by (unfold len; rewrite length_take; lia).
  rewrite (decide_ext _ _ _ _ Hlen). case_decide; [|done].
  destruct (list.last (take (Z.to_nat limit) rest)) as [r|] eqn:Hr; cbn; [|done].
  rewrite from_time_row; [done|].
  rewrite Forall_forall in Hok. apply Hok.
  apply last_Some_elem_of in Hr. apply elem_of_take in Hr as (i & Hi & _).
  by eapply list_elem_of_lookup_2.
Qed.

(** The cursor of the last row of what was read so far. *)
Definition resume (seen : list Row) : string :=
  match list.last seen with Some r => encode (cursor_of r) | None => "" end.

Lemma from_params_resume n limit seen :
  Forall row_ok seen →
  page_request_new None n false = Ok {| page := 1; per_page := limit; skip_total := false |} →
  from_params None n false (Some (resume seen)) = Ok (PKeyset (cursor_of <$> list.last seen) limit).
Proof.
  intros Hok Hn. unfold from_params, resume. rewrite Hn. cbn [mbind result_bind].
  destruct (list.last seen) as [r|] eqn:Hr; [|done].
  assert (row_ok r) as [Hc Hid].
  { rewrite Forall_forall in Hok. by apply Hok, last_Some_elem_of. }
  rewrite decide_False by by apply encode_nonblank.
  by rewrite decode_encode.
Qed.

Lemma follow_spec n limit fuel seen rest :
  page_request_new None n false = Ok {| page := 1; per_page := limit; skip_total := false |} →
  0 < limit → StronglySorted row_gt (seen ++ rest) → Forall row_ok (seen ++ rest) →
  (length rest < fuel)%nat →
  follow id_lt fuel (seen ++ rest) n (resume seen) = Ok rest.
Proof.
  intros Hn Hl. revert seen rest.
  induction fuel as [|fuel IH]; intros seen rest Hs Hok Hfuel; [lia|]. cbn [follow].
  pose proof Hok as [Hseen Hrest]%Forall_app.
  rewrite (keyset_request_spec _ _ _ _ rest _ (from_params_resume _ _ _ Hseen Hn)); [|..|done|done].
  2: { destruct (list.last seen) as [r|] eqn:Hr; cbn [fmap option_fmap option_map].
       - apply last_Some in Hr as (l & ->). rewrite <-app_assoc in *. by apply filter_after.
       - apply last_None in Hr as ->. apply filter_all. by apply Forall_true. }
  cbn [mbind result_bind]. case_decide as Hfull.
  2: { rewrite take_ge by (unfold len in Hfull; lia). done. }
  unfold len in Hfull. remember (take (Z.to_nat limit) rest) as rows eqn:Hrows.
  assert (seen ++ rest = (seen ++ rows) ++ drop (Z.to_nat limit) rest) as Heq
    by by rewrite <-app_assoc, Hrows, take_drop.
  destruct (list.last rows) as [r|] eqn:Hr; cbn [fmap option_fmap option_map].
  - specialize (IH (seen ++ rows) (drop (Z.to_nat limit) rest)).
    unfold resume in IH. rewrite last_app, Hr, <-Heq in IH. rewrite IH; [|done|done|].
    + cbn. by rewrite Hrows, take_drop.
    + rewrite length_drop. lia.
  - apply last_None in Hr. apply (f_equal length) in Hrows.
    rewrite Hr, length_take in Hrows. cbn in Hrows. lia.
Qed.
End complete.

(** * The properties *)

(** C5. a client that starts with a blank cursor and follows [nextCursor]
    receives every row of the listing exactly once and in order, in at most
    one request more than there are rows, whatever the page size, provided
    the listing is in the order the cursor stands for: [created desc, id
    desc]. The tokens go through [encode] and [decode] on the way. *)
Theorem keyset_paging_complete (id_lt : string → string → Prop)
    `{!RelDecision id_lt, !StrictOrder id_lt} listing per_page limit :
  page_request_new None per_page false = Ok {| page := 1; per_page := limit; skip_total := false |} →
  0 < limit →
  StronglySorted (row_gt id_lt) listing → Forall row_ok listing →
  follow id_lt (S (length listing)) listing per_page "" = Ok listing.
Proof.
  intros Hn Hl Hs Hok. apply (follow_spec id_lt per_page limit _ [] listing Hn Hl Hs Hok). lia.
Qed.

(** what the listing statement guarantees is weaker. Its default
    [order by] is [created desc] alone, and rows written at the same instant
    may come in any order: two such rows, the smaller id first, satisfy that
    order, and a client that pages one row at a time never sees the second. *)
Theorem keyset_ties_skip (id_lt : string → string → Prop)
    `{!RelDecision id_lt, !StrictOrder id_lt} created a b ctx :
  has_column ctx "created" = true →
  0 ≤ created < 2 ^ 63 → cursor_id_ok a → cursor_id_ok b → id_lt a b →
  let listing := [{| row_created := created; row_id := a |}; {| row_created := created; row_id := b |}] in
  (spec ← default_spec; Sort.compile spec ctx)
    = Ok (quote_ident "created" +:+ " desc")
  ∧ StronglySorted (λ r1 r2, row_created r2 ≤ row_created r1) listing
  ∧ follow id_lt 3 listing (Some 1) "" = Ok [{| row_created := created; row_id := a |}].
Proof.
  intros Hctx Hc Ha Hb Hab listing. split; [|split].
  - assert (default_spec = Ok [{| path := ["created"]; descending := true |}]) as -> by done.
    cbn [mbind result_bind]. unfold Sort.compile. rewrite decide_False by done.
    cbn [try_map]. unfold compile_key. cbn [path descending]. by rewrite Hctx.
  - repeat constructor; cbn; lia.
  - assert (Forall row_ok listing) as Hok by (repeat apply Forall_cons_2; done || apply Forall_nil_2).
    assert (page_request_new None (Some 1) false
      = Ok {| page := 1; per_page := 1; skip_total := false |}) as Hn by done.
    assert (Forall row_ok []) as Hnil by by apply Forall_nil.
    assert (Forall row_ok [{| row_created := created; row_id := a |}]) as Hone
      by by apply Forall_singleton.
    change "" with (resume []). cbn [follow].
    rewrite (keyset_request_spec _ _ _ _ _ listing _ (from_params_resume _ _ [] Hnil Hn));
      [|done|done|lia].
    cbn [mbind result_bind]. change (Z.to_nat 1) with 1%nat. rewrite decide_True by (unfold listing, len; cbn; lia).
    cbn [take list.last listing fmap option_fmap option_map].
    change (encode (cursor_of {| row_created := created; row_id := a |}))
      with (resume [{| row_created := created; row_id := a |}]).
    rewrite (keyset_request_spec _ _ _ _ _ [] _
      (from_params_resume _ _ _ Hone Hn));
      [|cbn [list.last fmap option_fmap option_map]|exact Hnil|lia].
    { by rewrite decide_False by (unfold len; cbn; lia). }
    unfold listing. rewrite !filter_cons_False; [done|..]; intros [H|[_ H]]; cbn in H; try lia.
    + apply (StrictOrder_Irreflexive (R := id_lt) a). by etrans.
    + by apply (StrictOrder_Irreflexive (R := id_lt) a).
Qed.

(** a page request is accepted exactly for [page >= 1] and [1 <= perPage
    <= 500]; its [limit] and [offset] then fit an [i64], the rows it selects
    are those whose page number is [page], and [total_pages] is the number of
    pages the rows fill. *)
Theorem page_request_spec p n st :
  (∀ v, p = Some v → 0 ≤ v < 2 ^ 32) → (∀ v, n = Some v → 0 ≤ v < 2 ^ 32) →
  match page_request_new p n st with
  | Err e => e = Invalid ∧ (p = Some 0 ∨ n = Some 0 ∨ ∃ v, n = Some v ∧ MAX_PER_PAGE < v)
  | Ok r => page r = default 1 p ∧ per_page r = default DEFAULT_PER_PAGE n ∧ skip_total r = st
      ∧ 1 ≤ page r ∧ 1 ≤ request_limit r ≤ MAX_PER_PAGE ∧ 0 ≤ request_offset r < 2 ^ 63
      ∧ (∀ i, 0 ≤ i →
           request_offset r ≤ i < request_offset r + request_limit r ↔ page r = i / per_page r + 1)
      ∧ (∀ total, 0 ≤ total < 2 ^ 62 →
           ∀ q, 1 ≤ q → q ≤ total_pages r total ↔ ∃ i, 0 ≤ i < total ∧ q = i / per_page r + 1)
  end.
Proof.
  intros Hp Hn. unfold page_request_new, MAX_PER_PAGE, DEFAULT_PER_PAGE. cbv zeta.
  assert (0 ≤ default 1 p < 2 ^ 32) as Hp' by (destruct p; cbn; [by apply Hp|lia]).
  assert (0 ≤ default 30 n < 2 ^ 32) as Hn' by (destruct n; cbn; [by apply Hn|lia]).
  case_decide as H1; [split; [done|]; left; destruct p; cbn in H1; [by subst|lia]|].
  case_decide as H2; [split; [done|]; right; left; destruct n; cbn in H2; [by subst|lia]|].
  case_decide as H3; [split; [done|]; right; right; destruct n as [v|]; cbn in H3; [by exists v; split; [|lia]|lia]|].
  unfold request_limit, request_offset, total_pages. cbn.
  set (pg := default 1 p) in *. set (pp := default 30 n) in *. clearbody pg pp.
  do 3 (split; [done|]). split; [lia|]. split; [lia|]. split; [nia|]. split.
  - intros i Hi. pose proof (Z.div_mod i pp). pose proof (Z.mod_pos_bound i pp). split.
    + intros. assert (i / pp = pg - 1); [|lia]. symmetry. apply (Z.div_unique_pos _ _ _ (i - (pg - 1) * pp)); lia.
    + intros ->. lia.
  - intros total Ht q Hq. rewrite Z.quot_div_nonneg by lia. split.
    + intros H. exists ((q - 1) * pp). rewrite Z.div_mul by lia. split; [|lia]. split; [nia|].
      assert (q * pp ≤ total + pp - 1); [|lia].
      etrans; [apply Z.mul_le_mono_nonneg_r; [lia|exact H]|]. rewrite Z.mul_comm. apply Z.mul_div_le. lia.
    + intros (i & Hi & ->). apply Z.div_le_lower_bound; [lia|].
      pose proof (Z.mul_div_le i pp). lia.
Qed.

(** [decode] gives back every cursor [encode] renders. *)
Theorem cursor_roundtrip created id :
  0 ≤ created < 2 ^ 63 * 1000 → cursor_id_ok id →
  ∃ c, from_time created id = Ok c ∧ created_micros c = created / 1000 ∧ cursor_id c = id
    ∧ decode (encode c) = Ok c.
Proof.
  intros Hc Hid. assert (0 ≤ created / 1000 < 2 ^ 63) as Hd
    by (split; [apply Z.div_pos; lia|apply Z.div_lt_upper_bound; lia]).
  unfold from_time. rewrite decide_False by lia. eexists. split; [reflexivity|].
  assert (to_i64 (created / 1000) = created / 1000) as Hi
    by (unfold to_i64; rewrite Z.mod_small; lia).
  cbn. rewrite Hi. do 2 (split; [done|]). by apply decode_encode.
Qed.

(** * Concrete inputs *)

Definition sample_listing : list Row :=
  [{| row_created := 9; row_id := "a" |}; {| row_created := 7; row_id := "c" |};
   {| row_created := 7; row_id := "b" |}].

Lemma keyset_paging_complete_witness :
  follow sample_id_lt (S (length sample_listing)) sample_listing (Some 2) "" = Ok sample_listing.
Proof.
  apply (keyset_paging_complete sample_id_lt sample_listing (Some 2) 2); [reflexivity|lia|..].
  - repeat first [apply SSorted_nil | apply SSorted_cons | apply Forall_cons_2 | apply Forall_nil_2];
      first [by left | by right].
  - repeat constructor; vm_compute; congruence || lia.
Defined.

Lemma keyset_ties_skip_witness :
  let listing := [{| row_created := 7; row_id := "a" |}; {| row_created := 7; row_id := "b" |}] in
  (spec ← default_spec; Sort.compile spec sample_context)
    = Ok (quote_ident "created" +:+ " desc")
  ∧ StronglySorted (λ r1 r2, row_created r2 ≤ row_created r1) listing
  ∧ follow sample_id_lt 3 listing (Some 1) "" = Ok [{| row_created := 7; row_id := "a" |}].
Proof.
  apply (keyset_ties_skip sample_id_lt 7 "a" "b" sample_context); [reflexivity|lia|..].
  1,2: repeat constructor; vm_compute; congruence || lia.
  reflexivity.
Defined.

Lemma page_request_spec_witness :
  match page_request_new (Some 3) (Some 10) false with
  | Err e => e = Invalid ∧ (Some 3 = Some 0 ∨ Some 10 = Some 0 ∨ ∃ v, Some 10 = Some v ∧ MAX_PER_PAGE < v)
  | Ok r => page r = default 1 (Some 3) ∧ per_page r = default DEFAULT_PER_PAGE (Some 10) ∧ skip_total r = false
      ∧ 1 ≤ page r ∧ 1 ≤ request_limit r ≤ MAX_PER_PAGE ∧ 0 ≤ request_offset r < 2 ^ 63
      ∧ (∀ i, 0 ≤ i →
           request_offset r ≤ i < request_offset r + request_limit r ↔ page r = i / per_page r + 1)
      ∧ (∀ total, 0 ≤ total < 2 ^ 62 →
           ∀ q, 1 ≤ q → q ≤ total_pages r total ↔ ∃ i, 0 ≤ i < total ∧ q = i / per_page r + 1)
  end.
Proof. apply (page_request_spec (Some 3) (Some 10) false); intros v [= <-]; lia. Defined.

Lemma cursor_roundtrip_witness :
  ∃ c, from_time 1700000000123456000 "abcDEF123456789" = Ok c
    ∧ created_micros c = 1700000000123456000 / 1000 ∧ cursor_id c = "abcDEF123456789"
    ∧ decode (encode c) = Ok c.
Proof.
  apply (cursor_roundtrip 1700000000123456000 "abcDEF123456789"); [lia|].
  repeat split; vm_compute; congruence || lia.
Defined.
