(* ===== verification/Projection.v ===== *)
(** The [fields] and [expand] parameters, [crates/db/src/query/projection.rs]. *)
From S2P Require Import Prelude CoreError Json Types Compile CompileSpec Samples Filter Sort.

Local Set Warnings "-register-all".

Definition MAX_EXPAND_DEPTH : nat := 6.
Definition MAX_EXPAND_ENTRIES : nat := 16.
Definition MAX_FIELD_ENTRIES : nat := 128.

(** * Ordered maps *)

(** A [BTreeMap] is an association list in the order of its keys. *)
Fixpoint btree_insert {A} (key : string) (v : A) (l : list (string * A)) : list (string * A) :=
  match l with
  | [] => [(key, v)]
  | (k, w) :: l' =>
      if decide (k = key) then (key, v) :: l'
      else if String.ltb key k then (key, v) :: l
      else (k, w) :: btree_insert key v l'
  end.

(** * Data *)

(** [struct FieldSelection]. *)
Local Set Warnings "-non-recursive".
Inductive FieldSelection := MkSelection {
  sel_columns : list string;
  all_columns : bool;
  sel_collection_id : bool;
  sel_collection_name : bool;
  sel_nested : list (string * FieldSelection);
}.

(** [struct ExpandSpec]. *)
Inductive ExpandSpec := MkExpand {
  exp_nested : list (string * ExpandSpec);
  exp_all : bool;
}.

Definition selection_default : FieldSelection := MkSelection [] false false false [].
(** [FieldSelection::all]. *)
Definition selection_all : FieldSelection := MkSelection [] true false false [].
(** [ExpandSpec::none]. *)
Definition expand_none : ExpandSpec := MkExpand [] false.

(** * Parsing *)

(** [split_path]. *)
Definition validate_path_segment (segment : string) : result unit :=
  if decide (segment = "") then Err Invalid
  else if decide (segment = "*") then Ok ()
  else validate_segment segment.

Definition split_path (raw : string) : result (list string) :=
  let segments := split_on "." raw in
  _ ← try_map validate_path_segment segments; Ok segments.

(** [FieldSelection::insert_path]. *)
Fixpoint selection_insert (sel : FieldSelection) (path : list string) (ctx : FilterContext)
    : result FieldSelection :=
  let 'MkSelection cols all cid cname nested := sel in
  match path with
  | [] => Err Invalid
  | segment :: rest =>
      if decide (segment = "*") then
        if decide (rest = []) then Ok (MkSelection cols true cid cname nested) else Err Invalid
      else match rest with
      | [] =>
          if negb (has_column ctx segment) && negb (bool_decide (ctx_collection_id ctx = ""))
             && bool_decide (segment = "collectionId")
          then Ok (MkSelection cols all true cname nested)
          else if negb (has_column ctx segment) && negb (bool_decide (ctx_collection_id ctx = ""))
             && bool_decide (segment = "collectionName")
          then Ok (MkSelection cols all cid true nested)
          else if negb (has_column ctx segment) then Err Invalid
          else if decide (segment ∈ cols) then Ok sel
          else Ok (MkSelection (cols ++ [segment]) all cid cname nested)
      | _ =>
          relation ← ok_or (assoc segment (relations ctx)) Invalid;
          if decide (MAX_EXPAND_DEPTH < length rest) then Err Invalid
          else
            child ← selection_insert (default selection_default (assoc segment nested)) rest
                      (rel_context relation);
            Ok (MkSelection cols all cid cname (btree_insert segment child nested))
      end
  end.

(** The [expand.] namespace of PocketBase. *)
Definition strip_expand (path : list string) (ctx : FilterContext) : list string :=
  match path with
  | first :: second :: rest =>
      if decide (first = "expand" ∧ is_Some (assoc second (relations ctx)))
      then second :: rest else path
  | _ => path
  end.

(** One iteration of [FieldSelection::parse]'s loop, over the entries so far. *)
Definition selection_entry (ctx : FilterContext) (st : FieldSelection * nat) (raw : string)
    : result (FieldSelection * nat) :=
  let '(selection, entries) := st in
  let raw := trim raw in
  if decide (raw = "") then Ok st
  else
    let entries := S entries in
    if decide (MAX_FIELD_ENTRIES < entries) then Err Invalid
    else
      path ← split_path raw;
      selection ← selection_insert selection (strip_expand path ctx) ctx;
      Ok (selection, entries).

(** [input.map(str::trim).filter(|raw| !raw.is_empty())]. *)
Definition trimmed (input : option string) : option string :=
  raw ← trim <$> input; if decide (raw = "") then None else Some raw.

Definition selection_is_empty (s : FieldSelection) : bool :=
  negb (all_columns s) && negb (sel_collection_id s) && negb (sel_collection_name s)
  && bool_decide (sel_columns s = []) && match sel_nested s with [] => true | _ => false end.

(** [FieldSelection::parse]. *)
Definition selection_parse (input : option string) (ctx : FilterContext) : result FieldSelection :=
  match trimmed input with
  | None => Ok selection_all
  | Some input =>
      '(selection, _) ← try_fold (selection_entry ctx) (selection_default, 0) (split_on "," input);
      if selection_is_empty selection then Err Invalid else Ok selection
  end.

(** [ExpandSpec::insert_path]. *)
Fixpoint expand_insert (spec : ExpandSpec) (path : list string) (ctx : FilterContext)
    : result ExpandSpec :=
  let 'MkExpand nested all := spec in
  match path with
  | [] => Err Invalid
  | segment :: rest =>
      relation ← ok_or (assoc segment (relations ctx)) Invalid;
      let entry := default expand_none (assoc segment nested) in
      match rest with
      | [] => Ok (MkExpand (btree_insert segment entry nested) all)
      | _ =>
          if decide (MAX_EXPAND_DEPTH ≤ length rest) then Err Invalid
          else
            child ← expand_insert entry rest (rel_context relation);
            Ok (MkExpand (btree_insert segment child nested) all)
      end
  end.

Definition expand_entry (ctx : FilterContext) (st : ExpandSpec * nat) (raw : string)
    : result (ExpandSpec * nat) :=
  let '(spec, entries) := st in
  let raw := trim raw in
  if decide (raw = "") then Ok st
  else
    let entries := S entries in
    if decide (MAX_EXPAND_ENTRIES < entries) then Err Invalid
    else if decide (raw = "*") then Ok (MkExpand (exp_nested spec) true, entries)
    else
      path ← split_path raw;
      spec ← expand_insert spec path ctx;
      Ok (spec, entries).

(** [ExpandSpec::parse]. *)
Definition expand_parse (input : option string) (ctx : FilterContext) : result ExpandSpec :=
  match trimmed input with
  | None => Ok expand_none
  | Some input =>
      '(spec, _) ← try_fold (expand_entry ctx) (expand_none, 0) (split_on "," input); Ok spec
  end.

(** * Reading a selection *)

(** Names in [String]'s order. *)
Definition sort_names : list string → list string := merge_sort String.le.

(** [FieldSelection::effective_columns]. *)
Definition effective_columns (s : FieldSelection) (ctx : FilterContext) : list string :=
  if all_columns s then sort_names (map_to_list (columns ctx)).*1 else sel_columns s.

(** [ExpandSpec::relations_to_expand]. *)
Definition relations_to_expand (e : ExpandSpec) (ctx : FilterContext) : list string :=
  if exp_all e then sort_names (relations ctx).*1 else (exp_nested e).*1.

(** * What parsing accepts *)

(** A selection whose columns and relations are those of the context. *)
Inductive sel_ok : FilterContext → FieldSelection → Prop :=
  | sel_ok_intro ctx cols all cid cname nested :
      Forall (λ c, has_column ctx c = true) cols →
      (∀ k child, (k, child) ∈ nested →
         ∃ r, assoc k (relations ctx) = Some r ∧ sel_ok (rel_context r) child) →
      sel_ok ctx (MkSelection cols all cid cname nested).

(** An expansion of at most [n] levels, along relations of the context. *)
Inductive exp_ok : nat → FilterContext → ExpandSpec → Prop :=
  | exp_ok_intro n ctx nested all :
      (all = true → 0 < n) →
      (∀ k child, (k, child) ∈ nested →
         ∃ r m, n = S m ∧ assoc k (relations ctx) = Some r ∧ exp_ok m (rel_context r) child) →
      exp_ok n ctx (MkExpand nested all).

Lemma btree_insert_elem {A} key (w : A) l k v :
  (k, v) ∈ btree_insert key w l → (k = key ∧ v = w) ∨ (k, v) ∈ l.
Proof.
  induction l as [|[k' w'] l IH]; cbn; [set_solver|].
  repeat case_match; rewrite !elem_of_cons; naive_solver.
Qed.

Lemma sel_ok_default ctx : sel_ok ctx selection_default.
Proof. constructor; [constructor|]. intros k child H. by apply elem_of_nil in H. Qed.
Lemma sel_ok_all ctx : sel_ok ctx selection_all.
Proof. constructor; [constructor|]. intros k child H. by apply elem_of_nil in H. Qed.
Lemma exp_ok_none n ctx : exp_ok n ctx expand_none.
Proof. constructor; [done|]. intros k child H. by apply elem_of_nil in H. Qed.

Lemma assoc_elem {A} k (l : list (string * A)) v : assoc k l = Some v → (k, v) ∈ l.
Proof. intros H%assoc_In. by apply list_elem_of_In. Qed.

Lemma selection_insert_ok path : ∀ sel ctx sel',
  sel_ok ctx sel → selection_insert sel path ctx = Ok sel' → sel_ok ctx sel'.
Proof.
  induction path as [|segment rest IH]; intros [cols all cid cname nested] ctx sel' Hok H; [done|].
  inversion Hok as [? ? ? ? ? ? Hcols Hnested]; subst. cbn [selection_insert] in H.
  case_decide; [case_decide; [|done]; injection H as <-; by constructor|].
  destruct rest as [|second rest].
  - destruct (has_column ctx segment) eqn:Hc; cbn [negb andb] in H.
    + case_decide; injection H as <-; [by constructor|]. constructor; [|done].
      apply Forall_app. by repeat constructor.
    + repeat case_match; simplify_eq; by constructor.
  - destruct (assoc segment (relations ctx)) as [r|] eqn:Hr; cbn [ok_or mbind result_bind] in H; [|done].
    case_decide; [done|]. apply bind_Ok in H as (child & Hchild & H). injection H as <-.
    constructor; [done|]. intros k c [[-> ->]|Hk]%btree_insert_elem; [|by apply Hnested].
    exists r. split; [done|]. eapply IH; [|exact Hchild].
    destruct (assoc segment nested) as [old|] eqn:Ho; cbn; [|apply sel_ok_default].
    apply assoc_elem in Ho. destruct (Hnested _ _ Ho) as (r' & Hr' & Hok'). congruence.
Qed.

Lemma expand_insert_ok path : ∀ n spec ctx spec',
  length path ≤ n → exp_ok n ctx spec → expand_insert spec path ctx = Ok spec' → exp_ok n ctx spec'.
Proof.
  induction path as [|segment rest IH]; intros n [nested all] ctx spec' Hn Hok H; [done|].
  cbn [length] in Hn. destruct n as [|n]; [lia|].
  inversion Hok as [? ? ? ? Hall Hnested]; subst. cbn [expand_insert] in H.
  destruct (assoc segment (relations ctx)) as [r|] eqn:Hr; cbn [ok_or mbind result_bind] in H; [|done].
  assert (exp_ok n (rel_context r) (default expand_none (assoc segment nested))) as Hentry.
  { destruct (assoc segment nested) as [old|] eqn:Ho; cbn; [|apply exp_ok_none].
    apply assoc_elem in Ho. destruct (Hnested _ _ Ho) as (r' & m & Hm & Hr' & Hok'). by simplify_eq. }
  assert (∀ child, exp_ok n (rel_context r) child →
    exp_ok (S n) ctx (MkExpand (btree_insert segment child nested) all)) as Hins.
  { intros child Hc. constructor; [done|].
    intros k c [[-> ->]|Hk]%btree_insert_elem; [by exists r, n|by apply Hnested]. }
  destruct rest as [|second rest]; [injection H as <-; by apply Hins|].
  case_decide; [done|]. apply bind_Ok in H as (child & Hchild & H). injection H as <-.
  apply Hins. eapply IH; [|exact Hentry|exact Hchild]. lia.
Qed.

Lemma expand_insert_length spec path ctx spec' :
  expand_insert spec path ctx = Ok spec' → length path ≤ MAX_EXPAND_DEPTH.
Proof.
  destruct spec as [nested all], path as [|segment [|second rest]]; cbn -[MAX_EXPAND_DEPTH]; [done| |].
  - intros _. unfold MAX_EXPAND_DEPTH. lia.
  - intros H. apply bind_Ok in H as (r & _ & H). case_decide; [done|]. cbn in *. lia.
Qed.

Lemma selection_parse_ok input ctx sel : selection_parse input ctx = Ok sel → sel_ok ctx sel.
Proof.
  unfold selection_parse. destruct (trimmed input) as [s|]; [|intros [= <-]; apply sel_ok_all].
  intros H. apply bind_Ok in H as ([sel' n] & Hf & H). case_match; [done|]. injection H as <-.
  apply (try_fold_inv (λ st, sel_ok ctx st.1)) in Hf; [done| |apply sel_ok_default].
  clear. intros [sel n] raw [sel' n'] Hok _ H. cbn in *. unfold selection_entry in H. cbv zeta in H.
  case_decide; [by simplify_eq|]. case_decide; [done|].
  apply bind_Ok in H as (path & _ & H). apply bind_Ok in H as (sel2 & Hs & H). simplify_eq.
  by eapply selection_insert_ok.
Qed.

Lemma expand_parse_ok input ctx ex :
  expand_parse input ctx = Ok ex → exp_ok MAX_EXPAND_DEPTH ctx ex.
Proof.
  unfold expand_parse. destruct (trimmed input) as [s|]; [|intros [= <-]; apply exp_ok_none].
  intros H. apply bind_Ok in H as ([ex' n] & Hf & H). injection H as <-.
  apply (try_fold_inv (λ st, exp_ok MAX_EXPAND_DEPTH ctx st.1)) in Hf; [done| |apply exp_ok_none].
  clear. intros [ex n] raw [ex' n'] Hok _ H. cbn in *. unfold expand_entry in H. cbv zeta in H.
  case_decide; [by simplify_eq|]. case_decide; [done|].
  case_decide.
  - simplify_eq. inversion Hok; subst. constructor; [unfold MAX_EXPAND_DEPTH; lia|done].
  - apply bind_Ok in H as (path & _ & H). apply bind_Ok in H as (ex2 & Hs & H). simplify_eq.
    eapply expand_insert_ok; [by eapply expand_insert_length|done|done].
Qed.
