(* ===== verification/Read.v ===== *)
(** Complete record statements, [crates/db/src/query/read.rs]. *)
From S2P Require Import Prelude CoreError Json Filter Types Sql Ddl Compile CompileSpec Samples Sort Pagination Projection.

Local Set Warnings "-register-all".

Definition MAX_EXPAND_ROWS : nat := 200.
Definition ROOT_ALIAS : string := "p".

(** [struct ReadQuery]. *)
Record ReadQuery := {
  selection : FieldSelection;
  expand : ExpandSpec;
  rq_filter : option Expr;
  sort : SortSpec;
  rq_page : Page;
}.

(** [struct BuiltQuery]. *)
Record BuiltQuery := { sql : string; params : list string }.

(** [sql_string_literal]. *)
Definition sql_string_literal (value : string) : string := sql_literal value.

(** The column pairs of a document. *)
Definition column_pair (ctx : FilterContext) (alias column : string) : result string :=
  if negb (has_column ctx column) then Err Invalid
  else Ok (sql_string_literal column +:+ ", " +:+ alias +:+ "." +:+ quote_ident column).

(** [collectionId] and [collectionName]: constants of the collection. *)
Definition constant_pairs (ctx : FilterContext) (sel : FieldSelection) : list string :=
  if decide (ctx_collection_id ctx = "") then []
  else
    (if (all_columns sel || sel_collection_id sel) && negb (has_column ctx "collectionId")
     then ["'collectionId', " +:+ sql_string_literal (ctx_collection_id ctx)] else [])
    ++ (if (all_columns sel || sel_collection_name sel) && negb (has_column ctx "collectionName")
        then ["'collectionName', " +:+ sql_string_literal (table ctx)] else []).

(** The subquery of one expanded relation. *)
Definition expand_expression (relation : RelationTarget FilterContext)
    (alias child_alias child_document : string) : string :=
  let table := quote_ident (rel_table relation) in
  let column := quote_ident (rel_column relation) in
  if multiple relation then
    "(select coalesce(jsonb_agg(x.item order by x.created desc), '[]'::jsonb) from (select "
      +:+ child_document +:+ " as item, " +:+ child_alias
      +:+ String "." (String quote_char ("created" +:+ String quote_char " as created from "))
      +:+ table +:+ " " +:+ child_alias +:+ " where " +:+ child_alias
      +:+ String "." (String quote_char ("id" +:+ String quote_char " = any("))
      +:+ alias +:+ "." +:+ column +:+ ") order by " +:+ child_alias
      +:+ String "." (String quote_char ("created" +:+ String quote_char " desc limit 200) x)"))
  else
    "(select " +:+ child_document +:+ " from " +:+ table +:+ " " +:+ child_alias
      +:+ " where " +:+ child_alias
      +:+ String "." (String quote_char ("id" +:+ String quote_char " = "))
      +:+ alias +:+ "." +:+ column +:+ " limit 1)".

(** The nested selection and expansion of a relation. *)
Definition child_selection (sel : FieldSelection) (name : string) : FieldSelection :=
  default selection_all (assoc name (sel_nested sel)).
Definition child_expand (ex : ExpandSpec) (name : string) : ExpandSpec :=
  if exp_all ex then expand_none else default expand_none (assoc name (exp_nested ex)).

(** The document from its pairs and its expansions. *)
Definition document (pairs expand_pairs : list string) : string :=
  let pairs := match expand_pairs with
    | [] => pairs
    | _ => pairs ++ ["'expand', jsonb_build_object(" +:+ join ", " expand_pairs +:+ ")"]
    end in
  match pairs with
  | [] => "'{}'::jsonb"
  | _ => "jsonb_build_object(" +:+ join ", " pairs +:+ ")"
  end.

(** [object_expression]; [levels] is [MAX_EXPAND_DEPTH + 1 - depth], and the
    alias counter is threaded through. *)
Fixpoint object_expression (levels : nat) (ctx : FilterContext) (alias : string)
    (sel : FieldSelection) (ex : ExpandSpec) (alias_counter : nat) : result (string * nat) :=
  match levels with
  | O => Err Invalid
  | S levels =>
      columns ← try_map (column_pair ctx alias) (effective_columns sel ctx);
      '(expand_pairs, alias_counter) ← try_fold (λ '(pairs, alias_counter) relation_name,
        relation ← ok_or (assoc relation_name (relations ctx)) Invalid;
        let alias_counter := S alias_counter in
        let child_alias := "r" +:+ dec_nat alias_counter in
        '(child_document, alias_counter) ←
          object_expression levels (rel_context relation) child_alias
            (child_selection sel relation_name) (child_expand ex relation_name) alias_counter;
        Ok (pairs ++ [sql_string_literal relation_name +:+ ", "
                        +:+ expand_expression relation alias child_alias child_document],
            alias_counter)) ([], alias_counter) (relations_to_expand ex ctx);
      Ok (document (columns ++ constant_pairs ctx sel) expand_pairs, alias_counter)
  end.

(** [record_document]. *)
Definition record_document (ctx : FilterContext) (root : string) (sel : FieldSelection)
    (ex : ExpandSpec) : result string :=
  fst <$> object_expression (S MAX_EXPAND_DEPTH) ctx root sel ex 0.

(** The [where] clause and its parameters: the filter first, then the keyset
    predicate. *)
Definition list_conditions (query : ReadQuery) (ctx : FilterContext) (auth : AuthContext)
    : result (list string * list string) :=
  '(conditions, params) ← match rq_filter query with
    | Some filter =>
        compiled ← compile_with_root filter ctx auth ROOT_ALIAS;
        Ok ([cf_sql compiled], cf_params compiled)
    | None => Ok ([], [])
    end;
  match rq_page query with
  | PKeyset (Some cursor) _ =>
      let '(condition, params) := predicate cursor "p" params in
      Ok (conditions ++ [condition], params)
  | _ => Ok (conditions, params)
  end.

Definition where_clause (conditions : list string) : string :=
  match conditions with [] => "true" | _ => join " and " conditions end.

(** [build_list]. *)
Definition build_list (query : ReadQuery) (ctx : FilterContext) (auth : AuthContext)
    : result BuiltQuery :=
  '(conditions, params) ← list_conditions query ctx auth;
  '(document, _) ←
    object_expression (S MAX_EXPAND_DEPTH) ctx "p" (selection query) (expand query) 0;
  order_by ← Sort.compile (sort query) ctx;
  let params := params ++ [dec (page_limit (rq_page query))] in
  let limit_index := dec_nat (length params) in
  let offset := match rq_page query with POffset request => request_offset request | _ => 0%Z end in
  let params := params ++ [dec offset] in
  let offset_index := dec_nat (length params) in
  let keyset_created :=
    if has_column ctx "created"
    then String "p" (String "." (String quote_char ("created" +:+ String quote_char "")))
    else "null::timestamptz" in
  Ok {| sql := "select " +:+ document +:+ " as record, " +:+ keyset_created
          +:+ String " " ("as keyset_created, p." +:+ String quote_char ("id" +:+ String quote_char " as keyset_id from "))
          +:+ quote_ident (table ctx) +:+ " p where " +:+ where_clause conditions
          +:+ " order by " +:+ order_by +:+ " limit $" +:+ limit_index
          +:+ "::text::bigint offset $" +:+ offset_index +:+ "::text::bigint";
        params := params |}.

(** [build_count]. *)
Definition build_count (filter : option Expr) (ctx : FilterContext) (auth : AuthContext)
    : result BuiltQuery :=
  '(where_clause, params) ← match filter with
    | Some filter =>
        compiled ← compile_with_root filter ctx auth ROOT_ALIAS;
        Ok (cf_sql compiled, cf_params compiled)
    | None => Ok ("true", [])
    end;
  Ok {| sql := "select count(*) from " +:+ quote_ident (table ctx) +:+ " p where " +:+ where_clause;
        params := params |}.

(** * The statements are parameterised *)

(** The string constants a document may hold. *)
Inductive doc_literal : FilterContext → string → Prop :=
  | lit_fixed ctx v :
      v ∈ ["%"; "\"; "collectionId"; "collectionName"; "expand"; "[]"; "{}"] → doc_literal ctx v
  | lit_column ctx c : has_column ctx c = true → doc_literal ctx c
  | lit_relation ctx k r : assoc k (relations ctx) = Some r → doc_literal ctx k
  | lit_collection ctx : doc_literal ctx (ctx_collection_id ctx)
  | lit_table ctx : doc_literal ctx (table ctx)
  | lit_nested ctx k r v :
      assoc k (relations ctx) = Some r → doc_literal (rel_context r) v → doc_literal ctx v.

(** The names a statement may hold: the schema's, the table and the two
    columns the statement names itself. *)
Definition list_name (ctx : FilterContext) (x : string) : Prop :=
  x = table ctx ∨ x = "id" ∨ x = "created" ∨ schema_name ctx x.

Section document_parts.
Context (P Q : string → Prop).

Local Abbreviation inert := (inert P Q).

Lemma column_pair_inert ctx alias column s :
  (∀ p, part P Q p alias p) → P column → Q column →
  column_pair ctx alias column = Ok s → inert s.
Proof.
  intros Ha HP HQ. unfold column_pair, sql_string_literal. case_match; [done|]. intros [= <-] p.
  part_solve.
Qed.

Lemma constant_pairs_inert ctx sel :
  Q "collectionId" → Q "collectionName" → Q (table ctx) → Q (ctx_collection_id ctx) →
  Forall inert (constant_pairs ctx sel).
Proof.
  intros H1 H2 H3 H4. unfold constant_pairs, sql_string_literal. case_decide; [done|].
  apply Forall_app. split; case_match; repeat constructor; intros p; part_solve.
Qed.

Lemma expand_expression_inert r alias child_alias child_document :
  (∀ p, part P Q p alias p) → (∀ p, part P Q p child_alias p) → (∀ p, part P Q p child_document p) →
  P "id" → P "created" → P (rel_table r) → P (rel_column r) → Q "[]" →
  inert (expand_expression r alias child_alias child_document).
Proof.
  intros Ha Hc Hd H1 H2 H3 H4 H5 p. unfold expand_expression. destruct (multiple r); part_solve.
Qed.

Lemma document_inert pairs expand_pairs :
  Q "expand" → Q "{}" → Forall inert pairs → Forall inert expand_pairs →
  inert (document pairs expand_pairs).
Proof.
  intros H1 H2 Hp He. unfold document.
  assert (∀ l, Forall inert l → inert (join ", " l)) as Hj by (intros l; by apply inert_join).
  set (all := match expand_pairs with [] => pairs | _ => _ end).
  assert (Forall inert all) as Hall.
  { subst all. destruct expand_pairs as [|e es]; [done|]. apply Forall_app. split; [done|].
    apply Forall_singleton. intros p. apply Hj in He.
    pose proof (He : ∀ p, part P Q p _ p). part_solve. }
  clearbody all. intros p. apply Hj in Hall as Ha.
  pose proof (Ha : ∀ p, part P Q p _ p).
  destruct all as [|a all]; part_solve.
Qed.
End document_parts.

Lemma object_alias P Q n p : part P Q p ("r" +:+ dec_nat n) p.
Proof.
  apply part_bare. unfold bare. rewrite str_forall_app. apply andb_true_iff. split; [done|].
  eapply str_forall_impl; [|apply (pretty_N_value (N.of_nat n))].
  intros c. by_bytes c.
Qed.

(** Every selected column is a column, or the expression was refused. *)
Lemma columns_inert P Q ctx alias l ss :
  (∀ p, part P Q p alias p) → (∀ x, schema_name ctx x → P x) → (∀ v, doc_literal ctx v → Q v) →
  try_map (column_pair ctx alias) l = Ok ss → Forall (inert P Q) ss.
Proof.
  intros Ha HP HQ H%try_map_Ok. induction H as [|c s l ss Hs Hl IH]; [done|].
  constructor; [|done].
  assert (has_column ctx c = true) as Hc
    by (unfold column_pair in Hs; destruct (has_column ctx c); done).
  eapply column_pair_inert; [exact Ha| | |exact Hs].
  - apply HP. unfold has_column in Hc. apply bool_decide_eq_true in Hc as [ty Hty].
    by eapply name_column.
  - by apply HQ, lit_column.
Qed.

Lemma object_expression_inert P Q levels ctx alias sel ex k s k' :
  (∀ p, part P Q p alias p) → (∀ x, schema_name ctx x → P x) → P "created" →
  (∀ v, doc_literal ctx v → Q v) →
  object_expression levels ctx alias sel ex k = Ok (s, k') → inert P Q s.
Proof.
  revert ctx alias sel ex k s k'.
  induction levels as [|levels IH]; intros ctx alias sel ex k s k' Ha HP Hcr HQ H; [done|].
  cbn [object_expression] in H. apply bind_Ok in H as (columns & Hcols & H).
  apply bind_Ok in H as ([pairs k1] & Hpairs & H). injection H as <- <-.
  apply document_inert.
  1,2: apply HQ, lit_fixed; rewrite !elem_of_cons; auto 8.
  - apply Forall_app. split; [by eapply columns_inert|].
    apply constant_pairs_inert; apply HQ.
    1,2: apply lit_fixed; rewrite !elem_of_cons; auto 6.
    1: apply lit_table.
    apply lit_collection.
  - revert Hpairs. apply (try_fold_inv (λ st, Forall (inert P Q) st.1)); [|done].
    clear k1 pairs columns Hcols.
    intros [pairs k1] name [pairs' k2] Hok Hname Hstep. cbn in *.
    destruct (assoc name (relations ctx)) as [r|] eqn:Hr; cbn [ok_or mbind result_bind] in Hstep; [|done].
    apply bind_Ok in Hstep as ([child k3] & Hchild & Hstep). injection Hstep as <- <-.
    apply Forall_app. split; [done|]. apply Forall_singleton.
    assert (inert P Q child) as Hc.
    { eapply IH; [| | | |exact Hchild]; [apply object_alias|..|].
      - intros x Hx. eapply HP, name_nested; done.
      - done.
      - intros v Hv. eapply HQ, lit_nested; done. }
    assert (inert P Q (expand_expression r alias ("r" +:+ dec_nat (S k1)) child)) as He.
    { apply expand_expression_inert; [done|apply object_alias|exact Hc|..].
      - apply HP, name_id.
      - done.
      - eapply HP, name_relation_table, Hr.
      - eapply HP, name_relation_column, Hr.
      - apply HQ, lit_fixed. rewrite !elem_of_cons; auto 8. }
    assert (Q name) as Hn by (eapply HQ, lit_relation, Hr).
    clear -He Hn. revert He. generalize (expand_expression r alias ("r" +:+ dec_nat (S k1)) child).
    unfold inert, sql_string_literal. intros e He p. part_solve.
Qed.

Lemma compile_with_root_part P Q e ctx auth root cf :
  (∀ p, part P like_const p root p) → (∀ x, schema_name ctx x → P x) →
  (∀ v, like_const v → Q v) →
  compile_with_root e ctx auth root = Ok cf → part P Q [] (cf_sql cf) (cf_params cf).
Proof.
  intros Hr HP HQ H. unfold compile_with_root in H. apply bind_Ok in H as ([s ps] & He & [= <-]).
  pose proof (compile_expr_spec P e ctx auth root [] Hr HP) as Hs. rewrite He in Hs.
  by eapply part_mono; [| |exact Hs].
Qed.

Lemma predicate_part P Q c params s params' :
  P "created" → P "id" → predicate c "p" params = (s, params') → part P Q params s params'.
Proof.
  intros H1 H2 [= <- <-].
  pose proof (part_param P Q (dec (created_micros c)) params) as Hp1.
  pose proof (part_param P Q (cursor_id c) (params ++ [dec (created_micros c)])) as Hp2.
  revert Hp1 Hp2.
  generalize (dec_nat (length (params ++ [dec (created_micros c)]))),
    (dec_nat (length ((params ++ [dec (created_micros c)]) ++ [cursor_id c]))).
  intros d1 d2 Hp1 Hp2.
  change (part P Q params
    (String "(" (String "p" (String "." (String quote_char ("created" +:+ String quote_char
       (", p." +:+ String quote_char ("id" +:+ String quote_char ") < (to_timestamp("))))))
     +:+ (("$" +:+ d1) +:+ ("::text::bigint / 1000000.0), " +:+ (("$" +:+ d2) +:+ "::text)"))))
    ((params ++ [dec (created_micros c)]) ++ [cursor_id c])).
  part_solve.
Qed.


Lemma sort_inert P Q spec ctx s :
  (∀ c, has_column ctx c = true → P c) → Sort.compile spec ctx = Ok s → inert P Q s.
Proof.
  intros HP H p. apply compile_frag in H as (names & Hf & Hc).
  eapply part_frag; [exact Hf|clear; by induction names|].
  apply Forall_fmap. eapply Forall_impl; [exact Hc|]. intros c. apply HP.
Qed.

Lemma list_conditions_part P Q query ctx auth conditions ps :
  (∀ x, schema_name ctx x → P x) → P "created" → (∀ v, like_const v → Q v) →
  list_conditions query ctx auth = Ok (conditions, ps) →
  part P Q [] (where_clause conditions) ps.
Proof.
  intros HP Hcr HQ H. unfold list_conditions in H.
  assert (P "id") as Hid by apply HP, name_id.
  apply bind_Ok in H as ([cs ps1] & Hf & H).
  assert (part P Q [] (where_clause cs) ps1 ∧ (cs = [] ∧ ps1 = [] ∨ ∃ c, cs = [c])) as [Hcs Hshape].
  { destruct (rq_filter query) as [e|].
    - apply bind_Ok in Hf as (cf & Hcf & [= <- <-]). split; [|by right; eexists].
      cbn [where_clause join String.concat].
      eapply (compile_with_root_part P Q _ _ _ ROOT_ALIAS); [intros p; by apply part_bare|done|done|exact Hcf].
    - injection Hf as <- <-. split; [by apply part_bare|by left]. }
  destruct (rq_page query) as [r|[cursor|] limit]; [by simplify_eq| |by simplify_eq].
  destruct (predicate cursor "p" ps1) as [s ps2] eqn:Hp. injection H as <- <-.
  pose proof (predicate_part P Q cursor ps1 s ps2 Hcr Hid Hp) as Hpart.
  destruct Hshape as [[-> ->]|[c ->]]; [exact Hpart|].
  cbn [app where_clause]. rewrite join_cons2. cbn [where_clause join String.concat] in Hcs.
  eapply part_app; [exact Hcs|by apply part_bare_app|done|done].
Qed.

(** C6. the listing statement is parameterised. PostgreSQL's scanner reads
    it to the end; its placeholders are [$1], [$2], ... in order, one per
    parameter; its quoted names are the table, [id], [created] and what the
    schema declares; its string constants are JSON keys of the schema and the
    statement's own. *)
Theorem build_list_is_parameterised query ctx auth built :
  build_list query ctx auth = Ok built →
  ∃ ts, lexemes (sql built) = Some ts
    ∧ lexeme_params ts = N.of_nat <$> seq 1 (length (params built))
    ∧ Forall (list_name ctx) (lexeme_idents ts)
    ∧ Forall (doc_literal ctx) (lexeme_literals ts).
Proof.
  intros H. apply part_statement. unfold build_list in H.
  apply bind_Ok in H as ([conditions ps] & Hcond & H).
  apply bind_Ok in H as ([doc k] & Hdoc & H).
  apply bind_Ok in H as (order & Horder & H). cbv zeta in H. injection H as <-.
  cbn [sql params].
  assert (∀ x, schema_name ctx x → list_name ctx x) as HP by (intros; unfold list_name; auto).
  assert (list_name ctx "created") as Hcr by (unfold list_name; auto).
  assert (list_name ctx "id") as Hid by (unfold list_name; auto).
  assert (list_name ctx (table ctx)) as Ht by (unfold list_name; auto).
  apply (list_conditions_part (list_name ctx) (doc_literal ctx)) in Hcond; [|done..|].
  2: { intros v [->| ->]; apply lit_fixed; rewrite !elem_of_cons; auto. }
  apply (object_expression_inert (list_name ctx) (doc_literal ctx)) in Hdoc; [|by intros; apply part_bare|done..].
  apply (sort_inert (list_name ctx) (doc_literal ctx)) in Horder.
  2: { intros c Hc. unfold has_column in Hc. apply bool_decide_eq_true in Hc as [ty Hty].
       by eapply HP, name_column. }
  pose proof (part_param (list_name ctx) (doc_literal ctx) (dec (page_limit (rq_page query))) ps) as Hl.
  set (offset := match rq_page query with POffset r => _ | _ => _ end).
  pose proof (part_param (list_name ctx) (doc_literal ctx) (dec offset)
    (ps ++ [dec (page_limit (rq_page query))])) as Ho.
  revert Hl Ho.
  generalize (dec_nat (length (ps ++ [dec (page_limit (rq_page query))]))),
    (dec_nat (length ((ps ++ [dec (page_limit (rq_page query))]) ++ [dec offset]))).
  generalize dependent offset. intros offset limit_index offset_index Hl Ho.
  generalize dependent (where_clause conditions). intros conds Hcond.
  set (keyset := if has_column ctx "created" then _ else _).
  assert (∀ p, part (list_name ctx) (doc_literal ctx) p keyset p) as Hk.
  { intros p. subst keyset. destruct (has_column ctx "created"); part_solve. }
  clearbody keyset. unfold inert in Hdoc, Horder.
  change (" limit $" +:+ limit_index +:+ "::text::bigint offset $" +:+ offset_index +:+ "::text::bigint")
    with (" limit " +:+ (("$" +:+ limit_index) +:+ ("::text::bigint offset "
      +:+ (("$" +:+ offset_index) +:+ "::text::bigint")))).
  part_solve.
Qed.

(** * What was parsed builds *)

Lemma effective_columns_known ctx sel :
  sel_ok ctx sel → Forall (λ c, has_column ctx c = true) (effective_columns sel ctx).
Proof.
  intros Hok. inversion Hok as [? cols all cid cname nested Hcols _]; subst.
  unfold effective_columns. cbn. destruct all; [|done].
  apply Forall_forall. intros c Hc. unfold sort_names in Hc. rewrite merge_sort_Permutation in Hc.
  apply list_elem_of_fmap in Hc as ([c' t] & -> & Hc). apply elem_of_map_to_list in Hc.
  unfold has_column. apply bool_decide_eq_true. by eexists.
Qed.

Lemma columns_build ctx alias l :
  Forall (λ c, has_column ctx c = true) l → ∃ ss, try_map (column_pair ctx alias) l = Ok ss.
Proof.
  induction 1 as [|c l Hc Hl (ss & Hss)]; [by eexists|].
  cbn [try_map].
  assert (∃ s, column_pair ctx alias c = Ok s) as [s ->] by (unfold column_pair; rewrite Hc; by eexists).
  cbn [mbind result_bind]. rewrite Hss. by eexists.
Qed.

Lemma assoc_keys {A} k (l : list (string * A)) : k ∈ l.*1 → is_Some (assoc k l).
Proof.
  induction l as [|[k' v] l IH]; cbn; [by intros ?%elem_of_nil|].
  rewrite elem_of_cons. case_decide; [by eexists|]. intros [->|Hk]; [done|by apply IH].
Qed.

Lemma relations_to_expand_known n ctx ex name :
  exp_ok n ctx ex → name ∈ relations_to_expand ex ctx →
  ∃ r m, n = S m ∧ assoc name (relations ctx) = Some r ∧ exp_ok m (rel_context r) (child_expand ex name).
Proof.
  intros Hok Hname. inversion Hok as [? ? nested all Hall Hnested]; subst.
  unfold relations_to_expand, child_expand in *. cbn in *. destruct all.
  - unfold sort_names in Hname. rewrite merge_sort_Permutation in Hname.
    apply assoc_keys in Hname as [r Hr]. destruct n as [|m]; [specialize (Hall eq_refl); lia|].
    exists r, m. split_and!; [done|done|apply exp_ok_none].
  - apply assoc_keys in Hname as [child Hchild]. rewrite Hchild. cbn.
    apply Hnested. by apply assoc_elem.
Qed.

Lemma child_selection_ok ctx sel name r :
  sel_ok ctx sel → assoc name (relations ctx) = Some r → sel_ok (rel_context r) (child_selection sel name).
Proof.
  intros Hok Hr. inversion Hok as [? cols all cid cname nested _ Hnested]; subst.
  unfold child_selection. cbn. destruct (assoc name nested) as [c|] eqn:Hc; [|apply sel_ok_all].
  destruct (Hnested name c) as (r' & Hr' & Hc'); [by apply assoc_elem|]. cbn. congruence.
Qed.

Lemma try_fold_build {A B} (f : B → A → result B) b l :
  (∀ b x, x ∈ l → ∃ b', f b x = Ok b') → ∃ b', try_fold f b l = Ok b'.
Proof.
  revert b. induction l as [|x l IH]; intros b Hf; cbn; [by eexists|].
  destruct (Hf b x) as [b1 ->]; [by left|]. cbn. apply IH. intros b2 y Hy. apply Hf. by right.
Qed.

Lemma object_expression_builds n : ∀ ctx alias sel ex k,
  sel_ok ctx sel → exp_ok n ctx ex → ∃ s k', object_expression (S n) ctx alias sel ex k = Ok (s, k').
Proof.
  induction n as [n IH] using lt_wf_ind. intros ctx alias sel ex k Hs He.
  remember (S n) as levels eqn:Hl. cbn [object_expression]. rewrite Hl. cbn [object_expression].
  destruct (columns_build ctx alias (effective_columns sel ctx)) as [ss ->];
    [by apply effective_columns_known|].
  cbn [mbind result_bind].
  match goal with |- context [try_fold ?f ([], k) ?l] =>
    destruct (try_fold_build f ([], k) l) as [[pairs k'] ->] end; [|by do 2 eexists].
  intros [pairs k1] name Hname.
  destruct (relations_to_expand_known _ _ _ _ He Hname) as (r & m & -> & Hr & Hm).
  rewrite Hr. cbn [ok_or mbind result_bind].
  destruct (IH m ltac:(lia) (rel_context r) ("r" +:+ dec_nat (S k1)) (child_selection sel name)
    (child_expand ex name) (S k1)) as (s & k2 & ->); [by eapply child_selection_ok|done|].
  by eexists.
Qed.

(** [fields] and [expand] are checked where they are parsed. Whatever
    they parse to, the document of a record builds for it; so a listing is
    refused exactly when its filter or its sort is. *)
Theorem parsed_projection_builds fields_input expand_input ctx sel ex query auth :
  selection_parse fields_input ctx = Ok sel → expand_parse expand_input ctx = Ok ex →
  selection query = sel → expand query = ex →
  (∀ root, is_ok (record_document ctx root sel ex) = true)
  ∧ is_ok (build_list query ctx auth)
    = match rq_filter query with
      | Some e => is_ok (compile_with_root e ctx auth ROOT_ALIAS)
      | None => true
      end && is_ok (Sort.compile (sort query) ctx).
Proof.
  intros Hs%selection_parse_ok He%expand_parse_ok Hqs Hqe. split.
  - intros root. unfold record_document.
    by destruct (object_expression_builds _ ctx root sel ex 0 Hs He) as (s & k & ->).
  - unfold build_list.
    destruct (object_expression_builds _ ctx "p" sel ex 0 Hs He) as (s & k & Hdoc).
    assert (is_ok (list_conditions query ctx auth) = match rq_filter query with
      | Some e => is_ok (compile_with_root e ctx auth ROOT_ALIAS) | None => true end) as <-.
    { unfold list_conditions. destruct (rq_filter query) as [e|];
        [destruct (compile_with_root e ctx auth ROOT_ALIAS)|]; cbn [mbind result_bind];
        [|done|]; destruct (rq_page query) as [|[]]; done. }
    destruct (list_conditions query ctx auth) as [[cs ps]|]; cbn [mbind result_bind]; [|done].
    rewrite Hqs, Hqe, Hdoc. cbn [mbind result_bind].
    by destruct (Sort.compile (sort query) ctx).
Qed.

(** * Concrete inputs *)

Definition sample_query : ReadQuery :=
  {| selection := match selection_parse (Some "*,author.name") sample_context with Ok s => s | _ => selection_all end;
     expand := match expand_parse (Some "author") sample_context with Ok e => e | _ => expand_none end;
     rq_filter := Some (ECompare (SPath ["title"]) OEq (SValue (OpText "a'b")));
     sort := [{| path := ["created"]; descending := true |}];
     rq_page := PKeyset (Some {| created_micros := 7; cursor_id := "x" |}) 30 |}.

Definition sample_built : BuiltQuery :=
  match build_list sample_query sample_context sample_auth with
  | Ok b => b
  | Err _ => {| sql := ""; params := [] |}
  end.

Example sample_built_params : params sample_built = ["a'b"; "7"; "x"; "30"; "0"].
Proof. vm_compute. reflexivity. Qed.

Lemma build_list_is_parameterised_witness :
  ∃ ts, lexemes (sql sample_built) = Some ts
    ∧ lexeme_params ts = N.of_nat <$> seq 1 (length (params sample_built))
    ∧ Forall (list_name sample_context) (lexeme_idents ts)
    ∧ Forall (doc_literal sample_context) (lexeme_literals ts).
Proof.
  apply (build_list_is_parameterised sample_query sample_context sample_auth).
  vm_compute. reflexivity.
Defined.

Lemma parsed_projection_builds_witness :
  (∀ root, is_ok (record_document sample_context root (selection sample_query) (expand sample_query)) = true)
  ∧ is_ok (build_list sample_query sample_context sample_auth)
    = match rq_filter sample_query with
      | Some e => is_ok (compile_with_root e sample_context sample_auth ROOT_ALIAS)
      | None => true
      end && is_ok (Sort.compile (sort sample_query) sample_context).
Proof.
  apply (parsed_projection_builds (Some "*,author.name") (Some "author"));
    [vm_compute; reflexivity|vm_compute; reflexivity|reflexivity|reflexivity].
Defined.
