(* ===== verification/Policy.v ===== *)
(** Compiling a collection rule into a policy predicate,
    [crates/db/src/rls/policy.rs]. *)
From S2P Require Import Prelude CoreError F64 Json Filter FilterSpec FilterText Types Sql Ddl Compile CompileSpec Samples CompileProps.

Local Set Warnings "-register-all".

(** [sql_text]. *)
Definition sql_text (value : string) : string := sql_literal value.

(** [auth_sql]. *)
Definition auth_sql (reference : AuthRef) : string :=
  match reference with
  | ARId => "auth.uid()"
  | AREmail => "auth.claim('email')"
  | ARCollectionId => "auth.collection_id()"
  | ARCollectionName => "auth.collection_name()"
  | ARClaim name => "auth.claim(" +:+ sql_text name +:+ ")"
  end.

(** [value_sql]. *)
Definition value_sql (operand : Operand) (column_type : string) : result string :=
  let cast := cast_for column_type in
  match operand with
  | OpText value => Ok (sql_text value +:+ "::" +:+ cast)
  | OpNumber value =>
      if negb (f64_is_finite value) then Err Invalid
      else Ok (f64_to_string value +:+ "::" +:+ cast)
  | OpBool value => Ok (bool_str value +:+ "::" +:+ cast)
  | OpAuth reference => Ok (auth_sql reference +:+ "::" +:+ cast)
  | OpNull | OpNow => Err Internal
  end.

(** The needle of [~]: a literal pattern, or wildcards around a value. *)
Definition like_expression (operand : Operand) : result string :=
  match operand with
  | OpText value => Ok (sql_text ("%" +:+ escape_like value +:+ "%"))
  | other => v ← value_sql other "text"; Ok ("'%' || " +:+ v +:+ " || '%'")
  end.

(** [compare]. *)
Definition compare (path : list string) (op : CompareOp) (operand : Operand) (swapped : bool)
    (ctx : FilterContext) : result string :=
  match path with
  | [column] =>
      column_type ← ok_or (columns ctx !! column) Invalid;
      let target := quote_ident column in
      _ ← check_operator_supported op column_type;
      if decide (operand = OpNull) then
        match op with
        | OEq => Ok (target +:+ " is null")
        | ONotEq => Ok (target +:+ " is not null")
        | _ => Err Invalid
        end
      else match op with
      | OAny | ONotAny =>
          value ← value_sql operand "text";
          let predicate := value +:+ " = any(" +:+ target +:+ ")" in
          Ok (if decide (op = OAny) then predicate else "not (" +:+ predicate +:+ ")")
      | OLike | ONotLike =>
          let keyword := like_keyword op in
          expression ← like_expression operand;
          Ok (if swapped : bool
              then expression +:+ " " +:+ keyword +:+ " " +:+ target +:+ like_escape
              else target +:+ " " +:+ keyword +:+ " " +:+ expression +:+ like_escape)
      | _ =>
          let operator := " " +:+ sql_operator op +:+ " " in
          if decide (operand = OpNow) then
            if decide (column_type ≠ "timestamptz") then Err Invalid
            else Ok (if swapped : bool then "now()" +:+ operator +:+ target
                     else target +:+ operator +:+ "now()")
          else
            value ← value_sql operand column_type;
            Ok (if swapped : bool then value +:+ operator +:+ target
                else target +:+ operator +:+ value)
      end
  | _ => Err Unsupported
  end.

(** [rule_value_sql]. *)
Definition rule_value_sql (operand : Operand) (cast : string) : result string :=
  if decide (operand = OpNow) then Ok "now()" else value_sql operand cast.

(** [compare_values]. *)
Definition compare_values (left : Operand) (op : CompareOp) (right : Operand) : result string :=
  if decide (left = OpNull ∨ right = OpNull) then Err Invalid
  else match op with
  | OAny | ONotAny => Err Invalid
  | OLike | ONotLike =>
      haystack ← value_sql left "text";
      needle ← like_expression right;
      Ok (haystack +:+ " " +:+ like_keyword op +:+ " " +:+ needle +:+ like_escape)
  | _ =>
      let cast := if is_now left || is_now right then "timestamptz"
                  else if is_number left || is_number right then "double precision"
                  else "text" in
      left_sql ← rule_value_sql left cast;
      right_sql ← rule_value_sql right cast;
      Ok (left_sql +:+ " " +:+ sql_operator op +:+ " " +:+ right_sql)
  end.

(** [compare_sides]. *)
Definition compare_sides (left : Side) (op : CompareOp) (right : Side) (ctx : FilterContext)
    : result string :=
  match left, right with
  | SPath path, SValue operand => compare path op operand false ctx
  | SValue operand, SPath path => compare path op operand true ctx
  | SValue l, SValue r => compare_values l op r
  | SPath _, SPath _ => Err Unsupported
  end.

(** [predicate]. *)
Fixpoint predicate (rule : Expr) (ctx : FilterContext) : result string :=
  match rule with
  | EAnd l r =>
      sl ← predicate l ctx; sr ← predicate r ctx; Ok ("(" +:+ sl +:+ " and " +:+ sr +:+ ")")
  | EOr l r =>
      sl ← predicate l ctx; sr ← predicate r ctx; Ok ("(" +:+ sl +:+ " or " +:+ sr +:+ ")")
  | ECompare l op r => compare_sides l op r ctx
  end.

(** * What a predicate's text is *)

(** The string constants a rule can put in a policy: its values, the escaped
    patterns made of them, the claims it names, and the compiler's own. *)
Definition operand_literal (o : Operand) (v : string) : Prop :=
  match o with
  | OpText t => v = t ∨ v = "%" +:+ escape_like t +:+ "%"
  | OpAuth (ARClaim name) => v = name
  | _ => False
  end.
Definition side_literal (s : Side) (v : string) : Prop :=
  match s with SPath _ => False | SValue o => operand_literal o v end.
Fixpoint rule_literal (e : Expr) (v : string) : Prop :=
  match e with
  | EAnd l r | EOr l r => rule_literal l v ∨ rule_literal r v
  | ECompare l _ r => side_literal l v ∨ side_literal r v
  end.
Definition policy_literal (e : Expr) (v : string) : Prop :=
  v ∈ ["%"; "\"; "email"] ∨ rule_literal e v.

(** A predicate's text: no placeholder, and names and constants as stated. *)
Definition predicate_part (P Q : string → Prop) (r : result string) : Prop :=
  match r with Ok s => ∀ p, part P Q p s p | Err _ => True end.

Lemma predicate_part_bind P Q (r : result string) (k : string → result string) :
  predicate_part P Q r → (∀ s, (∀ p, part P Q p s p) → predicate_part P Q (k s)) →
  predicate_part P Q (r ≫= k).
Proof. destruct r; cbn; auto. Qed.

Lemma predicate_part_mono (P P' Q Q' : string → Prop) r :
  (∀ x, P x → P' x) → (∀ v, Q v → Q' v) → predicate_part P Q r → predicate_part P' Q' r.
Proof. destruct r; cbn; [|done]. intros HP HQ H p. by eapply part_mono; [| |apply H]. Qed.

Lemma f64_part P Q v p : part P Q p (f64_to_string v) p.
Proof.
  apply part_bare. eapply str_forall_impl; [|apply f64_to_string_chars]. intros c. by_bytes c.
Qed.

Lemma cast_part P Q t p : part P Q p (cast_for t) p.
Proof. apply part_bare, cast_for_bare. Qed.

Lemma cast_plain t : plain_start (cast_for t) = true ∧ cast_for t ≠ "".
Proof.
  unfold cast_for. case_decide as H; [|done].
  rewrite !elem_of_cons in H. naive_solver set_solver.
Qed.

#[export] Hint Resolve f64_part cast_part : part.
#[export] Hint Opaque f64_to_string cast_for : part.

Section predicate.
Context (P Q : string → Prop) (Hfixed : ∀ v, v ∈ ["%"; "\"; "email"] → Q v).

Lemma Q_wildcard : Q "%".
Proof. apply Hfixed. set_solver. Qed.
Lemma Q_escape : Q "\".
Proof. apply Hfixed. set_solver. Qed.
Lemma Q_email : Q "email".
Proof. apply Hfixed. set_solver. Qed.
Local Hint Resolve Q_wildcard Q_escape Q_email : part.

Lemma value_sql_part o t :
  (∀ v, operand_literal o v → Q v) → predicate_part P Q (value_sql o t).
Proof.
  intros Ho. destruct o as [v|v|b| | |r]; cbn [value_sql]; try done.
  - intros p. assert (Q v) by (apply Ho; by left). unfold sql_text. part_solve.
  - destruct (f64_is_finite v); cbn [negb predicate_part]; [|done]. intros p. part_solve.
  - intros p. destruct b; part_solve.
  - intros p. destruct r as [| | | |name]; cbn [auth_sql]; try part_solve.
    assert (Q name) by by apply Ho. unfold sql_text. part_solve.
Qed.

Lemma like_expression_part o :
  (∀ v, operand_literal o v → Q v) → predicate_part P Q (like_expression o).
Proof.
  intros Ho. unfold like_expression.
  destruct o as [v| | | | |r]; try (apply predicate_part_bind; [by apply value_sql_part|];
    intros s Hs p; part_solve).
  intros p. assert (Q ("%" +:+ escape_like v +:+ "%")) by (apply Ho; by right).
  unfold sql_text. part_solve.
Qed.

Lemma compare_part path op o sw ctx :
  (∀ c t, columns ctx !! c = Some t → P c) → (∀ v, operand_literal o v → Q v) →
  predicate_part P Q (compare path op o sw ctx).
Proof.
  intros HP Ho. unfold compare. destruct path as [|column [|]]; try done.
  destruct (columns ctx !! column) as [ty|] eqn:Hc; cbn [ok_or mbind result_bind]; [|done].
  assert (P column) by by eapply HP.
  destruct (check_operator_supported op ty); cbn [mbind result_bind]; [|done].
  destruct (decide (o = OpNull)); [destruct op; try done; intros p; part_solve|].
  destruct op.
  all: try match goal with |- context [if decide (?x = OpNow) then _ else _] =>
    destruct (decide (x = OpNow)); [destruct (decide (ty ≠ "timestamptz")); [done|];
      destruct sw; intros p; part_solve|] end.
  all: apply predicate_part_bind;
    [by first [apply value_sql_part|apply like_expression_part]|]; intros s Hs.
  all: try case_decide; try done; try destruct sw; intros p; cbn [predicate_part]; part_solve.
Qed.

Lemma rule_value_sql_part o t :
  (∀ v, operand_literal o v → Q v) → predicate_part P Q (rule_value_sql o t).
Proof.
  intros Ho. unfold rule_value_sql. case_decide; [intros p; part_solve|by apply value_sql_part].
Qed.

Lemma compare_values_part l op r :
  (∀ v, operand_literal l v → Q v) → (∀ v, operand_literal r v → Q v) →
  predicate_part P Q (compare_values l op r).
Proof.
  intros Hl Hr. unfold compare_values. case_decide; [done|].
  destruct op; try done; (apply predicate_part_bind;
    [by first [apply rule_value_sql_part|apply value_sql_part]|]; intros s1 H1);
    (apply predicate_part_bind;
    [by first [apply rule_value_sql_part|apply like_expression_part]|]; intros s2 H2);
    intros p; cbn [predicate_part]; part_solve.
Qed.
End predicate.

Lemma predicate_spec rule ctx :
  predicate_part (λ c, has_column ctx c = true) (policy_literal rule) (predicate rule ctx).
Proof.
  induction rule as [l IHl r IHr|l IHl r IHr|l op r].
  1,2: cbn [predicate]; apply predicate_part_bind;
    [eapply (predicate_part_mono _ _ _ _ _ (λ c H, H)); [|exact IHl]; intros v [H|H]; [by left|by right; left]|];
    intros s1 H1; apply predicate_part_bind;
    [eapply (predicate_part_mono _ _ _ _ _ (λ c H, H)); [|exact IHr]; intros v [H|H]; [by left|by right; right]|];
    intros s2 H2 p; cbn [predicate_part]; part_solve.
  assert (∀ c t, columns ctx !! c = Some t → has_column ctx c = true) as HP
    by (intros c t H; unfold has_column; apply bool_decide_eq_true; by eexists).
  assert (∀ v, v ∈ ["%"; "\"; "email"] → policy_literal (ECompare l op r) v) as Hf by (by left).
  cbn [predicate]. destruct l as [path|v], r as [path'|v']; cbn [compare_sides]; try done.
  - apply compare_part; [exact Hf|exact HP|]. intros w Hw. right. by right.
  - apply compare_part; [exact Hf|exact HP|]. intros w Hw. right. by left.
  - apply compare_values_part; [exact Hf|intros w Hw; right..]; [by left|by right].
Qed.

(** * Patterns against a column *)

(** No wildcard and no escape. *)
Definition no_meta (s : string) : bool :=
  str_forall (λ c, negb (bool_decide (c = backslash ∨ c = "%"%char ∨ c = "_"%char))) s.

Lemma like_no_meta p s : no_meta p = true → like p s = bool_decide (s = p).
Proof.
  revert s. induction p as [|c p IH]; intros s; [done|]. unfold no_meta in *. cbn [str_forall].
  intros [Hc Hp]%andb_true_iff. apply negb_true_iff, bool_decide_eq_false in Hc.
  cbn [like]. rewrite !decide_False by tauto. destruct s as [|d s]; [done|].
  rewrite IH by done. apply eq_true_iff_eq.
  rewrite andb_true_iff, !bool_decide_eq_true. naive_solver.
Qed.

Lemma no_meta_lower s : no_meta s = true → no_meta (to_ascii_lowercase s) = true.
Proof.
  unfold no_meta. induction s as [|c s IH]; [done|]. cbn. rewrite !andb_true_iff.
  intros [Hc Hs]. split; [|by apply IH]. revert Hc. by_bytes c.
Qed.

Lemma compile_column_like c ctx auth :
  columns ctx !! c = Some "text" →
  compile (ECompare (SValue (OpAuth AREmail)) OLike (SPath [c])) ctx auth
  = Ok {| cf_sql := "$1::text ilike '%' || " +:+ (quote_ident (table ctx) +:+ "." +:+ quote_ident c)
                      +:+ " || '%' escape '\'";
          cf_params := [escape_like (default "" (ac_email auth))] |}.
Proof.
  intros Hc. unfold compile, compile_with_root. cbn [compile_expr compile_comparison].
  unfold compile_path. rewrite decide_False by (unfold MAX_PATH_DEPTH; cbn; lia).
  cbn [split_last ok_or mbind result_bind compile_at]. rewrite Hc. cbn [ok_or mbind result_bind].
  unfold compile_operator. rewrite decide_False by done. unfold check_operator_supported.
  rewrite decide_False by auto. reflexivity.
Qed.

(** a rule becomes a policy without opening it. The predicate's text
    scans to the end with no placeholder, its names are columns of the
    collection, and each of its string constants reads back as a value, an
    escaped pattern or a claim name of the rule, whatever characters it has. *)
Theorem policy_constants_read_back rule ctx sql :
  predicate rule ctx = Ok sql →
  ∃ ts, lexemes sql = Some ts ∧ lexeme_params ts = []
    ∧ Forall (λ c, has_column ctx c = true) (lexeme_idents ts)
    ∧ Forall (policy_literal rule) (lexeme_literals ts).
Proof.
  intros H. pose proof (predicate_spec rule ctx) as Hp. rewrite H in Hp.
  destruct (part_statement _ _ _ _ (Hp [])) as (ts & ?). exists ts. done.
Qed.

(** a pattern test with the request on its left means something else in
    a filter than in a rule, and neither is the documented "the reference is
    the haystack and the column is the needle". The filter escapes the
    haystack, so an address with an underscore does not contain itself; the
    rule puts the wildcards around the haystack and none around the needle,
    so it holds for no row whose column is plain text. *)
Theorem swapped_pattern_meaning c ctx auth :
  columns ctx !! c = Some "text" →
  compile (ECompare (SValue (OpAuth AREmail)) OLike (SPath [c])) ctx auth
    = Ok {| cf_sql := "$1::text ilike '%' || " +:+ (quote_ident (table ctx) +:+ "." +:+ quote_ident c)
                      +:+ " || '%' escape '\'";
            cf_params := [escape_like (default "" (ac_email auth))] |}
  ∧ predicate (ECompare (SValue (OpAuth AREmail)) OLike (SPath [c])) ctx
    = Ok ("'%' || auth.claim('email')::text || '%' ilike " +:+ quote_ident c +:+ " escape '\'")
  ∧ ilike ("%" +:+ "a_b" +:+ "%") "a_b" = true
  ∧ ilike ("%" +:+ "a_b" +:+ "%") (escape_like "a_b") = false
  ∧ ∀ email column, no_meta column = true → ilike column ("%" +:+ email +:+ "%") = false.
Proof.
  intros Hc. split; [by apply compile_column_like|]. split.
  { cbn [predicate compare_sides]. unfold compare. rewrite Hc. reflexivity. }
  split; [reflexivity|]. split; [reflexivity|].
  intros email column Hm. unfold ilike. rewrite like_no_meta by by apply no_meta_lower.
  apply bool_decide_eq_false. intros H. apply no_meta_lower in Hm. rewrite <-H in Hm. exact (Bool.diff_false_true Hm).
Qed.

Definition sample_rule : Expr :=
  EAnd (ECompare (SPath ["title"]) OEq (SValue (OpText "it's")))
    (ECompare (SPath ["author"]) OEq (SValue (OpAuth (ARClaim "o'k")))).

Lemma policy_constants_read_back_witness :
  ∃ sql, predicate sample_rule sample_context = Ok sql
  ∧ ∃ ts, lexemes sql = Some ts ∧ lexeme_params ts = []
    ∧ Forall (λ c, has_column sample_context c = true) (lexeme_idents ts)
    ∧ Forall (policy_literal sample_rule) (lexeme_literals ts).
Proof.
  eexists. split; [vm_compute; reflexivity|].
  apply (policy_constants_read_back sample_rule sample_context). vm_compute. reflexivity.
Defined.

Lemma swapped_pattern_meaning_witness :
  compile (ECompare (SValue (OpAuth AREmail)) OLike (SPath ["title"])) sample_context sample_auth
    = Ok {| cf_sql := "$1::text ilike '%' || " +:+ (quote_ident "posts" +:+ "." +:+ quote_ident "title")
                      +:+ " || '%' escape '\'";
            cf_params := [escape_like (default "" (ac_email sample_auth))] |}
  ∧ predicate (ECompare (SValue (OpAuth AREmail)) OLike (SPath ["title"])) sample_context
    = Ok ("'%' || auth.claim('email')::text || '%' ilike " +:+ quote_ident "title" +:+ " escape '\'")
  ∧ ilike ("%" +:+ "a_b" +:+ "%") "a_b" = true
  ∧ ilike ("%" +:+ "a_b" +:+ "%") (escape_like "a_b") = false
  ∧ ∀ email column, no_meta column = true → ilike column ("%" +:+ email +:+ "%") = false.
Proof.
  apply (swapped_pattern_meaning "title" sample_context sample_auth). vm_compute. reflexivity.
Defined.
