(* ===== verification/Rls.v ===== *)
(** Row-level security: the per-request context, [crates/db/src/rls/context.rs],
    and a collection's rules as policies, [crates/db/src/rls/policies.rs]. *)
From S2P Require Import Prelude CoreError Json Filter Types Sql Ddl Compile CompileSpec Samples Policy.

Local Set Warnings "-register-all".

(** * The request context *)

Inductive Role := Owner | Anon | Authenticated.
Inductive Action := AList | AView | AUpdate | ADelete | AWrite.

#[export] Instance Action_eq_dec : EqDecision Action.
Proof. solve_decision. Defined.

(** [Role::name]. *)
Definition role_name (r : Role) : option string :=
  match r with
  | Owner => None
  | Anon => Some "lazypock_anon"
  | Authenticated => Some "lazypock_authenticated"
  end.

(** [Action::name]. *)
Definition action_name (a : Action) : string :=
  match a with
  | AList => "list" | AView => "view" | AUpdate => "update" | ADelete => "delete" | AWrite => "write"
  end.

(** [struct RequestContext]. *)
Record RequestContext := {
  role : Role;
  action : Action;
  auth_id : string;
  auth_email : string;
  auth_collection_id : string;
  auth_collection_name : string;
  auth_claims : string;
  connection_id : string;
}.

#[export] Instance Role_eq_dec : EqDecision Role.
Proof. solve_decision. Defined.
#[export] Instance RequestContext_eq_dec : EqDecision RequestContext.
Proof. solve_decision. Defined.

Definition empty_claims : string := "{}".

(** [RequestContext::anonymous], [owner] and [authenticated]. *)
Definition anonymous : RequestContext :=
  {| role := Anon; action := AWrite; auth_id := ""; auth_email := ""; auth_collection_id := "";
     auth_collection_name := ""; auth_claims := empty_claims; connection_id := "" |}.
Definition owner : RequestContext :=
  {| role := Owner; action := AWrite; auth_id := ""; auth_email := ""; auth_collection_id := "";
     auth_collection_name := ""; auth_claims := empty_claims; connection_id := "" |}.
Definition authenticated (id email collection_id collection_name : string) : RequestContext :=
  {| role := Authenticated; action := AWrite; auth_id := id; auth_email := email;
     auth_collection_id := collection_id; auth_collection_name := collection_name;
     auth_claims := empty_claims; connection_id := "" |}.

(** [with_action]. *)
Definition with_action (c : RequestContext) (a : Action) : RequestContext :=
  {| role := role c; action := a; auth_id := auth_id c; auth_email := auth_email c;
     auth_collection_id := auth_collection_id c; auth_collection_name := auth_collection_name c;
     auth_claims := auth_claims c; connection_id := connection_id c |}.

(** A transaction's settings: [set_config(key, value, true)] sets one until
    the end of the transaction. The role is [None] for the session user. *)
Record Session := { session_role : option string; settings : gmap string string }.

(** [apply]. *)
Definition apply_context (s : Session) (c : RequestContext) : Session :=
  {| session_role := role_name (role c);
     settings :=
       <["request.auth.claims" := auth_claims c]> (<["request.action" := action_name (action c)]>
       (<["request.connection_id" := connection_id c]>
       (<["request.auth.collection_name" := auth_collection_name c]>
       (<["request.auth.collection_id" := auth_collection_id c]>
       (<["request.auth.email" := auth_email c]> (<["request.auth.id" := auth_id c]> (settings s))))))) |}.

(** [assume_owner]. *)
Definition assume_owner (s : Session) : Session :=
  {| session_role := None; settings := settings s |}.

(** * Policies *)

Definition ROLES : string := "lazypock_anon, lazypock_authenticated".
Definition REQUEST_ROLES : list string := ["lazypock_anon"; "lazypock_authenticated"].

(** [RULES]: key, policy, command and action guard. *)
Definition RULES : list (string * string * string * option string) :=
  [("listRule", "lazypock_list", "select", Some "list");
   ("viewRule", "lazypock_view", "select", Some "view");
   ("createRule", "lazypock_create", "insert", None);
   ("updateRule", "lazypock_update", "update", None);
   ("deleteRule", "lazypock_delete", "delete", None)].

Definition SELECT_MIRRORS : list (string * string * string) :=
  [("updateRule", "lazypock_update_select", "update");
   ("deleteRule", "lazypock_delete_select", "delete")].

Definition MANAGE_POLICY : string := "lazypock_manage".

(** [policy_names]. *)
Definition policy_names : list string :=
  ((λ '(_, name, _, _), name) <$> RULES) ++ ((λ '(_, name, _), name) <$> SELECT_MIRRORS)
  ++ [MANAGE_POLICY].

(** [enum Rule]. *)
Inductive Rule := RAbsent | RPublic | RFilter (e : Expr).

(** [rule_of]. *)
Definition rule_of (rules : Value) (key : string) : result Rule :=
  match get rules key with
  | None | Some JNull => Ok RAbsent
  | Some (JString text) =>
      if decide (trim text = "") then Ok RPublic else e ← parse text; Ok (RFilter e)
  | Some _ => Err Invalid
  end.

(** [predicate_of]. *)
Definition predicate_of (r : Rule) (ctx : FilterContext) : result (option string) :=
  match r with
  | RAbsent => Ok None
  | RPublic => Ok (Some "true")
  | RFilter e => Some <$> predicate e ctx
  end.

(** The [guarded] predicate of [policy_statement]. *)
Definition guarded (predicate : string) (guard : option string) : string :=
  match guard with
  | Some action => "current_setting('request.action', true) = '" +:+ action +:+ "' and (" +:+ predicate +:+ ")"
  | None => predicate
  end.

(** [policy_statement]. *)
Definition policy_statement (name table action predicate : string) (guard : option string) : string :=
  let name := quote_ident name in
  let guarded := guarded predicate guard in
  let head := "create policy " +:+ name +:+ " on " +:+ table +:+ " for " in
  if decide (action = "select") then head +:+ "select to " +:+ ROLES +:+ " using (" +:+ guarded +:+ ")"
  else if decide (action = "insert") then
    head +:+ "insert to " +:+ ROLES +:+ " with check (" +:+ predicate +:+ ")"
  else if decide (action = "update") then
    head +:+ "update to " +:+ ROLES +:+ " using (" +:+ predicate +:+ ") with check (" +:+ predicate +:+ ")"
  else if decide (action = "delete") then
    head +:+ "delete to " +:+ ROLES +:+ " using (" +:+ predicate +:+ ")"
  else head +:+ "all to " +:+ ROLES +:+ " using (" +:+ guarded +:+ ") with check (" +:+ guarded +:+ ")".

(** A policy [statements] creates: its name, command, predicate and guard. *)
Record PolicyDef := {
  pol_name : string;
  pol_action : string;
  pol_predicate : string;
  pol_guard : option string;
}.

(** One rule key: a policy unless the rule is absent. *)
Definition rule_policy (c : Collection) (ctx : FilterContext)
    (entry : string * string * string * option string) : result (list PolicyDef) :=
  let '(key, name, action, guard) := entry in
  r ← rule_of (rules c) key;
  p ← predicate_of r ctx;
  Ok (match p with
      | Some predicate => [{| pol_name := name; pol_action := action; pol_predicate := predicate;
                              pol_guard := guard |}]
      | None => []
      end).

(** The three loops of [statements], in their order. *)
Definition policy_entries : list (string * string * string * option string) :=
  [("manageRule", MANAGE_POLICY, "all", None)] ++ RULES
  ++ ((λ '(key, name, action), (key, name, "select", Some action)) <$> SELECT_MIRRORS).

Definition policies (c : Collection) (ctx : FilterContext) : result (list PolicyDef) :=
  (@concat PolicyDef) <$> try_map (rule_policy c ctx) policy_entries.

(** [statements]. *)
Definition statements (c : Collection) (ctx : FilterContext) : result (list string) :=
  let table := quote_ident (collection_name c) in
  ps ← policies c ctx;
  Ok (["alter table " +:+ table +:+ " enable row level security"]
      ++ ((λ name, "drop policy if exists " +:+ quote_ident name +:+ " on " +:+ table) <$> policy_names)
      ++ ((λ p, policy_statement (pol_name p) table (pol_action p) (pol_predicate p) (pol_guard p)) <$> ps)).

(** [clear]. *)
Definition clear (c : Collection) : list string :=
  let table := quote_ident (collection_name c) in
  ((λ name, "drop policy if exists " +:+ quote_ident name +:+ " on " +:+ table) <$> policy_names)
  ++ ["alter table " +:+ table +:+ " disable row level security"].

(** * What the policies allow

    PostgreSQL's documented rule, for a table with row-level security and
    permissive policies only: the owner is not subject to it; for the
    restricted roles a row is selected when some [select] or [all] policy
    holds for it, a write needs a policy of its command, and an [update] or
    [delete] also applies the [select] policies to the row it locates. *)
Section semantics.
Context (ps : list PolicyDef) (s : Session).

(** A predicate's value on a row in this session. *)
Definition Eval : Type := string → bool.

Definition restricted : bool := bool_decide (is_Some (session_role s)).

(** The text [guarded]: [current_setting] compared with the guard. *)
Definition guard_holds (guard : option string) : bool :=
  match guard with
  | Some action => bool_decide (settings s !! "request.action" = Some action)
  | None => true
  end.

(** Some policy of the command, or for all commands, holds. *)
Definition permits (command : string) (eval : Eval) : bool :=
  existsb (λ p,
    (bool_decide (pol_action p = "all") && guard_holds (pol_guard p)
     || bool_decide (pol_action p = command)
        && (negb (bool_decide (command = "select")) || guard_holds (pol_guard p)))
    && eval (pol_predicate p)) ps.

Definition may_select (row : Eval) : bool := negb restricted || permits "select" row.
Definition may_insert (row : Eval) : bool := negb restricted || permits "insert" row.
Definition may_update (old new : Eval) : bool :=
  negb restricted || permits "select" old && permits "update" old && permits "update" new.
Definition may_delete (row : Eval) : bool :=
  negb restricted || permits "select" row && permits "delete" row.
End semantics.

(** What a rule says of a row. *)
Definition rule_allows (c : Collection) (ctx : FilterContext) (eval : Eval) (key : string) : bool :=
  match r ← rule_of (rules c) key; predicate_of r ctx with
  | Ok (Some predicate) => eval predicate
  | _ => false
  end.

Lemma permits_app l1 l2 s command eval :
  permits (l1 ++ l2) s command eval = permits l1 s command eval || permits l2 s command eval.
Proof. apply existsb_app. Qed.

(** The contribution of one rule key. *)
Lemma permits_entry c ctx s command eval key name action guard ps :
  rule_policy c ctx (key, name, action, guard) = Ok ps →
  permits ps s command eval
  = (bool_decide (action = "all") && guard_holds s guard
     || bool_decide (action = command)
        && (negb (bool_decide (command = "select")) || guard_holds s guard))
    && rule_allows c ctx eval key.
Proof.
  unfold rule_policy, rule_allows. intros H.
  destruct (rule_of (rules c) key) as [r|]; cbn [mbind result_bind] in *; [|done].
  destruct (predicate_of r ctx) as [[p|]|]; cbn [mbind result_bind] in *; [| |done];
    injection H as <-; unfold permits; cbn [existsb pol_action pol_guard pol_predicate].
  - by rewrite orb_false_r.
  - by rewrite andb_false_r.
Qed.

(** The loops unrolled, over what the rules and the guards say. *)
Definition entries_permit (f : string → bool) (g : string → bool) (command : string) : bool :=
  existsb (λ '(key, _, action, guard),
    let h := match guard with Some a => g a | None => true end in
    (bool_decide (action = "all") && h
     || bool_decide (action = command) && (negb (bool_decide (command = "select")) || h))
    && f key) policy_entries.

Lemma entries_permit_select f g :
  entries_permit f g "select"
  = f "manageRule" || (g "list" && f "listRule") || (g "view" && f "viewRule")
    || (g "update" && f "updateRule") || (g "delete" && f "deleteRule").
Proof.
  vm_compute. destruct (f "manageRule"), (g "list"), (f "listRule"), (g "view"), (f "viewRule"),
    (g "update"), (f "updateRule"), (g "delete"), (f "deleteRule"); done.
Qed.

Lemma entries_permit_write f g :
  entries_permit f g "insert" = f "manageRule" || f "createRule"
  ∧ entries_permit f g "update" = f "manageRule" || f "updateRule"
  ∧ entries_permit f g "delete" = f "manageRule" || f "deleteRule".
Proof.
  vm_compute. split_and!;
    destruct (f "manageRule"), (f "createRule"), (f "updateRule"), (f "deleteRule"); done.
Qed.

Lemma policies_permits c ctx ps s command eval :
  policies c ctx = Ok ps →
  permits ps s command eval
  = entries_permit (rule_allows c ctx eval) (λ a, guard_holds s (Some a)) command.
Proof.
  unfold policies, entries_permit. intros H. apply fmap_Ok in H as (pss & H & ->).
  apply try_map_Ok in H.
  induction H as [|[[[key name] action] guard] p l pss Hp Hl IH]; [done|].
  cbn [concat existsb]. rewrite permits_app, IH. f_equal.
  rewrite (permits_entry _ _ _ _ _ _ _ _ _ _ Hp). by destruct guard.
Qed.

(** Evaluates the comparisons of literal names. *)
Ltac compute_names :=
  repeat match goal with |- context [bool_decide (@eq string ?a ?b)] =>
    let v := eval vm_compute in (bool_decide (a = b)) in
    change (bool_decide (a = b)) with v
  end.

(** C7. what a request may do is what the rule of its action says. Whatever
    settings the connection had before, once the context is applied: the
    owner is not restricted; for the other roles a row is read under [list]
    by [listRule] alone and under [view] by [viewRule] alone, so neither rule
    widens the other; an update or delete is allowed exactly for the rows its
    own rule allows, the new row included; a create by [createRule]; every
    action also by [manageRule]; and under the default action nothing but
    [manageRule] reads a row. An absent rule allows nothing. *)
Theorem request_allowed_by_its_rule c ctx ps before rc (row old new : Eval) :
  policies c ctx = Ok ps →
  let s := apply_context before rc in
  let allows eval key := rule_allows c ctx eval key || rule_allows c ctx eval "manageRule" in
  match role rc with
  | Owner => may_select ps s row = true ∧ may_insert ps s row = true
      ∧ may_update ps s old new = true ∧ may_delete ps s row = true
  | _ =>
      may_select ps s row = match action rc with
        | AList => allows row "listRule"
        | AView => allows row "viewRule"
        | AUpdate => allows row "updateRule"
        | ADelete => allows row "deleteRule"
        | AWrite => rule_allows c ctx row "manageRule"
        end
      ∧ may_insert ps s row = allows row "createRule"
      ∧ (action rc = AUpdate → may_update ps s old new = allows old "updateRule" && allows new "updateRule")
      ∧ (action rc = ADelete → may_delete ps s row = allows row "deleteRule")
  end.
Proof.
  intros Hps s allows.
  assert (restricted s = match role rc with Owner => false | _ => true end) as Hr
    by (unfold restricted, s, apply_context; cbn [session_role]; by destruct (role rc)).
  assert (∀ a, guard_holds s (Some a) = bool_decide (action_name (action rc) = a)) as Hg.
  { intros a. unfold guard_holds, s, apply_context. cbn [settings].
    rewrite lookup_insert_ne, lookup_insert_eq by done.
    destruct (decide (action_name (action rc) = a)) as [->|Hne].
    - by rewrite !bool_decide_true.
    - rewrite !bool_decide_false; congruence. }
  unfold may_select, may_insert, may_update, may_delete. rewrite Hr.
  subst allows. cbv beta. rewrite !(policies_permits _ _ _ _ _ _ Hps), !entries_permit_select.
  cbv beta. rewrite !Hg.
  pose proof (λ eval, entries_permit_write (rule_allows c ctx eval) (λ a, guard_holds s (Some a))) as Hw.
  rewrite !(proj1 (Hw _)), !(proj1 (proj2 (Hw _))), !(proj2 (proj2 (Hw _))).
  destruct (role rc); [done|..]; destruct (action rc); cbn [action_name]; compute_names;
    cbn [negb andb orb]; split_and!; intros; try done;
    rewrite ?andb_true_r, ?andb_false_l, ?orb_false_r, ?orb_false_l;
    repeat match goal with |- context [rule_allows c ctx ?e ?k] =>
      destruct (rule_allows c ctx e k) end; done.
Qed.

(** * The statements' text *)

Definition statement_name (c : Collection) (ctx : FilterContext) (x : string) : Prop :=
  x = collection_name c ∨ x ∈ policy_names ∨ has_column ctx x = true.

Definition statement_literal (c : Collection) (v : string) : Prop :=
  v ∈ ["%"; "\"; "email"; "request.action"; "list"; "view"; "update"; "delete"]
  ∨ ∃ key e, rule_of (rules c) key = Ok (RFilter e) ∧ rule_literal e v.

Lemma predicate_of_part c ctx key r pred :
  rule_of (rules c) key = Ok r → predicate_of r ctx = Ok (Some pred) →
  ∀ p, part (statement_name c ctx) (statement_literal c) p pred p.
Proof.
  intros Hr Hp p. destruct r as [| |e]; cbn in Hp; [done|injection Hp as <-; by apply part_bare|].
  pose proof (predicate_spec e ctx) as Hs. destruct (predicate e ctx) as [s|]; [|done].
  injection Hp as <-. eapply part_mono; [| |apply Hs].
  - intros x Hx. right. by right.
  - intros v [Hv|Hv]; [left|right; by exists key, e].
    rewrite !elem_of_cons in *. naive_solver.
Qed.

Lemma policy_statement_part P Q name t action pred guard p :
  P name → P t → (∀ p, part P Q p pred p) → Q "request.action" →
  (∀ a, guard = Some a → Q a ∧ str_forall (λ c, negb (bool_decide (c = tick_char))) a = true) →
  part P Q p (policy_statement name (quote_ident t) action pred guard) p.
Proof.
  intros Hn Ht Hp Hr Hg.
  assert (∀ p, part P Q p (guarded pred guard) p) as Hguarded.
  { clear p. intros p. destruct guard as [a|]; cbn [guarded]; [|done].
    destruct (Hg a eq_refl) as [HQ Ha].
    assert (∀ p, part P Q p (sql_literal a) p) as Hl by (intros; by apply sql_literal_part).
    assert (sql_literal a = "'" +:+ a +:+ "'") as He.
    { unfold sql_literal. f_equal. f_equal. clear -Ha. induction a as [|c a IH]; [done|].
      cbn in *. apply andb_true_iff in Ha as [Hc Ha].
      apply negb_true_iff, bool_decide_eq_false in Hc. rewrite decide_False by done.
      rewrite str_app_cons, str_app_nil_l. by rewrite IH. }
    rewrite He in Hl. clear He.
    change ("current_setting('request.action', true) = '" +:+ a +:+ "' and (" +:+ pred +:+ ")")
      with ("current_setting('request.action', true) = " +:+ "'" +:+ a +:+ "' and (" +:+ pred +:+ ")").
    assert ("'" +:+ a +:+ "' and (" +:+ pred +:+ ")" = ("'" +:+ a +:+ "'") +:+ (" and (" +:+ pred +:+ ")")) as ->
      by (rewrite <-!str_app_assoc; reflexivity).
    revert Hl. generalize ("'" +:+ a +:+ "'"). intros lit Hl. part_solve. }
  unfold policy_statement, ROLES. clear Hg. revert Hguarded. generalize (guarded pred guard).
  intros g Hguarded. cbv zeta. rewrite <-!str_app_assoc.
  repeat case_decide; part_solve.
Qed.

Lemma drop_policy_part P Q name t p :
  P name → P t →
  part P Q p ("drop policy if exists " +:+ quote_ident name +:+ " on " +:+ quote_ident t) p.
Proof. intros. part_solve. Qed.

Lemma policies_parts c ctx ps :
  policies c ctx = Ok ps →
  Forall (λ d, pol_name d ∈ policy_names
    ∧ (∀ p, part (statement_name c ctx) (statement_literal c) p (pol_predicate d) p)
    ∧ ∀ a, pol_guard d = Some a → a ∈ ["list"; "view"; "update"; "delete"]) ps.
Proof.
  unfold policies. intros H. apply fmap_Ok in H as (pss & H & ->). apply try_map_Ok in H.
  apply Forall_concat.
  assert (∀ key name action guard, (key, name, action, guard) ∈ policy_entries →
    name ∈ policy_names ∧ ∀ a, guard = Some a → a ∈ ["list"; "view"; "update"; "delete"]) as He.
  { intros key name action guard Hin. unfold policy_entries in Hin. cbn in Hin.
    rewrite !elem_of_cons, elem_of_nil in Hin.
    destruct_or? Hin; try done; injection Hin as -> -> -> ->;
      (split; [unfold policy_names; cbn; rewrite !elem_of_cons; tauto|]);
      intros a [= <-]; rewrite !elem_of_cons; tauto. }
  revert He H. generalize policy_entries. intros l He H.
  induction H as [|[[[key name] action] guard] ds l pss Hd Hl IH]; [constructor|].
  constructor; [|apply IH; intros ???? Hin; eapply He; by right].
  destruct (He key name action guard) as [Hname Hguard]; [by left|].
  unfold rule_policy in Hd. apply bind_Ok in Hd as (r & Hr & Hd).
  apply bind_Ok in Hd as (pred & Hpred & Hd). injection Hd as <-.
  destruct pred as [pred|]; [|constructor]. apply Forall_singleton. cbn.
  split; [done|]. split; [|done]. by eapply predicate_of_part.
Qed.

(** the statements that install a collection's policies are text that
    the rules cannot open: each scans to the end without placeholders, names
    only the table, the managed policies and columns of the collection, and
    has only the actions, the compiler's constants and constants of the
    collection's own rules. *)
Theorem policy_statements_scan c ctx ss :
  statements c ctx = Ok ss →
  Forall (λ s, ∃ ts, lexemes s = Some ts ∧ lexeme_params ts = []
    ∧ Forall (statement_name c ctx) (lexeme_idents ts)
    ∧ Forall (statement_literal c) (lexeme_literals ts)) ss.
Proof.
  unfold statements. cbv zeta. intros H. apply bind_Ok in H as (ps & Hps & H).
  apply Ok_inj in H as <-.
  apply policies_parts in Hps.
  assert (statement_name c ctx (collection_name c)) as Ht by by left.
  assert (∀ s, part (statement_name c ctx) (statement_literal c) [] s [] →
    ∃ ts, lexemes s = Some ts ∧ lexeme_params ts = []
      ∧ Forall (statement_name c ctx) (lexeme_idents ts)
      ∧ Forall (statement_literal c) (lexeme_literals ts)) as Hfin.
  { intros s Hs. apply part_statement in Hs as (ts & ?). by exists ts. }
  rewrite !Forall_app, Forall_singleton. split; [apply Hfin; part_solve|]. split.
  - apply Forall_fmap, Forall_forall. intros name Hname. apply Hfin, drop_policy_part; [|done].
    by right; left.
  - apply Forall_fmap. eapply Forall_impl; [exact Hps|]. intros d (Hname & Hpart & Hguard).
    apply Hfin, policy_statement_part; [by right; left|done|done| |].
    + left. rewrite !elem_of_cons. tauto.
    + intros a Ha%Hguard. rewrite !elem_of_cons, elem_of_nil in Ha. split; [left; set_solver|].
      destruct_or? Ha; by subst.
Qed.

(** * Concrete inputs *)

Definition sample_ruled : Collection :=
  {| collection_id := "p"; collection_name := "posts"; collection_type := CBase;
     collection_options := JObject [];
     rules := JObject [("listRule", JString "title = 'it\'s' || author = @request.auth.id");
                       ("viewRule", JString ""); ("updateRule", JString "title = 'mine'")];
     fields := fields sample_posts |}.

Definition sample_policies : list PolicyDef :=
  match policies sample_ruled sample_context with Ok ps => ps | Err _ => [] end.

Definition sample_request : RequestContext := with_action anonymous AList.

Lemma request_allowed_by_its_rule_witness :
  let s := apply_context {| session_role := None; settings := {["request.action" := "view"]} |} sample_request in
  let allows eval key :=
    rule_allows sample_ruled sample_context eval key || rule_allows sample_ruled sample_context eval "manageRule" in
  length sample_policies = 4
  ∧ may_select sample_policies s (λ p, bool_decide (p = "true"))
    = allows (λ p, bool_decide (p = "true")) "listRule".
Proof.
  intros s allows. split; [vm_compute; reflexivity|].
  assert (policies sample_ruled sample_context = Ok sample_policies) as Hps by (vm_compute; reflexivity).
  destruct (request_allowed_by_its_rule sample_ruled sample_context sample_policies
    {| session_role := None; settings := {["request.action" := "view"]} |} sample_request
    (λ p, bool_decide (p = "true")) (λ _, true) (λ _, true) Hps) as [H _].
  exact H.
Defined.

Lemma policy_statements_scan_witness :
  ∃ ss, statements sample_ruled sample_context = Ok ss
  ∧ Forall (λ s, ∃ ts, lexemes s = Some ts ∧ lexeme_params ts = []
    ∧ Forall (statement_name sample_ruled sample_context) (lexeme_idents ts)
    ∧ Forall (statement_literal sample_ruled) (lexeme_literals ts)) ss.
Proof.
  eexists. split; [vm_compute; reflexivity|].
  apply (policy_statements_scan sample_ruled sample_context). vm_compute. reflexivity.
Defined.
