(* ===== verification/DdlSpec.v ===== *)
(** What the schema statements promise: a validated collection has a table
    statement, its columns are distinct, its defaults fit their columns, and
    nothing a field holds becomes SQL. *)
From S2P Require Import Prelude CoreError F64 Json Types Sql Ddl.
From S2P Require Import Compile CompileSpec Samples Policy.

Local Set Warnings "-register-all".

Section spec.
Context `{JsonText}.

(** * Names *)

(** What [validate_identifier] lets through. *)
Definition identifier_ok (name : string) : bool :=
  match name with
  | EmptyString => false
  | String c r =>
      is_ascii_lowercase c
      && str_forall (λ c, is_ascii_alphanumeric c || bool_decide (c = "_"%char)) r
      && (String.length name <=? MAX_IDENTIFIER_LEN)
  end.

Lemma str_exists_forall p s : str_exists p s = negb (str_forall (λ c, negb (p c)) s).
Proof. done. Qed.

Lemma str_forall_ext (p q : ascii → bool) s : (∀ c, p c = q c) → str_forall p s = str_forall q s.
Proof. intros Hpq. induction s as [|c s IH]; cbn; [done|]. by rewrite Hpq, IH. Qed.

Lemma validate_identifier_spec name :
  validate_identifier name = if identifier_ok name then Ok () else Err Invalid.
Proof.
  unfold validate_identifier, identifier_ok. destruct name as [|c r]; [done|].
  rewrite decide_False by done. rewrite str_exists_forall.
  rewrite (str_forall_ext _ (λ c, is_ascii_alphanumeric c || bool_decide (c = "_"%char)))
    by (intros; by rewrite negb_involutive).
  destruct (decide (MAX_IDENTIFIER_LEN < String.length (String c r))%nat) as [Hl|Hl].
  { rewrite (proj2 (Nat.leb_gt _ _)) by lia. by rewrite andb_false_r. }
  rewrite (proj2 (Nat.leb_le _ _)) by lia. rewrite andb_true_r.
  destruct (is_ascii_lowercase c) eqn:Hc; cbn [andb negb].
  - assert (starts_with "_" (String c r) = false) as ->.
    { unfold starts_with. cbn. case_decide as Hu; [subst; done|done]. }
    cbn [str_forall]. assert (is_ascii_alphanumeric c = true) as -> by (revert Hc; by_bytes c).
    cbn [orb andb negb]. by destruct (str_forall _ r).
  - by destruct (starts_with _ _).
Qed.

Lemma validate_fields_spec seen t fs :
  validate_fields seen t fs = Ok () →
  NoDup (field_name <$> fs)
  ∧ Forall (λ f, field_name f ∉ seen ∧ field_validate f t = Ok ()) fs.
Proof.
  revert seen. induction fs as [|f fs IH]; intros seen Hv; cbn in Hv; [split; constructor|].
  case_decide as Hs; [done|]. apply bind_Ok in Hv as ([] & Hf & Hv).
  destruct (IH _ Hv) as [Hnd Hall]. cbn. split.
  - constructor; [|done]. intros Hin. apply list_elem_of_fmap in Hin as (g & Hg & Hin).
    rewrite Forall_forall in Hall. destruct (Hall _ Hin) as [Hn _]. rewrite <-Hg in Hn. set_solver.
  - constructor; [done|]. eapply Forall_impl; [exact Hall|]. intros g [Hg ?]. split; [set_solver|done].
Qed.

(** * Columns and defaults *)

Lemma field_validate_spec f t :
  field_validate f t = Ok () →
  identifier_ok (field_name f) = true ∧ field_name f ∉ SYSTEM_COLUMNS
  ∧ (t = CAuth → field_name f ∉ AUTH_SYSTEM_COLUMNS)
  ∧ validate_options (field_type f) (field_options f) = Ok ().
Proof.
  unfold field_validate, validate_field_name. intros Hv.
  apply bind_Ok in Hv as ([] & Hn & Hv). apply bind_Ok in Hn as ([] & Hi & Hn).
  rewrite validate_identifier_spec in Hi.
  destruct (identifier_ok (field_name f)); [|done].
  destruct (decide (field_name f ∈ SYSTEM_COLUMNS)); [done|].
  destruct (decide (t = CAuth ∧ field_name f ∈ AUTH_SYSTEM_COLUMNS)) as [|Ha]; [done|].
  destruct (decide (field_type f = FPassword)); [done|]. split_and!; try done. naive_solver.
Qed.

Lemma validate_options_default t o :
  validate_options t o = Ok () → (∃ d, default_sql t o = Ok d) ∧ (t = FRelation → is_Some (relation_target o)).
Proof.
  unfold validate_options. destruct (as_object o); [|done]. intros Hv.
  apply bind_Ok in Hv as ([] & _ & Hv). apply bind_Ok in Hv as ([] & _ & Hv).
  apply bind_Ok in Hv as ([] & _ & Hv). apply bind_Ok in Hv as ([] & Hr & Hv).
  apply bind_Ok in Hv as ([] & _ & Hv). apply bind_Ok in Hv as ([] & _ & Hv).
  apply bind_Ok in Hv as (d & Hd & _). split; [by exists d|].
  intros ->. case_decide as Hn; [done|]. destruct (relation_target o); [by eexists|].
  by exfalso; apply Hn.
Qed.

Lemma column_type_total t o : validate_options t o = Ok () → ∃ ty, column_type t o = Ok ty.
Proof. intros Hv. unfold column_type. rewrite Hv. by eexists. Qed.

(** The columns a table statement creates, in order. *)
Definition table_columns (c : Collection) : list string :=
  SYSTEM_COLUMNS
  ++ (if decide (collection_type c = CAuth) then auth_system_column_definitions.*1 else [])
  ++ (field_name <$> fields c).

(** The constants a field's default can put in a statement: the configured
    text, the JSON text of the configured value, or an empty value. *)
Definition default_literal (options : Value) (v : string) : Prop :=
  get options "default" = Some (JString v)
  ∨ (∃ w, get options "default" = Some w ∧ v = json_text w)
  ∨ v ∈ [""; "{}"; "[]"].

(** The type a default is written with. *)
Definition default_cast (t : FieldType) (options : Value) : string :=
  match t with
  | FNumber => if option_bool options "onlyInt" then "bigint" else "double precision"
  | FBool => "boolean"
  | FDate | FAutodate => "timestamptz"
  | FJson | FGeoPoint => "jsonb"
  | _ => "text"
  end.

Lemma default_sql_shape P t o d :
  default_sql t o = Ok (Some d) →
  t ≠ FRelation ∧ (t = FSelect → is_multiple o = false)
  ∧ ∃ lit, d = lit +:+ "::" +:+ default_cast t o ∧ ∀ p, part P (default_literal o) p lit p.
Proof.
  unfold default_sql. destruct (option_bool o "reflected"); [done|].
  destruct (has_option o "default") eqn:Hd; [|done]. cbv zeta.
  assert (∃ v, get o "default" = Some v) as [v Hv]
    by (unfold has_option in Hd; destruct (get o "default"); [by eexists|done]).
  rewrite Hv. cbn [default].
  assert (∀ text, as_str v = Some text → ∀ p, part P (default_literal o) p (sql_literal text) p) as Htext.
  { intros text Ht p. destruct v; try done. injection Ht as ->. apply sql_literal_part. by left. }
  destruct t; cbn [default_cast]; intros Hd'.
  1-4,7,9,13,14: apply bind_Ok in Hd' as (text & Ht%ok_or_Ok & [= <-]); split_and!; [done..|];
    exists (sql_literal text); split; [done|by apply Htext].
  - apply bind_Ok in Hd' as (n & Hn & Hd'). split_and!; [done..|].
    exists (f64_to_string n). destruct (option_bool o "onlyInt"); cbn [andb] in Hd'.
    + destruct (f64_has_fract n); [done|]. injection Hd' as <-. split; [done|apply f64_part].
    + injection Hd' as <-. split; [done|apply f64_part].
  - apply bind_Ok in Hd' as (b & Hb & [= <-]). split_and!; [done..|]. exists (bool_str b).
    split; [done|]. intros p. by apply part_bare; destruct b.
  - destruct (is_multiple o); [done|]. apply bind_Ok in Hd' as (text & Ht%ok_or_Ok & Hd').
    case_decide; [|done]. injection Hd' as <-. split_and!; [done..|].
    exists (sql_literal text). split; [done|by apply Htext].
  - done.
  - injection Hd' as <-. split_and!; [done..|]. exists (sql_literal (json_text v)). split; [done|].
    intros p. apply sql_literal_part. right. left. by exists v.
  - injection Hd' as <-. split_and!; [done..|]. exists (sql_literal (json_text v)). split; [done|].
    intros p. apply sql_literal_part. right. left. by exists v.
Qed.

Lemma column_type_bare t o ty : column_type t o = Ok ty → bare ty = true ∧ is_known_column_type ty = true.
Proof.
  unfold column_type. intros H1. apply bind_Ok in H1 as ([] & _ & [= <-]).
  destruct t; try done; by repeat case_match.
Qed.

(** The names a field's column definition can hold. *)
Definition column_name (resolve_table : string → option string) (f : Field) (x : string) : Prop :=
  x = field_name f ∨ x = "id" ∨ ∃ id, resolve_table id = Some x.

Lemma column_definition_part f resolve_table s p :
  column_definition f resolve_table = Ok s →
  part (column_name resolve_table f) (default_literal (field_options f)) p s p.
Proof.
  unfold column_definition. intros Hc. apply bind_Ok in Hc as (ty & Hty & Hc).
  apply bind_Ok in Hc as (d & Hd & Hc). cbv zeta in Hc.
  assert (bare ty = true) as Hb by (unfold field_column_type in Hty; by eapply column_type_bare).
  set (P := column_name resolve_table f) in *. set (Q := default_literal (field_options f)) in *.
  assert (P (field_name f)) as Hn by by left. assert (P "id") as Hid by by (right; left).
  assert (∀ p, part P Q p (match d with Some d => " default " +:+ d | None => "" end) p) as Hdef.
  { intros p'. destruct d as [d|]; [|by apply part_bare].
    apply (default_sql_shape P) in Hd as (_ & _ & lit & -> & Hl).
    apply part_bare_app; [done|].
    eapply part_app; [apply Hl| |done|done]. apply part_bare_app; [done|].
    apply part_bare. unfold default_cast. by repeat case_match. }
  assert (∀ p s2, (∀ p, part P Q p s2 p) → plain_start s2 = true →
    part P Q p (quote_ident (field_name f) +:+ " " +:+ ty
      +:+ (match d with Some d => " default " +:+ d | None => "" end) +:+ s2) p) as Hdefn.
  { intros p' s2 Hs2 Hp2. eapply part_app; [by apply quote_ident_part| |done|done].
    apply part_bare_app; [done|]. apply part_bare_app; [done|].
    destruct (decide (s2 = "")) as [->|Hne]; [rewrite str_app_nil_r; apply Hdef|].
    eapply part_app; [apply Hdef|apply Hs2|done|done]. }
  clear Hdef. set (nn := if required f then " not null" else "") in *.
  assert (∀ p, part P Q p nn p) as Hnn by (intros p'; apply part_bare; subst nn; by destruct (required f)).
  assert (plain_start nn = true) as Hnn2 by (subst nn; by destruct (required f)).
  destruct (decide (field_type f = FRelation)); [|injection Hc as <-; by apply Hdefn].
  destruct (field_is_multiple f); [injection Hc as <-; by apply Hdefn|].
  apply bind_Ok in Hc as (tid & Ht & Hc). apply bind_Ok in Hc as (target & Htarget%ok_or_Ok & Hc).
  injection Hc as <-. assert (P target) as Hpt by (right; right; by eexists).
  clearbody P Q. rewrite <-!str_app_assoc. apply Hdefn; [|subst nn; by destruct (required f)].
  clear Hdefn. intros p'. eapply part_app; [apply Hnn| |done|done].
  destruct (option_bool (field_options f) "cascadeDelete"); part_solve.
Qed.

Lemma system_columns_part P Q p :
  P "id" → P "created" → P "updated" →
  Forall (λ s, part P Q p s p)
    [quote_ident "id" +:+ " text primary key";
     quote_ident "created" +:+ " timestamptz not null default now()";
     quote_ident "updated" +:+ " timestamptz not null default now()"].
Proof. intros. repeat constructor; part_solve. Qed.

Lemma auth_columns_part P Q p :
  Forall P auth_system_column_definitions.*1 →
  Forall (λ s, part P Q p s p)
    ((λ '(name, definition), quote_ident name +:+ " " +:+ definition) <$> auth_system_column_definitions).
Proof. cbn. rewrite !Forall_cons. intros (? & ? & ? & ? & ? & _). repeat constructor; part_solve. Qed.

Lemma create_table_builds c resolve_table :
  collection_validate c = Ok () → collection_type c ≠ CView →
  (∀ f id, f ∈ fields c → relation_target (field_options f) = Some id → is_Some (resolve_table id)) →
  ∃ s, create_table_statement c resolve_table = Ok s.
Proof.
  unfold collection_validate, create_table_statement. intros Hv Ht Hres.
  apply bind_Ok in Hv as ([] & -> & Hv). apply bind_Ok in Hv as ([] & _ & Hv).
  apply validate_fields_spec in Hv as [_ Hv]. cbn [mbind result_bind].
  rewrite decide_False by done.
  assert (∃ ss, try_map (λ f, column_definition f resolve_table) (fields c) = Ok ss) as [ss ->]; [|by eexists].
  revert Hres. induction Hv as [|f fs [_ Hf] Hfs IH]; intros Hres; [by eexists|]. cbn [try_map].
  destruct IH as [ss Hss]; [intros g id Hg; apply Hres; by right|].
  assert (∃ s, column_definition f resolve_table = Ok s) as [s ->];
    [|cbn [mbind result_bind]; rewrite Hss; by eexists].
  apply field_validate_spec in Hf as (_ & _ & _ & Ho).
  destruct (column_type_total _ _ Ho) as [ty Hty].
  destruct (validate_options_default _ _ Ho) as [[d Hd] Hrel].
  unfold column_definition, field_column_type. rewrite Hty. cbn [mbind result_bind]. rewrite Hd.
  cbn [mbind result_bind].
  destruct (decide (field_type f = FRelation)) as [Hr|]; [|by eexists].
  destruct (field_is_multiple f); [by eexists|].
  destruct (Hrel Hr) as [id Hid]. rewrite Hid. cbn [ok_or mbind result_bind].
  destruct (Hres f id) as [t ->]; [by left|done|]. by eexists.
Qed.

Lemma table_columns_distinct c : collection_validate c = Ok () → NoDup (table_columns c).
Proof.
  unfold collection_validate. intros Hv.
  apply bind_Ok in Hv as ([] & _ & Hv). apply bind_Ok in Hv as ([] & _ & Hv).
  apply validate_fields_spec in Hv as [Hnd Hall].
  assert (∀ x, x ∈ field_name <$> fields c → x ∉ SYSTEM_COLUMNS
    ∧ (collection_type c = CAuth → x ∉ AUTH_SYSTEM_COLUMNS)) as Hx.
  { intros x Hin. apply list_elem_of_fmap in Hin as (f & -> & Hin).
    rewrite Forall_forall in Hall. destruct (Hall _ Hin) as [_ Hf].
    apply field_validate_spec in Hf as (_ & Hs & Ha & _). done. }
  unfold table_columns. rewrite !NoDup_app. split_and!.
  - by apply (bool_decide_unpack _).
  - intros x Hs Hin. apply elem_of_app in Hin as [Hin|Hin]; [|by apply Hx in Hin as [? _]].
    case_decide; [|by apply elem_of_nil in Hin].
    assert (Forall (λ x, x ∉ auth_system_column_definitions.*1) SYSTEM_COLUMNS) as Hd
      by by apply (bool_decide_unpack _).
    rewrite Forall_forall in Hd. by apply (Hd x).
  - case_decide; [by apply (bool_decide_unpack _)|constructor].
  - intros x Ha Hin. apply Hx in Hin as [_ Hin]. case_decide as Hauth; [|by apply elem_of_nil in Ha].
    assert (Forall (λ x, x ∈ AUTH_SYSTEM_COLUMNS) auth_system_column_definitions.*1) as Hd
      by by apply (bool_decide_unpack _).
    rewrite Forall_forall in Hd. by apply (Hin Hauth), Hd.
  - done.
Qed.

Lemma create_table_part c resolve_table s p :
  create_table_statement c resolve_table = Ok s →
  part (λ x, x = collection_name c ∨ x ∈ table_columns c ∨ ∃ id, resolve_table id = Some x)
    (λ v, ∃ f, f ∈ fields c ∧ default_literal (field_options f) v) p s p.
Proof.
  unfold create_table_statement. intros Hc. apply bind_Ok in Hc as ([] & _ & Hc).
  destruct (decide (collection_type c = CView)); [done|]. cbv zeta in Hc.
  apply bind_Ok in Hc as (cols & Hcols & Hc). apply Ok_inj in Hc as <-.
  set (P := λ x, _). set (Q := λ v, _).
  assert (P (collection_name c)) as Hname by by left.
  assert (∀ x, x ∈ SYSTEM_COLUMNS → P x) as Hsys
    by (intros x Hx; right; left; unfold table_columns; rewrite !elem_of_app; auto).
  assert (P "id" ∧ P "created" ∧ P "updated") as (Hid & Hcr & Hup)
    by (split_and!; apply Hsys; by apply (bool_decide_unpack _)).
  assert (Forall (inert P Q) cols) as Hinert.
  { apply try_map_Ok in Hcols. assert (∀ f, f ∈ fields c → f ∈ fields c) as Hsub by done.
    revert Hsub Hcols. generalize (fields c) at 1 3. intros l Hsub Hcols.
    induction Hcols as [|f s l cols Hf Hl IH]; [constructor|]. constructor.
    - intros p'. eapply part_mono; [| |by apply column_definition_part].
      + intros x [->|[->|Hx]]; [|done|by right; right].
        right; left. unfold table_columns. rewrite !elem_of_app. right; right.
        apply list_elem_of_fmap. exists f. split; [done|]. apply Hsub. by left.
      + intros v Hv. exists f. split; [apply Hsub; by left|done].
    - apply IH. intros g Hg. apply Hsub. by right. }
  assert (Forall (inert P Q) (if decide (collection_type c = CAuth)
    then (λ '(name, definition), quote_ident name +:+ " " +:+ definition) <$> auth_system_column_definitions
    else [])) as Hauth.
  { case_decide as Ha; [|constructor].
    assert (Forall P auth_system_column_definitions.*1) as Hp.
    { apply Forall_forall. intros x Hx. right; left. unfold table_columns.
      rewrite decide_True by done. rewrite !elem_of_app. auto. }
    apply Forall_forall. intros x Hx p'. pose proof (auth_columns_part P Q p' Hp) as Hall.
    rewrite Forall_forall in Hall. by apply Hall. }
  match goal with |- context [join ?sep ?l] =>
    assert (inert P Q (join sep l)) as Hall by (apply inert_join; [done..|];
      rewrite !Forall_app; split_and!; [|done|done];
      repeat apply Forall_cons_2; try apply Forall_nil_2; intros p'; part_solve);
    revert Hall; generalize (join sep l) end.
  unfold inert. intros body Hall. clearbody P Q. part_solve.
Qed.

(** a validated collection has a table. The statement builds as soon as
    the relation targets resolve; it scans to the end without placeholders;
    its names are the table, the built-in columns, the declared fields, in
    which no column appears twice, and the resolved targets; its string
    constants are the configured defaults, read back exactly. *)
Theorem validated_collection_creates c resolve_table :
  collection_validate c = Ok () → collection_type c ≠ CView →
  (∀ f id, f ∈ fields c → relation_target (field_options f) = Some id → is_Some (resolve_table id)) →
  NoDup (table_columns c)
  ∧ ∃ s ts, create_table_statement c resolve_table = Ok s ∧ lexemes s = Some ts ∧ lexeme_params ts = []
    ∧ Forall (λ x, x = collection_name c ∨ x ∈ table_columns c ∨ ∃ id, resolve_table id = Some x)
        (lexeme_idents ts)
    ∧ Forall (λ v, ∃ f, f ∈ fields c ∧ default_literal (field_options f) v) (lexeme_literals ts).
Proof.
  intros Hv Ht Hres. split; [by apply table_columns_distinct|].
  destruct (create_table_builds c resolve_table Hv Ht Hres) as [s Hs].
  pose proof (create_table_part c resolve_table s [] Hs) as Hp.
  apply part_statement in Hp as (ts & ?). by exists s, ts.
Qed.

(** a configured default is written with the type of its column, except
    for a file field that holds several files: its column is [jsonb] and its
    default is written as [text]. *)
Theorem default_fits_column t o ty d :
  column_type t o = Ok ty → default_sql t o = Ok (Some d) →
  ∃ lit, d = lit +:+ "::" +:+ (if decide (t = FFile ∧ is_multiple o = true) then "text" else ty).
Proof.
  intros Hty Hd. apply (default_sql_shape (λ _, True)) in Hd as (Hrel & Hsel & lit & -> & _).
  exists lit. do 2 f_equal. unfold column_type in Hty. apply bind_Ok in Hty as ([] & _ & [= <-]).
  destruct t; cbn [default_cast]; try (rewrite decide_False by naive_solver; done).
  - rewrite decide_False by naive_solver. by rewrite Hsel.
  - destruct (is_multiple o) eqn:Hm; [by rewrite decide_True|by rewrite decide_False by naive_solver].
Qed.

(** adding a required column to a table that has rows never leaves the
    zero value behind as a default: the statements add the column as not
    null, with the configured default or with a zero value that the second
    statement drops; a required single relation is refused, since it has no
    zero value. *)
Theorem add_required_column table f ss :
  add_column_statements table f = Ok ss → required f = true →
  let add d := "alter table " +:+ quote_ident table +:+ " add column " +:+ quote_ident (field_name f)
    +:+ " " +:+ default "" (match field_column_type f with Ok ty => Some ty | Err _ => None end)
    +:+ " not null default " +:+ d in
  (∃ d, default_sql (field_type f) (field_options f) = Ok (Some d) ∧ ss = [add d])
  ∨ (∃ zero, default_sql (field_type f) (field_options f) = Ok None
     ∧ zero_default (field_type f) (field_options f) = Some zero
     ∧ (field_type f = FRelation → field_is_multiple f = true)
     ∧ ss = [add zero;
             "alter table " +:+ quote_ident table +:+ " alter column " +:+ quote_ident (field_name f)
               +:+ " drop default"]).
Proof.
  unfold add_column_statements. intros Ha Hr. apply bind_Ok in Ha as ([] & _ & Ha).
  apply bind_Ok in Ha as (ty & Hty & Ha). apply bind_Ok in Ha as (d & Hd & Ha).
  rewrite Hr in Ha. rewrite Hty. cbn [negb default] in *. cbv zeta in Ha |- *.
  destruct d as [d|].
  - left. exists d. split; [done|]. apply Ok_inj in Ha as <-. by rewrite <-!str_app_assoc.
  - right. destruct (zero_default _ _) as [zero|] eqn:Hz; [|done]. exists zero.
    split_and!; [done|done| |apply Ok_inj in Ha as <-; by rewrite <-!str_app_assoc].
    intros Hrel. rewrite Hrel in Hz. cbn in Hz. unfold field_is_multiple.
    by destruct (is_multiple (field_options f)).
Qed.
End spec.

(** * Concrete inputs *)

Definition sample_defaults : Collection :=
  {| collection_id := "n"; collection_name := "notes"; collection_type := CAuth;
     collection_options := JObject []; rules := JObject [];
     fields := [sample_field "body" FText (JObject [("default", JString "it's; drop table x --")]);
                sample_field "post" FRelation (JObject [("collectionId", JString "p")])] |}.

Lemma validated_collection_creates_witness :
  NoDup (table_columns sample_defaults)
  ∧ ∃ s ts, @create_table_statement sample_json_text sample_defaults (λ _, Some "posts") = Ok s
    ∧ lexemes s = Some ts ∧ lexeme_params ts = []
    ∧ Forall (λ x, x = collection_name sample_defaults ∨ x ∈ table_columns sample_defaults
        ∨ ∃ id : string, (λ _, Some "posts") id = Some x) (lexeme_idents ts)
    ∧ Forall (λ v, ∃ f, f ∈ fields sample_defaults ∧ @default_literal sample_json_text (field_options f) v)
        (lexeme_literals ts).
Proof.
  apply (@validated_collection_creates sample_json_text sample_defaults (λ _, Some "posts"));
    [vm_compute; reflexivity|discriminate|by eexists].
Defined.

Definition sample_json_defaults (t : string) : Value := JObject [("default", JString t)].

Lemma default_fits_column_witness :
  ∃ lit, sql_literal "x" +:+ "::text"
    = lit +:+ "::" +:+ (if decide (FText = FFile ∧ is_multiple (sample_json_defaults "x") = true)
                        then "text" else "text").
Proof.
  apply (@default_fits_column sample_json_text FText (sample_json_defaults "x") "text");
    vm_compute; reflexivity.
Defined.

Definition sample_required : Field :=
  {| field_id := "f"; field_collection_id := "c"; field_name := "n"; field_type := FNumber;
     required := true; is_unique := false; field_options := JObject []; position := 0 |}.

Lemma add_required_column_witness :
  ∃ ss, @add_column_statements sample_json_text "posts" sample_required = Ok ss
  ∧ let add d := "alter table " +:+ quote_ident "posts" +:+ " add column " +:+ quote_ident (field_name sample_required)
      +:+ " " +:+ default "" (match @field_column_type sample_json_text sample_required with Ok ty => Some ty | Err _ => None end)
      +:+ " not null default " +:+ d in
    (∃ d, @default_sql sample_json_text (field_type sample_required) (field_options sample_required) = Ok (Some d) ∧ ss = [add d])
    ∨ (∃ zero, @default_sql sample_json_text (field_type sample_required) (field_options sample_required) = Ok None
       ∧ zero_default (field_type sample_required) (field_options sample_required) = Some zero
       ∧ (field_type sample_required = FRelation → field_is_multiple sample_required = true)
       ∧ ss = [add zero;
               "alter table " +:+ quote_ident "posts" +:+ " alter column " +:+ quote_ident (field_name sample_required)
                 +:+ " drop default"]).
Proof.
  eexists. split; [vm_compute; reflexivity|].
  apply (@add_required_column sample_json_text "posts" sample_required); [vm_compute; reflexivity|reflexivity].
Defined.
