(* ===== verification/ViewBuilder.v ===== *)
(** The no-code view builder of [crates/db/src/view_builder.rs]: a JSON spec is
    checked against the collections into a [Plan], which is rendered as the
    query of a view.

    The results: what a plan selects ([plan_of_spec]), that the renaming loop
    ends and makes the output names distinct ([unique_name_fresh],
    [uniquify_distinct]), and what the text of the query scans to
    ([render_part]). *)
From S2P Require Import Prelude CoreError F64 Json Sql Types Ddl Compile Samples.

(** [struct Relation], [enum Origin], [struct Output], [enum Direction] and
    [struct Plan]. *)
Record Relation := { rel_alias : string; rel_field : string; rel_target : string; multi : bool }.
Inductive Origin := Base | Related (index : nat).
Record Output := { origin : Origin; out_name : string; alias : string }.
Inductive Direction := Asc | Desc.
Record Plan := {
  source : string;
  relations : list Relation;
  outputs : list Output;
  sort : list (Direction * string);
  limit : option Z;
}.

(** [find]. *)
Definition find_named (collections : list Collection) (name : string) : option Collection :=
  head (filter (λ c, collection_name c = name) collections).

(** [value.and_then(Value::as_str).unwrap_or("")]. *)
Definition text_or_empty (v : option Value) : string := default "" (v ≫= as_str).

(** [fetch_collection]. *)
Definition fetch_collection (collections : list Collection) (value : option Value) : result Collection :=
  let name := text_or_empty value in
  if decide (name = "") then Err Invalid else ok_or (find_named collections name) Invalid.

(** [is_identifier], [validate_name] and [validate_identifier]. *)
Definition is_word (c : ascii) : bool := is_ascii_alphanumeric c || bool_decide (c = "_"%char).
Definition is_identifier (name : string) : bool :=
  match name with
  | EmptyString => false
  | String first rest => (is_ascii_alphabetic first || bool_decide (first = "_"%char)) && str_forall is_word rest
  end.
Definition validate_name (name : string) : result string :=
  if is_identifier name then Ok name else Err Invalid.
Definition validate_alias (value : option Value) : result string :=
  name ← ok_or (value ≫= as_str) Invalid; validate_name name.

(** * Relations *)

(** [fetch_relation_field], [relation_target] and [is_multi_relation]. *)
Definition fetch_relation_field (source : Collection) (value : option Value) : result Field :=
  f ← ok_or (collection_field source (text_or_empty value)) Invalid;
  if decide (field_type f = FRelation) then Ok f else Err Invalid.
Definition target_of (f : Field) : result string :=
  ok_or (nonempty_str (get (field_options f) "collection")) Invalid.
Definition as_i64 (v : Value) : option Z :=
  match v with
  | JNumber (PosInt z) => if (z <? 2 ^ 63)%Z then Some z else None
  | JNumber (NegInt z) => Some z
  | _ => None
  end.
Definition is_multi_relation (f : Field) : bool :=
  match get (field_options f) "maxSelect" ≫= as_i64 with Some max => (1 <? max)%Z | None => false end.

(** The body of the loop of [build_relations], and [build_relations]. *)
Definition build_relation (source : Collection) (collections : list Collection)
    (relations : list Relation) (item : Value) : result (list Relation) :=
  alias ← validate_alias (get item "alias");
  if decide (alias = collection_name source) then Err Invalid
  else if decide (alias ∈ rel_alias <$> relations) then Err Invalid
  else
    field ← fetch_relation_field source (get item "field");
    target ← target_of field;
    match find_named collections target with
    | None => Err Invalid
    | Some _ =>
        Ok (relations ++ [{| rel_alias := alias; rel_field := field_name field; rel_target := target;
                             multi := is_multi_relation field |}])
    end.
Definition build_relations (value : option Value) (source : Collection) (collections : list Collection)
    : result (list Relation) :=
  match value with
  | None => Ok []
  | Some value =>
      items ← ok_or (as_array value) Invalid;
      try_fold (build_relation source collections) [] items
  end.

(** * Output columns *)

(** [fetch_column]: a [Column] is its name. *)
Definition hidden (f : Field) : bool := default false (get (field_options f) "hidden" ≫= as_bool).
Definition fetch_column (c : Collection) (name : option string) : result string :=
  name ← ok_or name Invalid;
  if decide (name = "id") then Ok "id"
  else
    field ← ok_or (collection_field c name) Invalid;
    if hidden field then Err Invalid
    else if decide (field_type field = FPassword) then Err Invalid
    else Ok (field_name field).

(** [output_alias]. *)
Definition output_alias (value : option Value) (default_name : string) : result string :=
  match value with
  | None | Some JNull => validate_name default_name
  | Some (JString name) => validate_name (if decide (name = "") then default_name else name)
  | Some _ => Err Invalid
  end.

(** [relations.iter().position(..)]. *)
Fixpoint relation_index (name : string) (relations : list Relation) : option nat :=
  match relations with
  | [] => None
  | r :: rs => if decide (rel_alias r = name) then Some 0%nat else S <$> relation_index name rs
  end.

(** [build_field] and [build_fields]. *)
Definition build_field (source : Collection) (relations : list Relation) (collections : list Collection)
    (item : Value) : result Output :=
  let field_source := default (collection_name source) (get item "source" ≫= as_str) in
  let name := get item "name" ≫= as_str in
  if decide (field_source = collection_name source) then
    column ← fetch_column source name;
    out ← output_alias (get item "as") column;
    Ok {| origin := Base; out_name := column; alias := out |}
  else
    index ← ok_or (relation_index field_source relations) Invalid;
    relation ← ok_or (relations !! index) Internal;
    target ← ok_or (find_named collections (rel_target relation)) Invalid;
    column ← fetch_column target name;
    out ← output_alias (get item "as") (rel_field relation +:+ "_" +:+ column);
    Ok {| origin := Related index; out_name := column; alias := out |}.
Definition build_fields (value : option Value) (source : Collection) (relations : list Relation)
    (collections : list Collection) : result (list Output) :=
  match value with
  | None => Ok []
  | Some value =>
      items ← ok_or (as_array value) Invalid;
      try_map (build_field source relations collections) items
  end.

(** [ensure_id]. *)
Definition base_id : Output := {| origin := Base; out_name := "id"; alias := "id" |}.
Definition is_base_id (o : Output) : bool :=
  match origin o with Base => bool_decide (out_name o = "id" ∧ alias o = "id") | Related _ => false end.
Definition ensure_id (fields : list Output) : list Output :=
  if existsb is_base_id fields then fields else base_id :: fields.

(** [uniquify_aliases]: the [while] loop with the suffixes it tries, then the
    loop over the fields. As many rounds as names are used up end it
    ([unique_name_fresh]). *)
Fixpoint unique_name (rounds : nat) (used : list string) (base candidate : string) (suffix : N) : string :=
  match rounds with
  | O => candidate
  | S rounds =>
      if decide (candidate ∈ used)
      then unique_name rounds used base (base +:+ "_" +:+ pretty suffix) (suffix + 1)
      else candidate
  end.
Definition fresh_name (used : list string) (base : string) : string :=
  unique_name (S (length used)) used base base 2.
Fixpoint uniquify_from (used : list string) (fields : list Output) : list Output :=
  match fields with
  | [] => []
  | o :: fields =>
      let candidate := fresh_name used (alias o) in
      {| origin := origin o; out_name := out_name o; alias := candidate |}
        :: uniquify_from (used ++ [candidate]) fields
  end.
Definition uniquify_aliases (fields : list Output) : list Output := uniquify_from [] fields.

(** * Sort and limit *)

(** [build_sort]. *)
Definition sort_token (c : Collection) (token : string) : result (Direction * string) :=
  let '(direction, name) :=
    match strip_prefix "-" token with
    | Some rest => (Desc, rest)
    | None => (Asc, default token (strip_prefix "+" token))
    end in
  column ← fetch_column c (Some (trim name));
  Ok (direction, column).
Definition build_sort (value : option Value) (source : Collection) : result (list (Direction * string)) :=
  match value with
  | None | Some JNull => Ok []
  | Some value =>
      sort ← ok_or (as_str value) Invalid;
      try_map (sort_token source) (filter (λ t, t ≠ "") (trim <$> split_on "," sort))
  end.

(** [build_limit]. *)
Definition build_limit (value : option Value) : result (option Z) :=
  match value with
  | None | Some JNull => Ok None
  | Some (JNumber n) =>
      match as_i64 (JNumber n) with
      | Some limit => if (0 <? limit)%Z then Ok (Some limit) else Err Invalid
      | None => Err Invalid
      end
  | Some _ => Err Invalid
  end.

(** [build_plan]. *)
Definition build_plan (spec : Value) (collections : list Collection) : result Plan :=
  _ ← ok_or (as_object spec) Invalid;
  source ← fetch_collection collections (get spec "source");
  relations ← build_relations (get spec "relations") source collections;
  fields ← build_fields (get spec "fields") source relations collections;
  sort ← build_sort (get spec "sort") source;
  limit ← build_limit (get spec "limit");
  Ok {| source := collection_name source; relations := relations;
        outputs := uniquify_aliases (ensure_id fields); sort := sort; limit := limit |}.

(** * Rendering *)

(** [select_expr]; an index out of range panics, which no plan reaches. *)
Definition dotted (table column : string) : string := quote_ident table +:+ "." +:+ quote_ident column.
Definition agg : string := "_agg".
Definition select_expr (p : Plan) (o : Output) : string :=
  match origin o with
  | Base => dotted (source p) (out_name o)
  | Related index =>
      match relations p !! index with
      | None => ""
      | Some r =>
          if negb (multi r) then dotted (rel_alias r) (out_name o)
          else
            "(SELECT COALESCE(jsonb_agg(" +:+ dotted agg (out_name o) +:+ " ORDER BY " +:+ dotted agg "id"
            +:+ "), '[]'::jsonb) FROM " +:+ quote_ident (rel_target r) +:+ " AS " +:+ quote_ident agg
            +:+ " WHERE " +:+ dotted agg "id" +:+ "::text = ANY(" +:+ dotted (source p) (rel_field r) +:+ "))"
      end
  end.

(** The lines of [render]. *)
Definition select_line (p : Plan) (o : Output) : string :=
  "    " +:+ select_expr p o +:+ " AS " +:+ quote_ident (alias o).
Fixpoint with_commas (l : list string) : list string :=
  match l with
  | [] => []
  | [line] => [line]
  | line :: l => (line +:+ ",") :: with_commas l
  end.
Definition join_line (p : Plan) (r : Relation) : string :=
  "LEFT JOIN " +:+ quote_ident (rel_target r) +:+ " AS " +:+ quote_ident (rel_alias r) +:+ " ON "
  +:+ dotted (rel_alias r) "id" +:+ "::text = " +:+ dotted (source p) (rel_field r).
Definition direction_sql (d : Direction) : string := match d with Asc => "ASC" | Desc => "DESC" end.
Definition sort_part (p : Plan) (s : Direction * string) : string :=
  dotted (source p) s.2 +:+ " " +:+ direction_sql s.1.
Definition newline : string := String "010"%char "".
Definition render (p : Plan) : string :=
  join newline
    (["SELECT"] ++ with_commas (select_line p <$> outputs p)
     ++ ["FROM " +:+ quote_ident (source p)]
     ++ (join_line p <$> filter (λ r, multi r = false) (relations p))
     ++ (match sort p with [] => [] | _ => ["ORDER BY " +:+ join ", " (sort_part p <$> sort p)] end)
     ++ (match limit p with Some n => ["LIMIT " +:+ dec n] | None => [] end)).

(** [to_query]. *)
Definition to_query (spec : Value) (collections : list Collection) : result string :=
  plan ← build_plan spec collections; Ok (render plan).

(** * The renaming loop *)

Definition candidate (base : string) (k : nat) : string :=
  match k with O => base | S _ => base +:+ "_" +:+ pretty (N.of_nat (k + 1)) end.

Lemma append_inj_l s t u : s +:+ t = s +:+ u → t = u.
Proof. induction s as [|c s IH]; [done|]. rewrite !str_app_cons. intros [= E]. by apply IH. Qed.

#[export] Instance candidate_inj base : Inj (=) (=) (candidate base).
Proof.
  assert (∀ n, base ≠ base +:+ "_" +:+ n) as H.
  { intros n E%(f_equal String.length). rewrite !str_length_app in E. cbn in E. lia. }
  intros [|i] [|j]; cbn [candidate]; intros E; [done| | |].
  - by apply H in E.
  - symmetry in E. by apply H in E.
  - apply append_inj_l, append_inj_l in E. apply (inj pretty) in E. lia.
Qed.

Lemma unique_name_search rounds used base k :
  let r := unique_name rounds used base (candidate base k) (N.of_nat (k + 2)) in
  (r ∉ used ∨ ∀ i, (i < rounds)%nat → candidate base (k + i) ∈ used) ∧ ∃ j, r = candidate base j.
Proof.
  cbv zeta. revert k. induction rounds as [|rounds IH]; intros k; cbn [unique_name].
  - split; [right; lia|eauto].
  - case_decide as D; [|split; [by left|eauto]].
    replace (N.of_nat (k + 2) + 1)%N with (N.of_nat (S k + 2)) by lia.
    replace (base +:+ "_" +:+ pretty (N.of_nat (k + 2))) with (candidate base (S k))
      by (cbn [candidate]; do 4 f_equal; lia).
    destruct (IH (S k)) as [[F|F] E]; (split; [|done]); [by left|].
    right. intros [|i] L; [by rewrite Nat.add_0_r|]. replace (k + S i)%nat with (S k + i)%nat by lia. apply F. lia.
Qed.

Lemma unique_name_fresh used base : fresh_name used base ∉ used.
Proof.
  unfold fresh_name. destruct (unique_name_search (S (length used)) used base 0) as [[F|F] _]; [done|].
  cbn [Nat.add candidate] in F. exfalso.
  assert (NoDup (candidate base <$> seq 0 (S (length used)))) as N by (apply NoDup_fmap; [apply _|apply NoDup_seq]).
  assert ((candidate base <$> seq 0 (S (length used))) ⊆ used) as I.
  { intros x (i & -> & M)%list_elem_of_fmap. apply elem_of_seq in M. apply F. lia. }
  pose proof (submseteq_length _ _ (NoDup_submseteq _ _ N I)) as L. rewrite length_fmap, length_seq in L. lia.
Qed.

Lemma fresh_name_same used base : base ∉ used → fresh_name used base = base.
Proof. intros N. unfold fresh_name. cbn [unique_name]. by rewrite decide_False. Qed.

Lemma digits_word s : str_forall is_ascii_digit s = true → str_forall is_word s = true.
Proof.
  apply str_forall_impl. intros c H. unfold is_word, is_ascii_alphanumeric. by rewrite H, orb_true_r.
Qed.

Lemma is_identifier_word s : is_identifier s = true → str_forall is_word s = true.
Proof.
  destruct s as [|c s]; [done|]. cbn [is_identifier str_forall]. intros [H1 H2]%andb_true_iff. rewrite H2, andb_true_r.
  unfold is_word, is_ascii_alphanumeric. apply orb_true_iff in H1 as [->| ->]; [done|]. apply orb_true_r.
Qed.

Lemma is_identifier_app s t : is_identifier s = true → str_forall is_word t = true → is_identifier (s +:+ t) = true.
Proof.
  destruct s as [|c s]; [done|]. rewrite str_app_cons. cbn [is_identifier]. intros [H1 H2]%andb_true_iff H3.
  by rewrite H1, str_forall_app, H2, H3.
Qed.

Lemma fresh_name_identifier used base : is_identifier base = true → is_identifier (fresh_name used base) = true.
Proof.
  intros I. destruct (unique_name_search (S (length used)) used base 0) as [_ [[|j] E]];
    unfold fresh_name; cbn [Nat.add candidate] in E; change (N.of_nat 2) with 2%N in E; rewrite E; [done|].
  apply is_identifier_app; [done|]. cbn [str_forall String.append]. rewrite str_app_cons. cbn [str_forall]. rewrite str_app_nil_l.
  by rewrite digits_word by apply pretty_N_value.
Qed.

(** The output: same columns, distinct names, none of them taken before. *)
Lemma uniquify_from_spec used fields :
  let out := uniquify_from used fields in
  Forall2 (λ o o', origin o' = origin o ∧ out_name o' = out_name o
    ∧ (is_identifier (alias o) = true → is_identifier (alias o') = true)) fields out
  ∧ NoDup (alias <$> out) ∧ Forall (λ x, x ∉ used) (alias <$> out).
Proof.
  cbv zeta. revert used. induction fields as [|o fields IH]; intros used; cbn [uniquify_from].
  { split_and!; repeat constructor. }
  destruct (IH (used ++ [fresh_name used (alias o)])) as (F & N & A). cbn [fmap list_fmap alias].
  pose proof (proj1 (Forall_forall _ _) A) as A'. split_and!.
  - constructor; [|done]. cbn. split_and!; [done..|]. apply fresh_name_identifier.
  - constructor; [|done]. intros M. apply (A' _ M). apply elem_of_app. right. by left.
  - constructor; [apply unique_name_fresh|]. eapply Forall_impl; [exact A|]. intros x X. cbn in X.
    rewrite elem_of_app in X. tauto.
Qed.

(** * What a plan selects *)

Lemma find_named_Some cs name c : find_named cs name = Some c → c ∈ cs ∧ collection_name c = name.
Proof.
  unfold find_named. intros H. assert (c ∈ filter (λ c, collection_name c = name) cs) as M.
  { destruct (filter _ cs); [done|]. injection H as ->. by left. }
  apply list_elem_of_filter in M. tauto.
Qed.

(** A column that may be shown: the id, or a field neither hidden nor a password. *)
Definition selectable (c : Collection) (x : string) : Prop :=
  x = "id" ∨ ∃ f, collection_field c x = Some f ∧ hidden f = false ∧ field_type f ≠ FPassword.

Lemma fetch_column_Ok c name x : fetch_column c name = Ok x → selectable c x.
Proof.
  unfold fetch_column. intros (n & ->%ok_or_Ok & H)%bind_Ok. case_decide; [injection H as <-; by left|].
  apply bind_Ok in H as (f & F%ok_or_Ok & H). destruct (hidden f) eqn:Hh; [done|]. case_decide; [done|]. injection H as <-.
  right. exists f. split_and!; [|done..]. unfold collection_field in *. pose proof F as G.
  destruct (filter (λ f0, field_name f0 = n) (fields c)) as [|g l] eqn:E; [done|]. injection F as ->.
  assert (f ∈ filter (λ f0, field_name f0 = n) (fields c)) as M by (rewrite E; by left).
  apply list_elem_of_filter in M as [<- _]. by rewrite E.
Qed.

Lemma validate_name_Ok s x : validate_name s = Ok x → x = s ∧ is_identifier x = true.
Proof. unfold validate_name. destruct (is_identifier s) eqn:E; [|done]. by intros [= <-]. Qed.

Lemma output_alias_Ok v d x : output_alias v d = Ok x → is_identifier x = true.
Proof. destruct v as [[| | | | |]|]; try done; by intros [_ H]%validate_name_Ok. Qed.

(** What a column of the output reads. *)
Definition reads (cs : list Collection) (c : Collection) (rs : list Relation) (o : Output) : Prop :=
  match origin o with
  | Base => selectable c (out_name o)
  | Related i => ∃ r t, rs !! i = Some r ∧ find_named cs (rel_target r) = Some t ∧ selectable t (out_name o)
  end.

(** A relation of a plan: a relation field of the source, to a collection that exists. *)
Definition relation_ok (cs : list Collection) (c : Collection) (r : Relation) : Prop :=
  is_identifier (rel_alias r) = true ∧ rel_alias r ≠ collection_name c
  ∧ ∃ f t, f ∈ fields c ∧ field_name f = rel_field r ∧ field_type f = FRelation ∧ multi r = is_multi_relation f
    ∧ target_of f = Ok (rel_target r) ∧ find_named cs (rel_target r) = Some t.

Lemma build_relations_Ok v c cs rs :
  build_relations v c cs = Ok rs → Forall (relation_ok cs c) rs ∧ NoDup (rel_alias <$> rs).
Proof.
  unfold build_relations. destruct v as [v|]; [|intros [= <-]; by repeat constructor].
  intros (items & _ & H)%bind_Ok. revert H.
  apply (try_fold_inv (λ rs, Forall (relation_ok cs c) rs ∧ NoDup (rel_alias <$> rs))); [|by repeat constructor].
  intros rs1 item rs2 [F N] _ H. unfold build_relation in H.
  apply bind_Ok in H as (al & (raw & _ & [-> I]%validate_name_Ok)%bind_Ok & H). case_decide as D1; [done|]. case_decide as D2; [done|].
  apply bind_Ok in H as (f & (f' & Ff%ok_or_Ok & T)%bind_Ok & H). case_decide as D3; [|done]. injection T as ->.
  apply bind_Ok in H as (target & T & H). destruct (find_named cs target) as [t|] eqn:E; [|done]. injection H as <-.
  split.
  - apply Forall_app. split; [done|]. apply Forall_singleton. split_and!; [done..|]. exists f, t. cbn. split_and!; try done.
    unfold collection_field in Ff. destruct (filter _ (fields c)) as [|g l] eqn:Eg; [done|]. injection Ff as ->.
    assert (f ∈ filter (λ f0, field_name f0 = text_or_empty (get item "field")) (fields c)) as M by (rewrite Eg; by left).
    by apply list_elem_of_filter in M as [_ M].
  - rewrite fmap_app. apply NoDup_app. split_and!; [done| |by apply NoDup_singleton].
    intros x X ->%list_elem_of_singleton. done.
Qed.

Lemma build_field_Ok c rs cs item o :
  build_field c rs cs item = Ok o → reads cs c rs o ∧ is_identifier (alias o) = true.
Proof.
  unfold build_field. case_decide as D; intros H.
  - apply bind_Ok in H as (x & X%fetch_column_Ok & H). apply bind_Ok in H as (a & A%output_alias_Ok & H). by injection H as <-.
  - apply bind_Ok in H as (i & _ & H). apply bind_Ok in H as (r & R%ok_or_Ok & H). apply bind_Ok in H as (t & T%ok_or_Ok & H).
    apply bind_Ok in H as (x & X%fetch_column_Ok & H). apply bind_Ok in H as (a & A%output_alias_Ok & H). injection H as <-.
    split; [|done]. cbn. eauto.
Qed.

Lemma build_fields_Ok v c rs cs os :
  build_fields v c rs cs = Ok os → Forall (λ o, reads cs c rs o ∧ is_identifier (alias o) = true) os.
Proof.
  unfold build_fields. destruct v as [v|]; [|intros [= <-]; constructor]. intros (items & _ & H%try_map_Ok)%bind_Ok.
  induction H as [|item o items os H _ IH]; [constructor|]. constructor; [by eapply build_field_Ok|done].
Qed.

Lemma build_sort_Ok v c l : build_sort v c = Ok l → Forall (λ s, selectable c s.2) l.
Proof.
  assert (∀ v, (sort ← ok_or (as_str v) Invalid;
    try_map (sort_token c) (filter (λ t, t ≠ "") (trim <$> split_on "," sort))) = Ok l → Forall (λ s, selectable c s.2) l) as K.
  { clear v. intros v (s & _ & H%try_map_Ok)%bind_Ok.
    induction H as [|t d ts l H _ IH]; [constructor|]. constructor; [|done]. unfold sort_token in H.
    destruct (strip_prefix "-" t); apply bind_Ok in H as (x & X%fetch_column_Ok & [= <-]); done. }
  destruct v as [[| | | | |]|]; try apply K; intros [= <-]; constructor.
Qed.

Lemma build_limit_Ok v n : build_limit v = Ok (Some n) → (0 < n)%Z.
Proof.
  destruct v as [[| |m| | |]|]; try done. cbn [build_limit]. destruct (as_i64 (JNumber m)) as [z|]; [|done].
  destruct (Z.ltb_spec 0 z); [|done]. by intros [= <-].
Qed.

(** * The text of a query *)

Lemma frag_eq s ts ts' : frag s ts → ts = ts' → frag s ts'.
Proof. by intros H <-. Qed.

Lemma frag_joined sep l tss :
  bare sep = true → sep ≠ "" → plain_start sep = true → Forall2 frag l tss → frag (join sep l) (concat tss).
Proof.
  intros B N P. induction 1 as [|s ts l tss H F IH]; [apply frag_nil|].
  destruct F as [|s' ts' l tss H' F]; [cbn; by rewrite app_nil_r|]. rewrite join_cons2.
  apply frag_app; [done| |by destruct sep|by destruct sep]. apply frag_open; [by apply bare_open|done].
Qed.

Lemma dotted_frag t c : frag (dotted t c) [QIdent t; QIdent c].
Proof.
  unfold dotted. apply (frag_app _ [QIdent t] _ [QIdent c]); [apply quote_ident_frag| |done|done].
  apply (frag_lit_app _ []); [done|apply quote_ident_frag].
Qed.

(** Splits a text into the names it quotes and the program's own words. *)
Ltac frag_pieces :=
  lazymatch goal with
  | |- frag (dotted _ _ +:+ _) _ => eapply frag_app; [apply dotted_frag|frag_pieces|done|done]
  | |- frag (quote_ident _ +:+ _) _ => eapply frag_app; [apply quote_ident_frag|frag_pieces|done|done]
  | |- frag (dotted _ _) _ => apply dotted_frag
  | |- frag (quote_ident _) _ => apply quote_ident_frag
  | |- frag (_ +:+ _) _ => first
      [ eapply frag_lit_app; [vm_compute; reflexivity|frag_pieces]
      | eapply frag_app; [eassumption|frag_pieces|done|done] ]
  | |- frag _ _ => first [eassumption | apply frag_lit; vm_compute; reflexivity]
  end.

(** The names a query contains, in order; its one constant is [[]]. *)
Definition select_lexemes (p : Plan) (o : Output) : list lexeme :=
  match origin o with
  | Base => [QIdent (source p); QIdent (out_name o)]
  | Related i =>
      match relations p !! i with
      | None => []
      | Some r =>
          if negb (multi r) then [QIdent (rel_alias r); QIdent (out_name o)]
          else [QIdent agg; QIdent (out_name o); QIdent agg; QIdent "id"; SLit "[]"; QIdent (rel_target r); QIdent agg;
                QIdent agg; QIdent "id"; QIdent (source p); QIdent (rel_field r)]
      end
  end ++ [QIdent (alias o)].
Definition join_lexemes (p : Plan) (r : Relation) : list lexeme :=
  [QIdent (rel_target r); QIdent (rel_alias r); QIdent (rel_alias r); QIdent "id"; QIdent (source p); QIdent (rel_field r)].
Definition query_lexemes (p : Plan) : list lexeme :=
  concat (select_lexemes p <$> outputs p) ++ [QIdent (source p)]
  ++ concat (join_lexemes p <$> filter (λ r, multi r = false) (relations p))
  ++ concat ((λ s, [QIdent (source p); QIdent s.2]) <$> sort p).

(** What the pieces of a query are: a column of a collection, under the name
    its table has there; the relation field of the source a target is found by;
    a table; a name given; the empty array. *)
Inductive part :=
  | PColumn (table owner column : string)
  | PKey (table column : string)
  | PTable (name : string)
  | PNamed (name : string)
  | PEmpty.
Definition part_lexemes (x : part) : list lexeme :=
  match x with
  | PColumn t _ c | PKey t c => [QIdent t; QIdent c]
  | PTable n | PNamed n => [QIdent n]
  | PEmpty => [SLit "[]"]
  end.

Definition select_parts (p : Plan) (o : Output) : list part :=
  match origin o with
  | Base => [PColumn (source p) (source p) (out_name o)]
  | Related i =>
      match relations p !! i with
      | None => []
      | Some r =>
          if negb (multi r) then [PColumn (rel_alias r) (rel_target r) (out_name o)]
          else [PColumn agg (rel_target r) (out_name o); PColumn agg (rel_target r) "id"; PEmpty; PTable (rel_target r);
                PNamed agg; PColumn agg (rel_target r) "id"; PKey (source p) (rel_field r)]
      end
  end ++ [PNamed (alias o)].
Definition join_parts (p : Plan) (r : Relation) : list part :=
  [PTable (rel_target r); PNamed (rel_alias r); PColumn (rel_alias r) (rel_target r) "id"; PKey (source p) (rel_field r)].
Definition query_parts (p : Plan) : list part :=
  concat (select_parts p <$> outputs p) ++ [PTable (source p)]
  ++ concat (join_parts p <$> filter (λ r, multi r = false) (relations p))
  ++ ((λ s, PColumn (source p) (source p) s.2) <$> sort p).

Lemma parts_lexemes_app l1 l2 :
  concat (part_lexemes <$> (l1 ++ l2)) = concat (part_lexemes <$> l1) ++ concat (part_lexemes <$> l2).
Proof. by rewrite fmap_app, concat_app. Qed.

Lemma parts_lexemes_concat {A} (f : A → list part) (g : A → list lexeme) l :
  (∀ x, concat (part_lexemes <$> f x) = g x) → concat (part_lexemes <$> concat (f <$> l)) = concat (g <$> l).
Proof. intros E. induction l as [|x l IH]; [done|]. cbn. by rewrite parts_lexemes_app, E, IH. Qed.

(** The names of a query are those of its parts. *)
Lemma query_parts_lexemes p : concat (part_lexemes <$> query_parts p) = query_lexemes p.
Proof.
  unfold query_parts, query_lexemes. rewrite !parts_lexemes_app.
  rewrite (parts_lexemes_concat (select_parts p) (select_lexemes p)), (parts_lexemes_concat (join_parts p) (join_lexemes p)).
  - by rewrite <- (list_fmap_compose _ part_lexemes).
  - done.
  - intros o. unfold select_parts, select_lexemes. rewrite parts_lexemes_app. f_equal.
    destruct (origin o) as [|i]; [done|]. destruct (relations p !! i) as [r|]; [|done]. by destruct (multi r).
Qed.

Lemma select_line_frag p o : frag (select_line p o) (select_lexemes p o).
Proof.
  unfold select_line, select_lexemes, select_expr. destruct (origin o) as [|i].
  - eapply frag_eq; [frag_pieces|reflexivity].
  - destruct (relations p !! i) as [r|].
    + destruct (multi r); cbn [negb]; (eapply frag_eq; [rewrite <-?str_app_assoc; frag_pieces|reflexivity]).
    + eapply frag_eq; [frag_pieces|reflexivity].
Qed.

Lemma join_line_frag p r : frag (join_line p r) (join_lexemes p r).
Proof. unfold join_line. eapply frag_eq; [frag_pieces|reflexivity]. Qed.

Lemma sort_part_frag p s : frag (sort_part p s) [QIdent (source p); QIdent s.2].
Proof. unfold sort_part. eapply frag_eq; [destruct (s.1); cbn [direction_sql]; frag_pieces|reflexivity]. Qed.

Lemma with_commas_frag l tss : Forall2 frag l tss → Forall2 frag (with_commas l) tss.
Proof.
  induction 1 as [|s ts l tss H F IH]; [constructor|]. destruct F as [|s' ts' l tss H' F]; [by repeat constructor|].
  constructor; [|done]. eapply frag_eq; [eapply frag_app; [exact H|by apply frag_lit|done|done]|by rewrite app_nil_r].
Qed.

Lemma limit_frag z : (0 < z)%Z → frag ("LIMIT " +:+ dec z) [].
Proof.
  intros H. apply is_open_frag, bare_open. unfold bare, dec. rewrite str_forall_app. cbn [str_forall]. apply andb_true_iff. split; [done|].
  assert (pretty z = pretty (Z.to_N z)) as ->.
  { unfold pretty at 1, pretty_Z. destruct z as [|q|q]; [done|done|lia]. }
  eapply str_forall_impl; [|apply (pretty_N_value (Z.to_N z))]. intros c D. unfold bare_char.
  apply negb_true_iff, bool_decide_eq_false. intros [-> |[-> | ->]]; by vm_compute in D.
Qed.

(** The text of a plan scans to its names. *)
Lemma render_lexemes p : (∀ n, limit p = Some n → (0 < n)%Z) → lexemes (render p) = Some (query_lexemes p).
Proof.
  intros L. apply frag_lexemes. unfold render.
  set (order := match sort p with [] => _ | _ => _ end). set (lim := match limit p with Some _ => _ | None => _ end).
  eapply frag_eq.
  - apply (frag_joined newline _ ([[]] ++ (select_lexemes p <$> outputs p) ++ [[QIdent (source p)]]
      ++ (join_lexemes p <$> filter (λ r, multi r = false) (relations p))
      ++ (match sort p with [] => [] | _ => [concat ((λ s, [QIdent (source p); QIdent s.2]) <$> sort p)] end)
      ++ (match limit p with Some n => [[]] | None => [] end))); [done..|].
    apply Forall2_app; [|apply Forall2_app; [|apply Forall2_app; [|apply Forall2_app; [|apply Forall2_app]]]].
    + constructor; [by apply frag_lit|constructor].
    + apply with_commas_frag. apply Forall2_fmap, Forall_Forall2_diag, Forall_true. intros o. apply select_line_frag.
    + constructor; [|constructor]. eapply frag_eq; [frag_pieces|reflexivity].
    + apply Forall2_fmap, Forall_Forall2_diag, Forall_true. intros r. apply join_line_frag.
    + unfold order. destruct (sort p) as [|s l] eqn:E; [constructor|]. constructor; [|constructor].
      eapply frag_eq; [eapply frag_lit_app; [vm_compute; reflexivity|]|reflexivity].
      apply frag_joined; [done..|]. apply Forall2_fmap, Forall_Forall2_diag, Forall_true. intros x. apply sort_part_frag.
    + unfold lim. destruct (limit p) as [z|] eqn:E; [|constructor]. constructor; [|constructor]. by apply limit_frag, L.
  - unfold query_lexemes. rewrite !concat_app. cbn [concat app]. do 3 f_equal.
    destruct (sort p); destruct (limit p); cbn [concat fmap list_fmap app]; by rewrite ?app_nil_r.
Qed.

(** Once the aliases are made unique the columns read are the ones asked for. *)
Lemma ensure_id_has_id fs : ∃ o, o ∈ ensure_id fs ∧ origin o = Base ∧ out_name o = "id".
Proof.
  unfold ensure_id. destruct (existsb is_base_id fs) eqn:E; [|exists base_id; by split; [left|]].
  apply existsb_exists in E as (o & M & B). exists o. split; [by apply list_elem_of_In|].
  unfold is_base_id in B. destruct (origin o); [|done]. apply bool_decide_eq_true in B. tauto.
Qed.

Lemma uniquify_reads cs c rs fs :
  Forall (λ o, reads cs c rs o ∧ is_identifier (alias o) = true) fs →
  Forall (λ o, reads cs c rs o ∧ is_identifier (alias o) = true) (uniquify_aliases fs)
  ∧ NoDup (alias <$> uniquify_aliases fs)
  ∧ ∀ o, o ∈ fs → ∃ o', o' ∈ uniquify_aliases fs ∧ origin o' = origin o ∧ out_name o' = out_name o.
Proof.
  intros F. destruct (uniquify_from_spec [] fs) as (F2 & N & _). fold (uniquify_aliases fs) in F2, N. split_and!; [|done|].
  - clear N. induction F2 as [|o o' fs fs' (E1 & E2 & E3) F2 IH]; [constructor|]. inversion_clear F as [|? ? [R I] F'].
    constructor; [|by apply IH]. split; [|by apply E3]. unfold reads in *. by rewrite E1, E2.
  - intros o M. apply list_elem_of_lookup in M as [i M]. destruct (Forall2_lookup_l _ _ _ _ _ F2 M) as (o' & M' & E1 & E2 & _).
    exists o'. split; [by eapply list_elem_of_lookup_2|done].
Qed.

(** The id keeps its name unless another column asked for it first. *)
Lemma fresh_name_id used base : fresh_name used base = "id" → base = "id".
Proof.
  intros H. destruct (unique_name_search (S (length used)) used base 0) as [_ [[|j] E]];
    cbn [Nat.add candidate] in E; change (N.of_nat 2) with 2%N in E; fold (fresh_name used base) in E;
    rewrite H in E; [done|]. exfalso.
  assert (str_forall (λ c, negb (bool_decide (c = "_"%char))) "id" = true) as U by done. rewrite E in U.
  rewrite !str_forall_app in U. cbn in U. by rewrite andb_false_r in U.
Qed.

Lemma uniquify_keeps_id used fs :
  "id" ∉ used → existsb is_base_id fs = true → (∀ o, o ∈ fs → alias o = "id" → is_base_id o = true) →
  existsb is_base_id (uniquify_from used fs) = true.
Proof.
  revert used. induction fs as [|o fs IH]; intros used U E A; [done|]. cbn [uniquify_from existsb].
  destruct (decide (alias o = "id")) as [D|D].
  - assert (is_base_id o = true) as B by (apply A; [by left|done]). rewrite D, fresh_name_same by done.
    unfold is_base_id in *. cbn [origin out_name alias]. rewrite D in B. by rewrite B.
  - assert (is_base_id o = false) as B.
    { unfold is_base_id. destruct (origin o); [|done]. apply bool_decide_eq_false. tauto. }
    cbn [existsb] in E. rewrite B in E. cbn [orb] in E. apply orb_true_iff. right. apply IH; [|done|].
    + intros [|X%list_elem_of_singleton]%elem_of_app; [done|]. symmetry in X. by apply fresh_name_id in X.
    + intros o' M. apply A. by right.
Qed.

(** What a part may be: a column is one that may be shown, of the source or of
    the target of a relation under that relation's name; a key is a relation
    field of a declared relation, hidden or not. *)
Definition part_ok (cs : list Collection) (c : Collection) (p : Plan) (x : part) : Prop :=
  match x with
  | PColumn t owner column =>
      (t = source p ∧ owner = source p ∧ selectable c column)
      ∨ ∃ r d, r ∈ relations p ∧ (t = rel_alias r ∨ t = agg) ∧ owner = rel_target r
               ∧ find_named cs owner = Some d ∧ selectable d column
  | PKey t column => t = source p ∧ ∃ r, r ∈ relations p ∧ column = rel_field r
  | PTable n => n = source p ∨ n ∈ rel_target <$> relations p
  | PNamed n => n = agg ∨ n ∈ rel_alias <$> relations p ∨ n ∈ alias <$> outputs p
  | PEmpty => True
  end.

Lemma query_parts_ok cs c p :
  Forall (λ o, reads cs c (relations p) o) (outputs p) → Forall (relation_ok cs c) (relations p) →
  Forall (λ s, selectable c s.2) (sort p) → Forall (part_ok cs c p) (query_parts p).
Proof.
  intros O R S. pose proof (proj1 (Forall_forall _ _) O) as O1. pose proof (proj1 (Forall_forall _ _) R) as R1.
  pose proof (proj1 (Forall_forall _ _) S) as S1. clear O R S. rename O1 into O, R1 into R, S1 into S. unfold query_parts. rewrite !Forall_app. split_and!.
  - apply Forall_concat, Forall_fmap, Forall_forall. intros o Mo. specialize (O o Mo). cbn. unfold reads in O. unfold select_parts.
    apply Forall_app. split; [|apply Forall_singleton; right; right; by apply list_elem_of_fmap_2].
    destruct (origin o) as [|i]; [apply Forall_singleton; by left|]. destruct O as (r & t & Er & Et & Se). rewrite Er.
    assert (Mr : r ∈ relations p) by by eapply list_elem_of_lookup_2.
    assert (Id : selectable t "id") by by left.
    assert (Col : ∀ tb x, tb = rel_alias r ∨ tb = agg → selectable t x → part_ok cs c p (PColumn tb (rel_target r) x)).
    { intros tb x T Sx. right. by exists r, t. }
    assert (Tab : part_ok cs c p (PTable (rel_target r))) by (right; by apply list_elem_of_fmap_2).
    assert (Key : part_ok cs c p (PKey (source p) (rel_field r))) by (split; [done|by exists r]).
    assert (Agg : part_ok cs c p (PNamed agg)) by by left.
    destruct (multi r); cbn [negb]; repeat (apply Forall_cons; split); try done; apply Col; auto.
  - constructor; [by left|constructor].
  - apply Forall_concat, Forall_fmap, Forall_forall. intros r [_ Mr]%list_elem_of_filter. cbn. unfold join_parts.
    destruct (R r Mr) as (_ & _ & f & t & _ & _ & _ & _ & _ & T).
    repeat (apply Forall_cons; split); [..|done].
    + right. by apply list_elem_of_fmap_2.
    + right. left. by apply list_elem_of_fmap_2.
    + right. exists r, t. split_and!; auto. by left.
    + split; [done|by exists r].
  - apply Forall_fmap, Forall_forall. intros s Ms. left. split_and!; [done..|by apply S].
Qed.

(** C20. A view made by the builder shows what its spec may show, and its query
    is that: the text scans to exactly the parts of the plan. Every column in
    them is the id or a column neither hidden nor a password, of the source or
    of the target of a declared relation; besides these the query uses the
    relation fields of the declared relations, hidden ones too, to find their
    targets. Each output has a distinct plain name, relations are relation
    fields of the source to collections that exist, the id of the source is
    selected, and it is the view's [id] unless another column asks for that
    name. *)
Theorem built_view_is_sound spec cs sql :
  to_query spec cs = Ok sql →
  ∃ c p fs, c ∈ cs ∧ get spec "source" = Some (JString (collection_name c)) ∧ source p = collection_name c
    ∧ sql = render p ∧ lexemes sql = Some (concat (part_lexemes <$> query_parts p))
    ∧ Forall (part_ok cs c p) (query_parts p)
    ∧ NoDup (alias <$> outputs p) ∧ NoDup (rel_alias <$> relations p)
    ∧ Forall (λ o, reads cs c (relations p) o ∧ is_identifier (alias o) = true) (outputs p)
    ∧ Forall (relation_ok cs c) (relations p)
    ∧ Forall (λ s, selectable c s.2) (sort p)
    ∧ (∃ o, o ∈ outputs p ∧ origin o = Base ∧ out_name o = "id")
    ∧ build_fields (get spec "fields") c (relations p) cs = Ok fs
    ∧ ((∀ o, o ∈ fs → alias o = "id" → is_base_id o = true) → existsb is_base_id (outputs p) = true).
Proof.
  unfold to_query, build_plan. intros (p & H & [= <-])%bind_Ok. apply bind_Ok in H as (obj & _ & H).
  apply bind_Ok in H as (c & C & H). apply bind_Ok in H as (rs & R%build_relations_Ok & H).
  apply bind_Ok in H as (fs & F & H). apply bind_Ok in H as (so & S%build_sort_Ok & H).
  apply bind_Ok in H as (l & L & H). apply Ok_inj in H as <-.
  unfold fetch_collection, text_or_empty in C. case_decide as D; [done|]. apply ok_or_Ok, find_named_Some in C as [M N].
  assert (get spec "source" = Some (JString (collection_name c))) as G.
  { destruct (get spec "source") as [[| | |s| |]|]; cbn in D, N; try done. by subst. }
  assert (Forall (λ o, reads cs c rs o ∧ is_identifier (alias o) = true) (ensure_id fs)) as E.
  { apply build_fields_Ok in F. unfold ensure_id. destruct (existsb _ _); [done|]. constructor; [|done]. split; [by left|done]. }
  destruct (uniquify_reads cs c rs _ E) as (E1 & E2 & E3). eexists c, _, fs.
  split; [done|]. split; [done|]. split; [|split; [reflexivity|]]; [reflexivity|]. split_and!.
  - rewrite query_parts_lexemes. apply render_lexemes. cbn [limit]. intros n ->. by eapply build_limit_Ok.
  - apply query_parts_ok; cbn [relations outputs sort]; [|by destruct R|done].
    eapply Forall_impl; [exact E1|]. by intros o [? _].
  - done.
  - by destruct R.
  - done.
  - by destruct R.
  - done.
  - destruct (ensure_id_has_id fs) as (o & Mo & O1 & O2). destruct (E3 o Mo) as (o' & Mo' & P1 & P2).
    exists o'. cbn [outputs]. split; [done|]. by rewrite P1, P2.
  - done.
  - intros A. cbn [outputs]. apply uniquify_keeps_id; [apply not_elem_of_nil| |].
    + unfold ensure_id. destruct (existsb is_base_id fs) eqn:B; [done|]. cbn. done.
    + unfold ensure_id. destruct (existsb is_base_id fs); [done|]. intros o [->|Mo]%elem_of_cons; [done|by apply A].
Qed.

(** * Concrete inputs *)

Definition sample_relation (name target : string) (extra : list (string * Value)) : Field :=
  sample_field name FRelation (JObject (("collection", JString target) :: extra)).
Definition sample_orders : Collection :=
  {| collection_id := "o"; collection_name := "orders"; collection_type := CBase; collection_options := JObject [];
     rules := JObject [];
     fields := [sample_field "total" FNumber (JObject []); sample_relation "customer" "customers" [];
                sample_relation "auditor" "customers" [("hidden", JBool true)];
                sample_field "cost" FNumber (JObject [("hidden", JBool true)])] |}.
Definition sample_customers : Collection :=
  {| collection_id := "k"; collection_name := "customers"; collection_type := CBase; collection_options := JObject [];
     rules := JObject []; fields := [sample_field "name" FText (JObject [])] |}.
Definition sample_spec (relation : string) (columns : list Value) : Value :=
  JObject [("source", JString "orders");
           ("relations", JArray [JObject [("alias", JString "t1"); ("field", JString relation)]]);
           ("fields", JArray columns); ("sort", JString "-total"); ("limit", JNumber (PosInt 10))].
Definition sample_column (source name : string) (rest : list (string * Value)) : Value :=
  JObject (("source", JString source) :: ("name", JString name) :: rest).

Lemma built_view_is_sound_witness : ∃ sql c p fs,
  to_query (sample_spec "customer" [sample_column "orders" "total" []; sample_column "t1" "name" []])
    [sample_orders; sample_customers] = Ok sql
  ∧ source p = collection_name c ∧ lexemes sql = Some (concat (part_lexemes <$> query_parts p)) ∧ sql = render p
  ∧ build_fields (Some (JArray [sample_column "orders" "total" []; sample_column "t1" "name" []])) c (relations p)
      [sample_orders; sample_customers] = Ok fs
  ∧ NoDup (alias <$> outputs p).
Proof.
  eexists _. edestruct (built_view_is_sound (sample_spec "customer"
    [sample_column "orders" "total" []; sample_column "t1" "name" []]) [sample_orders; sample_customers])
    as (c & p & fs & M & G & S & R & L & _ & N & _ & _ & _ & _ & _ & B & _); [vm_compute; reflexivity|].
  exists c, p, fs. split_and!; [vm_compute; reflexivity|exact S|exact L|exact R|exact B|exact N].
Defined.

(** A column that takes the name [id] before the id of the source is listed
    becomes the view's id, and the id of the source is renamed. *)
Example view_id_can_be_taken :
  (λ p, (λ o, (origin o, out_name o, alias o)) <$> outputs p) <$>
    build_plan (sample_spec "customer" [sample_column "t1" "name" [("as", JString "id")]; sample_column "orders" "id" []])
      [sample_orders; sample_customers]
  = Ok [(Related 0, "name", "id"); (Base, "id", "id_2")].
Proof. vm_compute. reflexivity. Qed.

(** A hidden column is refused, but a hidden relation may be joined, and the id
    of its target is the value that is hidden. *)
Example hidden_relation_is_shown :
  is_ok (to_query (sample_spec "customer" [sample_column "orders" "cost" []]) [sample_orders; sample_customers]) = false
  ∧ is_ok (to_query (sample_spec "customer" [sample_column "orders" "auditor" []]) [sample_orders; sample_customers]) = false
  ∧ (λ p, (join_line p <$> relations p, select_line p <$> outputs p)) <$>
      build_plan (sample_spec "auditor" [sample_column "t1" "id" []]) [sample_orders; sample_customers]
    = Ok (["LEFT JOIN " +:+ quote_ident "customers" +:+ " AS " +:+ quote_ident "t1" +:+ " ON " +:+ dotted "t1" "id"
           +:+ "::text = " +:+ dotted "orders" "auditor"],
          ["    " +:+ dotted "orders" "id" +:+ " AS " +:+ quote_ident "id";
           "    " +:+ dotted "t1" "id" +:+ " AS " +:+ quote_ident "auditor_id"]).
Proof. vm_compute. done. Qed.

(** A relation that identifies its target, as the rest of the program prefers,
    cannot be used by the builder. *)
Example builder_ignores_collection_id :
  relation_target (JObject [("collectionId", JString "k")]) = Some "k"
  ∧ target_of (sample_field "customer" FRelation (JObject [("collectionId", JString "k")])) = Err Invalid.
Proof. done. Qed.
