(* ===== verification/Indexes.v ===== *)
(** Declared indexes, [crates/db/src/indexes.rs]: the two spellings of a
    declaration are parsed into an [IndexSpec], from which the statement that
    runs is built again.

    The results: an accepted list has distinct names that fit Postgres, names
    only the collection's own columns, and its statements scan to those names
    ([declared_indexes_are_safe]); the statement built from a plain index parses
    back to it ([index_roundtrip]). *)
From S2P Require Import Prelude CoreError F64 Json Sql Types Ddl Filter Compile CompileSpec Policy Samples.

(** [struct IndexColumn] and [struct IndexSpec]. *)
Record IndexColumn := { column_name : string; descending : bool }.
Record IndexSpec := {
  index_name : string;
  unique : bool;
  index_columns : list IndexColumn;
  index_predicate : option string;
}.

#[export] Instance IndexColumn_eq_dec : EqDecision IndexColumn.
Proof. solve_decision. Defined.
#[export] Instance IndexSpec_eq_dec : EqDecision IndexSpec.
Proof. solve_decision. Defined.

(** [IndexSpec::create_statement] and [drop_statement]. *)
Definition column_sql (c : IndexColumn) : string :=
  if descending c then quote_ident (column_name c) +:+ " desc" else quote_ident (column_name c).
Definition create_statement (spec : IndexSpec) (table : string) : string :=
  "create " +:+ (if unique spec then "unique " else "") +:+ "index if not exists " +:+ quote_ident (index_name spec)
  +:+ " on " +:+ quote_ident table +:+ " (" +:+ join ", " (column_sql <$> index_columns spec) +:+ ")"
  +:+ (match index_predicate spec with Some p => " where " +:+ p | None => "" end).
Definition drop_statement (spec : IndexSpec) : string := "drop index if exists " +:+ quote_ident (index_name spec).

Section names.
Context `{Sha256}.

(** [sha], [signature_hash], [generated_name], [disambiguated_name]. *)
Definition sha (value : string) : string := join "" (hex_byte <$> take 4 (sha256 value)).
Definition signature_hash (spec : IndexSpec) : string :=
  sha (bool_str (unique spec) +:+ "|"
       +:+ join ", " ((λ c, column_name c +:+ (if descending c then " desc" else "")) <$> index_columns spec) +:+ "|"
       +:+ default "" (index_predicate spec)).
Definition generated_name (table : string) (columns : list IndexColumn) : string :=
  let suffix := join "_" (column_name <$> columns) in
  let base := "idx_" +:+ table +:+ "_" +:+ suffix in
  if decide (String.length base ≤ MAX_IDENTIFIER_LEN)%nat then base
  else String.substring 0 MAX_IDENTIFIER_LEN (Ddl.index_name table suffix).
Definition disambiguated_name (base hash : string) : string :=
  let suffix := "_" +:+ hash in
  let keep := (MAX_IDENTIFIER_LEN - String.length suffix)%nat in
  String.substring 0 (Nat.min (String.length base) keep) base +:+ suffix.

(** [reserved_names]. *)
Definition reserved_names (c : Collection) : gset string :=
  let table := collection_name c in
  list_to_set ((λ f, Ddl.index_name table (field_name f)) <$> filter (λ f, is_unique f || field_is_indexed f = true) (fields c))
  ∪ (if is_auth (collection_type c) then {[Ddl.index_name table "email"]} else ∅).
End names.

(** * Tokens *)

(** [enum TokenKind] and [struct Token]: in place of the offset of its end, the
    text that follows it. *)
Inductive TokenKind := Identifier | Punctuation.
Record Token := { text : string; kind : TokenKind; rest : string }.

Definition ascii_upper (c : ascii) : ascii :=
  if is_ascii_lowercase c then ascii_of_N (byte_of c - 32) else c.
Definition upper (t : Token) : string := str_map ascii_upper (text t).

(** The quoted text up to [close], and what follows the closing character. *)
Fixpoint quoted_text (close : ascii) (s : string) : option (string * string) :=
  match s with
  | EmptyString => None
  | String c s =>
      if decide (c = close) then Some ("", s)
      else match quoted_text close s with Some (t, r) => Some (String c t, r) | None => None end
  end.
Definition closing (c : ascii) : option ascii :=
  if decide (c = quote_char) then Some quote_char
  else if decide (c = "`"%char) then Some "`"%char
  else if decide (c = "["%char) then Some "]"%char
  else None.
Definition word_char (c : ascii) : bool :=
  is_ascii_alphanumeric c || bool_decide (c = "_"%char ∨ c = "$"%char).
Fixpoint word (s : string) : string * string :=
  match s with
  | String c r => if word_char c then (let '(w, t) := word r in (String c w, t)) else ("", s)
  | EmptyString => ("", "")
  end.
Definition is_keyword (keyword w : string) : bool :=
  bool_decide (to_ascii_lowercase w = to_ascii_lowercase keyword).

(** [tokenize]; every round consumes a character ([tokenize_total]). *)
Fixpoint tokenize_from (rounds : nat) (raw : string) : result (list Token) :=
  match rounds with
  | O => Err Internal
  | S rounds =>
      match trim_start raw with
      | EmptyString => Ok []
      | String c r =>
          if decide (c = "("%char ∨ c = ")"%char ∨ c = ","%char) then
            ts ← tokenize_from rounds r;
            Ok ({| text := String c ""; kind := Punctuation; rest := r |} :: ts)
          else
            match closing c with
            | Some close =>
                '(t, r) ← ok_or (quoted_text close r) Invalid;
                ts ← tokenize_from rounds r;
                Ok ({| text := t; kind := Identifier; rest := r |} :: ts)
            | None =>
                if word_char c then
                  let '(w, r) := word (String c r) in
                  let token := {| text := w; kind := Identifier; rest := r |} in
                  if is_keyword "where" w then Ok [token]
                  else ts ← tokenize_from rounds r; Ok (token :: ts)
                else Err Unsupported
            end
      end
  end.
Definition tokenize (raw : string) : result (list Token) := tokenize_from (S (String.length raw)) raw.

(** * Declarations *)

(** [validate_column]. *)
Definition validate_column (name : string) (ctx : FilterContext) : result string :=
  if has_column ctx name then Ok name else Err Invalid.

(** The direction after a column, and the tokens after it. *)
Definition direction (ts : list Token) : bool * list Token :=
  match ts with
  | t :: r =>
      if decide (upper t = "ASC") then (false, r)
      else if decide (upper t = "DESC") then (true, r) else (false, ts)
  | [] => (false, ts)
  end.

(** An optional keyword: whether it is there, and the tokens after it. *)
Definition take_keyword (keyword : string) (ts : list Token) : bool * list Token :=
  match ts with t :: r => if decide (upper t = keyword) then (true, r) else (false, ts) | [] => (false, ts) end.

(** The loop of [parse_expression], one round per column. *)
Fixpoint expression_columns (rounds : nat) (ts : list Token) (ctx : FilterContext) : result (list IndexColumn) :=
  match rounds with
  | O => Err Internal
  | S rounds =>
      match ts with
      | [] => Err Invalid
      | column :: ts =>
          match kind column with
          | Punctuation => Err Invalid
          | Identifier =>
              let '(desc, ts) := direction ts in
              name ← validate_column (text column) ctx;
              match ts with
              | [] => Ok [{| column_name := name; descending := desc |}]
              | t :: ts =>
                  if decide (text t = ",") then
                    cs ← expression_columns rounds ts ctx; Ok ({| column_name := name; descending := desc |} :: cs)
                  else Err Invalid
              end
          end
      end
  end.
Definition parse_expression (ts : list Token) (ctx : FilterContext) : result IndexSpec :=
  let '(unique, ts) := take_keyword "UNIQUE" ts in
  columns ← expression_columns (S (length ts)) ts ctx;
  Ok {| index_name := ""; unique := unique; index_columns := columns; index_predicate := None |}.

(** [expect_keyword]. *)
Definition expect_keyword (keyword : string) (ts : list Token) : result (list Token) :=
  match ts with
  | t :: ts => if decide (upper t = keyword) then Ok ts else Err Invalid
  | [] => Err Invalid
  end.

Definition UNSUPPORTED_WORDS : list string := ["COLLATE"; "NULLS"; "USING"; "INCLUDE"].

(** The loop of [parse_statement]: the columns up to the closing parenthesis,
    and the tokens after it. *)
Fixpoint statement_columns (rounds : nat) (ts : list Token) (ctx : FilterContext)
    : result (list IndexColumn * list Token) :=
  match rounds with
  | O => Err Internal
  | S rounds =>
      match ts with
      | [] => Err Invalid
      | column :: ts =>
          if decide (text column = "(") then Err Unsupported
          else match kind column with
          | Punctuation => Err Invalid
          | Identifier =>
              let '(desc, ts') := direction ts in
              if match ts with
                 | t :: _ => bool_decide (upper t ∈ UNSUPPORTED_WORDS)
                 | [] => false
                 end then Err Unsupported
              else
              name ← validate_column (text column) ctx;
              match ts' with
              | [] => Err Invalid
              | t :: ts =>
                  if decide (text t = ",") then
                    '(cs, ts) ← statement_columns rounds ts ctx;
                    Ok ({| column_name := name; descending := desc |} :: cs, ts)
                  else if decide (text t = ")") then Ok ([{| column_name := name; descending := desc |}], ts)
                  else Err Invalid
              end
          end
      end
  end.

(** The [where] predicate of [parse_statement], compiled as a rule is. *)
Definition parse_predicate (ts : list Token) (ctx : FilterContext) : result (option string) :=
  match ts with
  | [] => Ok None
  | t :: _ =>
      if decide (upper t = "WHERE") then
        e ← parse (trim (replace_char "`"%char "" (rest t)));
        p ← predicate e ctx;
        Ok (Some p)
      else Err Unsupported
  end.

(** [parse_statement]. *)
Definition parse_statement (table : string) (ts : list Token) (ctx : FilterContext) : result IndexSpec :=
  ts ← expect_keyword "CREATE" ts;
  let '(unique, ts) := take_keyword "UNIQUE" ts in
  ts ← expect_keyword "INDEX" ts;
  ts ← (let '(given, r) := take_keyword "IF" ts in
        if given then (r ← expect_keyword "NOT" r; expect_keyword "EXISTS" r) else Ok ts);
  '(name, ts) ← match ts with
    | t :: r => match kind t with Identifier => Ok (text t, r) | Punctuation => Err Invalid end
    | [] => Err Invalid
    end;
  _ ← validate_identifier name;
  ts ← expect_keyword "ON" ts;
  ts ← match ts with
    | t :: r =>
        match kind t with
        | Identifier => if is_keyword table (text t) then Ok r else Err Invalid
        | Punctuation => Err Invalid
        end
    | [] => Err Invalid
    end;
  ts ← match ts with t :: r => if decide (text t = "(") then Ok r else Err Invalid | [] => Err Invalid end;
  '(columns, ts) ← statement_columns (S (length ts)) ts ctx;
  predicate ← parse_predicate ts ctx;
  Ok {| index_name := name; unique := unique; index_columns := columns; index_predicate := predicate |}.

(** [parse_one]. *)
Definition is_statement (ts : list Token) : bool :=
  match ts with
  | a :: b :: _ :: _ => bool_decide (upper a = "CREATE" ∧ (upper b = "UNIQUE" ∨ upper b = "INDEX"))
  | _ => false
  end.
Definition parse_one (table raw : string) (ctx : FilterContext) : result IndexSpec :=
  ts ← tokenize raw;
  match ts with
  | [] => Err Invalid
  | _ => if is_statement ts then parse_statement table ts ctx else parse_expression ts ctx
  end.

(** The body of the loop of [parse_all], and [parse_all]. *)
Definition set_name (spec : IndexSpec) (name : string) : IndexSpec :=
  {| index_name := name; unique := unique spec; index_columns := index_columns spec; index_predicate := index_predicate spec |}.
Section parse_all.
Context `{Sha256}.
Definition add_spec (table : string) (ctx : FilterContext) (st : list IndexSpec * gset string) (raw : string)
    : result (list IndexSpec * gset string) :=
  let '(specs, taken) := st in
  spec ← parse_one table raw ctx;
  let spec := if decide (index_name spec = "") then set_name spec (generated_name table (index_columns spec)) else spec in
  let spec :=
    if decide (index_name spec ∈ taken)
    then set_name spec (disambiguated_name (index_name spec) (signature_hash spec)) else spec in
  if decide (index_name spec ∈ index_name <$> specs) then Err Invalid
  else Ok (specs ++ [spec], {[index_name spec]} ∪ taken).
Definition parse_all (c : Collection) (declared : list string) (ctx : FilterContext) : result (list IndexSpec) :=
  fst <$> try_fold (add_spec (collection_name c) ctx) ([], reserved_names c) declared.
End parse_all.

(** * The tokenizer ends, and reads a text piece by piece *)

Lemma quoted_text_short close s t r : quoted_text close s = Some (t, r) → (String.length r < String.length s)%nat.
Proof.
  revert t r. induction s as [|c s IH]; intros t r; [done|]. cbn [quoted_text]. case_decide; [intros [= _ <-]; cbn; lia|].
  destruct (quoted_text close s) as [[t' r']|]; [|done]. intros [= _ <-]. specialize (IH t' r' eq_refl). cbn. lia.
Qed.

Lemma word_short s : (String.length (word s).2 ≤ String.length s)%nat.
Proof.
  induction s as [|c s IH]; [done|]. cbn [word]. destruct (word_char c); [|done]. destruct (word s). cbn in *. lia.
Qed.

Lemma trim_start_short s : (String.length (trim_start s) ≤ String.length s)%nat.
Proof.
  remember (String.length s) as n eqn:E. revert s E.
  induction n as [n IH] using lt_wf_ind. intros s ->. destruct s as [|a [|b [|c s]]]; cbn [trim_start];
    repeat case_match; cbn [String.length]; try lia;
    match goal with |- (String.length (trim_start ?s) ≤ _)%nat => specialize (IH (String.length s)); cbn in IH;
      specialize (IH ltac:(lia) s eq_refl); cbn in IH |- *; lia | _ => idtac end.
Qed.

Lemma tokenize_enough n m raw :
  (String.length raw < n)%nat → (String.length raw < m)%nat → tokenize_from n raw = tokenize_from m raw.
Proof.
  revert m raw. induction n as [|n IH]; intros [|m] raw Ln Lm; [lia..|]. cbn [tokenize_from].
  pose proof (trim_start_short raw) as T. destruct (trim_start raw) as [|c r] eqn:E; [done|]. cbn in T.
  assert (∀ r', (String.length r' ≤ String.length r)%nat → tokenize_from n r' = tokenize_from m r') as K
    by (intros r' L; apply IH; lia).
  case_decide; [by rewrite K|]. destruct (closing c) as [close|].
  - destruct (quoted_text close r) as [[t r']|] eqn:Q; [|done]. cbn [ok_or mbind result_bind].
    apply quoted_text_short in Q. by rewrite K by lia.
  - destruct (word_char c) eqn:W; [|done]. cbn [word]. rewrite W. pose proof (word_short r) as S.
    destruct (word r) as [w r']. case_match; [done|]. by rewrite K.
Qed.

Lemma tokenize_total n raw : (String.length raw < n)%nat → tokenize_from n raw ≠ Err Internal.
Proof.
  revert raw. induction n as [|n IH]; intros raw L; [lia|]. cbn [tokenize_from].
  pose proof (trim_start_short raw) as T. destruct (trim_start raw) as [|c r]; [done|]. cbn in T.
  assert (∀ A r' (k : list Token → A), (String.length r' ≤ String.length r)%nat →
    (ts ← tokenize_from n r'; Ok (k ts)) ≠ Err Internal) as K.
  { intros A r' k L'. specialize (IH r' ltac:(lia)). destruct (tokenize_from n r') as [ts|e]; [done|]. cbn. intros [= ->]. done. }
  case_decide; [by apply K|]. destruct (closing c) as [close|].
  - destruct (quoted_text close r) as [[t r']|] eqn:Q; [|done]. cbn [ok_or mbind result_bind].
    apply quoted_text_short in Q. apply K. lia.
  - destruct (word_char c) eqn:W; [|done]. cbn [word]. rewrite W. pose proof (word_short r) as S.
    destruct (word r) as [w r']. case_match; [done|]. by apply K.
Qed.

(** The tokens without what follows them. *)
Definition token_texts (ts : list Token) : list (string * TokenKind) := (λ t, (text t, kind t)) <$> ts.
Definition tokens (raw : string) : result (list (string * TokenKind)) := token_texts <$> tokenize raw.

Lemma tokens_space s : tokens (" " +:+ s) = tokens s.
Proof.
  unfold tokens, tokenize. rewrite (tokenize_enough (S (String.length s)) (S (String.length (" " +:+ s))) s); [|rewrite ?str_length_app; cbn; lia..].
  reflexivity.
Qed.

Lemma tokens_step c r t r' :
  trim_start (String c r) = String c r → (String.length r' ≤ String.length r)%nat → rest t = r' →
  (∀ n, tokenize_from (S n) (String c r) = (ts ← tokenize_from n r'; Ok (t :: ts))) →
  tokens (String c r) = cons (text t, kind t) <$> tokens r'.
Proof.
  intros T L R K. unfold tokens, tokenize. rewrite K. cbn [String.length].
  rewrite (tokenize_enough (S (String.length r)) (S (String.length r')) r') by lia. by destruct (tokenize_from _ r').
Qed.

Lemma tokens_punctuation c r :
  c = "("%char ∨ c = ")"%char ∨ c = ","%char → tokens (String c r) = cons (String c "", Punctuation) <$> tokens r.
Proof.
  intros P. assert (trim_start (String c r) = String c r) as T.
  { apply trim_start_graphic. by destruct P as [-> |[-> | ->]]. }
  apply (tokens_step c r {| text := String c ""; kind := Punctuation; rest := r |} r T); [done..|].
  intros n. cbn [tokenize_from]. rewrite T. by rewrite decide_True.
Qed.

Lemma quoted_text_app x r : str_contains quote_char x = false → quoted_text quote_char (x +:+ String quote_char r) = Some (x, r).
Proof.
  induction x as [|c x IH]; intros N; str_simpl; cbn [quoted_text]; [by rewrite decide_True|].
  unfold str_contains, str_exists in *. cbn [str_forall] in N. apply negb_false_iff, andb_true_iff in N as [N1 N2].
  apply negb_true_iff, bool_decide_eq_false in N1. rewrite decide_False by done. rewrite IH; [done|]. by rewrite N2.
Qed.

Lemma replace_char_none c t s : str_contains c s = false → replace_char c t s = s.
Proof.
  induction s as [|d s IH]; [done|]. unfold str_contains, str_exists in *. cbn [str_forall replace_char].
  intros [N1 N2]%negb_false_iff%andb_true_iff. apply negb_true_iff, bool_decide_eq_false in N1.
  rewrite decide_False by done. f_equal. apply IH. by rewrite N2.
Qed.

Lemma tokens_quoted x r : str_contains quote_char x = false → tokens (quote_ident x +:+ r) = cons (x, Identifier) <$> tokens r.
Proof.
  intros N. unfold quote_ident, dq. rewrite replace_char_none by done. rewrite <-!str_app_assoc, !str_app_cons, !str_app_nil_l.
  apply (tokens_step quote_char _ {| text := x; kind := Identifier; rest := r |} r); [by apply trim_start_graphic| |done|].
  - rewrite str_length_app. cbn. lia.
  - intros n. cbn [tokenize_from]. rewrite trim_start_graphic by done.
    rewrite decide_False by (by intros [?|[?|?]]). cbn [closing]. unfold closing. rewrite decide_True by done.
    by rewrite quoted_text_app.
Qed.

Definition stops (s : string) : bool := match s with String c _ => negb (word_char c) | EmptyString => true end.
Lemma word_app w r : str_forall word_char w = true → stops r = true → word (w +:+ r) = (w, r).
Proof.
  intros W S. induction w as [|c w IH]; str_simpl.
  - destruct r as [|c r]; [done|]. cbn in S |- *. apply negb_true_iff in S. by rewrite S.
  - cbn [str_forall] in W. apply andb_true_iff in W as [H1 H2]. cbn [word]. by rewrite H1, IH.
Qed.

(** A keyword of the program's own text. *)
Lemma tokens_word c w r :
  is_graphic c = true → (c ≠ "("%char ∧ c ≠ ")"%char ∧ c ≠ ","%char) → closing c = None →
  str_forall word_char (String c w) = true → is_keyword "where" (String c w) = false → stops r = true →
  tokens (String c w +:+ r) = cons (String c w, Identifier) <$> tokens r.
Proof.
  intros G P C W K S. rewrite str_app_cons.
  apply (tokens_step c _ {| text := String c w; kind := Identifier; rest := r |}); [by apply trim_start_graphic| |done|].
  - rewrite str_length_app. lia.
  - intros n. cbn [tokenize_from]. rewrite trim_start_graphic by done. rewrite decide_False by tauto. rewrite C.
    pose proof (word_app (String c w) r W S) as Hw. rewrite str_app_cons in Hw. rewrite Hw, K.
    cbn [str_forall] in W. apply andb_true_iff in W as [W _]. by rewrite W.
Qed.

(** * The tokens of a statement that was built *)

Definition column_tokens (c : IndexColumn) : list (string * TokenKind) :=
  (column_name c, Identifier) :: if descending c then [("desc", Identifier)] else [].
Fixpoint columns_tokens (cs : list IndexColumn) : list (string * TokenKind) :=
  match cs with
  | [] => []
  | [c] => column_tokens c
  | c :: cs => column_tokens c ++ [(",", Punctuation)] ++ columns_tokens cs
  end.

Definition plain_name (x : string) : Prop := str_forall word_char x = true.
Lemma plain_name_quote x : plain_name x → str_contains quote_char x = false.
Proof.
  unfold plain_name, str_contains, str_exists. intros H. apply negb_false_iff. eapply str_forall_impl; [|exact H].
  intros c W. apply negb_true_iff, bool_decide_eq_false. by intros ->.
Qed.

Lemma column_tokens_spec c r :
  plain_name (column_name c) → stops r = true → tokens (column_sql c +:+ r) = app (column_tokens c) <$> tokens r.
Proof.
  intros N%plain_name_quote S. unfold column_sql, column_tokens. destruct (descending c).
  - rewrite <-str_app_assoc, tokens_quoted by done. change " desc" with (" " +:+ "desc"). rewrite <-str_app_assoc, tokens_space.
    assert (tokens ("desc" +:+ r) = cons ("desc", Identifier) <$> tokens r) as ->
      by (apply tokens_word; [done|split_and!; discriminate|done|done|done|done]).
    by destruct (tokens r).
  - rewrite tokens_quoted by done. by destruct (tokens r).
Qed.

Lemma columns_tokens_spec cs r :
  Forall (λ c, plain_name (column_name c)) cs → cs ≠ [] → stops r = true →
  tokens (join ", " (column_sql <$> cs) +:+ r) = app (columns_tokens cs) <$> tokens r.
Proof.
  intros F N S. induction F as [|c cs H F IH]; [done|]. destruct cs as [|d cs].
  { cbn [fmap list_fmap columns_tokens]. unfold join. cbn [String.concat]. by apply column_tokens_spec. }
  cbn [fmap list_fmap]. rewrite join_cons2, <-!str_app_assoc. rewrite column_tokens_spec; [|done|done].
  assert (∀ s, ", " +:+ s = String "," (" " +:+ s)) as -> by done. rewrite tokens_punctuation by tauto.
  rewrite tokens_space. cbn [fmap list_fmap] in IH. rewrite IH by done.
  destruct (tokens r); cbn; [|done]. by rewrite <-app_assoc.
Qed.

Definition create_tokens (spec : IndexSpec) (table : string) : list (string * TokenKind) :=
  [("create", Identifier)] ++ (if unique spec then [("unique", Identifier)] else [])
  ++ [("index", Identifier); ("if", Identifier); ("not", Identifier); ("exists", Identifier); (index_name spec, Identifier);
      ("on", Identifier); (table, Identifier); ("(", Punctuation)]
  ++ columns_tokens (index_columns spec) ++ [(")", Punctuation)].

Definition plain_spec (spec : IndexSpec) (table : string) : Prop :=
  plain_name (index_name spec) ∧ plain_name table ∧ Forall (λ c, plain_name (column_name c)) (index_columns spec)
  ∧ index_columns spec ≠ [] ∧ index_predicate spec = None.

Lemma tokens_keyword (w : string) r :
  match w with
  | String c s => is_graphic c = true ∧ (c ≠ "("%char ∧ c ≠ ")"%char ∧ c ≠ ","%char) ∧ closing c = None
  | EmptyString => False
  end → str_forall word_char w = true → is_keyword "where" w = false →
  tokens (w +:+ " " +:+ r) = cons (w, Identifier) <$> tokens r.
Proof.
  destruct w as [|c w]; [done|]. intros (G & P & C) W K. rewrite tokens_word; [|done..]. by rewrite tokens_space.
Qed.

Lemma create_statement_tokens spec table :
  plain_spec spec table → tokens (create_statement spec table) = Ok (create_tokens spec table).
Proof.
  intros (N%plain_name_quote & T%plain_name_quote & C & E & P). unfold create_statement. rewrite P, str_app_nil_r.
  assert (∀ s, "create " +:+ s = "create" +:+ " " +:+ s) as -> by done.
  assert (∀ s, "index if not exists " +:+ s = "index" +:+ " " +:+ "if" +:+ " " +:+ "not" +:+ " " +:+ "exists" +:+ " " +:+ s) as -> by done.
  assert (∀ s, " on " +:+ s = " " +:+ "on" +:+ " " +:+ s) as -> by done.
  assert (∀ s, " (" +:+ s = " " +:+ String "(" s) as -> by done.
  assert (∀ r, tokens ((if unique spec then "unique " else "") +:+ r)
    = app (if unique spec then [("unique", Identifier)] else []) <$> tokens r) as U.
  { intros r. destruct (unique spec).
    - assert ("unique " +:+ r = "unique" +:+ " " +:+ r) as -> by done. rewrite tokens_keyword; [by destruct (tokens r)|by vm_compute|done|done].
    - rewrite str_app_nil_l. by destruct (tokens r). }
  rewrite (tokens_keyword "create"), U; [|by vm_compute|done|done].
  rewrite (tokens_keyword "index"), (tokens_keyword "if"), (tokens_keyword "not"), (tokens_keyword "exists"); [|by vm_compute..].
  rewrite tokens_quoted, tokens_space by done. rewrite (tokens_keyword "on"); [|by vm_compute..].
  rewrite tokens_quoted, tokens_space by done. rewrite tokens_punctuation by tauto.
  rewrite columns_tokens_spec by done. unfold create_tokens.
  change (tokens ")") with (Ok [(")", Punctuation)]). cbn [fmap result_fmap]. by destruct (unique spec).
Qed.

Lemma token_texts_cons ts x l :
  token_texts ts = x :: l → ∃ t ts', ts = t :: ts' ∧ text t = x.1 ∧ kind t = x.2 ∧ token_texts ts' = l.
Proof. destruct ts as [|t ts]; [done|]. intros [= <- <-]. by exists t, ts. Qed.

Ltac next_token H t ts :=
  let E1 := fresh in let E2 := fresh in
  apply token_texts_cons in H as (t & ts & -> & E1 & E2 & H); cbn [fst snd] in E1, E2.

Lemma expect_keyword_text k ts w l :
  token_texts ts = (w, Identifier) :: l → str_map ascii_upper w = k →
  ∃ ts', expect_keyword k ts = Ok ts' ∧ token_texts ts' = l ∧ (length ts = S (length ts'))%nat.
Proof.
  intros (t & ts' & -> & T & _ & H)%token_texts_cons U. exists ts'. split; [|done]. cbn. unfold upper. rewrite T. cbn. by rewrite U, decide_True.
Qed.

Lemma take_keyword_text k w (given : bool) ts x l :
  token_texts ts = (if given then [(w, Identifier)] else []) ++ (x, Identifier) :: l →
  str_map ascii_upper w = k → str_map ascii_upper x ≠ k →
  ∃ ts', take_keyword k ts = (given, ts') ∧ token_texts ts' = (x, Identifier) :: l.
Proof.
  intros T W X. destruct given; cbn [app] in T.
  - next_token T t ts'. exists ts'. split; [|done]. unfold take_keyword, upper. by rewrite H, W, decide_True.
  - pose proof T as T'. next_token T t ts'. exists (t :: ts'). split; [|done]. unfold take_keyword, upper. by rewrite H, decide_False.
Qed.

Lemma statement_columns_text n cs ts ctx l :
  token_texts ts = columns_tokens cs ++ (")", Punctuation) :: l → (length ts < n)%nat → cs ≠ [] →
  Forall (λ c, plain_name (column_name c) ∧ has_column ctx (column_name c) = true) cs →
  ∃ ts', statement_columns n ts ctx = Ok (cs, ts') ∧ token_texts ts' = l.
Proof.
  intros T L E F. revert n ts T L. induction F as [|c cs [N C] F IH]; intros [|n] ts T L; [done|done|lia|]. clear E.
  assert (∃ t td rst, ts = t :: td ∧ text t = column_name c ∧ kind t = Identifier
    ∧ direction td = (descending c, rst) ∧ (length rst ≤ length td)%nat
    ∧ match td with t :: _ => bool_decide (upper t ∈ UNSUPPORTED_WORDS) | [] => false end = false
    ∧ token_texts rst = match cs with [] => (")", Punctuation) :: l | _ => (",", Punctuation) :: columns_tokens cs ++ (")", Punctuation) :: l end)
    as (t & td & rst & -> & T1 & T2 & D & Ld & U & R).
  { assert (token_texts ts = column_tokens c ++ match cs with [] => (")", Punctuation) :: l | _ => (",", Punctuation) :: columns_tokens cs ++ (")", Punctuation) :: l end) as T'.
    { rewrite T. destruct cs as [|d cs]; [done|]. cbn [columns_tokens]. by rewrite <-app_assoc. }
    clear T. unfold column_tokens in T'. cbn [app] in T'. apply token_texts_cons in T' as (t & td & -> & T1 & T2 & T').
    exists t, td. destruct (descending c).
    - apply token_texts_cons in T' as (t2 & td2 & -> & T3 & _ & T'). exists td2. cbn [fst snd] in *. split_and!; try done.
      + unfold direction, upper. by rewrite T3.
      + cbn. lia.
      + unfold upper. by rewrite T3.
    - assert (∃ t2 td2, td = t2 :: td2 ∧ (text t2 = ")" ∨ text t2 = ",")) as (t2 & td2 & -> & T3).
      { destruct cs; apply token_texts_cons in T' as (t2 & td2 & -> & T3 & _); eauto. }
      exists (t2 :: td2). cbn [fst snd] in *. split_and!; try done;
        unfold direction, upper; by destruct T3 as [-> | ->]. }
  cbn [statement_columns]. rewrite T1, T2. rewrite decide_False.
  2: { intros E. rewrite E in N. done. }
  rewrite D, U. unfold validate_column. rewrite C. cbn [mbind result_bind].
  destruct cs as [|d cs].
  - apply token_texts_cons in R as (t2 & rst' & -> & T3 & _ & R). cbn [fst] in T3. rewrite T3. cbn. exists rst'. split; [|done].
    repeat f_equal. by destruct c.
  - apply token_texts_cons in R as (t2 & rst' & -> & T3 & _ & R). cbn [fst] in T3. rewrite T3. rewrite decide_True by done.
    destruct (IH ltac:(done) n rst') as (ts' & S & Hl); [done|cbn in Ld, L; lia|]. rewrite S. cbn. exists ts'. split; [|done].
    repeat f_equal. by destruct c.
Qed.

(** the statement the program builds for a plain index parses back to
    that index: re-importing what was exported declares the same indexes. *)
Theorem index_roundtrip spec table ctx :
  plain_spec spec table → validate_identifier (index_name spec) = Ok () →
  Forall (λ c, has_column ctx (column_name c) = true) (index_columns spec) →
  parse_one table (create_statement spec table) ctx = Ok spec.
Proof.
  intros PS V F. pose proof (create_statement_tokens _ _ PS) as T. destruct PS as (N & Tb & C & E & P).
  unfold tokens in T. apply fmap_Ok in T as (ts & Ht & T). symmetry in T. unfold parse_one. rewrite Ht. cbn [mbind result_bind].
  assert (is_statement ts = true) as IsS.
  { unfold create_tokens in T. destruct (unique spec); next_token T t1 ts1; next_token T t2 ts2; next_token T t3 ts3;
      cbn [is_statement]; unfold upper; apply bool_decide_eq_true; rewrite H, H1; vm_compute; auto. }
  rewrite IsS. assert (ts ≠ []) as Hne by (by intros ->). destruct ts as [|t0 ts0]; [done|]. remember (t0 :: ts0) as ts eqn:Ets. clear Ets Hne.
  unfold parse_statement, create_tokens in *.
  destruct (expect_keyword_text "CREATE" ts _ _ T) as (ts1 & -> & T1 & _); [done|]. cbn [mbind result_bind].
  destruct (take_keyword_text "UNIQUE" "unique" (unique spec) ts1 _ _ T1) as (ts2 & -> & T2); [done|done|]. clear T1.
  destruct (expect_keyword_text "INDEX" ts2 _ _ T2) as (ts3 & -> & T3 & _); [done|]. cbn [mbind result_bind].
  destruct (take_keyword_text "IF" "if" true ts3 "not" _ T3) as (ts4 & -> & T4); [done|done|].
  destruct (expect_keyword_text "NOT" ts4 _ _ T4) as (ts5 & -> & T5 & _); [done|]. cbn [mbind result_bind].
  destruct (expect_keyword_text "EXISTS" ts5 _ _ T5) as (ts6 & -> & T6 & _); [done|]. cbn [mbind result_bind].
  next_token T6 t6 ts7. rewrite H0, H. cbn [mbind result_bind]. rewrite V. cbn [mbind result_bind].
  destruct (expect_keyword_text "ON" ts7 _ _ T6) as (ts8 & -> & T8 & _); [done|]. cbn [mbind result_bind].
  next_token T8 t8 ts9. rewrite H2, H1. unfold is_keyword. rewrite bool_decide_eq_true_2 by done. cbn [mbind result_bind].
  next_token T8 t9 ts10. rewrite H3, decide_True by done. cbn [mbind result_bind].
  destruct (statement_columns_text (S (length ts10)) (index_columns spec) ts10 ctx [] T8) as (ts11 & -> & T11); [lia|done| |].
  { apply Forall_and. done. }
  cbn [mbind result_bind]. destruct ts11; [|done]. cbn. f_equal. destruct spec; cbn in *. by subst.
Qed.

(** * What is accepted *)

Lemma try_cases {A} (b : bool) (x y : A) z : (if b then x else y) = z → (b = true ∧ x = z) ∨ (b = false ∧ y = z).
Proof. destruct b; auto. Qed.

Definition column_known (ctx : FilterContext) (c : IndexColumn) : Prop := has_column ctx (column_name c) = true.

Lemma validate_column_Ok x ctx y : validate_column x ctx = Ok y → y = x ∧ has_column ctx x = true.
Proof. unfold validate_column. destruct (has_column ctx x) eqn:E; [|done]. by intros [= <-]. Qed.

Lemma expression_columns_known n ts ctx cs : expression_columns n ts ctx = Ok cs → Forall (column_known ctx) cs ∧ cs ≠ [].
Proof.
  revert ts cs. induction n as [|n IH]; intros ts cs; [done|]. cbn [expression_columns]. destruct ts as [|t ts]; [done|].
  destruct (kind t); [|done]. destruct (direction ts) as [d rst]. intros (x & [-> X]%validate_column_Ok & H)%bind_Ok.
  destruct rst as [|t2 rst]; [injection H as <-; split; [by repeat constructor|done]|]. case_decide; [|done].
  apply bind_Ok in H as (cs' & [F _]%IH & [= <-]). split; [by constructor|done].
Qed.

Lemma statement_columns_known n ts ctx cs ts' :
  statement_columns n ts ctx = Ok (cs, ts') → Forall (column_known ctx) cs ∧ cs ≠ [].
Proof.
  revert ts cs ts'. induction n as [|n IH]; intros ts cs ts'; [done|]. cbn [statement_columns]. destruct ts as [|t ts]; [done|].
  case_decide; [done|]. destruct (kind t); [|done]. destruct (direction ts) as [d rst].
  intros [[_ H']|[_ H']]%try_cases; [done|]. apply bind_Ok in H' as (x & [-> X]%validate_column_Ok & H').
  destruct rst as [|t2 rst]; [done|]. case_decide.
  - apply bind_Ok in H' as ([cs1 ts1] & [F _]%IH & [= <- <-]). split; [by constructor|done].
  - case_decide; [|done]. injection H' as <- <-. split; [by repeat constructor|done].
Qed.

(** An accepted declaration: known columns, a name that is valid or absent, and
    a predicate that is a compiled rule. *)
Definition spec_ok (ctx : FilterContext) (spec : IndexSpec) : Prop :=
  Forall (column_known ctx) (index_columns spec) ∧ index_columns spec ≠ []
  ∧ (∀ p, index_predicate spec = Some p → ∃ e, predicate e ctx = Ok p).

Lemma parse_one_ok table raw ctx spec :
  parse_one table raw ctx = Ok spec →
  spec_ok ctx spec ∧ (index_name spec = "" ∨ validate_identifier (index_name spec) = Ok ()).
Proof.
  unfold parse_one. intros (ts & _ & H)%bind_Ok. destruct ts as [|t0 ts0]; [done|].
  remember (t0 :: ts0) as ts eqn:E. clear E. apply try_cases in H as [[_ H]|[_ H]].
  - unfold parse_statement in H. apply bind_Ok in H as (ts1 & _ & H). destruct (take_keyword "UNIQUE" ts1) as [u ts2].
    apply bind_Ok in H as (ts3 & _ & H). apply bind_Ok in H as (ts4 & _ & H). apply bind_Ok in H as ([name ts5] & _ & H).
    apply bind_Ok in H as ([] & V & H). apply bind_Ok in H as (ts6 & _ & H). apply bind_Ok in H as (ts7 & _ & H).
    apply bind_Ok in H as (ts8 & _ & H). apply bind_Ok in H as ([cs ts9] & [F Ne]%statement_columns_known & H).
    apply bind_Ok in H as (p & P & [= <-]). split; [|by right]. split_and!; [done|done|]. cbn. intros q ->.
    unfold parse_predicate in P. destruct ts9 as [|t ts9]; [done|]. case_decide; [|done].
    apply bind_Ok in P as (e & _ & P). apply bind_Ok in P as (q' & Q & [= ->]). eauto.
  - unfold parse_expression in H. destruct (take_keyword "UNIQUE" ts) as [u ts2].
    apply bind_Ok in H as (cs & [F Ne]%expression_columns_known & [= <-]). split; [|by left]. split_and!; done.
Qed.

Lemma substring_length n m s : (String.length (String.substring n m s) ≤ m)%nat.
Proof.
  revert n m. induction s as [|c s IH]; intros [|n] [|m]; cbn; try lia.
  - specialize (IH 0%nat m). lia.
  - specialize (IH n 0%nat). lia.
  - specialize (IH n (S m)). lia.
Qed.

Lemma join_empty_length l : Forall (λ s, String.length s = 2%nat) l → String.length (join "" l) = (2 * length l)%nat.
Proof.
  induction 1 as [|s l H F IH]; [done|]. destruct l as [|t l]; [by unfold join; cbn; rewrite H|].
  rewrite join_cons2, !str_length_app, IH, H. cbn. lia.
Qed.

Section safe.
Context `{Sha256}.

Lemma sha_length v : (String.length (sha v) ≤ 8)%nat.
Proof.
  unfold sha. rewrite join_empty_length by (apply Forall_fmap, Forall_true; done). rewrite length_fmap, length_take. lia.
Qed.

Definition name_fits (name : string) : Prop := (0 < String.length name ≤ MAX_IDENTIFIER_LEN)%nat.

Lemma valid_name_fits name : validate_identifier name = Ok () → name_fits name.
Proof.
  unfold validate_identifier, name_fits. case_decide as D; [done|]. case_decide; [done|]. intros _.
  destruct name; [done|]. cbn in *. lia.
Qed.

Lemma generated_name_fits table cs : name_fits (generated_name table cs).
Proof.
  unfold generated_name, name_fits. cbv zeta. set (suffix := join _ _). case_decide as D.
  { rewrite !str_length_app in *. cbn in *. lia. }
  split; [|apply substring_length].
  unfold Ddl.index_name. rewrite decide_False by done.
  set (hash := join "" _). assert (∃ c s, String.substring 0 (MAX_IDENTIFIER_LEN - String.length hash - 1) ("idx_" +:+ table +:+ "_" +:+ suffix) +:+ "_" +:+ hash = String c s) as (c & s & ->).
  { destruct (String.substring _ _ _) as [|c s]; [exists "_"%char, hash; reflexivity|]. rewrite str_app_cons. eauto. }
  cbn. lia.
Qed.

Lemma disambiguated_name_fits base spec : name_fits (disambiguated_name base (signature_hash spec)).
Proof.
  unfold disambiguated_name, name_fits, signature_hash. cbv zeta. rewrite !str_length_app.
  set (h := sha _). pose proof (sha_length (bool_str (unique spec) +:+ "|"
       +:+ join ", " ((λ c, column_name c +:+ (if descending c then " desc" else "")) <$> index_columns spec) +:+ "|"
       +:+ default "" (index_predicate spec))) as L. fold h in L.
  pose proof (substring_length 0 (Nat.min (String.length base) (MAX_IDENTIFIER_LEN - (1 + String.length h))) base) as L2.
  change (String.length "_") with 1%nat. unfold MAX_IDENTIFIER_LEN in *. lia.
Qed.

(** What its statements contain. *)
Definition index_ident (table : string) (ctx : FilterContext) (spec : IndexSpec) (x : string) : Prop :=
  x = index_name spec ∨ x = table ∨ has_column ctx x = true.
Definition index_literal (ctx : FilterContext) (spec : IndexSpec) (v : string) : Prop :=
  ∃ p e, index_predicate spec = Some p ∧ predicate e ctx = Ok p ∧ policy_literal e v.

Lemma create_statement_part table ctx spec p :
  spec_ok ctx spec → part (index_ident table ctx spec) (index_literal ctx spec) p (create_statement spec table) p.
Proof.
  intros (F & _ & Pr). unfold create_statement.
  assert (index_ident table ctx spec (index_name spec)) as H1 by by left.
  assert (index_ident table ctx spec table) as H2 by by right; left.
  assert (∀ p, part (index_ident table ctx spec) (index_literal ctx spec) p (join ", " (column_sql <$> index_columns spec)) p) as Hc.
  { apply inert_join; [done..|]. apply Forall_fmap. eapply Forall_impl; [exact F|]. intros c C q.
    assert (index_ident table ctx spec (column_name c)) by by right; right. unfold compose, column_sql. destruct (descending c). all: part_solve. }
  assert (∀ p, part (index_ident table ctx spec) (index_literal ctx spec) p (if unique spec then "unique " else "") p) as Hu
    by (intros q; destruct (unique spec); apply part_bare; done).
  destruct (index_predicate spec) as [pred|] eqn:E.
  - assert (∀ p, part (index_ident table ctx spec) (index_literal ctx spec) p pred p) as Hp.
    { destruct (Pr _ eq_refl) as (e & Pe). pose proof (predicate_spec e ctx) as S. rewrite Pe in S. intros q.
      eapply part_mono; [| |apply S]; [intros x X; by right; right|]. intros v V. by exists pred, e. }
    destruct (unique spec); part_solve.
  - rewrite str_app_nil_r. destruct (unique spec); part_solve.
Qed.

Definition declared_ok (table : string) (ctx : FilterContext) (spec : IndexSpec) : Prop :=
  spec_ok ctx spec ∧ name_fits (index_name spec).

Lemma set_name_ok ctx spec name : spec_ok ctx spec → spec_ok ctx (set_name spec name).
Proof. done. Qed.

Lemma add_spec_ok table ctx specs taken raw specs' taken' :
  add_spec table ctx (specs, taken) raw = Ok (specs', taken') →
  ∃ spec, specs' = specs ++ [spec] ∧ declared_ok table ctx spec ∧ index_name spec ∉ index_name <$> specs.
Proof.
  unfold add_spec. intros (spec & [S N]%parse_one_ok & H1)%bind_Ok. revert H1.
  set (spec1 := if decide (index_name spec = "") then _ else _).
  assert (declared_ok table ctx spec1) as [S1 N1].
  { unfold spec1. case_decide as D; (split; [done|]); [apply generated_name_fits|]. destruct N as [N|N]; [done|]. by apply valid_name_fits. }
  clearbody spec1. clear S N spec. set (spec2 := if decide (index_name spec1 ∈ taken) then _ else _).
  assert (declared_ok table ctx spec2) as D2.
  { unfold spec2. case_decide as D; (split; [done|]); [apply disambiguated_name_fits|done]. }
  clearbody spec2. case_decide; [done|]. intros [= <- <-]. eauto.
Qed.

Lemma add_specs_ok table ctx declared specs taken specs' taken' :
  NoDup (index_name <$> specs) → Forall (declared_ok table ctx) specs →
  try_fold (add_spec table ctx) (specs, taken) declared = Ok (specs', taken') →
  NoDup (index_name <$> specs') ∧ length specs' = (length specs + length declared)%nat ∧ Forall (declared_ok table ctx) specs'.
Proof.
  revert specs taken. induction declared as [|raw declared IH]; intros specs taken N F; cbn [try_fold].
  - intros [= <- <-]. split_and!; [done|cbn; lia|done].
  - intros ([specs1 taken1] & A & R)%bind_Ok. apply add_spec_ok in A as (spec & -> & D & Nin).
    apply IH in R as (N' & L & F'); [split_and!; [done| |done]; rewrite L, length_app; cbn; lia| |].
    + rewrite fmap_app. apply NoDup_app. split_and!; [done| |by apply NoDup_singleton].
      intros x X ->%list_elem_of_singleton. done.
    + apply Forall_app. split; [done|]. by apply Forall_singleton.
Qed.

(** a declared index cannot smuggle a statement in: of an accepted list
    every entry is an index of its own, its name fits Postgres and is used once,
    it indexes at least one column and only columns of the collection, and its
    statement scans to that name, the table, columns, and constants of a
    predicate that was compiled as a rule is. *)
Theorem declared_indexes_are_safe c declared ctx specs :
  parse_all c declared ctx = Ok specs →
  NoDup (index_name <$> specs) ∧ length specs = length declared
  ∧ Forall (λ spec, spec_ok ctx spec ∧ name_fits (index_name spec)
      ∧ lexemes (drop_statement spec) = Some [QIdent (index_name spec)]
      ∧ ∃ ts, lexemes (create_statement spec (collection_name c)) = Some ts ∧ lexeme_params ts = []
          ∧ Forall (index_ident (collection_name c) ctx spec) (lexeme_idents ts)
          ∧ Forall (index_literal ctx spec) (lexeme_literals ts)) specs.
Proof.
  unfold parse_all. intros ([specs' taken] & H1 & ->)%fmap_Ok. cbn [fst].
  destruct (add_specs_ok (collection_name c) ctx declared [] (reserved_names c) specs' taken) as (N & L & F); [constructor|constructor|done|].
  split_and!; [done|done|]. eapply Forall_impl; [exact F|]. intros spec [S Nf]. split_and!; [done|done| |].
  - apply frag_lexemes. unfold drop_statement. apply (frag_lit_app _ []); [done|]. apply quote_ident_frag.
  - destruct (part_statement _ _ _ [] (create_statement_part (collection_name c) ctx spec [] S)) as (ts & ?). by exists ts.
Qed.
End safe.

(** * Concrete inputs *)

Definition sample_sha : Sha256 := λ _, [1; 2; 3; 4]%Z.
Definition sample_indexes : list string :=
  ["UNIQUE title"; "author DESC, title"; "CREATE INDEX `idx_posts_live` ON posts (title) WHERE title != 'draft'";
   "CREATE INDEX idx_t ON [posts] (`author` ASC)"].

Example sample_indexes_parse : sample_indexes ≠ [] ∧
  (λ specs : list IndexSpec, map (λ s, create_statement s "posts") specs) <$> @parse_all sample_sha sample_posts sample_indexes sample_context
  = Ok ["create unique index if not exists " +:+ quote_ident "idx_posts_title" +:+ " on " +:+ quote_ident "posts" +:+ " (" +:+ quote_ident "title" +:+ ")";
        "create index if not exists " +:+ quote_ident "idx_posts_author_title" +:+ " on " +:+ quote_ident "posts" +:+ " ("
          +:+ quote_ident "author" +:+ " desc, " +:+ quote_ident "title" +:+ ")";
        "create index if not exists " +:+ quote_ident "idx_posts_live" +:+ " on " +:+ quote_ident "posts" +:+ " (" +:+ quote_ident "title"
          +:+ ") where " +:+ quote_ident "title" +:+ " <> 'draft'::text";
        "create index if not exists " +:+ quote_ident "idx_t" +:+ " on " +:+ quote_ident "posts" +:+ " (" +:+ quote_ident "author" +:+ ")"].
Proof. split; [done|]. vm_compute. reflexivity. Qed.

Definition sample_specs : list IndexSpec :=
  match @parse_all sample_sha sample_posts sample_indexes sample_context with Ok s => s | Err _ => [] end.

Lemma declared_indexes_are_safe_witness :
  length sample_specs = 4%nat ∧ NoDup (index_name <$> sample_specs)
  ∧ Forall (λ spec, ∃ ts, lexemes (create_statement spec "posts") = Some ts ∧ lexeme_params ts = []) sample_specs.
Proof.
  assert (@parse_all sample_sha sample_posts sample_indexes sample_context = Ok sample_specs) as E by (vm_compute; reflexivity).
  destruct (@declared_indexes_are_safe sample_sha sample_posts sample_indexes sample_context sample_specs E) as (N & L & F).
  split_and!; [exact L|exact N|]. eapply Forall_impl; [exact F|]. intros spec (_ & _ & _ & ts & T & P & _). by exists ts.
Defined.

Definition sample_spec : IndexSpec :=
  {| index_name := "idx_author"; unique := true;
     index_columns := [{| column_name := "author"; descending := true |}; {| column_name := "title"; descending := false |}];
     index_predicate := None |}.
Lemma index_roundtrip_witness :
  parse_one "posts" (create_statement sample_spec "posts") sample_context = Ok sample_spec.
Proof.
  apply (index_roundtrip sample_spec "posts" sample_context); [|vm_compute; reflexivity|repeat constructor; vm_compute; reflexivity].
  split_and!; [vm_compute; reflexivity|vm_compute; reflexivity|repeat constructor; vm_compute; reflexivity|done|done].
Defined.

(** Expressions and operator classes are refused, as is a column of another table. *)
Example refused_indexes :
  parse_one "posts" "CREATE INDEX i ON posts (lower(title))" sample_context = Err Invalid
  ∧ parse_one "posts" "CREATE INDEX i ON posts ((title))" sample_context = Err Unsupported
  ∧ parse_one "posts" "CREATE INDEX i ON posts (title COLLATE x)" sample_context = Err Unsupported
  ∧ parse_one "posts" "CREATE INDEX i ON users (title)" sample_context = Err Invalid
  ∧ parse_one "posts" "nope" sample_context = Err Invalid
  ∧ parse_one "posts" "title; drop table posts" sample_context = Err Unsupported.
Proof. vm_compute. done. Qed.
