(* ===== verification/RecordId.v ===== *)
(** Record ids, [crates/core/src/id.rs]. *)
From S2P Require Import Prelude.

Definition ID_LEN : nat := 15.
Definition ALPHABET : string := "abcdefghijklmnopqrstuvwxyzABCDEFGHIJKLMNOPQRSTUVWXYZ0123456789".
Definition REJECTION_THRESHOLD : nat := 62 * 4.

(** [ALPHABET[(byte % 62) as usize]]; the index is always in range. *)
Definition id_char (byte : nat) : ascii := default "a"%char (String.get (byte mod 62) ALPHABET).

(** The [for byte in buf] loop; reaching the length breaks out of it. *)
Fixpoint id_bytes (buf : list nat) (out : string) : string :=
  match buf with
  | [] => out
  | byte :: buf =>
      if decide (REJECTION_THRESHOLD ≤ byte) then id_bytes buf out
      else
        let out := out +:+ String (id_char byte) "" in
        if decide (String.length out = ID_LEN) then out else id_bytes buf out
  end.

(** [new_id], drawing its buffers from [fill], which is the operating system's
    generator; [None] is running out of [fuel] buffers. *)
Fixpoint new_id_loop (fuel : nat) (fill : nat → list nat) (k : nat) (out : string) : option string :=
  if decide (String.length out < ID_LEN) then
    match fuel with
    | O => None
    | S fuel => new_id_loop fuel fill (S k) (id_bytes (fill k) out)
    end
  else Some out.
Definition new_id (fuel : nat) (fill : nat → list nat) : option string := new_id_loop fuel fill 0 "".

(** [is_valid_id]. *)
Definition is_valid_id (candidate : string) : bool :=
  bool_decide (String.length candidate = ID_LEN)
  && str_forall (λ c, str_contains c ALPHABET) candidate.

(** * Ids are valid and uniform *)

Definition in_alphabet (s : string) : bool := str_forall (λ c, str_contains c ALPHABET) s.

Lemma id_char_in byte : str_contains (id_char byte) ALPHABET = true.
Proof.
  unfold id_char. pose proof (Nat.mod_upper_bound byte 62 ltac:(lia)) as H.
  revert H. generalize (byte mod 62). intros n Hn.
  assert (Forall (λ n, str_contains (default "a"%char (String.get n ALPHABET)) ALPHABET = true) (seq 0 62))
    as Hall by by apply (bool_decide_unpack _).
  rewrite Forall_forall in Hall. apply Hall, elem_of_seq. lia.
Qed.

Lemma str_length_snoc s c : String.length (s +:+ String c "") = S (String.length s).
Proof. rewrite str_length_app. cbn. lia. Qed.

Lemma id_bytes_valid buf out :
  in_alphabet out = true → String.length out < ID_LEN →
  in_alphabet (id_bytes buf out) = true
  ∧ String.length out ≤ String.length (id_bytes buf out) ≤ ID_LEN
  ∧ (Exists (λ b, b < REJECTION_THRESHOLD) buf → String.length out < String.length (id_bytes buf out)).
Proof.
  revert out. induction buf as [|b buf IH]; intros out Ha Hl; cbn [id_bytes].
  { split; [done|]. split; [lia|]. by intros H%Exists_nil. }
  destruct (decide (REJECTION_THRESHOLD ≤ b)) as [Hb|Hb].
  - destruct (IH out Ha Hl) as (H1 & H2 & H3). split; [done|]. split; [done|].
    intros [Hb'|Hb']%Exists_cons; [lia|by apply H3].
  - assert (in_alphabet (out +:+ String (id_char b) "") = true) as Ha'.
    { unfold in_alphabet in *. rewrite str_forall_app, Ha. cbn [str_forall]. by rewrite id_char_in. }
    pose proof (str_length_snoc out (id_char b)) as Hs. cbv zeta.
    case_decide as Hd; [split; [done|]; split; [lia|]; intros; lia|].
    destruct (IH _ Ha') as (H1 & H2 & _); [lia|]. split; [done|]. split; [lia|]. intros; lia.
Qed.

Lemma new_id_loop_valid fuel fill k out :
  (∀ k, Exists (λ b, b < REJECTION_THRESHOLD) (fill k)) →
  in_alphabet out = true → String.length out ≤ ID_LEN → ID_LEN ≤ String.length out + fuel →
  ∃ id, new_id_loop fuel fill k out = Some id ∧ is_valid_id id = true.
Proof.
  intros Hfill. revert k out.
  induction fuel as [|fuel IH]; intros k out Ha Hl Hf; cbn [new_id_loop].
  all: destruct (decide (String.length out < ID_LEN)) as [Hlt|Hge]; [try lia|].
  1,3: exists out; split; [done|]; unfold is_valid_id; rewrite bool_decide_true by lia; done.
  destruct (id_bytes_valid (fill k) out Ha Hlt) as (H1 & H2 & H3). specialize (H3 (Hfill k)).
  apply IH; [done|lia|lia].
Qed.

Lemma id_chars_even c :
  str_contains c ALPHABET = true →
  length (filter (λ b, id_char b = c) (seq 0 REJECTION_THRESHOLD)) = 4.
Proof.
  intros Hc.
  assert (forallb (λ n, implb (str_contains (ascii_of_nat n) ALPHABET)
    (length (filter (λ b, id_char b = ascii_of_nat n) (seq 0 REJECTION_THRESHOLD)) =? 4)) (seq 0 256) = true)
    as Hall by (vm_compute; reflexivity).
  apply forallb_Forall in Hall. rewrite Forall_forall in Hall.
  specialize (Hall (nat_of_ascii c)). rewrite ascii_nat_embedding, Hc in Hall.
  apply Nat.eqb_eq, Hall, elem_of_seq. pose proof (nat_ascii_bounded c). lia.
Qed.

(** an id is generated and valid as soon as each buffer the system fills
    holds one usable byte, in at most fifteen buffers; and the usable bytes are
    spread evenly: each character of the alphabet stands for exactly four of
    the 248 accepted byte values, so the modulo introduces no bias. *)
Theorem new_id_valid_and_uniform fill :
  (∀ k, Exists (λ b, b < REJECTION_THRESHOLD) (fill k)) →
  (∃ id, new_id ID_LEN fill = Some id ∧ is_valid_id id = true)
  ∧ ∀ c, str_contains c ALPHABET = true →
      length (filter (λ b, id_char b = c) (seq 0 REJECTION_THRESHOLD)) = 4.
Proof.
  intros Hfill. split; [by apply new_id_loop_valid; [|done|cbn; lia|cbn; lia]|].
  apply id_chars_even.
Qed.

Lemma new_id_valid_and_uniform_witness :
  (∃ id, new_id ID_LEN (λ k, [250; k mod 248; 255]) = Some id ∧ is_valid_id id = true)
  ∧ ∀ c, str_contains c ALPHABET = true →
      length (filter (λ b, id_char b = c) (seq 0 REJECTION_THRESHOLD)) = 4.
Proof.
  apply (new_id_valid_and_uniform (λ k, [250; k mod 248; 255])).
  intros k. apply Exists_cons_tl, Exists_cons_hd.
  change REJECTION_THRESHOLD with 248. apply Nat.mod_upper_bound. discriminate.
Defined.
