(* ===== verification/RateLimit.v ===== *)
(** Rate limits and account lockouts, [crates/api/src/rate_limit.rs].

    Times are nanoseconds of the monotonic clock. An operation reads it several
    times ([Instant::now], then an [elapsed] per comparison), so it is given one
    reading for each, in their order. The first is taken just before the lock is:
    operations are ordered here as their readings are. *)
From S2P Require Import Prelude.

Local Open Scope Z_scope.
Local Set Warnings "-register-all".

Definition SWEEP_AT : nat := Z.to_nat 10000.
Definition ACCOUNT_LOCKOUT_WINDOW : Z := 15 * 60 * 10 ^ 9.

(** [struct Count] and [struct Buckets]. *)
Record Count := { used : Z; started : Z }.
Record Buckets := { counts : gmap string Count; swept : Z }.

(** [struct Limiter] and [struct Lockout], less their buckets. *)
Record Limits := { limit : Z; window : Z }.

(** [struct Refused]. *)
Record Refused := { retry_after : Z }.

(** The clock readings of one operation: [Instant::now]; the [elapsed] of
    each key a sweep looks at; those of the window test and of the refusal. *)
Record Clock := { c_now : Z; c_sweep : string → Z; c_test : Z; c_retry : Z }.

Section limits.
Context (l : Limits).

(** [is_enabled]. *)
Definition is_enabled : bool := bool_decide (0 < limit l).

(** [Buckets::sweep]. *)
Definition sweep (c : Clock) (b : Buckets) : Buckets :=
  if bool_decide (size (counts b) < SWEEP_AT)%nat || bool_decide (c_now c - swept b < window l)
  then b
  else {| counts := filter (λ '(key, count), c_sweep c key - started count < window l) (counts b);
          swept := c_now c |}.

(** [saturating_sub] of durations. *)
Definition retry (c : Clock) (count : Count) : Refused :=
  {| retry_after := Z.max 0 (window l - (c_retry c - started count)) |}.

(** The bucket an operation works on: [entry(key).or_insert(..)], then the
    reset of a window that is over. *)
Definition current (c : Clock) (count : option Count) : Count :=
  let count := default {| used := 0; started := c_now c |} count in
  if decide (window l ≤ c_test c - started count) then {| used := 0; started := c_now c |}
  else count.

(** [Limiter::check], on one bucket: the outcome and the bucket it leaves. *)
Definition check_bucket (c : Clock) (count : option Count) : option Refused * option Count :=
  let count := current c count in
  if decide (limit l ≤ used count) then (Some (retry c count), Some count)
  else (None, Some {| used := used count + 1; started := started count |}).

(** [Lockout::is_locked], [record_failure] and [clear], on one bucket. *)
Definition locked_bucket (c : Clock) (count : option Count) : option Refused * option Count :=
  (match count with
   | Some n =>
       if bool_decide (limit l ≤ used n) && bool_decide (c_test c - started n < window l)
       then Some (retry c n) else None
   | None => None
   end, count).
Definition failure_bucket (c : Clock) (count : option Count) : option Refused * option Count :=
  let count := current c count in (None, Some {| used := used count + 1; started := started count |}).
Definition clear_bucket (count : option Count) : option Refused * option Count := (None, None).

(** An operation of either structure. *)
Inductive Op := OCheck | OLocked | OFailure | OClear.

Definition bucket_op (op : Op) (c : Clock) (count : option Count) : option Refused * option Count :=
  match op with
  | OCheck => check_bucket c count
  | OLocked => locked_bucket c count
  | OFailure => failure_bucket c count
  | OClear => clear_bucket count
  end.

(** The operation on the shared map: disabled, it does nothing; otherwise it
    sweeps ([clear] does not) and works on the bucket of its key. *)
Definition map_op (op : Op) (key : string) (c : Clock) (b : Buckets) : option Refused * Buckets :=
  if negb is_enabled then (None, b)
  else
    let b := match op with OClear => b | _ => sweep c b end in
    let '(outcome, count) := bucket_op op c (counts b !! key) in
    (outcome, {| counts := partial_alter (λ _, count) key (counts b); swept := swept b |}).

(** A sequence of operations, as the lock orders them. *)
Fixpoint run (ops : list (Op * string * Clock)) (b : Buckets) : list (option Refused) :=
  match ops with
  | [] => []
  | (op, key, c) :: ops => let '(outcome, b) := map_op op key c b in outcome :: run ops b
  end.

(** * What one key sees *)

(** The specification: one bucket, no sweep. *)
Fixpoint bucket_run (ops : list (Op * Clock)) (count : option Count) : list (option Refused) :=
  match ops with
  | [] => []
  | (op, c) :: ops =>
      if negb is_enabled then None :: bucket_run ops count
      else let '(outcome, count) := bucket_op op c count in outcome :: bucket_run ops count
  end.

(** The outcomes, and the operations, that concern a key. *)
Definition outcomes_of (key : string) (ops : list (Op * string * Clock)) (rs : list (option Refused))
    : list (option Refused) :=
  snd <$> filter (λ '((_, k, _), _), k = key) (zip ops rs).
Definition ops_of (key : string) (ops : list (Op * string * Clock)) : list (Op * Clock) :=
  (λ '(op, _, c), (op, c)) <$> filter (λ '(_, k, _), k = key) ops.
End limits.

(** The clock is monotonic: each reading is at least [t], and the next
    operation's at least the last of this one's. *)
Definition clock_from (t : Z) (c : Clock) : Prop :=
  t ≤ c_now c ∧ (∀ key, c_now c ≤ c_sweep c key ≤ c_test c) ∧ c_test c ≤ c_retry c.
Fixpoint monotonic (t : Z) (cs : list Clock) : Prop :=
  match cs with
  | [] => True
  | c :: cs => clock_from t c ∧ monotonic (c_retry c) cs
  end.

(** * The shared map behaves as one bucket per key *)

Section refinement.
Context (l : Limits).

(** The map's bucket and the specification's: equal, or swept because its
    window was over by [t]. *)
Definition related (t : Z) (impl spec : option Count) : Prop :=
  impl = spec ∨ (impl = None ∧ ∃ n, spec = Some n ∧ window l ≤ t - started n).

Lemma related_later t t' impl spec : t ≤ t' → related t impl spec → related t' impl spec.
Proof. intros Ht [->|(-> & n & -> & Hn)]; [by left|]. right. split; [done|]. exists n. split; [done|lia]. Qed.

Lemma current_stale c n :
  window l ≤ c_test c - started n → current l c None = current l c (Some n).
Proof.
  intros Hn. unfold current. cbn [default]. rewrite (decide_True _ _ Hn).
  by case_decide.
Qed.

Lemma bucket_op_related op c impl spec :
  related (c_test c) impl spec → c_test c ≤ c_retry c →
  (bucket_op l op c impl).1 = (bucket_op l op c spec).1
  ∧ related (c_retry c) (bucket_op l op c impl).2 (bucket_op l op c spec).2.
Proof.
  intros [->|(-> & n & -> & Hn)] Ht; [split; [done|by left]|].
  destruct op; cbn [bucket_op].
  - unfold check_bucket. rewrite (current_stale c n) by done. by split; [|left].
  - cbn. rewrite (bool_decide_false (_ < _)) by lia. rewrite andb_false_r.
    split; [done|]. right. split; [done|]. exists n. split; [done|lia].
  - unfold failure_bucket. rewrite (current_stale c n) by done. by split; [|left].
  - split; [done|by left].
Qed.

Lemma sweep_related t c b spec key :
  related t (counts b !! key) spec → clock_from t c →
  related (c_test c) (counts (sweep l c b) !! key) spec.
Proof.
  intros Hr (H1 & H2 & H3). specialize (H2 key).
  assert (related (c_test c) (counts b !! key) spec) as Hr' by (eapply related_later; [|done]; lia).
  unfold sweep. case_match; [done|]. cbn [counts].
  destruct (counts b !! key) as [n|] eqn:Hn.
  - destruct (decide (c_sweep c key - started n < window l)) as [Hw|Hw].
    + by rewrite (map_lookup_filter_Some_2 _ _ _ _ Hn Hw).
    + assert (filter (λ '(key, count), c_sweep c key - started count < window l) (counts b) !! key = None)
        as -> by (apply map_lookup_filter_None_2; right; intros m Hm; simplify_eq; done).
      destruct Hr' as [<-|[? _]]; [|done]. right. split; [done|]. exists n. split; [done|lia].
  - assert (filter (λ '(key, count), c_sweep c key - started count < window l) (counts b) !! key = None)
      as -> by (apply map_lookup_filter_None_2; by left).
    done.
Qed.

Lemma run_refines ops : ∀ t b spec key,
  related t (counts b !! key) spec → monotonic t (snd <$> ops) →
  outcomes_of key ops (run l ops b) = bucket_run l (ops_of key ops) spec.
Proof.
  induction ops as [|[[op k] c] ops IH]; intros t b spec key Hr Hm; [done|].
  cbn [fmap list_fmap snd monotonic] in Hm. destruct Hm as [Hc Hm].
  cbn [run]. unfold map_op.
  destruct (is_enabled l) eqn:He; cbn [negb].
  2: { unfold outcomes_of, ops_of in *. cbn [zip_with zip].
       destruct (decide (k = key)) as [->|Hk].
       - rewrite !filter_cons_True by done. cbn [fmap list_fmap bucket_run]. rewrite He. cbn [negb].
         f_equal. eapply IH; [|exact Hm]. eapply related_later; [|done].
         destruct Hc as (? & H2 & ?). specialize (H2 key). lia.
       - rewrite !filter_cons_False by done. eapply IH; [|exact Hm].
         eapply related_later; [|done]. destruct Hc as (? & H2 & ?). specialize (H2 key). lia. }
  set (b' := match op with OClear => b | _ => sweep l c b end).
  assert (∀ key spec, related t (counts b !! key) spec → related (c_test c) (counts b' !! key) spec) as Hb'.
  { intros key' spec' Hr'. destruct op; try by eapply sweep_related.
    eapply related_later; [|exact Hr']. destruct Hc as (? & H2 & ?). specialize (H2 key'). lia. }
  destruct (bucket_op l op c (counts b' !! k)) as [o n] eqn:Hop.
  unfold outcomes_of, ops_of in *. cbn [zip_with zip].
  destruct (decide (k = key)) as [->|Hk].
  - rewrite !filter_cons_True by done. cbn [fmap list_fmap bucket_run]. rewrite He. cbn [negb].
    destruct (bucket_op_related op c _ _ (Hb' _ _ Hr)) as [Ho Hn]; [apply Hc|].
    rewrite Hop in Ho, Hn. cbn in Ho, Hn. destruct (bucket_op l op c spec) as [o' n'] eqn:Hs.
    cbn in Ho, Hn. subst o'. f_equal. eapply IH; [|exact Hm]. cbn [counts].
    by rewrite lookup_partial_alter_eq.
  - rewrite !filter_cons_False by done. eapply IH; [|exact Hm]. cbn [counts].
    rewrite lookup_partial_alter_ne by done.
    eapply related_later; [|by apply Hb']. apply Hc.
Qed.
End refinement.

(** * The properties *)

Definition limiter_new (now : Z) : Buckets := {| counts := ∅; swept := now |}.

(** C8. the sweep is invisible and keys do not share anything. In any
    sequence of operations on the shared map, with any interleaving of keys
    and a monotonic clock, the outcomes of one key are those of a single
    bucket that only its own operations touch and that is never swept. *)
Theorem limiter_refines_bucket l ops now key :
  monotonic now (snd <$> ops) →
  outcomes_of key ops (run l ops (limiter_new now)) = bucket_run l (ops_of key ops) None.
Proof. intros Hm. eapply run_refines; [|exact Hm]. by left. Qed.

Lemma current_open l c n : c_test c < started n + window l → current l c (Some n) = n.
Proof. intros H. unfold current. cbn. by rewrite decide_False by lia. Qed.
Lemma current_new l c :
  c_test c < c_now c + window l → current l c None = {| used := 0; started := c_now c |}.
Proof. intros H. unfold current. cbn. by rewrite decide_False by lia. Qed.

(** Requests of one key while the window of its bucket lasts. *)
Lemma check_run l cs n :
  is_enabled l = true → used n ≤ limit l →
  Forall (λ c, c_test c < started n + window l) cs →
  ∀ i o, bucket_run l ((λ c, (OCheck, c)) <$> cs) (Some n) !! i = Some o →
    o = None ↔ Z.of_nat i + used n < limit l.
Proof.
  intros He. revert n. induction cs as [|c cs IH]; intros n Hu Hcs i o Hi; [done|].
  apply Forall_cons in Hcs as [Hc Hcs]. cbn [fmap list_fmap bucket_run] in Hi.
  rewrite He in Hi. cbn [negb bucket_op] in Hi. unfold check_bucket in Hi.
  rewrite current_open in Hi by done. cbv zeta in Hi.
  case_decide as Hl; destruct i as [|i]; cbn in Hi.
  - injection Hi as <-. split; [done|intros; lia].
  - split; [|intros; lia]. intros ->. apply (IH n) in Hi as [Hi _]; [|done..]. specialize (Hi eq_refl). lia.
  - injection Hi as <-. split; [intros _; lia|done].
  - apply (IH {| used := used n + 1; started := started n |}) in Hi; [cbn in Hi; rewrite Hi; lia|cbn; lia|done].
Qed.

(** in a window a key is admitted exactly [limit] times. Take any
    sequence of requests, by any keys, on a fresh limiter; if the requests of
    [key] all fall in the window that its first one opens, the first [limit]
    of them are admitted and every later one is refused. *)
Theorem limiter_admits_limit l ops now key c cs :
  is_enabled l = true → monotonic now (snd <$> ops) →
  ops_of key ops = (λ c, (OCheck, c)) <$> (c :: cs) →
  Forall (λ d, c_test d < c_now c + window l) (c :: cs) →
  ∀ i o, outcomes_of key ops (run l ops (limiter_new now)) !! i = Some o →
    o = None ↔ Z.of_nat i < limit l.
Proof.
  intros He Hm Hops [Hc Hcs]%Forall_cons i o Hi.
  erewrite run_refines in Hi; [|by left|exact Hm]. cbn [limiter_new counts] in Hi.
  rewrite lookup_empty, Hops in Hi. unfold is_enabled in He. apply bool_decide_eq_true in He.
  cbn [fmap list_fmap bucket_run] in Hi. unfold is_enabled in Hi.
  rewrite bool_decide_true in Hi by done. cbn [negb bucket_op] in Hi.
  unfold check_bucket in Hi. rewrite current_new in Hi by done. cbv zeta in Hi. cbn [used started] in Hi.
  rewrite decide_False in Hi by lia. destruct i as [|i]; cbn in Hi; [injection Hi as <-; split; [intros _; lia|done]|].
  apply check_run in Hi; [|unfold is_enabled; by rewrite bool_decide_true|cbn; lia|done].
  cbn [used] in Hi. rewrite Hi, Nat2Z.inj_succ. lia.
Qed.

(** A run of failures of one account inside a window. *)
Lemma failure_run l cs n tail :
  is_enabled l = true →
  Forall (λ c, c_test c < started n + window l) cs →
  bucket_run l (((λ c, (OFailure, c)) <$> cs) ++ tail) (Some n)
  = replicate (length cs) None ++
    bucket_run l tail (Some {| used := used n + Z.of_nat (length cs); started := started n |}).
Proof.
  intros He. revert n. induction cs as [|c cs IH]; intros [u s] Hcs.
  { cbn. by rewrite Z.add_0_r. }
  apply Forall_cons in Hcs as [Hc Hcs]. cbn [fmap list_fmap app bucket_run]. rewrite He.
  cbn [negb bucket_op]. unfold failure_bucket. rewrite current_open by done. cbv zeta.
  cbn [used started] in *. rewrite IH by done. cbn [used started length replicate app].
  assert (u + 1 + Z.of_nat (length cs) = u + Z.of_nat (S (length cs))) as -> by lia. done.
Qed.

(** the soft lockout. An account's failures, whatever happens to other
    accounts in between, lock it exactly when there are [limit] of them in a
    window; the lock tells a positive wait that ends with the window, after
    which the account is free again; a successful sign-in clears it. *)
Theorem lockout_spec l ops now key c cs d :
  is_enabled l = true → monotonic now (snd <$> ops) →
  Forall (λ e, c_test e < c_now c + window l) (c :: cs) →
  let failures := (λ e, (OFailure, e)) <$> (c :: cs) in
  (ops_of key ops = failures ++ [(OLocked, d)] →
    list.last (outcomes_of key ops (run l ops (limiter_new now)))
    = Some (if bool_decide (limit l ≤ len (c :: cs)) && bool_decide (c_test d < c_now c + window l)
            then Some {| retry_after := Z.max 0 (c_now c + window l - c_retry d) |} else None))
  ∧ (∀ e, ops_of key ops = failures ++ [(OClear, e); (OLocked, d)] →
    list.last (outcomes_of key ops (run l ops (limiter_new now))) = Some None).
Proof.
  intros He Hm [Hc Hcs]%Forall_cons failures.
  assert (∀ tail, bucket_run l (failures ++ tail) None
    = replicate (length (c :: cs)) None
      ++ bucket_run l tail (Some {| used := len (c :: cs); started := c_now c |})) as Hrun.
  { intros tail. subst failures. cbn [fmap list_fmap app bucket_run]. rewrite He. cbn [negb bucket_op].
    unfold failure_bucket. rewrite current_new by done. cbv zeta.
    cbn [used started]. rewrite failure_run by done. cbn [used started length replicate app].
    unfold len. cbn [length].
    assert (0 + 1 + Z.of_nat (length cs) = Z.of_nat (S (length cs))) as -> by lia. done. }
  split; [intros Hops|intros e Hops]; erewrite run_refines; [|by left|exact Hm|..|by left|exact Hm];
    cbn [limiter_new counts]; rewrite lookup_empty, Hops, Hrun;
    cbn [bucket_run]; rewrite He; cbn [negb bucket_op clear_bucket locked_bucket].
  - rewrite last_snoc. f_equal. unfold locked_bucket. cbn [used started].
    assert (c_test d - c_now c < window l ↔ c_test d < c_now c + window l) as Heq by lia.
    rewrite (bool_decide_ext _ _ Heq). case_match; [|done]. unfold retry. cbn [started]. do 3 f_equal. lia.
  - by rewrite last_app.
Qed.

(** * Concrete inputs *)

Definition at_ (t : Z) : Clock := {| c_now := t; c_sweep := λ _, t; c_test := t; c_retry := t |}.
Definition sample_limits : Limits := {| limit := 2; window := 60 |}.

Definition sample_requests : list (Op * string * Clock) :=
  [(OCheck, "a", at_ 1); (OCheck, "b", at_ 2); (OCheck, "a", at_ 3); (OCheck, "a", at_ 5)].

Lemma limiter_refines_bucket_witness :
  outcomes_of "a" sample_requests (run sample_limits sample_requests (limiter_new 0))
  = bucket_run sample_limits (ops_of "a" sample_requests) None.
Proof.
  apply (limiter_refines_bucket sample_limits sample_requests 0 "a").
  cbn. unfold clock_from. cbn. repeat split; intros; lia.
Defined.

Lemma limiter_admits_limit_witness :
  outcomes_of "a" sample_requests (run sample_limits sample_requests (limiter_new 0)) !! 2%nat
    = Some (Some {| retry_after := 56 |})
  ∧ (Some {| retry_after := 56 |} = None ↔ Z.of_nat 2 < limit sample_limits).
Proof.
  split; [vm_compute; reflexivity|].
  eapply (limiter_admits_limit sample_limits sample_requests 0 "a" (at_ 1) [at_ 3; at_ 5]); [reflexivity|..].
  - cbn. unfold clock_from. cbn. repeat split; intros; lia.
  - reflexivity.
  - repeat constructor; cbn; lia.
  - vm_compute. reflexivity.
Defined.

Definition sample_failures : list (Op * string * Clock) :=
  [(OFailure, "a", at_ 1); (OFailure, "b", at_ 2); (OFailure, "a", at_ 3); (OLocked, "a", at_ 9)].

Lemma lockout_spec_witness :
  list.last (outcomes_of "a" sample_failures (run sample_limits sample_failures (limiter_new 0)))
  = Some (Some {| retry_after := 52 |}).
Proof.
  apply (lockout_spec sample_limits sample_failures 0 "a" (at_ 1) [at_ 3] (at_ 9)); [reflexivity|..].
  - cbn. unfold clock_from. cbn. repeat split; intros; lia.
  - repeat constructor; cbn; lia.
  - reflexivity.
Defined.
