(* ===== verification/Hub.v ===== *)
(** Realtime fan-out: [crates/realtime/src/event.rs] and
    [crates/realtime/src/hub.rs].

    The channels are those of [tokio]: bounded queues whose [try_send] refuses
    when they are full or closed. What the database lets a context see is the
    parameter [document_for]. *)
From S2P Require Import Prelude Json Rls.

Local Set Warnings "-register-all".

Definition CLIENT_QUEUE : nat := 256.
Definition RECENT_IDS : nat := 256.
Definition REPLAY_LIMIT : nat := 200.
Definition REGISTRY_TOPIC : string := "collections".

(** * Events *)

Inductive ChangeOp := Create | Update | Delete.

#[export] Instance ChangeOp_eq_dec : EqDecision ChangeOp.
Proof. solve_decision. Defined.

(** [struct ChangeEvent]. *)
Record ChangeEvent := {
  log_id : Z;
  ev_collection : string;
  op : ChangeOp;
  record_id : string;
  origin : option string;
}.

(** [ChangeEvent::from_connection]. *)
Definition from_connection (e : ChangeEvent) (connection_id : string) : bool :=
  negb (bool_decide (connection_id = "")) && bool_decide (origin e = Some connection_id).

(** [ChangeEvent::matches]. *)
Definition matches (e : ChangeEvent) (collection : string) (record : option string) : bool :=
  bool_decide (ev_collection e = collection)
  && match record with Some id => bool_decide (id = record_id e) | None => true end.

(** [struct Delivered]. *)
Record Delivered := { event : ChangeEvent; record : option Value }.

(** * The registry *)

(** [struct Subscriber]; its sender is the channel of its id. *)
Record Subscriber := {
  sub_id : nat;
  sub_record : option string;
  sub_context : RequestContext;
  sub_connection : string;
  seen : list string;
}.

(** A bounded channel: what the client has not read yet, and whether its
    receiver is still there. *)
Record Channel := { buffer : list Delivered; is_open : bool }.

(** [struct Hub]; [channels] are the queues behind the senders. *)
Record Hub := {
  subscribers : gmap string (list Subscriber);
  next_id : nat;
  dropped : nat;
  channels : gmap nat Channel;
}.

Definition hub_new : Hub := {| subscribers := ∅; next_id := 1; dropped := 0; channels := ∅ |}.

(** [Hub::subscribe]: the id of the subscription and the hub. *)
Definition subscribe (collection : string) (record : option string) (context : RequestContext)
    (connection : string) (h : Hub) : nat * Hub :=
  let id := next_id h in
  let list := default [] (subscribers h !! collection) in
  (id,
   {| subscribers := <[collection := list ++ [{| sub_id := id; sub_record := record;
        sub_context := context; sub_connection := connection; seen := [] |}]]> (subscribers h);
      next_id := S id; dropped := dropped h;
      channels := <[id := {| buffer := []; is_open := true |}]> (channels h) |}).

(** [Hub::unsubscribe]. *)
Definition unsubscribe (collection : string) (id : nat) (h : Hub) : Hub :=
  match subscribers h !! collection with
  | None => h
  | Some list =>
      let list := filter (λ s, sub_id s ≠ id) list in
      {| subscribers := match list with
           | [] => delete collection (subscribers h)
           | _ => <[collection := list]> (subscribers h)
           end;
         next_id := next_id h; dropped := dropped h; channels := channels h |}
  end.

(** [Sender::try_send]. *)
Inductive SendResult := Sent | Full | Closed.
Definition try_send (id : nat) (d : Delivered) (h : Hub) : SendResult * Hub :=
  match channels h !! id with
  | Some ch =>
      if negb (is_open ch) then (Closed, h)
      else if decide (CLIENT_QUEUE ≤ length (buffer ch)) then (Full, h)
      else (Sent, {| subscribers := subscribers h; next_id := next_id h; dropped := dropped h;
              channels := <[id := {| buffer := buffer ch ++ [d]; is_open := true |}]> (channels h) |})
  | None => (Closed, h)
  end.

Definition count_dropped (h : Hub) : Hub :=
  {| subscribers := subscribers h; next_id := next_id h; dropped := S (dropped h);
     channels := channels h |}.

(** [Hub::notify_collections_changed]. *)
Definition registry_delivery : Delivered :=
  {| event := {| log_id := 0; ev_collection := REGISTRY_TOPIC; op := Update; record_id := "";
       origin := None |};
     record := Some (JObject []) |}.

Definition notify (h : Hub) (id : nat) : Hub :=
  match try_send id registry_delivery h with
  | (Full, h) => count_dropped h
  | (_, h) => h
  end.

Definition notify_collections_changed (h : Hub) : Hub :=
  foldl notify h (sub_id <$> default [] (subscribers h !! REGISTRY_TOPIC)).

(** * Dispatch, step by step *)

(** [struct Target]. *)
Record Target := { t_id : nat; t_context : RequestContext; t_known : bool }.

(** The guards of the selection loop. *)
Definition wanted (e : ChangeEvent) (connection : string) (record : option string) : bool :=
  negb (from_connection e connection)
  && match record with Some id => bool_decide (id = record_id e) | None => true end.

(** The selection, under the lock. *)
Definition select_targets (e : ChangeEvent) (h : Hub) : list Target :=
  (λ s, {| t_id := sub_id s; t_context := sub_context s;
           t_known := bool_decide (record_id e ∈ seen s) |})
    <$> filter (λ s, wanted e (sub_connection s) (sub_record s) = true)
          (default [] (subscribers h !! ev_collection e)).

(** The [documents] map, by identity. *)
Definition Documents : Type := list (RequestContext * option Value).

Fixpoint document (c : RequestContext) (docs : Documents) : option (option Value) :=
  match docs with
  | [] => None
  | (k, v) :: docs => if decide (k = c) then Some v else document c docs
  end.

Section dispatch.
Context {Db : Type} (document_for : Db → string → string → RequestContext → option Value).

(** One iteration of the visibility loop, the database being [db] then. *)
Definition query (db : Db) (e : ChangeEvent) (t : Target) (docs : Documents) : Documents :=
  match document (t_context t) docs with
  | Some _ => docs
  | None => (t_context t, document_for db (ev_collection e) (record_id e) (t_context t)) :: docs
  end.

(** [allowed]. *)
Definition allowed (e : ChangeEvent) (docs : Documents) (t : Target) : bool :=
  if decide (op e = Delete) then bool_decide (role (t_context t) = Owner) || t_known t
  else match document (t_context t) docs with Some (Some _) => true | _ => false end.

Definition delivery (e : ChangeEvent) (docs : Documents) (t : Target) : Delivered :=
  {| event := e; record := default None (document (t_context t) docs) |}.

(** One iteration of the sending loop, with the ids delivered to so far. *)
Definition send (e : ChangeEvent) (docs : Documents) (t : Target) (st : Hub * list nat)
    : Hub * list nat :=
  let '(h, delivered) := st in
  if negb (allowed e docs t) then st
  else match try_send (t_id t) (delivery e docs t) h with
       | (Sent, h) => (h, delivered ++ [t_id t])
       | (Full, h) => (count_dropped h, delivered)
       | (Closed, h) => (h, delivered)
       end.

(** [seen.push_back] and the [pop_front] loop. *)
Definition remember_id (id : string) (s : list string) : list string :=
  let s := s ++ [id] in drop (length s - RECENT_IDS) s.

Definition remember_subscriber (e : ChangeEvent) (delivered : list nat) (s : Subscriber) : Subscriber :=
  if decide (sub_id s ∈ delivered) then
    {| sub_id := sub_id s; sub_record := sub_record s; sub_context := sub_context s;
       sub_connection := sub_connection s; seen := remember_id (record_id e) (seen s) |}
  else s.

(** The last part of [dispatch], under the lock again. *)
Definition remember (e : ChangeEvent) (delivered : list nat) (h : Hub) : Hub :=
  {| subscribers := alter (fmap (remember_subscriber e delivered)) (ev_collection e) (subscribers h);
     next_id := next_id h; dropped := dropped h; channels := channels h |}.

(** [Hub::dispatch], when nothing else happens in between. *)
Definition dispatch (db : Db) (e : ChangeEvent) (h : Hub) : Hub :=
  let targets := select_targets e h in
  let docs := if decide (op e = Delete) then [] else foldl (λ docs t, query db e t docs) [] targets in
  let '(h, delivered) := foldl (λ st t, send e docs t st) (h, []) targets in
  match delivered with [] => h | _ => remember e delivered h end.

(** [Hub::replay], on the rows of the log; the two queries of a row may see
    the database at different moments. *)
Definition replay_row (db1 db2 : Db) (collection : string) (context : RequestContext) (e : ChangeEvent)
    : option Delivered :=
  if bool_decide (op e = Delete)
     || bool_decide (is_Some (document_for db1 collection (record_id e) context))
  then Some {| event := e;
               record := if decide (op e = Delete) then None
                         else document_for db2 collection (record_id e) context |}
  else None.

(** [replay_rows]: the query on the log. *)
Definition replay_rows (log : list ChangeEvent) (collection : string) (since : Z) : list ChangeEvent :=
  take REPLAY_LIMIT (filter (λ e, ev_collection e = collection ∧ (since < log_id e)%Z) log).

Definition replay (db : Db) (log : list ChangeEvent) (collection : string) (since : Z)
    (context : RequestContext) : list Delivered :=
  omap (replay_row db db collection context) (replay_rows log collection since).

(** * The hub as a transition system

    [dispatch] holds the lock only while it selects and while it remembers, so
    subscriptions, clients and writers of the database move between any two of
    its steps. *)

(** Where one [dispatch] is. *)
Inductive Phase :=
  | Querying (todo : list Target) (docs : Documents)
  | Sending (todo : list Target) (docs : Documents) (delivered : list nat).

Record Dispatch := { d_event : ChangeEvent; d_targets : list Target; d_phase : Phase }.

(** What a subscription was made with. *)
Record Subscribed := {
  in_collection : string;
  in_record : option string;
  in_context : RequestContext;
  in_connection : string;
}.

(** The hub, the database and the dispatches under way; then, kept only to
    state properties: every database there was, every subscription made,
    everything handed to a channel and everything a client took out. *)
Record State := {
  hub : Hub;
  db : Db;
  pending : list Dispatch;
  past : list Db;
  registered : gmap nat Subscribed;
  sent : list (nat * Delivered);
  received : list (nat * Delivered);
}.

Definition initial (d : Db) : State :=
  {| hub := hub_new; db := d; pending := []; past := [d]; registered := ∅; sent := []; received := [] |}.

(** The first part of a dispatch; a delete asks the database nothing. *)
Definition start (e : ChangeEvent) (h : Hub) : Dispatch :=
  let targets := select_targets e h in
  {| d_event := e; d_targets := targets;
     d_phase := if decide (op e = Delete) then Sending targets [] [] else Querying targets [] |}.

(** What a send put in the channel. *)
Definition sends (e : ChangeEvent) (docs : Documents) (t : Target) (h : Hub) : list (nat * Delivered) :=
  if allowed e docs t then
    match try_send (t_id t) (delivery e docs t) h with
    | (Sent, _) => [(t_id t, delivery e docs t)]
    | _ => []
    end
  else [].

(** The ids a notification reaches. *)
Fixpoint notified (h : Hub) (ids : list nat) : list (nat * Delivered) :=
  match ids with
  | [] => []
  | id :: ids =>
      match try_send id registry_delivery h with
      | (Sent, _) => [(id, registry_delivery)]
      | _ => []
      end ++ notified (notify h id) ids
  end.

Definition set_hub (h : Hub) (out : list (nat * Delivered)) (ds : list Dispatch) (σ : State) : State :=
  {| hub := h; db := db σ; pending := ds; past := past σ; registered := registered σ;
     sent := sent σ ++ out; received := received σ |}.

Definition update_channel (id : nat) (ch : Channel) (h : Hub) : Hub :=
  {| subscribers := subscribers h; next_id := next_id h; dropped := dropped h;
     channels := <[id := ch]> (channels h) |}.

Inductive step : State → State → Prop :=
  | step_write σ d :
      step σ {| hub := hub σ; db := d; pending := pending σ; past := d :: past σ;
                registered := registered σ; sent := sent σ; received := received σ |}
  | step_subscribe σ c r x k id h :
      subscribe c r x k (hub σ) = (id, h) →
      step σ {| hub := h; db := db σ; pending := pending σ; past := past σ;
                registered := <[id := {| in_collection := c; in_record := r; in_context := x;
                                         in_connection := k |}]> (registered σ);
                sent := sent σ; received := received σ |}
  | step_unsubscribe σ c id :
      step σ (set_hub (unsubscribe c id (hub σ)) [] (pending σ) σ)
  | step_recv σ id d b o :
      channels (hub σ) !! id = Some {| buffer := d :: b; is_open := o |} →
      step σ {| hub := update_channel id {| buffer := b; is_open := o |} (hub σ);
                db := db σ; pending := pending σ; past := past σ; registered := registered σ;
                sent := sent σ; received := received σ ++ [(id, d)] |}
  | step_close σ id b o :
      channels (hub σ) !! id = Some {| buffer := b; is_open := o |} →
      step σ (set_hub (update_channel id {| buffer := b; is_open := false |} (hub σ)) [] (pending σ) σ)
  | step_notify σ :
      step σ (set_hub (notify_collections_changed (hub σ))
                (notified (hub σ) (sub_id <$> default [] (subscribers (hub σ) !! REGISTRY_TOPIC)))
                (pending σ) σ)
  | step_event σ e :
      step σ (set_hub (hub σ) [] (start e (hub σ) :: pending σ) σ)
  | step_query σ e ts t todo docs l r :
      pending σ = l ++ {| d_event := e; d_targets := ts; d_phase := Querying (t :: todo) docs |} :: r →
      step σ (set_hub (hub σ) []
        (l ++ {| d_event := e; d_targets := ts; d_phase := Querying todo (query (db σ) e t docs) |} :: r) σ)
  | step_queried σ e ts docs l r :
      pending σ = l ++ {| d_event := e; d_targets := ts; d_phase := Querying [] docs |} :: r →
      step σ (set_hub (hub σ) []
        (l ++ {| d_event := e; d_targets := ts; d_phase := Sending ts docs [] |} :: r) σ)
  | step_send σ e ts t todo docs dv h dv' l r :
      pending σ = l ++ {| d_event := e; d_targets := ts; d_phase := Sending (t :: todo) docs dv |} :: r →
      send e docs t (hub σ, dv) = (h, dv') →
      step σ (set_hub h (sends e docs t (hub σ))
        (l ++ {| d_event := e; d_targets := ts; d_phase := Sending todo docs dv' |} :: r) σ)
  | step_remember σ e ts docs dv l r :
      pending σ = l ++ {| d_event := e; d_targets := ts; d_phase := Sending [] docs dv |} :: r →
      step σ (set_hub (match dv with [] => hub σ | _ => remember e dv (hub σ) end) [] (l ++ r) σ).

Inductive reachable : State → Prop :=
  | reachable_initial d : reachable (initial d)
  | reachable_step σ τ : reachable σ → step σ τ → reachable τ.

(** A subscription made on [connection], to [record] when it named one,
    concerns the event: the change is of that record and was not made on that
    connection (a client without one is told of every change). *)
Definition concerns (e : ChangeEvent) (connection : string) (record : option string) : Prop :=
  (connection ≠ "" → origin e ≠ Some connection) ∧ (∀ r, record = Some r → r = record_id e).

(** What makes a delivery legitimate: it goes to a subscription of the
    event's collection, and record when it named one, made on another
    connection than the change; it carries a document the subscriber's
    context could read at some moment; a delete goes to an owner or to a
    subscription already handed that record. *)
Definition shown (log : list (nat * Delivered)) (id : nat) (rid : string) : Prop :=
  ∃ d, (id, d) ∈ log ∧ record_id (event d) = rid ∧ op (event d) ≠ Delete ∧ is_Some (record d).

Definition legitimate (dbs : list Db) (reg : gmap nat Subscribed) (log : list (nat * Delivered))
    (id : nat) (d : Delivered) : Prop :=
  ∃ s, reg !! id = Some s ∧ in_collection s = ev_collection (event d)
    ∧ (d = registry_delivery
       ∨ concerns (event d) (in_connection s) (in_record s)
         ∧ if decide (op (event d) = Delete)
           then record d = None
                ∧ (role (in_context s) = Owner ∨ shown log id (record_id (event d)))
           else ∃ v b, record d = Some v ∧ b ∈ dbs
                ∧ document_for b (in_collection s) (record_id (event d)) (in_context s) = Some v).
End dispatch.

(** * What the operations leave alone *)

Lemma try_send_registry id d h :
  subscribers (try_send id d h).2 = subscribers h ∧ next_id (try_send id d h).2 = next_id h.
Proof. unfold try_send. by repeat case_match. Qed.

Lemma notify_registry h id :
  subscribers (notify h id) = subscribers h ∧ next_id (notify h id) = next_id h.
Proof.
  unfold notify. destruct (try_send_registry id registry_delivery h).
  by destruct (try_send _ _ _) as [[] ?].
Qed.

Lemma notify_all_registry ids h :
  subscribers (foldl notify h ids) = subscribers h ∧ next_id (foldl notify h ids) = next_id h.
Proof.
  revert h; induction ids as [|id ids IH]; intros h; [done|].
  simpl. destruct (IH (notify h id)) as [-> ->]. apply notify_registry.
Qed.

Lemma remember_id_short id s : length (remember_id id s) ≤ RECENT_IDS.
Proof. unfold remember_id. rewrite length_drop. lia. Qed.

Lemma remember_id_elem id s r : r ∈ remember_id id s → r = id ∨ r ∈ s.
Proof.
  unfold remember_id. intros H%subseteq_drop. apply elem_of_app in H as [?|?%list_elem_of_singleton]; [by right|by left].
Qed.

Lemma wanted_spec e k r : wanted e k r = true ↔ concerns e k r.
Proof.
  unfold wanted, from_connection, concerns. rewrite andb_true_iff, negb_true_iff, andb_false_iff.
  rewrite negb_false_iff, bool_decide_eq_true, bool_decide_eq_false.
  assert (k = "" ∨ origin e ≠ Some k ↔ (k ≠ "" → origin e ≠ Some k)) as ->.
  { destruct (decide (k = "")); tauto. }
  destruct r as [r|]; rewrite ?bool_decide_eq_true; naive_solver.
Qed.

#[export] Instance concerns_dec e k r : Decision (concerns e k r).
Proof.
  destruct (wanted e k r) eqn:W; [left; by apply wanted_spec|right].
  intros C%wanted_spec. congruence.
Defined.

Section invariant.
Context {Db : Type} (document_for : Db → string → string → RequestContext → option Value).
Implicit Types σ τ : State (Db := Db).

Lemma send_registry e docs t h dv :
  subscribers (send e docs t (h, dv)).1 = subscribers h
  ∧ next_id (send e docs t (h, dv)).1 = next_id h.
Proof.
  unfold send. destruct (try_send_registry (t_id t) (delivery e docs t) h).
  case_match; [done|]. by destruct (try_send _ _ _) as [[] ?].
Qed.

(** ** Worlds: what the properties of the run are stated about *)

Record World := { w_dbs : list Db; w_reg : gmap nat Subscribed; w_log : list (nat * Delivered) }.

Definition world σ : World := {| w_dbs := past σ; w_reg := registered σ; w_log := sent σ |}.

(** Runs only add to a world. *)
Definition extends (w w' : World) : Prop :=
  w_dbs w ⊆ w_dbs w' ∧ w_reg w ⊆ w_reg w' ∧ ∃ out, w_log w' = w_log w ++ out.

#[local] Instance extends_refl : Reflexive extends.
Proof. intros w. repeat split; [done..|]. exists []. by rewrite app_nil_r. Qed.

Definition trusted (w : World) (c : RequestContext) (id : nat) (rid : string) : Prop :=
  role c = Owner ∨ shown (w_log w) id rid.

Definition good_sub (w : World) (c : string) (s : Subscriber) : Prop :=
  w_reg w !! sub_id s = Some {| in_collection := c; in_record := sub_record s;
    in_context := sub_context s; in_connection := sub_connection s |}
  ∧ (∀ rid, rid ∈ seen s → trusted w (sub_context s) (sub_id s) rid)
  ∧ length (seen s) ≤ RECENT_IDS.

Definition good_target (w : World) (e : ChangeEvent) (t : Target) : Prop :=
  ∃ s, w_reg w !! t_id t = Some s ∧ in_collection s = ev_collection e ∧ in_context s = t_context t
    ∧ concerns e (in_connection s) (in_record s)
    ∧ (t_known t = true → trusted w (t_context t) (t_id t) (record_id e)).

Definition good_docs (w : World) (e : ChangeEvent) (docs : Documents) : Prop :=
  (op e = Delete → docs = [])
  ∧ ∀ c v, document c docs = Some (Some v) →
      ∃ b, b ∈ w_dbs w ∧ document_for b (ev_collection e) (record_id e) c = Some v.

Definition good_sent (w : World) (e : ChangeEvent) (id : nat) : Prop :=
  ∃ s, w_reg w !! id = Some s ∧ in_collection s = ev_collection e
    ∧ trusted w (in_context s) id (record_id e).

Definition good_phase (w : World) (e : ChangeEvent) (p : Phase) : Prop :=
  match p with
  | Querying todo docs => op e ≠ Delete ∧ Forall (good_target w e) todo ∧ good_docs w e docs
  | Sending todo docs dv =>
      Forall (good_target w e) todo ∧ good_docs w e docs ∧ Forall (good_sent w e) dv
  end.

Definition good_dispatch (w : World) (d : Dispatch) : Prop :=
  Forall (good_target w (d_event d)) (d_targets d) ∧ good_phase w (d_event d) (d_phase d).

Definition good_log (w : World) : Prop :=
  ∀ pre id d post, w_log w = pre ++ (id, d) :: post →
    legitimate document_for (w_dbs w) (w_reg w) pre id d.

Definition good_subs (w : World) (h : Hub) : Prop :=
  (∀ c l, subscribers h !! c = Some l → NoDup (sub_id <$> l) ∧ Forall (good_sub w c) l)
  ∧ ∀ id s, w_reg w !! id = Some s → id < next_id h.

Definition Inv σ : Prop :=
  good_subs (world σ) (hub σ) ∧ Forall (good_dispatch (world σ)) (pending σ) ∧ good_log (world σ)
  ∧ db σ ∈ past σ.

(** ** Everything good stays good as the run goes on *)

Lemma shown_mono log out id rid : shown log id rid → shown (log ++ out) id rid.
Proof. intros (d & ? & ?). exists d. rewrite elem_of_app. auto. Qed.

Lemma trusted_mono w w' c id rid : extends w w' → trusted w c id rid → trusted w' c id rid.
Proof.
  intros (_ & _ & out & E) [H|H]; [by left|right]. rewrite E. by apply shown_mono.
Qed.

Lemma good_sub_mono w w' c s : extends w w' → good_sub w c s → good_sub w' c s.
Proof.
  intros X (R & S & L). split; [|split; [|done]].
  - eapply lookup_weaken; [done|apply X].
  - eauto using trusted_mono.
Qed.

Lemma good_target_mono w w' e t : extends w w' → good_target w e t → good_target w' e t.
Proof.
  intros X (s & R & ? & ? & ? & K). exists s.
  split; [eapply lookup_weaken; [done|apply X]|]. split_and!; eauto using trusted_mono.
Qed.

Lemma good_docs_mono w w' e docs : extends w w' → good_docs w e docs → good_docs w' e docs.
Proof.
  intros (X & _) (? & D). split; [done|]. intros c v (b & ? & ?)%D. exists b. split; [by apply X|done].
Qed.

Lemma good_sent_mono w w' e id : extends w w' → good_sent w e id → good_sent w' e id.
Proof.
  intros X (s & R & ? & ?). exists s.
  split; [eapply lookup_weaken; [done|apply X]|]. split_and!; eauto using trusted_mono.
Qed.

Lemma good_dispatch_mono w w' d : extends w w' → good_dispatch w d → good_dispatch w' d.
Proof.
  intros X [T P]. split; [eauto using Forall_impl, good_target_mono|].
  destruct (d_phase d); destruct P as (? & ? & ?); split_and!;
    eauto using Forall_impl, good_target_mono, good_docs_mono, good_sent_mono.
Qed.

Lemma legitimate_mono dbs dbs' reg reg' log id d :
  dbs ⊆ dbs' → reg ⊆ reg' →
  legitimate document_for dbs reg log id d → legitimate document_for dbs' reg' log id d.
Proof.
  intros X Y (s & R & C & H). exists s.
  split; [by eapply lookup_weaken|]. split; [done|]. destruct H as [H|[W H]]; [by left|right].
  split; [done|]. case_decide; [done|]. destruct H as (v & b & ? & ? & ?). exists v, b. eauto.
Qed.

(** One more delivery, or none. *)
Lemma good_log_extends w w' out :
  w_dbs w ⊆ w_dbs w' → w_reg w ⊆ w_reg w' → w_log w' = w_log w ++ out →
  (∀ pre id d post, out = pre ++ (id, d) :: post →
     legitimate document_for (w_dbs w') (w_reg w') (w_log w ++ pre) id d) →
  good_log w → good_log w'.
Proof.
  intros X Y E O G pre id d post H. rewrite E in H.
  apply app_eq_inv in H as [(k & Hw & Hk)|(k & -> & Hk)]; [|by eapply O].
  destruct k as [|x k]; simplify_eq/=.
  - rewrite app_nil_r in Hw. rewrite <- Hw, <- (app_nil_r (w_log w)). by eapply O.
  - eapply legitimate_mono; [done..|]. by eapply G.
Qed.

(** ** The operations and the invariant *)

Lemma select_good w h e : good_subs w h → Forall (good_target w e) (select_targets e h).
Proof.
  intros [G _]. unfold select_targets. destruct (subscribers h !! ev_collection e) as [l|] eqn:E;
    [|apply Forall_nil_2].
  destruct (G _ _ E) as [_ F]. apply Forall_fmap, Forall_forall. intros s (W & M)%list_elem_of_filter.
  rewrite Forall_forall in F. destruct (F _ M) as (R & S & _).
  eexists. split; [exact R|]. split_and!; [done|done|by apply wanted_spec|]. cbn. rewrite bool_decide_eq_true. eauto.
Qed.

Lemma query_good w e t docs b :
  b ∈ w_dbs w → op e ≠ Delete → good_docs w e docs → good_docs w e (query document_for b e t docs).
Proof.
  intros B O [D G]. unfold query. case_match; [done|]. split; [done|].
  intros c v. cbn. case_decide as X; [|apply G]. intros [= V]. subst c. eauto.
Qed.

Lemma delivery_good w e docs t :
  good_target w e t → good_docs w e docs → allowed e docs t = true →
  legitimate document_for (w_dbs w) (w_reg w) (w_log w) (t_id t) (delivery e docs t).
Proof.
  intros (s & R & C & X & W & K) [D G] A. exists s. split_and!; [done..|]. right. split; [done|].
  unfold allowed, delivery in *. cbn. case_decide as O.
  - rewrite D by done. split; [done|]. rewrite X.
    apply orb_true_iff in A as [A%bool_decide_eq_true|A]; [by left|]. by apply K.
  - destruct (document (t_context t) docs) as [[v|]|] eqn:V; try done.
    destruct (G _ _ V) as (b & B & Q). exists v, b. rewrite C, X. done.
Qed.

Lemma remember_good w e dv h :
  Forall (good_sent w e) dv → good_subs w h → good_subs w (remember e dv h).
Proof.
  intros S [G N]. split; [|done]. intros c l. unfold remember. cbn.
  destruct (decide (c = ev_collection e)) as [->|Ne]; [rewrite lookup_alter_eq|rewrite lookup_alter_ne by done; apply G].
  destruct (subscribers h !! ev_collection e) as [l0|] eqn:E; [|done]. intros [= <-].
  destruct (G _ _ E) as [U F]. split.
  - rewrite <- list_fmap_compose. erewrite list_fmap_ext; [exact U|].
    intros ? s _. unfold remember_subscriber. cbn. by case_decide.
  - apply Forall_fmap. eapply Forall_impl; [exact F|]. intros s (R & K & L). unfold remember_subscriber. cbn.
    case_decide as M; [|done]. split_and!; cbn; [done| |apply remember_id_short].
    intros rid [->|?]%remember_id_elem; [|by apply K].
    rewrite Forall_forall in S. destruct (S _ M) as (s' & R' & _ & T). rewrite R in R'.
    injection R' as <-. exact T.
Qed.

Lemma unsubscribe_good w c id h : good_subs w h → good_subs w (unsubscribe c id h).
Proof.
  intros [G N]. unfold unsubscribe. destruct (subscribers h !! c) as [l|] eqn:E; [|done].
  split; [|done]. cbn. intros c' l'.
  assert (X : NoDup (sub_id <$> filter (λ s, sub_id s ≠ id) l)
              ∧ Forall (good_sub w c) (filter (λ s, sub_id s ≠ id) l)).
  { destruct (G _ _ E) as [U F]. split; [|apply Forall_forall; intros s [_ M]%list_elem_of_filter; by eapply Forall_forall in F].
    eapply sublist_NoDup; [exact U|apply fmap_sublist, sublist_filter]. }
  destruct (filter _ l) as [|s k] eqn:Ef; destruct (decide (c' = c)) as [->|Ne];
    rewrite ?lookup_delete_eq, ?lookup_delete_ne, ?lookup_insert_eq, ?lookup_insert_ne by done; try apply G.
  - done.
  - by intros [= <-].
Qed.

Lemma subscribe_good w c r x k id h h' :
  subscribe c r x k h = (id, h') → good_subs w h →
  let w' := {| w_dbs := w_dbs w; w_log := w_log w;
    w_reg := <[id := {| in_collection := c; in_record := r; in_context := x; in_connection := k |}]> (w_reg w) |} in
  extends w w' ∧ good_subs w' h'.
Proof.
  intros [= <- <-] [G N] w'.
  assert (X : extends w w').
  { repeat split; [done| |exists []; by rewrite app_nil_r]. apply insert_subseteq.
    destruct (w_reg w !! next_id h) eqn:E; [|done]. apply N in E. lia. }
  split; [done|]. split; cbn.
  - intros c' l'. destruct (decide (c' = c)) as [->|Ne];
      [rewrite lookup_insert_eq|rewrite lookup_insert_ne by done; intros [U F]%G; eauto using Forall_impl, good_sub_mono].
    intros [= <-].
    assert (H : NoDup (sub_id <$> default [] (subscribers h !! c)) ∧ Forall (good_sub w c) (default [] (subscribers h !! c))).
    { destruct (subscribers h !! c) eqn:E; [by apply G|split; constructor]. }
    destruct H as [U F]. rewrite fmap_app. split.
    + apply NoDup_app. split_and!; [done| |apply NoDup_singleton].
      intros i (s & -> & M)%list_elem_of_fmap Q%list_elem_of_singleton. cbn in Q.
      rewrite Forall_forall in F. destruct (F _ M) as (R & _). apply N in R. lia.
    + apply Forall_app. split; [eauto using Forall_impl, good_sub_mono|]. constructor; [|constructor].
      split_and!; cbn; [by rewrite lookup_insert_eq| |lia]. by intros ? ?%elem_of_nil.
  - intros i s. destruct (decide (i = next_id h)) as [->|Ne]; [lia|].
    rewrite lookup_insert_ne by done. intros ?%N. lia.
Qed.

Lemma good_subs_mono w w' h h' :
  extends w w' → w_reg w' = w_reg w → subscribers h' = subscribers h → next_id h' = next_id h →
  good_subs w h → good_subs w' h'.
Proof.
  intros X R S N [G B]. split; rewrite ?S, ?N, ?R; [|done].
  intros c l [? F]%G. eauto using Forall_impl, good_sub_mono.
Qed.

Lemma notified_registry ids h id d : (id, d) ∈ notified h ids → id ∈ ids ∧ d = registry_delivery.
Proof.
  revert h; induction ids as [|i ids IH]; intros h; cbn; [by intros ?%elem_of_nil|].
  intros [M|[? ?]%IH]%elem_of_app; [|by split; [right|]].
  destruct (try_send _ _ _) as [[] ?]; try by apply elem_of_nil in M.
  apply list_elem_of_singleton in M as [= -> ->]. by split; [left|].
Qed.

(** A step of the hub keeps the invariant when what it hands out is
    legitimate and the dispatches it leaves are good. *)
Lemma set_hub_inv σ h out ds :
  Inv σ → good_subs (world σ) h →
  (∀ pre id d post, out = pre ++ (id, d) :: post →
     legitimate document_for (past σ) (registered σ) (sent σ ++ pre) id d) →
  Forall (good_dispatch (world (set_hub h out ds σ))) ds →
  Inv (set_hub h out ds σ).
Proof.
  intros (G & P & L & N) S O D. split_and!; [|done| |done].
  - eapply good_subs_mono, S; try done. repeat split; try done. by exists out.
  - eapply good_log_extends; [..|exact L]; done.
Qed.

Lemma set_hub_extends σ h out ds : extends (world σ) (world (set_hub h out ds σ)).
Proof. repeat split; try done. by exists out. Qed.

(** Replacing one dispatch by its next phase. *)
Lemma phase_step σ h out l r e ts p p' :
  Forall (good_dispatch (world σ)) (l ++ {| d_event := e; d_targets := ts; d_phase := p |} :: r) →
  (Forall (good_target (world σ) e) ts → good_phase (world σ) e p →
   ∀ ds, good_phase (world (set_hub h out ds σ)) e p') →
  ∀ ds, Forall (good_dispatch (world (set_hub h out ds σ)))
          (l ++ {| d_event := e; d_targets := ts; d_phase := p' |} :: r).
Proof.
  rewrite Forall_app, Forall_cons. intros (L & [T P] & R) H ds.
  pose proof (set_hub_extends σ h out ds) as X.
  apply Forall_app. split; [eauto using Forall_impl, good_dispatch_mono|].
  apply Forall_cons. split; [|eauto using Forall_impl, good_dispatch_mono].
  split; cbn in *; [eauto using Forall_impl, good_target_mono|by apply H].
Qed.

Lemma inv_quiet σ h ds :
  Inv σ → good_subs (world σ) h → (∀ out, Forall (good_dispatch (world (set_hub h out ds σ))) ds) →
  Inv (set_hub h [] ds σ).
Proof. intros I S D. apply set_hub_inv; [done..| |done]. by intros [] ???. Qed.

Lemma pending_mono σ h out ds :
  Forall (good_dispatch (world σ)) ds → Forall (good_dispatch (world (set_hub h out ds σ))) ds.
Proof. intros F. eauto using Forall_impl, good_dispatch_mono, set_hub_extends. Qed.

Lemma start_good σ e h :
  good_subs (world σ) h → good_dispatch (world σ) (start e h).
Proof.
  intros S. pose proof (select_good _ _ e S) as T. split; [done|]. cbn.
  assert (good_docs (world σ) e []) by done. by case_decide; split_and!.
Qed.

Lemma send_inv σ e ts t todo docs dv h dv' l r :
  Inv σ → pending σ = l ++ {| d_event := e; d_targets := ts; d_phase := Sending (t :: todo) docs dv |} :: r →
  send e docs t (hub σ, dv) = (h, dv') →
  Inv (set_hub h (sends e docs t (hub σ))
        (l ++ {| d_event := e; d_targets := ts; d_phase := Sending todo docs dv' |} :: r) σ).
Proof.
  intros I E S. pose proof I as (G & P & L & _). rewrite E in P.
  assert (Q : good_target (world σ) e t ∧ good_docs (world σ) e docs).
  { apply Forall_app in P as [_ [[_ (F & D & _)] _]%Forall_cons]. by inversion F. }
  destruct Q as [T D]. pose proof (delivery_good _ e docs t T D) as Y.
  apply set_hub_inv; [done| | |].
  - destruct (send_registry e docs t (hub σ) dv) as [H1 H2]. rewrite S in H1, H2.
    by eapply good_subs_mono.
  - unfold sends. destruct (allowed e docs t); [|by intros []].
    destruct (try_send _ _ _) as [[] ?]; try by intros [].
    intros pre id d post H. destruct pre as [|? []]; simplify_eq/=. rewrite app_nil_r. by apply Y.
  - eapply phase_step; [exact P|]. intros _ (F & D' & V) ds.
    set (w' := world _).
    assert (X : extends (world σ) w') by apply set_hub_extends.
    inversion F; subst. split_and!; [eauto using Forall_impl, good_target_mono|by eapply good_docs_mono|].
    assert (V' : Forall (good_sent w' e) dv) by eauto using Forall_impl, good_sent_mono.
    revert S. unfold send. destruct (allowed e docs t) eqn:A; cbn; [|by intros [= _ <-]].
    destruct (try_send _ _ _) as [[] h1] eqn:B; intros [= _ <-]; try done.
    apply Forall_app. split; [done|]. constructor; [|constructor].
    destruct (Y eq_refl) as (s & R & C & K). exists s. split_and!; [done..|].
    assert (In : (t_id t, delivery e docs t) ∈ w_log w').
    { unfold w'. cbn. unfold sends. rewrite A, B. apply elem_of_app. right. by left. }
    destruct K as [K|[_ K]].
    + rewrite K in In. right. exists registry_delivery.
      split_and!; [exact In|by rewrite <- K|done..].
    + cbn in K. case_decide.
      * destruct K as [_ K]. eapply trusted_mono; [exact X|]. exact K.
      * destruct K as (v & b & Rv & _). right. eexists. split_and!; [exact In|done..|by exists v].
Qed.

Lemma quiet_world σ w :
  extends (world σ) w → w_log w = sent σ → good_log (world σ) → good_log w.
Proof.
  intros X E. eapply (good_log_extends (world σ) w []); [apply X..| |by intros []].
  by rewrite app_nil_r.
Qed.

Lemma step_inv σ τ : step document_for σ τ → Inv σ → Inv τ.
Proof.
  intros St I. pose proof I as (G & P & L & N). destruct St as
    [σ d|σ c r x k id h E|σ c id|σ id d b o E|σ id b o E|σ|σ e|σ e ts t todo docs l r E|σ e ts docs l r E
    |σ e ts t todo docs dv h dv' l r E S|σ e ts docs dv l r E]; try rewrite E in P.
  - assert (X : extends (world σ) {| w_dbs := d :: past σ; w_reg := registered σ; w_log := sent σ |}).
    { split_and!; [intros b Hb; by right|done|exists []; by rewrite app_nil_r]. }
    split_and!; [by eapply good_subs_mono|eauto using Forall_impl, good_dispatch_mono
      |by eapply quiet_world|by left].
  - destruct (subscribe_good (world σ) _ _ _ _ _ _ _ E G) as [X S].
    split_and!; [done|eauto using Forall_impl, good_dispatch_mono|by eapply quiet_world|done].
  - apply inv_quiet; [done|by apply unsubscribe_good|]. intros out. by apply pending_mono.
  - split_and!; [|done..]. by eapply good_subs_mono.
  - apply inv_quiet; [done| |intros out; by apply pending_mono]. by eapply good_subs_mono.
  - destruct (notify_all_registry (sub_id <$> default [] (subscribers (hub σ) !! REGISTRY_TOPIC)) (hub σ)) as [N1 N2].
    apply set_hub_inv; [done|by eapply good_subs_mono| |by apply pending_mono].
    intros pre id d post H.
    assert (M : (id, d) ∈ pre ++ (id, d) :: post) by (apply elem_of_app; right; by left).
    rewrite <- H in M. apply notified_registry in M as [(s & -> & M)%list_elem_of_fmap ->].
    destruct (subscribers (hub σ) !! REGISTRY_TOPIC) as [ls|] eqn:E; [|by apply elem_of_nil in M].
    destruct (proj1 G _ _ E) as [_ F]. rewrite Forall_forall in F. destruct (F _ M) as (R & _).
    eexists. split_and!; [exact R|done|by left].
  - apply inv_quiet; [done..|]. intros out. apply pending_mono. constructor; [by apply start_good|done].
  - apply inv_quiet; [done..|]. intros out. eapply phase_step; [exact P|].
    intros _ (O & F & D) ds. pose proof (set_hub_extends σ (hub σ) out ds) as X. inversion F; subst.
    split_and!; [done|eauto using Forall_impl, good_target_mono|].
    eapply good_docs_mono; [exact X|]. by apply query_good.
  - apply inv_quiet; [done..|]. intros out. eapply phase_step; [exact P|].
    intros T (O & F & D) ds. pose proof (set_hub_extends σ (hub σ) out ds) as X.
    split_and!; [eauto using Forall_impl, good_target_mono|by eapply good_docs_mono|constructor].
  - by eapply send_inv.
  - apply Forall_app in P as (Pl & [[_ (_ & _ & V)] Pr]%Forall_cons).
    apply inv_quiet; [done| |intros out; apply pending_mono; by apply Forall_app].
    destruct dv; [done|]. by apply remember_good.
Qed.

Lemma reachable_inv σ : reachable document_for σ → Inv σ.
Proof.
  induction 1 as [d|]; [|by eapply step_inv]. split_and!; [|constructor|by intros []|by left].
  split; [by intros ?? ?|]. by intros ?? ?.
Qed.
End invariant.

(** * The channels *)

(** The part of a history that concerns one subscription. *)
Definition of_sub (id : nat) (log : list (nat * Delivered)) : list Delivered :=
  snd <$> filter (λ x, x.1 = id) log.
#[global] Arguments of_sub : simpl never.

Definition buffer_of (h : Hub) (id : nat) : list Delivered :=
  default [] (buffer <$> channels h !! id).

Definition channels_ok (h : Hub) : Prop :=
  ∀ id ch, channels h !! id = Some ch → length (buffer ch) ≤ CLIENT_QUEUE ∧ id < next_id h.

(** What an operation put in the channels. *)
Definition queued (h h' : Hub) (out : list (nat * Delivered)) : Prop :=
  (∀ id, buffer_of h' id = buffer_of h id ++ of_sub id out) ∧ (channels_ok h → channels_ok h').

Lemma of_sub_app id l k : of_sub id (l ++ k) = of_sub id l ++ of_sub id k.
Proof. unfold of_sub. by rewrite filter_app, fmap_app. Qed.

Lemma of_sub_one id i d : of_sub id [(i, d)] = if decide (i = id) then [d] else [].
Proof. unfold of_sub. rewrite filter_cons. cbn. by case_decide. Qed.

Lemma queued_refl h h' : channels h' = channels h → next_id h' = next_id h → queued h h' [].
Proof.
  intros C N. split; [|unfold channels_ok; by rewrite C, N].
  intros id. unfold buffer_of. by rewrite C, app_nil_r.
Qed.

Lemma queued_trans h h1 h2 o1 o2 : queued h h1 o1 → queued h1 h2 o2 → queued h h2 (o1 ++ o2).
Proof.
  intros [A B] [C D]. split; [|auto]. intros id. by rewrite C, A, of_sub_app, app_assoc.
Qed.

Lemma try_send_queued id d h :
  queued h (try_send id d h).2 (match (try_send id d h).1 with Sent => [(id, d)] | _ => [] end).
Proof.
  unfold try_send. destruct (channels h !! id) as [ch|] eqn:E; [|by apply queued_refl].
  destruct (is_open ch); [|by apply queued_refl]. cbn.
  case_decide as L; [by apply queued_refl|]. cbn. split.
  - intros i. unfold buffer_of. cbn. rewrite of_sub_one.
    case_decide as X; [subst; by rewrite lookup_insert_eq, E|].
    by rewrite lookup_insert_ne, app_nil_r by done.
  - intros O i c. cbn. destruct (decide (i = id)) as [->|Ne].
    + rewrite lookup_insert_eq. intros [= <-]. cbn. rewrite length_app. cbn.
      split; [lia|]. by apply (O id ch).
    + rewrite lookup_insert_ne by done. apply O.
Qed.

Lemma send_queued {e docs t} h dv :
  queued h (send e docs t (h, dv)).1 (sends e docs t h).
Proof.
  unfold send, sends. destruct (allowed e docs t); [|by apply queued_refl]. cbn.
  pose proof (try_send_queued (t_id t) (delivery e docs t) h) as Q.
  destruct (try_send _ _ _) as [[] h']; exact Q.
Qed.

Lemma notify_queued ids h : queued h (foldl notify h ids) (notified h ids).
Proof.
  revert h; induction ids as [|id ids IH]; intros h; cbn; [by apply queued_refl|].
  eapply queued_trans, IH. unfold notify.
  pose proof (try_send_queued id registry_delivery h) as Q.
  by destruct (try_send _ _ _) as [[] h'].
Qed.

Lemma unsubscribe_queued c id h : queued h (unsubscribe c id h) [].
Proof. unfold unsubscribe. case_match; by apply queued_refl. Qed.

Lemma subscribe_queued c r x k h : channels_ok h → queued h (subscribe c r x k h).2 [].
Proof.
  intros O.
  assert (E : channels h !! next_id h = None).
  { destruct (_ !! _) eqn:E; [|done]. apply O in E. lia. }
  split; cbn.
  - intros i. unfold buffer_of. cbn. rewrite app_nil_r. destruct (decide (i = next_id h)) as [->|Ne].
    + by rewrite lookup_insert_eq, E.
    + by rewrite lookup_insert_ne.
  - intros _ i ch. cbn. destruct (decide (i = next_id h)) as [->|Ne].
    + rewrite lookup_insert_eq. intros [= <-]. cbn. split; lia.
    + rewrite lookup_insert_ne by done. intros [? ?]%O. split; [done|lia].
Qed.

Section channels.
Context {Db : Type} (document_for : Db → string → string → RequestContext → option Value).
Implicit Types σ τ : State (Db := Db).

Definition ChannelInv σ : Prop :=
  channels_ok (hub σ)
  ∧ ∀ id, of_sub id (sent σ) = of_sub id (received σ) ++ buffer_of (hub σ) id.

Lemma set_hub_channels σ h out ds :
  ChannelInv σ → queued (hub σ) h out → ChannelInv (set_hub h out ds σ).
Proof.
  intros [O F] [Q C]. split; [by apply C|]. intros id. cbn. by rewrite of_sub_app, F, Q, app_assoc.
Qed.

Lemma step_channels σ τ : step document_for σ τ → ChannelInv σ → ChannelInv τ.
Proof.
  intros St I. pose proof I as (O & F). destruct St as
    [σ d|σ c r x k id h E|σ c id|σ id d b o E|σ id b o E|σ|σ e|σ e ts t todo docs l r E|σ e ts docs l r E
    |σ e ts t todo docs dv h dv' l r E S|σ e ts docs dv l r E];
    try (apply set_hub_channels; [done|]; try by apply queued_refl); try exact I.
  - destruct (subscribe_queued c r x k (hub σ) O) as [Q C]. rewrite E in Q, C.
    split; [by apply C|]. intros i. cbn. by rewrite Q, F, app_nil_r.
  - apply unsubscribe_queued.
  - split.
    + intros i ch. cbn. destruct (decide (i = id)) as [->|Ne];
        [rewrite lookup_insert_eq|rewrite lookup_insert_ne by done; apply O].
      intros [= <-]. destruct (O _ _ E) as [L ?]. cbn in *. split; [lia|done].
    + intros i. cbn. rewrite F, of_sub_app, of_sub_one. unfold buffer_of. cbn. case_decide as X.
      * subst. rewrite lookup_insert_eq, E. cbn. by rewrite <- app_assoc.
      * by rewrite lookup_insert_ne, app_nil_r by done.
  - split.
    + intros i. unfold buffer_of. cbn. destruct (decide (i = id)) as [->|Ne];
        [by rewrite lookup_insert_eq, E, app_nil_r|by rewrite lookup_insert_ne, app_nil_r].
    + intros _ i ch. cbn. destruct (decide (i = id)) as [->|Ne];
        [rewrite lookup_insert_eq|rewrite lookup_insert_ne by done; apply O].
      intros [= <-]. by apply (O _ _ E).
  - apply notify_queued.
  - pose proof (send_queued (e := e) (docs := docs) (t := t) (hub σ) dv) as Q. by rewrite S in Q.
  - destruct dv; by apply queued_refl.
Qed.

Lemma reachable_channels σ : reachable document_for σ → ChannelInv σ.
Proof. induction 1 as [d|]; [|by eapply step_channels]. by split. Qed.
End channels.

(** * One dispatch on its own *)

(** The channel of an id takes a delivery; the channel of an id refuses it
    and the delivery is counted as dropped. *)
Definition has_room (h : Hub) (id : nat) : bool :=
  match channels h !! id with
  | Some ch => is_open ch && bool_decide (length (buffer ch) < CLIENT_QUEUE)
  | None => false
  end.

Definition is_full (h : Hub) (id : nat) : bool :=
  match channels h !! id with
  | Some ch => is_open ch && negb (bool_decide (length (buffer ch) < CLIENT_QUEUE))
  | None => false
  end.

Definition enqueue (d : Delivered) (ch : Channel) : Channel :=
  {| buffer := buffer ch ++ [d]; is_open := is_open ch |}.

Definition same_registry (h h' : Hub) : Prop :=
  subscribers h' = subscribers h ∧ next_id h' = next_id h.

Lemma has_room_eq h h' id : channels h' !! id = channels h !! id → has_room h' id = has_room h id.
Proof. unfold has_room. by intros ->. Qed.
Lemma is_full_eq h h' id : channels h' !! id = channels h !! id → is_full h' id = is_full h id.
Proof. unfold is_full. by intros ->. Qed.

Lemma insert_enqueue (m : gmap nat Channel) id b d :
  m !! id = Some {| buffer := b; is_open := true |} →
  <[id := {| buffer := b ++ [d]; is_open := true |}]> m = alter (enqueue d) id m.
Proof.
  intros E. apply map_eq. intros i. destruct (decide (i = id)) as [->|Ne].
  - by rewrite lookup_insert_eq, lookup_alter_eq, E.
  - by rewrite lookup_insert_ne, lookup_alter_ne.
Qed.

(** [send] in these terms. *)
Lemma send_spec e docs t h dv :
  let go := allowed e docs t && has_room h (t_id t) in
  let '(h', dv') := send e docs t (h, dv) in
  channels h' = (if go then alter (enqueue (delivery e docs t)) (t_id t) (channels h) else channels h)
  ∧ dv' = dv ++ (if go then [t_id t] else [])
  ∧ dropped h' = dropped h + (if allowed e docs t && is_full h (t_id t) then 1 else 0)
  ∧ same_registry h h'.
Proof.
  remember (alter (enqueue (delivery e docs t)) (t_id t) (channels h)) as m eqn:Em.
  unfold send, try_send, has_room, is_full, same_registry. destruct (allowed e docs t); cbn;
    [|rewrite app_nil_r; split_and!; auto].
  destruct (channels h !! t_id t) as [[b o]|] eqn:E; cbn; [|rewrite app_nil_r; split_and!; auto].
  destruct o; cbn; [|rewrite app_nil_r; split_and!; auto].
  case_decide as L; cbn.
  - rewrite bool_decide_eq_false_2 by lia. cbn. rewrite app_nil_r. split_and!; auto. lia.
  - rewrite bool_decide_eq_true_2 by lia. rewrite Em. split_and!; auto. by apply insert_enqueue.
Qed.

Lemma sends_spec e docs ts h dv :
  NoDup (t_id <$> ts) →
  let '(h', dv') := foldl (λ st t, send e docs t st) (h, dv) ts in
  (∀ t, t ∈ ts → channels h' !! t_id t =
     if allowed e docs t && has_room h (t_id t)
     then enqueue (delivery e docs t) <$> channels h !! t_id t else channels h !! t_id t)
  ∧ (∀ id, id ∉ t_id <$> ts → channels h' !! id = channels h !! id)
  ∧ dv' = dv ++ (t_id <$> filter (λ t, allowed e docs t && has_room h (t_id t) = true) ts)
  ∧ dropped h' = dropped h + length (filter (λ t, allowed e docs t && is_full h (t_id t) = true) ts)
  ∧ same_registry h h'.
Proof.
  revert h dv; induction ts as [|t ts IH]; intros h dv.
  { intros _. cbn. rewrite app_nil_r. split_and!; auto; [|done]. by intros t ?%elem_of_nil. }
  rewrite fmap_cons, NoDup_cons. intros [Nt U]. cbn [foldl].
  pose proof (send_spec e docs t h dv) as S. cbn zeta in S. destruct (send e docs t (h, dv)) as [h1 dv1].
  destruct S as (C & V & D & R1 & R2). specialize (IH h1 dv1 U).
  assert (K : ∀ id, id ≠ t_id t → channels h1 !! id = channels h !! id).
  { intros id Ne. rewrite C. destruct (_ && _); [by rewrite lookup_alter_ne|done]. }
  assert (Kt : ∀ t', t' ∈ ts → channels h1 !! t_id t' = channels h !! t_id t').
  { intros t' M. apply K. intros E. apply Nt. rewrite <- E. by apply list_elem_of_fmap_2. }
  destruct (foldl _ _ ts) as [h2 dv2]. destruct IH as (A & B & V2 & D2 & R3 & R4).
  rewrite (filter_ext_in _ (λ t, allowed e docs t && has_room h (t_id t) = true)) in V2
    by (intros t' M; by rewrite (has_room_eq h h1) by auto).
  rewrite (filter_ext_in _ (λ t, allowed e docs t && is_full h (t_id t) = true)) in D2
    by (intros t' M; by rewrite (is_full_eq h h1) by auto).
  split_and!.
  - intros t' [->|M]%elem_of_cons.
    + rewrite B, C by done. destruct (_ && _); [by rewrite lookup_alter_eq|done].
    + rewrite A, Kt by done. by rewrite (has_room_eq h h1) by auto.
  - intros id [Ne M]%not_elem_of_cons. by rewrite B, K.
  - rewrite V2, V, <- app_assoc, filter_cons. destruct (allowed e docs t && has_room h (t_id t)); by case_decide.
  - rewrite D2, D, filter_cons.
    destruct (allowed e docs t && is_full h (t_id t)); case_decide; cbn [length]; done || lia.
  - split; congruence.
Qed.

Section dispatch_spec.
Context {Db : Type} (document_for : Db → string → string → RequestContext → option Value).

(** The documents after the visibility loop. *)
Lemma queries_spec b e ts docs :
  let docs' := foldl (λ docs t, query document_for b e t docs) docs ts in
  (∀ c v, document c docs = Some v → v = document_for b (ev_collection e) (record_id e) c) →
  (∀ c v, document c docs' = Some v → v = document_for b (ev_collection e) (record_id e) c)
  ∧ (∀ c, is_Some (document c docs) ∨ (∃ t, t ∈ ts ∧ t_context t = c) → is_Some (document c docs')).
Proof.
  cbn zeta. revert docs; induction ts as [|t ts IH]; intros docs D; cbn.
  { split; [done|]. intros c [?|(t & ?%elem_of_nil & _)]; done. }
  assert (Q : (∀ c v, document c (query document_for b e t docs) = Some v →
                 v = document_for b (ev_collection e) (record_id e) c)
              ∧ ∀ c, is_Some (document c docs) ∨ t_context t = c → is_Some (document c (query document_for b e t docs))).
  { unfold query. destruct (document (t_context t) docs) eqn:X.
    - split; [done|]. intros c [?| <-]; [done|]. by rewrite X.
    - cbn. split; intros c; case_decide as Y; [subst; by intros ? [= <-]|apply D|eauto|].
      intros [?|?]; done. }
  destruct Q as [Q1 Q2]. destruct (IH _ Q1) as [A B]. split; [done|].
  intros c [?|(t' & [->|M]%elem_of_cons & E)]; apply B; [left; apply Q2; auto..|right; eauto].
Qed.

(** What one subscriber should get, the database being [b]. *)
Definition may_see (b : Db) (e : ChangeEvent) (s : Subscriber) : bool :=
  if decide (op e = Delete)
  then bool_decide (role (sub_context s) = Owner) || bool_decide (record_id e ∈ seen s)
  else bool_decide (is_Some (document_for b (ev_collection e) (record_id e) (sub_context s))).

Definition gets (b : Db) (e : ChangeEvent) (s : Subscriber) : Delivered :=
  {| event := e;
     record := if decide (op e = Delete) then None
               else document_for b (ev_collection e) (record_id e) (sub_context s) |}.

Definition due (b : Db) (e : ChangeEvent) (s : Subscriber) : bool :=
  bool_decide (concerns e (sub_connection s) (sub_record s)) && may_see b e s.

Lemma due_wanted b e s : due b e s = wanted e (sub_connection s) (sub_record s) && may_see b e s.
Proof.
  unfold due. f_equal. apply eq_bool_prop_intro. rewrite bool_decide_spec, <- wanted_spec.
  by destruct (wanted _ _ _).
Qed.

Definition documents (b : Db) (e : ChangeEvent) (ts : list Target) : Documents :=
  if decide (op e = Delete) then [] else foldl (λ docs t, query document_for b e t docs) [] ts.

Definition target (e : ChangeEvent) (s : Subscriber) : Target :=
  {| t_id := sub_id s; t_context := sub_context s; t_known := bool_decide (record_id e ∈ seen s) |}.

Lemma documents_spec b e ts s :
  target e s ∈ ts →
  allowed e (documents b e ts) (target e s) = may_see b e s
  ∧ delivery e (documents b e ts) (target e s) = gets b e s.
Proof.
  intros M. unfold documents, allowed, delivery, may_see, gets. case_decide as O; [done|].
  destruct (queries_spec b e ts []) as [A B]; [done|].
  destruct (B (sub_context s)) as [v V]; [right; by exists (target e s)|].
  cbn. rewrite V, <- (A _ _ V). split; [by destruct v|done].
Qed.

Definition subs_of (e : ChangeEvent) (h : Hub) : list Subscriber :=
  default [] (subscribers h !! ev_collection e).

Lemma select_eq e h :
  select_targets e h
  = target e <$> filter (λ s, wanted e (sub_connection s) (sub_record s) = true) (subs_of e h).
Proof. done. Qed.

Lemma target_inj l e s1 s2 :
  NoDup (sub_id <$> l) → s1 ∈ l → s2 ∈ l → t_id (target e s1) = sub_id s2 → s1 = s2.
Proof.
  intros U M1 M2 E. apply list_elem_of_lookup in M1 as [i Hi], M2 as [j Hj].
  assert (i = j) as ->; [|congruence].
  cbn in E. eapply (NoDup_lookup _ i j (sub_id s2) U); rewrite list_lookup_fmap.
  - rewrite Hi. cbn. by rewrite E.
  - by rewrite Hj.
Qed.

(** The selection picks subscriber [s] when it is wanted, and nobody else by
    that id. *)
Lemma select_ids e h s (P : Target → Prop) `{∀ t, Decision (P t)} :
  NoDup (sub_id <$> subs_of e h) → s ∈ subs_of e h →
  sub_id s ∈ t_id <$> filter P (select_targets e h)
  ↔ wanted e (sub_connection s) (sub_record s) = true ∧ P (target e s).
Proof.
  intros U M. rewrite select_eq, filter_map, list_filter_filter. split.
  - intros (t & E & (s' & -> & F)%list_elem_of_fmap)%list_elem_of_fmap.
    apply list_elem_of_filter in F as [[? ?] M'].
    rewrite <- (target_inj _ e s' s U M' M (eq_sym E)). done.
  - intros [W ?]. change (sub_id s) with (t_id (target e s)).
    apply list_elem_of_fmap_2, list_elem_of_fmap_2, list_elem_of_filter. done.
Qed.

Lemma select_nodup e h : NoDup (sub_id <$> subs_of e h) → NoDup (t_id <$> select_targets e h).
Proof.
  intros U. rewrite select_eq, <- list_fmap_compose. eapply sublist_NoDup; [exact U|].
  apply fmap_sublist, sublist_filter.
Qed.

Lemma select_member e h s :
  s ∈ subs_of e h → wanted e (sub_connection s) (sub_record s) = true → target e s ∈ select_targets e h.
Proof. intros M W. rewrite select_eq. by apply list_elem_of_fmap_2, list_elem_of_filter. Qed.

Lemma select_others e h id : id ∉ sub_id <$> subs_of e h → id ∉ t_id <$> select_targets e h.
Proof.
  intros N X. apply N. revert X. rewrite select_eq, <- list_fmap_compose.
  intros (s & -> & [_ M]%list_elem_of_filter)%list_elem_of_fmap. by apply (list_elem_of_fmap_2 sub_id).
Qed.

Lemma select_id e h s :
  NoDup (sub_id <$> subs_of e h) → s ∈ subs_of e h →
  sub_id s ∈ t_id <$> select_targets e h ↔ wanted e (sub_connection s) (sub_record s) = true.
Proof.
  intros U M. pose proof (select_ids e h s (λ _, True) U M) as S.
  rewrite filter_all in S by (apply Forall_forall; done). tauto.
Qed.
End dispatch_spec.

Section hub_properties.
Context {Db : Type} (document_for : Db → string → string → RequestContext → option Value).

(** [dispatch] as its three loops. *)
Lemma dispatch_eq b e h :
  dispatch document_for b e h
  = let ts := select_targets e h in
    let '(h1, dv) := foldl (λ st t, send e (documents document_for b e ts) t st) (h, []) ts in
    match dv with [] => h1 | _ => remember e dv h1 end.
Proof. done. Qed.

(** What a subscriber remembers when it is handed the event. *)
Definition remembering (e : ChangeEvent) (s : Subscriber) : Subscriber :=
  {| sub_id := sub_id s; sub_record := sub_record s; sub_context := sub_context s;
     sub_connection := sub_connection s; seen := remember_id (record_id e) (seen s) |}.

(** A dispatch that nothing interrupts does exactly what it should: a
    subscriber's channel takes the event when the subscriber wants it, may
    see it, and its channel is open and has room; every other channel is left
    alone; those who took it remember the record; the others who were due are
    counted as dropped when their channel was full. *)
Theorem dispatch_delivers b e h :
  NoDup (sub_id <$> subs_of e h) →
  let h' := dispatch document_for b e h in
  let gets_it s := due document_for b e s && has_room h (sub_id s) in
  (∀ s, s ∈ subs_of e h → channels h' !! sub_id s =
     if gets_it s then enqueue (gets document_for b e s) <$> channels h !! sub_id s
     else channels h !! sub_id s)
  ∧ (∀ id, id ∉ sub_id <$> subs_of e h → channels h' !! id = channels h !! id)
  ∧ subscribers h' = alter (fmap (λ s, if gets_it s then remembering e s else s))
                       (ev_collection e) (subscribers h)
  ∧ dropped h' = dropped h
      + length (filter (λ s, due document_for b e s && is_full h (sub_id s) = true) (subs_of e h))
  ∧ next_id h' = next_id h.
Proof.
  intros U h' gets_it. set (ts := select_targets e h).
  pose proof (sends_spec e (documents document_for b e ts) ts h [] (select_nodup e h U)) as S.
  unfold h'. rewrite dispatch_eq. fold ts. cbn zeta. destruct (foldl _ _ ts) as [h1 dv].
  destruct S as (A & B & V & D & R1 & R2). rewrite app_nil_l in V.
  pose proof (select_member e h) as In. fold ts in In.
  assert (Dv : ∀ s, s ∈ subs_of e h → sub_id s ∈ dv ↔ gets_it s = true).
  { intros s M. rewrite V. unfold ts. rewrite select_ids by done. fold ts. unfold gets_it. rewrite due_wanted.
    destruct (wanted _ _ _) eqn:W; cbn; [|split; [by intros [? _]|done]].
    destruct (documents_spec document_for b e ts s (In s M W)) as [-> _].
    split; [by intros [_ ?]|by split]. }
  assert (C : channels (match dv with [] => h1 | _ => remember e dv h1 end) = channels h1
            ∧ dropped (match dv with [] => h1 | _ => remember e dv h1 end) = dropped h1
            ∧ next_id (match dv with [] => h1 | _ => remember e dv h1 end) = next_id h1).
  { by destruct dv. }
  destruct C as (-> & -> & ->). split_and!.
  - intros s M. unfold gets_it. rewrite due_wanted. destruct (wanted e _ _) eqn:W; cbn.
    + rewrite <- (proj1 (documents_spec document_for b e ts s (In s M W))).
      rewrite <- (proj2 (documents_spec document_for b e ts s (In s M W))).
      apply (A (target e s)), In; done.
    + apply B. unfold ts. rewrite select_id by done. congruence.
  - intros id N. by apply B, select_others.
  - rewrite <- R1. apply map_eq. intros c.
    destruct (decide (c = ev_collection e)) as [->|Ne];
      [rewrite lookup_alter_eq|rewrite lookup_alter_ne by done; destruct dv; cbn; [done|by rewrite lookup_alter_ne]].
    destruct (subscribers h1 !! ev_collection e) as [l|] eqn:E;
      [|destruct dv; cbn; rewrite ?lookup_alter_eq, E; done].
    assert (El : subs_of e h = l) by (unfold subs_of; by rewrite <- R1, E).
    assert (X : Some (remember_subscriber e dv <$> l) = subscribers (match dv with [] => h1 | _ => remember e dv h1 end) !! ev_collection e).
    { destruct dv; cbn; [|by rewrite lookup_alter_eq, E]. rewrite E. f_equal. rewrite <- (list_fmap_id l) at 2. apply list_fmap_ext.
      intros i s _. unfold remember_subscriber. case_decide as Q; [by apply elem_of_nil in Q|done]. }
    rewrite <- X. cbn. f_equal. apply list_fmap_ext. intros i s Hs. unfold remember_subscriber.
    assert (M : s ∈ subs_of e h) by (rewrite El; by eapply list_elem_of_lookup_2).
    pose proof (Dv s M) as Y.
    case_decide as Q; destruct (gets_it s); try done; [by apply (proj1 Y) in Q|by exfalso; apply Q, (proj2 Y)].
  - rewrite D. f_equal. set (docs := documents _ _ _ _). unfold ts.
    rewrite select_eq, filter_map, length_fmap, list_filter_filter. f_equal.
    apply filter_ext_in. intros s M. rewrite due_wanted, !andb_true_iff.
    destruct (wanted _ _ _) eqn:W; [|split; [by intros [_ ?]|by intros [[? _] _]]].
    unfold docs. rewrite (proj1 (documents_spec document_for b e ts s (In s M W))). cbn. tauto.
  - exact R2.
Qed.

(** ** The loops as runs of the system *)

Lemma run_queries e ts todo : ∀ σ docs p,
  pending σ = {| d_event := e; d_targets := ts; d_phase := Querying todo docs |} :: p →
  ∃ τ, rtc (step document_for) σ τ ∧ hub τ = hub σ ∧ db τ = db σ
    ∧ pending τ = {| d_event := e; d_targets := ts;
                     d_phase := Querying [] (foldl (λ docs t, query document_for (db σ) e t docs) docs todo) |} :: p.
Proof.
  induction todo as [|t todo IH]; intros σ docs p E; [by exists σ|].
  set (σ' := set_hub (hub σ) [] ({| d_event := e; d_targets := ts;
    d_phase := Querying todo (query document_for (db σ) e t docs) |} :: p) σ).
  destruct (IH σ' _ p eq_refl) as (τ & R & H & D & P). exists τ. split_and!; [|done..].
  eapply rtc_l; [|exact R]. by apply (step_query document_for σ e ts t todo docs [] p).
Qed.

Lemma run_sends e ts docs todo : ∀ σ dv p,
  pending σ = {| d_event := e; d_targets := ts; d_phase := Sending todo docs dv |} :: p →
  let '(h', dv') := foldl (λ st t, send e docs t st) (hub σ, dv) todo in
  ∃ τ, rtc (step document_for) σ τ ∧ hub τ = h' ∧ db τ = db σ
    ∧ pending τ = {| d_event := e; d_targets := ts; d_phase := Sending [] docs dv' |} :: p.
Proof.
  induction todo as [|t todo IH]; intros σ dv p E; [by exists σ|]. cbn [foldl].
  destruct (send e docs t (hub σ, dv)) as [h1 dv1] eqn:S.
  set (σ' := set_hub h1 (sends e docs t (hub σ))
    ({| d_event := e; d_targets := ts; d_phase := Sending todo docs dv1 |} :: p) σ).
  specialize (IH σ' dv1 p eq_refl). change (hub σ') with h1 in IH.
  destruct (foldl _ (h1, dv1) todo) as [h2 dv2]. destruct IH as (τ & R & H & D & P).
  exists τ. split_and!; [|done..]. eapply rtc_l; [|exact R].
  by apply (step_send document_for σ e ts t todo docs dv h1 dv1 [] p).
Qed.

(** The whole [dispatch] refines the step relation: from any state, with
    other dispatches pending, there is a run of its steps to the hub that
    [dispatch] computes. *)
Theorem dispatch_is_a_run σ e :
  ∃ τ, rtc (step document_for) σ τ ∧ hub τ = dispatch document_for (db σ) e (hub σ)
    ∧ pending τ = pending σ ∧ db τ = db σ.
Proof.
  rewrite dispatch_eq. cbn zeta. set (ts := select_targets e (hub σ)).
  set (docs := documents document_for (db σ) e ts).
  assert (Q : ∃ σ1, rtc (step document_for) σ σ1 ∧ hub σ1 = hub σ ∧ db σ1 = db σ
    ∧ pending σ1 = {| d_event := e; d_targets := ts; d_phase := Sending ts docs [] |} :: pending σ).
  { pose proof (step_event document_for σ e) as S. unfold docs, documents, start in *. fold ts in S.
    case_decide; [eexists; split; [by apply rtc_once|done]|].
    match type of S with step _ _ ?s =>
      destruct (run_queries e ts ts s [] (pending σ) eq_refl) as (τ & R & H1 & H2 & P) end.
    pose proof (step_queried document_for τ e ts _ [] (pending σ) P) as Z.
    eexists. split; [eapply rtc_l; [exact S|]; eapply rtc_r; [exact R|exact Z]|done]. }
  destruct Q as (σ1 & R1 & H1 & D1 & P1).
  pose proof (run_sends e ts docs ts σ1 [] _ P1) as X. rewrite H1 in X.
  destruct (foldl _ (hub σ, []) ts) as [h dv]. destruct X as (σ2 & R2 & H2 & D2 & P2).
  pose proof (step_remember document_for σ2 e ts docs dv [] (pending σ) P2) as Z. rewrite H2 in Z.
  eexists. split; [etransitivity; [exact R1|]; eapply rtc_r; [exact R2|exact Z]|].
  cbn. split; [done|]. split; [done|]. congruence.
Qed.

(** ** What clients are handed *)

(** C9. In every run of the hub, whatever subscriptions, disconnections,
    database writes and other dispatches happen in between its steps, each
    delivery handed to a client is legitimate: it goes to a subscription of
    the event's collection (and record, when it named one) made on another
    connection than the change; a create or update carries the document that
    the collection's select policy showed the subscriber's own context at
    some moment of the run; a delete goes only to an owner or to a
    subscription that was handed that record before. *)
Theorem delivery_sound σ pre id d post :
  reachable document_for σ → sent σ = pre ++ (id, d) :: post →
  legitimate document_for (past σ) (registered σ) pre id d.
Proof. intros (_ & _ & L & _)%reachable_inv E. by apply (L pre id d post). Qed.

(** In every run, what a client has read followed by what its channel
    holds is what it was handed, in that order, nothing lost or doubled; no
    channel holds more than [CLIENT_QUEUE] deliveries, no subscription
    remembers more than [RECENT_IDS] records and no two subscriptions of a
    collection share an id. *)
Theorem clients_read_in_order σ :
  reachable document_for σ →
  (∀ id, of_sub id (sent σ) = of_sub id (received σ) ++ buffer_of (hub σ) id
     ∧ length (buffer_of (hub σ) id) ≤ CLIENT_QUEUE)
  ∧ ∀ c l, subscribers (hub σ) !! c = Some l →
      NoDup (sub_id <$> l) ∧ Forall (λ s, length (seen s) ≤ RECENT_IDS) l.
Proof.
  intros R. destruct (reachable_channels _ _ R) as [O F]. split.
  - intros id. split; [apply F|]. unfold buffer_of.
    destruct (channels (hub σ) !! id) as [ch|] eqn:E; [by apply (O id ch)|cbn; lia].
  - intros c l E. destruct (reachable_inv _ _ R) as ([G _] & _). destruct (G _ _ E) as [U S].
    split; [done|]. eapply Forall_impl; [exact S|]. by intros s (_ & _ & ?).
Qed.

(** ** Replaying *)

(** A resumed stream against a live one. For a create or update that the
    subscription wants, replay hands over what a dispatch would. But replay
    hands over every delete, while a dispatch keeps a delete from a subscriber
    that is not the owner and was not handed the record; and it does not know
    the record a subscription was limited to, while a dispatch delivers no
    event of another record. *)
Theorem replay_versus_live b e s :
  let row := replay_row document_for b b (ev_collection e) (sub_context s) e in
  (op e ≠ Delete → concerns e (sub_connection s) (sub_record s) →
     row = if due document_for b e s then Some (gets document_for b e s) else None)
  ∧ (op e = Delete → row = Some {| event := e; record := None |})
  ∧ (op e = Delete → role (sub_context s) ≠ Owner → record_id e ∉ seen s → due document_for b e s = false)
  ∧ (∀ r, sub_record s = Some r → r ≠ record_id e → due document_for b e s = false).
Proof.
  cbn zeta. unfold replay_row, due, may_see, gets. split_and!.
  - intros O C. rewrite (bool_decide_eq_false_2 (op e = Delete)), (bool_decide_eq_true_2 _ C) by done. cbn.
    by rewrite !decide_False by done.
  - intros O. rewrite bool_decide_eq_true_2 by done. cbn. by rewrite decide_True.
  - intros O Ro N. rewrite decide_True by done.
    rewrite (bool_decide_eq_false_2 _ Ro), (bool_decide_eq_false_2 _ N). apply andb_false_r.
  - intros r E N. rewrite bool_decide_eq_false_2; [done|]. intros [_ C]. by apply N, C.
Qed.

(** Replay returns, in log order, at most [REPLAY_LIMIT] events: the
    deletes, and those whose record the context may see, each with the
    document it may see. *)
Theorem replay_spec b log c since x :
  let out := replay document_for b log c since x in
  length out ≤ REPLAY_LIMIT
  ∧ event <$> out = filter (λ e, op e = Delete ∨ is_Some (document_for b c (record_id e) x))
                      (replay_rows log c since)
  ∧ Forall (λ d, if decide (op (event d) = Delete) then record d = None
                 else record d = document_for b c (record_id (event d)) x ∧ is_Some (record d)) out.
Proof.
  cbn zeta. unfold replay. split_and!.
  - etransitivity; [apply omap_short|]. unfold replay_rows. rewrite length_take. lia.
  - induction (replay_rows log c since) as [|e l IH]; [done|]. rewrite filter_cons, <- IH. clear IH.
    cbn. unfold replay_row at 1.
    destruct (decide (op e = Delete)) as [D|D], (decide (is_Some (document_for b c (record_id e) x))) as [V|V];
      rewrite ?(bool_decide_eq_true_2 _ D), ?(bool_decide_eq_false_2 _ D), ?(bool_decide_eq_true_2 _ V),
        ?(bool_decide_eq_false_2 _ V); cbn; case_decide; tauto || done.
  - apply Forall_forall. intros d (e & _ & H)%list_elem_of_omap. revert H. unfold replay_row.
    destruct (bool_decide (op e = Delete)) eqn:D; cbn.
    + apply bool_decide_eq_true in D. intros [= <-]. cbn. by rewrite !decide_True.
    + apply bool_decide_eq_false in D. case_bool_decide; intros [= <-]. cbn. by rewrite !decide_False.
Qed.
End hub_properties.

(** * Samples *)

(** A database that shows its records to whoever is authenticated. *)
Definition sample_documents (_ : unit) (_ id : string) (c : RequestContext) : option Value :=
  if decide (role c = Authenticated) then Some (JString id) else None.

Definition sample_event : ChangeEvent :=
  {| log_id := 7; ev_collection := "posts"; op := Update; record_id := "p1"; origin := Some "conn1" |}.

Definition sample_reader : RequestContext := authenticated "u1" "a@b.c" "c1" "users".

(** Three subscribers of [posts]: a reader, somebody anonymous, and the
    connection that made the change. *)
Definition sample_hub : Hub :=
  (subscribe "posts" None sample_reader "conn1"
    (subscribe "posts" None anonymous "conn3"
      (subscribe "posts" (Some "p1") sample_reader "conn2" hub_new).2).2).2.

Theorem delivery_sound_witness :
  ∃ (σ : State (Db := unit)) id d, reachable sample_documents σ ∧ sent σ = [] ++ (id, d) :: []
    ∧ legitimate sample_documents (past σ) (registered σ) [] id d.
Proof.
  pose proof (reachable_initial sample_documents tt) as R0.
  pose proof (reachable_step _ _ _ R0 (step_subscribe _ _ "posts" None sample_reader "conn2" _ _ eq_refl)) as R1.
  pose proof (reachable_step _ _ _ R1 (step_event _ _ sample_event)) as R2.
  eassert (R3 : reachable sample_documents _).
  { eapply reachable_step; [exact R2|]. eapply (step_query _ _ sample_event _ _ [] _ [] []). vm_compute. reflexivity. }
  eassert (R4 : reachable sample_documents _).
  { eapply reachable_step; [exact R3|]. eapply (step_queried _ _ sample_event _ _ [] []). reflexivity. }
  eassert (R5 : reachable sample_documents _).
  { eapply reachable_step; [exact R4|]. eapply (step_send _ _ sample_event _ _ [] _ _ _ _ [] []); reflexivity. }
  eexists _, _, _. split; [exact R5|]. split; [vm_compute; reflexivity|].
  eapply (delivery_sound sample_documents _ [] _ _ []); [exact R5|vm_compute; reflexivity].
Defined.

Theorem clients_read_in_order_witness :
  ∃ (σ : State (Db := unit)) id d, reachable sample_documents σ ∧ buffer_of (hub σ) id = [d]
    ∧ of_sub id (sent σ) = of_sub id (received σ) ++ buffer_of (hub σ) id.
Proof.
  pose proof (reachable_initial sample_documents tt) as R0.
  pose proof (reachable_step _ _ _ R0 (step_subscribe _ _ "collections" None owner "conn2" _ _ eq_refl)) as R1.
  pose proof (reachable_step _ _ _ R1 (step_notify _ _)) as R2.
  eexists _, 1, _. split; [exact R2|]. split; [vm_compute; reflexivity|].
  destruct (clients_read_in_order sample_documents _ R2) as [F _]. apply F.
Defined.

Theorem dispatch_delivers_witness :
  NoDup (sub_id <$> subs_of sample_event sample_hub)
  ∧ let h' := dispatch sample_documents tt sample_event sample_hub in
    channels h' !! 1 = enqueue (gets sample_documents tt sample_event
      {| sub_id := 1; sub_record := Some "p1"; sub_context := sample_reader; sub_connection := "conn2"; seen := [] |})
      <$> channels sample_hub !! 1
    ∧ next_id h' = 4.
Proof.
  assert (U : NoDup (sub_id <$> subs_of sample_event sample_hub)) by (vm_compute; apply (bool_decide_unpack _); vm_compute; exact I).
  split; [exact U|].
  destruct (dispatch_delivers sample_documents tt sample_event sample_hub U) as (A & _ & _ & _ & N).
  split; [|exact N].
  apply (A {| sub_id := 1; sub_record := Some "p1"; sub_context := sample_reader; sub_connection := "conn2"; seen := [] |}).
  vm_compute. left.
Defined.
