(* ===== verification/Validation.v ===== *)
(** Record values: validating them against a collection's fields and encoding
    them as parameters, [crates/db/src/validation.rs].

    A failure is its machine-readable code; the messages are not modelled. *)
From Stdlib Require Import SpecFloat.
From S2P Require Import Prelude CoreError F64 Json RecordId Types Compile Samples.

Local Set Warnings "-register-all,-clear-no-such-hyp".

Definition SERVER_MANAGED_KEYS : list string := ["created"; "updated"; "collectionId"; "collectionName"].
Definition AUTH_INPUT_KEYS : list string := ["email"; "verified"; "password"; "passwordConfirm"].
Definition MIN_PASSWORD_LEN : N := 8.

(** [Result<A, FieldError>]. *)
Inductive checked (A : Type) := Pass (a : A) | Refuse (code : string).
Arguments Pass {A} a.
Arguments Refuse {A} code.

#[export] Instance checked_bind : MBind checked := λ A B k m,
  match m with Pass a => k a | Refuse code => Refuse code end.

(** [struct ValidationErrors] and its [insert], which keeps the first failure
    of a field. *)
Definition ValidationErrors : Type := gmap string string.

Definition errors_insert (field code : string) (errors : ValidationErrors) : ValidationErrors :=
  match errors !! field with Some _ => errors | None => <[field := code]> errors end.

(** * Text checks *)

(** [char::is_whitespace] of some character. *)
Fixpoint has_whitespace (s : string) : bool :=
  match s with
  | EmptyString => false
  | String a r =>
      is_ws1 a
      || match r with
         | EmptyString => false
         | String b r2 =>
             is_ws2 a b || match r2 with EmptyString => false | String c _ => is_ws3 a b c end
         end
      || has_whitespace r
  end.

(** [looks_like_email]. *)
Definition looks_like_email (value : string) : bool :=
  if bool_decide (320 < String.length value) || has_whitespace value then false
  else match split_on "@" value with
       | [local; domain] =>
           negb (bool_decide (local = ""))
           && match split_once "." domain with
              | Some (host, tld) => negb (bool_decide (host = "")) && negb (bool_decide (tld = ""))
              | None => false
              end
       | _ => false
       end.

(** [looks_like_url]. *)
Definition looks_like_url (value : string) : bool :=
  starts_with "http://" value || starts_with "https://" value.

(** [looks_like_date]. *)
Definition looks_like_date (value : string) : bool :=
  match value with
  | String a (String b (String c (String d (String e (String f (String g (String h (String i
      (String j _))))))))) =>
      is_ascii_digit a && is_ascii_digit b && is_ascii_digit c && is_ascii_digit d
      && bool_decide (e = "-"%char) && is_ascii_digit f && is_ascii_digit g
      && bool_decide (h = "-"%char) && is_ascii_digit i && is_ascii_digit j
  | _ => false
  end.

(** [parse_number] and [parse_bool]. *)
Definition parse_number (value : Value) : option f64 :=
  match value with
  | JNumber n => Some (number_f64 n)
  | JString text => parse_f64 (trim text)
  | _ => None
  end.

Definition parse_bool (value : Value) : option bool :=
  match value with
  | JBool flag => Some flag
  | JString text =>
      let word := to_ascii_lowercase (trim text) in
      if decide (word ∈ ["true"; "1"; "yes"; "on"]) then Some true
      else if decide (word ∈ ["false"; "0"; "no"; "off"]) then Some false
      else None
  | _ => None
  end.

(** [is_text_like] and [is_blank_text]. *)
Definition is_text_like (t : FieldType) : bool :=
  match t with FText | FEditor | FEmail | FUrl | FPassword => true | _ => false end.

Definition is_blank_text (f : Field) (value : Value) : bool :=
  is_text_like (field_type f)
  && match as_str value with Some text => bool_decide (trim text = "") | None => false end.

(** * One value *)

Definition or_refuse {A} (o : option A) (code : string) : checked A :=
  match o with Some a => Pass a | None => Refuse code end.

(** [if bad { return Err(..) }]. *)
Definition refuse_if (bad : bool) (code : string) : checked unit :=
  if bad then Refuse code else Pass ().

Definition expect_string (value : Value) : checked string :=
  or_refuse (as_str value) "validation_invalid_value".

Definition expect_string_list (value : Value) : checked (list string) :=
  items ← or_refuse (as_array value) "validation_invalid_value";
  or_refuse (mapM as_str items) "validation_invalid_value".

(** An option that bounds the value from below or from above. *)
Definition check_bound (options : Value) (key code : string) (outside : f64 → bool) : checked unit :=
  match option_f64 options key with Some bound => refuse_if (outside bound) code | None => Pass () end.

(** [check_length]. *)
Definition check_length (f : Field) (text : string) : checked unit :=
  let length := f64_of_Z (Z.of_N (char_count text)) in
  _ ← check_bound (field_options f) "min" "validation_min_text" (f64_lt length);
  check_bound (field_options f) "max" "validation_max_text" (f64_gt length).

(** [validate_number]. *)
Definition validate_number (f : Field) (value : Value) : checked unit :=
  number ← or_refuse (parse_number value) "validation_not_a_number";
  _ ← refuse_if (option_bool (field_options f) "onlyInt" && f64_has_fract number) "validation_not_an_integer";
  _ ← check_bound (field_options f) "min" "validation_min_number" (f64_lt number);
  check_bound (field_options f) "max" "validation_max_number" (f64_gt number).

(** [check_max_select] and [check_allowed]. *)
Definition check_max_select (f : Field) (count : nat) : checked unit :=
  refuse_if (bool_decide (default 1 (option_u64 (field_options f) "maxSelect") < Z.of_nat count)%Z)
    "validation_too_many_values".

Definition check_allowed (chosen : string) (allowed : list string) : checked unit :=
  refuse_if (negb (bool_decide (chosen ∈ allowed))) "validation_not_in_values".

(** [for item in items { check(item)? }]. *)
Fixpoint check_each {A} (check : A → checked unit) (items : list A) : checked unit :=
  match items with [] => Pass () | x :: items => _ ← check x; check_each check items end.

Definition geo_within (object : list (string * Value)) : bool :=
  match assoc "lon" object ≫= as_f64, assoc "lat" object ≫= as_f64 with
  | Some lon, Some lat =>
      f64_le (f64_of_Z (-180)) lon && f64_le lon (f64_of_Z 180)
      && f64_le (f64_of_Z (-90)) lat && f64_le lat (f64_of_Z 90)
  | _, _ => false
  end.

(** [validate_value]. *)
Definition validate_value (f : Field) (value : Value) : checked unit :=
  match field_type f with
  | FText | FEditor | FPassword => text ← expect_string value; check_length f text
  | FEmail =>
      text ← expect_string value; _ ← check_length f text;
      refuse_if (negb (looks_like_email text)) "validation_invalid_email"
  | FUrl =>
      text ← expect_string value; _ ← check_length f text;
      refuse_if (negb (looks_like_url text)) "validation_invalid_url"
  | FNumber => validate_number f value
  | FBool => _ ← or_refuse (parse_bool value) "validation_invalid_value"; Pass ()
  | FDate =>
      text ← expect_string value; refuse_if (negb (looks_like_date text)) "validation_invalid_date"
  | FSelect =>
      let allowed := option_str_list (field_options f) "values" in
      if field_is_multiple f then
        chosen ← expect_string_list value; _ ← check_max_select f (length chosen);
        check_each (λ item, check_allowed item allowed) chosen
      else chosen ← expect_string value; check_allowed chosen allowed
  | FFile =>
      if field_is_multiple f then names ← expect_string_list value; check_max_select f (length names)
      else _ ← expect_string value; Pass ()
  | FRelation =>
      if field_is_multiple f then
        ids ← expect_string_list value; _ ← check_max_select f (length ids);
        check_each (λ id, refuse_if (negb (is_valid_id id)) "validation_invalid_relation") ids
      else
        id ← expect_string value; refuse_if (negb (is_valid_id id)) "validation_invalid_relation"
  | FJson => Pass ()
  | FGeoPoint =>
      object ← or_refuse (as_object value) "validation_invalid_value";
      refuse_if (negb (geo_within object)) "validation_invalid_geo_point"
  | FAutodate => Pass ()
  end.

(** * A whole record *)

Definition Input : Type := list (string * Value).

(** The loop over the keys of the input, at one key: its failure if it has one. *)
Definition known_key (c : Collection) (key : string) : bool :=
  bool_decide (key = "id") || bool_decide (key ∈ SERVER_MANAGED_KEYS)
  || (bool_decide (collection_type c = CAuth) && bool_decide (key ∈ AUTH_INPUT_KEYS))
  || match collection_field c key with Some _ => true | None => false end.

Definition check_key (c : Collection) (errors : ValidationErrors) (key : string) : ValidationErrors :=
  if known_key c key then errors else errors_insert key "validation_unknown_field" errors.

(** The body of the loop over the fields. *)
Definition check_field (input : Input) (partial : bool) (errors : ValidationErrors) (f : Field)
    : ValidationErrors :=
  if decide (field_type f = FAutodate) then errors
  else
    let raw := assoc (field_name f) input in
    let value := match raw with
                 | Some (JString text) => if decide (text = "") then None else raw
                 | _ => raw
                 end in
    match value with
    | None =>
        let cleared := bool_decide (is_Some raw) in
        if required f && (cleared || negb partial)
        then errors_insert (field_name f) "validation_required" errors else errors
    | Some JNull =>
        if required f then errors_insert (field_name f) "validation_required" errors else errors
    | Some value =>
        if required f && is_blank_text f value
        then errors_insert (field_name f) "validation_required" errors
        else match validate_value f value with
             | Refuse code => errors_insert (field_name f) code errors
             | Pass _ => errors
             end
    end.

(** [validate_auth_keys], one built-in key at a time. *)
Definition check_email (input : Input) (partial : bool) (errors : ValidationErrors) : ValidationErrors :=
  match assoc "email" input with
  | None => if partial then errors else errors_insert "email" "validation_required" errors
  | Some JNull => errors_insert "email" "validation_required" errors
  | Some (JString text) =>
      if looks_like_email text then errors
      else errors_insert "email" "validation_invalid_email" errors
  | Some _ => errors_insert "email" "validation_invalid_value" errors
  end.

Definition check_verified (input : Input) (errors : ValidationErrors) : ValidationErrors :=
  match assoc "verified" input with
  | Some value =>
      if negb (is_null value) && negb (bool_decide (is_Some (parse_bool value)))
      then errors_insert "verified" "validation_invalid_value" errors else errors
  | None => errors
  end.

(** The password that was supplied: not absent, null or empty. *)
Definition supplied_password (c : Collection) (input : Input) : option Value :=
  match password_input c input with
  | Some value => if is_null value || bool_decide (as_str value = Some "") then None else Some value
  | None => None
  end.

Definition check_password (c : Collection) (input : Input) (errors : ValidationErrors) : ValidationErrors :=
  match supplied_password c input with
  | Some (JString text) =>
      if decide (MIN_PASSWORD_LEN ≤ char_count text)%N then errors
      else errors_insert "password" "validation_min_text" errors
  | Some _ => errors_insert "password" "validation_invalid_value" errors
  | None => errors
  end.

Definition check_confirmation (c : Collection) (input : Input) (errors : ValidationErrors)
    : ValidationErrors :=
  match assoc "passwordConfirm" input with
  | Some (JString confirmation) =>
      if decide (supplied_password c input ≫= as_str = Some confirmation) then errors
      else errors_insert "passwordConfirm" "validation_mismatch" errors
  | _ => errors
  end.

Definition validate_auth_keys (c : Collection) (input : Input) (partial : bool)
    (errors : ValidationErrors) : ValidationErrors :=
  check_confirmation c input (check_password c input
    (check_verified input (check_email input partial errors))).

(** [validate]; [None] is [Ok(())]. *)
Definition validate (c : Collection) (input : Input) (partial : bool) : option ValidationErrors :=
  let errors := foldl (check_key c) ∅ input.*1 in
  let errors := foldl (check_field input partial) errors (fields c) in
  let errors := if decide (collection_type c = CAuth) then validate_auth_keys c input partial errors
                else errors in
  if decide (errors = ∅) then None else Some errors.

(** * Encoding *)

Definition require_str (value : Value) : result string := ok_or (as_str value) Invalid.
Definition require_str_list (value : Value) : result (list string) :=
  items ← ok_or (as_array value) Invalid; try_map require_str items.

(** [pg_text_array]. *)
Fixpoint array_text (value : string) : string :=
  match value with
  | EmptyString => ""
  | String c r =>
      (if decide (c = backslash ∨ c = quote_char) then String backslash (String c "") else String c "")
      +:+ array_text r
  end.

Definition array_item (value : string) : string :=
  String quote_char (array_text value +:+ String quote_char "").

Definition pg_text_array (values : list string) : string :=
  "{" +:+ join "," (array_item <$> values) +:+ "}".

(** [encode_value]; [Ok None] is SQL null. *)
Definition encode_value `{JsonText} (f : Field) (value : Value) : result (option string) :=
  if is_null value then Ok None
  else if bool_decide (as_str value = Some "") && negb (is_text_like (field_type f)) then Ok None
  else
    match field_type f with
    | FText | FEditor | FEmail | FUrl | FPassword | FDate => Some <$> require_str value
    | FNumber => Some <$> (f64_to_string <$> ok_or (parse_number value) Invalid)
    | FBool => Some <$> (bool_str <$> ok_or (parse_bool value) Invalid)
    | FSelect | FRelation =>
        if field_is_multiple f then Some <$> (pg_text_array <$> require_str_list value)
        else Some <$> require_str value
    | FFile => if field_is_multiple f then Ok (Some (json_text value)) else Some <$> require_str value
    | FJson | FGeoPoint => Ok (Some (json_text value))
    | FAutodate => Ok None
    end.

(** * What a value has to be *)

Definition without (c : ascii) (s : string) : Prop := str_forall (λ d, bool_decide (d ≠ c)) s = true.
Definition digits (s : string) : Prop := str_forall is_ascii_digit s = true.

(** One [@]; something before it; after it a dot with something either side. *)
Definition email_ok (t : string) : Prop :=
  String.length t ≤ 320 ∧ has_whitespace t = false
  ∧ ∃ local host tld, t = local +:+ "@" +:+ host +:+ "." +:+ tld
      ∧ without "@" local ∧ without "@" host ∧ without "@" tld ∧ without "." host
      ∧ local ≠ "" ∧ host ≠ "" ∧ tld ≠ "".

Definition url_ok (t : string) : Prop :=
  ∃ rest, t = "http://" +:+ rest ∨ t = "https://" +:+ rest.

Definition date_ok (t : string) : Prop :=
  ∃ y m d rest, t = y +:+ "-" +:+ m +:+ "-" +:+ d +:+ rest ∧ digits y ∧ digits m ∧ digits d
    ∧ String.length y = 4 ∧ String.length m = 2 ∧ String.length d = 2.

(** The [min] and [max] options hold of a number, as [f64] comparisons. *)
Definition bounds_ok (options : Value) (n : f64) : Prop :=
  (∀ m, option_f64 options "min" = Some m → f64_lt n m = false)
  ∧ (∀ m, option_f64 options "max" = Some m → f64_gt n m = false).

Definition length_ok (f : Field) (t : string) : Prop :=
  bounds_ok (field_options f) (f64_of_Z (Z.of_N (char_count t))).

Definition max_select (f : Field) : Z := default 1%Z (option_u64 (field_options f) "maxSelect").

(** One value, or a list of at most [maxSelect] of them. *)
Definition choices_ok (f : Field) (ok : string → Prop) (v : Value) : Prop :=
  if field_is_multiple f
  then ∃ l, v = JArray (JString <$> l) ∧ (Z.of_nat (length l) ≤ max_select f)%Z ∧ Forall ok l
  else ∃ t, v = JString t ∧ ok t.

Definition value_ok (f : Field) (v : Value) : Prop :=
  match field_type f with
  | FText | FEditor | FPassword => ∃ t, v = JString t ∧ length_ok f t
  | FEmail => ∃ t, v = JString t ∧ length_ok f t ∧ email_ok t
  | FUrl => ∃ t, v = JString t ∧ length_ok f t ∧ url_ok t
  | FDate => ∃ t, v = JString t ∧ date_ok t
  | FNumber =>
      ∃ n, parse_number v = Some n ∧ bounds_ok (field_options f) n
        ∧ (option_bool (field_options f) "onlyInt" = true → f64_has_fract n = false)
  | FBool => is_Some (parse_bool v)
  | FSelect => choices_ok f (λ t, t ∈ option_str_list (field_options f) "values") v
  | FFile => choices_ok f (λ _, True) v
  | FRelation => choices_ok f (λ t, is_valid_id t = true) v
  | FGeoPoint => ∃ o, v = JObject o ∧ geo_within o = true
  | FJson | FAutodate => True
  end.

(** ** The text checks decide them *)

Lemma without_app c s t : without c (s +:+ t) ↔ without c s ∧ without c t.
Proof. unfold without. by rewrite str_forall_app, andb_true_iff. Qed.

Lemma split_once_spec c s a b : split_once c s = Some (a, b) ↔ s = a +:+ String c b ∧ without c a.
Proof.
  revert a b; induction s as [|d s IH]; intros a b; cbn.
  { split; [done|]. intros [E _]. by destruct a. }
  case_decide as D.
  - subst d. split.
    + intros [= <- <-]. done.
    + intros [E W]. destruct a as [|e a]; [by injection E as ->|].
      rewrite str_app_cons in E. injection E as <- _.
      apply andb_true_iff in W as [W _]. by apply bool_decide_eq_true in W.
  - destruct (split_once c s) as [[a' b']|] eqn:E.
    + destruct (proj1 (IH a' b') eq_refl) as [-> W]. split.
      * intros [= <- <-]. split; [by rewrite str_app_cons|]. apply andb_true_iff.
        by rewrite bool_decide_eq_true.
      * intros [F V]. destruct a as [|e a]; [injection F; congruence|].
        rewrite str_app_cons in F. injection F as <- F. apply andb_true_iff in V as [_ V].
        assert (X : Some (a', b') = Some (a, b)) by by apply IH.
        by injection X as -> ->.
    + split; [done|]. intros [F V]. destruct a as [|e a]; [injection F; congruence|].
      rewrite str_app_cons in F. injection F as <- F. apply andb_true_iff in V as [_ V].
      by discriminate (proj2 (IH a b) (conj F V)).
Qed.

Lemma split_on_one c s x : split_on c s = [x] ↔ s = x ∧ without c x.
Proof.
  split; [|by intros [-> ?]; apply split_on_none]. revert x; induction s as [|d s IH]; intros x; cbn.
  { by intros [= <-]. }
  case_decide as D; [intros [= _ E]; by apply split_on_nonempty in E|].
  destruct (split_on c s) as [|p [|q ps]] eqn:E; [by apply split_on_nonempty in E| |done].
  intros [= <-]. destruct (IH p eq_refl) as [-> W]. split; [done|].
  apply andb_true_iff. by rewrite bool_decide_eq_true.
Qed.

Lemma split_on_cons c s x y l :
  split_on c s = x :: y :: l → ∃ t, s = x +:+ String c t ∧ without c x ∧ split_on c t = y :: l.
Proof.
  revert x; induction s as [|d s IH]; intros x; cbn; [done|]. case_decide as D.
  - subst d. intros [= <- E]. by exists s.
  - destruct (split_on c s) as [|p ps] eqn:E; [by apply split_on_nonempty in E|].
    intros [= <- ->]. destruct (IH p eq_refl) as (t & -> & W & H). exists t.
    split; [by rewrite str_app_cons|]. split; [|done]. apply andb_true_iff. by rewrite bool_decide_eq_true.
Qed.

Lemma looks_like_email_spec t : looks_like_email t = true ↔ email_ok t.
Proof.
  unfold looks_like_email, email_ok. destruct (bool_decide _ || _) eqn:G.
  { split; [done|]. intros (L & W & _). rewrite W, orb_false_r, bool_decide_eq_true in G. lia. }
  apply orb_false_iff in G as [L%bool_decide_eq_false W].
  transitivity (∃ local domain host tld, split_on "@" t = [local; domain] ∧ local ≠ ""
    ∧ split_once "." domain = Some (host, tld) ∧ host ≠ "" ∧ tld ≠ "").
  - destruct (split_on "@" t) as [|a [|b [|]]]; try (split; [done|naive_solver]).
    rewrite andb_true_iff, negb_true_iff, bool_decide_eq_false.
    destruct (split_once "." b) as [[h tl]|] eqn:E; [|naive_solver].
    rewrite andb_true_iff, !negb_true_iff, !bool_decide_eq_false. naive_solver.
  - split.
    + intros (lo & d & h & tl & (x & -> & Wl & [-> Wd]%split_on_one)%split_on_cons & N
        & [-> Wh]%split_once_spec & Nh & Nt).
      apply without_app in Wd as [? Wt]. change (String "." tl) with ("." +:+ tl) in Wt.
      apply without_app in Wt as [_ Wt]. split; [lia|]. split; [done|]. by exists lo, h, tl.
    + intros (_ & _ & lo & h & tl & -> & Wl & Wh & Wt & Wd & Nl & Nh & Nt).
      exists lo, (h +:+ "." +:+ tl), h, tl. split_and!; try done.
      * change ("@" +:+ ?x) with (String "@" x). rewrite split_on_app by done.
        rewrite split_on_none; [done|]. apply without_app. split; [done|]. by apply without_app.
      * by apply split_once_spec.
Qed.

Lemma starts_with_spec p s : starts_with p s = true ↔ ∃ rest, s = p +:+ rest.
Proof.
  unfold starts_with. revert s; induction p as [|c p IH]; intros s; cbn.
  { split; [|done]. intros _. by exists s. }
  destruct s as [|d s]; [split; [done|by intros [? ?]]|]. case_decide as D.
  - subst. rewrite IH. split; intros [r E]; exists r; rewrite str_app_cons in *; congruence.
  - split; [done|]. intros [r E]. rewrite str_app_cons in E. congruence.
Qed.

Lemma looks_like_url_spec t : looks_like_url t = true ↔ url_ok t.
Proof.
  unfold looks_like_url, url_ok. rewrite orb_true_iff, !starts_with_spec. naive_solver.
Qed.

Lemma looks_like_date_spec t : looks_like_date t = true ↔ date_ok t.
Proof.
  split.
  - destruct t as [|a [|b [|c [|d [|e [|f [|g [|h [|i [|j rest]]]]]]]]]]; try done.
    unfold looks_like_date. rewrite !andb_true_iff, !bool_decide_eq_true.
    intros [[[[[[[[[Ha Hb] Hc] Hd] ->] Hf] Hg] ->] Hi] Hj].
    exists (String a (String b (String c (String d "")))), (String f (String g "")), (String i (String j "")), rest.
    unfold digits. cbn. rewrite Ha, Hb, Hc, Hd, Hf, Hg, Hi, Hj. done.
  - intros (y & m & d & rest & -> & Hy & Hm & Hd & Ly & Lm & Ld).
    do 4 (destruct y as [|? y]; [done|]). destruct y; [|done].
    do 2 (destruct m as [|? m]; [done|]). destruct m; [|done].
    do 2 (destruct d as [|? d]; [done|]). destruct d; [|done].
    unfold digits in *. cbn in Hy, Hm, Hd. repeat apply andb_true_iff in Hy as [? Hy].
    repeat apply andb_true_iff in Hm as [? Hm]. repeat apply andb_true_iff in Hd as [? Hd].
    cbv [looks_like_date String.append]. rewrite !andb_true_iff. done.
Qed.

(** ** One value *)

Lemma bind_Pass {A B} (m : checked A) (k : A → checked B) b :
  m ≫= k = Pass b ↔ ∃ a, m = Pass a ∧ k a = Pass b.
Proof. destruct m; cbn; naive_solver. Qed.

Lemma or_refuse_Pass {A} (o : option A) code a : or_refuse o code = Pass a ↔ o = Some a.
Proof. destruct o; cbn; naive_solver. Qed.

Lemma refuse_if_Pass b code u : refuse_if b code = Pass u ↔ b = false.
Proof. destruct b, u; cbn; naive_solver. Qed.

Lemma check_bound_Pass o key code p u :
  check_bound o key code p = Pass u ↔ ∀ m, option_f64 o key = Some m → p m = false.
Proof. unfold check_bound. destruct (option_f64 o key), u; rewrite ?refuse_if_Pass; naive_solver. Qed.

Lemma as_str_Some v t : as_str v = Some t ↔ v = JString t.
Proof. destruct v; cbn; naive_solver. Qed.

Lemma expect_string_Pass v t : expect_string v = Pass t ↔ v = JString t.
Proof. unfold expect_string. by rewrite or_refuse_Pass, as_str_Some. Qed.

Lemma strings_Some l ts : mapM as_str l = Some ts ↔ l = JString <$> ts.
Proof.
  rewrite mapM_Some. split.
  - induction 1 as [|v t l ts H _ ->]; [done|]. apply as_str_Some in H as ->. done.
  - intros ->. induction ts; constructor; done.
Qed.

Lemma expect_string_list_Pass v ts : expect_string_list v = Pass ts ↔ v = JArray (JString <$> ts).
Proof.
  unfold expect_string_list. rewrite bind_Pass. setoid_rewrite or_refuse_Pass. setoid_rewrite strings_Some.
  destruct v; cbn; naive_solver.
Qed.

Lemma check_each_Pass {A} (check : A → checked unit) (ok : A → Prop) l u :
  (∀ x u, check x = Pass u ↔ ok x) → check_each check l = Pass u ↔ Forall ok l.
Proof.
  intros H. destruct u. induction l as [|x l IH]; [by split|]. cbn. rewrite bind_Pass, Forall_cons, <- IH.
  split; [intros (? & ?%H & ?); done|]. intros [? ?]. exists (). by rewrite H.
Qed.

Lemma check_length_Pass f t u : check_length f t = Pass u ↔ length_ok f t.
Proof.
  unfold check_length. rewrite bind_Pass. setoid_rewrite check_bound_Pass. unfold length_ok, bounds_ok.
  split; [by intros (_ & ?)|]. by exists ().
Qed.

Lemma check_max_select_Pass f n u : check_max_select f n = Pass u ↔ (Z.of_nat n ≤ max_select f)%Z.
Proof. unfold check_max_select, max_select. rewrite refuse_if_Pass, bool_decide_eq_false. lia. Qed.

Lemma negb_Pass b code u : refuse_if (negb b) code = Pass u ↔ b = true.
Proof. by rewrite refuse_if_Pass, negb_false_iff. Qed.

Lemma choices_Pass f v (ok : string → Prop) (check : string → checked unit) :
  (∀ x u, check x = Pass u ↔ ok x) →
  (if field_is_multiple f then
     l ← expect_string_list v; _ ← check_max_select f (length l); check_each check l
   else t ← expect_string v; check t) = Pass () ↔ choices_ok f ok v.
Proof.
  intros H. unfold choices_ok. destruct (field_is_multiple f).
  - split.
    + intros (l & El%expect_string_list_Pass & (u & M%check_max_select_Pass & C)%bind_Pass)%bind_Pass.
      exists l. split_and!; [done..|]. by eapply check_each_Pass.
    + intros (l & El%expect_string_list_Pass & M & C). apply bind_Pass. exists l. split; [done|].
      apply bind_Pass. exists (). split; [by apply check_max_select_Pass|]. by eapply check_each_Pass.
  - rewrite bind_Pass. split.
    + intros (t & E%expect_string_Pass & C%H). by exists t.
    + intros (t & E%expect_string_Pass & C). exists t. by rewrite (H t).
Qed.

Lemma text_Pass f v (ok : string → Prop) (check : string → bool) code :
  (∀ t, check t = true ↔ ok t) →
  (text ← expect_string v; _ ← check_length f text; refuse_if (negb (check text)) code) = Pass ()
  ↔ ∃ t, v = JString t ∧ length_ok f t ∧ ok t.
Proof.
  intros H. rewrite bind_Pass. split.
  - intros (t & E%expect_string_Pass & (u & L%check_length_Pass & C%negb_Pass)%bind_Pass).
    exists t. by rewrite <- H.
  - intros (t & E%expect_string_Pass & L & C%H). exists t. split; [done|]. apply bind_Pass. exists ().
    by rewrite check_length_Pass, negb_Pass.
Qed.

Lemma number_Pass f v :
  validate_number f v = Pass ()
  ↔ ∃ n, parse_number v = Some n ∧ bounds_ok (field_options f) n
      ∧ (option_bool (field_options f) "onlyInt" = true → f64_has_fract n = false).
Proof.
  unfold validate_number, bounds_ok. rewrite bind_Pass. split.
  - intros (n & N%or_refuse_Pass & (? & F%refuse_if_Pass & (? & L & G)%bind_Pass)%bind_Pass).
    rewrite check_bound_Pass in L, G. exists n. split_and!; [done..|].
    intros O. by rewrite O in F.
  - intros (n & N & [L G] & F). exists n. split; [by apply or_refuse_Pass|].
    apply bind_Pass. exists (). split.
    { apply refuse_if_Pass. destruct (option_bool _ _); [by rewrite F|done]. }
    apply bind_Pass. exists (). by rewrite !check_bound_Pass.
Qed.

Lemma file_Pass f v :
  (if field_is_multiple f then names ← expect_string_list v; check_max_select f (length names)
   else _ ← expect_string v; Pass ()) = Pass () ↔ choices_ok f (λ _, True) v.
Proof.
  unfold choices_ok. destruct (field_is_multiple f); rewrite bind_Pass.
  - split.
    + intros (l & E%expect_string_list_Pass & M%check_max_select_Pass). exists l. split_and!; [done..|].
      by apply Forall_forall.
    + intros (l & E%expect_string_list_Pass & M & _). exists l. by rewrite check_max_select_Pass.
  - setoid_rewrite expect_string_Pass. naive_solver.
Qed.

Lemma validate_value_spec f v : validate_value f v = Pass () ↔ value_ok f v.
Proof.
  unfold validate_value, value_ok. destruct (field_type f);
    try (rewrite bind_Pass; setoid_rewrite expect_string_Pass; by setoid_rewrite check_length_Pass).
  - apply text_Pass, looks_like_email_spec.
  - apply text_Pass, looks_like_url_spec.
  - apply number_Pass.
  - rewrite bind_Pass. setoid_rewrite or_refuse_Pass. unfold is_Some.
    split; [by intros (b & -> & _); exists b|by intros (b & ->); exists b].
  - rewrite bind_Pass. setoid_rewrite expect_string_Pass. setoid_rewrite negb_Pass.
    by setoid_rewrite looks_like_date_spec.
  - apply (choices_Pass f v _ (λ item, check_allowed item _)). intros x u. unfold check_allowed.
    by rewrite negb_Pass, bool_decide_eq_true.
  - apply file_Pass.
  - apply (choices_Pass f v _ (λ id, refuse_if (negb (is_valid_id id)) _)). intros x u. apply negb_Pass.
  - done.
  - rewrite bind_Pass. setoid_rewrite or_refuse_Pass. setoid_rewrite negb_Pass. destruct v; cbn; naive_solver.
  - done.
Qed.

(** * A whole record *)

(** A key the collection accepts in its input. *)
Definition key_ok (c : Collection) (key : string) : Prop :=
  key = "id" ∨ key ∈ SERVER_MANAGED_KEYS ∨ (collection_type c = CAuth ∧ key ∈ AUTH_INPUT_KEYS)
  ∨ ∃ f, f ∈ fields c ∧ field_name f = key.

(** Null, or the empty string. *)
Definition is_empty_value (v : Value) : bool :=
  match v with JNull => true | JString t => bool_decide (t = "") | _ => false end.

(** What the input may hold for a field: nothing for one that is not
    required, or that an update leaves alone; an empty value for one that is
    not required; a value that fits otherwise. *)
Definition field_ok (input : Input) (partial : bool) (f : Field) : Prop :=
  field_type f = FAutodate
  ∨ match assoc (field_name f) input with
    | None => required f = false ∨ partial = true
    | Some v =>
        if is_empty_value v then required f = false
        else value_ok f v ∧ (required f = true → is_blank_text f v = false)
    end.

Definition email_key_ok (input : Input) (partial : bool) : Prop :=
  match assoc "email" input with
  | None => partial = true
  | Some v => ∃ t, v = JString t ∧ email_ok t
  end.

Definition auth_ok (c : Collection) (input : Input) (partial : bool) : Prop :=
  email_key_ok input partial
  ∧ (∀ v, assoc "verified" input = Some v → v ≠ JNull → is_Some (parse_bool v))
  ∧ (∀ v, supplied_password c input = Some v → ∃ t, v = JString t ∧ (MIN_PASSWORD_LEN ≤ char_count t)%N)
  ∧ (∀ t, assoc "passwordConfirm" input = Some (JString t) → supplied_password c input = Some (JString t)).

(** ** The verdict is empty exactly when nothing failed *)

Lemma errors_insert_nonempty field code e : errors_insert field code e ≠ ∅.
Proof.
  unfold errors_insert. destruct (e !! field) eqn:E; [|apply insert_non_empty].
  intros ->. discriminate E.
Qed.

(** A check that adds a failure exactly when [ok] does not hold. *)
Definition reports (ok : Prop) (check : ValidationErrors → ValidationErrors) : Prop :=
  ∀ e, check e = ∅ ↔ ok ∧ e = ∅.

Lemma reports_pass (ok : Prop) (e : ValidationErrors) : ok → e = ∅ ↔ ok ∧ e = ∅.
Proof. tauto. Qed.
Lemma reports_fail (ok : Prop) k code e : ¬ ok → errors_insert k code e = ∅ ↔ ok ∧ e = ∅.
Proof. pose proof (errors_insert_nonempty k code e). tauto. Qed.

Lemma reports_fold {A} (ok : A → Prop) (check : ValidationErrors → A → ValidationErrors) l e :
  (∀ x, reports (ok x) (λ e, check e x)) → foldl check e l = ∅ ↔ Forall ok l ∧ e = ∅.
Proof.
  intros H. revert e; induction l as [|x l IH]; intros e; cbn; [by rewrite Forall_nil; tauto|].
  rewrite IH, Forall_cons. specialize (H x e). cbn in H. tauto.
Qed.

Lemma collection_field_is_Some c key :
  is_Some (collection_field c key) ↔ ∃ f, f ∈ fields c ∧ field_name f = key.
Proof.
  unfold collection_field. destruct (filter _ _) as [|f l] eqn:E; cbn.
  - split; [by intros [? ?]|]. intros (f & M & N).
    assert (X : f ∈ filter (λ f, field_name f = key) (fields c)) by by apply list_elem_of_filter.
    rewrite E in X. by apply elem_of_nil in X.
  - split; [intros _|by exists f]. exists f.
    assert (X : f ∈ filter (λ f, field_name f = key) (fields c)) by (rewrite E; by left).
    by apply list_elem_of_filter in X as [? ?].
Qed.

Lemma known_key_spec c key : known_key c key = true ↔ key_ok c key.
Proof.
  unfold known_key, key_ok. rewrite !orb_true_iff, andb_true_iff, !bool_decide_eq_true.
  rewrite <- collection_field_is_Some. destruct (collection_field c key); unfold is_Some; naive_solver.
Qed.

Lemma check_key_reports c key : reports (key_ok c key) (λ e, check_key c e key).
Proof.
  intros e. unfold check_key. destruct (known_key c key) eqn:K.
  - apply reports_pass. by apply known_key_spec.
  - apply reports_fail. rewrite <- known_key_spec. congruence.
Qed.

Lemma check_value_reports f v :
  reports (value_ok f v ∧ (required f = true → is_blank_text f v = false)) (λ e,
    if required f && is_blank_text f v then errors_insert (field_name f) "validation_required" e
    else match validate_value f v with
         | Refuse code => errors_insert (field_name f) code e
         | Pass _ => e
         end).
Proof.
  intros e. destruct (required f && is_blank_text f v) eqn:B.
  - apply andb_true_iff in B as [R B]. apply reports_fail. intros [_ H]. by rewrite H in B.
  - destruct (validate_value f v) as [[]|code] eqn:V.
    + apply reports_pass. split; [by apply validate_value_spec|]. intros R. by rewrite R in B.
    + apply reports_fail. rewrite <- validate_value_spec, V. by intros [? _].
Qed.

Lemma check_field_reports input partial f :
  reports (field_ok input partial f) (λ e, check_field input partial e f).
Proof.
  intros e. unfold check_field, field_ok. case_decide as A; [tauto|].
  assert (Or : ∀ P, field_type f = FAutodate ∨ P ↔ P) by tauto. rewrite Or.
  destruct (assoc (field_name f) input) as [v|]; cbn.
  - pose proof (check_value_reports f v e) as X. destruct v as [| | |t| |]; cbn in *; try exact X.
    + destruct (required f); [by apply reports_fail|by apply reports_pass].
    + case_decide as T; [|by rewrite bool_decide_eq_false_2].
      rewrite bool_decide_eq_true_2 by done.
      destruct (required f); [by apply reports_fail|by apply reports_pass].
  - destruct (required f), partial; cbn; [apply reports_pass|apply reports_fail|apply reports_pass..]; naive_solver.
Qed.

Lemma check_email_reports input partial : reports (email_key_ok input partial) (check_email input partial).
Proof.
  intros e. unfold check_email, email_key_ok.
  destruct (assoc "email" input) as [[| | |t| |]|]; try (apply reports_fail; naive_solver).
  - pose proof (looks_like_email_spec t). destruct (looks_like_email t).
    + apply reports_pass. naive_solver.
    + apply reports_fail. naive_solver.
  - destruct partial; [by apply reports_pass|by apply reports_fail].
Qed.

Lemma check_verified_reports input :
  reports (∀ v, assoc "verified" input = Some v → v ≠ JNull → is_Some (parse_bool v)) (check_verified input).
Proof.
  intros e. unfold check_verified. destruct (assoc "verified" input) as [v|]; [|by apply reports_pass].
  destruct (is_null v) eqn:N; cbn.
  { apply reports_pass. intros ? [= <-]. by destruct v. }
  case_bool_decide as B; cbn.
  - apply reports_pass. by intros ? [= <-].
  - apply reports_fail. intros H. apply B, (H v); [done|]. by intros ->.
Qed.

Lemma check_password_reports c input :
  reports (∀ v, supplied_password c input = Some v → ∃ t, v = JString t ∧ (MIN_PASSWORD_LEN ≤ char_count t)%N)
    (check_password c input).
Proof.
  intros e. unfold check_password.
  destruct (supplied_password c input) as [[| | |t| |]|];
    try (apply reports_fail; intros H; by destruct (H _ eq_refl) as (? & ? & _)); [|by apply reports_pass].
  case_decide; [apply reports_pass|apply reports_fail]; [by intros ? [= <-]; eauto|].
  intros H'. by destruct (H' _ eq_refl) as (? & [= <-] & ?).
Qed.

Lemma check_confirmation_reports c input :
  reports (∀ t, assoc "passwordConfirm" input = Some (JString t) → supplied_password c input = Some (JString t))
    (check_confirmation c input).
Proof.
  intros e. unfold check_confirmation.
  destruct (assoc "passwordConfirm" input) as [[| | |t| |]|]; try by apply reports_pass.
  assert (E : supplied_password c input ≫= as_str = Some t ↔ supplied_password c input = Some (JString t)).
  { destruct (supplied_password c input) as [v|]; cbn; [|done]. rewrite as_str_Some. naive_solver. }
  case_decide as D; rewrite E in D.
  - apply reports_pass. by intros ? [= <-].
  - apply reports_fail. naive_solver.
Qed.

Lemma validate_auth_reports c input partial :
  reports (auth_ok c input partial) (validate_auth_keys c input partial).
Proof.
  intros e. unfold auth_ok, validate_auth_keys.
  pose proof (check_email_reports input partial e).
  pose proof (check_verified_reports input (check_email input partial e)).
  pose proof (check_password_reports c input (check_verified input (check_email input partial e))).
  pose proof (check_confirmation_reports c input
    (check_password c input (check_verified input (check_email input partial e)))).
  tauto.
Qed.

(** What [validate] means. *)
Definition record_ok (c : Collection) (input : Input) (partial : bool) : Prop :=
  Forall (key_ok c) input.*1 ∧ Forall (field_ok input partial) (fields c)
  ∧ (collection_type c = CAuth → auth_ok c input partial).

Lemma validate_spec c input partial : validate c input partial = None ↔ record_ok c input partial.
Proof.
  unfold validate, record_ok. set (e := foldl (check_key c) ∅ input.*1).
  assert (K : e = ∅ ↔ Forall (key_ok c) input.*1).
  { unfold e. rewrite (reports_fold (key_ok c)) by apply check_key_reports. tauto. }
  set (e' := foldl (check_field input partial) e (fields c)).
  assert (F : e' = ∅ ↔ Forall (field_ok input partial) (fields c) ∧ e = ∅).
  { apply (reports_fold (field_ok input partial)), check_field_reports. }
  match goal with |- (if decide (?E = ∅) then _ else _) = _ ↔ _ => assert (A : E = ∅ ↔
    (collection_type c = CAuth → auth_ok c input partial) ∧ e' = ∅) end.
  { case_decide as T; [|tauto]. pose proof (validate_auth_reports c input partial e'). tauto. }
  match goal with |- (if decide (?E = ∅) then _ else _) = _ ↔ _ => destruct (decide (E = ∅)) as [D|D] end;
    rewrite A, F, K in D; [tauto|]. split; [done|tauto].
Qed.

(** * Encoding what was validated *)

Lemma require_str_list_strings ts : require_str_list (JArray (JString <$> ts)) = Ok ts.
Proof. unfold require_str_list. cbn. induction ts as [|t ts IH]; cbn in *; [done|]. by rewrite IH. Qed.

(** The value of a field is stored as null. *)
Definition stored_null (f : Field) (v : Value) : Prop :=
  v = JNull ∨ field_type f = FAutodate ∨ (v = JString "" ∧ is_text_like (field_type f) = false).

Section encoding.
Context `{JsonText}.

Lemma choices_encode f ok v :
  choices_ok f ok v →
  ∃ t, (if field_is_multiple f then Some <$> (pg_text_array <$> require_str_list v)
        else Some <$> require_str v) = Ok (Some t).
Proof.
  unfold choices_ok. destruct (field_is_multiple f).
  - intros (l & -> & _). rewrite require_str_list_strings. by eexists.
  - intros (t & -> & _). by eexists.
Qed.

Lemma value_encodes f v :
  value_ok f v → ¬ stored_null f v → ∃ t, encode_value f v = Ok (Some t).
Proof.
  intros V N. unfold encode_value.
  destruct (is_null v) eqn:Nv; [by destruct v; destruct N; left|].
  destruct (bool_decide _ && _) eqn:E.
  { apply andb_true_iff in E as [E%bool_decide_eq_true%as_str_Some T%negb_true_iff].
    destruct N. right. by right. }
  unfold value_ok in V. destruct (field_type f) eqn:T;
    try (by destruct V as (? & -> & _); eexists); try (by eexists);
    try by eapply choices_encode.
  - destruct V as (b & ->). by eexists.
  - unfold choices_ok in V. destruct (field_is_multiple f); [by eexists|].
    destruct V as (t & -> & _). by eexists.
  - destruct N. right. by left.
Qed.
End encoding.

Section encode_spec.
Context `{JsonText}.

Lemma encode_null f v : stored_null f v → encode_value f v = Ok None.
Proof.
  unfold encode_value. intros [->|[T|[-> T]]]; [done| |by rewrite T].
  rewrite T. destruct (is_null v); [done|]. by destruct (_ && _).
Qed.

Lemma stored_null_or f v :
  stored_null f v ∨ (¬ stored_null f v ∧ (is_empty_value v = true → v = JString "" ∧ is_text_like (field_type f) = true)).
Proof.
  unfold stored_null. destruct (decide (field_type f = FAutodate)) as [A|A]; [by left; right; left|].
  destruct v as [| | |t| |]; try (right; split; [by intros [?|[?|[? _]]]|done]); [by left; left|].
  cbn. destruct (decide (t = "")) as [->|E].
  - destruct (is_text_like (field_type f)) eqn:T; [|by left; right; right].
    right. split; [|done]. by intros [?|[?|[_ ?]]].
  - right. split; [by intros [?|[?|[[= ->] _]]]|]. by intros ?%bool_decide_eq_true.
Qed.

Lemma empty_text_encodes f : is_text_like (field_type f) = true → encode_value f (JString "") = Ok (Some "").
Proof. unfold encode_value. intros T. rewrite T. cbn. by destruct (field_type f). Qed.

Lemma record_value_encodes c input partial f v :
  validate c input partial = None → f ∈ fields c → assoc (field_name f) input = Some v →
  (stored_null f v ∧ encode_value f v = Ok None)
  ∨ (¬ stored_null f v ∧ ∃ t, encode_value f v = Ok (Some t)).
Proof.
  intros (_ & F & _)%validate_spec M A. rewrite Forall_forall in F. specialize (F f M).
  destruct (stored_null_or f v) as [S|[S E]]; [left; split; [done|by apply encode_null]|right].
  split; [done|]. destruct F as [F|F]; [destruct S; by right; left|]. rewrite A in F.
  destruct (is_empty_value v) eqn:Ev.
  - destruct (E eq_refl) as [-> T]. exists "". by apply empty_text_encodes.
  - by apply value_encodes; [apply F|].
Qed.

(** Every value of a record that validation lets through can be encoded:
    as null when it is null, when it is an empty text for a field that is not
    one of text, or when the server owns the field, and as a text parameter
    otherwise. The errors [encode_value] may answer are for unvalidated input. *)
Theorem validated_record_encodes c input partial f v :
  validate c input partial = None → f ∈ fields c → assoc (field_name f) input = Some v →
  (stored_null f v ∧ encode_value f v = Ok None)
  ∨ (¬ stored_null f v ∧ ∃ t, encode_value f v = Ok (Some t)).
Proof. apply record_value_encodes. Qed.
End encode_spec.

(** C10. What [validate] decides: the input's keys are ones the collection
    knows; every field has a value its type, bounds and choices admit, or none
    where it may have none; and the built-in keys of an auth collection hold an
    address, a flag, a password long enough and its confirmation. What may be
    created may also be written by an update, and a refusal names a failure. *)
Theorem validate_accepts c input partial :
  (validate c input partial = None ↔ record_ok c input partial)
  ∧ (validate c input false = None → validate c input true = None)
  ∧ ∀ errors, validate c input partial = Some errors → ∃ field code, errors !! field = Some code.
Proof.
  split; [apply validate_spec|]. split.
  - rewrite !validate_spec. intros (K & F & A). split_and!; [done| |].
    + eapply Forall_impl; [exact F|]. intros f [?|G]; [by left|right].
      destruct (assoc _ _); [done|by right].
    + intros T. destruct (A T) as (E & ?). split; [|done]. unfold email_key_ok in *.
      by destruct (assoc _ _).
  - intros errors. unfold validate. case_decide as D; [done|]. intros [= <-].
    apply map_choose in D as (k & code & D). by exists k, code.
Qed.

(** * Array literals *)

(** A quoted element of PostgreSQL's array input: a backslash takes the next
    character as it is. *)
Fixpoint read_item (s : string) : option (string * string) :=
  match s with
  | EmptyString => None
  | String c r =>
      if decide (c = quote_char) then Some ("", r)
      else if decide (c = backslash) then
        match r with
        | EmptyString => None
        | String d r' => '(x, rest) ← read_item r'; Some (String d x, rest)
        end
      else '(x, rest) ← read_item r; Some (String c x, rest)
  end.

(** The elements up to the closing brace. *)
Fixpoint read_items (fuel : nat) (s : string) : option (list string) :=
  match fuel with
  | O => None
  | S fuel =>
      match s with
      | String q r =>
          if decide (q = quote_char) then
            '(x, rest) ← read_item r;
            match rest with
            | "}" => Some [x]
            | String "," rest => cons x <$> read_items fuel rest
            | _ => None
            end
          else None
      | EmptyString => None
      end
  end.

Definition read_array (s : string) : option (list string) :=
  match s with
  | "{}" => Some []
  | String "{" s => read_items (String.length s) s
  | _ => None
  end.

Lemma read_item_text t rest :
  read_item (array_text t +:+ String quote_char rest) = Some (t, rest).
Proof.
  induction t as [|c t IH]; [done|]. cbn [array_text].
  case_decide as D; rewrite !str_app_cons; cbn [read_item].
  - rewrite decide_False, decide_True by done. rewrite str_app_nil_l, IH. done.
  - rewrite !decide_False by tauto. by rewrite str_app_nil_l, IH.
Qed.

Lemma read_items_text l x fuel :
  length l < fuel → read_items fuel (join "," (array_item <$> x :: l) +:+ "}") = Some (x :: l).
Proof.
  revert x fuel; induction l as [|y l IH]; intros x [|fuel] L; cbn in L; try lia.
  - cbn [fmap list_fmap]. unfold join. cbn [String.concat]. unfold array_item.
    rewrite str_app_cons. cbn [read_items]. rewrite decide_True by done.
    rewrite <- str_app_assoc, str_app_cons, read_item_text. done.
  - rewrite fmap_cons. unfold array_item at 1. fold (array_item <$> y :: l).
    change (array_item <$> y :: l) with (array_item y :: (array_item <$> l)). rewrite join_cons2.
    rewrite !str_app_cons. cbn [read_items]. rewrite decide_True by done.
    rewrite <- !str_app_assoc, str_app_cons, read_item_text. cbn [mbind option_bind].
    transitivity (cons x <$> read_items fuel (join "," (array_item <$> y :: l) +:+ "}")); [done|].
    by rewrite IH by lia.
Qed.

Lemma join_items_length l x :
  length l < String.length (join "," (array_item <$> x :: l) +:+ "}").
Proof.
  rewrite str_length_app. assert (length l ≤ String.length (join "," (array_item <$> x :: l))) as H;
    [|change (String.length "}") with 1; lia].
  revert x; induction l as [|y l IH]; intros x; [cbn; lia|].
  change (array_item <$> x :: y :: l) with (array_item x :: array_item y :: (array_item <$> l)).
  rewrite join_cons2, !str_length_app. specialize (IH y). cbn [length].
  change (array_item <$> y :: l) with (array_item y :: (array_item <$> l)) in IH.
  change (String.length ",") with 1. lia.
Qed.

(** The array literal written for a list of texts reads back as that
    list, whatever quotes, backslashes, commas or braces the texts hold. *)
Theorem array_literal_reads_back values : read_array (pg_text_array values) = Some values.
Proof.
  destruct values as [|x l]; [done|]. unfold pg_text_array.
  pose proof (join_items_length l x) as L. pose proof (read_items_text l x _ L) as R.
  change ("{" +:+ ?s) with (String "{" s).
  assert (B : ∃ r, join "," (array_item <$> x :: l) +:+ "}" = String quote_char r).
  { destruct l as [|y l]; eexists; cbn [fmap list_fmap]; rewrite ?join_cons2; [unfold join; cbn [String.concat]|];
      unfold array_item at 1; by rewrite str_app_cons. }
  destruct B as [r B]. rewrite B in *. exact R.
Qed.

(** * Numbers *)

Section numbers.
Context `{JsonText}.

(** A number that is accepted is stored as it was read and lies within
    the field's [min] and [max]; with [onlyInt] it is finite and whole. The one
    exception is the text "NaN": no comparison refuses it, so a field that is
    not [onlyInt] accepts it whatever its bounds. *)
Theorem accepted_number_within_bounds f :
  field_type f = FNumber →
  (∀ v, validate_value f v = Pass () →
     ∃ n, parse_number v = Some n ∧ encode_value f v = Ok (Some (f64_to_string n))
       ∧ (n ≠ S754_nan →
           (∀ m, option_f64 (field_options f) "min" = Some m → m ≠ S754_nan → f64_le m n = true)
           ∧ (∀ m, option_f64 (field_options f) "max" = Some m → m ≠ S754_nan → f64_le n m = true))
       ∧ (option_bool (field_options f) "onlyInt" = true → f64_is_finite n = true ∧ f64_has_fract n = false))
  ∧ (option_bool (field_options f) "onlyInt" = false → validate_value f (JString "NaN") = Pass ()).
Proof.
  intros T. split.
  - intros v V%validate_value_spec. unfold value_ok in V. rewrite T in V.
    destruct V as (n & N & [L G] & O). exists n. split_and!; [done| | |].
    + unfold encode_value. rewrite T, N.
      destruct v as [| | |t| |]; try done. cbn [is_null as_str].
      rewrite bool_decide_eq_false_2; [done|]. by intros [= ->].
    + intros Nn. split; intros m M Nm.
      * by apply f64_not_lt_le; [| |apply L].
      * by apply f64_not_lt_le; [| |apply G].
    + intros Oi. specialize (O Oi). by destruct n.
  - intros O. apply validate_value_spec. unfold value_ok. rewrite T. exists S754_nan.
    split_and!; [done| |congruence]. split; intros m _; [apply f64_lt_nan_l|apply f64_gt_nan_l].
Qed.
End numbers.

(** * Samples *)

#[local] Existing Instance sample_json_text.

Definition sample_title : Field :=
  {| field_id := "f1"; field_collection_id := "c1"; field_name := "title"; field_type := FText;
     required := true; is_unique := false; field_options := JObject [("min", JNumber (PosInt 2))]; position := 0 |}.
Definition sample_rating : Field :=
  {| field_id := "f2"; field_collection_id := "c1"; field_name := "rating"; field_type := FNumber;
     required := false; is_unique := false; field_options := JObject [("max", JNumber (PosInt 5))]; position := 1 |}.
Definition sample_validated : Collection :=
  {| collection_id := "c1"; collection_name := "notes"; collection_type := CBase;
     collection_options := JObject []; rules := JObject []; fields := [sample_title; sample_rating] |}.
Definition sample_input : Input := [("rating", JString "4.5"); ("title", JString "Hello")].

Theorem validated_record_encodes_witness :
  validate sample_validated sample_input false = None
  ∧ ((stored_null sample_rating (JString "4.5") ∧ encode_value sample_rating (JString "4.5") = Ok None)
     ∨ (¬ stored_null sample_rating (JString "4.5")
        ∧ ∃ t, encode_value sample_rating (JString "4.5") = Ok (Some t))).
Proof.
  assert (V : validate sample_validated sample_input false = None) by (vm_compute; reflexivity).
  split; [exact V|].
  apply (validated_record_encodes sample_validated sample_input false sample_rating (JString "4.5"));
    [exact V|right; left|reflexivity].
Defined.

Theorem accepted_number_within_bounds_witness :
  field_type sample_rating = FNumber ∧ validate_value sample_rating (JString "NaN") = Pass ().
Proof.
  split; [reflexivity|].
  destruct (accepted_number_within_bounds sample_rating eq_refl) as [_ N]. apply N. reflexivity.
Defined.
