(* ===== verification/Net.v ===== *)
(** Addresses and hosts, [crates/core/src/net.rs]: trusted proxies, the host
    allowlist of outgoing requests, and the addresses that are public.

    An address is its number: 32 bits for version 4, 128 for version 6. An
    error is [None]; its message is not modelled. *)
From S2P Require Import Prelude.
From Stdlib Require Import Bool Btauto.

Local Open Scope Z_scope.
Local Set Warnings "-register-all,-clear-no-such-hyp".

Inductive IpAddr := V4 (a : Z) | V6 (a : Z).

#[export] Instance IpAddr_eq_dec : EqDecision IpAddr.
Proof. solve_decision. Defined.

Definition is_ipv4 (a : IpAddr) : bool := match a with V4 _ => true | V6 _ => false end.

(** * [str::parse::<IpAddr>], by the parser of [core::net::parser] *)

Definition reader (A : Type) : Type := string → option (A * string).

Definition to_digit (radix : Z) (c : ascii) : option Z :=
  let b := Z.of_N (byte_of c) in
  let d := if is_ascii_digit c then b - 48
           else if is_ascii_lowercase c then b - 87
           else if is_ascii_uppercase c then b - 55 else radix in
  if decide (d < radix) then Some d else None.

(** The digits of [read_number] with a limit: the number, how many digits, and
    the rest; [None] when there are too many. *)
Fixpoint read_digits_upto (radix : Z) (left_ : nat) (acc : Z) (count : nat) (s : string) {struct s}
    : option (Z * nat * string) :=
  match s with
  | EmptyString => Some (acc, count, s)
  | String c r =>
      match to_digit radix c with
      | None => Some (acc, count, s)
      | Some d =>
          match left_ with
          | O => None
          | S left_ => read_digits_upto radix left_ (acc * radix + d) (S count) r
          end
      end
  end.

(** [Parser::read_number] for a type of values below [bound]. *)
Definition read_number (radix bound : Z) (max_digits : nat) (allow_zero_prefix : bool) : reader Z := λ s,
  '(n, count, rest) ← read_digits_upto radix max_digits 0 0 s;
  if decide (bound ≤ n) then None
  else if decide (count = O) then None
  else if negb allow_zero_prefix && starts_with "0" s && (1 <? count)%nat then None
  else Some (n, rest).

Definition read_given_char (c : ascii) : reader unit := λ s,
  match s with String d r => if decide (d = c) then Some ((), r) else None | EmptyString => None end.

(** [Parser::read_separator]. *)
Definition read_separator {A} (sep : ascii) (index : nat) (inner : reader A) : reader A := λ s,
  match index with
  | O => inner s
  | _ => '(_, s) ← read_given_char sep s; inner s
  end.

(** [Parser::read_ipv4_addr]. *)
Definition read_ipv4_addr : reader Z := λ s,
  let octet i := read_separator "." i (read_number 10 256 3 false) in
  '(a, s) ← octet 0%nat s; '(b, s) ← octet 1%nat s; '(c, s) ← octet 2%nat s; '(d, s) ← octet 3%nat s;
  Some (((a * 256 + b) * 256 + c) * 256 + d, s).

(** [read_groups] of [Parser::read_ipv6_addr]: the groups read so far, whether
    the last two are a version 4 address, and the rest. *)
Fixpoint read_groups (left_ : nat) (i : nat) (groups : list Z) (s : string) : list Z * bool * string :=
  match left_ with
  | O => (groups, false, s)
  | S left_' =>
      match (if decide (left_' = O) then None else read_separator ":" i read_ipv4_addr s) with
      | Some (v4, s) => (groups ++ [v4 / 65536; v4 mod 65536], true, s)
      | None =>
          match read_separator ":" i (read_number 16 65536 4 true) s with
          | Some (group, s) => read_groups left_' (S i) (groups ++ [group]) s
          | None => (groups, false, s)
          end
      end
  end.

Definition of_groups (groups : list Z) : Z := foldl (λ acc g, acc * 65536 + g) 0 groups.

(** [Parser::read_ipv6_addr]. *)
Definition read_ipv6_addr : reader Z := λ s,
  let '(head, head_ipv4, s) := read_groups 8 0 [] s in
  if decide (length head = 8%nat) then Some (of_groups head, s)
  else if (head_ipv4 : bool) then None
  else
    '(_, s) ← read_given_char ":" s; '(_, s) ← read_given_char ":" s;
    let '(tail, _, s) := read_groups (8 - (length head + 1)) 0 [] s in
    Some (of_groups (head ++ replicate (8 - length head - length tail) 0 ++ tail), s).

Definition parse_ip (s : string) : option IpAddr :=
  match read_ipv4_addr s with
  | Some (a, rest) => if decide (rest = "") then Some (V4 a) else None
  | None =>
      match read_ipv6_addr s with
      | Some (a, rest) => if decide (rest = "") then Some (V6 a) else None
      | None => None
      end
  end.

(** [str::parse] of an unsigned integer below [bound]: a [+] is allowed. *)
Fixpoint read_decimal (bound acc : Z) (s : string) : option Z :=
  match s with
  | EmptyString => Some acc
  | String c r =>
      if is_ascii_digit c then
        let n := acc * 10 + (Z.of_N (byte_of c) - 48) in
        if decide (n < bound) then read_decimal bound n r else None
      else None
  end.

Definition parse_uint (bound : Z) (s : string) : option Z :=
  let s := match s with String "+" r => r | _ => s end in
  match s with EmptyString => None | _ => read_decimal bound 0 s end.

(** * Trusted proxies *)

(** [struct TrustedNet]. *)
Record TrustedNet := { base : IpAddr; prefix : Z }.

(** [TrustedNet::parse]. *)
Definition net_parse (raw : string) : option TrustedNet :=
  let raw := trim raw in
  if decide (raw = "") then None
  else
    let '(address, prefix) :=
      match split_once "/" raw with Some (address, prefix) => (address, Some prefix) | None => (raw, None) end in
    base ← parse_ip (trim address);
    let bits := if is_ipv4 base then 32 else 128 in
    match prefix with
    | None => Some {| base := base; prefix := bits |}
    | Some prefix =>
        parsed ← parse_uint 256 (trim prefix);
        if decide (bits < parsed) then None else Some {| base := base; prefix := parsed |}
    end.

(** [TrustedNet::prefix_in_v6], [as_v6] and [v6_mask]. *)
Definition prefix_in_v6 (n : TrustedNet) : Z :=
  match base n with V4 _ => 96 + prefix n | V6 _ => prefix n end.

Definition as_v6 (a : IpAddr) : Z :=
  match a with V6 v6 => v6 | V4 v4 => Z.lor (Z.shiftl 0xffff 32) v4 end.

Definition u128 (z : Z) : Z := Z.land z (Z.ones 128).
Definition v6_mask (prefix : Z) : Z :=
  if decide (prefix = 0) then 0 else u128 (Z.shiftl (Z.ones 128) (128 - prefix)).

(** [TrustedNet::contains]. *)
Definition net_contains (n : TrustedNet) (address : IpAddr) : bool :=
  let mask := v6_mask (prefix_in_v6 n) in
  bool_decide (Z.land (as_v6 (base n)) mask = Z.land (as_v6 address) mask).

(** [TrustedProxies]: its nets, [parse] and [contains]. *)
Definition entries (raw : string) : list string :=
  filter (λ e, e ≠ "") (trim <$> split_on "," raw).

Definition proxies_parse (raw : string) : option (list TrustedNet) := mapM net_parse (entries raw).

Definition proxies_contain (nets : list TrustedNet) (address : IpAddr) : bool :=
  existsb (λ net, net_contains net address) nets.

(** * The host allowlist *)

(** [str::trim_end_matches(char)]. *)
Fixpoint trim_end_matches (c : ascii) (s : string) : string :=
  match s with
  | EmptyString => ""
  | String d r =>
      match trim_end_matches c r with
      | EmptyString => if decide (d = c) then "" else String d ""
      | r => String d r
      end
  end.

(** [struct HostPattern]. *)
Record HostPattern := { host : string; subdomains : bool; port : Z }.

Definition label_char (c : ascii) : bool :=
  is_ascii_alphanumeric c || bool_decide (c = "-"%char) || bool_decide (c = "_"%char).

(** The body of the loop over the labels. *)
Definition label_ok (label : string) : bool :=
  negb (bool_decide (label = "")) && negb (63 <? Z.of_nat (String.length label))
  && str_forall label_char label && negb (starts_with "-" label) && negb (ends_with "-" label).

(** [str::contains] of a text. *)
Fixpoint contains_str (p s : string) : bool :=
  starts_with p s || match s with EmptyString => false | String _ r => contains_str p r end.

(** [HostPattern::parse]. *)
Definition pattern_parse (raw : string) : option HostPattern :=
  let raw := to_ascii_lowercase (trim_end_matches "." (trim raw)) in
  if decide (raw = "") then None
  else if contains_str "://" raw || str_contains "/" raw || str_contains "@" raw then None
  else if bool_decide (is_Some (parse_ip raw)) || starts_with "[" raw then None
  else
    '(host, port) ← match rsplit_once ":" raw with
                    | Some (host, port) =>
                        port ← parse_uint 65536 (trim port);
                        if decide (port = 0) then None else Some (host, port)
                    | None => Some (raw, 443)
                    end;
    if bool_decide (is_Some (parse_ip host)) then None
    else
      let '(wildcard, host) :=
        match strip_prefix "*." host with Some rest => (true, rest) | None => (false, host) end in
      if bool_decide (host = "") || starts_with "." host || ends_with "." host || str_contains "*" host
      then None
      else if forallb label_ok (split_on "." host)
           then Some {| host := host; subdomains := wildcard; port := port |} else None.

(** [HostPattern::matches]. *)
Definition pattern_matches (p : HostPattern) (h : string) (n : Z) : bool :=
  if negb (bool_decide (port p = n)) then false
  else if negb (subdomains p) then bool_decide (host p = h)
  else match strip_suffix (host p) h with
       | Some prefix => ends_with "." prefix && (1 <? String.length prefix)%nat
       | None => false
       end.

(** [HostAllowlist::parse] and [allows]. *)
Definition allowlist_parse (raw : string) : option (list HostPattern) := mapM pattern_parse (entries raw).

Definition allows (patterns : list HostPattern) (h : string) (n : Z) : bool :=
  let h := to_ascii_lowercase (trim_end_matches "." h) in
  if decide (h = "") then false else existsb (λ p, pattern_matches p h n) patterns.

(** * Public addresses *)

(** [Ipv4Addr::octets] and [Ipv6Addr::segments]. *)
Definition octet (a i : Z) : Z := (a / 256 ^ (3 - i)) mod 256.
Definition segment (a i : Z) : Z := (a / 65536 ^ (7 - i)) mod 65536.

Definition between (lo n hi : Z) : bool := (lo <=? n) && (n <=? hi).

(** [is_public_v4], with the predicates of [Ipv4Addr] it calls. *)
Definition is_public_v4 (v4 : Z) : bool :=
  let a := octet v4 0 in let b := octet v4 1 in let c := octet v4 2 in
  let is_private := (a =? 10) || ((a =? 172) && between 16 b 31) || ((a =? 192) && (b =? 168)) in
  let is_loopback := a =? 127 in
  let is_link_local := (a =? 169) && (b =? 254) in
  let is_broadcast := v4 =? 0xffffffff in
  let is_documentation := ((a =? 192) && (b =? 0) && (c =? 2)) || ((a =? 198) && (b =? 51) && (c =? 100))
                          || ((a =? 203) && (b =? 0) && (c =? 113)) in
  let is_multicast := between 224 a 239 in
  let is_unspecified := v4 =? 0 in
  negb ((a =? 0) || is_private || is_loopback || is_link_local || is_broadcast || is_documentation
        || is_multicast || is_unspecified
        || ((a =? 100) && between 64 b 127)
        || ((a =? 192) && (b =? 0) && (c =? 0)) || ((a =? 192) && (b =? 88) && (c =? 99))
        || ((a =? 198) && ((b =? 18) || (b =? 19)))
        || (240 <=? a)).

(** [segments[from..to].iter().all(|s| *s == 0)]. *)
Definition zero_segments (a : Z) (is_ : list Z) : bool := forallb (λ i, segment a i =? 0) is_.

(** The address spelled by two segments. *)
Definition spelled_v4 (a b : Z) : Z :=
  ((Z.shiftr a 8 * 256 + Z.land a 0xff) * 256 + Z.shiftr b 8) * 256 + Z.land b 0xff.

(** [is_public_v6]. *)
Definition is_public_v6 (v6 : Z) : bool :=
  let s := segment v6 in
  let mapped := zero_segments v6 [0; 1; 2; 3; 4] && (s 5 =? 0xffff) in
  if mapped then is_public_v4 (s 6 * 65536 + s 7)
  else if (s 0 =? 0x0064) && (s 1 =? 0xff9b) && zero_segments v6 [2; 3; 4; 5]
  then is_public_v4 (spelled_v4 (s 6) (s 7))
  else if s 0 =? 0x2002 then is_public_v4 (spelled_v4 (s 1) (s 2))
  else
    negb ((v6 =? 1) || (v6 =? 0) || (Z.land (s 0) 0xff00 =? 0xff00)
          || zero_segments v6 [0; 1; 2; 3; 4; 5]
          || (Z.land (s 0) 0xfe00 =? 0xfc00)
          || (Z.land (s 0) 0xffc0 =? 0xfec0)
          || (Z.land (s 0) 0xffc0 =? 0xfe80)
          || ((s 0 =? 0x2001) && (s 1 =? 0x0db8))
          || ((s 0 =? 0x2001) && (s 1 =? 0))
          || ((s 0 =? 0x0064) && (s 1 =? 0xff9b) && (s 2 =? 1))
          || ((s 0 =? 0x0100) && zero_segments v6 [1; 2; 3])).

(** [is_public_ip]. *)
Definition is_public_ip (a : IpAddr) : bool :=
  match a with V4 v4 => is_public_v4 v4 | V6 v6 => is_public_v6 v6 end.

Example parse_ip_samples :
  parse_ip "10.0.0.1" = Some (V4 0x0a000001) ∧ parse_ip "010.0.0.1" = None
  ∧ parse_ip "::1" = Some (V6 1) ∧ parse_ip "fe80::1:2" = Some (V6 (0xfe80 * 65536 ^ 7 + 65538))
  ∧ parse_ip "::ffff:1.2.3.4" = Some (V6 (0xffff01020304)) ∧ parse_ip "1:2:3:4:5:6:7:8:9" = None
  ∧ parse_ip "1:2:3:4:5:6:7::" = Some (V6 0x00010002000300040005000600070000) ∧ parse_ip "::" = Some (V6 0).
Proof. vm_compute. repeat split. Qed.

(** * Prefixes as quotients *)

(** An address in range, and a net as [net_parse] makes it. *)
Definition addr_ok (a : IpAddr) : Prop :=
  match a with V4 v => 0 ≤ v < 2 ^ 32 | V6 v => 0 ≤ v < 2 ^ 128 end.

Definition net_ok (n : TrustedNet) : Prop :=
  addr_ok (base n) ∧ 0 ≤ prefix n ≤ (if is_ipv4 (base n) then 32 else 128).

Lemma bits_above x n i : 0 ≤ x < 2 ^ n → 0 ≤ n ≤ i → Z.testbit x i = false.
Proof. intros X N. rewrite <- (Z.mod_small x (2 ^ n)) by done. by apply Z.mod_pow2_bits_high. Qed.

Lemma land_mask x p :
  0 ≤ x < 2 ^ 128 → 0 ≤ p ≤ 128 → Z.land x (v6_mask p) = x / 2 ^ (128 - p) * 2 ^ (128 - p).
Proof.
  intros X P. unfold v6_mask. case_decide as D.
  - subst p. rewrite Z.land_0_r, Z.div_small by done. done.
  - rewrite <- Z.shiftr_div_pow2, <- Z.shiftl_mul_pow2 by lia. unfold u128.
    apply Z.bits_inj'. intros i I.
    rewrite Z.shiftl_spec, !Z.land_spec, Z.shiftl_spec by lia.
    destruct (Z.leb_spec 128 i).
    { rewrite Z.shiftr_spec, (bits_above x 128 i), (bits_above x 128 (i - (128 - p) + (128 - p))) by lia. done. }
    rewrite (Z.ones_spec_low 128 i) by lia. rewrite andb_true_r.
    destruct (Z.ltb_spec i (128 - p)).
    + rewrite !(Z.testbit_neg_r _ (i - (128 - p))) by lia. apply andb_false_r.
    + rewrite Z.ones_spec_low, andb_true_r, Z.shiftr_spec by lia. f_equal. lia.
Qed.

Lemma as_v6_V4 v : 0 ≤ v < 2 ^ 32 → as_v6 (V4 v) = 0xffff * 2 ^ 32 + v.
Proof.
  intros V. unfold as_v6. rewrite Z.shiftl_mul_pow2 by lia.
  assert (L : Z.land (0xffff * 2 ^ 32) v = 0).
  { rewrite <- Z.shiftl_mul_pow2 by lia. apply Z.bits_inj'. intros i I. rewrite Z.land_spec, Z.bits_0.
    destruct (Z.ltb_spec i 32).
    - by rewrite Z.shiftl_spec_low.
    - rewrite (bits_above v 32 i) by lia. apply andb_false_r. }
  pose proof (Z.add_lor_land (0xffff * 2 ^ 32) v). lia.
Qed.

Lemma as_v6_range a : addr_ok a → 0 ≤ as_v6 a < 2 ^ 128.
Proof. destruct a; cbn [addr_ok]; [|done]. intros V. rewrite as_v6_V4 by done. lia. Qed.

Lemma net_contains_spec n a :
  net_ok n → addr_ok a →
  net_contains n a = true
  ↔ as_v6 (base n) / 2 ^ (128 - prefix_in_v6 n) = as_v6 a / 2 ^ (128 - prefix_in_v6 n).
Proof.
  intros [B P] A. assert (0 ≤ prefix_in_v6 n ≤ 128) by (unfold prefix_in_v6; destruct (base n); cbn in P; lia).
  unfold net_contains. rewrite bool_decide_eq_true, !land_mask by (done || by apply as_v6_range).
  split; [|by intros ->]. intros E. by apply Z.mul_cancel_r in E; [|lia].
Qed.

(** An address written [h], then a version 4 address, then [m] more bits,
    against a prefix that ends inside the version 4 part. *)
Lemma embedded_quot h h' v b l m p :
  0 ≤ v < 2 ^ 32 → 0 ≤ b < 2 ^ 32 → 0 ≤ l < 2 ^ m → 0 ≤ m → 0 ≤ p ≤ 32 →
  (((h' * 2 ^ 32 + b) * 2 ^ m) / 2 ^ (m + (32 - p)) = ((h * 2 ^ 32 + v) * 2 ^ m + l) / 2 ^ (m + (32 - p))
   ↔ h = h' ∧ b / 2 ^ (32 - p) = v / 2 ^ (32 - p)).
Proof.
  intros V B L M P.
  assert (0 < 2 ^ m ∧ 0 < 2 ^ p ∧ 0 < 2 ^ (32 - p)) as (? & ? & ?)
    by (split_and!; apply Z.pow_pos_nonneg; lia).
  rewrite Z.pow_add_r, <- !Z.div_div by lia.
  rewrite Z.div_mul by lia. rewrite (Z.div_add_l (h * 2 ^ 32 + v)), (Z.div_small l), Z.add_0_r by lia.
  replace (2 ^ 32) with (2 ^ p * 2 ^ (32 - p)) by (rewrite <- Z.pow_add_r by lia; f_equal; lia).
  rewrite !Z.mul_assoc, !Z.div_add_l by lia.
  assert (0 ≤ b / 2 ^ (32 - p) < 2 ^ p ∧ 0 ≤ v / 2 ^ (32 - p) < 2 ^ p) as [? ?].
  { split; (split; [apply Z.div_pos; lia|apply Z.div_lt_upper_bound; [lia|]]);
      rewrite <- Z.pow_add_r by lia; replace (32 - p + p) with 32 by lia; lia. }
  split; [|by intros [-> ->]]. intros E. assert (h = h') as -> by nia. split; [done|lia].
Qed.

(** ** A parsed net covers what its notation says *)

(** [address] shares the first [prefix] bits with the net, an address of
    version 4 and its mapped spelling being the same address. *)
Definition covered (n : TrustedNet) (address : IpAddr) : Prop :=
  match base n, address with
  | V4 b, V4 a => b / 2 ^ (32 - prefix n) = a / 2 ^ (32 - prefix n)
  | V4 b, V6 a => a / 2 ^ 32 = 0xffff ∧ b / 2 ^ (32 - prefix n) = a mod 2 ^ 32 / 2 ^ (32 - prefix n)
  | V6 b, V4 a => b / 2 ^ (128 - prefix n) = (0xffff * 2 ^ 32 + a) / 2 ^ (128 - prefix n)
  | V6 b, V6 a => b / 2 ^ (128 - prefix n) = a / 2 ^ (128 - prefix n)
  end.

Lemma net_contains_covered n a : net_ok n → addr_ok a → net_contains n a = true ↔ covered n a.
Proof.
  intros N A. rewrite net_contains_spec by done. destruct N as [B P]. unfold covered, prefix_in_v6.
  destruct (base n) as [b|b], a as [a|a]; cbn [addr_ok is_ipv4] in *; rewrite ?as_v6_V4 by done; try (change (as_v6 (V6 a)) with a); try (change (as_v6 (V6 b)) with b).
  - pose proof (embedded_quot 0xffff 0xffff a b 0 0 (prefix n)) as X.
    change (2 ^ 0) with 1 in X. rewrite !Z.mul_1_r, Z.add_0_r, Z.add_0_l in X.
    replace (128 - (96 + prefix n)) with (32 - prefix n) by lia. rewrite X by lia. tauto.
  - pose proof (embedded_quot (a / 2 ^ 32) 0xffff (a mod 2 ^ 32) b 0 0 (prefix n)) as X.
    change (2 ^ 0) with 1 in X. rewrite !Z.mul_1_r, Z.add_0_r, Z.add_0_l, (Z.mul_comm (a / 2 ^ 32)), <- Z.div_mod in X by lia.
    replace (128 - (96 + prefix n)) with (32 - prefix n) by lia.
    apply X; [apply Z.mod_pos_bound|..]; lia.
  - done.
  - done.
Qed.

(** ** The parser's addresses are in range *)

Lemma to_digit_nonneg radix c d : 0 ≤ radix → to_digit radix c = Some d → 0 ≤ d.
Proof.
  unfold to_digit. intros R. case_decide as D; [|done]. intros [= <-]. revert D R. unfold is_ascii_digit.
  unfold is_ascii_lowercase, is_ascii_uppercase, in_range.
  destruct ((48 <=? byte_of c)%N && _) eqn:E1; [apply andb_true_iff in E1 as [E1%N.leb_le _]; lia|].
  destruct ((97 <=? byte_of c)%N && _) eqn:E2; [apply andb_true_iff in E2 as [E2%N.leb_le _]; lia|].
  destruct ((65 <=? byte_of c)%N && _) eqn:E3; [apply andb_true_iff in E3 as [E3%N.leb_le _]; lia|lia].
Qed.

Lemma read_digits_nonneg radix left_ acc count s n k r :
  0 ≤ radix → 0 ≤ acc → read_digits_upto radix left_ acc count s = Some (n, k, r) → 0 ≤ n.
Proof.
  intros R. revert left_ acc count; induction s as [|c s IH]; intros left_ acc count A; cbn.
  { intros ?; by simplify_eq. }
  destruct (to_digit radix c) as [d|] eqn:D; [|intros ?; by simplify_eq].
  destruct left_ as [|left_]; [done|]. apply IH. apply to_digit_nonneg in D; [nia|done].
Qed.

Lemma read_number_range radix bound k z s n r :
  0 ≤ radix → read_number radix bound k z s = Some (n, r) → 0 ≤ n < bound.
Proof.
  intros R. unfold read_number. destruct (read_digits_upto _ _ _ _ _) as [[[m c] t]|] eqn:E; [|done].
  cbn. case_decide; [done|]. case_decide; [done|]. case_match; [done|]. intros [= <- _].
  apply read_digits_nonneg in E; lia.
Qed.

Lemma read_separator_range {A} sep i (inner : reader A) (P : A → Prop) s a r :
  (∀ s a r, inner s = Some (a, r) → P a) → read_separator sep i inner s = Some (a, r) → P a.
Proof.
  intros H. unfold read_separator. destruct i; [apply H|].
  destruct (read_given_char sep s) as [[[] t]|]; [apply H|done].
Qed.

Lemma octet_range i s a r :
  read_separator "." i (read_number 10 256 3 false) s = Some (a, r) → 0 ≤ a < 256.
Proof. apply (read_separator_range _ _ _ (λ a, 0 ≤ a < 256)). intros ??? H. by apply read_number_range in H. Qed.

Lemma read_ipv4_range s a r : read_ipv4_addr s = Some (a, r) → 0 ≤ a < 2 ^ 32.
Proof.
  unfold read_ipv4_addr.
  destruct (read_separator _ 0 _ s) as [[a1 s1]|] eqn:E1; [|done]. cbn [mbind option_bind].
  destruct (read_separator _ 1 _ s1) as [[a2 s2]|] eqn:E2; [|done]. cbn [mbind option_bind].
  destruct (read_separator _ 2 _ s2) as [[a3 s3]|] eqn:E3; [|done]. cbn [mbind option_bind].
  destruct (read_separator _ 3 _ s3) as [[a4 s4]|] eqn:E4; [|done]. cbn [mbind option_bind].
  intros [= <- _]. apply octet_range in E1, E2, E3, E4. lia.
Qed.

Definition group_ok (g : Z) : Prop := 0 ≤ g < 65536.

Lemma read_groups_ok left_ : ∀ i groups s groups' v4 r,
  read_groups left_ i groups s = (groups', v4, r) → Forall group_ok groups →
  Forall group_ok groups' ∧ (length groups' ≤ length groups + left_)%nat.
Proof.
  induction left_ as [|left_ IH]; intros i groups s groups' v4 r; cbn [read_groups].
  { intros [= <- _ _] F. split; [done|lia]. }
  destruct (if decide (left_ = 0%nat) then None else _) as [[v t]|] eqn:E4.
  - intros [= <- _ _] F. case_decide; [done|]. split; [|rewrite length_app; cbn; lia].
    apply (read_separator_range _ _ _ (λ v, 0 ≤ v < 2 ^ 32)) in E4; [|by intros ??? ?%read_ipv4_range].
    apply Forall_app. split; [done|]. unfold group_ok. repeat constructor; try (apply Z.div_pos; lia);
      try (apply Z.div_lt_upper_bound; lia); apply Z.mod_pos_bound; lia.
  - destruct (read_separator ":" i (read_number 16 65536 4 true) s) as [[g t]|] eqn:E6.
    + intros H F. apply IH in H.
      * rewrite length_app in H. cbn in H. split; [apply H|lia].
      * apply Forall_app. split; [done|]. constructor; [|constructor].
        apply (read_separator_range _ _ _ group_ok) in E6; [done|]. intros ??? H'. by apply read_number_range in H'.
    + intros [= <- _ _] F. split; [done|lia].
Qed.

Lemma of_groups_snoc l g : of_groups (l ++ [g]) = of_groups l * 65536 + g.
Proof. unfold of_groups. by rewrite foldl_app. Qed.

Lemma of_groups_range l : Forall group_ok l → 0 ≤ of_groups l < 65536 ^ len l.
Proof.
  induction l as [|g l IH] using rev_ind; [done|].
  intros [F [G _]%Forall_cons]%Forall_app. rewrite of_groups_snoc. unfold len in *.
  rewrite length_app, Nat2Z.inj_add, Z.pow_add_r by lia. cbn [length]. change (65536 ^ Z.of_nat 1) with 65536.
  specialize (IH F). unfold group_ok in G. lia.
Qed.

Lemma read_ipv6_range s a r : read_ipv6_addr s = Some (a, r) → 0 ≤ a < 2 ^ 128.
Proof.
  unfold read_ipv6_addr. destruct (read_groups 8 0 [] s) as [[hd v4] s1] eqn:E1.
  apply read_groups_ok in E1 as [F1 L1]; [|constructor]. cbn [length] in L1.
  assert (E128 : 2 ^ 128 = 65536 ^ Z.of_nat 8) by done. case_decide as D.
  { intros [= <- _]. pose proof (of_groups_range hd F1) as X. unfold len in X. rewrite D in X. by rewrite E128. }
  destruct v4; [done|].
  destruct (read_given_char ":" s1) as [[[] s2]|]; [|done]. cbn [mbind option_bind].
  destruct (read_given_char ":" s2) as [[[] s3]|]; [|done]. cbn [mbind option_bind].
  destruct (read_groups _ 0 [] s3) as [[tl v] s4] eqn:E2.
  apply read_groups_ok in E2 as [F2 L2]; [|constructor]. cbn [length] in L2. intros [= <- _].
  match goal with |- 0 ≤ of_groups ?l < _ => pose proof (of_groups_range l) as X; unfold len in X;
    assert (Forall group_ok l) as F; [|specialize (X F); assert (length l = 8%nat) as L;
      [rewrite !length_app, length_replicate; lia|rewrite L in X; by rewrite E128]] end.
  apply Forall_app. split; [done|]. apply Forall_app. split; [|done].
  apply Forall_replicate. unfold group_ok. lia.
Qed.

Lemma parse_ip_ok s a : parse_ip s = Some a → addr_ok a.
Proof.
  unfold parse_ip. destruct (read_ipv4_addr s) as [[v r]|] eqn:E4.
  { case_decide; [|done]. intros [= <-]. by apply read_ipv4_range in E4. }
  destruct (read_ipv6_addr s) as [[v r]|] eqn:E6; [|done].
  case_decide; [|done]. intros [= <-]. by apply read_ipv6_range in E6.
Qed.

Lemma read_decimal_range bound acc s n :
  0 ≤ acc < bound → read_decimal bound acc s = Some n → 0 ≤ n < bound.
Proof.
  revert acc; induction s as [|c s IH]; intros acc A; cbn; [by intros [= <-]|].
  destruct (is_ascii_digit c) eqn:D; [|done]. case_decide as B; [|done]. apply IH.
  unfold is_ascii_digit, in_range in D. apply andb_true_iff in D as [D%N.leb_le _]. lia.
Qed.

Lemma parse_uint_range bound s n : 0 < bound → parse_uint bound s = Some n → 0 ≤ n < bound.
Proof. intros B. unfold parse_uint. case_match; [done|]. apply read_decimal_range. lia. Qed.

Lemma net_parse_ok raw n : net_parse raw = Some n → net_ok n.
Proof.
  unfold net_parse. case_decide; [done|].
  destruct (match split_once _ _ with Some _ => _ | None => _ end) as [address pre].
  destruct (parse_ip (trim address)) as [b|] eqn:E; [|done]. cbn [mbind option_bind].
  apply parse_ip_ok in E. destruct pre as [pre|].
  - destruct (parse_uint 256 (trim pre)) as [p|] eqn:P; [|done]. cbn [mbind option_bind].
    apply parse_uint_range in P; [|done]. case_decide; [done|]. intros [= <-]. split; cbn; [done|lia].
  - intros [= <-]. split; cbn; [done|]. destruct (is_ipv4 b); lia.
Qed.

(** A trusted-proxy entry that parses covers exactly the addresses that
    share its prefix: compared as 32 bits within version 4, as 128 bits within
    version 6, and an address of version 4 is the address its mapped spelling
    [::ffff:a.b.c.d] is, on either side. A list trusts an address when one of
    its entries covers it. *)
Theorem trusted_proxies_cover raw nets a :
  proxies_parse raw = Some nets → addr_ok a →
  (proxies_contain nets a = true ↔ ∃ n, n ∈ nets ∧ covered n a)
  ∧ ∀ v, a = V4 v → proxies_contain nets (V4 v) = proxies_contain nets (V6 (0xffff * 2 ^ 32 + v)).
Proof.
  intros P A. unfold proxies_parse in P. apply mapM_Some in P.
  assert (F : Forall net_ok nets) by (induction P; constructor; eauto using net_parse_ok).
  unfold proxies_contain. split.
  - rewrite existsb_exists. rewrite Forall_forall in F.
    split; intros (n & M & C); exists n; rewrite ?list_elem_of_In in *;
      (split; [done|]); apply net_contains_covered; eauto; by apply F, list_elem_of_In.
  - intros v ->. clear P. induction F as [|n nets N F IH]; [done|]. cbn. rewrite IH. f_equal.
    unfold net_contains. by rewrite as_v6_V4.
Qed.

(** * The blocks that are not public *)

(** Address and prefix length of the reserved blocks of version 4: "this"
    network, private use, carrier-grade NAT, loopback, link-local, protocol
    assignments, documentation, 6to4 relays, benchmarking, multicast and the
    reserved class. *)
Definition v4_of (a b c d : Z) : Z := ((a * 256 + b) * 256 + c) * 256 + d.

Definition V4_RESERVED : list (Z * Z) :=
  [(v4_of 0 0 0 0, 8); (v4_of 10 0 0 0, 8); (v4_of 100 64 0 0, 10); (v4_of 127 0 0 0, 8);
   (v4_of 169 254 0 0, 16); (v4_of 172 16 0 0, 12); (v4_of 192 0 0 0, 24); (v4_of 192 0 2 0, 24);
   (v4_of 192 88 99 0, 24); (v4_of 192 168 0 0, 16); (v4_of 198 18 0 0, 15); (v4_of 198 51 100 0, 24);
   (v4_of 203 0 113 0, 24); (v4_of 224 0 0 0, 4); (v4_of 240 0 0 0, 4)].

(** Those of version 6: compatible addresses, the local NAT64 prefix,
    discard-only, Teredo, documentation, unique local, link-local, site-local
    and multicast. *)
Definition V6_RESERVED : list (Z * Z) :=
  [(0, 96); (0x0064ff9b0001 * 2 ^ 80, 48); (0x0100 * 2 ^ 112, 64); (0x20010000 * 2 ^ 96, 32);
   (0x20010db8 * 2 ^ 96, 32); (0xfc00 * 2 ^ 112, 7); (0xfe80 * 2 ^ 112, 10); (0xfec0 * 2 ^ 112, 10);
   (0xff00 * 2 ^ 112, 8)].

(** The reserved blocks, and the version 4 ones as they are spelled under the
    NAT64 prefix 64:ff9b::/96 and in 6to4 addresses, 2002::/16. *)
Definition RESERVED : list TrustedNet :=
  ((λ '(b, p), {| base := V4 b; prefix := p |}) <$> V4_RESERVED)
  ++ ((λ '(b, p), {| base := V6 (0x0064ff9b * 2 ^ 96 + b); prefix := 96 + p |}) <$> V4_RESERVED)
  ++ ((λ '(b, p), {| base := V6 (0x2002 * 2 ^ 112 + b * 2 ^ 80); prefix := 16 + p |}) <$> V4_RESERVED)
  ++ ((λ '(b, p), {| base := V6 b; prefix := p |}) <$> V6_RESERVED).

Definition in_block (w v : Z) '((b, p) : Z * Z) : bool := v / 2 ^ (w - p) =? b / 2 ^ (w - p).

Definition v4_reserved (v : Z) : bool := existsb (in_block 32 v) V4_RESERVED.

Lemma v4_octets v : 0 ≤ v < 2 ^ 32 → ∃ a b c d,
  v = v4_of a b c d ∧ 0 ≤ a < 256 ∧ 0 ≤ b < 256 ∧ 0 ≤ c < 256 ∧ 0 ≤ d < 256.
Proof.
  intros V. exists (v / 2 ^ 24), (v / 2 ^ 16 mod 256), (v / 2 ^ 8 mod 256), (v mod 256).
  unfold v4_of. Z.div_mod_to_equations. lia.
Qed.

Lemma octets_v4 a b c d :
  0 ≤ a < 256 → 0 ≤ b < 256 → 0 ≤ c < 256 → 0 ≤ d < 256 →
  octet (v4_of a b c d) 0 = a ∧ octet (v4_of a b c d) 1 = b ∧ octet (v4_of a b c d) 2 = c.
Proof.
  intros A B C D. unfold octet, v4_of.
  change (256 ^ (3 - 0)) with 16777216. change (256 ^ (3 - 1)) with 65536. change (256 ^ (3 - 2)) with 256.
  split_and!; Z.div_mod_to_equations; lia.
Qed.

(** The disjunct that holds, by arithmetic. *)
Ltac pick_disjunct :=
  lazymatch goal with
  | |- _ ∨ _ => first [left; pick_disjunct | right; pick_disjunct]
  | |- _ => lia
  end.

Lemma is_public_v4_spec v : 0 ≤ v < 2 ^ 32 → is_public_v4 v = negb (v4_reserved v).
Proof.
  intros V. destruct (v4_octets v V) as (a & b & c & d & -> & A & B & C & D).
  destruct (octets_v4 a b c d A B C D) as (E0 & E1 & E2).
  unfold is_public_v4. rewrite E0, E1, E2. unfold v4_reserved, V4_RESERVED. cbn [existsb in_block].
  assert (Q : v4_of a b c d / 2 ^ 24 = a ∧ v4_of a b c d / 2 ^ 22 = a * 4 + b / 64
    ∧ v4_of a b c d / 2 ^ 20 = a * 16 + b / 16 ∧ v4_of a b c d / 2 ^ 17 = a * 128 + b / 2
    ∧ v4_of a b c d / 2 ^ 16 = a * 256 + b ∧ v4_of a b c d / 2 ^ 8 = (a * 256 + b) * 256 + c
    ∧ v4_of a b c d / 2 ^ 28 = a / 16).
  { unfold v4_of. split_and!; Z.div_mod_to_equations; lia. }
  destruct Q as (Q1 & Q2 & Q3 & Q4 & Q5 & Q6 & Q7).
  change (32 - 8) with 24. change (32 - 10) with 22. change (32 - 16) with 16. change (32 - 12) with 20.
  change (32 - 24) with 8. change (32 - 15) with 17. change (32 - 4) with 28.
  rewrite Q1, Q2, Q3, Q4, Q5, Q6, Q7. f_equal. clear E0 E1 E2 Q1 Q2 Q3 Q4 Q5 Q6 Q7.
  repeat match goal with |- context [v4_of ?x ?y ?z ?t / ?q] =>
    let r := eval vm_compute in (v4_of x y z t / q) in change (v4_of x y z t / q) with r end.
  assert (B64 : a * 4 + b / 64 = 401 ↔ a = 100 ∧ 64 ≤ b ∧ b ≤ 127) by (Z.div_mod_to_equations; lia).
  assert (B16 : a * 16 + b / 16 = 2753 ↔ a = 172 ∧ 16 ≤ b ∧ b ≤ 31) by (Z.div_mod_to_equations; lia).
  assert (B2 : a * 128 + b / 2 = 25353 ↔ a = 198 ∧ (b = 18 ∨ b = 19)) by (Z.div_mod_to_equations; lia).
  assert (A14 : a / 16 = 14 ↔ 224 ≤ a ∧ a ≤ 239) by (Z.div_mod_to_equations; lia).
  assert (A15 : a / 16 = 15 ↔ 240 ≤ a) by (Z.div_mod_to_equations; lia).
  apply eq_true_iff_eq. unfold between. rewrite !orb_true_iff, !andb_true_iff, !orb_true_iff, !Z.eqb_eq, !Z.leb_le.
  rewrite B64, B16, B2, A14, A15. clear B64 B16 B2 A14 A15.
  assert (v4_of a b c d = 4294967295 → 240 ≤ a) by (unfold v4_of; lia).
  assert (v4_of a b c d = 0 → a = 0) by (unfold v4_of; lia).
  split; intros H'; repeat destruct H' as [H'|H']; try done; pick_disjunct.
Qed.

(** ** Version 6, by its segments *)

Definition of_segments (s0 s1 s2 s3 s4 s5 s6 s7 : Z) : Z := of_groups [s0; s1; s2; s3; s4; s5; s6; s7].

Lemma v6_segments v : 0 ≤ v < 2 ^ 128 → ∃ s0 s1 s2 s3 s4 s5 s6 s7,
  v = of_segments s0 s1 s2 s3 s4 s5 s6 s7 ∧ Forall group_ok [s0; s1; s2; s3; s4; s5; s6; s7].
Proof.
  intros V. exists (v / 2 ^ 112), (v / 2 ^ 96 mod 65536), (v / 2 ^ 80 mod 65536), (v / 2 ^ 64 mod 65536),
    (v / 2 ^ 48 mod 65536), (v / 2 ^ 32 mod 65536), (v / 2 ^ 16 mod 65536), (v mod 65536).
  split.
  - unfold of_segments, of_groups. cbn [foldl].
    change (0 * 65536 + v / 2 ^ 112) with (v / 2 ^ 112).
    assert (S : ∀ k, 0 ≤ k → v / 2 ^ (k + 16) * 65536 + v / 2 ^ k mod 65536 = v / 2 ^ k).
    { intros k K. rewrite Z.pow_add_r, <- Z.div_div by lia. change (2 ^ 16) with 65536.
      pose proof (Z.div_mod (v / 2 ^ k) 65536). lia. }
    pose proof (S 96) as H1. pose proof (S 80) as H2. pose proof (S 64) as H3. pose proof (S 48) as H4.
    pose proof (S 32) as H5. pose proof (S 16) as H6. pose proof (S 0) as H7.
    change (96 + 16) with 112 in H1. change (80 + 16) with 96 in H2. change (64 + 16) with 80 in H3.
    change (48 + 16) with 64 in H4. change (32 + 16) with 48 in H5. change (16 + 16) with 32 in H6.
    change (0 + 16) with 16 in H7. change (2 ^ 0) with 1 in H7. rewrite Z.div_1_r in H7.
    rewrite H1, H2, H3, H4, H5, H6, H7 by lia. done.
  - unfold group_ok. repeat constructor; try (apply Z.mod_pos_bound; lia);
      [apply Z.div_pos; lia|apply Z.div_lt_upper_bound; lia].
Qed.

(** Dropping the low segments. *)
Lemma of_groups_quot l k : Forall group_ok k → of_groups (l ++ k) / 65536 ^ len k = of_groups l.
Proof.
  intros F. induction k as [|g k IH] using rev_ind.
  { rewrite app_nil_r. apply Z.div_1_r. }
  apply Forall_app in F as [F [G _]%Forall_cons]. unfold group_ok in G.
  rewrite app_assoc, of_groups_snoc. unfold len in *. rewrite length_app, Nat2Z.inj_add. cbn [length].
  change (Z.of_nat 1) with 1. rewrite (Z.add_comm (Z.of_nat (length k)) 1), Z.pow_add_r, Z.pow_1_r by lia.
  rewrite <- Z.div_div, Z.div_add_l, (Z.div_small g), Z.add_0_r by lia. by apply IH.
Qed.

Lemma of_groups_mod l k : Forall group_ok k → of_groups (l ++ k) mod 65536 ^ len k = of_groups k.
Proof.
  intros F. assert (E : of_groups (l ++ k) = of_groups l * 65536 ^ len k + of_groups k).
  { clear F. induction k as [|g k IH] using rev_ind; [rewrite app_nil_r; change (of_groups l = of_groups l * 1 + 0); lia|].
    rewrite app_assoc, !of_groups_snoc, IH. unfold len. rewrite length_app, Nat2Z.inj_add, Z.pow_add_r by lia.
    cbn [length]. change (65536 ^ Z.of_nat 1) with 65536. lia. }
  rewrite E, Z.add_comm, Z.mod_add, Z.mod_small; [done|by apply of_groups_range|].
  apply Z.pow_nonzero; unfold len; lia.
Qed.

(** The masks are prefixes of a segment. *)
Lemma land_high s k : group_ok s → 0 ≤ k ≤ 16 → Z.land s (Z.shiftl (Z.ones (16 - k)) k) = s / 2 ^ k * 2 ^ k.
Proof.
  intros S K. rewrite <- Z.shiftr_div_pow2, <- Z.shiftl_mul_pow2 by lia.
  apply Z.bits_inj'. intros i I. rewrite Z.land_spec, !Z.shiftl_spec by lia.
  destruct (Z.ltb_spec i k); [rewrite !(Z.testbit_neg_r _ (i - k)) by lia; apply andb_false_r|].
  rewrite Z.shiftr_spec by lia. replace (i - k + k) with i by lia.
  destruct (Z.leb_spec 16 i).
  - rewrite (bits_above s 16 i) by (unfold group_ok in S; lia). done.
  - rewrite Z.ones_spec_low by lia. apply andb_true_r.
Qed.

Lemma mask_is_prefix s k m v q :
  group_ok s → 0 ≤ k ≤ 16 → m = Z.shiftl (Z.ones (16 - k)) k → v = q * 2 ^ k →
  (Z.land s m =? v) = (s / 2 ^ k =? q).
Proof.
  intros S K -> ->. rewrite land_high by done.
  pose proof (Z.pow_pos_nonneg 2 k). apply eq_true_iff_eq. rewrite !Z.eqb_eq. nia.
Qed.

Lemma masks s : group_ok s →
  ((Z.land s 0xff00 =? 0xff00) = (s / 2 ^ 8 =? 255)) ∧ ((Z.land s 0xfe00 =? 0xfc00) = (s / 2 ^ 9 =? 126))
  ∧ ((Z.land s 0xffc0 =? 0xfec0) = (s / 2 ^ 6 =? 1019)) ∧ ((Z.land s 0xffc0 =? 0xfe80) = (s / 2 ^ 6 =? 1018)).
Proof. intros S. split_and!; apply mask_is_prefix; done || lia. Qed.

Lemma spelled_v4_eq a b : group_ok a → group_ok b → spelled_v4 a b = a * 65536 + b.
Proof.
  intros A B. unfold spelled_v4. change 0xff with (Z.ones 8).
  rewrite !Z.land_ones, !Z.shiftr_div_pow2 by lia. change (2 ^ 8) with 256.
  unfold group_ok in *. Z.div_mod_to_equations. lia.
Qed.

Ltac groups := repeat (apply Forall_cons_2; [assumption|]); apply Forall_nil_2.

Lemma segments_of s0 s1 s2 s3 s4 s5 s6 s7 :
  Forall group_ok [s0; s1; s2; s3; s4; s5; s6; s7] →
  let v := of_segments s0 s1 s2 s3 s4 s5 s6 s7 in
  segment v 0 = s0 ∧ segment v 1 = s1 ∧ segment v 2 = s2 ∧ segment v 3 = s3
  ∧ segment v 4 = s4 ∧ segment v 5 = s5 ∧ segment v 6 = s6 ∧ segment v 7 = s7.
Proof.
  intros F v. subst v.
  assert (K : ∀ l g k, Forall group_ok (l ++ g :: k) → (length k ≤ 7)%nat →
    segment (of_groups (l ++ g :: k)) (7 - len k) = g).
  { intros l g k Fs L. unfold segment. replace (7 - (7 - len k)) with (len k) by lia.
    apply Forall_app in Fs as [_ [G Fk]%Forall_cons].
    replace (l ++ g :: k) with ((l ++ [g]) ++ k) by (by rewrite <- app_assoc).
    rewrite of_groups_quot, of_groups_snoc by done. unfold group_ok in G.
    rewrite Z.add_comm, Z.mod_add, Z.mod_small by lia. done. }
  split_and!.
  - apply (K [] s0 [s1; s2; s3; s4; s5; s6; s7]); [done|cbn; lia].
  - apply (K [s0] s1 [s2; s3; s4; s5; s6; s7]); [done|cbn; lia].
  - apply (K [s0; s1] s2 [s3; s4; s5; s6; s7]); [done|cbn; lia].
  - apply (K [s0; s1; s2] s3 [s4; s5; s6; s7]); [done|cbn; lia].
  - apply (K [s0; s1; s2; s3] s4 [s5; s6; s7]); [done|cbn; lia].
  - apply (K [s0; s1; s2; s3; s4] s5 [s6; s7]); [done|cbn; lia].
  - apply (K [s0; s1; s2; s3; s4; s5] s6 [s7]); [done|cbn; lia].
  - apply (K [s0; s1; s2; s3; s4; s5; s6] s7 []); [done|cbn; lia].
Qed.

Lemma quotients_of s0 s1 s2 s3 s4 s5 s6 s7 :
  Forall group_ok [s0; s1; s2; s3; s4; s5; s6; s7] →
  let v := of_segments s0 s1 s2 s3 s4 s5 s6 s7 in
  v / 2 ^ 112 = of_groups [s0] ∧ v / 2 ^ 96 = of_groups [s0; s1] ∧ v / 2 ^ 80 = of_groups [s0; s1; s2]
  ∧ v / 2 ^ 64 = of_groups [s0; s1; s2; s3] ∧ v / 2 ^ 32 = of_groups [s0; s1; s2; s3; s4; s5]
  ∧ v / 2 ^ 121 = s0 / 2 ^ 9 ∧ v / 2 ^ 118 = s0 / 2 ^ 6 ∧ v / 2 ^ 120 = s0 / 2 ^ 8
  ∧ v mod 2 ^ 32 = s6 * 65536 + s7 ∧ v / 2 ^ 80 mod 2 ^ 32 = s1 * 65536 + s2.
Proof.
  intros F v. subst v. unfold of_segments.
  rewrite !Forall_cons in F. destruct F as (F0 & F1 & F2 & F3 & F4 & F5 & F6 & F7 & _).
  assert (Q1 := of_groups_quot [s0] [s1; s2; s3; s4; s5; s6; s7]).
  assert (Q3 := of_groups_quot [s0; s1; s2] [s3; s4; s5; s6; s7]).
  cbn [app] in Q1, Q3.
  change (65536 ^ len [s1; s2; s3; s4; s5; s6; s7]) with (2 ^ 112) in Q1.
  change (65536 ^ len [s3; s4; s5; s6; s7]) with (2 ^ 80) in Q3.
  specialize (Q1 ltac:(groups)). specialize (Q3 ltac:(groups)).
  assert (D : ∀ k, 0 ≤ k → of_groups [s0; s1; s2; s3; s4; s5; s6; s7] / 2 ^ (112 + k) = s0 / 2 ^ k).
  { intros k K. rewrite Z.pow_add_r, <- Z.div_div by lia. rewrite Q1. unfold of_groups. cbn [foldl].
    by rewrite Z.add_0_l. }
  split_and!.
  - done.
  - apply (of_groups_quot [s0; s1] [s2; s3; s4; s5; s6; s7]). groups.
  - done.
  - apply (of_groups_quot [s0; s1; s2; s3] [s4; s5; s6; s7]). groups.
  - apply (of_groups_quot [s0; s1; s2; s3; s4; s5] [s6; s7]). groups.
  - apply (D 9); lia.
  - apply (D 6); lia.
  - apply (D 8); lia.
  - apply (of_groups_mod [s0; s1; s2; s3; s4; s5] [s6; s7]). groups.
  - rewrite Q3. apply (of_groups_mod [s0] [s1; s2]). groups.
Qed.

(** The version 4 blocks under the prefix [h], [m] bits above the end. *)
Lemma embedded_blocks h m v :
  0 ≤ v → 0 ≤ m →
  existsb (λ '(b, p), (h * 2 ^ 32 + b) * 2 ^ m / 2 ^ (m + (32 - p)) =? v / 2 ^ (m + (32 - p))) V4_RESERVED
  = (v / 2 ^ (m + 32) =? h) && v4_reserved (v / 2 ^ m mod 2 ^ 32).
Proof.
  intros V M. unfold v4_reserved.
  assert (F : Forall (λ '(b, p), 0 ≤ b < 2 ^ 32 ∧ 0 ≤ p ≤ 32) V4_RESERVED) by (unfold V4_RESERVED, v4_of; repeat (apply Forall_cons_2; [lia|]); apply Forall_nil_2).
  induction F as [|[b p] l [B P] F IH]; [by rewrite andb_false_r|]. cbn [existsb]. rewrite IH, andb_orb_distrib_r.
  f_equal. clear IH F l.
  assert (X : 0 < 2 ^ m) by (apply Z.pow_pos_nonneg; lia).
  pose proof (embedded_quot (v / 2 ^ m / 2 ^ 32) h (v / 2 ^ m mod 2 ^ 32) b (v mod 2 ^ m) m p) as E.
  replace ((v / 2 ^ m / 2 ^ 32 * 2 ^ 32 + v / 2 ^ m mod 2 ^ 32) * 2 ^ m + v mod 2 ^ m) with v in E.
  2: { pose proof (Z.div_mod (v / 2 ^ m) (2 ^ 32)). pose proof (Z.div_mod v (2 ^ m)). nia. }
  rewrite (Z.pow_add_r 2 m 32), <- (Z.div_div v) by lia.
  assert (0 ≤ v / 2 ^ m mod 2 ^ 32 < 2 ^ 32) by (apply Z.mod_pos_bound; lia).
  assert (0 ≤ v mod 2 ^ m < 2 ^ m) by (apply Z.mod_pos_bound; lia).
  apply eq_true_iff_eq. rewrite andb_true_iff, !Z.eqb_eq, E by done. unfold in_block. rewrite Z.eqb_eq.
  intuition lia.
Qed.

Lemma existsb_map {A B} (f : A → B) (p : B → bool) l : existsb p (f <$> l) = existsb (λ x, p (f x)) l.
Proof. induction l as [|x l IH]; [done|]. cbn. by rewrite IH. Qed.

Lemma existsb_ext_in {A} (p q : A → bool) l : (∀ x, x ∈ l → p x = q x) → existsb p l = existsb q l.
Proof.
  intros H. induction l as [|x l IH]; [done|]. cbn. rewrite (H x) by constructor.
  rewrite IH; [done|]. intros y Y. apply H. by constructor.
Qed.

Definition v6_reserved (v : Z) : bool :=
  ((v / 2 ^ 32 =? 0xffff) && v4_reserved (v mod 2 ^ 32))
  || ((v / 2 ^ 32 =? 0x0064ff9b * 2 ^ 64) && v4_reserved (v mod 2 ^ 32))
  || ((v / 2 ^ 112 =? 0x2002) && v4_reserved (v / 2 ^ 80 mod 2 ^ 32))
  || existsb (in_block 128 v) V6_RESERVED.

Lemma reserved_blocks (f : Z * Z → TrustedNet) (l : list (Z * Z)) (a : IpAddr) (q : Z * Z → bool) :
  addr_ok a →
  (∀ x, x ∈ l → net_ok (f x) ∧
     ((as_v6 (base (f x)) / 2 ^ (128 - prefix_in_v6 (f x)) =? as_v6 a / 2 ^ (128 - prefix_in_v6 (f x))) = q x)) →
  existsb (λ n, net_contains n a) (f <$> l) = existsb q l.
Proof.
  intros A H. rewrite existsb_map. apply existsb_ext_in. intros x X. destruct (H x X) as [N <-].
  apply eq_true_iff_eq. rewrite Z.eqb_eq. by apply net_contains_spec.
Qed.

Lemma V4_RESERVED_ok : Forall (λ x, 0 ≤ x.1 < 2 ^ 32 ∧ 0 ≤ x.2 ≤ 32) V4_RESERVED.
Proof. unfold V4_RESERVED, v4_of. repeat (apply Forall_cons_2; [cbn; lia|]). apply Forall_nil_2. Qed.

Lemma V6_RESERVED_ok : Forall (λ x, 0 ≤ x.1 < 2 ^ 128 ∧ 0 ≤ x.2 ≤ 128) V6_RESERVED.
Proof. unfold V6_RESERVED. repeat (apply Forall_cons_2; [cbn; lia|]). apply Forall_nil_2. Qed.

Lemma embedded_blocks_low h v :
  0 ≤ v →
  existsb (λ '(b, p), (h * 2 ^ 32 + b) / 2 ^ (32 - p) =? v / 2 ^ (32 - p)) V4_RESERVED
  = (v / 2 ^ 32 =? h) && v4_reserved (v mod 2 ^ 32).
Proof.
  intros V. pose proof (embedded_blocks h 0 v V (Z.le_refl 0)) as E.
  change (2 ^ 0) with 1 in E. rewrite Z.div_1_r in E. change (2 ^ (0 + 32)) with (2 ^ 32) in E. rewrite <- E.
  apply existsb_ext_in. intros [b p] _. by rewrite Z.mul_1_r.
Qed.

Lemma RESERVED_v6 v : 0 ≤ v < 2 ^ 128 → existsb (λ n, net_contains n (V6 v)) RESERVED = v6_reserved v.
Proof.
  intros V. unfold RESERVED, v6_reserved. rewrite !existsb_app, !orb_assoc.
  pose proof V4_RESERVED_ok as F4. pose proof V6_RESERVED_ok as F6. rewrite Forall_forall in F4, F6.
  f_equal; [f_equal; [f_equal|]|].
  - rewrite <- embedded_blocks_low by lia.
    apply reserved_blocks; [done|]. intros [b p] X. specialize (F4 _ X). cbn in F4. split; [split; cbn; lia|].
    unfold prefix_in_v6. cbn [base prefix]. rewrite as_v6_V4 by lia. cbn [as_v6].
    by replace (128 - (96 + p)) with (32 - p) by lia.
  - rewrite <- embedded_blocks_low by lia.
    apply reserved_blocks; [done|]. intros [b p] X. specialize (F4 _ X). cbn in F4. split; [split; cbn; lia|].
    unfold prefix_in_v6. cbn [base prefix as_v6].
    replace (128 - (96 + p)) with (32 - p) by lia. do 2 f_equal.
  - change (2 ^ 112) with (2 ^ (80 + 32)). rewrite <- embedded_blocks by lia.
    apply reserved_blocks; [done|]. intros [b p] X. specialize (F4 _ X). cbn in F4. split; [split; cbn; lia|].
    unfold prefix_in_v6. cbn [base prefix as_v6].
    replace (128 - (16 + p)) with (80 + (32 - p)) by lia. do 2 f_equal. lia.
  - apply reserved_blocks; [done|]. intros [b p] X. specialize (F6 _ X). cbn in F6. split; [split; cbn; lia|].
    unfold prefix_in_v6. cbn [base prefix as_v6 in_block]. apply Z.eqb_sym.
Qed.

(** Comparing numbers of segments compares each segment. *)
Lemma of_groups_inj l l' :
  Forall group_ok l → Forall group_ok l' → length l = length l' → of_groups l = of_groups l' → l = l'.
Proof.
  revert l'. induction l as [|g l IH] using rev_ind; intros l' F F' L E.
  { by destruct l'. }
  destruct l' as [|g' l' _] using rev_ind; [rewrite length_app in L; cbn in L; lia|].
  apply Forall_app in F as [F [G _]%Forall_cons]. apply Forall_app in F' as [F' [G' _]%Forall_cons].
  rewrite !length_app in L. cbn in L. rewrite !of_groups_snoc in E. unfold group_ok in G, G'.
  assert (g = g') as <- by lia. f_equal. apply IH; [done..|lia|lia].
Qed.

Lemma of_groups_eqb l l' :
  Forall group_ok l → Forall group_ok l' → length l = length l' →
  (of_groups l =? of_groups l') = forallb (λ '(a, b), a =? b) (zip l l').
Proof.
  intros F F' L. transitivity (bool_decide (l = l')).
  - apply eq_true_iff_eq. rewrite Z.eqb_eq, bool_decide_eq_true.
    split; [by apply of_groups_inj|by intros ->].
  - clear F F'. revert l' L. induction l as [|x l IH]; intros [|y l'] L; try done. cbn in *. injection L as L.
    rewrite <- IH by done. apply eq_true_iff_eq. rewrite andb_true_iff, Z.eqb_eq, !bool_decide_eq_true. naive_solver.
Qed.

Ltac by_groups := apply of_groups_eqb; [groups|unfold group_ok; repeat (apply Forall_cons_2; [lia|]); apply Forall_nil_2|done].

Lemma six_groups s0 s1 s2 s3 s4 s5 :
  group_ok s0 → group_ok s1 → group_ok s2 → group_ok s3 → group_ok s4 → group_ok s5 →
  ((of_groups [s0; s1; s2; s3; s4; s5] =? of_groups [0; 0; 0; 0; 0; 0xffff])
   = (s0 =? 0) && ((s1 =? 0) && ((s2 =? 0) && ((s3 =? 0) && ((s4 =? 0) && ((s5 =? 0xffff) && true))))))
  ∧ ((of_groups [s0; s1; s2; s3; s4; s5] =? of_groups [0x64; 0xff9b; 0; 0; 0; 0])
   = (s0 =? 100) && ((s1 =? 65435) && ((s2 =? 0) && ((s3 =? 0) && ((s4 =? 0) && ((s5 =? 0) && true))))))
  ∧ ((of_groups [s0; s1; s2; s3; s4; s5] =? of_groups [0; 0; 0; 0; 0; 0])
   = (s0 =? 0) && ((s1 =? 0) && ((s2 =? 0) && ((s3 =? 0) && ((s4 =? 0) && ((s5 =? 0) && true)))))).
Proof. intros. split_and!; by_groups. Qed.

Lemma leading_groups s0 s1 s2 s3 :
  group_ok s0 → group_ok s1 → group_ok s2 → group_ok s3 →
  ((of_groups [s0; s1; s2] =? of_groups [0x64; 0xff9b; 1]) = (s0 =? 100) && ((s1 =? 65435) && ((s2 =? 1) && true)))
  ∧ ((of_groups [s0; s1; s2; s3] =? of_groups [0x100; 0; 0; 0])
     = (s0 =? 256) && ((s1 =? 0) && ((s2 =? 0) && ((s3 =? 0) && true))))
  ∧ ((of_groups [s0; s1] =? of_groups [0x2001; 0]) = (s0 =? 8193) && ((s1 =? 0) && true))
  ∧ ((of_groups [s0; s1] =? of_groups [0x2001; 0x0db8]) = (s0 =? 8193) && ((s1 =? 3512) && true))
  ∧ of_groups [s0] = s0.
Proof. intros. split_and!; try by_groups. unfold of_groups. cbn [foldl]. lia. Qed.

Lemma is_public_v4_pair a b :
  group_ok a → group_ok b → is_public_v4 (a * 65536 + b) = negb (v4_reserved (a * 65536 + b)).
Proof. unfold group_ok. intros A B. apply is_public_v4_spec. lia. Qed.

Lemma is_public_v6_spec v : 0 ≤ v < 2 ^ 128 → is_public_v6 v = negb (v6_reserved v).
Proof.
  intros V. destruct (v6_segments v V) as (s0 & s1 & s2 & s3 & s4 & s5 & s6 & s7 & -> & F).
  destruct (segments_of _ _ _ _ _ _ _ _ F) as (S0 & S1 & S2 & S3 & S4 & S5 & S6 & S7).
  destruct (quotients_of _ _ _ _ _ _ _ _ F) as (Q112 & Q96 & Q80 & Q64 & Q32 & Q121 & Q118 & Q120 & M0 & M80).
  assert (L : ∀ n, 0 ≤ n < 2 ^ 32 → (of_segments s0 s1 s2 s3 s4 s5 s6 s7 =? n) = true →
              (of_groups [s0; s1; s2; s3; s4; s5] =? of_groups [0; 0; 0; 0; 0; 0]) = true).
  { intros n N E%Z.eqb_eq. rewrite <- Q32, E, Z.div_small by done. done. }
  pose proof (L 1 ltac:(lia)) as L1. pose proof (L 0 ltac:(lia)) as L0. clear L.
  rewrite !Forall_cons in F. destruct F as (F0 & F1 & F2 & F3 & F4 & F5 & F6 & F7 & _).
  destruct (masks s0 F0) as (K1 & K2 & K3 & K4).
  destruct (six_groups _ _ _ _ _ _ F0 F1 F2 F3 F4 F5) as (G1 & G2 & G3).
  destruct (leading_groups _ _ _ _ F0 F1 F2 F3) as (G4 & G5 & G6 & G7 & G8).
  unfold is_public_v6, v6_reserved, zero_segments, V6_RESERVED. cbn [forallb existsb in_block].
  change (128 - 96) with 32. change (128 - 48) with 80. change (128 - 64) with 64. change (128 - 32) with 96.
  change (128 - 7) with 121. change (128 - 10) with 118. change (128 - 8) with 120.
  rewrite S0, S1, S2, S3, S4, S5, S6, S7, M0, M80, Q112, Q96, Q80, Q64, Q32, Q121, Q118, Q120, K1, K2, K3, K4, G8.
  change (0 / 2 ^ 32) with (of_groups [0; 0; 0; 0; 0; 0]).
  change (433785077761 * 2 ^ 80 / 2 ^ 80) with (of_groups [0x64; 0xff9b; 1]).
  change (256 * 2 ^ 112 / 2 ^ 64) with (of_groups [0x100; 0; 0; 0]).
  change (536936448 * 2 ^ 96 / 2 ^ 96) with (of_groups [0x2001; 0]).
  change (536939960 * 2 ^ 96 / 2 ^ 96) with (of_groups [0x2001; 0x0db8]).
  change (64512 * 2 ^ 112 / 2 ^ 121) with 126. change (65152 * 2 ^ 112 / 2 ^ 118) with 1018.
  change (65216 * 2 ^ 112 / 2 ^ 118) with 1019. change (65280 * 2 ^ 112 / 2 ^ 120) with 255.
  change (6619035 * 2 ^ 64) with (of_groups [0x64; 0xff9b; 0; 0; 0; 0]).
  change (of_groups [s0; s1; s2; s3; s4; s5] =? 65535)
    with (of_groups [s0; s1; s2; s3; s4; s5] =? of_groups [0; 0; 0; 0; 0; 0xffff]).
  rewrite G1, G2, G3, G4, G5, G6, G7. rewrite G3 in L0, L1.
  rewrite !spelled_v4_eq, !is_public_v4_pair by done. clear - L0 L1.
  destruct ((s0 =? 0) && ((s1 =? 0) && ((s2 =? 0) && ((s3 =? 0) && ((s4 =? 0) && true)))) && (s5 =? 65535)) eqn:C1.
  { rewrite !andb_true_iff, !Z.eqb_eq in C1. destruct C1 as [(-> & -> & -> & -> & -> & _) ->].
    cbn. by rewrite !orb_false_r. }
  destruct ((s0 =? 100) && (s1 =? 65435) && ((s2 =? 0) && ((s3 =? 0) && ((s4 =? 0) && ((s5 =? 0) && true))))) eqn:C2.
  { rewrite !andb_true_iff, !Z.eqb_eq in C2. destruct C2 as [(-> & ->) (-> & -> & -> & -> & _)].
    cbn. by rewrite !orb_false_r. }
  destruct (s0 =? 8194) eqn:C3.
  { apply Z.eqb_eq in C3 as ->. cbn. by rewrite !orb_false_r. }
  assert (D1 : (s0 =? 0) && ((s1 =? 0) && ((s2 =? 0) && ((s3 =? 0) && ((s4 =? 0) && ((s5 =? 65535) && true))))) = false)
    by (rewrite <- C1; btauto).
  assert (D2 : (s0 =? 100) && ((s1 =? 65435) && ((s2 =? 0) && ((s3 =? 0) && ((s4 =? 0) && ((s5 =? 0) && true))))) = false)
    by (rewrite <- C2; btauto).
  rewrite D1, D2. cbn [andb orb]. f_equal. clear C1 C2 C3 D1 D2.
  destruct (_ =? 1); [rewrite (L1 eq_refl)|destruct (_ =? 0) in L0 |- *; [rewrite (L0 eq_refl)|]]; clear L0 L1; btauto.
Qed.

Lemma mapped_reserved v : 0 ≤ v < 2 ^ 32 → v6_reserved (0xffff * 2 ^ 32 + v) = v4_reserved v.
Proof.
  intros V. unfold v6_reserved.
  assert (E : (0xffff * 2 ^ 32 + v) / 2 ^ 32 = 0xffff) by (rewrite Z.div_add_l, Z.div_small by lia; lia).
  assert (M : (0xffff * 2 ^ 32 + v) mod 2 ^ 32 = v) by (rewrite Z.add_comm, Z.mod_add, Z.mod_small by lia; done).
  assert (Q : ∀ k, 48 ≤ k → (0xffff * 2 ^ 32 + v) / 2 ^ k = 0).
  { intros k K. apply Z.div_small. pose proof (Z.pow_le_mono_r 2 48 k). lia. }
  unfold V6_RESERVED. cbn [existsb in_block].
  change (128 - 96) with 32. change (128 - 48) with 80. change (128 - 64) with 64. change (128 - 32) with 96.
  change (128 - 7) with 121. change (128 - 10) with 118. change (128 - 8) with 120.
  rewrite E, M, !Q by lia. generalize (v4_reserved v). intros []; vm_compute; reflexivity.
Qed.

(** An address is public exactly when none of the reserved blocks contains
    it: the fifteen version 4 blocks (private use, loopback, link-local with
    the metadata services, carrier-grade NAT, documentation, benchmarking,
    multicast, reserved), the same blocks wherever a version 6 address spells a
    version 4 one (mapped, under the NAT64 prefix, in 6to4), and the nine
    version 6 blocks. *)
Theorem public_is_not_reserved a :
  addr_ok a → is_public_ip a = negb (existsb (λ n, net_contains n a) RESERVED).
Proof.
  intros A. destruct a as [v|v]; cbn [addr_ok is_public_ip] in *.
  - rewrite is_public_v4_spec, <- mapped_reserved, <- RESERVED_v6 by lia. f_equal.
    apply existsb_ext_in. intros n _. unfold net_contains. by rewrite as_v6_V4.
  - by rewrite RESERVED_v6, is_public_v6_spec.
Qed.

Lemma trusted_proxies_cover_witness :
  ∃ nets, proxies_parse " 10.0.0.0/8 , ::1 " = Some nets ∧
  (proxies_contain nets (V4 (v4_of 10 1 2 3)) = true ↔ ∃ n, n ∈ nets ∧ covered n (V4 (v4_of 10 1 2 3))).
Proof.
  eexists. split; [reflexivity|].
  refine (proj1 (trusted_proxies_cover " 10.0.0.0/8 , ::1 " _ (V4 (v4_of 10 1 2 3)) _ _)).
  - reflexivity.
  - split; [discriminate|reflexivity].
Defined.

Lemma public_is_not_reserved_witness :
  is_public_ip (V4 (v4_of 169 254 169 254)) = negb (existsb (λ n, net_contains n (V4 (v4_of 169 254 169 254))) RESERVED)
  ∧ is_public_ip (V4 (v4_of 169 254 169 254)) = false ∧ is_public_ip (V4 (v4_of 8 8 8 8)) = true.
Proof.
  split; [|split; reflexivity].
  apply (public_is_not_reserved (V4 (v4_of 169 254 169 254))). split; [discriminate|reflexivity].
Defined.

(** * What the allowlist grants *)

(** A host and a port an entry names: the host itself, or a host one or more
    labels below it. *)
Definition grants (p : HostPattern) (h : string) (n : Z) : Prop :=
  n = port p ∧ if subdomains p then ∃ sub, sub ≠ "" ∧ h = sub +:+ "." +:+ host p else h = host p.

(** An entry as [pattern_parse] makes it. *)
Definition pattern_ok (p : HostPattern) : Prop :=
  0 < port p < 65536 ∧ host p ≠ "" ∧ Forall (λ l, label_ok l = true) (split_on "." (host p)).

Lemma str_app_self x p : x +:+ p = p → x = "".
Proof.
  intros E. destruct x as [|c x]; [done|].
  apply (f_equal String.length) in E. rewrite str_length_app in E. cbn in E. lia.
Qed.

Lemma strip_suffix_spec p s x : strip_suffix p s = Some x ↔ s = x +:+ p.
Proof.
  revert x. induction s as [|c s IH]; intros x; cbn [strip_suffix]; case_decide as D.
  - subst p. split; [by intros [= <-]|]. by destruct x.
  - split; [done|]. destruct x; [|done]. rewrite str_app_nil_l. done.
  - subst p. split; [by intros [= <-]|]. intros E. symmetry in E. apply str_app_self in E. by subst.
  - transitivity (∃ y, strip_suffix p s = Some y ∧ x = String c y).
    { destruct (strip_suffix p s); cbn; naive_solver. }
    destruct x as [|d x]; [rewrite str_app_nil_l; naive_solver|]. rewrite str_app_cons.
    split; [intros (y & H%IH & [= -> ->]); by subst s|intros [= <- H]; exists x; split; [by apply IH|done]].
Qed.

Lemma ends_with_spec p s : ends_with p s = true ↔ ∃ x, s = x +:+ p.
Proof.
  induction s as [|c s IH]; cbn; rewrite orb_true_iff, bool_decide_eq_true.
  - split; [intros [E|?]; [by exists ""|done]|]. intros [[|d x] E]; [by left|done].
  - rewrite IH. split.
    + intros [E|[x ->]]; [by exists ""|by exists (String c x)].
    + intros [[|d x] E]; [by left|]. rewrite str_app_cons in E. injection E as -> ->. right. by exists x.
Qed.

Lemma pattern_matches_spec p h n : pattern_matches p h n = true ↔ grants p h n.
Proof.
  unfold pattern_matches, grants. destruct (bool_decide_reflect (port p = n)) as [->|N]; cbn [negb]; [|naive_solver].
  destruct (subdomains p); cbn [negb]; [|rewrite bool_decide_eq_true; naive_solver].
  destruct (strip_suffix (host p) h) as [x|] eqn:E.
  - apply strip_suffix_spec in E as ->. rewrite andb_true_iff, ends_with_spec, Nat.ltb_lt. split.
    + intros [[sub ->] L]. split; [done|]. exists sub. rewrite str_app_assoc. split; [|done].
      intros ->. change (1 < 1)%nat in L. lia.
    + intros [_ (sub & N & E)]. assert (x = sub +:+ ".") as ->.
      { rewrite str_app_assoc in E. apply (strip_suffix_spec (host p)) in E. 
        pose proof (proj2 (strip_suffix_spec (host p) (x +:+ host p) x) eq_refl). congruence. }
      split; [by exists sub|]. rewrite str_length_app. destruct sub; [done|cbn; lia].
  - split; [done|]. intros [_ (sub & _ & X)]. rewrite str_app_assoc in X. apply strip_suffix_spec in X. congruence.
Qed.

Lemma pattern_parse_ok raw p : pattern_parse raw = Some p → pattern_ok p.
Proof.
  unfold pattern_parse. set (r := to_ascii_lowercase _).
  case_decide; [done|]. destruct (_ || _); [done|]. destruct (_ || _); [done|].
  destruct (match rsplit_once ":" r with Some _ => _ | None => _ end) as [[h n]|] eqn:E; [|done].
  cbn [mbind option_bind]. case_bool_decide; [done|].
  destruct (match strip_prefix "*." h with Some _ => _ | None => _ end) as [w h'] eqn:W.
  destruct (_ || str_contains "*" h') eqn:B; [done|].
  destruct (forallb label_ok (split_on "." h')) eqn:L; [|done]. intros [= <-]. split; [|split]; cbn.
  - destruct (rsplit_once ":" r) as [[h2 p2]|]; [|injection E as <- <-; lia].
    destruct (parse_uint 65536 (trim p2)) as [q|] eqn:Q; [|done]. cbn in E. case_decide; [done|].
    injection E as <- <-. apply parse_uint_range in Q; lia.
  - rewrite !orb_false_iff, bool_decide_eq_false in B. by destruct B as [[[? _] _] _].
  - by apply forallb_Forall.
Qed.

(** An outgoing host is allowed exactly when, lowercased and without
    trailing dots, it is what one of the entries of the list grants: the host
    of the entry on the entry's port, or for a wildcard a host at least one
    label below it, never the host itself. Every entry that parses names a
    port between 1 and 65535 and a host of non-empty labels of letters, digits,
    hyphens and underscores. A list with an entry that does not parse is
    refused whole, and an empty list allows nothing. *)
Theorem allowlist_grants raw :
  match allowlist_parse raw with
  | Some ps =>
      Forall pattern_ok ps ∧
      ∀ h n, allows ps h n = true ↔
        ∃ e p, e ∈ entries raw ∧ pattern_parse e = Some p
               ∧ grants p (to_ascii_lowercase (trim_end_matches "." h)) n
  | None => ∃ e, e ∈ entries raw ∧ pattern_parse e = None
  end.
Proof.
  unfold allowlist_parse. destruct (mapM pattern_parse (entries raw)) as [ps|] eqn:P.
  - apply mapM_Some in P.
    assert (F : Forall pattern_ok ps) by (induction P; constructor; eauto using pattern_parse_ok).
    split; [done|]. intros h n. unfold allows. set (g := to_ascii_lowercase _). case_decide as D.
    + split; [done|]. intros (e & p & _ & O%pattern_parse_ok & _ & G). destruct O as (_ & N & _).
      rewrite D in G. destruct (subdomains p); [|congruence]. destruct G as (sub & N' & G). by destruct sub.
    + rewrite existsb_exists. setoid_rewrite pattern_matches_spec. setoid_rewrite <- list_elem_of_In.
      split.
      * intros (p & M & G). apply list_elem_of_lookup in M as [i M].
        destruct (Forall2_lookup_r _ _ _ _ _ P M) as (e & E & X). exists e, p. split_and!; try done.
        by apply list_elem_of_lookup_2 in E.
      * intros (e & p & M & X & G). apply list_elem_of_lookup in M as [i M].
        destruct (Forall2_lookup_l _ _ _ _ _ P M) as (p' & E & X'). assert (p' = p) as -> by congruence.
        exists p. split; [|done]. by apply list_elem_of_lookup_2 in E.
  - apply mapM_None in P. apply Exists_exists in P. naive_solver.
Qed.

Example allowlist_samples :
  ∃ ps, allowlist_parse "api.example.com, *.Example.org:8443" = Some ps
  ∧ allows ps "API.example.com." 443 = true ∧ allows ps "example.org" 8443 = false
  ∧ allows ps "a.b.example.org" 8443 = true ∧ allows ps "a.example.org" 443 = false
  ∧ allowlist_parse "http://x" = None ∧ allowlist_parse "10.0.0.1:443" = None.
Proof. eexists. split; [reflexivity|]. vm_compute. repeat split. Qed.
