(* ===== verification/Sessions.v ===== *)
(** Refresh sessions, [crates/auth/src/sessions.rs]: issuing, rotating and
    revoking refresh tokens.

    Every function of the source is one or a few SQL statements, each atomic
    and run on its own, so a request can be interrupted by others between two
    of them. The statements are functions on the rows of [_sessions]; the
    whole functions compose them, and [step] interleaves them.

    The hash is a parameter: SHA-256, assumed not to collide where a theorem
    says so. What a statement draws from outside, the clock, the random bytes
    and whether the database answers, is its [Env]. Error messages, the user
    agent and the address of a session are not modelled. *)
From S2P Require Import Prelude CoreError.
From stdpp Require Import gmap.

Local Open Scope Z_scope.

(** A row of [_sessions]. Instants are microseconds since the epoch. *)
Record Row := {
  r_id : string;
  r_collection : option string;
  r_user : string;
  r_hash : string;
  r_family : string;
  r_expires : Z;
  r_revoked : option Z;
}.

(** [struct Session]. *)
Record Session := {
  id : string;
  collection_id : string;
  user_id : string;
  family_id : string;
  expires_at : Z;
  revoked : bool;
}.

Abbreviation Table := (list Row).

(** What one statement sees: [now()], whether the database answers, the token
    [generate_token] draws ([None] when the generator fails) and the id
    [new_id] draws. *)
Record Env := { now : Z; answers : bool; drawn : option string; drawn_id : string }.

(** [REFRESH_TOKEN_TTL]: thirty days. *)
Definition REFRESH_TOKEN_TTL : Z := 30 * 24 * 60 * 60.

(** SQL's [nullif(x, '')], and [unwrap_or_default] on the way back. *)
Definition nullif_empty (s : string) : option string := if decide (s = "") then None else Some s.

(** [from_row]. *)
Definition from_row (r : Row) : Session :=
  {| id := r_id r; collection_id := default "" (r_collection r); user_id := r_user r;
     family_id := r_family r; expires_at := r_expires r; revoked := bool_decide (is_Some (r_revoked r)) |}.

Definition revoke_row (at_ : Z) (r : Row) : Row :=
  {| r_id := r_id r; r_collection := r_collection r; r_user := r_user r; r_hash := r_hash r;
     r_family := r_family r; r_expires := r_expires r; r_revoked := Some at_ |}.

Definition unrevoked (r : Row) : Prop := r_revoked r = None.
#[export] Instance unrevoked_dec r : Decision (unrevoked r) := decide (r_revoked r = None).

(** [update ... set revoked_at = now() where revoked_at is null and p]: the
    rows it leaves and those it changed. *)
Definition revoke_where (e : Env) (p : Row → bool) (t : Table) : Table * list Row :=
  ((λ r, if decide (unrevoked r ∧ p r = true) then revoke_row (now e) r else r) <$> t,
   revoke_row (now e) <$> filter (λ r, unrevoked r ∧ p r = true) t).

Section sessions.
Context (hash_token : string → string).

(** The row a new session is. *)
Definition new_row (e : Env) (token collection user family : string) : Row :=
  {| r_id := drawn_id e; r_collection := nullif_empty collection; r_user := user;
     r_hash := hash_token token; r_family := family;
     r_expires := now e + REFRESH_TOKEN_TTL * 1000000; r_revoked := None |}.

(** [issue_in_family]: the insert is refused when it repeats an id or a hash,
    which are unique. *)
Definition issue_in_family (e : Env) (collection user family : string) (t : Table)
    : Table * result (string * Session) :=
  match drawn e with
  | None => (t, Err Internal)
  | Some token =>
      let row := new_row e token collection user family in
      if negb (answers e) || existsb (λ r, bool_decide (r_id r = r_id row) || bool_decide (r_hash r = r_hash row)) t
      then (t, Err Internal)
      else (t ++ [row], Ok (token, from_row row))
  end.

(** [issue]: a login, in a family of its own. *)
Definition issue (e : Env) (family collection user : string) (t : Table)
    : Table * result (string * Session) :=
  issue_in_family e collection user family t.

Definition find_hash (hash : string) (t : Table) : option Row :=
  head (filter (λ r, r_hash r = hash) t).

(** [peek]. *)
Definition peek (e : Env) (token : string) (t : Table) : result (option Session) :=
  if answers e then Ok (from_row <$> find_hash (hash_token token) t) else Err Internal.

(** The conditional update that claims a token. *)
Definition claimable (e : Env) (token : string) (r : Row) : bool :=
  bool_decide (r_hash r = hash_token token) && (now e <? r_expires r).

Definition claim (e : Env) (token : string) (t : Table) : Table * option Session :=
  let '(t, rows) := revoke_where e (claimable e token) t in
  (t, from_row <$> head rows).

(** [revoke_family], [revoke_for_user] and [purge_expired], with the number of
    rows changed. *)
Definition revoke_family (e : Env) (family : string) (t : Table) : Table * result Z :=
  if answers e
  then let '(t, rows) := revoke_where e (λ r, bool_decide (r_family r = family)) t in (t, Ok (len rows))
  else (t, Err Internal).

Definition revoke_for_user (e : Env) (collection user : string) (t : Table) : Table * result Z :=
  if answers e
  then let '(t, rows) := revoke_where e (λ r, bool_decide (r_user r = user)
                                              && bool_decide (r_collection r = nullif_empty collection)) t in
       (t, Ok (len rows))
  else (t, Err Internal).

Definition purge_expired (e : Env) (t : Table) : Table * result Z :=
  if answers e
  then (filter (λ r, now e ≤ r_expires r) t, Ok (len (filter (λ r, r_expires r < now e) t)))
  else (t, Err Internal).

(** [rotate], uninterrupted: the claim, then the insert of the next token or
    the explanation of the refusal, then the revocation of the family. *)
Definition rotate (e1 e2 e3 : Env) (token : string) (t : Table) : Table * result (string * Session) :=
  if negb (answers e1) then (t, Err Internal)
  else
    let '(t, claimed) := claim e1 token t in
    match claimed with
    | Some session => issue_in_family e2 (collection_id session) (user_id session) (family_id session) t
    | None =>
        match peek e2 token t with
        | Err err => (t, Err err)
        | Ok None => (t, Err Unauthorized)
        | Ok (Some session) =>
            if revoked session then
              match revoke_family e3 (family_id session) t with
              | (t, Err err) => (t, Err err)
              | (t, Ok _) => (t, Err Unauthorized)
              end
            else (t, Err Unauthorized)
        end
    end.

(** * Requests in flight *)

(** Where a request is between two of its statements. *)
Inductive Phase :=
  | Claiming (token : string)
  | Inserting (collection user family : string)
  | Explaining (token : string)
  | Revoking (family : string)
  | Finished (r : result (string * Session)).

(** A request and, for a rotation, the token it was sent. *)
Record Task := { presented : option string; phase : Phase }.

(** The next statement of a request. *)
Definition advance (e : Env) (p : Phase) (t : Table) : Table * Phase :=
  match p with
  | Claiming token =>
      if negb (answers e) then (t, Finished (Err Internal))
      else let '(t, claimed) := claim e token t in
           (t, match claimed with
               | Some session => Inserting (collection_id session) (user_id session) (family_id session)
               | None => Explaining token
               end)
  | Inserting collection user family =>
      let '(t, r) := issue_in_family e collection user family t in (t, Finished r)
  | Explaining token =>
      (t, match peek e token t with
          | Err err => Finished (Err err)
          | Ok None => Finished (Err Unauthorized)
          | Ok (Some session) => if revoked session then Revoking (family_id session)
                                 else Finished (Err Unauthorized)
          end)
  | Revoking family =>
      match revoke_family e family t with
      | (t, Err err) => (t, Finished (Err err))
      | (t, Ok _) => (t, Finished (Err Unauthorized))
      end
  | Finished r => (t, Finished r)
  end.

(** The table, the requests, all tokens drawn so far, and the account, its
    collection and its id, whose login started each family. *)
Record State := { table : Table; tasks : list Task; tokens : list string; families : gmap string (string * string) }.

Definition start : State := {| table := []; tasks := []; tokens := []; families := ∅ |}.

(** A statement draws new tokens, of 256 random bits, and only an insert draws
    one; a login draws a new family id. *)
Definition draws (e : Env) (p : Phase) : list string :=
  match p with Inserting _ _ _ => option_list (drawn e) | _ => [] end.

Inductive step : State → State → Prop :=
  | step_login s collection user family :
      families s !! family = None →
      step s {| table := table s; tokens := tokens s; families := <[family := (collection, user)]> (families s);
                tasks := tasks s ++ [{| presented := None; phase := Inserting collection user family |}] |}
  | step_refresh s token :
      step s {| table := table s; tokens := tokens s; families := families s;
                tasks := tasks s ++ [{| presented := Some token; phase := Claiming token |}] |}
  | step_advance s before task after e t p :
      tasks s = before ++ task :: after →
      Forall (λ token, token ∉ tokens s) (draws e (phase task)) →
      advance e (phase task) (table s) = (t, p) →
      step s {| table := t; tokens := draws e (phase task) ++ tokens s; families := families s;
                tasks := before ++ {| presented := presented task; phase := p |} :: after |}
  | step_revoke_user s e collection user t r :
      revoke_for_user e collection user (table s) = (t, r) →
      step s {| table := t; tokens := tokens s; families := families s; tasks := tasks s |}
  | step_revoke_family s e family t r :
      revoke_family e family (table s) = (t, r) →
      step s {| table := t; tokens := tokens s; families := families s; tasks := tasks s |}
  | step_purge s e t r :
      purge_expired e (table s) = (t, r) →
      step s {| table := t; tokens := tokens s; families := families s; tasks := tasks s |}.

Definition reachable (s : State) : Prop := rtc step start s.

End sessions.

(** * Counting usable tokens *)

Definition usable (family : string) (r : Row) : Prop := unrevoked r ∧ r_family r = family.
#[export] Instance usable_dec f r : Decision (usable f r) := _.

(** The sessions of a family that have not been revoked. *)
Definition live (family : string) (t : Table) : nat := length (filter (usable family) t).

(** Rotations of a family between their claim and their insert, and logins
    before theirs. *)
Definition inserting (p : Phase) : option string :=
  match p with Inserting _ _ family => Some family | _ => None end.
Definition inflight (family : string) (l : list Task) : nat :=
  length (filter (λ k, inserting (phase k) = Some family) l).

(** The requests that presented a token and claimed it. *)
Definition winning (p : Phase) : bool :=
  match p with Inserting _ _ _ | Finished (Ok _) => true | _ => false end.
Definition winners (token : string) (l : list Task) : nat :=
  length (filter (λ k, presented k = Some token ∧ winning (phase k) = true) l).

Arguments claim : simpl never.
Arguments issue_in_family : simpl never.
Arguments revoke_family : simpl never.
Arguments peek : simpl never.
Arguments live : simpl never.
Arguments inflight : simpl never.
Arguments winners : simpl never.

Lemma count_app {A} (P : A → Prop) `{!∀ x, Decision (P x)} (l1 l2 : list A) :
  length (filter P (l1 ++ l2)) = (length (filter P l1) + length (filter P l2))%nat.
Proof. by rewrite filter_app, length_app. Qed.

Lemma count_cons {A} (P : A → Prop) `{!∀ x, Decision (P x)} (x : A) l :
  length (filter P (x :: l)) = ((if decide (P x) then 1 else 0) + length (filter P l))%nat.
Proof. rewrite filter_cons. by case_decide. Qed.

Lemma count_none {A} (P : A → Prop) `{!∀ x, Decision (P x)} (l : list A) :
  (∀ x, x ∈ l → ¬ P x) → length (filter P l) = 0%nat.
Proof.
  intros N. destruct (filter P l) as [|x k] eqn:E; [done|]. exfalso.
  assert (X : x ∈ filter P l) by (rewrite E; by left). apply list_elem_of_filter in X as [X I]. by apply (N x).
Qed.

(** Revoking some rows of a table. *)
Definition may_revoke (g : Row → Row) : Prop := ∀ r, g r = r ∨ ∃ a, g r = revoke_row a r.

Lemma live_map g f t : may_revoke g → (live f (g <$> t) ≤ live f t)%nat.
Proof.
  intros G. unfold live. induction t as [|r t IH]; [done|]. cbn [fmap list_fmap]. rewrite !count_cons.
  destruct (G r) as [->|[a ->]]; [lia|]. rewrite (decide_False (P := usable f (revoke_row a r))); [lia|].
  by intros [? _].
Qed.

Lemma live_map_strict g t r a :
  may_revoke g → r ∈ t → unrevoked r → g r = revoke_row a r → (live (r_family r) (g <$> t) < live (r_family r) t)%nat.
Proof.
  intros G R U E. unfold live. induction t as [|q t IH]; [by apply not_elem_of_nil in R|].
  cbn [fmap list_fmap]. rewrite !count_cons. apply elem_of_cons in R as [<-|R].
  - pose proof (live_map g (r_family r) t G) as L. unfold live in L.
    rewrite (decide_True (P := usable (r_family r) r)) by done.
    rewrite E, (decide_False (P := usable _ (revoke_row a r))) by (by intros [? _]). lia.
  - specialize (IH R). destruct (G q) as [->|[b ->]]; [lia|].
    rewrite (decide_False (P := usable _ (revoke_row b q))) by (by intros [? _]). lia.
Qed.

Lemma live_filter P `{!∀ r, Decision (P r)} f t : (live f (filter P t) ≤ live f t)%nat.
Proof.
  unfold live. induction t as [|r t IH]; [done|]. rewrite filter_cons. case_decide; rewrite !count_cons; lia.
Qed.

Lemma live_app f t r : live f (t ++ [r]) = (live f t + if decide (usable f r) then 1 else 0)%nat.
Proof. unfold live. rewrite count_app, count_cons. cbn. lia. Qed.

Lemma live_zero f t : live f t = 0%nat ↔ ∀ r, r ∈ t → r_family r = f → ¬ unrevoked r.
Proof.
  unfold live. split.
  - intros L r R F U. apply nil_length_inv in L.
    assert (X : r ∈ filter (usable f) t) by (by apply list_elem_of_filter). rewrite L in X. by apply not_elem_of_nil in X.
  - intros H. apply count_none. intros r R [U F]. by apply (H r).
Qed.

(** What [revoke_where] does. *)
Definition revoking (e : Env) (p : Row → bool) (r : Row) : Row :=
  if decide (unrevoked r ∧ p r = true) then revoke_row (now e) r else r.

Lemma revoking_may e p : may_revoke (revoking e p).
Proof. intros r. unfold revoking. case_decide; [right; by eexists|by left]. Qed.

Lemma revoke_where_rows e p t : (revoke_where e p t).1 = revoking e p <$> t.
Proof. done. Qed.

Lemma may_revoke_fields g r : may_revoke g →
  r_hash (g r) = r_hash r ∧ r_family (g r) = r_family r ∧ r_user (g r) = r_user r
  ∧ r_collection (g r) = r_collection r ∧ (r_revoked r ≠ None → r_revoked (g r) ≠ None).
Proof. intros G. destruct (G r) as [->|[a ->]]; cbn; naive_solver. Qed.

Local Set Warnings "-register-all,-clear-no-such-hyp".

Section facts.
Context (hash_token : string → string).
Hypothesis hash_token_inj : ∀ a b, hash_token a = hash_token b → a = b.

Local Abbreviation step := (step hash_token).
Local Abbreviation reachable := (reachable hash_token).
Local Abbreviation claim := (claim hash_token).
Local Abbreviation advance := (advance hash_token).
Local Abbreviation issue_in_family := (issue_in_family hash_token).

Local Abbreviation accounts := (gmap string (string * string)).

(** The account a row belongs to. *)
Definition account (r : Row) : string * string := (default "" (r_collection r), r_user r).

(** What is known of the stored rows: hashes are unique and of drawn tokens,
    and a row belongs to the account of its family. *)
Definition rows_ok (toks : list string) (fams : accounts) (t : Table) : Prop :=
  NoDup (r_hash <$> t)
  ∧ ∀ r, r ∈ t → (fams !! r_family r = Some (account r) ∧ r_collection r ≠ Some "")
      ∧ ∃ token, token ∈ toks ∧ r_hash r = hash_token token.

Lemma rows_ok_map g toks fams t : may_revoke g → rows_ok toks fams t → rows_ok toks fams (g <$> t).
Proof.
  intros G [N R]. split.
  - rewrite <- list_fmap_compose. erewrite list_fmap_ext; [exact N|].
    intros i r _. cbn. by destruct (may_revoke_fields g r G) as [-> _].
  - intros q Q. apply list_elem_of_fmap in Q as (r & -> & Q).
    destruct (may_revoke_fields g r G) as (E1 & E2 & E3 & E4 & _). unfold account. rewrite E1, E2, E3, E4. by apply R.
Qed.

Lemma rows_ok_filter P `{!∀ r, Decision (P r)} toks fams t : rows_ok toks fams t → rows_ok toks fams (filter P t).
Proof.
  intros [N R]. split; [|by intros r [_ ?]%list_elem_of_filter; apply R].
  eapply sublist_NoDup; [exact N|]. apply fmap_sublist, sublist_filter.
Qed.

Lemma rows_ok_weaken toks toks' fams fams' t :
  toks ⊆ toks' → fams ⊆ fams' → rows_ok toks fams t → rows_ok toks' fams' t.
Proof.
  intros T F [N R]. split; [done|]. intros r X. destruct (R r X) as [[? ?] (k & ? & ?)].
  split; [split; [by eapply lookup_weaken|done]|]. exists k. set_solver.
Qed.

(** ** The statements *)

Lemma claimable_spec e token r :
  claimable hash_token e token r = true ↔ r_hash r = hash_token token ∧ now e < r_expires r.
Proof. unfold claimable. by rewrite andb_true_iff, bool_decide_eq_true, Z.ltb_lt. Qed.

Local Abbreviation claimable := (claimable hash_token).

Lemma claim_None e token t t' : claim e token t = (t', None) → t' = t.
Proof.
  unfold claim. destruct (revoke_where e (claimable e token) t) as [t1 rows] eqn:E. intros [= <- Z].
  injection E as <- <-. rewrite <- (list_fmap_id t) at 2. apply list_fmap_ext. intros i r L.
  case_decide as D; [|done]. exfalso. apply list_elem_of_lookup_2 in L.
  assert (X : r ∈ filter (λ r, unrevoked r ∧ claimable e token r = true) t) by (by apply list_elem_of_filter).
  destruct (filter _ t); [by apply not_elem_of_nil in X|done].
Qed.

Lemma hash_unique t r q : NoDup (r_hash <$> t) → r ∈ t → q ∈ t → r_hash q = r_hash r → q = r.
Proof.
  intros N R Q H. apply list_elem_of_lookup in R as [i R]. apply list_elem_of_lookup in Q as [j Q].
  assert (j = i) as ->; [|congruence]. eapply (NoDup_lookup _ j i (r_hash r)); [exact N|..].
  - rewrite list_lookup_fmap, Q. cbn. by rewrite H.
  - by rewrite list_lookup_fmap, R.
Qed.

Lemma claim_Some e token t t' session :
  NoDup (r_hash <$> t) → claim e token t = (t', Some session) →
  ∃ r, r ∈ t ∧ unrevoked r ∧ r_hash r = hash_token token ∧ now e < r_expires r
    ∧ session = from_row (revoke_row (now e) r)
    ∧ t' = revoking e (claimable e token) <$> t ∧ revoking e (claimable e token) r = revoke_row (now e) r
    ∧ (∀ q, q ∈ t' → r_hash q = hash_token token → ¬ unrevoked q).
Proof.
  unfold claim. destruct (revoke_where e (claimable e token) t) as [t1 rows] eqn:E. intros N [= <- Z].
  injection E as <- <-.
  destruct (filter _ t) as [|r l] eqn:F; [done|]. cbn in Z. injection Z as <-.
  assert (X : r ∈ filter (λ r, unrevoked r ∧ claimable e token r = true) t) by (rewrite F; by left).
  apply list_elem_of_filter in X as [[U P] X]. pose proof P as P'.
  apply claimable_spec in P' as [H L].
  assert (V : revoking e (claimable e token) r = revoke_row (now e) r) by (unfold revoking; by rewrite decide_True).
  exists r. split_and!; try done.
  intros q Q Hq. apply list_elem_of_fmap in Q as (q' & -> & Q). fold (revoking e (claimable e token) q') in *.
  assert (q' = r) as ->.
  { apply (hash_unique t); [done..|]. destruct (may_revoke_fields _ q' (revoking_may e (claimable e token))) as [E _].
    congruence. }
  rewrite V. by intros ?.
Qed.

Lemma issue_Ok e c u f t t' token session :
  issue_in_family e c u f t = (t', Ok (token, session)) →
  drawn e = Some token ∧ t' = t ++ [new_row hash_token e token c u f] ∧ session = from_row (new_row hash_token e token c u f)
  ∧ (∀ r, r ∈ t → r_hash r ≠ hash_token token).
Proof.
  unfold issue_in_family. destruct (drawn e) as [tok|]; [|done].
  destruct (negb (answers e)); cbn [orb]; [done|].
  destruct (existsb _ t) eqn:E; [done|]. intros [= <- -> <-]. split_and!; try done.
  intros r R H. assert (X : existsb (λ r, bool_decide (r_id r = r_id (new_row hash_token e token c u f))
      || bool_decide (r_hash r = r_hash (new_row hash_token e token c u f))) t = true); [|congruence].
  apply existsb_exists. exists r. split; [by apply list_elem_of_In|]. apply orb_true_iff. right. by apply bool_decide_eq_true.
Qed.

Lemma issue_Err e c u f t t' err : issue_in_family e c u f t = (t', Err err) → t' = t.
Proof. unfold issue_in_family. destruct (drawn e); [|by intros [= <-]]. destruct (_ || _); [by intros [= <-]|done]. Qed.

(** ** The invariant *)

Definition task_ok (fams : accounts) (k : Task) : Prop :=
  match phase k with
  | Claiming token => presented k = Some token
  | Inserting collection user family => fams !! family = Some (collection, user)
  | Finished (Ok (_, session)) => fams !! family_id session = Some (collection_id session, user_id session)
  | _ => True
  end.

Definition spent (s : State) (token : string) : Prop :=
  token ∈ tokens s ∧ ∀ r, r ∈ table s → r_hash r = hash_token token → ¬ unrevoked r.

Record inv (s : State) : Prop := {
  inv_rows : rows_ok (tokens s) (families s) (table s);
  inv_tasks : ∀ k, k ∈ tasks s → task_ok (families s) k;
  inv_usable : ∀ f, (live f (table s) + inflight f (tasks s) ≤ 1)%nat;
  inv_winners : ∀ token, (winners token (tasks s) ≤ 1)%nat ∧ ((0 < winners token (tasks s))%nat → spent s token);
}.

Lemma task_ok_weaken fams fams' k : fams ⊆ fams' → task_ok fams k → task_ok fams' k.
Proof.
  intros F. unfold task_ok. destruct (phase k) as [?|???|?|?|[[??]|?]]; try done; intros; by eapply lookup_weaken.
Qed.

(** A family nobody has used yet. *)
Lemma unused_family s f : inv s → families s !! f = None → live f (table s) = 0%nat ∧ inflight f (tasks s) = 0%nat.
Proof.
  intros I F. split.
  - apply live_zero. intros r R E. destruct (inv_rows s I) as [_ X]. destruct (X r R) as [[Y _] _]. congruence.
  - apply count_none. intros k K E. pose proof (inv_tasks s I k K) as T. unfold task_ok in T.
    destruct (phase k); try done. cbn in E. injection E as ->. congruence.
Qed.

(** Revoking rows, and deleting them. *)
Lemma inv_revoke s g : may_revoke g → inv s →
  inv {| table := g <$> table s; tokens := tokens s; families := families s; tasks := tasks s |}.
Proof.
  intros G [R T U W]. split; cbn; [by apply rows_ok_map|done|..].
  - intros f. pose proof (live_map g f (table s) G). specialize (U f). lia.
  - intros token. destruct (W token) as [W1 W2]. split; [done|]. intros [X Y]%W2. split; [done|]. cbn.
    intros q Q H. apply list_elem_of_fmap in Q as (r & -> & Q).
    destruct (may_revoke_fields g r G) as (E & _ & _ & _ & N). apply N, Y; [done|congruence].
Qed.

Lemma inv_delete s P `{!∀ r, Decision (P r)} : inv s →
  inv {| table := filter P (table s); tokens := tokens s; families := families s; tasks := tasks s |}.
Proof.
  intros [R T U W]. split; cbn; [by apply rows_ok_filter|done|..].
  - intros f. specialize (U f). pose proof (live_filter P f (table s)). lia.
  - intros token. destruct (W token) as [W1 W2]. split; [done|]. intros [X Y]%W2. split; [done|]. cbn.
    intros q [_ Q]%list_elem_of_filter. by apply Y.
Qed.

(** ** The steps of a request *)

Lemma inflight_mid f before k after :
  inflight f (before ++ k :: after)
  = (inflight f before + (if decide (inserting (phase k) = Some f) then 1 else 0) + inflight f after)%nat.
Proof. unfold inflight. rewrite count_app, count_cons. lia. Qed.

Lemma winners_mid token before k after :
  winners token (before ++ k :: after)
  = (winners token before
     + (if decide (presented k = Some token ∧ winning (phase k) = true) then 1 else 0) + winners token after)%nat.
Proof. unfold winners. rewrite count_app, count_cons. lia. Qed.

(** A statement that only revokes, and moves its request to a phase that
    neither inserts nor has won. *)
Lemma table_quiet s g before k after p :
  inv s → may_revoke g → tasks s = before ++ k :: after →
  inserting p = None → winning p = false → task_ok (families s) {| presented := presented k; phase := p |} →
  inv {| table := g <$> table s; tokens := tokens s; families := families s;
         tasks := before ++ {| presented := presented k; phase := p |} :: after |}.
Proof.
  intros I G E N W O. destruct (inv_revoke s g G I) as [R T U V]. cbn in *. rewrite E in *.
  split; cbn; [done|..].
  - intros x X. apply elem_of_app in X as [X|X]; [apply T; set_solver|].
    apply elem_of_cons in X as [->|X]; [done|apply T; set_solver].
  - intros f. specialize (U f). rewrite inflight_mid in *. cbn. rewrite N.
    rewrite (decide_False (P := None = Some f)) by done. destruct (decide _); lia.
  - intros token. destruct (V token) as [V1 V2]. rewrite winners_mid in *. cbn. rewrite W.
    rewrite (decide_False (P := _ ∧ false = true)) by naive_solver. destruct (decide _); [|by split].
    split; [lia|]. intros L. apply V2. lia.
Qed.

Lemma inv_claim s before k after e token t session :
  inv s → tasks s = before ++ k :: after → phase k = Claiming token →
  claim e token (table s) = (t, Some session) →
  inv {| table := t; tokens := tokens s; families := families s;
         tasks := before ++ {| presented := presented k;
                               phase := Inserting (collection_id session) (user_id session) (family_id session) |} :: after |}.
Proof.
  intros I E P C. pose proof (inv_rows s I) as [N R].
  destruct (claim_Some _ _ _ _ _ N C) as (r & X & Ur & H & L & -> & -> & V & S).
  pose proof (inv_tasks s I k ltac:(rewrite E; set_solver)) as O. unfold task_ok in O. rewrite P in O.
  destruct (R r X) as [[A _] (tok & D & H')].
  assert (tok = token) as -> by (apply hash_token_inj; congruence).
  destruct (inv_revoke s _ (revoking_may e (claimable e token)) I) as [R' T' U' V']. cbn in *.
  rewrite E in *. split; cbn; [done|..].
  - intros x Y. apply elem_of_app in Y as [Y|Y]; [apply T'; set_solver|].
    apply elem_of_cons in Y as [->|Y]; [done|apply T'; set_solver].
  - intros f. pose proof (inv_usable s I f) as U. rewrite E, inflight_mid, P in U. rewrite inflight_mid. cbn in U |- *.
    rewrite (decide_False (P := None = Some f)) in U by done.
    pose proof (live_map _ f (table s) (revoking_may e (claimable e token))).
    case_decide as F; [|lia]. injection F as <-.
    pose proof (live_map_strict _ _ _ _ (revoking_may e (claimable e token)) X Ur V). lia.
  - intros k'. pose proof (inv_winners s I k') as [W1 W2]. rewrite E, winners_mid, P in W1, W2. rewrite winners_mid.
    cbn in W1, W2 |- *. rewrite (decide_False (P := _ ∧ false = true)) in W1, W2 by naive_solver.
    destruct (decide (presented k = Some k' ∧ true = true)) as [[F _]|].
    + rewrite O in F. injection F as <-.
      assert (Z : (winners token before + 0 + winners token after = 0)%nat).
      { destruct (decide (0 < winners token before + 0 + winners token after)%nat) as [L'|]; [|lia].
        apply W2 in L' as [_ L']. by destruct (L' r X H). }
      split; [lia|]. intros _. by split.
    + destruct (V' k') as [V1 V2]. rewrite winners_mid, P in V1, V2. cbn in V1, V2.
      rewrite (decide_False (P := _ ∧ false = true)) in V1, V2 by naive_solver. by split.
Qed.

Lemma inv_insert s before k after e c u f t token session :
  inv s → tasks s = before ++ k :: after → phase k = Inserting c u f → token ∉ tokens s →
  issue_in_family e c u f (table s) = (t, Ok (token, session)) →
  inv {| table := t; tokens := token :: tokens s; families := families s;
         tasks := before ++ {| presented := presented k; phase := Finished (Ok (token, session)) |} :: after |}.
Proof.
  intros I E P D C. apply issue_Ok in C as (_ & -> & -> & F).
  pose proof (inv_rows s I) as [N R].
  pose proof (inv_tasks s I k ltac:(rewrite E; set_solver)) as O. unfold task_ok in O. rewrite P in O.
  set (r := new_row hash_token e token c u f).
  assert (A : account r = (c, u)).
  { unfold account, r, new_row, nullif_empty. cbn [r_collection r_user]. case_decide; by subst. }
  split; cbn.
  - split.
    + rewrite fmap_app. apply NoDup_app. split; [done|]. split; [|apply NoDup_singleton].
      intros x X. apply list_elem_of_fmap in X as (q & -> & X). intros Y%list_elem_of_singleton. by apply (F q).
    + intros q [Q|Q%list_elem_of_singleton]%elem_of_app.
      * destruct (R q Q) as [? (y & ? & ?)]. split; [done|]. exists y. set_solver.
      * subst q. rewrite A. split; [split; [done|]|exists token; set_solver].
        cbn. unfold nullif_empty. case_decide; congruence.
  - intros x Y. apply elem_of_app in Y as [Y|Y]; [apply (inv_tasks s I); rewrite E; set_solver|].
    apply elem_of_cons in Y as [->|Y]; [|apply (inv_tasks s I); rewrite E; set_solver].
    cbn. rewrite O. unfold account in A. cbn in A. by rewrite <- A.
  - intros f'. pose proof (inv_usable s I f') as U. rewrite E, inflight_mid, P in U. cbn in U.
    rewrite live_app, inflight_mid. cbn. rewrite (decide_False (P := None = Some f')) by done.
    unfold usable at 1. cbn. destruct (decide (unrevoked r ∧ f = f')) as [[_ ->]|]; [rewrite decide_True in U by done; lia|].
    destruct (decide _) in U; lia.
  - intros k'. pose proof (inv_winners s I k') as [W1 W2]. rewrite E, winners_mid, P in W1, W2. rewrite winners_mid.
    cbn in W1, W2 |- *. split; [done|]. intros [X Y]%W2. split; [set_solver|]. cbn.
    intros q [Q|Q%list_elem_of_singleton]%elem_of_app; [by apply Y|]. subst q. cbn. intros ->%hash_token_inj. done.
Qed.

Lemma inv_insert_failed s before k after c u f err toks :
  inv s → tasks s = before ++ k :: after → phase k = Inserting c u f →
  inv {| table := table s; tokens := toks ++ tokens s; families := families s;
         tasks := before ++ {| presented := presented k; phase := Finished (Err err) |} :: after |}.
Proof.
  intros I E P. split; cbn.
  - eapply rows_ok_weaken; [| |apply (inv_rows s I)]; [set_solver|done].
  - intros x Y. apply elem_of_app in Y as [Y|Y]; [apply (inv_tasks s I); rewrite E; set_solver|].
    apply elem_of_cons in Y as [->|Y]; [done|apply (inv_tasks s I); rewrite E; set_solver].
  - intros f'. pose proof (inv_usable s I f') as U. rewrite E, inflight_mid, P in U. rewrite inflight_mid. cbn.
    rewrite (decide_False (P := None = Some f')) by done. destruct (decide _) in U; lia.
  - intros k'. pose proof (inv_winners s I k') as [W1 W2]. rewrite E, winners_mid, P in W1, W2. rewrite winners_mid.
    cbn in W1, W2 |- *. rewrite (decide_False (P := _ ∧ false = true)) by naive_solver.
    split; [destruct (decide _) in W1; lia|]. intros L. destruct W2 as [X Y]; [destruct (decide _); lia|].
    split; [set_solver|done].
Qed.

Lemma winners_snoc token l k :
  winning (phase k) = false → winners token (l ++ [k]) = winners token l.
Proof.
  intros W. unfold winners. rewrite count_app, count_cons, W.
  rewrite (decide_False (P := _ ∧ false = true)) by naive_solver. cbn. lia.
Qed.

Lemma inv_login s c u f : inv s → families s !! f = None →
  inv {| table := table s; tokens := tokens s; families := <[f := (c, u)]> (families s);
         tasks := tasks s ++ [{| presented := None; phase := Inserting c u f |}] |}.
Proof.
  intros I F. assert (S : families s ⊆ <[f := (c, u)]> (families s)) by by apply insert_subseteq.
  split; cbn.
  - eapply rows_ok_weaken; [done|exact S|apply (inv_rows s I)].
  - intros k [K|K%list_elem_of_singleton]%elem_of_app.
    + eapply task_ok_weaken; [exact S|]. by apply (inv_tasks s I).
    + subst k. cbn. by rewrite lookup_insert_eq.
  - intros f'. pose proof (inv_usable s I f') as U. rewrite inflight_mid. cbn.
    case_decide as D; [|change (inflight f' []) with 0%nat; lia]. injection D as <-.
    destruct (unused_family s f I F) as [-> ->]. change (inflight f []) with 0%nat. lia.
  - intros k'. pose proof (inv_winners s I k') as [W1 W2]. rewrite winners_mid. cbn.
    rewrite (decide_False (P := None = Some k' ∧ _)) by naive_solver. change (winners k' []) with 0%nat.
    rewrite !Nat.add_0_r. by split.
Qed.

Lemma inv_refresh s token : inv s →
  inv {| table := table s; tokens := tokens s; families := families s;
         tasks := tasks s ++ [{| presented := Some token; phase := Claiming token |}] |}.
Proof.
  intros [R T U W]. split; cbn; [done|..].
  - intros k [K|K%list_elem_of_singleton]%elem_of_app; [by apply T|by subst k].
  - intros f. specialize (U f). rewrite inflight_mid. cbn.
    rewrite (decide_False (P := None = Some f)) by done. change (inflight f []) with 0%nat. lia.
  - intros k'. specialize (W k'). by rewrite winners_snoc.
Qed.

(** The ways a statement of a request goes. *)
Lemma inv_advance s before k after e t p :
  inv s → tasks s = before ++ k :: after → Forall (λ token, token ∉ tokens s) (draws e (phase k)) →
  advance e (phase k) (table s) = (t, p) →
  inv {| table := t; tokens := draws e (phase k) ++ tokens s; families := families s;
         tasks := before ++ {| presented := presented k; phase := p |} :: after |}.
Proof.
  intros I E D A.
  assert (Q : may_revoke (λ r, r)) by (intros r; by left).
  assert (Stay : ∀ p', inserting p' = None → winning p' = false →
    task_ok (families s) {| presented := presented k; phase := p' |} →
    inv {| table := table s; tokens := tokens s; families := families s;
           tasks := before ++ {| presented := presented k; phase := p' |} :: after |}).
  { intros p' N W O. rewrite <- (list_fmap_id (table s)). by apply (table_quiet s Datatypes.id). }
  pose proof (inv_tasks s I k ltac:(rewrite E; set_solver)) as O.
  destruct (phase k) as [token|c u f|token|f|r] eqn:P; cbn [draws app] in *.
  - cbn in A. destruct (negb (answers e)); [injection A as <- <-; by apply Stay|].
    destruct (claim e token (table s)) as [t' [session|]] eqn:C; injection A as <- <-.
    + by apply (inv_claim s before k after e token).
    + apply claim_None in C as ->. by apply Stay.
  - cbn in A.
    destruct (issue_in_family e c u f (table s)) as [t' [[token session]|err]] eqn:C; injection A as <- <-.
    + pose proof (issue_Ok _ _ _ _ _ _ _ _ C) as (X & _). rewrite X in *. cbn in *.
      apply Forall_cons in D as [D _]. by apply (inv_insert s before k after e c u f).
    + apply issue_Err in C as ->. by apply (inv_insert_failed s before k after c u f).
  - cbn in A. injection A as <- <-. destruct (peek hash_token e token (table s)) as [[session|]|]; try by apply Stay.
    destruct (revoked session); by apply Stay.
  - cbn in A. unfold revoke_family in A. destruct (answers e); injection A as <- <-; [|by apply Stay].
    apply (table_quiet s (revoking e (λ r, bool_decide (r_family r = f))) before k after); try done. apply revoking_may.
  - cbn in A. injection A as <- <-. replace {| presented := presented k; phase := Finished r |} with k
      by (destruct k; cbn in *; congruence). rewrite <- E. by destruct s.
Qed.

Lemma inv_step s s' : step s s' → inv s → inv s'.
Proof.
  intros St I. destruct St as [s c u f F|s token|s before k after e t p E D A|s e c u t r R|s e f t r R|s e t r R].
  - by apply inv_login.
  - by apply inv_refresh.
  - eapply inv_advance; eauto.
  - unfold revoke_for_user in R. destruct (answers e); injection R as <- <-; [|by destruct s].
    eapply (inv_revoke s (revoking e _)); [apply revoking_may|done].
  - unfold revoke_family in R. destruct (answers e); injection R as <- <-; [|by destruct s].
    eapply (inv_revoke s (revoking e _)); [apply revoking_may|done].
  - unfold purge_expired in R. destruct (answers e); injection R as <- <-; [|by destruct s]. by apply inv_delete.
Qed.

Lemma inv_start : inv start.
Proof.
  split; cbn; [split; [constructor|by intros ? ?%not_elem_of_nil]|by intros ? ?%not_elem_of_nil|by intros; apply Nat.le_0_l|].
  intros token. split; [apply Nat.le_0_l|]. intros L. by apply Nat.lt_irrefl in L.
Qed.

Lemma reachable_table s : reachable s → inv s.
Proof.
  unfold Sessions.reachable. generalize inv_start. generalize start. intros s0 I R.
  induction R as [|x y z St _ IH]; eauto using inv_step.
Qed.

(** ** What steps leave behind *)

Lemma advance_table e p t t' p' : advance e p t = (t', p') →
  (∃ g, may_revoke g ∧ t' = g <$> t)
  ∨ ∃ c u f token session, p = Inserting c u f ∧ drawn e = Some token ∧ p' = Finished (Ok (token, session))
      ∧ t' = t ++ [new_row hash_token e token c u f].
Proof.
  intros A. assert (Q : ∃ g, may_revoke g ∧ t = g <$> t)
    by (exists Datatypes.id; split; [intros r; by left|by rewrite list_fmap_id]).
  destruct p as [token|c u f|token|f|r]; cbn in A.
  - destruct (negb _); [by injection A as <- _; left|]. injection A as <- _. left.
    exists (revoking e (claimable e token)). split; [apply revoking_may|done].
  - destruct (issue_in_family e c u f t) as [t1 [[token session]|err]] eqn:C; injection A as <- <-.
    + apply issue_Ok in C as (X & -> & _). right. by exists c, u, f, token, session.
    + apply issue_Err in C as ->. by left.
  - injection A as <- _. by left.
  - unfold revoke_family in A. destruct (answers e); injection A as <- _; [|by left]. left.
    exists (revoking e (λ r, bool_decide (r_family r = f))). split; [apply revoking_may|done].
  - injection A as <- _. by left.
Qed.

Lemma revoke_user_table e c u t t' r : revoke_for_user e c u t = (t', r) → ∃ g, may_revoke g ∧ t' = g <$> t.
Proof.
  unfold revoke_for_user. destruct (answers e); intros [= <- _].
  - eexists (revoking e _). split; [apply revoking_may|reflexivity].
  - exists Datatypes.id. split; [intros r'; by left|by rewrite list_fmap_id].
Qed.

Lemma revoke_family_table e f t t' r : revoke_family e f t = (t', r) → ∃ g, may_revoke g ∧ t' = g <$> t.
Proof.
  unfold revoke_family. destruct (answers e); intros [= <- _].
  - eexists (revoking e _). split; [apply revoking_may|reflexivity].
  - exists Datatypes.id. split; [intros r'; by left|by rewrite list_fmap_id].
Qed.

Definition spent_in (t : Table) (token : string) : Prop := ∀ r, r ∈ t → r_hash r = hash_token token → ¬ unrevoked r.

Lemma spent_map g t token : may_revoke g → spent_in t token → spent_in (g <$> t) token.
Proof.
  intros G Sp q Q H. apply list_elem_of_fmap in Q as (r & -> & Q).
  destruct (may_revoke_fields g r G) as (E & _ & _ & _ & N). apply N, Sp; [done|congruence].
Qed.

Lemma spent_step s s' token : step s s' → spent s token → spent s' token.
Proof.
  intros St [T Sp]. fold (spent_in (table s) token) in Sp.
  destruct St as [s c u f F|s tok|s before k after e t p E D A|s e c u t r R|s e f t r R|s e t r R]; try (split; done).
  - split; [set_solver|]. apply advance_table in A as [(g & G & ->)|(c & u & f & tok & session & X & Y & _ & ->)];
      [by apply spent_map|]. cbn. rewrite X in D. cbn in D. rewrite Y in D. cbn in D.
    apply Forall_cons in D as [D _].
    intros q [Q|Q%list_elem_of_singleton]%elem_of_app; [by apply Sp|]. subst q. cbn. intros ->%hash_token_inj. done.
  - apply revoke_user_table in R as (g & G & ->). split; [done|]. by apply spent_map.
  - apply revoke_family_table in R as (g & G & ->). split; [done|]. by apply spent_map.
  - split; [done|]. cbn. unfold purge_expired in R. destruct (answers e); injection R as <- _; [|done].
    intros q [_ Q]%list_elem_of_filter. by apply Sp.
Qed.

(** A login apart, the sessions a family can still rotate never grow in
    number. *)
Definition usable_count (f : string) (s : State) : nat := (live f (table s) + inflight f (tasks s))%nat.

Lemma usable_advance s before k after e t p f :
  inv s → tasks s = before ++ k :: after → advance e (phase k) (table s) = (t, p) →
  (live f t + inflight f (before ++ {| presented := presented k; phase := p |} :: after) ≤ usable_count f s)%nat.
Proof.
  intros I E A. unfold usable_count. rewrite E, !inflight_mid. cbn.
  destruct (phase k) as [token|c u f'|token|f'|r] eqn:P; cbn in A |- *.
  - rewrite (decide_False (P := None = Some f)) by done.
    destruct (negb (answers e)); [injection A as <- <-; cbn; rewrite (decide_False (P := None = Some f)) by done; lia|].
    destruct (claim e token (table s)) as [t' [session|]] eqn:C; injection A as <- <-; cbn.
    + destruct (claim_Some _ _ _ _ _ (proj1 (inv_rows s I)) C) as (r & X & Ur & _ & _ & -> & -> & V & _). cbn.
      pose proof (live_map _ f (table s) (revoking_may e (claimable e token))).
      case_decide as F; [|lia]. injection F as <-.
      pose proof (live_map_strict _ _ _ _ (revoking_may e (claimable e token)) X Ur V). lia.
    + apply claim_None in C as ->. rewrite (decide_False (P := None = Some f)) by done. lia.
  - destruct (issue_in_family e c u f' (table s)) as [t' [[token session]|err]] eqn:C; injection A as <- <-; cbn.
    + apply issue_Ok in C as (_ & -> & _). rewrite live_app, (decide_False (P := None = Some f)) by done.
      case_decide as U; [destruct U as [_ <-]; cbn; rewrite decide_True by done; lia|lia].
    + apply issue_Err in C as ->. rewrite (decide_False (P := None = Some f)) by done. lia.
  - injection A as <- <-. rewrite (decide_False (P := inserting _ = Some f)); [lia|].
    destruct (peek hash_token e token (table s)) as [[session|]|]; [destruct (revoked session)| |]; done.
  - destruct (revoke_family e f' (table s)) as [t' r] eqn:R. pose proof (revoke_family_table _ _ _ _ _ R) as (g & G & ->).
    pose proof (live_map g f (table s) G).
    destruct r; injection A as <- <-; cbn; rewrite (decide_False (P := None = Some f)) by done; lia.
  - injection A as <- <-. cbn. rewrite (decide_False (P := None = Some f)) by done. lia.
Qed.

Lemma usable_step s s' f :
  inv s → step s s' → families s !! f ≠ None → families s' !! f ≠ None ∧ (usable_count f s' ≤ usable_count f s)%nat.
Proof.
  intros I St F. unfold usable_count.
  destruct St as [s c u f' F'|s tok|s before k after e t p E D A|s e c u t r R|s e f' t r R|s e t r R]; cbn.
  - assert (f' ≠ f) by congruence. rewrite lookup_insert_ne by done. split; [done|].
    rewrite inflight_mid. cbn. rewrite (decide_False (P := Some f' = Some f)) by congruence.
    change (inflight f []) with 0%nat. lia.
  - split; [done|]. rewrite inflight_mid. cbn. rewrite (decide_False (P := None = Some f)) by done.
    change (inflight f []) with 0%nat. lia.
  - split; [done|]. by eapply usable_advance.
  - apply revoke_user_table in R as (g & G & ->). pose proof (live_map g f (table s) G). split; [done|]. lia.
  - apply revoke_family_table in R as (g & G & ->). pose proof (live_map g f (table s) G). split; [done|]. lia.
  - split; [done|]. unfold purge_expired in R. destruct (answers e); injection R as <- _; [|lia].
    pose proof (live_filter (λ r, now e ≤ r_expires r) f (table s)). lia.
Qed.

Lemma usable_run s s' f :
  inv s → rtc step s s' → families s !! f ≠ None → (usable_count f s' ≤ usable_count f s)%nat.
Proof.
  intros I R. induction R as [s|s s1 s2 St R IH]; intros F; [lia|].
  destruct (usable_step s s1 f I St F) as [F1 L]. specialize (IH (inv_step _ _ St I) F1). lia.
Qed.

(** * What holds in every run *)

(** C11. One usable refresh token per login, whatever requests interleave: a family
    never has two sessions that can still be rotated, counting a rotation
    between its claim and its insert as the session it is about to store; and
    every session, stored or handed out, belongs to the account whose login
    started its family. *)
Theorem one_usable_token s :
  reachable s →
  (∀ f, (live f (table s) + inflight f (tasks s) ≤ 1)%nat)
  ∧ (∀ r, r ∈ table s → families s !! r_family r = Some (account r))
  ∧ ∀ k token session, k ∈ tasks s → phase k = Finished (Ok (token, session)) →
      families s !! family_id session = Some (collection_id session, user_id session).
Proof.
  intros I%reachable_table. split_and!.
  - apply (inv_usable s I).
  - intros r R. by apply (inv_rows s I).
  - intros k token session K P. pose proof (inv_tasks s I k K) as O. unfold task_ok in O. by rewrite P in O.
Qed.

(** A refresh token buys at most one next token: of all the requests that
    ever presented it, at most one claimed it, and from then on it is revoked
    or gone for good. *)
Theorem token_rotates_once s token :
  reachable s →
  (winners token (tasks s) ≤ 1)%nat
  ∧ (winners token (tasks s) = 1%nat →
     ∀ s', rtc step s s' → ∀ r, r ∈ table s' → r_hash r = hash_token token → r_revoked r ≠ None).
Proof.
  intros R. pose proof (reachable_table s R) as I. split; [by apply (inv_winners s I)|].
  intros W s' S. assert (Sp : spent s token) by (apply (inv_winners s I); lia).
  assert (Sp' : spent s' token) by (clear - S Sp hash_token_inj; induction S; [done|eauto using spent_step]).
  intros r X H. by apply Sp'.
Qed.

(** The state after an account's sessions, or a family's, were revoked. *)
Definition with_table (s : State) (t : Table) : State :=
  {| table := t; tasks := tasks s; tokens := tokens s; families := families s |}.

(** Revocation lasts: after the sessions of an account are revoked (a password
    change) or those of a family (a replayed token), no request ever gets
    another token of theirs, except a rotation that had already claimed its
    token and not yet stored the next: that one is left usable. *)
Theorem revocation_lasts s t e s' :
  reachable s → answers e = true →
  (∀ collection user f n,
     revoke_for_user e collection user (table s) = (t, n) → families s !! f = Some (collection, user) →
     rtc step (with_table s t) s' → (live f (table s') + inflight f (tasks s') ≤ inflight f (tasks s))%nat)
  ∧ (∀ f n, revoke_family e f (table s) = (t, n) → families s !! f ≠ None →
     rtc step (with_table s t) s' → (live f (table s') + inflight f (tasks s') ≤ inflight f (tasks s))%nat).
Proof.
  intros I%reachable_table An. split.
  - intros c u f n R F S. pose proof (revoke_user_table _ _ _ _ _ _ R) as (g & G & E).
    pose proof (inv_revoke s g G I) as I'. rewrite <- E in I'.
    assert (L : live f t = 0%nat).
    { apply live_zero. unfold revoke_for_user in R. rewrite An in R. injection R as <- _.
      intros q Q Hf U. apply list_elem_of_fmap in Q as (r & -> & Q).
      destruct (inv_rows s I) as [_ X]. destruct (X r Q) as [[Y Z] _]. case_decide as D; [done|]. apply D. split; [done|].
      rewrite Hf, F in Y. injection Y as -> ->. unfold nullif_empty.
      rewrite !bool_decide_eq_true_2; [done| |done].
      destruct (r_collection r) eqn:Rc; cbn; [|done].
      rewrite decide_False; [done|]. intros ->. by apply Z. }
    pose proof (usable_run (with_table s t) s' f I' S ltac:(cbn; congruence)) as X. unfold usable_count in X. cbn in X. lia.
  - intros f n R F S. pose proof (revoke_family_table _ _ _ _ _ R) as (g & G & E).
    pose proof (inv_revoke s g G I) as I'. rewrite <- E in I'.
    assert (L : live f t = 0%nat).
    { apply live_zero. unfold revoke_family in R. rewrite An in R. injection R as <- _.
      intros q Q Hf U. apply list_elem_of_fmap in Q as (r & -> & Q). case_decide as D; [done|]. apply D. split; [done|].
      by apply bool_decide_eq_true. }
    pose proof (usable_run (with_table s t) s' f I' S ltac:(done)) as X. unfold usable_count in X. cbn in X. lia.
Qed.

(** Uninterrupted, [rotate] is its statements one after the other. *)
Lemma rotate_runs e1 e2 e3 token t :
  let '(t1, p1) := advance e1 (Claiming token) t in
  let '(t2, p2) := advance e2 p1 t1 in
  let '(t3, p3) := advance e3 p2 t2 in
  (t3, p3) = ((rotate hash_token e1 e2 e3 token t).1, Finished (rotate hash_token e1 e2 e3 token t).2).
Proof.
  unfold rotate. cbn. destruct (negb (answers e1)); [done|].
  destruct (claim e1 token t) as [t1 [session|]]; cbn.
  - by destruct (issue_in_family e2 _ _ _ t1) as [t2 r].
  - destruct (peek hash_token e2 token t1) as [[session|]|]; [|done..].
    destruct (revoked session); cbn; [|done].
    by destruct (revoke_family e3 (family_id session) t1) as [t2 [n|]].
Qed.

Lemma find_hash_Some h t r : NoDup (r_hash <$> t) → find_hash h t = Some r ↔ r ∈ t ∧ r_hash r = h.
Proof.
  intros N. unfold find_hash. split.
  - intros H. assert (X : r ∈ filter (λ r, r_hash r = h) t) by (destruct (filter _ t); [done|injection H as ->; by left]).
    by apply list_elem_of_filter in X as [-> X].
  - intros [R H]. assert (X : r ∈ filter (λ r, r_hash r = h) t) by (by apply list_elem_of_filter).
    destruct (filter (λ r, r_hash r = h) t) as [|q l] eqn:F; [by apply not_elem_of_nil in X|]. cbn. f_equal.
    assert (Q : q ∈ filter (λ r, r_hash r = h) t) by (rewrite F; by left).
    apply list_elem_of_filter in Q as [Q1 Q2]. apply (hash_unique t); [done..|congruence].
Qed.

Lemma claim_absent e token t :
  (∀ r, r ∈ t → r_hash r = hash_token token → r_revoked r ≠ None ∨ r_expires r ≤ now e) → (claim e token t).2 = None.
Proof.
  intros A. unfold Sessions.claim, revoke_where.
  destruct (filter (λ r, unrevoked r ∧ claimable e token r = true) t) as [|r l] eqn:F; [done|].
  assert (X : r ∈ filter (λ r, unrevoked r ∧ claimable e token r = true) t) by (rewrite F; by left).
  apply list_elem_of_filter in X as [[U C] X]. apply claimable_spec in C as [H L].
  destruct (A r X H); [done|lia].
Qed.

Lemma claim_present e token t r :
  r ∈ t → unrevoked r → r_hash r = hash_token token → now e < r_expires r → (claim e token t).2 ≠ None.
Proof.
  intros R U H L. unfold Sessions.claim, revoke_where.
  assert (X : r ∈ filter (λ r, unrevoked r ∧ claimable e token r = true) t)
    by (apply list_elem_of_filter; split; [split; [done|by apply claimable_spec]|done]).
  destruct (filter _ t); [by apply not_elem_of_nil in X|done].
Qed.

(** What a rotation does, when the database answers: an unknown token is
    refused; so is an expired one, and neither changes a row; a token already
    used is refused and every session of its family is revoked; any other is
    revoked and exchanged for a new one, of the same account and family, good
    for thirty days. *)
Theorem rotate_spec e1 e2 e3 token t next :
  NoDup (r_hash <$> t) → answers e1 = true → answers e2 = true → answers e3 = true → drawn e2 = Some next →
  let result := rotate hash_token e1 e2 e3 token t in
  match find_hash (hash_token token) t with
  | None => result = (t, Err Unauthorized)
  | Some r =>
      (r_revoked r ≠ None → result.2 = Err Unauthorized ∧ live (r_family r) result.1 = 0%nat
                            ∧ ∀ q, q ∈ t → r_family q ≠ r_family r → q ∈ result.1)
      ∧ (r_revoked r = None → r_expires r ≤ now e1 → result = (t, Err Unauthorized))
      ∧ (r_revoked r = None → now e1 < r_expires r →
         (∀ q, q ∈ t → r_hash q ≠ hash_token next ∧ r_id q ≠ drawn_id e2) → r_collection r ≠ Some "" →
         ∃ session, result.2 = Ok (next, session)
           ∧ family_id session = r_family r ∧ user_id session = r_user r
           ∧ collection_id session = default "" (r_collection r)
           ∧ expires_at session = now e2 + 30 * 86400 * 1000000 ∧ revoked session = false
           ∧ ∀ q, q ∈ result.1 → r_hash q = hash_token token → r_revoked q ≠ None)
  end.
Proof.
  intros N A1 A2 A3 D result. subst result. unfold rotate. rewrite A1. cbn [negb].
  destruct (claim e1 token t) as [t' claimed] eqn:C.
  destruct (find_hash (hash_token token) t) as [r|] eqn:F.
  2: { assert (claimed = None) as ->.
       { change claimed with (t', claimed).2. rewrite <- C. apply claim_absent. intros r R H.
         assert (X : find_hash (hash_token token) t = Some r) by (by apply find_hash_Some). congruence. }
       apply claim_None in C as ->. unfold Sessions.peek. by rewrite A2, F. }
  pose proof (proj1 (find_hash_Some _ _ _ N) F) as [R H].
  assert (Only : ∀ q, q ∈ t → r_hash q = hash_token token → q = r) by (intros; apply (hash_unique t); congruence).
  split_and!.
  - intros V. assert (claimed = None) as ->.
    { change claimed with (t', claimed).2. rewrite <- C. apply claim_absent. intros q Q Hq. rewrite (Only q) by done. by left. }
    apply claim_None in C as ->. unfold Sessions.peek. rewrite A2, F. cbn.
    rewrite bool_decide_eq_true_2 by (destruct (r_revoked r); [by eexists|done]).
    unfold Sessions.revoke_family. rewrite A3. cbn. split_and!; [done|..].
    + apply live_zero. intros q Q Hf U. apply list_elem_of_fmap in Q as (q' & -> & Q). case_decide as X; [done|].
      apply X. split; [done|]. by apply bool_decide_eq_true.
    + intros q Q Hf. apply list_elem_of_fmap. exists q. split; [|done]. rewrite decide_False; [done|].
      by intros [_ X%bool_decide_eq_true].
  - intros U L. assert (claimed = None) as ->.
    { change claimed with (t', claimed).2. rewrite <- C. apply claim_absent. intros q Q Hq. rewrite (Only q) by done. by right. }
    apply claim_None in C as ->. unfold Sessions.peek. rewrite A2, F. cbn.
    rewrite bool_decide_eq_false_2; [done|]. rewrite U. by intros [? ?].
  - intros U L Fresh Cn. destruct claimed as [session|].
    2: { exfalso. apply (claim_present e1 token t r R U H L). by rewrite C. }
    destruct (claim_Some _ _ _ _ _ N C) as (q & Q & _ & Hq & _ & -> & -> & _ & Sp).
    rewrite (Only q Q Hq) in *. unfold Sessions.issue_in_family. rewrite D, A2. cbn [negb orb].
    destruct (existsb _ _) eqn:X.
    { apply existsb_exists in X as (q' & Q'%list_elem_of_In & X). apply list_elem_of_fmap in Q' as (q'' & -> & Q').
      destruct (Fresh q'' Q') as [F1 F2]. apply orb_true_iff in X as [X%bool_decide_eq_true|X%bool_decide_eq_true].
      - unfold revoking in X. by case_decide.
      - unfold revoking in X. by case_decide. }
    eexists. split; [done|]. cbn. unfold nullif_empty. split_and!; try done; try lia.
    + case_decide as Z; [by rewrite Z|done].
    + intros x [X'|X'%list_elem_of_singleton]%elem_of_app Hx; [by apply Sp|]. subst x. cbn in Hx.
      destruct (Fresh r R). congruence.
Qed.
End facts.

(** * A run in which a password change meets a rotation *)

Module Race.

Definition env (at_ : Z) (token : string) : Env :=
  {| now := at_; answers := true; drawn := Some token; drawn_id := token |}.

Definition login : Phase := Inserting "users" "ada" "f".
Definition row (token : string) (at_ : Z) (gone : option Z) : Row :=
  {| r_id := token; r_collection := Some "users"; r_user := "ada"; r_hash := token; r_family := "f";
     r_expires := at_ + REFRESH_TOKEN_TTL * 1000000; r_revoked := gone |}.
Definition session (token : string) (at_ : Z) : Session := from_row (row token at_ None).
Definition known : gmap string (string * string) := {["f" := ("users", "ada")]}.

(** Logged in, and a refresh between its claim and its insert. *)
Definition rotating : State :=
  {| table := [row "t0" 0 (Some 1)]; tokens := ["t0"]; families := known;
     tasks := [{| presented := None; phase := Finished (Ok ("t0", session "t0" 0)) |};
               {| presented := Some "t0"; phase := Inserting "users" "ada" "f" |}] |}.

(** The same after the refresh. *)
Definition rotated : State :=
  {| table := [row "t0" 0 (Some 1); row "t1" 3 None]; tokens := ["t1"; "t0"]; families := known;
     tasks := [{| presented := None; phase := Finished (Ok ("t0", session "t0" 0)) |};
               {| presented := Some "t0"; phase := Finished (Ok ("t1", session "t1" 3)) |}] |}.

Lemma reach_rotating : reachable (λ s, s) rotating.
Proof.
  unfold reachable, start.
  eapply rtc_l; [by eapply (step_login _ _ "users" "ada" "f")|].
  eapply rtc_l; [eapply (step_advance _ _ [] _ [] (env 0 "t0")); [reflexivity| |vm_compute; reflexivity];
    constructor; [set_solver|constructor]|].
  eapply rtc_l; [eapply (step_refresh _ _ "t0")|].
  eapply rtc_l; [eapply (step_advance _ _ [_] _ [] (env 1 "t9")); [reflexivity|constructor|vm_compute; reflexivity]|].
  apply rtc_refl.
Qed.

Lemma finish_rotation : step (λ s, s) rotating rotated.
Proof.
  apply (step_advance (λ s, s) rotating [{| presented := None; phase := Finished (Ok ("t0", session "t0" 0)) |}]
           {| presented := Some "t0"; phase := Inserting "users" "ada" "f" |} [] (env 3 "t1")
           (table rotated) (Finished (Ok ("t1", session "t1" 3))));
    [reflexivity| |vm_compute; reflexivity].
  constructor; [set_solver|constructor].
Qed.

(** Revoking the account between the claim and the insert changes nothing. *)
Lemma password_changed e : revoke_for_user e "users" "ada" (table rotating) = (table rotating, if answers e then Ok 0 else Err Internal).
Proof. unfold revoke_for_user. by destruct (answers e). Qed.

End Race.

(** A password change revokes the sessions of the account and reports it; a
    rotation that had claimed its token before and stores the next one after
    leaves the account with a session that the change did not end, and whose
    token is exchanged like any other. *)
Theorem password_change_race :
  ∃ s s' e token session,
    reachable (λ s, s) s
    ∧ revoke_for_user e "users" "ada" (table s) = (table s, Ok 0)
    ∧ rtc (step (λ s, s)) (with_table s (table s)) s'
    ∧ live "f" (table s') = 1%nat
    ∧ (rotate (λ s, s) (Race.env 9 "x") (Race.env 10 "t2") (Race.env 11 "x") token (table s')).2 = Ok ("t2", session)
    ∧ user_id session = "ada" ∧ collection_id session = "users".
Proof.
  exists Race.rotating, Race.rotated, (Race.env 2 "x"), "t1". eexists. split; [apply Race.reach_rotating|].
  split; [reflexivity|]. split; [apply rtc_once, Race.finish_rotation|].
  split; [vm_compute; reflexivity|]. split; [vm_compute; reflexivity|]. by split.
Qed.

Lemma one_usable_token_witness :
  reachable (λ s, s) Race.rotating ∧ (live "f" (table Race.rotating) + inflight "f" (tasks Race.rotating) ≤ 1)%nat
  ∧ inflight "f" (tasks Race.rotating) = 1%nat.
Proof.
  split; [apply Race.reach_rotating|]. split; [|reflexivity].
  exact (proj1 (one_usable_token (λ s, s) (λ a b H, H) Race.rotating Race.reach_rotating) "f").
Defined.

Lemma token_rotates_once_witness :
  winners "t0" (tasks Race.rotating) = 1%nat ∧ (winners "t0" (tasks Race.rotating) ≤ 1)%nat.
Proof.
  split; [reflexivity|].
  exact (proj1 (token_rotates_once (λ s, s) (λ a b H, H) Race.rotating "t0" Race.reach_rotating)).
Defined.

Lemma revocation_lasts_witness :
  (live "f" (table Race.rotated) + inflight "f" (tasks Race.rotated) ≤ inflight "f" (tasks Race.rotating))%nat.
Proof.
  refine (proj1 (revocation_lasts (λ s, s) (λ a b H, H) Race.rotating (table Race.rotating) (Race.env 2 "x") Race.rotated
    Race.reach_rotating eq_refl) "users" "ada" "f" (Ok 0) _ _ _).
  - apply Race.password_changed.
  - reflexivity.
  - apply rtc_once, Race.finish_rotation.
Defined.

Lemma rotate_spec_witness :
  ∃ session, (rotate (λ s, s) (Race.env 5 "x") (Race.env 6 "t2") (Race.env 7 "x") "t1" (table Race.rotated)).2 = Ok ("t2", session)
  ∧ family_id session = "f".
Proof.
  destruct (rotate_spec (λ s, s) (Race.env 5 "x") (Race.env 6 "t2") (Race.env 7 "x") "t1" (table Race.rotated) "t2")
    as (_ & _ & R); try reflexivity.
  - vm_compute. repeat constructor; set_solver.
  - destruct R as (session & E & F & _); [reflexivity|vm_compute; reflexivity|..].
    + intros q [-> | [-> | []%elem_of_nil]%elem_of_cons]%elem_of_cons; by split.
    + done.
    + by exists session.
Defined.
