(* ===== verification/Principal.v ===== *)
(** Who a request is: access tokens, [crates/auth/src/token.rs], API keys,
    [crates/api/src/api_keys.rs], and the middleware that attaches the caller
    to a request, [crates/api/src/auth.rs].

    Signing and verifying tokens is the JWT library's, hashing SHA-256's, and a
    record is read from the database: parameters. Instants are seconds. *)
From S2P Require Import Prelude CoreError Json Types Compile Rls.

Local Open Scope Z_scope.
Local Set Warnings "-register-all,-clear-no-such-hyp".

(** * Access tokens *)

(** [ACCESS_TOKEN_TTL], [enum Subject] and [struct Claims]. *)
Definition ACCESS_TOKEN_TTL : Z := 15 * 60.

Inductive Subject := SAuth | SSuperuser.

Definition is_superuser_subject (s : Subject) : bool := match s with SSuperuser => true | SAuth => false end.

Record Claims := {
  c_sub : string;
  c_col : string;
  c_name : string;
  c_email : string;
  c_typ : Subject;
  c_iat : Z;
  c_exp : Z;
  c_kid : string;
  c_tkey : string;
}.

(** [SigningKeys::claims_for]; [issued] is the clock, which is refused before
    the epoch. *)
Definition claims_for (kid : string) (issued : Z) (subject : Subject)
    (id email collection_id collection_name token_key : string) : result Claims :=
  if decide (issued < 0) then Err Internal
  else Ok {| c_sub := id; c_col := collection_id; c_name := collection_name; c_email := email; c_typ := subject;
             c_iat := issued; c_exp := issued + ACCESS_TOKEN_TTL; c_kid := kid; c_tkey := token_key |}.

(** * API keys *)

(** A row of [_api_keys]. *)
Record KeyRow := { k_id : string; k_hash : string; k_created : Z; k_expires : option Z; k_revoked : option Z }.

Definition PREFIX : string := "lazypock_".

(** The two hexadecimal digits of a byte. *)
Definition hex_digit (n : N) : ascii := ascii_of_N (if (n <? 10)%N then 48 + n else 87 + n)%N.
Definition hex_byte (b : ascii) : string := String (hex_digit (byte_of b / 16)) (String (hex_digit (byte_of b mod 16)) "").
Fixpoint hex (bytes : string) : string :=
  match bytes with EmptyString => "" | String b r => hex_byte b +:+ hex r end.

(** [new_key], from the thirty-two bytes the system draws. *)
Definition new_key (bytes : string) : string := PREFIX +:+ hex bytes.

Section api_keys.
Context (digest : string → string).

(** [create], [revoke] and [verify]; a day is 86400 seconds, as
    [make_interval(days => n)] adds in UTC. The insert refuses a digest or an
    id that is stored already. *)
Definition create_key (now : Z) (id raw : string) (expires_in_days : option Z) (t : list KeyRow)
    : list KeyRow * result (string * KeyRow) :=
  let expires := days ← expires_in_days; if decide (0 < days) then Some (now + days * 86400) else None in
  let row := {| k_id := id; k_hash := digest raw; k_created := now; k_expires := expires; k_revoked := None |} in
  if existsb (λ r, bool_decide (k_id r = id) || bool_decide (k_hash r = digest raw)) t then (t, Err Internal)
  else (t ++ [row], Ok (raw, row)).

Definition revoke_key (now : Z) (id : string) (t : list KeyRow) : list KeyRow * bool :=
  ((λ r, if decide (k_id r = id)
         then {| k_id := k_id r; k_hash := k_hash r; k_created := k_created r; k_expires := k_expires r;
                 k_revoked := Some (default now (k_revoked r)) |}
         else r) <$> t,
   existsb (λ r, bool_decide (k_id r = id)) t).

Definition active_key (now : Z) (r : KeyRow) : bool :=
  bool_decide (k_revoked r = None)
  && match k_expires r with None => true | Some expires => now <? expires end.

Definition verify_key (now : Z) (presented : string) (t : list KeyRow) : bool :=
  starts_with PREFIX presented
  && existsb (λ r, bool_decide (k_hash r = digest presented) && active_key now r) t.

End api_keys.

(** * The caller *)

(** [struct Principal]. *)
Record Principal := {
  p_claims : option Claims;
  p_record_claims : list (string * string);
  p_api_key : bool;
  p_connection_id : string;
}.

(** [anonymous], [from_claims] with its record's columns, [from_api_key] and
    [with_connection_id]. *)
Definition anonymous_principal : Principal :=
  {| p_claims := None; p_record_claims := []; p_api_key := false; p_connection_id := "" |}.
Definition from_claims (claims : Claims) (record_claims : list (string * string)) : Principal :=
  {| p_claims := Some claims; p_record_claims := record_claims; p_api_key := false; p_connection_id := "" |}.
Definition from_api_key : Principal :=
  {| p_claims := None; p_record_claims := []; p_api_key := true; p_connection_id := "" |}.
Definition with_connection_id (p : Principal) (connection_id : string) : Principal :=
  {| p_claims := p_claims p; p_record_claims := p_record_claims p; p_api_key := p_api_key p;
     p_connection_id := connection_id |}.

Definition is_superuser (p : Principal) : bool :=
  match p_claims p with Some claims => is_superuser_subject (c_typ claims) | None => false end.

(** [Principal::request_context]. *)
Definition request_context `{JsonText} (p : Principal) (action : Action) : RequestContext :=
  let context :=
    match p_claims p with
    | Some claims =>
        if is_superuser_subject (c_typ claims) then owner
        else authenticated (c_sub claims) (c_email claims) (c_col claims) (c_name claims)
    | None => anonymous
    end in
  {| role := role context; action := action; auth_id := auth_id context; auth_email := auth_email context;
     auth_collection_id := auth_collection_id context; auth_collection_name := auth_collection_name context;
     auth_claims := json_text (JObject ((λ '(k, v), (k, JString v)) <$> p_record_claims p));
     connection_id := p_connection_id p |}.

(** [Principal::auth_context]. *)
Definition non_empty (value : string) : option string := if decide (value = "") then None else Some value.

Definition auth_context (p : Principal) : AuthContext :=
  match p_claims p with
  | Some claims =>
      {| ac_id := Some (c_sub claims); ac_email := Some (c_email claims); ac_collection_id := non_empty (c_col claims);
         ac_collection_name := non_empty (c_name claims); ac_claims := list_to_map (p_record_claims p) |}
  | None => {| ac_id := None; ac_email := None; ac_collection_id := None; ac_collection_name := None; ac_claims := ∅ |}
  end.

(** [require_superuser] and [require_superuser_or_api_key]. *)
Definition require_superuser (p : Principal) : result unit :=
  if is_superuser p then Ok () else Err Forbidden.
Definition require_superuser_or_api_key (p : Principal) : result unit :=
  if is_superuser p || p_api_key p then Ok () else Err Forbidden.

(** [me]. *)
Definition me (p : Principal) : result Value :=
  match p_claims p with
  | None => Err Unauthorized
  | Some claims =>
      let superuser := is_superuser_subject (c_typ claims) in
      Ok (JObject
        ((if superuser then [] else [("collectionId", JString (c_col claims)); ("collectionName", JString (c_name claims))])
         ++ [("email", JString (c_email claims)); ("id", JString (c_sub claims)); ("superuser", JBool superuser)]))
  end.

(** * The middleware *)

(** What it reads of a request. A header that is not visible ASCII is [None]. *)
Record Request := {
  path : string;
  query : option string;
  authorization : option string;
  connection_header : option string;
}.

(** [connection_id], [bearer_token], [api_key_from_query] and
    [strip_query_param]. *)
Definition connection_id_of (r : Request) : string :=
  default "" (value ← connection_header r;
              let value := trim value in
              if negb (bool_decide (value = "")) && (String.length value <=? 128)%nat then Some value else None).

Definition bearer_token (r : Request) : option string :=
  value ← authorization r;
  '(scheme, token) ← split_once " " value;
  let token := trim token in
  if bool_decide (to_ascii_lowercase scheme = "bearer") && negb (bool_decide (token = "")) then Some token else None.

Fixpoint find_api_key (pairs : list string) : option string :=
  match pairs with
  | [] => None
  | part :: pairs =>
      match split_once "=" part with
      | Some (name, value) => if decide (name = "api_key") then Some value else find_api_key pairs
      | None => find_api_key pairs
      end
  end.
Definition api_key_from_query (query : option string) : option string :=
  q ← query; find_api_key (split_on "&" q).

Definition keeps (name part : string) : bool :=
  match split_once "=" part with
  | None => negb (bool_decide (part = name))
  | Some (key, _) => negb (bool_decide (key = name))
  end.
Definition strip_query_param (name : string) (query : option string) : option string :=
  q ← query;
  match filter (λ part, keeps name part = true) (split_on "&" q) with
  | [] => None
  | kept => Some (join "&" kept)
  end.

Definition without_key (r : Request) : Request :=
  match api_key_from_query (query r) with
  | None => r
  | Some _ => {| path := path r; query := strip_query_param "api_key" (query r);
                 authorization := authorization r; connection_header := connection_header r |}
  end.

Section middleware.
Context `{JsonText}.
(** [AuthService::verify], the answer of [api_keys::verify], and the row of the
    record behind a token, when it can be read. *)
Context (verify : string → result Claims) (verify_api_key : string → result bool)
  (load_record : string → string → option Value).

(** [record_claims]. *)
Definition record_claims (claims : Claims) : list (string * string) :=
  if is_superuser_subject (c_typ claims) || bool_decide (c_name claims = "") || bool_decide (c_sub claims = "")
     || negb (is_ok (validate_identifier (c_name claims)))
  then []
  else
    match load_record (c_name claims) (c_sub claims) with
    | Some (JObject object) =>
        omap (λ '(name, value),
          if bool_decide (name ∈ CREDENTIAL_COLUMNS) || is_null value then None
          else Some (name, match value with JString text => text | other => json_text other end)) object
    | _ => []
    end.

(** The credential a request presents: the bearer token, or the key of the
    query. *)
Definition presented (r : Request) : option string :=
  match bearer_token r with Some token => Some token | None => api_key_from_query (query r) end.

(** [authenticate]: the caller and the request handed on, or the refusal. *)
Definition authenticate (r : Request) : result (Principal * Request) :=
  if ends_with "/auth-refresh" (path r) then Ok (anonymous_principal, r)
  else
    principal ← match presented r with
                | None => Ok anonymous_principal
                | Some token =>
                    if starts_with PREFIX token then
                      match verify_api_key token with
                      | Ok true => Ok from_api_key
                      | Ok false => Err Unauthorized
                      | Err err => Err err
                      end
                    else
                      claims ← verify token;
                      Ok (from_claims claims (record_claims claims))
                end;
    Ok (with_connection_id principal (connection_id_of r), without_key r).

End middleware.

(** * The query without its key *)

Lemma split_on_parts c s : Forall (λ part, str_forall (λ d, bool_decide (d ≠ c)) part = true) (split_on c s).
Proof.
  induction s as [|d s IH]; cbn; [by repeat constructor|].
  case_decide as D; [by constructor|].
  pose proof (split_on_nonempty c s). destruct (split_on c s) as [|x l]; [done|].
  apply Forall_cons in IH as [X L]. constructor; [|done]. cbn. by rewrite X, bool_decide_eq_true_2.
Qed.

Lemma find_kept parts : find_api_key (filter (λ part, keeps "api_key" part = true) parts) = None.
Proof.
  induction parts as [|part parts IH]; [done|]. rewrite filter_cons. case_decide as K; [|done].
  cbn [find_api_key]. unfold keeps in K. destruct (split_once "=" part) as [[name value]|]; [|done].
  apply negb_true_iff, bool_decide_eq_false in K. by rewrite decide_False.
Qed.

Lemma strip_query_spec q : api_key_from_query (strip_query_param "api_key" q) = None.
Proof.
  destruct q as [q|]; [|done]. unfold strip_query_param. cbn [mbind option_bind]. set (kept := filter _ (split_on "&" q)).
  destruct kept as [|x l] eqn:E; [done|]. unfold api_key_from_query. cbn [mbind option_bind].
  rewrite (split_join "&" (x :: l)); [|done|].
  - rewrite <- E. apply find_kept.
  - rewrite <- E. subst kept. rewrite Forall_forall. intros y [_ Y]%list_elem_of_filter.
    pose proof (split_on_parts "&" q) as F. rewrite Forall_forall in F. by apply F.
Qed.

Lemma without_key_query r : api_key_from_query (query (without_key r)) = None.
Proof.
  unfold without_key. destruct (api_key_from_query (query r)) eqn:E; [apply strip_query_spec|done].
Qed.

Section spec.
Context `{JsonText}.
Context (verify : string → result Claims) (verify_api_key : string → result bool)
  (load_record : string → string → option Value).

Lemma record_claims_hide claims name :
  name ∈ (record_claims load_record claims).*1 → name ∉ CREDENTIAL_COLUMNS.
Proof.
  unfold record_claims. destruct (_ || _); [by intros ?%not_elem_of_nil|].
  destruct (load_record _ _) as [[| | | | |object]|]; try by intros ?%not_elem_of_nil.
  intros M. apply list_elem_of_fmap in M as ([n v] & -> & M). apply list_elem_of_omap in M as ([n' v'] & _ & M).
  destruct (_ || is_null v') eqn:E; [done|]. injection M as <- _.
  apply orb_false_iff in E as [E _]. by apply bool_decide_eq_false in E.
Qed.

(** A credential the middleware accepts: a valid API key, or a verified
    token. *)
Definition accepted (token : string) : Prop :=
  if starts_with PREFIX token then verify_api_key token = Ok true else is_ok (verify token) = true.

(** C12. The caller of a request. On every path but the refresh endpoint's, where
    nobody is authenticated: a request that presents no credential is anonymous;
    one that presents a bad one is refused, never taken for an anonymous one;
    the database owner, who bypasses every rule, is exactly the bearer of a
    verified superuser token, and an API key is nobody's identity. The caller's
    own columns, published for rules, never hold a credential, and the request
    handed on no longer carries a key. *)
Theorem authenticate_spec r :
  match authenticate verify verify_api_key load_record r with
  | Ok (p, r') =>
      if ends_with "/auth-refresh" (path r) then p = anonymous_principal ∧ r' = r
      else
        match presented r with
        | None => p_claims p = None ∧ p_api_key p = false
        | Some token =>
            accepted token ∧ p_api_key p = starts_with PREFIX token
            ∧ ∀ claims, p_claims p = Some claims ↔ starts_with PREFIX token = false ∧ verify token = Ok claims
        end
        ∧ (∀ a, role (request_context p a) = Owner ↔ ∃ claims, p_claims p = Some claims ∧ c_typ claims = SSuperuser)
        ∧ (∀ a claims, p_claims p = Some claims → c_typ claims = SAuth →
             role (request_context p a) = Authenticated ∧ auth_id (request_context p a) = c_sub claims
             ∧ auth_collection_id (request_context p a) = c_col claims)
        ∧ (∀ a, p_claims p = None → role (request_context p a) = Anon ∧ auth_id (request_context p a) = "")
        ∧ (∀ name, name ∈ (p_record_claims p).*1 → name ∉ CREDENTIAL_COLUMNS)
        ∧ path r' = path r ∧ api_key_from_query (query r') = None
  | Err err =>
      ends_with "/auth-refresh" (path r) = false ∧ ∃ token, presented r = Some token ∧ ¬ accepted token
  end.
Proof.
  unfold authenticate. destruct (ends_with "/auth-refresh" (path r)) eqn:Ref; [done|].
  assert (Roles : ∀ p a,
    (role (request_context p a) = Owner ↔ ∃ claims, p_claims p = Some claims ∧ c_typ claims = SSuperuser)
    ∧ (∀ claims, p_claims p = Some claims → c_typ claims = SAuth →
         role (request_context p a) = Authenticated ∧ auth_id (request_context p a) = c_sub claims
         ∧ auth_collection_id (request_context p a) = c_col claims)
    ∧ (p_claims p = None → role (request_context p a) = Anon ∧ auth_id (request_context p a) = "")).
  { intros p a. unfold request_context. destruct (p_claims p) as [claims|]; cbn.
    - destruct (c_typ claims) eqn:T; cbn; split_and!; try done.
      + split; [done|]. intros (c & [= <-] & T'). congruence.
      + intros c [= <-] _. done.
      + split; [by exists claims|done].
      + intros c [= <-]. congruence.
    - split_and!; try done. split; [done|]. by intros (? & ? & _). }
  assert (Path : path (without_key r) = path r) by (unfold without_key; by destruct (api_key_from_query (query r))).
  pose proof (without_key_query r) as Key.
  assert (Rest : ∀ p, (∀ name, name ∈ (p_record_claims p).*1 → name ∉ CREDENTIAL_COLUMNS) →
     (∀ a, role (request_context p a) = Owner ↔ ∃ claims, p_claims p = Some claims ∧ c_typ claims = SSuperuser)
        ∧ (∀ a claims, p_claims p = Some claims → c_typ claims = SAuth →
             role (request_context p a) = Authenticated ∧ auth_id (request_context p a) = c_sub claims
             ∧ auth_collection_id (request_context p a) = c_col claims)
        ∧ (∀ a, p_claims p = None → role (request_context p a) = Anon ∧ auth_id (request_context p a) = "")
        ∧ (∀ name, name ∈ (p_record_claims p).*1 → name ∉ CREDENTIAL_COLUMNS)
        ∧ path (without_key r) = path r ∧ api_key_from_query (query (without_key r)) = None).
  { intros p Hn. split_and!; try done; intros; by apply Roles. }
  destruct (presented r) as [token|] eqn:Pr; cbn.
  2: { split; [done|]. apply (Rest (with_connection_id anonymous_principal (connection_id_of r))). by intros ? ?%not_elem_of_nil. }
  unfold accepted. destruct (starts_with PREFIX token) eqn:Px.
  - destruct (verify_api_key token) as [[]|] eqn:V; cbn.
    + split; [split_and!; [done|done|naive_solver]|]. apply (Rest (with_connection_id from_api_key (connection_id_of r))). by intros ? ?%not_elem_of_nil.
    + split; [done|]. exists token. by rewrite Px, V.
    + split; [done|]. exists token. by rewrite Px, V.
  - destruct (verify token) as [claims|] eqn:V; cbn.
    + split; [split_and!; [done|done|naive_solver]|].
      apply (Rest (with_connection_id (from_claims claims (record_claims load_record claims)) (connection_id_of r))). apply record_claims_hide.
    + split; [done|]. exists token. rewrite Px, V. by split.
Qed.

End spec.
