(* ===== verification/Accounts.v ===== *)
(** Signing in and staying signed in: passwords, [crates/auth/src/password.rs],
    superusers, [superuser.rs], the login and refresh flows of
    [crates/auth/src/service.rs], and the login endpoint of
    [crates/api/src/auth.rs] with its lockout.

    Argon2, the JWT signature and the database's [lower] are parameters. The
    statements are functions on the tables that always answer: a connection or a
    query that fails, which is an internal error with no account touched, and the
    record that is read back for the answer after a sign-in that succeeded are
    left out. *)
From S2P Require Import Prelude CoreError Json Types Ddl RateLimit Validation Principal Sessions.

Local Open Scope Z_scope.
Local Set Warnings "-register-all,-clear-no-such-hyp".

Section accounts.
Context (hash_token : string → string).
(** [Argon2::hash_password], [verify_password] of a parsed hash, SQL's [lower]
    and [SigningKeys::sign]. *)
Context (argon2_hash : string → result string) (argon2_verify : string → string → bool)
  (pg_lower : string → string) (sign : Claims → option string).

(** * Passwords *)

(** [password::hash]; the length is in bytes. *)
Definition hash (password : string) : result string :=
  if decide (String.length password < 8)%nat then Err Invalid else argon2_hash password.

(** [dummy_hash]: the hash an absent account is compared with. *)
Definition placeholder_password : string := "lazypock-placeholder-password".

(** * Superusers *)

(** [struct Superuser], and a row of an auth collection. *)
Record Superuser := { su_id : string; su_email : string; su_password_hash : string; su_token_key : string }.
Record AuthRow := {
  ar_id : string;
  ar_email : option string;
  ar_password_hash : option string;
  ar_token_key : option string;
}.

(** [superuser::COLLECTION], which the API calls [SUPERUSERS]. *)
Definition SUPERUSERS : string := "_superusers".

(** [normalise_email]. *)
Definition normalise_email (email : string) : result string :=
  let email := to_ascii_lowercase (trim email) in
  if bool_decide (email = "") || negb (str_contains "@" email) || bool_decide (320 < String.length email)%nat
     || has_whitespace email
  then Err Invalid
  else
    match split_once "@" email with
    | None => Err Internal (* not reached: the text has an @ *)
    | Some (local_, domain) =>
        if bool_decide (local_ = "") || negb (str_contains "." domain) || starts_with "." domain || ends_with "." domain
        then Err Invalid else Ok email
    end.

(** [create]: the id and the lowercased email are unique, and only a repeated
    one is a conflict. *)
Definition create_superuser (id : string) (token_key : option string) (email password : string) (t : list Superuser)
    : list Superuser * result Superuser :=
  match normalise_email email with
  | Err err => (t, Err err)
  | Ok email =>
      match hash password with
      | Err err => (t, Err err)
      | Ok password_hash =>
          match token_key with
          | None => (t, Err Internal)
          | Some token_key =>
              let row := {| su_id := id; su_email := email; su_password_hash := password_hash; su_token_key := token_key |} in
              if existsb (λ r, bool_decide (su_id r = id) || bool_decide (pg_lower (su_email r) = pg_lower email)) t
              then (t, Err Conflict) else (t ++ [row], Ok row)
          end
      end
  end.

(** [find_by_id] and [find_by_email]. *)
Definition find_by_id (id : string) (t : list Superuser) : option Superuser := head (filter (λ r, su_id r = id) t).
Definition find_by_email (email : string) (t : list Superuser) : option Superuser :=
  head (filter (λ r, pg_lower (su_email r) = pg_lower (trim email)) t).

(** [set_password]: the row, then the account's sessions. *)
Definition set_password (e : Env) (token_key : option string) (id password : string) (t : list Superuser) (sessions : Table)
    : list Superuser * Table * result unit :=
  match hash password with
  | Err err => (t, sessions, Err err)
  | Ok password_hash =>
      match token_key with
      | None => (t, sessions, Err Internal)
      | Some token_key =>
          if existsb (λ r, bool_decide (su_id r = id)) t then
            let t := (λ r, if decide (su_id r = id)
                           then {| su_id := id; su_email := su_email r; su_password_hash := password_hash;
                                   su_token_key := token_key |}
                           else r) <$> t in
            match revoke_for_user e "" id sessions with
            | (sessions, Err err) => (t, sessions, Err err)
            | (sessions, Ok _) => (t, sessions, Ok ())
            end
          else (t, sessions, Err NotFound)
      end
  end.

(** * Logging in *)

(** [struct AuthOutcome]. *)
Record AuthOutcome := {
  access_token : string;
  refresh_token : string;
  expires_in : Z;
  o_subject : Subject;
  o_user : string;
  o_collection_id : string;
  o_collection_name : string;
}.

(** What the service signs with: the key's id and the clock, in seconds. *)
Record Signer := { kid : string; clock : Z }.

(** [AuthService::sign]. *)
Definition sign_for (k : Signer) (subject : Subject) (id email collection_id collection_name token_key : string)
    : result string :=
  claims ← claims_for (kid k) (clock k) subject id email collection_id collection_name token_key;
  ok_or (sign claims) Internal.

(** [AuthService::issue]: the session is stored before the token is signed. *)
Definition issue_pair (k : Signer) (e : Env) (family : string) (subject : Subject)
    (id email collection_id collection_name token_key : string) (sessions : Table) : Table * result AuthOutcome :=
  match issue hash_token e family collection_id id sessions with
  | (sessions, Err err) => (sessions, Err err)
  | (sessions, Ok (refresh, _)) =>
      (sessions,
       access ← sign_for k subject id email collection_id collection_name token_key;
       Ok {| access_token := access; refresh_token := refresh; expires_in := ACCESS_TOKEN_TTL; o_subject := subject;
             o_user := id; o_collection_id := collection_id; o_collection_name := collection_name |})
  end.

(** [authenticate_superuser]; [dummy] is the hash of the placeholder. *)
Definition authenticate_superuser (k : Signer) (e : Env) (family dummy email pass : string)
    (t : list Superuser) (sessions : Table) : Table * result AuthOutcome :=
  let found := find_by_email email t in
  let stored := match found with Some account => su_password_hash account | None => dummy end in
  let verified := argon2_verify pass stored in
  match (if verified then found else None) with
  | None => (sessions, Err Unauthorized)
  | Some account =>
      issue_pair k e family SSuperuser (su_id account) (su_email account) "" "" (su_token_key account) sessions
  end.

(** [authenticate_record], on the rows of the collection's table. *)
Definition find_record_by_email (email : string) (rows : list AuthRow) : option AuthRow :=
  head (filter (λ r, pg_lower <$> ar_email r = Some (pg_lower (trim email))) rows).

Definition authenticate_record (k : Signer) (e : Env) (family dummy : string) (c : Collection) (email pass : string)
    (rows : list AuthRow) (sessions : Table) : Table * result AuthOutcome :=
  if negb (is_auth (collection_type c)) then (sessions, Err Invalid)
  else
    let found := find_record_by_email email rows in
    let stored := match found with Some row => default dummy (ar_password_hash row) | None => dummy end in
    let verified := argon2_verify pass stored in
    match (if verified then found else None) with
    | None => (sessions, Err Unauthorized)
    | Some row =>
        issue_pair k e family SAuth (ar_id row) (default "" (ar_email row)) (Types.collection_id c) (collection_name c)
          (default "" (ar_token_key row)) sessions
    end.

(** [issue_for_record]. *)
Definition issue_for_record (k : Signer) (e : Env) (family : string) (c : Collection) (record_id : string)
    (rows : list AuthRow) (sessions : Table) : Table * result AuthOutcome :=
  match head (filter (λ r, ar_id r = record_id) rows) with
  | None => (sessions, Err Unauthorized)
  | Some row =>
      issue_pair k e family SAuth record_id (default "" (ar_email row)) (Types.collection_id c) (collection_name c)
        (default "" (ar_token_key row)) sessions
  end.

(** * Refreshing *)

(** [struct Account]. *)
Record Account := {
  a_subject : Subject;
  a_id : string;
  a_email : string;
  a_collection_id : string;
  a_collection_name : string;
  a_token_key : string;
}.

(** [account_for]; [rows_of] is the table of a collection, by its name. *)
Definition account_for (superusers : list Superuser) (rows_of : string → list AuthRow) (collections : list Collection)
    (session : Session) : result Account :=
  if decide (collection_id session = "") then
    account ← ok_or (find_by_id (user_id session) superusers) Unauthorized;
    Ok {| a_subject := SSuperuser; a_id := su_id account; a_email := su_email account; a_collection_id := "";
          a_collection_name := ""; a_token_key := su_token_key account |}
  else
    c ← ok_or (head (filter (λ c, Types.collection_id c = collection_id session) collections)) Unauthorized;
    row ← ok_or (head (filter (λ r, ar_id r = user_id session) (rows_of (collection_name c)))) Unauthorized;
    Ok {| a_subject := SAuth; a_id := user_id session; a_email := default "" (ar_email row);
          a_collection_id := Types.collection_id c; a_collection_name := collection_name c;
          a_token_key := default "" (ar_token_key row) |}.

(** Whether a session belongs to the endpoint it is refreshed through. *)
Definition belongs (collections : list Collection) (expected : string) (session : Session) : bool :=
  if decide (collection_id session = "") then bool_decide (expected = SUPERUSERS)
  else existsb (λ c, bool_decide (Types.collection_id c = collection_id session)
                     && bool_decide (collection_name c = expected)) collections.

(** [AuthService::refresh]: the check, then the rotation. *)
Definition check_expected (e : Env) (token : string) (collections : list Collection) (expected : option string)
    (sessions : Table) : result unit :=
  match expected with
  | None => Ok ()
  | Some expected =>
      found ← peek hash_token e token sessions;
      session ← ok_or found Unauthorized;
      if belongs collections expected session then Ok () else Err Unauthorized
  end.

Definition refresh (k : Signer) (e0 e1 e2 e3 : Env) (token : string) (superusers : list Superuser)
    (rows_of : string → list AuthRow) (collections : list Collection) (expected : option string) (sessions : Table)
    : Table * result AuthOutcome :=
  match check_expected e0 token collections expected sessions with
  | Err err => (sessions, Err err)
  | Ok _ =>
      let '(sessions, rotated) := rotate hash_token e1 e2 e3 token sessions in
      (sessions,
       '(next, session) ← rotated;
       account ← account_for superusers rows_of collections session;
       access ← sign_for k (a_subject account) (a_id account) (a_email account) (a_collection_id account)
                  (a_collection_name account) (a_token_key account);
       Ok {| access_token := access; refresh_token := next; expires_in := ACCESS_TOKEN_TTL;
             o_subject := a_subject account; o_user := a_id account; o_collection_id := a_collection_id account;
             o_collection_name := a_collection_name account |})
  end.

(** * The login endpoint and its lockout *)

(** [Schema::get], [crates/db/src/schema.rs]: by name, or else by id; the maps
    keep the last position of a key. *)
Definition schema_get (collections : list Collection) (name_or_id : string) : option Collection :=
  match last (filter (λ c, collection_name c = name_or_id) collections) with
  | Some c => Some c
  | None => last (filter (λ c, Types.collection_id c = name_or_id) collections)
  end.

(** [account_key]. *)
Definition account_key (collection identity : string) : string :=
  collection +:+ ":" +:+ to_ascii_lowercase (trim identity).

(** [record_credential_outcome]. *)
Definition record_credential_outcome {A} (l : Limits) (c : Clock) (key : string) (r : result A) (b : Buckets) : Buckets :=
  match r with
  | Ok _ => (map_op l OClear key c b).2
  | Err err => if decide (status err = 401) then (map_op l OFailure key c b).2 else b
  end.

(** What the endpoint answers: a wait in whole seconds, a refusal, or tokens.
    The record it reads back and shows with them is not modelled. *)
Inductive Answer := TooMany (seconds : Z) | Refusal (err : Error) | SignedIn (outcome : AuthOutcome).

Definition answer_of (r : result AuthOutcome) : Answer :=
  match r with Ok outcome => SignedIn outcome | Err err => Refusal err end.

(** The world of a login: the counters, the accounts and the sessions. *)
Record World := {
  buckets : Buckets;
  superusers : list Superuser;
  auth_rows : string → list AuthRow;
  sessions : Table;
}.

(** [auth_with_password]; [c1] and [c2] are the clock readings of the two
    looks at the counters. *)
Definition auth_with_password (l : Limits) (c1 c2 : Clock) (k : Signer) (e : Env) (family dummy : string)
    (collections : list Collection) (collection identity password : string) (w : World)
    : Buckets * Table * Answer :=
  let key := account_key collection identity in
  match map_op l OLocked key c1 (buckets w) with
  | (Some refused, b) => (b, sessions w, TooMany (Z.max (retry_after refused / 10 ^ 9) 1))
  | (None, b) =>
      if decide (collection = SUPERUSERS) then
        let '(table, r) := authenticate_superuser k e family dummy identity password (superusers w) (sessions w) in
        (record_credential_outcome l c2 key r b, table, answer_of r)
      else
        match schema_get collections collection with
        | None => (b, sessions w, Refusal NotFound)
        | Some c =>
            if negb (is_auth (collection_type c)) then (b, sessions w, Refusal NotFound)
            else
              let '(table, r) := authenticate_record k e family dummy c identity password
                                   (auth_rows w (collection_name c)) (sessions w) in
              (record_credential_outcome l c2 key r b, table, answer_of r)
        end
  end.

(** [auth_refresh]: the token of the body, or the bearer token. *)
Definition auth_refresh (k : Signer) (e0 e1 e2 e3 : Env) (body_token : option string) (r : Request) (collection : string)
    (collections : list Collection) (w : World) : Table * result AuthOutcome :=
  match match body_token with Some token => Some token | None => bearer_token r end with
  | None => (sessions w, Err Invalid)
  | Some token =>
      refresh k e0 e1 e2 e3 token (superusers w) (auth_rows w) collections (Some collection) (sessions w)
  end.

(** [auth_columns]: the columns a write of an account gets besides its body. *)
Definition auth_columns (token_key : option string) (c : Collection) (input : Value) : result (list (string * string)) :=
  if negb (is_auth (collection_type c)) then Ok []
  else
    match body ← as_object input; value ← password_input c body; as_str value with
    | None => Ok []
    | Some password =>
        match password_field c with
        | None => Ok []
        | Some field =>
            password_hash ← hash password;
            token_key ← ok_or token_key Internal;
            Ok [(field_name field, password_hash); ("token_key", token_key)]
        end
    end.

End accounts.

(** * What a login answers *)

Section logins.
Context (hash_token : string → string) (argon2_verify : string → string → bool) (pg_lower : string → string)
  (sign : Claims → option string).

(** Whom a login is for: [Err] when there is no such collection of accounts,
    [Ok None] when there is no such account or its password is another. *)
Definition claimant (dummy : string) (collections : list Collection) (collection identity password : string) (w : World)
    : result (option (Subject * string * string)) :=
  if decide (collection = SUPERUSERS) then
    Ok (account ← find_by_email pg_lower identity (superusers w);
        if argon2_verify password (su_password_hash account) then Some (SSuperuser, su_id account, "") else None)
  else
    match schema_get collections collection with
    | None => Err NotFound
    | Some c =>
        if negb (is_auth (collection_type c)) then Err NotFound
        else Ok (row ← find_record_by_email pg_lower identity (auth_rows w (collection_name c));
                 if argon2_verify password (default dummy (ar_password_hash row))
                 then Some (SAuth, ar_id row, Types.collection_id c) else None)
    end.

Lemma issue_pair_spec k e family subject id email cid cname tkey t t' r :
  issue_pair hash_token sign k e family subject id email cid cname tkey t = (t', r) →
  match r with
  | Ok outcome => o_subject outcome = subject ∧ o_user outcome = id ∧ o_collection_id outcome = cid
      ∧ expires_in outcome = 900
      ∧ ∃ row, t' = t ++ [row] ∧ account row = (cid, id) ∧ r_revoked row = None
               ∧ r_hash row = hash_token (refresh_token outcome) ∧ r_family row = family
  | Err err => err = Internal
  end.
Proof.
  unfold issue_pair, issue.
  destruct (issue_in_family hash_token e cid id family t) as [t1 [[token session]|err]] eqn:I.
  - apply issue_Ok in I as (_ & -> & _). intros [= <- <-].
    unfold sign_for. unfold claims_for. case_decide; cbn; [done|].
    destruct (sign _); cbn; [|done]. split_and!; try done.
    eexists. split; [done|]. unfold account, new_row, nullif_empty. cbn. split_and!; try done.
    case_decide; by subst.
  - intros [= _ <-]. unfold issue_in_family in I.
    repeat case_match; by simplify_eq.
Qed.

(** C13. A sign-in. While the account is locked the answer is a wait, whatever the
    password and whether or not the account exists, and nothing changes. An
    unknown account and a wrong password are answered and counted alike. A
    success clears the count and stores one new session, of that account and
    nobody else's; a failure that is not the caller's leaves the count alone. *)
Theorem login_spec l c1 c2 k e family dummy collections collection identity password w :
  let key := account_key collection identity in
  let '(b, t, answer) := auth_with_password hash_token argon2_verify pg_lower sign l c1 c2 k e family dummy
                           collections collection identity password w in
  match map_op l OLocked key c1 (buckets w) with
  | (Some refused, b') =>
      (b, t, answer) = (b', sessions w, TooMany (Z.max (retry_after refused / 10 ^ 9) 1))
  | (None, b') =>
      match claimant dummy collections collection identity password w with
      | Err err => (b, t, answer) = (b', sessions w, Refusal err)
      | Ok None => (b, t, answer) = ((map_op l OFailure key c2 b').2, sessions w, Refusal Unauthorized)
      | Ok (Some (subject, id, cid)) =>
          match answer with
          | SignedIn outcome =>
              b = (map_op l OClear key c2 b').2 ∧ o_subject outcome = subject ∧ o_user outcome = id
              ∧ o_collection_id outcome = cid
              ∧ ∃ row, t = sessions w ++ [row] ∧ account row = (cid, id) ∧ r_revoked row = None
                       ∧ r_hash row = hash_token (refresh_token outcome)
          | Refusal err => err = Internal ∧ b = b'
          | TooMany _ => False
          end
      end
  end.
Proof.
  intros key. unfold auth_with_password. fold key.
  destruct (map_op l OLocked key c1 (buckets w)) as [[refused|] b'] eqn:L; [done|].
  unfold claimant. case_decide as S.
  - unfold authenticate_superuser. destruct (find_by_email pg_lower identity (superusers w)) as [a|]; cbn.
    + destruct (argon2_verify password (su_password_hash a)).
      * destruct (issue_pair _ _ _ _ _ _ _ _ _ _ _ _) as [t r] eqn:I. apply issue_pair_spec in I.
        destruct r as [outcome|err]; cbn; [|by subst err]. naive_solver.
      * cbn. done.
    + by destruct (argon2_verify password dummy).
  - destruct (schema_get collections collection) as [c|]; [|done].
    destruct (is_auth (collection_type c)) eqn:A; cbn; [|done].
    unfold authenticate_record. rewrite A. cbn.
    destruct (find_record_by_email pg_lower identity (auth_rows w (collection_name c))) as [row|]; cbn.
    + destruct (argon2_verify password (default dummy (ar_password_hash row))).
      * destruct (issue_pair _ _ _ _ _ _ _ _ _ _ _ _) as [t r] eqn:I. apply issue_pair_spec in I.
        destruct r as [outcome|err]; cbn; [|by subst err]. naive_solver.
      * cbn. done.
    + by destruct (argon2_verify password dummy).
Qed.

End logins.

(** * What a refresh does *)

Section refreshes.
Context (hash_token : string → string) (sign : Claims → option string).
Context (superusers : list Superuser) (rows_of : string → list AuthRow) (collections : list Collection).

Local Abbreviation refresh := (refresh hash_token sign).

Lemma find_hash_in h t r : find_hash h t = Some r → r ∈ t ∧ r_hash r = h.
Proof.
  unfold find_hash. intros F. assert (X : r ∈ filter (λ r, r_hash r = h) t)
    by (destruct (filter _ t); [done|injection F as ->; by left]).
  by apply list_elem_of_filter in X as [-> X].
Qed.

Lemma account_for_ids session a :
  account_for superusers rows_of collections session = Ok a →
  a_id a = user_id session ∧ a_collection_id a = collection_id session.
Proof.
  unfold account_for. case_decide as D.
  - destruct (find_by_id _ superusers) as [s|] eqn:F; [|done]. intros [= <-]. cbn. rewrite D. split; [|done].
    unfold find_by_id in F. assert (X : s ∈ filter (λ r, su_id r = user_id session) superusers)
      by (destruct (filter _ superusers); [done|injection F as ->; by left]).
    by apply list_elem_of_filter in X as [-> _].
  - destruct (head (filter (λ c, Types.collection_id c = collection_id session) collections)) as [c|] eqn:F; [|done].
    cbn. destruct (head (filter _ (rows_of (collection_name c)))); [|done]. intros [= <-]. cbn. split; [done|].
    assert (X : c ∈ filter (λ c, Types.collection_id c = collection_id session) collections)
      by (destruct (filter _ collections); [done|injection F as ->; by left]).
    by apply list_elem_of_filter in X as [-> _].
Qed.

(** A refresh through an endpoint. A token that is unknown, or whose session
    belongs to another collection, is refused and not spent. A refresh that
    succeeds was sent an unrevoked, unexpired token of that collection; it is
    revoked, and one session of the same family and the same account takes its
    place. The account is the one stored now: one that is gone gets no token. *)
Theorem refresh_spec k e0 e1 e2 e3 token expected t :
  NoDup (r_hash <$> t) → answers e0 = true →
  let '(t', r) := refresh k e0 e1 e2 e3 token superusers rows_of collections (Some expected) t in
  (match find_hash (hash_token token) t with
   | None => True
   | Some row => belongs collections expected (from_row row) = false
   end → t' = t ∧ r = Err Unauthorized)
  ∧ ∀ outcome, r = Ok outcome → ∃ old new account,
      find_hash (hash_token token) t = Some old ∧ r_revoked old = None ∧ now e1 < r_expires old
      ∧ belongs collections expected (from_row old) = true
      ∧ (∀ q, q ∈ t' → r_hash q = hash_token token → r_revoked q ≠ None)
      ∧ new ∈ t' ∧ r_hash new = hash_token (refresh_token outcome) ∧ r_family new = r_family old
      ∧ r_revoked new = None ∧ Sessions.account new = Sessions.account old
      ∧ account_for superusers rows_of collections (from_row new) = Ok account
      ∧ o_user outcome = r_user old ∧ o_collection_id outcome = default "" (r_collection old)
      ∧ o_user outcome = a_id account ∧ o_subject outcome = a_subject account.
Proof.
  intros N A0. destruct (refresh _ _ _ _ _ _ _ _ _ _ _) as [t' r] eqn:R.
  unfold Accounts.refresh, check_expected, peek in R. rewrite A0 in R. cbn [mbind result_bind] in R.
  destruct (find_hash (hash_token token) t) as [old|] eqn:F; cbn in R.
  2: { injection R as <- <-. split; [done|]. by intros ? [=]. }
  destruct (belongs collections expected (from_row old)) eqn:B; cbn in R.
  2: { injection R as <- <-. split; [done|]. by intros ? [=]. }
  split; [by intros [=]|]. intros outcome ->.
  destruct (rotate hash_token e1 e2 e3 token t) as [t1 rotated] eqn:Ro. injection R as <- R.
  destruct rotated as [[next session]|]; [|done]. cbn in R.
  destruct (account_for superusers rows_of collections session) as [account|] eqn:Ac; [|done]. cbn in R.
  destruct (sign_for _ _ _ _ _ _ _ _) as [access|]; [|done]. injection R as <-. cbn.
  unfold rotate in Ro. destruct (answers e1); [|done]. cbn [negb] in Ro.
  destruct (claim hash_token e1 token t) as [t2 [claimed|]] eqn:C.
  2: { destruct (peek hash_token e2 token t2) as [[s|]|]; [destruct (revoked s)| |]; try done.
       by destruct (revoke_family e3 (family_id s) t2) as [? [?|]]. }
  destruct (claim_Some _ _ _ _ _ _ N C) as (row & X & U & H & L & -> & -> & V & Sp).
  destruct (find_hash_in _ _ _ F) as [O Ho].
  assert (row = old) as -> by (apply (hash_unique t); congruence). clear O Ho.
  apply issue_Ok in Ro as (D & -> & -> & Fresh).
  set (new := new_row hash_token e2 next (collection_id (from_row (revoke_row (now e1) old)))
                (user_id (from_row (revoke_row (now e1) old))) (family_id (from_row (revoke_row (now e1) old)))) in *.
  assert (An : Sessions.account new = Sessions.account old).
  { unfold Sessions.account, new, new_row, nullif_empty. cbn. case_decide as Z; cbn; [by rewrite Z|done]. }
  exists old, new, account. destruct (account_for_ids _ _ Ac) as [Ia Ca].
  split_and!; try done.
  - intros q [Q|Q%list_elem_of_singleton]%elem_of_app Hq; [by apply Sp|]. subst q. exfalso.
    eapply (Fresh (revoking e1 (claimable hash_token e1 token) old)); [by apply list_elem_of_fmap_2|].
    rewrite V. cbn. cbn in Hq. congruence.
  - apply elem_of_app. right. by apply list_elem_of_singleton.
  - rewrite Ca. cbn. unfold nullif_empty. case_decide as Z; cbn; [|done]. cbn in Z. by rewrite Z.
Qed.

End refreshes.

(** * A lockout that misses a spelling *)

Module Sample.

Definition users : Collection :=
  {| Types.collection_id := "c1"; collection_name := "users"; collection_type := CAuth; collection_options := JObject [];
     rules := JObject []; fields := [] |}.
Definition ada : AuthRow :=
  {| ar_id := "u1"; ar_email := Some "ada@example.com"; ar_password_hash := Some "correct"; ar_token_key := None |}.
Definition at_ (n : Z) : Clock := {| c_now := n; c_sweep := λ _, n; c_test := n; c_retry := n |}.
Definition five : Limits := {| limit := 5; window := 900 * 10 ^ 9 |}.
Definition locked : World :=
  {| buckets := {| counts := {["users:ada@example.com" := {| used := 5; started := 0 |}]}; swept := 0 |};
     superusers := []; auth_rows := λ _, [ada]; sessions := [] |}.
Definition env (n : Z) (token : string) : Env := {| now := n; answers := true; drawn := Some token; drawn_id := token |}.

(** Every text is its own hash and signature. *)
Definition login (collection : string) : Buckets * Table * Answer :=
  auth_with_password (λ s, s) (λ p h, bool_decide (p = h)) to_ascii_lowercase (λ c, Some (c_sub c)) five (at_ 1) (at_ 2)
    {| kid := "k"; clock := 0 |} (env 0 "t") "f" "" [users] collection "Ada@example.com" "correct" locked.

End Sample.

(** The lockout counts an account under the collection as the address of the
    request spells it, and the collection answers to its id as well: locked
    under the name, the account is still signed in under the id, so a guesser
    has the allowance twice. *)
Theorem lockout_misses_the_id :
  schema_get [Sample.users] "users" = schema_get [Sample.users] "c1"
  ∧ (Sample.login "users").2 = TooMany 899
  ∧ ∃ outcome, (Sample.login "c1").2 = SignedIn outcome ∧ o_user outcome = "u1".
Proof. split_and!; [reflexivity|vm_compute; reflexivity|vm_compute; eexists; split; reflexivity]. Qed.

Lemma refresh_spec_witness :
  let row := {| r_id := "s"; r_collection := Some "c1"; r_user := "u1"; r_hash := "t0"; r_family := "f"; r_expires := 9; r_revoked := None |} in
  ∃ outcome t', refresh (λ s, s) (λ c, Some (c_sub c)) {| kid := "k"; clock := 0 |} (Sample.env 1 "") (Sample.env 1 "") (Sample.env 1 "t1")
      (Sample.env 1 "") "t0" [] (λ _, [Sample.ada]) [Sample.users] (Some "users") [row] = (t', Ok outcome)
  ∧ o_user outcome = "u1".
Proof.
  intros row.
  pose proof (refresh_spec (λ s, s) (λ c, Some (c_sub c)) [] (λ _, [Sample.ada]) [Sample.users] {| kid := "k"; clock := 0 |}
    (Sample.env 1 "") (Sample.env 1 "") (Sample.env 1 "t1") (Sample.env 1 "") "t0" "users" [row]) as R.
  destruct (refresh _ _ _ _ _ _ _ _ _ _ _ _ _) as [t' r] eqn:E.
  assert (X : ∃ outcome, r = Ok outcome) by (vm_compute in E; injection E as _ <-; by eexists).
  destruct X as [outcome ->].
  destruct R as [_ R]; [vm_compute; repeat constructor; set_solver|reflexivity|].
  destruct (R outcome eq_refl) as (old & new & account & F & _ & _ & _ & _ & _ & _ & _ & _ & _ & _ & U & _).
  exists outcome, t'. split; [done|]. rewrite U. vm_compute in F. injection F as <-. done.
Defined.
