(* ===== verification/Jobs.v ===== *)
(** The job queue over [_jobs], [crates/api/src/jobs.rs].

    A worker claims the jobs that are due, performs them one after the other
    and records each outcome; a claim whose lease has passed is handed back.
    The statements are functions on the rows, each atomic; [run_due] is the pass
    of a worker, with the time its jobs take and the statements that may fail,
    and [step] interleaves any number of workers. What a job does is a
    parameter: performing it ends with a success or with a message. Instants are microseconds; of a payload
    only the kind is modelled. *)
From S2P Require Import Prelude CoreError.
From stdpp Require Import sorting.

Local Open Scope Z_scope.
Local Set Warnings "-register-all,-clear-no-such-hyp".

(** [status], less the value nothing writes. *)
Inductive Status := Pending | Running | Done | Dead.

#[export] Instance Status_eq_dec : EqDecision Status.
Proof. solve_decision. Defined.

(** A row of [_jobs]. *)
Record Job := {
  j_id : string;
  j_kind : string;
  j_status : Status;
  j_priority : Z;
  j_attempts : Z;
  j_max : Z;
  j_run_at : Z;
  j_locked : option (string * Z);
  j_error : option string;
}.

Definition DEFAULT_MAX_ATTEMPTS : Z := 5.
Definition MAX_BACKOFF_SECONDS : Z := 300.
Definition second : Z := 1000000.

(** [struct NewJob] and its builders. *)
Record NewJob := { n_kind : string; n_priority : Z; n_max : Z; n_delay : Z }.
Definition new_job (kind : string) : NewJob :=
  {| n_kind := kind; n_priority := 0; n_max := DEFAULT_MAX_ATTEMPTS; n_delay := 0 |}.
Definition after (n : NewJob) (delay : Z) : NewJob :=
  {| n_kind := n_kind n; n_priority := n_priority n; n_max := n_max n; n_delay := delay |}.
Definition with_max_attempts (n : NewJob) (m : Z) : NewJob :=
  {| n_kind := n_kind n; n_priority := n_priority n; n_max := m; n_delay := n_delay n |}.

(** [enqueue]; the id is a primary key. *)
Definition enqueue (now : Z) (id : string) (n : NewJob) (t : list Job) : list Job * result string :=
  if existsb (λ j, bool_decide (j_id j = id)) t then (t, Err Internal)
  else (t ++ [{| j_id := id; j_kind := n_kind n; j_status := Pending; j_priority := n_priority n; j_attempts := 0;
                 j_max := n_max n; j_run_at := now + n_delay n; j_locked := None; j_error := None |}], Ok id).

(** [backoff_seconds]: a power of two, capped. *)
Definition backoff_seconds (attempts : Z) : Z := Z.min (2 ^ Z.max 1 (Z.min attempts 16)) MAX_BACKOFF_SECONDS.

(** [struct Claimed], with the id, the attempts and the budget read. *)
Record Claimed := { cl_id : string; cl_kind : string; cl_attempts : Z; cl_max : Z }.

Definition claimed_of (j : Job) : Claimed :=
  {| cl_id := j_id j; cl_kind := j_kind j; cl_attempts := j_attempts j; cl_max := j_max j |}.

(** [order by priority desc, run_at]; equal jobs keep the table's order. *)
Definition before (a b : Job) : Prop :=
  j_priority b < j_priority a ∨ (j_priority a = j_priority b ∧ j_run_at a ≤ j_run_at b).
#[export] Instance before_dec a b : Decision (before a b) := _.

Definition due (now : Z) (j : Job) : Prop := j_status j = Pending ∧ j_run_at j ≤ now.
#[export] Instance due_dec now j : Decision (due now j) := _.

(** The rows the subquery of [claim] picks; another transaction's locked rows
    are skipped. *)
Definition chosen (now : Z) (limit : nat) (locked : list string) (t : list Job) : list Job :=
  take limit (merge_sort before (filter (λ j, due now j ∧ j_id j ∉ locked) t)).

Definition hold (now : Z) (worker : string) (j : Job) : Job :=
  {| j_id := j_id j; j_kind := j_kind j; j_status := Running; j_priority := j_priority j; j_attempts := j_attempts j;
     j_max := j_max j; j_run_at := j_run_at j; j_locked := Some (worker, now); j_error := j_error j |}.

(** [claim]. An [update] that returns its rows promises no order on them:
    [order] is the database's. *)
Definition claim (now : Z) (worker : string) (limit : nat) (locked : list string) (order : list Claimed → list Claimed)
    (t : list Job) : list Job * list Claimed :=
  let picked := chosen now limit locked t in
  ((λ j, if decide (j_id j ∈ j_id <$> picked) then hold now worker j else j) <$> t, order (claimed_of <$> picked)).
Definition reorders (order : list Claimed → list Claimed) : Prop := ∀ l, order l ≡ₚ l.

(** [reclaim_stale]; [lease] is in microseconds. *)
Definition stale (now lease : Z) (j : Job) : bool :=
  bool_decide (j_status j = Running)
  && match j_locked j with Some (_, at_) => at_ <? now - lease | None => false end.

Definition hand_back (now : Z) (j : Job) : Job :=
  {| j_id := j_id j; j_kind := j_kind j;
     j_status := if decide (j_max j ≤ j_attempts j + 1) then Dead else Pending;
     j_priority := j_priority j; j_attempts := j_attempts j + 1; j_max := j_max j; j_run_at := now; j_locked := None;
     j_error := Some (default "the worker holding this job stopped" (j_error j)) |}.

Definition reclaim_stale (now lease : Z) (t : list Job) : list Job * nat :=
  ((λ j, if stale now lease j then hand_back now j else j) <$> t, length (filter (λ j, stale now lease j = true) t)).

(** The update [run_one] makes: done, dead, or pending again after a delay. The
    attempts of a failure are those read by the claim, plus one. *)
Definition finished (now : Z) (c : Claimed) (outcome : option string) (j : Job) : Job :=
  match outcome with
  | None =>
      {| j_id := j_id j; j_kind := j_kind j; j_status := Done; j_priority := j_priority j; j_attempts := j_attempts j + 1;
         j_max := j_max j; j_run_at := j_run_at j; j_locked := None; j_error := None |}
  | Some message =>
      let attempts := cl_attempts c + 1 in
      if decide (cl_max c ≤ attempts) then
        {| j_id := j_id j; j_kind := j_kind j; j_status := Dead; j_priority := j_priority j; j_attempts := attempts;
           j_max := j_max j; j_run_at := now; j_locked := None; j_error := Some message |}
      else
        {| j_id := j_id j; j_kind := j_kind j; j_status := Pending; j_priority := j_priority j; j_attempts := attempts;
           j_max := j_max j; j_run_at := now + backoff_seconds attempts * second; j_locked := None;
           j_error := Some message |}
  end.

(** [run_one], once the job has been performed. *)
Definition run_one (now : Z) (c : Claimed) (outcome : option string) (t : list Job) : list Job :=
  (λ j, if decide (j_id j = cl_id c) then finished now c outcome j else j) <$> t.

(** What a pass meets: whether its two statements get through, the rows other
    claims hold locked and the order the claim comes back in; of each job, how
    long it takes, how it ends, and whether its outcome can be recorded. *)
Record Pass := {
  reclaims : bool;
  claims : bool;
  locked : list string;
  order : list Claimed → list Claimed;
  perform : Claimed → Z * option string * bool;
}.

(** The loop of [run_due] and [run_due], with the table and the clock they
    leave. The first statement that fails ends the pass. *)
Fixpoint run_jobs (p : Pass) (ran : nat) (now : Z) (t : list Job) (cs : list Claimed) : list Job * Z * result nat :=
  match cs with
  | [] => (t, now, Ok ran)
  | c :: cs =>
      let '(duration, outcome, recorded) := perform p c in
      let now := now + duration in
      if (recorded : bool) then run_jobs p ran now (run_one now c outcome t) cs else (t, now, Err Internal)
  end.

Definition run_due (now lease : Z) (worker : string) (limit : nat) (p : Pass) (t : list Job) : list Job * Z * result nat :=
  if negb (reclaims p) then (t, now, Err Internal)
  else
    let t := (reclaim_stale now lease t).1 in
    if negb (claims p) then (t, now, Err Internal)
    else
      let '(t, cs) := claim now worker limit (locked p) (order p) t in
      run_jobs p (length cs) now t cs.

(** * Workers side by side *)

(** The table, the clock, the jobs workers hold, and, for each job, how many
    times a worker performed it to the end. *)
Record Queue := {
  jobs : list Job;
  clock : Z;
  held : list (string * Z * Claimed);
  performed : list string;
}.

Definition empty : Queue := {| jobs := []; clock := 0; held := []; performed := [] |}.

(** A worker that stops, or cannot record an outcome, leaves its row running
    and forgets it. *)
Inductive step (limit : nat) (lease : Z) : Queue → Queue → Prop :=
  | step_tick q d : 0 ≤ d →
      step limit lease q {| jobs := jobs q; clock := clock q + d; held := held q; performed := performed q |}
  | step_enqueue q id n t r : 1 ≤ n_max n → 0 ≤ n_delay n → enqueue (clock q) id n (jobs q) = (t, r) →
      step limit lease q {| jobs := t; clock := clock q; held := held q; performed := performed q |}
  | step_claim q worker locked order t cs : reorders order → claim (clock q) worker limit locked order (jobs q) = (t, cs) →
      step limit lease q {| jobs := t; clock := clock q; held := held q ++ ((λ c, (worker, clock q, c)) <$> cs);
                            performed := performed q |}
  | step_reclaim q t n : reclaim_stale (clock q) lease (jobs q) = (t, n) →
      step limit lease q {| jobs := t; clock := clock q; held := held q; performed := performed q |}
  | step_finish q l1 h l2 outcome : held q = l1 ++ h :: l2 →
      step limit lease q {| jobs := run_one (clock q) h.2 outcome (jobs q); clock := clock q; held := l1 ++ l2;
                            performed := cl_id h.2 :: performed q |}
  | step_stop q l1 h l2 : held q = l1 ++ h :: l2 →
      step limit lease q {| jobs := jobs q; clock := clock q; held := l1 ++ l2; performed := performed q |}.

Arguments run_due : simpl never.
Arguments claim : simpl never.

(** * The order of claims *)

#[export] Instance before_total : Total before.
Proof. intros a b. unfold before. lia. Qed.
#[export] Instance before_trans : Transitive before.
Proof. intros a b c. unfold before. lia. Qed.

Definition ids (t : list Job) : list string := j_id <$> t.

Lemma chosen_in now limit locked t j : j ∈ chosen now limit locked t → j ∈ t ∧ due now j ∧ j_id j ∉ locked.
Proof.
  unfold chosen. intros J. apply elem_of_take in J as (i & J & _). apply list_elem_of_lookup_2 in J.
  rewrite merge_sort_Permutation in J. apply list_elem_of_filter in J. naive_solver.
Qed.

Lemma job_unique t a b : NoDup (ids t) → a ∈ t → b ∈ t → j_id a = j_id b → a = b.
Proof.
  intros N A B E. apply list_elem_of_lookup in A as [i A]. apply list_elem_of_lookup in B as [k B].
  assert (i = k) as ->; [|congruence]. eapply (NoDup_lookup _ i k (j_id a)); [exact N|..]; unfold ids; rewrite list_lookup_fmap.
  - by rewrite A.
  - rewrite B. cbn. by rewrite E.
Qed.

Lemma chosen_NoDup now limit locked t : NoDup (ids t) → NoDup (ids (chosen now limit locked t)).
Proof.
  intros N. unfold chosen, ids. eapply sublist_NoDup; [|apply fmap_sublist, sublist_take].
  rewrite merge_sort_Permutation. eapply sublist_NoDup; [exact N|]. apply fmap_sublist, sublist_filter.
Qed.

Lemma chosen_id now limit locked t j :
  NoDup (ids t) → j ∈ t → j_id j ∈ ids (chosen now limit locked t) → j ∈ chosen now limit locked t.
Proof.
  intros N J H. apply list_elem_of_fmap in H as (j' & E & H). pose proof (chosen_in _ _ _ _ _ H) as [J' _].
  by rewrite (job_unique t j j').
Qed.

(** Something is claimed when something is due. *)
Lemma chosen_some now limit t j : (0 < limit)%nat → j ∈ t → due now j → chosen now limit [] t ≠ [].
Proof.
  intros L J D E. unfold chosen in E.
  assert (X : j ∈ merge_sort before (filter (λ j, due now j ∧ j_id j ∉ []) t)).
  { rewrite merge_sort_Permutation. apply list_elem_of_filter. split; [split; [done|apply not_elem_of_nil]|done]. }
  destruct (merge_sort before _) as [|y l]; [by apply not_elem_of_nil in X|]. destruct limit; [lia|done].
Qed.

(** Nothing that stays is more urgent than what is claimed. *)
Lemma claim_is_fair now limit locked t a b :
  NoDup (ids t) → a ∈ chosen now limit locked t → b ∈ t → due now b → j_id b ∉ locked → b ∉ chosen now limit locked t →
  before a b.
Proof.
  intros N A B D U C. unfold chosen in *. set (l := merge_sort before _) in *.
  assert (S : StronglySorted before l) by apply (StronglySorted_merge_sort before).
  assert (X : b ∈ l) by (subst l; rewrite merge_sort_Permutation; by apply list_elem_of_filter).
  rewrite <- (take_drop limit l) in S, X. apply elem_of_app in X as [X|X]; [done|].
  clear - S A X. induction (take limit l) as [|y k IH]; [by apply not_elem_of_nil in A|].
  cbn in S. apply StronglySorted_inv in S as [S F]. apply elem_of_cons in A as [->|A]; [|by apply IH].
  rewrite Forall_forall in F. apply F. set_solver.
Qed.

Lemma finished_id now c outcome j : j_id (finished now c outcome j) = j_id j.
Proof. unfold finished. destruct outcome; [case_decide|]; done. Qed.

(** * Workers within their leases *)

Section leases.
Context (limit : nat) (lease : Z).

(** A run in which no worker holds a job longer than its lease: it finishes,
    or stops. *)
Definition prompt (q q' : Queue) : Prop :=
  step limit lease q q' ∧ Forall (λ '(_, at_, _), clock q - lease ≤ at_) (held q).

Definition performed_count (id : string) (l : list string) : Z := len (filter (λ i, i = id) l).
Arguments performed_count : simpl never.

(** The row of a held job. *)
Definition row_of (t : list Job) (h : string * Z * Claimed) : Prop :=
  let '(w, at_, c) := h in
  ∃ j, j ∈ t ∧ claimed_of j = c ∧ j_status j = Running ∧ j_locked j = Some (w, at_).

Definition held_ids (l : list (string * Z * Claimed)) : list string := (λ h, cl_id h.2) <$> l.

Record safe (q : Queue) : Prop := {
  safe_ids : NoDup (ids (jobs q));
  safe_rows : ∀ j, j ∈ jobs q → 0 ≤ j_attempts j ≤ j_max j
    ∧ (j_status j = Pending ∨ j_status j = Running → j_attempts j < j_max j)
    ∧ performed_count (j_id j) (performed q) ≤ j_attempts j;
  safe_held : Forall (row_of (jobs q)) (held q);
  safe_one : NoDup (held_ids (held q));
  safe_absent : ∀ id, id ∉ ids (jobs q) → performed_count id (performed q) = 0;
}.

Lemma safe_empty : safe empty.
Proof.
  split; [constructor|by intros ? ?%not_elem_of_nil|constructor|constructor|done].
Qed.

Lemma fmap_id_jobs (f : Job → Job) t : (∀ j, j_id (f j) = j_id j) → ids (f <$> t) = ids t.
Proof. intros F. unfold ids. rewrite <- list_fmap_compose. apply list_fmap_ext. intros i j _. apply F. Qed.

(** Held jobs keep their rows when only other rows change. *)
Lemma held_kept (f : Job → Job) t l :
  Forall (row_of t) l → (∀ j, j ∈ t → j_id j ∈ held_ids l → f j = j) → Forall (row_of (f <$> t)) l.
Proof.
  intros F K. rewrite Forall_forall in *. intros [[w at_] c] H. destruct (F _ H) as (j & J & C & S & L).
  exists j. split; [|done]. apply list_elem_of_fmap. exists j. split; [|done]. symmetry. apply K; [done|].
  apply list_elem_of_fmap. exists (w, at_, c). split; [|done]. cbn. by rewrite <- C.
Qed.

Lemma safe_enqueue q id n t r :
  safe q → 1 ≤ n_max n → enqueue (clock q) id n (jobs q) = (t, r) →
  safe {| jobs := t; clock := clock q; held := held q; performed := performed q |}.
Proof.
  intros [N R H O A] M E. unfold enqueue in E. destruct (existsb _ _) eqn:X; injection E as <- _; [done|].
  assert (F : id ∉ ids (jobs q)).
  { intros I. apply list_elem_of_fmap in I as (j & -> & J).
    assert (existsb (λ j', bool_decide (j_id j' = j_id j)) (jobs q) = true); [|congruence].
    apply existsb_exists. exists j. split; [by apply list_elem_of_In|by apply bool_decide_eq_true]. }
  split; cbn.
  - unfold ids. rewrite fmap_app. apply NoDup_app. split; [done|]. split; [|apply NoDup_singleton].
    intros x I Y%list_elem_of_singleton. cbn in Y. by subst x.
  - intros j [J|J%list_elem_of_singleton]%elem_of_app; [by apply R|]. subst j. cbn.
    split; [lia|]. split; [lia|]. by rewrite (A id F).
  - eapply Forall_impl; [exact H|]. intros [[w at_] c] (j & J & ?). exists j. split; [set_solver|done].
  - done.
  - intros i I. apply A. intros I'. apply I. unfold ids in *. rewrite fmap_app. set_solver.
Qed.

Lemma safe_claim q worker locked order t cs :
  safe q → reorders order → claim (clock q) worker limit locked order (jobs q) = (t, cs) →
  safe {| jobs := t; clock := clock q; held := held q ++ ((λ c, (worker, clock q, c)) <$> cs); performed := performed q |}.
Proof.
  intros [N R H O A] Or C. unfold claim in C. injection C as <- <-.
  set (picked := chosen (clock q) limit locked (jobs q)) in *. fold (ids picked).
  set (f := λ j, if decide (j_id j ∈ ids picked) then hold (clock q) worker j else j).
  assert (Fid : ∀ j, j_id (f j) = j_id j) by (intros j; unfold f; by case_decide).
  assert (P : ∀ j, j ∈ jobs q → j_id j ∈ ids picked → j_status j = Pending).
  { intros j J I. apply chosen_id in I; [|done..]. apply chosen_in in I as (_ & [? _] & _). done. }
  assert (Hp : ∀ i, i ∈ held_ids (held q) → i ∉ ids picked).
  { intros i I Q. apply list_elem_of_fmap in I as ([[w at_] c] & -> & I). rewrite Forall_forall in H.
    destruct (H _ I) as (j & J & <- & S & _). cbn in Q. specialize (P j J Q). congruence. }
  split; cbn; fold f.
  - by rewrite fmap_id_jobs.
  - intros j' J. apply list_elem_of_fmap in J as (j & -> & J). destruct (R j J) as (R1 & R2 & R3). unfold f.
    case_decide as D; [|done]. cbn. specialize (P j J D). split; [done|]. split; [intros _; apply R2; by left|done].
  - apply Forall_app. split.
    + apply held_kept; [done|]. intros j J I. unfold f. rewrite decide_False; [done|by apply Hp].
    + apply Forall_forall. intros h I.
      apply list_elem_of_fmap in I as (c & -> & I). rewrite (Or (claimed_of <$> picked)) in I.
      apply list_elem_of_fmap in I as (j & -> & I).
      pose proof (chosen_in _ _ _ _ _ I) as [J _]. cbn. exists (hold (clock q) worker j). split; [|done].
      apply list_elem_of_fmap. exists j. split; [|done]. unfold f. rewrite decide_True; [done|]. by apply list_elem_of_fmap_2.
  - assert (E : held_ids ((λ c, (worker, clock q, c)) <$> order (claimed_of <$> picked)) ≡ₚ ids picked).
    { unfold held_ids. rewrite <- list_fmap_compose.
      etransitivity; [apply fmap_Permutation, Or|]. by rewrite <- list_fmap_compose. }
    unfold held_ids in *. rewrite fmap_app. apply NoDup_app. split; [done|]. split.
    + intros i I Q. apply (Hp i I). by rewrite <- E.
    + rewrite E. by apply chosen_NoDup.
  - intros i I. apply A. by rewrite fmap_id_jobs in I.
Qed.

Lemma safe_reclaim q t n :
  safe q → Forall (λ '(_, at_, _), clock q - lease ≤ at_) (held q) → reclaim_stale (clock q) lease (jobs q) = (t, n) →
  safe {| jobs := t; clock := clock q; held := held q; performed := performed q |}.
Proof.
  intros [N R H O A] L C. unfold reclaim_stale in C. injection C as <- _.
  assert (Fid : ∀ j, j_id (if stale (clock q) lease j then hand_back (clock q) j else j) = j_id j)
    by (intros j; by destruct (stale _ _ _)).
  split; cbn.
  - by rewrite fmap_id_jobs.
  - intros j' J. apply list_elem_of_fmap in J as (j & -> & J). destruct (R j J) as (R1 & R2 & R3).
    destruct (stale (clock q) lease j) eqn:S; [|done]. unfold stale in S.
    apply andb_true_iff in S as [S%bool_decide_eq_true _]. specialize (R2 ltac:(by right)).
    unfold hand_back. cbn. split; [lia|]. split; [case_decide; [by intros [?|?]|lia]|]. lia.
  - apply held_kept; [done|]. intros j J I. apply list_elem_of_fmap in I as ([[w at_] c] & E & I).
    rewrite Forall_forall in H, L. destruct (H _ I) as (j' & J' & C & S & K). specialize (L _ I). cbn in L, E.
    assert (j' = j) as -> by (apply (job_unique (jobs q)); try done; rewrite E, <- C; done).
    unfold stale. rewrite K. destruct (at_ <? clock q - lease) eqn:B; [apply Z.ltb_lt in B; lia|]. by rewrite andb_false_r.
  - done.
  - intros i I. apply A. by rewrite fmap_id_jobs in I.
Qed.

Lemma safe_finish q l1 h l2 outcome :
  safe q → held q = l1 ++ h :: l2 →
  safe {| jobs := run_one (clock q) h.2 outcome (jobs q); clock := clock q; held := l1 ++ l2;
          performed := cl_id h.2 :: performed q |}.
Proof.
  intros [N R H O A] E. rewrite E in *. destruct h as [[w at_] c]. cbn [snd].
  assert (Hr : row_of (jobs q) (w, at_, c)) by (rewrite Forall_app, Forall_cons in H; apply H).
  destruct Hr as (j0 & J0 & C0 & S0 & L0).
  assert (Nh : cl_id c ∉ held_ids (l1 ++ l2)).
  { unfold held_ids in *. rewrite fmap_app, fmap_cons in O. rewrite fmap_app. apply NoDup_app in O as (_ & O1 & O2).
    apply NoDup_cons in O2 as [O2 _]. intros [I|I]%elem_of_app; [|done]. apply (O1 _ I). by left. }
  assert (Fid : ∀ j, j_id (if decide (j_id j = cl_id c) then finished (clock q) c outcome j else j) = j_id j)
    by (intros j; case_decide; [by rewrite finished_id|done]).
  assert (Cnt : ∀ i, performed_count i (cl_id c :: performed q)
                     = (if decide (cl_id c = i) then 1 else 0) + performed_count i (performed q)).
  { intros i. unfold performed_count. rewrite filter_cons. unfold len. case_decide; cbn [length]; lia. }
  split; cbn [jobs clock held performed].
  - unfold run_one. by rewrite fmap_id_jobs.
  - intros j' J. rewrite Cnt. unfold run_one in J. apply list_elem_of_fmap in J as (j & -> & J). destruct (R j J) as (R1 & R2 & R3).
    case_decide as D; [|rewrite decide_False by congruence; split_and!; [lia..|tauto|lia]].
    assert (j = j0) as -> by (apply (job_unique (jobs q)); try done; rewrite D, <- C0; done).
    rewrite finished_id, decide_True by congruence. specialize (R2 ltac:(by right)).
    assert (Ca : cl_attempts c = j_attempts j0 ∧ cl_max c = j_max j0) by (by rewrite <- C0). destruct Ca as [Ca Cm].
    unfold finished. destruct outcome as [m|]; cbn; [|split_and!; [lia..|by intros [?|?]|lia]].
    rewrite Ca, Cm. destruct (decide (j_max j0 ≤ j_attempts j0 + 1)); cbn; split_and!; try lia. by intros [?|?].
  - unfold run_one. apply held_kept; [rewrite Forall_app, Forall_cons in H; apply Forall_app; tauto|].
    intros j J I. rewrite decide_False; [done|]. intros D. by rewrite D in I.
  - unfold held_ids in *. rewrite fmap_app, fmap_cons in O. rewrite fmap_app. apply NoDup_app in O as (O1 & O2 & O3).
    apply NoDup_cons in O3 as [_ O3]. apply NoDup_app. split; [done|]. split; [|done]. intros i I1 I2. apply (O2 i I1). by right.
  - intros i I. unfold run_one in I. rewrite fmap_id_jobs in I by done. rewrite Cnt, (A i I), decide_False; [done|].
    intros <-. apply I. rewrite <- C0. by apply (list_elem_of_fmap_2 j_id).
Qed.

Lemma safe_stop q l1 h l2 :
  safe q → held q = l1 ++ h :: l2 →
  safe {| jobs := jobs q; clock := clock q; held := l1 ++ l2; performed := performed q |}.
Proof.
  intros [N R H O A] E. rewrite E in *. split; cbn; try done.
  - rewrite Forall_app, Forall_cons in H. apply Forall_app. tauto.
  - unfold held_ids in *. rewrite fmap_app, fmap_cons in O. rewrite fmap_app. apply NoDup_app in O as (O1 & O2 & O3).
    apply NoDup_cons in O3 as [_ O3]. apply NoDup_app. split; [done|]. split; [|done]. intros i I1 I2. apply (O2 i I1). by right.
Qed.

Lemma safe_run q : rtc prompt empty q → safe q.
Proof.
  intros Run. cut (∀ q0, rtc prompt q0 q → safe q0 → safe q); [intros K; apply (K empty Run safe_empty)|].
  clear Run. intros q0 Run. induction Run as [|x y z [St L] _ IH]; [done|]. intros S. apply IH.
  destruct St.
  - by destruct S.
  - eapply safe_enqueue; eauto.
  - eapply safe_claim; eauto.
  - eapply safe_reclaim; eauto.
  - eapply safe_finish; eauto.
  - eapply safe_stop; eauto.
Qed.

(** C15. Any number of workers, in any interleaving in which none holds a job past
    its lease: no two hold the same job, a held job is running under its
    holder's name and nobody holds a settled one, and no job is performed more
    often than its attempts allow. *)
Theorem jobs_run_exclusively q :
  rtc prompt empty q →
  NoDup (held_ids (held q))
  ∧ (∀ w at_ c j, (w, at_, c) ∈ held q → j ∈ jobs q → j_id j = cl_id c → j_status j = Running ∧ j_locked j = Some (w, at_))
  ∧ ∀ j, j ∈ jobs q → performed_count (j_id j) (performed q) ≤ j_attempts j ≤ j_max j.
Proof.
  intros S%safe_run. split_and!.
  - apply (safe_one q S).
  - intros w at_ c j H J E. pose proof (safe_held q S) as F. rewrite Forall_forall in F.
    destruct (F _ H) as (j' & J' & C & St & L).
    assert (j' = j) as ->; [|done]. apply (job_unique (jobs q)); [apply (safe_ids q S)|done..|]. rewrite E, <- C. done.
  - intros j J. destruct (safe_rows q S j J) as (? & _ & ?). lia.
Qed.

(** * Every job settles *)

(** A step while nothing is enqueued. *)
Definition quiet (q q' : Queue) : Prop := prompt q q' ∧ ids (jobs q') = ids (jobs q).

(** The two statements a pass begins with, got through. *)
Definition hands_back (q q' : Queue) : Prop :=
  quiet q q' ∧ ∃ t n, reclaim_stale (clock q) lease (jobs q) = (t, n)
    ∧ q' = {| jobs := t; clock := clock q; held := held q; performed := performed q |}.
Definition takes (q q' : Queue) : Prop :=
  quiet q q' ∧ ∃ worker order t cs, claim (clock q) worker limit [] order (jobs q) = (t, cs)
    ∧ q' = {| jobs := t; clock := clock q; held := held q ++ ((λ c, (worker, clock q, c)) <$> cs); performed := performed q |}.

(** More than [D] of anything at all - jobs that run on, end, fail, workers
    that stop, other passes - and in it, after the [D], one pass of one worker
    whose two statements get through. *)
Inductive round (D : Z) : Queue → Queue → Prop :=
  | a_round q q1 q2 q3 q4 q' :
      rtc quiet q q1 → clock q + D < clock q1 → hands_back q1 q2 → rtc quiet q2 q3 → takes q3 q4 → rtc quiet q4 q' →
      round D q q'.

(** What the attempts a job has left can still cost: each a claim and an end. *)
Definition share (j : Job) : nat :=
  match j_status j with
  | Pending => 2 * Z.to_nat (j_max j - j_attempts j)
  | Running => 2 * Z.to_nat (j_max j - j_attempts j) - 1
  | Done | Dead => 0
  end.
Definition work (t : list Job) : nat := sum_list_with share t.

Definition settled (j : Job) : Prop := j_status j = Done ∨ j_status j = Dead.

(** Nothing changes, or there is less to do. *)
Definition shrinks (t t' : list Job) : Prop := t' = t ∨ (work t' < work t)%nat.

Lemma shrinks_trans t1 t2 t3 : shrinks t1 t2 → shrinks t2 t3 → shrinks t1 t3.
Proof. unfold shrinks. intros [->|?] [->|?]; auto. right. lia. Qed.

Lemma shrinks_work t t' : shrinks t t' → (work t' ≤ work t)%nat.
Proof. intros [->|?]; lia. Qed.

Lemma map_shrinks (f : Job → Job) t : (∀ j, j ∈ t → f j = j ∨ (share (f j) < share j)%nat) → shrinks t (f <$> t).
Proof.
  induction t as [|j t IH]; intros H; [by left|]. cbn.
  destruct IH as [E|L]; [intros k K; apply H; by right|..]; (destruct (H j ltac:(by left)) as [Ej|Lj]).
  - left. by rewrite E, Ej.
  - right. rewrite E. cbn. unfold work. lia.
  - right. rewrite Ej. unfold work in *. cbn. lia.
  - right. unfold work in *. cbn. lia.
Qed.

Lemma map_changes (f : Job → Job) t j :
  shrinks t (f <$> t) → j ∈ t → f j ≠ j → (work (f <$> t) < work t)%nat.
Proof.
  intros [E|L] J N; [|done]. exfalso. apply N. apply list_elem_of_lookup in J as [i J].
  assert (X : (f <$> t) !! i = Some (f j)) by (by rewrite list_lookup_fmap, J). rewrite E, J in X. by injection X.
Qed.

(** The rows of the claims a worker holds. *)
Lemma held_row q l1 h l2 j :
  safe q → held q = l1 ++ h :: l2 → j ∈ jobs q → j_id j = cl_id h.2 → claimed_of j = h.2 ∧ j_status j = Running.
Proof.
  intros S E J I. pose proof (safe_held q S) as F. rewrite E, Forall_app, Forall_cons in F. destruct F as (_ & F & _).
  destruct h as [[w at_] c]. destruct F as (k & K & C & R & _). cbn in I |- *.
  assert (k = j) as ->; [|done]. apply (job_unique (jobs q)); [apply (safe_ids q S)|done..|]. by rewrite I, <- C.
Qed.

Lemma finished_share now j outcome :
  j_status j = Running → j_attempts j < j_max j → (share (finished now (claimed_of j) outcome j) < share j)%nat.
Proof.
  intros R L. unfold share at 2. rewrite R. unfold finished. destruct outcome as [m|]; [case_decide as D|]; cbn in *; try lia.
Qed.

Lemma hand_back_share now j :
  j_status j = Running → j_attempts j < j_max j → (share (hand_back now j) < share j)%nat.
Proof. intros R L. unfold share at 2. rewrite R. unfold share, hand_back. cbn. case_decide; lia. Qed.

Lemma hold_share now w j : j_status j = Pending → j_attempts j < j_max j → (share (hold now w j) < share j)%nat.
Proof. intros R L. unfold share at 2. rewrite R. unfold share, hold. cbn. lia. Qed.

Lemma enqueue_ids now id n t t' r : enqueue now id n t = (t', r) → ids t' = ids t → t' = t.
Proof.
  unfold enqueue. destruct (existsb _ _); intros [= <- _] E; [done|]. exfalso. apply (f_equal length) in E.
  unfold ids in E. rewrite !length_fmap, length_app in E. cbn in E. lia.
Qed.

Lemma quiet_shrinks q q' : safe q → quiet q q' → shrinks (jobs q) (jobs q').
Proof.
  intros S [[St _] I]. pose proof (safe_rows q S) as R. destruct St; cbn [jobs] in *; try (by left).
  - left. by eapply enqueue_ids.
  - unfold claim in H0. injection H0 as <- _. apply map_shrinks. intros j J. case_decide as D; [|by left]. right.
    apply chosen_id in D; [|apply (safe_ids q S)|done]. apply chosen_in in D as (_ & [P _] & _).
    apply hold_share; [done|]. apply (R j J). by left.
  - unfold reclaim_stale in H. injection H as <- _. apply map_shrinks. intros j J. destruct (stale _ _ j) eqn:E; [|by left]. right.
    apply andb_true_iff in E as [E _]. apply bool_decide_eq_true in E. apply hand_back_share; [done|]. apply (R j J). by right.
  - unfold run_one. apply map_shrinks. intros j J. case_decide as D; [|by left]. right.
    destruct (held_row q l1 h l2 j S H J D) as [<- Rn]. apply finished_share; [done|]. apply (R j J). by right.
Qed.

Lemma prompt_safe q q' : safe q → prompt q q' → safe q'.
Proof.
  intros S [St L]. destruct St.
  - by destruct S.
  - eapply safe_enqueue; eauto.
  - eapply safe_claim; eauto.
  - eapply safe_reclaim; eauto.
  - eapply safe_finish; eauto.
  - eapply safe_stop; eauto.
Qed.

(** ** What rows keep *)

(** A fact of rows that time, claims, hand-backs and ends keep. *)
Record lasting (P : Z → Job → Prop) : Prop := {
  lasting_time : ∀ now now' j, now ≤ now' → P now j → P now' j;
  lasting_hold : ∀ now w j, P now j → P now (hold now w j);
  lasting_back : ∀ now j, P now j → P now (hand_back now j);
  lasting_end : ∀ now o j, P now j → P now (finished now (claimed_of j) o j);
}.

Definition all_rows (P : Z → Job → Prop) (q : Queue) : Prop := ∀ j, j ∈ jobs q → P (clock q) j.

Lemma map_rows (P : Job → Prop) (f : Job → Job) (t : list Job) : (∀ j, j ∈ t → P (f j)) → ∀ j, j ∈ f <$> t → P j.
Proof. intros H j J. apply list_elem_of_fmap in J as (k & -> & J). by apply H. Qed.

Lemma step_rows P q q' :
  lasting P → (∀ id n, ids (jobs q') ≠ ids (jobs q) → P (clock q) {| j_id := id; j_kind := n_kind n; j_status := Pending;
     j_priority := n_priority n; j_attempts := 0; j_max := n_max n; j_run_at := clock q + n_delay n; j_locked := None;
     j_error := None |}) →
  safe q → prompt q q' → all_rows P q → all_rows P q'.
Proof.
  intros [Pt Ph Pb Pe] Fresh S [St _] A. unfold all_rows in *. destruct St; cbn [jobs clock] in *; try done.
  - intros j J. by apply (Pt (clock q)); [lia|apply A].
  - unfold enqueue in H1. destruct (existsb _ _); injection H1 as <- _; [done|].
    intros j [J|J%list_elem_of_singleton]%elem_of_app; [by apply A|]. subst j. apply Fresh.
    intros E. apply (f_equal length) in E. unfold ids in E. rewrite !length_fmap, length_app in E. cbn in E. lia.
  - unfold claim in H0. injection H0 as <- _. apply map_rows. intros j J. case_decide; [by apply Ph, A|by apply A].
  - unfold reclaim_stale in H. injection H as <- _. apply map_rows. intros j J. destruct (stale _ _ _); [by apply Pb, A|by apply A].
  - unfold run_one. apply map_rows. intros j J. case_decide as D; [|by apply A].
    destruct (held_row q l1 h l2 j S H J D) as [<- _]. by apply Pe, A.
Qed.

(** A running row says since when; a dead one has spent its attempts. *)
Definition rooted (now : Z) (j : Job) : Prop :=
  (j_status j = Running → ∃ w at_, j_locked j = Some (w, at_) ∧ at_ ≤ now) ∧ (j_status j = Dead → j_max j ≤ j_attempts j).

Lemma rooted_lasting : lasting rooted.
Proof.
  split.
  - intros now now' j L [R D]. split; [|done]. intros E. destruct (R E) as (w & at_ & ? & ?). exists w, at_. split; [done|lia].
  - intros now w j _. split; [intros _; by exists w, now|done].
  - intros now j _. unfold rooted, hand_back. cbn. by case_decide.
  - intros now o j _. unfold rooted, finished. destruct o; [case_decide as D|]; cbn in *; split; done.
Qed.

(** A pending row is due within [D]. *)
Definition soon (D now : Z) (j : Job) : Prop := j_status j = Pending → j_run_at j ≤ now + D.

Lemma backoff_bound n : backoff_seconds n ≤ 300.
Proof. unfold backoff_seconds, MAX_BACKOFF_SECONDS. lia. Qed.

Lemma soon_lasting D : 300 * second ≤ D → lasting (soon D).
Proof.
  unfold soon, second. intros L. split.
  - intros now now' j ? H E. specialize (H E). lia.
  - done.
  - intros now j _ _. cbn. lia.
  - intros now o j _. unfold finished. destruct o; [case_decide|]; cbn; try done. intros _.
    pose proof (backoff_bound (j_attempts j + 1)). unfold second. lia.
Qed.

(** ** A round makes progress *)

Record ready (D : Z) (q : Queue) : Prop := {
  ready_safe : safe q;
  ready_rooted : all_rows rooted q;
  ready_soon : all_rows (soon D) q;
}.

Lemma quiet_ready D q q' : 300 * second ≤ D → ready D q → quiet q q' → ready D q'.
Proof.
  intros L [S R So] [P I]. split; [by eapply prompt_safe|..]; (eapply step_rows; [..|exact S|exact P|done]); try done.
  - apply rooted_lasting.
  - by apply soon_lasting.
Qed.

Lemma quiet_run D q q' : 300 * second ≤ D → ready D q → rtc quiet q q' → ready D q' ∧ shrinks (jobs q) (jobs q') ∧ clock q ≤ clock q'.
Proof.
  intros L R Run. induction Run as [q|q q1 q2 Q _ IH]; [split; [done|]; split; [by left|lia]|].
  destruct (IH (quiet_ready D q q1 L R Q)) as (R2 & Sh & C). split; [done|]. split.
  - eapply shrinks_trans; [|exact Sh]. by apply quiet_shrinks; [apply R|].
  - destruct Q as [[St _] _]. destruct St; cbn in *; lia.
Qed.

Lemma settled_no_work q : safe q → (work (jobs q) = 0)%nat → Forall settled (jobs q).
Proof.
  intros S W. apply Forall_forall. intros j J. destruct (safe_rows q S j J) as (_ & L & _). unfold settled.
  assert (Z0 : share j = 0%nat).
  { clear - W J. unfold work in W. induction (jobs q) as [|k t IH]; [by apply not_elem_of_nil in J|]. cbn in W.
    apply elem_of_cons in J as [->|J]; [lia|]. apply IH; [lia|done]. }
  unfold share in Z0. destruct (j_status j); auto; specialize (L ltac:(auto)); lia.
Qed.

Lemma no_work_settled t : Forall settled t → work t = 0%nat.
Proof.
  induction 1 as [|j t E _ IH]; [done|]. unfold work in *. cbn. rewrite IH. unfold share. by destruct E as [-> | ->].
Qed.

(** A running row of a round's start is handed back at the latest. *)
Lemma hands_back_progress D q q1 q2 j w at_ :
  ready D q → lease ≤ D → clock q + D < clock q1 → jobs q1 = jobs q → hands_back q1 q2 → shrinks (jobs q) (jobs q2) →
  j ∈ jobs q → j_status j = Running → j_locked j = Some (w, at_) → at_ ≤ clock q → (work (jobs q2) < work (jobs q))%nat.
Proof.
  intros R Ld C E [_ (t & n & Rc & ->)] Sh J Rn Lk La. cbn [jobs] in *. unfold reclaim_stale in Rc. injection Rc as <- _.
  rewrite E in *. eapply map_changes; [exact Sh|exact J|].
  assert (stale (clock q1) lease j = true) as ->.
  { unfold stale. rewrite Lk, bool_decide_eq_true_2 by done. cbn. apply Z.ltb_lt. lia. }
  intros X. apply (f_equal j_locked) in X. cbn in X. congruence.
Qed.

(** A due row is claimed, or a more urgent one. *)
Lemma takes_progress q q' j :
  safe q → (0 < limit)%nat → takes q q' → shrinks (jobs q) (jobs q') → j ∈ jobs q → due (clock q) j →
  (work (jobs q') < work (jobs q))%nat.
Proof.
  intros S L [_ (worker & order & t & cs & C & ->)] Sh J Du. cbn [jobs] in *. unfold claim in C. injection C as <- _.
  destruct (chosen (clock q) limit [] (jobs q)) as [|k l] eqn:E; [by destruct (chosen_some _ _ _ _ L J Du)|].
  assert (K : k ∈ chosen (clock q) limit [] (jobs q)) by (rewrite E; by left). apply chosen_in in K as (K & [Pk _] & _).
  eapply map_changes; [exact Sh|exact K|]. rewrite decide_True by (cbn; by left).
  intros X. apply (f_equal j_status) in X. cbn in X. congruence.
Qed.

Lemma round_progress D q q' :
  (0 < limit)%nat → lease ≤ D → 300 * second ≤ D → ready D q → round D q q' →
  ready D q' ∧ shrinks (jobs q) (jobs q') ∧ (Forall settled (jobs q) ∨ (work (jobs q') < work (jobs q))%nat).
Proof.
  intros Lm Ll Ld R Rd. destruct Rd as [q q1 q2 q3 q4 q' Q1 C H2 Q3 T4 Q5].
  destruct (quiet_run D q q1 Ld R Q1) as (R1 & S1 & C1). pose proof (quiet_ready D q1 q2 Ld R1 (proj1 H2)) as R2.
  pose proof (quiet_shrinks q1 q2 (ready_safe _ _ R1) (proj1 H2)) as S2.
  destruct (quiet_run D q2 q3 Ld R2 Q3) as (R3 & S3 & C3). pose proof (quiet_ready D q3 q4 Ld R3 (proj1 T4)) as R4.
  pose proof (quiet_shrinks q3 q4 (ready_safe _ _ R3) (proj1 T4)) as S4.
  destruct (quiet_run D q4 q' Ld R4 Q5) as (R5 & S5 & _). split; [done|].
  split; [exact (shrinks_trans _ _ _ S1 (shrinks_trans _ _ _ S2 (shrinks_trans _ _ _ S3 (shrinks_trans _ _ _ S4 S5))))|].
  pose proof (shrinks_work _ _ S2). pose proof (shrinks_work _ _ S3). pose proof (shrinks_work _ _ S4). pose proof (shrinks_work _ _ S5).
  destruct S1 as [E1|W1]; [|right; lia]. rewrite E1 in *.
  destruct (decide (Exists (λ j, j_status j = Running) (jobs q))) as [X|NR].
  { right. apply Exists_exists in X as (j & J & Rn). destruct (proj1 (ready_rooted _ _ R j J) Rn) as (w & at_ & Lk & La).
    pose proof (hands_back_progress D q q1 q2 j w at_ R Ll C E1 H2 S2 J Rn Lk La). lia. }
  destruct (decide (Exists (λ j, j_status j = Pending) (jobs q))) as [X|NP].
  - right. apply Exists_exists in X as (j & J & Pn). destruct S2 as [E2|W2]; [|lia]. destruct S3 as [E3|W3]; [|lia].
    assert (Du : due (clock q3) j).
    { split; [done|]. pose proof (ready_soon _ _ R j J Pn). destruct H2 as [_ (t & n & _ & ->)]. cbn in C3. lia. }
    rewrite <- E2, <- E3 in J. pose proof (takes_progress q3 q4 j (ready_safe _ _ R3) Lm T4 S4 J Du). lia.
  - left. apply Forall_forall. intros j J. rewrite <- Forall_Exists_neg, Forall_forall in NR, NP.
    specialize (NR j J). specialize (NP j J). unfold settled. destruct (j_status j); naive_solver.
Qed.

Lemma ready_reachable D q : rtc prompt empty q → all_rows (soon D) q → ready D q.
Proof.
  intros Run So. split; [by apply safe_run| |done]. clear So.
  cut (∀ q0, rtc prompt q0 q → safe q0 → all_rows rooted q0 → all_rows rooted q).
  { intros K. apply (K empty Run safe_empty). by intros j ?%not_elem_of_nil. }
  clear Run. intros q0 Run. induction Run as [|x y z P _ IH]; [done|]. intros S A.
  apply IH; [by eapply prompt_safe|]. eapply step_rows; [apply rooted_lasting| |done..]. done.
Qed.


End leases.

(** * A worker past its lease *)

Module Late.

Definition job (status : Status) (attempts run_at : Z) (locked : option (string * Z)) (error : option string) : Job :=
  {| j_id := "a"; j_kind := "sql"; j_status := status; j_priority := 0; j_attempts := attempts; j_max := 2;
     j_run_at := run_at; j_locked := locked; j_error := error |}.
Definition claimed (attempts : Z) : Claimed := {| cl_id := "a"; cl_kind := "sql"; cl_attempts := attempts; cl_max := 2 |}.
Definition stopped : option string := Some "the worker holding this job stopped".

(** One worker holds the job. *)
Definition one : Queue :=
  {| jobs := [job Running 0 0 (Some ("A", 0)) None]; clock := 0; held := [("A", 0, claimed 0)]; performed := [] |}.

(** Two workers are on the job, and it has been retired. *)
Definition two : Queue :=
  {| jobs := [job Dead 2 800 None stopped]; clock := 800; held := [("A", 0, claimed 0); ("B", 400, claimed 1)]; performed := [] |}.

Lemma reach_one R : (∀ q q', step 1 300 q q' → Forall (λ '(_, at_, _), clock q - 300 ≤ at_) (held q) → R q q') → rtc R empty one.
Proof.
  intros HR. eapply rtc_l.
  { apply HR; [|constructor]. apply (step_enqueue 1 300 empty "a" (with_max_attempts (new_job "sql") 2) [job Pending 0 0 None None] (Ok "a"));
      [cbn; lia|cbn; lia|reflexivity]. }
  eapply rtc_l; [|apply rtc_refl].
  apply HR; [|constructor].
  apply (step_claim 1 300 {| jobs := [job Pending 0 0 None None]; clock := 0; held := []; performed := [] |} "A" [] id
           (jobs one) [claimed 0]); [by intros l|]. vm_compute. reflexivity.
Qed.

Lemma one_to_two : rtc (step 1 300) one two.
Proof.
  eapply rtc_l; [by apply (step_tick 1 300 one 400)|].
  eapply rtc_l; [eapply (step_reclaim 1 300); vm_compute; reflexivity|].
  eapply rtc_l; [eapply (step_claim 1 300 _ "B" [] id); [by intros l|vm_compute; reflexivity]|].
  eapply rtc_l; [by apply (step_tick 1 300 _ 400)|].
  eapply rtc_l; [eapply (step_reclaim 1 300); vm_compute; reflexivity|].
  apply rtc_refl.
Qed.

End Late.

(** The outcome a late worker records is not guarded by its claim: a job that
    ran out of attempts and was retired as dead becomes pending again, with the
    attempts of the first claim, and is performed more often than its budget. *)
Theorem late_worker_revives :
  ∃ q q',
    rtc (step 1 300) empty q ∧ j_status <$> jobs q = [Dead] ∧ j_attempts <$> jobs q = [2]
    ∧ rtc (step 1 300) q q' ∧ j_status <$> jobs q' = [Pending] ∧ j_max <$> jobs q' = [2]
    ∧ performed_count "a" (performed q') = 2
    ∧ ∃ q'', rtc (step 1 300) q' q'' ∧ performed_count "a" (performed q'') = 3.
Proof.
  exists Late.two. eexists. split; [etransitivity; [apply Late.reach_one; auto|apply Late.one_to_two]|].
  split; [reflexivity|]. split; [reflexivity|]. split.
  { eapply rtc_l; [by apply (step_finish 1 300 Late.two [("A", 0, Late.claimed 0)] ("B", 400, Late.claimed 1) [] (Some "failed"))|].
    eapply rtc_l; [by apply (step_finish 1 300 _ [] ("A", 0, Late.claimed 0) [] (Some "failed"))|]. apply rtc_refl. }
  split; [vm_compute; reflexivity|]. split; [reflexivity|]. split; [reflexivity|]. eexists. split.
  { eapply rtc_l; [by apply (step_tick 1 300 _ 10000000)|].
    eapply rtc_l; [eapply (step_claim 1 300 _ "C" [] id); [by intros l|vm_compute; reflexivity]|].
    eapply rtc_l; [by eapply (step_finish 1 300 _ [] _ [] None)|]. apply rtc_refl. }
  reflexivity.
Qed.

Lemma jobs_run_exclusively_witness :
  rtc (prompt 1 300) empty Late.one ∧ NoDup (held_ids (held Late.one)) ∧ held_ids (held Late.one) = ["a"].
Proof.
  assert (R : rtc (prompt 1 300) empty Late.one) by (apply Late.reach_one; by split).
  split; [exact R|]. split; [|reflexivity]. exact (proj1 (jobs_run_exclusively 1 300 Late.one R)).
Defined.

(** * A pass is a run of steps *)

Section pass.
Context (limit : nat) (lease : Z).

Lemma stop_all t now h l pf :
  rtc (step limit lease) {| jobs := t; clock := now; held := h ++ l; performed := pf |}
    {| jobs := t; clock := now; held := h; performed := pf |}.
Proof.
  induction l as [|x l IH]; [by rewrite app_nil_r|]. eapply rtc_l; [|exact IH].
  by apply (step_stop _ _ {| jobs := t; clock := now; held := h ++ x :: l; performed := pf |} h x l).
Qed.

Lemma run_jobs_steps worker at_ p cs ran now t h pf t' now' r :
  (∀ c, 0 ≤ (perform p c).1.1) → run_jobs p ran now t cs = (t', now', r) →
  ∃ pf', rtc (step limit lease) {| jobs := t; clock := now; held := h ++ ((λ c, (worker, at_, c)) <$> cs); performed := pf |}
           {| jobs := t'; clock := now'; held := h; performed := pf' |}.
Proof.
  intros D. revert now t pf. induction cs as [|c cs IH]; intros now t pf R; cbn [run_jobs] in R.
  { injection R as <- <- _. exists pf. cbn. by rewrite app_nil_r. }
  specialize (D c) as Dc. destruct (perform p c) as [[duration outcome] recorded]. cbn in Dc.
  assert (Tick := step_tick limit lease {| jobs := t; clock := now; held := h ++ ((λ c, (worker, at_, c)) <$> c :: cs); performed := pf |} duration Dc).
  cbn [jobs clock held performed] in Tick. destruct recorded.
  - destruct (IH _ _ (cl_id c :: pf) R) as [pf' Run]. exists pf'. eapply rtc_l; [exact Tick|]. eapply rtc_l; [|exact Run].
    by apply (step_finish limit lease {| jobs := t; clock := now + duration; held := h ++ ((λ c, (worker, at_, c)) <$> c :: cs); performed := pf |}
                h (worker, at_, c) ((λ c, (worker, at_, c)) <$> cs) outcome).
  - injection R as <- <- _. exists pf. eapply rtc_l; [exact Tick|]. apply stop_all.
Qed.

(** The pass of a worker with nothing between its statements: the same steps,
    whatever fails. *)
Lemma run_due_steps worker p now t t' now' r h pf :
  reorders (order p) → (∀ c, 0 ≤ (perform p c).1.1) → run_due now lease worker limit p t = (t', now', r) →
  ∃ pf', rtc (step limit lease) {| jobs := t; clock := now; held := h; performed := pf |}
           {| jobs := t'; clock := now'; held := h; performed := pf' |}.
Proof.
  intros Or D R. unfold run_due in R. destruct (reclaims p); [|injection R as <- <- _; by exists pf]. cbn [negb] in R.
  destruct (reclaim_stale now lease t) as [t1 n] eqn:E1. cbn [fst] in R.
  assert (S1 : step limit lease {| jobs := t; clock := now; held := h; performed := pf |}
                 {| jobs := t1; clock := now; held := h; performed := pf |}) by by eapply step_reclaim.
  destruct (claims p); [|injection R as <- <- _; exists pf; by apply rtc_once]. cbn [negb] in R.
  destruct (claim now worker limit (locked p) (order p) t1) as [t2 cs] eqn:E2.
  destruct (run_jobs_steps worker now p cs _ now t2 h pf _ _ _ D R) as [pf' Run]. exists pf'.
  eapply rtc_l; [exact S1|]. eapply rtc_l; [|exact Run].
  by eapply (step_claim limit lease {| jobs := t1; clock := now; held := h; performed := pf |}).
Qed.

End pass.

(** A worker stops with the only job; a second one fails it in its pass, which
    is its last attempt. *)
Module Settling.

Definition day : Z := 300000000.
Definition at_time (n : Z) (j : Job) (h : list (string * Z * Claimed)) (pf : list string) : Queue :=
  {| jobs := [j]; clock := n; held := h; performed := pf |}.
Definition taken : Job := Late.job Running 1 (day + 1) (Some ("B", day + 1)) Late.stopped.
Definition failed : Job := Late.job Dead 2 (day + 1) None (Some "no").

Ltac quiet_step :=
  split; [split; [|repeat (apply Forall_cons; split; [cbn; unfold day; lia|]); apply Forall_nil; exact I]|reflexivity].

Lemma first_round : round 1 300 day Late.one (at_time (day + 1) taken [("B", day + 1, Late.claimed 1)] []).
Proof.
  apply (a_round 1 300 day _ (at_time (day + 1) (Late.job Running 0 0 (Some ("A", 0)) None) [] [])
           (at_time (day + 1) (Late.job Pending 1 (day + 1) None Late.stopped) [] [])
           (at_time (day + 1) (Late.job Pending 1 (day + 1) None Late.stopped) [] [])
           (at_time (day + 1) taken [("B", day + 1, Late.claimed 1)] [])).
  - apply rtc_l with (at_time 0 (Late.job Running 0 0 (Some ("A", 0)) None) [] []); [quiet_step; by apply (step_stop 1 300 Late.one [] ("A", 0, Late.claimed 0) [])|].
    apply rtc_once. quiet_step. by apply (step_tick 1 300 (at_time 0 (Late.job Running 0 0 (Some ("A", 0)) None) [] []) (day + 1)).
  - vm_compute. reflexivity.
  - split; [|by eexists _, _]. quiet_step. by eapply step_reclaim.
  - apply rtc_refl.
  - assert (C : claim (day + 1) "B" 1 [] id [Late.job Pending 1 (day + 1) None Late.stopped] = ([taken], [Late.claimed 1])).
    { vm_compute. reflexivity. }
    split; [|by exists "B", id; eexists _, _]. quiet_step.
    exact (step_claim 1 300 (at_time (day + 1) (Late.job Pending 1 (day + 1) None Late.stopped) [] []) "B" [] id _ _ (λ l, reflexivity l) C).
  - apply rtc_refl.
Qed.

(** A round that ends with nothing left to do. *)
Lemma last_round q0 n pf :
  rtc (quiet 1 300) q0 (at_time n failed [] pf) → clock q0 ≤ n → round 1 300 day q0 (at_time (n + (day + 1)) failed [] pf).
Proof.
  intros Run L. set (q := at_time (n + (day + 1)) failed [] pf). apply (a_round 1 300 day _ q q q q).
  - eapply rtc_r; [exact Run|]. split; [split; [|constructor]|reflexivity].
    by apply (step_tick 1 300 (at_time n failed [] pf) (day + 1)).
  - cbn. lia.
  - split; [|by exists [failed], 0%nat]. split; [split; [|constructor]|reflexivity]. by apply (step_reclaim 1 300 q [failed] 0%nat).
  - apply rtc_refl.
  - assert (C : claim (n + (day + 1)) "B" 1 [] id [failed] = ([failed], [])) by reflexivity.
    split; [|by exists "B", id, [failed], []]. split; [split; [|constructor]|reflexivity].
    exact (step_claim 1 300 q "B" [] id [failed] [] (λ l, reflexivity l) C).
  - apply rtc_refl.
Qed.

Lemma three_rounds : ∃ q, nsteps (round 1 300 day) 3 Late.one q ∧ jobs q = [failed].
Proof.
  exists (at_time (day + 1 + (day + 1) + (day + 1)) failed [] ["a"]). split; [|done].
  apply nsteps_l with (at_time (day + 1) taken [("B", day + 1, Late.claimed 1)] []); [exact first_round|].
  apply nsteps_l with (at_time (day + 1 + (day + 1)) failed [] ["a"]); [apply last_round; [|done]|].
  - apply rtc_once. quiet_step.
    by apply (step_finish 1 300 (at_time (day + 1) taken [("B", day + 1, Late.claimed 1)] []) [] ("B", day + 1, Late.claimed 1) [] (Some "no")).
  - apply nsteps_once. apply last_round; [apply rtc_refl|done].
Qed.

End Settling.


Example backoffs : backoff_seconds <$> [1; 2; 3; 8; 9; 40] = [2; 4; 8; 256; 300; 300].
Proof. reflexivity. Qed.
