(* ===== verification/Crons.v ===== *)
(** Scheduled jobs over [_crons], [crates/api/src/crons.rs]: what may be
    stored, when a job fires and what is recorded.

    The cron expressions and time zones are the libraries': parameters, as is
    what an SQL statement or an HTTP request comes to. Instants are seconds. *)
From S2P Require Import Prelude CoreError Json.
From stdpp Require Import sorting.

Local Open Scope Z_scope.
Local Set Warnings "-register-all,-clear-no-such-hyp".

(** A row of [_crons]. *)
Record Cron := {
  id : string;
  name : string;
  expression : string;
  timezone : string;
  enabled : bool;
  action : string;
  config : Value;
  next_run_at : option Z;
  last_status : option string;
  last_error : option string;
}.

(** [struct CronInput] and [struct Prepared]. *)
Record CronInput := {
  i_name : option string;
  i_expression : option string;
  i_timezone : option string;
  i_enabled : option bool;
  i_action : option string;
  i_config : option Value;
}.
Record Prepared := {
  p_name : string;
  p_expression : string;
  p_timezone : string;
  p_enabled : bool;
  p_action : string;
  p_config : Value;
}.

(** [Job::name] of the stored row, as prepared values. *)
Definition stored (c : Cron) : Prepared :=
  {| p_name := name c; p_expression := expression c; p_timezone := timezone c; p_enabled := enabled c;
     p_action := action c; p_config := config c |}.

(** [validate_action]. *)
Definition config_text (config : Value) (key : string) : string := default "" (v ← get config key; as_str v).

Definition validate_action (action : string) (config : Value) : result unit :=
  let blank key := bool_decide (trim (config_text config key) = "") in
  if decide (action = "http") then if blank "url" then Err Invalid else Ok ()
  else if decide (action = "sql") then if blank "statement" then Err Invalid else Ok ()
  else if decide (action = "hook") then if blank "event" then Err Invalid else Ok ()
  else Err Invalid.

Section crons.
(** [Cron::from_str] of a trimmed text, [Tz::from_str], and
    [find_next_occurrence] after an instant. *)
Context (is_cron : string → bool) (is_timezone : string → bool) (next_occurrence : string → string → Z → option Z).

(** [parse_expression], [parse_timezone] and [next_run_at]. *)
Definition parse_expression (expression : string) : result unit :=
  let expression := trim expression in
  if decide (expression = "") then Err Invalid else if is_cron expression then Ok () else Err Invalid.
Definition parse_timezone (timezone : string) : result unit :=
  if is_timezone (trim timezone) then Ok () else Err Invalid.
Definition next_run (now : Z) (expression timezone : string) : result Z :=
  _ ← parse_expression expression; _ ← parse_timezone timezone;
  ok_or (next_occurrence (trim expression) (trim timezone) now) Invalid.

(** [validate_prepared], [prepare_create] and [prepare_update]. *)
Definition validate_prepared (p : Prepared) : result unit :=
  if decide (trim (p_name p) = "") then Err Invalid
  else
    _ ← parse_expression (p_expression p); _ ← parse_timezone (p_timezone p);
    validate_action (p_action p) (p_config p).

Definition prepare_create (input : CronInput) : result Prepared :=
  let name := trim (default "" (i_name input)) in
  if decide (name = "") then Err Invalid
  else
    let expression := trim (default "" (i_expression input)) in
    if decide (expression = "") then Err Invalid
    else
      let p := {| p_name := name; p_expression := expression; p_timezone := default "UTC" (i_timezone input);
                  p_enabled := default true (i_enabled input); p_action := default "http" (i_action input);
                  p_config := default (JObject []) (i_config input) |} in
      _ ← validate_prepared p; Ok p.

Definition prepare_update (input : CronInput) (existing : Cron) : result Prepared :=
  let p := {| p_name := default (name existing) (i_name input);
              p_expression := default (expression existing) (i_expression input);
              p_timezone := default (timezone existing) (i_timezone input);
              p_enabled := default (enabled existing) (i_enabled input);
              p_action := default (action existing) (i_action input);
              p_config := default (config existing) (i_config input) |} in
  _ ← validate_prepared p; Ok p.

(** [name_taken]. *)
Definition name_taken (n : string) (except : option string) (t : list Cron) : bool :=
  existsb (λ c, bool_decide (name c = n) && negb (bool_decide (Some (id c) = except))) t.

Definition row (i : string) (p : Prepared) (next : option Z) (old : option Cron) : Cron :=
  {| id := i; name := p_name p; expression := p_expression p; timezone := p_timezone p; enabled := p_enabled p;
     action := p_action p; config := p_config p; next_run_at := next;
     last_status := c ← old; last_status c; last_error := c ← old; last_error c |}.

(** [create], [update] and [delete]. The audit entries are not modelled. *)
Definition create (now : Z) (new_id : string) (input : CronInput) (t : list Cron) : list Cron * result Cron :=
  match prepare_create input with
  | Err err => (t, Err err)
  | Ok p =>
      if name_taken (p_name p) None t then (t, Err Conflict)
      else
        match next_run now (p_expression p) (p_timezone p) with
        | Err err => (t, Err err)
        | Ok next => let c := row new_id p (Some next) None in (t ++ [c], Ok c)
        end
  end.

Definition update (now : Z) (i : string) (input : CronInput) (t : list Cron) : list Cron * result Cron :=
  match head (filter (λ c, id c = i) t) with
  | None => (t, Err NotFound)
  | Some existing =>
      match prepare_update input existing with
      | Err err => (t, Err err)
      | Ok p =>
          if name_taken (p_name p) (Some i) t then (t, Err Conflict)
          else
            match next_run now (p_expression p) (p_timezone p) with
            | Err err => (t, Err err)
            | Ok next =>
                let c := row i p (Some next) (Some existing) in
                ((λ c', if decide (id c' = i) then c else c') <$> t, Ok c)
            end
      end
  end.

Definition delete (i : string) (t : list Cron) : list Cron * result unit :=
  if existsb (λ c, bool_decide (id c = i)) t then (filter (λ c, id c ≠ i) t, Ok ()) else (t, Err NotFound).

(** [validate] and [next_runs]: the next runs, each after the one before. *)
Fixpoint next_runs_from (count : nat) (expression timezone : string) (cursor : Z) : option (list Z) :=
  match count with
  | O => Some []
  | S count =>
      next ← next_occurrence (trim expression) (trim timezone) cursor;
      rest ← next_runs_from count expression timezone next; Some (next :: rest)
  end.
Definition next_runs (now : Z) (expression timezone : string) (count : nat) : result (list Z) :=
  _ ← parse_expression expression; _ ← parse_timezone timezone;
  ok_or (next_runs_from count expression timezone now) Invalid.

(** * Running *)

(** What a run comes to: [execute], with what the statement or the request
    came to ([None] for a success). *)
Context (run_sql : string → option string) (run_http : Value → option string) (is_method : string → bool).

Definition execute (c : Cron) : result (string * option string) :=
  let outcome (error : option string) := Ok (match error with None => ("ok", None) | Some e => ("error", Some e) end) in
  if decide (action c = "sql") then outcome (run_sql (config_text (config c) "statement"))
  else if decide (action c = "http") then
    if is_method (default "GET" (v ← get (config c) "method"; as_str v)) then outcome (run_http (config c)) else Err Invalid
  else if decide (action c = "hook") then Err Unsupported
  else Err Invalid.

(** [ADVANCE_SCHEDULE] and [RECORD_RUN]. *)
Definition advance (i : string) (next : option Z) (t : list Cron) : list Cron :=
  (λ c, if decide (id c = i) then row i (stored c) next (Some c) else c) <$> t.
Definition record_run (i : string) (status : string) (error : option string) (t : list Cron) : list Cron :=
  (λ c, if decide (id c = i)
        then {| id := id c; name := name c; expression := expression c; timezone := timezone c; enabled := enabled c;
                action := action c; config := config c; next_run_at := next_run_at c;
                last_status := Some status; last_error := error |}
        else c) <$> t.

Definition next_of (now : Z) (c : Cron) : option Z :=
  match next_run now (expression c) (timezone c) with Ok next => Some next | Err _ => None end.

(** [run_now]. *)
Definition run_now (now : Z) (i : string) (t : list Cron) : list Cron * result unit :=
  match head (filter (λ c, id c = i) t) with
  | None => (t, Err NotFound)
  | Some c =>
      match execute c with
      | Err err => (t, Err err)
      | Ok (status, error) => (record_run i status error (advance i (next_of now c) t), Ok ())
      end
  end.

(** [claim_due]: rows another transaction holds are skipped. *)
Definition due (now : Z) (c : Cron) : Prop :=
  enabled c = true ∧ match next_run_at c with Some next => next ≤ now | None => False end.
#[export] Instance due_dec now c : Decision (due now c).
Proof. unfold due. destruct (next_run_at c); apply _. Defined.

Definition earlier (a b : Cron) : Prop := default 0 (next_run_at a) ≤ default 0 (next_run_at b).
#[export] Instance earlier_dec a b : Decision (earlier a b).
Proof. unfold earlier. apply _. Defined.

Definition due_rows (now : Z) (limit : nat) (locked : list string) (t : list Cron) : list Cron :=
  take limit (merge_sort earlier (filter (λ c, due now c ∧ id c ∉ locked) t)).

Definition claim_due (now : Z) (limit : nat) (locked : list string) (t : list Cron) : list Cron * list Cron :=
  let rows := due_rows now limit locked t in
  (foldl (λ t c, advance (id c) (next_of now c) t) t rows, rows).

(** [run_due]: each claimed job runs and is recorded, a refusal as an error.
    [message] is the text of an error, a parameter. *)
Definition run_due (message : Error → string) (now : Z) (limit : nat) (locked : list string) (t : list Cron) : list Cron * nat :=
  let '(t, rows) := claim_due now limit locked t in
  (foldl (λ t c,
     let '(status, error) := match execute c with Ok outcome => outcome | Err err => ("error", Some (message err)) end in
     record_run (id c) status error t) t rows, length rows).

(** * One run per occurrence *)

Definition ids (t : list Cron) : list string := id <$> t.

Lemma due_rows_in now limit locked t c : c ∈ due_rows now limit locked t → c ∈ t ∧ due now c ∧ id c ∉ locked.
Proof.
  unfold due_rows. intros C. apply elem_of_take in C as (i & C & _). apply list_elem_of_lookup_2 in C.
  rewrite merge_sort_Permutation in C. apply list_elem_of_filter in C. naive_solver.
Qed.

Lemma due_rows_NoDup now limit locked t : NoDup (ids t) → NoDup (ids (due_rows now limit locked t)).
Proof.
  intros N. unfold due_rows, ids. eapply sublist_NoDup; [|apply fmap_sublist, sublist_take].
  rewrite merge_sort_Permutation. eapply sublist_NoDup; [exact N|]. apply fmap_sublist, sublist_filter.
Qed.

Lemma advance_all (g : Cron → option Z) rows t :
  NoDup (ids rows) →
  foldl (λ t c, advance (id c) (g c) t) t rows
  = (λ j, match head (filter (λ c, id c = id j) rows) with
          | Some c => row (id j) (stored j) (g c) (Some j)
          | None => j
          end) <$> t.
Proof.
  revert t. induction rows as [|c rows IH]; intros t N; cbn [foldl]; [cbn; by rewrite list_fmap_id|].
  cbn in N. apply NoDup_cons in N as [M N]. rewrite IH by done. unfold advance. rewrite <- list_fmap_compose.
  apply list_fmap_ext. intros i j _. cbn [compose]. unfold compose. rewrite filter_cons.
  destruct (decide (id j = id c)) as [E|E].
  - rewrite decide_True by done. cbn [head]. cbn [id row].
    destruct (filter (λ c', id c' = id j) rows) as [|c' l] eqn:F; cbn [head].
    + rewrite E in F |- *. by rewrite F.
    + exfalso. apply M. assert (X : c' ∈ filter (λ c', id c' = id j) rows) by (rewrite F; by left).
      apply list_elem_of_filter in X as [Ec X]. rewrite <- E, <- Ec. by apply (list_elem_of_fmap_2 id).
  - by rewrite (decide_False (P := id c = id j)) by congruence.
Qed.

(** A pass claims only jobs that are enabled and due, each once, and moves
    their schedule forward before any of them runs: whatever other nodes do
    next, a job that was claimed is claimed again only when the occurrence
    after this pass has come. *)
Theorem cron_claimed_once now limit locked t t' rows :
  NoDup (ids t) → (∀ e z a n, next_occurrence e z a = Some n → a < n) →
  claim_due now limit locked t = (t', rows) →
  NoDup (ids rows) ∧ (∀ c, c ∈ rows → c ∈ t ∧ due now c ∧ id c ∉ locked)
  ∧ ids t' = ids t
  ∧ ∀ now2 limit2 locked2 c c', c ∈ rows → c' ∈ due_rows now2 limit2 locked2 t' → id c' = id c →
      ∃ next, next_of now c = Some next ∧ now < next ∧ next ≤ now2.
Proof.
  intros N Later C. unfold claim_due in C. injection C as <- <-. set (rows := due_rows now limit locked t).
  pose proof (due_rows_NoDup now limit locked t N) as Nr. fold rows in Nr. split; [done|]. split; [by intros c; apply due_rows_in|].
  rewrite advance_all by done. split.
  { unfold ids. rewrite <- list_fmap_compose. apply list_fmap_ext. intros i j _. cbn. by destruct (head _). }
  intros now2 limit2 locked2 c c' M M' E. apply due_rows_in in M' as (M' & [_ D] & _).
  apply list_elem_of_fmap in M' as (j & -> & J).
  assert (Ej : id j = id c) by (rewrite <- E; by destruct (head (filter _ rows))).
  destruct (head (filter (λ c, id c = id j) rows)) as [c'|] eqn:F.
  - assert (X : c' ∈ filter (λ c, id c = id j) rows) by (destruct (filter _ rows); [done|injection F as ->; by left]).
    apply list_elem_of_filter in X as [Ec X].
    assert (c' = c) as ->.
    { apply list_elem_of_lookup in X as [i1 X]. apply list_elem_of_lookup in M as [i2 M].
      assert (i1 = i2) as ->; [|congruence]. eapply (NoDup_lookup _ i1 i2 (id c)); [exact Nr|..]; unfold ids;
        rewrite list_lookup_fmap, ?X, ?M; cbn; congruence. }
    cbn in D. destruct (next_of now c) as [next|] eqn:Nx; [|done]. exists next. split; [done|]. split; [|done].
    unfold next_of, next_run in Nx. destruct (parse_expression (expression c)); [|done]. cbn in Nx.
    destruct (parse_timezone (timezone c)); [|done]. cbn in Nx.
    destruct (next_occurrence _ _ now) as [n|] eqn:O; [|done]. cbn in Nx. injection Nx as <-. by apply Later in O.
  - exfalso. assert (X : c ∈ filter (λ c, id c = id j) rows) by (by apply list_elem_of_filter).
    destruct (filter _ rows); [by apply not_elem_of_nil in X|done].
Qed.

(** What passes validation runs, except two kinds of job that no run can ever
    carry out: a hook, which running refuses, and an HTTP request whose method
    is not one. *)
Theorem validated_cron_runs c :
  validate_prepared (stored c) = Ok () →
  match execute c with
  | Ok (status, error) => (status = "ok" ∧ error = None) ∨ (status = "error" ∧ is_Some error)
  | Err Unsupported => action c = "hook"
  | Err err => err = Invalid ∧ action c = "http" ∧ is_method (default "GET" (v ← get (config c) "method"; as_str v)) = false
  end.
Proof.
  unfold validate_prepared, execute, validate_action. case_decide; [done|].
  destruct (parse_expression _); [|done]. cbn. destruct (parse_timezone _); [|done]. cbn.
  destruct (decide (action c = "sql")) as [->|]; cbn.
  { intros _. destruct (run_sql _); naive_solver. }
  destruct (decide (action c = "http")) as [->|]; cbn.
  { intros _. destruct (is_method _) eqn:M; [|done]. destruct (run_http _); naive_solver. }
  by destruct (decide (action c = "hook")) as [->|].
Qed.

End crons.

Lemma cron_claimed_once_witness :
  let c := {| id := "c"; name := "nightly"; expression := "* * * * *"; timezone := "UTC"; enabled := true; action := "sql";
              config := JObject []; next_run_at := Some 60; last_status := None; last_error := None |} in
  let every_minute := (λ (_ _ : string) (a : Z), Some (a + 60)) in
  ∃ t' rows, claim_due (λ _, true) (λ _, true) every_minute 60 5 [] [c] = (t', rows)
  ∧ rows = [c] ∧ next_run_at <$> t' = [Some 120] ∧ ids t' = ids [c].
Proof.
  intros c every_minute. eexists _, _. split; [reflexivity|]. split; [reflexivity|]. split; [reflexivity|].
  refine (proj1 (proj2 (proj2 (cron_claimed_once (λ _, true) (λ _, true) every_minute 60 5 [] [c] _ _ _ _ _)))).
  - vm_compute. repeat constructor; set_solver.
  - intros e z a n [= <-]. lia.
  - reflexivity.
Defined.
