(* ===== verification/Mail.v ===== *)
(** The mailer: its settings, its templates and what is sent,
    [crates/mail/src/lib.rs]; the templates saved through the API,
    [crates/db/src/mail_templates.rs] and [crates/api/src/mail_templates.rs];
    and the messages that may be queued, [crates/api/src/mail.rs] with the mail
    job of [crates/api/src/jobs.rs].

    The template engine is a parameter: which bodies parse, and what a set of
    bodies renders to. So is the directory of template files. A statement on
    [_mail_templates] that fails answers [internal] and changes nothing. *)
From S2P Require Import Prelude CoreError FilterText Json Validation Net Jobs Samples.

Local Set Warnings "-register-all,-clear-no-such-hyp".

(** * Settings *)

(** [enum Encryption]. *)
Inductive Encryption := EncNone | EncStarttls | EncTls.

Definition encryption_parse (raw : string) : option Encryption :=
  let raw := to_ascii_lowercase (trim raw) in
  if decide (raw ∈ ["none"; "plain"]) then Some EncNone
  else if decide (raw ∈ ["starttls"; "start_tls"]) then Some EncStarttls
  else if decide (raw ∈ ["tls"; "ssl"; "implicit"]) then Some EncTls
  else None.

Definition default_port (e : Encryption) : Z :=
  match e with EncNone => 25 | EncStarttls => 587 | EncTls => 465 end.

(** [struct MailConfig]. *)
Record MailConfig := {
  mc_host : string;
  mc_port : Z;
  mc_username : option string;
  mc_password : option string;
  mc_encryption : Encryption;
  mc_sender_name : string;
  mc_sender_address : string;
  mc_app_name : string;
}.

(** The closure [text] of [from_settings]. *)
Definition setting_text (mail : Value) (key : string) : option string :=
  raw ← (v ← get mail key; as_str v);
  let value := trim raw in
  if decide (value = "") then None else Some value.

Definition setting_port (mail : Value) (e : Encryption) : option Z :=
  port ← match get mail "port" with
         | Some (JNumber n) =>
             port ← as_u64 (JNumber n);
             if decide (port < 65536)%Z then Some port else None
         | Some (JString raw) => parse_uint 65536 (trim raw)
         | None => Some (default_port e)
         | Some _ => None
         end;
  if decide (0 < port)%Z then Some port else None.

(** [MailConfig::from_settings]: [Ok None] when mail is not configured. *)
Definition from_settings (settings : Value) : result (option MailConfig) :=
  match get settings "mail" with
  | Some (JObject mail) =>
      let mail := JObject mail in
      let text := setting_text mail in
      host ← ok_or (text "host") Config;
      encryption ← match text "encryption" with
                   | Some raw => ok_or (encryption_parse raw) Config
                   | None => Ok EncStarttls
                   end;
      port ← ok_or (setting_port mail encryption) Config;
      let username := text "username" in
      let password := text "password" in
      if negb (bool_decide (is_Some username ↔ is_Some password)) then Err Config
      else
        let sender_address := default "noreply@lazypock.app" (text "sender_address") in
        if negb (str_contains "@" sender_address) then Err Config
        else
          Ok (Some {| mc_host := host; mc_port := port; mc_username := username; mc_password := password;
                      mc_encryption := encryption; mc_sender_name := default "lazypock" (text "sender_name");
                      mc_sender_address := sender_address;
                      mc_app_name := default "lazypock" (setting_text settings "app_name") |})
  | _ => Ok None
  end.

(** [read_settings], of the rows of [_settings]. *)
Definition read_settings (rows : list (string * Value)) : Value :=
  JObject (filter (λ '(key, _), starts_with "auth." key = false) rows).

(** * Templates *)

(** [enum Part], [Part::ALL], [suffix] and [parse]. *)
Inductive Part := Subject | Html | Text.
#[export] Instance Part_eq_dec : EqDecision Part.
Proof. solve_decision. Defined.
Definition ALL : list Part := [Subject; Html; Text].
Definition suffix (p : Part) : string := match p with Subject => "subject" | Html => "html" | Text => "text" end.
Definition part_parse (raw : string) : option Part :=
  if decide (raw = "subject") then Some Subject
  else if decide (raw = "html") then Some Html
  else if decide (raw = "text") then Some Text
  else None.

(** [enum Origin], [struct Override], [struct Entry], [struct Resolved] and
    [struct Rendered]. *)
Inductive Origin := Database | File | Builtin.
#[export] Instance Origin_eq_dec : EqDecision Origin.
Proof. solve_decision. Defined.
Definition origin_name (o : Origin) : string :=
  match o with Database => "database" | File => "file" | Builtin => "builtin" end.
Record Override := { o_name : string; o_part : string; o_body : string }.
Record Entry := { e_body : string; e_origin : Origin }.
Record Resolved := { r_part : string; r_body : string; r_origin : Origin }.
Record Rendered := { rd_subject : string; rd_html : string; rd_text : string }.

(** The keys are the name and the suffix of the part. *)
Abbreviation Entries := (gmap (string * string) Entry).

(** [struct Templates]: the environment holds the bodies of the entries, under
    [key]. *)
Record Templates := { entries : Entries }.
Definition key (name part : string) : string := name +:+ "." +:+ part.

(** The template directory: the names of its files, when it can be listed, and
    what reading a file answers. A directory that is missing lists nothing and
    finds nothing. *)
Inductive Reading := Source (body : string) | NotThere | Unreadable.
Record Directory := { listing : option (list string); reading : string → Reading }.

Definition BUILTIN_NAMES : list string := ["verification"; "password_reset"; "email_change"; "otp"].

(** [read_override]. *)
Definition read_override (directory : option Directory) (file : string) : result (option string) :=
  match directory with
  | None => Ok None
  | Some d =>
      match reading d file with
      | Source body => Ok (Some body)
      | NotThere => Ok None
      | Unreadable => Err Config
      end
  end.

(** [custom_names]: of each file the name, when it is that of a part. *)
Definition custom_name (file : string) : option string :=
  '(name, part) ← rsplit_once "." file;
  if negb (bool_decide (part ∈ suffix <$> ALL)) then None
  else if bool_decide (name ∈ BUILTIN_NAMES) then None
  else Some name.
Definition custom_names (directory : option Directory) : result (list string) :=
  match directory with
  | None => Ok []
  | Some d => match listing d with Some files => Ok (omap custom_name files) | None => Err Config end
  end.

Definition set_entry (es : Entries) (name : string) (part : Part) (body : string) (origin : Origin) : Entries :=
  <[(name, suffix part) := {| e_body := body; e_origin := origin |}]> es.

(** [apply]. *)
Definition apply_override (es : Entries) (o : Override) : result Entries :=
  part ← ok_or (part_parse (o_part o)) Invalid;
  if decide (trim (o_name o) = "") then Err Invalid
  else Ok (set_entry es (o_name o) part (o_body o) Database).
Definition apply (es : Entries) (overrides : list Override) : result Entries := try_fold apply_override es overrides.

(** [builtin]. *)
Definition nl : string := String (ascii_of_N 10) "".
Definition dq : string := String quote_char "".
Definition builtin (name : string) (part : Part) : option string :=
  if decide (name = "verification") then
    Some match part with
         | Subject => "Confirm your email for {{ app_name }}"
         | Html => "<p>Hi {{ name }},</p><p>Confirm this email address for {{ app_name }}.</p><p>Use this code: <code>{{ token }}</code></p>"
         | Text => "Hi {{ name }}," +:+ nl +:+ nl +:+ "Confirm this email address for {{ app_name }}." +:+ nl +:+ nl
                   +:+ "Use this code: {{ token }}" +:+ nl
         end
  else if decide (name = "password_reset") then
    Some match part with
         | Subject => "Reset your {{ app_name }} password"
         | Html => "<p>Hi {{ name }},</p><p>Somebody asked to reset the password for this {{ app_name }} account.</p><p>Use this code: <code>{{ token }}</code></p><p>If this was not you, nothing has changed.</p>"
         | Text => "Hi {{ name }}," +:+ nl +:+ nl +:+ "Somebody asked to reset the password for this {{ app_name }} account."
                   +:+ nl +:+ nl +:+ "Use this code: {{ token }}" +:+ nl +:+ nl +:+ "If this was not you, nothing has changed." +:+ nl
         end
  else if decide (name = "email_change") then
    Some match part with
         | Subject => "Confirm your new {{ app_name }} email"
         | Html => "<p>Hi {{ name }},</p><p>Confirm {{ email }} as the new address for your {{ app_name }} account.</p><p>Use this code: <code>{{ token }}</code></p>"
         | Text => "Hi {{ name }}," +:+ nl +:+ nl +:+ "Confirm {{ email }} as the new address for your {{ app_name }} account."
                   +:+ nl +:+ nl +:+ "Use this code: {{ token }}" +:+ nl
         end
  else if decide (name = "otp") then
    Some match part with
         | Subject => "Your {{ app_name }} sign-in code"
         | Html => "<p>Hi {{ name }},</p><p>Your {{ app_name }} sign-in code is:</p><p style=" +:+ dq
                   +:+ "font-size: 24px; letter-spacing: 4px" +:+ dq
                   +:+ "><strong>{{ code }}</strong></p><p>It expires in {{ expires_minutes }} minutes.</p>"
         | Text => "Hi {{ name }}," +:+ nl +:+ nl +:+ "Your {{ app_name }} sign-in code is: {{ code }}" +:+ nl +:+ nl
                   +:+ "It expires in {{ expires_minutes }} minutes." +:+ nl
         end
  else None.

Section templates.
(** [Environment::add_template_owned] accepts the body under the key, and
    [Template::render] of one key over all the bodies, undefined variables
    being errors. *)
Context (syntax_ok : string → string → bool).
Context (render_template : gmap (string * string) string → string → Value → option string).

(** [from_entries]. *)
Definition has_name (es : Entries) (name : string) : bool :=
  bool_decide (map_Exists (λ k _, k.1 = name) es).
Definition complete (es : Entries) (name : string) : bool :=
  forallb (λ p, bool_decide (is_Some (es !! (name, suffix p)))) ALL.
Definition from_entries (es : Entries) : result Templates :=
  if negb (bool_decide (map_Forall (λ k _, complete es k.1 = true) es)) then Err Config
  else if negb (bool_decide (map_Forall (λ k e, syntax_ok (key k.1 k.2) (e_body e) = true) es)) then Err Config
  else Ok {| entries := es |}.

(** [load_with] and [load]. *)
Definition load_builtin (directory : option Directory) (es : Entries) '((name, part) : string * Part) : result Entries :=
  over ← read_override directory (key name (suffix part));
  match over with
  | Some body => Ok (set_entry es name part body File)
  | None => body ← ok_or (builtin name part) Internal; Ok (set_entry es name part body Builtin)
  end.
Definition load_custom (directory : option Directory) (es : Entries) '((name, part) : string * Part) : result Entries :=
  over ← read_override directory (key name (suffix part));
  Ok match over with
     | Some body => set_entry es name part body File
     | None => es
     end.
Definition every_part (names : list string) : list (string * Part) :=
  name ← names; part ← ALL; [(name, part)].

Definition load_with (directory : option Directory) (overrides : list Override) : result Templates :=
  es ← try_fold (load_builtin directory) ∅ (every_part BUILTIN_NAMES);
  names ← custom_names directory;
  es ← try_fold (load_custom directory) es (every_part names);
  es ← apply es overrides;
  from_entries es.
Definition load (directory : option Directory) : result Templates := load_with directory [].

(** [with_overrides], [template], [check] and [render_all]. *)
Definition with_overrides (t : Templates) (overrides : list Override) : result Templates :=
  es ← apply (entries t) overrides; from_entries es.

Definition template (t : Templates) (name : string) : option (list Resolved) :=
  if has_name (entries t) name then
    mapM (λ p, e ← entries t !! (name, suffix p);
               Some {| r_part := suffix p; r_body := e_body e; r_origin := e_origin e |}) ALL
  else None.

Definition check_part (name : string) '((part, body) : string * string) : result unit :=
  parsed ← ok_or (part_parse part) Invalid;
  if syntax_ok (key name (suffix parsed)) body then Ok () else Err Invalid.
Definition check (name : string) (parts : list (string * string)) : result unit :=
  _ ← try_map (check_part name) parts; Ok ().

Definition render (t : Templates) (name : string) (part : Part) (context : Value) : result string :=
  match entries t !! (name, suffix part) with
  | None => Err Invalid
  | Some _ => ok_or (render_template (e_body <$> entries t) (key name (suffix part)) context) Internal
  end.
Definition render_all (t : Templates) (name : string) (context : Value) : result Rendered :=
  subject ← render t name Subject context;
  html ← render t name Html context;
  text ← render t name Text context;
  Ok {| rd_subject := subject; rd_html := html; rd_text := text |}.
End templates.

(** * Saved templates *)

Definition bytes (s : string) : Z := Z.of_nat (String.length s).
Definition MAX_TEMPLATE_BYTES : Z := 64 * 1024.
Definition MAX_NAME_LEN : N := 64.

(** The table [_mail_templates], keyed by name and part. *)
Abbreviation Table := (gmap (string * string) string).

Definition stored_row '((k, body) : (string * string) * string) : Override :=
  {| o_name := k.1; o_part := k.2; o_body := body |}.

(** [mail_templates::save], the upsert of one name, and [mail_templates::delete]. *)
Definition save_rows (table : Table) (name : string) (parts : list (string * string)) : result Table :=
  if decide (parts = []) then Err Invalid
  else Ok (foldl (λ t '(part, body), <[(name, part) := body]> t) table parts).
Definition delete_rows (table : Table) (name : string) : Table * Z :=
  (filter (λ '(k, _), k.1 ≠ name) table, Z.of_nat (size (filter (λ '(k, _), k.1 = name) table))).

(** [validate_name]. *)
Definition validate_name (name : string) : result unit :=
  if decide (name = "") then Err Invalid
  else if (MAX_NAME_LEN <? char_count name)%N then Err Invalid
  else if has_whitespace name || has_control name then Err Invalid
  else Ok ().

(** [rank] and [entry]: the strongest layer is the least. *)
Definition rank (o : Origin) : nat := match o with Database => 0 | File => 1 | Builtin => 2 end.
Definition strongest (os : list Origin) : option Origin :=
  match os with
  | [] => None
  | o :: os => Some (foldl (λ best o, if (rank o <? rank best)%nat then o else best) o os)
  end.
Definition text_of (rs : list Resolved) (part : string) : Value :=
  default JNull (r ← head (filter (λ r, r_part r = part) rs); Some (JString (r_body r))).
Definition sources (rs : list Resolved) : Value :=
  JObject (r ← rs; [(r_part r, JString (origin_name (r_origin r)))]).

Section saved.
Context (syntax_ok : string → string → bool).
Context (render_template : gmap (string * string) string → string → Value → option string).
(** [order by name, part]. *)
Context (order_by : list Override → list Override).

Definition load_rows (table : Table) : list Override := order_by (stored_row <$> map_to_list table).

(** [effective]. *)
Definition effective (base : Templates) (table : Table) : result Templates :=
  with_overrides syntax_ok base (load_rows table).

Definition entry (t : Templates) (name : string) : option Value :=
  parts ← template t name;
  source ← strongest (r_origin <$> parts);
  Some (JObject [("html", text_of parts "html"); ("name", JString name); ("parts", sources parts);
                 ("source", JString (origin_name source)); ("subject", text_of parts "subject"); ("text", text_of parts "text")]).

(** [get], [save] and [delete] of the template endpoints. *)
Definition get_template (base : Templates) (table : Table) (name : string) : result Value :=
  t ← effective base table; ok_or (entry t (trim name)) NotFound.

Definition check_body '((_, text) : string * string) : result unit :=
  if decide (trim text = "") then Err Invalid
  else if (MAX_TEMPLATE_BYTES <? bytes text)%Z then Err Invalid
  else Ok ().

Definition save_template (base : Templates) (table : Table) (name subject html text : string) : Table * result Value :=
  let name := trim name in
  let parts := [("subject", subject); ("html", html); ("text", text)] in
  match _ ← validate_name name; _ ← try_map check_body parts; _ ← check syntax_ok name parts; save_rows table name parts with
  | Err e => (table, Err e)
  | Ok table' => (table', t ← effective base table'; ok_or (entry t name) NotFound)
  end.

Definition delete_template (base : Templates) (table : Table) (name : string) : Table * result Z :=
  let name := trim name in
  match _ ← validate_name name; t ← effective base table; ok_or (template t name) NotFound with
  | Err e => (table, Err e)
  | Ok _ => let '(table', removed) := delete_rows table name in (table', Ok removed)
  end.

(** [context_for]. *)
Definition with_default (k : string) (v : Value) (l : list (string * Value)) : list (string * Value) :=
  match assoc k l with Some _ => l | None => (k, v) :: l end.
Definition context_for (to_name app_name : string) (assigns : Value) : result Value :=
  map ← match assigns with JObject m => Ok m | JNull => Ok [] | _ => Err Invalid end;
  Ok (JObject (with_default "app_name" (JString app_name) (with_default "name" (JString to_name) map))).

(** [preview]. *)
Record Preview := {
  pv_assigns : option Value;
  pv_to_name : option string;
  pv_subject : option string;
  pv_html : option string;
  pv_text : option string;
}.
Definition draft_of '((part, draft) : string * option string) : option (string * string) := body ← draft; Some (part, body).
Definition check_draft '((_, text) : string * string) : result unit :=
  if (MAX_TEMPLATE_BYTES <? bytes text)%Z then Err Invalid else Ok ().
Definition preview (base : Templates) (table : Table) (settings : list (string * Value)) (name : string) (body : Preview)
    : result Rendered :=
  let name := trim name in
  _ ← validate_name name;
  t ← effective base table;
  let drafts := omap draft_of [("subject", pv_subject body); ("html", pv_html body); ("text", pv_text body)] in
  let known := bool_decide (is_Some (template t name)) in
  if negb known && bool_decide (drafts = []) then Err NotFound
  else if negb known && (length drafts <? 3)%nat then Err Invalid
  else
    _ ← (if decide (drafts = []) then Ok ()
         else _ ← try_map check_draft drafts; check syntax_ok name drafts);
    t ← with_overrides syntax_ok t ((λ '(part, body), {| o_name := name; o_part := part; o_body := body |}) <$> drafts);
    let app_name := default "lazypock" (setting_text (read_settings settings) "app_name") in
    context ← context_for (default "" (pv_to_name body)) app_name (default JNull (pv_assigns body));
    match render_all render_template t name context with Ok r => Ok r | Err _ => Err Invalid end.

(** * Messages *)

Definition MAX_BODY_BYTES : Z := 256 * 1024.
Definition MAX_SUBJECT_CHARS : N := 300.
Definition MAX_ASSIGNS_BYTES : Z := 64 * 1024.
Definition MAX_ADDRESS_LEN : Z := 254.

(** [struct SendMail]. *)
Record SendMail := {
  sm_to : string;
  sm_to_name : string;
  sm_template : option string;
  sm_assigns : option Value;
  sm_subject : option string;
  sm_html : option string;
  sm_text : option string;
}.

(** [validate_address]. *)
Fixpoint count_char (c : ascii) (s : string) : nat :=
  match s with EmptyString => 0 | String d r => (if decide (d = c) then 1 else 0) + count_char c r end.
Definition validate_address (address : string) : result unit :=
  if decide (address = "") then Err Invalid
  else if (MAX_ADDRESS_LEN <? bytes address)%Z then Err Invalid
  else if has_whitespace address || has_control address then Err Invalid
  else if negb (bool_decide (count_char "@" address = 1%nat)) then Err Invalid
  else match rsplit_once "@" address with
       | None => Err Invalid
       | Some (local, domain) => if bool_decide (local = "") || bool_decide (domain = "") then Err Invalid else Ok ()
       end.

(** [mail_job] and [raw_mail_job]: the job with its payload. *)
Definition KIND_MAIL : string := "mail".
Definition mail_job (template to_name to : string) (assigns : Value) : NewJob * Value :=
  (new_job KIND_MAIL,
   JObject [("assigns", assigns); ("template", JString template); ("to", JString to); ("toName", JString to_name)]).
Definition raw_mail_job (to_name to subject html text : string) : NewJob * Value :=
  (new_job KIND_MAIL,
   JObject [("html", JString html); ("subject", JString subject); ("text", JString text); ("to", JString to);
            ("toName", JString to_name)]).

(** [job_for]: the job, the template it names and the recipient. *)
Definition blank (s : string) : bool := bool_decide (trim s = "").

Definition job_for `{JsonText} (body : SendMail) (known : list string) : result ((NewJob * Value) * option string * string) :=
  let to := trim (sm_to body) in
  _ ← validate_address to;
  let to_name := trim (sm_to_name body) in
  '(job, named) ←
    match sm_template body, sm_subject body with
    | Some named, None =>
        if bool_decide (is_Some (sm_html body)) || bool_decide (is_Some (sm_text body)) then Err Invalid
        else
          let named := trim named in
          if negb (bool_decide (named ∈ known)) then Err Invalid
          else
            let assigns := default JNull (sm_assigns body) in
            if (MAX_ASSIGNS_BYTES <? bytes (json_text assigns))%Z then Err Invalid
            else Ok (mail_job named to_name to assigns, Some named)
    | None, Some subject =>
        let subject := trim subject in
        if decide (subject = "") then Err Invalid
        else if (MAX_SUBJECT_CHARS <? char_count subject)%N then Err Invalid
        else if has_control subject then Err Invalid
        else
          let html := default "" (sm_html body) in
          let text := default "" (sm_text body) in
          if blank html && blank text then Err Invalid
          else if (MAX_BODY_BYTES <? bytes html)%Z || (MAX_BODY_BYTES <? bytes text)%Z then Err Invalid
          else Ok (raw_mail_job to_name to subject html text, None)
    | _, _ => Err Invalid
    end;
  Ok (job, named, to).

(** * Sending *)

(** [plain_text_from_html]. *)
Fixpoint strip_tags (stripped_space in_tag : bool) (s : string) : string :=
  match s with
  | EmptyString => ""
  | String c r =>
      if decide (c = "<"%char) then (if stripped_space then "" else " ") +:+ strip_tags true true r
      else if decide (c = ">"%char) then strip_tags stripped_space false r
      else if in_tag then strip_tags stripped_space in_tag r
      else String c (strip_tags (bool_decide (c = " "%char)) in_tag r)
  end.

(** [str::replace] of a text that is not empty: the matches from the left. *)
Fixpoint replace_all (from to : string) (skip : nat) (s : string) : string :=
  match s with
  | EmptyString => ""
  | String c r =>
      match skip with
      | S skip => replace_all from to skip r
      | O => if starts_with from s then to +:+ replace_all from to (String.length from - 1) r
             else String c (replace_all from to 0 r)
      end
  end.
Definition str_replace (from to s : string) : string := replace_all from to 0 s.

(** [str::lines]. *)
Fixpoint strip_cr (s : string) : string :=
  match s with
  | EmptyString => ""
  | String c EmptyString => if decide (byte_of c = 13%N) then "" else s
  | String c r => String c (strip_cr r)
  end.
Definition lines (s : string) : list string :=
  let pieces := split_on (ascii_of_N 10) s in
  let pieces := match rev pieces with "" :: rest => rev rest | _ => pieces end in
  strip_cr <$> pieces.

Definition plain_text_from_html (html : string) : string :=
  let stripped := strip_tags false false html in
  let decoded := str_replace "&amp;" "&" (str_replace "&#39;" "'" (str_replace "&quot;" dq
                   (str_replace "&gt;" ">" (str_replace "&lt;" "<" (str_replace "&nbsp;" " " stripped))))) in
  join nl (filter (λ line, line ≠ "") (trim <$> lines decoded)).

(** [struct Message], and the message [deliver] and [deliver_raw] hand to the
    transport. *)
Record Message := { ms_to_name : string; ms_to : string; ms_subject : string; ms_html : string; ms_text : string }.

Definition deliver (t : Templates) (config : MailConfig) (name to_name to : string) (assigns : Value) : result Message :=
  context ← context_for to_name (mc_app_name config) assigns;
  rendered ← render_all render_template t name context;
  Ok {| ms_to_name := to_name; ms_to := to; ms_subject := rd_subject rendered; ms_html := rd_html rendered;
        ms_text := rd_text rendered |}.

Definition deliver_raw (to_name to subject html text : string) : result Message :=
  if blank subject then Err Invalid
  else if blank html && blank text then Err Invalid
  else Ok {| ms_to_name := to_name; ms_to := to; ms_subject := subject; ms_html := html;
             ms_text := if blank text then plain_text_from_html html else text |}.

(** [struct MailJob], decoded from the payload of a job. *)
Record MailJob := {
  mj_template : option string;
  mj_to : string;
  mj_to_name : string;
  mj_assigns : Value;
  mj_subject : option string;
  mj_html : option string;
  mj_text : option string;
}.
Definition MAIL_KEYS : list string := ["template"; "to"; "toName"; "assigns"; "subject"; "html"; "text"].

(** A field of type [Option<String>], absent or null being [None], and one of
    type [String]. *)
Definition optional_text (v : option Value) : result (option string) :=
  match v with
  | None | Some JNull => Ok None
  | Some (JString s) => Ok (Some s)
  | Some _ => Err Invalid
  end.
Definition required_text (v : option Value) : result string := ok_or (v ← v; as_str v) Invalid.

(** The fields of a value decoded into a struct that denies unknown ones: of an
    object by name, of an array by position. *)
Definition struct_fields (keys : list string) (v : Value) : result (list (string * Value)) :=
  match v with
  | JObject fields => if forallb (λ '(k, _), bool_decide (k ∈ keys)) fields then Ok fields else Err Invalid
  | JArray items => if (length items <=? length keys)%nat then Ok (zip keys items) else Err Invalid
  | _ => Err Invalid
  end.

Definition decode_mail_job (payload : Value) : result MailJob :=
  fields ← struct_fields MAIL_KEYS payload;
  named ← optional_text (assoc "template" fields);
  to ← required_text (assoc "to" fields);
  to_name ← required_text (assoc "toName" fields);
  subject ← optional_text (assoc "subject" fields);
  html ← optional_text (assoc "html" fields);
  text ← optional_text (assoc "text" fields);
  Ok {| mj_template := named; mj_to := to; mj_to_name := to_name; mj_assigns := default JNull (assoc "assigns" fields);
        mj_subject := subject; mj_html := html; mj_text := text |}.

(** The body of [POST /api/mail], and the message of [$app.mailer.send]. *)
Definition SEND_KEYS : list string := ["to"; "toName"; "template"; "assigns"; "subject"; "html"; "text"].
Definition decode_send_mail (v : Value) : result SendMail :=
  fields ← struct_fields SEND_KEYS v;
  to ← required_text (assoc "to" fields);
  to_name ← match assoc "toName" fields with None => Ok "" | v => required_text v end;
  named ← optional_text (assoc "template" fields);
  subject ← optional_text (assoc "subject" fields);
  html ← optional_text (assoc "html" fields);
  text ← optional_text (assoc "text" fields);
  Ok {| sm_to := to; sm_to_name := to_name; sm_template := named;
        sm_assigns := match assoc "assigns" fields with Some JNull => None | v => v end;
        sm_subject := subject; sm_html := html; sm_text := text |}.

(** [perform] of a mail job, up to the transport: the message it hands over, or
    why it does not. *)
Definition perform_mail (base : Templates) (settings : list (string * Value)) (table : Table) (payload : Value) : result Message :=
  mail ← decode_mail_job payload;
  config ← from_settings (read_settings settings);
  config ← ok_or config Invalid;
  templates ← effective base table;
  match mj_template mail with
  | Some name => deliver templates config name (mj_to_name mail) (mj_to mail) (mj_assigns mail)
  | None =>
      let subject := default "" (mj_subject mail) in
      let html := default "" (mj_html mail) in
      let text := default "" (mj_text mail) in
      if blank subject || (blank html && blank text) then Err Invalid
      else deliver_raw (mj_to_name mail) (mj_to mail) subject html text
  end.
End saved.

(** * What is in effect *)

Lemma suffix_inj p q : suffix p = suffix q → p = q.
Proof. by destruct p, q. Qed.
Lemma part_parse_suffix p : part_parse (suffix p) = Some p.
Proof. by destruct p. Qed.
Lemma part_parse_Some raw p : part_parse raw = Some p → raw = suffix p.
Proof. unfold part_parse. repeat case_decide; naive_solver. Qed.

Lemma complete_spec es name : complete es name = true ↔ ∀ p, is_Some (es !! (name, suffix p)).
Proof.
  unfold complete. rewrite forallb_forall. setoid_rewrite <- list_elem_of_In. split.
  - intros F p. apply (bool_decide_eq_true (is_Some (es !! (name, suffix p)))), F. destruct p; set_solver.
  - intros F p _. by apply bool_decide_eq_true.
Qed.

Section layers.
Context (syntax_ok : string → string → bool).

(** Templates as [from_entries] lets them be. *)
Definition sound (es : Entries) : Prop :=
  map_Forall (λ k e, (∀ p, is_Some (es !! (k.1, suffix p))) ∧ syntax_ok (key k.1 k.2) (e_body e) = true) es.

Lemma from_entries_ok es t : from_entries syntax_ok es = Ok t ↔ sound es ∧ t = {| entries := es |}.
Proof.
  unfold from_entries, sound. destruct (bool_decide (map_Forall (λ k _, complete es k.1 = true) es)) eqn:C; cbn.
  - apply bool_decide_eq_true in C. destruct (bool_decide (map_Forall (λ k e, syntax_ok (key k.1 k.2) (e_body e) = true) es)) eqn:S; cbn.
    + apply bool_decide_eq_true in S. split; [|by intros [_ ->]]. intros [= <-]. split; [|done].
      intros k e L. split; [|by apply (S k e)]. by apply complete_spec, (C k e).
    + apply bool_decide_eq_false in S. split; [done|]. intros [F _]. destruct S. intros k e L. by apply (F k e).
  - apply bool_decide_eq_false in C. split; [done|]. intros [F _]. destruct C. intros k e L. by apply complete_spec, (F k e).
Qed.

(** The rows of a table as entries. *)
Definition saved_entry (body : string) : Entry := {| e_body := body; e_origin := Database |}.

(** What a save stores: whole templates that parse. *)
Definition table_ok (table : Table) : Prop :=
  map_Forall (λ k body, (∃ p, k.2 = suffix p) ∧ trim k.1 ≠ "" ∧ syntax_ok (key k.1 k.2) body = true
                        ∧ ∀ p, is_Some (table !! (k.1, suffix p))) table.

Lemma apply_row es name p body :
  trim name ≠ "" → apply_override es (stored_row ((name, suffix p), body)) = Ok (set_entry es name p body Database).
Proof. intros N. unfold apply_override. cbn. rewrite part_parse_suffix. cbn. by rewrite decide_False. Qed.

Lemma apply_rows es l :
  NoDup l.*1 → Forall (λ r, (∃ p, r.1.2 = suffix p) ∧ trim r.1.1 ≠ "") l →
  apply es (stored_row <$> l) = Ok ((saved_entry <$> list_to_map l) ∪ es).
Proof.
  intros ND F. revert es. induction F as [|[[name part] body] l [[p Hp] Hn] F IH]; intros es.
  { cbn. by rewrite fmap_empty, (left_id_L ∅ (∪)). }
  cbn in ND. apply NoDup_cons in ND as [Nin ND]. cbn in Hp, Hn. subst part.
  cbn [fmap list_fmap]. unfold apply. cbn [try_fold]. rewrite apply_row by done. cbn [mbind result_bind].
  etransitivity; [by apply IH|]. f_equal. cbn [list_to_map foldr fst snd uncurry]. rewrite fmap_insert. unfold set_entry.
  rewrite <- insert_union_l, insert_union_r; [done|]. rewrite lookup_fmap, (proj1 (not_elem_of_list_to_map _ _)); done.
Qed.

Context (order_by : list Override → list Override) (order_by_permutes : ∀ l, order_by l ≡ₚ l).

Lemma effective_ok base table :
  sound (entries base) → table_ok table →
  effective syntax_ok order_by base table = Ok {| entries := (saved_entry <$> table) ∪ entries base |}.
Proof.
  intros B T. unfold effective, with_overrides, load_rows.
  destruct (Permutation_map_inv _ _ (order_by_permutes (stored_row <$> map_to_list table))) as (l & E & P).
  change (order_by (stored_row <$> map_to_list table) = stored_row <$> l) in E. rewrite E, apply_rows.
  - cbn [mbind result_bind]. rewrite <- (list_to_map_proper (map_to_list table) l), list_to_map_to_list by
      (done || apply NoDup_fst_map_to_list).
    apply from_entries_ok. split; [|done]. intros k e L. apply lookup_union_Some_raw in L as [L|[L1 L]].
    + rewrite lookup_fmap in L. destruct (table !! k) as [body|] eqn:Lk; [|done]. injection L as <-.
      destruct (T k body Lk) as (_ & _ & S & C). split; [|done]. intros p. destruct (C p) as [b Lb].
      eexists. apply lookup_union_Some_l. by rewrite lookup_fmap, Lb.
    + destruct (B k e L) as [C S]. split; [|done]. intros p. destruct (C p) as [e' Le].
      destruct ((saved_entry <$> table) !! (k.1, suffix p)) as [e2|] eqn:Lt.
      * eexists. by apply lookup_union_Some_l.
      * eexists. by rewrite lookup_union_r.
  - rewrite <- P. apply NoDup_fst_map_to_list.
  - apply Forall_forall. intros [k body] M. rewrite <- P in M. apply elem_of_map_to_list in M.
    destruct (T k body M) as (Hp & Hn & _). done.
Qed.

(** A name without white space is what its trimming leaves. *)
Lemma no_whitespace_start s : has_whitespace s = false → trim_start s = s.
Proof.
  destruct s as [|a r]; [done|]. cbn [has_whitespace trim_start]. intros E.
  apply orb_false_iff in E as [E _]. apply orb_false_iff in E as [-> E]. destruct r as [|b r2]; [done|].
  apply orb_false_iff in E as [-> E]. destruct r2 as [|c r3]; [done|]. by rewrite E.
Qed.

Lemma no_whitespace_trim s : has_whitespace s = false → trim s = s.
Proof.
  intros E. unfold trim. rewrite no_whitespace_start by done.
  induction s as [|a r IH]; [done|]. cbn [trim_end]. unfold is_blank. rewrite no_whitespace_start, bool_decide_eq_false_2 by done.
  f_equal. apply IH. cbn [has_whitespace] in E. by apply orb_false_iff in E as [_ E].
Qed.

Lemma validate_name_ok name : validate_name name = Ok () → name ≠ "" ∧ trim name = name.
Proof.
  unfold validate_name. case_decide; [done|]. destruct (_ <? _)%N; [done|]. destruct (has_whitespace name) eqn:E; [done|].
  intros _. split; [done|]. by apply no_whitespace_trim.
Qed.

(** What a name is saved as. *)
Definition rows_of (subject html text : string) (p : Part) : string :=
  match p with Subject => subject | Html => html | Text => text end.

Lemma check_parts n subject html text :
  check syntax_ok n [("subject", subject); ("html", html); ("text", text)] = Ok () →
  ∀ p, syntax_ok (key n (suffix p)) (rows_of subject html text p) = true.
Proof.
  unfold check. intros (us & C & _)%bind_Ok p. apply try_map_Ok in C.
  do 3 (apply Forall2_cons_inv_l in C as (? & ? & ? & C & ->)).
  assert (K : ∀ q b, check_part syntax_ok n (suffix q, b) = Ok () → syntax_ok (key n (suffix q)) b = true).
  { intros q b. unfold check_part. rewrite part_parse_suffix. cbn. by destruct (syntax_ok _ _). }
  repeat match goal with u : unit |- _ => destruct u end.
  destruct p; [by apply (K Subject)|by apply (K Html)|by apply (K Text)].
Qed.

(** An accepted save, and the table it leaves. *)
Definition acceptable (name subject html text : string) : result unit :=
  _ ← validate_name name;
  _ ← try_map check_body [("subject", subject); ("html", html); ("text", text)];
  check syntax_ok name [("subject", subject); ("html", html); ("text", text)].
Definition with_rows (table : Table) (name subject html text : string) : Table :=
  <[(name, "text") := text]> (<[(name, "html") := html]> (<[(name, "subject") := subject]> table)).

Lemma save_template_eq base table name subject html text :
  save_template syntax_ok order_by base table name subject html text =
    match acceptable (trim name) subject html text with
    | Err e => (table, Err e)
    | Ok _ => let table' := with_rows table (trim name) subject html text in
              (table', t ← effective syntax_ok order_by base table'; ok_or (entry t (trim name)) NotFound)
    end.
Proof.
  unfold save_template, acceptable. destruct (validate_name (trim name)); [|done]. cbn [mbind result_bind].
  destruct (try_map check_body _); [|done]. cbn [mbind result_bind]. by destruct (check _ _ _).
Qed.

Lemma acceptable_ok name subject html text u :
  acceptable name subject html text = Ok u →
  name ≠ "" ∧ trim name = name ∧ ∀ p, syntax_ok (key name (suffix p)) (rows_of subject html text p) = true.
Proof.
  unfold acceptable. intros ([] & N & E)%bind_Ok. apply bind_Ok in E as (us & _ & C). destruct u.
  apply validate_name_ok in N as [N1 N2]. split_and!; [done..|]. by apply check_parts.
Qed.

Lemma table_ok_lookup table name p body :
  table_ok table → table !! (name, p) = Some body → (∃ q, p = suffix q) ∧ trim name ≠ "" ∧ syntax_ok (key name p) body = true
    ∧ ∀ q, is_Some (table !! (name, suffix q)).
Proof. intros T L. exact (T _ _ L). Qed.

Lemma with_rows_own table name subject html text p :
  with_rows table name subject html text !! (name, suffix p) = Some (rows_of subject html text p).
Proof. unfold with_rows. destruct p; cbn [suffix rows_of]; by simplify_map_eq. Qed.
Lemma with_rows_other table name subject html text (k : string * string) :
  k.1 ≠ name → with_rows table name subject html text !! k = table !! k.
Proof. destruct k as [n s]. intros K. cbn in K. unfold with_rows. by rewrite !lookup_insert_ne by congruence. Qed.
Lemma with_rows_foreign table name subject html text s :
  (∀ p, s ≠ suffix p) → with_rows table name subject html text !! (name, s) = table !! (name, s).
Proof.
  intros K. pose proof (K Text). pose proof (K Html). pose proof (K Subject). cbn in *. unfold with_rows.
  by rewrite !lookup_insert_ne by congruence.
Qed.

Lemma whole_saved table name subject html text u :
  acceptable name subject html text = Ok u → table_ok table → table_ok (with_rows table name subject html text).
Proof.
  intros (N & Tn & S)%acceptable_ok T [n s] body L. cbn [fst snd]. destruct (decide (n = name)) as [->|Ne].
  - assert (P : ∃ p, s = suffix p).
    { destruct (part_parse s) as [p|] eqn:Pp; [exists p; by apply part_parse_Some|].
      rewrite with_rows_foreign in L by (intros p ->; by rewrite part_parse_suffix in Pp). by apply (table_ok_lookup _ _ _ _ T L). }
    destruct P as [p ->]. rewrite with_rows_own in L. injection L as <-. split_and!; [by exists p|by rewrite Tn|apply S|].
    intros q. rewrite with_rows_own. by eexists.
  - rewrite with_rows_other in L by done. destruct (table_ok_lookup _ _ _ _ T L) as (A & B & C & D). split_and!; [done..|].
    intros q. by rewrite with_rows_other.
Qed.

Lemma deleted_ok table name : table_ok table → table_ok (delete_rows table name).1.
Proof.
  intros T [n s] body L. cbn in L. apply map_lookup_filter_Some in L as [L Ne]. cbn in Ne.
  destruct (table_ok_lookup _ _ _ _ T L) as (A & B & C & D). split_and!; [done..|].
  intros q. destruct (D q) as [b Lb]. exists b. by apply map_lookup_filter_Some.
Qed.
End layers.

(** * What the API leaves in effect *)

(** An edit through the endpoints, and the table after a history of them. *)
Inductive Edit :=
  | Save (name subject html text : string)
  | Delete (name : string).

Section edits.
Context (syntax_ok : string → string → bool) (order_by : list Override → list Override).

Definition edit (base : Templates) (table : Table) (e : Edit) : Table :=
  match e with
  | Save name subject html text => (save_template syntax_ok order_by base table name subject html text).1
  | Delete name => (delete_template syntax_ok order_by base table name).1
  end.
Definition edited (base : Templates) (es : list Edit) : Table := foldl (edit base) ∅ es.
End edits.

(** * The layers below *)

(** A file of the directory, and the names it or the binary defines. *)
Definition file_of (d : option Directory) (file : string) : option string :=
  d ← d; match reading d file with Source body => Some body | _ => None end.
Definition defined (d : option Directory) (name : string) : Prop :=
  name ∈ BUILTIN_NAMES ∨ ∃ names, custom_names d = Ok names ∧ name ∈ names.

(** The entry under a name and part: the file, else the built-in body. *)
Definition layer_below (d : option Directory) (name : string) (p : Part) : option Entry :=
  match file_of d (key name (suffix p)) with
  | Some body => Some {| e_body := body; e_origin := File |}
  | None => body ← builtin name p; Some {| e_body := body; e_origin := Builtin |}
  end.

Lemma read_override_ok d file over : read_override d file = Ok over → over = file_of d file.
Proof. unfold read_override, file_of. destruct d as [d|]; cbn; [destruct (reading d file)|]; naive_solver. Qed.

Lemma set_entry_lookup es n p body o n' p' :
  set_entry es n p body o !! (n', suffix p')
  = if decide ((n', p') = (n, p)) then Some {| e_body := body; e_origin := o |} else es !! (n', suffix p').
Proof.
  unfold set_entry. case_decide as E; [injection E as -> ->; by simplify_map_eq|]. rewrite lookup_insert_ne; [done|].
  intros [= -> Hs]. apply suffix_inj in Hs as ->. done.
Qed.

Lemma load_builtin_step d es n p es' :
  load_builtin d es (n, p) = Ok es' →
  ∀ n' p', es' !! (n', suffix p') = if decide ((n', p') = (n, p)) then layer_below d n p else es !! (n', suffix p').
Proof.
  intros L n' p'. unfold load_builtin in L. apply bind_Ok in L as (over & R & L). apply read_override_ok in R as ->.
  unfold layer_below. destruct (file_of d _) as [body|].
  - injection L as <-. apply set_entry_lookup.
  - apply bind_Ok in L as (body & B & [= <-]). apply ok_or_Ok in B as ->. cbn. apply set_entry_lookup.
Qed.

Lemma load_custom_step d es n p es' :
  load_custom d es (n, p) = Ok es' →
  ∀ n' p', es' !! (n', suffix p') =
    match (if decide ((n', p') = (n, p)) then file_of d (key n (suffix p)) else None) with
    | Some body => Some {| e_body := body; e_origin := File |}
    | None => es !! (n', suffix p')
    end.
Proof.
  intros L n' p'. unfold load_custom in L. apply bind_Ok in L as (over & R & [= <-]). apply read_override_ok in R as ->.
  destruct (file_of d _) as [body|]; [rewrite set_entry_lookup|]; by case_decide.
Qed.

Lemma load_builtins d l es es' :
  try_fold (load_builtin d) es l = Ok es' →
  ∀ n p, es' !! (n, suffix p) = if decide ((n, p) ∈ l) then layer_below d n p else es !! (n, suffix p).
Proof.
  revert es. induction l as [|[m q] l IH]; intros es; cbn [try_fold].
  - intros [= <-] n p. rewrite decide_False by apply not_elem_of_nil. done.
  - intros (es1 & S & L)%bind_Ok n p. rewrite (IH _ L n p), (load_builtin_step _ _ _ _ _ S n p).
    destruct (decide ((n, p) ∈ l)) as [M|M]; [rewrite decide_True by (by right); done|].
    destruct (decide ((n, p) = (m, q))) as [E|E].
    + rewrite decide_True by (rewrite E; left). by injection E as -> ->.
    + rewrite decide_False; [done|]. by rewrite elem_of_cons; intros [?|?].
Qed.

Lemma load_customs d l es es' :
  try_fold (load_custom d) es l = Ok es' →
  ∀ n p, es' !! (n, suffix p) =
    match (if decide ((n, p) ∈ l) then file_of d (key n (suffix p)) else None) with
    | Some body => Some {| e_body := body; e_origin := File |}
    | None => es !! (n, suffix p)
    end.
Proof.
  revert es. induction l as [|[m q] l IH]; intros es; cbn [try_fold].
  - intros [= <-] n p. rewrite decide_False by apply not_elem_of_nil. done.
  - intros (es1 & S & L)%bind_Ok n p. rewrite (IH _ L n p), (load_custom_step _ _ _ _ _ S n p).
    destruct (decide ((n, p) = (m, q))) as [E|E].
    + rewrite (decide_True (P := (n, p) ∈ (m, q) :: l)) by (rewrite E; left). injection E as -> ->.
      case_decide; by destruct (file_of d _).
    + destruct (decide ((n, p) ∈ l)) as [M|M]; [by rewrite decide_True by (by right)|].
      rewrite decide_False; [done|]. by rewrite elem_of_cons; intros [?|?].
Qed.

Lemma every_part_elem names n p : (n, p) ∈ every_part names ↔ n ∈ names.
Proof.
  unfold every_part. rewrite list_elem_of_bind. split.
  - intros (m & E & M). apply list_elem_of_bind in E as (q & E & _). apply list_elem_of_singleton in E as [= -> ->]. done.
  - intros M. exists n. split; [|done]. apply list_elem_of_bind. exists p. split; [by left|]. unfold ALL. destruct p; repeat constructor.
Qed.

Lemma custom_not_builtin d names n : custom_names d = Ok names → n ∈ names → n ∉ BUILTIN_NAMES.
Proof.
  unfold custom_names. destruct d as [d|]; [|by intros [= <-] ?%not_elem_of_nil].
  destruct (listing d) as [files|]; [|done]. intros [= <-] (f & M & C)%list_elem_of_omap. unfold custom_name in C.
  destruct (rsplit_once _ f) as [[name part]|]; [|done]. cbn in C. destruct (negb _); [done|]. case_bool_decide; naive_solver.
Qed.

Lemma builtin_names n p : is_Some (builtin n p) → n ∈ BUILTIN_NAMES.
Proof. unfold builtin, BUILTIN_NAMES. repeat case_decide; subst; set_solver. Qed.

Lemma load_layered syntax_ok d t :
  load syntax_ok d = Ok t → sound syntax_ok (entries t)
  ∧ ∀ n p, (defined d n → entries t !! (n, suffix p) = layer_below d n p)
           ∧ (¬ defined d n → entries t !! (n, suffix p) = None).
Proof.
  unfold load, load_with. intros (es1 & L1 & L)%bind_Ok. apply bind_Ok in L as (names & C & L).
  apply bind_Ok in L as (es2 & L2 & L). apply bind_Ok in L as (es3 & [= <-] & L).
  apply from_entries_ok in L as [S ->]. split; [done|]. intros n p. cbn [entries].
  rewrite (load_customs _ _ _ _ L2 n p), (load_builtins _ _ _ _ L1 n p), lookup_empty.
  destruct (decide (n ∈ names)) as [M|M].
  - rewrite decide_True by (by apply every_part_elem). pose proof (custom_not_builtin _ _ _ C M) as Nb.
    rewrite decide_False by (by rewrite every_part_elem). split; [|intros X; destruct X; right; by exists names].
    intros _. unfold layer_below. destruct (file_of d _); [done|].
    destruct (builtin n p) eqn:B; [|done]. destruct Nb. apply (builtin_names n p). by rewrite B.
  - rewrite (decide_False (P := (n, p) ∈ every_part names)) by (by rewrite every_part_elem). split.
    + intros [B|(names' & C' & M')]; [by rewrite decide_True by (by apply every_part_elem)|]. by rewrite C in C'; injection C' as <-.
    + intros X. rewrite decide_False; [done|]. rewrite every_part_elem. intros B. apply X. by left.
Qed.

(** * The templates in effect *)

Section in_effect.
Context (syntax_ok : string → string → bool) (order_by : list Override → list Override).
Context (order_by_permutes : ∀ l, order_by l ≡ₚ l).
Local Abbreviation effective := (effective syntax_ok order_by).

Lemma edit_keeps base table e : table_ok syntax_ok table → table_ok syntax_ok (edit syntax_ok order_by base table e).
Proof.
  intros T. destruct e as [name subject html text|name]; cbn [edit].
  - rewrite save_template_eq. destruct (acceptable _ _ _ _ _) eqn:A; [|done]. by eapply whole_saved.
  - unfold delete_template. destruct (_ ≫= _) as [x|err]; [|done]. apply (deleted_ok _ _ (trim name) T).
Qed.

Lemma edited_ok base es : table_ok syntax_ok (edited syntax_ok order_by base es).
Proof.
  unfold edited. assert (T : table_ok syntax_ok ∅) by apply map_Forall_empty. revert T. generalize (∅ : Table).
  induction es as [|e es IH]; intros table T; [done|]. cbn [foldl]. by apply IH, edit_keeps.
Qed.

(** The body in effect under a name and part. *)
Definition in_effect (d : option Directory) (table : Table) (name : string) (p : Part) : option Entry :=
  match table !! (name, suffix p) with
  | Some body => Some {| e_body := body; e_origin := Database |}
  | None => layer_below d name p
  end.

Lemma layered_lookup base table t name p :
  effective base table = Ok t → sound syntax_ok (entries base) → table_ok syntax_ok table →
  entries t !! (name, suffix p) =
    match table !! (name, suffix p) with
    | Some body => Some {| e_body := body; e_origin := Database |}
    | None => entries base !! (name, suffix p)
    end.
Proof.
  intros E B T. rewrite effective_ok in E by done. injection E as <-. cbn [entries]. rewrite lookup_union, lookup_fmap.
  destruct (table !! (name, suffix p)); cbn; [by destruct (entries base !! _)|]. by destruct (entries base !! _).
Qed.

(** No history of edits through the API breaks the mailer: once the
    directory has loaded, the templates in effect always build, each of them
    whole, and every part of them is the body saved last, else the file, else
    the built-in one. An accepted save is in effect as it was written, a delete
    leaves a name to the layers below, and neither changes another name. *)
Theorem edits_keep_templates_whole directory base es :
  load syntax_ok directory = Ok base →
  let table := edited syntax_ok order_by base es in
  ∃ t, effective base table = Ok t
    ∧ (∀ name p, defined directory name → entries t !! (name, suffix p) = in_effect directory table name p)
    ∧ (∀ name p, ¬ defined directory name →
         entries t !! (name, suffix p) = (λ body, {| e_body := body; e_origin := Database |}) <$> table !! (name, suffix p))
    ∧ (∀ name, has_name (entries t) name = true → ∀ p, is_Some (entries t !! (name, suffix p)))
    ∧ (∀ name subject html text table' v,
         save_template syntax_ok order_by base table name subject html text = (table', Ok v) →
         ∃ t', effective base table' = Ok t' ∧ ∀ n p, entries t' !! (n, suffix p) =
           if decide (n = trim name) then Some {| e_body := rows_of subject html text p; e_origin := Database |}
           else entries t !! (n, suffix p))
    ∧ (∀ name table' removed, delete_template syntax_ok order_by base table name = (table', Ok removed) →
         ∃ t', effective base table' = Ok t' ∧ ∀ n p, entries t' !! (n, suffix p) =
           if decide (n = trim name) then entries base !! (n, suffix p) else entries t !! (n, suffix p)).
Proof.
  intros (B & L)%load_layered table. assert (T : table_ok syntax_ok table) by apply edited_ok.
  eexists. split; [by apply effective_ok|]. set (t := {| entries := _ |}).
  assert (E : effective base table = Ok t) by by apply effective_ok.
  assert (Lk : ∀ n p, entries t !! (n, suffix p) = match table !! (n, suffix p) with
    | Some body => Some {| e_body := body; e_origin := Database |} | None => entries base !! (n, suffix p) end)
    by (intros; by apply layered_lookup).
  split_and!.
  - intros name p D. rewrite Lk. unfold in_effect. destruct (table !! _); [done|]. by apply L.
  - intros name p D. rewrite Lk. destruct (table !! _); [done|]. by apply L.
  - intros name Hn p. apply bool_decide_eq_true in Hn as ([n s] & e & He & Hk). cbn in Hk. subst n.
    unfold effective, with_overrides in E. apply bind_Ok in E as (es' & _ & E). apply from_entries_ok in E as [S Et].
    rewrite Et in He |- *. by apply (S _ _ He).
  - intros name subject html text table' v. rewrite save_template_eq. destruct (acceptable _ _ _ _ _) as [u|] eqn:A; [|done].
    intros [= <- _]. eexists. assert (T' := whole_saved _ _ _ _ _ _ _ A T). split; [by apply effective_ok|]. intros n p.
    rewrite (layered_lookup base _ _ n p) by (by apply effective_ok || done). case_decide as D.
    + subst n. by rewrite with_rows_own.
    + by rewrite with_rows_other, Lk.
  - intros name table' removed. unfold delete_template. destruct (_ ≫= _) as [x|err]; [|done]. intros [= <- _].
    eexists. assert (T' := deleted_ok _ _ (trim name) T). split; [by apply effective_ok|]. intros n p.
    rewrite (layered_lookup base _ _ n p) by (by apply effective_ok || done). cbn.
    rewrite map_lookup_filter. case_decide as D.
    + subst n. destruct (table !! _); cbn; [by rewrite option_guard_False by (by intros ?)|done].
    + rewrite Lk. destruct (table !! _); cbn; [by rewrite option_guard_True|done].
Qed.
End in_effect.

(** * What is queued is sent *)

(** What can be an address: one [@] with a text on either side. *)
Definition address_ok (to : string) : Prop :=
  ∃ local domain, to = local +:+ "@" +:+ domain ∧ local ≠ "" ∧ domain ≠ "" ∧ count_char "@" to = 1%nat
    ∧ has_whitespace to = false ∧ has_control to = false ∧ (bytes to ≤ MAX_ADDRESS_LEN)%Z.

Lemma validate_address_ok to : validate_address to = Ok () → address_ok to.
Proof.
  unfold validate_address. case_decide; [done|]. destruct (Z.ltb_spec MAX_ADDRESS_LEN (bytes to)); [done|].
  destruct (has_whitespace to) eqn:W; [done|]. destruct (has_control to) eqn:C; [done|]. cbn [orb].
  destruct (bool_decide _) eqn:Cn; [|done]. apply bool_decide_eq_true in Cn. cbn [negb].
  destruct (rsplit_once "@" to) as [[a b]|] eqn:R; [|done]. apply rsplit_once_Some in R.
  destruct (_ || _) eqn:E; [done|]. apply orb_false_iff in E as [A%bool_decide_eq_false D%bool_decide_eq_false].
  intros _. by exists a, b.
Qed.

(** Trimming twice. *)
Lemma trim_start_fix s : trim_start (trim_start s) = trim_start s.
Proof.
  remember (String.length s) as n eqn:L. revert s L. induction (lt_wf n) as [n _ IH]. intros s ->.
  assert (I : ∀ t, (String.length t < String.length s)%nat → trim_start (trim_start t) = trim_start t) by (intros t T; by eapply IH).
  clear IH. destruct s as [|a r]; [done|]. cbn [trim_start]. destruct (is_ws1 a) eqn:A; [apply I; cbn; lia|].
  destruct r as [|b r2]; [cbn [trim_start]; by rewrite A|]. destruct (is_ws2 a b) eqn:B; [apply I; cbn; lia|].
  destruct r2 as [|c r3]; [cbn [trim_start]; by rewrite A, B|]. destruct (is_ws3 a b c) eqn:C; [apply I; cbn; lia|].
  cbn [trim_start]. by rewrite A, B, C.
Qed.

Lemma trim_start_shorter s t : (String.length t < String.length s)%nat → trim_start t = s → False.
Proof. intros L <-. pose proof (trim_start_length t). lia. Qed.

Lemma trim_start_cons a r :
  trim_start (String a r) =
    if is_ws1 a then trim_start r
    else match r with
         | EmptyString => String a r
         | String b r2 =>
             if is_ws2 a b then trim_start r2
             else match r2 with
                  | EmptyString => String a r
                  | String c r3 => if is_ws3 a b c then trim_start r3 else String a r
                  end
         end.
Proof. reflexivity. Qed.

Lemma trim_start_prefix p q : trim_start (p +:+ q) = p +:+ q → trim_start p = p.
Proof.
  destruct p as [|a [|b [|c p]]]; [done|..]; rewrite !str_app_cons; intros E; rewrite trim_start_cons in E; rewrite trim_start_cons.
  all: destruct (is_ws1 a); [exfalso; eapply trim_start_shorter, E; cbn; lia|].
  - done.
  - destruct (is_ws2 a b); [exfalso; eapply trim_start_shorter, E; cbn; lia|]. done.
  - destruct (is_ws2 a b); [exfalso; eapply trim_start_shorter, E; cbn; lia|].
    destruct (is_ws3 a b c); [exfalso; eapply trim_start_shorter, E; cbn; lia|]. done.
Qed.

Lemma trim_end_prefix s : ∃ q, s = trim_end s +:+ q.
Proof.
  induction s as [|a s [q IH]]; [by exists ""|]. cbn [trim_end]. destruct (is_blank _); [by eexists|].
  exists q. rewrite str_app_cons. by f_equal.
Qed.

Lemma trim_nonempty s : trim s ≠ "" → trim (trim s) ≠ "".
Proof.
  intros N. assert (F : trim_start (trim s) = trim s).
  { unfold trim. destruct (trim_end_prefix (trim_start s)) as [q E]. apply (trim_start_prefix _ q). rewrite <- E. apply trim_start_fix. }
  unfold trim at 1. rewrite F. destruct (trim s) as [|a r] eqn:T; [done|]. cbn [trim_end]. unfold is_blank. by rewrite F.
Qed.

Section queued.
Context `{JsonText} (syntax_ok : string → string → bool).
Context (render_template : gmap (string * string) string → string → Value → option string).
Context (order_by : list Override → list Override).

Lemma render_known t name p context :
  has_name (entries t) name = true → sound syntax_ok (entries t) →
  render render_template t name p context = ok_or (render_template (e_body <$> entries t) (key name (suffix p)) context) Internal.
Proof.
  intros Hn S. apply bool_decide_eq_true in Hn as ([n s] & e & He & Hk). cbn in Hk. subst n.
  destruct (proj1 (S _ _ He) p) as [e' He']. unfold render. cbn in He'. by rewrite He'.
Qed.

(** The message a template renders to. *)
Definition rendered_message (t : Templates) (config : MailConfig) (name to_name to : string) (assigns : list (string * Value))
    : result Message :=
  let context := JObject (with_default "app_name" (JString (mc_app_name config)) (with_default "name" (JString to_name) assigns)) in
  let part p := ok_or (render_template (e_body <$> entries t) (key name (suffix p)) context) Internal in
  subject ← part Subject; html ← part Html; text ← part Text;
  Ok {| ms_to_name := to_name; ms_to := to; ms_subject := subject; ms_html := html; ms_text := text |}.

Lemma decode_template_job name to_name to assigns :
  decode_mail_job (JObject [("assigns", assigns); ("template", JString name); ("to", JString to); ("toName", JString to_name)])
  = Ok {| mj_template := Some name; mj_to := to; mj_to_name := to_name; mj_assigns := assigns; mj_subject := None;
          mj_html := None; mj_text := None |}.
Proof. reflexivity. Qed.
Lemma decode_raw_job to_name to subject html text :
  decode_mail_job (JObject [("html", JString html); ("subject", JString subject); ("text", JString text); ("to", JString to);
                            ("toName", JString to_name)])
  = Ok {| mj_template := None; mj_to := to; mj_to_name := to_name; mj_assigns := JNull; mj_subject := Some subject;
          mj_html := Some html; mj_text := Some text |}.
Proof. reflexivity. Qed.

Lemma deliver_message t config name to_name to assigns :
  has_name (entries t) name = true → sound syntax_ok (entries t) →
  deliver render_template t config name to_name to assigns =
    match assigns with
    | JObject assigns => rendered_message t config name to_name to assigns
    | JNull => rendered_message t config name to_name to []
    | _ => Err Invalid
    end.
Proof.
  intros Hn S. unfold deliver, context_for, rendered_message, render_all. destruct assigns; try done; cbn [mbind result_bind].
  all: rewrite !render_known by done.
  all: destruct (ok_or (render_template _ (key name (suffix Subject)) _) _); [|done]; cbn [mbind result_bind].
  all: destruct (ok_or (render_template _ (key name (suffix Html)) _) _); [|done]; cbn [mbind result_bind].
  all: by destruct (ok_or (render_template _ (key name (suffix Text)) _) _).
Qed.

(** What passes the checks of [POST /api/mail] is sent as it was given, as
    long as mail is configured and the template is still there: the job decodes
    to it, the recipient is a whole address, a message with its own subject is
    never refused, and one from a template comes to what the template renders
    to with the assigns, [name] and [app_name]. Only assigns that are not an
    object slip through: every attempt at such a job is refused. *)
Theorem queued_message_is_sent base settings table t config body known job payload named to :
  effective syntax_ok order_by base table = Ok t →
  from_settings (read_settings settings) = Ok (Some config) →
  (∀ n, n ∈ known → has_name (entries t) n = true) →
  job_for body known = Ok (job, payload, named, to) →
  n_kind job = KIND_MAIL ∧ to = trim (sm_to body) ∧ address_ok to
  ∧ perform_mail syntax_ok render_template order_by base settings table payload =
      match named with
      | Some name =>
          match default JNull (sm_assigns body) with
          | JObject assigns => rendered_message t config name (trim (sm_to_name body)) to assigns
          | JNull => rendered_message t config name (trim (sm_to_name body)) to []
          | _ => Err Invalid
          end
      | None =>
          let html := default "" (sm_html body) in
          let text := default "" (sm_text body) in
          Ok {| ms_to_name := trim (sm_to_name body); ms_to := to; ms_subject := trim (default "" (sm_subject body));
                ms_html := html; ms_text := if blank text then plain_text_from_html html else text |}
      end.
Proof.
  intros Ef Cf Kn J. unfold job_for in J. apply bind_Ok in J as ([] & V & J). apply validate_address_ok in V.
  apply bind_Ok in J as ([[job' payload'] named'] & J & [= <- <- <- <-]).
  assert (S : sound syntax_ok (entries t)).
  { unfold effective, with_overrides in Ef. apply bind_Ok in Ef as (? & _ & Ef). by apply from_entries_ok in Ef as [? ->]. }
  destruct (sm_template body) as [name|], (sm_subject body) as [subject|]; try done.
  - destruct (_ || _); [done|]. destruct (bool_decide (trim name ∈ known)) eqn:Mk; [|done]. apply bool_decide_eq_true in Mk.
    cbn [negb] in J. destruct (_ <? _)%Z; [done|]. injection J as <- <- <-. split_and!; [done..|].
    unfold perform_mail. rewrite decode_template_job. cbn [mbind result_bind]. rewrite Cf. cbn [mbind result_bind ok_or].
    rewrite Ef. cbn [mbind result_bind mj_template mj_to_name mj_to mj_assigns]. by apply deliver_message; [apply Kn|].
  - case_decide as E0; [done|]. destruct (_ <? _)%N; [done|]. destruct (has_control _); [done|].
    destruct (blank _ && blank _) eqn:B; [done|]. destruct (_ || _); [done|]. injection J as <- <- <-. split_and!; [done..|].
    unfold perform_mail. rewrite decode_raw_job. cbn [mbind result_bind]. rewrite Cf. cbn [mbind result_bind ok_or].
    rewrite Ef. cbn [mbind result_bind mj_template mj_subject mj_html mj_text mj_to_name mj_to default from_option id].
    assert (Bs : blank (trim subject) = false).
    { unfold blank. by apply bool_decide_eq_false, trim_nonempty. }
    unfold deliver_raw. rewrite Bs. cbn [orb]. unfold id in *. cbn in B |- *. rewrite B. done.
Qed.
End queued.

(** Mail that is configured can be dialled. *)
Lemma configured_mail settings c :
  from_settings settings = Ok (Some c) →
  mc_host c ≠ "" ∧ (0 < mc_port c < 65536)%Z ∧ (is_Some (mc_username c) ↔ is_Some (mc_password c))
  ∧ str_contains "@" (mc_sender_address c) = true.
Proof.
  unfold from_settings. destruct (get settings "mail") as [[| | | | |mail]|]; try done.
  intros (host & Hh & E)%bind_Ok. apply bind_Ok in E as (enc & _ & E). apply bind_Ok in E as (port & Hp & E).
  apply ok_or_Ok in Hh, Hp. destruct (bool_decide (is_Some _ ↔ is_Some _)) eqn:U; [|done]. apply bool_decide_eq_true in U. cbn in E.
  destruct (str_contains "@" _) eqn:A; [|done]. cbn in E. injection E as <-.
  split; [|split; [|split; [exact U|exact A]]]; cbn.
  - unfold setting_text in Hh. destruct (v ← get (JObject mail) "host"; as_str v); [|done]. cbn in Hh. case_decide; naive_solver.
  - unfold setting_port in Hp. destruct (match get (JObject mail) "port" with Some _ => _ | None => _ end) as [n|] eqn:P; [|done].
    cbn in Hp. case_decide as L; [|done]. injection Hp as <-. destruct (get (JObject mail) "port") as [[| |m|s| |]|]; try done.
    + destruct (as_u64 (JNumber m)); [|done]. cbn in P. case_decide; [|done]. injection P as <-. lia.
    + apply parse_uint_range in P; lia.
    + injection P as <-. destruct enc; cbn; lia.
Qed.

(** * On concrete mail *)

Definition sample_directory : Directory :=
  {| listing := Some ["otp.subject"; "receipt.subject"; "receipt.html"; "receipt.text"; "notes.md"];
     reading := λ file,
       if decide (file = "otp.subject") then Source "Your code"
       else if decide (file = "receipt.subject") then Source "Thanks"
       else if decide (file = "receipt.html") then Source "<p>Thanks</p>"
       else if decide (file = "receipt.text") then Source "Thanks"
       else NotThere |}.
Definition echo_template (bodies : gmap (string * string) string) (k : string) (context : Value) : option string := Some k.

(** What a load answers, kept folded. *)
Definition loaded (d : option Directory) : Templates :=
  match load (λ _ _, true) d with Ok t => t | Err _ => {| entries := ∅ |} end.
Lemma loaded_ok d : is_ok (load (λ _ _, true) d) = true → load (λ _ _, true) d = Ok (loaded d).
Proof. unfold loaded. by destruct (load _ d). Qed.

Lemma edits_keep_templates_whole_witness :
  load (λ _ _, true) (Some sample_directory) = Ok (loaded (Some sample_directory))
    ∧ let base := loaded (Some sample_directory) in
      let table := edited (λ _ _, true) id base [Save " receipt " "Merci" "<p>Merci</p>" "Merci"; Save "otp" "Code" "c" "c"; Delete "otp"] in
      ∃ t, effective (λ _ _, true) id base table = Ok t
        ∧ entries t !! ("receipt", "subject") = Some {| e_body := "Merci"; e_origin := Database |}
        ∧ entries t !! ("otp", "subject") = Some {| e_body := "Your code"; e_origin := File |}
        ∧ e_origin <$> entries t !! ("otp", "html") = Some Builtin.
Proof.
  assert (L : load (λ _ _, true) (Some sample_directory) = Ok (loaded (Some sample_directory))) by (apply loaded_ok; vm_compute; reflexivity).
  split; [exact L|]. intros base table.
  destruct (edits_keep_templates_whole (λ _ _, true) id (λ l, Permutation_refl l) (Some sample_directory) _
              [Save " receipt " "Merci" "<p>Merci</p>" "Merci"; Save "otp" "Code" "c" "c"; Delete "otp"] L)
    as (t & E & D & _). exists t. split; [exact E|]. split_and!.
  - etransitivity; [apply (D "receipt" Subject)|vm_compute; reflexivity]. right. eexists. split; [vm_compute; reflexivity|]. left.
  - etransitivity; [apply (D "otp" Subject)|vm_compute; reflexivity]. left. vm_compute. do 3 right. left.
  - etransitivity; [apply (f_equal (fmap e_origin)), (D "otp" Html)|vm_compute; reflexivity]. left. vm_compute. do 3 right. left.
Defined.

Definition sample_settings : list (string * Value) :=
  [("auth.jwt", JString "secret"); ("mail", JObject [("host", JString "smtp.example.com"); ("port", JString "2525")])].
Definition sample_mail : SendMail :=
  {| sm_to := " a@example.com "; sm_to_name := "A"; sm_template := None; sm_assigns := None; sm_subject := Some "Hi";
     sm_html := Some "<p>1 &lt; 2</p>"; sm_text := None |}.

Local Abbreviation sample := Samples.sample_json_text.

Lemma queued_message_is_sent_witness :
  let base := loaded None in
  let t := {| entries := (saved_entry <$> (∅ : Table)) ∪ entries base |} in
  ∃ config job payload,
    load (λ _ _, true) None = Ok base ∧ effective (λ _ _, true) id base ∅ = Ok t
    ∧ from_settings (read_settings sample_settings) = Ok (Some config)
    ∧ @job_for sample sample_mail ["otp"] = Ok (job, payload, None, "a@example.com")
    ∧ perform_mail (λ _ _, true) echo_template id base sample_settings ∅ payload
      = Ok {| ms_to_name := "A"; ms_to := "a@example.com"; ms_subject := "Hi"; ms_html := "<p>1 &lt; 2</p>"; ms_text := "1 < 2" |}.
Proof.
  intros base t. assert (L : load (λ _ _, true) None = Ok base) by (apply loaded_ok; vm_compute; reflexivity).
  assert (E : effective (λ _ _, true) id base ∅ = Ok t).
  { apply effective_ok; [by intros; reflexivity|by apply load_layered in L as [S _]|apply map_Forall_empty]. }
  eexists _, _, _. split; [exact L|]. split; [exact E|]. split; [vm_compute; reflexivity|]. split; [vm_compute; reflexivity|].
  eapply eq_trans.
  - eapply (@queued_message_is_sent sample (λ _ _, true) echo_template id base sample_settings ∅ t _ sample_mail ["otp"] _ _ None
              "a@example.com" E).
    + vm_compute. reflexivity.
    + intros n M. apply list_elem_of_singleton in M as ->. vm_compute. reflexivity.
    + vm_compute. reflexivity.
  - vm_compute. reflexivity.
Defined.

(** A message whose assigns are a list is queued, and no attempt at it can
    build its context. *)
Example unsendable_is_queued :
  is_ok (@job_for sample {| sm_to := "a@b"; sm_to_name := ""; sm_template := Some "otp"; sm_assigns := Some (JArray []);
                            sm_subject := None; sm_html := None; sm_text := None |} ["otp"]) = true
  ∧ context_for "" "lazypock" (JArray []) = Err Invalid.
Proof. split; vm_compute; reflexivity. Qed.

Example texts_from_html :
  plain_text_from_html ("<p>Hi&nbsp;A,</p>" +:+ nl +:+ nl +:+ "<br>Tom &amp;lt; <b>Jerry</b>") = "Hi A," +:+ nl +:+ "Tom &lt; Jerry".
Proof. vm_compute. reflexivity. Qed.
