(* ===== verification/HookHttp.v ===== *)
(** The requests a hook may make, [crates/hooks/src/http.rs]: [$http] reads a
    call, checks it against every rule, sends it and caps the answer.

    The URL parser, the resolver and the HTTP client are parameters, the resolver
    asked once per call; what the client is configured with and asked for is
    [ReqwestTransport::send]. Durations are milliseconds; a panic of [Ord::clamp]
    is [None]. *)
From S2P Require Import Prelude CoreError F64 Json Net.

Local Open Scope Z_scope.
Local Set Warnings "-register-all,-clear-no-such-hyp".

Definition DEFAULT_TIMEOUT : Z := 1000.
Definition MAX_RESPONSE_BYTES : Z := 1024 * 1024.
Definition MAX_REQUEST_BODY_BYTES : Z := 256 * 1024.
Definition MAX_URL_LEN : Z := 2048.
Definition MAX_HEADERS : Z := 32.
Definition MAX_RESPONSE_HEADERS : Z := 64.
Definition MAX_RESPONSE_HEADER_BYTES : Z := 16 * 1024.
Definition MAX_HEADER_NAME : Z := 64.
Definition MAX_HEADER_VALUE : Z := 4096.
Definition ALLOWED_METHODS : list string := ["GET"; "POST"; "PUT"; "PATCH"; "DELETE"; "HEAD"].
Definition FORBIDDEN_HEADERS : list string :=
  ["host"; "content-length"; "connection"; "transfer-encoding"; "upgrade"; "proxy-authorization";
   "proxy-connection"; "te"].

Definition size (s : string) : Z := Z.of_nat (String.length s).

(** [str::to_ascii_uppercase]. *)
Definition ascii_upper (c : ascii) : ascii :=
  if is_ascii_lowercase c then ascii_of_N (byte_of c - 32) else c.
Definition to_ascii_uppercase : string → string := str_map ascii_upper.

(** [struct HttpCall] and [HttpCall::from_json]. *)
Record HttpCall := {
  c_method : string;
  c_url : string;
  c_headers : list (string * string);
  c_body : option string;
  c_timeout : option Z;
}.

Definition header_of '((name, value) : string * Value) : result (string * string) :=
  value ← ok_or (as_str value) Invalid; Ok (name, value).

Definition headers_of (v : option Value) : result (list (string * string)) :=
  match v with
  | None | Some JNull => Ok []
  | Some (JObject map) => try_map header_of map
  | Some _ => Err Invalid
  end.

Definition from_json `{JsonText} (payload : Value) : result HttpCall :=
  let method := to_ascii_uppercase (trim (default "GET" (v ← get payload "method"; as_str v))) in
  url ← ok_or (v ← get payload "url"; as_str v) Invalid;
  headers ← headers_of (get payload "headers");
  let body := match get payload "body" with
              | None | Some JNull => None
              | Some (JString text) => Some text
              | Some other => Some (json_text other)
              end in
  Ok {| c_method := method; c_url := trim url; c_headers := headers; c_body := body;
        c_timeout := v ← get payload "timeoutMs"; as_u64 v |}.

(** [struct Prepared] and [struct HttpResponse]. *)
Record Prepared := {
  p_method : string;
  p_url : string;
  p_host : string;
  p_headers : list (string * string);
  p_body : option string;
  p_address : IpAddr * Z;
  p_timeout : Z;
}.
Record HttpResponse := { r_status : Z; r_headers : list (string * string); r_body : string }.

(** [check_headers]: the body of the loop, and the loop. *)
Definition name_char_refused (c : ascii) : bool := bool_decide (c = " "%char) || bool_decide (c = ":"%char).

Definition check_header '((name, value) : string * string) : result (string * string) :=
  if decide (to_ascii_lowercase name ∈ FORBIDDEN_HEADERS) then Err Invalid
  else if bool_decide (name = "") || (MAX_HEADER_NAME <? size name) || (MAX_HEADER_VALUE <? size value) then Err Invalid
  else if has_control name || str_exists name_char_refused name || has_control value then Err Invalid
  else Ok (name, value).

Definition check_headers (headers : list (string * string)) : result (list (string * string)) :=
  if MAX_HEADERS <? len headers then Err Invalid else try_map check_header headers.

(** [check_body]. *)
Definition NUL : ascii := ascii_of_N 0.
Definition check_body (method : string) (body : option string) : result (option string) :=
  match body with
  | None => Ok None
  | Some body =>
      if MAX_REQUEST_BODY_BYTES <? size body then Err Invalid
      else if negb (bool_decide (method ∈ ["POST"; "PUT"; "PATCH"])) then Err Invalid
      else if str_contains NUL body then Err Invalid
      else Ok (Some body)
  end.

(** [Ord::clamp], which panics when the bounds are reversed. *)
Definition clamp (lo hi x : Z) : option Z :=
  if hi <? lo then None else Some (if x <? lo then lo else if hi <? x then hi else x).

(** What [reqwest::Url] answers about a URL. *)
Record Url := {
  scheme : string;
  username : string;
  password : option string;
  host_str : option string;
  port_or_known_default : option Z;
}.

(** [struct HookHttp], less its resolver and transport. *)
Record HookHttp := { allow : list HostPattern; budget : Z }.

Section http.
Context (parse_url : string → option Url) (resolve : string → Z → result (list IpAddr)).

(** The host as [prepare] reads it. *)
Definition checked_host (h : string) : string := trim_end_matches "." (to_ascii_lowercase h).

(** [prepare], up to the clamp of the timeout. *)
Definition prepare_rules (g : HookHttp) (call : HttpCall)
    : result (string * Z * list (string * string) * option string) :=
  if MAX_URL_LEN <? size (c_url call) then Err Invalid
  else
    url ← ok_or (parse_url (c_url call)) Invalid;
    if negb (bool_decide (scheme url = "https")) then Err Invalid
    else if negb (bool_decide (username url = "")) || bool_decide (is_Some (password url)) then Err Invalid
    else
      host ← ok_or (host_str url) Invalid;
      let host := checked_host host in
      port ← ok_or (port_or_known_default url) Invalid;
      if bool_decide (allow g = []) then Err Invalid
      else if negb (allows (allow g) host port) then Err Invalid
      else if negb (bool_decide (c_method call ∈ ALLOWED_METHODS)) then Err Invalid
      else
        headers ← check_headers (c_headers call);
        body ← check_body (c_method call) (c_body call);
        Ok (host, port, headers, body).

(** The rest of it: resolve once, check every answer, take the first. *)
Definition pin (host : string) (port : Z) : result IpAddr :=
  addresses ← resolve host port;
  match addresses with
  | [] => Err Invalid
  | first :: _ => if forallb is_public_ip addresses then Ok first else Err Invalid
  end.

Definition prepare (g : HookHttp) (call : HttpCall) : option (result Prepared) :=
  match prepare_rules g call with
  | Err e => Some (Err e)
  | Ok (host, port, headers, body) =>
      timeout ← clamp 50 (budget g) (default DEFAULT_TIMEOUT (c_timeout call));
      Some (first ← pin host port;
            Ok {| p_method := c_method call; p_url := c_url call; p_host := host; p_headers := headers;
                  p_body := body; p_address := (first, port); p_timeout := timeout |})
  end.

(** [call]: the requests handed to the transport, at most one, and the answer. *)
Definition header_bytes (l : list (string * string)) : Z :=
  foldr (λ '(name, value) n, size name + size value + n) 0 l.

Definition call_ (transport : Prepared → result HttpResponse) (g : HookHttp) (call : HttpCall)
    : option (list Prepared * result HttpResponse) :=
  prepared ← prepare g call;
  Some (match prepared with
        | Err e => ([], Err e)
        | Ok p =>
            ([p], match transport p with
                  | Err _ => Err Internal
                  | Ok r =>
                      if MAX_RESPONSE_BYTES <? size (r_body r) then Err Invalid
                      else if MAX_RESPONSE_HEADER_BYTES <? header_bytes (r_headers r) then Err Invalid
                      else Ok r
                  end)
        end).
End http.

(** * The transport's reading of a response *)

(** [String::from_utf8_lossy]: each maximal ill-formed part becomes U+FFFD. *)
Definition replacement : string :=
  String (ascii_of_N 239) (String (ascii_of_N 191) (String (ascii_of_N 189) "")).
Definition cont (c : ascii) : bool := in_range 128 191 c.
Definition second_of_3 (a b : ascii) : bool :=
  match byte_of a with
  | 224%N => in_range 160 191 b
  | 237%N => in_range 128 159 b
  | _ => in_range 225 239 a && cont b
  end.
Definition second_of_4 (a b : ascii) : bool :=
  match byte_of a with
  | 240%N => in_range 144 191 b
  | 244%N => in_range 128 143 b
  | _ => in_range 241 243 a && cont b
  end.

Fixpoint lossy (s : string) : string :=
  match s with
  | EmptyString => EmptyString
  | String a r =>
      if in_range 0 127 a then String a (lossy r)
      else match r with
           | EmptyString => replacement
           | String b r2 =>
               if in_range 194 223 a && cont b then String a (String b (lossy r2))
               else if second_of_3 a b then
                 match r2 with
                 | EmptyString => replacement
                 | String c r3 =>
                     if cont c then String a (String b (String c (lossy r3))) else replacement +:+ lossy r2
                 end
               else if second_of_4 a b then
                 match r2 with
                 | EmptyString => replacement
                 | String c r3 =>
                     if cont c then
                       match r3 with
                       | EmptyString => replacement
                       | String d r4 =>
                           if cont d then String a (String b (String c (String d (lossy r4))))
                           else replacement +:+ lossy r3
                       end
                     else replacement +:+ lossy r2
                 end
               else replacement +:+ lossy r
           end
  end.

(** The loop over the response headers of [ReqwestTransport::send]. *)
Fixpoint take_headers (room : nat) (bytes : Z) (l : list (string * string)) : list (string * string) :=
  match room, l with
  | S room, (name, value) :: l =>
      let value := lossy value in
      let bytes := bytes + (size name + size value) in
      if MAX_RESPONSE_HEADER_BYTES <? bytes then [] else (name, value) :: take_headers room bytes l
  | _, _ => []
  end.

Definition str_take (n : Z) (s : string) : string := String.substring 0 (Z.to_nat n) s.

(** A response off the wire: the status, the header and body bytes. *)
Definition read_response (status : Z) (headers : list (string * string)) (body : string) : HttpResponse :=
  {| r_status := status; r_headers := take_headers (Z.to_nat MAX_RESPONSE_HEADERS) 0 headers;
     r_body := lossy (str_take (MAX_RESPONSE_BYTES + 1) body) |}.

(** What [ReqwestTransport::send] builds: the client, with its one override of
    the resolver, and the request it sends. *)
Record Client := {
  follows_redirects : bool;
  uses_proxy : bool;
  total_timeout : Z;
  connect_timeout : Z;
  override : string * (IpAddr * Z);
}.
Record Request := {
  q_method : string;
  q_url : string;
  q_headers : list (string * string);
  q_body : option string;
}.

Definition client_of (p : Prepared) : Client :=
  {| follows_redirects := false; uses_proxy := false; total_timeout := p_timeout p;
     connect_timeout := Z.min (p_timeout p) 1000; override := (p_host p, p_address p) |}.
Definition request_of (p : Prepared) : Request :=
  {| q_method := p_method p; q_url := p_url p; q_headers := p_headers p; q_body := p_body p |}.

(** [ReqwestTransport::send]: [exchange] is the client, which may refuse to be
    built or to take the method or a header, or fail on the way. *)
Definition send (exchange : Client → Request → result (Z * list (string * string) * string)) (p : Prepared)
    : result HttpResponse :=
  '(status, headers, body) ← exchange (client_of p) (request_of p);
  Ok (read_response status headers body).

(** The addresses a client connects to for a host of a URL, as [resolve] of its
    builder is documented: the override for the name it is given for, its own
    resolver for any other. *)
Definition dials (dns : string → list IpAddr) (c : Client) (host : string) : list IpAddr :=
  if decide (host = (override c).1) then [(override c).2.1] else dns host.

(** * The rules, read off an accepted call *)

Arguments size : simpl never.

(** What a header and a body may be. *)
Definition header_allowed '((name, value) : string * string) : Prop :=
  to_ascii_lowercase name ∉ FORBIDDEN_HEADERS
  ∧ name ≠ "" ∧ size name ≤ MAX_HEADER_NAME ∧ size value ≤ MAX_HEADER_VALUE
  ∧ has_control name = false ∧ str_exists name_char_refused name = false ∧ has_control value = false.

Definition body_allowed (method : string) (body : option string) : Prop :=
  match body with
  | None => True
  | Some b => size b ≤ MAX_REQUEST_BODY_BYTES ∧ method ∈ ["POST"; "PUT"; "PATCH"] ∧ str_contains NUL b = false
  end.

Lemma bool_ifs_ok {A} (b : bool) (r : result A) x :
  (if b then Err Invalid else r) = Ok x ↔ b = false ∧ r = Ok x.
Proof. destruct b; naive_solver. Qed.

Lemma result_bind_ok {A B} (m : result A) (k : A → result B) x : (a ← m; k a) = Ok x ↔ ∃ a, m = Ok a ∧ k a = Ok x.
Proof. destruct m; cbn; naive_solver. Qed.

Lemma ok_or_ok {A} (o : option A) e x : ok_or o e = Ok x ↔ o = Some x.
Proof. destruct o; cbn; naive_solver. Qed.

Lemma check_header_ok h h' : check_header h = Ok h' ↔ h' = h ∧ header_allowed h.
Proof.
  destruct h as [name value]. unfold check_header, header_allowed.
  destruct (decide (to_ascii_lowercase name ∈ FORBIDDEN_HEADERS)) as [F|F]; [naive_solver|].
  rewrite !bool_ifs_ok, !orb_false_iff, bool_decide_eq_false, !Z.ltb_ge. naive_solver.
Qed.

Lemma check_headers_ok l l' : check_headers l = Ok l' ↔ l' = l ∧ len l ≤ MAX_HEADERS ∧ Forall header_allowed l.
Proof.
  unfold check_headers. rewrite bool_ifs_ok, Z.ltb_ge.
  assert (E : ∀ l l', try_map check_header l = Ok l' ↔ l' = l ∧ Forall header_allowed l).
  { clear. induction l as [|h l IH]; intros l'; cbn [try_map].
    - split; [intros [= <-]; by split|by intros [-> _]].
    - rewrite result_bind_ok. setoid_rewrite result_bind_ok. setoid_rewrite check_header_ok. setoid_rewrite IH.
      rewrite Forall_cons. split; [|naive_solver]. by intros (? & [-> ?] & ? & [-> ?] & [= <-]). }
  rewrite E. naive_solver.
Qed.

Lemma check_body_ok m b b' : check_body m b = Ok b' ↔ b' = b ∧ body_allowed m b.
Proof.
  destruct b as [b|]; cbn [check_body body_allowed]; [|naive_solver].
  rewrite !bool_ifs_ok, Z.ltb_ge, negb_false_iff, bool_decide_eq_true. naive_solver.
Qed.

Lemma clamp_some lo hi x y : clamp lo hi x = Some y ↔ lo ≤ hi ∧ y = Z.max lo (Z.min hi x).
Proof.
  unfold clamp. destruct (Z.ltb_spec hi lo); [split; [done|lia]|]. destruct (Z.ltb_spec x lo), (Z.ltb_spec hi x);
    (split; [intros [= <-]|intros [_ ->]; f_equal]; lia).
Qed.

Section checked.
Context (parse_url : string → option Url) (resolve : string → Z → result (list IpAddr)).

(** The requests a call may turn into: over https, without credentials in the
    URL, to a host and port the list grants, all of whose addresses are public
    and the first of which is the one to connect to; the method, the headers
    and the body as the hook wrote them and within their limits; the time
    within the budget. *)
Definition permitted (g : HookHttp) (call : HttpCall) (p : Prepared) : Prop :=
  ∃ u h first rest,
    parse_url (c_url call) = Some u ∧ size (c_url call) ≤ MAX_URL_LEN
    ∧ scheme u = "https" ∧ username u = "" ∧ password u = None
    ∧ host_str u = Some h ∧ p_host p = checked_host h
    ∧ port_or_known_default u = Some (p_address p).2
    ∧ allow g ≠ [] ∧ allows (allow g) (p_host p) (p_address p).2 = true
    ∧ resolve (p_host p) (p_address p).2 = Ok (first :: rest) ∧ (p_address p).1 = first
    ∧ Forall (λ a, is_public_ip a = true) (first :: rest)
    ∧ p_method p = c_method call ∧ c_method call ∈ ALLOWED_METHODS
    ∧ p_url p = c_url call
    ∧ p_headers p = c_headers call ∧ len (c_headers call) ≤ MAX_HEADERS ∧ Forall header_allowed (c_headers call)
    ∧ p_body p = c_body call ∧ body_allowed (c_method call) (c_body call)
    ∧ 50 ≤ budget g ∧ p_timeout p = Z.max 50 (Z.min (budget g) (default DEFAULT_TIMEOUT (c_timeout call))).

Lemma prepare_rules_ok g call h n hs b :
  prepare_rules parse_url g call = Ok (h, n, hs, b) ↔
  ∃ u h', parse_url (c_url call) = Some u ∧ size (c_url call) ≤ MAX_URL_LEN
    ∧ scheme u = "https" ∧ username u = "" ∧ password u = None ∧ host_str u = Some h' ∧ h = checked_host h'
    ∧ port_or_known_default u = Some n ∧ allow g ≠ [] ∧ allows (allow g) h n = true
    ∧ c_method call ∈ ALLOWED_METHODS
    ∧ (hs = c_headers call ∧ len (c_headers call) ≤ MAX_HEADERS ∧ Forall header_allowed (c_headers call))
    ∧ b = c_body call ∧ body_allowed (c_method call) (c_body call).
Proof.
  unfold prepare_rules. rewrite bool_ifs_ok, Z.ltb_ge, result_bind_ok. setoid_rewrite ok_or_ok.
  setoid_rewrite bool_ifs_ok. setoid_rewrite bool_ifs_ok. setoid_rewrite result_bind_ok. setoid_rewrite ok_or_ok.
  setoid_rewrite result_bind_ok. setoid_rewrite ok_or_ok. do 3 setoid_rewrite bool_ifs_ok.
  setoid_rewrite result_bind_ok. setoid_rewrite result_bind_ok. setoid_rewrite check_headers_ok. setoid_rewrite check_body_ok.
  setoid_rewrite orb_false_iff. setoid_rewrite negb_false_iff. setoid_rewrite bool_decide_eq_true.
  setoid_rewrite bool_decide_eq_false. setoid_rewrite <- eq_None_not_Some. naive_solver.
Qed.

Lemma pin_ok h n a : pin resolve h n = Ok a ↔
  ∃ rest, resolve h n = Ok (a :: rest) ∧ Forall (λ a, is_public_ip a = true) (a :: rest).
Proof.
  unfold pin. rewrite result_bind_ok. split.
  - intros (l & R & E). destruct l as [|x l]; [done|]. destruct (forallb _ _) eqn:F; [|done]. injection E as ->.
    apply forallb_Forall in F. eauto.
  - intros (rest & R & F). exists (a :: rest). split; [done|]. apply forallb_Forall in F. by rewrite F.
Qed.

Lemma prepare_permitted g call p : prepare parse_url resolve g call = Some (Ok p) ↔ permitted g call p.
Proof.
  unfold prepare, permitted. destruct (prepare_rules parse_url g call) as [[[[h n] hs] b]|e] eqn:E.
  - apply prepare_rules_ok in E as (u & h' & Pu & L & S & Us & Pw & Hs & -> & Pn & Al & Aw & M & (-> & Hl & Hf) & -> & B).
    destruct (clamp 50 (budget g) _) as [t|] eqn:C; cbn [mbind option_bind].
    + apply clamp_some in C as [C1 C2]. split.
      * intros [= E]. apply result_bind_ok in E as (a & P & [= <-]). apply pin_ok in P as (rest & R & F).
        exists u, h', a, rest. by split_and!.
      * intros (u' & h2 & a & rest & Pu' & _ & _ & _ & _ & Hs' & Ph & Pn' & _ & _ & R & Pa & F & Pm & _ & Pl & Pd & _ & _ & Pb & _ & _ & Pt).
        assert (u' = u) as -> by congruence. assert (h2 = h') as -> by congruence. f_equal. apply result_bind_ok.
        assert (n = (p_address p).2) as -> by congruence. exists a. split.
        { apply pin_ok. exists rest. split; [by rewrite <- Ph|done]. }
        destruct p as [pm pu ph pd pb [pa pn] pt]. cbn in *. by subst.
    + split; [done|]. intros (u' & h2 & a & rest & Hr). exfalso.
      assert (50 ≤ budget g) by naive_solver. unfold clamp in C. destruct (Z.ltb_spec (budget g) 50); [lia|done].
  - split; [done|]. intros (u & h & a & rest & Pu & L & S & Us & Pw & Hs & Ph & Pn & Al & Aw & R & Pa & F & Pm & M & Pl & Pd & Hl & Hf & Pb & B & _).
    assert (X : prepare_rules parse_url g call = Ok (checked_host h, (p_address p).2, c_headers call, c_body call)); [|congruence].
    apply prepare_rules_ok. exists u, h. rewrite Ph in Aw. by split_and!.
Qed.

Lemma prepare_total g call : 50 ≤ budget g → is_Some (prepare parse_url resolve g call).
Proof.
  intros B. unfold prepare. destruct (prepare_rules _ _ _) as [[[[h n] hs] b]|]; [|by eexists].
  unfold clamp. destruct (Z.ltb_spec (budget g) 50); [lia|]. by eexists.
Qed.

End checked.

(** ** Where a permitted request goes *)

Lemma trim_end_matches_id c s : ends_with (String c "") s = false → trim_end_matches c s = s.
Proof.
  induction s as [|d s IH]; intros E; [done|]. cbn [ends_with] in E. apply orb_false_iff in E as [D E].
  apply bool_decide_eq_false in D. cbn [trim_end_matches]. rewrite IH by done.
  destruct s; [|done]. destruct (decide (d = c)) as [->|]; done.
Qed.

Lemma trim_end_matches_ends c s : ends_with (String c "") (trim_end_matches c s) = false.
Proof.
  induction s as [|d s IH]; [done|]. cbn [trim_end_matches].
  destruct (trim_end_matches c s) as [|e t]; [destruct (decide (d = c)) as [->|N]; [done|]|].
  - cbn. rewrite orb_false_r. apply bool_decide_eq_false. congruence.
  - change (bool_decide (String d (String e t) = String c "") || ends_with (String c "") (String e t) = false).
    rewrite IH, orb_false_r. by apply bool_decide_eq_false.
Qed.

(** The host the address is pinned for is the host of the URL when that has no
    trailing dot. *)
Lemma pin_covers_the_url parse_url resolve g call p u h :
  permitted parse_url resolve g call p → parse_url (p_url p) = Some u → host_str u = Some h →
  to_ascii_lowercase h = h →
  p_host p = h ↔ ends_with "." h = false.
Proof.
  intros (u' & h' & first & rest & P & _ & _ & _ & _ & H & E & R) P' H' L.
  assert (p_url p = c_url call) as Eu by naive_solver. rewrite Eu, P in P'. injection P' as ->.
  rewrite H in H'. injection H' as ->. rewrite E. unfold checked_host. rewrite L. split.
  - intros <-. apply trim_end_matches_ends.
  - apply trim_end_matches_id.
Qed.

(** The client connects to the checked address, whatever its resolver says,
    unless the host of the URL ends in a dot. *)
Lemma dials_the_checked_address parse_url resolve g call p u h :
  permitted parse_url resolve g call p → parse_url (p_url p) = Some u → host_str u = Some h → to_ascii_lowercase h = h →
  (∀ dns, dials dns (client_of p) h = [(p_address p).1]) ↔ ends_with "." h = false.
Proof.
  intros P Pu Hs L. rewrite <- (pin_covers_the_url parse_url resolve g call p u h P Pu Hs L). unfold dials. cbn [override client_of fst snd].
  split; [|by intros -> dns; rewrite decide_True].
  intros D. specialize (D (λ _, [])). by case_decide.
Qed.

Section sent.
Context (parse_url : string → option Url) (resolve : string → Z → result (list IpAddr)).
Context (exchange : Client → Request → result (Z * list (string * string) * string)).
(** The parser writes hosts in lower case. *)
Context (host_lower : ∀ s u h, parse_url s = Some u → host_str u = Some h → to_ascii_lowercase h = h).

(** C18. Whatever a hook asks for, at most one request is handed to the client,
    and that exactly when the call keeps every rule: https, no credentials in
    the URL, a host and port the list grants, nothing but public addresses
    behind the host, a method, headers and a body within their limits. It
    carries what the hook wrote, unchanged, follows no redirect, uses no proxy
    and keeps to the time; and the client connects to the first of the
    addresses that were checked, whatever its own resolver would say, for a URL
    whose host does not end in a dot, and for no other. The answer a hook reads
    is what came back, within the caps on its body and its headers. Only a
    budget below the least timeout, 50 ms, makes a call panic. *)
Theorem http_call_is_checked g call :
  match call_ parse_url resolve (send exchange) g call with
  | None => budget g < 50
  | Some (sent, r) =>
      (length sent ≤ 1)%nat
      ∧ (∀ p, p ∈ sent ↔ permitted parse_url resolve g call p)
      ∧ (∀ p, p ∈ sent →
           request_of p = {| q_method := c_method call; q_url := c_url call; q_headers := c_headers call; q_body := c_body call |}
           ∧ follows_redirects (client_of p) = false ∧ uses_proxy (client_of p) = false
           ∧ total_timeout (client_of p) ≤ budget g
           ∧ ∀ u h, parse_url (c_url call) = Some u → host_str u = Some h →
               (∀ dns, dials dns (client_of p) h = [(p_address p).1]) ↔ ends_with "." h = false)
      ∧ ∀ resp, r = Ok resp →
          ∃ p status headers body, sent = [p] ∧ exchange (client_of p) (request_of p) = Ok (status, headers, body)
            ∧ resp = read_response status headers body
            ∧ size (r_body resp) ≤ MAX_RESPONSE_BYTES ∧ header_bytes (r_headers resp) ≤ MAX_RESPONSE_HEADER_BYTES
  end.
Proof.
  unfold call_. pose proof (prepare_total parse_url resolve g call) as T.
  pose proof (prepare_permitted parse_url resolve g call) as Pp.
  destruct (prepare parse_url resolve g call) as [[p|e]|]; cbn.
  - split; [done|]. split; [intros q; rewrite <- Pp, list_elem_of_singleton; naive_solver|]. split.
    + intros q ->%list_elem_of_singleton. pose proof (proj1 (Pp p) eq_refl) as P.
      assert (E : request_of p = {| q_method := c_method call; q_url := c_url call; q_headers := c_headers call; q_body := c_body call |}).
      { unfold request_of. f_equal; unfold permitted in P; naive_solver. }
      split_and!; [done|done|done| |].
      * unfold permitted in P. cbn. destruct P as (? & ? & ? & ? & P). decompose [and] P. lia.
      * intros u h Pu Hs. injection E as _ E _ _. rewrite <- E in Pu.
        by apply (dials_the_checked_address parse_url resolve g call p u h); [..|by eapply host_lower].
    + intros resp. unfold send. destruct (exchange _ _) as [[[status headers] body]|] eqn:Tr; [|done]. cbn.
      rewrite !bool_ifs_ok, !Z.ltb_ge. intros (B & H & [= <-]). by exists p, status, headers, body.
  - split; [lia|]. split; [intros q; rewrite <- Pp; split; [by intros ?%not_elem_of_nil|done]|].
    split; [by intros q ?%not_elem_of_nil|done].
  - destruct (Z.lt_ge_cases (budget g) 50) as [|B]; [done|]. by destruct (T B).
Qed.
End sent.

(** A URL that spells the host with a trailing dot, as the parser keeps it. *)
Definition dotted_url (s : string) : option Url :=
  if decide (s = "https://api.example.com./x")
  then Some {| scheme := "https"; username := ""; password := None; host_str := Some "api.example.com.";
               port_or_known_default := Some 443 |}
  else None.

(** The pin does not reach a host written with a trailing dot: the request is
    permitted and names [api.example.com.], the pin names [api.example.com],
    so the client resolves the host again, unchecked. *)
Lemma dotted_host_escapes_the_pin :
  let g := {| allow := [{| host := "api.example.com"; subdomains := false; port := 443 |}]; budget := 2000 |} in
  let call := {| c_method := "GET"; c_url := "https://api.example.com./x"; c_headers := []; c_body := None; c_timeout := None |} in
  ∃ p u, prepare dotted_url (λ _ _, Ok [V4 (v4_of 93 184 215 14)]) g call = Some (Ok p)
         ∧ dotted_url (p_url p) = Some u ∧ host_str u = Some "api.example.com."
         ∧ ∀ dns, dials dns (client_of p) "api.example.com." = dns "api.example.com.".
Proof. eexists _, _. split; [vm_compute; reflexivity|]. repeat split. Qed.

Lemma http_call_is_checked_witness :
  let url := λ _ : string, Some {| scheme := "https"; username := ""; password := None; host_str := Some "api.example.com";
                                   port_or_known_default := Some 443 |} in
  let dns := λ (_ : string) (_ : Z), Ok [V4 (v4_of 93 184 215 14)] in
  let g := {| allow := [{| host := "api.example.com"; subdomains := false; port := 443 |}]; budget := 2000 |} in
  let call := {| c_method := "GET"; c_url := "https://api.example.com/x"; c_headers := []; c_body := None; c_timeout := None |} in
  ∃ p r, call_ url dns (send (λ _ _, Ok (200, [], "hello"))) g call = Some ([p], r)
    ∧ ∀ own, dials own (client_of p) "api.example.com" = [V4 (v4_of 93 184 215 14)].
Proof.
  intros url dns g call. assert (Lower : ∀ s u h, url s = Some u → host_str u = Some h → to_ascii_lowercase h = h).
  { intros s u h [= <-] [= <-]. reflexivity. }
  pose proof (http_call_is_checked url dns (λ _ _, Ok (200, [], "hello")) Lower g call) as T.
  assert (E : ∃ p r, call_ url dns (send (λ _ _, Ok (200, [], "hello"))) g call = Some ([p], r)
                     ∧ (p_address p).1 = V4 (v4_of 93 184 215 14)).
  { eexists _, _. split; [vm_compute; reflexivity|]. reflexivity. }
  destruct E as (p & r & E & A). exists p, r. split; [exact E|]. rewrite E in T.
  destruct T as (_ & _ & T & _). destruct (T p ltac:(by left)) as (_ & _ & _ & _ & D).
  rewrite <- A. by apply (proj2 (D _ _ eq_refl eq_refl)).
Defined.

(** * The size of answers *)

Lemma size_cons c s : size (String c s) = 1 + size s.
Proof. unfold size. cbn [String.length]. lia. Qed.
Lemma size_app s t : size (s +:+ t) = size s + size t.
Proof. unfold size. rewrite str_length_app. lia. Qed.
Lemma size_nil : size "" = 0. Proof. done. Qed.
Lemma size_replacement : size replacement = 3. Proof. done. Qed.

Lemma lossy_size s : size s ≤ size (lossy s) ≤ 3 * size s.
Proof.
  remember (String.length s) as n eqn:L. revert s L. induction (lt_wf n) as [n _ IH]. intros s ->.
  assert (I : ∀ t, (String.length t < String.length s)%nat → size t ≤ size (lossy t) ≤ 3 * size t) by (intros t T; by eapply IH).
  clear IH. destruct s as [|a r]; [done|]. cbn [lossy]. rewrite size_cons.
  pose proof (I r ltac:(cbn; lia)) as Ir.
  destruct (in_range 0 127 a); [rewrite size_cons; lia|].
  destruct r as [|b r2]; [rewrite size_nil, size_replacement; lia|]. pose proof (I r2 ltac:(cbn; lia)) as I2. rewrite size_cons in Ir |- *.
  destruct (in_range 194 223 a && cont b); [rewrite !size_cons; lia|].
  destruct (second_of_3 a b); [|destruct (second_of_4 a b); [|rewrite size_app, size_replacement; lia]].
  - destruct r2 as [|c r3]; [rewrite size_nil, size_replacement; lia|]. pose proof (I r3 ltac:(cbn; lia)) as I3.
    rewrite size_cons in I2 |- *. destruct (cont c); [rewrite !size_cons; lia|rewrite size_app, size_replacement; lia].
  - destruct r2 as [|c r3]; [rewrite size_nil, size_replacement; lia|]. pose proof (I r3 ltac:(cbn; lia)) as I3.
    rewrite size_cons in I2 |- *. destruct (cont c); [|rewrite size_app, size_replacement; lia].
    destruct r3 as [|d r4]; [rewrite size_nil, size_replacement; lia|]. pose proof (I r4 ltac:(cbn; lia)) as I4.
    rewrite size_cons in I3 |- *. destruct (cont d); [rewrite !size_cons; lia|rewrite size_app, size_replacement; lia].
Qed.

Lemma take_headers_bytes room bytes l :
  bytes ≤ MAX_RESPONSE_HEADER_BYTES → bytes + header_bytes (take_headers room bytes l) ≤ MAX_RESPONSE_HEADER_BYTES.
Proof.
  revert bytes l. induction room as [|room IH]; intros bytes l B; [cbn; lia|].
  destruct l as [|[name value] l]; [cbn; lia|]. cbn [take_headers].
  destruct (Z.ltb_spec MAX_RESPONSE_HEADER_BYTES (bytes + (size name + size (lossy value)))) as [|X]; [cbn [header_bytes foldr]; lia|].
  specialize (IH _ l X). unfold header_bytes in *. cbn [foldr]. lia.
Qed.

Lemma size_take n s : 0 ≤ n → size (str_take n s) = Z.min n (size s).
Proof.
  intros N. unfold str_take, size. replace n with (Z.of_nat (Z.to_nat n)) at 2 by lia. generalize (Z.to_nat n). clear.
  induction s as [|c s IH]; intros [|m]; cbn; [lia..|]. specialize (IH m). cbn in IH. lia.
Qed.

Lemma str_take_all n s : size s ≤ n → str_take n s = s.
Proof.
  unfold str_take, size. intros L. assert (K : (String.length s ≤ Z.to_nat n)%nat) by lia. revert K. generalize (Z.to_nat n). clear.
  induction s as [|c s IH]; intros [|m] K; cbn in *; [done|done|lia|]. f_equal. apply IH. lia.
Qed.

(** Of the answers that come off the wire, one whose body is beyond the cap
    is always refused; one within it that is UTF-8 is handed back unchanged,
    with the headers that fit; one that is not UTF-8 is measured after its
    replacement characters, so that it is accepted for certain only up to a
    third of the cap. *)
Theorem response_size_rule parse_url resolve g call p status headers body :
  let answer := call_ parse_url resolve (λ _, Ok (read_response status headers body)) g call in
  prepare parse_url resolve g call = Some (Ok p) →
  (MAX_RESPONSE_BYTES < size body → answer = Some ([p], Err Invalid))
  ∧ (lossy body = body → size body ≤ MAX_RESPONSE_BYTES →
       answer = Some ([p], Ok {| r_status := status; r_headers := take_headers 64 0 headers; r_body := body |}))
  ∧ (3 * size body ≤ MAX_RESPONSE_BYTES → ∃ resp, answer = Some ([p], Ok resp) ∧ r_body resp = lossy body).
Proof.
  intros answer P. unfold answer, call_, read_response. rewrite P. cbn [mbind option_bind r_body r_headers].
  pose proof (take_headers_bytes (Z.to_nat MAX_RESPONSE_HEADERS) 0 headers ltac:(done)) as Hb. rewrite Z.add_0_l in Hb.
  assert (Ht : (MAX_RESPONSE_HEADER_BYTES <? header_bytes (take_headers (Z.to_nat MAX_RESPONSE_HEADERS) 0 headers)) = false)
    by (by apply Z.ltb_ge).
  assert (0 ≤ MAX_RESPONSE_BYTES) by done. split_and!.
  - intros B. pose proof (proj1 (lossy_size (str_take (MAX_RESPONSE_BYTES + 1) body))) as L. rewrite size_take in L by lia.
    destruct (Z.ltb_spec MAX_RESPONSE_BYTES (size (lossy (str_take (MAX_RESPONSE_BYTES + 1) body)))); [done|lia].
  - intros U B. rewrite str_take_all by lia. rewrite U. destruct (Z.ltb_spec MAX_RESPONSE_BYTES (size body)); [lia|]. rewrite Ht. reflexivity.
  - intros B. pose proof (proj2 (lossy_size body)) as L. rewrite str_take_all by (unfold size in *; lia).
    destruct (Z.ltb_spec MAX_RESPONSE_BYTES (size (lossy body))); [lia|]. rewrite Ht. by eexists.
Qed.

Lemma response_size_rule_witness :
  let url := λ _ : string, Some {| scheme := "https"; username := ""; password := None; host_str := Some "api.example.com";
                                   port_or_known_default := Some 443 |} in
  let dns := λ (_ : string) (_ : Z), Ok [V4 (v4_of 93 184 215 14)] in
  let g := {| allow := [{| host := "api.example.com"; subdomains := false; port := 443 |}]; budget := 2000 |} in
  let call := {| c_method := "POST"; c_url := "https://api.example.com/x"; c_headers := [("accept", "*/*")];
                 c_body := Some "{}"; c_timeout := Some 10 |} in
  ∃ p, prepare url dns g call = Some (Ok p) ∧ p_timeout p = 50
       ∧ call_ url dns (λ _, Ok (read_response 200 [("x", "y")] "hello")) g call
         = Some ([p], Ok {| r_status := 200; r_headers := [("x", "y")]; r_body := "hello" |}).
Proof.
  intros url dns g call. eexists. split; [vm_compute; reflexivity|]. split; [reflexivity|].
  apply (proj1 (proj2 (response_size_rule url dns g call _ 200 [("x", "y")] "hello" ltac:(vm_compute; reflexivity)))); vm_compute; done.
Defined.

Example lossy_samples :
  lossy (String (ascii_of_N 240) (String (ascii_of_N 144) "a")) = replacement +:+ "a"
  ∧ lossy (String (ascii_of_N 195) (String (ascii_of_N 169) "")) = String (ascii_of_N 195) (String (ascii_of_N 169) "").
Proof. by vm_compute. Qed.
