(* ===== verification/Effects.v ===== *)
(** What a request handler does to the outside: statements on its transaction,
    hooks, and fresh ids, as a program that waits for each answer.

    [prog] is the sequence of operations a handler makes, [runs] the traces it
    can leave whatever the answers are, and [safe] a proof rule for monitors, so
    that a property of every trace is proved along the code. *)
From S2P Require Import Prelude CoreError Json Rls HookHttp.

Local Set Warnings "-register-all".

(** [enum HookEvent] and [struct HookContext], [crates/db/src/hooks.rs]. *)
Inductive HookEvent := HookCreate | HookUpdate | HookDelete.
Record HookContext := { h_collection : string; h_request : RequestContext }.

Definition hook_anonymous (collection : string) : HookContext := {| h_collection := collection; h_request := anonymous |}.
Definition hook_with_action (c : HookContext) (a : Action) : HookContext :=
  {| h_collection := h_collection c; h_request := with_action (h_request c) a |}.

(** A row of [_files], [struct FileRow] of [crates/files/src/store.rs]. *)
Record FileRow := {
  f_id : string;
  f_filename : string;
  f_extension : string;
  f_mime_type : string;
  f_size : Z;
  f_storage_path : string;
  f_storage_backend : string;
  f_collection_name : string;
  f_record_id : string;
  f_field_name : string;
  f_variants : Value;
  f_status : string;
  f_origin : string;
  f_original_name : option string;
  f_width : option Z;
  f_height : option Z;
  f_checksum : option string;
  f_uploaded_by : string;
  f_attached_at : option string;
  f_created_at : string;
  f_updated_at : string;
}.

(** [struct StoredObject] of [crates/files/src/storage.rs]. *)
Record StoredObject := { so_content_type : string; so_body : string }.

(** A row of a listing, [struct ListRow] of [crates/api/src/records.rs]. *)
Record ListRow := { l_record : Value; l_created : option Z; l_id : string }.

(** The answer to a statement. Of a driver's error the program reads the code
    of the database's, when it is one. *)
Record DbError := { db_code : option string }.
Inductive Reply (A : Type) := DbOk (a : A) | DbErr (e : DbError).
Arguments DbOk {A} a.
Arguments DbErr {A} e.

(** A bound parameter: a text, null, an array of texts, a document, a number or a flag. *)
Inductive Bound := PText (s : option string) | PTexts (l : list string) | PJson (v : Value) | PNumber (n : Z) | PBool (b : bool).
Abbreviation Params := (list Bound).

(** One interaction, with the type of its answer: the transaction of
    [crates/db/src/runner.rs] (a statement's rows are what the caller reads of
    them; those of the settings and of the mail templates; the rows of a query the
    data layer decodes itself; a batch of statements), the role switches of
    [crates/db/src/rls/context.rs], the requests of [$http], the hooks, the
    random generator, and the storage backend, [trait Storage] of
    [crates/files/src/storage.rs]. *)
Inductive op : Type → Type :=
  | OClient : op (result unit)
  | OBegin : op (Reply unit)
  | OCommit : op (Reply unit)
  | ORollback : op (Reply unit)
  | OContext (c : RequestContext) : op (Reply unit)
  | OOwner : op (Reply unit)
  | OExecute (sql : string) (params : Params) : op (Reply Z)
  | ORecord (sql : string) (params : Params) : op (Reply (option Value))
  | OFile (sql : string) (params : Params) : op (Reply (option FileRow))
  | OList (sql : string) (params : Params) : op (Reply (list ListRow))
  | OCount (sql : string) (params : Params) : op (Reply Z)
  | OIds (sql : string) (params : Params) : op (Reply (list string))
  | ORows (A : Type) (sql : string) (params : Params) : op (Reply (list A))
  | OBatch (sql : string) : op (Reply unit)
  | OSettings : op (Reply (list (string * Value)))
  | OTemplates : op (Reply (list (string * string * string)))
  | OPut (key content_type body : string) : op (result unit)
  | OGet (key : string) : op (result (option StoredObject))
  | ORemove (key : string) : op (result unit)
  | OKeys (prefix : string) : op (result (list string))
  | OPresign (key : string) (expires_seconds : Z) : op (option string)
  | OHttp (c : HttpCall) : op (result HttpResponse)
  | ONewId : op string
  | OToken : op (option string)
  | OBefore (c : HookContext) (e : HookEvent) (collection : string) (record : Value) : op (result Value)
  | OAfter (c : HookContext) (e : HookEvent) (collection : string) (record : Value) : op (result unit).

Inductive prog (A : Type) : Type :=
  | Ret (a : A)
  | Do {X : Type} (o : op X) (k : X → prog A).
Arguments Ret {A} a.
Arguments Do {A X} o k.

Fixpoint pbind {A B} (p : prog A) (f : A → prog B) : prog B :=
  match p with
  | Ret a => f a
  | Do o k => Do o (λ x, pbind (k x) f)
  end.

(** [RecordWriteError] and the errors of the API, which carry either the
    failures of fields or an [Error]. *)
Inductive WriteError := Fields (errors : gmap string string) | Other (e : Error).
Inductive attempt (A : Type) := Done (a : A) | Failed (e : WriteError).
Arguments Done {A} a.
Arguments Failed {A} e.

Definition W (A : Type) : Type := prog (attempt A).
#[export] Instance W_ret : MRet W := λ A a, Ret (Done a).
#[export] Instance W_bind : MBind W := λ A B k m,
  pbind m (λ r, match r with Done a => k a | Failed e => Ret (Failed e) end).

Definition give {A} (a : A) : W A := Ret (Done a).
Definition fail {A} (e : WriteError) : W A := Ret (Failed e).
Definition refuse {A} (e : Error) : W A := fail (Other e).
Definition lift {A} (r : result A) : W A :=
  match r with Ok a => give a | Err e => refuse e end.
Definition call {X} (o : op X) : W X := Do o (λ x, Ret (Done x)).
Definition ask {A} (o : op (result A)) : W A := Do o (λ r, lift r).

(** A step that has nothing to wait for. *)
Lemma give_then {A B} (a : A) (f : A → W B) : give a ≫= f = f a.
Proof. reflexivity. Qed.

(** [db_error]: any failure of a statement is internal. *)
Definition db {A} (o : op (Reply A)) : W A :=
  Do o (λ r, match r with DbOk a => give a | DbErr _ => refuse Internal end).

(** A [for] loop whose body may fail. *)
Fixpoint for_each {A} (f : A → W unit) (l : list A) : W unit :=
  match l with
  | [] => give tt
  | x :: l => f x ≫= λ _, for_each f l
  end.

(** * Traces *)

Inductive event :=
  | Ev {X : Type} (o : op X) (x : X).

Fixpoint runs {A} (p : prog A) (t : list event) (a : A) : Prop :=
  match p with
  | Ret b => t = [] ∧ a = b
  | Do o k => ∃ x t', t = Ev o x :: t' ∧ runs (k x) t' a
  end.

Lemma runs_bind {A B} (p : prog A) (f : A → prog B) t b :
  runs (pbind p f) t b ↔ ∃ t1 a t2, t = t1 ++ t2 ∧ runs p t1 a ∧ runs (f a) t2 b.
Proof.
  revert t. induction p as [a|X o k IH]; intros t; cbn [pbind runs].
  - split; [intros R; exists [], a, t; by split_and!|]. intros (t1 & a' & t2 & -> & [-> ->] & R). done.
  - setoid_rewrite IH. split.
    + intros (x & t' & -> & t1 & a & t2 & -> & R1 & R2). exists (Ev o x :: t1), a, t2. split; [done|]. split; [|done].
      by exists x, t1.
    + intros (t0 & a & t2 & -> & (x & t1 & -> & R1) & R2). exists x, (t1 ++ t2). split; [done|]. by exists t1, a, t2.
Qed.

(** [?] of a step that succeeds. *)
Lemma runs_then {A B} (p : W A) (f : A → W B) t1 t2 a r :
  runs p t1 (Done a) → runs (f a) t2 r → runs (p ≫= f) (t1 ++ t2) r.
Proof. intros R1 R2. apply runs_bind. by exists t1, (Done a), t2. Qed.

Lemma runs_op {X} (o : op X) x : runs (call o) [Ev o x] (Done x).
Proof. by exists x, []. Qed.
Lemma runs_ask {A} (o : op (result A)) a : runs (ask o) [Ev o (Ok a)] (Done a).
Proof. by exists (Ok a), []. Qed.
Lemma runs_db {A} (o : op (Reply A)) a : runs (db o) [Ev o (DbOk a)] (Done a).
Proof. by exists (DbOk a), []. Qed.
Lemma runs_lift {A} (r : result A) a : r = Ok a → runs (lift r) [] (Done a).
Proof. by intros ->. Qed.

Lemma runs_done {A B} (p : W A) (f : A → W B) t b :
  runs (p ≫= f) t (Done b) → ∃ t1 a t2, t = t1 ++ t2 ∧ runs p t1 (Done a) ∧ runs (f a) t2 (Done b).
Proof.
  intros R. apply runs_bind in R as (t1 & [a|e] & t2 & -> & R1 & R2); [by exists t1, a, t2|]. by destruct R2 as [_ ?].
Qed.

(** * Operations a program never makes *)

Section avoids.
Context (bad : ∀ X, op X → Prop).

Fixpoint avoids {A} (p : prog A) : Prop :=
  match p with
  | Ret _ => True
  | Do o k => ¬ bad _ o ∧ ∀ x, avoids (k x)
  end.

Lemma avoids_runs {A} (p : prog A) t a X (o : op X) x : avoids p → runs p t a → Ev o x ∈ t → ¬ bad X o.
Proof.
  revert t. induction p as [b|Y o' k IH]; intros t V R M; cbn in R.
  - destruct R as [-> _]. by apply not_elem_of_nil in M.
  - destruct R as (y & t' & -> & R). destruct V as [N V]. apply elem_of_cons in M as [E|M]; [|by eapply IH].
    pose proof (f_equal (λ e, match e with @Ev Z o'' _ => bad Z o'' end) E) as G. cbn in G. by rewrite G.
Qed.

Lemma avoids_bind {A B} (p : prog A) (f : A → prog B) : avoids p → (∀ a, avoids (f a)) → avoids (pbind p f).
Proof. intros V F. induction p as [a|X o k IH]; cbn; [apply F|]. destruct V as [N V]. split; [done|]. intros x. by apply IH. Qed.

Lemma avoids_then {A B} (p : W A) (f : A → W B) : avoids p → (∀ a, avoids (f a)) → avoids (p ≫= f).
Proof. intros V F. apply avoids_bind; [done|]. by intros [a|e]; [apply F|]. Qed.

Lemma avoids_lift {A} (r : result A) : avoids (lift r).
Proof. by destruct r. Qed.
Lemma avoids_lift_then {A B} (r : result A) (f : A → W B) :
  (∀ a, r = Ok a → avoids (f a)) → avoids (lift r ≫= f).
Proof. destruct r; cbn; auto. Qed.
Lemma avoids_call {X} (o : op X) : ¬ bad _ o → avoids (call o).
Proof. by split. Qed.
Lemma avoids_ask {A} (o : op (result A)) : ¬ bad _ o → avoids (ask o).
Proof. split; [done|]. by intros [a|e]. Qed.
Lemma avoids_db {A} (o : op (Reply A)) : ¬ bad _ o → avoids (db o).
Proof. split; [done|]. by intros [a|e]. Qed.
Lemma avoids_for_each {A} (f : A → W unit) l : (∀ x, avoids (f x)) → avoids (for_each f l).
Proof. intros F. induction l as [|x l IH]; [done|]. cbn [for_each]. by apply avoids_then. Qed.
End avoids.

(** Walks along the code, leaving the operations it makes. *)
Ltac avoid :=
  repeat lazymatch goal with
  | |- avoids _ (lift _ ≫= _) => apply avoids_lift_then; intros ? ?
  | |- avoids _ (_ ≫= _) => apply avoids_then; [|intros ?]
  | |- avoids _ (pbind _ _) => apply avoids_bind; [|intros ?]
  | |- avoids _ (lift _) => apply avoids_lift
  | |- avoids _ (give _) => exact I
  | |- avoids _ (refuse _) => exact I
  | |- avoids _ (fail _) => exact I
  | |- avoids _ (call _) => apply avoids_call
  | |- avoids _ (ask _) => apply avoids_ask
  | |- avoids _ (db _) => apply avoids_db
  | |- avoids _ (for_each _ _) => apply avoids_for_each; intros ?
  | |- avoids _ (match ?x with _ => _ end) => destruct x
  end.

(** * Monitors *)

Section monitor.
Context {St : Type} (watch : ∀ X, op X → X → St → option St).

Fixpoint watched (s : St) (t : list event) : option St :=
  match t with
  | [] => Some s
  | Ev o x :: t => s ← watch _ o x s; watched s t
  end.

(** Whatever the answers, the monitor lets [p] through and ends in a state that
    fits the result. *)
Fixpoint safe {A} (p : prog A) (s : St) (Q : A → St → Prop) : Prop :=
  match p with
  | Ret a => Q a s
  | Do o k => ∀ x, ∃ s', watch _ o x s = Some s' ∧ safe (k x) s' Q
  end.

Lemma safe_runs {A} (p : prog A) s Q t a :
  safe p s Q → runs p t a → ∃ s', watched s t = Some s' ∧ Q a s'.
Proof.
  revert s t. induction p as [b|X o k IH]; intros s t S R; cbn in R.
  - destruct R as [-> ->]. by exists s.
  - destruct R as (x & t' & -> & R). destruct (S x) as (s' & W1 & S'). cbn. rewrite W1. cbn. by eapply IH.
Qed.

Lemma safe_bind {A B} (p : prog A) (f : A → prog B) s Q :
  safe p s (λ a s', safe (f a) s' Q) → safe (pbind p f) s Q.
Proof.
  revert s. induction p as [a|X o k IH]; intros s S; cbn; [done|]. intros x. destruct (S x) as (s' & W1 & S').
  exists s'. split; [done|]. by apply IH.
Qed.

Lemma safe_mono {A} (p : prog A) s (Q Q' : A → St → Prop) :
  safe p s Q → (∀ a s', Q a s' → Q' a s') → safe p s Q'.
Proof.
  intros S I. revert s S. induction p as [a|X o k IH]; intros s S; cbn; [by apply I|]. intros x.
  destruct (S x) as (s' & W1 & S'). exists s'. split; [done|]. by apply IH.
Qed.

(** [?]: the rest runs only after a success. *)
Lemma safe_then {A B} (p : W A) (f : A → W B) s Q :
  safe p s (λ r s', match r with Done a => safe (f a) s' Q | Failed e => Q (Failed e) s' end) → safe (p ≫= f) s Q.
Proof. intros S. apply safe_bind. eapply safe_mono; [exact S|]. by intros [a|e] s'. Qed.

Lemma safe_lift {A} (r : result A) s (Q : attempt A → St → Prop) :
  (∀ a, r = Ok a → Q (Done a) s) → (∀ e, r = Err e → Q (Failed (Other e)) s) → safe (lift r) s Q.
Proof. destruct r; cbn; auto. Qed.

Lemma safe_db {A} (o : op (Reply A)) s (Q : attempt A → St → Prop) :
  (∀ x, ∃ s', watch _ o x s = Some s' ∧ match x with DbOk a => Q (Done a) s' | DbErr _ => Q (Failed (Other Internal)) s' end) →
  safe (db o) s Q.
Proof. intros H x. destruct (H x) as (s' & W1 & H'). exists s'. split; [done|]. by destruct x. Qed.

Lemma safe_for_each {A} (f : A → W unit) l s (I : St → Prop) :
  I s → (∀ x s, x ∈ l → I s → safe (f x) s (λ _ s', I s')) → safe (for_each f l) s (λ _ s', I s').
Proof.
  revert s. induction l as [|x l IH]; intros s Hs Hf; cbn; [done|]. apply safe_then.
  eapply safe_mono; [apply Hf; [by left|done]|]. intros [a|e] s' I'; [|done]. apply IH; [done|].
  intros y s'' Hy. apply Hf. by right.
Qed.
End monitor.
