(* ===== verification/Records.v ===== *)
(** Reading and writing single records, [crates/db/src/records.rs]: the
    statements and the order of hooks, validation, statements and read-back. *)
From S2P Require Import Prelude CoreError Json RecordId Types Sql Ddl Compile CompileSpec Samples CompileProps Projection Read Validation Rls DdlSpec Effects.

Local Set Warnings "-register-all,-clear-no-such-hyp".

(** [RecordWriteError::status]. *)
Definition write_status (e : WriteError) : Z := match e with Fields _ => 400 | Other e => status e end.

(** [map_write_error]. *)
Definition map_write_error (e : DbError) : WriteError :=
  Other (match db_code e with
         | Some "23505" => Conflict
         | Some "23503" => Invalid
         | Some "42501" => Forbidden
         | Some "23502" => Invalid
         | Some "P0001" => Conflict
         | _ => Internal
         end).

Definition expect_object (input : Value) : result Input := ok_or (as_object input) Invalid.

(** [resolve_id]. *)
Definition resolve_id (object : Input) : W string :=
  match assoc "id" object with
  | None | Some JNull => call ONewId
  | Some (JString raw) =>
      if decide (raw = "") then call ONewId else if is_valid_id raw then give raw else refuse Invalid
  | Some _ => refuse Invalid
  end.

(** [struct Writable] and [writable_columns]. *)
Record Writable := { w_name : string; w_type : string; w_field : option Field }.

Definition writable_field `{JsonText} (is_auth : bool) (f : Field) : result (option Writable) :=
  if decide (field_type f = FAutodate) then Ok None
  else if is_auth && bool_decide (field_name f ∈ CREDENTIAL_COLUMNS) then Ok None
  else
    column_type ← field_column_type f;
    Ok (Some {| w_name := field_name f; w_type := column_type; w_field := Some f |}).

Definition writable_columns `{JsonText} (c : Collection) : result (list Writable) :=
  let auth := is_auth (collection_type c) in
  columns ← try_map (writable_field auth) (fields c);
  let own := omap id columns in
  let extra := if auth
               then filter (λ w, w_name w ∉ field_name <$> fields c)
                      [{| w_name := "email"; w_type := "text"; w_field := None |};
                       {| w_name := "verified"; w_type := "boolean"; w_field := None |}]
               else [] in
  Ok (own ++ extra).

(** [text_placeholder], [placeholder] and [writable_placeholder]: the text, and
    the parameters with the one it pushed. *)
Definition text_placeholder (value : option string) (params : list string) : string * list string :=
  match value with
  | None => ("null", params)
  | Some text => let params := params ++ [text] in ("$" +:+ dec_nat (length params) +:+ "::text", params)
  end.

Definition placeholder `{JsonText} (f : Field) (value : Value) (params : list string) : result (string * list string) :=
  column_type ← field_column_type f;
  encoded ← encode_value f value;
  Ok (match encoded with
      | None => ("null", params)
      | Some encoded =>
          let params := params ++ [encoded] in
          ("$" +:+ dec_nat (length params) +:+ (if decide (column_type = "text") then "::text" else "::text::" +:+ column_type),
           params)
      end).

(** The value of an auth column that is not a field. *)
Definition system_value (column_type : string) (value : Value) : option string :=
  if is_null value then None
  else if decide (column_type = "boolean") then Some (if default false (as_bool value) then "true" else "false")
  else Some (default "" (as_str value)).

Definition writable_placeholder `{JsonText} (w : Writable) (value : Value) (params : list string)
    : result (string * list string) :=
  match w_field w with
  | None => Ok (text_placeholder (system_value (w_type w) value) params)
  | Some f => placeholder f value params
  end.

(** The loops over the writable columns and over the extra ones: the columns,
    what they are set to, and the parameters so far. *)
Abbreviation Columns := (list (string * string) * list string)%type.

Definition add_writable `{JsonText} (object : Input) '((columns, params) : Columns) (w : Writable) : result Columns :=
  match assoc (w_name w) object with
  | None => Ok (columns, params)
  | Some value =>
      '(text, params) ← writable_placeholder w value params;
      Ok (columns ++ [(w_name w, text)], params)
  end.

Definition add_extra '((columns, params) : Columns) '((name, value) : string * option string) : Columns :=
  let '(text, params) := text_placeholder value params in (columns ++ [(name, text)], params).

Definition written `{JsonText} (c : Collection) (object : Input) (extra : list (string * option string)) (start : Columns)
    : result Columns :=
  ws ← writable_columns c;
  own ← try_fold (add_writable object) start ws;
  Ok (foldl add_extra own extra).

(** The statements. *)
Definition insert_statement (table : string) (columns : list (string * string)) : string :=
  "insert into " +:+ quote_ident table +:+ " (" +:+ join ", " (quote_ident <$> columns.*1)
  +:+ ") values (" +:+ join ", " columns.*2 +:+ ")".

Definition assignment '((name, text) : string * string) : string := quote_ident name +:+ " = " +:+ text.

Definition update_statement (table : string) (columns : list (string * string)) (params : list string) : string :=
  "update " +:+ quote_ident table +:+ " set "
  +:+ join ", " ((assignment <$> columns) ++ [quote_ident "updated" +:+ " = now()"])
  +:+ " where " +:+ quote_ident "id" +:+ " = $" +:+ dec_nat (length params) +:+ "::text".

Definition delete_statement (table : string) : string :=
  "delete from " +:+ quote_ident table +:+ " where " +:+ quote_ident "id" +:+ " = $1::text".

Definition get_one_statement (table document : string) : string :=
  "select " +:+ document +:+ " as record from " +:+ quote_ident table +:+ " where " +:+ quote_ident "id" +:+ " = $1::text".

(** The insert and the update of a record, with the parameters they bind. *)
Definition insert_of `{JsonText} (c : Collection) (id : string) (object : Input) (extra : list (string * option string))
    : result (string * list string) :=
  '(columns, params) ← written c object extra ([("id", "$1::text")], [id]);
  Ok (insert_statement (collection_name c) columns, params).

Definition update_of `{JsonText} (c : Collection) (id : string) (object : Input) (extra : list (string * option string))
    : result (string * list string) :=
  '(columns, params) ← written c object extra ([], []);
  let params := params ++ [id] in
  Ok (update_statement (collection_name c) columns params, params).

(** [bound]. *)
Definition texts (params : list string) : Params := (λ p, PText (Some p)) <$> params.

(** A write: its statement, with the driver's error mapped. *)
Definition execute (sql : string) (params : list string) : W Z :=
  Do (OExecute sql (texts params)) (λ r, match r with DbOk n => give n | DbErr e => fail (map_write_error e) end).

Section records.
Context `{JsonText}.

(** [get_one] and [read_back]. *)
Definition get_one (c : Collection) (ctx : FilterContext) (id : string) (sel : FieldSelection) (ex : ExpandSpec)
    : W (option Value) :=
  lift (record_document ctx (quote_ident (collection_name c)) sel ex) ≫= λ document,
  db (ORecord (get_one_statement (collection_name c) document) [PText (Some id)]).

Definition read_back (c : Collection) (ctx : FilterContext) (id : string) : W (option Value) :=
  get_one c ctx id selection_all expand_none.

(** [create_with], [update_with] and [delete]. [before] is the hooks'. *)
Definition checked_input (c : Collection) (input : Value) (partial : bool) : W Input :=
  lift (expect_object input) ≫= λ object,
  match validate c object partial with
  | Some errors => fail (Fields errors)
  | None => give object
  end.

Definition create_with (c : Collection) (ctx : FilterContext) (input : Value) (extra : list (string * option string))
    (before : HookEvent → string → Value → W Value) : W Value :=
  before HookCreate (collection_name c) input ≫= λ input,
  checked_input c input false ≫= λ object,
  resolve_id object ≫= λ id,
  lift (insert_of c id object extra) ≫= λ '(sql, params),
  execute sql params ≫= λ _,
  db OOwner ≫= λ _,
  read_back c ctx id ≫= λ stored,
  lift (ok_or stored Internal).

Definition update_with (c : Collection) (ctx : FilterContext) (id : string) (input : Value)
    (extra : list (string * option string)) (before : HookEvent → string → Value → W Value) : W (option Value) :=
  before HookUpdate (collection_name c) input ≫= λ input,
  checked_input c input true ≫= λ object,
  lift (update_of c id object extra) ≫= λ '(sql, params),
  execute sql params ≫= λ updated,
  if decide (updated = 0%Z) then give None
  else
    db OOwner ≫= λ _,
    read_back c ctx id.

Definition delete (c : Collection) (id : string) : W bool :=
  execute (delete_statement (collection_name c)) [id] ≫= λ removed, give (bool_decide (0 < removed)%Z).
End records.

(** [NoHooks]. *)
Definition no_hooks (_ : HookEvent) (_ : string) (record : Value) : W Value := give record.

(** * What a write binds *)

(** A column, the cast of its placeholder and the value, [None] for null. *)
Record Binding := { b_name : string; b_cast : string; b_value : option string }.

Definition binding_of `{JsonText} (object : Input) (w : Writable) : result (option Binding) :=
  match assoc (w_name w) object with
  | None => Ok None
  | Some value =>
      match w_field w with
      | None => Ok (Some {| b_name := w_name w; b_cast := "::text"; b_value := system_value (w_type w) value |})
      | Some f =>
          column_type ← field_column_type f;
          encoded ← encode_value f value;
          Ok (Some {| b_name := w_name w; b_cast := if decide (column_type = "text") then "::text" else "::text::" +:+ column_type;
                      b_value := encoded |})
      end
  end.

Definition extra_binding '((name, value) : string * option string) : Binding :=
  {| b_name := name; b_cast := "::text"; b_value := value |}.

(** The columns a write sets and their values, with no statement built. *)
Definition bindings `{JsonText} (c : Collection) (object : Input) (extra : list (string * option string))
    : result (list Binding) :=
  ws ← writable_columns c; own ← try_map (binding_of object) ws; Ok (omap id own ++ (extra_binding <$> extra)).

(** Their text, when [k] parameters are bound already. *)
Fixpoint render (k : nat) (bs : list Binding) : list (string * string) :=
  match bs with
  | [] => []
  | b :: bs =>
      match b_value b with
      | None => (b_name b, "null") :: render k bs
      | Some _ => (b_name b, "$" +:+ dec_nat (S k) +:+ b_cast b) :: render (S k) bs
      end
  end.

Definition values (bs : list Binding) : list string := omap b_value bs.

Lemma render_app k bs1 bs2 : render k (bs1 ++ bs2) = render k bs1 ++ render (k + length (values bs1)) bs2.
Proof.
  revert k. induction bs1 as [|b bs1 IH]; intros k; cbn; [by rewrite Nat.add_0_r|].
  unfold values. cbn. destruct (b_value b); cbn; rewrite IH; [|done]. by rewrite Nat.add_succ_r.
Qed.

Lemma values_app bs1 bs2 : values (bs1 ++ bs2) = values bs1 ++ values bs2.
Proof. apply omap_app. Qed.

Lemma render_names k bs : (render k bs).*1 = b_name <$> bs.
Proof. revert k. induction bs as [|b bs IH]; intros k; [done|]. cbn. destruct (b_value b); cbn; by rewrite IH. Qed.

Section loop.
Context `{JsonText}.

(** The loops bind exactly what [bindings] says. *)
Lemma add_writable_binding object w columns params :
  add_writable object (columns, params) w
  = b ← binding_of object w; Ok (columns ++ render (length params) (option_list b), params ++ values (option_list b)).
Proof.
  unfold add_writable, binding_of. destruct (assoc (w_name w) object) as [v|]; [|cbn; by rewrite !app_nil_r].
  unfold writable_placeholder. destruct (w_field w) as [f|].
  - unfold placeholder. destruct (field_column_type f) as [ty|]; [|done]. cbn.
    destruct (encode_value f v) as [[t|]|]; [..|done]; cbn; rewrite ?length_app, ?Nat.add_1_r, ?app_nil_r; done.
  - destruct (system_value (w_type w) v) as [t|]; cbn; rewrite ?length_app, ?Nat.add_1_r, ?app_nil_r; done.
Qed.

Lemma add_writables object ws columns params :
  try_fold (add_writable object) (columns, params) ws
  = bs ← try_map (binding_of object) ws;
    Ok (columns ++ render (length params) (omap id bs), params ++ values (omap id bs)).
Proof.
  revert columns params. induction ws as [|w ws IH]; intros columns params; cbn [try_fold try_map].
  { cbn. by rewrite !app_nil_r. }
  rewrite add_writable_binding. destruct (binding_of object w) as [b|]; [|done]. cbn [mbind result_bind]. rewrite IH.
  destruct (try_map (binding_of object) ws) as [bs|]; [|done]. cbn [mbind result_bind].
  assert (E : omap id (b :: bs) = option_list b ++ omap id bs) by by destruct b.
  rewrite E, render_app, values_app, length_app, <- !app_assoc. done.
Qed.

Lemma add_extras extra columns params :
  foldl add_extra (columns, params) extra
  = (columns ++ render (length params) (extra_binding <$> extra), params ++ values (extra_binding <$> extra)).
Proof.
  revert columns params. induction extra as [|[name [v|]] extra IH]; intros columns params; cbn [foldl].
  { cbn. by rewrite !app_nil_r. }
  - cbn -[foldl]. rewrite IH, length_app, Nat.add_1_r, <- !app_assoc. done.
  - cbn -[foldl]. rewrite IH, <- !app_assoc. done.
Qed.

Lemma written_bindings c object extra columns params :
  written c object extra (columns, params)
  = bs ← bindings c object extra; Ok (columns ++ render (length params) bs, params ++ values bs).
Proof.
  unfold written, bindings. destruct (writable_columns c) as [ws|]; [|done]. cbn [mbind result_bind].
  rewrite add_writables. destruct (try_map (binding_of object) ws) as [bs|]; [|done]. cbn [mbind result_bind].
  rewrite add_extras, render_app, values_app, length_app, <- !app_assoc. done.
Qed.

Lemma insert_of_spec c id object extra :
  insert_of c id object extra
  = bs ← bindings c object extra;
    Ok (insert_statement (collection_name c) (("id", "$1::text") :: render 1 bs), id :: values bs).
Proof. unfold insert_of. rewrite written_bindings. by destruct (bindings c object extra). Qed.

Lemma update_of_spec c id object extra :
  update_of c id object extra
  = bs ← bindings c object extra;
    Ok (update_statement (collection_name c) (render 0 bs) (values bs ++ [id]), values bs ++ [id]).
Proof. unfold update_of. rewrite written_bindings. by destruct (bindings c object extra). Qed.

(** * Which columns *)

Lemma elem_of_closed (l l' : list string) :
  bool_decide (Forall (λ n, n ∉ l') l) = true → ∀ n, n ∈ l → n ∉ l'.
Proof. intros B%bool_decide_eq_true n M. rewrite Forall_forall in B. by apply B. Qed.

Lemma system_not_account n : n ∈ SYSTEM_COLUMNS → n ∉ ["email"; "verified"].
Proof. by apply elem_of_closed. Qed.
Lemma system_not_credential n : n ∈ SYSTEM_COLUMNS → n ∉ CREDENTIAL_COLUMNS.
Proof. by apply elem_of_closed. Qed.
Lemma account_not_credential n : n ∈ ["email"; "verified"] → n ∉ CREDENTIAL_COLUMNS.
Proof. by apply elem_of_closed. Qed.

(** What [writable_columns] lets a body set: a field that is neither an
    autodate nor, on accounts, a credential; or, on accounts, [email] and
    [verified]. *)
Definition may_set (c : Collection) (name : string) : Prop :=
  (∃ f, f ∈ fields c ∧ field_name f = name ∧ field_type f ≠ FAutodate
        ∧ (is_auth (collection_type c) = true → name ∉ CREDENTIAL_COLUMNS))
  ∨ (is_auth (collection_type c) = true ∧ name ∈ ["email"; "verified"] ∧ name ∉ field_name <$> fields c).

(** A collection as it is loaded: the fields have different names, none of them
    a column of the server. *)
Definition loaded_ok (c : Collection) : Prop :=
  NoDup (field_name <$> fields c) ∧ Forall (λ f, field_name f ∉ SYSTEM_COLUMNS) (fields c).

Lemma writable_field_spec auth f w :
  writable_field auth f = Ok (Some w) →
  w_name w = field_name f ∧ w_field w = Some f ∧ field_type f ≠ FAutodate
  ∧ (auth = true → field_name f ∉ CREDENTIAL_COLUMNS).
Proof.
  unfold writable_field. case_decide as A; [done|]. destruct (auth && _) eqn:E; [done|].
  intros (ty & T & [= <-])%bind_Ok. split_and!; try done. intros ->. cbn in E. by apply bool_decide_eq_false in E.
Qed.

Lemma writable_own auth fs columns :
  try_map (writable_field auth) fs = Ok columns →
  (w_name <$> omap id columns) `sublist_of` (field_name <$> fs)
  ∧ (∀ w, w ∈ omap id columns → ∃ f, f ∈ fs ∧ w_name w = field_name f ∧ w_field w = Some f
                                    ∧ field_type f ≠ FAutodate ∧ (auth = true → field_name f ∉ CREDENTIAL_COLUMNS)).
Proof.
  revert columns. induction fs as [|f fs IH]; intros columns T; cbn in T.
  { injection T as <-. split; [done|]. by intros w ?%not_elem_of_nil. }
  apply bind_Ok in T as (o & O & (rest & R & [= <-])%bind_Ok). destruct (IH _ R) as [S E].
  destruct o as [w|]; cbn.
  - apply writable_field_spec in O as (Nw & Fw & Tw & Cw). rewrite Nw. split; [by constructor|].
    intros w' [->|M]%elem_of_cons; [exists f; split_and!; try done; by left|].
    destruct (E _ M) as (g & G & X). exists g. split; [by right|done].
  - split; [by constructor|]. intros w' M. destruct (E _ M) as (g & G & X). exists g. split; [by right|done].
Qed.

Lemma binding_names object ws bs :
  try_map (binding_of object) ws = Ok bs →
  (b_name <$> omap id bs) `sublist_of` (w_name <$> ws)
  ∧ (∀ b, b ∈ omap id bs → ∃ w, w ∈ ws ∧ binding_of object w = Ok (Some b)).
Proof.
  revert bs. induction ws as [|w ws IH]; intros bs T; cbn in T.
  { injection T as <-. split; [done|]. by intros b ?%not_elem_of_nil. }
  apply bind_Ok in T as (o & O & (rest & R & [= <-])%bind_Ok). destruct (IH _ R) as [S E].
  destruct o as [b|]; cbn.
  - assert (b_name b = w_name w) as ->.
    { unfold binding_of in O. destruct (assoc (w_name w) object); [|done]. destruct (w_field w); [|by injection O as <-].
      apply bind_Ok in O as (? & _ & (? & _ & [= <-])%bind_Ok). done. }
    split; [by constructor|]. intros b' [->|M]%elem_of_cons; [exists w; split; [by left|done]|].
    destruct (E _ M) as (v & V & X). exists v. split; [by right|done].
  - split; [by constructor|]. intros b' M. destruct (E _ M) as (v & V & X). exists v. split; [by right|done].
Qed.

Lemma writable_columns_spec c ws :
  loaded_ok c → writable_columns c = Ok ws →
  NoDup (w_name <$> ws) ∧ Forall (λ w, may_set c (w_name w)) ws ∧ ∀ w f, w ∈ ws → w_field w = Some f → f ∈ fields c ∧ field_name f = w_name w.
Proof.
  intros [N F] E. unfold writable_columns in E. apply bind_Ok in E as (columns & T & [= <-]).
  destruct (writable_own _ _ _ T) as [S E]. split; [|split].
  - rewrite fmap_app. apply NoDup_app. split; [by eapply sublist_NoDup|]. split.
    + intros n M1 M2. apply list_elem_of_fmap in M2 as (w & -> & M2). destruct (is_auth _); [|by apply not_elem_of_nil in M2].
      apply list_elem_of_filter in M2 as [M2 _]. apply M2. eapply sublist_subseteq; [exact S|exact M1].
    + destruct (is_auth _); [|constructor]. eapply sublist_NoDup; [|apply fmap_sublist, sublist_filter].
      apply (bool_decide_unpack _). vm_compute. done.
  - apply Forall_app. split; apply Forall_forall; intros w M.
    + destruct (E w M) as (f & Mf & -> & _ & Tf & Cf). left. by exists f.
    + destruct (is_auth (collection_type c)) eqn:A; [|by apply not_elem_of_nil in M]. apply list_elem_of_filter in M as [Mn M].
      right. split_and!; [done| |done]. rewrite !elem_of_cons in M. destruct M as [->|[->|?%not_elem_of_nil]]; [| |done]; cbn; set_solver.
  - intros w f M Wf. apply elem_of_app in M as [M|M].
    + destruct (E w M) as (g & Mg & -> & Wg & _). rewrite Wg in Wf. by injection Wf as ->.
    + destruct (is_auth (collection_type c)); [|by apply not_elem_of_nil in M]. apply list_elem_of_filter in M as [_ M].
      rewrite !elem_of_cons in M. by destruct M as [->|[->|?%not_elem_of_nil]].
Qed.

(** A write sets each column once: [id] for an insert, the columns of the
    body that a body may set, and the ones the server computed. A credential of
    an account is never among those of the body, an unknown key never among any.
    What each is set to is its encoded value under the cast of its column, bound
    to the placeholder with its number, or [null]. *)
Theorem write_sets_each_column_once c key object extra sql params :
  loaded_ok c → NoDup extra.*1 → Forall (λ e, e.1 ∈ CREDENTIAL_COLUMNS) extra →
  (extra ≠ [] → is_auth (collection_type c) = true) →
  insert_of c key object extra = Ok (sql, params) ∨ update_of c key object extra = Ok (sql, params) →
  ∃ bs, bindings c object extra = Ok bs
    ∧ NoDup ("id" :: "updated" :: (b_name <$> bs))
    ∧ (∀ b, b ∈ bs → (b_name b, b_value b) ∈ extra
                     ∨ may_set c (b_name b) ∧ is_Some (assoc (b_name b) object))
    ∧ ((sql = insert_statement (collection_name c) (("id", "$1::text") :: render 1 bs) ∧ params = key :: values bs)
       ∨ (sql = update_statement (collection_name c) (render 0 bs) params ∧ params = values bs ++ [key])).
Proof.
  intros L Ne Fe Ae S. rewrite insert_of_spec, update_of_spec in S.
  destruct (bindings c object extra) as [bs|] eqn:B; [|by destruct S]. exists bs. split; [done|].
  split; [|split; [|by destruct S as [[= <- <-]|[= <- <-]]; [left|right]]].
  all: unfold bindings in B; apply bind_Ok in B as (ws & Ws & (own & O & [= <-])%bind_Ok).
  all: destruct (writable_columns_spec c ws L Ws) as (Nw & Fw & Gw); destruct (binding_names object ws own O) as [Sb Eb].
  - rewrite fmap_app. assert (En : b_name <$> (extra_binding <$> extra) = extra.*1).
    { rewrite <- list_fmap_compose. apply list_fmap_ext. by intros i [n v] _. }
    rewrite En. pose proof (proj1 (Forall_forall _ _) Fw) as Fw'. pose proof (proj1 (Forall_forall _ _) Fe) as Fe'.
    assert (Own : ∀ n, n ∈ b_name <$> omap id own → may_set c n).
    { intros n M. apply (sublist_subseteq _ _ Sb) in M. apply list_elem_of_fmap in M as (w & -> & M). by apply Fw'. }
    assert (Sys : ∀ n, n ∈ SYSTEM_COLUMNS → n ∉ (b_name <$> omap id own) ++ extra.*1).
    { intros n Mn [M|M]%elem_of_app.
      - destruct (Own n M) as [(f & Mf & <- & _)|(_ & Mn' & _)].
        + destruct L as [_ L]. rewrite Forall_forall in L. by apply (L f).
        + by apply (system_not_account n).
      - apply list_elem_of_fmap in M as ([n' v] & -> & M). apply Fe' in M. by apply (system_not_credential n'). }
    assert ("id" ∈ SYSTEM_COLUMNS ∧ "updated" ∈ SYSTEM_COLUMNS) as [I1 I2] by (split; by apply (bool_decide_unpack _)).
    constructor; [|constructor; [by apply Sys|]].
    { intros [?|?]%elem_of_cons; [done|]. by apply (Sys "id"). }
    apply NoDup_app. split; [by eapply sublist_NoDup|]. split; [|done].
    intros n M1 M2. apply Own in M1. apply list_elem_of_fmap in M2 as ([n' v] & -> & M2). cbn in M1.
    pose proof (Fe' _ M2) as Cr. cbn in Cr.
    assert (A : is_auth (collection_type c) = true) by (apply Ae; by intros ->; apply not_elem_of_nil in M2).
    destruct M1 as [(f & _ & _ & _ & X)|(_ & X & _)]; [by apply X|]. by apply (account_not_credential n').
  - intros b [M|M]%elem_of_app.
    + right. destruct (Eb b M) as (w & Mw & E).
      assert (b_name b = w_name w ∧ is_Some (assoc (w_name w) object)) as [-> A].
      { unfold binding_of in E. destruct (assoc (w_name w) object); [|done]. destruct (w_field w); [|by injection E as <-].
        apply bind_Ok in E as (? & _ & (? & _ & [= <-])%bind_Ok). done. }
      split; [|done]. rewrite Forall_forall in Fw. by apply Fw.
    + left. by apply list_elem_of_fmap in M as ([n v] & -> & M).
Qed.
End loop.

(** * The statements are parameterised *)

Section statements.
Context `{JsonText} (P Q : string → Prop).

(** Texts built one after the other, each with its parameters. *)
Inductive pieces : list string → list string → list string → Prop :=
  | pieces_nil p : pieces p [] p
  | pieces_cons p s p1 l p2 : part P Q p s p1 → pieces p1 l p2 → pieces p (s :: l) p2.

Lemma part_end s p p' t : part P Q p s p' → bare t = true → t ≠ "" → plain_start t = true → part P Q p (s +:+ t) p'.
Proof. intros S B N T. eapply part_app; [exact S|by apply part_bare|done|done]. Qed.

Lemma key_part id : part P Q [] "$1::text" [id].
Proof. apply (part_end ("$" +:+ dec_nat (length ([] ++ [id])))); [apply part_param|done..]. Qed.

Lemma pieces_join sep p l p' :
  bare sep = true → sep ≠ "" → plain_start sep = true → pieces p l p' → part P Q p (join sep l) p'.
Proof.
  intros B N S. induction 1 as [p|p s p1 l p2 Hs Hl IH]; [by apply part_bare|].
  destruct l as [|t l]; [inversion Hl; by subst|]. rewrite join_cons2.
  eapply part_app; [exact Hs| |by destruct sep|by destruct sep]. by apply part_bare_app.
Qed.

Lemma pieces_app p l1 p1 l2 p2 : pieces p l1 p1 → pieces p1 l2 p2 → pieces p (l1 ++ l2) p2.
Proof. induction 1; [done|]. intros. cbn. econstructor; [done|]. auto. Qed.

Lemma quoted_names l p : Forall P l → part P Q p (join ", " (quote_ident <$> l)) p.
Proof.
  intros F. apply pieces_join; [done..|]. induction F as [|n l Hn Hl IH]; cbn; [constructor|].
  econstructor; [by apply quote_ident_part|done].
Qed.

Definition cast_ok (b : Binding) : Prop := ∃ ty, bare ty = true ∧ b_cast b = "::text" +:+ ty.

Lemma render_pieces (f : string * string → string) bs p :
  Forall cast_ok bs → Forall (λ b, P (b_name b)) bs →
  (∀ n text p p', P n → part P Q p text p' → part P Q p (f (n, text)) p') →
  pieces p (f <$> render (length p) bs) (p ++ values bs).
Proof.
  intros F G Hf. revert p. induction F as [|b bs (ty & B & C) Hbs IH]; intros p.
  { cbn. rewrite app_nil_r. constructor. }
  apply Forall_cons in G as [Gb G]. specialize (IH G). unfold values in *. cbn [render omap list_omap].
  destruct (b_value b) as [v|]; cbn [fmap list_fmap]; (econstructor; [apply Hf; [done|]|]).
  - rewrite C, str_app_assoc. eapply part_app; [|apply part_bare_app; [done|by apply part_bare]|done|done].
    pose proof (part_param P Q v p) as X. rewrite length_app, Nat.add_1_r in X. exact X.
  - assert (E : p ++ v :: omap b_value bs = (p ++ [v]) ++ omap b_value bs) by by rewrite <- app_assoc.
    rewrite E.
    replace (S (length p)) with (length (p ++ [v])) by (rewrite length_app; cbn; lia). apply IH.
  - by apply part_bare.
  - apply IH.
Qed.

Lemma assignment_part n text p p' : P n → part P Q p text p' → part P Q p (assignment (n, text)) p'.
Proof.
  intros N T. unfold assignment. eapply part_app; [by apply quote_ident_part| |done|done]. by apply part_bare_app.
Qed.

Lemma insert_part c id bs :
  Forall cast_ok bs → P (collection_name c) → P "id" → Forall (λ b, P (b_name b)) bs →
  part P Q [] (insert_statement (collection_name c) (("id", "$1::text") :: render 1 bs)) (id :: values bs).
Proof.
  intros C T I N. unfold insert_statement. apply part_bare_app; [done|].
  eapply part_app; [by apply quote_ident_part| |done|done]. apply part_bare_app; [done|].
  eapply part_app.
  { change ((("id", "$1::text") :: render 1 bs).*1) with ("id" :: (render 1 bs).*1). apply quoted_names.
    constructor; [done|]. rewrite render_names. by apply Forall_fmap. }
  2,3: done. apply part_bare_app; [done|]. eapply part_app; [|by apply part_bare|done|done].
  apply pieces_join; [done..|]. cbn [fmap list_fmap]. econstructor.
  - apply key_part.
  - apply (render_pieces snd bs [id]); [done|done|]. by intros.
Qed.

Lemma update_part c id bs :
  Forall cast_ok bs → P (collection_name c) → P "id" → P "updated" → Forall (λ b, P (b_name b)) bs →
  part P Q [] (update_statement (collection_name c) (render 0 bs) (values bs ++ [id])) (values bs ++ [id]).
Proof.
  intros C T I U N. unfold update_statement. apply part_bare_app; [done|].
  eapply part_app; [by apply quote_ident_part| |done|done]. apply part_bare_app; [done|].
  eapply part_app.
  { apply pieces_join; [done..|]. eapply pieces_app.
    - apply (render_pieces assignment bs []); [done|done|]. intros. by apply assignment_part.
    - econstructor; [|constructor]. eapply part_app; [by apply quote_ident_part|by apply part_bare|done|done]. }
  2,3: done. apply part_bare_app; [done|]. eapply part_app; [by apply quote_ident_part| |done|done].
  change (" = $" +:+ dec_nat (length (values bs ++ [id])) +:+ "::text")
    with (" = " +:+ ("$" +:+ dec_nat (length (values bs ++ [id])) +:+ "::text")).
  apply part_bare_app; [done|]. rewrite str_app_assoc. cbn [app]. eapply part_app; [apply part_param|by apply part_bare|done|done].
Qed.

Lemma delete_part c id : P (collection_name c) → P "id" → part P Q [] (delete_statement (collection_name c)) [id].
Proof.
  intros T I. unfold delete_statement. apply part_bare_app; [done|].
  eapply part_app; [by apply quote_ident_part| |done|done]. apply part_bare_app; [done|].
  eapply part_app; [by apply quote_ident_part| |done|done].
  change " = $1::text" with (" = " +:+ "$1::text"). apply part_bare_app; [done|apply key_part].
Qed.
End statements.

Section scan.
Context `{JsonText}.

Lemma bindings_casts c object extra bs : bindings c object extra = Ok bs → Forall cast_ok bs.
Proof.
  unfold bindings. intros (ws & _ & (own & O & [= <-])%bind_Ok)%bind_Ok. apply Forall_app. split.
  - apply Forall_forall. intros b M. destruct (binding_names object ws own O) as [_ E]. destruct (E b M) as (w & _ & B).
    unfold binding_of in B. destruct (assoc _ _); [|done]. destruct (w_field w) as [f|].
    + apply bind_Ok in B as (ty & Ty & (? & _ & [= <-])%bind_Ok). unfold cast_ok. cbn [b_cast].
      unfold field_column_type in Ty. apply column_type_bare in Ty as [Ty _].
      destruct (decide (ty = "text")); [by exists ""|]. exists ("::" +:+ ty). split; [by unfold bare; rewrite str_forall_app|done].
    + injection B as <-. by exists "".
  - apply Forall_fmap, Forall_forall. intros [n v] _. by exists "".
Qed.

(** What the names of a write are. *)
Definition write_name (c : Collection) (extra : list (string * option string)) (x : string) : Prop :=
  x = collection_name c ∨ x = "id" ∨ x = "updated" ∨ may_set c x ∨ x ∈ extra.*1.

(** Every statement on a record is parameterised: PostgreSQL's scanner reads
    it to the end, its placeholders are [$1], [$2], ... in order, one per
    parameter, and no value of the body or of the request is part of the text.
    A write names the table, [id], [updated] and columns that may be set, and
    holds no string constant. *)
Theorem record_statements_are_parameterised c key object extra sql params :
  loaded_ok c →
  insert_of c key object extra = Ok (sql, params) ∨ update_of c key object extra = Ok (sql, params)
  ∨ (sql = delete_statement (collection_name c) ∧ params = [key]) →
  ∃ ts, lexemes sql = Some ts
    ∧ lexeme_params ts = N.of_nat <$> seq 1 (length params)
    ∧ Forall (write_name c extra) (lexeme_idents ts)
    ∧ lexeme_literals ts = [].
Proof.
  intros L S. cut (part (write_name c extra) (λ _, False) [] sql params).
  { intros X. destruct (part_statement _ _ _ _ X) as (ts & E1 & E2 & E3 & E4). exists ts. split_and!; try done.
    destruct (lexeme_literals ts); [done|]. by inversion E4. }
  rewrite insert_of_spec, update_of_spec in S.
  assert (T : write_name c extra (collection_name c)) by by left. assert (I : write_name c extra "id") by by (right; left).
  assert (U : write_name c extra "updated") by by (right; right; left).
  destruct (bindings c object extra) as [bs|] eqn:B.
  - pose proof (bindings_casts _ _ _ _ B) as C.
    assert (N : Forall (λ b, write_name c extra (b_name b)) bs).
    { unfold bindings in B. apply bind_Ok in B as (ws & Ws & (own & O & [= <-])%bind_Ok). apply Forall_app.
      destruct (writable_columns_spec c ws L Ws) as (_ & Fw & _). destruct (binding_names object ws own O) as [Sb _]. split.
      - apply Forall_forall. intros b M. apply (list_elem_of_fmap_2 b_name), (sublist_subseteq _ _ Sb) in M.
        apply list_elem_of_fmap in M as (w & -> & M). right; right; right; left. rewrite Forall_forall in Fw. by apply Fw.
      - apply Forall_fmap, Forall_forall. intros [n v] M. right; right; right; right. by apply (list_elem_of_fmap_2 fst) in M. }
    destruct S as [[= <- <-]|[[= <- <-]|[-> ->]]]; [by apply insert_part|by apply update_part|by apply delete_part].
  - destruct S as [?|[?|[-> ->]]]; [done..|by apply delete_part].
Qed.
End scan.

Section builds.
Context `{JsonText}.

(** What validation accepts can always be written: only the database, or an id
    the server would not have made, can still refuse it. *)
Lemma validated_bindings c object extra partial :
  validate c object partial = None → loaded_ok c →
  Forall (λ f, validate_options (field_type f) (field_options f) = Ok ()) (fields c) →
  ∃ bs, bindings c object extra = Ok bs.
Proof.
  intros V L O. unfold bindings.
  assert (Wr : ∃ ws, writable_columns c = Ok ws).
  { unfold writable_columns. assert (X : ∃ cs, try_map (writable_field (is_auth (collection_type c))) (fields c) = Ok cs).
    { clear - O. induction O as [|f fs Of Ofs [cs IH]]; [by eexists|]. cbn [try_map]. rewrite IH.
      destruct (column_type_total _ _ Of) as [ty Ty].
      assert (F : ∃ o, writable_field (is_auth (collection_type c)) f = Ok o); [|destruct F as [o ->]; by eexists].
      unfold writable_field, field_column_type. rewrite Ty. case_decide; [by eexists|]. destruct (_ && _); by eexists. }
    destruct X as [cs ->]. by eexists. }
  destruct Wr as [ws Ws]. rewrite Ws. cbn [mbind result_bind].
  destruct (writable_columns_spec c ws L Ws) as (_ & _ & Wf).
  assert (X : ∃ bs, try_map (binding_of object) ws = Ok bs); [|destruct X as [bs ->]; by eexists].
  clear Ws. induction ws as [|w ws IH]; [by eexists|]. destruct IH as [bs IH].
  { intros w' f M. apply Wf. by right. }
  cbn. assert (B : ∃ b, binding_of object w = Ok b); [|destruct B as [b ->]; cbn; rewrite IH; by eexists].
  unfold binding_of. destruct (assoc (w_name w) object) as [v|] eqn:A; [|by eexists].
  destruct (w_field w) as [f|] eqn:F; [|by eexists]. destruct (Wf w f ltac:(by left) F) as [Mf Nf].
  rewrite Forall_forall in O. destruct (column_type_total _ _ (O f Mf)) as [ty Ty]. unfold field_column_type. rewrite Ty. cbn.
  rewrite <- Nf in A. destruct (record_value_encodes c object partial f v V Mf A) as [[_ E]|[_ [t E]]]; rewrite E; by eexists.
Qed.
End builds.

(** * On concrete records *)

Definition sample_object : Input := [("author", JNull); ("title", JString "it's"); ("unknown", JString "x")].
Definition sample_account : Input :=
  [("email", JString "a@b.c"); ("password_hash", JString "plain"); ("verified", JBool true)].
Definition sample_extra : list (string * option string) := [("password_hash", Some "$argon2id$"); ("token_key", Some "k")].

Lemma samples_loaded : loaded_ok sample_posts ∧ loaded_ok sample_users.
Proof. split; split; apply (bool_decide_unpack _); vm_compute; done. Qed.

(** The account's [verified] is bound as text to a boolean column. *)
Lemma write_sets_each_column_once_witness :
  @insert_of sample_json_text sample_users "abcdefghijklmno" sample_account sample_extra
  = Ok (insert_statement "users"
          [("id", "$1::text"); ("email", "$2::text"); ("verified", "$3::text"); ("password_hash", "$4::text");
           ("token_key", "$5::text")],
        ["abcdefghijklmno"; "a@b.c"; "true"; "$argon2id$"; "k"])
  ∧ ∃ bs, @bindings sample_json_text sample_users sample_account sample_extra = Ok bs
          ∧ NoDup ("id" :: "updated" :: (b_name <$> bs)).
Proof.
  split; [vm_compute; reflexivity|].
  destruct (@write_sets_each_column_once sample_json_text sample_users "abcdefghijklmno" sample_account sample_extra _ _
    (proj2 samples_loaded) ltac:(apply (bool_decide_unpack _); vm_compute; done)
    ltac:(apply (bool_decide_unpack _); vm_compute; done) ltac:(done) (or_introl eq_refl)) as (bs & B & N & _).
  exists bs. by split.
Defined.

Lemma record_statements_are_parameterised_witness :
  ∃ sql params ts,
    @update_of sample_json_text sample_posts "x' or '1'='1" sample_object [] = Ok (sql, params)
    ∧ params = ["it's"; "x' or '1'='1"]
    ∧ lexemes sql = Some ts ∧ lexeme_params ts = [1%N; 2%N] ∧ lexeme_literals ts = [].
Proof.
  eexists _, _. 
  destruct (@record_statements_are_parameterised sample_json_text sample_posts "x' or '1'='1" sample_object [] _ _
    (proj1 samples_loaded) (or_intror (or_introl eq_refl))) as (ts & L & P & _ & N).
  exists ts. split; [vm_compute; reflexivity|]. split; [vm_compute; reflexivity|]. split; [exact L|]. split; [exact P|exact N].
Defined.

Example insert_text :
  @insert_of sample_json_text sample_posts "abcdefghijklmno" sample_object []
  = Ok (insert_statement "posts" [("id", "$1::text"); ("title", "$2::text"); ("author", "null")], ["abcdefghijklmno"; "it's"]).
Proof. vm_compute. reflexivity. Qed.
