(* ===== verification/FileLinks.v ===== *)
(** What a record's values say about files, and the rows of the media library a
    record write touches: [crates/files/src/store.rs], and the policy of a file
    field, [crates/api/src/files.rs]. *)
From stdpp Require Import sorting.
From S2P Require Import Prelude CoreError Json Types Net Rls Effects.

Local Set Warnings "-register-all,-clear-no-such-hyp".

(** [enum FileLink] and [struct FoundFile]. *)
Inductive FileLink := Owned | Reference.
Record FoundFile := { ff_id : string; ff_field : string; ff_link : FileLink }.

#[export] Instance FileLink_eq_dec : EqDecision FileLink.
Proof. solve_decision. Defined.
#[export] Instance FoundFile_eq_dec : EqDecision FoundFile.
Proof. solve_decision. Defined.

(** [ids_in_text]: the run of letters and digits after every [/api/files/]. *)
Definition FILES_PREFIX : string := "/api/files/".

Fixpoint alphanumeric_prefix (s : string) : string :=
  match s with
  | String c r => if is_ascii_alphanumeric c then String c (alphanumeric_prefix r) else ""
  | EmptyString => ""
  end.

(** [str::find] and the rest from there. *)
Fixpoint find_rest (p s : string) : option string :=
  match strip_prefix p s with
  | Some rest => Some rest
  | None => match s with EmptyString => None | String _ r => find_rest p r end
  end.

Fixpoint ids_from (fuel : nat) (text : string) : list string :=
  match fuel with
  | O => []
  | S fuel =>
      match find_rest FILES_PREFIX text with
      | None => []
      | Some after =>
          let id := alphanumeric_prefix after in
          (if decide (id = "") then [] else [id]) ++ ids_from fuel after
      end
  end.
Definition ids_in_text (text : string) : list string := ids_from (String.length text) text.

(** [file_links_in]. *)
Definition link_rank (l : FileLink) : nat := match l with Owned => 0 | Reference => 1 end.

(** The order of the tuples [(id, field, link as u8)]. *)
Definition found_le (a b : FoundFile) : Prop :=
  (ff_id a ≠ ff_id b ∧ String.le (ff_id a) (ff_id b))
  ∨ (ff_id a = ff_id b ∧ ff_field a ≠ ff_field b ∧ String.le (ff_field a) (ff_field b))
  ∨ (ff_id a = ff_id b ∧ ff_field a = ff_field b ∧ link_rank (ff_link a) ≤ link_rank (ff_link b)).
#[export] Instance found_le_dec : RelDecision found_le := λ a b, _.

Definition field_links (object : list (string * Value)) (f : Field) : list FoundFile :=
  match assoc (field_name f) object with
  | None => []
  | Some value =>
      let push link id := if decide (id = "") then None else Some {| ff_id := id; ff_field := field_name f; ff_link := link |} in
      match field_type f with
      | FFile =>
          match value with
          | JString id => option_list (push Owned id)
          | JArray values => omap (λ v, id ← as_str v; push Owned id) values
          | _ => []
          end
      | FEditor => match as_str value with Some text => omap (push Reference) (ids_in_text text) | None => [] end
      | _ => []
      end
  end.

(** [Vec::dedup]. *)
Fixpoint dedup {A} `{EqDecision A} (l : list A) : list A :=
  match l with
  | x :: (y :: _) as l' => if decide (x = y) then dedup l' else x :: dedup l'
  | _ => l
  end.

Definition file_links_in (c : Collection) (record : Value) : list FoundFile :=
  match as_object record with
  | None => []
  | Some object => dedup (merge_sort found_le (mjoin (field_links object <$> fields c)))
  end.

(** [mime_matches] and [check_file_policy], [crates/api/src/files.rs]; the cast
    of the limit to [i64] wraps. *)
Definition mime_matches (pattern mime_type : string) : bool :=
  match strip_suffix "/*" pattern with
  | Some kind =>
      match split_once "/" mime_type with
      | Some (actual, _) => bool_decide (to_ascii_lowercase actual = to_ascii_lowercase kind)
      | None => false
      end
  | None => bool_decide (to_ascii_lowercase pattern = to_ascii_lowercase mime_type)
  end.

Definition as_i64 (n : Z) : Z := (if n <? 2 ^ 63 then n else n - 2 ^ 64)%Z.

Definition check_file_policy (f : Field) (size : Z) (mime_type : string) : result unit :=
  _ ← match file_size_limit (field_options f) with
      | Some max => if (as_i64 max <? size)%Z then Err Invalid else Ok ()
      | None => Ok ()
      end;
  match types ← get (field_options f) "mimeTypes"; as_array types with
  | Some types =>
      let allowed := omap as_str types in
      if negb (bool_decide (allowed = [])) && negb (existsb (λ p, mime_matches p mime_type) allowed) then Err Invalid else Ok ()
  | None => Ok ()
  end.

(** * The statements *)

Definition FILE_COLUMNS : string :=
  "id, filename, extension, mime_type, size, storage_path, storage_backend, collection_name, record_id, field_name, variants, status, origin, original_name, width, height, checksum, uploaded_by, to_char(attached_at at time zone 'UTC', 'YYYY-MM-DD" +:+ String quote_char "T" +:+ String quote_char "HH24:MI:SS.MS" +:+ String quote_char "Z" +:+ String quote_char "') as attached_at, to_char(created_at at time zone 'UTC', 'YYYY-MM-DD" +:+ String quote_char "T" +:+ String quote_char "HH24:MI:SS.MS" +:+ String quote_char "Z" +:+ String quote_char "') as created_at, to_char(updated_at at time zone 'UTC', 'YYYY-MM-DD" +:+ String quote_char "T" +:+ String quote_char "HH24:MI:SS.MS" +:+ String quote_char "Z" +:+ String quote_char "') as updated_at".

Definition text_param (s : string) : Bound := PText (Some s).

(** [store::get]. *)
Definition get_file (id : string) : W (option FileRow) :=
  db (OFile ("select " +:+ FILE_COLUMNS +:+ " from _files where id = $1::text") [text_param id]).

(** [enum Attach] and [attach]. *)
Inductive Attach :=
  | Attached (row : FileRow)
  | Missing
  | NotOwned
  | Elsewhere (collection record field : string).

Definition ATTACH_SQL : string :=
  "update _files set collection_name = $2::text, record_id = $3::text, field_name = $4::text, status = 'ready', attached_at = now(), updated_at = now() where id = $1::text and ($5::text is null or uploaded_by = $5::text) and (record_id = '' or (collection_name = $2::text and record_id = $3::text))".

Definition attach (id collection record field : string) (owner : option string) : W Attach :=
  db (OExecute ATTACH_SQL [text_param id; text_param collection; text_param record; text_param field; PText owner]) ≫= λ updated,
  if decide (updated = 0%Z) then
    get_file id ≫= λ row,
    give (match row with
          | None => Missing
          | Some row =>
              if match owner with Some owner => negb (bool_decide (f_uploaded_by row = owner)) | None => false end then NotOwned
              else Elsewhere (f_collection_name row) (f_record_id row) (f_field_name row)
          end)
  else
    get_file id ≫= λ row,
    match row with Some row => give (Attached row) | None => refuse Internal end.

(** [sync_refs], [delete_refs_for_record], [delete_for_record] and
    [delete_for_ids]. *)
Definition sync_refs (collection record : string) (refs : list (string * string)) : W unit :=
  db (OExecute "delete from _file_refs where collection = $1::text and record_id = $2::text and (file_id, field) not in (select * from unnest($3::text[], $4::text[]))"
        [text_param collection; text_param record; PTexts refs.*1; PTexts refs.*2]) ≫= λ _,
  for_each (λ '(file_id, field),
    db (OExecute "insert into _file_refs (file_id, collection, record_id, field) values ($1::text, $2::text, $3::text, $4::text) on conflict do nothing"
          [text_param file_id; text_param collection; text_param record; text_param field]) ≫= λ _, give tt) refs.

Definition delete_refs_for_record (collection record : string) : W unit :=
  db (OExecute "delete from _file_refs where collection = $1::text and record_id = $2::text"
        [text_param collection; text_param record]) ≫= λ _, give tt.

Definition DELETE_FOR_RECORD_SQL : string :=
  "delete from _files where collection_name = $1::text and record_id = $2::text returning id".
Definition DELETE_FOR_IDS_SQL : string := "delete from _files where id = any($1::text[]) returning id".

Definition delete_for_record (collection record : string) : W (list string) :=
  db (OIds DELETE_FOR_RECORD_SQL [text_param collection; text_param record]).

Definition delete_for_ids (ids : list string) : W (list string) :=
  if decide (ids = []) then give [] else db (OIds DELETE_FOR_IDS_SQL [PTexts ids]).
