(* ===== verification/Handlers.v ===== *)
(** The record endpoints, [crates/api/src/records.rs], and [POST /api/batch],
    [crates/api/src/batch.rs]: how a request becomes statements of one
    transaction, under whose rights each of them runs, and what is committed.

    A transaction that is dropped before its commit is rolled back by the
    database and leaves no event. Messages and HTTP framing are not modelled. *)
From S2P Require Import Prelude CoreError F64 Json Types Ddl Filter Compile Sort Pagination Projection Read Validation Rls Accounts Principal Effects Records FileLinks HookHttp.

Local Open Scope Z_scope.
Local Set Warnings "-register-all,-clear-no-such-hyp".

(** [Principal::user_id]. *)
Definition user_id (p : Principal) : option string := c_sub <$> p_claims p.

(** [hook_context] and [ScopedHooks]. *)
Definition hook_context `{JsonText} (collection : string) (p : Principal) (a : Action) : HookContext :=
  {| h_collection := collection; h_request := request_context p a |}.
Definition scoped_before (hc : HookContext) (e : HookEvent) (collection : string) (record : Value) : W Value :=
  ask (OBefore hc e collection record).
Definition scoped_after (hc : HookContext) (e : HookEvent) (collection : string) (record : Value) : W unit :=
  ask (OAfter hc e collection record).

(** The statement of [sessions::revoke_for_user]. *)
Definition REVOKE_SQL : string :=
  "update _sessions set revoked_at = now() where user_id = $1::text and collection_id is not distinct from nullif($2::text, '') and revoked_at is null".
Definition revoke_sessions (collection_id user : string) : W Z :=
  db (OExecute REVOKE_SQL [text_param user; text_param collection_id]).

(** * Listings *)

(** [struct ListParams]. *)
Record ListParams := {
  lp_filter : option string;
  lp_sort : option string;
  lp_fields : option string;
  lp_expand : option string;
  lp_page : option Z;
  lp_per_page : option Z;
  lp_skip_total : option bool;
  lp_after : option string;
}.

(** [view_rule_filter] and [with_view_rule]. *)
Definition view_rule_filter (c : Collection) (rule_key : string) (p : Principal) : result (option Expr) :=
  if negb (bool_decide (collection_type c = CView)) || is_superuser p then Ok None
  else
    match get (rules c) rule_key with
    | Some (JString rule) => if decide (trim rule = "") then Ok None else Some <$> Filter.parse rule
    | _ => Err Forbidden
    end.

Definition with_view_rule (filter rule : option Expr) : option Expr :=
  match filter, rule with
  | Some user, Some rule => Some (EAnd rule user)
  | None, Some rule => Some rule
  | filter, None => filter
  end.

(** [build_read_query]. *)
Definition build_read_query (params : ListParams) (ctx : FilterContext) : result ReadQuery :=
  selection ← selection_parse (lp_fields params) ctx;
  expand ← expand_parse (lp_expand params) ctx;
  filter ← parse_optional (default "" (lp_filter params));
  sort ← match trim <$> lp_sort params with
         | Some raw => if decide (raw = "") then (if has_column ctx "created" then default_spec else Sort.parse "id")
                       else Sort.parse raw
         | None => if has_column ctx "created" then default_spec else Sort.parse "id"
         end;
  page ← from_params (lp_page params) (lp_per_page params) (default false (lp_skip_total params)) (lp_after params);
  Ok {| selection := selection; expand := expand; rq_filter := filter; sort := sort; rq_page := page |}.

Definition with_filter (q : ReadQuery) (filter : option Expr) : ReadQuery :=
  {| selection := selection q; expand := expand q; rq_filter := filter; sort := sort q; rq_page := rq_page q |}.

(** [list_body]: the page, or the keyset variant. *)
Definition number (n : Z) : Value := JNumber (if n <? 0 then NegInt n else PosInt n).
Definition list_body (p : Page) (items : list Value) (total : option Z) (cursor : option string) : Value :=
  match p with
  | POffset r =>
      let total_items := default (-1) total in
      let pages := if total_items <? 0 then -1 else total_pages r total_items in
      JObject [("items", JArray items); ("page", number (page r)); ("perPage", number (per_page r));
               ("totalItems", number total_items); ("totalPages", number pages)]
  | PKeyset _ limit =>
      JObject [("items", JArray items); ("nextCursor", match cursor with Some s => JString s | None => JNull end);
               ("perPage", number limit)]
  end.

(** The cursor of a full page. *)
Definition page_cursor (q : ReadQuery) (rows : list ListRow) : result (option string) :=
  match rq_page q with
  | PKeyset _ _ =>
      if decide (Z.of_nat (length rows) = page_limit (rq_page q)) then
        match last rows with
        | Some row =>
            match l_created row with
            | Some created => c ← from_time created (l_id row); Ok (Some (encode c))
            | None => Ok None
            end
        | None => Ok None
        end
      else Ok None
  | POffset _ => Ok None
  end.

(** [record_etag] and [etag_matches]. *)
Definition record_etag (record : Value) : option string :=
  id ← (v ← get record "id"; as_str v);
  updated ← (v ← get record "updated"; as_str v);
  Some (String quote_char (id +:+ ":" +:+ updated +:+ String quote_char "")).
Definition etag_matches (if_none_match : option string) (etag : string) : bool :=
  match if_none_match with
  | Some value => existsb (λ s, bool_decide (trim s = etag) || bool_decide (trim s = "*")) (split_on "," value)
  | None => false
  end.

Section handlers.
Context `{JsonText} (argon2_hash : string → result string).

(** [resolve]. *)
Definition resolve (schema : list Collection) (name : string) : result (Collection * FilterContext) :=
  c ← ok_or (schema_get schema name) NotFound;
  ctx ← for_collection c schema;
  Ok (c, ctx).

(** [scoped]: a connection, a transaction, and the caller's context on it. *)
Definition scoped (p : Principal) (a : Action) : W unit :=
  ask OClient ≫= λ _, db OBegin ≫= λ _, db (OContext (request_context p a)).

(** [list_records] and [view_record]. *)
Definition list_records (schema : list Collection) (p : Principal) (name : string) (params : ListParams) : W Value :=
  lift (resolve schema name) ≫= λ '(c, ctx),
  lift (build_read_query params ctx) ≫= λ query,
  lift (if decide (collection_type c = CView) then
          rule ← view_rule_filter c "listRule" p;
          let query := with_filter query (with_view_rule (rq_filter query) rule) in
          match rq_page query with
          | PKeyset _ _ => if has_column ctx "created" then Ok query else Err Invalid
          | POffset _ => Ok query
          end
        else Ok query) ≫= λ query,
  lift (build_list query ctx (auth_context p)) ≫= λ built,
  scoped p AList ≫= λ _,
  db (OList (sql built) (texts (Read.params built))) ≫= λ rows,
  match rq_page query with
  | POffset r =>
      if skip_total r then give None
      else
        lift (build_count (rq_filter query) ctx (auth_context p)) ≫= λ count,
        db (OCount (sql count) (texts (Read.params count))) ≫= λ n, give (Some n)
  | PKeyset _ _ => give None
  end ≫= λ total,
  lift (page_cursor query rows) ≫= λ cursor,
  db OCommit ≫= λ _,
  give (list_body (rq_page query) (l_record <$> rows) total cursor).

(** What a read answers: a record with its tag, or nothing new. *)
Inductive Viewed := NotModified (etag : string) | Found (record : Value) (etag : option string).

Definition view_record (schema : list Collection) (p : Principal) (name id : string) (params : ListParams)
    (if_none_match : option string) : W Viewed :=
  lift (resolve schema name) ≫= λ '(c, ctx),
  lift (selection_parse (lp_fields params) ctx) ≫= λ selection,
  lift (expand_parse (lp_expand params) ctx) ≫= λ expand,
  scoped p AView ≫= λ _,
  (if decide (collection_type c = CView) then
     lift (rule ← view_rule_filter c "viewRule" p;
           sort ← Sort.parse "id";
           page ← from_params (Some 1) (Some 1) true None;
           build_list {| selection := selection; expand := expand;
                         rq_filter := with_view_rule (Some (ECompare (SPath ["id"]) OEq (SValue (OpText id)))) rule;
                         sort := sort; rq_page := page |} ctx (auth_context p)) ≫= λ built,
     db (OList (sql built) (texts (Read.params built))) ≫= λ rows,
     give (l_record <$> head rows)
   else get_one c ctx id selection expand) ≫= λ record,
  db OCommit ≫= λ _,
  lift (ok_or record NotFound) ≫= λ record,
  give (match record_etag record with
        | Some etag => if etag_matches if_none_match etag then NotModified etag else Found record (Some etag)
        | None => Found record None
        end).
End handlers.

Section writes.
Context `{JsonText} (argon2_hash : string → result string).

(** [validate_first], and [auth_columns] with the random token key it draws for
    a new password. *)
Definition validate_first (c : Collection) (input : Value) (partial : bool) : W unit :=
  match as_object input with
  | None => give tt
  | Some object => match validate c object partial with Some errors => fail (Fields errors) | None => give tt end
  end.

Definition auth_extra (c : Collection) (input : Value) : W (list (string * option string)) :=
  lift (auth_columns argon2_hash (Some "") c input) ≫= λ drawn,
  if decide (drawn = []) then give []
  else
    call OToken ≫= λ token_key,
    lift (auth_columns argon2_hash token_key c input) ≫= λ extra,
    give ((λ '(name, value), (name, Some value)) <$> extra).

(** [sync_files]: a file named by a file field becomes the record's. *)
Definition explain_missing (p : Principal) (found : FoundFile) : W unit :=
  db OOwner ≫= λ _,
  get_file (ff_id found) ≫= λ visible,
  db (OContext (request_context p AUpdate)) ≫= λ _,
  match visible with
  | None => give tt
  | Some file =>
      if is_superuser p || bool_decide (user_id p = Some (f_uploaded_by file)) then refuse Conflict else refuse Forbidden
  end.

Definition attach_file (c : Collection) (record_id : string) (p : Principal) (owner : option string) (found : FoundFile) : W unit :=
  attach (ff_id found) (collection_name c) record_id (ff_field found) owner ≫= λ attached,
  match attached with
  | Missing => explain_missing p found
  | NotOwned => refuse Forbidden
  | Elsewhere _ _ _ => refuse Conflict
  | Attached file =>
      match head (filter (λ f, field_name f = ff_field found) (fields c)) with
      | Some field => lift (check_file_policy field (f_size file) (f_mime_type file))
      | None => give tt
      end
  end.

Definition sync_files (c : Collection) (record : Value) (p : Principal) : W unit :=
  match id ← get record "id"; as_str id with
  | None => give tt
  | Some record_id =>
      db (OContext (request_context p AUpdate)) ≫= λ _,
      let owner := if is_superuser p then None else user_id p in
      let links := file_links_in c record in
      for_each (attach_file c record_id p owner) (filter (λ f, ff_link f = Owned) links) ≫= λ _,
      db OOwner ≫= λ _,
      sync_refs (collection_name c) record_id
        ((λ f, (ff_id f, ff_field f)) <$> filter (λ f, ff_link f = Reference) links)
  end.

(** [release_files]. *)
Definition release_files (c : Collection) (record_id : string) (record : option Value) : W unit :=
  db OOwner ≫= λ _,
  delete_for_record (collection_name c) record_id ≫= λ _,
  match record with
  | Some record => delete_for_ids (ff_id <$> filter (λ f, ff_link f = Owned) (file_links_in c record)) ≫= λ _, give tt
  | None => give tt
  end ≫= λ _,
  delete_refs_for_record (collection_name c) record_id.

(** [create_record], [update_record] and [delete_record]. *)
Definition create_record (schema : list Collection) (p : Principal) (name : string) (body : Value) : W Value :=
  lift (resolve schema name) ≫= λ '(c, ctx),
  if decide (collection_type c = CView) then refuse Invalid
  else
    (if is_auth (collection_type c) then validate_first c body false else give tt) ≫= λ _,
    auth_extra c body ≫= λ extra,
    scoped p AWrite ≫= λ _,
    let hc := hook_context (collection_name c) p AWrite in
    create_with c ctx body extra (scoped_before hc) ≫= λ record,
    sync_files c record p ≫= λ _,
    db OCommit ≫= λ _,
    scoped_after hc HookCreate (collection_name c) record ≫= λ _,
    give record.

Definition update_record (schema : list Collection) (p : Principal) (name id : string) (body : Value) : W Value :=
  lift (resolve schema name) ≫= λ '(c, ctx),
  if decide (collection_type c = CView) then refuse Invalid
  else
    scoped p AUpdate ≫= λ _,
    validate_first c body true ≫= λ _,
    auth_extra c body ≫= λ extra,
    let hc := hook_context (collection_name c) p AUpdate in
    update_with c ctx id body extra (scoped_before hc) ≫= λ record,
    (if decide (extra = []) then give 0 else revoke_sessions (collection_id c) id) ≫= λ _,
    match record with Some record => sync_files c record p | None => give tt end ≫= λ _,
    db OCommit ≫= λ _,
    match record with
    | Some record => scoped_after hc HookUpdate (collection_name c) record ≫= λ _, give record
    | None => refuse NotFound
    end.

Definition delete_record (schema : list Collection) (p : Principal) (name id : string) : W unit :=
  lift (resolve schema name) ≫= λ '(c, ctx),
  if decide (collection_type c = CView) then refuse Invalid
  else
    scoped p ADelete ≫= λ _,
    get_one c ctx id selection_all expand_none ≫= λ existing,
    let hc := hook_context (collection_name c) p ADelete in
    match existing with
    | Some existing => scoped_before hc HookDelete (collection_name c) existing ≫= λ _, give tt
    | None => give tt
    end ≫= λ _,
    Records.delete c id ≫= λ removed,
    (if removed then release_files c id existing else give tt) ≫= λ _,
    db OCommit ≫= λ _,
    if (removed : bool) then
      match existing with
      | Some existing => scoped_after hc HookDelete (collection_name c) existing
      | None => give tt
      end
    else refuse NotFound.

(** * The batch endpoint *)

Definition MAX_BATCH_REQUESTS : nat := 50.

Inductive Method := MPost | MPatch | MDelete | MGet.
#[export] Instance Method_eq_dec : EqDecision Method.
Proof. solve_decision. Defined.

(** [struct BatchItem] and [struct Step]. *)
Record BatchItem := { bi_method : string; bi_url : string; bi_body : option Value }.
Record Step := { st_method : Method; st_collection : Collection; st_context : FilterContext; st_id : option string; st_input : option Value }.

(** [parse_record_url]. *)
Definition parse_record_url (url : string) : option (string * option string) :=
  rest ← strip_prefix "/api/collections/" url;
  '(collection, rest) ← split_once "/" rest;
  if decide (collection = "") then None
  else
    rest ← strip_prefix "records" rest;
    if decide (rest = "") then Some (collection, None)
    else
      id ← strip_prefix "/" rest;
      if bool_decide (id = "") || str_contains "/" id then None else Some (collection, Some id).

Definition method_of (m : string) : option Method :=
  let m := HookHttp.to_ascii_uppercase m in
  if decide (m = "POST") then Some MPost
  else if decide (m = "PATCH") then Some MPatch
  else if decide (m = "PUT") then Some MPatch
  else if decide (m = "DELETE") then Some MDelete
  else if decide (m = "GET") then Some MGet
  else None.

(** [plan]. *)
Definition plan (schema : list Collection) (item : BatchItem) : result Step :=
  if str_contains "?" (bi_url item) || str_contains "#" (bi_url item) then Err Unsupported
  else
    method ← ok_or (method_of (bi_method item)) Unsupported;
    '(name, id) ← ok_or (parse_record_url (bi_url item)) Invalid;
    c ← ok_or (schema_get schema name) NotFound;
    ctx ← for_collection c schema;
    if decide (collection_type c = CView) then Err Unsupported
    else if decide (method = MPost ∧ is_Some id) then Err Invalid
    else if decide (method ≠ MPost ∧ id = None) then Err Invalid
    else
      input ← (if decide (method = MPost ∨ method = MPatch) then
                 body ← ok_or (bi_body item) Invalid;
                 if bool_decide (is_Some (as_object body)) then Ok (Some body) else Err Invalid
               else Ok None);
      Ok {| st_method := method; st_collection := c; st_context := ctx; st_id := id; st_input := input |}.

(** [execute] of a step, and [struct PendingAfter]. *)
Record PendingAfter := { pa_context : HookContext; pa_event : HookEvent; pa_collection : string; pa_record : Value }.

Definition action_of (m : Method) : Action :=
  match m with MGet => AView | MPatch => AUpdate | MDelete => ADelete | MPost => AWrite end.

Definition execute_step (p : Principal) (s : Step) : W (Z * Value * option (HookEvent * Value)) :=
  let c := st_collection s in
  let hc := hook_context (collection_name c) p (action_of (st_method s)) in
  match st_method s, st_input s, st_id s with
  | MPost, Some input, _ =>
      auth_extra c input ≫= λ extra,
      create_with c (st_context s) input extra (scoped_before hc) ≫= λ record,
      sync_files c record p ≫= λ _,
      give (201, record, Some (HookCreate, record))
  | MPatch, Some input, Some id =>
      auth_extra c input ≫= λ extra,
      update_with c (st_context s) id input extra (scoped_before hc) ≫= λ record,
      match record with
      | Some record => sync_files c record p ≫= λ _, give (200, record, Some (HookUpdate, record))
      | None => refuse NotFound
      end
  | MDelete, _, Some id =>
      get_one c (st_context s) id selection_all expand_none ≫= λ existing,
      match existing with
      | Some existing => scoped_before hc HookDelete (collection_name c) existing ≫= λ _, give tt
      | None => give tt
      end ≫= λ _,
      Records.delete c id ≫= λ removed,
      if (removed : bool) then give (204, JNull, existing ← existing; Some (HookDelete, existing)) else refuse NotFound
  | MGet, _, Some id =>
      get_one c (st_context s) id selection_all expand_none ≫= λ record,
      match record with Some record => give (200, record, None) | None => refuse NotFound end
  | _, _, _ => refuse Internal
  end.

(** [run]: every step under its own action, with what it answers and the hooks
    to run once the batch is durable. *)
Fixpoint run_steps (p : Principal) (steps : list Step) : W (list Value * list PendingAfter) :=
  match steps with
  | [] => give ([], [])
  | s :: steps =>
      let action := action_of (st_method s) in
      db (OContext (request_context p action)) ≫= λ _,
      execute_step p s ≫= λ '(status, body, produced),
      run_steps p steps ≫= λ '(results, after),
      give (JObject [("body", body); ("status", number status)] :: results,
            match produced with
            | Some (event, record) =>
                {| pa_context := hook_context (collection_name (st_collection s)) p action; pa_event := event;
                   pa_collection := collection_name (st_collection s); pa_record := record |} :: after
            | None => after
            end)
  end.

(** [batch]. *)
Definition batch (schema : list Collection) (p : Principal) (requests : list BatchItem) : W Value :=
  if decide (requests = []) then refuse Invalid
  else if decide (MAX_BATCH_REQUESTS < length requests)%nat then refuse Invalid
  else
    lift (try_map (plan schema) requests) ≫= λ steps,
    ask OClient ≫= λ _,
    db OBegin ≫= λ _,
    pbind (run_steps p steps) (λ r,
      match r with
      | Failed e => Do ORollback (λ _, fail e)
      | Done (results, after) =>
          db OCommit ≫= λ _,
          for_each (λ a, scoped_after (pa_context a) (pa_event a) (pa_collection a) (pa_record a)) after ≫= λ _,
          give (JArray results)
      end).
End writes.

(** * Under whose rights, and what is committed *)

(** What has happened: whether a transaction is open, as whom its statements
    run ([None] is the connecting role, which owns the tables), whether the
    caller's context has already let a write through, and whether there has
    been a commit, and a hook has failed after it. *)
Record Tx := { tx_open : bool; tx_who : option RequestContext; tx_wrote : bool; tx_committed : bool; tx_hook_failed : bool }.

Definition tx_start : Tx := {| tx_open := false; tx_who := None; tx_wrote := false; tx_committed := false; tx_hook_failed := false |}.
Definition tx_as (s : Tx) (who : option RequestContext) (wrote : bool) : Tx :=
  {| tx_open := tx_open s; tx_who := who; tx_wrote := wrote; tx_committed := tx_committed s; tx_hook_failed := tx_hook_failed s |}.

(** The action a write to a collection's table is checked against. The server's
    own tables are written without quotes. *)
Definition dquote : string := String quote_char "".
Definition statement_action (sql : string) : option Action :=
  if starts_with ("insert into " +:+ dquote) sql then Some AWrite
  else if starts_with ("update " +:+ dquote) sql then Some AUpdate
  else if starts_with ("delete from " +:+ dquote) sql then Some ADelete
  else None.

(** The action a hook of an event runs under. *)
Definition event_action (e : HookEvent) : Action :=
  match e with HookCreate => AWrite | HookUpdate => AUpdate | HookDelete => ADelete end.

(** A context of the caller's, for some action. *)
Definition own (base c : RequestContext) : bool := bool_decide (c = with_action base (action c)).

(** The action of the step that runs, when it is known which. *)
Definition fits (stage : option Action) (a : Action) : bool :=
  match stage with Some b => bool_decide (a = b) | None => true end.

(** Statements run as the caller, for the action of the step. *)
Definition as_caller (base : RequestContext) (stage : option Action) (who : option RequestContext) : bool :=
  match who with Some c => own base c && fits stage (action c) | None => false end.

Definition check {A} (b : bool) (a : A) : option A := if b then Some a else None.

(** The protocol of a transaction made for the caller [base]: every write to a
    collection runs as the caller under the write's own action; records are
    read as the caller, or read back by the owner after such a write; a hook
    is given the caller's context for the action of its event, before a write
    while that is the context of the transaction, after it once it is
    committed. In a step whose action is known, all of this is for that
    action. *)
Definition watch (base : RequestContext) (stage : option Action) (X : Type) (o : op X) : X → Tx → option Tx :=
  match o in op X return X → Tx → option Tx with
  | OClient => λ _ s, check (negb (tx_open s)) (tx_as s None false)
  | OBegin => λ r s, check (negb (tx_open s))
      (match r with DbOk _ => {| tx_open := true; tx_who := None; tx_wrote := false; tx_committed := tx_committed s; tx_hook_failed := tx_hook_failed s |} | DbErr _ => s end)
  | OCommit => λ r s, check (tx_open s)
      (match r with
       | DbOk _ => {| tx_open := false; tx_who := None; tx_wrote := false; tx_committed := true; tx_hook_failed := tx_hook_failed s |}
       | DbErr _ => {| tx_open := false; tx_who := None; tx_wrote := false; tx_committed := tx_committed s; tx_hook_failed := tx_hook_failed s |}
       end)
  | ORollback => λ _ s, check (tx_open s) {| tx_open := false; tx_who := None; tx_wrote := false; tx_committed := tx_committed s; tx_hook_failed := tx_hook_failed s |}
  | OContext c => λ r s, check (tx_open s && own base c)
      (match r with DbOk _ => tx_as s (Some c) false | DbErr _ => s end)
  | OOwner => λ r s, check (tx_open s) (match r with DbOk _ => tx_as s None (tx_wrote s) | DbErr _ => s end)
  | OExecute sql _ => λ r s,
      match statement_action sql with
      | None => check (tx_open s) s
      | Some a => check (tx_open s && bool_decide (tx_who s = Some (with_action base a)) && fits stage a)
          (match r with DbOk n => tx_as s (tx_who s) true | DbErr _ => s end)
      end
  | ORecord _ _ => λ _ s, check (tx_open s && (as_caller base stage (tx_who s) || bool_decide (tx_who s = None) && tx_wrote s)) s
  | OList _ _ => λ _ s, check (tx_open s && as_caller base stage (tx_who s)) s
  | OCount _ _ => λ _ s, check (tx_open s && as_caller base stage (tx_who s)) s
  | OFile _ _ => λ _ s, check (tx_open s) s
  | OIds _ _ => λ _ s, check (tx_open s) s
  | ORows _ _ _ => λ _ _, None
  | OBatch _ => λ _ _, None
  | OPut _ _ _ | OGet _ | ORemove _ | OKeys _ | OPresign _ _ => λ _ _, None
  | OSettings => λ _ s, Some s
  | OTemplates => λ _ s, Some s
  | OHttp _ => λ _ s, Some s
  | ONewId => λ _ s, Some s
  | OToken => λ _ s, Some s
  | OBefore hc e _ _ => λ _ s,
      check (tx_open s && bool_decide (tx_who s = Some (h_request hc))
             && bool_decide (h_request hc = with_action base (event_action e)) && fits stage (event_action e)) s
  | OAfter hc e _ _ => λ r s,
      check (negb (tx_open s) && tx_committed s && bool_decide (h_request hc = with_action base (event_action e)))
      {| tx_open := false; tx_who := tx_who s; tx_wrote := tx_wrote s; tx_committed := true;
         tx_hook_failed := tx_hook_failed s || negb (is_ok r) |}
  end.

Section protocol.
Context (base : RequestContext) (stage : option Action).
Local Abbreviation ok p s Q := (safe (watch base stage) p s Q).

(** An open transaction that has committed nothing. *)
Definition live (s : Tx) : Prop := tx_open s = true ∧ tx_committed s = false.

Lemma live_as s who wrote : live s → live (tx_as s who wrote).
Proof. done. Qed.

Lemma own_action a : own base (with_action base a) = true.
Proof. by apply bool_decide_eq_true. Qed.

(** Rules for one operation of an open transaction. *)
Lemma ok_context a s (Q : attempt unit → Tx → Prop) :
  live s → (∀ x, Q (Done x) (tx_as s (Some (with_action base a)) false)) → (Q (Failed (Other Internal)) s) →
  ok (db (OContext (with_action base a))) s Q.
Proof.
  intros [O C] D F. apply safe_db. intros x. eexists. split; [cbn; by rewrite O, own_action|]. by destruct x.
Qed.

Lemma ok_owner s (Q : attempt unit → Tx → Prop) :
  live s → (∀ x, Q (Done x) (tx_as s None (tx_wrote s))) → Q (Failed (Other Internal)) s → ok (db OOwner) s Q.
Proof. intros [O C] D F. apply safe_db. intros x. eexists. split; [cbn; by rewrite O|]. by destruct x. Qed.

Lemma ok_server sql params s (Q : attempt Z → Tx → Prop) :
  live s → statement_action sql = None → (∀ n, Q (Done n) s) → Q (Failed (Other Internal)) s →
  ok (db (OExecute sql params)) s Q.
Proof. intros [O C] A D F. apply safe_db. intros x. eexists. split; [cbn; by rewrite A, O|]. by destruct x. Qed.

Lemma ok_file sql params s (Q : attempt (option FileRow) → Tx → Prop) :
  live s → (∀ x, Q (Done x) s) → Q (Failed (Other Internal)) s → ok (db (OFile sql params)) s Q.
Proof. intros [O C] D F. apply safe_db. intros x. eexists. split; [cbn; by rewrite O|]. by destruct x. Qed.

Lemma ok_ids sql params s (Q : attempt (list string) → Tx → Prop) :
  live s → (∀ x, Q (Done x) s) → Q (Failed (Other Internal)) s → ok (db (OIds sql params)) s Q.
Proof. intros [O C] D F. apply safe_db. intros x. eexists. split; [cbn; by rewrite O|]. by destruct x. Qed.

(** Who may read a record. *)
Definition reader (s : Tx) : Prop := as_caller base stage (tx_who s) = true ∨ (tx_who s = None ∧ tx_wrote s = true).

Lemma caller_reads a s : tx_who s = Some (with_action base a) → fits stage a = true → as_caller base stage (tx_who s) = true.
Proof. intros -> F. cbn. by rewrite own_action, F. Qed.

Lemma ok_record sql params s (Q : attempt (option Value) → Tx → Prop) :
  live s → reader s → (∀ x, Q (Done x) s) → Q (Failed (Other Internal)) s →
  ok (db (ORecord sql params)) s Q.
Proof.
  intros [O C] A D F. apply safe_db. intros x. eexists. split; [cbn; rewrite O|by destruct x].
  destruct A as [->|[-> ->]]; [done|]. by rewrite orb_true_r.
Qed.

Lemma ok_before hc e n r s (Q : attempt Value → Tx → Prop) :
  live s → h_request hc = with_action base (event_action e) → tx_who s = Some (h_request hc) →
  fits stage (event_action e) = true → (∀ x, Q (Done x) s) → (∀ e, Q (Failed e) s) →
  ok (scoped_before hc e n r) s Q.
Proof.
  intros [O C] A T S D F x. exists s. split; [cbn; by rewrite O, S, !bool_decide_eq_true_2|]. destruct x; cbn; auto.
Qed.

Lemma ok_write sql params a s (Q : attempt Z → Tx → Prop) :
  live s → statement_action sql = Some a → tx_who s = Some (with_action base a) → fits stage a = true →
  (∀ n, Q (Done n) (tx_as s (tx_who s) true)) → (∀ e, Q (Failed e) s) →
  ok (execute sql params) s Q.
Proof.
  intros [O C] A E S D F x. rewrite E in D. eexists. split.
  - cbn. rewrite A, O, E, S, bool_decide_eq_true_2 by done. reflexivity.
  - destruct x; cbn; [apply D|apply F].
Qed.

(** The postcondition of everything that happens before the commit. *)
Definition still {A} (Q : A → Tx → Prop) : attempt A → Tx → Prop :=
  λ r s, live s ∧ match r with Done a => Q a s | Failed _ => True end.

Lemma still_then {A B} (p : W A) (f : A → W B) s Q R :
  ok p s (still Q) → (∀ a s', live s' → Q a s' → ok (f a) s' (still R)) → ok (p ≫= f) s (still R).
Proof.
  intros P F. apply safe_then. eapply safe_mono; [exact P|]. intros [a|e] s' [L X]; [by apply F|by split].
Qed.

Lemma still_weaken {A} (p : W A) s (Q R : A → Tx → Prop) :
  ok p s (still Q) → (∀ a s', Q a s' → R a s') → ok p s (still R).
Proof. intros P I. eapply safe_mono; [exact P|]. intros [a|e] s' [L X]; split; auto. Qed.

Lemma still_lift {A} (r : result A) s (Q : A → Tx → Prop) : live s → (∀ a, Q a s) → ok (lift r) s (still Q).
Proof. intros L D. apply safe_lift; intros; split; auto. Qed.

(** Reading records and files. *)
Lemma get_one_ok c ctx id sel ex s :
  live s → reader s → ok (get_one c ctx id sel ex) s (still (λ _ s', s' = s)).
Proof.
  intros L A. eapply still_then; [by apply (still_lift _ _ (λ _ s', s' = s))|]. intros doc ? _ ->.
  by apply ok_record.
Qed.

Lemma get_file_ok id s : live s → ok (get_file id) s (still (λ _ s', s' = s)).
Proof. intros L. by apply ok_file. Qed.

Lemma attach_ok id c r f o s : live s → ok (attach id c r f o) s (still (λ _ s', s' = s)).
Proof.
  intros L. eapply still_then; [by apply (ok_server _ _ _ (still (λ _ s', s' = s)))|]. intros n ? _ ->. case_decide.
  - eapply still_then; [by apply get_file_ok|]. by intros row ? _ ->.
  - eapply still_then; [by apply get_file_ok|]. intros [row|] ? _ ->; by split.
Qed.

Lemma sync_refs_ok c r refs s : live s → ok (sync_refs c r refs) s (still (λ _ s', s' = s)).
Proof.
  intros L. eapply still_then; [by apply (ok_server _ _ _ (still (λ _ s', s' = s)))|]. intros n ? _ ->.
  induction refs as [|[f1 f2] refs IH]; [done|]. cbn [for_each].
  apply (still_then _ _ _ (λ _ s', s' = s)); [|intros [] ? _ ->; exact IH]. clear IH.
  eapply still_then; [by apply (ok_server _ _ _ (still (λ _ s', s' = s)))|]. by intros ? ? _ ->.
Qed.
End protocol.

Lemma insert_action t columns : statement_action (insert_statement t columns) = Some AWrite.
Proof. reflexivity. Qed.
Lemma update_action t columns params : statement_action (update_statement t columns params) = Some AUpdate.
Proof. reflexivity. Qed.
Lemma delete_action t : statement_action (delete_statement t) = Some ADelete.
Proof. reflexivity. Qed.

Section endpoints.
Context `{JsonText} (argon2_hash : string → result string) (p : Principal) (stage : option Action).

Local Abbreviation base := (request_context p AWrite).
Local Abbreviation ok q s Q := (safe (watch base stage) q s Q).
Local Abbreviation any := (still (λ _ _, True)).

Lemma context_action a : request_context p a = with_action base a.
Proof. reflexivity. Qed.

Lemma ok_caller a s (Q : attempt unit → Tx → Prop) :
  live s → (∀ x, Q (Done x) (tx_as s (Some (with_action base a)) false)) → Q (Failed (Other Internal)) s →
  ok (db (OContext (request_context p a))) s Q.
Proof. rewrite context_action. apply ok_context. Qed.

Lemma any_done {A} (a : A) s : live s → ok (give a) s any.
Proof. by split. Qed.
Lemma any_refuse {A} e s : live s → ok (@refuse A e) s any.
Proof. by split. Qed.
Lemma any_then {A B} (q : W A) (f : A → W B) s :
  ok q s any → (∀ a s', live s' → ok (f a) s' any) → ok (q ≫= f) s any.
Proof. intros Hq Hf. eapply still_then; [exact Hq|]. auto. Qed.
Lemma any_of {A} (q : W A) s Q : ok q s (still Q) → ok q s any.
Proof. intros Hq. eapply still_weaken; [exact Hq|done]. Qed.

Lemma any_for_each {A} (f : A → W unit) l s : live s → (∀ x s, live s → ok (f x) s any) → ok (for_each f l) s any.
Proof.
  intros L F. revert s L. induction l as [|x l IH]; intros s L; [by apply any_done|]. cbn [for_each].
  apply any_then; [by apply F|]. intros _ s' L'. by apply IH.
Qed.

Lemma explain_missing_ok found s : live s → ok (explain_missing p found) s any.
Proof.
  intros L. unfold explain_missing. apply any_then; [by apply ok_owner|]. intros _ s1 L1.
  apply any_then; [by eapply any_of, get_file_ok|]. intros visible s2 L2.
  apply any_then; [by apply ok_caller|]. intros _ s3 L3.
  destruct visible as [file|]; [|by apply any_done]. destruct (_ || _); by apply any_refuse.
Qed.

Lemma attach_file_ok c rid owner found s : live s → ok (attach_file c rid p owner found) s any.
Proof.
  intros L. unfold attach_file. apply any_then; [by eapply any_of, attach_ok|]. intros a s1 L1.
  destruct a as [file| | |]; [|by apply explain_missing_ok|by apply any_refuse..].
  destruct (head _); [by apply still_lift|by apply any_done].
Qed.

Lemma sync_files_ok c record s : live s → ok (sync_files c record p) s any.
Proof.
  intros L. unfold sync_files. destruct (id ← get record "id"; as_str id) as [rid|]; [|by apply any_done].
  apply any_then; [by apply ok_caller|]. intros _ s1 L1.
  apply any_then; [apply any_for_each; [done|]; intros; by apply attach_file_ok|]. intros _ s2 L2.
  apply any_then; [by apply ok_owner|]. intros _ s3 L3. by eapply any_of, sync_refs_ok.
Qed.

Lemma delete_files_ok c rid (record : option Value) s : live s → ok (release_files c rid record) s any.
Proof.
  intros L. unfold release_files. apply any_then; [by apply ok_owner|]. intros _ s1 L1.
  apply any_then; [by apply ok_ids|]. intros _ s2 L2. apply any_then.
  - destruct record as [record|]; [|by apply any_done]. apply any_then; [|intros; by apply any_done].
    unfold delete_for_ids. case_decide; [by apply any_done|by apply ok_ids].
  - intros _ s3 L3. apply any_then; [by apply ok_server|]. intros; by apply any_done.
Qed.

(** The data plane, started as the caller under the action of the write. *)
Lemma read_back_ok c ctx id s : live s → tx_who s = None → tx_wrote s = true → ok (read_back c ctx id) s any.
Proof. intros L N T. eapply any_of, get_one_ok; [done|by right]. Qed.

Lemma resolve_id_ok object s : live s → ok (resolve_id object) s (still (λ _ s', s' = s)).
Proof.
  intros L. unfold resolve_id. assert (N : ok (call ONewId) s (still (λ _ s', s' = s))) by (intros x; by exists s).
  destruct (assoc "id" object) as [[| | |raw| |]|]; try done. case_decide; [done|]. by destruct (RecordId.is_valid_id raw).
Qed.

Lemma checked_input_ok c input partial s : live s → ok (checked_input c input partial) s (still (λ _ s', s' = s)).
Proof.
  intros L. eapply still_then; [by apply (still_lift _ _ _ _ (λ _ s', s' = s))|]. intros object ? _ ->.
  by destruct (validate c object partial).
Qed.

(** Hooks that may run before a write under an action. *)
Definition hooks_ok (a : Action) (before : HookEvent → string → Value → W Value) : Prop :=
  ∀ e n r s, event_action e = a → live s → tx_who s = Some (with_action base a) → fits stage a = true →
    ok (before e n r) s (still (λ _ s', s' = s)).

Lemma create_with_ok c ctx input extra before s :
  hooks_ok AWrite before → live s → tx_who s = Some (with_action base AWrite) → fits stage AWrite = true → ok (create_with c ctx input extra before) s any.
Proof.
  intros Hb L T S. unfold create_with. eapply still_then; [by apply Hb|]. intros input' ? _ ->.
  eapply still_then; [by apply checked_input_ok|]. intros object ? _ ->.
  eapply still_then; [by apply resolve_id_ok|]. intros id ? _ ->. unfold insert_of.
  destruct (written c object extra _) as [[columns params]|]; [|by apply any_refuse]. cbn [mbind result_bind lift]. rewrite give_then.
  apply (still_then _ _ _ _ _ (λ _ s', s' = tx_as s (tx_who s) true)).
  { eapply ok_write; [done|apply insert_action|done|done|by intros|by intros]. }
  intros n ? _ ->. apply (still_then _ _ _ _ _ (λ _ s', tx_who s' = None ∧ tx_wrote s' = true)).
  { apply ok_owner; by intros. }
  intros _ s1 L1 [N1 T1]. apply any_then; [by apply read_back_ok|]. intros stored s2 L2. by apply still_lift.
Qed.

Lemma update_with_ok c ctx id input extra before s :
  hooks_ok AUpdate before → live s → tx_who s = Some (with_action base AUpdate) → fits stage AUpdate = true → ok (update_with c ctx id input extra before) s any.
Proof.
  intros Hb L T S. unfold update_with. eapply still_then; [by apply Hb|]. intros input' ? _ ->.
  eapply still_then; [by apply checked_input_ok|]. intros object ? _ ->. unfold update_of.
  destruct (written c object extra _) as [[columns params]|]; [|by apply any_refuse]. cbn [mbind result_bind lift]. rewrite give_then.
  apply (still_then _ _ _ _ _ (λ _ s', s' = tx_as s (tx_who s) true)).
  { eapply ok_write; [done|apply update_action|done|done|by intros|by intros]. }
  intros n ? _ ->. case_decide; [by apply any_done|]. apply (still_then _ _ _ _ _ (λ _ s', tx_who s' = None ∧ tx_wrote s' = true)).
  { apply ok_owner; by intros. }
  intros _ s1 L1 [N1 T1]. by apply read_back_ok.
Qed.

Lemma delete_ok c id s :
  live s → tx_who s = Some (with_action base ADelete) → fits stage ADelete = true → ok (Records.delete c id) s any.
Proof.
  intros L T S. unfold Records.delete. apply any_then; [|intros; by apply any_done].
  eapply ok_write; [done|apply delete_action|done|done|by intros|by intros].
Qed.

Lemma scoped_before_ok n a : hooks_ok a (scoped_before (hook_context n p a)).
Proof. intros e m r s <- L T S. apply ok_before; [done|done|done|done|by intros|by intros]. Qed.
End endpoints.

(** * Every endpoint keeps the protocol *)

Section keeps.
Context `{JsonText} (argon2_hash : string → result string) (p : Principal) (stage : option Action).

Local Abbreviation base := (request_context p AWrite).
Local Abbreviation ok q s Q := (safe (watch base stage) q s Q).
Local Abbreviation any := (still (λ _ _, True)).

Definition closed (s : Tx) : Prop := tx_open s = false ∧ tx_committed s = true.

(** An answer is given only after a commit. *)
Definition final {A} (r : attempt A) (s : Tx) : Prop := match r with Done _ => closed s | Failed _ => True end.

Lemma final_then {A B} (q : W A) (f : A → W B) s Q :
  ok q s (still Q) → (∀ a s', live s' → Q a s' → ok (f a) s' final) → ok (q ≫= f) s final.
Proof. intros Hq Hf. apply safe_then. eapply safe_mono; [exact Hq|]. intros [a|e] s' [L X]; [by apply Hf|done]. Qed.

Lemma final_any {A B} (q : W A) (f : A → W B) s :
  ok q s any → (∀ a s', live s' → ok (f a) s' final) → ok (q ≫= f) s final.
Proof. intros Hq Hf. eapply final_then; [exact Hq|auto]. Qed.

Lemma final_lift {A B} (r : result A) (f : A → W B) s :
  (∀ a, r = Ok a → ok (f a) s final) → ok (lift r ≫= f) s final.
Proof. destruct r; cbn; auto. Qed.

Lemma final_refuse {A} e s : ok (@refuse A e) s final.
Proof. done. Qed.

Lemma final_scoped {B} a (f : unit → W B) :
  (∀ s, live s → tx_who s = Some (with_action base a) → ok (f tt) s final) → ok (scoped p a ≫= f) tx_start final.
Proof.
  intros Hf. unfold scoped. intros [[]|e]; cbn; (eexists; split; [reflexivity|]); [|done].
  intros [[]|e]; cbn; (eexists; split; [reflexivity|]); [|done].
  intros [[]|e]; cbn; (eexists; split; [|]); [unfold own; rewrite bool_decide_eq_true_2 by done; reflexivity| |
    unfold own; rewrite bool_decide_eq_true_2 by done; reflexivity|done].
  by apply Hf.
Qed.

Lemma final_commit {B} (f : unit → W B) s :
  live s → (∀ s', closed s' → ok (f tt) s' final) → ok (db OCommit ≫= f) s final.
Proof.
  intros [O C] Hf. intros [[]|e]; cbn; (eexists; split; [by rewrite O|]); [|done]. by apply Hf.
Qed.

Lemma final_after {B} hc e n r (f : unit → W B) s :
  closed s → h_request hc = with_action base (event_action e) → (∀ s', closed s' → ok (f tt) s' final) → ok (scoped_after hc e n r ≫= f) s final.
Proof.
  intros [O C] A Hf. intros [[]|err]; cbn; (eexists; split; [by rewrite O, C, bool_decide_eq_true_2|]); [|done]. by apply Hf.
Qed.

Lemma own_hook n a : h_request (hook_context n p a) = with_action base a.
Proof. done. Qed.

Lemma final_pure {A B} (q : W A) (f : A → W B) s :
  (∀ Q, (∀ r, Q r s) → ok q s Q) → (∀ a, ok (f a) s final) → ok (q ≫= f) s final.
Proof. intros Hq Hf. apply safe_then. apply Hq. by intros [a|e]. Qed.

Lemma validate_first_pure c input partial s Q : (∀ r, Q r s) → ok (validate_first c input partial) s Q.
Proof. intros HQ. unfold validate_first. destruct (as_object input); [destruct (validate _ _ _)|]; apply HQ. Qed.

Lemma auth_extra_pure c input s Q : (∀ r, Q r s) → ok (auth_extra argon2_hash c input) s Q.
Proof.
  intros HQ. unfold auth_extra. apply safe_then, safe_lift; [|intros; apply HQ]. intros a _. case_decide; [apply HQ|].
  intros token. exists s. split; [done|]. apply safe_then, safe_lift; intros; apply HQ.
Qed.

Lemma pure_still {A} (q : W A) s : live s → (∀ Q, (∀ r, Q r s) → ok q s Q) → ok q s (still (λ _ s', s' = s)).
Proof. intros L Hq. apply Hq. by intros [a|e]. Qed.

Lemma list_ok sql params s : live s → as_caller base stage (tx_who s) = true → ok (db (OList sql params)) s (still (λ _ s', s' = s)).
Proof.
  intros [O C] T. apply safe_db. intros x. exists s. split; [cbn; by rewrite O, T|]. by destruct x.
Qed.
Lemma count_ok sql params s : live s → as_caller base stage (tx_who s) = true → ok (db (OCount sql params)) s (still (λ _ s', s' = s)).
Proof.
  intros [O C] T. apply safe_db. intros x. exists s. split; [cbn; by rewrite O, T|]. by destruct x.
Qed.

Lemma list_records_ok schema name params : fits stage AList = true → ok (list_records schema p name params) tx_start final.
Proof.
  intros S. unfold list_records. apply final_lift. intros [c ctx] _. apply final_lift. intros query _. apply final_lift. intros query' _.
  apply final_lift. intros built _. apply final_scoped. intros s L T.
  assert (T' := caller_reads _ _ _ _ T S).
  eapply final_then; [by apply list_ok|]. intros rows ? _ ->. apply final_any.
  - destruct (rq_page query') as [r|]; [|by apply any_done]. destruct (skip_total r); [by apply any_done|].
    eapply still_then; [by apply (still_lift _ _ _ _ (λ _ s', s' = s))|]. intros count ? _ ->.
    apply any_then; [by eapply any_of, count_ok|]. intros; by apply any_done.
  - intros total s1 L1. apply final_lift. intros cursor _. apply final_commit; [done|]. by intros s2 C.
Qed.

Lemma view_record_ok schema name id params inm : fits stage AView = true → ok (view_record schema p name id params inm) tx_start final.
Proof.
  intros S. unfold view_record. apply final_lift. intros [c ctx] _. apply final_lift. intros sel _. apply final_lift. intros ex _.
  apply final_scoped. intros s L T. assert (T' := caller_reads _ _ _ _ T S). apply final_any.
  - case_decide; [|by eapply any_of, get_one_ok; [|left]].
    eapply still_then; [by apply (still_lift _ _ _ _ (λ _ s', s' = s))|]. intros built ? _ ->.
    apply any_then; [by eapply any_of, list_ok|]. intros; by apply any_done.
  - intros record s1 L1. apply final_commit; [done|]. intros s2 C. apply final_lift. intros record' _.
    destruct (record_etag record') as [etag|]; [destruct (etag_matches inm etag)|]; done.
Qed.

Lemma create_record_ok schema name body : fits stage AWrite = true → ok (create_record argon2_hash schema p name body) tx_start final.
Proof.
  intros S. unfold create_record. apply final_lift. intros [c ctx] _. case_decide; [done|].
  apply final_pure; [intros Q HQ; destruct (is_auth _); [by apply validate_first_pure|apply HQ]|]. intros _.
  apply final_pure; [intros Q HQ; by apply auth_extra_pure|]. intros extra. apply final_scoped. intros s L T.
  apply final_any; [apply create_with_ok; [apply scoped_before_ok|done..]|]. intros record s1 L1.
  apply final_any; [by apply sync_files_ok|]. intros _ s2 L2. apply final_commit; [done|]. intros s3 C.
  apply final_after; [done|apply own_hook|]. by intros s4 C4.
Qed.

Lemma update_record_ok schema name id body : fits stage AUpdate = true → ok (update_record argon2_hash schema p name id body) tx_start final.
Proof.
  intros S. unfold update_record. apply final_lift. intros [c ctx] _. case_decide; [done|]. apply final_scoped. intros s L T.
  eapply final_then; [apply pure_still; [done|]; intros; by apply validate_first_pure|]. intros _ ? _ ->.
  eapply final_then; [apply pure_still; [done|]; intros; by apply auth_extra_pure|]. intros extra ? _ ->.
  apply final_any; [apply update_with_ok; [apply scoped_before_ok|done..]|]. intros record s1 L1.
  apply final_any; [case_decide; [by apply any_done|by apply ok_server]|]. intros _ s2 L2.
  apply final_any; [destruct record; [by apply sync_files_ok|by apply any_done]|]. intros _ s3 L3.
  apply final_commit; [done|]. intros s4 C. destruct record as [record|]; [|done].
  apply final_after; [done|apply own_hook|]. by intros s5 C5.
Qed.

Lemma delete_record_ok schema name id : fits stage ADelete = true → ok (delete_record schema p name id) tx_start final.
Proof.
  intros S. unfold delete_record. apply final_lift. intros [c ctx] _. case_decide; [done|]. apply final_scoped. intros s L T.
  assert (T' := caller_reads _ _ _ _ T S).
  eapply final_then; [apply get_one_ok; [done|by left]|]. intros existing ? _ ->.
  apply (final_then _ _ _ (λ _ s', s' = s)).
  { destruct existing; [|done]. eapply still_then; [by apply scoped_before_ok|]. by intros ? ? _ ->. }
  intros _ ? _ ->. apply final_any; [by apply delete_ok|]. intros removed s1 L1.
  apply final_any; [destruct removed; [by apply delete_files_ok|by apply any_done]|]. intros _ s2 L2.
  apply final_commit; [done|]. intros s3 C. destruct removed; [|done]. destruct existing as [existing|]; [|done].
  assert (X : ok (scoped_after (hook_context (collection_name c) p ADelete) HookDelete (collection_name c) existing ≫= λ u, give u) s3 final).
  { apply final_after; [done|apply own_hook|]. by intros s4 C4. }
  intros [[]|e]; [apply (X (Ok ()))|apply (X (Err e))].
Qed.
End keeps.

(** * The batch *)

Section steps.
Context `{JsonText} (argon2_hash : string → result string) (p : Principal) (stage : option Action).

Local Abbreviation base := (request_context p AWrite).
Local Abbreviation ok q s Q := (safe (watch base stage) q s Q).
Local Abbreviation any := (still (λ _ _, True)).

(** A step answers with a hook of its own action, if any. *)
Definition produces (st : Step) (r : Z * Value * option (HookEvent * Value)) (_ : Tx) : Prop :=
  ∀ e v, r.2 = Some (e, v) → event_action e = action_of (st_method st).

Lemma execute_step_ok st s :
  live s → tx_who s = Some (with_action base (action_of (st_method st))) → fits stage (action_of (st_method st)) = true →
  ok (execute_step argon2_hash p st) s (still (produces st)).
Proof.
  intros L T S. assert (T' := caller_reads _ _ _ _ T S).
  unfold execute_step, produces. set (c := st_collection st). set (hc := hook_context _ _ _).
  assert (Hh : hooks_ok p stage (action_of (st_method st)) (scoped_before hc)) by apply scoped_before_ok.
  destruct (st_method st); cbn [action_of] in T, S, Hh |- *.
  - destruct (st_input st) as [input|]; [|done].
    eapply still_then; [apply pure_still; [done|]; intros; by apply auth_extra_pure|]. intros extra ? _ ->.
    eapply still_then; [by apply create_with_ok|]. intros record s1 L1 _.
    eapply still_then; [by apply sync_files_ok|]. intros ? s2 L2 _. split; [done|]. by intros ? ? [= <- _].
  - destruct (st_input st) as [input|]; [|done]. destruct (st_id st) as [id|]; [|done].
    eapply still_then; [apply pure_still; [done|]; intros; by apply auth_extra_pure|]. intros extra ? _ ->.
    eapply still_then; [by apply update_with_ok|]. intros [record|] s1 L1 _; [|done].
    eapply still_then; [by apply sync_files_ok|]. intros ? s2 L2 _. split; [done|]. by intros ? ? [= <- _].
  - destruct (st_id st) as [id|]; [|by destruct (st_input st)].
    set (q := get_one c (st_context st) id selection_all expand_none ≫= λ existing, _).
    assert (X : ok q s (still (λ r _, ∀ e v, r.2 = Some (e, v) → event_action e = ADelete))); [|by destruct (st_input st)].
    eapply still_then; [apply get_one_ok; [done|by left]|]. intros existing ? _ ->.
    apply (still_then _ _ _ _ _ (λ _ s', s' = s)).
    { destruct existing; [|done]. eapply still_then; [by apply Hh|]. by intros ? ? _ ->. }
    intros _ ? _ ->. eapply still_then; [by apply delete_ok|]. intros [|] s1 L1 _; [|done].
    split; [done|]. destruct existing; [|done]. by intros ? ? [= <- _].
  - destruct (st_id st) as [id|]; [|by destruct (st_input st)].
    set (q := get_one c (st_context st) id selection_all expand_none ≫= λ record, _).
    assert (X : ok q s (still (λ r _, ∀ e v, r.2 = Some (e, v) → event_action e = AView))); [|by destruct (st_input st)].
    eapply still_then; [apply get_one_ok; [done|by left]|]. by intros [record|] ? _ ->.
Qed.
End steps.

Section batches.
Context `{JsonText} (argon2_hash : string → result string) (p : Principal).

Local Abbreviation base := (request_context p AWrite).
Local Abbreviation ok q s Q := (safe (watch base None) q s Q).

(** A run of the steps hands on hooks in the caller's contexts. *)
Definition pending_ok (after : list PendingAfter) : Prop :=
  Forall (λ a, h_request (pa_context a) = with_action base (event_action (pa_event a))) after.

Lemma run_steps_ok steps s :
  live s → ok (run_steps argon2_hash p steps) s (still (λ r _, length r.1 = length steps ∧ pending_ok r.2)).
Proof.
  revert s. induction steps as [|st steps IH]; intros s L; cbn [run_steps].
  { split; [done|]. split; [done|constructor]. }
  apply (still_then _ _ _ _ _ (λ _ s', tx_who s' = Some (with_action base (action_of (st_method st))))).
  { apply ok_caller; by intros. }
  intros _ s1 L1 T1. eapply still_then; [by apply execute_step_ok|].
  intros [[status body] produced] s2 L2 Pr. eapply still_then; [by apply IH|].
  intros [results after] s3 L3 [E F]. split; [done|]. cbn. split; [by f_equal|].
  destruct produced as [[event record]|]; [|done]. constructor; [|done]. cbn. by rewrite (Pr event record).
Qed.

(** All the writes of a batch are committed together, or none of them; only a
    hook that runs after the commit can still make it answer an error. *)
Definition batch_final (n : nat) (r : attempt Value) (s : Tx) : Prop :=
  match r with
  | Done v => closed s ∧ ∃ results, v = JArray results ∧ length results = n
  | Failed _ => tx_committed s = true → tx_hook_failed s = true
  end.

Lemma after_hooks_ok after s :
  pending_ok after → closed s →
  ok (for_each (λ a, scoped_after (pa_context a) (pa_event a) (pa_collection a) (pa_record a)) after) s
    (λ r s', match r with Done _ => closed s' | Failed _ => tx_hook_failed s' = true end).
Proof.
  intros F. revert s. induction F as [|a after Ha _ IH]; intros s C; [done|]. cbn [for_each].
  intros [[]|e]; cbn; destruct C as [C1 C2]; (eexists; split; [by rewrite C1, C2, bool_decide_eq_true_2|]); [by apply IH|]. by apply orb_true_r.
Qed.

Lemma steps_of_plan schema requests steps : try_map (plan schema) requests = Ok steps → length steps = length requests.
Proof. intros T. apply try_map_Ok in T. symmetry. by eapply Forall2_length. Qed.

Lemma batch_ok schema requests : ok (batch argon2_hash schema p requests) tx_start (batch_final (length requests)).
Proof.
  unfold batch. case_decide; [done|]. case_decide; [done|].
  destruct (try_map (plan schema) requests) as [steps|] eqn:T; [|done]. apply steps_of_plan in T. cbn [lift]. rewrite give_then.
  intros [[]|e]; cbn; (eexists; split; [reflexivity|]); [|done].
  intros [[]|e]; cbn; (eexists; split; [reflexivity|]); [|done].
  apply safe_bind. eapply safe_mono; [by apply run_steps_ok|]. intros [[results after]|e] s [[O C] X].
  - destruct X as [X1 X2]. cbn in X1, X2. intros [[]|e]; cbn; (eexists; split; [by rewrite O|]).
    + apply safe_then. eapply safe_mono; [by apply after_hooks_ok|]. intros [[]|e] s' Y; [|by intros _].
      split; [done|]. exists results. split; [done|]. by rewrite X1.
    + cbn. by rewrite C.
  - intros [[]|e']; cbn; (eexists; split; [by rewrite O|]); cbn; by rewrite C.
Qed.
End batches.

(** * What the traces say *)

(** As whom a statement runs after a trace. *)
Definition acting_after (who : option RequestContext) (e : event) : option RequestContext :=
  match e with
  | Ev o x =>
      match o in op X return X → option RequestContext with
      | OContext c => λ r, match r with DbOk _ => Some c | DbErr _ => who end
      | OOwner => λ r, match r with DbOk _ => None | DbErr _ => who end
      | OClient => λ _, None
      | OBegin => λ r, match r with DbOk _ => None | DbErr _ => who end
      | OCommit => λ _, None
      | ORollback => λ _, None
      | _ => λ _, who
      end x
  end.
Definition acting (t : list event) : option RequestContext := foldl acting_after None t.

Lemma watch_acting base stage X (o : op X) x s s' : watch base stage X o x s = Some s' → tx_who s' = acting_after (tx_who s) (Ev o x).
Proof. intros Wt. destruct o; cbn in Wt; unfold check in Wt; repeat case_match; simplify_eq; done. Qed.

Lemma watched_app {St} (w : ∀ X, op X → X → St → option St) s t1 t2 :
  watched w s (t1 ++ t2) = s1 ← watched w s t1; watched w s1 t2.
Proof. revert s. induction t1 as [|[X o x] t1 IH]; intros s; [done|]. cbn. destruct (w X o x s); [apply IH|done]. Qed.

(** A monitor that keeps track of it. *)
Section acting.
Context (w : ∀ X, op X → X → Tx → option Tx).
Context (w_acting : ∀ X (o : op X) x s s', w X o x s = Some s' → tx_who s' = acting_after (tx_who s) (Ev o x)).

Lemma watched_acting s t s' : watched w s t = Some s' → tx_who s' = foldl acting_after (tx_who s) t.
Proof.
  revert s. induction t as [|[X o x] t IH]; intros s Wt; [by injection Wt as <-|].
  cbn [watched] in Wt. destruct (w X o x s) as [s1|] eqn:E; [|done]. cbn [foldl]. rewrite <- (w_acting _ _ _ _ _ E). by apply IH.
Qed.

(** Where an event stands in a watched trace. *)
Lemma watched_at t s' {X} (o : op X) x :
  watched w tx_start t = Some s' → ∀ t1 t2, t = t1 ++ Ev o x :: t2 →
  ∃ s1 s2, watched w tx_start t1 = Some s1 ∧ w X o x s1 = Some s2 ∧ tx_who s1 = acting t1.
Proof.
  intros Wt t1 t2 ->. rewrite watched_app in Wt. destruct (watched w tx_start t1) as [s1|] eqn:E; [|done].
  cbn in Wt. destruct (w X o x s1) as [s2|] eqn:E2; [|done]. exists s1, s2. split_and!; try done.
  by apply watched_acting in E.
Qed.
End acting.

Lemma committed_event base stage t s s' :
  watched (watch base stage) s t = Some s' → tx_committed s' = true → tx_committed s = true ∨ Ev OCommit (DbOk tt) ∈ t.
Proof.
  revert s. induction t as [|[X o x] t IH]; intros s Wt C; [injection Wt as <-; by left|].
  cbn in Wt. destruct (watch base stage X o x s) as [s1|] eqn:E; [|done]. cbn in Wt. destruct (IH _ Wt C) as [D|M]; [|right; by right].
  destruct o; cbn in E; unfold check in E; repeat case_match; simplify_eq; cbn in D; try (by left).
  - destruct a. right. by left.
  - left. repeat match goal with K : _ && _ = true |- _ => apply andb_true_iff in K as [? ?] end. done.
Qed.

Section theorems.
Context `{JsonText} (argon2_hash : string → result string).

(** ** The steps of a request *)

(** A statement or a hook that touches records. *)
Definition touches (e : event) : Prop :=
  match e with
  | Ev o _ =>
      match o with
      | OExecute sql _ => statement_action sql ≠ None
      | ORecord _ _ | OList _ _ | OCount _ _ | OBefore _ _ _ _ => True
      | _ => False
      end
  end.

(** A write to a collection that was let through. *)
Definition wrote (e : event) : Prop :=
  ∃ sql params n, e = Ev (OExecute sql params) (DbOk n) ∧ statement_action sql ≠ None.

(** A step of the caller [p] under the action [a]: after [t1] it makes [e]. *)
Definition step_makes (c : RequestContext) (a : Action) (t1 : list event) (e : event) : Prop :=
  match e with
  | Ev o _ =>
      match o with
      | OExecute sql _ => ∀ b, statement_action sql = Some b → b = a ∧ acting t1 = Some c
      | OList _ _ | OCount _ _ => acting t1 = Some c
      | ORecord _ _ => acting t1 = Some c ∨ (acting t1 = None ∧ Exists wrote t1)
      | OBefore hc h _ _ => event_action h = a ∧ h_request hc = c ∧ acting t1 = Some c
      | _ => True
      end
  end.
Definition keeps_to (c : RequestContext) (a : Action) (t : list event) : Prop :=
  ∀ t1 e t2, t = t1 ++ e :: t2 → step_makes c a t1 e.

Section strict.
Context (base : RequestContext) (a : Action).
Local Abbreviation c := (with_action base a).
Local Abbreviation w := (watch base (Some a)).

(** The state after a trace: a write is remembered, and the owner reads. *)
Lemma wrote_known t s s' :
  watched w s t = Some s' → tx_wrote s' = true → tx_wrote s = true ∨ Exists wrote t.
Proof.
  revert s. induction t as [|[X o x] t IH]; intros s Wt T; [injection Wt as <-; by left|].
  cbn [watched] in Wt. destruct (w X o x s) as [s1|] eqn:E; [|done]. destruct (IH _ Wt T) as [T1|]; [|right; by right].
  destruct (decide (tx_wrote s = true)) as [|N]; [by left|]. right. apply Exists_cons_hd. apply not_true_is_false in N.
  destruct o; cbn in E; unfold check in E.
  7: { destruct (statement_action sql) eqn:A; [|case_match; simplify_eq; congruence].
       case_match; [|done]. destruct x as [n|e]; simplify_eq; [|congruence]. exists sql, params, n. by rewrite A. }
  all: repeat case_match; simplify_eq; cbn in T1; congruence.
Qed.

Lemma fits_only b : fits (Some a) b = true → b = a.
Proof. apply bool_decide_eq_true. Qed.

Lemma as_caller_only who : as_caller base (Some a) who = true → who = Some c.
Proof.
  destruct who as [d|]; [|done]. cbn. intros [O F]%andb_true_iff. apply bool_decide_eq_true in O, F. by rewrite O, F.
Qed.

(** A step whose trace the monitor accepts from a state that has written
    nothing keeps to its caller and its action. *)
Lemma watched_keeps s t s' :
  tx_who s = None → tx_wrote s = false → watched w s t = Some s' → keeps_to c a t.
Proof.
  intros N0 T0 Wt t1 [X o x] t2 ->. rewrite watched_app in Wt. destruct (watched w s t1) as [s1|] eqn:E; [|done].
  cbn in Wt. destruct (w X o x s1) as [s2|] eqn:E2; [|done].
  pose proof (watched_acting _ (watch_acting base (Some a)) _ _ _ E) as Ac. rewrite N0 in Ac. fold (acting t1) in Ac.
  assert (Tw : tx_wrote s1 = true → Exists wrote t1).
  { intros T. destruct (wrote_known _ _ _ E T); [congruence|done]. }
  unfold step_makes. rewrite <- Ac. destruct o; try done; cbn in E2; unfold check in E2.
  - intros b Sa. rewrite Sa in E2. case_match eqn:K; [|done]. rewrite !andb_true_iff in K. destruct K as [[_ K] F].
    apply bool_decide_eq_true in K. apply fits_only in F as ->. done.
  - case_match eqn:K; [|done]. apply andb_true_iff in K as [_ K]. apply orb_true_iff in K as [K|K].
    + left. by apply as_caller_only.
    + apply andb_true_iff in K as [K T]. apply bool_decide_eq_true in K. right. auto.
  - case_match eqn:K; [|done]. apply andb_true_iff in K as [_ K]. by apply as_caller_only.
  - case_match eqn:K; [|done]. apply andb_true_iff in K as [_ K]. by apply as_caller_only.
  - case_match eqn:K; [|done]. rewrite !andb_true_iff in K. destruct K as [[[_ K1] K2] F].
    apply bool_decide_eq_true in K1, K2. apply fits_only in F. rewrite F in K2. by rewrite K1, <- K2.
Qed.
End strict.

(** The requests to the record endpoints, with the actions of their steps. *)
Inductive endpoint (schema : list Collection) (p : Principal) : list Action → ∀ A, W A → Prop :=
  | ep_list name params : endpoint schema p [AList] _ (list_records schema p name params)
  | ep_view name id params tag : endpoint schema p [AView] _ (view_record schema p name id params tag)
  | ep_create name body : endpoint schema p [AWrite] _ (create_record argon2_hash schema p name body)
  | ep_update name id body : endpoint schema p [AUpdate] _ (update_record argon2_hash schema p name id body)
  | ep_delete name id : endpoint schema p [ADelete] _ (delete_record schema p name id)
  | ep_batch requests steps : try_map (plan schema) requests = Ok steps →
      endpoint schema p ((λ st, action_of (st_method st)) <$> steps) _ (batch argon2_hash schema p requests).

(** A trace divided into the steps [acts], of which the last may have failed
    and the rest then never ran. *)
Definition in_steps (p : Principal) (acts : list Action) (t : list event) (complete : Prop) : Prop :=
  ∃ t0 ts t1, t = t0 ++ concat ts ++ t1
    ∧ Forall (λ e, ¬ touches e) t0 ∧ Forall (λ e, ¬ touches e) t1
    ∧ Forall2 (λ a u, keeps_to (request_context p a) a u) (take (length ts) acts) ts
    ∧ (complete → length ts = length acts).

Lemma one_step p a t P s : watched (watch (request_context p AWrite) (Some a)) tx_start t = Some s → in_steps p [a] t P.
Proof.
  intros Wt. exists [], [t], []. split; [cbn; by rewrite !app_nil_r|]. split; [done|]. split; [done|]. split; [|done].
  constructor; [|done]. by eapply (watched_keeps (request_context p AWrite) a tx_start).
Qed.

(** Each step of a batch is one under its own action. *)
Lemma run_steps_in_steps p steps t r :
  runs (run_steps argon2_hash p steps) t r →
  ∃ ts, t = concat ts
    ∧ Forall2 (λ a u, keeps_to (request_context p a) a u) (take (length ts) ((λ st, action_of (st_method st)) <$> steps)) ts
    ∧ (∀ v, r = Done v → length ts = length steps).
Proof.
  revert t r. induction steps as [|st steps IH]; intros t r R; cbn [run_steps] in R.
  { destruct R as [-> ->]. by exists []. }
  set (a := action_of (st_method st)) in *. destruct R as ([[]|e] & t' & -> & R); cbn in R.
  2: { destruct R as [-> ->]. exists [[Ev (OContext (request_context p a)) (DbErr e)]]. split; [done|]. split; [|done].
       cbn. constructor; [|done]. intros u1 e' u2 E. destruct u1 as [|e1 u1]; [by injection E as <- _|]. by destruct u1. }
  apply runs_bind in R as (t1 & r1 & t2 & -> & R1 & R2).
  set (s0 := {| tx_open := true; tx_who := None; tx_wrote := false; tx_committed := false; tx_hook_failed := false |}).
  assert (K : keeps_to (request_context p a) a (Ev (OContext (request_context p a)) (DbOk tt) :: t1)).
  { assert (S : safe (watch (request_context p AWrite) (Some a)) (execute_step argon2_hash p st)
                  (tx_as s0 (Some (request_context p a)) false) (still (produces st))).
    { apply execute_step_ok; [done|done|]. by apply bool_decide_eq_true. }
    destruct (safe_runs _ _ _ _ _ _ S R1) as (s1 & Wt & _).
    eapply (watched_keeps (request_context p AWrite) a s0 _ s1); [done|done|]. cbn.
    unfold own. rewrite bool_decide_eq_true_2 by done. exact Wt. }
  destruct r1 as [[[status body] produced]|err].
  - apply runs_bind in R2 as (t3 & r3 & t4 & -> & R3 & R4). destruct (IH _ _ R3) as (ts & -> & F & L).
    assert (t4 = []) as -> by (by destruct r3 as [[]|]; destruct R4 as [-> _]).
    exists ((Ev (OContext (request_context p a)) (DbOk tt) :: t1) :: ts). split; [cbn; by rewrite app_nil_r|].
    split; [by constructor|]. intros v ->. cbn. f_equal. destruct r3 as [v'|]; [by eapply L|]. by destruct R4 as [_ ?].
  - destruct R2 as [-> ->]. exists [Ev (OContext (request_context p a)) (DbOk tt) :: t1].
    split; [cbn; by rewrite !app_nil_r|]. split; [|done]. by constructor.
Qed.

Lemma after_hooks_untouched after t r :
  runs (for_each (λ a, scoped_after (pa_context a) (pa_event a) (pa_collection a) (pa_record a)) after) t r →
  Forall (λ e, ¬ touches e) t.
Proof.
  revert t. induction after as [|a after IH]; intros t R; [by destruct R as [-> _]|].
  destruct R as ([[]|e] & t' & -> & R); constructor; try by intros []. { by apply IH. } by destruct R as [-> _].
Qed.

Lemma batch_in_steps schema p requests steps t r :
  try_map (plan schema) requests = Ok steps → runs (batch argon2_hash schema p requests) t r →
  in_steps p ((λ st, action_of (st_method st)) <$> steps) t (∃ v, r = Done v).
Proof.
  intros T R. unfold in_steps. rewrite length_fmap.
  assert (None_ : ∀ u, Forall (λ e, ¬ touches e) u → (∀ v, r ≠ Done v) → t = u → ∃ t0 ts t1, t = t0 ++ concat ts ++ t1
    ∧ Forall (λ e, ¬ touches e) t0 ∧ Forall (λ e, ¬ touches e) t1
    ∧ Forall2 (λ a u, keeps_to (request_context p a) a u) (take (length ts) ((λ st, action_of (st_method st)) <$> steps)) ts
    ∧ ((∃ v, r = Done v) → length ts = length steps)).
  { intros u F N ->. exists u, [], []. split; [cbn; by rewrite !app_nil_r|]. split; [done|]. split; [done|]. split; [done|].
    intros [v E]. by destruct (N v). }
  unfold batch in R. case_decide; [destruct R as [-> ->]; by eapply None_|]. case_decide; [destruct R as [-> ->]; by eapply None_|].
  rewrite T in R. cbn [lift] in R. rewrite give_then in R.
  destruct R as ([[]|e] & t' & -> & R); cbn in R; [|destruct R as [-> ->]; eapply None_; [|done..]; repeat constructor; by intros []].
  destruct R as ([[]|e] & t2 & -> & R); cbn in R; [|destruct R as [-> ->]; eapply None_; [|done..]; repeat constructor; by intros []].
  apply runs_bind in R as (t3 & r3 & t4 & -> & R3 & R4). destruct (run_steps_in_steps _ _ _ _ R3) as (ts & -> & F & L).
  exists [Ev OClient (Ok tt); Ev OBegin (DbOk tt)], ts, t4. split; [done|]. split; [repeat constructor; by intros []|].
  destruct r3 as [[results after]|err].
  - split; [|split; [exact F|]]; [|by intros _; eapply L].
    destruct R4 as ([[]|e] & t5 & -> & R4); constructor; try by intros [].
    + apply runs_bind in R4 as (t6 & [[]|] & t7 & -> & [-> _] & R4); [|by destruct R4 as [-> _]].
      apply runs_bind in R4 as (t6 & r6 & t8 & -> & R6 & R7). cbn [app]. apply Forall_app. split; [eapply after_hooks_untouched; exact R6|].
      by destruct r6; destruct R7 as [-> _].
    + by destruct R4 as [-> _].
  - destruct R4 as (x & t5 & -> & R4). cbn in R4. destruct R4 as [-> ->]. split; [|split; [exact F|by intros [? ?]]].
    repeat constructor. by intros [].
Qed.

Lemma endpoint_watched schema p acts A (q : W A) t r :
  endpoint schema p acts A q → runs q t r →
  in_steps p acts t (∃ v, r = Done v)
  ∧ ∃ s, watched (watch (request_context p AWrite) None) tx_start t = Some s ∧ (∀ a, r = Done a → closed s).
Proof.
  intros E R.
  assert (One : ∀ a, (∀ stage, fits stage a = true → safe (watch (request_context p AWrite) stage) q tx_start final) → acts = [a] →
    in_steps p acts t (∃ v, r = Done v)
    ∧ ∃ s, watched (watch (request_context p AWrite) None) tx_start t = Some s ∧ (∀ a, r = Done a → closed s)).
  { intros a S ->. split.
    - destruct (safe_runs _ _ _ _ _ _ (S (Some a) ltac:(by apply bool_decide_eq_true)) R) as (s & Wt & _). by eapply one_step.
    - destruct (safe_runs _ _ _ _ _ _ (S None eq_refl) R) as (s & Wt & Q). exists s. split; [done|]. by intros v ->. }
  destruct E.
  - apply (One AList); [|done]. intros. by apply list_records_ok.
  - apply (One AView); [|done]. intros. by apply view_record_ok.
  - apply (One AWrite); [|done]. intros. by apply create_record_ok.
  - apply (One AUpdate); [|done]. intros. by apply update_record_ok.
  - apply (One ADelete); [|done]. intros. by apply delete_record_ok.
  - split; [by apply (batch_in_steps schema p requests)|].
    destruct (safe_runs _ _ _ _ _ _ (batch_ok argon2_hash p schema requests) R) as (s & Wt & Q). exists s. split; [done|].
    intros a ->. by destruct Q.
Qed.


Definition hook_failed_event (e : event) : Prop := ∃ hc he c v err, e = Ev (OAfter hc he c v) (Err err).

Lemma hook_failed_at base stage t s s' :
  watched (watch base stage) s t = Some s' → tx_hook_failed s' = true → tx_hook_failed s = true ∨ Exists hook_failed_event t.
Proof.
  revert s. induction t as [|[X o x] t IH]; intros s Wt C; [injection Wt as <-; by left|].
  cbn in Wt. destruct (watch base stage X o x s) as [s1|] eqn:E; [|done]. cbn in Wt.
  destruct (IH _ Wt C) as [D|M]; [|right; by apply Exists_cons_tl].
  destruct o; cbn in E; unfold check in E; repeat case_match; simplify_eq; cbn in D; try (by left).
  apply orb_true_iff in D as [D|D]; [by left|]. right. apply Exists_cons_hd. destruct x as [|err]; [done|]. by repeat eexists.
Qed.

Lemma commit_commits base stage t1 t2 s s' :
  watched (watch base stage) s (t1 ++ Ev OCommit (DbOk tt) :: t2) = Some s' → tx_committed s' = true.
Proof.
  rewrite watched_app. destruct (watched (watch base stage) s t1) as [s1|]; [|done]. cbn. unfold check. case_match; [|done]. cbn.
  intros Wt. assert (M : ∀ t s, tx_committed s = true → watched (watch base stage) s t = Some s' → tx_committed s' = true).
  { clear. induction t as [|[X o x] t IH]; intros s C Wt; [by injection Wt as <-|].
    cbn in Wt. destruct (watch base stage X o x s) as [s1|] eqn:E; [|done]. eapply IH; [|exact Wt].
    destruct o; cbn in E; unfold check in E; repeat case_match; simplify_eq; done. }
  by eapply M; [|exact Wt].
Qed.

(** C17. A batch is all or nothing: it answers one result per request and has
    been committed; or it answers an error, and then nothing was committed,
    unless it is a hook of the committed batch that failed. *)
Theorem batch_is_all_or_nothing schema p requests t r :
  runs (batch argon2_hash schema p requests) t r →
  match r with
  | Done v => Ev OCommit (DbOk tt) ∈ t ∧ ∃ results, v = JArray results ∧ length results = length requests
  | Failed _ => Ev OCommit (DbOk tt) ∈ t → Exists hook_failed_event t
  end.
Proof.
  intros R. destruct (safe_runs _ _ _ _ _ _ (batch_ok argon2_hash p schema requests) R) as (s & Wt & Q).
  destruct r as [v|e]; cbn in Q.
  - destruct Q as [[_ C] X]. split; [|done]. by destruct (committed_event _ _ _ _ _ Wt C) as [?|?].
  - intros M. apply list_elem_of_split in M as (t1 & t2 & Et).
    assert (C : tx_committed s = true) by (rewrite Et in Wt; by eapply commit_commits).
    by destruct (hook_failed_at _ _ _ _ _ Wt (Q C)) as [?|?].
Qed.

(** An anonymous or foreign caller's change of a password: the policies let the
    update touch no row, yet the sessions of the account it names are revoked,
    and that is committed before the request is answered with "not found". *)
Theorem refused_update_revokes schema p name id body c ctx object token extra sql params n :
  resolve schema name = Ok (c, ctx) → collection_type c ≠ CView → as_object body = Some object →
  validate c object true = None → auth_columns argon2_hash (Some "") c body ≠ Ok [] →
  auth_columns argon2_hash (Some token) c body = Ok extra →
  update_of c id object ((λ '(name, value), (name, Some value)) <$> extra) = Ok (sql, params) →
  runs (update_record argon2_hash schema p name id body)
    [Ev OClient (Ok tt); Ev OBegin (DbOk tt); Ev (OContext (request_context p AUpdate)) (DbOk tt); Ev OToken (Some token);
     Ev (OBefore (hook_context (collection_name c) p AUpdate) HookUpdate (collection_name c) body) (Ok body);
     Ev (OExecute sql (texts params)) (DbOk 0);
     Ev (OExecute REVOKE_SQL [text_param id; text_param (collection_id c)]) (DbOk n);
     Ev OCommit (DbOk tt)]
    (Failed (Other NotFound)).
Proof.
  intros Rs V O Va A1 A2 U. unfold update_record. rewrite Rs. cbn [lift]. rewrite give_then. rewrite decide_False by done.
  assert (A0 : ∃ e0, auth_columns argon2_hash (Some "") c body = Ok e0 ∧ e0 ≠ [] ∧ extra ≠ []).
  { unfold auth_columns in *. destruct (negb _); [done|]. destruct (mbind _ _) as [pw|]; [|done].
    destruct (password_field c); [|done]. destruct (hash argon2_hash pw); [|done]. cbn in *. injection A2 as <-. by eexists. }
  destruct A0 as (e0 & A0 & N0 & N1). assert (Sc : runs (scoped p AUpdate) [Ev OClient (Ok tt); Ev OBegin (DbOk tt); Ev (OContext (request_context p AUpdate)) (DbOk tt)] (Done tt)).
  { apply (runs_then _ _ [_]  _ tt); [apply runs_ask|]. apply (runs_then _ _ [_] _ tt); [apply runs_db|apply runs_db]. }
  apply (runs_then _ _ [_; _; _] _ _ _ Sc). clear Sc.
  apply (runs_then _ _ [] _ tt). { unfold validate_first. by rewrite O, Va. }
  apply (runs_then _ _ [_] _ ((λ '(name, value), (name, Some value)) <$> extra)).
  { unfold auth_extra. apply (runs_then _ _ [] _ e0); [by apply runs_lift|]. rewrite decide_False by done.
    apply (runs_then _ _ [_] [] (Some token)); [apply runs_op|]. apply (runs_then _ _ [] _ extra); [by apply runs_lift|done]. }
  apply (runs_then _ _ [_; _] _ None).
  { unfold update_with. apply (runs_then _ _ [_] _ body); [apply runs_ask|]. apply (runs_then _ _ [] _ object).
    { unfold checked_input. apply (runs_then _ _ [] _ object); [by apply runs_lift; unfold expect_object; rewrite O|by rewrite Va]. }
    apply (runs_then _ _ [] _ (sql, params)); [by apply runs_lift|]. apply (runs_then _ _ [_] _ 0); [by exists (DbOk 0), []|done]. }
  rewrite decide_False by (by destruct extra).
  apply (runs_then _ _ [_] _ n); [apply runs_db|]. apply (runs_then _ _ [] _ tt); [done|].
  apply (runs_then _ _ [_] _ tt); [apply runs_db|done].
Qed.
End theorems.

(** * What a batch leaves out *)

Section cleanup.
Context `{JsonText} (argon2_hash : string → result string).

(** Ending sessions, and deleting files. *)
Definition cleans_up (X : Type) (o : op X) : Prop :=
  match o with
  | OExecute sql _ => sql = REVOKE_SQL
  | OIds _ _ => True
  | _ => False
  end.

Lemma execute_avoids sql params : sql ≠ REVOKE_SQL → avoids cleans_up (execute sql params).
Proof. intros N. split; [done|]. by intros [n|e]. Qed.

Lemma insert_of_avoids c id object extra sql params : insert_of c id object extra = Ok (sql, params) → sql ≠ REVOKE_SQL.
Proof. unfold insert_of. by intros ([columns ps] & _ & [= <- _])%bind_Ok. Qed.
Lemma update_of_avoids c id object extra sql params : update_of c id object extra = Ok (sql, params) → sql ≠ REVOKE_SQL.
Proof. unfold update_of. by intros ([columns ps] & _ & [= <- _])%bind_Ok. Qed.

Ltac clean := avoid; try solve [intros []]; try solve [let E := fresh in intros E; discriminate E].

Lemma get_one_avoids c ctx id sel ex : avoids cleans_up (get_one c ctx id sel ex).
Proof. unfold get_one. clean. Qed.

Lemma attach_avoids id c r f o : avoids cleans_up (attach id c r f o).
Proof. unfold attach, get_file. clean. Qed.

Lemma sync_files_avoids c record p : avoids cleans_up (sync_files c record p).
Proof.
  unfold sync_files. destruct (id ← get record "id"; as_str id); [|done]. clean.
  - unfold attach_file. apply avoids_then; [apply attach_avoids|]. intros [row| | |]; [by destruct (head _); [apply avoids_lift|]| |done..].
    unfold explain_missing, get_file. clean.
  - unfold sync_refs. clean.
Qed.

Lemma auth_extra_avoids c input : avoids cleans_up (auth_extra argon2_hash c input).
Proof. unfold auth_extra. clean. Qed.

Lemma create_with_avoids c ctx input extra hc : avoids cleans_up (create_with c ctx input extra (scoped_before hc)).
Proof.
  unfold create_with, scoped_before, checked_input, resolve_id, read_back. clean.
  - by eapply execute_avoids, insert_of_avoids.
  - apply get_one_avoids.
Qed.

Lemma update_with_avoids c ctx id input extra hc : avoids cleans_up (update_with c ctx id input extra (scoped_before hc)).
Proof.
  unfold update_with, scoped_before, checked_input, read_back. clean.
  - by eapply execute_avoids, update_of_avoids.
  - apply get_one_avoids.
Qed.

Lemma execute_step_avoids p st : avoids cleans_up (execute_step argon2_hash p st).
Proof.
  unfold execute_step, Records.delete, scoped_before. clean;
    first [by apply execute_avoids|apply auth_extra_avoids|apply create_with_avoids|apply update_with_avoids|apply sync_files_avoids|apply get_one_avoids].
Qed.

Lemma run_steps_avoids p steps : avoids cleans_up (run_steps argon2_hash p steps).
Proof. induction steps as [|st steps IH]; cbn [run_steps]; clean; [apply execute_step_avoids|exact IH]. Qed.

Lemma batch_avoids schema p requests : avoids cleans_up (batch argon2_hash schema p requests).
Proof.
  unfold batch, scoped_after. clean; [apply run_steps_avoids|..].
  all: split; [intros []|done].
Qed.

(** What a request leaves behind depends on the endpoint that made it. A
    change of password through the record's own endpoint ends the sessions of
    the account, and deleting a record there deletes its files; the same
    operations in a batch do neither, whatever the database answers. *)
Theorem batch_skips_the_cleanup schema p name id body c ctx requests t :
  resolve schema name = Ok (c, ctx) →
  (∀ v, auth_columns argon2_hash (Some "") c body ≠ Ok [] →
     runs (update_record argon2_hash schema p name id body) t (Done v) →
     ∃ n, Ev (OExecute REVOKE_SQL [text_param id; text_param (collection_id c)]) (DbOk n) ∈ t)
  ∧ (runs (delete_record schema p name id) t (Done tt) →
     ∃ ids, Ev (OIds DELETE_FOR_RECORD_SQL [text_param (collection_name c); text_param id]) (DbOk ids) ∈ t)
  ∧ (∀ r, runs (batch argon2_hash schema p requests) t r →
     (∀ params x, Ev (OExecute REVOKE_SQL params) x ∉ t) ∧ (∀ sql params x, Ev (OIds sql params) x ∉ t)).
Proof.
  intros Rs. split_and!.
  - intros v N R. unfold update_record in R. rewrite Rs in R. cbn [lift] in R. rewrite give_then in R.
    case_decide; [by destruct R|].
    apply runs_done in R as (t1 & [] & t2 & -> & _ & R). apply runs_done in R as (t3 & [] & t4 & -> & _ & R).
    apply runs_done in R as (t5 & extra & t6 & -> & Ex & R). apply runs_done in R as (t7 & record & t8 & -> & _ & R).
    apply runs_done in R as (t9 & n & t10 & -> & Rv & _).
    assert (extra ≠ []).
    { unfold auth_extra in Ex. apply runs_done in Ex as (u1 & drawn & u2 & -> & E1 & Ex).
      unfold auth_columns in N. unfold auth_columns in E1, Ex. destruct (negb _); [done|].
      destruct (mbind _ _) as [pw|]; [|done]. destruct (password_field c); [|done].
      destruct (hash argon2_hash pw); [|by destruct E1]. destruct E1 as [_ [= ->]]. rewrite decide_False in Ex by done.
      apply runs_done in Ex as (u3 & token & u4 & -> & _ & Ex). destruct token; [|by destruct Ex]. by destruct Ex as [_ [= ->]]. }
    rewrite decide_False in Rv by done. destruct Rv as (x & t' & -> & Rv). destruct x as [n'|]; [|by destruct Rv].
    exists n'. rewrite !elem_of_app. do 4 right. left. by left.
  - intros R. unfold delete_record in R. rewrite Rs in R. cbn [lift] in R. rewrite give_then in R.
    case_decide; [by destruct R|].
    apply runs_done in R as (t1 & [] & t2 & -> & _ & R). apply runs_done in R as (t3 & existing & t4 & -> & _ & R).
    apply runs_done in R as (t5 & [] & t6 & -> & _ & R). apply runs_done in R as (t7 & removed & t8 & -> & _ & R).
    apply runs_done in R as (t9 & [] & t10 & -> & Rl & R). apply runs_done in R as (t11 & [] & t12 & -> & _ & R).
    destruct removed; [|by destruct R]. clear R. unfold release_files in Rl.
    apply runs_done in Rl as (u1 & [] & u2 & -> & _ & Rl). apply runs_done in Rl as (u3 & ids & u4 & -> & Dl & _).
    destruct Dl as (x & t' & -> & Dl). destruct x as [ids'|]; [|by destruct Dl]. exists ids'.
    rewrite !elem_of_app. do 4 right. left. right. left. by left.
  - intros r R. split; intros.
    + intros M. by apply (avoids_runs _ _ _ _ _ _ _ (batch_avoids schema p requests) R M).
    + intros M. by apply (avoids_runs _ _ _ _ _ _ _ (batch_avoids schema p requests) R M).
Qed.
End cleanup.

(** * On concrete requests *)

Definition accounts : Collection :=
  {| collection_id := "acc"; collection_name := "accounts"; collection_type := CAuth; collection_options := JObject [];
     rules := JObject [];
     fields := [Samples.sample_field "email" FEmail (JObject []); Samples.sample_field "password_hash" FPassword (JObject [])] |}.
Definition schema_sample : list Collection := [Samples.sample_posts; accounts].
Definition plain_hash (s : string) : result string := Ok ("hash:" +:+ s).

Local Abbreviation sample := Samples.sample_json_text.

(** The run of a delete that finds no record. *)
Lemma missing_delete_runs `{JsonText} schema p name id c ctx doc :
  resolve schema name = Ok (c, ctx) → collection_type c ≠ CView →
  record_document ctx (quote_ident (collection_name c)) selection_all expand_none = Ok doc →
  runs (delete_record schema p name id)
    [Ev OClient (Ok tt); Ev OBegin (DbOk tt); Ev (OContext (request_context p ADelete)) (DbOk tt);
     Ev (ORecord (get_one_statement (collection_name c) doc) [text_param id]) (DbOk None);
     Ev (OExecute (delete_statement (collection_name c)) [text_param id]) (DbOk 0);
     Ev OCommit (DbOk tt)] (Failed (Other NotFound)).
Proof.
  intros R V D. unfold delete_record. rewrite R. cbn [lift]. rewrite give_then, decide_False by done.
  apply (runs_then _ _ [_; _; _] _ tt).
  { apply (runs_then _ _ [_] _ tt); [apply runs_ask|]. apply (runs_then _ _ [_] _ tt); apply runs_db. }
  apply (runs_then _ _ [_] _ None). { apply (runs_then _ _ [] _ doc); [by apply runs_lift|apply runs_db]. }
  apply (runs_then _ _ [] _ tt); [done|]. apply (runs_then _ _ [_] _ false).
  { apply (runs_then _ _ [_] [] 0); [by exists (DbOk 0), []|done]. }
  apply (runs_then _ _ [] _ tt); [done|]. apply (runs_then _ _ [_] _ tt); [apply runs_db|done].
Qed.


(** The run of a batch that reads one record. *)
Lemma single_get_runs `{JsonText} p requests schema st doc id :
  try_map (plan schema) requests = Ok [st] → st_method st = MGet → st_id st = Some id →
  record_document (st_context st) (quote_ident (collection_name (st_collection st))) selection_all expand_none = Ok doc →
  runs (batch plain_hash schema p requests)
    [Ev OClient (Ok tt); Ev OBegin (DbOk tt); Ev (OContext (request_context p AView)) (DbOk tt);
     Ev (ORecord (get_one_statement (collection_name (st_collection st)) doc) [text_param id]) (DbOk (Some JNull));
     Ev OCommit (DbOk tt)]
    (Done (JArray [JObject [("body", JNull); ("status", number 200)]])).
Proof.
  intros Pl M I D. unfold batch.
  assert (L : length requests = 1%nat) by by apply try_map_Ok, Forall2_length in Pl.
  rewrite decide_False by (by intros ->). rewrite decide_False by (rewrite L; vm_compute; lia). rewrite Pl. cbn [lift].
  rewrite give_then. apply (runs_then _ _ [_] _ tt); [apply runs_ask|]. apply (runs_then _ _ [_] _ tt); [apply runs_db|].
  apply runs_bind. eexists [_; _], (Done ([_], [])), [_]. split; [reflexivity|]. split; [|by apply (runs_then _ _ [_] [] tt); [apply runs_db|]].
  cbn [run_steps]. rewrite M. apply (runs_then _ _ [_] _ tt); [apply runs_db|].
  apply (runs_then _ _ [_] [] (200, JNull, None)); [|done]. unfold execute_step. rewrite M, I.
  apply (runs_then _ _ [_] [] (Some JNull)); [|done]. apply (runs_then _ _ [] _ doc); [by apply runs_lift|apply runs_db].
Qed.

Definition get_item : BatchItem :=
  {| bi_method := "get"; bi_url := "/api/collections/posts/records/x"; bi_body := None |}.

Lemma batch_is_all_or_nothing_witness :
  ∃ t v, runs (@batch sample plain_hash schema_sample anonymous_principal [get_item]) t (Done v)
         ∧ Ev OCommit (DbOk tt) ∈ t ∧ ∃ results, v = JArray results ∧ length results = 1%nat.
Proof.
  assert (Pl : ∃ st doc, @try_map _ _ (@plan sample schema_sample) [get_item] = Ok [st]
                         ∧ st_method st = MGet ∧ st_id st = Some "x"
                         ∧ record_document (st_context st) (quote_ident (collection_name (st_collection st))) selection_all expand_none = Ok doc).
  { eexists _, _. split; [vm_compute; reflexivity|]. repeat (split; [reflexivity|]). vm_compute. reflexivity. }
  destruct Pl as (st & doc & Pl & M & I & D).
  pose proof (@single_get_runs sample anonymous_principal [get_item] schema_sample st doc "x" Pl M I D) as Ru.
  eexists _, _. split; [exact Ru|]. exact (@batch_is_all_or_nothing sample plain_hash schema_sample anonymous_principal [get_item] _ _ Ru).
Defined.

Lemma batch_skips_the_cleanup_witness :
  ∃ c ctx, @resolve sample schema_sample "accounts" = Ok (c, ctx)
    ∧ @auth_columns plain_hash (Some "") c (JObject [("password", JString "long enough")]) ≠ Ok []
    ∧ ∀ t r, runs (@batch sample plain_hash schema_sample anonymous_principal [get_item]) t r →
        ∀ params x, Ev (OExecute REVOKE_SQL params) x ∉ t.
Proof.
  eexists _, _. split; [vm_compute; reflexivity|]. split; [discriminate|]. intros t r Ru.
  refine (proj1 (proj2 (proj2 (@batch_skips_the_cleanup sample plain_hash schema_sample anonymous_principal "accounts" "a"
    JNull _ _ [get_item] t _)) r Ru)). vm_compute. reflexivity.
Defined.

(** A caller that is nobody ends the sessions of an account: the premises of
    [refused_update_revokes] at a request anyone can make. *)
Example stranger_revokes :
  let body := JObject [("password", JString "long enough")] in
  ∃ c ctx object extra sql params,
    @resolve sample schema_sample "accounts" = Ok (c, ctx) ∧ as_object body = Some object
    ∧ validate c object true = None ∧ @auth_columns plain_hash (Some "k") c body = Ok extra ∧ extra ≠ []
    ∧ @update_of sample c "victim" object ((λ '(name, value), (name, Some value)) <$> extra) = Ok (sql, params).
Proof. eexists _, _, _, _, _, _. repeat (split; [vm_compute; reflexivity|]). split; [done|]. vm_compute. reflexivity. Qed.
