(* ===== verification/Hooks.v ===== *)
(** Record hooks: the operations of [$app] and the rules on them,
    [crates/hooks/src/app.rs]; the API's side of them,
    [crates/api/src/hooks_host.rs]; the runtime a hook runs in,
    [crates/hooks/src/runtime.rs]; the files hooks are loaded from,
    [crates/hooks/src/loader.rs]; and the worker that owns the runtime,
    [crates/hooks/src/service.rs].

    The JavaScript engine is a parameter: what a script does is any tree of
    calls to [$app] and [$http] that ends in an answer, so that what is proved
    holds of every script. Of the answers to a script, messages are not
    modelled. *)
From S2P Require Import Prelude CoreError FilterText Json Types Ddl Compile Projection Read Validation Rls Principal Jobs Mail Accounts HookHttp Effects Records FileLinks Handlers.

Local Set Warnings "-register-all,-clear-no-such-hyp".

(** * [$app] *)

(** [enum AppOp] and its methods. *)
Inductive AppOp :=
  | FindRecordById (collection id : string)
  | AppSave (collection : string) (record : Value)
  | AppDelete (collection id : string)
  | MailerSend (message : Value).

Definition op_text (payload : Value) (key : string) : result string :=
  raw ← ok_or (v ← get payload key; as_str v) Invalid;
  let value := trim raw in
  if decide (value = "") then Err Invalid else Ok value.

Definition op_from_json (payload : Value) : result AppOp :=
  op ← ok_or (v ← get payload "op"; as_str v) Invalid;
  if decide (op = "findRecordById") then
    collection ← op_text payload "collection"; id ← op_text payload "id"; Ok (FindRecordById collection id)
  else if decide (op = "save") then
    collection ← op_text payload "collection"; record ← ok_or (get payload "record") Invalid; Ok (AppSave collection record)
  else if decide (op = "delete") then
    collection ← op_text payload "collection"; id ← op_text payload "id"; Ok (AppDelete collection id)
  else if decide (op = "mailerSend") then
    message ← ok_or (get payload "message") Invalid; Ok (MailerSend message)
  else Err Invalid.

Definition op_name (o : AppOp) : string :=
  match o with
  | FindRecordById _ _ => "findRecordById"
  | AppSave _ _ => "save"
  | AppDelete _ _ => "delete"
  | MailerSend _ => "mailerSend"
  end.
Definition op_collection (o : AppOp) : option string :=
  match o with FindRecordById c _ | AppSave c _ | AppDelete c _ => Some c | MailerSend _ => None end.
Definition is_write_to (o : AppOp) (collection : string) : bool :=
  match o with AppSave c _ | AppDelete c _ => bool_decide (c = collection) | _ => false end.

(** [HookApp::call], of a host or of none. *)
Definition app_call (host : option (HookContext → AppOp → W Value)) (hc : HookContext) (o : AppOp) : W Value :=
  match host with
  | None => refuse Invalid
  | Some host =>
      match op_collection o with
      | Some _ => if is_write_to o (h_collection hc) then refuse Invalid else host hc o
      | None => host hc o
      end
  end.

(** * The host *)

(** [audit::record] and [jobs::enqueue], on a connection. *)
Definition AUDIT_SQL : string := "insert into _audit (actor, action, target, details) values ($1, $2, $3, $4)".
Definition MAIL_SEND : string := "mail.send".
Definition audit_record (actor action : string) (target : option string) (details : Value) : W unit :=
  db (OExecute AUDIT_SQL [PText (Some actor); PText (Some action); PText target; PJson details]) ≫= λ _, give tt.

Definition ENQUEUE_SQL : string :=
  "insert into _jobs (id, kind, payload, priority, max_attempts, run_at) values ($1, $2, $3, $4, $5, now() + make_interval(secs => $6))".
Definition enqueue_job '((job, payload) : NewJob * Value) : W string :=
  call ONewId ≫= λ id,
  db (OExecute ENQUEUE_SQL [PText (Some id); PText (Some (n_kind job)); PJson payload; PNumber (n_priority job);
                            PNumber (n_max job); PNumber (n_delay job)]) ≫= λ _,
  give id.

(** [refuse_view] and [write_error]. *)
Definition refuse_view (c : Collection) : result unit :=
  if decide (collection_type c = CView) then Err Invalid else Ok ().
Definition write_error {A} (w : W A) : W A :=
  pbind w (λ r, match r with
                | Done a => give a
                | Failed (Fields _) => refuse Invalid
                | Failed (Other e) => refuse e
                end).

Section host.
Context `{JsonText} (argon2_hash : string → result string).
Context (syntax_ok : string → string → bool).
(** The schema cache and the templates of the files and the binary. *)
Context (schema : list Collection) (mail_templates : Templates).

(** [resolve] and [scoped] of [HookAppHost]. *)
Definition host_resolve (name : string) : result (Collection * FilterContext) :=
  c ← ok_or (schema_get schema name) Invalid;
  ctx ← for_collection c schema;
  Ok (c, ctx).
Definition host_scoped (request : RequestContext) : W unit :=
  ask OClient ≫= λ _, db OBegin ≫= λ _, db (OContext request).

(** [find_record], [save] and [delete]. *)
Definition find_record (hc : HookContext) (name id : string) : W Value :=
  lift (host_resolve name) ≫= λ '(c, ctx),
  lift (refuse_view c) ≫= λ _,
  lift (selection_parse None ctx) ≫= λ selection,
  lift (expand_parse None ctx) ≫= λ expand,
  host_scoped (h_request (hook_with_action hc AView)) ≫= λ _,
  get_one c ctx id selection expand ≫= λ record,
  db OCommit ≫= λ _,
  give (default JNull record).

Definition saved_id (record : Value) : option string :=
  raw ← (v ← get record "id"; as_str v);
  let id := trim raw in
  if decide (id = "") then None else Some id.

Definition app_save (hc : HookContext) (name : string) (record : Value) : W Value :=
  lift (host_resolve name) ≫= λ '(c, ctx),
  lift (refuse_view c) ≫= λ _,
  match as_object record with
  | None => refuse Invalid
  | Some _ =>
      let id := saved_id record in
      (if is_auth (collection_type c) then
         write_error (validate_first c record (bool_decide (is_Some id))) ≫= λ _, auth_extra argon2_hash c record
       else give []) ≫= λ extra,
      host_scoped (h_request (hook_with_action hc match id with Some _ => AUpdate | None => AWrite end)) ≫= λ _,
      match id with
      | Some id => write_error (update_with c ctx id record extra no_hooks)
      | None => write_error (create_with c ctx record extra no_hooks) ≫= λ stored, give (Some stored)
      end ≫= λ stored,
      db OCommit ≫= λ _,
      lift (ok_or stored Invalid)
  end.

Definition app_delete (hc : HookContext) (name id : string) : W Value :=
  lift (host_resolve name) ≫= λ '(c, _),
  lift (refuse_view c) ≫= λ _,
  host_scoped (h_request (hook_with_action hc ADelete)) ≫= λ _,
  write_error (Records.delete c id) ≫= λ removed,
  db OCommit ≫= λ _,
  give (JObject [("deleted", JBool removed)]).

(** [send_mail], with the templates in effect and the settings it reads. *)
Definition to_override '((name, part, body) : string * string * string) : Override :=
  {| o_name := name; o_part := part; o_body := body |}.
Definition effective_now : W Templates :=
  db OTemplates ≫= λ rows, lift (with_overrides syntax_ok mail_templates (to_override <$> rows)).
Definition known_names (t : Templates) : list string :=
  elements (set_map (D := gset string) fst (dom (entries t))).

Definition mail_job_id (id : string) : Value := JObject [("id", JString id); ("queued", JBool true)].
Definition app_send_mail (hc : HookContext) (message : Value) : W Value :=
  lift (decode_send_mail message) ≫= λ body,
  ask OClient ≫= λ _,
  effective_now ≫= λ templates,
  lift (job_for body (known_names templates)) ≫= λ '(job, named, to),
  db OSettings ≫= λ settings,
  lift (config ← from_settings (read_settings settings); ok_or config Invalid) ≫= λ _,
  enqueue_job job ≫= λ id,
  let actor := if decide (auth_id (h_request hc) = "") then "hook:anonymous" else auth_id (h_request hc) in
  audit_record actor MAIL_SEND (Some to)
    (JObject [("job", JString id); ("template", match named with Some n => JString n | None => JNull end); ("via", JString "hook")]) ≫= λ _,
  give (mail_job_id id).

(** [POST /api/mail], with which it shares the queue. *)
Definition mail_send (p : Principal) (body : SendMail) : W Value :=
  lift (require_superuser_or_api_key p) ≫= λ _,
  ask OClient ≫= λ _,
  effective_now ≫= λ templates,
  lift (job_for body (known_names templates)) ≫= λ '(job, named, to),
  db OSettings ≫= λ settings,
  lift (config ← from_settings (read_settings settings); ok_or config Invalid) ≫= λ _,
  enqueue_job job ≫= λ id,
  audit_record (default "" (user_id p)) MAIL_SEND (Some to)
    (JObject [("job", JString id); ("template", match named with Some n => JString n | None => JNull end)]) ≫= λ _,
  give (mail_job_id id).

(** [run]. *)
Definition host_run (hc : HookContext) (o : AppOp) : W Value :=
  match o with
  | FindRecordById name id => find_record hc name id
  | AppSave name record => app_save hc name record
  | AppDelete name id => app_delete hc name id
  | MailerSend message => app_send_mail hc message
  end.
End host.

(** * The runtime *)

(** [enum RecordEvent] and its methods. *)
Inductive RecordEvent := BeforeCreate | AfterCreate | BeforeUpdate | AfterUpdate | BeforeDelete | AfterDelete.
#[export] Instance RecordEvent_eq_dec : EqDecision RecordEvent.
Proof. solve_decision. Defined.
Definition event_key (e : RecordEvent) : string :=
  match e with
  | BeforeCreate => "recordBeforeCreate"
  | AfterCreate => "recordAfterCreate"
  | BeforeUpdate => "recordBeforeUpdate"
  | AfterUpdate => "recordAfterUpdate"
  | BeforeDelete => "recordBeforeDelete"
  | AfterDelete => "recordAfterDelete"
  end.
Definition is_before (e : RecordEvent) : bool :=
  match e with BeforeCreate | BeforeUpdate | BeforeDelete => true | _ => false end.
Definition all_events : list RecordEvent :=
  [BeforeCreate; AfterCreate; BeforeUpdate; AfterUpdate; BeforeDelete; AfterDelete].

(** [runtime_event]. *)
Definition runtime_event (e : HookEvent) (before : bool) : RecordEvent :=
  match e, before with
  | HookCreate, true => BeforeCreate
  | HookCreate, false => AfterCreate
  | HookUpdate, true => BeforeUpdate
  | HookUpdate, false => AfterUpdate
  | HookDelete, true => BeforeDelete
  | HookDelete, false => AfterDelete
  end.
Definition event_name (e : HookEvent) : string :=
  match e with HookCreate => "create" | HookUpdate => "update" | HookDelete => "delete" end.

(** A script: it calls [$app] or [$http] with a text and goes on from the
    answer, until it is done. *)
Inductive Js (A : Type) : Type :=
  | JsDone (a : A)
  | JsApp (payload : string) (k : result Value → Js A)
  | JsHttp (payload : string) (k : result Value → Js A).
Arguments JsDone {A} a.
Arguments JsApp {A} payload k.
Arguments JsHttp {A} payload k.

(** [HttpResponse::to_json]; a later header replaces an earlier one. *)
Definition response_json (r : HttpResponse) : Value :=
  JObject [("body", JString (r_body r));
           ("headers", JObject (foldl (λ l '(name, value), btree_insert name (JString value) l) [] (r_headers r)));
           ("status", number (r_status r))].

Section runtime.
Context `{JsonText} (json_parse : string → option Value).
(** [$app]: the host, when there is one. *)
Context (host : option (HookContext → AppOp → W Value)).
(** The engine: a fresh one with the bindings, and what a script does to it. *)
Context (Engine : Type) (engine_new : result Engine).
Context (eval_unit : Engine → string → Js (Engine * result unit)).
Context (eval_count : Engine → string → Js (Engine * result Z)).
Context (eval_text : Engine → string → Js (Engine * result string)).

(** [respond_app] and the binding that reads the slot, and [respond]. *)
Definition outcome {A} (a : attempt A) : result A :=
  match a with Done a => Ok a | Failed (Other e) => Err e | Failed (Fields _) => Err Invalid end.
Definition respond_app (hc : HookContext) (payload : string) : prog (result Value) :=
  match v ← ok_or (json_parse payload) Invalid; op_from_json v with
  | Err e => Ret (Err e)
  | Ok o => pbind (app_call host hc o) (λ r, Ret (outcome r))
  end.
Definition app_binding (slot : option HookContext) (payload : string) : prog (result Value) :=
  match slot with None => Ret (Err Invalid) | Some hc => respond_app hc payload end.
Definition respond (payload : string) : prog (result Value) :=
  match v ← ok_or (json_parse payload) Invalid; HookHttp.from_json v with
  | Err e => Ret (Err e)
  | Ok c => Do (OHttp c) (λ r, Ret (response_json <$> r))
  end.

(** A script, with the context of the dispatch in the slot. *)
Fixpoint run_js {A} (slot : option HookContext) (js : Js A) : prog A :=
  match js with
  | JsDone a => Ret a
  | JsApp payload k => pbind (app_binding slot payload) (λ r, run_js slot (k r))
  | JsHttp payload k => pbind (respond payload) (λ r, run_js slot (k r))
  end.

(** [literal], [load], [registered] and [dispatch] of a runtime. *)
Definition literal (s : string) : string := json_text (JString s).
Definition rt_load (e : Engine) (source : string) : prog (Engine * result unit) := run_js None (eval_unit e source).
Definition rt_registered (e : Engine) (event : RecordEvent) (collection : string) : prog (Engine * result Z) :=
  pbind (run_js None (eval_count e ("__lazypock_count(" +:+ literal (event_key event) +:+ ", " +:+ literal collection +:+ ")")))
    (λ '(e, r), Ret (e, Z.max 0 <$> r)).
Definition rt_dispatch (e : Engine) (event : RecordEvent) (collection : string) (payload : Value) (hc : HookContext)
    : prog (Engine * result Value) :=
  let source := "__lazypock_dispatch(" +:+ literal (event_key event) +:+ ", " +:+ literal collection +:+ ", "
                +:+ literal (json_text payload) +:+ ")" in
  pbind (run_js (Some hc) (eval_text e source))
    (λ '(e, r), Ret (e, rendered ← r; ok_or (json_parse rendered) Internal)).
End runtime.

(** * The files *)

Definition HOOK_SUFFIX : string := ".pb.ts".
Definition JS_HOOK_SUFFIX : string := ".pb.js".

(** An entry of the directory: its path, whether it is a file, and its bytes
    when they can be read. A directory that is missing has no entries. *)
Record DirEntry := { d_path : string; d_is_file : bool; d_bytes : option string }.

(** [struct FileSignature] and [struct LoadReport], whose error is what went
    wrong. *)
Record FileSignature := { fs_path : string; fs_hash : Z }.
#[export] Instance FileSignature_eq_dec : EqDecision FileSignature.
Proof. solve_decision. Defined.
Inductive LoadError := RuntimeError (e : Error) | UnreadableFile | StripError (e : Error) | ScriptError (e : Error).
Record LoadReport := { rp_files : nat; rp_hooks : Z; rp_error : option LoadError }.

(** [read_to_string] of an entry's bytes: they are UTF-8. *)
Definition read_source (d : DirEntry) : option string :=
  bytes ← d_bytes d; if decide (lossy bytes = bytes) then Some bytes else None.

(** [discover]: the hook files in the order of their paths. *)
Definition path_le (a b : DirEntry) : Prop := String.leb (d_path a) (d_path b) = true.
#[export] Instance path_le_dec a b : Decision (path_le a b).
Proof. unfold path_le. apply _. Defined.
Definition is_hook_file (d : DirEntry) : Prop :=
  d_is_file d = true ∧ (ends_with HOOK_SUFFIX (d_path d) || ends_with JS_HOOK_SUFFIX (d_path d) = true).
Definition discover (dir : list DirEntry) : list DirEntry := merge_sort path_le (filter is_hook_file dir).

(** [collection_names] and [collections_in]: the first quoted text after each
    [onRecord]. The argument of [names_from] is the text left to search. *)
Definition quoted_argument (rest : string) : option string :=
  '(_, after) ← split_once "(" rest;
  match trim_start after with
  | String q body =>
      if decide (q ∈ [quote_char; tick_char; "`"%char]) then fst <$> split_once q body else None
  | EmptyString => None
  end.
Fixpoint names_from (s : string) : list string :=
  match s with
  | EmptyString => []
  | String _ r =>
      (if starts_with "onRecord" s then match quoted_argument s with Some name => [name] | None => [] end else [])
      ++ names_from r
  end.
Definition collection_names (source : string) : list string := names_from source.
Definition collections_in (files : list DirEntry) : list string :=
  foldl (λ names name, if decide (name ∈ names) then names else names ++ [name]) []
    (d ← files; match read_source d with Some source => collection_names source | None => [] end).

(** * The loader and the worker *)

Section loader.
Context `{JsonText} (json_parse : string → option Value).
Context (host : option (HookContext → AppOp → W Value)).
Context (Engine : Type) (engine_new : result Engine).
Context (eval_unit : Engine → string → Js (Engine * result unit)).
Context (eval_count : Engine → string → Js (Engine * result Z)).
Context (eval_text : Engine → string → Js (Engine * result string)).
(** [strip_types] of a source and its path, and [hash_of]. *)
Context (strip_types : string → string → result string) (hash_of : string → Z).

(** [struct HookLoader], but for the directory and the setup. *)
Record HookLoader := {
  hl_runtime : option Engine;
  hl_signature : list FileSignature;
  hl_last_error : option LoadError;
}.
Definition loader_new : HookLoader := {| hl_runtime := None; hl_signature := []; hl_last_error := None |}.

(** The loop of [load] over the files: the engine, and the signatures or what
    stopped it. *)
Definition code_of (d : DirEntry) (source : string) : result string :=
  if ends_with JS_HOOK_SUFFIX (d_path d) then Ok source else strip_types source (d_path d).
Definition signature_of (d : DirEntry) (source : string) : FileSignature :=
  {| fs_path := d_path d; fs_hash := hash_of source |}.
Fixpoint load_files (e : Engine) (files : list DirEntry) : prog (Engine * (list FileSignature + LoadError)) :=
  match files with
  | [] => Ret (e, inl [])
  | d :: files =>
      match read_source d with
      | None => Ret (e, inr UnreadableFile)
      | Some source =>
          match code_of d source with
          | Err err => Ret (e, inr (StripError err))
          | Ok code =>
              pbind (rt_load json_parse host Engine eval_unit e code) (λ '(e, r),
                match r with
                | Err err => Ret (e, inr (ScriptError err))
                | Ok _ =>
                    pbind (load_files e files) (λ '(e, r),
                      Ret (e, match r with inl l => inl (signature_of d source :: l) | inr err => inr err end))
                end)
          end
      end
  end.

(** The handlers registered, counted for the report. *)
Fixpoint count_hooks (e : Engine) (wanted : list (RecordEvent * string)) : prog (Engine * Z) :=
  match wanted with
  | [] => Ret (e, 0%Z)
  | (event, collection) :: wanted =>
      pbind (rt_registered json_parse host Engine eval_count e event collection) (λ '(e, r),
        pbind (count_hooks e wanted) (λ '(e, n), Ret (e, (match r with Ok m => m | Err _ => 0 end + n)%Z)))
  end.

(** [load] and [reload_if_changed]; the directory as it is when the signatures
    are compared, and as it is when the files are loaded. *)
Definition load_hooks (dir : list DirEntry) (l : HookLoader) : prog (HookLoader * LoadReport) :=
  let files := discover dir in
  let failed err := ({| hl_runtime := hl_runtime l; hl_signature := hl_signature l; hl_last_error := Some err |},
                     {| rp_files := length files; rp_hooks := 0; rp_error := Some err |}) in
  if decide (files = []) then
    Ret ({| hl_runtime := None; hl_signature := []; hl_last_error := None |},
         {| rp_files := 0; rp_hooks := 0; rp_error := None |})
  else
    match engine_new with
    | Err err => Ret (failed (RuntimeError err))
    | Ok e =>
        pbind (load_files e files) (λ '(e, r),
          match r with
          | inr err => Ret (failed err)
          | inl signature =>
              pbind (count_hooks e (event ← all_events; collection ← collections_in files; [(event, collection)])) (λ '(e, n),
                Ret ({| hl_runtime := Some e; hl_signature := signature; hl_last_error := None |},
                     {| rp_files := length files; rp_hooks := n; rp_error := None |}))
          end)
    end.

Definition current_signature (dir : list DirEntry) : list FileSignature :=
  omap (λ d, bytes ← d_bytes d; Some (signature_of d bytes)) (discover dir).
Definition reload_if_changed (checked loaded : list DirEntry) (l : HookLoader) : prog (HookLoader * option LoadReport) :=
  if decide (current_signature checked = hl_signature l) then Ret (l, None)
  else pbind (load_hooks loaded l) (λ '(l, r), Ret (l, Some r)).

(** [dispatch] of the loader. *)
Definition loader_dispatch (l : HookLoader) (event : RecordEvent) (collection : string) (payload : Value) (hc : HookContext)
    : prog (HookLoader * result (option Value)) :=
  match hl_runtime l with
  | None => Ret (l, Ok None)
  | Some e =>
      pbind (rt_dispatch json_parse host Engine eval_text e event collection payload hc) (λ '(e, r),
        Ret ({| hl_runtime := Some e; hl_signature := hl_signature l; hl_last_error := hl_last_error l |}, Some <$> r))
  end.

(** The worker of [HookService]: its loader, the flag the handles share, and
    when it last looked for edits, in milliseconds. *)
Record Service := { sv_loader : HookLoader; sv_active : bool; sv_last_check : Z }.
Definition is_active (l : HookLoader) : bool := bool_decide (is_Some (hl_runtime l)).
Definition RELOAD_INTERVAL : Z := 1000.

Definition service_start (now : Z) (dir : list DirEntry) : prog Service :=
  pbind (load_hooks dir loader_new) (λ '(l, _), Ret {| sv_loader := l; sv_active := is_active l; sv_last_check := now |}).

(** What the worker finds of the world when it takes a request. *)
Record Seen := { at_ : Z; checked : list DirEntry; loaded_ : list DirEntry }.

Definition worker_dispatch (s : Service) (w : Seen) (event : RecordEvent) (collection : string) (payload : Value)
    (hc : HookContext) : prog (Service * result (option Value)) :=
  pbind (if decide (RELOAD_INTERVAL ≤ at_ w - sv_last_check s)%Z then
           pbind (reload_if_changed (checked w) (loaded_ w) (sv_loader s)) (λ '(l, r),
             Ret {| sv_loader := l; sv_active := match r with Some _ => is_active l | None => sv_active s end;
                    sv_last_check := at_ w |})
         else Ret s) (λ s,
    pbind (loader_dispatch (sv_loader s) event collection payload hc) (λ '(l, r),
      Ret ({| sv_loader := l; sv_active := sv_active s; sv_last_check := sv_last_check s |}, r))).
Definition worker_reload (s : Service) (dir : list DirEntry) : prog (Service * LoadReport) :=
  pbind (load_hooks dir (sv_loader s)) (λ '(l, r),
    Ret ({| sv_loader := l; sv_active := is_active l; sv_last_check := sv_last_check s |}, r)).

(** [before_ctx] and [after_ctx]; a caller that says nothing is anonymous. *)
Definition hook_payload (event : HookEvent) (collection : string) (record : Value) : Value :=
  JObject [("action", JString (event_name event)); ("collection", JString collection); ("record", record)].
Definition before_ctx (s : Service) (w : Seen) (hc : HookContext) (event : HookEvent) (collection : string) (record : Value)
    : prog (Service * result Value) :=
  if sv_active s then
    pbind (worker_dispatch s w (runtime_event event true) collection (hook_payload event collection record) hc) (λ '(s, r),
      Ret (s, produced ← r; Ok (default record (v ← produced; get v "record"))))
  else Ret (s, Ok record).
Definition after_ctx (s : Service) (w : Seen) (hc : HookContext) (event : HookEvent) (collection : string) (record : Value)
    : prog (Service * result unit) :=
  if sv_active s then
    pbind (worker_dispatch s w (runtime_event event false) collection (hook_payload event collection record) hc) (λ '(s, r),
      Ret (s, _ ← r; Ok ()))
  else Ret (s, Ok ()).
Definition before (s : Service) (w : Seen) (event : HookEvent) (collection : string) (record : Value) : prog (Service * result Value) :=
  before_ctx s w (hook_anonymous collection) event collection record.
Definition after (s : Service) (w : Seen) (event : HookEvent) (collection : string) (record : Value) : prog (Service * result unit) :=
  after_ctx s w (hook_anonymous collection) event collection record.
End loader.

(** * Under whose rights a hook acts *)

(** The protocol of what a script does for the caller [base]. Each operation
    has a connection of its own, and what an earlier one left open is rolled
    back; on it the transaction protocol of the endpoints holds, no hook runs,
    and of the server's own tables only the queue and the audit trail are
    written. *)
Definition hook_watch (base : RequestContext) (X : Type) (o : op X) : X → Tx → option Tx :=
  match o in op X return X → Tx → option Tx with
  | OClient => λ _ _, Some tx_start
  | OExecute sql params => λ r s,
      match statement_action sql with
      | None => check (bool_decide (sql ∈ [AUDIT_SQL; ENQUEUE_SQL])) s
      | Some _ => watch base None _ (OExecute sql params) r s
      end
  | OBefore _ _ _ _ => λ _ _, None
  | OAfter _ _ _ _ => λ _ _, None
  | o => watch base None _ o
  end.

(** What the endpoints may do and a script may not. *)
Definition nested (X : Type) (o : op X) : Prop :=
  match o with
  | OClient => True
  | OBefore _ _ _ _ => True
  | OAfter _ _ _ _ => True
  | OExecute sql _ => statement_action sql = None
  | _ => False
  end.

Lemma hook_transfer base {A} (q : prog A) s Q :
  avoids nested q → safe (watch base None) q s Q → safe (hook_watch base) q s Q.
Proof.
  revert s. induction q as [a|X o k IH]; intros s V S; [done|]. destruct V as [N V]. intros x.
  destruct (S x) as (s' & W1 & S'). exists s'. split; [|by apply IH].
  destruct o; try done; try (by destruct N). unfold hook_watch. unfold nested in N. destruct (statement_action sql); [exact W1|by destruct N].
Qed.

(** Nothing is asked of where a script leaves off. *)
Abbreviation free q base s := (safe (hook_watch base) q s (λ _ _, True)).

Lemma free_then {A B} base (q : W A) (f : A → W B) s :
  (∀ Q, (∀ r s', Q r s') → safe (hook_watch base) q s Q) → (∀ a s', free (f a) base s') → free (q ≫= f) base s.
Proof. intros Hq Hf. apply safe_then, Hq. intros [a|e] s'; [apply Hf|done]. Qed.

Section hook_rights.
Context `{JsonText} (argon2_hash : string → result string) (syntax_ok : string → string → bool).
Context (schema : list Collection) (mail_templates : Templates).
Context (p : Principal).
Local Abbreviation base := (request_context p AWrite).
Local Abbreviation any := (still (λ _ _, True)).

Ltac clean := avoid; try solve [intros []]; try solve [let E := fresh in intros E; discriminate E].

Lemma insert_of_action c id object extra sql params :
  insert_of c id object extra = Ok (sql, params) → statement_action sql ≠ None.
Proof. unfold insert_of. by intros ([columns ps] & _ & [= <- _])%bind_Ok. Qed.
Lemma update_of_action c id object extra sql params :
  update_of c id object extra = Ok (sql, params) → statement_action sql ≠ None.
Proof. unfold update_of. by intros ([columns ps] & _ & [= <- _])%bind_Ok. Qed.

Lemma execute_not_nested sql params : statement_action sql ≠ None → avoids nested (execute sql params).
Proof. intros N. split; [done|]. by intros [n|e]. Qed.
Lemma get_one_not_nested c ctx id sel ex : avoids nested (get_one c ctx id sel ex).
Proof. unfold get_one. clean. Qed.
Lemma auth_extra_not_nested c input : avoids nested (auth_extra argon2_hash c input).
Proof. unfold auth_extra. clean. Qed.

Lemma create_not_nested c ctx input extra : avoids nested (create_with c ctx input extra no_hooks).
Proof.
  unfold create_with, no_hooks, checked_input, resolve_id, read_back. clean.
  - by eapply execute_not_nested, insert_of_action.
  - apply get_one_not_nested.
Qed.
Lemma update_not_nested c ctx id input extra : avoids nested (update_with c ctx id input extra no_hooks).
Proof.
  unfold update_with, no_hooks, checked_input, read_back. clean.
  - by eapply execute_not_nested, update_of_action.
  - apply get_one_not_nested.
Qed.
Lemma delete_not_nested c id : avoids nested (Records.delete c id).
Proof. unfold Records.delete. clean. by apply execute_not_nested. Qed.

Lemma no_hooks_ok a : hooks_ok p None a no_hooks.
Proof. intros e n r s _ L _ _. by split. Qed.

Lemma write_error_still {A} (q : W A) s : safe (watch base None) q s any → safe (watch base None) (write_error q) s any.
Proof. intros S. apply safe_bind. eapply safe_mono; [exact S|]. by intros [a|[errors|e]] s' [L _]. Qed.

(** A transaction as the caller, and the rest of an operation in it. *)
Lemma free_scoped {B} a (f : unit → W B) s :
  avoids nested (f tt) → (∀ s, live s → tx_who s = Some (with_action base a) → safe (watch base None) (f tt) s final) →
  free (host_scoped (request_context p a) ≫= f) base s.
Proof.
  intros V Hf. unfold host_scoped.
  intros [[]|e]; cbn; (eexists; split; [reflexivity|]); [|done].
  intros [[]|e]; cbn; (eexists; split; [reflexivity|]); [|done].
  intros [[]|e]; cbn; (eexists; split; [unfold own; rewrite bool_decide_eq_true_2 by done; reflexivity|]); [|done].
  eapply safe_mono; [apply hook_transfer; [done|by apply Hf]|done].
Qed.

Lemma find_record_free hc name id s :
  (∃ a, h_request hc = request_context p a) → free (find_record schema hc name id) base s.
Proof.
  intros [a Ha]. unfold find_record. cbn [hook_with_action h_request]. rewrite Ha. change (with_action (request_context p a) AView) with (request_context p AView).
  apply free_then; [intros Q HQ; apply safe_lift; auto|]. intros [c ctx] s1.
  do 3 (apply free_then; [intros Q HQ; apply safe_lift; auto|]; intros ? ?).
  apply free_scoped; [clean; apply get_one_not_nested|]. intros s2 L T.
  assert (T' := caller_reads _ None _ _ T eq_refl).
  apply final_any; [by eapply any_of, get_one_ok; [|left]|]. intros record s3 L3. by apply final_commit.
Qed.

Lemma app_delete_free hc name id s :
  (∃ a, h_request hc = request_context p a) → free (app_delete schema hc name id) base s.
Proof.
  intros [a Ha]. unfold app_delete. cbn [hook_with_action h_request]. rewrite Ha. change (with_action (request_context p a) ADelete) with (request_context p ADelete).
  apply free_then; [intros Q HQ; apply safe_lift; auto|]. intros [c ctx] s1.
  apply free_then; [intros Q HQ; apply safe_lift; auto|]. intros _ s2.
  apply free_scoped; [unfold write_error; clean; apply delete_not_nested|]. intros s3 L T.
  apply final_any; [by apply write_error_still, delete_ok|]. intros removed s4 L4. by apply final_commit.
Qed.

Lemma app_save_free hc name record s :
  (∃ a, h_request hc = request_context p a) → free (app_save argon2_hash schema hc name record) base s.
Proof.
  intros [a Ha]. unfold app_save. cbn [hook_with_action h_request].
  apply free_then; [intros Q HQ; apply safe_lift; auto|]. intros [c ctx] s1.
  apply free_then; [intros Q HQ; apply safe_lift; auto|]. intros _ s2.
  destruct (as_object record) as [object|]; [|done].
  apply free_then.
  { intros Q HQ. destruct (is_auth _); [|apply HQ]. apply safe_then.
    unfold write_error, validate_first. destruct (as_object record); [destruct (validate _ _ _)|]; cbn; auto.
    all: apply hook_transfer; [apply auth_extra_not_nested|]; by apply (auth_extra_pure argon2_hash p None). }
  intros extra s3. rewrite Ha.
  change (with_action (request_context p a) (match saved_id record with Some _ => AUpdate | None => AWrite end))
    with (request_context p (match saved_id record with Some _ => AUpdate | None => AWrite end)).
  apply free_scoped.
  - unfold write_error. clean; [apply update_not_nested|apply create_not_nested].
  - intros s4 L T. apply final_any.
    + destruct (saved_id record) as [id|].
      * apply write_error_still, update_with_ok; [apply no_hooks_ok|done..].
      * apply any_then; [apply write_error_still, create_with_ok; [apply no_hooks_ok|done..]|]. intros; by apply any_done.
    + intros stored s5 L5. apply final_commit; [done|]. intros s6 C. by destruct (ok_or stored Invalid).
Qed.

Lemma send_mail_free hc message s : free (app_send_mail syntax_ok mail_templates hc message) base s.
Proof.
  unfold app_send_mail. apply free_then; [intros Q HQ; apply safe_lift; auto|]. intros body s1.
  apply free_then; [intros Q HQ [[]|e]; (eexists; split; [reflexivity|]); apply HQ|]. intros _ s2.
  apply free_then; [intros Q HQ [rows|e]; (eexists; split; [reflexivity|]); [destruct (with_overrides syntax_ok mail_templates (to_override <$> rows)) eqn:E; cbn; rewrite ?E|]; apply HQ|]. intros t s3.
  apply free_then; [intros Q HQ; apply safe_lift; auto|]. intros [[job named] to] s4.
  apply free_then; [intros Q HQ [rows|e]; (eexists; split; [reflexivity|]); apply HQ|]. intros settings s5.
  apply free_then; [intros Q HQ; apply safe_lift; auto|]. intros config s6.
  apply free_then.
  { intros Q HQ. destruct job as [job payload]. intros id. eexists. split; [reflexivity|]. intros [n|e]; (eexists; split; [reflexivity|]); apply HQ. }
  intros id s7. apply free_then; [|done]. intros Q HQ [n|e]; (eexists; split; [reflexivity|]); apply HQ.
Qed.

Lemma host_run_free hc o s :
  (∃ a, h_request hc = request_context p a) → free (host_run argon2_hash syntax_ok schema mail_templates hc o) base s.
Proof.
  intros Ha. destruct o; cbn [host_run];
    [by apply find_record_free|by apply app_save_free|by apply app_delete_free|apply send_mail_free].
Qed.
End hook_rights.

(** * Every script is watched *)

Section scripts.
Context `{JsonText} (json_parse : string → option Value) (p : Principal).
Local Abbreviation base := (request_context p AWrite).

(** A context a request of the caller builds. *)
Definition caller (hc : HookContext) : Prop := ∃ a, h_request hc = request_context p a.

Context (host : HookContext → AppOp → W Value) (host_free : ∀ hc o s, caller hc → free (host hc o) base s).
Context (Engine : Type) (engine_new : result Engine).
Context (eval_unit : Engine → string → Js (Engine * result unit)).
Context (eval_count : Engine → string → Js (Engine * result Z)).
Context (eval_text : Engine → string → Js (Engine * result string)).
Context (strip_types : string → string → result string) (hash_of : string → Z).

Lemma free_bind {A B} (q : prog A) (f : A → prog B) s :
  (∀ s, free q base s) → (∀ a s, free (f a) base s) → free (pbind q f) base s.
Proof. intros Hq Hf. apply safe_bind. eapply safe_mono; [apply Hq|]. intros a s' _. apply Hf. Qed.

(** Walks along the code. *)
Ltac loose :=
  repeat lazymatch goal with
  | |- safe _ (pbind _ _) _ _ => apply free_bind; intros
  | |- safe _ (Ret _) _ _ => exact I
  | |- safe _ (match ?x with _ => _ end) _ _ => destruct x
  end.

Lemma app_call_free hc o s : caller hc → free (app_call (Some host) hc o) base s.
Proof. intros C. unfold app_call. destruct (op_collection o); [destruct (is_write_to o _)|]; [done|by apply host_free..]. Qed.

Lemma app_binding_free slot payload s :
  (∀ hc, slot = Some hc → caller hc) → free (app_binding json_parse (Some host) slot payload) base s.
Proof.
  intros C. unfold app_binding, respond_app. destruct slot as [hc|]; [|done]. destruct (_ ≫= _) as [o|e]; [|done].
  apply free_bind; [|done]. intros. by apply app_call_free, C.
Qed.

Lemma respond_free payload s : free (respond json_parse payload) base s.
Proof. unfold respond. destruct (_ ≫= _) as [c|e]; [|done]. intros r. by eexists. Qed.

Lemma run_js_free {A} slot (js : Js A) s :
  (∀ hc, slot = Some hc → caller hc) → free (run_js json_parse (Some host) slot js) base s.
Proof.
  intros C. revert s. induction js as [a|payload k IH|payload k IH]; intros s; cbn [run_js]; [done|..].
  - apply free_bind; [|intros; apply IH]. intros. by apply app_binding_free.
  - apply free_bind; [|intros; apply IH]. intros. by apply respond_free.
Qed.

Lemma load_files_free e files s :
  free (load_files json_parse (Some host) Engine eval_unit strip_types hash_of e files) base s.
Proof.
  revert e s. induction files as [|d files IH]; intros e s; cbn [load_files]; [done|]. loose; [by apply run_js_free|apply IH].
Qed.
Lemma count_hooks_free e wanted s : free (count_hooks json_parse (Some host) Engine eval_count e wanted) base s.
Proof.
  revert e s. induction wanted as [|[event c] wanted IH]; intros e s; cbn [count_hooks]; [done|].
  unfold rt_registered. loose; [by apply run_js_free|apply IH].
Qed.
Lemma load_hooks_free dir l s :
  free (load_hooks json_parse (Some host) Engine engine_new eval_unit eval_count strip_types hash_of dir l) base s.
Proof. unfold load_hooks. loose; [apply load_files_free|apply count_hooks_free]. Qed.

Lemma worker_dispatch_free sv w event c payload hc s :
  caller hc →
  free (worker_dispatch json_parse (Some host) Engine engine_new eval_unit eval_count eval_text strip_types hash_of sv w event c payload hc) base s.
Proof.
  intros C. unfold worker_dispatch, reload_if_changed, loader_dispatch, rt_dispatch. loose; [apply load_hooks_free|].
  apply run_js_free. by intros ? [= <-].
Qed.
End scripts.

Lemma hook_acting base X (o : op X) x s s' : hook_watch base X o x s = Some s' → tx_who s' = acting_after (tx_who s) (Ev o x).
Proof.
  intros Wt. destruct o; try (by apply (watch_acting base None)); try done; [by injection Wt as <-|].
  unfold hook_watch in Wt. destruct (statement_action sql) eqn:E; [by apply (watch_acting base None) in Wt|].
  unfold check in Wt. case_match; by simplify_eq.
Qed.

(** A row of a collection's table written. *)
Definition write_event (e : event) : Prop :=
  ∃ sql params n act, e = Ev (OExecute sql params) (DbOk n) ∧ statement_action sql = Some act.

Section traces.
Context `{JsonText} (p : Principal).
Local Abbreviation base := (request_context p AWrite).

Definition tx_known (t : list event) (s : Tx) : Prop :=
  (∀ c, tx_who s = Some c → ∃ a, c = request_context p a) ∧ (tx_wrote s = true → Exists write_event t).

Lemma hook_known t e s s' :
  tx_known t s → watched (hook_watch base) s [e] = Some s' → tx_known (t ++ [e]) s'.
Proof.
  intros [W1 W2] Wt. destruct e as [X o x]. cbn [watched] in Wt. destruct (hook_watch base X o x s) as [s1|] eqn:E; [|done].
  injection Wt as <-. split.
  - intros c T. rewrite (hook_acting _ _ _ _ _ _ E) in T. destruct o; cbn in T; try (by apply W1); try done.
    + destruct x; [done|by apply W1].
    + destruct x; [|by apply W1]. injection T as <-. cbn in E. unfold check in E. case_match eqn:K; [|done].
      apply andb_true_iff in K as [_ K]. apply bool_decide_eq_true in K. by eexists.
    + destruct x; [done|by apply W1].
  - intros T. destruct (decide (tx_wrote s = true)) as [Y|N]; [apply Exists_app; left; auto|]. apply Exists_app. right.
    apply Exists_cons_hd. apply not_true_is_false in N. destruct o; cbn in E; unfold check in E.
    7: { destruct (statement_action sql) as [act|] eqn:A; [|case_match; simplify_eq; congruence].
         case_match; [|done]. destruct x as [n|e]; simplify_eq; [|cbn in T; congruence]. by exists sql, params, n, act. }
    all: repeat case_match; simplify_eq; cbn in T; try congruence.
Qed.

Lemma hook_known_run t s s' t0 :
  tx_known t0 s → watched (hook_watch base) s t = Some s' → tx_known (t0 ++ t) s'.
Proof.
  revert t0 s. induction t as [|e t IH]; intros t0 s K Wt; [injection Wt as <-; by rewrite app_nil_r|].
  change (e :: t) with ([e] ++ t) in Wt. rewrite watched_app in Wt.
  destruct (watched (hook_watch base) s [e]) as [s1|] eqn:E; [|done]. change (e :: t) with ([e] ++ t). rewrite app_assoc.
  eapply IH; [by eapply hook_known|exact Wt].
Qed.

(** What a trace shows of a script. *)
Definition acts_as_caller (t : list event) : Prop :=
  (∀ t1 t2 sql params n, t = t1 ++ Ev (OExecute sql params) n :: t2 →
     match statement_action sql with
     | Some act => acting t1 = Some (request_context p act)
     | None => sql = AUDIT_SQL ∨ sql = ENQUEUE_SQL
     end)
  ∧ (∀ t1 t2 sql params x, t = t1 ++ Ev (ORecord sql params) x :: t2 →
       (∃ act, acting t1 = Some (request_context p act)) ∨ Exists write_event t1)
  ∧ (∀ hc e c v x, Ev (OBefore hc e c v) x ∉ t) ∧ (∀ hc e c v x, Ev (OAfter hc e c v) x ∉ t).

Lemma free_acts {A} (q : prog A) t r : (∀ s, free q base s) → runs q t r → acts_as_caller t.
Proof.
  intros F R. destruct (safe_runs _ _ _ _ _ _ (F tx_start) R) as (s & Wt & _).
  pose proof (λ X (o : op X) x, watched_at _ (hook_acting base) t s o x) as At. split_and!.
  - intros t1 t2 sql params n Et. destruct (At _ _ _ Wt _ _ Et) as (s1 & s2 & W1 & W2 & T). unfold hook_watch in W2.
    destruct (statement_action sql) as [act|] eqn:Sa.
    + rewrite <- T. unfold watch in W2. rewrite Sa in W2. unfold check in W2. case_match eqn:K; [|done].
      rewrite !andb_true_iff in K. destruct K as [[_ K] _]. by apply bool_decide_eq_true in K.
    + unfold check in W2. case_match eqn:K; [|done]. apply bool_decide_eq_true in K. set_solver.
  - intros t1 t2 sql params x Et. destruct (At _ _ _ Wt _ _ Et) as (s1 & s2 & W1 & W2 & T). cbn in W2.
    unfold check in W2. case_match eqn:K; [|done]. apply andb_true_iff in K as [_ K].
    assert (Kn : tx_known t1 s1) by (apply (hook_known_run t1 tx_start s1 []); [by split|done]). destruct Kn as [K1 K2].
    apply orb_true_iff in K as [K|K]; [|apply andb_true_iff in K as [_ K]; right; by apply K2]. left.
    destruct (tx_who s1) as [c|] eqn:K'; [|done]. destruct (K1 c eq_refl) as [act ->]. by exists act.
  - intros hc e c v x M. apply list_elem_of_split in M as (t1 & t2 & Et).
    destruct (At _ _ _ Wt _ _ Et) as (s1 & s2 & W1 & W2 & T). done.
  - intros hc e c v x M. apply list_elem_of_split in M as (t1 & t2 & Et).
    destruct (At _ _ _ Wt _ _ Et) as (s1 & s2 & W1 & W2 & T). done.
Qed.
End traces.

Section acts.
Context `{JsonText} (json_parse : string → option Value) (argon2_hash : string → result string).
Context (syntax_ok : string → string → bool) (schema : list Collection) (mail_templates : Templates).
Context (Engine : Type) (engine_new : result Engine).
Context (eval_unit : Engine → string → Js (Engine * result unit)).
Context (eval_count : Engine → string → Js (Engine * result Z)).
Context (eval_text : Engine → string → Js (Engine * result string)).
Context (strip_types : string → string → result string) (hash_of : string → Z).
Local Abbreviation host := (Some (host_run argon2_hash syntax_ok schema mail_templates)).

(** C19. A hook can do no more than the request that triggered it. Whatever its
    script and the files it was loaded from do, in every trace of a dispatch a
    row of a collection is written as the caller under the action of that
    write, records are read as the caller or back after such a write, of the
    server's own tables only the queue and the audit trail are written, and no
    hook is run. *)
Theorem hook_acts_as_its_caller p a collection event record sv w t :
  let hc := hook_context collection p a in
  (∀ r, runs (before_ctx json_parse host Engine engine_new eval_unit eval_count eval_text strip_types hash_of
                sv w hc event collection record) t r → acts_as_caller p t)
  ∧ (∀ r, runs (after_ctx json_parse host Engine engine_new eval_unit eval_count eval_text strip_types hash_of
                  sv w hc event collection record) t r → acts_as_caller p t).
Proof.
  intros hc. assert (C : caller p hc) by by exists a.
  assert (Hf : ∀ hc o s, caller p hc →
    safe (hook_watch (request_context p AWrite)) (host_run argon2_hash syntax_ok schema mail_templates hc o) s (λ _ _, True))
    by (intros; by apply host_run_free).
  split; intros r; apply free_acts; intros s; [unfold before_ctx|unfold after_ctx]; destruct (sv_active Engine sv); try done.
  all: apply free_bind; [intros; by apply worker_dispatch_free|by intros [? ?] ?].
Qed.
End acts.

(** * What serves *)

Section serving.
Context `{JsonText} (json_parse : string → option Value).
Context (host : option (HookContext → AppOp → W Value)).
Context (Engine : Type) (engine_new : result Engine).
Context (eval_unit : Engine → string → Js (Engine * result unit)).
Context (eval_count : Engine → string → Js (Engine * result Z)).
Context (eval_text : Engine → string → Js (Engine * result string)).
Context (strip_types : string → string → result string) (hash_of : string → Z).

Local Abbreviation files_loaded := (load_files json_parse host Engine eval_unit strip_types hash_of).
Local Abbreviation hooks_loaded := (load_hooks json_parse host Engine engine_new eval_unit eval_count strip_types hash_of).
Local Abbreviation reloaded := (reload_if_changed json_parse host Engine engine_new eval_unit eval_count strip_types hash_of).
Local Abbreviation current := (current_signature hash_of).

(** The scripts of the hook files of a directory, when all of them can be read
    and stripped. *)
Definition script_of (d : DirEntry) : option string :=
  source ← read_source d; match code_of strip_types d source with Ok code => Some code | Err _ => None end.
Definition scripts (dir : list DirEntry) : option (list string) := mapM script_of (discover dir).

(** An engine that has run these scripts, one after the other and all without
    an error, and nothing since but the counting of its handlers and
    dispatches. *)
Inductive fresh : list string → Engine → Prop :=
  | fresh_new e : engine_new = Ok e → fresh [] e
  | fresh_load codes e code t e' :
      fresh codes e → runs (rt_load json_parse host Engine eval_unit e code) t (e', Ok ()) → fresh (codes ++ [code]) e'.
Inductive serves : list string → Engine → Prop :=
  | serves_fresh codes e : fresh codes e → serves codes e
  | serves_count codes e event c t e' r :
      serves codes e → runs (rt_registered json_parse host Engine eval_count e event c) t (e', r) → serves codes e'
  | serves_dispatch codes e event c payload hc t e' r :
      serves codes e → runs (rt_dispatch json_parse host Engine eval_text e event c payload hc) t (e', r) → serves codes e'.

Lemma mapM_cons_Some {A B} (f : A → option B) x l y k : f x = Some y → mapM f l = Some k → mapM f (x :: l) = Some (y :: k).
Proof. intros E1 E2. cbn. by rewrite E1, E2. Qed.

(** The signature of a directory, files that are not text aside. *)
Definition signatures (files : list DirEntry) : option (list FileSignature) :=
  mapM (λ d, source ← read_source d; Some (signature_of hash_of d source)) files.

Lemma load_files_spec e files codes t e' r :
  fresh codes e → runs (files_loaded e files) t (e', r) →
  match r with
  | inl signature => signatures files = Some signature ∧ ∃ new, mapM script_of files = Some new ∧ fresh (codes ++ new) e'
  | inr _ => True
  end.
Proof.
  revert e codes t e' r. induction files as [|d files IH]; intros e codes t e' r F R; cbn [load_files] in R.
  { destruct R as [_ [= -> ->]]. split; [done|]. exists []. by rewrite app_nil_r. }
  destruct (read_source d) as [source|] eqn:Rs; [|by destruct R as [_ [= -> ->]]].
  destruct (code_of strip_types d source) as [code|] eqn:Co; [|by destruct R as [_ [= -> ->]]].
  apply runs_bind in R as (t1 & [e1 [[]|err]] & t2 & -> & R1 & R); [|by destruct R as [_ [= -> ->]]].
  apply runs_bind in R as (t3 & [e2 r2] & t4 & -> & R2 & R). destruct R as [_ [= -> ->]].
  assert (F1 : fresh (codes ++ [code]) e1) by by eapply fresh_load.
  pose proof (IH _ _ _ _ _ F1 R2) as X. destruct r2 as [signature|]; [|done]. destruct X as [X1 (new & X2 & X3)].
  split; [unfold signatures; apply mapM_cons_Some; [by rewrite Rs|exact X1]|]. exists (code :: new). split.
  - apply mapM_cons_Some; [|done]. unfold script_of. by rewrite Rs; cbn; rewrite Co.
  - by rewrite <- app_assoc in X3.
Qed.

Lemma count_hooks_serves codes e wanted t e' n :
  serves codes e → runs (count_hooks json_parse host Engine eval_count e wanted) t (e', n) → serves codes e'.
Proof.
  revert e t e' n. induction wanted as [|[event c] wanted IH]; intros e t e' n S R; cbn [count_hooks] in R.
  { by destruct R as [_ [= -> _]]. }
  apply runs_bind in R as (t1 & [e1 r1] & t2 & -> & R1 & R). apply runs_bind in R as (t3 & [e2 m] & t4 & -> & R2 & R).
  destruct R as [_ [= -> _]]. eapply IH; [|exact R2]. by eapply serves_count.
Qed.

(** What a load leaves: everything as it was and the error, or a whole set of
    files. *)
Lemma load_hooks_spec dir l t l' report :
  runs (hooks_loaded dir l) t (l', report) →
  match rp_error report with
  | Some err => hl_runtime _ l' = hl_runtime _ l ∧ hl_signature _ l' = hl_signature _ l ∧ hl_last_error _ l' = Some err ∧ discover dir ≠ []
  | None => hl_last_error _ l' = None
      ∧ if decide (discover dir = []) then hl_runtime _ l' = None ∧ hl_signature _ l' = []
        else ∃ e codes, hl_runtime _ l' = Some e ∧ scripts dir = Some codes ∧ serves codes e
                        ∧ signatures (discover dir) = Some (hl_signature _ l')
  end.
Proof.
  unfold load_hooks. case_decide as D; [by intros [_ [= -> ->]]|]. destruct engine_new as [e|err] eqn:En; [|by intros [_ [= -> ->]]].
  intros R. apply runs_bind in R as (t1 & [e1 [signature|err]] & t2 & -> & R1 & R); [|by destruct R as [_ [= -> ->]]].
  apply runs_bind in R as (t3 & [e2 n] & t4 & -> & R2 & R). destruct R as [_ [= -> ->]]. cbn. split; [done|].
  destruct (load_files_spec _ _ [] _ _ _ (fresh_new _ En) R1) as [S (codes & C & F)].
  exists e2, codes. split_and!; [done|exact C| |exact S]. eapply count_hooks_serves; [|exact R2]. by apply serves_fresh.
Qed.

(** The loaders a worker may hold. *)
Definition loader_ok (l : HookLoader Engine) : Prop :=
  match hl_runtime _ l with
  | Some e => ∃ dir codes, scripts dir = Some codes ∧ discover dir ≠ [] ∧ serves codes e
                           ∧ signatures (discover dir) = Some (hl_signature _ l)
  | None => hl_signature _ l = []
  end.

Lemma load_hooks_ok dir l t l' report : loader_ok l → runs (hooks_loaded dir l) t (l', report) → loader_ok l'.
Proof.
  intros L R. apply load_hooks_spec in R. destruct (rp_error report).
  - destruct R as (E1 & E2 & _ & _). unfold loader_ok. by rewrite E1, E2.
  - destruct R as [_ R]. unfold loader_ok. case_decide as D.
    + by destruct R as [-> ->].
    + destruct R as (e & codes & -> & C & S & Sg). by exists dir, codes.
Qed.

Lemma dispatch_ok l event c payload hc t l' r :
  loader_ok l → runs (loader_dispatch json_parse host Engine eval_text l event c payload hc) t (l', r) →
  loader_ok l' ∧ is_active _ l' = is_active _ l ∧ hl_signature _ l' = hl_signature _ l ∧ hl_last_error _ l' = hl_last_error _ l
  ∧ ∀ codes, (∃ e, hl_runtime _ l = Some e ∧ serves codes e) → ∃ e, hl_runtime _ l' = Some e ∧ serves codes e.
Proof.
  unfold loader_dispatch. intros L R. destruct (hl_runtime Engine l) as [e|] eqn:Rt.
  - apply runs_bind in R as (t1 & [e1 r1] & t2 & -> & R1 & R). destruct R as [_ [= -> ->]]. cbn. split_and!; try done.
    + unfold loader_ok in *. cbn. rewrite Rt in L. destruct L as (dir & codes & C & D & S & Sg). exists dir, codes.
      split_and!; [done..| |done]. by eapply serves_dispatch.
    + unfold is_active. rewrite Rt. by rewrite !bool_decide_eq_true_2 by by eexists.
    + intros codes (e2 & [= <-] & S). exists e1. split; [done|]. by eapply serves_dispatch.
  - destruct R as [_ [= -> _]]. split_and!; try done. by intros codes (e & ? & _).
Qed.

(** ** The worker *)

Local Abbreviation started := (service_start json_parse host Engine engine_new eval_unit eval_count strip_types hash_of).
Local Abbreviation dispatched := (worker_dispatch json_parse host Engine engine_new eval_unit eval_count eval_text strip_types hash_of).
Local Abbreviation before_hook := (before_ctx json_parse host Engine engine_new eval_unit eval_count eval_text strip_types hash_of).
Local Abbreviation after_hook := (after_ctx json_parse host Engine engine_new eval_unit eval_count eval_text strip_types hash_of).
Local Abbreviation reload := (worker_reload json_parse host Engine engine_new eval_unit eval_count strip_types hash_of).

Inductive served : Service Engine → Service Engine → Prop :=
  | served_before s w hc event c record t s' r : runs (before_hook s w hc event c record) t (s', r) → served s s'
  | served_after s w hc event c record t s' r : runs (after_hook s w hc event c record) t (s', r) → served s s'
  | served_reload s dir t s' r : runs (reload s dir) t (s', r) → served s s'.

Definition service_ok (s : Service Engine) : Prop :=
  loader_ok (sv_loader _ s) ∧ sv_active _ s = is_active _ (sv_loader _ s).
Definition serving (l : HookLoader Engine) (codes : list string) : Prop := ∃ e, hl_runtime _ l = Some e ∧ serves codes e.

Lemma signatures_current dir signature : signatures (discover dir) = Some signature → current dir = signature.
Proof.
  unfold current_signature, signatures. generalize (discover dir). clear. intros files. revert signature.
  induction files as [|d files IH]; intros signature; cbn; [by intros [= <-]|].
  unfold read_source. destruct (d_bytes d) as [bytes|]; [|done]. cbn. case_decide; [|done]. cbn.
  destruct (mapM _ files) as [l|] eqn:M; [|done]. cbn. intros [= <-]. f_equal. by apply IH.
Qed.

(** What a check on a directory that stands still leaves. *)
Definition converged (dir : list DirEntry) (l l' : HookLoader Engine) : Prop :=
  if decide (discover dir = []) then hl_runtime _ l' = None
  else (∃ dir' codes, current dir' = current dir ∧ scripts dir' = Some codes ∧ serving l' codes)
       ∨ (∃ err, hl_last_error _ l' = Some err ∧ ∀ codes, serving l codes → serving l' codes).

Lemma signatures_nil files : signatures files = Some [] → files = [].
Proof. unfold signatures. intros M%mapM_Some_1. by apply Forall2_nil_inv_r in M. Qed.

Lemma reload_converges dir l t l' r :
  loader_ok l → is_active _ l = true → runs (reloaded dir dir l) t (l', r) → converged dir l l'.
Proof.
  intros L A. unfold reload_if_changed, converged. case_decide as Cs.
  - intros [_ [= -> _]]. unfold loader_ok in L. apply bool_decide_eq_true in A as [e Rt]. rewrite Rt in L.
    destruct L as (dir0 & codes & C & D & S & Sg). case_decide as D0.
    + exfalso. apply D. apply signatures_nil. rewrite Sg. rewrite <- Cs. unfold current_signature. by rewrite D0.
    + left. exists dir0, codes. split_and!; [by apply signatures_current in Sg as ->|done|by exists e].
  - intros R. apply runs_bind in R as (t1 & [l1 report] & t2 & -> & R1 & R). destruct R as [_ [= -> _]].
    apply load_hooks_spec in R1. destruct (rp_error report) as [err|].
    + destruct R1 as (E1 & E2 & E3 & D). rewrite decide_False by done. right. exists err. split; [done|].
      intros codes (e & E & S). exists e. by rewrite E1.
    + destruct R1 as [_ R1]. case_decide as D; [by destruct R1|]. destruct R1 as (e & codes & E & C & S & _).
      left. exists dir, codes. split_and!; [done..|]. by exists e.
Qed.

Lemma worker_dispatch_ok s w event c payload hc t s' r :
  service_ok s → runs (dispatched s w event c payload hc) t (s', r) →
  service_ok s' ∧ (sv_active _ s = true → (RELOAD_INTERVAL ≤ at_ w - sv_last_check _ s)%Z → checked w = loaded_ w →
                   converged (checked w) (sv_loader _ s) (sv_loader _ s')).
Proof.
  intros [L A] R. unfold worker_dispatch in R. apply runs_bind in R as (t1 & s1 & t2 & -> & R1 & R).
  apply runs_bind in R as (t3 & [l1 r1] & t4 & -> & R2 & R). destruct R as [_ [= -> _]]. cbn [sv_loader sv_active].
  assert (K : service_ok s1 ∧ (sv_active _ s = true → (RELOAD_INTERVAL ≤ at_ w - sv_last_check _ s)%Z → checked w = loaded_ w →
                               converged (checked w) (sv_loader _ s) (sv_loader _ s1))).
  { case_decide as Due; [|destruct R1 as [_ ->]; split; [done|lia]].
    apply runs_bind in R1 as (t5 & [l2 r2] & t6 & -> & R1 & X). destruct X as [_ ->]. cbn. split.
    - unfold reload_if_changed in R1. case_decide; [by destruct R1 as [_ [= -> ->]]|].
      apply runs_bind in R1 as (t7 & [l3 r3] & t8 & -> & R1 & X). destruct X as [_ [= -> ->]].
      split; [by eapply load_hooks_ok|done].
    - intros Ac _ W. rewrite <- W in R1. rewrite A in Ac. by eapply reload_converges. }
  destruct K as [[L1 A1] K]. pose proof (dispatch_ok _ _ _ _ _ _ _ _ L1 R2) as (L2 & A2 & S2 & E2 & P2).
  split; [split; [done|cbn; congruence]|]. intros Ac Due W. specialize (K Ac Due W). unfold converged in *. case_decide.
  - cbn. unfold loader_dispatch in R2. rewrite K in R2. by destruct R2 as [_ [= -> _]].
  - destruct K as [(dir' & codes & C1 & C2 & C3)|(err & E & K)]; [left; exists dir', codes; split_and!; [done..|by apply P2]|].
    right. exists err. split; [by rewrite E2|]. intros codes Sv. by apply P2, K.
Qed.

Lemma before_hook_runs s w hc event c record t s' r :
  runs (before_hook s w hc event c record) t (s', r) →
  s' = s ∧ sv_active _ s = false
  ∨ sv_active _ s = true ∧ ∃ t' r', runs (dispatched s w (runtime_event event true) c (hook_payload event c record) hc) t' (s', r').
Proof.
  unfold before_ctx. destruct (sv_active Engine s); [|by intros [_ [= -> _]]; left]. intros R. right. split; [done|].
  apply runs_bind in R as (t1 & [s1 r1] & t2 & -> & R1 & R). destruct R as [_ [= -> _]]. by eexists _, _.
Qed.

Lemma served_ok s s' : service_ok s → served s s' → service_ok s'.
Proof.
  intros S X. revert S. destruct X as [s1 w hc event c record t s2 r R|s1 w hc event c record t s2 r R|s1 dir t s2 r R]; intros S.
  - apply before_hook_runs in R as [[-> _]|(_ & t' & r' & R)]; [done|]. by eapply worker_dispatch_ok.
  - unfold after_ctx in R. destruct (sv_active Engine s1); [|by destruct R as [_ [= -> _]]].
    apply runs_bind in R as (t1 & [s3 r1] & t2 & -> & R1 & R). destruct R as [_ [= -> _]]. by eapply worker_dispatch_ok.
  - unfold worker_reload in R. apply runs_bind in R as (t1 & [l1 r1] & t2 & -> & R1 & R). destruct R as [_ [= -> _]].
    split; [|done]. destruct S as [L _]. by eapply load_hooks_ok.
Qed.

Lemma started_ok now dir t s : runs (started now dir) t s → service_ok s.
Proof.
  unfold service_start. intros R. apply runs_bind in R as (t1 & [l r] & t2 & -> & R & X). destruct X as [_ ->]. split; [|done].
  by eapply load_hooks_ok; [|exact R].
Qed.

(** Hot reload keeps the last known good hooks. In whatever the worker
    reaches, what serves has run all the files of one directory, each read,
    stripped and run without an error, and nothing since but dispatches; when a
    hook then runs at a time to look for edits and the directory stands still,
    it leaves serving the files of that directory (up to a collision of their
    hashes), or nothing when there are none, unless they do not load: then what
    served keeps serving and the error is kept. *)
Theorem hooks_last_known_good now dir0 t0 s0 s :
  runs (started now dir0) t0 s0 → rtc served s0 s →
  match hl_runtime _ (sv_loader _ s) with
  | Some e => sv_active _ s = true ∧ ∃ dir codes, scripts dir = Some codes ∧ serves codes e
  | None => sv_active _ s = false
  end
  ∧ ∀ w hc event c record t s' r,
      sv_active _ s = true → (RELOAD_INTERVAL ≤ at_ w - sv_last_check _ s)%Z → checked w = loaded_ w →
      runs (before_hook s w hc event c record) t (s', r) → converged (checked w) (sv_loader _ s) (sv_loader _ s').
Proof.
  intros St Re. assert (S : service_ok s).
  { apply started_ok in St. induction Re as [|s1 s2 s3 X _ IH]; [done|]. by eapply IH, served_ok. }
  split.
  - destruct S as [L A]. unfold loader_ok, is_active in *. destruct (hl_runtime Engine (sv_loader Engine s)) as [e|].
    + destruct L as (dir & codes & C & _ & Sv & _). split; [|by exists dir, codes]. rewrite A. by apply bool_decide_eq_true_2; eexists.
    + rewrite A. by apply bool_decide_eq_false_2; intros [].
  - intros w hc event c record t s' r Ac Due W R. apply before_hook_runs in R as [[_ X]|(_ & t' & r' & R)]; [by rewrite X in Ac|].
    by eapply worker_dispatch_ok.
Qed.

(** Where nothing serves, nothing is looked for: whatever files appear, a write
    leaves the worker as it is. *)
Lemma inactive_looks_for_nothing s w hc event c record :
  sv_active _ s = false →
  before_hook s w hc event c record = Ret (s, Ok record) ∧ after_hook s w hc event c record = Ret (s, Ok ()).
Proof. unfold before_ctx, after_ctx. by intros ->. Qed.
End serving.

(** * On concrete hooks *)

#[local] Existing Instance Samples.sample_json_text.
Definition no_templates : Templates := {| entries := (∅ : Entries) |}.

(** An engine that keeps the scripts it ran and fails on one of them, and whose
    dispatches delete a record. *)
Definition keeping (e : list string) (code : string) : Js (list string * result unit) :=
  if decide (code = "syntax error") then JsDone (e, Err Invalid) else JsDone (e ++ [code], Ok ()).
Definition counting (e : list string) (_ : string) : Js (list string * result Z) := JsDone (e, Ok 1%Z).
Definition deleting (e : list string) (_ : string) : Js (list string * result string) :=
  JsApp "delete x" (λ _, JsDone (e, Ok "{}")).
Definition parsed (s : string) : option Value :=
  if decide (s = "delete x") then
    Some (JObject [("collection", JString "posts"); ("id", JString "x"); ("op", JString "delete")])
  else Some (JObject []).
Definition no_strip (source path : string) : result string := Ok source.
Definition weigh (s : string) : Z := Z.of_nat (String.length s).

Definition hook_file (source : string) : list DirEntry :=
  [{| d_path := "hooks/a.pb.js"; d_is_file := true; d_bytes := Some source |}].
Definition serving_one : Service (list string) :=
  {| sv_loader := {| hl_runtime := Some ["one"]; hl_signature := [{| fs_path := "hooks/a.pb.js"; fs_hash := 3 |}]; hl_last_error := None |};
     sv_active := true; sv_last_check := 0 |}.

Lemma hook_acts_as_its_caller_witness :
  let hc := hook_context "comments" anonymous_principal AWrite in
  let host := Some (host_run plain_hash (λ _ _, true) schema_sample no_templates) in
  let w := {| at_ := 10; checked := []; loaded_ := [] |} in
  let t := [Ev OClient (Ok tt); Ev OBegin (DbOk tt); Ev (OContext (request_context anonymous_principal ADelete)) (DbOk tt);
            Ev (OExecute (delete_statement "posts") [text_param "x"]) (DbOk 0%Z); Ev OCommit (DbOk tt)] in
  runs (@before_ctx _ parsed host _ (Ok []) keeping counting deleting no_strip weigh serving_one w hc HookCreate "comments" JNull)
    t (serving_one, Ok JNull)
  ∧ acting (take 3 t) = Some (request_context anonymous_principal ADelete).
Proof.
  intros hc host w t.
  assert (R : runs (@before_ctx _ parsed host _ (Ok []) keeping counting deleting no_strip weigh serving_one w hc HookCreate "comments" JNull)
                t (serving_one, Ok JNull)).
  { vm_compute. repeat (do 2 eexists; split; [reflexivity|]). done. }
  split; [exact R|].
  exact (proj1 (proj1 (@hook_acts_as_its_caller _ parsed plain_hash (λ _ _, true) schema_sample no_templates _ (Ok [])
           keeping counting deleting no_strip weigh anonymous_principal AWrite "comments" HookCreate JNull serving_one w t) _ R)
           (take 3 t) (drop 4 t) _ _ _ eq_refl).
Defined.

Lemma hooks_last_known_good_witness :
  let w := {| at_ := 1000; checked := hook_file "syntax error"; loaded_ := hook_file "syntax error" |} in
  let s' := {| sv_loader := {| hl_runtime := Some ["one"]; hl_signature := hl_signature _ (sv_loader _ serving_one);
                               hl_last_error := Some (ScriptError Invalid) |}; sv_active := true; sv_last_check := 1000 |} in
  runs (@service_start _ parsed None _ (Ok []) keeping counting no_strip weigh 0 (hook_file "one")) [] serving_one
  ∧ runs (@before_ctx _ parsed None _ (Ok []) keeping counting deleting no_strip weigh serving_one w
            (hook_anonymous "posts") HookCreate "posts" JNull) [] (s', Ok JNull)
  ∧ @converged _ parsed None _ (Ok []) keeping counting deleting no_strip weigh (hook_file "syntax error")
      (sv_loader _ serving_one) (sv_loader _ s').
Proof.
  intros w s'.
  assert (R1 : runs (@service_start _ parsed None _ (Ok []) keeping counting no_strip weigh 0 (hook_file "one")) [] serving_one)
    by (vm_compute; done).
  assert (R2 : runs (@before_ctx _ parsed None _ (Ok []) keeping counting deleting no_strip weigh serving_one w
            (hook_anonymous "posts") HookCreate "posts" JNull) [] (s', Ok JNull)) by (vm_compute; done).
  split_and!; [exact R1|exact R2|].
  refine (proj2 (@hooks_last_known_good _ parsed None _ (Ok []) keeping counting deleting no_strip weigh 0 (hook_file "one") []
    serving_one serving_one R1 (rtc_refl _ _)) w _ _ _ _ _ _ _ _ _ _ R2); [reflexivity|vm_compute; done|reflexivity].
Defined.

(** The rule against writing to the collection whose hook runs compares names;
    the host finds a collection by its id as well. *)
Example id_escapes_the_rule :
  let hc := hook_context "posts" anonymous_principal AWrite in
  let id := collection_id Samples.sample_posts in
  let host := host_run plain_hash (λ _ _, true) schema_sample no_templates in
  app_call (Some host) hc (AppDelete "posts" "x") = refuse Invalid
  ∧ app_call (Some host) hc (AppDelete id "x") = host hc (AppDelete id "x")
  ∧ schema_get schema_sample id = schema_get schema_sample "posts".
Proof. repeat split. Qed.
