(* ===== verification/Collections.v ===== *)
(** The collections and their tables, [crates/db/src/collections.rs], the
    realtime switch, [crates/db/src/realtime.rs], and the mapping of columns of
    [crates/db/src/reflect.rs]: which statements a change of the schema is.

    An operation is a program over the client ([Effects]); a transaction that is
    dropped before its commit leaves no event. Times are not modelled. *)
From Stdlib Require Import SpecFloat.
From stdpp Require Import sorting.
From S2P Require Import Prelude CoreError F64 Json Types Ddl Compile Samples Projection Rls ViewBuilder Indexes Effects.

Local Set Warnings "-register-all,-clear-no-such-hyp".

(** * Reflection's mapping of a column *)

(** [reflect::Column]. *)
Record Column := {
  col_table : string;
  col_name : string;
  data_type : string;
  type_oid : Z;
  not_null : bool;
  is_primary : bool;
  col_unique : bool;
  col_position : Z;
  col_default : option string;
}.

Definition TEXT_TYPES : list string := ["text"; "varchar"; "bpchar"; "citext"; "name"; "uuid"].
Definition NUMBER_TYPES : list string := ["int2"; "int4"; "int8"; "float4"; "float8"; "numeric"; "money"].
Definition DATE_TYPES : list string := ["timestamptz"; "timestamp"; "date"; "time"; "timetz"].

(** [map_column]. *)
Definition is_clock (c : Column) : bool :=
  bool_decide (col_name c ∈ ["created_at"; "updated_at"])
  && match col_default c with Some d => contains_text "now()" d | None => false end.
Definition map_column (c : Column) (enum_labels : option (list string)) : FieldType * Value :=
  match enum_labels with
  | Some labels => (FSelect, JObject [("maxSelect", JNumber (PosInt 1)); ("values", JArray (JString <$> labels))])
  | None =>
      match strip_prefix "_" (data_type c) with
      | Some element => (FJson, JObject [("element", JString element); ("reflectedType", JString (data_type c))])
      | None =>
          if is_clock c then (FAutodate, JObject [])
          else if decide (data_type c ∈ TEXT_TYPES) then (FText, JObject [])
          else if decide (data_type c ∈ NUMBER_TYPES) then (FNumber, JObject [])
          else if decide (data_type c = "bool") then (FBool, JObject [])
          else if decide (data_type c ∈ DATE_TYPES) then (FDate, JObject [])
          else if decide (data_type c ∈ ["json"; "jsonb"]) then (FJson, JObject [])
          else (FText, JObject [("reflectedType", JString (data_type c))])
      end
  end.

(** * What the callers send *)

(** [struct CreateField], [CreateCollection] and [UpdateCollection]. *)
Record CreateField := {
  nf_name : string;
  nf_type : FieldType;
  nf_required : bool;
  nf_unique : bool;
  nf_options : Value;
}.
Record CreateCollection := {
  nc_name : string;
  nc_type : CollectionType;
  nc_fields : list CreateField;
  nc_rules : Value;
  nc_options : Value;
  adopt_existing_table : bool;
}.
Record UpdateCollection := {
  up_rules : option Value;
  up_options : option Value;
  up_fields : option (list CreateField);
  delete_missing_fields : bool;
}.

(** * The rows, and how they are read *)

(** The columns the queries of [list] select. *)
Record CollectionRow := {
  cr_id : string; cr_name : string; cr_type : string; cr_options : Value; cr_rules : Value;
}.
Record FieldRow := {
  fr_id : string; fr_collection_id : string; fr_name : string; fr_type : string;
  fr_required : bool; fr_is_unique : bool; fr_options : Value; fr_position : Z;
}.
Record ViewColumn := { vc_view : string; vc_name : string; vc_type : string; vc_position : Z }.

Definition COLLECTIONS_SQL : string :=
  "select id, name, type, options, rules, created, updated from _collections order by name".
Definition FIELDS_SQL : string :=
  "select id, collection_id, name, type, required, is_unique, options, position from _fields order by collection_id, position, name".
Definition VIEWS_SQL : string :=
  "select c.relname as view_name, a.attname as name, t.typname as data_type, a.attnum::int as position from pg_attribute a join pg_class c on c.oid = a.attrelid join pg_type t on t.oid = a.atttypid join pg_namespace n on n.oid = c.relnamespace where c.relkind = 'v' and n.nspname = current_schema() and a.attnum > 0 and not a.attisdropped order by c.relname, a.attnum".
Definition VIEW_SQL : string :=
  "select a.attname as name, t.typname as data_type, a.attnum::int as position from pg_attribute a join pg_class c on c.oid = a.attrelid join pg_type t on t.oid = a.atttypid join pg_namespace n on n.oid = c.relnamespace where c.relkind = 'v' and n.nspname = current_schema() and c.relname = $1 and a.attnum > 0 and not a.attisdropped order by a.attnum".

(** [query_one]: exactly one row. *)
Definition query_one (A : Type) (sql : string) (params : Params) : W A :=
  db (ORows A sql params) ≫= λ rows, match rows with [a] => give a | _ => refuse Internal end.

(** [batch_execute], with the error its failure is mapped to. *)
Definition batch (sql : string) (e : Error) : W unit :=
  Do (OBatch sql) (λ r, match r with DbOk _ => give tt | DbErr _ => refuse e end).

Definition collection_of (r : CollectionRow) : result Collection :=
  t ← collection_type_parse (cr_type r);
  Ok {| collection_id := cr_id r; collection_name := cr_name r; collection_type := t;
        collection_options := cr_options r; rules := cr_rules r; fields := [] |}.
Definition with_fields (c : Collection) (fs : list Field) : Collection :=
  {| collection_id := collection_id c; collection_name := collection_name c; collection_type := collection_type c;
     collection_options := collection_options c; rules := rules c; fields := fs |}.

(** The row of [index] a field belongs to: the last collection with the id. *)
Definition position_of (id : string) (cs : list Collection) : option nat :=
  last (fst <$> filter (λ p, collection_id p.2 = id) (imap pair cs)).
Definition add_field_row (cs : list Collection) (r : FieldRow) : result (list Collection) :=
  i ← ok_or (position_of (fr_collection_id r) cs) Internal;
  t ← field_type_parse (fr_type r);
  let f := {| field_id := fr_id r; field_collection_id := fr_collection_id r; field_name := fr_name r; field_type := t;
              required := fr_required r; is_unique := fr_is_unique r; field_options := fr_options r; position := fr_position r |} in
  Ok (alter (λ c, with_fields c (fields c ++ [f])) i cs).

(** [view_field]. *)
Definition view_field (view collection_id name data_type : string) (position : Z) : W Field :=
  let column := {| col_table := view; col_name := name; data_type := data_type; type_oid := 0; not_null := false;
                   is_primary := bool_decide (name = "id"); col_unique := false; col_position := position; col_default := None |} in
  let '(t, options) := map_column column None in
  call ONewId ≫= λ id,
  give {| field_id := id; field_collection_id := collection_id; field_name := name; field_type := t; required := false;
          is_unique := false; field_options := options; position := position |}.

(** [load_view_fields]. *)
Fixpoint view_columns (rows : list ViewColumn) : W (list (string * Field)) :=
  match rows with
  | [] => give []
  | r :: rows =>
      view_field (vc_view r) "" (vc_name r) (vc_type r) (vc_position r) ≫= λ f,
      view_columns rows ≫= λ fs, give ((vc_view r, f) :: fs)
  end.
Definition own_field (c : Collection) (f : Field) : Field :=
  {| field_id := field_id f; field_collection_id := collection_id c; field_name := field_name f; field_type := field_type f;
     required := required f; is_unique := is_unique f; field_options := field_options f; position := position f |}.
(** [by_view.remove]: the first view of a name takes its columns. *)
Fixpoint fill_views (by_view : list (string * Field)) (cs : list Collection) : list Collection :=
  match cs with
  | [] => []
  | c :: cs =>
      if decide (collection_type c = CView) then
        match filter (λ p, p.1 = collection_name c) by_view with
        | [] => c :: fill_views by_view cs
        | fs => with_fields c (own_field c ∘ snd <$> fs) :: fill_views (filter (λ p, p.1 ≠ collection_name c) by_view) cs
        end
      else c :: fill_views by_view cs
  end.
Definition load_view_fields (cs : list Collection) : W (list Collection) :=
  if existsb (λ c, bool_decide (collection_type c = CView)) cs then
    db (ORows ViewColumn VIEWS_SQL []) ≫= λ rows,
    view_columns rows ≫= λ by_view, give (fill_views by_view cs)
  else give cs.

(** [list], [find] and [get]. *)
Definition list_collections : W (list Collection) :=
  db (ORows CollectionRow COLLECTIONS_SQL []) ≫= λ rows,
  lift (try_map collection_of rows) ≫= λ cs,
  db (ORows FieldRow FIELDS_SQL []) ≫= λ field_rows,
  lift (try_fold add_field_row cs field_rows) ≫= λ cs,
  load_view_fields cs.
Definition find_collection (name_or_id : string) : W (option Collection) :=
  list_collections ≫= λ cs,
  give (head (filter (λ c, collection_id c = name_or_id ∨ collection_name c = name_or_id) cs)).
Definition get_collection (name_or_id : string) : W Collection :=
  find_collection name_or_id ≫= λ c, lift (ok_or c NotFound).

(** [load_table_names] and [table_exists]. *)
Definition load_table_names : W (list (string * string)) := db (ORows (string * string) "select id, name from _collections" []).
Definition table_exists (name : string) : W bool :=
  query_one bool "select to_regclass($1) is not null" [PText (Some (quote_ident name))].

(** [view_fields]. *)
Fixpoint view_fields_of (view id : string) (rows : list (string * string * Z)) : W (list Field) :=
  match rows with
  | [] => give []
  | (name, ty, pos) :: rows =>
      view_field view id name ty pos ≫= λ f, view_fields_of view id rows ≫= λ fs, give (f :: fs)
  end.
Definition view_fields (view id : string) : W (list Field) :=
  db (ORows (string * string * Z) VIEW_SQL [PText (Some view)]) ≫= λ rows, view_fields_of view id rows.

(** * The statements of a change *)

Definition SCHEMA_CHANGED_CHANNEL : string := "lazypock_schema_changed".
Definition NOTIFY_SQL : string := "select pg_notify($1, $2)".
(** [notify_schema_changed]. *)
Definition notify_schema_changed : W Z := db (OExecute NOTIFY_SQL [PText (Some SCHEMA_CHANGED_CHANNEL); PText (Some "")]).

Definition INSERT_COLLECTION_SQL : string :=
  "insert into _collections (id, name, type, options, rules) values ($1, $2, $3, $4, $5) returning created, updated".
Definition insert_collection (c : Collection) : W unit :=
  query_one unit INSERT_COLLECTION_SQL
    [PText (Some (collection_id c)); PText (Some (collection_name c)); PText (Some (collection_type_as_str (collection_type c)));
     PJson (collection_options c); PJson (rules c)].

Definition INSERT_FIELD_SQL : string :=
  "insert into _fields (id, collection_id, name, type, required, is_unique, options, position) values ($1, $2, $3, $4, $5, $6, $7, $8)".
Definition field_params (f : Field) : Params :=
  [PText (Some (field_id f)); PText (Some (field_collection_id f)); PText (Some (field_name f));
   PText (Some (field_type_as_str (field_type f))); PBool (required f); PBool (is_unique f); PJson (field_options f); PNumber (position f)].
(** [insert_field]. *)
Definition insert_field (f : Field) : W Z := db (OExecute INSERT_FIELD_SQL (field_params f)).

Definition UPDATE_COLLECTION_SQL : string :=
  "update _collections set rules = $2, options = $3, updated = now() where id = $1".
Definition UPDATE_FIELD_SQL : string :=
  "update _fields set required = $2, is_unique = $3, options = $4, updated = now() where id = $1".
Definition DELETE_FIELD_SQL : string := "delete from _fields where id = $1".
Definition DELETE_COLLECTION_SQL : string := "delete from _collections where id = $1".
Definition POSITION_SQL : string := "update _fields set position = $3 where collection_id = $1 and name = $2".

(** Every change runs in a transaction of its own that ends with the
    notification and the commit. *)
Definition transaction {A} (body : W A) : W A :=
  db OBegin ≫= λ _, body ≫= λ a, notify_schema_changed ≫= λ _, db OCommit ≫= λ _, give a.
Definition separator : string := ";" +:+ newline.

(** [Field::default_value], and the default a definition asks for. *)
Definition declared_default (options : Value) : option Value :=
  match get options "default" with Some v => if is_null v then None else Some v | None => None end.
Definition field_default_value (f : Field) : option Value :=
  if decide (get (field_options f) "reflected" ≫= as_bool = Some true) then None else declared_default (field_options f).

(** [PartialEq] of JSON values. *)
Definition number_eqb (m n : Number) : bool :=
  match m, n with
  | PosInt a, PosInt b | NegInt a, NegInt b => Z.eqb a b
  | Float a, Float b => SFeqb a b
  | _, _ => false
  end.
Fixpoint value_eqb (a b : Value) : bool :=
  match a, b with
  | JNull, JNull => true
  | JBool x, JBool y => Bool.eqb x y
  | JNumber m, JNumber n => number_eqb m n
  | JString s, JString t => bool_decide (s = t)
  | JArray l, JArray m =>
      (fix go l m := match l, m with
                     | [], [] => true
                     | x :: l, y :: m => value_eqb x y && go l m
                     | _, _ => false
                     end) l m
  | JObject l, JObject m =>
      (fix go l m := match l, m with
                     | [], [] => true
                     | (k, x) :: l, (j, y) :: m => bool_decide (k = j) && value_eqb x y && go l m
                     | _, _ => false
                     end) l m
  | _, _ => false
  end.
Definition option_value_eqb (a b : option Value) : bool :=
  match a, b with Some a, Some b => value_eqb a b | None, None => true | _, _ => false end.

(** * The realtime switch *)

(** [is_published], [enabled_from_setting], [global_enabled], [statements_for], [apply]. *)
Definition is_published (c : Collection) (globally_enabled : bool) : bool := globally_enabled && realtime_enabled c.
Definition enabled_from_setting (v : Value) : bool :=
  match v with
  | JBool enabled => enabled
  | JObject _ => default true (get v "enabled" ≫= as_bool)
  | _ => true
  end.
Definition global_enabled : W bool :=
  db (ORows Value "select value from _settings where key = $1" [PText (Some "realtime")]) ≫= λ rows,
  give (match rows with v :: _ => enabled_from_setting v | [] => true end).
Definition realtime_statements (c : Collection) (globally_enabled : bool) : result (list string) :=
  if decide (collection_type c = CView) then Ok []
  else realtime_trigger_statements (collection_name c) (is_published c globally_enabled).
Definition apply_realtime (c : Collection) (globally_enabled : bool) : W unit :=
  lift (realtime_statements c globally_enabled) ≫= λ statements,
  match statements with
  | [] => give tt
  | _ => batch (join separator statements) Invalid
  end.

(** [apply_global]. *)
Fixpoint apply_switch (enabled : bool) (rows : list (string * string * Value)) : W unit :=
  match rows with
  | [] => give tt
  | (name, type_, options) :: rows =>
      lift (collection_type_parse type_) ≫= λ t,
      (if decide (t = CView) then give tt
       else
         lift (realtime_trigger_statements name (enabled && default true (get options REALTIME_OPTION ≫= as_bool))) ≫= λ statements,
         batch (join separator statements) Invalid) ≫= λ _,
      apply_switch enabled rows
  end.
Definition apply_global (enabled : bool) : W unit :=
  db (ORows (string * string * Value) "select name, type, options from _collections order by name" []) ≫= apply_switch enabled.

(** [prune_log]: [days] as an [i32]. *)
Definition PRUNE_SQL : string := "delete from _rt_log where created < now() - make_interval(days => $1::int)".
Definition to_i32 (days : Z) : Z := if (days <? 2 ^ 31)%Z then days else (2 ^ 31 - 1)%Z.
Definition prune_log (days : Z) : W Z :=
  if (days <=? 0)%Z then give 0%Z else db (OExecute PRUNE_SQL [PNumber (to_i32 days)]).

(** [rls::policies::apply]. *)
Definition apply_policies (c : Collection) (ctx : FilterContext) : W unit :=
  lift (statements c ctx) ≫= λ statements, batch (join separator statements) Invalid.

(** * Views *)

Definition text_of_option (options : Value) (key : string) : string := default "" (get options key ≫= as_str).

(** [view_options]. *)
Definition view_options (options : Value) (all : list Collection) : result Value :=
  let normalized := default [] (as_object options) in
  _ ← match assoc "indexes" normalized ≫= as_array with
      | Some (_ :: _) => Err Unsupported
      | _ => Ok ()
      end;
  match assoc "view_builder" normalized with
  | Some JNull | None =>
      query ← ok_or (q ← (v ← assoc "view_query" normalized; as_str v); if decide (trim q = "") then None else Some (trim q)) Invalid;
      let normalized := btree_insert "view_query" (JString query) normalized in
      Ok (JObject (match assoc "view_origin" normalized with
                   | Some _ => normalized
                   | None => btree_insert "view_origin" (JString "sql") normalized
                   end))
  | Some spec =>
      query ← to_query spec all;
      Ok (JObject (btree_insert "view_origin" (JString "builder") (btree_insert "view_query" (JString query) normalized)))
  end.

(** [create_view]. *)
Definition create_view (input : CreateCollection) : W Collection :=
  let name := nc_name input in
  find_collection name ≫= λ existing,
  match existing with
  | Some _ => refuse Conflict
  | None =>
      table_exists name ≫= λ taken : bool,
      if taken then refuse Conflict
      else match nc_fields input with
      | _ :: _ => refuse Invalid
      | [] =>
          list_collections ≫= λ all,
          lift (view_options (nc_options input) all) ≫= λ options,
          let query := text_of_option options "view_query" in
          call ONewId ≫= λ id,
          let c := {| collection_id := id; collection_name := name; collection_type := CView; collection_options := options;
                      rules := nc_rules input; fields := [] |} in
          transaction (
            lift (create_view_statement name query) ≫= λ statement,
            batch statement Invalid ≫= λ _,
            insert_collection c ≫= λ _,
            view_fields name id ≫= λ fs,
            if existsb (λ f, bool_decide (field_name f = "id")) fs then give (with_fields c fs) else refuse Invalid)
      end
  end.

(** [sort_unstable] of names. *)
Definition name_le (a b : string) : Prop := String.leb a b = true.
#[export] Instance name_le_dec : RelDecision name_le := λ a b, decide (String.leb a b = true).
Definition sort_names (l : list string) : list string := merge_sort name_le l.

Definition with_definition (c : Collection) (options rules : Value) : Collection :=
  {| collection_id := collection_id c; collection_name := collection_name c; collection_type := collection_type c;
     collection_options := options; Types.rules := rules; fields := fields c |}.

(** [update_view]. *)
Definition update_view (existing : Collection) (input : UpdateCollection) : W Collection :=
  list_collections ≫= λ all,
  lift (match up_options input with Some options => view_options options all | None => Ok (collection_options existing) end) ≫= λ options,
  let query := text_of_option options "view_query" in
  let query_changed := negb (bool_decide (query = text_of_option (collection_options existing) "view_query")) in
  let rules := default (rules existing) (up_rules input) in
  lift (match up_fields input with
        | Some fs =>
            let declared := sort_names (nf_name <$> fs) in
            if bool_decide (declared = []) || bool_decide (sort_names (field_name <$> fields existing) = declared) then Ok () else Err Invalid
        | None => Ok ()
        end) ≫= λ _,
  transaction (
    (if query_changed then
       lift (replace_view_statement (collection_name existing) query) ≫= λ statement, batch statement Invalid
     else give tt) ≫= λ _,
    db (OExecute UPDATE_COLLECTION_SQL [PText (Some (collection_id existing)); PJson rules; PJson options]) ≫= λ _,
    view_fields (collection_name existing) (collection_id existing)) ≫= λ _,
  get_collection (collection_id existing).

(** * Tables *)

(** [declared_indexes]. *)
Definition declared_indexes (options : Value) : result (list string) :=
  match get options "indexes" with
  | None | Some JNull => Ok []
  | Some value => entries ← ok_or (as_array value) Invalid; try_map (λ e, ok_or (as_str e) Invalid) entries
  end.

(** [is_builtin_column] and [undeclared_fields]. *)
Definition is_builtin_column (t : CollectionType) (name : string) : bool :=
  bool_decide (name ∈ SYSTEM_COLUMNS) || (bool_decide (t = CAuth) && bool_decide (name ∈ AUTH_SYSTEM_COLUMNS)).
Definition undeclared_fields (c : Collection) (declared : list string) : list Field :=
  filter (λ f, is_builtin_column (collection_type c) (field_name f) = false)
    (filter (λ f, field_name f ∉ declared) (fields c)).

(** [verify_adoptable]. *)
Definition PRESENT_SQL : string :=
  "select column_name from information_schema.columns where table_schema = current_schema() and table_name = $1".
Definition expected_columns (c : Collection) : list string :=
  SYSTEM_COLUMNS ++ (if decide (collection_type c = CAuth) then AUTH_SYSTEM_COLUMNS else []) ++ (field_name <$> fields c).
Definition verify_adoptable (c : Collection) : W unit :=
  db (ORows string PRESENT_SQL [PText (Some (collection_name c))]) ≫= λ present,
  match filter (λ x, x ∉ present) (expected_columns c) with [] => give tt | _ => refuse Invalid end.

Section tables.
Context `{JsonText, Sha256}.

(** [apply_declared_indexes]: what the loops over the old and the new
    declarations run, given the indexes the table has. *)
Definition INDEXES_SQL : string :=
  "select indexname from pg_indexes where schemaname = current_schema() and tablename = $1".
Definition dropped_indexes (existing : list string) (previous specs : list IndexSpec) : list string :=
  drop_statement <$> filter (λ old, old ∉ specs ∧ index_name old ∈ existing) previous.
Definition created_indexes (table : string) (existing : list string) (previous specs : list IndexSpec) : list string :=
  (λ spec, create_statement spec table) <$>
    filter (λ spec, ¬ (spec ∈ previous ∧ index_name spec ∈ existing)
                    ∧ ¬ (index_name spec ∈ existing ∧ index_name spec ∉ index_name <$> previous)) specs.
Definition previous_specs (c : Collection) (ctx : FilterContext) (previous : option Value) : result (list IndexSpec) :=
  match previous with
  | None => Ok []
  | Some options =>
      declared ← declared_indexes options;
      Ok (match parse_all c declared ctx with Ok specs => specs | Err _ => [] end)
  end.
Definition apply_declared_indexes (c : Collection) (ctx : FilterContext) (previous_options : option Value) : W unit :=
  lift (declared_indexes (collection_options c)) ≫= λ declared,
  lift (parse_all c declared ctx) ≫= λ specs,
  db (ORows string INDEXES_SQL [PText (Some (collection_name c))]) ≫= λ existing,
  lift (previous_specs c ctx previous_options) ≫= λ previous,
  for_each (λ s, batch s Invalid) (dropped_indexes existing previous specs) ≫= λ _,
  for_each (λ s, batch s Invalid) (created_indexes (collection_name c) existing previous specs).

(** The resolution of relation targets in [create]: by id, the collection
    itself included, then by name. *)
Definition relation_targets (rows : list (string * string)) (id name : string) : gmap string string :=
  let targets := <[id := name]> (list_to_map rows) in
  foldr (λ table m, match m !! table with Some _ => m | None => <[table := table]> m end) targets (map_to_list targets).*2.

(** The index a field of a new table, or a new field, implies. *)
Definition field_index (table : string) (f : Field) : option string :=
  if is_unique f then Some (create_unique_index_statement table (field_name f))
  else if field_is_indexed f then Some (create_index_statement table (field_name f))
  else None.
Definition run_index (statement : option string) : W unit :=
  match statement with Some s => batch s Invalid | None => give tt end.

(** The fields of the input, each with a fresh id. *)
Fixpoint new_fields (collection_id : string) (position : Z) (input : list CreateField) : W (list Field) :=
  match input with
  | [] => give []
  | f :: input =>
      call ONewId ≫= λ id,
      new_fields collection_id (position + 1) input ≫= λ fs,
      give ({| field_id := id; field_collection_id := collection_id; field_name := nf_name f; field_type := nf_type f;
               required := nf_required f; is_unique := nf_unique f; field_options := nf_options f; position := position |} :: fs)
  end.

(** The loop over the framework's fields of an auth collection. *)
Definition SYSTEM_FIELD_SQL : string := INSERT_FIELD_SQL +:+ " on conflict (collection_id, name) do nothing".
Definition insert_system_field (c : Collection) (p : nat * (string * FieldType * bool * bool * Value)) : W unit :=
  let '(i, (name, t, required, unique, options)) := p in
  call ONewId ≫= λ id,
  db (OExecute SYSTEM_FIELD_SQL
    [PText (Some id); PText (Some (collection_id c)); PText (Some name); PText (Some (field_type_as_str t)); PBool required;
     PBool unique; PJson options; PNumber (Z.of_nat i + 1)]) ≫= λ _, give tt.

(** What [create] does once the table is known to be free or adoptable, in its
    transaction. *)
Definition create_in_tx (c : Collection) (all : list Collection) (create_table : option string) (existing_table : bool) : W unit :=
  (match create_table with Some statement => batch statement Invalid | None => give tt end) ≫= λ _,
  insert_collection c ≫= λ _,
  for_each (λ f, insert_field f ≫= λ _, if existing_table then give tt else run_index (field_index (collection_name c) f)) (fields c) ≫= λ _,
  (if is_auth (collection_type c) then for_each (insert_system_field c) (imap pair auth_system_fields) else give tt) ≫= λ _,
  (if is_auth (collection_type c) && negb existing_table
   then batch (create_auth_email_index_statement (collection_name c)) Invalid else give tt) ≫= λ _,
  lift (for_collection c all) ≫= λ ctx,
  apply_declared_indexes c ctx None ≫= λ _,
  apply_policies c ctx ≫= λ _,
  (if existing_table then give tt else global_enabled ≫= λ enabled, apply_realtime c enabled).

(** [create]. *)
Definition create_table_collection (input : CreateCollection) : W Collection :=
  let name := nc_name input in
  find_collection name ≫= λ existing,
  match existing with
  | Some _ => refuse Conflict
  | None =>
      call ONewId ≫= λ id,
      new_fields id 0 (nc_fields input) ≫= λ fs,
      let c := {| collection_id := id; collection_name := name; collection_type := nc_type input;
                  collection_options := nc_options input; rules := nc_rules input; fields := fs |} in
      lift (collection_validate c) ≫= λ _,
      table_exists name ≫= λ existing_table,
      if existing_table && negb (adopt_existing_table input) then refuse Conflict
      else
        (if existing_table then verify_adoptable c else give tt) ≫= λ _,
        load_table_names ≫= λ rows,
        let resolve := λ target, relation_targets rows id name !! target in
        list_collections ≫= λ all,
        lift (if existing_table then Ok None else Some <$> create_table_statement c resolve) ≫= λ create_table,
        transaction (create_in_tx c all create_table existing_table) ≫= λ _,
        give c
  end.
Definition create (input : CreateCollection) : W Collection :=
  lift (validate_identifier (nc_name input)) ≫= λ _,
  if decide (nc_type input = CView) then create_view input else create_table_collection input.

(** [add_field]. *)
Definition next_position (fs : list Field) : Z :=
  match fs with [] => 0 | f :: fs => foldr Z.max (position f) (position <$> fs) + 1 end.
Definition add_field (name_or_id : string) (input : CreateField) : W Field :=
  get_collection name_or_id ≫= λ c,
  if negb (is_table (collection_type c)) then refuse Unsupported
  else match collection_field c (nf_name input) with
  | Some _ => refuse Conflict
  | None =>
      call ONewId ≫= λ id,
      let f := {| field_id := id; field_collection_id := collection_id c; field_name := nf_name input; field_type := nf_type input;
                  required := nf_required input; is_unique := nf_unique input; field_options := nf_options input;
                  position := next_position (fields c) |} in
      lift (field_validate f (collection_type c)) ≫= λ _,
      lift (add_column_statements (collection_name c) f) ≫= λ statements,
      transaction (
        for_each (λ s, batch s Invalid) statements ≫= λ _,
        run_index (field_index (collection_name c) f) ≫= λ _,
        insert_field f) ≫= λ _,
      give f
  end.

(** [update_field]: the index, the default and the row of a field that stays of its type. *)
Definition wanted_index (table : string) (wanted : CreateField) : option string :=
  if nf_unique wanted then Some (create_unique_index_statement table (nf_name wanted))
  else if option_bool (nf_options wanted) "indexed" then Some (create_index_statement table (nf_name wanted))
  else None.
Definition index_changes (table : string) (current : Field) (wanted : CreateField) : W unit :=
  let wanted_index := wanted_index table wanted in
  let current_index := field_index table current in
  if decide (current_index = wanted_index) then give tt
  else
    (match current_index with
     | Some _ => batch (drop_index_statement table (nf_name wanted)) Internal
     | None => give tt
     end) ≫= λ _, run_index wanted_index.
Definition default_change (table : string) (wanted : CreateField) : result string :=
  literal ← default_sql (nf_type wanted) (nf_options wanted);
  let target := "alter table " +:+ quote_ident table +:+ " alter column " +:+ quote_ident (nf_name wanted) in
  Ok (match literal with Some l => target +:+ " set default " +:+ l | None => target +:+ " drop default" end).
Definition update_field (table : string) (current : Field) (wanted : CreateField) : W unit :=
  if decide (field_type current ≠ nf_type wanted) then refuse Invalid
  else
    transaction (
      index_changes table current wanted ≫= λ _,
      (if option_value_eqb (field_default_value current) (declared_default (nf_options wanted)) then give tt
       else lift (default_change table wanted) ≫= λ statement, batch statement Invalid) ≫= λ _,
      db (OExecute UPDATE_FIELD_SQL [PText (Some (field_id current)); PBool (nf_required wanted); PBool (nf_unique wanted);
                                     PJson (nf_options wanted)]) ≫= λ _,
      give tt).

(** [drop_undeclared_fields] and [delete_field]. *)
Definition drop_field (table : string) (f : Field) : W unit :=
  lift (drop_column_statement table (field_name f)) ≫= λ statement,
  batch statement Internal ≫= λ _,
  db (OExecute DELETE_FIELD_SQL [PText (Some (field_id f))]) ≫= λ _, give tt.
Definition drop_undeclared_fields (existing : Collection) (declared : list string) : W (list string) :=
  match undeclared_fields existing declared with
  | [] => give []
  | doomed =>
      transaction (for_each (drop_field (collection_name existing)) doomed) ≫= λ _,
      give (field_name <$> doomed)
  end.
Definition delete_field (name_or_id field_name : string) : W Field :=
  get_collection name_or_id ≫= λ c,
  lift (ok_or (collection_field c field_name) NotFound) ≫= λ f,
  transaction (drop_field (collection_name c) f) ≫= λ _,
  give f.

(** [update]. *)
Definition change_field (existing : Collection) (f : CreateField) : W unit :=
  match collection_field existing (nf_name f) with
  | None => add_field (collection_name existing) f ≫= λ _, give tt
  | Some current => update_field (collection_name existing) current f
  end.
Definition set_position (id : string) (p : nat * CreateField) : W unit :=
  db (OExecute POSITION_SQL [PText (Some id); PText (Some (nf_name p.2)); PNumber (Z.of_nat p.1)]) ≫= λ _, give tt.
Definition update_in_tx (existing c : Collection) (all : list Collection) (fs : option (list CreateField)) : W unit :=
  db (OExecute UPDATE_COLLECTION_SQL [PText (Some (collection_id existing)); PJson (rules c); PJson (collection_options c)]) ≫= λ _,
  for_each (set_position (collection_id existing)) (imap pair (default [] fs)) ≫= λ _,
  lift (for_collection c all) ≫= λ ctx,
  apply_declared_indexes c ctx (Some (collection_options existing)) ≫= λ _,
  apply_policies c ctx ≫= λ _,
  global_enabled ≫= λ enabled,
  apply_realtime c enabled.
Definition update (name_or_id : string) (input : UpdateCollection) : W Collection :=
  get_collection name_or_id ≫= λ existing,
  if decide (collection_type existing = CView) then update_view existing input
  else
    let rules := default (rules existing) (up_rules input) in
    let options := default (collection_options existing) (up_options input) in
    for_each (change_field existing) (default [] (up_fields input)) ≫= λ _,
    (match delete_missing_fields input, up_fields input with
     | true, Some fs => drop_undeclared_fields existing (nf_name <$> fs) ≫= λ _, give tt
     | _, _ => give tt
     end) ≫= λ _,
    get_collection (collection_id existing) ≫= λ updated,
    let updated := with_definition updated options rules in
    list_collections ≫= λ all,
    transaction (update_in_tx existing updated all (up_fields input)) ≫= λ _,
    get_collection (collection_id existing).

(** [delete]. *)
Definition delete (name_or_id : string) (drop_data : bool) : W Collection :=
  get_collection name_or_id ≫= λ c,
  transaction (
    (if negb drop_data then give tt
     else if decide (collection_type c = CView) then lift (drop_view_statement (collection_name c)) ≫= λ s, batch s Internal
     else lift (drop_table_statement (collection_name c)) ≫= λ s, batch s Internal) ≫= λ _,
    db (OExecute DELETE_COLLECTION_SQL [PText (Some (collection_id c))])) ≫= λ _,
  give c.
End tables.

Definition is_done {A} (r : attempt A) : bool := match r with Done _ => true | Failed _ => false end.

(** * Transactions of the schema

    A monitor: the schema is changed only inside a transaction that has not
    failed, and a commit comes right after the notification that follows the
    last change. It counts the transactions that are begun and those that are
    committed. *)
Record Sx := { sx_open : bool; sx_failed : bool; sx_told : bool; sx_begun : nat; sx_commits : nat }.
Definition sx_start : Sx := {| sx_open := false; sx_failed := false; sx_told := false; sx_begun := 0; sx_commits := 0 |}.

Definition after {A} (r : Reply A) (told : bool) (s : Sx) : Sx :=
  match r with
  | DbOk _ => {| sx_open := sx_open s; sx_failed := sx_failed s; sx_told := told; sx_begun := sx_begun s; sx_commits := sx_commits s |}
  | DbErr _ => {| sx_open := sx_open s; sx_failed := true; sx_told := false; sx_begun := sx_begun s; sx_commits := sx_commits s |}
  end.
Definition allowed (b : bool) (s : Sx) : option Sx := if b then Some s else None.
Definition usable (s : Sx) : bool := sx_open s && negb (sx_failed s).

Definition schema_watch (X : Type) (o : op X) : X → Sx → option Sx :=
  match o in op X return X → Sx → option Sx with
  | OBegin => λ r s, allowed (negb (sx_open s))
      (match r with
       | DbOk _ => {| sx_open := true; sx_failed := false; sx_told := false; sx_begun := S (sx_begun s); sx_commits := sx_commits s |}
       | DbErr _ => s
       end)
  | OCommit => λ r s, allowed (usable s && sx_told s)
      {| sx_open := false; sx_failed := false; sx_told := false; sx_begun := sx_begun s;
         sx_commits := match r with DbOk _ => S (sx_commits s) | DbErr _ => sx_commits s end |}
  | OBatch _ => λ r s, allowed (usable s) (after r false s)
  | OExecute sql _ => λ r s, allowed (usable s) (after r (bool_decide (sql = NOTIFY_SQL)) s)
  | ORows _ sql _ => λ r s,
      if decide (sql = INSERT_COLLECTION_SQL) then allowed (usable s) (after r false s)
      else Some (if sx_open s then after r (sx_told s) s else s)
  | ONewId => λ _ s, Some s
  | _ => λ _ _, None
  end.

Section transactions.
Local Abbreviation ok p s Q := (safe schema_watch p s Q).

(** Between transactions, [n] of them committed and no other begun; in the
    next one; and after a failure, which leaves at most that one uncommitted. *)
Definition idle (n : nat) (s : Sx) : Prop := sx_open s = false ∧ sx_commits s = n ∧ sx_begun s = n.
Definition live (n : nat) (s : Sx) : Prop := sx_open s = true ∧ sx_failed s = false ∧ sx_commits s = n ∧ sx_begun s = S n.
Definition given_up (n : nat) (s : Sx) : Prop := sx_commits s = n ∧ (sx_begun s ≤ S n)%nat.

Lemma idle_given_up n s : idle n s → given_up n s.
Proof. intros (_ & C & B). split; [done|lia]. Qed.
Lemma live_given_up n s : live n s → given_up n s.
Proof. intros (_ & _ & C & B). split; [done|lia]. Qed.

(** Outside a transaction, nothing but reads; inside one, any statement. *)
Definition outside {A} (p : W A) : Prop := ∀ n s, idle n s → ok p s (λ _ s', idle n s').
Definition inside {A} (p : W A) : Prop :=
  ∀ n s, live n s → ok p s (λ r s', match r with Done _ => live n s' | Failed _ => given_up n s' end).

Lemma outside_give {A} (a : A) : outside (give a).
Proof. by intros n s I. Qed.
Lemma outside_refuse {A} e : outside (A:=A) (refuse e).
Proof. by intros n s I. Qed.
Lemma outside_lift {A} (r : result A) : outside (lift r).
Proof. destruct r; [apply outside_give|apply outside_refuse]. Qed.
Lemma outside_then {A B} (p : W A) (f : A → W B) : outside p → (∀ a, outside (f a)) → outside (p ≫= f).
Proof.
  intros P F n s I. apply safe_then. eapply safe_mono; [by apply P|]. intros [a|e] s' I'; [by apply F|done].
Qed.
Lemma outside_rows A sql params : sql ≠ INSERT_COLLECTION_SQL → outside (db (ORows A sql params)).
Proof.
  intros N n s I. apply safe_db. intros r. exists s. cbn. rewrite decide_False by done. pose proof I as [O _]. rewrite O.
  split; [done|]. by destruct r.
Qed.
Lemma outside_new_id : outside (call ONewId).
Proof. intros n s I x. by exists s. Qed.

Lemma inside_give {A} (a : A) : inside (give a).
Proof. by intros n s I. Qed.
Lemma inside_refuse {A} e : inside (A:=A) (refuse e).
Proof. intros n s I. by apply live_given_up. Qed.
Lemma inside_lift {A} (r : result A) : inside (lift r).
Proof. destruct r; [apply inside_give|apply inside_refuse]. Qed.
Lemma inside_then {A B} (p : W A) (f : A → W B) : inside p → (∀ a, inside (f a)) → inside (p ≫= f).
Proof.
  intros P F n s I. apply safe_then. eapply safe_mono; [by apply P|]. intros [a|e] s' I'; [by apply F|done].
Qed.
Lemma inside_new_id : inside (call ONewId).
Proof. intros n s I x. by exists s. Qed.
Lemma usable_live n s : live n s → usable s = true.
Proof. intros (O & F & _ & _). unfold usable. by rewrite O, F. Qed.
Lemma after_ok {A} (a : A) told n s : live n s → live n (after (DbOk a) told s).
Proof. done. Qed.
Lemma after_failed {A} e told n s : live n s → given_up n (after (DbErr (A:=A) e) told s).
Proof. intros (_ & _ & C & B). split; cbn; [done|lia]. Qed.
Lemma inside_rows A sql params : inside (db (ORows A sql params)).
Proof.
  intros n s I. apply safe_db. intros r. cbn. rewrite (usable_live _ _ I). rewrite (proj1 I).
  case_decide; (eexists; split; [done|]); (destruct r; [by apply after_ok|by apply after_failed]).
Qed.
Lemma inside_execute sql params : inside (db (OExecute sql params)).
Proof.
  intros n s I. apply safe_db. intros r. cbn. rewrite (usable_live _ _ I). eexists. split; [done|].
  destruct r; [by apply after_ok|by apply after_failed].
Qed.
Lemma inside_batch sql e : inside (batch sql e).
Proof.
  intros n s I r. cbn. rewrite (usable_live _ _ I). eexists. split; [done|]. destruct r; [by apply after_ok|by apply after_failed].
Qed.
Lemma inside_for_each {A} (f : A → W unit) l : (∀ x, inside (f x)) → inside (for_each f l).
Proof. intros F. induction l as [|x l IH]; [apply inside_give|]. cbn [for_each]. by apply inside_then. Qed.

Definition settled {A} (n : nat) (r : attempt A) (s : Sx) : Prop :=
  match r with Done _ => idle (S n) s | Failed _ => given_up n s end.

Lemma transaction_settles {A} (body : W A) n s : inside body → idle n s → ok (transaction body) s (settled n).
Proof.
  intros B (O & C & G). unfold transaction, notify_schema_changed.
  apply safe_then, safe_db. intros r. cbn [schema_watch]. rewrite O. eexists. split; [reflexivity|].
  destruct r as [[]|e]; [|by apply idle_given_up].
  apply safe_then. eapply safe_mono; [apply (B n); split_and!; cbn; [done..|by rewrite G]|]. intros [a|e] s1 I1; [|done].
  apply safe_then, safe_db. intros r. cbn [schema_watch]. rewrite (usable_live _ _ I1). eexists. split; [reflexivity|].
  destruct r as [k|e]; [|by apply after_failed]. apply safe_then, safe_db. intros r. cbn [schema_watch].
  destruct I1 as (O1 & F1 & C1 & G1). unfold usable. cbn [sx_open sx_failed sx_told sx_begun after]. rewrite O1, F1.
  eexists. split; [reflexivity|]. destruct r; cbn.
  - split_and!; cbn; [done|by rewrite C1|done].
  - split; cbn; [done|by rewrite G1].
Qed.

(** One transaction: committed exactly when the operation succeeds. *)
Definition settles {A} (p : W A) : Prop := ∀ n s, idle n s → ok p s (settled n).
Lemma settles_transaction {A} (body : W A) : inside body → settles (transaction body).
Proof. intros B n s I. by apply transaction_settles. Qed.
Lemma settles_after {A B} (p : W A) (f : A → W B) : outside p → (∀ a, settles (f a)) → settles (p ≫= f).
Proof.
  intros P F n s I. apply safe_then. eapply safe_mono; [by apply P|]. intros [a|e] s' I'; [by apply F|by apply idle_given_up].
Qed.
Lemma settles_give {A B} (p : W A) (b : A → B) : settles p → settles (p ≫= λ a, give (b a)).
Proof. intros P n s I. apply safe_then. eapply safe_mono; [by apply P|]. by intros [a|e] s' I'. Qed.
Lemma settles_refuse {A} e : settles (A:=A) (refuse e).
Proof. intros n s I. by apply idle_given_up. Qed.

(** Any number of them, at least [k], one after the other: all committed when
    the operation succeeds, all but perhaps the last when it fails. *)
Definition orderly {A} (k : nat) (p : W A) : Prop :=
  ∀ n s, idle n s → ok p s (λ r s', ∃ m, (n ≤ m)%nat ∧
    match r with Done _ => (n + k ≤ m)%nat ∧ idle m s' | Failed _ => given_up m s' end).
Lemma settles_orderly {A} (p : W A) : settles p → orderly 1 p.
Proof.
  intros P n s I. eapply safe_mono; [by apply P|]. intros [a|e] s' T; cbn in T; [exists (S n); split_and!; [lia..|done]|by exists n].
Qed.
Lemma outside_orderly {A} (p : W A) : outside p → orderly 0 p.
Proof.
  intros P n s I. eapply safe_mono; [by apply P|]. intros [a|e] s' I'; exists n; (split; [done|]); [split; [lia|done]|by apply idle_given_up].
Qed.
Lemma orderly_weaken {A} k k' (p : W A) : (k' ≤ k)%nat → orderly k p → orderly k' p.
Proof.
  intros L P n s I. eapply safe_mono; [by apply P|]. intros [a|e] s' (m & L1 & X); exists m; (split; [done|]); [|done].
  destruct X. split; [lia|done].
Qed.
Lemma orderly_then {A B} k k' (p : W A) (f : A → W B) : orderly k p → (∀ a, orderly k' (f a)) → orderly (k + k') (p ≫= f).
Proof.
  intros P F n s I. apply safe_then. eapply safe_mono; [by apply P|]. intros [a|e] s' (m & L & X); [|by exists m].
  destruct X as [L' I']. eapply safe_mono; [by apply (F a m)|]. intros [b|e] s2 (m' & L2 & X2); exists m'; (split; [lia|]); [|done].
  destruct X2. split; [lia|done].
Qed.
Lemma orderly_for_each {A} (f : A → W unit) l : (∀ x, orderly 1 (f x)) → orderly (length l) (for_each f l).
Proof.
  intros F. induction l as [|x l IH]; [apply outside_orderly, outside_give|]. cbn [for_each length].
  by apply (orderly_then 1 (length l)).
Qed.
End transactions.

(** Walks along a program that only reads, or that runs inside a transaction. *)
Ltac reading :=
  repeat lazymatch goal with
  | |- outside (_ ≫= _) => apply outside_then; [|intros ?]
  | |- outside (give _) => apply outside_give
  | |- outside (refuse _) => apply outside_refuse
  | |- outside (lift _) => apply outside_lift
  | |- outside (db (ORows _ _ _)) => apply outside_rows; discriminate
  | |- outside (call ONewId) => apply outside_new_id
  | |- outside (match ?x with _ => _ end) => destruct x
  end.
Ltac changing :=
  repeat lazymatch goal with
  | |- inside (_ ≫= _) => apply inside_then; [|intros ?]
  | |- inside (give _) => apply inside_give
  | |- inside (refuse _) => apply inside_refuse
  | |- inside (lift _) => apply inside_lift
  | |- inside (db (ORows _ _ _)) => apply inside_rows
  | |- inside (db (OExecute _ _)) => apply inside_execute
  | |- inside (batch _ _) => apply inside_batch
  | |- inside (call ONewId) => apply inside_new_id
  | |- inside (for_each _ _) => apply inside_for_each; intros ?
  | |- inside (match ?x with _ => _ end) => destruct x
  end.

Lemma view_field_outside view id name ty pos : outside (view_field view id name ty pos).
Proof. unfold view_field. cbv zeta. destruct (map_column _ _). reading. Qed.
Lemma view_field_inside view id name ty pos : inside (view_field view id name ty pos).
Proof. unfold view_field. cbv zeta. destruct (map_column _ _). changing. Qed.
Lemma view_columns_outside rows : outside (view_columns rows).
Proof. induction rows as [|r rows IH]; cbn [view_columns]; reading; [apply view_field_outside|done]. Qed.
Lemma list_collections_outside : outside list_collections.
Proof. unfold list_collections, load_view_fields. reading. apply view_columns_outside. Qed.
Lemma view_fields_inside view id : inside (view_fields view id).
Proof.
  unfold view_fields. changing. induction a as [|[[name ty] pos] rows IH]; cbn [view_fields_of]; changing; [apply view_field_inside|done].
Qed.
Lemma find_collection_outside x : outside (find_collection x).
Proof. unfold find_collection. reading. apply list_collections_outside. Qed.
Lemma get_collection_outside x : outside (get_collection x).
Proof. unfold get_collection. reading. apply find_collection_outside. Qed.
Lemma query_one_outside A sql params : sql ≠ INSERT_COLLECTION_SQL → outside (query_one A sql params).
Proof. intros N. unfold query_one. apply outside_then; [by apply outside_rows|]. intros l. reading. Qed.
Lemma query_one_inside A sql params : inside (query_one A sql params).
Proof. unfold query_one. changing. Qed.
Lemma new_fields_outside id pos input : outside (new_fields id pos input).
Proof. revert pos. induction input as [|f input IH]; intros pos; cbn [new_fields]; reading. apply IH. Qed.

Section atomic.
Context `{JsonText, Sha256}.
Local Abbreviation ok p s Q := (safe schema_watch p s Q).

Lemma run_index_inside x : inside (run_index x).
Proof. unfold run_index. changing. Qed.
Lemma insert_collection_inside c : inside (insert_collection c).
Proof. apply query_one_inside. Qed.
Lemma apply_declared_indexes_inside c ctx v : inside (apply_declared_indexes c ctx v).
Proof. unfold apply_declared_indexes. changing. Qed.
Lemma apply_policies_inside c ctx : inside (apply_policies c ctx).
Proof. unfold apply_policies. changing. Qed.
Lemma apply_realtime_inside c b : inside (apply_realtime c b).
Proof. unfold apply_realtime. changing. Qed.
Lemma global_enabled_inside : inside global_enabled.
Proof. unfold global_enabled. changing. Qed.
Lemma drop_field_inside table f : inside (drop_field table f).
Proof. unfold drop_field. changing. Qed.
Lemma create_in_tx_inside c all s b : inside (create_in_tx c all s b).
Proof.
  unfold create_in_tx, insert_field. changing; try first [apply insert_collection_inside|apply run_index_inside|apply apply_declared_indexes_inside
    |apply apply_policies_inside|apply apply_realtime_inside|apply global_enabled_inside].
  destruct x as [i [[[[name t] r] u] o]]. unfold insert_system_field. changing.
Qed.
Lemma update_in_tx_inside c u all fs : inside (update_in_tx c u all fs).
Proof.
  unfold update_in_tx, set_position. changing; first [apply apply_declared_indexes_inside|apply apply_policies_inside|apply apply_realtime_inside|apply global_enabled_inside].
Qed.

Lemma create_view_settles input : settles (create_view input).
Proof.
  unfold create_view. cbv zeta. apply settles_after; [apply find_collection_outside|]. intros [c|]; [apply settles_refuse|].
  apply settles_after; [by apply query_one_outside|]. intros [|]; [apply settles_refuse|]. destruct (nc_fields input); [|apply settles_refuse].
  apply settles_after; [apply list_collections_outside|]. intros all. apply settles_after; [apply outside_lift|]. intros options.
  apply settles_after; [apply outside_new_id|]. intros id. apply settles_transaction. changing; [apply insert_collection_inside|apply view_fields_inside].
Qed.

Lemma create_settles input : settles (create input).
Proof.
  unfold create. apply settles_after; [apply outside_lift|]. intros _. case_decide; [apply create_view_settles|].
  unfold create_table_collection. cbv zeta. apply settles_after; [apply find_collection_outside|]. intros [c|]; [apply settles_refuse|].
  apply settles_after; [apply outside_new_id|]. intros id. apply settles_after; [apply new_fields_outside|]. intros fs.
  apply settles_after; [apply outside_lift|]. intros _. apply settles_after; [by apply query_one_outside|]. intros taken.
  destruct (taken && _); [apply settles_refuse|]. apply settles_after; [unfold verify_adoptable; reading|]. intros _.
  apply settles_after; [unfold load_table_names; reading|]. intros rows. apply settles_after; [apply list_collections_outside|]. intros all.
  apply settles_after; [apply outside_lift|]. intros statement. apply (settles_give _ (λ _, _)), settles_transaction, create_in_tx_inside.
Qed.

Lemma add_field_settles x input : settles (add_field x input).
Proof.
  unfold add_field. apply settles_after; [apply get_collection_outside|]. intros c. destruct (negb _); [apply settles_refuse|].
  destruct (collection_field c _); [apply settles_refuse|]. apply settles_after; [apply outside_new_id|]. intros id. cbv zeta.
  apply settles_after; [apply outside_lift|]. intros _. apply settles_after; [apply outside_lift|]. intros ss.
  apply (settles_give _ (λ _, _)), settles_transaction. unfold insert_field. changing. apply run_index_inside.
Qed.

Lemma update_field_settles table current wanted : settles (update_field table current wanted).
Proof.
  unfold update_field. case_decide; [apply settles_refuse|]. apply settles_transaction. unfold index_changes. cbv zeta. changing; apply run_index_inside.
Qed.

Lemma drop_undeclared_orderly c declared : orderly 0 (drop_undeclared_fields c declared).
Proof.
  unfold drop_undeclared_fields. destruct (undeclared_fields c declared); [apply outside_orderly, outside_give|].
  apply (orderly_weaken 1); [lia|]. apply settles_orderly, (settles_give _ (λ _, _)), settles_transaction. changing; apply drop_field_inside.
Qed.

Lemma delete_field_settles x name : settles (delete_field x name).
Proof.
  unfold delete_field. apply settles_after; [apply get_collection_outside|]. intros c. apply settles_after; [apply outside_lift|]. intros f.
  apply (settles_give _ (λ _, _)), settles_transaction, drop_field_inside.
Qed.

Lemma delete_settles x drop_data : settles (delete x drop_data).
Proof.
  unfold delete. apply settles_after; [apply get_collection_outside|]. intros c.
  apply (settles_give _ (λ _, _)), settles_transaction. changing.
Qed.

(** An update of a table makes a transaction for every field it declares, and
    one for the definition. *)
Lemma update_orderly x input : orderly 1 (update x input).
Proof.
  unfold update, update_view. apply (orderly_then 0 1); [apply outside_orderly, get_collection_outside|]. intros c. case_decide; cbv zeta.
  - apply (orderly_then 0 1); [apply outside_orderly, list_collections_outside|]. intros all.
    apply (orderly_then 0 1); [apply outside_orderly, outside_lift|]. intros options.
    apply (orderly_then 0 1); [apply outside_orderly, outside_lift|]. intros _.
    apply (orderly_then 1 0); [|intros _; apply outside_orderly, get_collection_outside].
    apply settles_orderly, settles_transaction. changing. apply view_fields_inside.
  - apply (orderly_weaken (length (default [] (up_fields input)) + 1)); [lia|]. apply orderly_then; [apply orderly_for_each|].
    { intros f. unfold change_field. destruct (collection_field c _); apply settles_orderly; [apply update_field_settles|].
      apply (settles_give _ (λ _, _)), add_field_settles. }
    intros _. apply (orderly_then 0 1).
    { destruct (delete_missing_fields input), (up_fields input); try apply outside_orderly, outside_give.
      apply (orderly_then 0 0); [apply drop_undeclared_orderly|]. intros _. apply outside_orderly, outside_give. }
    intros _. apply (orderly_then 0 1); [apply outside_orderly, get_collection_outside|]. intros u.
    apply (orderly_then 0 1); [apply outside_orderly, list_collections_outside|]. intros all.
    apply (orderly_then 1 0); [apply settles_orderly, settles_transaction, update_in_tx_inside|]. intros _. apply outside_orderly, get_collection_outside.
Qed.
End atomic.

(** * Rules in force *)

Section in_force.
Context `{JsonText, Sha256}.

Lemma runs_db_done {A} (o : op (Reply A)) t a : runs (db o) t (Done a) → t = [Ev o (DbOk a)].
Proof.
  intros (r & t' & -> & R). destruct r as [b|e]; cbn in R; destruct R as [-> E]; [by injection E as ->|done].
Qed.
Lemma runs_batch_done sql e t u : runs (batch sql e) t (Done u) → t = [Ev (OBatch sql) (DbOk tt)].
Proof.
  intros (r & t' & -> & R). destruct r as [[]|e']; cbn in R; destruct R as [-> E]; [done|done].
Qed.
Lemma runs_lift_done {A} (r : result A) t a : runs (lift r) t (Done a) → t = [] ∧ r = Ok a.
Proof. destruct r as [b|e]; cbn; intros [-> E]; [by injection E as ->|done]. Qed.

Definition notified (n : Z) : event :=
  Ev (OExecute NOTIFY_SQL [PText (Some SCHEMA_CHANGED_CHANNEL); PText (Some "")]) (DbOk n).

Lemma runs_transaction {A} (body : W A) t a :
  runs (transaction body) t (Done a) →
  ∃ tb n, runs body tb (Done a) ∧ t = Ev OBegin (DbOk tt) :: tb ++ [notified n; Ev OCommit (DbOk tt)].
Proof.
  unfold transaction. intros (t1 & [] & t2 & -> & ->%runs_db_done & R)%runs_done.
  apply runs_done in R as (tb & b & t3 & -> & B & R). apply runs_done in R as (t4 & n & t5 & -> & ->%runs_db_done & R).
  apply runs_done in R as (t6 & [] & t7 & -> & ->%runs_db_done & [-> [= ->]]). exists tb, n. split; [done|]. by rewrite app_nil_r.
Qed.

(** The statement that stores a collection's definition. *)
Definition stores (c : Collection) (e : event) : Prop :=
  e = Ev (ORows unit INSERT_COLLECTION_SQL
        [PText (Some (collection_id c)); PText (Some (collection_name c)); PText (Some (collection_type_as_str (collection_type c)));
         PJson (collection_options c); PJson (rules c)]) (DbOk [tt])
  ∨ ∃ id n, e = Ev (OExecute UPDATE_COLLECTION_SQL [PText (Some id); PJson (rules c); PJson (collection_options c)]) (DbOk n)
      ∧ (collection_id c = id ∨ collection_name c = id).

Definition commits (X : Type) (o : op X) : Prop := match o with OCommit | ORollback => True | _ => False end.

(** One transaction of [t] stores the definition of [c] and, after it, installs
    the policies of its rules. *)
Definition puts_in_force (t : list event) (c : Collection) : Prop :=
  ∃ all ctx ss t0 w t1 t2 n t3,
    for_collection c all = Ok ctx ∧ statements c ctx = Ok ss ∧ stores c w
    ∧ t = t0 ++ Ev OBegin (DbOk tt) :: (t1 ++ Ev (OBatch (join separator ss)) (DbOk tt) :: t2)
          ++ [notified n; Ev OCommit (DbOk tt)] ++ t3
    ∧ w ∈ t1 ∧ ∀ X (o : op X) x, Ev o x ∈ t1 ++ t2 → ¬ commits X o.

Lemma runs_avoids_split {A} (body : prog A) t1 e t2 a :
  avoids commits body → runs body (t1 ++ e :: t2) a → ∀ X (o : op X) x, Ev o x ∈ t1 ++ t2 → ¬ commits X o.
Proof.
  intros V R X o x M. eapply avoids_runs; [exact V|exact R|]. apply elem_of_app in M as [M|M]; apply elem_of_app; [by left|].
  right. by right.
Qed.

Ltac never := repeat (avoid; cbn [commits]; try tauto); try done.

Lemma ddl_avoids sql e : avoids commits (batch sql e).
Proof. split; [tauto|]. by intros []. Qed.
Lemma run_index_avoids x : avoids commits (run_index x).
Proof. destruct x; [apply ddl_avoids|done]. Qed.
Lemma apply_declared_indexes_avoids c ctx v : avoids commits (apply_declared_indexes c ctx v).
Proof. unfold apply_declared_indexes. never; apply ddl_avoids. Qed.
Lemma apply_realtime_avoids c b : avoids commits (apply_realtime c b).
Proof. unfold apply_realtime. never. apply ddl_avoids. Qed.
Lemma apply_policies_avoids c ctx : avoids commits (apply_policies c ctx).
Proof. unfold apply_policies. never. apply ddl_avoids. Qed.
Lemma create_in_tx_avoids c all s b : avoids commits (create_in_tx c all s b).
Proof.
  unfold create_in_tx, insert_collection, query_one, insert_field, global_enabled.
  never; try first [apply ddl_avoids|apply run_index_avoids|apply apply_declared_indexes_avoids|apply apply_policies_avoids|apply apply_realtime_avoids].
  destruct x as [i [[[[name ty] r] u] o]]. unfold insert_system_field. never.
Qed.
Lemma update_in_tx_avoids c u all fs : avoids commits (update_in_tx c u all fs).
Proof.
  unfold update_in_tx, set_position, global_enabled.
  never; try first [apply apply_declared_indexes_avoids|apply apply_policies_avoids|apply apply_realtime_avoids].
Qed.

Lemma runs_policies c ctx t u : runs (apply_policies c ctx) t (Done u) →
  ∃ ss, statements c ctx = Ok ss ∧ t = [Ev (OBatch (join separator ss)) (DbOk tt)].
Proof.
  unfold apply_policies. intros (t1 & ss & t2 & -> & [-> S]%runs_lift_done & ->%runs_batch_done)%runs_done. by exists ss.
Qed.

Lemma create_in_tx_installs c all s b t u : runs (create_in_tx c all s b) t (Done u) →
  ∃ ctx ss w t1 t2, for_collection c all = Ok ctx ∧ statements c ctx = Ok ss ∧ stores c w
    ∧ t = t1 ++ Ev (OBatch (join separator ss)) (DbOk tt) :: t2 ∧ w ∈ t1.
Proof.
  unfold create_in_tx. intros (t1 & u1 & r1 & -> & _ & R)%runs_done. apply runs_done in R as (t2 & u2 & r2 & -> & I & R).
  apply runs_done in R as (t3 & u3 & r3 & -> & _ & R). apply runs_done in R as (t4 & u4 & r4 & -> & _ & R).
  apply runs_done in R as (t5 & u5 & r5 & -> & _ & R). apply runs_done in R as (t6 & ctx & r6 & -> & [-> C]%runs_lift_done & R).
  apply runs_done in R as (t7 & u7 & r7 & -> & _ & R). apply runs_done in R as (t8 & u8 & r8 & -> & (ss & S & ->)%runs_policies & _).
  unfold insert_collection, query_one in I. apply runs_done in I as (t9 & rows & r9 & -> & ->%runs_db_done & I).
  destruct rows as [|[] [|]]; [by destruct I as [_ ?]| |by destruct I as [_ ?]]. destruct I as [-> _].
  eexists ctx, ss, _, (t1 ++ _ :: t3 ++ t4 ++ t5 ++ t7), r8. split_and!; [done|done|by left| |].
  - cbn. rewrite <-!app_assoc. cbn. by rewrite <-!app_assoc.
  - apply elem_of_app. right. by left.
Qed.

Lemma update_in_tx_installs existing c all fs t u : runs (update_in_tx existing c all fs) t (Done u) →
  collection_id c = collection_id existing ∨ collection_name c = collection_id existing →
  ∃ ctx ss w t1 t2, for_collection c all = Ok ctx ∧ statements c ctx = Ok ss ∧ stores c w
    ∧ t = t1 ++ Ev (OBatch (join separator ss)) (DbOk tt) :: t2 ∧ w ∈ t1.
Proof.
  unfold update_in_tx. intros (t1 & n & r1 & -> & ->%runs_db_done & R)%runs_done. apply runs_done in R as (t2 & u2 & r2 & -> & _ & R).
  apply runs_done in R as (t6 & ctx & r6 & -> & [-> C]%runs_lift_done & R). apply runs_done in R as (t7 & u7 & r7 & -> & _ & R).
  apply runs_done in R as (t8 & u8 & r8 & -> & (ss & S & ->)%runs_policies & _). intros I.
  eexists ctx, ss, _, (_ :: t2 ++ t7), r8. split_and!; [done|done|right; eexists _, n; by split| |by left].
  cbn. by rewrite <-!app_assoc.
Qed.

Lemma in_force_l t0 t c : puts_in_force t c → puts_in_force (t0 ++ t) c.
Proof.
  intros (all & ctx & ss & t1 & w & t2 & t3 & n & t4 & C & S & W1 & -> & M & N). exists all, ctx, ss, (t0 ++ t1), w, t2, t3, n, t4.
  split_and!; [done..| |done|done]. by rewrite <-!app_assoc.
Qed.
Lemma in_force_r t0 t c : puts_in_force t c → puts_in_force (t ++ t0) c.
Proof.
  intros (all & ctx & ss & t1 & w & t2 & t3 & n & t4 & C & S & W1 & -> & M & N). exists all, ctx, ss, t1, w, t2, t3, n, (t4 ++ t0).
  split_and!; [done..| |done|done]. do 3 (rewrite <-?app_assoc; cbn [app]). done.
Qed.

Lemma transaction_puts_in_force (body : W unit) c t u all n :
  (∃ ctx ss w t1 t2, for_collection c all = Ok ctx ∧ statements c ctx = Ok ss ∧ stores c w
    ∧ t = t1 ++ Ev (OBatch (join separator ss)) (DbOk tt) :: t2 ∧ w ∈ t1) →
  avoids commits body → runs body t (Done u) →
  puts_in_force (Ev OBegin (DbOk tt) :: t ++ [notified n; Ev OCommit (DbOk tt)]) c.
Proof.
  intros (ctx & ss & w & t1 & t2 & C & S & W1 & -> & M) V R. exists all, ctx, ss, [], w, t1, t2, n, [].
  split_and!; [done..|by eapply runs_avoids_split].
Qed.
End in_force.

(** * The operations *)

Inductive SchemaOp :=
  | OpCreate (input : CreateCollection)
  | OpUpdate (name_or_id : string) (input : UpdateCollection)
  | OpDelete (name_or_id : string) (drop_data : bool)
  | OpAddField (name_or_id : string) (input : CreateField)
  | OpDeleteField (name_or_id field_name : string).

Section results.
Context `{JsonText, Sha256}.

Definition perform (o : SchemaOp) : W unit :=
  match o with
  | OpCreate input => create input ≫= λ _, give tt
  | OpUpdate x input => update x input ≫= λ _, give tt
  | OpDelete x drop_data => delete x drop_data ≫= λ _, give tt
  | OpAddField x input => add_field x input ≫= λ _, give tt
  | OpDeleteField x name => delete_field x name ≫= λ _, give tt
  end.

(** C21. The schema changes in transactions that are told before they are
    visible. Whatever the database answers, an operation changes a table or its
    metadata only inside a transaction, makes no statement in one that has
    failed, and commits only when the notification follows the last change. An
    operation that succeeds has begun at least one transaction and has every one
    it began committed, none left open; one that fails has at most its last one
    uncommitted. All but the update are one transaction, so that a failure
    leaves nothing behind. *)
Theorem schema_changes_are_atomic o t r :
  runs (perform o) t r →
  ∃ s, watched schema_watch sx_start t = Some s
    ∧ (if is_done r then sx_open s = false ∧ sx_commits s = sx_begun s ∧ (1 ≤ sx_commits s)%nat
       else (sx_begun s ≤ S (sx_commits s))%nat)
    ∧ match o with
      | OpUpdate _ _ => True
      | _ => sx_commits s = if is_done r then 1%nat else 0%nat
      end.
Proof.
  intros R. assert (idle 0 sx_start) as I by done.
  assert (∀ p : W unit, settles p → runs p t r → ∃ s, watched schema_watch sx_start t = Some s
    ∧ (if is_done r then sx_open s = false ∧ sx_commits s = sx_begun s ∧ (1 ≤ sx_commits s)%nat
       else (sx_begun s ≤ S (sx_commits s))%nat)
    ∧ sx_commits s = if is_done r then 1%nat else 0%nat) as K.
  { intros p P Rp. destruct (safe_runs _ _ _ _ _ _ (P 0%nat sx_start I) Rp) as (s & W1 & S). exists s. split; [done|].
    destruct r as [[]|e]; cbn in *; [destruct S as (? & ? & ?); split_and!; [done|congruence|lia|done]|destruct S; split; [lia|done]]. }
  destruct o as [input|x input|x drop_data|x input|x name]; cbn [perform] in R.
  - apply (K _ (settles_give _ (λ _, _) (create_settles input)) R).
  - assert (orderly 1 (update x input ≫= λ _, give tt)) as O
      by (apply (orderly_then 1 0); [apply update_orderly|]; intros _; apply outside_orderly, outside_give).
    destruct (safe_runs _ _ _ _ _ _ (O 0%nat sx_start I) R) as (s & W1 & m & L & S). exists s. split; [done|]. split; [|done].
    destruct r as [[]|e]; cbn; [destruct S as (? & ? & ? & ?); split_and!; [done|congruence|lia]|destruct S; lia].
  - apply (K _ (settles_give _ (λ _, _) (delete_settles x drop_data)) R).
  - apply (K _ (settles_give _ (λ _, _) (add_field_settles x input)) R).
  - apply (K _ (settles_give _ (λ _, _) (delete_field_settles x name)) R).
Qed.

Lemma get_collection_found x t c : runs (get_collection x) t (Done c) → collection_id c = x ∨ collection_name c = x.
Proof.
  unfold get_collection, find_collection. intros (t1 & o & t2 & -> & F & [-> G]%runs_lift_done)%runs_done.
  apply runs_done in F as (t3 & cs & t4 & -> & _ & [-> [= ->]]). apply ok_or_Ok in G.
  assert (c ∈ filter (λ c, collection_id c = x ∨ collection_name c = x) cs) as M by (destruct (filter _ cs); [done|]; injection G as ->; by left).
  by apply list_elem_of_filter in M as [? _].
Qed.

(** C22. a definition that is stored is enforced. A table collection that is
    created, and one that is updated, has the policies of the rules that are
    stored installed on its table, after them and in the transaction that
    stores them, whatever the database held and answered. *)
Theorem committed_rules_are_in_force :
  (∀ input t c, runs (create input) t (Done c) → nc_type input ≠ CView →
     puts_in_force t c ∧ collection_name c = nc_name input ∧ rules c = nc_rules input ∧ collection_options c = nc_options input)
  ∧ (∀ x input t r, runs (update x input) t (Done r) →
     ∃ t1 t2 existing, t = t1 ++ t2 ∧ runs (get_collection x) t1 (Done existing)
       ∧ (collection_type existing ≠ CView →
          ∃ u, puts_in_force t u ∧ (collection_id u = collection_id existing ∨ collection_name u = collection_id existing)
            ∧ rules u = default (rules existing) (up_rules input)
            ∧ collection_options u = default (collection_options existing) (up_options input))).
Proof.
  split.
  - intros input t c R N. unfold create in R. apply runs_done in R as (t1 & u & t2 & -> & _ & R). rewrite decide_False in R by done.
    unfold create_table_collection in R. cbv zeta in R. apply runs_done in R as (t3 & o & t4 & -> & _ & R).
    destruct o as [o|]; [by destruct R as [_ ?]|]. apply runs_done in R as (t5 & id & t6 & -> & _ & R).
    apply runs_done in R as (t7 & fs & t8 & -> & _ & R). apply runs_done in R as (t9 & u2 & t10 & -> & _ & R).
    apply runs_done in R as (t11 & b & t12 & -> & _ & R). destruct (b && _); [by destruct R as [_ ?]|].
    apply runs_done in R as (t13 & u3 & t14 & -> & _ & R). apply runs_done in R as (t15 & rows & t16 & -> & _ & R).
    apply runs_done in R as (t17 & all & t18 & -> & _ & R). apply runs_done in R as (t19 & st & t20 & -> & _ & R).
    apply runs_done in R as (t21 & u4 & t22 & -> & (tb & n & B & ->)%runs_transaction & [-> [= ->]]).
    split; [|done]. do 10 apply in_force_l. apply in_force_r.
    eapply transaction_puts_in_force; [by eapply create_in_tx_installs|apply create_in_tx_avoids|exact B].
  - intros x input t r R. unfold update in R. apply runs_done in R as (t1 & existing & t2 & -> & G & R).
    exists t1, t2, existing. split; [done|]. split; [done|]. intros N. rewrite decide_False in R by done. cbv zeta in R.
    apply runs_done in R as (t3 & u3 & t4 & -> & _ & R). apply runs_done in R as (t5 & u5 & t6 & -> & _ & R).
    apply runs_done in R as (t7 & found & t8 & -> & F%get_collection_found & R). apply runs_done in R as (t9 & all & t10 & -> & _ & R).
    apply runs_done in R as (t11 & u11 & t12 & -> & (tb & n & B & ->)%runs_transaction & _).
    eexists (with_definition found _ _). split; [|by split_and!].
    do 5 apply in_force_l. apply in_force_r.
    eapply transaction_puts_in_force; [by eapply update_in_tx_installs|apply update_in_tx_avoids|exact B].
Qed.
End results.

(** * Concrete inputs *)

#[local] Existing Instance Samples.sample_json_text.
#[local] Existing Instance sample_sha.

(** The database answers, and the program goes on. *)
Ltac answer x := exists x; eexists; split; [reflexivity|].
Ltac nothing A := answer (DbOk (A:=list A) []).
Ltac done_ := answer (DbOk tt).
Ltac count := answer (DbOk 1%Z).

Definition sample_row : CollectionRow :=
  {| cr_id := "id0"; cr_name := "notes"; cr_type := "base"; cr_options := JObject []; cr_rules := JObject [] |}.
Definition sample_title : FieldRow :=
  {| fr_id := "id1"; fr_collection_id := "id0"; fr_name := "title"; fr_type := "text"; fr_required := false; fr_is_unique := false;
     fr_options := JObject []; fr_position := 0 |}.
Ltac notes := answer (DbOk [sample_row]); answer (DbOk [sample_title]).

Lemma schema_changes_are_atomic_witness : ∃ t s,
  runs (perform (OpDeleteField "notes" "title")) t (Done tt)
  ∧ watched schema_watch sx_start t = Some s ∧ sx_open s = false ∧ sx_commits s = 1%nat.
Proof.
  assert (∃ t, runs (perform (OpDeleteField "notes" "title")) t (Done tt)) as [t R].
  { eexists. notes. done_. done_. count. count. done_. split; reflexivity. }
  destruct (schema_changes_are_atomic (OpDeleteField "notes" "title") t (Done tt) R) as (s & W1 & (O & _) & C).
  exists t, s. split_and!; [exact R|exact W1|exact O|exact C].
Defined.

Definition sample_new : CreateCollection :=
  {| nc_name := "notes"; nc_type := CBase;
     nc_fields := [{| nf_name := "title"; nf_type := FText; nf_required := false; nf_unique := true; nf_options := JObject [] |}];
     nc_rules := JObject [("listRule", JString "")]; nc_options := JObject []; adopt_existing_table := false |}.
Lemma committed_rules_are_in_force_witness : ∃ t c,
  runs (create sample_new) t (Done c) ∧ puts_in_force t c ∧ rules c = nc_rules sample_new.
Proof.
  assert (∃ t c, runs (create sample_new) t (Done c)) as (t & c & R).
  { eexists _, _. nothing CollectionRow. nothing FieldRow. answer "id0". answer "id1". answer (DbOk [false]). nothing (string * string)%type.
    nothing CollectionRow. nothing FieldRow. done_. done_. answer (DbOk [tt]). count. done_. nothing string. done_. nothing Value. done_.
    count. done_. split; reflexivity. }
  destruct (proj1 committed_rules_are_in_force sample_new t c R) as (F & _ & Ru & _); [discriminate|].
  exists t, c. split_and!; [exact R|exact F|exact Ru].
Defined.

(** An update is several transactions: one that is refused at its second field
    has added the first. *)
Definition sample_text (name : string) : CreateField :=
  {| nf_name := name; nf_type := FText; nf_required := false; nf_unique := false; nf_options := JObject [] |}.
Definition sample_two_fields : UpdateCollection :=
  {| up_rules := None; up_options := None; up_fields := Some [sample_text "body"; sample_text "Bad"]; delete_missing_fields := false |}.

Example update_is_not_atomic : ∃ t s,
  runs (perform (OpUpdate "notes" sample_two_fields)) t (Failed (Other Invalid))
  ∧ watched schema_watch sx_start t = Some s ∧ sx_commits s = 1%nat.
Proof.
  eexists _, {| sx_open := false; sx_failed := false; sx_told := false; sx_begun := 1; sx_commits := 1 |}. split; [|split].
  - notes. notes. answer "id1". done_. done_. count. count. done_. notes. answer "id2". split; reflexivity.
  - reflexivity.
  - reflexivity.
Qed.

(** Changing a field changes its row, and not the column it describes: a
    relation that may now hold several records is still a column of one, and a
    field that is now required may still be null. *)
Definition sample_single : Field := sample_field "tags" FSelect (JObject [("maxSelect", JNumber (PosInt 1)); ("values", JArray [JString "a"])]).
Definition sample_several : CreateField :=
  {| nf_name := "tags"; nf_type := FSelect; nf_required := true; nf_unique := false;
     nf_options := JObject [("maxSelect", JNumber (PosInt 5)); ("values", JArray [JString "a"])] |}.
Example update_field_leaves_the_column :
  column_type FSelect (field_options sample_single) = Ok "text" ∧ column_type FSelect (nf_options sample_several) = Ok "text[]"
  ∧ runs (update_field "notes" sample_single sample_several)
      [Ev OBegin (DbOk tt);
       Ev (OExecute UPDATE_FIELD_SQL [PText (Some "tags"); PBool true; PBool false; PJson (nf_options sample_several)]) (DbOk 1%Z);
       notified 1; Ev OCommit (DbOk tt)] (Done tt).
Proof. split; [done|]. split; [done|]. vm_compute. repeat (do 2 eexists; split; [reflexivity|]). done. Qed.

(** Options that a new collection is refused for are stored by an update. *)
Definition sample_malformed : UpdateCollection :=
  {| up_rules := None; up_options := Some (JObject [("realtime", JString "off")]); up_fields := None; delete_missing_fields := false |}.
Example update_skips_the_validation :
  (λ c, is_ok (collection_validate (with_definition c (JObject [("realtime", JString "off")]) (rules c)))) <$> collection_of sample_row
    = Ok false
  ∧ ∃ t c, runs (update "notes" sample_malformed) t (Done c).
Proof.
  split; [by vm_compute|]. eexists _, _. notes. notes. notes. done_. count. nothing string. done_. nothing Value. done_. count. done_.
  notes. split; reflexivity.
Qed.

(** A rule is compiled on creation without the collection itself and without
    the framework's fields: what an update accepts, creation refuses. *)
Definition sample_tree (fs : list Field) : Collection :=
  {| collection_id := "t"; collection_name := "tree"; collection_type := CBase; collection_options := JObject [];
     rules := JObject [("listRule", JString "parent.title = 'a'")]; fields := fs |}.
Definition sample_tree_fields : list Field :=
  [sample_field "title" FText (JObject []); sample_field "parent" FRelation (JObject [("collectionId", JString "t")])].
Definition sample_members (fs : list Field) : Collection :=
  {| collection_id := "m"; collection_name := "members"; collection_type := CAuth; collection_options := JObject [];
     rules := JObject [("listRule", JString "emailVisibility = true")]; fields := fs |}.
Definition sample_system_fields : list Field := (λ '(name, t, _, _, options), sample_field name t options) <$> auth_system_fields.
Definition installs (c : Collection) (all : list Collection) : bool :=
  match for_collection c all with Ok ctx => is_ok (statements c ctx) | Err _ => false end.
Example create_compiles_rules_early :
  installs (sample_members []) [] = false
  ∧ installs (sample_members sample_system_fields) [sample_members sample_system_fields] = true.
Proof. vm_compute. done. Qed.
