(* ===== verification/CollectionsApi.v ===== *)
(** The administration of collections, [crates/api/src/collections.rs], and the
    adoption of existing tables, [crates/db/src/reflect.rs]: what a client sends
    and is served, who may send it, and what is recorded about it.

    The wire types are decoded as [serde] does; messages, times and the window of
    the list are not modelled. *)
From S2P Require Import Prelude CoreError F64 Json Types Ddl Filter Compile CompileProps Samples Projection Rls Principal Indexes Effects Records FileLinks Handlers Hooks Collections.

Local Set Warnings "-register-all,-clear-no-such-hyp".

(** * The body of a definition *)

Definition RULE_KEYS : list string := ["listRule"; "viewRule"; "createRule"; "updateRule"; "deleteRule"; "manageRule"].

(** [Map::remove]. *)
Fixpoint assoc_remove {A} (k : string) (l : list (string * A)) : list (string * A) :=
  match l with [] => [] | (j, v) :: l => if decide (j = k) then assoc_remove k l else (j, v) :: assoc_remove k l end.
Definition insert_all {A} (from into : list (string * A)) : list (string * A) := foldl (λ m p, btree_insert p.1 p.2 m) into from.

(** One key moved into the options or the rules. *)
Definition move_key (key as_key : string) (keep_null : bool) (st : list (string * Value) * list (string * Value) * bool)
    : list (string * Value) * list (string * Value) * bool :=
  let '(object, options, changed) := st in
  match assoc key object with
  | None => st
  | Some v =>
      (assoc_remove key object, if is_null v && negb keep_null then options else btree_insert as_key v options, true)
  end.

(** [normalize_collection_body]. *)
Definition is_system_field (field : Value) : bool :=
  match get field "name" ≫= as_str with Some name => bool_decide (name ∈ SYSTEM_COLUMNS) | None => false end.
Definition retain_fields (object : list (string * Value)) : list (string * Value) :=
  match assoc "fields" object with
  | Some (JArray fs) => btree_insert "fields" (JArray (filter (λ f, is_system_field f = false) fs)) object
  | _ => object
  end.
Definition object_at (key : string) (object : list (string * Value)) : list (string * Value) :=
  default [] (assoc key object ≫= as_object).
Definition normalize_collection_body (body : Value) : result (list (string * Value)) :=
  object ← ok_or (as_object body) Invalid;
  let '(object, options, changed) :=
    move_key "viewBuilder" "view_builder" true (move_key "viewQuery" "view_query" true
      (move_key "indexes" "indexes" false (object, object_at "options" object, false))) in
  let object := if changed : bool then btree_insert "options" (JObject options) object else object in
  let '(object, rules, _) :=
    foldl (λ st key, move_key key key true st) (object, object_at "rules" object, false) RULE_KEYS in
  let object := match rules with [] => object | _ => btree_insert "rules" (JObject rules) object end in
  Ok (retain_fields object).

(** [CreateField]'s [Deserialize]: the flat keys, then the [options]. *)
Definition FIELD_KEYS : list string := ["name"; "type"; "required"; "unique"; "options"].
Definition flag (key : string) (object : list (string * Value)) : result bool :=
  match assoc key object with None => Ok false | Some (JBool b) => Ok b | Some _ => Err Invalid end.
Definition text_key (key : string) (object : list (string * Value)) : result string := ok_or (assoc key object ≫= as_str) Invalid.
Definition decode_field (v : Value) : result CreateField :=
  object ← ok_or (as_object v) Invalid;
  name ← text_key "name" object;
  t ← (raw ← text_key "type" object; field_type_parse raw);
  required ← flag "required" object;
  unique ← flag "unique" object;
  options ← match assoc "options" object with None | Some JNull => Ok [] | Some (JObject l) => Ok l | Some _ => Err Invalid end;
  let settings := filter (λ p, p.1 ∉ FIELD_KEYS) object in
  Ok {| nf_name := name; nf_type := t; nf_required := required; nf_unique := unique; nf_options := JObject (insert_all options settings) |}.
Definition decode_fields (v : Value) : result (list CreateField) :=
  items ← ok_or (as_array v) Invalid; try_map decode_field items.

(** [CreateCollection] and [UpdateCollection]. *)
Definition decode_create (object : list (string * Value)) : result CreateCollection :=
  name ← text_key "name" object;
  t ← match assoc "type" object with
      | None => Ok CBase
      | Some v => raw ← ok_or (as_str v) Invalid; collection_type_parse raw
      end;
  fs ← match assoc "fields" object with None => Ok [] | Some v => decode_fields v end;
  adopt ← flag "adoptExistingTable" object;
  Ok {| nc_name := name; nc_type := t; nc_fields := fs; nc_rules := default (JObject []) (assoc "rules" object);
        nc_options := default (JObject []) (assoc "options" object); adopt_existing_table := adopt |}.
Definition given (key : string) (object : list (string * Value)) : option Value :=
  match assoc key object with Some JNull | None => None | Some v => Some v end.
Definition decode_update (object : list (string * Value)) : result UpdateCollection :=
  fs ← match given "fields" object with None => Ok None | Some v => Some <$> decode_fields v end;
  Ok {| up_rules := given "rules" object; up_options := given "options" object; up_fields := fs; delete_missing_fields := false |}.

(** * What is served *)

(** [Field]'s [Serialize], with the keys [collection_json] adds to an entry. *)
Definition is_auth_system_field (c : Collection) (name : string) : bool :=
  is_auth (collection_type c) && existsb (λ '(n, _, _, _, _), bool_decide (n = name)) auth_system_fields.
Definition field_entry (c : Collection) (f : Field) : Value :=
  JObject [("collectionId", JString (field_collection_id f)); ("hidden", JBool (option_bool (field_options f) "hidden"));
           ("id", JString (field_id f)); ("indexed", JBool (field_is_indexed f)); ("name", JString (field_name f));
           ("options", field_options f); ("required", JBool (required f)); ("sort_order", number (position f));
           ("system", JBool (is_auth_system_field c (field_name f))); ("type", JString (field_type_as_str (field_type f)));
           ("unique", JBool (is_unique f))].

(** [implicit_field_entries]. *)
Definition implicit_entry (p : string * FieldType) : Value :=
  JObject [("default", JNull); ("hidden", JBool false); ("indexed", JBool (bool_decide (p.1 = "id"))); ("name", JString p.1);
           ("options", JObject []); ("required", JBool false); ("system", JBool true); ("type", JString (field_type_as_str p.2));
           ("unique", JBool false)].
Definition implicit_field_entries (c : Collection) : list Value :=
  if option_bool (collection_options c) "reflected" then []
  else implicit_entry <$> filter (λ p, p.1 ∉ field_name <$> fields c) (implicit_fields c).

(** [collection_json]; its [schema], [system], [created] and [updated] are not modelled. *)
Definition view_key (c : Collection) (key : string) (absent : Value) : Value :=
  if decide (collection_type c = CView) then default absent (get (collection_options c) key) else JNull.
Definition collection_json (c : Collection) : Value :=
  JObject [("fields", JArray ((field_entry c <$> fields c) ++ implicit_field_entries c)); ("id", JString (collection_id c));
           ("indexes", default (JArray []) (get (collection_options c) "indexes")); ("name", JString (collection_name c));
           ("options", collection_options c); ("rules", rules c); ("type", JString (collection_type_as_str (collection_type c)));
           ("viewBuilder", view_key c "view_builder" JNull); ("viewOrigin", view_key c "view_origin" (JString "sql"));
           ("viewQuery", view_key c "view_query" JNull)].

(** * The endpoints *)

Section endpoints.
Context `{JsonText, Sha256}.

Definition actor (p : Principal) : string := default "" (user_id p).
Definition type_details (c : Collection) : Value := JObject [("type", JString (collection_type_as_str (collection_type c)))].

(** [create], [update], [delete], [add_field] and [delete_field]. *)
Definition create_endpoint (p : Principal) (body : Value) : W Collection :=
  lift (require_superuser p) ≫= λ _,
  lift (object ← normalize_collection_body body; decode_create object) ≫= λ input,
  ask OClient ≫= λ _,
  create input ≫= λ c,
  audit_record (actor p) "collection.create" (Some (collection_name c)) (type_details c) ≫= λ _,
  give c.

Definition update_endpoint (p : Principal) (name : string) (body : Value) : W Collection :=
  lift (require_superuser p) ≫= λ _,
  lift (object ← normalize_collection_body body; decode_update object) ≫= λ input,
  ask OClient ≫= λ _,
  find_collection name ≫= λ found,
  lift (ok_or found NotFound) ≫= λ _,
  update name input ≫= λ c,
  audit_record (actor p) "collection.update" (Some name) (type_details c) ≫= λ _,
  give c.

Definition DELETE_FOR_COLLECTION_SQL : string := "delete from _files where collection_name = $1::text returning id".
Definition delete_for_collection (collection : string) : W (list string) :=
  db (ORows string DELETE_FOR_COLLECTION_SQL [PText (Some collection)]).
Definition delete_endpoint (p : Principal) (name : string) (drop_data : option bool) : W Collection :=
  lift (require_superuser p) ≫= λ _,
  let drop_data := default true drop_data in
  ask OClient ≫= λ _,
  find_collection name ≫= λ found,
  lift (ok_or found NotFound) ≫= λ _,
  delete_for_collection name ≫= λ _,
  delete name drop_data ≫= λ c,
  audit_record (actor p) "collection.delete" (Some name) (JObject [("dropData", JBool drop_data)]) ≫= λ _,
  give c.

Definition add_field_endpoint (p : Principal) (name : string) (input : CreateField) : W Field :=
  lift (require_superuser p) ≫= λ _, ask OClient ≫= λ _, add_field name input.
Definition delete_field_endpoint (p : Principal) (name field : string) : W Field :=
  lift (require_superuser p) ≫= λ _, ask OClient ≫= λ _, delete_field name field.

(** [list] and [get]; the system collections they add are constants. *)
Definition list_endpoint (p : Principal) : W (list Value) :=
  lift (require_superuser_or_api_key p) ≫= λ _,
  ask OClient ≫= λ _,
  list_collections ≫= λ cs, give (collection_json <$> cs).
Definition get_endpoint (p : Principal) (name : string) : W Value :=
  lift (require_superuser_or_api_key p) ≫= λ _,
  ask OClient ≫= λ _,
  find_collection name ≫= λ found,
  lift (ok_or found NotFound) ≫= λ c, give (collection_json c).
End endpoints.

(** * Adoption *)

(** [skip_reason], as whether the table is skipped. *)
Definition is_skipped (table : string) (known : list string) : bool :=
  bool_decide (table ∈ known) || starts_with "_" table || starts_with "pg_" table || starts_with "sql_" table
  || bool_decide (table = "schema_migrations").

Section reflect.
Context `{JsonText}.

(** The options and the row of a reflected column. *)
Definition reflected_options (c : Column) (options : Value) : Value :=
  match options with
  | JObject l =>
      let l := btree_insert "reflected" (JBool true) l in
      let l := if is_primary c then btree_insert "primaryKey" (JBool true) l else l in
      JObject (match col_default c with Some d => btree_insert "default" (JString d) l | None => l end)
  | v => v
  end.
Definition reflect_column (enums : list (Z * list string)) (collection_id : string) (c : Column) : W unit :=
  let labels := (λ p, p.2) <$> last (filter (λ p, p.1 = type_oid c) enums) in
  let '(t, options) := map_column c labels in
  call ONewId ≫= λ id,
  db (OExecute INSERT_FIELD_SQL
    [PText (Some id); PText (Some collection_id); PText (Some (col_name c)); PText (Some (field_type_as_str t));
     PBool (not_null c && negb (is_primary c) && negb (bool_decide (is_Some (col_default c))));
     PBool (col_unique c && negb (is_primary c)); PJson (reflected_options c options); PNumber (col_position c)]) ≫= λ _, give tt.

Definition ADOPT_SQL : string := "insert into _collections (id, name, type, options, rules) values ($1, $2, 'base', $3, '{}')".
Definition adopt_table (enums : list (Z * list string)) (table : string) (columns : list Column) : W unit :=
  call ONewId ≫= λ id,
  let primary := col_name <$> head (filter (λ c, is_primary c = true) columns) in
  let options := JObject [("columns", JNumber (PosInt (len columns)));
                          ("primaryKey", match primary with Some p => JString p | None => JNull end); ("reflected", JBool true)] in
  db (OExecute ADOPT_SQL [PText (Some id); PText (Some table); PJson options]) ≫= λ _,
  for_each (reflect_column enums id) columns.

(** [by_table]: the tables in the order of their names. *)
Definition tables_of (columns : list Column) : list string := sort_names (remove_dups (col_table <$> columns)).
Definition columns_of (table : string) (columns : list Column) : list Column := filter (λ c, col_table c = table) columns.
Definition adopted_tables (columns : list Column) (known : list string) : list string :=
  filter (λ t, is_skipped t known = false) (tables_of columns).

Definition COLUMNS_SQL : string :=
  "select c.relname as table_name, a.attname as column_name, t.typname as data_type, a.atttypid as type_oid, a.attnotnull as not_null, a.attnum as position, coalesce(pk.is_primary, false) as is_primary, coalesce(uq.is_unique, false) as is_unique, pg_get_expr(d.adbin, d.adrelid) as default_expr from pg_attribute a join pg_class c on c.oid = a.attrelid join pg_type t on t.oid = a.atttypid join pg_namespace n on n.oid = c.relnamespace left join pg_attrdef d on d.adrelid = c.oid and d.adnum = a.attnum left join lateral ( select true as is_primary from pg_index i where i.indrelid = c.oid and i.indisprimary and a.attnum = any(i.indkey) ) pk on true left join lateral ( select true as is_unique from pg_index i where i.indrelid = c.oid and i.indisunique and i.indnkeyatts = 1 and a.attnum = any(i.indkey) ) uq on true where c.relkind in ('r', 'p') and n.nspname = current_schema() and a.attnum > 0 and not a.attisdropped order by c.relname, a.attnum".
Definition ENUMS_SQL : string :=
  "select e.enumtypid as type_oid, array_agg(e.enumlabel order by e.enumsortorder) as labels from pg_enum e group by e.enumtypid".

(** [reflect]: the tables adopted. *)
Definition protect (collections : list Collection) (name : string) : W unit :=
  match head (filter (λ c, collection_name c = name) collections) with
  | None => give tt
  | Some c => lift (for_collection c collections) ≫= λ ctx, apply_policies c ctx
  end.
Definition reflect : W (list string) :=
  db (ORows Column COLUMNS_SQL []) ≫= λ columns,
  db (ORows (Z * list string) ENUMS_SQL []) ≫= λ enums,
  db (ORows string "select name from _collections" []) ≫= λ known,
  let adopted := adopted_tables columns known in
  for_each (λ t, adopt_table enums t (columns_of t columns)) adopted ≫= λ _,
  match adopted with
  | [] => give []
  | _ =>
      list_collections ≫= λ collections,
      for_each (protect collections) adopted ≫= λ _,
      give adopted
  end.
End reflect.

(** * An echoed definition *)

Lemma assoc_btree_insert {A} k (v : A) l j : assoc j (btree_insert k v l) = if decide (j = k) then Some v else assoc j l.
Proof.
  induction l as [|[i w] l IH]; cbn.
  - repeat case_decide; congruence.
  - repeat (case_decide; cbn); try case_match; cbn; repeat case_decide; try congruence; by rewrite ?IH, ?decide_False by congruence.
Qed.

(** Later entries win. *)
Lemma assoc_insert_all {A} (from into : list (string * A)) k :
  NoDup from.*1 → assoc k (insert_all from into) = match assoc k from with Some v => Some v | None => assoc k into end.
Proof.
  unfold insert_all. revert into. induction from as [|[j v] from IH]; intros into N; [done|]. cbn [foldl]. inversion_clear N as [|? ? Nin N'].
  rewrite IH by done. cbn. rewrite assoc_btree_insert. destruct (assoc k from) as [w|] eqn:E.
  - case_decide; [|done]. subst. exfalso. apply Nin. apply list_elem_of_fmap. exists (k, w). split; [done|].
    by apply list_elem_of_In, assoc_In.
  - repeat case_decide; congruence.
Qed.

(** The keys of a served field the decoder takes for settings. *)
Definition echo_settings (c : Collection) (f : Field) : list (string * Value) :=
  [("collectionId", JString (field_collection_id f)); ("hidden", JBool (option_bool (field_options f) "hidden"));
   ("id", JString (field_id f)); ("indexed", JBool (field_is_indexed f)); ("sort_order", number (position f));
   ("system", JBool (is_auth_system_field c (field_name f)))].

Lemma decode_field_entry c f l :
  field_options f = JObject l →
  decode_field (field_entry c f) = Ok {| nf_name := field_name f; nf_type := field_type f; nf_required := required f;
    nf_unique := is_unique f; nf_options := JObject (insert_all l (echo_settings c f)) |}.
Proof.
  intros E. unfold decode_field, field_entry. cbn [as_object ok_or mbind result_bind]. unfold text_key, flag.
  set (hid := option_bool _ _). set (idx := field_is_indexed _). set (sys := is_auth_system_field _ _). set (so := number _).
  rewrite E. by destruct (field_type f).
Qed.

Definition echoes (c : Collection) (f : Field) (nf : CreateField) : Prop :=
  nf_name nf = field_name f ∧ nf_type nf = field_type f ∧ nf_required nf = required f ∧ nf_unique nf = is_unique f
  ∧ ∀ k, get (nf_options nf) k = match get (field_options f) k with Some v => Some v | None => assoc k (echo_settings c f) end.

Definition echoable (f : Field) : Prop :=
  field_name f ∉ SYSTEM_COLUMNS ∧ ∃ l, field_options f = JObject l ∧ NoDup l.*1.

Lemma decode_field_entries c fs : Forall echoable fs →
  ∃ nfs, try_map decode_field (field_entry c <$> fs) = Ok nfs ∧ Forall2 (echoes c) fs nfs.
Proof.
  induction 1 as [|f fs (_ & l & E & N) F (nfs & D & F2)]; [by exists []|]. cbn [fmap list_fmap try_map].
  rewrite (decode_field_entry _ _ _ E). cbn [mbind result_bind]. rewrite D. cbn [mbind result_bind]. eexists. split; [done|].
  constructor; [|done]. repeat split. cbn [nf_options get]. intros k. rewrite assoc_insert_all by done. by rewrite E.
Qed.

Lemma retained_fields c : Forall echoable (fields c) →
  filter (λ f, is_system_field f = false) ((field_entry c <$> fields c) ++ implicit_field_entries c) = field_entry c <$> fields c.
Proof.
  intros F. rewrite filter_app, filter_all.
  - assert (filter (λ f, is_system_field f = false) (implicit_field_entries c) = []) as ->; [|by rewrite app_nil_r].
    unfold implicit_field_entries. destruct (option_bool _ _); [done|].
    assert (Forall (λ f, is_system_field f = true) (implicit_entry <$> filter (λ p, p.1 ∉ field_name <$> fields c) (implicit_fields c))) as I.
    { apply Forall_fmap, Forall_forall. intros p [_ M]%list_elem_of_filter. unfold implicit_fields in M.
      unfold compose, is_system_field. cbn. apply bool_decide_eq_true. case_decide; cbn in M; set_solver. }
    clear -I. induction I as [|v l V _ IH]; [done|]. rewrite filter_cons, decide_False by congruence. done.
  - apply Forall_fmap. eapply Forall_impl; [exact F|]. intros f [N _]. unfold compose, is_system_field. cbn. by apply bool_decide_eq_false.
Qed.

(** The normalisation up to the fields, whatever the options and the indexes are. *)
Lemma normalized_body (entries : list Value) (id name ty : string) (idx opts : Value) l : ∃ o,
  normalize_collection_body (JObject
    [("fields", JArray entries); ("id", JString id); ("indexes", idx); ("name", JString name); ("options", opts);
     ("rules", JObject l); ("type", JString ty); ("viewBuilder", JNull); ("viewOrigin", JNull); ("viewQuery", JNull)])
  = Ok (retain_fields o) ∧ assoc "fields" o = Some (JArray entries) ∧ assoc "rules" o = Some (JObject l).
Proof.
  destruct idx; destruct l as [|r l]; (eexists; split; [reflexivity|]; split; reflexivity).
Qed.

(** a client may save the definition it was served. The body passes the
    normalisation and decodes to an update that names every declared field, in
    order and with its type and flags, none of the implicit columns, the same
    rules, and drops nothing; of the options of a field every key is kept, and
    the only keys that may appear are those the server adds to the fields it
    serves. *)
Theorem echoed_definition_reads_back c l :
  collection_type c ≠ CView → rules c = JObject l → Forall echoable (fields c) →
  ∃ object up nfs, normalize_collection_body (collection_json c) = Ok object ∧ decode_update object = Ok up
    ∧ up_rules up = Some (rules c) ∧ up_fields up = Some nfs ∧ Forall2 (echoes c) (fields c) nfs ∧ delete_missing_fields up = false.
Proof.
  intros T R F. destruct (decode_field_entries c (fields c) F) as (nfs & D & F2). pose proof (retained_fields c F) as K.
  unfold collection_json, view_key. rewrite !decide_False by done. rewrite R.
  destruct (normalized_body ((field_entry c <$> fields c) ++ implicit_field_entries c) (collection_id c) (collection_name c)
    (collection_type_as_str (collection_type c)) (default (JArray []) (get (collection_options c) "indexes")) (collection_options c) l)
    as (o & -> & E1 & E2).
  eexists _, _, nfs. split; [done|]. unfold decode_update, given, retain_fields. rewrite E1, K, !assoc_btree_insert.
  rewrite (decide_True (P:="fields" = "fields")), !decide_False by done. unfold decode_fields.
  cbn [as_array ok_or mbind result_bind fmap result_fmap]. rewrite D. split; [reflexivity|]. by rewrite E2.
Qed.

(** * Who changes the schema, and what is recorded *)

Inductive SchemaCall :=
  | CallCreate (body : Value)
  | CallUpdate (name : string) (body : Value)
  | CallDelete (name : string) (drop_data : option bool)
  | CallAddField (name : string) (input : CreateField)
  | CallDeleteField (name field : string).

Section calls.
Context `{JsonText, Sha256}.

Definition serve (p : Principal) (call : SchemaCall) : W unit :=
  match call with
  | CallCreate body => create_endpoint p body ≫= λ _, give tt
  | CallUpdate name body => update_endpoint p name body ≫= λ _, give tt
  | CallDelete name drop_data => delete_endpoint p name drop_data ≫= λ _, give tt
  | CallAddField name input => add_field_endpoint p name input ≫= λ _, give tt
  | CallDeleteField name field => delete_field_endpoint p name field ≫= λ _, give tt
  end.
Definition audited (call : SchemaCall) : bool :=
  match call with CallAddField _ _ | CallDeleteField _ _ => false | _ => true end.
Definition audit_line (p : Principal) (e : event) : Prop :=
  ∃ act target details n, e = Ev (OExecute AUDIT_SQL [PText (Some (actor p)); PText (Some act); PText (Some target); PJson details]) (DbOk n).

Lemma runs_audit act target details t u p :
  runs (audit_record (actor p) act (Some target) details) t (Done u) → ∃ e, t = [e] ∧ audit_line p e.
Proof.
  unfold audit_record. intros (t1 & n & t2 & -> & ->%runs_db_done & [-> _])%runs_done.
  eexists. split; [done|]. by exists act, target, details, n.
Qed.

(** only a superuser changes the schema: for anyone else no statement is
    made and the answer is 403, whatever the body; and a definition that was
    created, updated or deleted has a line in the audit trail that names its
    actor, as the last thing that was done. *)
Theorem schema_is_the_superusers p call t r :
  runs (serve p call) t r →
  (is_superuser p = false → t = [] ∧ r = Failed (Other Forbidden))
  ∧ (is_done r = true → audited call = true → ∃ t' e, t = t' ++ [e] ∧ audit_line p e).
Proof.
  intros R. split.
  - intros S. assert (require_superuser p = Err Forbidden) as E by (unfold require_superuser; by rewrite S).
    destruct call; cbn [serve] in R; unfold create_endpoint, update_endpoint, delete_endpoint, add_field_endpoint, delete_field_endpoint in R;
      rewrite E in R; by destruct R.
  - intros D A. destruct r as [u|]; [|done]. clear D.
    destruct call as [body|name body|name drop_data|name input|name field]; try done; cbn [serve] in R;
      apply runs_done in R as (t1 & c & t2 & -> & R & [-> _]); rewrite app_nil_r.
    + unfold create_endpoint in R. apply runs_done in R as (s1 & u1 & r1 & -> & _ & R). apply runs_done in R as (s2 & u2 & r2 & -> & _ & R).
      apply runs_done in R as (s3 & u3 & r3 & -> & _ & R). apply runs_done in R as (s4 & u4 & r4 & -> & _ & R).
      apply runs_done in R as (s5 & u5 & r5 & -> & (e & -> & Le)%runs_audit & [-> _]).
      exists (s1 ++ s2 ++ s3 ++ s4), e. split; [by rewrite <-!app_assoc|done].
    + unfold update_endpoint in R. apply runs_done in R as (s1 & u1 & r1 & -> & _ & R). apply runs_done in R as (s2 & u2 & r2 & -> & _ & R).
      apply runs_done in R as (s3 & u3 & r3 & -> & _ & R). apply runs_done in R as (s4 & u4 & r4 & -> & _ & R).
      apply runs_done in R as (s5 & u5 & r5 & -> & _ & R). apply runs_done in R as (s6 & u6 & r6 & -> & _ & R).
      apply runs_done in R as (s7 & u7 & r7 & -> & (e & -> & Le)%runs_audit & [-> _]).
      exists (s1 ++ s2 ++ s3 ++ s4 ++ s5 ++ s6), e. split; [by rewrite <-!app_assoc|done].
    + unfold delete_endpoint in R. apply runs_done in R as (s1 & u1 & r1 & -> & _ & R). cbv zeta in R.
      apply runs_done in R as (s2 & u2 & r2 & -> & _ & R). apply runs_done in R as (s3 & u3 & r3 & -> & _ & R).
      apply runs_done in R as (s4 & u4 & r4 & -> & _ & R). apply runs_done in R as (s5 & u5 & r5 & -> & _ & R).
      apply runs_done in R as (s6 & u6 & r6 & -> & _ & R). apply runs_done in R as (s7 & u7 & r7 & -> & (e & -> & Le)%runs_audit & [-> _]).
      exists (s1 ++ s2 ++ s3 ++ s4 ++ s5 ++ s6), e. split; [by rewrite <-!app_assoc|done].
Qed.

(** Adopting a table ends with its policies: when [reflect] returns, every table
    it adopted that is a collection has the policies of that collection. *)
Definition protected (cs : list Collection) (t : list event) (name : string) : Prop :=
  ∀ c, head (filter (λ c, collection_name c = name) cs) = Some c →
    ∃ ctx ss, for_collection c cs = Ok ctx ∧ statements c ctx = Ok ss ∧ Ev (OBatch (join separator ss)) (DbOk tt) ∈ t.

Lemma protect_all cs names t u : runs (for_each (protect cs) names) t (Done u) → Forall (protected cs t) names.
Proof.
  revert t. induction names as [|n names IH]; intros t R; [constructor|]. cbn [for_each] in R.
  apply runs_done in R as (t1 & v & t2 & -> & P & R). constructor.
  - intros c E. unfold protect in P. rewrite E in P. apply runs_done in P as (t3 & ctx & t4 & -> & [-> C]%runs_lift_done & (ss & S & ->)%runs_policies).
    exists ctx, ss. split_and!; [done|done|]. apply elem_of_app. left. by left.
  - eapply Forall_impl; [by apply IH|]. intros x Px c E. destruct (Px c E) as (ctx & ss & C & S & M). exists ctx, ss.
    split_and!; [done|done|]. apply elem_of_app. by right.
Qed.

Theorem reflected_tables_are_protected t names :
  runs reflect t (Done names) → names ≠ [] → ∃ cs t1 t2 t3, t = t1 ++ t2 ++ t3 ∧ runs list_collections t2 (Done cs) ∧ Forall (protected cs t3) names.
Proof.
  unfold reflect. intros R N. apply runs_done in R as (s1 & cols & r1 & -> & _ & R). apply runs_done in R as (s2 & en & r2 & -> & _ & R).
  apply runs_done in R as (s3 & kn & r3 & -> & _ & R). cbv zeta in R. apply runs_done in R as (s4 & u4 & r4 & -> & _ & R).
  destruct (adopted_tables cols kn) as [|n ns]; [destruct R as [_ [= ->]]; done|].
  apply runs_done in R as (s5 & cs & r5 & -> & L & R). apply runs_done in R as (s6 & u6 & r6 & -> & P & [-> [= ->]]).
  exists cs, (s1 ++ s2 ++ s3 ++ s4), s5, s6. split; [by rewrite app_nil_r, <-!app_assoc|]. split; [done|]. by eapply protect_all.
Qed.
End calls.

(** * Concrete inputs *)

#[local] Existing Instance Samples.sample_json_text.
#[local] Existing Instance sample_sha.

Lemma echoed_definition_reads_back_witness : ∃ object up nfs,
  normalize_collection_body (collection_json sample_posts) = Ok object ∧ decode_update object = Ok up ∧ up_fields up = Some nfs
  ∧ Forall2 (echoes sample_posts) (fields sample_posts) nfs.
Proof.
  destruct (echoed_definition_reads_back sample_posts []) as (object & up & nfs & N & D & _ & U & F & _); [discriminate|reflexivity| |].
  - assert (∀ name, bool_decide (name ∈ SYSTEM_COLUMNS) = false → name ∉ SYSTEM_COLUMNS) as B by (intros name; apply bool_decide_eq_false).
    apply Forall_cons_2; [|apply Forall_cons_2; [|apply Forall_nil_2]]; (split; [by apply B|]; eexists; split; [reflexivity|]);
      [apply NoDup_nil_2|apply NoDup_singleton].
  - exists object, up, nfs. split_and!; [exact N|exact D|exact U|exact F].
Defined.

(** A relation that names its target by [collection] points, once its definition
    is saved as it was served, at the collection it belongs to. *)
Example echo_retargets_a_relation :
  let f := sample_field "author" FRelation (JObject [("collection", JString "users")]) in
  relation_target (field_options f) = Some "users"
  ∧ (λ nf, relation_target (nf_options nf)) <$> decode_field (field_entry sample_posts f) = Ok (Some "c")
  ∧ field_collection_id f = "c".
Proof. vm_compute. done. Qed.

Definition sample_admin : Principal :=
  from_claims {| c_sub := "s1"; c_col := ""; c_name := ""; c_email := "a@b.c"; c_typ := SSuperuser; c_iat := 0; c_exp := 10; c_kid := ""; c_tkey := "" |} [].

Ltac found := answer (Ok tt : result unit); answer (DbOk [sample_row]); answer (DbOk [sample_title]).
Ltac no_files := answer (DbOk (A:=list string) []).

Lemma schema_is_the_superusers_witness : ∃ t t' e,
  runs (serve sample_admin (CallDelete "notes" None)) t (Done tt) ∧ t = t' ++ [e] ∧ audit_line sample_admin e.
Proof.
  assert (∃ t, runs (serve sample_admin (CallDelete "notes" None)) t (Done tt)) as [t R].
  { eexists. found. no_files. answer (DbOk [sample_row]). answer (DbOk [sample_title]). done_. done_. count. count. done_. count.
    split; reflexivity. }
  destruct (schema_is_the_superusers sample_admin (CallDelete "notes" None) t (Done tt) R) as [_ A].
  destruct (A eq_refl eq_refl) as (t' & e & E & L). exists t, t', e. split_and!; [exact R|exact E|exact L].
Defined.

(** A delete that is asked to keep the data deletes the collection's files. *)
Example delete_keeps_the_table_not_the_files : ∃ t,
  runs (serve sample_admin (CallDelete "notes" (Some false))) t (Done tt)
  ∧ Ev (ORows string DELETE_FOR_COLLECTION_SQL [PText (Some "notes")]) (DbOk ["f1"]) ∈ t ∧ ∀ s r, Ev (OBatch s) r ∉ t.
Proof.
  eexists. split; [|split].
  - found. answer (DbOk ["f1"]). answer (DbOk [sample_row]). answer (DbOk [sample_title]). done_. count. count. done_. count. split; reflexivity.
  - do 3 right. left.
  - intros s r M. by repeat (apply elem_of_cons in M as [M|M]; [discriminate|]); apply elem_of_nil in M.
Qed.

(** A delete by id deletes the collection and none of its files, which are kept
    under its name. *)
Example delete_by_id_forgets_the_files : ∃ t,
  runs (serve sample_admin (CallDelete "id0" None)) t (Done tt) ∧ cr_name sample_row = "notes"
  ∧ ∀ params r, Ev (ORows string DELETE_FOR_COLLECTION_SQL params) r ∈ t → params = [PText (Some "id0")].
Proof.
  eexists. split; [|split; [reflexivity|]].
  - found. no_files. answer (DbOk [sample_row]). answer (DbOk [sample_title]). done_. done_. count. count. done_. count. split; reflexivity.
  - intros params r M. repeat (apply elem_of_cons in M as [M|M]; [try discriminate; by inversion M|]). by apply elem_of_nil in M.
Qed.

(** A change that cannot be recorded is reported as failed, and stays. *)
Example unrecorded_change_stays : ∃ t,
  runs (serve sample_admin (CallDelete "notes" None)) t (Failed (Other Internal)) ∧ Ev OCommit (DbOk tt) ∈ t.
Proof.
  eexists. split.
  - found. no_files. answer (DbOk [sample_row]). answer (DbOk [sample_title]). done_. done_. count. count. done_.
    answer (DbErr (A:=Z) {| db_code := None |}). split; reflexivity.
  - do 10 right. left.
Qed.

(** Adding or dropping a column is not recorded at all. *)
Definition is_audit (X : Type) (o : op X) : Prop := match o with OExecute sql _ => sql = AUDIT_SQL | _ => False end.
Example field_changes_are_not_recorded : ∃ t,
  runs (serve sample_admin (CallDeleteField "notes" "title")) t (Done tt) ∧ ∀ X (o : op X) x, Ev o x ∈ t → ¬ is_audit X o.
Proof.
  eexists. split.
  - found. done_. done_. count. count. done_. split; reflexivity.
  - intros X o x M A. destruct o; try done. cbn in A. subst.
    repeat (apply elem_of_cons in M as [M|M]; [try discriminate; inversion M|]). by apply elem_of_nil in M.
Qed.

(** The tables that are adopted are registered one statement at a time: when the
    policies fail the table stays registered, without them, and the next start
    takes it for a collection that is already there. *)
Definition sample_legacy : Column :=
  {| col_table := "legacy"; col_name := "id"; data_type := "text"; type_oid := 25; not_null := true; is_primary := true;
     col_unique := true; col_position := 1; col_default := None |}.
Definition sample_legacy_row : CollectionRow :=
  {| cr_id := "id0"; cr_name := "legacy"; cr_type := "base"; cr_options := JObject [("reflected", JBool true)]; cr_rules := JObject [] |}.
Example reflection_may_leave_a_table_open : ∃ t params,
  runs reflect t (Failed (Other Invalid)) ∧ Ev (OExecute ADOPT_SQL params) (DbOk 1%Z) ∈ t
  ∧ (∀ r, Ev OBegin r ∉ t) ∧ is_skipped "legacy" ["legacy"] = true.
Proof.
  eexists _, _. split; [|split; [|split]].
  - answer (DbOk [sample_legacy]). answer (DbOk (A:=list (Z * list string)) []). answer (DbOk (A:=list string) []).
    answer "id0". count. answer "id1". count. answer (DbOk [sample_legacy_row]). nothing FieldRow.
    answer (DbErr (A:=unit) {| db_code := None |}). split; reflexivity.
  - do 4 right. left.
  - intros r M. by repeat (apply elem_of_cons in M as [M|M]; [discriminate|]); apply elem_of_nil in M.
  - reflexivity.
Qed.
