(* ===== verification/ImageCheck.v ===== *)
(** What an upload must look like, [crates/files/src/validation.rs].

    The content is a sequence of bytes nobody vouches for. Every index and
    slice of it is written with its bounds check: [None] is an index out of
    range, where the program would panic, or a loop that has no fuel left. The
    theorems show that neither happens. *)
From S2P Require Import Prelude CoreError HookHttp.

Local Open Scope N_scope.

(** * Bytes *)

Definition size_of (s : string) : N := N.of_nat (String.length s).

(** [content[i]]. *)
Definition byte_at (s : string) (i : N) : option N := byte_of <$> String.get (N.to_nat i) s.

(** [&content[lo..hi]]. *)
Definition slice (s : string) (lo hi : N) : option string :=
  if (lo <=? hi) && (hi <=? size_of s) then Some (String.substring (N.to_nat lo) (N.to_nat (hi - lo)) s) else None.

(** [u16::from_be_bytes], [from_le_bytes] and their [u32] versions. *)
Fixpoint be_value (acc : N) (s : string) : N :=
  match s with EmptyString => acc | String c r => be_value (256 * acc + byte_of c) r end.
Fixpoint le_value (s : string) : N :=
  match s with EmptyString => 0 | String c r => byte_of c + 256 * le_value r end.
Definition be_at (s : string) (lo hi : N) : option N := be_value 0 <$> slice s lo hi.
Definition le_at (s : string) (lo hi : N) : option N := le_value <$> slice s lo hi.

(** [+] of [u32], which panics when it overflows. *)
Definition u32_add (a b : N) : option N := if a + b <? 2 ^ 32 then Some (a + b) else None.

(** * Formats and limits *)

(** [enum ImageFormat], [as_str], [content_type] and [parse]. *)
Inductive ImageFormat := Png | Jpeg | Gif | Webp.
#[export] Instance ImageFormat_eq_dec : EqDecision ImageFormat.
Proof. solve_decision. Defined.

Definition format_as_str (f : ImageFormat) : string :=
  match f with Png => "png" | Jpeg => "jpeg" | Gif => "gif" | Webp => "webp" end.
Definition content_type (f : ImageFormat) : string :=
  match f with Png => "image/png" | Jpeg => "image/jpeg" | Gif => "image/gif" | Webp => "image/webp" end.
Definition format_parse (raw : string) : result ImageFormat :=
  let name := to_ascii_lowercase (trim raw) in
  if decide (name = "png") then Ok Png
  else if decide (name = "jpg" ∨ name = "jpeg") then Ok Jpeg
  else if decide (name = "gif") then Ok Gif
  else if decide (name = "webp") then Ok Webp
  else Err Config.

(** [struct UploadLimits] and its default. *)
Record UploadLimits := { max_bytes : N; max_dimension : N; allowed : list ImageFormat }.
Definition default_limits : UploadLimits := {| max_bytes := 5 * 1024 * 1024; max_dimension := 8192; allowed := [] |}.

(** * Sniffing *)

Definition byte_string (l : list N) : string := foldr (λ b s, String (ascii_of_N b) s) "" l.
Definition PNG_SIGNATURE : string := byte_string [137; 80; 78; 71; 13; 10; 26; 10].
Definition JPEG_SIGNATURE : string := byte_string [255; 216; 255].

(** [sniff]. *)
Definition sniff (content : string) : option (option ImageFormat) :=
  if starts_with PNG_SIGNATURE content then Some (Some Png)
  else if starts_with JPEG_SIGNATURE content then Some (Some Jpeg)
  else if starts_with "GIF87a" content || starts_with "GIF89a" content then Some (Some Gif)
  else if size_of content <? 12 then Some None
  else
    riff ← slice content 0 4;
    if decide (riff = "RIFF") then
      webp ← slice content 8 12;
      Some (if decide (webp = "WEBP") then Some Webp else None)
    else Some None.

(** [looks_like_svg]. *)
Definition looks_like_svg (content : string) : option bool :=
  head ← slice content 0 (N.min (size_of content) 512);
  let trimmed := trim_start (to_ascii_lowercase (lossy head)) in
  Some (starts_with "<?xml" trimmed || starts_with "<svg" trimmed || contains_text "<svg" trimmed).

(** * Dimensions *)

Definition png_dimensions (content : string) : option (option (N * N)) :=
  if size_of content <? 24 then Some None
  else
    chunk ← slice content 12 16;
    if decide (chunk ≠ "IHDR") then Some None
    else
      width ← be_at content 16 20;
      height ← be_at content 20 24;
      Some (Some (width, height)).

Definition gif_dimensions (content : string) : option (option (N * N)) :=
  if size_of content <? 10 then Some None
  else
    width ← le_at content 6 8;
    height ← le_at content 8 10;
    Some (Some (width, height)).

Definition webp_dimensions (content : string) : option (option (N * N)) :=
  if size_of content <? 30 then Some None
  else
    chunk ← slice content 12 16;
    if decide (chunk = "VP8 ") then
      width ← le_at content 26 28;
      height ← le_at content 28 30;
      Some (Some (N.land width 16383, N.land height 16383))
    else if decide (chunk = "VP8L") then
      bits ← le_at content 21 25;
      width ← u32_add (N.land bits 16383) 1;
      height ← u32_add (N.land (N.shiftr bits 14) 16383) 1;
      Some (Some (width, height))
    else if decide (chunk = "VP8X") then
      b24 ← byte_at content 24; b25 ← byte_at content 25; b26 ← byte_at content 26;
      width ← u32_add (le_value (byte_string [b24; b25; b26; 0])) 1;
      b27 ← byte_at content 27; b28 ← byte_at content 28; b29 ← byte_at content 29;
      height ← u32_add (le_value (byte_string [b27; b28; b29; 0])) 1;
      Some (Some (width, height))
    else Some None.

(** Markers without a length, and the frame headers SOF0 to SOF15. *)
Definition standalone (marker : N) : bool :=
  (marker =? 255) || (marker =? 1) || ((208 <=? marker) && (marker <=? 217)).
Definition is_frame (marker : N) : bool :=
  (192 <=? marker) && (marker <=? 207) && negb (bool_decide (marker ∈ [196; 200; 204])).

(** The loop of [jpeg_dimensions]. *)
Fixpoint jpeg_from (fuel : nat) (content : string) (index : N) : option (option (N * N)) :=
  match fuel with
  | O => None
  | S fuel =>
      if index + 9 <? size_of content then
        b ← byte_at content index;
        if negb (b =? 255) then jpeg_from fuel content (index + 1)
        else
          marker ← byte_at content (index + 1);
          if standalone marker then jpeg_from fuel content (index + 2)
          else if is_frame marker then
            height ← be_at content (index + 5) (index + 7);
            width ← be_at content (index + 7) (index + 9);
            Some (Some (width, height))
          else
            length ← be_at content (index + 2) (index + 4);
            if length <? 2 then Some None else jpeg_from fuel content (index + 2 + length)
      else Some None
  end.
Definition jpeg_dimensions (content : string) : option (option (N * N)) :=
  jpeg_from (S (String.length content)) content 2.

(** [dimensions]. *)
Definition dimensions (content : string) (f : ImageFormat) : option (option (N * N)) :=
  match f with
  | Png => png_dimensions content
  | Gif => gif_dimensions content
  | Jpeg => jpeg_dimensions content
  | Webp => webp_dimensions content
  end.

(** * [validate] *)

Definition validate (content : string) (limits : UploadLimits) : option (result ImageFormat) :=
  if size_of content =? 0 then Some (Err Invalid)
  else if max_bytes limits <? size_of content then Some (Err Invalid)
  else
    svg ← looks_like_svg content;
    if svg : bool then Some (Err Invalid)
    else
      sniffed ← sniff content;
      match sniffed with
      | None => Some (Err Invalid)
      | Some f =>
          if negb (bool_decide (allowed limits = [])) && negb (bool_decide (f ∈ allowed limits)) then Some (Err Invalid)
          else
            measured ← dimensions content f;
            Some (match measured with
                  | None => Err Invalid
                  | Some (width, height) =>
                      if (width =? 0) || (height =? 0) then Err Invalid
                      else if (max_dimension limits <? width) || (max_dimension limits <? height) then Err Invalid
                      else Ok f
                  end)
      end.

(** * No index is out of range *)

Lemma size_of_app s t : size_of (s +:+ t) = size_of s + size_of t.
Proof. unfold size_of. rewrite str_length_app. lia. Qed.

Lemma get_lt s i : (i < String.length s)%nat → ∃ c, String.get i s = Some c.
Proof. revert i. induction s as [|c s IH]; intros [|i] H; cbn in *; [lia..|by exists c|]. apply IH. lia. Qed.

Lemma byte_at_total s i : i < size_of s → ∃ b, byte_at s i = Some b ∧ b < 256.
Proof.
  unfold size_of, byte_at. intros H. destruct (get_lt s (N.to_nat i)) as [c ->]; [lia|].
  exists (byte_of c). split; [done|]. apply N_ascii_bounded.
Qed.

Lemma substring_exact n m s : (n + m ≤ String.length s)%nat → String.length (String.substring n m s) = m.
Proof.
  revert n m. induction s as [|c s IH]; intros [|n] [|m] H; cbn in *; try lia; [|apply (IH n 0%nat); lia|apply (IH n (S m)); lia].
  f_equal. apply (IH 0%nat m). lia.
Qed.

Lemma slice_total s lo hi : lo ≤ hi → hi ≤ size_of s → ∃ t, slice s lo hi = Some t ∧ size_of t = hi - lo.
Proof.
  unfold slice, size_of. intros H1 H2. rewrite (proj2 (N.leb_le _ _) H1), (proj2 (N.leb_le _ _) H2). eexists. split; [done|].
  rewrite substring_exact; lia.
Qed.

Lemma be_value_lt acc s : be_value acc s < (acc + 1) * 256 ^ size_of s.
Proof.
  revert acc. induction s as [|c s IH]; intros acc; cbn [be_value]; [change (size_of "") with 0; rewrite N.pow_0_r; lia|].
  eapply N.lt_le_trans; [apply IH|]. unfold size_of. cbn [String.length]. rewrite Nat2N.inj_succ, N.pow_succ_r'.
  pose proof (N_ascii_bounded c) as B. unfold byte_of. assert (0 < 256 ^ N.of_nat (String.length s)) by (apply N.neq_0_lt_0, N.pow_nonzero; lia). nia.
Qed.

Lemma le_value_lt s : le_value s < 256 ^ size_of s.
Proof.
  induction s as [|c s IH]; cbn [le_value]; [change (size_of "") with 0; rewrite N.pow_0_r; lia|]. unfold size_of in *. cbn [String.length]. rewrite Nat2N.inj_succ, N.pow_succ_r'.
  pose proof (N_ascii_bounded c) as B. unfold byte_of. nia.
Qed.

Lemma be_at_total s lo hi : lo ≤ hi → hi ≤ size_of s → ∃ n, be_at s lo hi = Some n ∧ n < 256 ^ (hi - lo).
Proof.
  intros H1 H2. destruct (slice_total s lo hi H1 H2) as (t & E & L). unfold be_at. rewrite E. eexists. split; [done|].
  rewrite <-L. pose proof (be_value_lt 0 t). lia.
Qed.

Lemma le_at_total s lo hi : lo ≤ hi → hi ≤ size_of s → ∃ n, le_at s lo hi = Some n ∧ n < 256 ^ (hi - lo).
Proof.
  intros H1 H2. destruct (slice_total s lo hi H1 H2) as (t & E & L). unfold le_at. rewrite E. eexists. split; [done|].
  rewrite <-L. apply le_value_lt.
Qed.

Lemma u32_add_total a : a < 2 ^ 24 → u32_add a 1 = Some (a + 1).
Proof. intros H. unfold u32_add. rewrite (proj2 (N.ltb_lt _ _)); [done|]. lia. Qed.

(** Reads the next bytes: the bounds are arithmetic. *)
Ltac reads :=
  repeat match goal with
  | |- context [slice ?s ?lo ?hi] =>
      let t := fresh "t" in let E := fresh "E" in let L := fresh "L" in
      destruct (slice_total s lo hi) as (t & E & L); [lia|lia|]; rewrite E; cbn [mbind option_bind]
  | |- context [be_at ?s ?lo ?hi] =>
      let n := fresh "n" in let E := fresh "E" in let L := fresh "L" in
      destruct (be_at_total s lo hi) as (n & E & L); [lia|lia|]; rewrite E; cbn [mbind option_bind]
  | |- context [le_at ?s ?lo ?hi] =>
      let n := fresh "n" in let E := fresh "E" in let L := fresh "L" in
      destruct (le_at_total s lo hi) as (n & E & L); [lia|lia|]; rewrite E; cbn [mbind option_bind]
  | |- context [byte_at ?s ?i] =>
      let b := fresh "b" in let E := fresh "E" in let L := fresh "L" in
      destruct (byte_at_total s i) as (b & E & L); [lia|]; rewrite E; cbn [mbind option_bind]
  end.

Lemma sniff_total s : is_Some (sniff s).
Proof.
  unfold sniff. repeat case_match; try done. apply N.ltb_ge in H2. reads. case_decide; [|done]. reads. done.
Qed.

Lemma looks_like_svg_total s : is_Some (looks_like_svg s).
Proof. unfold looks_like_svg. reads. done. Qed.

Lemma land_small a k : N.land a (N.ones k) < 2 ^ k.
Proof. rewrite N.land_ones. apply N.mod_lt. apply N.pow_nonzero. lia. Qed.

Lemma le3_small a b c : a < 256 → b < 256 → c < 256 → le_value (byte_string [a; b; c; 0]) < 2 ^ 24.
Proof. intros A B C. cbn. unfold byte_of. rewrite !N_ascii_embedding by lia. lia. Qed.

Lemma webp_dimensions_total s : is_Some (webp_dimensions s).
Proof.
  unfold webp_dimensions. destruct (size_of s <? 30) eqn:L0; [done|]. apply N.ltb_ge in L0. reads.
  case_decide; [by reads|]. case_decide.
  { reads. change 16383 with (N.ones 14). assert (∀ a, N.land a (N.ones 14) < 2 ^ 24) as B by (intros a; eapply N.lt_trans; [apply land_small|done]).
    rewrite !u32_add_total by apply B. done. }
  case_decide; [|done]. reads. rewrite u32_add_total by (by apply le3_small). cbn [mbind option_bind]. reads.
  rewrite u32_add_total by (by apply le3_small). done.
Qed.

(** The scan moves forward in every round, so it ends. *)
Lemma jpeg_from_total fuel s i : (0 < fuel)%nat → size_of s < i + N.of_nat fuel → is_Some (jpeg_from fuel s i).
Proof.
  revert i. induction fuel as [|fuel IH]; intros i F H; [lia|]. cbn [jpeg_from].
  destruct (i + 9 <? size_of s) eqn:L0; [|done]. apply N.ltb_lt in L0. reads.
  repeat case_match; try done; rewrite ?N.ltb_ge in *; apply IH; lia.
Qed.

Lemma dimensions_total s f : is_Some (dimensions s f).
Proof.
  destruct f; cbn [dimensions]; [| |..|apply webp_dimensions_total].
  - unfold png_dimensions. destruct (size_of s <? 24) eqn:L0; [done|]. apply N.ltb_ge in L0. reads. case_decide; [done|]. by reads.
  - apply jpeg_from_total; [lia|]. unfold size_of. lia.
  - unfold gif_dimensions. destruct (size_of s <? 10) eqn:L0; [done|]. apply N.ltb_ge in L0. by reads.
Qed.

(** * What [looks_like_svg] sees *)

Definition is_ascii (c : ascii) : bool := in_range 0 127 c.

(** The decoding takes one byte of ASCII as it is, or some bytes that are none. *)
Lemma lossy_step a r : ∃ u v w,
  String a r = u +:+ v ∧ u ≠ "" ∧ lossy (String a r) = w +:+ lossy v
  ∧ (u = String a "" ∧ is_ascii a = true ∨ str_forall (λ c, negb (is_ascii c)) u = true).
Proof.
  cbn [lossy]. change (in_range 0 127) with is_ascii. destruct (is_ascii a) eqn:A.
  { exists (String a ""), r, (String a ""). by split_and!; [..|left]. }
  assert (∀ lo hi c, in_range lo hi c = true → 128 ≤ lo → is_ascii c = false) as R.
  { unfold is_ascii, in_range. intros lo hi c [H1 H2]%andb_true_iff H3. apply N.leb_le in H1. apply andb_false_iff. right. apply N.leb_gt. lia. }
  assert (∀ b, second_of_3 a b = true → is_ascii b = false) as N3.
  { unfold second_of_3, cont, is_ascii, in_range. intros b S. apply andb_false_iff. right. apply N.leb_gt.
    repeat case_match; rewrite ?andb_true_iff, ?N.leb_le in S; lia. }
  assert (∀ b, second_of_4 a b = true → is_ascii b = false) as N4.
  { unfold second_of_4, cont, is_ascii, in_range. intros b S. apply andb_false_iff. right. apply N.leb_gt.
    repeat case_match; rewrite ?andb_true_iff, ?N.leb_le in S; lia. }
  assert (∀ c, cont c = true → is_ascii c = false) as NC by (intros c S; eapply R; [exact S|lia]).
  assert (∀ u v w : string, u <> "" → str_forall (λ c, negb (is_ascii c)) u = true →
    String a r = u +:+ v → lossy (String a r) = w +:+ lossy v →
    ∃ u v w, String a r = u +:+ v ∧ u ≠ "" ∧ lossy (String a r) = w +:+ lossy v
      ∧ (u = String a "" ∧ is_ascii a = true ∨ str_forall (λ c, negb (is_ascii c)) u = true)) as K by (intros u v w; exists u, v, w; naive_solver).
  cbn [lossy] in K. change (in_range 0 127 a) with (is_ascii a) in K. rewrite A in K.
  destruct r as [|b r2]; [eapply (K (String a "") "" replacement); [done|by cbn; rewrite A|done|done]|].
  destruct (in_range 194 223 a && cont b) eqn:E2.
  { apply andb_true_iff in E2 as [_ B%NC]. by eapply (K (String a (String b "")) r2 (String a (String b ""))); [|cbn; rewrite A, B|..]. }
  destruct (second_of_3 a b) eqn:E3.
  { apply N3 in E3. destruct r2 as [|c r3]; [by eapply (K (String a (String b "")) "" replacement); [|cbn; rewrite A, E3|..]|].
    destruct (cont c) eqn:C; [|by eapply (K (String a (String b "")) (String c r3) replacement); [|cbn; rewrite A, E3|..]].
    apply NC in C. by eapply (K (String a (String b (String c ""))) r3 (String a (String b (String c "")))); [|cbn; rewrite A, E3, C|..]. }
  destruct (second_of_4 a b) eqn:E4; [|by eapply (K (String a "") (String b r2) replacement); [|cbn; rewrite A|..]].
  apply N4 in E4. destruct r2 as [|c r3]; [by eapply (K (String a (String b "")) "" replacement); [|cbn; rewrite A, E4|..]|].
  destruct (cont c) eqn:C; [|by eapply (K (String a (String b "")) (String c r3) replacement); [|cbn; rewrite A, E4|..]].
  apply NC in C. destruct r3 as [|d r4]; [by eapply (K (String a (String b (String c ""))) "" replacement); [|cbn; rewrite A, E4, C|..]|].
  destruct (cont d) eqn:D; [|by eapply (K (String a (String b (String c ""))) (String d r4) replacement); [|cbn; rewrite A, E4, C|..]].
  apply NC in D. by eapply (K (String a (String b (String c (String d "")))) r4 (String a (String b (String c (String d ""))))); [|cbn; rewrite A, E4, C, D|..].
Qed.

(** Appends that start with a piece that has none of the bytes of the other. *)
Lemma app_split u v pre t post :
  u +:+ v = pre +:+ (t +:+ post) → str_forall (λ c, negb (is_ascii c)) u = true → str_forall is_ascii t = true → t ≠ "" →
  ∃ pre', pre = u +:+ pre' ∧ v = pre' +:+ (t +:+ post).
Proof.
  revert pre. induction u as [|a u IH]; intros pre E U T N; [by exists pre|].
  cbn in U. apply andb_true_iff in U as [A U]. rewrite str_app_cons in E. destruct pre as [|b pre].
  - destruct t as [|b t]; [done|]. rewrite str_app_nil_l, str_app_cons in E. injection E as -> _. cbn in T.
    apply andb_true_iff in T as [T _]. by rewrite T in A.
  - rewrite str_app_cons in E. injection E as -> E. destruct (IH pre E U T N) as (p & -> & ->). by exists p.
Qed.

Lemma lossy_ascii_app t post : str_forall is_ascii t = true → lossy (t +:+ post) = t +:+ lossy post.
Proof.
  induction t as [|c t IH]; [done|]. cbn [str_forall]. intros [A T]%andb_true_iff. rewrite !str_app_cons. cbn [lossy].
  change (in_range 0 127 c) with (is_ascii c). by rewrite A, IH.
Qed.

(** Text in ASCII survives the decoding wherever it stands. *)
Lemma lossy_keeps_ascii pre t post : str_forall is_ascii t = true → t ≠ "" →
  ∃ x y, lossy (pre +:+ (t +:+ post)) = x +:+ (t +:+ y).
Proof.
  intros T N. remember (String.length pre) as n eqn:L. revert pre L. induction (lt_wf n) as [n _ IH]. intros pre ->.
  destruct pre as [|a pre].
  { exists "", (lossy post). by rewrite str_app_nil_l, lossy_ascii_app. }
  destruct (lossy_step a (pre +:+ (t +:+ post))) as (u & v & w & E & NU & LE & K). rewrite str_app_cons, LE.
  assert (∃ pre', String a pre = u +:+ pre' ∧ v = pre' +:+ (t +:+ post)) as (pre' & E1 & ->).
  { destruct K as [[-> _]|K]; [exists pre; injection E as E; rewrite str_app_nil_l in E; by rewrite <-E|].
    apply app_split; [by rewrite <-E|done..]. }
  destruct (IH (String.length pre')) with pre' as (x & y & ->); [|done|].
  - rewrite E1, str_length_app. destruct u; [done|]. cbn. lia.
  - exists (w +:+ x), y. by rewrite str_app_assoc.
Qed.

Lemma lower_app s t : to_ascii_lowercase (s +:+ t) = to_ascii_lowercase s +:+ to_ascii_lowercase t.
Proof. induction s as [|c s IH]; [done|]. rewrite str_app_cons. cbn. unfold to_ascii_lowercase in *. by rewrite IH, str_app_cons. Qed.

Lemma contains_app p x y : contains_text p (x +:+ (p +:+ y)) = true.
Proof.
  assert (∀ a, strip_prefix a (a +:+ y) = Some y) as P.
  { induction a as [|c a IH]; [done|]. rewrite str_app_cons. cbn. by rewrite decide_True. }
  induction x as [|c x IH]; [rewrite str_app_nil_l; destruct (p +:+ y) eqn:E; cbn; unfold starts_with; rewrite <-E, P; done|].
  rewrite str_app_cons. cbn [contains_text]. by rewrite IH, orb_true_r.
Qed.

(** What white space cannot hide. *)
Lemma trim_start_keeps x t y : is_ascii t = true → is_ws1 t = false → ∃ z, trim_start (x +:+ String t y) = z +:+ String t y.
Proof.
  intros A W.
  assert (∀ a, is_ws2 a t = false) as W2.
  { intros a. unfold is_ws2, is_ascii, in_range in *. apply andb_true_iff in A as [_ A%N.leb_le]. apply andb_false_iff. right.
    apply orb_false_iff. rewrite !N.eqb_neq. lia. }
  assert (∀ a b, is_ws3 a b t = false ∧ is_ws3 a t b = false) as W3.
  { intros a b. unfold is_ws3, is_ascii, in_range in *. apply andb_true_iff in A as [_ A%N.leb_le]. cbv zeta.
    split; repeat (apply orb_false_iff; split); apply not_true_iff_false; rewrite !andb_true_iff, ?orb_true_iff, ?andb_true_iff, ?N.eqb_eq, ?N.leb_le; lia. }
  remember (String.length x) as n eqn:L. revert x L. induction (lt_wf n) as [n _ IH]. intros x ->.
  assert (∀ x', (String.length x' < String.length x)%nat → ∃ z, trim_start (x' +:+ String t y) = z +:+ String t y) as R
    by (intros x' H'; by apply (IH _ H')). clear IH.
  assert (trim_start (String t y) = String t y) as B.
  { cbn. rewrite W. destruct y as [|b y]; [done|]. destruct (is_ws2 t b) eqn:E2.
    - unfold is_ws2, is_ascii, in_range in *. apply andb_true_iff in A as [_ A%N.leb_le]. apply andb_true_iff in E2 as [E2%N.eqb_eq _]. lia.
    - destruct y as [|c y]; [done|]. destruct (is_ws3 t b c) eqn:E3; [|done].
      unfold is_ws3, is_ascii, in_range in *. apply andb_true_iff in A as [_ A%N.leb_le]. exfalso. revert E3. cbv zeta.
      rewrite !orb_true_iff, !andb_true_iff, !N.eqb_eq. lia. }
  destruct x as [|a x]; [by exists ""|]. rewrite str_app_cons. cbn [trim_start]. destruct (is_ws1 a); [apply R; cbn; lia|].
  destruct x as [|b x]; [rewrite str_app_nil_l, W2; destruct y as [|c y]; [by exists (String a "")|];
    rewrite (proj2 (W3 a c)); by exists (String a "")|].
  rewrite str_app_cons. destruct (is_ws2 a b); [apply R; cbn; lia|].
  destruct x as [|c x]; [rewrite str_app_nil_l, (proj1 (W3 a b)); by exists (String a (String b ""))|].
  rewrite str_app_cons. destruct (is_ws3 a b c); [apply R; cbn; lia|]. by exists (String a (String b (String c x))).
Qed.

(** No [<svg], in any case, in the head of what is not refused as SVG. *)
Lemma looks_like_svg_finds s head pre tag post :
  slice s 0 (N.min (size_of s) 512) = Some head → head = pre +:+ (tag +:+ post) → to_ascii_lowercase tag = "<svg" →
  looks_like_svg s = Some true.
Proof.
  intros E -> T. unfold looks_like_svg. rewrite E. cbn [mbind option_bind]. f_equal.
  assert (str_forall is_ascii tag = true ∧ tag ≠ "") as [A N].
  { split; [|by intros ->]. unfold to_ascii_lowercase in T.
    assert (∀ c, is_ascii (ascii_lower c) = true → is_ascii c = true) as K by (intros c; by_bytes c).
    assert (∀ u, str_forall is_ascii (str_map ascii_lower u) = true → str_forall is_ascii u = true) as F.
    { induction u as [|c u IH]; [done|]. cbn. rewrite !andb_true_iff. naive_solver. }
    apply F. by rewrite T. }
  destruct (lossy_keeps_ascii pre tag post A N) as (x & y & ->). rewrite !lower_app, T.
  change ("<svg" +:+ ?z) with (String "<" ("svg" +:+ z)).
  destruct (trim_start_keeps (to_ascii_lowercase x) "<" ("svg" +:+ to_ascii_lowercase y)) as [z ->]; [done..|].
  change (String "<" ("svg" +:+ ?z)) with ("<svg" +:+ z). by rewrite contains_app, orb_true_r.
Qed.

(** * A JPEG with its segments in order is measured by its frame *)

Definition be16 (n : N) : string := byte_string [n / 256; n mod 256].
Record Segment := { marker : N; payload : string }.
Definition segment_bytes (s : Segment) : string :=
  byte_string [255; marker s] +:+ (be16 (size_of (payload s) + 2) +:+ payload s).
Definition plain_segment (s : Segment) : Prop :=
  marker s < 256 ∧ standalone (marker s) = false ∧ is_frame (marker s) = false ∧ size_of (payload s) + 2 < 65536.
Definition frame_bytes (frame length precision height width : N) : string :=
  byte_string [255; frame] +:+ (be16 length +:+ (byte_string [precision] +:+ (be16 height +:+ be16 width))).
Fixpoint segments_bytes (l : list Segment) : string :=
  match l with [] => "" | s :: l => segment_bytes s +:+ segments_bytes l end.
Definition jpeg_file (l : list Segment) (frame length precision height width : N) (tail : string) : string :=
  byte_string [255; 216] +:+ (segments_bytes l +:+ (frame_bytes frame length precision height width +:+ tail)).

Lemma get_app pre s i : String.get (String.length pre + i) (pre +:+ s) = String.get i s.
Proof. induction pre as [|c p IH]; [done|]. rewrite str_app_cons. cbn. apply IH. Qed.
Lemma substring_app pre s n m : String.substring (String.length pre + n) m (pre +:+ s) = String.substring n m s.
Proof. induction pre as [|c p IH]; [done|]. rewrite str_app_cons. cbn. apply IH. Qed.

Lemma byte_at_app pre s k : byte_at (pre +:+ s) (size_of pre + k) = byte_at s k.
Proof. unfold byte_at, size_of. by rewrite N2Nat.inj_add, Nat2N.id, get_app. Qed.
Lemma be_at_app pre s lo hi : be_at (pre +:+ s) (size_of pre + lo) (size_of pre + hi) = be_at s lo hi.
Proof.
  unfold be_at, slice. rewrite size_of_app.
  replace (N.to_nat (size_of pre + lo)) with (String.length pre + N.to_nat lo)%nat by (unfold size_of; lia). rewrite substring_app.
  replace (size_of pre + hi - (size_of pre + lo)) with (hi - lo) by lia.
  replace (size_of pre + lo <=? size_of pre + hi) with (lo <=? hi) by (apply eq_true_iff_eq; rewrite !N.leb_le; lia).
  replace (size_of pre + hi <=? size_of pre + size_of s) with (hi <=? size_of s) by (apply eq_true_iff_eq; rewrite !N.leb_le; lia).
  done.
Qed.

(** What stands before the index does not matter. *)
Lemma jpeg_from_app fuel pre s i : jpeg_from fuel (pre +:+ s) (size_of pre + i) = jpeg_from fuel s i.
Proof.
  revert i. induction fuel as [|fuel IH]; intros i; [done|]. cbn [jpeg_from].
  replace (size_of pre + i + 9 <? size_of (pre +:+ s)) with (i + 9 <? size_of s)
    by (rewrite size_of_app; apply eq_true_iff_eq; rewrite !N.ltb_lt; lia).
  destruct (_ <? _); [|done]. rewrite <-!N.add_assoc, !byte_at_app, !be_at_app. destruct (byte_at s i) as [b|]; cbn [mbind option_bind]; [|done].
  rewrite IH. destruct (negb _); [done|]. destruct (byte_at s (i + 1)) as [m|]; cbn [mbind option_bind]; [|done].
  rewrite IH. destruct (standalone m); [done|]. destruct (is_frame m); [done|].
  destruct (be_at s (i + 2) (i + 4)) as [n|]; cbn [mbind option_bind]; [|done]. destruct (n <? 2); [done|]. by rewrite <-!N.add_assoc, IH.
Qed.

Lemma be16_value n : n < 65536 → be_value 0 (be16 n) = n.
Proof.
  intros H. cbn. unfold byte_of. assert (n / 256 < 256) by (apply N.Div0.div_lt_upper_bound; lia).
  pose proof (N.mod_lt n 256). rewrite !N_ascii_embedding by lia. pose proof (N.div_mod n 256). lia.
Qed.

Lemma be_at_prefix x a b y :
  be_at (x +:+ (String a (String b y))) (size_of x) (size_of x + 2) = Some (be_value 0 (String a (String b ""))).
Proof.
  rewrite <-(N.add_0_r (size_of x)) at 1. rewrite be_at_app. unfold be_at, slice, size_of. cbn [String.length].
  rewrite (proj2 (N.leb_le 2 _)) by lia. cbn. by destruct y.
Qed.
Lemma be16_at x n y lo : size_of x = lo → n < 65536 → be_at (x +:+ (be16 n +:+ y)) lo (lo + 2) = Some n.
Proof. intros <- H. rewrite <-(be16_value n H) at 2. apply be_at_prefix. Qed.

Lemma byte_at_head a b y : a < 256 → b < 256 → byte_at (byte_string [a; b] +:+ y) 0 = Some a ∧ byte_at (byte_string [a; b] +:+ y) 1 = Some b.
Proof.
  intros A B. split; [change (Some (byte_of (ascii_of_N a)) = Some a)|change (Some (byte_of (ascii_of_N b)) = Some b)];
    unfold byte_of; by rewrite N_ascii_embedding.
Qed.

Lemma segment_size s : size_of (segment_bytes s) = size_of (payload s) + 4.
Proof. unfold segment_bytes. rewrite !size_of_app. change (size_of (byte_string [255; marker s])) with 2. change (size_of (be16 _)) with 2. lia. Qed.

(** A segment is stepped over, and a frame is read. *)
Lemma jpeg_from_segment fuel s rest : plain_segment s → 6 ≤ size_of rest →
  jpeg_from (S fuel) (segment_bytes s +:+ rest) 0 = jpeg_from fuel rest 0.
Proof.
  intros (M & St & Fr & L) R. rewrite <-(jpeg_from_app fuel (segment_bytes s) rest 0). cbn [jpeg_from].
  rewrite size_of_app, segment_size. rewrite (proj2 (N.ltb_lt _ _)) by lia.
  unfold segment_bytes. rewrite <-!str_app_assoc. destruct (byte_at_head 255 (marker s) (be16 (size_of (payload s) + 2) +:+ (payload s +:+ rest))) as [-> B]; [done..|].
  cbn [mbind option_bind]. change (negb (255 =? 255)) with false. cbv iota. change (0 + 1) with 1. rewrite B. cbn [mbind option_bind]. rewrite St, Fr.
  change (0 + 4) with (2 + 2). change (0 + 2) with 2. rewrite be16_at by done. cbn [mbind option_bind].
  rewrite (proj2 (N.ltb_ge _ _)) by lia. f_equal. lia.
Qed.

Lemma jpeg_from_frame fuel frame length precision height width tail :
  frame < 256 → is_frame frame = true → standalone frame = false → height < 65536 → width < 65536 → tail ≠ "" →
  jpeg_from (S fuel) (frame_bytes frame length precision height width +:+ tail) 0 = Some (Some (width, height)).
Proof.
  intros F1 F2 F3 H W T. cbn [jpeg_from]. unfold frame_bytes. rewrite <-!str_app_assoc.
  assert (0 < size_of tail) as P by (destruct tail; [done|]; unfold size_of; cbn; lia).
  rewrite !size_of_app. change (size_of (byte_string [255; frame])) with 2. change (size_of (byte_string [precision])) with 1.
  change (size_of (be16 ?n)) with 2. rewrite (proj2 (N.ltb_lt _ _)) by lia.
  destruct (byte_at_head 255 frame (be16 length +:+ (byte_string [precision] +:+ (be16 height +:+ (be16 width +:+ tail))))) as [-> B]; [done..|].
  cbn [mbind option_bind]. change (negb (255 =? 255)) with false. cbv iota. change (0 + 1) with 1. rewrite B. cbn [mbind option_bind]. rewrite F2, F3.
  pose proof (be16_at (byte_string [255; frame] +:+ (be16 length +:+ byte_string [precision])) height (be16 width +:+ tail) 5) as Hh.
  pose proof (be16_at (byte_string [255; frame] +:+ (be16 length +:+ (byte_string [precision] +:+ be16 height))) width tail 7) as Ww.
  repeat rewrite <-str_app_assoc in Hh. repeat rewrite <-str_app_assoc in Ww. change (0 + 7) with (5 + 2). change (0 + 5) with 5. rewrite Hh by done. cbn [mbind option_bind].
  change (5 + 2) with 7. change (0 + 9) with (7 + 2). by rewrite Ww by done.
Qed.

(** A file whose markers stand at the beginning of their segments is measured
    by its frame: what the other segments hold does not matter. *)
Lemma jpeg_file_measured l frame length precision height width tail :
  Forall plain_segment l → frame < 256 → is_frame frame = true → standalone frame = false → height < 65536 → width < 65536 → tail ≠ "" →
  jpeg_dimensions (jpeg_file l frame length precision height width tail) = Some (Some (width, height)).
Proof.
  intros P F1 F2 F3 H W T. unfold jpeg_dimensions, jpeg_file.
  assert (∀ fuel, (List.length l < fuel)%nat →
    jpeg_from fuel (segments_bytes l +:+ (frame_bytes frame length precision height width +:+ tail)) 0 = Some (Some (width, height))) as E.
  { induction P as [|s l Hs P IH]; intros fuel L.
    - destruct fuel; [lia|]. cbn [segments_bytes]. rewrite str_app_nil_l. by apply jpeg_from_frame.
    - cbn in L. destruct fuel as [|fuel]; [lia|]. cbn [segments_bytes]. rewrite <-str_app_assoc. rewrite jpeg_from_segment; [apply IH; lia|done|].
      rewrite !size_of_app. unfold frame_bytes. rewrite !size_of_app. change (size_of (byte_string [255; frame])) with 2.
      change (size_of (be16 ?n)) with 2. lia. }
  rewrite (jpeg_from_app _ (byte_string [255; 216]) _ 0). apply E.
  rewrite !str_length_app. assert (List.length l ≤ String.length (segments_bytes l))%nat; [|lia].
  clear. induction l as [|s l IH]; [done|]. cbn [segments_bytes List.length]. rewrite str_length_app.
  pose proof (segment_size s) as Z. unfold size_of in Z. lia.
Qed.

(** * What a header states

    The formats as they are documented, on their bytes: PNG's first chunk,
    GIF's logical screen, the first chunk of a WebP container in its three
    kinds, and the first frame of a JPEG whose markers are not preceded by fill
    bytes. *)
Definition webp_file (content chunk data : string) : Prop :=
  ∃ riff_size chunk_size, size_of riff_size = 4 ∧ size_of chunk_size = 4
    ∧ content = "RIFF" +:+ (riff_size +:+ ("WEBP" +:+ (chunk +:+ (chunk_size +:+ data)))).

Inductive states (content : string) : ImageFormat → N → N → Prop :=
  | states_png length w h rest :
      content = PNG_SIGNATURE +:+ (length +:+ ("IHDR" +:+ (w +:+ (h +:+ rest)))) →
      size_of length = 4 → size_of w = 4 → size_of h = 4 → states content Png (be_value 0 w) (be_value 0 h)
  | states_gif version w h rest :
      version = "GIF87a" ∨ version = "GIF89a" → content = version +:+ (w +:+ (h +:+ rest)) →
      size_of w = 2 → size_of h = 2 → states content Gif (le_value w) (le_value h)
  | states_webp_lossy frame_tag start_code w h rest :
      webp_file content "VP8 " (frame_tag +:+ (start_code +:+ (w +:+ (h +:+ rest)))) →
      size_of frame_tag = 3 → size_of start_code = 3 → size_of w = 2 → size_of h = 2 →
      states content Webp (le_value w mod 2 ^ 14) (le_value h mod 2 ^ 14)
  | states_webp_lossless signature bits rest :
      webp_file content "VP8L" (signature +:+ (bits +:+ rest)) → size_of signature = 1 → size_of bits = 4 →
      states content Webp (le_value bits mod 2 ^ 14 + 1) (le_value bits / 2 ^ 14 mod 2 ^ 14 + 1)
  | states_webp_extended flags w h rest :
      webp_file content "VP8X" (flags +:+ (w +:+ (h +:+ rest))) → size_of flags = 4 → size_of w = 3 → size_of h = 3 →
      states content Webp (le_value w + 1) (le_value h + 1)
  | states_jpeg segments frame length precision height width tail :
      content = jpeg_file segments frame length precision height width tail → Forall plain_segment segments →
      frame < 256 → is_frame frame = true → height < 65536 → width < 65536 → tail ≠ "" →
      states content Jpeg width height.

Lemma substring_prefix y z : String.substring 0 (String.length y) (y +:+ z) = y.
Proof. induction y as [|c y IH]; [by destruct z|]. rewrite str_app_cons. cbn. by rewrite IH. Qed.

Lemma slice_mid x y z lo hi : size_of x = lo → lo + size_of y = hi → slice (x +:+ (y +:+ z)) lo hi = Some y.
Proof.
  intros <- <-. unfold slice. rewrite !size_of_app. rewrite (proj2 (N.leb_le _ _)), (proj2 (N.leb_le _ _)) by lia. cbn [andb]. f_equal.
  replace (N.to_nat (size_of x)) with (String.length x + 0)%nat by (unfold size_of; lia). rewrite substring_app.
  replace (N.to_nat (size_of x + size_of y - size_of x)) with (String.length y) by (unfold size_of; lia). apply substring_prefix.
Qed.

Lemma cut n s : n ≤ size_of s → ∃ a b, s = a +:+ b ∧ size_of a = n ∧ size_of b = size_of s - n.
Proof.
  revert n. induction s as [|c s IH]; intros n L.
  { assert (n = 0) as -> by (unfold size_of in L; cbn in L; lia). by exists "", "". }
  destruct (decide (n = 0)) as [->|N0]; [exists "", (String c s); split_and!; [done|done|lia]|].
  assert (E : ∀ t, size_of (String c t) = size_of t + 1) by (intros t; unfold size_of; cbn; lia). rewrite E in L.
  destruct (IH (n - 1) ltac:(lia)) as (a & b & -> & A & B). exists (String c a), b. rewrite !E. split_and!; [done|lia|lia].
Qed.

(** The slice of the pieces of a text, whose bounds are their sizes. *)
Lemma piece (pre : list string) y z lo hi s :
  s = foldr (λ a b, a +:+ b) (y +:+ z) pre → lo = foldr (λ a n, size_of a + n) 0 pre → hi = lo + size_of y → slice s lo hi = Some y.
Proof.
  intros -> -> ->. assert (E : ∀ t, foldr (λ a b, a +:+ b) t pre = foldr (λ a b, a +:+ b) "" pre +:+ t).
  { intros t. induction pre as [|a pre IH]; [done|]. cbn. by rewrite IH, str_app_assoc. }
  rewrite E. apply slice_mid; [|done]. clear E. induction pre as [|a pre IH]; [done|]. cbn. by rewrite size_of_app, IH.
Qed.

Lemma measured_png content w h d : states content Png w h → dimensions content Png = Some (Some d) → d = (w, h).
Proof.
  inversion_clear 1 as [len wb hb rest E S1 S2 S3| | | | |]. cbn [dimensions]. unfold png_dimensions. case_match; [done|].
  rewrite (piece [PNG_SIGNATURE; len] "IHDR" (wb +:+ (hb +:+ rest)) 12 16 content); [|exact E|by cbn; rewrite S1|done].
  cbn [mbind option_bind]. rewrite decide_False by tauto.
  unfold be_at. rewrite (piece [PNG_SIGNATURE; len; "IHDR"] wb (hb +:+ rest) 16 20 content);
    [|exact E|by cbn; rewrite S1|by rewrite S2].
  rewrite (piece [PNG_SIGNATURE; len; "IHDR"; wb] hb rest 20 24 content); [|exact E|by cbn; rewrite S1, S2|by rewrite S3].
  by intros [= <-].
Qed.

Lemma measured_gif content w h d : states content Gif w h → dimensions content Gif = Some (Some d) → d = (w, h).
Proof.
  inversion_clear 1 as [|v wb hb rest V E S2 S3| | | |]. cbn [dimensions]. unfold gif_dimensions. case_match; [done|].
  assert (S1 : size_of v = 6) by (destruct V as [-> | ->]; done).
  unfold le_at. rewrite (piece [v] wb (hb +:+ rest) 6 8 content); [|exact E|by cbn; rewrite S1|by rewrite S2].
  rewrite (piece [v; wb] hb rest 8 10 content); [|exact E|by cbn; rewrite S1, S2|by rewrite S3]. by intros [= <-].
Qed.

Lemma chunk_at content chunk data : webp_file content chunk data → size_of chunk = 4 → slice content 12 16 = Some chunk.
Proof.
  intros (rs & cs & S1 & S2 & E) S3. apply (piece ["RIFF"; rs; "WEBP"] chunk (cs +:+ data)); [exact E|by cbn; rewrite S1|by rewrite S3].
Qed.

(** A piece of the data of a chunk, which starts at 20. *)
Lemma data_piece content chunk data pre y z lo hi :
  webp_file content chunk data → size_of chunk = 4 → data = foldr (λ a b, a +:+ b) (y +:+ z) pre →
  lo = 20 + foldr (λ a n, size_of a + n) 0 pre → hi = lo + size_of y → slice content lo hi = Some y.
Proof.
  intros (rs & cs & S1 & S2 & E) S3 -> -> ->. apply (piece (["RIFF"; rs; "WEBP"; chunk; cs] ++ pre) y z); [|cbn; rewrite S1, S2, S3|done].
  - exact E.
  - change (size_of "RIFF") with 4. change (size_of "WEBP") with 4. lia.
Qed.

Lemma byte_of_slice s i c : slice s i (i + 1) = Some (String c "") → byte_at s i = Some (byte_of c).
Proof.
  unfold slice, byte_at. destruct (_ && _); [|done]. intros [= E]. replace (i + 1 - i) with 1 in E by lia. revert E.
  generalize (N.to_nat i). clear. change (N.to_nat 1) with 1%nat. induction s as [|a s IH]; intros [|n] E; cbn in *; [done|done| |by apply IH].
  destruct s; by injection E as ->.
Qed.

Lemma three_bytes s : size_of s = 3 → ∃ a b c, s = String a (String b (String c "")).
Proof. unfold size_of. destruct s as [|a [|b [|c [|]]]]; cbn; try lia. intros _. by exists a, b, c. Qed.

Lemma measured_webp content w h d : states content Webp w h → dimensions content Webp = Some (Some d) → d = (w, h).
Proof.
  assert (M : ∀ a, N.land a 16383 = a mod 2 ^ 14) by (intros a; apply (N.land_ones a 14)).
  intros St. cbn [dimensions]. unfold webp_dimensions. case_match; [done|]. revert St.
  inversion_clear 1 as [| |tag code wb hb rest F S1 S2 S3 S4|sg bits rest F S1 S2|flags wb hb rest F S1 S2 S3|].
  - rewrite (chunk_at _ _ _ F) by done. cbn [mbind option_bind]. rewrite decide_True by done. unfold le_at.
    rewrite (data_piece _ _ _ [tag; code] wb (hb +:+ rest) 26 28 F); [|done|done|by cbn; rewrite S1, S2|by rewrite S3].
    rewrite (data_piece _ _ _ [tag; code; wb] hb rest 28 30 F); [|done|done|by cbn; rewrite S1, S2, S3|by rewrite S4].
    cbn [fmap option_fmap option_map mbind option_bind]. rewrite !M. by intros [= <-].
  - rewrite (chunk_at _ _ _ F) by done. cbn [mbind option_bind]. rewrite decide_False, decide_True by done. unfold le_at.
    rewrite (data_piece _ _ _ [sg] bits rest 21 25 F); [|done|done|by cbn; rewrite S1|by rewrite S2].
    cbn [fmap option_fmap option_map mbind option_bind]. rewrite !M, N.shiftr_div_pow2.
    assert (B : ∀ a, a mod 2 ^ 14 < 2 ^ 24) by (intros a; eapply N.lt_trans; [by apply N.mod_lt|done]).
    rewrite !u32_add_total by apply B. by intros [= <-].
  - rewrite (chunk_at _ _ _ F) by done. cbn [mbind option_bind]. rewrite decide_False, decide_False, decide_True by done.
    destruct (three_bytes wb S2) as (w1 & w2 & w3 & ->). destruct (three_bytes hb S3) as (h1 & h2 & h3 & ->).
    assert (P : ∀ pre c z lo, foldr (λ a b, a +:+ b) (String c z) pre = flags +:+ (String w1 (String w2 (String w3 "")) +:+ (String h1 (String h2 (String h3 "")) +:+ rest)) →
      lo = 20 + foldr (λ a n, size_of a + n) 0 pre → byte_at content lo = Some (byte_of c)).
    { intros pre c z lo E Lo. apply byte_of_slice. by apply (data_piece _ _ _ pre (String c "") z lo (lo + 1) F). }
    rewrite (P [flags] w1 (String w2 (String w3 (String h1 (String h2 (String h3 rest))))) 24 eq_refl) by (cbn; by rewrite S1).
    rewrite (P [flags; String w1 ""] w2 (String w3 (String h1 (String h2 (String h3 rest)))) 25 eq_refl) by (cbn; by rewrite S1).
    rewrite (P [flags; String w1 ""; String w2 ""] w3 (String h1 (String h2 (String h3 rest))) 26 eq_refl) by (cbn; by rewrite S1).
    rewrite (P [flags; String w1 ""; String w2 ""; String w3 ""] h1 (String h2 (String h3 rest)) 27 eq_refl) by (cbn; by rewrite S1).
    rewrite (P [flags; String w1 ""; String w2 ""; String w3 ""; String h1 ""] h2 (String h3 rest) 28 eq_refl) by (cbn; by rewrite S1).
    rewrite (P [flags; String w1 ""; String w2 ""; String w3 ""; String h1 ""; String h2 ""] h3 rest 29 eq_refl) by (cbn; by rewrite S1).
    cbn [mbind option_bind].
    assert (V : ∀ a b c, le_value (byte_string [byte_of a; byte_of b; byte_of c; 0]) = le_value (String a (String b (String c "")))).
    { intros a b c. unfold byte_string, byte_of. cbn [foldr]. rewrite !ascii_N_embedding. cbn. lia. }
    assert (B : ∀ a b c, le_value (String a (String b (String c ""))) < 2 ^ 24) by (intros a b c; apply (le_value_lt (String a (String b (String c ""))))).
    rewrite !V, !u32_add_total by apply B. by intros [= <-].
Qed.

(** What is measured is what the header states. *)
Lemma states_measured content f w h d : states content f w h → dimensions content f = Some (Some d) → d = (w, h).
Proof.
  destruct f; [apply measured_png| |apply measured_gif|apply measured_webp].
  inversion_clear 1 as [| | | | |l frame len prec hh ww tail E P F1 F2 Hh Hw T]. cbn [dimensions]. rewrite E, jpeg_file_measured; try done.
  - by intros [= <-].
  - unfold is_frame in F2. unfold standalone. rewrite !andb_true_iff, !N.leb_le in F2. destruct F2 as [[? ?] _].
    apply orb_false_iff. split; [apply orb_false_iff; split; apply N.eqb_neq; lia|]. apply andb_false_iff. left. apply N.leb_gt. lia.
Qed.

(** The first pieces of a text that is long enough. *)
Lemma sniff_prefix p s : starts_with p s = true → ∃ r, s = p +:+ r.
Proof.
  unfold starts_with. revert s. induction p as [|a p IH]; intros s; [by exists s|]. destruct s as [|b s]; [done|]. cbn.
  case_decide as D; [|done]. subst b. intros H. destruct (IH s H) as [r ->]. by exists r.
Qed.

Lemma png_stated content d : sniff content = Some (Some Png) → png_dimensions content = Some (Some d) → states content Png d.1 d.2.
Proof.
  intros Sn D. assert (E : ∃ r, content = PNG_SIGNATURE +:+ r).
  { apply sniff_prefix. unfold sniff in Sn. destruct (starts_with PNG_SIGNATURE content); [done|]. exfalso. revert Sn.
    repeat case_match; try done; destruct (slice content 0 4); try done; cbn; case_decide; try done; by destruct (slice content 8 12); cbn; repeat case_decide. }
  destruct E as [r E]. assert (L : 24 ≤ size_of content).
  { unfold png_dimensions in D. destruct (size_of content <? 24) eqn:B; [done|]. by apply N.ltb_ge. }
  assert (Lr : 16 ≤ size_of r) by (rewrite E, size_of_app in L; change (size_of PNG_SIGNATURE) with 8 in L; lia).
  destruct (cut 4 r) as (len & r1 & -> & S1 & L1); [lia|]. destruct (cut 4 r1) as (chunk & r2 & -> & S2 & L2); [lia|].
  destruct (cut 4 r2) as (wb & r3 & -> & S3 & L3); [lia|]. destruct (cut 4 r3) as (hb & rest & -> & S4 & L4); [lia|].
  assert (chunk = "IHDR") as ->.
  { unfold png_dimensions in D. case_match; [done|].
    rewrite (piece [PNG_SIGNATURE; len] chunk (wb +:+ (hb +:+ rest)) 12 16 content) in D; [|exact E|by cbn; rewrite S1|by rewrite S2].
    cbn [mbind option_bind] in D. by case_decide. }
  assert (St : states content Png (be_value 0 wb) (be_value 0 hb)) by by eapply states_png.
  by rewrite (measured_png _ _ _ _ St D).
Qed.

Lemma gif_stated content d : sniff content = Some (Some Gif) → gif_dimensions content = Some (Some d) → states content Gif d.1 d.2.
Proof.
  intros Sn D. assert (E : ∃ v r, (v = "GIF87a" ∨ v = "GIF89a") ∧ content = v +:+ r).
  { unfold sniff in Sn. destruct (starts_with PNG_SIGNATURE content); [done|]. destruct (starts_with JPEG_SIGNATURE content); [done|].
    destruct (starts_with "GIF87a" content) eqn:A; [apply sniff_prefix in A as [r ->]; exists "GIF87a", r; auto|].
    destruct (starts_with "GIF89a" content) eqn:B; [apply sniff_prefix in B as [r ->]; exists "GIF89a", r; auto|].
    exfalso. revert Sn. cbn [orb]. case_match; [done|]. destruct (slice content 0 4); [|done]. cbn. case_decide; [|done].
    by destruct (slice content 8 12); cbn; repeat case_decide. }
  destruct E as (v & r & V & E). assert (S0 : size_of v = 6) by (destruct V as [-> | ->]; done).
  assert (L : 10 ≤ size_of content).
  { unfold gif_dimensions in D. destruct (size_of content <? 10) eqn:B; [done|]. by apply N.ltb_ge. }
  rewrite E, size_of_app, S0 in L.
  destruct (cut 2 r) as (wb & r1 & -> & S1 & L1); [lia|]. destruct (cut 2 r1) as (hb & rest & -> & S2 & L2); [lia|].
  assert (St : states content Gif (le_value wb) (le_value hb)) by by eapply states_gif.
  by rewrite (measured_gif _ _ _ _ St D).
Qed.

Lemma webp_container content : sniff content = Some (Some Webp) → 30 ≤ size_of content →
  ∃ chunk data, webp_file content chunk data ∧ size_of chunk = 4 ∧ 10 ≤ size_of data.
Proof.
  intros Sn L. destruct (cut 4 content) as (riff & r1 & E & S1 & L1); [lia|]. destruct (cut 4 r1) as (rs & r2 & -> & S2 & L2); [lia|].
  destruct (cut 4 r2) as (webp & r3 & -> & S3 & L3); [lia|]. destruct (cut 4 r3) as (chunk & r4 & -> & S4 & L4); [lia|].
  destruct (cut 4 r4) as (cs & data & -> & S5 & L5); [lia|]. exists chunk, data. split; [|split; [done|lia]].
  exists rs, cs. split_and!; [done..|]. revert Sn. unfold sniff.
  rewrite (piece [] riff (rs +:+ (webp +:+ (chunk +:+ (cs +:+ data)))) 0 4 content); [|exact E|done|by rewrite S1].
  rewrite (piece [riff; rs] webp (chunk +:+ (cs +:+ data)) 8 12 content); [|exact E|by cbn; rewrite S1, S2|by rewrite S3].
  repeat case_match; try done. cbn [mbind option_bind]. case_decide; [|done]. cbn [mbind option_bind]. case_decide; [|done].
  intros _. by subst riff webp.
Qed.

Lemma webp_stated content d : sniff content = Some (Some Webp) → webp_dimensions content = Some (Some d) → states content Webp d.1 d.2.
Proof.
  intros Sn D. assert (L : 30 ≤ size_of content).
  { unfold webp_dimensions in D. destruct (size_of content <? 30) eqn:B; [done|]. by apply N.ltb_ge. }
  destruct (webp_container content Sn L) as (chunk & data & F & Sc & Ld).
  assert (St : ∃ w h, states content Webp w h); [|destruct St as (w & h & St); by rewrite (measured_webp _ _ _ _ St D)].
  assert (C : chunk = "VP8 " ∨ chunk = "VP8L" ∨ chunk = "VP8X").
  { revert D. unfold webp_dimensions. case_match; [done|]. rewrite (chunk_at _ _ _ F) by done. cbn [mbind option_bind].
    repeat case_decide; auto; done. }
  destruct C as [-> |[-> | ->]].
  - destruct (cut 3 data) as (tag & r1 & -> & S1 & L1); [lia|]. destruct (cut 3 r1) as (code & r2 & -> & S2 & L2); [lia|].
    destruct (cut 2 r2) as (wb & r3 & -> & S3 & L3); [lia|]. destruct (cut 2 r3) as (hb & rest & -> & S4 & L4); [lia|].
    eexists _, _. by eapply states_webp_lossy.
  - destruct (cut 1 data) as (sg & r1 & -> & S1 & L1); [lia|]. destruct (cut 4 r1) as (bits & rest & -> & S2 & L2); [lia|].
    eexists _, _. by eapply states_webp_lossless.
  - destruct (cut 4 data) as (flags & r1 & -> & S1 & L1); [lia|]. destruct (cut 3 r1) as (wb & r2 & -> & S2 & L2); [lia|].
    destruct (cut 3 r2) as (hb & rest & -> & S3 & L3); [lia|]. eexists _, _. by eapply states_webp_extended.
Qed.

Lemma header_stated content f d :
  sniff content = Some (Some f) → dimensions content f = Some (Some d) → f ≠ Jpeg → states content f d.1 d.2.
Proof. destruct f; [intros; by apply png_stated|done|intros; by apply gif_stated|intros; by apply webp_stated]. Qed.

(** C23. An upload is measured before it is stored, whatever its bytes are.
    The check of any content returns: no index is out of range, no sum
    overflows and the scan of a JPEG ends. What it refuses is refused with
    400. What it accepts is not empty and within the byte limit, is of the
    format its first bytes say and the field allows, whatever type was
    declared, and has no [<svg] tag in its first 512 bytes. The width and the
    height it is measured by are between one pixel and the limit, and of a PNG,
    a GIF or a WebP they are those its header states; so they are of a JPEG
    whose markers up to its first frame have no fill bytes before them, and of
    no other need they be. *)
Theorem uploads_are_measured content limits :
  ∃ r, validate content limits = Some r
  ∧ match r with
    | Err e => status e = 400%Z
    | Ok f =>
        0 < size_of content ∧ size_of content ≤ max_bytes limits
        ∧ sniff content = Some (Some f) ∧ (allowed limits = [] ∨ f ∈ allowed limits)
        ∧ (∃ width height, dimensions content f = Some (Some (width, height))
            ∧ 1 ≤ width ≤ max_dimension limits ∧ 1 ≤ height ≤ max_dimension limits
            ∧ (f ≠ Jpeg → states content f width height)
            ∧ ∀ w h, states content f w h → (w, h) = (width, height))
        ∧ ∀ head pre tag post, slice content 0 (N.min (size_of content) 512) = Some head →
            head = pre +:+ (tag +:+ post) → to_ascii_lowercase tag ≠ "<svg"
    end.
Proof.
  unfold validate. destruct (size_of content =? 0) eqn:E0; [by eexists|]. destruct (max_bytes limits <? size_of content) eqn:E1; [by eexists|].
  apply N.eqb_neq in E0. apply N.ltb_ge in E1.
  destruct (looks_like_svg_total content) as [svg Es]. rewrite Es. cbn [mbind option_bind]. destruct svg; [by eexists|].
  destruct (sniff_total content) as [f Ef]. rewrite Ef. cbn [mbind option_bind]. destruct f as [f|]; [|by eexists].
  destruct (negb _ && negb _) eqn:E2; [by eexists|]. destruct (dimensions_total content f) as [d Ed]. rewrite Ed. cbn [mbind option_bind].
  destruct d as [[w h]|]; [|by eexists]. destruct (_ || _) eqn:E3; [by eexists|]. destruct (_ || _) eqn:E4 in |- *; [by eexists|].
  apply orb_false_iff in E3 as [W0%N.eqb_neq H0%N.eqb_neq]. apply orb_false_iff in E4 as [W1%N.ltb_ge H1%N.ltb_ge].
  eexists. split; [done|]. cbn. split_and!; [lia|done|done| |exists w, h|].
  - apply andb_false_iff in E2 as [E2|E2]; apply negb_false_iff, bool_decide_eq_true in E2; auto.
  - split_and!; [done|lia..| |].
    + intros J. by apply (header_stated content f (w, h)).
    + intros w' h' St. by rewrite (states_measured content f w' h' (w, h) St).
  - intros hd pre tag post S H T. pose proof (looks_like_svg_finds content hd pre tag post S H T) as G. congruence.
Qed.

(** A marker may be preceded by any number of fill bytes 255 (ITU T.81,
    B.1.1.2). The scan takes the pair of the fill byte and the marker's first
    byte for a marker without a length and misses the marker: of this image,
    whose frame is 50000 by 50000 pixels, it reads the 10 by 10 written in a
    comment, and the image passes a limit of 8192. *)
Definition filled_jpeg : string :=
  byte_string [255; 216] +:+ (byte_string [255] +:+ (frame_bytes 192 11 8 50000 50000 +:+ (byte_string [1; 1; 17; 0]
    +:+ (byte_string [255] +:+ (byte_string [255; 254] +:+ (be16 15 +:+ (frame_bytes 192 11 8 10 10 +:+ byte_string [1; 1; 17; 0]))))))).
Example fill_byte_hides_the_frame :
  validate filled_jpeg default_limits = Some (Ok Jpeg) ∧ dimensions filled_jpeg Jpeg = Some (Some (10, 10)).
Proof. by vm_compute. Qed.
