(* ===== verification/FileKeys.v ===== *)
(** Where uploads are stored: object keys, [crates/files/src/keys.rs], what
    the sweeper makes of a key, [classify] of [crates/files/src/sweep.rs], the
    paths of the local backend and the URLs of files, [crates/files/src/storage.rs],
    and the image presets whose results are stored next to their sources,
    [crates/files/src/presets.rs]. *)
From S2P Require Import Prelude CoreError Types Net RecordId ImageCheck.

(** * Strings *)

(** [rsplit(pattern).next()]: what follows the last separator. *)
Fixpoint after_last (sep : ascii → bool) (s : string) : string :=
  match s with
  | EmptyString => EmptyString
  | String c r => if str_exists sep s then after_last sep r else s
  end.

(** [str::trim_start_matches(char)]. *)
Fixpoint trim_start_matches (c : ascii) (s : string) : string :=
  match s with
  | String d r => if decide (d = c) then trim_start_matches c r else s
  | EmptyString => EmptyString
  end.

(** [String::truncate], of a text in ASCII. *)
Definition truncate (n : nat) (s : string) : string := String.substring 0 n s.

(** * Keys *)

Definition MAX_FILENAME : nat := 80.
Definition is_separator (c : ascii) : bool := bool_decide (c = "/"%char ∨ c = backslash).
Definition plain_char (c : ascii) : bool :=
  is_ascii_alphanumeric c || bool_decide (c = "."%char ∨ c = "_"%char ∨ c = "-"%char).

(** [clean], character by character: the bytes that continue a character of
    UTF-8 are part of it. *)
Definition continuation_bytes (c : ascii) : nat :=
  if in_range 0 191 c then 0 else if in_range 192 223 c then 1 else if in_range 224 239 c then 2 else 3.
Fixpoint clean_from (skip : nat) (s : string) : string :=
  match s with
  | EmptyString => EmptyString
  | String c r =>
      match skip with
      | S skip => clean_from skip r
      | O => String (if plain_char c then c else "_"%char) (clean_from (continuation_bytes c) r)
      end
  end.
Definition clean : string → string := clean_from 0.

(** [safe_filename]. *)
Definition split_extension (original : string) : string * option string :=
  match rsplit_once "." original with
  | Some (stem, extension) =>
      if negb (bool_decide (stem = "")) && negb (str_forall (λ c, bool_decide (c = "."%char)) stem)
         && negb (bool_decide (extension = "")) && (String.length extension <=? 10)%nat
      then (stem, Some extension) else (original, None)
  | None => (original, None)
  end.
Definition safe_filename (original : string) : string :=
  let original := after_last is_separator original in
  let '(stem, extension) := split_extension original in
  let name := clean (trim_start_matches "." stem) in
  let name := match extension with
              | Some extension => if decide (name = "") then name else name +:+ "." +:+ clean extension
              | None => name
              end in
  let name := if decide (name = "") then "file" else name in
  if (MAX_FILENAME <? String.length name)%nat then truncate MAX_FILENAME name else name.

(** [scoped], [storage_key] and [pending_key], with the id that is drawn. *)
Definition scoped (prefix key : string) : string := if decide (prefix = "") then key else prefix +:+ "/" +:+ key.
Definition storage_key (id prefix collection record_id filename : string) : result string :=
  _ ← validate_identifier collection;
  let record_id := trim record_id in
  if bool_decide (record_id = "") || str_exists is_separator record_id || bool_decide (record_id = ".") || bool_decide (record_id = "..")
  then Err Invalid
  else Ok (scoped prefix (collection +:+ "/" +:+ record_id +:+ "/" +:+ id +:+ "_" +:+ safe_filename filename)).
Definition pending_key (id prefix filename : string) : string :=
  scoped prefix ("library/" +:+ id +:+ "/" +:+ safe_filename filename).

(** [FilesConfig::normalize_prefix], [crates/files/src/config.rs]. *)
Definition prefix_segment_refused (segment : string) : bool :=
  bool_decide (segment = "" ∨ segment = "." ∨ segment = "..") || negb (str_forall plain_char segment).
Definition normalize_prefix (raw : string) : result string :=
  let trimmed := trim_end_matches "/" (trim_start_matches "/" (trim raw)) in
  if decide (trimmed = "") then Ok ""
  else
    let segments := split_on "/" trimmed in
    if existsb prefix_segment_refused segments then Err Config else Ok (join "/" segments).

(** [content_type_for]. *)
Definition content_type_for : ImageFormat → string := content_type.

(** [LocalStorage::path_for]: the segments below the root. *)
Definition unsafe_segment (s : string) : bool :=
  bool_decide (s = "" ∨ s = "." ∨ s = "..") || str_contains backslash s || str_contains "000"%char s.
Definition path_for (key : string) : result (list string) :=
  if decide (key = "") then Err Invalid
  else
    let segments := split_on "/" key in
    if existsb unsafe_segment segments then Err Invalid else Ok segments.

(** [Files::url] and [Files::file_url]. *)
Definition file_path_url (public_base_url : option string) (path : string) : string :=
  match public_base_url with
  | Some base => trim_end_matches "/" base +:+ "/" +:+ path
  | None => "/" +:+ path
  end.
Definition url (public_base_url : option string) (collection record_id filename : string) : string :=
  file_path_url public_base_url ("api/files/" +:+ collection +:+ "/" +:+ record_id +:+ "/" +:+ filename).
Definition file_url (public_base_url : option string) (id : string) : string :=
  file_path_url public_base_url ("api/files/" +:+ id).

(** * Presets *)

(** [enum ResizeMode] and [enum OutputFormat], [crates/files/src/thumbnail.rs]. *)
Inductive ResizeMode := Cover | Contain | Fill | Inside | Outside.
Inductive OutputFormat := OPng | OJpeg | OWebp | OAvif.
#[export] Instance ResizeMode_eq_dec : EqDecision ResizeMode.
Proof. solve_decision. Defined.
#[export] Instance OutputFormat_eq_dec : EqDecision OutputFormat.
Proof. solve_decision. Defined.

Definition mode_as_str (m : ResizeMode) : string :=
  match m with Cover => "cover" | Contain => "contain" | Fill => "fill" | Inside => "inside" | Outside => "outside" end.
Definition mode_parse (name : string) : result ResizeMode :=
  if decide (name = "cover") then Ok Cover
  else if decide (name = "contain") then Ok Contain
  else if decide (name = "fill") then Ok Fill
  else if decide (name = "inside") then Ok Inside
  else if decide (name = "outside") then Ok Outside
  else Err Config.
Definition output_as_str (f : OutputFormat) : string :=
  match f with OPng => "png" | OJpeg => "jpeg" | OWebp => "webp" | OAvif => "avif" end.
Definition output_parse (name : string) : result OutputFormat :=
  if decide (name = "png") then Ok OPng
  else if decide (name = "jpeg" ∨ name = "jpg") then Ok OJpeg
  else if decide (name = "webp") then Ok OWebp
  else if decide (name = "avif") then Ok OAvif
  else Err Config.
Definition output_content_type (f : OutputFormat) : string :=
  match f with OPng => "image/png" | OJpeg => "image/jpeg" | OWebp => "image/webp" | OAvif => "image/avif" end.
Definition from_source (f : ImageFormat) : OutputFormat :=
  match f with Png => OPng | Jpeg => OJpeg | Webp => OWebp | Gif => OPng end.

(** [struct ImagePreset]. *)
Record ImagePreset := {
  p_name : string;
  p_width : option Z;
  p_height : option Z;
  p_mode : ResizeMode;
  p_format : OutputFormat;
  p_quality : Z;
}.
Definition MAX_PRESET_DIMENSION : Z := 8192.
Definition MAX_NAME_LENGTH : nat := 40.

(** [from_row], of the columns of a row. *)
Definition row_dimension (value : option Z) : result (option Z) :=
  match value with
  | None => Ok None
  | Some value => if (0 <? value)%Z && (value <=? MAX_PRESET_DIMENSION)%Z then Ok (Some value) else Err Config
  end.
Definition preset_from_row (name : string) (width height : option Z) (fit format : string) (quality : Z) : result ImagePreset :=
  width ← row_dimension width;
  height ← row_dimension height;
  if bool_decide (width = None) && bool_decide (height = None) then Err Config
  else if negb ((1 <=? quality) && (quality <=? 100))%Z then Err Config
  else
    mode ← mode_parse fit;
    format ← output_parse format;
    Ok {| p_name := name; p_width := width; p_height := height; p_mode := mode; p_format := format; p_quality := quality |}.

(** [thumbnail_key]. *)
Definition thumbnail_key (p : ImagePreset) (source_key : string) : string :=
  let '(parent, filename) := default ("", source_key) (rsplit_once "/" source_key) in
  let suffix := p_name p +:+ "_" +:+ output_as_str (p_format p) in
  if decide (parent = "") then "thumbs/" +:+ filename +:+ "/" +:+ suffix
  else parent +:+ "/thumbs/" +:+ filename +:+ "/" +:+ suffix.

(** [parse_size]. *)
Fixpoint split_at_x (s : string) : option (string * string) :=
  match s with
  | EmptyString => None
  | String c r => if decide (c = "x"%char ∨ c = "X"%char) then Some ("", r) else prod_map (String c) id <$> split_at_x r
  end.
Definition parse_side (value : string) : result Z :=
  n ← ok_or (parse_uint (2 ^ 32) (trim value)) Invalid;
  if (n =? 0)%Z || (MAX_PRESET_DIMENSION <? n)%Z then Err Invalid else Ok n.
Definition parse_size (specification : string) : result ImagePreset :=
  if decide (specification = "") then Err Invalid
  else
    '(width, height) ← ok_or (split_at_x specification) Invalid;
    width ← parse_side width;
    height ← parse_side height;
    Ok {| p_name := to_ascii_lowercase specification; p_width := Some width; p_height := Some height;
          p_mode := Inside; p_format := OWebp; p_quality := 80 |}.

(** [validate]. *)
Definition name_char (c : ascii) : bool := is_ascii_alphanumeric c || bool_decide (c = "-"%char ∨ c = "_"%char).
Definition side_refused (value : option Z) : bool :=
  match value with Some v => (v =? 0)%Z || (MAX_PRESET_DIMENSION <? v)%Z | None => false end.
Definition validate_preset (p : ImagePreset) : result unit :=
  if bool_decide (p_name p = "") || (MAX_NAME_LENGTH <? String.length (p_name p))%nat then Err Invalid
  else if negb (str_forall name_char (p_name p)) then Err Invalid
  else if bool_decide (p_width p = None) && bool_decide (p_height p = None) then Err Invalid
  else if side_refused (p_width p) || side_refused (p_height p) then Err Invalid
  else if negb ((1 <=? p_quality p) && (p_quality p <=? 100))%Z then Err Invalid
  else if decide (p_format p = OAvif) then Err Unsupported
  else Ok ().

(** [defaults]. *)
Definition defaults : list ImagePreset :=
  let preset name side mode :=
    {| p_name := name; p_width := Some side; p_height := Some side; p_mode := mode; p_format := OWebp; p_quality := 80 |} in
  [preset "thumb" 200%Z Cover; preset "sm" 320%Z Inside; preset "md" 768%Z Inside; preset "lg" 1600%Z Inside].

(** * What owns an object *)

(** [enum ObjectOwner] and [classify]. *)
Inductive ObjectOwner :=
  | OSource (collection record : string)
  | OThumbnail (collection record source preset : string)
  | OUnrecognised.

Definition classify (key : string) : ObjectOwner :=
  if ends_with ".part" key || existsb (ends_with ".part") (split_on "/" key) then OUnrecognised
  else
    match split_on "/" key with
    | [collection; record; _] => OSource collection record
    | [collection; record; thumbs; filename; suffix] =>
        if decide (thumbs ≠ "thumbs") then OUnrecognised
        else
          match rsplit_once "_" suffix with
          | None => OUnrecognised
          | Some (preset, format) =>
              if negb (is_ok (output_parse format)) || bool_decide (preset = "") then OUnrecognised
              else OThumbnail collection record (collection +:+ "/" +:+ record +:+ "/" +:+ filename) preset
          end
    | _ => OUnrecognised
    end.

(** * Names that are safe in a key *)

Definition no_slash (s : string) : bool := str_forall (λ c, bool_decide (c ≠ "/"%char)) s.

(** A segment of a key the program builds: it names something below its
    directory, and holds no separator. *)
Definition plain_name (s : string) : Prop := s ≠ "" ∧ s ≠ "." ∧ s ≠ ".." ∧ str_forall plain_char s = true.

Lemma plain_no_slash s : str_forall plain_char s = true → no_slash s = true.
Proof. apply str_forall_impl. intros c. by_bytes c. Qed.

Lemma str_exists_none p s : str_exists p s = false ↔ str_forall (λ c, negb (p c)) s = true.
Proof. unfold str_exists. by destruct (str_forall _ s). Qed.

Lemma plain_segment_safe s : plain_name s → unsafe_segment s = false.
Proof.
  intros (E & D & DD & P). unfold unsafe_segment. rewrite bool_decide_false by tauto. cbn [orb].
  unfold str_contains. apply orb_false_iff. split; apply str_exists_none; (eapply str_forall_impl; [|exact P]); intros c; by_bytes c.
Qed.

Lemma clean_from_plain k s : str_forall plain_char (clean_from k s) = true.
Proof.
  revert k. induction s as [|c s IH]; intros [|k]; cbn; [done..| |apply IH]. rewrite IH, andb_true_r.
  by destruct (plain_char c) eqn:E.
Qed.

Lemma trim_start_matches_head c s d r : trim_start_matches c s = String d r → d ≠ c.
Proof. induction s as [|e s IH]; [done|]. cbn. case_decide; [done|]. by intros [= -> ->]. Qed.

Lemma truncate_forall p n s : str_forall p s = true → str_forall p (truncate n s) = true.
Proof.
  unfold truncate. revert n. induction s as [|c s IH]; intros [|n]; cbn; [done..|]. rewrite !andb_true_iff. naive_solver.
Qed.
Lemma truncate_length n s : (String.length (truncate n s) ≤ n)%nat.
Proof. unfold truncate. revert n. induction s as [|c s IH]; intros [|n]; cbn; [lia..|]. specialize (IH n). lia. Qed.

(** What an upload may be called: never empty, never hidden, never a path. *)
Lemma safe_filename_plain f :
  str_forall plain_char (safe_filename f) = true ∧ (String.length (safe_filename f) ≤ MAX_FILENAME)%nat
  ∧ ∃ c r, safe_filename f = String c r ∧ c ≠ "."%char.
Proof.
  unfold safe_filename. destruct (split_extension _) as [stem ext]. cbv zeta.
  set (base := clean (trim_start_matches "." stem)).
  assert (str_forall plain_char base = true ∧ (base = "" ∨ ∃ c r, base = String c r ∧ c ≠ "."%char)) as [P F].
  { split; [apply clean_from_plain|]. unfold base. destruct (trim_start_matches "." stem) as [|d r] eqn:E; [by left|]. right.
    apply trim_start_matches_head in E. cbn. eexists _, _. split; [done|]. by destruct (plain_char d). }
  set (name := match ext with Some _ => _ | None => _ end).
  assert (str_forall plain_char name = true ∧ (name = "" ∨ ∃ c r, name = String c r ∧ c ≠ "."%char)) as [P2 F2].
  { unfold name. destruct ext as [ext|]; [|done]. case_decide; [done|]. rewrite !str_forall_app, P. split.
    - cbn. apply clean_from_plain.
    - right. destruct F as [|(c & r & -> & N)]; [done|]. rewrite str_app_cons. eauto. }
  clearbody name. set (named := if decide (name = "") then "file" else name).
  assert (str_forall plain_char named = true ∧ ∃ c r, named = String c r ∧ c ≠ "."%char) as (P3 & c & r & E3 & N3).
  { unfold named. case_decide; [by split; [|exists "f"%char, "ile"]|]. destruct F2; [done|]. eauto. }
  clearbody named. destruct (_ <? _)%nat eqn:L.
  - split_and!; [by apply truncate_forall|apply truncate_length|]. rewrite E3. unfold truncate, MAX_FILENAME. cbn. eauto.
  - apply Nat.ltb_ge in L. split_and!; [done|done|eauto].
Qed.

Lemma safe_filename_name f : plain_name (safe_filename f).
Proof.
  destruct (safe_filename_plain f) as (P & _ & c & r & E & N). rewrite E in P |- *. split_and!; [done| | |done]; congruence.
Qed.

(** * Keys by their segments *)

Lemma normalize_prefix_segments raw prefix : normalize_prefix raw = Ok prefix →
  prefix = "" ∨ ∃ segments, segments ≠ [] ∧ prefix = join "/" segments ∧ Forall plain_name segments.
Proof.
  unfold normalize_prefix. case_decide; [intros [= <-]; by left|]. destruct (existsb _ _) eqn:E; [done|]. intros [= <-]. right.
  eexists. split; [apply split_on_nonempty|]. split; [done|]. apply Forall_forall. intros s I.
  destruct (prefix_segment_refused s) eqn:R.
  - assert (existsb prefix_segment_refused (split_on "/" (trim_end_matches "/" (trim_start_matches "/" (trim raw)))) = true) as X; [|congruence].
    apply existsb_exists. exists s. split; [by apply list_elem_of_In|done].
  - unfold prefix_segment_refused in R. apply orb_false_iff in R as [R1 R2]. apply bool_decide_eq_false in R1. apply negb_false_iff in R2.
    unfold plain_name. tauto.
Qed.

(** A key is its segments under those of the prefix. *)
Definition prefix_segments (prefix : string) : list string := if decide (prefix = "") then [] else split_on "/" prefix.

Lemma prefix_segments_plain raw prefix : normalize_prefix raw = Ok prefix → Forall plain_name (prefix_segments prefix).
Proof.
  intros N. unfold prefix_segments. case_decide; [constructor|]. apply normalize_prefix_segments in N as [->|(ps & NP & -> & P)]; [done|].
  assert (Forall (λ s, no_slash s = true) ps) as Q by (eapply Forall_impl; [exact P|]; intros s (_ & _ & _ & S); by apply plain_no_slash).
  by rewrite split_join.
Qed.

Lemma scoped_segments raw prefix l : normalize_prefix raw = Ok prefix → l ≠ [] → Forall (λ s, no_slash s = true) l →
  split_on "/" (scoped prefix (join "/" l)) = prefix_segments prefix ++ l.
Proof.
  intros N NE F. unfold scoped, prefix_segments. case_decide; [by apply split_join|].
  apply normalize_prefix_segments in N as [->|(ps & NP & -> & P)]; [done|].
  assert (Forall (λ s, no_slash s = true) ps) as Q by (eapply Forall_impl; [exact P|]; intros s (_ & _ & _ & S); by apply plain_no_slash).
  assert (join "/" ps +:+ "/" +:+ join "/" l = join "/" (ps ++ l)) as ->.
  { clear -NP NE. induction ps as [|p ps IH]; [done|]. destruct ps as [|q ps].
    - destruct l; [done|]. done.
    - change ((p :: q :: ps) ++ l) with (p :: q :: (ps ++ l)). rewrite !join_cons2. change (q :: ps ++ l) with ((q :: ps) ++ l).
      rewrite <-IH by done. by rewrite !str_app_assoc. }
  rewrite (split_join "/" ps) by done. apply split_join; [by destruct ps|]. by apply Forall_app.
Qed.

Lemma identifier_plain name : validate_identifier name = Ok () → plain_name name.
Proof.
  unfold validate_identifier. case_decide; [done|]. case_decide; [done|]. destruct (starts_with _ _); [done|].
  destruct name as [|c r]; [done|]. destruct (negb (is_ascii_lowercase c)) eqn:L; [done|]. destruct (str_exists _ _) eqn:E; [done|]. intros _.
  apply negb_false_iff in L. apply str_exists_none in E.
  assert (c ≠ "."%char) as N by (intros ->; by vm_compute in L). split_and!; [done|congruence|congruence|].
  eapply str_forall_impl; [|exact E]. intros d. by_bytes d.
Qed.

Lemma id_plain id : is_valid_id id = true → plain_name id ∧ str_forall is_ascii_alphanumeric id = true.
Proof.
  unfold is_valid_id. intros [L%bool_decide_eq_true A]%andb_true_iff.
  assert (str_forall is_ascii_alphanumeric id = true) as N by (eapply str_forall_impl; [|exact A]; intros c; by_bytes c).
  split; [|done]. split_and!; [by intros ->|by intros ->|by intros ->|]. eapply str_forall_impl; [|exact N].
  intros c. unfold plain_char. by intros ->.
Qed.

Lemma stored_name_plain id f : is_valid_id id = true → plain_name (id +:+ "_" +:+ safe_filename f).
Proof.
  intros [(NE & _ & _ & P) A]%id_plain. destruct (safe_filename_plain f) as [Q _]. destruct id as [|c r]; [done|].
  cbn in A. apply andb_true_iff in A as [A _]. assert (c ≠ "."%char) as D by (intros ->; by vm_compute in A).
  rewrite str_app_cons. split_and!; [done|congruence|congruence|]. rewrite <-str_app_cons, !str_forall_app, P. cbn. by rewrite Q.
Qed.

Lemma trimmed_record r : str_exists is_separator r = false → no_slash r = true.
Proof. intros E%str_exists_none. eapply str_forall_impl; [|exact E]. intros c. by_bytes c. Qed.

(** The segments of the keys of uploads. *)
Lemma storage_key_segments id raw prefix collection record f k :
  is_valid_id id = true → normalize_prefix raw = Ok prefix → storage_key id prefix collection record f = Ok k →
  split_on "/" k = prefix_segments prefix ++ [collection; trim record; id +:+ "_" +:+ safe_filename f]
  ∧ plain_name collection
  ∧ trim record ≠ "" ∧ trim record ≠ "." ∧ trim record ≠ ".." ∧ str_exists is_separator (trim record) = false.
Proof.
  intros I N K. unfold storage_key in K. apply bind_Ok in K as ([] & C & K). cbv zeta in K.
  destruct (_ || _) eqn:R in K; [done|]. injection K as <-. rewrite !orb_false_iff, !bool_decide_eq_false in R. destruct R as [[[R1 R2] R3] R4].
  apply identifier_plain in C. pose proof (stored_name_plain id f I) as P. split_and!; [|done..].
  apply (scoped_segments raw prefix [collection; trim record; id +:+ "_" +:+ safe_filename f] N); [done|].
  repeat apply Forall_cons_2; [apply plain_no_slash, C|by apply trimmed_record|apply plain_no_slash, P|constructor].
Qed.

Lemma pending_key_segments id raw prefix f : is_valid_id id = true → normalize_prefix raw = Ok prefix →
  split_on "/" (pending_key id prefix f) = prefix_segments prefix ++ ["library"; id; safe_filename f].
Proof.
  intros I N. apply (scoped_segments raw prefix ["library"; id; safe_filename f] N); [done|].
  repeat apply Forall_cons_2; [done|apply plain_no_slash, id_plain, I|apply plain_no_slash, safe_filename_name|constructor].
Qed.

Lemma path_for_segments k l : split_on "/" k = l → existsb unsafe_segment l = false → path_for k = Ok l.
Proof.
  intros <- E. unfold path_for. rewrite decide_False; [by rewrite E|]. intros ->. by vm_compute in E.
Qed.

Lemma safe_segments ps l : Forall plain_name ps → existsb unsafe_segment l = false → existsb unsafe_segment (ps ++ l) = false.
Proof. intros F E. rewrite existsb_app, E, orb_false_r. induction F as [|p ps P F IH]; [done|]. cbn. by rewrite plain_segment_safe, IH. Qed.

(** C24. an upload is written inside its own directory, whatever its file is
    called. Under any prefix the configuration accepts, the object of an upload
    to a record lies below the directories of the prefix, of its collection and
    of its record, that of an upload without one below [library], and its last
    segment is never empty, never hidden, at most 96 bytes of letters, digits,
    dots, dashes and underscores; the local backend takes the key, unless the
    id of the record holds a NUL, and its path has exactly these segments. *)
Theorem keys_stay_in_their_directory id raw prefix f :
  is_valid_id id = true → normalize_prefix raw = Ok prefix →
  Forall plain_name (prefix_segments prefix)
  ∧ path_for (pending_key id prefix f) = Ok (prefix_segments prefix ++ ["library"; id; safe_filename f])
  ∧ (∀ collection record k, storage_key id prefix collection record f = Ok k →
       str_contains "000"%char (trim record) = false →
       path_for k = Ok (prefix_segments prefix ++ [collection; trim record; id +:+ "_" +:+ safe_filename f]))
  ∧ plain_name (safe_filename f) ∧ (String.length (safe_filename f) ≤ 80)%nat
  ∧ plain_name (id +:+ "_" +:+ safe_filename f) ∧ (String.length (id +:+ "_" +:+ safe_filename f) ≤ 96)%nat.
Proof.
  intros I N. pose proof (prefix_segments_plain raw prefix N) as F.
  pose proof (proj1 (id_plain id I)) as PI. pose proof (safe_filename_name f) as PF. pose proof (stored_name_plain id f I) as PS.
  destruct (safe_filename_plain f) as (_ & L & _). split_and!; [done| | |done|done|done|].
  - apply path_for_segments; [by eapply pending_key_segments|]. apply safe_segments; [done|].
    cbn [existsb]. by rewrite (plain_segment_safe id), (plain_segment_safe (safe_filename f)).
  - intros c r k K NUL. destruct (storage_key_segments id raw prefix c r f k I N K) as (E & C & R1 & R2 & R3 & R4).
    apply path_for_segments; [done|]. apply safe_segments; [done|]. cbn [existsb].
    rewrite (plain_segment_safe c), (plain_segment_safe (id +:+ "_" +:+ safe_filename f)) by done. rewrite orb_false_r. cbn [orb].
    unfold unsafe_segment. rewrite bool_decide_false by tauto. cbn [orb]. rewrite NUL, orb_false_r.
    apply str_exists_none. apply str_exists_none in R4. eapply str_forall_impl; [|exact R4]. intros d. by_bytes d.
  - rewrite !str_length_app. unfold is_valid_id in I. apply andb_true_iff in I as [I%bool_decide_eq_true _]. rewrite I.
    unfold MAX_FILENAME, ID_LEN in *. cbn. lia.
Qed.

(** * What the sweeper makes of them *)

Lemma ends_with_app p s : ends_with p s = true ↔ ∃ x, s = x +:+ p.
Proof.
  induction s as [|c s IH]; cbn [ends_with].
  - rewrite orb_false_r, bool_decide_eq_true. split; [intros <-; by exists ""|]. intros ([|] & E); [by rewrite E|done].
  - rewrite orb_true_iff, bool_decide_eq_true, IH. split.
    + intros [<-|(x & ->)]; [by exists ""|by exists (String c x)].
    + intros ([|d x] & E); [by left|]. right. exists x. rewrite str_app_cons in E. by injection E.
Qed.

Lemma app_sep_inv c (s x t p : string) :
  s +:+ String c t = x +:+ p → str_forall (λ d, bool_decide (d ≠ c)) p = true → ∃ y, t = y +:+ p.
Proof.
  revert x. induction s as [|d s IH]; intros x E N.
  - rewrite str_app_nil_l in E. destruct x as [|e x].
    + rewrite str_app_nil_l in E. subst p. cbn in N. by rewrite bool_decide_false in N by tauto.
    + rewrite str_app_cons in E. injection E as <- ->. by exists x.
  - rewrite str_app_cons in E. destruct x as [|e x].
    + rewrite str_app_nil_l in E. subst p. rewrite <-str_app_cons, str_forall_app in N. apply andb_true_iff in N as [_ N]. cbn in N.
      by rewrite bool_decide_false in N by tauto.
    + rewrite str_app_cons in E. injection E as -> E. by apply (IH x).
Qed.

(** A suffix without the separator is one of what follows the separator. *)
Lemma ends_with_after p c s t : str_forall (λ d, bool_decide (d ≠ c)) p = true →
  ends_with p (s +:+ String c t) = true → ends_with p t = true.
Proof. intros N (x & E)%ends_with_app. apply ends_with_app. by eapply app_sep_inv. Qed.

Lemma rsplit_once_app c s t : str_forall (λ d, bool_decide (d ≠ c)) t = true → rsplit_once c (s +:+ String c t) = Some (s, t).
Proof.
  intros N. assert (rsplit_once c t = None) as Z.
  { clear s. induction t as [|d t IH]; [done|]. cbn in *. apply andb_true_iff in N as [D%bool_decide_eq_true N]. rewrite IH by done.
    by rewrite decide_False. }
  induction s as [|d s IH]; [rewrite str_app_nil_l; cbn; by rewrite Z, decide_True|]. rewrite str_app_cons. cbn. by rewrite IH.
Qed.

Lemma in_flight_segments k : ends_with ".part" k || existsb (ends_with ".part") (split_on "/" k) = existsb (ends_with ".part") (split_on "/" k).
Proof.
  destruct (ends_with ".part" k) eqn:E; [|done]. symmetry. cbn [orb]. revert E. induction k as [|c k IH]; [done|]. cbn [ends_with].
  intros [E%bool_decide_eq_true|E]%orb_true_iff; [by rewrite E|]. specialize (IH E). cbn [split_on]. case_decide; [cbn [existsb]; by rewrite IH, orb_true_r|].
  destruct (split_on "/" k) as [|p ps]; [done|]. cbn [existsb ends_with] in *. apply orb_true_iff in IH as [->| ->]; by rewrite !orb_true_r.
Qed.

Definition in_flight (l : list string) : bool := existsb (ends_with ".part") l.

Lemma classify_segments k l : split_on "/" k = l →
  classify k = if in_flight l then OUnrecognised else
    match l with
    | [collection; record; _] => OSource collection record
    | [collection; record; thumbs; filename; suffix] =>
        if decide (thumbs ≠ "thumbs") then OUnrecognised
        else match rsplit_once "_" suffix with
             | None => OUnrecognised
             | Some (preset, format) =>
                 if negb (is_ok (output_parse format)) || bool_decide (preset = "") then OUnrecognised
                 else OThumbnail collection record (collection +:+ "/" +:+ record +:+ "/" +:+ filename) preset
             end
    | _ => OUnrecognised
    end.
Proof. intros <-. unfold classify. by rewrite in_flight_segments. Qed.

Lemma undotted_not_in_flight s : str_contains "." s = false → ends_with ".part" s = false.
Proof.
  intros N. destruct (ends_with ".part" s) eqn:E; [|done]. apply ends_with_app in E as (x & ->). apply str_exists_none in N.
  rewrite str_forall_app in N. apply andb_true_iff in N as [_ N]. done.
Qed.
Lemma identifier_undotted name : validate_identifier name = Ok () → str_contains "." name = false.
Proof.
  unfold validate_identifier. case_decide; [done|]. case_decide; [done|]. destruct (starts_with _ _); [done|].
  destruct name as [|c r]; [done|]. destruct (negb (is_ascii_lowercase c)) eqn:L; [done|]. destruct (str_exists _ _) eqn:E; [done|]. intros _.
  apply str_exists_none. apply str_exists_none in E. eapply str_forall_impl; [|exact E]. intros d. by_bytes d.
Qed.
Lemma id_undotted id : is_valid_id id = true → str_contains "." id = false.
Proof. intros [_ A]%id_plain. apply str_exists_none. eapply str_forall_impl; [|exact A]. intros d. by_bytes d. Qed.

Lemma stored_name_in_flight id f : ends_with ".part" (safe_filename f) = false → ends_with ".part" (id +:+ "_" +:+ safe_filename f) = false.
Proof. intros N. destruct (ends_with ".part" (id +:+ _)) eqn:E; [|done]. apply ends_with_after in E; [congruence|done]. Qed.

Lemma join_split s : join "/" (split_on "/" s) = s.
Proof.
  induction s as [|c s IH]; [done|]. cbn [split_on]. case_decide as E.
  - subst c. pose proof (split_on_nonempty "/" s) as NE. destruct (split_on "/" s) as [|p ps]; [done|].
    rewrite join_cons2, IH. done.
  - destruct (split_on "/" s) as [|p ps]; [by subst s|]. destruct ps as [|q ps]; [cbn in *; by rewrite IH|].
    rewrite join_cons2 in IH |- *. by rewrite str_app_cons, IH.
Qed.

Lemma split_no_slash s : Forall (λ p, no_slash p = true) (split_on "/" s).
Proof.
  induction s as [|c s IH]; [by repeat constructor|]. cbn [split_on]. case_decide as E; [by constructor|].
  destruct (split_on "/" s) as [|p ps]; [repeat constructor; cbn; by rewrite bool_decide_true|].
  apply Forall_cons in IH as [P IH]. constructor; [|done]. unfold no_slash in *. cbn. by rewrite bool_decide_true, P.
Qed.

Lemma join_app l1 l2 : l1 ≠ [] → l2 ≠ [] → join "/" (l1 ++ l2) = join "/" l1 +:+ "/" +:+ join "/" l2.
Proof.
  intros N1 N2. induction l1 as [|p l1 IH]; [done|]. destruct l1 as [|q l1].
  - destruct l2; [done|]. done.
  - change ((p :: q :: l1) ++ l2) with (p :: q :: (l1 ++ l2)). rewrite !join_cons2. change (q :: l1 ++ l2) with ((q :: l1) ++ l2).
    rewrite IH by done. by rewrite !str_app_assoc.
Qed.

(** The key of a thumbnail, by its segments. *)
Lemma thumbnail_segments p key ps c r n : str_forall name_char (p_name p) = true →
  split_on "/" key = ps ++ [c; r; n] →
  split_on "/" (thumbnail_key p key) = ps ++ [c; r; "thumbs"; n; p_name p +:+ "_" +:+ output_as_str (p_format p)].
Proof.
  intros N E. pose proof (split_no_slash key) as F. rewrite E in F. apply Forall_app in F as [F1 F2].
  apply Forall_cons in F2 as [C F2]. apply Forall_cons in F2 as [R F2]. apply Forall_cons in F2 as [Nn _].
  assert (key = join "/" (ps ++ [c; r]) +:+ String "/" n) as ->.
  { rewrite <-(join_split key), E. change (ps ++ [c; r; n]) with (ps ++ ([c; r] ++ [n])). rewrite app_assoc, join_app; [done|by destruct ps|done]. }
  unfold thumbnail_key. rewrite rsplit_once_app by done. cbn [default from_option id]. cbv zeta.
  rewrite decide_False.
  - set (suffix := p_name p +:+ "_" +:+ output_as_str (p_format p)).
    assert (no_slash suffix = true) as S.
    { unfold suffix, no_slash. rewrite !str_forall_app, !andb_true_iff. split_and!; [|done|by destruct (p_format p)].
      eapply str_forall_impl; [|exact N]. intros d. by_bytes d. }
    replace (join "/" (ps ++ [c; r]) +:+ "/thumbs/" +:+ n +:+ "/" +:+ suffix) with (join "/" ((ps ++ [c; r]) ++ ["thumbs"; n; suffix])).
    + rewrite <-app_assoc. apply split_join; [by destruct ps|]. apply Forall_app. split; [done|]. by repeat constructor.
    + rewrite join_app; [done|by destruct ps|done].
  - destruct ps as [|p0 ps]; [by destruct c|]. change ((p0 :: ps) ++ [c; r]) with ([p0] ++ (ps ++ [c; r])). rewrite join_app; [|done|by destruct ps].
    by destruct p0.
Qed.

Lemma in_flight_app l1 l2 : in_flight (l1 ++ l2) = in_flight l1 || in_flight l2.
Proof. apply existsb_app. Qed.

Lemma suffix_parts p : str_forall name_char (p_name p) = true →
  ends_with ".part" (p_name p +:+ "_" +:+ output_as_str (p_format p)) = false
  ∧ rsplit_once "_" (p_name p +:+ "_" +:+ output_as_str (p_format p)) = Some (p_name p, output_as_str (p_format p))
  ∧ is_ok (output_parse (output_as_str (p_format p))) = true.
Proof.
  intros N. split_and!; [|apply rsplit_once_app; by destruct (p_format p)|by destruct (p_format p)].
  destruct (ends_with _ _) eqn:E; [|done]. apply ends_with_after in E; [by destruct (p_format p)|done].
Qed.

(** without a prefix the sweeper finds the owner of what was stored: the
    key of an upload to a record reads back as its collection and record, and
    the key of its thumbnail under any preset that may be saved as these, its
    source and the preset. Only a name that ends in [.part], or an id of a
    record that does, is taken for a write in flight. *)
Theorem object_owner_reads_back id collection record f k p :
  is_valid_id id = true → storage_key id "" collection record f = Ok k → validate_preset p = Ok () →
  ends_with ".part" (safe_filename f) = false → ends_with ".part" (trim record) = false →
  classify k = OSource collection (trim record)
  ∧ classify (thumbnail_key p k) = OThumbnail collection (trim record) k (p_name p).
Proof.
  intros I K V NF NR. pose proof K as K'. unfold storage_key in K'. apply bind_Ok in K' as ([] & C & _).
  destruct (storage_key_segments id "" "" collection record f k I eq_refl K) as (E & _). change (prefix_segments "") with (@nil string) in E. cbn [app] in E.
  assert (p_name p ≠ "" ∧ str_forall name_char (p_name p) = true) as [PN PC].
  { unfold validate_preset in V. destruct (_ || _) eqn:B in V; [done|]. apply orb_false_iff in B as [B%bool_decide_eq_false _].
    destruct (negb _) eqn:D in V; [done|]. by apply negb_false_iff in D. }
  pose proof (undotted_not_in_flight collection (identifier_undotted collection C)) as FC.
  pose proof (stored_name_in_flight id f NF) as FN. destruct (suffix_parts p PC) as (FS & RS & OS). split.
  - rewrite (classify_segments k _ E). unfold in_flight. cbn [existsb]. by rewrite FC, NR, FN.
  - rewrite (classify_segments _ _ (thumbnail_segments p k [] _ _ _ PC E)). cbn [app]. unfold in_flight. cbn [existsb].
    rewrite FC, NR, FN, FS. cbn [orb]. change (ends_with ".part" "thumbs") with false. cbn [orb]. rewrite decide_False by tauto. rewrite RS, OS.
    rewrite bool_decide_false by done. cbn [negb orb]. f_equal. rewrite <-(join_split k), E. done.
Qed.

(** The object of an upload to the library is a source of the record [id] of
    the collection [library], as far as the sweeper can tell. *)
Lemma library_upload_owner id f : is_valid_id id = true → ends_with ".part" (safe_filename f) = false →
  classify (pending_key id "" f) = OSource "library" id.
Proof.
  intros I N. rewrite (classify_segments _ ["library"; id; safe_filename f]) by (by apply (pending_key_segments id "" "" f I)).
  unfold in_flight. cbn [existsb]. rewrite N, (undotted_not_in_flight id (id_undotted id I)). done.
Qed.

(** Under a prefix nothing that is stored can be attributed. *)
Lemma prefixed_owner id raw prefix collection record f k p :
  is_valid_id id = true → normalize_prefix raw = Ok prefix → prefix ≠ "" → collection ≠ "thumbs" →
  storage_key id prefix collection record f = Ok k → str_forall name_char (p_name p) = true →
  classify k = OUnrecognised ∧ classify (thumbnail_key p k) = OUnrecognised ∧ classify (pending_key id prefix f) = OUnrecognised.
Proof.
  intros I N P T K PC. destruct (storage_key_segments id raw prefix collection record f k I N K) as (E & _).
  pose proof (pending_key_segments id raw prefix f I N) as E2.
  assert (∃ q qs, prefix_segments prefix = q :: qs) as (q & qs & Q).
  { unfold prefix_segments. rewrite decide_False by done. pose proof (split_on_nonempty "/" prefix). destruct (split_on "/" prefix); [done|eauto]. }
  rewrite Q in E, E2. pose proof (thumbnail_segments p k _ _ _ _ PC E) as E3.
  rewrite (classify_segments _ _ E), (classify_segments _ _ E2), (classify_segments _ _ E3).
  destruct qs as [|q2 [|q3 [|q4 [|q5 [|q6 qs]]]]]; cbn [app]; split_and!; destruct (in_flight _); try done; by rewrite decide_True.
Qed.

(** * Concrete inputs *)

Definition sample_id : string := "abcDEF123456789".

Lemma keys_stay_in_their_directory_witness :
  is_valid_id sample_id = true ∧ normalize_prefix " tenants/a/ " = Ok "tenants/a"
  ∧ path_for (pending_key sample_id "tenants/a" "../../etc/My Photo.png") = Ok ["tenants"; "a"; "library"; sample_id; "My_Photo.png"].
Proof.
  assert (is_valid_id sample_id = true) as I by reflexivity.
  assert (normalize_prefix " tenants/a/ " = Ok "tenants/a") as N by reflexivity.
  destruct (keys_stay_in_their_directory sample_id " tenants/a/ " "tenants/a" "../../etc/My Photo.png" I N) as (_ & P & _).
  split_and!; [exact I|exact N|exact P].
Defined.

Definition sample_preset : ImagePreset :=
  {| p_name := "my_card"; p_width := Some 400%Z; p_height := None; p_mode := Inside; p_format := OWebp; p_quality := 80 |}.

Lemma object_owner_reads_back_witness : ∃ k,
  storage_key sample_id "" "posts" "p1" "photo.png" = Ok k ∧ k = "posts/p1/abcDEF123456789_photo.png"
  ∧ classify (thumbnail_key sample_preset k) = OThumbnail "posts" "p1" k "my_card".
Proof.
  exists "posts/p1/abcDEF123456789_photo.png". split; [reflexivity|]. split; [reflexivity|].
  apply (object_owner_reads_back sample_id "posts" "p1" "photo.png"); reflexivity.
Defined.

(** Spellings of one size are presets of their own, each with its own object
    in the store. *)
Example spelled_sizes_are_cached_apart :
  let box := λ p, (p_width p, p_height p, thumbnail_key p "posts/p1/a.png") in
  box <$> parse_size "400x300" = Ok (Some 400%Z, Some 300%Z, "posts/p1/thumbs/a.png/400x300_webp")
  ∧ box <$> parse_size "0400x300" = Ok (Some 400%Z, Some 300%Z, "posts/p1/thumbs/a.png/0400x300_webp")
  ∧ box <$> parse_size "00400x+300" = Ok (Some 400%Z, Some 300%Z, "posts/p1/thumbs/a.png/00400x+300_webp").
Proof. by vm_compute. Qed.
