(* ===== verification/FileStore.v ===== *)
(** The media library and its clean-up: the rows of [_files] and the queue the
    trigger of migrations/0011_files.sql fills, [crates/files/src/store.rs], the
    outbox of objects, [crates/files/src/outbox.rs], and the reaper,
    [crates/files/src/reaper.rs].

    The statements are functions on the tables, each atomic. The objects are
    those of the configured backend; an object it fails to remove comes with
    the message of the error. Instants are seconds. A pass reads the clock
    once. *)
From S2P Require Import Prelude CoreError Json FileKeys.
From stdpp Require Import sorting.

Local Open Scope Z_scope.
Local Set Warnings "-register-all,-clear-no-such-hyp".

(** * The tables *)

(** [enum Origin] and [enum Status], their names and parsers. *)
Inductive Origin := FromField | FromEditor | FromLibrary.
Inductive Status := Pending | Ready.
#[export] Instance Origin_eq_dec : EqDecision Origin.
Proof. solve_decision. Defined.
#[export] Instance Status_eq_dec : EqDecision Status.
Proof. solve_decision. Defined.

Definition origin_as_str (o : Origin) : string :=
  match o with FromField => "field" | FromEditor => "editor" | FromLibrary => "library" end.
Definition origin_parse (raw : string) : result Origin :=
  let name := to_ascii_lowercase (trim raw) in
  if decide (name = "" ∨ name = "field") then Ok FromField
  else if decide (name = "editor") then Ok FromEditor
  else if decide (name = "library") then Ok FromLibrary
  else Err Invalid.
Definition status_as_str (s : Status) : string := match s with Pending => "pending" | Ready => "ready" end.
Definition status_parse (raw : string) : result Status :=
  if decide (raw = "pending") then Ok Pending else if decide (raw = "ready") then Ok Ready else Err Internal.

(** What the clean-up reads of a row of [_files]. *)
Record Row := {
  r_id : string;
  r_path : string;
  r_backend : string;
  r_collection : string;
  r_record : string;
  r_field : string;
  r_variants : Value;
  r_status : Status;
  r_origin : Origin;
  r_uploaded_by : string;
  r_attached : option Z;
  r_created : Z;
}.

(** [struct PendingDeletion], a row of [_file_deletions], and one of
    [_file_outbox]. *)
Record Deletion := {
  d_id : Z;
  d_file : string;
  d_backend : string;
  d_path : string;
  d_variants : Value;
  d_attempts : Z;
  d_next : Z;
}.
Record Entry := { e_id : string; e_key : string; e_attempts : Z; e_run_at : Z }.

Record Library := {
  rows : list Row;
  refs : list (string * string * string * string);
  deletions : list Deletion;
  serial : Z;
  outbox : list Entry;
  objects : gset string;
}.
Definition empty_library : Library :=
  {| rows := []; refs := []; deletions := []; serial := 1; outbox := []; objects := ∅ |}.

Definition with_rows (l : list Row) (s : Library) : Library :=
  {| rows := l; refs := refs s; deletions := deletions s; serial := serial s; outbox := outbox s; objects := objects s |}.
Definition with_refs (l : list (string * string * string * string)) (s : Library) : Library :=
  {| rows := rows s; refs := l; deletions := deletions s; serial := serial s; outbox := outbox s; objects := objects s |}.
Definition with_deletions (l : list Deletion) (s : Library) : Library :=
  {| rows := rows s; refs := refs s; deletions := l; serial := serial s; outbox := outbox s; objects := objects s |}.
Definition with_outbox (l : list Entry) (s : Library) : Library :=
  {| rows := rows s; refs := refs s; deletions := deletions s; serial := serial s; outbox := l; objects := objects s |}.
Definition with_objects (o : gset string) (s : Library) : Library :=
  {| rows := rows s; refs := refs s; deletions := deletions s; serial := serial s; outbox := outbox s; objects := o |}.

(** * Statements on the rows *)

(** [insert]: ready when the upload names a record; the id is a primary key. *)
Record NewFile := {
  n_path : string; n_backend : string; n_collection : string; n_record : string; n_field : string;
  n_origin : Origin; n_uploaded_by : string;
}.
Definition is_attached (n : NewFile) : bool := negb (bool_decide (n_collection n = "")) && negb (bool_decide (n_record n = "")).
Definition row_of (now : Z) (id : string) (n : NewFile) : Row :=
  {| r_id := id; r_path := n_path n; r_backend := n_backend n; r_collection := n_collection n; r_record := n_record n;
     r_field := n_field n; r_variants := JObject []; r_status := if is_attached n then Ready else Pending; r_origin := n_origin n;
     r_uploaded_by := n_uploaded_by n; r_attached := if decide (n_record n = "") then None else Some now; r_created := now |}.
Definition insert_row (now : Z) (id : string) (n : NewFile) (s : Library) : result Library :=
  if existsb (λ r, bool_decide (r_id r = id)) (rows s) then Err Internal
  else Ok (with_rows (rows s ++ [row_of now id n]) s).

(** The update of [attach], with the number of rows it changed. *)
Definition attachable (id collection record : string) (owner : option string) (r : Row) : bool :=
  bool_decide (r_id r = id)
  && match owner with Some owner => bool_decide (r_uploaded_by r = owner) | None => true end
  && (bool_decide (r_record r = "") || bool_decide (r_collection r = collection ∧ r_record r = record)).
Definition attach_row (now : Z) (collection record field : string) (r : Row) : Row :=
  {| r_id := r_id r; r_path := r_path r; r_backend := r_backend r; r_collection := collection; r_record := record; r_field := field;
     r_variants := r_variants r; r_status := Ready; r_origin := r_origin r; r_uploaded_by := r_uploaded_by r;
     r_attached := Some now; r_created := r_created r |}.
Definition attach_rows (now : Z) (id collection record field : string) (owner : option string) (s : Library) : Library * nat :=
  (with_rows ((λ r, if attachable id collection record owner r then attach_row now collection record field r else r) <$> rows s) s,
   length (filter (λ r, attachable id collection record owner r = true) (rows s))).

(** [set_variants]. *)
Definition vary_row (variants : Value) (r : Row) : Row :=
  {| r_id := r_id r; r_path := r_path r; r_backend := r_backend r; r_collection := r_collection r; r_record := r_record r;
     r_field := r_field r; r_variants := variants; r_status := r_status r; r_origin := r_origin r; r_uploaded_by := r_uploaded_by r;
     r_attached := r_attached r; r_created := r_created r |}.
Definition set_variants (id : string) (variants : Value) (s : Library) : Library :=
  with_rows ((λ r, if decide (r_id r = id) then vary_row variants r else r) <$> rows s) s.

(** [delete from _files where ...], whose trigger queues what each row names. *)
Definition deletion_of (now serial : Z) (r : Row) : Deletion :=
  {| d_id := serial; d_file := r_id r; d_backend := r_backend r; d_path := r_path r; d_variants := r_variants r;
     d_attempts := 0; d_next := now |}.
Fixpoint queue_rows (now serial : Z) (l : list Row) : list Deletion :=
  match l with [] => [] | r :: l => deletion_of now serial r :: queue_rows now (serial + 1) l end.
Definition delete_rows (now : Z) (P : Row → bool) (s : Library) : Library * list string :=
  let gone := filter (λ r, P r = true) (rows s) in
  ({| rows := filter (λ r, P r = false) (rows s); refs := refs s;
      deletions := deletions s ++ queue_rows now (serial s) gone; serial := serial s + Z.of_nat (length gone);
      outbox := outbox s; objects := objects s |},
   r_id <$> gone).

(** [delete], [delete_for_record], [delete_for_collection] and [delete_for_ids]. *)
Definition delete_file (now : Z) (id : string) (s : Library) : Library := (delete_rows now (λ r, bool_decide (r_id r = id)) s).1.
Definition delete_record_files (now : Z) (collection record : string) (s : Library) : Library * list string :=
  delete_rows now (λ r, bool_decide (r_collection r = collection ∧ r_record r = record)) s.
Definition delete_collection_files (now : Z) (collection : string) (s : Library) : Library * list string :=
  delete_rows now (λ r, bool_decide (r_collection r = collection)) s.
Definition delete_ids_files (now : Z) (ids : list string) (s : Library) : Library * list string :=
  if decide (ids = []) then (s, []) else delete_rows now (λ r, bool_decide (r_id r ∈ ids)) s.

(** [unattached_older_than]. *)
Definition abandoned (now ttl : Z) (r : Row) : Prop :=
  r_status r = Pending ∧ r_attached r = None ∧ r_origin r ≠ FromField ∧ r_created r < now - ttl.
#[export] Instance abandoned_dec now ttl r : Decision (abandoned now ttl r) := _.
Definition older (a b : Row) : Prop := r_created a ≤ r_created b.
#[export] Instance older_dec a b : Decision (older a b) := Z_le_dec _ _.
Definition unattached_older_than (now ttl : Z) (limit : nat) (s : Library) : list Row :=
  take limit (merge_sort older (filter (abandoned now ttl) (rows s))).

(** [prune_refs]. *)
Definition prune_refs (s : Library) : Library :=
  with_refs (filter (λ '(file, _, _, _), file ∈ r_id <$> rows s) (refs s)) s.

(** * The queues *)

(** [variant_keys] of a row, and [PendingDeletion::keys]. *)
Definition text_values (v : Value) : list string :=
  match as_object v with Some m => omap (λ '(_, x), as_str x) m | None => [] end.
Definition variant_keys (r : Row) : list string := text_values (r_variants r).
Definition keys (d : Deletion) : list string := d_path d :: filter (λ k, k ≠ d_path d) (text_values (d_variants d)).

(** [due_deletions], [finish_deletion] and [defer_deletion]. *)
Definition sooner (a b : Deletion) : Prop := d_next a ≤ d_next b.
#[export] Instance sooner_dec a b : Decision (sooner a b) := Z_le_dec _ _.
Definition due_deletions (now : Z) (limit : nat) (s : Library) : list Deletion :=
  take limit (merge_sort sooner (filter (λ d, d_next d ≤ now) (deletions s))).
Definition finish_deletion (id : Z) (s : Library) : Library := with_deletions (filter (λ d, d_id d ≠ id) (deletions s)) s.
Definition put_off (now max_backoff : Z) (d : Deletion) : Deletion :=
  {| d_id := d_id d; d_file := d_file d; d_backend := d_backend d; d_path := d_path d; d_variants := d_variants d;
     d_attempts := d_attempts d + 1; d_next := now + Z.min max_backoff (30 * 2 ^ d_attempts d) |}.
Definition defer_deletion (now : Z) (id : Z) (error : string) (max_backoff : Z) (s : Library) : Library :=
  with_deletions ((λ d, if decide (d_id d = id ∧ error ≠ "") then put_off now max_backoff d else d) <$> deletions s) s.

(** [outbox::enqueue] and [outbox::drain]. *)
Definition BATCH : nat := 100.
Definition MAX_BACKOFF : Z := 3600.
Definition enqueue (now : Z) (id key : string) (s : Library) : Library :=
  with_outbox (outbox s ++ [{| e_id := id; e_key := key; e_attempts := 0; e_run_at := now |}]) s.
Definition earlier (a b : Entry) : Prop := e_run_at a ≤ e_run_at b.
#[export] Instance earlier_dec a b : Decision (earlier a b) := Z_le_dec _ _.
Definition due_entries (now : Z) (s : Library) : list Entry :=
  take BATCH (merge_sort earlier (filter (λ e, e_run_at e ≤ now) (outbox s))).
Definition forget_entry (id : string) (s : Library) : Library := with_outbox (filter (λ e, e_id e ≠ id) (outbox s)) s.
Definition retry_entry (now : Z) (id : string) (s : Library) : Library :=
  with_outbox ((λ e, if decide (e_id e = id)
                     then {| e_id := e_id e; e_key := e_key e; e_attempts := e_attempts e + 1;
                             e_run_at := now + Z.min MAX_BACKOFF (30 * (e_attempts e + 1)) |} else e) <$> outbox s) s.

(** The backend: the message of the error for the objects it fails to remove. *)
Definition Failures : Type := string → option string.
Definition remove_object (fails : Failures) (key : string) (s : Library) : Library * option string :=
  match fails key with Some error => (s, Some error) | None => (with_objects (objects s ∖ {[key]}) s, None) end.

(** [enqueue_all] and [drain]. *)
Definition drain_entry (now : Z) (fails : Failures) (st : Library * nat * nat) (e : Entry) : Library * nat * nat :=
  let '(s, deleted, failed) := st in
  match remove_object fails (e_key e) s with
  | (s, None) => (forget_entry (e_id e) s, S deleted, failed)
  | (s, Some _) => (retry_entry now (e_id e) s, deleted, S failed)
  end.
Definition drain (now : Z) (fails : Failures) (s : Library) : Library * nat * nat :=
  foldl (drain_entry now fails) (s, 0%nat, 0%nat) (due_entries now s).

(** * The reaper *)

(** [struct Reaper], its settings and [struct ReaperReport]. *)
Definition DEFAULT_UNATTACHED_TTL_SECONDS : Z := 24 * 60 * 60.
Definition DEFAULT_MAX_BACKOFF_SECONDS : Z := 24 * 60 * 60.
Definition DEFAULT_BATCH : Z := 100.
Record Reaper := { backend : string; unattached_ttl : Z; max_backoff : Z; batch : Z }.
Definition new_reaper (backend : string) : Reaper :=
  {| backend := backend; unattached_ttl := DEFAULT_UNATTACHED_TTL_SECONDS; max_backoff := DEFAULT_MAX_BACKOFF_SECONDS; batch := DEFAULT_BATCH |}.
Definition with_unattached_ttl (seconds : Z) (w : Reaper) : Reaper :=
  {| backend := backend w; unattached_ttl := Z.max seconds 0; max_backoff := max_backoff w; batch := batch w |}.
Definition with_batch (b : Z) (w : Reaper) : Reaper :=
  {| backend := backend w; unattached_ttl := unattached_ttl w; max_backoff := max_backoff w; batch := Z.min (Z.max b 1) 10000 |}.
Record Report := { deleted : nat; failed : nat; reclaimed : nat; skipped : nat }.

(** [remove_all]: the first failure ends it. *)
Fixpoint remove_all (fails : Failures) (l : list string) (s : Library) : Library * option string :=
  match l with
  | [] => (s, None)
  | key :: l => match remove_object fails key s with (s, None) => remove_all fails l s | (s, Some error) => (s, Some error) end
  end.

(** The loops of [run]. *)
Definition reap (w : Reaper) (now : Z) (fails : Failures) (st : Library * Report) (d : Deletion) : Library * Report :=
  let '(s, r) := st in
  if decide (d_backend d ≠ backend w) then
    (s, {| deleted := deleted r; failed := failed r; reclaimed := reclaimed r; skipped := S (skipped r) |})
  else
    match remove_all fails (keys d) s with
    | (s, None) => (finish_deletion (d_id d) s,
        {| deleted := S (deleted r); failed := failed r; reclaimed := reclaimed r; skipped := skipped r |})
    | (s, Some error) => (defer_deletion now (d_id d) error (max_backoff w) s,
        {| deleted := deleted r; failed := S (failed r); reclaimed := reclaimed r; skipped := skipped r |})
    end.
Definition reclaim (w : Reaper) (now : Z) (st : Library * Report) (file : Row) : Library * Report :=
  let '(s, r) := st in
  if decide (r_backend file ≠ backend w) then
    (s, {| deleted := deleted r; failed := failed r; reclaimed := reclaimed r; skipped := S (skipped r) |})
  else
    (delete_file now (r_id file) s,
     {| deleted := deleted r; failed := failed r; reclaimed := S (reclaimed r); skipped := skipped r |}).

(** [run]. *)
Definition run (w : Reaper) (now : Z) (fails : Failures) (s : Library) : Library * Report :=
  let '(s, gone, kept) := drain now fails s in
  let r := {| deleted := gone; failed := kept; reclaimed := 0; skipped := 0 |} in
  let '(s, r) := foldl (reap w now fails) (s, r) (due_deletions now (Z.to_nat (batch w)) s) in
  let '(s, r) := foldl (reclaim w now) (s, r) (unattached_older_than now (unattached_ttl w) (Z.to_nat (batch w)) s) in
  (prune_refs s, r).

(** * Reapers side by side with everything else

    What was read from the queues stays with the worker that read it, so it
    may be removed after the tables have moved on. *)

(** The keys of a file: its own, and those of its thumbnails. *)
Definition owns (path key : string) : Prop := key = path ∨ ∃ p, key = thumbnail_key p path.
Definition apart (p q : string) : Prop := ∀ k, owns p k → owns q k → False.

Record World := { lib : Library; held : list Deletion; drawn : list Entry }.
Definition start : World := {| lib := empty_library; held := []; drawn := [] |}.
Definition on (f : Library → Library) (x : World) : World := {| lib := f (lib x); held := held x; drawn := drawn x |}.

(** A path that shares no key with any file the world knows of: it holds an
    id that has just been drawn. *)
Definition fresh_path (path : string) (x : World) : Prop :=
  (∀ r, r ∈ rows (lib x) → apart path (r_path r))
  ∧ (∀ d, d ∈ deletions (lib x) ++ held x → apart path (d_path d))
  ∧ (∀ e, e ∈ outbox (lib x) ++ drawn x → ¬ owns path (e_key e)).

Inductive step (w : Reaper) : World → World → Prop :=
  | S_store key x : step w x (on (λ s, with_objects ({[key]} ∪ objects s) s) x)
  | S_insert now id n s' x : insert_row now id n (lib x) = Ok s' → fresh_path (n_path n) x → step w x (on (λ _, s') x)
  | S_attach now id collection record field owner x : step w x (on (λ s, (attach_rows now id collection record field owner s).1) x)
  | S_vary id variants x :
      (∀ r, r ∈ rows (lib x) → r_id r = id → Forall (owns (r_path r)) (text_values variants)) → step w x (on (set_variants id variants) x)
  | S_delete now P x : step w x (on (λ s, (delete_rows now P s).1) x)
  | S_refs l x : step w x (on (with_refs l) x)
  | S_queue now id key x : (∀ r, r ∈ rows (lib x) → ¬ owns (r_path r) key) → step w x (on (enqueue now id key) x)
  | S_due now limit x : step w x {| lib := lib x; held := held x ++ due_deletions now limit (lib x); drawn := drawn x |}
  | S_draw now x : step w x {| lib := lib x; held := held x; drawn := drawn x ++ due_entries now (lib x) |}
  | S_remove d key x : d ∈ held x → d_backend d = backend w → key ∈ keys d →
      step w x (on (λ s, with_objects (objects s ∖ {[key]}) s) x)
  | S_finish id x : step w x (on (finish_deletion id) x)
  | S_defer now id error cap x : step w x (on (defer_deletion now id error cap) x)
  | S_drop e x : e ∈ drawn x → step w x (on (λ s, with_objects (objects s ∖ {[e_key e]}) s) x)
  | S_forget id x : step w x (on (forget_entry id) x)
  | S_retry now id x : step w x (on (retry_entry now id) x).

(** No queue names a key of a file that is there. *)
Record Inv (x : World) : Prop := {
  inv_ids : NoDup (r_id <$> rows (lib x));
  inv_rows : ∀ r1 r2, r1 ∈ rows (lib x) → r2 ∈ rows (lib x) → r_id r1 ≠ r_id r2 → apart (r_path r1) (r_path r2);
  inv_variants : ∀ r, r ∈ rows (lib x) → Forall (owns (r_path r)) (variant_keys r);
  inv_deletions : ∀ d, d ∈ deletions (lib x) ++ held x →
    Forall (owns (d_path d)) (keys d) ∧ ∀ r, r ∈ rows (lib x) → apart (d_path d) (r_path r);
  inv_entries : ∀ e r, e ∈ outbox (lib x) ++ drawn x → r ∈ rows (lib x) → ¬ owns (r_path r) (e_key e);
}.

Lemma apart_sym p q : apart p q → apart q p.
Proof. intros A k P Q. by apply (A k). Qed.

Lemma rows_by_id x r1 r2 : Inv x → r1 ∈ rows (lib x) → r2 ∈ rows (lib x) → r_id r1 = r_id r2 → r1 = r2.
Proof.
  intros I H1 H2 E. pose proof (inv_ids x I) as N. revert H1 H2 N. generalize (rows (lib x)). clear I. intros l. induction l as [|r l IH]; intros H1 H2 N.
  - by apply not_elem_of_nil in H1.
  - cbn in N. apply NoDup_cons in N as [F N]. apply elem_of_cons in H1 as [->|H1]; apply elem_of_cons in H2 as [->|H2]; [done| |..].
    + exfalso. apply F. rewrite E. by apply list_elem_of_fmap_2.
    + exfalso. apply F. rewrite <-E. by apply list_elem_of_fmap_2.
    + by apply IH.
Qed.

(** Rows that keep their ids, paths and variants keep the invariant. *)
Lemma inv_rows_map x (f : Row → Row) :
  (∀ r, r_id (f r) = r_id r ∧ r_path (f r) = r_path r) → (∀ r, r ∈ rows (lib x) → Forall (owns (r_path r)) (variant_keys (f r))) →
  Inv x → Inv (on (λ s, with_rows (f <$> rows s) s) x).
Proof.
  intros F V I. destruct I as [I1 I2 I3 I4 I5]. constructor; cbn.
  - rewrite <-list_fmap_compose. rewrite (list_fmap_ext _ r_id); [done|]. intros i r _. apply F.
  - intros r1 r2 (q1 & -> & H1)%list_elem_of_fmap (q2 & -> & H2)%list_elem_of_fmap. rewrite !(proj1 (F _)), !(proj2 (F _)). by apply I2.
  - intros r (q & -> & H)%list_elem_of_fmap. rewrite (proj2 (F q)). by apply V.
  - intros d D. destruct (I4 d D) as [K A]. split; [done|]. intros r (q & -> & H)%list_elem_of_fmap. rewrite (proj2 (F q)). by apply A.
  - intros e r E (q & -> & H)%list_elem_of_fmap. rewrite (proj2 (F q)). by apply I5.
Qed.

Lemma queue_rows_elem now n l d : d ∈ queue_rows now n l → ∃ r m, r ∈ l ∧ d = deletion_of now m r.
Proof.
  revert n. induction l as [|r l IH]; intros n D; [by apply not_elem_of_nil in D|]. cbn in D.
  apply elem_of_cons in D as [->|D]; [exists r, n; split; [by left|done]|]. destruct (IH _ D) as (q & m & Q & ->).
  exists q, m. split; [by right|done].
Qed.

Lemma keys_owned path variants : Forall (owns path) (text_values variants) →
  Forall (owns path) (path :: filter (λ k, k ≠ path) (text_values variants)).
Proof.
  intros F. constructor; [by left|]. apply Forall_forall. intros k K. apply list_elem_of_filter in K as [_ K].
  by apply (proj1 (Forall_forall _ _) F).
Qed.

(** Queues that only lose entries, or change when they are due. *)
Lemma inv_queues x (fd : list Deletion) (fe : list Entry) s' :
  rows s' = rows (lib x) →
  (∀ d, d ∈ deletions s' ++ fd → ∃ d', d' ∈ deletions (lib x) ++ held x ∧ d_path d = d_path d' ∧ keys d = keys d') →
  (∀ e, e ∈ outbox s' ++ fe → ∃ e', e' ∈ outbox (lib x) ++ drawn x ∧ e_key e = e_key e') →
  Inv x → Inv {| lib := s'; held := fd; drawn := fe |}.
Proof.
  intros R D E [I1 I2 I3 I4 I5]. constructor; cbn; rewrite ?R; [done..| |].
  - intros d H. destruct (D d H) as (d' & H' & -> & ->). by apply I4.
  - intros e r H Hr. destruct (E e H) as (e' & H' & ->). by apply I5.
Qed.

Lemma taken_due now limit s d : d ∈ due_deletions now limit s → d ∈ deletions s.
Proof.
  unfold due_deletions. intros H. apply elem_of_take in H as (i & H & _). apply list_elem_of_lookup_2 in H.
  rewrite merge_sort_Permutation in H. by apply list_elem_of_filter in H as [_ H].
Qed.
Lemma taken_entries now s e : e ∈ due_entries now s → e ∈ outbox s.
Proof.
  unfold due_entries. intros H. apply elem_of_take in H as (i & H & _). apply list_elem_of_lookup_2 in H.
  rewrite merge_sort_Permutation in H. by apply list_elem_of_filter in H as [_ H].
Qed.


Lemma insert_inv now id n s' x : insert_row now id n (lib x) = Ok s' → fresh_path (n_path n) x → Inv x → Inv (on (λ _, s') x).
Proof.
  unfold insert_row. destruct (existsb _ _) eqn:E; [done|]. intros [= <-] (F1 & F2 & F3) I.
  assert (∀ r, r ∈ rows (lib x) → r_id r ≠ id) as N.
  { intros r H X. assert (existsb (λ r, bool_decide (r_id r = id)) (rows (lib x)) = true) as Y; [|congruence].
    apply existsb_exists. exists r. split; [by apply list_elem_of_In|by apply bool_decide_eq_true]. }
  destruct I as [I1 I2 I3 I4 I5]. constructor; cbn.
  - rewrite fmap_app. apply NoDup_app. split_and!; [done| |apply NoDup_singleton]. intros i (r & -> & H)%list_elem_of_fmap K.
    cbn in K. apply list_elem_of_singleton in K. by apply (N r H).
  - intros r1 r2 [H1|H1]%elem_of_app [H2|H2]%elem_of_app D.
    + by apply I2.
    + apply list_elem_of_singleton in H2 as ->. by apply apart_sym, F1.
    + apply list_elem_of_singleton in H1 as ->. by apply F1.
    + apply list_elem_of_singleton in H1 as ->. apply list_elem_of_singleton in H2 as ->. done.
  - intros r [H|H]%elem_of_app; [by apply I3|]. apply list_elem_of_singleton in H as ->. constructor.
  - intros d D. destruct (I4 d D) as [K A]. split; [done|]. intros r [H|H]%elem_of_app; [by apply A|].
    apply list_elem_of_singleton in H as ->. by apply apart_sym, F2.
  - intros e r H [R|R]%elem_of_app; [by apply I5|]. apply list_elem_of_singleton in R as ->. by apply F3.
Qed.

Lemma delete_inv now P x : Inv x → Inv (on (λ s, (delete_rows now P s).1) x).
Proof.
  intros I. pose proof I as [I1 I2 I3 I4 I5].
  assert (∀ r, r ∈ filter (λ r, P r = false) (rows (lib x)) → r ∈ rows (lib x) ∧ P r = false) as R by (intros r [? ?]%list_elem_of_filter; done).
  constructor; cbn.
  - eapply sublist_NoDup; [exact I1|]. apply fmap_sublist, sublist_filter.
  - intros r1 r2 [H1 _]%R [H2 _]%R. by apply I2.
  - intros r [H _]%R. by apply I3.
  - intros d [[D|D]%elem_of_app|D]%elem_of_app.
    + destruct (I4 d) as [K A]; [apply elem_of_app; by left|]. split; [done|]. intros r [H _]%R. by apply A.
    + apply queue_rows_elem in D as (q & m & Q & ->). apply list_elem_of_filter in Q as [Pq Q]. split.
      * apply keys_owned, I3, Q.
      * intros r [H Pr]%R. cbn. apply I2; [done..|]. intros E. rewrite (rows_by_id x q r I Q H E) in Pq. congruence.
    + destruct (I4 d) as [K A]; [apply elem_of_app; by right|]. split; [done|]. intros r [H _]%R. by apply A.
  - intros e r H [Hr _]%R. by apply I5.
Qed.

Lemma set_variants_map id variants s : set_variants id variants s = with_rows ((λ r, if decide (r_id r = id) then vary_row variants r else r) <$> rows s) s.
Proof. done. Qed.

Lemma files_step_inv w x y : step w x y → Inv x → Inv y.
Proof.
  intros S I. destruct S as [key x|now id n s' x E F|now id c r f o x|id v x V|now P x|l x|now id key x Q|now limit x|now x|d key x D B K
    |id x|now id error cap x|e x E|id x|now id x].
  - revert I. apply inv_queues; [done|intros d H; by exists d|intros e H; by exists e].
  - by eapply insert_inv.
  - unfold attach_rows; cbn [fst]. apply inv_rows_map; [intros q; by destruct (attachable _ _ _ _ q)|intros q H|done].
    pose proof (inv_variants x I q H). by destruct (attachable _ _ _ _ q).
  - apply inv_rows_map; [intros q; by case_decide|intros q H|done]. case_decide; [by apply V|by apply (inv_variants x I)].
  - by apply delete_inv.
  - revert I. apply inv_queues; [done|intros d H; by exists d|intros e H; by exists e].
  - destruct I as [I1 I2 I3 I4 I5]. constructor; cbn; [done..|]. intros e r [[H|H]%elem_of_app|H]%elem_of_app R.
    + apply I5; [apply elem_of_app; by left|done].
    + apply list_elem_of_singleton in H as ->. by apply Q.
    + apply I5; [apply elem_of_app; by right|done].
  - revert I. apply inv_queues; [done| |intros e H; by exists e]. intros d H. exists d. split; [|done].
    apply elem_of_app in H as [H|H]; [apply elem_of_app; by left|]. apply elem_of_app in H as [H|H]; [apply elem_of_app; by right|].
    apply elem_of_app. left. by eapply taken_due.
  - revert I. apply inv_queues; [done|intros d H; by exists d|]. intros e H. exists e. split; [|done].
    apply elem_of_app in H as [H|H]; [apply elem_of_app; by left|]. apply elem_of_app in H as [H|H]; [apply elem_of_app; by right|].
    apply elem_of_app. left. by eapply taken_entries.
  - revert I. apply inv_queues; [done|intros d' H; by exists d'|intros e H; by exists e].
  - revert I. apply inv_queues; [done| |intros e H; by exists e]. intros d H. exists d. split; [|done]. cbn in H.
    apply elem_of_app in H as [H|H]; apply elem_of_app; [left|by right]. by apply list_elem_of_filter in H as [_ H].
  - revert I. apply inv_queues; [done| |intros e H; by exists e]. intros d H. cbn in H.
    apply elem_of_app in H as [(d' & -> & H)%list_elem_of_fmap|H]; [exists d'|exists d]; (split; [apply elem_of_app; auto|]); [by case_decide|done].
  - revert I. apply inv_queues; [done|intros d' H; by exists d'|intros e' H; by exists e'].
  - revert I. apply inv_queues; [done|intros d H; by exists d|]. intros e H. exists e. split; [|done]. cbn in H.
    apply elem_of_app in H as [H|H]; apply elem_of_app; [left|by right]. by apply list_elem_of_filter in H as [_ H].
  - revert I. apply inv_queues; [done|intros d H; by exists d|]. intros e H. cbn in H.
    apply elem_of_app in H as [(e' & -> & H)%list_elem_of_fmap|H]; [exists e'|exists e]; (split; [apply elem_of_app; auto|]); [by case_decide|done].
Qed.

Lemma files_start_inv : Inv start.
Proof.
  constructor; cbn.
  - constructor.
  - intros r1 r2 H. by apply not_elem_of_nil in H.
  - intros r H. by apply not_elem_of_nil in H.
  - intros d H. by apply not_elem_of_nil in H.
  - intros e r H. by apply not_elem_of_nil in H.
Qed.

Lemma files_reachable_inv w x : rtc (step w) start x → Inv x.
Proof. apply (rtc_ind_r (λ x, Inv x) start files_start_inv). intros y z _ S I. by eapply files_step_inv. Qed.

(** The step that removes an object spares the files that are there. *)
Lemma step_spares w x y r k : Inv x → step w x y → r ∈ rows (lib y) → owns (r_path r) k → k ∈ objects (lib x) → k ∈ objects (lib y).
Proof.
  intros I S R O H. destruct S as [key x|now id n s' x E F|now id c q f o x|id v x V|now P x|l x|now id key x Q|now limit x|now x|d key x D B K
    |id x|now id error cap x|e x E|id x|now id x]; cbn in *; try done.
  - set_solver.
  - unfold insert_row in E. destruct (existsb _ _); [done|]. by injection E as <-.
  - destruct (inv_deletions x I d) as [Kd A]; [apply elem_of_app; by right|].
    assert (owns (d_path d) key) as Ok by (by apply (proj1 (Forall_forall _ _) Kd)).
    apply elem_of_difference. split; [done|]. rewrite elem_of_singleton. intros ->. by apply (A r R key).
  - apply elem_of_difference. split; [done|]. rewrite elem_of_singleton. intros ->.
    apply (inv_entries x I e r); [apply elem_of_app; by right|done|done].
Qed.

(** * A pass is such steps *)

Definition at_world (s : Library) (x : World) : World := {| lib := s; held := held x; drawn := drawn x |}.

Lemma one w x y : step w x y → rtc (step w) x y.
Proof. apply rtc_once. Qed.

Lemma remove_all_path w d fails l s H D :
  d ∈ H → d_backend d = backend w → (∀ k, k ∈ l → k ∈ keys d) →
  rtc (step w) {| lib := s; held := H; drawn := D |} {| lib := (remove_all fails l s).1; held := H; drawn := D |}.
Proof.
  revert s. induction l as [|k l IH]; intros s M B K; [apply rtc_refl|]. cbn [remove_all]. unfold remove_object. destruct (fails k); [apply rtc_refl|].
  eapply rtc_l; [eapply (S_remove w d k {| lib := s; held := H; drawn := D |}); [done|done|apply K; by left]|].
  apply IH; [done|done|]. intros j J. apply K. by right.
Qed.

Lemma reap_path w now fails l H D st : (∀ d, d ∈ l → d ∈ H) →
  rtc (step w) {| lib := st.1; held := H; drawn := D |} {| lib := (foldl (reap w now fails) st l).1; held := H; drawn := D |}.
Proof.
  revert st. induction l as [|d l IH]; intros st M; [apply rtc_refl|]. cbn [foldl].
  assert (rtc (step w) {| lib := st.1; held := H; drawn := D |} {| lib := (reap w now fails st d).1; held := H; drawn := D |}) as P.
  { destruct st as [s r]. unfold reap. cbn [fst]. case_decide as B; [apply rtc_refl|].
    pose proof (remove_all_path w d fails (keys d) s H D (M d ltac:(by left)) B (λ k K, K)) as P.
    destruct (remove_all fails (keys d) s) as [s' [error|]]; cbn [fst] in *; (eapply rtc_r; [exact P|]).
    - apply (S_defer w now (d_id d) error (max_backoff w) {| lib := s'; held := H; drawn := D |}).
    - apply (S_finish w (d_id d) {| lib := s'; held := H; drawn := D |}). }
  etrans; [exact P|]. apply IH. intros e E. apply M. by right.
Qed.

Lemma drain_path w now fails l H D st : (∀ e, e ∈ l → e ∈ D) →
  rtc (step w) {| lib := st.1.1; held := H; drawn := D |} {| lib := (foldl (drain_entry now fails) st l).1.1; held := H; drawn := D |}.
Proof.
  revert st. induction l as [|e l IH]; intros st M; [apply rtc_refl|]. cbn [foldl]. etrans; [|apply IH; intros f F; apply M; by right].
  destruct st as [[s n] m]. unfold drain_entry, remove_object. cbn [fst]. destruct (fails (e_key e)); cbn [fst].
  - apply one, (S_retry w now (e_id e) {| lib := s; held := H; drawn := D |}).
  - eapply rtc_l; [apply (S_drop w e {| lib := s; held := H; drawn := D |}), M; by left|].
    apply one, (S_forget w (e_id e) (on (λ s, with_objects (objects s ∖ {[e_key e]}) s) {| lib := s; held := H; drawn := D |})).
Qed.

Lemma reclaim_path w now l H D st :
  rtc (step w) {| lib := st.1; held := H; drawn := D |} {| lib := (foldl (reclaim w now) st l).1; held := H; drawn := D |}.
Proof.
  revert st. induction l as [|f l IH]; intros st; [apply rtc_refl|]. cbn [foldl]. etrans; [|apply IH].
  destruct st as [s r]. unfold reclaim. cbn [fst]. case_decide; [apply rtc_refl|].
  apply one, (S_delete w now (λ r, bool_decide (r_id r = r_id f)) {| lib := s; held := H; drawn := D |}).
Qed.

Lemma run_path w now fails x : ∃ H D, rtc (step w) x {| lib := (run w now fails (lib x)).1; held := H; drawn := D |}.
Proof.
  destruct x as [s H D]. cbn [lib]. unfold run, drain.
  pose proof (drain_path w now fails (due_entries now s) H (D ++ due_entries now s) (s, 0%nat, 0%nat) ltac:(intros; apply elem_of_app; by right)) as P1.
  destruct (foldl (drain_entry now fails) (s, 0%nat, 0%nat) (due_entries now s)) as [[s1 gone] kept]. cbn [fst] in P1.
  set (r1 := {| deleted := gone; failed := kept; reclaimed := 0; skipped := 0 |}).
  set (l2 := due_deletions now (Z.to_nat (batch w)) s1).
  pose proof (reap_path w now fails l2 (H ++ l2) (D ++ due_entries now s) (s1, r1) ltac:(intros; apply elem_of_app; by right)) as P2.
  destruct (foldl (reap w now fails) (s1, r1) l2) as [s2 r2]. cbn [fst] in P2.
  set (l3 := unattached_older_than now (unattached_ttl w) (Z.to_nat (batch w)) s2).
  pose proof (reclaim_path w now l3 (H ++ l2) (D ++ due_entries now s) (s2, r2)) as P3.
  destruct (foldl (reclaim w now) (s2, r2) l3) as [s3 r3]. cbn [fst] in P3 |- *.
  eexists _, _. eapply rtc_l; [apply (S_draw w now)|]. cbn. etrans; [exact P1|].
  eapply rtc_l; [apply (S_due w now (Z.to_nat (batch w)))|]. cbn. etrans; [exact P2|]. etrans; [exact P3|].
  apply one, (S_refs w _ {| lib := s3; held := H ++ l2; drawn := D ++ due_entries now s |}).
Qed.

(** C25. the clean-up never takes the object of a file that is there. However
    uploads, attachments, deletions, any number of reapers and what fails
    interleave, and however late a reaper acts on what it read: as long as
    uploads draw fresh ids and nothing puts the key of a file that is there
    into the outbox, a step leaves every object of every file that is there
    after it, its thumbnails included. A pass of the reaper is such steps. *)
Theorem living_files_keep_their_objects w x :
  rtc (step w) start x →
  (∀ y r k, step w x y → r ∈ rows (lib y) → owns (r_path r) k → k ∈ objects (lib x) → k ∈ objects (lib y))
  ∧ ∀ now fails, ∃ y, rtc (step w) x y ∧ lib y = (run w now fails (lib x)).1.
Proof.
  intros R. split.
  - intros y r k S. exact (step_spares w x y r k (files_reachable_inv w x R) S).
  - intros now fails. destruct (run_path w now fails x) as (H & D & P). by eexists.
Qed.

(** * What a pass does *)

(** The backend removes everything it is asked to. *)
Definition healthy : Failures := λ _, None.

(** The ids of the queue are those the sequence has given out. *)
Definition ids (s : Library) : list Z := d_id <$> deletions s.
Definition numbered (s : Library) : Prop := NoDup (ids s) ∧ ∀ i, i ∈ ids s → i < serial s.

(** The entries that have been due before an instant. *)
Definition front (now : Z) (s : Library) : list Deletion := filter (λ e, d_next e < now) (deletions s).
Definition own_ids (w : Reaper) (l : list Deletion) : list Z := d_id <$> filter (λ e, d_backend e = backend w) l.

(** An entry that has been seen to, with every object it names. *)
Definition gone (d : Deletion) (s : Library) : Prop :=
  d_id d ∉ ids s ∧ d_id d < serial s ∧ ∀ k, k ∈ keys d → k ∉ objects s.

Lemma remove_all_keeps fails l s :
  deletions (remove_all fails l s).1 = deletions s ∧ serial (remove_all fails l s).1 = serial s
  ∧ objects (remove_all fails l s).1 ⊆ objects s ∧ rows (remove_all fails l s).1 = rows s.
Proof.
  revert s. induction l as [|k l IH]; intros s; [done|]. cbn. unfold remove_object. destruct (fails k); [done|].
  destruct (IH (with_objects (objects s ∖ {[k]}) s)) as (-> & -> & O & ->). cbn in *. split_and!; [done..|set_solver|done].
Qed.

Lemma remove_all_done fails l s : (∀ k, k ∈ l → fails k = None) →
  (remove_all fails l s).2 = None ∧ ∀ k, k ∈ l → k ∉ objects (remove_all fails l s).1.
Proof.
  revert s. induction l as [|k l IH]; intros s F; [split; [done|intros k H; by apply not_elem_of_nil in H]|].
  cbn. unfold remove_object. rewrite F by (by left). destruct (IH (with_objects (objects s ∖ {[k]}) s)) as [E G]; [intros j J; apply F; by right|].
  split; [done|]. intros j [->|J]%elem_of_cons; [|by apply G]. pose proof (remove_all_keeps fails l (with_objects (objects s ∖ {[k]}) s)) as (_ & _ & O & _).
  intros X. apply O in X. cbn in X. set_solver.
Qed.

Lemma remove_all_error fails l s e : (remove_all fails l s).2 = Some e → ∃ k, fails k = Some e.
Proof.
  revert s. induction l as [|k l IH]; intros s; [done|]. cbn. unfold remove_object. destruct (fails k) eqn:K; [|by apply IH].
  cbn. intros [= <-]. by exists k.
Qed.

Lemma drain_keeps now fails l st :
  deletions (foldl (drain_entry now fails) st l).1.1 = deletions st.1.1 ∧ serial (foldl (drain_entry now fails) st l).1.1 = serial st.1.1
  ∧ objects (foldl (drain_entry now fails) st l).1.1 ⊆ objects st.1.1.
Proof.
  revert st. induction l as [|e l IH]; intros st; [done|]. cbn [foldl]. destruct (IH (drain_entry now fails st e)) as (-> & -> & O).
  destruct st as [[s n] m]. unfold drain_entry, remove_object in *. destruct (fails (e_key e)); cbn in *; (split_and!; [done..|set_solver]).
Qed.

(** ** One entry, then the entries of a pass *)
Section passes.
Context (w : Reaper) (now : Z) (fails : Failures).
Context (backoff : 0 ≤ max_backoff w) (messages : ∀ k, fails k ≠ Some "").

(** An entry of the backend leaves the front, finished or put off; one of
    another backend changes nothing. *)
Lemma reap_one st e : let st' := reap w now fails st e in
  front now st'.1 = filter (λ x, d_id x ∉ own_ids w [e]) (front now st.1)
  ∧ ids st'.1 `sublist_of` ids st.1 ∧ serial st'.1 = serial st.1 ∧ objects st'.1 ⊆ objects st.1
  ∧ (∀ x, x ∈ deletions st.1 → d_id x ∉ own_ids w [e] → x ∈ deletions st'.1).
Proof.
  destruct st as [s r]. unfold own_ids. cbn zeta. unfold reap. case_decide as B.
  - rewrite filter_cons_False by done. cbn. split_and!; [|done..]. symmetry. apply filter_all, Forall_forall. intros x _. apply not_elem_of_nil.
  - rewrite filter_cons_True by tauto. change (filter _ []) with (@nil Deletion). pose proof (remove_all_keeps fails (keys e) s) as (D & S & O & _).
    destruct (remove_all fails (keys e) s) as [s' [m|]] eqn:R; cbn [fst snd] in *; unfold front, ids.
    + assert (m ≠ "") as M.
      { intros ->. destruct (remove_all_error fails (keys e) s "") as [k K]; [by rewrite R|]. by apply (messages k). }
      cbn. rewrite D. split_and!; [|rewrite <-list_fmap_compose; rewrite (list_fmap_ext _ d_id); [done|intros i x _; cbn; by case_decide]|done..|].
      * clear R D. induction (deletions s) as [|x l IH]; [done|]. cbn [fmap list_fmap]. rewrite (filter_cons _ x l).
        destruct (decide (d_id x = d_id e ∧ m ≠ "")) as [[X _]|X].
        -- pose proof (Z.pow_nonneg 2 (d_attempts x)). rewrite filter_cons_False by (cbn; lia). destruct (decide (d_next x < now)); [|exact IH]. rewrite filter_cons_False; [exact IH|]. rewrite X. set_solver.
        -- rewrite filter_cons. destruct (decide (d_next x < now)); [|exact IH]. rewrite filter_cons_True; [by rewrite IH|]. intros Y. apply list_elem_of_singleton in Y. apply X. done.
      * intros x X N. apply list_elem_of_fmap. exists x. split; [|done]. rewrite decide_False; [done|set_solver].
    + cbn. rewrite D. split_and!; [|apply fmap_sublist, sublist_filter|done..|].
      * rewrite !list_filter_filter. apply list_filter_iff. intros x. set_solver.
      * intros x X N. apply list_elem_of_filter. set_solver.
Qed.

Lemma reap_front l st : let st' := foldl (reap w now fails) st l in
  front now st'.1 = filter (λ x, d_id x ∉ own_ids w l) (front now st.1)
  ∧ ids st'.1 `sublist_of` ids st.1 ∧ serial st'.1 = serial st.1 ∧ objects st'.1 ⊆ objects st.1
  ∧ (∀ x, x ∈ deletions st.1 → d_id x ∉ own_ids w l → x ∈ deletions st'.1).
Proof.
  cbn zeta. revert st. induction l as [|e l IH]; intros st.
  - split_and!; [|done..]. symmetry. apply filter_all, Forall_forall. intros x _. apply not_elem_of_nil.
  - cbn [foldl]. destruct (IH (reap w now fails st e)) as (F & I & S & O & K). destruct (reap_one st e) as (F1 & I1 & S1 & O1 & K1).
    assert (∀ x, x ∈ own_ids w (e :: l) ↔ x ∈ own_ids w [e] ∨ x ∈ own_ids w l) as M.
    { intros x. unfold own_ids. rewrite !filter_cons. change (filter _ []) with (@nil Deletion). case_decide; cbn; set_solver. }
    rewrite F, F1, S, S1. split_and!; [|by etrans|done|by etrans|].
    + rewrite list_filter_filter. apply list_filter_iff. intros x. rewrite M. tauto.
    + intros x X N. rewrite M in N. apply K; [apply K1|]; tauto.
Qed.

(** The entry whose objects the backend removes is finished. *)
Lemma reap_gone l d st : d ∈ l → d_backend d = backend w → (∀ k, k ∈ keys d → fails k = None) →
  let st' := foldl (reap w now fails) st l in d_id d ∉ ids st'.1 ∧ ∀ k, k ∈ keys d → k ∉ objects st'.1.
Proof.
  intros D B F. cbn zeta. revert st D. induction l as [|e l IH]; intros st D; [by apply not_elem_of_nil in D|]. cbn [foldl].
  apply elem_of_cons in D as [<-|D]; [|by apply IH]. destruct (reap_front l (reap w now fails st d)) as (_ & I & _ & O & _).
  assert (d_id d ∉ ids (reap w now fails st d).1 ∧ ∀ k, k ∈ keys d → k ∉ objects (reap w now fails st d).1) as [G1 G2].
  { destruct st as [s r]. unfold reap. rewrite decide_False by tauto. pose proof (remove_all_done fails (keys d) s F) as [E G].
    destruct (remove_all fails (keys d) s) as [s' m]. cbn in E, G. subst m. cbn. split; [|done]. unfold ids. cbn.
    intros (x & X & [N _]%list_elem_of_filter)%list_elem_of_fmap. by apply N. }
  split; [intros X; by apply G1; eapply elem_of_sublist|intros k K X; apply (G2 k K); by apply O].
Qed.

(** Reclaiming queues rows behind what has been due before. *)
Lemma queue_front n l : filter (λ e, d_next e < now) (queue_rows now n l) = [].
Proof. revert n. induction l as [|r l IH]; intros n; [done|]. cbn [queue_rows]. rewrite filter_cons_False by (cbn; lia). apply IH. Qed.
Lemma queue_ids n l : NoDup (d_id <$> queue_rows now n l) ∧ ∀ i, i ∈ d_id <$> queue_rows now n l → n ≤ i < n + Z.of_nat (length l).
Proof.
  revert n. induction l as [|r l IH]; intros n; [split; [constructor|intros i H; by apply not_elem_of_nil in H]|].
  destruct (IH (n + 1)) as [N B]. cbn. split.
  - apply NoDup_cons. split; [|done]. intros X%B. lia.
  - intros i [->|X%B]%elem_of_cons; lia.
Qed.

Lemma delete_rows_queue P s : numbered s → let s' := (delete_rows now P s).1 in
  numbered s' ∧ front now s' = front now s ∧ (∀ x, x ∈ deletions s → x ∈ deletions s') ∧ objects s' = objects s
  ∧ serial s ≤ serial s' ∧ (∀ i, i ∈ ids s' → i ∈ ids s ∨ serial s ≤ i).
Proof.
  intros [N B]. cbn zeta. unfold numbered, front, ids, delete_rows in *. cbn.
  pose proof (queue_ids (serial s) (filter (λ r, P r = true) (rows s))) as [N' B'].
  rewrite fmap_app, filter_app, queue_front, app_nil_r. split_and!; [| |done|intros x X; apply elem_of_app; by left|done|lia|].
  - apply NoDup_app. split_and!; [done| |done]. intros i I%B J%B'. lia.
  - intros i [I%B|I%B']%elem_of_app; lia.
  - intros i [I|I%B']%elem_of_app; [by left|right; lia].
Qed.

Lemma reclaim_queue l st : numbered st.1 → let st' := foldl (reclaim w now) st l in
  numbered st'.1 ∧ front now st'.1 = front now st.1 ∧ (∀ x, x ∈ deletions st.1 → x ∈ deletions st'.1) ∧ objects st'.1 = objects st.1
  ∧ serial st.1 ≤ serial st'.1 ∧ (∀ i, i ∈ ids st'.1 → i ∈ ids st.1 ∨ serial st.1 ≤ i).
Proof.
  cbn zeta. revert st. induction l as [|f l IH]; intros st N; [split_and!; [done|done|done|done|done|auto]|]. cbn [foldl].
  assert (numbered (reclaim w now st f).1 ∧ front now (reclaim w now st f).1 = front now st.1
    ∧ (∀ x, x ∈ deletions st.1 → x ∈ deletions (reclaim w now st f).1) ∧ objects (reclaim w now st f).1 = objects st.1
    ∧ serial st.1 ≤ serial (reclaim w now st f).1 ∧ (∀ i, i ∈ ids (reclaim w now st f).1 → i ∈ ids st.1 ∨ serial st.1 ≤ i)) as (N1 & F1 & K1 & O1 & S1 & I1).
  { destruct st as [s r]. unfold reclaim. cbn [fst] in *. case_decide; [split_and!; [done|done|done|done|done|auto]|]. by apply delete_rows_queue. }
  destruct (IH _ N1) as (N2 & F2 & K2 & O2 & S2 & I2). rewrite F2, O2. split_and!; [done|done|auto|done|etrans; [exact S1|exact S2]|].
  intros i [I|I]%I2; [by apply I1|right; etrans; [exact S1|exact I]].
Qed.

(** ** A pass *)

(** What the loop over the queue is given. *)
Definition taken (s : Library) : list Deletion := due_deletions now (Z.to_nat (batch w)) (drain now fails s).1.1.

Lemma taken_queue s : taken s = due_deletions now (Z.to_nat (batch w)) s.
Proof.
  unfold taken, drain. pose proof (drain_keeps now fails (due_entries now s) (s, 0%nat, 0%nat)) as (D & _).
  unfold due_deletions. by rewrite D.
Qed.

Lemma run_queue s : numbered s → let s' := (run w now fails s).1 in
  numbered s' ∧ front now s' = filter (λ x, d_id x ∉ own_ids w (taken s)) (front now s)
  ∧ (∀ x, x ∈ deletions s → d_id x ∉ own_ids w (taken s) → x ∈ deletions s')
  ∧ objects s' ⊆ objects s ∧ (∀ i, i ∈ ids s' → i ∈ ids s ∨ serial s ≤ i) ∧ serial s ≤ serial s'
  ∧ ∀ d, d ∈ taken s → d_backend d = backend w → d_id d < serial s → (∀ k, k ∈ keys d → fails k = None) → gone d s'.
Proof.
  intros [N B]. cbn zeta. unfold taken, run, drain.
  pose proof (drain_keeps now fails (due_entries now s) (s, 0%nat, 0%nat)) as (D1 & S1 & O1).
  destruct (foldl (drain_entry now fails) _ _) as [[s1 n] m]. cbn [fst] in *.
  set (r1 := {| deleted := n; failed := m; reclaimed := 0; skipped := 0 |}). set (l := due_deletions now (Z.to_nat (batch w)) s1).
  destruct (reap_front l (s1, r1)) as (F2 & I2 & S2 & O2 & K2). pose proof (λ d A Z F, reap_gone l d (s1, r1) A Z F) as G2.
  destruct (foldl (reap w now fails) (s1, r1) l) as [s2 r2]. cbn [fst] in *.
  assert (ids s2 `sublist_of` ids s) as I3 by (unfold ids in *; by rewrite D1 in I2).
  assert (numbered s2) as N2.
  { split; [by eapply sublist_NoDup|]. intros i I. rewrite S2, S1. apply B. by eapply elem_of_sublist. }
  destruct (reclaim_queue (unattached_older_than now (unattached_ttl w) (Z.to_nat (batch w)) s2) (s2, r2) N2) as (N3 & F3 & K3 & O3 & S3 & J3).
  destruct (foldl (reclaim w now) _ _) as [s3 r3]. cbn [fst] in *. unfold front in *. rewrite D1 in *.
  change (numbered (prune_refs s3)) with (numbered s3). change (deletions (prune_refs s3)) with (deletions s3).
  change (objects (prune_refs s3)) with (objects s3). change (serial (prune_refs s3)) with (serial s3). change (ids (prune_refs s3)) with (ids s3).
  split_and!; [done|by rewrite F3|auto|rewrite O3; set_solver| |lia|].
  - intros i [I|I]%J3; [left; by eapply elem_of_sublist|right; lia].
  - intros d A Z L F. destruct (G2 d A Z F) as [G3 G4]. split_and!.
    + change (ids (prune_refs s3)) with (ids s3). intros [X|X]%J3; [by apply G3|lia].
    + change (serial (prune_refs s3)) with (serial s3). lia.
    + change (objects (prune_refs s3)) with (objects s3). by rewrite O3.
Qed.
End passes.

Lemma numbered_by_id s d e : numbered s → d ∈ deletions s → e ∈ deletions s → d_id d = d_id e → d = e.
Proof.
  intros [N _] D E X. apply list_elem_of_lookup_1 in D as [i D], E as [j E].
  assert (i = j) as <-; [|congruence]. apply (NoDup_lookup (ids s) i j (d_id d)); [done|..]; unfold ids; rewrite list_lookup_fmap.
  - by rewrite D.
  - by rewrite E, X.
Qed.

Lemma run_keeps_foreign w now fails s e :
  0 ≤ max_backoff w → (∀ k, fails k ≠ Some "") → numbered s → e ∈ deletions s → d_backend e ≠ backend w → e ∈ deletions (run w now fails s).1.
Proof.
  intros B M N E D. destruct (run_queue w now fails B M s N) as (_ & _ & K & _). apply K; [done|].
  intros (x & X & [Y Z]%list_elem_of_filter)%list_elem_of_fmap. rewrite taken_queue in Z. apply taken_due in Z.
  rewrite (numbered_by_id s e x N E Z X) in D. done.
Qed.

(** ** Any number of passes, and what happens between them *)

(** What is in front of an entry: the others that were due no later. *)
Definition before (d : Deletion) (s : Library) : list Deletion := filter (λ e, d_next e ≤ d_next d ∧ d_id e ≠ d_id d) (deletions s).
Definition ours (w : Reaper) (d : Deletion) (s : Library) : list Deletion := filter (λ e, d_backend e = backend w) (before d s).
Definition theirs (w : Reaper) (d : Deletion) (s : Library) : list Deletion := filter (λ e, d_backend e ≠ backend w) (before d s).

(** Whatever else happens to the library, as far as an entry is concerned:
    nothing is queued in front of it, nobody puts it off or forgets it without
    having removed its objects, and nobody stores an object under its keys. *)
Record calm (d : Deletion) (s s' : Library) : Prop := {
  calm_numbered : numbered s';
  calm_before e : e ∈ deletions s' → d_next e ≤ d_next d → e ∈ deletions s;
  calm_kept : d ∈ deletions s → d ∈ deletions s' ∨ gone d s';
  calm_gone : gone d s → gone d s';
}.

(** [n] passes of a reaper after an entry has come due, at any instants, with
    anything else between them. The backend may fail to remove any object but
    those of the entry. *)
Inductive served (w : Reaper) (d : Deletion) : nat → Library → Library → Prop :=
  | Srv_end s : served w d 0 s s
  | Srv_between n s s' t : calm d s s' → served w d n s' t → served w d n s t
  | Srv_pass n now fails s t : d_next d < now → (∀ k, k ∈ keys d → fails k = None) → (∀ k, fails k ≠ Some "") →
      served w d n (run w now fails s).1 t → served w d (S n) s t.

(** A pass, of whichever reaper, and deleting rows are such. *)
Lemma run_calm w now fails d s : 0 ≤ max_backoff w → (∀ k, fails k ≠ Some "") → (∀ k, k ∈ keys d → fails k = None) → d_next d < now →
  numbered s → calm d s (run w now fails s).1.
Proof.
  intros B M F L N. destruct (run_queue w now fails B M s N) as (N' & Fr & K & O & I & Sr & G). constructor; [done| | |].
  - intros e E X. assert (e ∈ front now (run w now fails s).1) as Y by (apply list_elem_of_filter; split; [lia|done]).
    rewrite Fr in Y. apply list_elem_of_filter in Y as [_ Y]. by apply list_elem_of_filter in Y as [_ Y].
  - intros D. destruct (decide (d_id d ∈ own_ids w (taken w now fails s))) as [X|X]; [right|left; by apply K].
    apply list_elem_of_fmap in X as (x & X & [Y Z]%list_elem_of_filter). assert (x = d) as ->.
    { symmetry. apply (numbered_by_id s); [done..| |done]. rewrite taken_queue in Z. by eapply taken_due. }
    apply G; [done..| |done]. apply N. by apply list_elem_of_fmap_2.
  - intros (G1 & G2 & G3). split_and!; [intros [X|X]%I; [done|lia]|lia|]. intros k Kk X. apply (G3 k Kk). by apply O.
Qed.

Lemma delete_calm now P d s : d_next d < now → numbered s → calm d s (delete_rows now P s).1.
Proof.
  intros L N. destruct (delete_rows_queue now P s N) as (N' & Fr & K & O & Sr & I). constructor; [done| |auto|].
  - intros e E X. assert (e ∈ front now (delete_rows now P s).1) as Y by (apply list_elem_of_filter; split; [lia|done]).
    rewrite Fr in Y. by apply list_elem_of_filter in Y as [_ Y].
  - intros (G1 & G2 & G3). split_and!; [intros [X|X]%I; [done|lia]|lia|by rewrite O].
Qed.

(** A pass that does not come to an entry is filled by those in front of it. *)
Lemma filled_by_those_before now limit d s : numbered s → d ∈ deletions s → d_next d < now → d ∉ due_deletions now limit s →
  length (due_deletions now limit s) = limit ∧ ∀ e, e ∈ due_deletions now limit s → e ∈ before d s.
Proof.
  intros N D L T. set (sorted := merge_sort sooner (filter (λ d, d_next d ≤ now) (deletions s))).
  assert (d ∈ sorted) as In. { unfold sorted. rewrite merge_sort_Permutation. apply list_elem_of_filter. split; [lia|done]. }
  assert (due_deletions now limit s = take limit sorted) as E by done. rewrite E in T |- *.
  rewrite <-(take_drop limit sorted) in In. apply elem_of_app in In as [In|In]; [done|]. split.
  - rewrite length_take. enough (limit < length sorted)%nat by lia. apply list_elem_of_lookup in In as [i In]. rewrite lookup_drop in In.
    apply lookup_lt_Some in In. lia.
  - intros e X. assert (StronglySorted sooner sorted) as St.
    { apply StronglySorted_merge_sort; [intros x y z; unfold sooner; lia|intros x y; unfold sooner; lia]. }
    rewrite <-(take_drop limit sorted) in St. pose proof (StronglySorted_app_1_elem_of _ _ _ _ _ St X In) as Le.
    apply list_elem_of_filter. split_and!; [exact Le| |].
    + intros Q. apply T. rewrite <-(numbered_by_id s e d); [done..| |done|done]. rewrite <-E in X. by eapply taken_due.
    + rewrite <-E in X. by eapply taken_due.
Qed.

Lemma fewer_before d s s' (Q : Deletion → Prop) `{!∀ e, Decision (Q e)} : numbered s → calm d s s' →
  (length (filter Q (before d s')) ≤ length (filter Q (before d s)))%nat.
Proof.
  intros N C. apply submseteq_length, NoDup_submseteq.
  - do 2 apply NoDup_filter. eapply NoDup_fmap_1. apply (calm_numbered _ _ _ C).
  - intros e [Qe [[Le Ne] E]%list_elem_of_filter]%list_elem_of_filter. apply list_elem_of_filter. split; [done|]. apply list_elem_of_filter. split; [done|].
    by apply (calm_before _ _ _ C).
Qed.

Lemma pass_progress w now fails d s : 0 ≤ max_backoff w → (∀ k, fails k ≠ Some "") → (∀ k, k ∈ keys d → fails k = None) →
  d_next d < now → numbered s → d ∈ deletions s → d_backend d = backend w →
  let s' := (run w now fails s).1 in
  gone d s' ∨ (length (ours w d s') + Z.to_nat (batch w) ≤ length (ours w d s) + length (theirs w d s))%nat.
Proof.
  intros B M F L N D W. cbn zeta. destruct (run_queue w now fails B M s N) as (N' & Fr & K & O & I & Sr & G). rewrite taken_queue in *.
  set (l := due_deletions now (Z.to_nat (batch w)) s) in *. destruct (decide (d_id d ∈ own_ids w l)) as [X|X]; [left|right].
  { apply list_elem_of_fmap in X as (x & X & [Y Z]%list_elem_of_filter). rewrite <-(numbered_by_id s d x) in Z; [|done|done|by eapply taken_due|done].
    apply G; [done..| |done]. apply N. by apply list_elem_of_fmap_2. }
  assert (d ∉ l) as X' by (intros Z; apply X, list_elem_of_fmap_2, list_elem_of_filter; done). clear X. rename X' into X.
  destruct (filled_by_those_before now (Z.to_nat (batch w)) d s N D L X) as [Len Bef]. fold l in Len, Bef.
  assert (NoDup l) as Nl.
  { unfold l, due_deletions. eapply sublist_NoDup; [|apply sublist_take]. rewrite merge_sort_Permutation. apply NoDup_filter. eapply NoDup_fmap_1, N. }
  assert (length (filter (λ e, d_backend e ≠ backend w) l) ≤ length (theirs w d s))%nat as T1.
  { apply submseteq_length, NoDup_submseteq; [by apply NoDup_filter|]. intros e [E1 E2]%list_elem_of_filter. apply list_elem_of_filter. auto. }
  assert (length (filter (λ e, d_backend e = backend w) l) ≤ length (filter (λ e, d_id e ∈ own_ids w l) (ours w d s)))%nat as T2.
  { apply submseteq_length, NoDup_submseteq; [by apply NoDup_filter|]. intros e [E1 E2]%list_elem_of_filter. apply list_elem_of_filter. split.
    - apply list_elem_of_fmap_2, list_elem_of_filter. done.
    - apply list_elem_of_filter. auto. }
  assert (length (ours w d (run w now fails s).1) ≤ length (filter (λ e, d_id e ∉ own_ids w l) (ours w d s)))%nat as T3.
  { apply submseteq_length, NoDup_submseteq; [do 2 apply NoDup_filter; eapply NoDup_fmap_1, N'|]. intros e [E1 [[E2 E3] E4]%list_elem_of_filter]%list_elem_of_filter.
    assert (e ∈ front now (run w now fails s).1) as Y by (apply list_elem_of_filter; split; [lia|done]).
    rewrite Fr in Y. apply list_elem_of_filter in Y as [Y1 Y2]. apply list_elem_of_filter in Y2 as [_ Y2].
    apply list_elem_of_filter. split; [done|]. apply list_elem_of_filter. split; [done|]. by apply list_elem_of_filter. }
  pose proof (Permutation_length (filter_app_complement (λ e, d_backend e = backend w) l)) as P1.
  pose proof (Permutation_length (filter_app_complement (λ e, d_id e ∈ own_ids w l) (ours w d s))) as P2.
  rewrite length_app in P1, P2. lia.
Qed.

Lemma served_gone w d n s t : 0 ≤ max_backoff w → served w d n s t → numbered s → gone d s → gone d t.
Proof.
  intros B S. induction S as [s|n s s' t C S IH|n now fails s t L F M S IH]; intros N G; [done|..].
  - apply IH; apply C; done.
  - pose proof (run_calm w now fails d s B M F L N) as C. apply IH; apply C; done.
Qed.

(** C26. what was deleted leaves the store. An entry of the queue that is due
    and belongs to the backend of a reaper leaves the queue, and every object
    it names, thumbnails included, leaves the store, once the reaper has made
    [n] passes: as many as it takes to see to the entries of the backend that
    were due before it, in batches less the entries of other backends among
    those, which have to be fewer than a batch. The passes come at any instants,
    find whatever else is in the queues, fail to remove any other object, and
    have other reapers, deletions, uploads and attachments between them. No
    pass takes an entry of another backend out of the queue. *)
Theorem deletions_are_carried_out w : 0 ≤ max_backoff w →
  (∀ d n s t, numbered s → d ∈ deletions s → d_backend d = backend w → served w d n s t →
     (length (ours w d s) < n * (Z.to_nat (batch w) - length (theirs w d s)))%nat →
     d_id d ∉ ids t ∧ ∀ k, k ∈ keys d → k ∉ objects t)
  ∧ ∀ now fails e s, (∀ k, fails k ≠ Some "") → numbered s → e ∈ deletions s → d_backend e ≠ backend w → e ∈ deletions (run w now fails s).1.
Proof.
  intros B. split; [|intros; by apply run_keeps_foreign]. intros d n s t N D W S. enough (
    (length (ours w d s) < n * (Z.to_nat (batch w) - length (theirs w d s)))%nat → gone d t) as H by (intros L; destruct (H L) as (? & _ & ?); done).
  revert N D. induction S as [s|n s s' t C S IH|n now fails s t L F M S IH]; intros N D Q.
  - lia.
  - destruct (calm_kept _ _ _ C D) as [D'|G]; [|by apply (served_gone w d n s'); [| |apply C|]].
    apply IH; [apply C|done|]. pose proof (fewer_before d s s' (λ e, d_backend e = backend w) N C) as Lo.
    pose proof (fewer_before d s s' (λ e, d_backend e ≠ backend w) N C) as Lt. fold (ours w d s) (ours w d s') in Lo.
    fold (theirs w d s) (theirs w d s') in Lt. nia.
  - pose proof (run_calm w now fails d s B M F L N) as C.
    destruct (pass_progress w now fails d s B M F L N D W) as [G|P]; [by apply (served_gone w d n (run w now fails s).1); [| |apply C|]|].
    destruct (calm_kept _ _ _ C D) as [D'|G]; [|by apply (served_gone w d n (run w now fails s).1); [| |apply C|]].
    apply IH; [apply C|done|]. pose proof (fewer_before d _ _ (λ e, d_backend e ≠ backend w) N C) as Lt.
    fold (theirs w d s) (theirs w d (run w now fails s).1) in Lt. nia.
Qed.

(** * Concrete inputs *)

Definition sample_new : NewFile :=
  {| n_path := "library/f1/a.png"; n_backend := "local"; n_collection := ""; n_record := ""; n_field := ""; n_origin := FromLibrary; n_uploaded_by := "u1" |}.
Definition sample_deletion (id : Z) (backend path : string) (next : Z) : Deletion :=
  {| d_id := id; d_file := "f"; d_backend := backend; d_path := path; d_variants := JObject [("sm", JString (path +:+ "/sm"))]; d_attempts := 0; d_next := next |}.
Definition sample_queue (l : list Deletion) (o : list string) : Library :=
  {| rows := []; refs := []; deletions := l; serial := 9; outbox := []; objects := list_to_set o |}.

Lemma living_files_keep_their_objects_witness : ∃ x y r,
  rtc (step (new_reaper "local")) start x ∧ step (new_reaper "local") x y ∧ r ∈ rows (lib y)
  ∧ "library/f1/a.png" ∈ objects (lib x) ∧ "library/f1/a.png" ∈ objects (lib y).
Proof.
  set (w := new_reaper "local"). set (x1 := on (λ s, with_objects ({["library/f1/a.png"]} ∪ objects s) s) start).
  set (x2 := on (λ _, with_rows [row_of 5 "f1" sample_new] (lib x1)) x1). set (y := on (finish_deletion 3) x2).
  assert (step w start x1) as S1 by apply S_store.
  assert (step w x1 x2) as S2.
  { apply (S_insert w 5 "f1" sample_new); [reflexivity|]. split_and!; cbn; intros z Hz; by apply not_elem_of_nil in Hz. }
  assert (rtc (step w) start x2) as R by (eapply rtc_l; [exact S1|]; eapply rtc_l; [exact S2|]; apply rtc_refl).
  assert (step w x2 y) as S3 by apply S_finish.
  assert ("library/f1/a.png" ∈ objects (lib x2)) as O by (cbn; set_solver).
  assert (row_of 5 "f1" sample_new ∈ rows (lib y)) as M by (cbn; by left).
  exists x2, y, (row_of 5 "f1" sample_new). split_and!; [exact R|exact S3|exact M|exact O|].
  apply (proj1 (living_files_keep_their_objects w x2 R) y (row_of 5 "f1" sample_new) "library/f1/a.png" S3 M); [by left|exact O].
Defined.

(** Two passes of a reaper that takes two entries at a time, over a queue that
    holds an entry of another backend and one whose object cannot be removed,
    an object in the outbox and an abandoned upload; a file is deleted between
    them. *)
Lemma deletions_are_carried_out_witness :
  let w := with_batch 2 (new_reaper "local") in
  let d := sample_deletion 3 "local" "c" 4 in
  let s := {| rows := [row_of (-90000) "f1" sample_new]; refs := [];
              deletions := [sample_deletion 1 "local" "a" 0; sample_deletion 2 "s3" "b" 3; d]; serial := 4;
              outbox := [{| e_id := "o"; e_key := "z"; e_attempts := 0; e_run_at := 0 |}]; objects := list_to_set ["a"; "b"; "c"; "c/sm"; "z"] |} in
  let fails := λ k, if decide (k = "a") then Some "denied" else None in
  let t := (run w 9 fails (delete_rows 8 (λ _, true) (run w 7 fails s).1).1).1 in
  d_id d ∉ ids t ∧ "c/sm" ∉ objects t ∧ sample_deletion 2 "s3" "b" 3 ∈ deletions (run w 7 fails s).1.
Proof.
  intros w d s fails t. assert (numbered s) as N.
  { split; [by apply (bool_decide_unpack _); vm_compute|]. intros i I. cbn in I. set_unfold. cbn. lia. }
  assert (∀ k, fails k ≠ Some "") as M by (intros k; unfold fails; by case_decide).
  assert (∀ k, k ∈ keys d → fails k = None) as F by (intros k K; unfold fails; rewrite decide_False; [done|]; intros ->; revert K; apply (bool_decide_unpack _); by vm_compute).
  assert (numbered (run w 7 fails s).1) as N1 by (by apply (run_calm w 7 fails d)).
  destruct (deletions_are_carried_out w) as [H K]; [done|]. destruct (H d 2%nat s t) as [G1 G2].
  - exact N.
  - do 2 right. by left.
  - reflexivity.
  - apply (Srv_pass w d 1 7 fails); [done..|]. eapply Srv_between; [by apply (delete_calm 8 (λ _, true))|].
    apply (Srv_pass w d 0 9 fails); [done..|apply Srv_end].
  - apply (bool_decide_unpack _). by vm_compute.
  - split_and!; [exact G1|apply G2; right; by left|]. apply K; [exact M|exact N|right; by left|done].
Defined.

(** A pass looks at the entries that have waited longest, skips those another
    backend holds and leaves them where they are: once they fill a batch they
    stay in front, and nothing else is ever removed. *)
Example foreign_entries_starve_the_queue : ∀ now fails, 1 ≤ now →
  let s := sample_queue [sample_deletion 1 "s3" "a" 0; sample_deletion 2 "local" "b" 1] ["b"] in
  (run (with_batch 1 (new_reaper "local")) now fails s).1 = s.
Proof.
  intros now fails H s. unfold run. change (drain now fails s) with (s, 0%nat, 0%nat). cbv iota. unfold due_deletions, s, sample_queue. cbn [deletions].
  rewrite !filter_cons_True by (cbn; lia). rewrite filter_nil. reflexivity.
Qed.
