(* ===== verification/FileRules.v ===== *)
(** Who may list and delete files: the rules of the [files] setting,
    [crates/files/src/rules.rs], and the policies they become,
    [crates/files/src/policy.rs]. *)
From S2P Require Import Prelude CoreError Json Filter Types Sql Ddl Compile CompileSpec Policy Net Rls Samples.

Local Set Warnings "-register-all".

(** * The rules *)

(** [columns] and [context]. *)
Definition FILE_RULE_COLUMNS : list (string * string) :=
  [("id", "text"); ("filename", "text"); ("extension", "text"); ("mime_type", "text"); ("size", "bigint"); ("storage_path", "text");
   ("storage_backend", "text"); ("collection_name", "text"); ("record_id", "text"); ("field_name", "text"); ("variants", "jsonb");
   ("status", "text"); ("original_name", "text"); ("width", "integer"); ("height", "integer"); ("checksum", "text"); ("origin", "text");
   ("uploaded_by", "text"); ("attached_at", "timestamptz"); ("created_at", "timestamptz"); ("updated_at", "timestamptz")].
Definition file_context : FilterContext :=
  {| table := "_files"; ctx_collection_id := ""; columns := list_to_map FILE_RULE_COLUMNS; relations := [] |}.

(** [enum FileRule] and [FileRule::parse]. *)
Inductive FileRule := SuperusersOnly | Public | OnlyIf (e : Expr).

Definition file_rule_parse (value : option Value) : result FileRule :=
  match value with
  | None | Some JNull => Ok SuperusersOnly
  | Some (JString text) =>
      if decide (text = "") then Ok Public
      else if decide (trim text = "") then Err Invalid
      else e ← parse text; Ok (OnlyIf e)
  | Some _ => Err Invalid
  end.

(** [struct FileRules] and [from_setting]: a rule that cannot be read denies. *)
Record FileRules := { fr_list : FileRule; fr_delete : FileRule }.
Definition default_file_rules : FileRules := {| fr_list := SuperusersOnly; fr_delete := SuperusersOnly |}.
Definition read_file_rule (rules : Value) (key : string) : FileRule :=
  match file_rule_parse (get rules key) with Ok rule => rule | Err _ => SuperusersOnly end.
Definition file_rules_from_setting (setting : Value) : FileRules :=
  let rules := default JNull (get setting "rules") in
  {| fr_list := read_file_rule rules "listRule"; fr_delete := read_file_rule rules "deleteRule" |}.

(** [list_predicate] and [delete_predicate]. *)
Definition file_predicate (rule : FileRule) (auth : AuthContext) : result (option CompiledFilter) :=
  match rule with
  | SuperusersOnly => Err Forbidden
  | Public => Ok None
  | OnlyIf e => Some <$> compile e file_context auth
  end.
Definition list_predicate (r : FileRules) (auth : AuthContext) : result (option CompiledFilter) := file_predicate (fr_list r) auth.
Definition delete_predicate (r : FileRules) (auth : AuthContext) : result (option CompiledFilter) := file_predicate (fr_delete r) auth.

(** [shift_placeholders]: [run] holds the digits since the last dollar sign. *)
Definition shifted (offset : Z) (run : string) : string :=
  match parse_uint (2 ^ 64) run with
  | Some position => "$" +:+ pretty (position + offset)%Z
  | None => "$" +:+ run
  end.
Fixpoint shift_from (offset : Z) (run : option string) (s : string) : string :=
  match s with
  | EmptyString => match run with Some run => shifted offset run | None => "" end
  | String c r =>
      match run with
      | Some digits =>
          if is_ascii_digit c then shift_from offset (Some (digits +:+ String c "")) r
          else shifted offset digits +:+ (if decide (c = "$"%char) then shift_from offset (Some "") r else String c (shift_from offset None r))
      | None => if decide (c = "$"%char) then shift_from offset (Some "") r else String c (shift_from offset None r)
      end
  end.
Definition shift_placeholders (sql : string) (offset : Z) : string :=
  if decide (offset = 0%Z) then sql else shift_from offset None sql.

(** * Their policies *)

Definition FILE_POLICIES : list string :=
  ["lazypock_files_list"; "lazypock_files_view"; "lazypock_files_delete"; "lazypock_files_delete_select";
   "lazypock_files_attach"; "lazypock_files_attach_select"].

(** [predicate_of]. *)
Definition file_predicate_of (rule : FileRule) : result (option string) :=
  match rule with
  | SuperusersOnly => Ok None
  | Public => Ok (Some "true")
  | OnlyIf e => Some <$> predicate e file_context
  end.

(** What a policy asks of a row: nothing, what a rule says, or that the caller
    uploaded it. *)
Inductive Asks := Nothing | RuleSays (predicate : string) | Uploader.
Definition UPLOADED_BY_CALLER : string := "uploaded_by = auth.uid()".
Record FilePolicy := { fp_name : string; fp_command : string; fp_guard : option string; fp_asks : Asks }.

Definition asked (a : Asks) : string :=
  match a with Nothing => "true" | RuleSays predicate => predicate | Uploader => UPLOADED_BY_CALLER end.
Definition asked_too (a : Asks) : string :=
  match a with
  | Nothing => ""
  | RuleSays predicate => " and (" +:+ predicate +:+ ")"
  | Uploader => " and " +:+ UPLOADED_BY_CALLER
  end.
Definition action_is (action : string) : string := "current_setting('request.action', true) = '" +:+ action +:+ "'".
Definition file_policy_sql (p : FilePolicy) : string :=
  "create policy " +:+ fp_name p +:+ " on _files for " +:+ fp_command p +:+ " to " +:+ ROLES
  +:+ match fp_guard p with
      | Some action => " using (" +:+ action_is action +:+ asked_too (fp_asks p) +:+ ")"
      | None =>
          " using (" +:+ asked (fp_asks p) +:+ ")"
          +:+ (if decide (fp_command p = "update") then " with check (" +:+ asked (fp_asks p) +:+ ")" else "")
      end.

(** The policies [statements] creates, in its order. *)
Definition file_policy (name command : string) (guard : option string) (asks : Asks) : FilePolicy :=
  {| fp_name := name; fp_command := command; fp_guard := guard; fp_asks := asks |}.
Definition file_policies (r : FileRules) : result (list FilePolicy) :=
  list_predicate ← file_predicate_of (fr_list r);
  delete_predicate ← file_predicate_of (fr_delete r);
  Ok ([file_policy "lazypock_files_view" "select" (Some "view") Nothing]
      ++ match list_predicate with
         | Some predicate => [file_policy "lazypock_files_list" "select" (Some "list") (RuleSays predicate)]
         | None => []
         end
      ++ match delete_predicate with
         | Some predicate =>
             [file_policy "lazypock_files_delete" "delete" None (RuleSays predicate);
              file_policy "lazypock_files_delete_select" "select" (Some "delete") (RuleSays predicate)]
         | None => []
         end
      ++ [file_policy "lazypock_files_attach" "update" None Uploader;
          file_policy "lazypock_files_attach_select" "select" (Some "update") Uploader]).

(** [statements]. *)
Definition file_statements (r : FileRules) : result (list string) :=
  ps ← file_policies r;
  Ok (["alter table _files enable row level security"; "alter table _file_refs enable row level security"]
      ++ ((λ name, "drop policy if exists " +:+ name +:+ " on _files") <$> FILE_POLICIES)
      ++ (file_policy_sql <$> ps)).

(** * What the policies allow *)

(** The policies as PostgreSQL applies them, [Rls.permits]. *)
Definition policy_def (p : FilePolicy) : PolicyDef :=
  {| pol_name := fp_name p; pol_action := fp_command p; pol_predicate := asked (fp_asks p); pol_guard := fp_guard p |}.

(** What a rule says of a row. *)
Definition file_rule_allows (rule : FileRule) (row : Eval) : bool :=
  match file_predicate_of rule with Ok (Some predicate) => row predicate | _ => false end.

Lemma file_policies_permit r ps s row : file_policies r = Ok ps → row "true" = true →
  let guard a := guard_holds s (Some a) in
  permits (policy_def <$> ps) s "select" row
    = guard "view" || (guard "list" && file_rule_allows (fr_list r) row) || (guard "delete" && file_rule_allows (fr_delete r) row)
      || (guard "update" && row UPLOADED_BY_CALLER)
  ∧ permits (policy_def <$> ps) s "insert" row = false
  ∧ permits (policy_def <$> ps) s "update" row = row UPLOADED_BY_CALLER
  ∧ permits (policy_def <$> ps) s "delete" row = file_rule_allows (fr_delete r) row.
Proof.
  intros P T guard. unfold file_policies in P. unfold file_rule_allows.
  apply bind_Ok in P as (l & -> & P). apply bind_Ok in P as (d & -> & P). apply Ok_inj in P as <-.
  unfold permits, policy_def, guard.
  destruct l as [l|], d as [d|]; cbn [fmap list_fmap app existsb file_policy fp_name fp_command fp_guard fp_asks asked pol_action pol_guard pol_predicate];
    compute_names; rewrite ?T; cbn [andb orb negb];
    destruct (guard_holds s (Some "view")), (guard_holds s (Some "list")), (guard_holds s (Some "delete")),
      (guard_holds s (Some "update")), (row UPLOADED_BY_CALLER); cbn [andb orb];
    rewrite ?orb_false_r, ?orb_true_r, ?andb_true_r; split_and!; done.
Qed.

(** * The statements' text *)

Definition file_rule_name (x : string) : Prop := has_column file_context x = true.
Definition file_rule_literal (r : FileRules) (v : string) : Prop :=
  v ∈ ["%"; "\"; "email"; "request.action"; "list"; "view"; "update"; "delete"]
  ∨ ∃ e, (fr_list r = OnlyIf e ∨ fr_delete r = OnlyIf e) ∧ rule_literal e v.

Lemma file_predicate_of_part (P : string → Prop) (Q : string → Prop) rule pred p :
  (∀ x, has_column file_context x = true → P x) →
  (∀ v, v ∈ ["%"; "\"; "email"] ∨ (∃ e, rule = OnlyIf e ∧ rule_literal e v) → Q v) →
  file_predicate_of rule = Ok (Some pred) → part P Q p pred p.
Proof.
  intros HP HQ F. destruct rule as [| |e]; cbn in F; [done|injection F as <-; by apply part_bare|].
  pose proof (predicate_spec e file_context) as S. destruct (predicate e file_context) as [s|]; [|done]. injection F as <-.
  eapply part_mono; [exact HP| |apply S]. intros v [V|V]; apply HQ; [by left|right; by exists e].
Qed.

Lemma action_is_part P Q a p : Q "request.action" → Q a → a ∈ ["list"; "view"; "update"; "delete"] → part P Q p (action_is a) p.
Proof.
  intros R A I. rewrite !elem_of_cons, elem_of_nil in I. destruct_or? I; try done; subst a;
    [change (action_is "list") with "current_setting('request.action', true) = 'list'"
    |change (action_is "view") with "current_setting('request.action', true) = 'view'"
    |change (action_is "update") with "current_setting('request.action', true) = 'update'"
    |change (action_is "delete") with "current_setting('request.action', true) = 'delete'"]; part_solve.
Qed.

Lemma file_policies_parts r ps : file_policies r = Ok ps →
  Forall (λ q, fp_name q ∈ FILE_POLICIES
    ∧ (fp_command q ∈ ["select"; "update"; "delete"])
    ∧ (∀ a, fp_guard q = Some a → a ∈ ["list"; "view"; "update"; "delete"])
    ∧ ∀ pred, fp_asks q = RuleSays pred → ∀ p, part file_rule_name (file_rule_literal r) p pred p) ps.
Proof.
  unfold file_policies. intros P. apply bind_Ok in P as (l & L & P). apply bind_Ok in P as (d & D & P). apply Ok_inj in P as <-.
  assert (∀ rule pred, (rule = fr_list r ∨ rule = fr_delete r) → file_predicate_of rule = Ok (Some pred) →
    ∀ p, part file_rule_name (file_rule_literal r) p pred p) as S.
  { intros rule pred C F p. eapply file_predicate_of_part; [done| |exact F]. intros v [V|(e & E & V)].
    - left. rewrite !elem_of_cons in *. tauto.
    - right. exists e. split; [|done]. by destruct C as [<-|<-]; [left|right]. }
  apply Forall_forall. intros q I. rewrite !elem_of_app in I.
  assert (∀ g : string, g ∈ ["list"; "view"; "update"; "delete"] → ∀ a, Some g = Some a → a ∈ ["list"; "view"; "update"; "delete"]) as G
    by (by intros g Hg a [= <-]).
  destruct l as [l|], d as [d|]; rewrite ?elem_of_cons, ?elem_of_nil in I; destruct_or? I; try done; subst q; cbn; split_and!;
    try done; try (by compute_done); try (apply G; by compute_done); intros pred [= <-];
    first [exact (S _ _ (or_introl eq_refl) L)|exact (S _ _ (or_intror eq_refl) D)].
Qed.

Lemma file_policy_part P Q q p :
  (∀ a, fp_guard q = Some a → a ∈ ["list"; "view"; "update"; "delete"] ∧ Q a) → Q "request.action" →
  (∀ pred, fp_asks q = RuleSays pred → ∀ p, part P Q p pred p) →
  fp_name q ∈ FILE_POLICIES → fp_command q ∈ ["select"; "update"; "delete"] → part P Q p (file_policy_sql q) p.
Proof.
  intros G R S N C.
  assert (∀ p, part P Q p (asked (fp_asks q)) p) as A.
  { intros p'. destruct (fp_asks q) as [|pred|] eqn:E; cbn; [by apply part_bare|by apply S|by apply part_bare]. }
  assert (∀ x, (∀ p, part P Q p x p) → ∀ p, part P Q p (x +:+ asked_too (fp_asks q)) p) as T.
  { intros x X p'. destruct (fp_asks q) as [|pred|] eqn:E; cbn [asked_too]; [by rewrite str_app_nil_r| |part_solve].
    specialize (S pred eq_refl). revert S X. clear. intros S X. part_solve. }
  assert (bare (fp_name q) = true) as BN.
  { unfold FILE_POLICIES in N. rewrite !elem_of_cons, elem_of_nil in N. destruct_or? N; try done; by rewrite N. }
  assert (bare (fp_command q) = true) as BC by (rewrite !elem_of_cons, elem_of_nil in C; destruct_or? C; try done; by rewrite C).
  unfold file_policy_sql. revert A T BN BC. generalize (asked (fp_asks q)), (asked_too (fp_asks q)). intros a t A T BN BC.
  apply part_bare_app; [done|]. apply part_bare_app; [done|]. apply part_bare_app; [done|]. apply part_bare_app; [done|].
  apply part_bare_app; [done|]. apply part_bare_app; [done|]. destruct (fp_guard q) as [g|].
  - destruct (G g eq_refl) as [Ig Qg]. pose proof (T _ (λ p, action_is_part P Q g p R Qg Ig)) as I. rewrite (str_app_assoc (action_is g)).
    revert I. generalize (action_is g +:+ t). clear. intros x I. part_solve.
  - clear -A. case_decide; part_solve.
Qed.

Lemma scanned P Q s : part P Q [] s [] →
  ∃ ts, lexemes s = Some ts ∧ lexeme_params ts = [] ∧ Forall P (lexeme_idents ts) ∧ Forall Q (lexeme_literals ts).
Proof. intros (ts & ?)%part_statement. by exists ts. Qed.

(** The session of a request. *)
Lemma restricted_applied before rc : restricted (apply_context before rc) = match role rc with Owner => false | _ => true end.
Proof. unfold restricted, apply_context. cbn [session_role]. by destruct (role rc). Qed.
Lemma guard_applied before rc a : guard_holds (apply_context before rc) (Some a) = bool_decide (action_name (action rc) = a).
Proof.
  unfold guard_holds, apply_context. cbn [settings]. rewrite lookup_insert_ne, lookup_insert_eq by done.
  apply bool_decide_ext. split; [by intros [= ->]|by intros ->].
Qed.

Lemma file_update_permits r ps s row : file_policies r = Ok ps → permits (policy_def <$> ps) s "update" row = row UPLOADED_BY_CALLER.
Proof.
  unfold file_policies. intros P. apply bind_Ok in P as (l & _ & P). apply bind_Ok in P as (d & _ & P). apply Ok_inj in P as <-.
  unfold permits, policy_def.
  destruct l as [l|], d as [d|]; cbn [fmap list_fmap app existsb file_policy fp_name fp_command fp_guard fp_asks asked pol_action pol_guard pol_predicate];
    compute_names; cbn [andb orb negb]; by rewrite orb_false_r.
Qed.

(** the file rules are in force, and nothing more. The statements drop
    every policy they may create before creating it and scan to fixed text,
    columns of the library and constants of the rules; and under the policies
    they create, whatever settings the connection had before: the owner is
    not restricted; a request lists the rows the list rule allows and deletes
    the rows the delete rule allows, an absent or unreadable rule allowing
    none; any row can be served; only its uploader can attach a row, and it
    stays theirs; nobody adds one; and under the default action nothing is
    read. *)
Theorem file_rules_are_enforced setting ps before rc (row old new : Eval) :
  let r := file_rules_from_setting setting in
  file_policies r = Ok ps → row "true" = true → old "true" = true →
  let s := apply_context before rc in
  let qs := policy_def <$> ps in
  let allows key := match file_rule_parse (get (default JNull (get setting "rules")) key) with
                    | Ok rule => file_rule_allows rule row
                    | Err _ => false
                    end in
  (match role rc with
   | Owner => may_select qs s row = true ∧ may_insert qs s row = true ∧ may_update qs s old new = true ∧ may_delete qs s row = true
   | _ =>
       may_select qs s row = match action rc with
         | AList => allows "listRule"
         | AView => true
         | ADelete => allows "deleteRule"
         | AUpdate => row UPLOADED_BY_CALLER
         | AWrite => false
         end
       ∧ may_insert qs s row = false
       ∧ (action rc = AUpdate → may_update qs s old new = old UPLOADED_BY_CALLER && new UPLOADED_BY_CALLER)
       ∧ (action rc = ADelete → may_delete qs s row = allows "deleteRule")
   end)
  ∧ Forall (λ q, fp_name q ∈ FILE_POLICIES) ps
  ∧ ∃ ss, file_statements r = Ok ss ∧ Forall (λ s, ∃ ts, lexemes s = Some ts ∧ lexeme_params ts = []
      ∧ Forall file_rule_name (lexeme_idents ts) ∧ Forall (file_rule_literal r) (lexeme_literals ts)) ss.
Proof.
  intros r P T TO s qs allows. split_and!.
  - assert (∀ key, file_rule_allows (read_file_rule (default JNull (get setting "rules")) key) row = allows key) as A
      by (intros key; unfold allows, read_file_rule; by destruct (file_rule_parse _)).
    pose proof (A "listRule") as AL. pose proof (A "deleteRule") as AD. clear A.
    change (file_rule_allows (fr_list r) row = allows "listRule") in AL.
    change (file_rule_allows (fr_delete r) row = allows "deleteRule") in AD.
    unfold may_select, may_insert, may_update, may_delete, qs, s.
    rewrite restricted_applied.
    destruct (file_policies_permit r ps (apply_context before rc) row P T) as (S & I & U & D).
    destruct (file_policies_permit r ps (apply_context before rc) old P TO) as (SO & _ & UO & _).
    assert (permits (policy_def <$> ps) (apply_context before rc) "update" new = new UPLOADED_BY_CALLER) as UN
      by (by eapply file_update_permits).
    rewrite S, I, D, SO, UO, UN, AL, AD, !guard_applied. generalize (allows "listRule"), (allows "deleteRule").
    intros al ad. destruct (role rc); [done|..]; destruct (action rc); cbn [action_name]; compute_names;
      cbn [negb andb orb]; rewrite ?orb_false_r, ?andb_true_r; split_and!; intros; try done;
      by destruct al, ad, (row UPLOADED_BY_CALLER), (old UPLOADED_BY_CALLER), (new UPLOADED_BY_CALLER).
  - apply file_policies_parts in P. eapply Forall_impl; [exact P|]. by intros q (N & _).
  - unfold file_statements. rewrite P. cbn [mbind result_bind]. eexists. split; [reflexivity|].
    apply file_policies_parts in P. rewrite !Forall_app. split; [|split].
    + apply Forall_cons; split; [by apply scanned, part_bare|]. apply Forall_singleton. by apply scanned, part_bare.
    + apply Forall_fmap, Forall_forall. intros n N. apply scanned. unfold FILE_POLICIES in N. rewrite !elem_of_cons, elem_of_nil in N.
      destruct_or? N; try done; subst n; by apply part_bare.
    + apply Forall_fmap. eapply Forall_impl; [exact P|]. intros q (N & C & G & S). apply scanned, file_policy_part; [| |exact S|exact N|exact C].
      * intros a Ga. split; [by apply G|]. apply G in Ga. left. rewrite !elem_of_cons, elem_of_nil in *. tauto.
      * left. rewrite !elem_of_cons. tauto.
Qed.

(** * Concrete inputs *)

Definition sample_file_setting : Value :=
  JObject [("rules", JObject [("listRule", JString "uploaded_by = @request.auth.id"); ("deleteRule", JString " ")])].
Definition sample_file_policies : list FilePolicy :=
  match file_policies (file_rules_from_setting sample_file_setting) with Ok ps => ps | Err _ => [] end.

Lemma file_rules_are_enforced_witness :
  let rc := with_action anonymous ADelete in
  let row : Eval := λ p, bool_decide (p = "true") in
  let s := apply_context {| session_role := None; settings := {["request.action" := "list"]} |} rc in
  length sample_file_policies = 4%nat ∧ may_delete (policy_def <$> sample_file_policies) s row = false.
Proof.
  intros rc row s. split; [vm_compute; reflexivity|].
  destruct (file_rules_are_enforced sample_file_setting sample_file_policies
    {| session_role := None; settings := {["request.action" := "list"]} |} rc row row row) as [(_ & _ & _ & D) _];
    [vm_compute; reflexivity..|].
  etransitivity; [exact (D eq_refl)|vm_compute; reflexivity].
Defined.

(** A public rule admits everyone, a rule of spaces only the superusers; the
    placeholders of a predicate move past those before it. *)
Example file_rules_read :
  file_rules_from_setting (JObject [("rules", JObject [("listRule", JString ""); ("deleteRule", JNumber (PosInt 1))])])
    = {| fr_list := Public; fr_delete := SuperusersOnly |}
  ∧ file_rules_from_setting sample_file_setting
    = {| fr_list := OnlyIf (ECompare (SPath ["uploaded_by"]) OEq (SValue (OpAuth ARId))); fr_delete := SuperusersOnly |}.
Proof. split; vm_compute; reflexivity. Qed.
Example placeholders_shift :
  shift_placeholders "a = $1 and b = $12::text and c = $$" 3 = "a = $4 and b = $15::text and c = $$".
Proof. vm_compute. reflexivity. Qed.
