(* ===== verification/History.v ===== *)
(** Statements about a program that look back: [obeys P h p Q] says that
    whatever the answers are, every operation of [p] satisfies [P] on what
    happened before it, and that [p] ends as [Q] says. *)
From S2P Require Import Prelude CoreError Json Effects.

Local Set Warnings "-register-all".

Section history.
Context (P : list event → ∀ X, op X → Prop).

Fixpoint obeys {A} (h : list event) (p : prog A) (Q : list event → A → Prop) : Prop :=
  match p with
  | Ret a => Q h a
  | Do o k => P h _ o ∧ ∀ x, obeys (h ++ [Ev o x]) (k x) Q
  end.

Lemma obeys_mono {A} h (p : prog A) (Q R : list event → A → Prop) :
  obeys h p Q → (∀ h' a, Q h' a → R h' a) → obeys h p R.
Proof.
  intros O I. revert h O. induction p as [a|X o k IH]; intros h O; cbn in *; [by apply I|]. destruct O as [Ho O].
  split; [done|]. intros x. by apply IH.
Qed.

(** What has happened stays, and the rest is a run of the program. *)
Lemma obeys_frame {A} h (p : prog A) Q : obeys h p Q → obeys h p (λ h' a, Q h' a ∧ ∃ t, h' = h ++ t ∧ runs p t a).
Proof.
  revert h. induction p as [a|X o k IH]; intros h O; cbn in *.
  - split; [done|]. exists []. by rewrite app_nil_r.
  - destruct O as [Ho O]. split; [done|]. intros x. eapply obeys_mono; [apply IH, O|]. cbn. intros h' a (HQ & t & -> & R).
    split; [done|]. exists (Ev o x :: t). split; [by rewrite <-app_assoc|]. by exists x, t.
Qed.

Lemma obeys_bind {A B} h (p : prog A) (f : A → prog B) Q : obeys h p (λ h' a, obeys h' (f a) Q) → obeys h (pbind p f) Q.
Proof.
  revert h. induction p as [a|X o k IH]; intros h O; cbn in *; [done|]. destruct O as [Ho O]. split; [done|]. intros x. by apply IH.
Qed.
Lemma obeys_then {A B} h (p : W A) (f : A → W B) Q :
  obeys h p (λ h' r, match r with Done a => obeys h' (f a) Q | Failed e => Q h' (Failed e) end) → obeys h (p ≫= f) Q.
Proof. intros O. apply obeys_bind. eapply obeys_mono; [exact O|]. by intros h' [a|e]. Qed.

Lemma obeys_lift {A} h (r : result A) (Q : list event → attempt A → Prop) :
  (∀ a, r = Ok a → Q h (Done a)) → (∀ e, r = Err e → Q h (Failed (Other e))) → obeys h (lift r) Q.
Proof. destruct r; cbn; auto. Qed.
Lemma obeys_call {X} h (o : op X) (Q : list event → attempt X → Prop) :
  P h _ o → (∀ x, Q (h ++ [Ev o x]) (Done x)) → obeys h (call o) Q.
Proof. by split. Qed.
Lemma obeys_ask {A} h (o : op (result A)) (Q : list event → attempt A → Prop) :
  P h _ o → (∀ x, Q (h ++ [Ev o x]) (match x with Ok a => Done a | Err e => Failed (Other e) end)) → obeys h (ask o) Q.
Proof. intros Ho H. split; [done|]. intros x. specialize (H x). by destruct x. Qed.
Lemma obeys_db {A} h (o : op (Reply A)) (Q : list event → attempt A → Prop) :
  P h _ o → (∀ x, Q (h ++ [Ev o x]) (match x with DbOk a => Done a | DbErr _ => Failed (Other Internal) end)) → obeys h (db o) Q.
Proof. intros Ho H. split; [done|]. intros x. specialize (H x). by destruct x. Qed.

(** Only the operations that matter. *)
Lemma obeys_avoids {A} (bad : ∀ X, op X → Prop) h (p : prog A) Q :
  (∀ h X o, ¬ bad X o → P h X o) → avoids bad p → (∀ t a, runs p t a → Q (h ++ t) a) → obeys h p Q.
Proof.
  intros G. revert h Q. induction p as [a|X o k IH]; intros h Q V HQ; cbn in *.
  - rewrite <-(app_nil_r h). by apply HQ.
  - destruct V as [N V]. split; [by apply G|]. intros x. apply IH; [done|]. intros t a R. rewrite <-app_assoc. apply HQ. by exists x, t.
Qed.

(** The same from a history on, what has happened being there. *)
Lemma obeys_avoids_from {A} (bad : ∀ X, op X → Prop) h (p : prog A) Q :
  (∀ t X o, ¬ bad X o → P (h ++ t) X o) → avoids bad p → (∀ t a, runs p t a → Q (h ++ t) a) → obeys h p Q.
Proof.
  revert h Q. induction p as [a|X o k IH]; intros h Q G V HQ; cbn in *.
  - rewrite <-(app_nil_r h). by apply HQ.
  - destruct V as [N V]. split; [rewrite <-(app_nil_r h); by apply G|]. intros x. apply IH.
    + intros t Y o' N'. rewrite <-app_assoc. by apply G.
    + done.
    + intros t a R. rewrite <-app_assoc. apply HQ. by exists x, t.
Qed.

Lemma obeys_runs {A} h (p : prog A) Q t a : obeys h p Q → runs p t a →
  Q (h ++ t) a ∧ ∀ t1 X (o : op X) x t2, t = t1 ++ Ev o x :: t2 → P (h ++ t1) X o.
Proof.
  revert h t. induction p as [b|Y o' k IH]; intros h t O R; cbn in *.
  - destruct R as [-> ->]. rewrite app_nil_r. split; [done|]. intros t1 X o x t2 E. by destruct t1.
  - destruct O as [Ho O]. destruct R as (y & t' & -> & R). specialize (O y). destruct (IH _ _ _ O R) as [HQ HP].
    split; [by rewrite <-app_assoc in HQ|]. intros t1 X o x t2 E. destruct t1 as [|e t1]; cbn in E.
    + rewrite app_nil_r. pose proof (f_equal (λ l, match l with Ev o'' _ :: _ => P h _ o'' | [] => True end) E) as F. cbn in F. by rewrite <-F.
    + injection E as E E'. subst e. apply (HP t1 X o x t2) in E'. by rewrite <-app_assoc in E'.
Qed.
End history.
