(* ===== verification/Presets.v ===== *)
(** Image presets in the database and their endpoints:
    [crates/files/src/presets.rs] and [crates/api/src/presets.rs]. *)
From S2P Require Import Prelude CoreError Json Types Rls Principal Effects Records Handlers Hooks ImageCheck FileKeys FileLinks CollectionsApi.

Local Set Warnings "-register-all".

(** * The table *)

Definition PRESET_COLUMNS : string := "name, width, height, fit, format, quality".

(** A row of [_image_presets], as [from_row] reads it. *)
Record PresetRow := {
  pr_name : string; pr_width : option Z; pr_height : option Z; pr_fit : string; pr_format : string; pr_quality : Z;
}.
Definition decode_preset (r : PresetRow) : result ImagePreset :=
  preset_from_row (pr_name r) (pr_width r) (pr_height r) (pr_fit r) (pr_format r) (pr_quality r).

(** [load] and [find]. *)
Definition LOAD_PRESETS_SQL : string := "select " +:+ PRESET_COLUMNS +:+ " from _image_presets order by name".
Definition load_presets : W (list ImagePreset) :=
  db (ORows PresetRow LOAD_PRESETS_SQL []) ≫= λ rows, lift (try_map decode_preset rows).
Definition FIND_PRESET_SQL : string := "select " +:+ PRESET_COLUMNS +:+ " from _image_presets where name = $1::text".
Definition find_preset (name : string) : W (option ImagePreset) :=
  db (ORows PresetRow FIND_PRESET_SQL [text_param name]) ≫= λ rows,
  lift (match rows with row :: _ => Some <$> decode_preset row | [] => Ok None end).

(** [create], [update] and [delete]. *)
Definition text_of_side (side : option Z) : Bound := PText (pretty <$> side).
Definition preset_params (p : ImagePreset) : Params :=
  [text_of_side (p_width p); text_of_side (p_height p); text_param (mode_as_str (p_mode p));
   text_param (output_as_str (p_format p)); text_param (pretty (p_quality p))].
Definition INSERT_PRESET_SQL : string :=
  "insert into _image_presets (name, width, height, fit, format, quality) values ($1::text, $2::text::integer, $3::text::integer, $4::text, $5::text, $6::text::integer) on conflict (name) do nothing".
Definition create_preset (p : ImagePreset) : W unit :=
  lift (validate_preset p) ≫= λ _,
  db (OExecute INSERT_PRESET_SQL (text_param (p_name p) :: preset_params p)) ≫= λ written,
  if decide (written = 0%Z) then refuse Conflict else give tt.
Definition UPDATE_PRESET_SQL : string :=
  "update _image_presets set width = $2::text::integer, height = $3::text::integer, fit = $4::text, format = $5::text, quality = $6::text::integer, updated = now() where name = $1::text".
Definition update_preset (name : string) (p : ImagePreset) : W bool :=
  lift (validate_preset p) ≫= λ _,
  db (OExecute UPDATE_PRESET_SQL (text_param name :: preset_params p)) ≫= λ written, give (0 <? written)%Z.
Definition DELETE_PRESET_SQL : string := "delete from _image_presets where name = $1::text".
Definition delete_preset (name : string) : W bool :=
  db (OExecute DELETE_PRESET_SQL [text_param name]) ≫= λ written, give (0 <? written)%Z.

(** * The endpoints *)

(** [struct PresetBody] and [into_preset]; a name that is not known is the
    caller's mistake. *)
Record PresetBody := {
  b_name : option string; b_width : option Z; b_height : option Z; b_fit : string; b_format : string; b_quality : option Z;
}.
Definition as_invalid {A} (r : result A) : result A := match r with Ok a => Ok a | Err _ => Err Invalid end.
Definition into_preset (b : PresetBody) (name : string) : result ImagePreset :=
  mode ← as_invalid (mode_parse (b_fit b));
  format ← as_invalid (output_parse (b_format b));
  Ok {| p_name := name; p_width := b_width b; p_height := b_height b; p_mode := mode; p_format := format; p_quality := default 80%Z (b_quality b) |}.

Definition preset_change (p : Principal) (name change : string) : W unit :=
  audit_record (actor p) "preset.change" (Some name) (JObject [("change", JString change)]).

Definition list_presets : W (list ImagePreset) := ask OClient ≫= λ _, load_presets.
Definition create_preset_endpoint (p : Principal) (b : PresetBody) : W ImagePreset :=
  lift (require_superuser p) ≫= λ _,
  lift (ok_or (name ← b_name b; if decide (name = "") then None else Some name) Invalid) ≫= λ name,
  lift (into_preset b name) ≫= λ preset,
  ask OClient ≫= λ _,
  create_preset preset ≫= λ _,
  preset_change p (p_name preset) "create" ≫= λ _,
  give preset.
Definition update_preset_endpoint (p : Principal) (name : string) (b : PresetBody) : W ImagePreset :=
  lift (require_superuser p) ≫= λ _,
  lift (match b_name b with Some body_name => if decide (body_name ≠ name) then Err Invalid else Ok () | None => Ok () end) ≫= λ _,
  lift (into_preset b name) ≫= λ preset,
  ask OClient ≫= λ _,
  update_preset name preset ≫= λ existed,
  if negb existed then refuse NotFound
  else preset_change p name "update" ≫= λ _, give preset.
Definition delete_preset_endpoint (p : Principal) (name : string) : W unit :=
  lift (require_superuser p) ≫= λ _,
  ask OClient ≫= λ _,
  delete_preset name ≫= λ existed,
  if negb existed then refuse NotFound else preset_change p name "delete".

(** * What is written is read back *)

(** The row the statements write. *)
Definition row_of_preset (p : ImagePreset) : PresetRow :=
  {| pr_name := p_name p; pr_width := p_width p; pr_height := p_height p; pr_fit := mode_as_str (p_mode p);
     pr_format := output_as_str (p_format p); pr_quality := p_quality p |}.

(** Sides are unsigned in a body. *)
Definition unsigned (side : option Z) : Prop := match side with Some v => (0 ≤ v)%Z | None => True end.

Lemma side_reads_back side : unsigned side → side_refused side = false → row_dimension side = Ok side.
Proof.
  destruct side as [v|]; [|done]. cbn. intros U R. apply orb_false_iff in R as [R1 R2]. apply Z.eqb_neq in R1. apply Z.ltb_ge in R2.
  assert (0 <? v = true)%Z as -> by (apply Z.ltb_lt; lia). assert (v <=? MAX_PRESET_DIMENSION = true)%Z as -> by (apply Z.leb_le; lia). done.
Qed.

Lemma mode_reads_back m : mode_parse (mode_as_str m) = Ok m.
Proof. by destruct m. Qed.
Lemma output_reads_back f : output_parse (output_as_str f) = Ok f.
Proof. by destruct f. Qed.

(** A preset that is accepted can be served: its row decodes to it. *)
Lemma accepted_preset_reads_back p : unsigned (p_width p) → unsigned (p_height p) →
  validate_preset p = Ok () → decode_preset (row_of_preset p) = Ok p.
Proof.
  destruct p as [name w h m f q]. unfold validate_preset, decode_preset, preset_from_row, row_of_preset. cbn. intros UW UH V.
  destruct (bool_decide (name = "") || _)%bool; [done|]. destruct (negb (str_forall name_char name)); [done|].
  destruct (bool_decide (w = None) && bool_decide (h = None))%bool eqn:WH; [done|].
  destruct (side_refused w) eqn:SW; [done|]. destruct (side_refused h) eqn:SH; [done|]. cbn [orb] in V.
  destruct (negb _) eqn:Q; [done|]. clear V.
  rewrite (side_reads_back w), (side_reads_back h) by done. cbn [mbind result_bind]. by rewrite WH, mode_reads_back, output_reads_back.
Qed.

(** The key a thumbnail is cached under does not name the size: after a preset
    changes, the images made before it are still the ones served. *)
Lemma updated_preset_keeps_its_images p q key : p_name p = p_name q → p_format p = p_format q → thumbnail_key p key = thumbnail_key q key.
Proof. unfold thumbnail_key. by intros -> ->. Qed.

(** Only superusers write presets. *)
Lemma presets_are_the_superusers p b name t r : is_superuser p = false →
  (runs (create_preset_endpoint p b) t r → t = [] ∧ r = Failed (Other Forbidden))
  ∧ (runs (update_preset_endpoint p name b) t r → t = [] ∧ r = Failed (Other Forbidden)).
Proof.
  intros N. unfold create_preset_endpoint, update_preset_endpoint, require_superuser. rewrite N. by split.
Qed.
