(* ===== verification/FilesApi.v ===== *)
(** The endpoints of the media library, [crates/api/src/files.rs], with the
    statements of [crates/files/src/store.rs] and the sweeper of
    [crates/files/src/sweep.rs] they run.

    Decoding and resizing an image is the [image] crate's, or a service's, and
    reading a multipart body is axum's: parameters, and data. *)
From S2P Require Import Prelude CoreError Json Types Ddl Compile Principal Accounts Rls Effects History FileLinks Handlers CollectionsApi ImageCheck FileKeys FileStore FileRules Presets Samples.

Local Set Warnings "-register-all,-clear-no-such-hyp".

(** * The file table *)

(** [struct NewFile] and [insert]. *)
Record NewUpload := {
  u_filename : string; u_extension : string; u_mime_type : string; u_size : Z; u_storage_path : string; u_storage_backend : string;
  u_collection : string; u_record : string; u_field : string; u_origin : Origin; u_uploaded_by : string;
  u_original_name : option string; u_width : option Z; u_height : option Z; u_checksum : option string;
}.
Definition upload_is_attached (n : NewUpload) : bool := negb (bool_decide (u_collection n = "")) && negb (bool_decide (u_record n = "")).
Definition number_param (n : option Z) : Bound := PText (pretty <$> n).
Definition INSERT_FILE_SQL : string :=
  "insert into _files (id, filename, extension, mime_type, size, storage_path, storage_backend, collection_name, record_id, field_name, origin, status, uploaded_by, original_name, width, height, checksum, attached_at) values ($1::text, $2::text, $3::text, $4::text, $5::text::bigint, $6::text, $7::text, $8::text, $9::text, $10::text, $11::text, $12::text, $13::text, $14::text, $15::text::integer, $16::text::integer, $17::text, case when $9::text = '' then null else now() end)".
Definition insert_params (id : string) (n : NewUpload) : Params :=
  [text_param id; text_param (u_filename n); text_param (u_extension n); text_param (u_mime_type n); text_param (pretty (u_size n));
   text_param (u_storage_path n); text_param (u_storage_backend n); text_param (u_collection n); text_param (u_record n);
   text_param (u_field n); text_param (origin_as_str (u_origin n));
   text_param (status_as_str (if upload_is_attached n then Ready else FileStore.Pending)); text_param (u_uploaded_by n);
   PText (u_original_name n); number_param (u_width n); number_param (u_height n); PText (u_checksum n)].
Definition insert_file (n : NewUpload) : W FileRow :=
  call ONewId ≫= λ id,
  db (OExecute INSERT_FILE_SQL (insert_params id n)) ≫= λ _,
  get_file id ≫= λ row,
  lift (ok_or row Internal).

(** [struct Measured] and [finalise]. *)
Record Measured := { me_size : Z; me_mime_type : string; me_extension : string; me_width : option Z; me_height : option Z; me_checksum : string }.
Definition FINALISE_SQL : string :=
  "update _files set size = $2::text::bigint, mime_type = $3::text,              extension = $4::text, width = $5::text::integer, height = $6::text::integer,              checksum = $7::text, updated_at = now() where id = $1::text".
Definition finalise (id : string) (m : Measured) : W (option FileRow) :=
  db (OExecute FINALISE_SQL [text_param id; text_param (pretty (me_size m)); text_param (me_mime_type m); text_param (me_extension m);
                             number_param (me_width m); number_param (me_height m); text_param (me_checksum m)]) ≫= λ updated,
  if decide (updated = 0%Z) then give None else get_file id.

(** [get_by_key], [set_variants], [delete] and [refs_for_file]. *)
Definition GET_BY_KEY_SQL : string := "select " +:+ FILE_COLUMNS +:+ " from _files where storage_path = $1::text".
Definition get_file_by_key (key : string) : W (option FileRow) := db (OFile GET_BY_KEY_SQL [text_param key]).
Definition SET_VARIANTS_SQL : string := "update _files set variants = $2, updated_at = now() where id = $1::text".
Definition store_variants (id : string) (variants : Value) : W unit :=
  db (OExecute SET_VARIANTS_SQL [text_param id; PJson variants]) ≫= λ _, give tt.
Definition DELETE_FILE_SQL : string := "delete from _files where id = $1::text".
Definition remove_file_row (id : string) : W (option FileRow) :=
  get_file id ≫= λ row,
  match row with
  | None => give None
  | Some file => db (OExecute DELETE_FILE_SQL [text_param id]) ≫= λ _, give (Some file)
  end.
Record FileRef := { ref_collection : string; ref_record : string; ref_field : string }.
Definition REFS_FOR_FILE_SQL : string :=
  "select collection, record_id, field from _file_refs where file_id = $1::text order by collection, record_id, field".
Definition refs_for_file (id : string) : W (list FileRef) := db (ORows FileRef REFS_FOR_FILE_SQL [text_param id]).

(** [struct ListQuery], [filters] and [list]. *)
Record FileQuery := {
  q_page : Z; q_per_page : Z; q_collection : option string; q_record : option string; q_field : option string; q_mime : option string;
  q_search : option string; q_origin : option Origin; q_status : option Status; q_uploaded_by : option string; q_restriction : option CompiledFilter;
}.
Definition add_filter (st : list string * list string) (entry : option (string * string)) : list string * list string :=
  match entry with
  | None => st
  | Some (clause, value) =>
      let parameters := st.2 ++ [value] in
      (st.1 ++ [clause +:+ " $" +:+ dec_nat (length parameters) +:+ "::text"], parameters)
  end.
Definition filters (q : FileQuery) : list string * list string :=
  foldl add_filter ([], [])
    [pair "collection_name =" <$> q_collection q; pair "record_id =" <$> q_record q; pair "field_name =" <$> q_field q;
     (λ mime, ("mime_type like", mime +:+ "%")) <$> q_mime q; (λ text, ("filename ilike", "%" +:+ text +:+ "%")) <$> q_search q;
     (λ o, ("origin =", origin_as_str o)) <$> q_origin q; (λ s, ("status =", status_as_str s)) <$> q_status q;
     pair "uploaded_by =" <$> q_uploaded_by q].
Definition with_restriction (st : list string * list string) (restriction : option CompiledFilter) : list string * list string :=
  match restriction with
  | None => st
  | Some r => (st.1 ++ ["(" +:+ shift_placeholders (cf_sql r) (Z.of_nat (length st.2)) +:+ ")"], st.2 ++ cf_params r)
  end.

(** A multiplication that wraps, as the release build's. *)
Definition wrap_i64 (n : Z) : Z := ((n + 2 ^ 63) mod 2 ^ 64 - 2 ^ 63)%Z.
Definition list_offset (q : FileQuery) : Z := wrap_i64 ((Z.max (q_page q) 1 - 1) * Z.max 1 (Z.min (q_per_page q) 200)).
Definition where_clause (clauses : list string) : string := if decide (clauses = []) then "" else "where " +:+ join " and " clauses.
Definition count_files_sql (clauses : list string) : string := "select count(*) from _files " +:+ where_clause clauses.
Definition page_files_sql (clauses : list string) (n : nat) : string :=
  "select " +:+ FILE_COLUMNS +:+ " from _files " +:+ where_clause clauses +:+ " order by created_at desc, id desc limit $"
  +:+ dec_nat (n - 1) +:+ "::text::bigint offset $" +:+ dec_nat n +:+ "::text::bigint".
Definition list_files (q : FileQuery) : W (list FileRow * Z) :=
  let '(clauses, parameters) := with_restriction (filters q) (q_restriction q) in
  db (OCount (count_files_sql clauses) (text_param <$> parameters)) ≫= λ total,
  let page_parameters := parameters ++ [pretty (Z.max 1 (Z.min (q_per_page q) 200)); pretty (list_offset q)] in
  db (ORows FileRow (page_files_sql clauses (length page_parameters)) (text_param <$> page_parameters)) ≫= λ files,
  give (files, total).

(** * The endpoints *)

(** What the server runs with: [Files] behind its configuration. *)
Record FilesState := { fs_prefix : string; fs_public_base_url : option string; fs_backend : string; fs_limits : UploadLimits }.

(** A response: a document, an image, or nothing. *)
Inductive Answer := AJson (status : Z) (body : Value) | AImage (content_type body : string) | AEmpty (status : Z).

Section endpoints.
Context `{JsonText, Sha256}.
(** The resizer, [thumbnail::resize] (Thumbnail.v), and which texts the HTTP library takes
    for a header; the messages of errors. *)
Context (resize : string → ImageFormat → ImagePreset → result string) (header_text : string → bool) (message : Error → string).
Context (files : FilesState) (schema : list Collection).

(** [hex] of a digest, and the casts of a dimension. *)
Definition checksum_of (body : string) : string := join "" (Ddl.hex_byte <$> sha256 body).
Definition as_i32 (n : N) : Z := let n := Z.of_N n in if (n <? 2 ^ 31)%Z then n else (n - 2 ^ 32)%Z.

(** The checks of [crates/files/src/validation.rs], which always end; see
    [ImageCheck.uploads_are_measured]. *)
Definition measured {A} (o : option A) : result A := ok_or o Internal.
Definition check_upload (body : string) : result ImageFormat := r ← measured (validate body (fs_limits files)); r.
Definition dimensions_of (body : string) (f : ImageFormat) : result (option (N * N)) := measured (dimensions body f).

(** [Files::store]. *)
Definition store_object (key body : string) : W ImageFormat :=
  lift (check_upload body) ≫= λ f, ask (OPut key (content_type f) body) ≫= λ _, give f.

(** [file_json_with]. *)
Definition of_text (s : option string) : Value := match s with Some s => JString s | None => JNull end.
Definition of_number (n : option Z) : Value := match n with Some n => number n | None => JNull end.
Definition file_json (f : FileRow) (presets : list ImagePreset) : Value :=
  let url := file_url (fs_public_base_url files) (f_id f) in
  let variants := foldl (λ l p, assoc_insert (p_name p) (JString (url +:+ "?preset=" +:+ p_name p)) l) [("content", JString url)] presets in
  JObject
    [("attached_at", of_text (f_attached_at f)); ("checksum", of_text (f_checksum f)); ("collection", JString (f_collection_name f));
     ("collection_name", JString (f_collection_name f)); ("created_at", JString (f_created_at f)); ("extension", JString (f_extension f));
     ("field_name", JString (f_field_name f)); ("filename", JString (f_filename f)); ("height", of_number (f_height f)); ("id", JString (f_id f));
     ("key", JString (f_storage_path f)); ("mimeType", JString (f_mime_type f)); ("mime_type", JString (f_mime_type f));
     ("name", JString (f_filename f)); ("origin", JString (f_origin f)); ("record", JString (f_record_id f));
     ("record_id", JString (f_record_id f)); ("size", number (f_size f)); ("status", JString (f_status f)); ("type", JString (f_extension f));
     ("updated_at", JString (f_updated_at f)); ("uploadedBy", JString (f_uploaded_by f)); ("uploaded_by", JString (f_uploaded_by f));
     ("url", JString url); ("variants", JObject variants); ("width", of_number (f_width f))].

(** ** Variants *)

(** [variant_bytes]: the cached thumbnail, or one made now and cached. *)
Definition variant_bytes (key : string) (preset : ImagePreset) : W (string * string) :=
  ask (OGet (thumbnail_key preset key)) ≫= λ cached,
  match cached with
  | Some o => give (so_body o, so_content_type o)
  | None =>
      ask (OGet key) ≫= λ source,
      lift (ok_or source NotFound) ≫= λ source,
      lift (f ← measured (sniff (so_body source)); ok_or f Invalid) ≫= λ f,
      lift (resize (so_body source) f preset) ≫= λ bytes,
      ask (OPut (thumbnail_key preset key) (output_content_type (p_format preset)) bytes) ≫= λ _,
      give (bytes, output_content_type (p_format preset))
  end.

(** A key of a JSON object; other values are left alone. *)
Definition set_key (key : string) (value : Value) (v : Value) : Value :=
  match v with JObject l => JObject (assoc_insert key value l) | v => v end.

(** [generate_variants]. *)
Fixpoint make_variants (path : string) (generated : Value) (requested : list string) : W Value :=
  match requested with
  | [] => give generated
  | name :: requested =>
      find_preset name ≫= λ preset,
      lift (ok_or preset NotFound) ≫= λ preset,
      variant_bytes path preset ≫= λ _,
      make_variants path (set_key (p_name preset) (JString (thumbnail_key preset path)) generated) requested
  end.
Definition with_variants (f : FileRow) (variants : Value) : FileRow :=
  {| f_id := f_id f; f_filename := f_filename f; f_extension := f_extension f; f_mime_type := f_mime_type f; f_size := f_size f;
     f_storage_path := f_storage_path f; f_storage_backend := f_storage_backend f; f_collection_name := f_collection_name f;
     f_record_id := f_record_id f; f_field_name := f_field_name f; f_variants := variants; f_status := f_status f; f_origin := f_origin f;
     f_original_name := f_original_name f; f_width := f_width f; f_height := f_height f; f_checksum := f_checksum f;
     f_uploaded_by := f_uploaded_by f; f_attached_at := f_attached_at f; f_created_at := f_created_at f; f_updated_at := f_updated_at f |}.
Definition generate_variants (f : FileRow) (requested : list string) : W FileRow :=
  make_variants (f_storage_path f) (f_variants f) requested ≫= λ generated,
  store_variants (f_id f) generated ≫= λ _,
  give (with_variants f generated).

(** The names of [variants=a,b]. *)
Definition names_in (text : string) : list string := filter (λ s, s ≠ "") (trim <$> split_on "," text).

(** ** Uploads *)

(** A part of a multipart body, as axum reads it. *)
Record Part := { pt_name : option string; pt_file_name : option string; pt_type : option string; pt_text : result string; pt_bytes : result string }.
Record Upload := {
  up_collection : option string; up_record : option string; up_field : string; up_origin : string; up_variants : list string;
  up_filename : option string; up_type : string; up_body : option string;
}.
Definition no_upload : Upload :=
  {| up_collection := None; up_record := None; up_field := ""; up_origin := ""; up_variants := []; up_filename := None; up_type := ""; up_body := None |}.

(** One turn of the loop over the parts. *)
Definition read_part (u : Upload) (part : result Part) : result Upload :=
  part ← part;
  let name := default "" (pt_name part) in
  if decide (name = "collection" ∨ name = "collection_name") then
    match up_collection u with
    | Some _ => Ok u
    | None => text ← pt_text part;
        Ok {| up_collection := Some text; up_record := up_record u; up_field := up_field u; up_origin := up_origin u;
              up_variants := up_variants u; up_filename := up_filename u; up_type := up_type u; up_body := up_body u |}
    end
  else if decide (name = "record" ∨ name = "record_id") then
    match up_record u with
    | Some _ => Ok u
    | None => text ← pt_text part;
        Ok {| up_collection := up_collection u; up_record := Some text; up_field := up_field u; up_origin := up_origin u;
              up_variants := up_variants u; up_filename := up_filename u; up_type := up_type u; up_body := up_body u |}
    end
  else if decide (name = "field_name") then
    text ← pt_text part;
    Ok {| up_collection := up_collection u; up_record := up_record u; up_field := text; up_origin := up_origin u;
          up_variants := up_variants u; up_filename := up_filename u; up_type := up_type u; up_body := up_body u |}
  else if decide (name = "origin") then
    text ← pt_text part;
    Ok {| up_collection := up_collection u; up_record := up_record u; up_field := up_field u; up_origin := text;
          up_variants := up_variants u; up_filename := up_filename u; up_type := up_type u; up_body := up_body u |}
  else if decide (name = "variants") then
    text ← pt_text part;
    Ok {| up_collection := up_collection u; up_record := up_record u; up_field := up_field u; up_origin := up_origin u;
          up_variants := names_in text; up_filename := up_filename u; up_type := up_type u; up_body := up_body u |}
  else if decide (name = "file") then
    bytes ← pt_bytes part;
    Ok {| up_collection := up_collection u; up_record := up_record u; up_field := up_field u; up_origin := up_origin u;
          up_variants := up_variants u; up_filename := pt_file_name part; up_type := default "" (pt_type part); up_body := Some bytes |}
  else Ok u.

(** [record_exists], and the record an upload names. *)
Definition EXISTS_SQL (collection : string) : string := "select 1 from " +:+ dq +:+ collection +:+ dq +:+ " where id = $1::text".
Definition record_exists (collection record : string) : W bool :=
  ask OClient ≫= λ _,
  db (ORows unit (EXISTS_SQL collection) [text_param record]) ≫= λ rows, give (negb (bool_decide (rows = []))).
Definition destination (collection record : option string) : W (string * string) :=
  let collection := trim (default "" collection) in
  let record := trim (default "" record) in
  lift (if negb (bool_decide (collection = "")) && bool_decide (schema_get schema collection = None) then Err NotFound else Ok ()) ≫= λ _,
  (if decide (record = "") then give true
   else if decide (collection = "") then refuse Invalid
   else record_exists collection record) ≫= λ there,
  if negb there then refuse NotFound else give (collection, record).

(** The key of a new object, under its record or in the library; what
    [storage_key] refuses does not depend on the id. *)
Definition object_key (collection record filename : string) : W string :=
  if bool_decide (collection = "") || bool_decide (record = "") then
    call ONewId ≫= λ id, give (pending_key id (fs_prefix files) filename)
  else call ONewId ≫= λ id, lift (storage_key id (fs_prefix files) collection record filename).

(** The field an upload is for, when it names one that exists. *)
Definition upload_field (collection field : string) : option Field :=
  if bool_decide (collection = "") || bool_decide (field = "") then None
  else c ← schema_get schema collection; list_find (λ f, field_name f = field) (fields c) ≫= λ '(_, f), Some f.

(** [upload]. *)
Definition upload (p : Principal) (parts : list (result Part)) : W Answer :=
  lift (ok_or (user_id p) Forbidden) ≫= λ user,
  lift (try_fold read_part no_upload parts) ≫= λ u,
  let filename := default "upload" (up_filename u) in
  lift (ok_or (up_body u) Invalid) ≫= λ body,
  lift (origin_parse (up_origin u)) ≫= λ origin,
  destination (up_collection u) (up_record u) ≫= λ '(collection, record),
  object_key collection record filename ≫= λ key,
  lift (check_upload body) ≫= λ f,
  lift (dimensions_of body f) ≫= λ box,
  lift (match upload_field collection (up_field u) with
        | Some field => check_file_policy field (Z.of_nat (String.length body)) (content_type f)
        | None => Ok ()
        end) ≫= λ _,
  store_object key body ≫= λ _,
  ask OClient ≫= λ _,
  insert_file
    {| u_filename := after_last (λ c, bool_decide (c = "/"%char)) key; u_extension := format_as_str f; u_mime_type := content_type f;
       u_size := Z.of_nat (String.length body); u_storage_path := key; u_storage_backend := fs_backend files; u_collection := collection;
       u_record := record; u_field := up_field u; u_origin := origin; u_uploaded_by := user; u_original_name := Some filename;
       u_width := as_i32 <$> (fst <$> box); u_height := as_i32 <$> (snd <$> box); u_checksum := Some (checksum_of body) |} ≫= λ file,
  (if decide (up_variants u = []) then give file else generate_variants file (up_variants u)) ≫= λ file,
  load_presets ≫= λ presets,
  give (AJson 201 (file_json file presets)).

(** [struct PresignBody] and [presign]. *)
Definition PRESIGN_TTL_SECONDS : Z := 15 * 60.
Record PresignBody := {
  ps_filename : string; ps_size : Z; ps_mime : option string; ps_collection : option string; ps_field : option string;
  ps_record : option string; ps_origin : option string;
}.
Definition second_part (s : string) : string := default "" (split_on "/" s !! 1%nat).
Definition presign (p : Principal) (b : PresignBody) : W Answer :=
  lift (ok_or (user_id p) Forbidden) ≫= λ user,
  lift (as_invalid (format_parse (second_part (default "" (ps_mime b))))) ≫= λ f,
  lift (if (ps_size b <=? 0)%Z || (Z.of_N (max_bytes (fs_limits files)) <? ps_size b)%Z then Err Invalid else Ok ()) ≫= λ _,
  destination (ps_collection b) (ps_record b) ≫= λ '(collection, record),
  object_key collection record (ps_filename b) ≫= λ key,
  lift (origin_parse (default "" (ps_origin b))) ≫= λ origin,
  ask OClient ≫= λ _,
  insert_file
    {| u_filename := after_last (λ c, bool_decide (c = "/"%char)) key; u_extension := format_as_str f; u_mime_type := content_type f;
       u_size := ps_size b; u_storage_path := key; u_storage_backend := fs_backend files; u_collection := collection; u_record := record;
       u_field := default "" (ps_field b); u_origin := origin; u_uploaded_by := user; u_original_name := Some (ps_filename b);
       u_width := None; u_height := None; u_checksum := None |} ≫= λ file,
  call (OPresign key PRESIGN_TTL_SECONDS) ≫= λ url,
  match url with
  | Some url =>
      give (AJson 200 (JObject [("headers", JObject [("content-type", JString (content_type f))]); ("id", JString (f_id file));
                                ("key", JString key); ("method", JString "PUT"); ("url", JString url)]))
  | None => remove_file_row (f_id file) ≫= λ _, give (AJson 501 (JObject [("data", JObject []); ("status", number 501)]))
  end.

(** [complete]. *)
Definition complete (p : Principal) (id : string) (variants : option string) : W Answer :=
  lift (ok_or (user_id p) Forbidden) ≫= λ _,
  ask OClient ≫= λ _,
  get_file id ≫= λ file,
  lift (ok_or file NotFound) ≫= λ file,
  ask (OGet (f_storage_path file)) ≫= λ object,
  lift (ok_or object NotFound) ≫= λ object,
  lift (check_upload (so_body object)) ≫= λ f,
  lift (dimensions_of (so_body object) f) ≫= λ box,
  finalise id
    {| me_size := Z.of_nat (String.length (so_body object)); me_mime_type := content_type f; me_extension := format_as_str f;
       me_width := as_i32 <$> (fst <$> box); me_height := as_i32 <$> (snd <$> box); me_checksum := checksum_of (so_body object) |} ≫= λ file,
  lift (ok_or file NotFound) ≫= λ file,
  let names := default [] (names_in <$> variants) in
  (if decide (names = []) then give file else generate_variants file names) ≫= λ file,
  load_presets ≫= λ presets,
  give (AJson 200 (file_json file presets)).

(** ** Serving *)

(** [image_response]. *)
Definition image_response (body type : string) : Answer :=
  AImage (if header_text type then type else "application/octet-stream") body.

(** [variant_preset] and [variant_of]. *)
Definition variant_preset (specification : string) : W ImagePreset :=
  if str_contains "x" specification then lift (parse_size specification)
  else find_preset specification ≫= λ preset, lift (ok_or preset NotFound).
Definition variant_of (key specification : string) : W (string * string) :=
  ask OClient ≫= λ _, variant_preset specification ≫= λ preset, variant_bytes key preset.

(** [remember_variant]: an error of the preset is swallowed. *)
Definition remember_variant (f : FileRow) (specification : string) : W unit :=
  pbind (variant_preset specification) (λ r,
    match r with
    | Failed _ => give tt
    | Done preset =>
        let key := thumbnail_key preset (f_storage_path f) in
        match f_variants f with
        | JObject l =>
            if decide ((assoc (p_name preset) l ≫= as_str) = Some key) then give tt
            else store_variants (f_id f) (set_key (p_name preset) (JString key) (f_variants f))
        | _ => give tt
        end
    end).

(** [serve_by_id] and [serve_variant_by_id]. *)
Definition serve_by_id (id : string) (thumb preset : option string) : W Answer :=
  ask OClient ≫= λ _,
  get_file id ≫= λ file,
  lift (ok_or file NotFound) ≫= λ file,
  match thumb, preset with
  | Some _, Some _ => refuse Invalid
  | None, None =>
      ask (OGet (f_storage_path file)) ≫= λ object,
      lift (ok_or object NotFound) ≫= λ object,
      give (image_response (so_body object) (so_content_type object))
  | Some specification, None | None, Some specification =>
      variant_of (f_storage_path file) specification ≫= λ '(bytes, type),
      remember_variant file specification ≫= λ _,
      give (image_response bytes type)
  end.
Definition serve_variant_by_id (id specification : string) : W Answer :=
  ask OClient ≫= λ _,
  get_file id ≫= λ file,
  lift (ok_or file NotFound) ≫= λ file,
  variant_of (f_storage_path file) specification ≫= λ '(bytes, type),
  give (image_response bytes type).

(** [safe_segment], and the key a path names. *)
Definition safe_segment (segment : string) : result string :=
  if bool_decide (segment = "") || bool_decide (segment = ".") || bool_decide (segment = "..")
     || str_exists (λ c, bool_decide (c = "/"%char ∨ c = backslash ∨ c = "000"%char)) segment
  then Err Invalid else Ok segment.
Definition path_key (collection record filename : string) : result string :=
  _ ← validate_identifier collection;
  record ← safe_segment record;
  filename ← safe_segment filename;
  Ok (collection +:+ "/" +:+ record +:+ "/" +:+ filename).

(** [serve_path]. *)
Definition serve_path (collection record filename : string) (thumb preset : option string) : W Answer :=
  match thumb, preset with
  | Some _, Some _ => refuse Invalid
  | Some specification, None => lift (parse_size specification) ≫= λ p, give (Some p)
  | None, Some name => ask OClient ≫= λ _, find_preset name ≫= λ p, lift (ok_or p NotFound) ≫= λ p, give (Some p)
  | None, None => give None
  end ≫= λ preset,
  lift (path_key collection record filename) ≫= λ key,
  ask OClient ≫= λ _,
  get_file_by_key key ≫= λ row,
  lift (ok_or row NotFound) ≫= λ _,
  match preset with
  | None =>
      ask (OGet key) ≫= λ object,
      lift (ok_or object NotFound) ≫= λ object,
      give (image_response (so_body object) (so_content_type object))
  | Some preset => variant_bytes key preset ≫= λ '(bytes, type), give (image_response bytes type)
  end.

(** ** Deletion and listing *)

(** [remove_file]: a row the rule hides is looked for again as the owner. *)
Definition usage_json (usage : list FileRef) : Value :=
  JArray ((λ r, JObject [("collection", JString (ref_collection r)); ("field", JString (ref_field r)); ("record_id", JString (ref_record r))]) <$> usage).
Definition in_use (usage : list FileRef) : Answer :=
  AJson 409 (JObject [("data", JObject [("usage", usage_json usage)]); ("status", number 409)]).
Definition remove_file (p : Principal) (id : string) (force : bool) : W Answer :=
  lift (ok_or (user_id p) Forbidden) ≫= λ _,
  ask OClient ≫= λ _,
  db OBegin ≫= λ _,
  db (OContext (request_context p ADelete)) ≫= λ _,
  get_file id ≫= λ file,
  match file with
  | None =>
      db OOwner ≫= λ _,
      get_file id ≫= λ row,
      refuse (match row with Some _ => Forbidden | None => NotFound end)
  | Some _ =>
      db OOwner ≫= λ _,
      refs_for_file id ≫= λ usage,
      if negb (bool_decide (usage = [])) && negb (force && is_superuser p) then give (in_use usage)
      else
        db (OContext (request_context p ADelete)) ≫= λ _,
        remove_file_row id ≫= λ deleted,
        match deleted with
        | None => refuse Forbidden
        | Some _ => db OCommit ≫= λ _, give (AEmpty 204)
        end
  end.
Definition delete_by_path (p : Principal) (collection record filename : string) (force : bool) : W Answer :=
  lift (ok_or (user_id p) Forbidden) ≫= λ _,
  lift (path_key collection record filename) ≫= λ key,
  ask OClient ≫= λ _,
  get_file_by_key key ≫= λ row,
  lift (ok_or row NotFound) ≫= λ file,
  remove_file p (f_id file) force.

(** [FileRules::load] and [list]. *)
Definition LOAD_RULES_SQL : string := "select value from _settings where key = 'files'".
Definition load_file_rules : W FileRules :=
  db (ORows Value LOAD_RULES_SQL []) ≫= λ rows, give (file_rules_from_setting (default JNull (head rows))).
Definition MAX_PER_PAGE : Z := 200.
Record LibraryQuery := {
  lq_collection : option string; lq_record : option string; lq_field : option string; lq_mime : option string; lq_search : option string;
  lq_page : Z; lq_per_page : Z;
}.
Definition total_pages (total per_page : Z) : Z := Z.max (total / per_page) 1.
Definition list_library (p : Principal) (q : LibraryQuery) : W Value :=
  let per_page := Z.max 1 (Z.min (lq_per_page q) MAX_PER_PAGE) in
  let page := Z.max (lq_page q) 1 in
  ask OClient ≫= λ _,
  (if is_superuser p then give tt
   else load_file_rules ≫= λ rules, match fr_list rules with SuperusersOnly => refuse Forbidden | _ => give tt end) ≫= λ _,
  load_presets ≫= λ presets,
  db OBegin ≫= λ _,
  db (OContext (request_context p AList)) ≫= λ _,
  list_files {| q_page := page; q_per_page := per_page; q_collection := lq_collection q; q_record := lq_record q; q_field := lq_field q;
                q_mime := lq_mime q; q_search := lq_search q; q_origin := None; q_status := None; q_uploaded_by := None;
                q_restriction := None |} ≫= λ '(found, total),
  db OCommit ≫= λ _,
  give (JObject [("items", JArray ((λ f, file_json f presets) <$> found)); ("page", number page); ("perPage", number per_page);
                 ("total", number total); ("totalItems", number total); ("totalPages", number (total_pages total per_page))]).

(** ** Sweeping *)

(** [struct SweepOptions] and [struct SweepReport]. *)
Definition SAMPLE : nat := 50.
Record SweepOptions := { so_dry_run : bool; so_limit : nat; so_prefix : string }.
Record SweepReport := { sr_scanned : nat; sr_orphans : nat; sr_enqueued : nat; sr_unrecognised : nat; sr_dry_run : bool; sr_sample : list string }.
Definition empty_report (dry_run : bool) : SweepReport :=
  {| sr_scanned := 0; sr_orphans := 0; sr_enqueued := 0; sr_unrecognised := 0; sr_dry_run := dry_run; sr_sample := [] |}.
Definition was_truncated (r : SweepReport) (o : SweepOptions) : bool := (so_limit o <=? sr_scanned r)%nat.

Definition SWEEP_COLLECTIONS_SQL : string := "select name from _collections".
Definition SWEEP_PRESETS_SQL : string := "select name from _image_presets".

(** [record_is_present], with its cache. *)
Definition Cache : Type := list ((string * string) * bool).
Definition record_is_present (cache : Cache) (collection record : string) : W (bool * Cache) :=
  match list_find (λ e, e.1 = (collection, record)) cache with
  | Some (_, (_, present)) => give (present, cache)
  | None =>
      lift (validate_identifier collection) ≫= λ _,
      db (ORows unit (EXISTS_SQL collection) [text_param record]) ≫= λ rows,
      let present := negb (bool_decide (rows = [])) in
      give (present, ((collection, record), present) :: cache)
  end.

(** [outbox::enqueue]. *)
Definition ENQUEUE_FILE_SQL : string := "insert into _file_outbox (id, storage_key) values ($1::text, $2::text)".
Definition enqueue_key (key : string) : W unit :=
  call ONewId ≫= λ id, db (OExecute ENQUEUE_FILE_SQL [text_param id; text_param key]) ≫= λ _, give tt.

(** Whether an object is an orphan: [None] when it has no owner we know. *)
Definition orphaned (present collections presets : list string) (cache : Cache) (key : string) : W (option bool * Cache) :=
  match classify key with
  | OUnrecognised => give (None, cache)
  | OSource collection record =>
      if negb (bool_decide (collection ∈ collections)) then give (Some true, cache)
      else record_is_present cache collection record ≫= λ '(there, cache), give (Some (negb there), cache)
  | OThumbnail collection record source preset =>
      if negb (bool_decide (preset ∈ presets)) || negb (bool_decide (source ∈ present)) || negb (bool_decide (collection ∈ collections))
      then give (Some true, cache)
      else record_is_present cache collection record ≫= λ '(there, cache), give (Some (negb there), cache)
  end.

(** The loop of [sweep]. *)
Definition count_scanned (r : SweepReport) : SweepReport :=
  {| sr_scanned := S (sr_scanned r); sr_orphans := sr_orphans r; sr_enqueued := sr_enqueued r; sr_unrecognised := sr_unrecognised r;
     sr_dry_run := sr_dry_run r; sr_sample := sr_sample r |}.
Definition count_unrecognised (r : SweepReport) : SweepReport :=
  {| sr_scanned := sr_scanned r; sr_orphans := sr_orphans r; sr_enqueued := sr_enqueued r; sr_unrecognised := S (sr_unrecognised r);
     sr_dry_run := sr_dry_run r; sr_sample := sr_sample r |}.
Definition count_orphan (key : string) (r : SweepReport) : SweepReport :=
  {| sr_scanned := sr_scanned r; sr_orphans := S (sr_orphans r); sr_enqueued := sr_enqueued r; sr_unrecognised := sr_unrecognised r;
     sr_dry_run := sr_dry_run r; sr_sample := if (length (sr_sample r) <? SAMPLE)%nat then sr_sample r ++ [key] else sr_sample r |}.
Definition count_enqueued (r : SweepReport) : SweepReport :=
  {| sr_scanned := sr_scanned r; sr_orphans := sr_orphans r; sr_enqueued := S (sr_enqueued r); sr_unrecognised := sr_unrecognised r;
     sr_dry_run := sr_dry_run r; sr_sample := sr_sample r |}.
Fixpoint sweep_keys (o : SweepOptions) (present collections presets : list string) (keys : list string) (r : SweepReport) (cache : Cache) : W SweepReport :=
  match keys with
  | [] => give r
  | key :: keys =>
      if (so_limit o <=? sr_scanned r)%nat then give r
      else
        let r := count_scanned r in
        orphaned present collections presets cache key ≫= λ '(orphan, cache),
        match orphan with
        | None => sweep_keys o present collections presets keys (count_unrecognised r) cache
        | Some false => sweep_keys o present collections presets keys r cache
        | Some true =>
            let r := count_orphan key r in
            if so_dry_run o then sweep_keys o present collections presets keys r cache
            else enqueue_key key ≫= λ _, sweep_keys o present collections presets keys (count_enqueued r) cache
        end
  end.
Definition sweep (o : SweepOptions) : W SweepReport :=
  ask (OKeys (so_prefix o)) ≫= λ keys,
  db (ORows string SWEEP_COLLECTIONS_SQL []) ≫= λ collections,
  db (ORows string SWEEP_PRESETS_SQL []) ≫= λ presets,
  sweep_keys o keys collections presets keys (empty_report (so_dry_run o)) [].

(** [outbox::drain]: what cannot be removed is put off. *)
Definition DUE_KEYS_SQL : string :=
  "select id, storage_key from _file_outbox where run_at <= now() order by run_at limit $1::text::bigint".
Definition FORGET_KEY_SQL : string := "delete from _file_outbox where id = $1::text".
Definition RETRY_KEY_SQL : string :=
  "update _file_outbox set attempts = attempts + 1, last_error = $1::text, run_at = now() + make_interval(secs => least($3::text::bigint, 30 * (attempts + 1))) where id = $2::text".
Fixpoint drain_keys (l : list (string * string)) (deleted failed : nat) : W (nat * nat) :=
  match l with
  | [] => give (deleted, failed)
  | (id, key) :: l =>
      Do (ORemove key) (λ r,
        match r with
        | Ok _ => db (OExecute FORGET_KEY_SQL [text_param id]) ≫= λ _, drain_keys l (S deleted) failed
        | Err e => db (OExecute RETRY_KEY_SQL [text_param (message e); text_param id; text_param (pretty MAX_BACKOFF)]) ≫= λ _, drain_keys l deleted (S failed)
        end)
  end.
Definition drain_queue : W (nat * nat) :=
  db (ORows (string * string) DUE_KEYS_SQL [text_param (dec_nat BATCH)]) ≫= λ rows, drain_keys rows 0 0.

(** The endpoint. *)
Definition count (n : nat) : Value := number (Z.of_nat n).
Definition sweep_endpoint (p : Principal) (dry_run : bool) (limit : nat) : W Value :=
  (if is_superuser p then give tt else refuse Forbidden) ≫= λ _,
  let o := {| so_dry_run := dry_run; so_limit := limit; so_prefix := fs_prefix files |} in
  ask OClient ≫= λ _,
  sweep o ≫= λ r,
  (if dry_run then give (0%nat, 0%nat) else drain_queue) ≫= λ '(deleted, failed),
  give (JObject [("deleted", count deleted); ("dryRun", JBool (sr_dry_run r)); ("enqueued", count (sr_enqueued r)); ("failed", count failed);
                 ("orphans", count (sr_orphans r)); ("sample", JArray (JString <$> sr_sample r)); ("scanned", count (sr_scanned r));
                 ("truncated", JBool (was_truncated r o)); ("unrecognised", count (sr_unrecognised r))]).
End endpoints.

(** * Uploads are images *)

Section uploads.
Context `{JsonText, Sha256}.
Context (resize : string → ImageFormat → ImagePreset → result string) (files : FilesState) (schema : list Collection) (p : Principal).

(** A key the server drew for an upload. *)
Definition drawn_key (h : list event) (key : string) : Prop :=
  ∃ id name, Ev ONewId id ∈ h
    ∧ (key = pending_key id (fs_prefix files) name ∨ ∃ collection record, storage_key id (fs_prefix files) collection record name = Ok key).

(** An object that may be stored: a checked image under its own type, or a
    thumbnail. *)
Definition may_store (h : list event) (key type body : string) : Prop :=
  (drawn_key h key ∧ ∃ f, validate body (fs_limits files) = Some (Ok f) ∧ type = content_type f)
  ∨ ∃ q source, key = thumbnail_key q source ∧ type = output_content_type (p_format q).

(** A row that may be inserted: what it says is true of an object that is
    stored, and its field accepts it. *)
Definition describes (h : list event) (user : string) (params : Params) : Prop :=
  ∃ key body f collection field,
    Ev (OPut key (content_type f) body) (Ok ()) ∈ h ∧ validate body (fs_limits files) = Some (Ok f)
    ∧ params !! 2%nat = Some (text_param (format_as_str f)) ∧ params !! 3%nat = Some (text_param (content_type f))
    ∧ params !! 4%nat = Some (text_param (pretty (Z.of_nat (String.length body)))) ∧ params !! 5%nat = Some (text_param key)
    ∧ params !! 7%nat = Some (text_param collection) ∧ params !! 9%nat = Some (text_param field)
    ∧ params !! 12%nat = Some (text_param user) ∧ params !! 16%nat = Some (PText (Some (checksum_of body)))
    ∧ ∀ fl, upload_field schema collection field = Some fl →
        check_file_policy fl (Z.of_nat (String.length body)) (content_type f) = Ok ().

Definition upload_rule (h : list event) (X : Type) (o : op X) : Prop :=
  match o with
  | OPut key type body => is_Some (user_id p) ∧ may_store h key type body
  | OExecute sql params => sql = INSERT_FILE_SQL → ∃ user, user_id p = Some user ∧ describes h user params
  | _ => True
  end.
Definition touches_files (X : Type) (o : op X) : Prop :=
  match o with OPut _ _ _ => True | OExecute sql _ => sql = INSERT_FILE_SQL | _ => False end.

Ltac quietly := avoid; try (by intros []); try (cbn; discriminate).

Abbreviation ok := (obeys upload_rule).

Lemma quiet {A} h (q : prog A) Q : avoids touches_files q → (∀ t a, runs q t a → Q (h ++ t) a) → ok h q Q.
Proof. apply obeys_avoids. intros h' X o N. destruct o; try done. by intros ->. Qed.

Lemma quiet_then {A B} h (q : W A) (f : A → W B) Q : avoids touches_files q →
  (∀ t a, runs q t (Done a) → ok (h ++ t) (f a) Q) → (∀ h' e, Q h' (Failed e)) → ok h (q ≫= f) Q.
Proof. intros V F E. apply obeys_then, quiet; [done|]. intros t [a|e] R; [by apply F|apply E]. Qed.

Lemma lifted_then {A B} h (r : result A) (f : A → W B) Q :
  (∀ a, r = Ok a → ok h (f a) Q) → (∀ h' e, Q h' (Failed e)) → ok h (lift r ≫= f) Q.
Proof. intros F E. apply obeys_then, obeys_lift; [done|]. intros e _. apply E. Qed.

Definition anything {A} (h : list event) (a : A) : Prop := True.

Lemma variant_bytes_ok key q h : is_Some (user_id p) → ok h (variant_bytes resize key q) anything.
Proof.
  intros U. unfold variant_bytes. apply obeys_then, obeys_ask; [done|]. intros [[o|]|e]; [done| |done].
  apply obeys_then, obeys_ask; [done|]. intros [source|e]; [|done].
  apply lifted_then; [|done]. intros s _. apply lifted_then; [|done]. intros f _. apply lifted_then; [|done]. intros bytes _.
  apply obeys_then, obeys_ask; [split; [done|]; right; by exists q, key|]. by intros [[]|e].
Qed.

Lemma find_preset_avoids name : avoids touches_files (find_preset name).
Proof. unfold find_preset. quietly. Qed.
Lemma load_presets_avoids : avoids touches_files load_presets.
Proof. unfold load_presets. quietly. Qed.
Lemma get_file_avoids id : avoids touches_files (get_file id).
Proof. unfold get_file. quietly. Qed.
Lemma destination_avoids c r : avoids touches_files (destination schema c r).
Proof. unfold destination, record_exists. quietly. Qed.
Lemma object_key_avoids c r name : avoids touches_files (object_key files c r name).
Proof. unfold object_key. quietly. Qed.

Lemma make_variants_ok path generated requested h : is_Some (user_id p) → ok h (make_variants resize path generated requested) anything.
Proof.
  intros U. revert generated h. induction requested as [|name l IH]; intros generated h; [done|]. cbn [make_variants].
  apply quiet_then; [apply find_preset_avoids| |done]. intros t q _. apply lifted_then; [|done]. intros preset _.
  apply obeys_then. eapply obeys_mono; [by apply variant_bytes_ok|]. intros h' [a|e] _; [apply IH|done].
Qed.
Lemma generate_variants_ok f requested h : is_Some (user_id p) → ok h (generate_variants resize f requested) anything.
Proof.
  intros U. unfold generate_variants. apply obeys_then. eapply obeys_mono; [by apply make_variants_ok|].
  intros h' [a|e] _; [|done]. apply quiet_then; [|done..]. unfold store_variants. quietly.
Qed.

Lemma object_key_drawn c r name h t key : runs (object_key files c r name) t (Done key) → drawn_key (h ++ t) key.
Proof.
  unfold object_key. destruct (bool_decide _ || bool_decide _)%bool; intros R; apply runs_done in R as (t1 & id & t2 & -> & R1 & R2);
    destruct R1 as (x & t' & -> & [-> [= ->]]).
  - destruct R2 as [-> [= ->]]. exists x, name. split; [set_solver|]. by left.
  - exists x, name. destruct (storage_key _ _ _ _ _) as [k|] eqn:E; [|by destruct R2]. destruct R2 as [-> [= ->]].
    split; [set_solver|]. right. by exists c, r.
Qed.

(** The row was inserted. *)
Definition recorded {A} (h : list event) (r : attempt A) : Prop :=
  match r with Done _ => ∃ params n, Ev (OExecute INSERT_FILE_SQL params) (DbOk n) ∈ h | Failed _ => True end.

Lemma upload_obeys parts : ok [] (upload resize files schema p parts) recorded.
Proof.
  unfold upload. apply lifted_then; [|done]. intros user U.
  assert (user_id p = Some user) as U' by (destruct (user_id p); cbn in U; congruence). clear U. rename U' into U.
  assert (is_Some (user_id p)) as SU by by eexists.
  apply lifted_then; [|done]. intros u _. apply lifted_then; [|done]. intros body _. apply lifted_then; [|done]. intros origin _.
  apply quiet_then; [apply destination_avoids| |done]. intros t1 [collection record] _.
  apply quiet_then; [apply object_key_avoids| |done]. intros t2 key K. apply (object_key_drawn _ _ _ ([] ++ t1)) in K.
  revert K. generalize (([] ++ t1) ++ t2). clear t1 t2. intros h K.
  apply lifted_then; [|done]. intros f F. apply lifted_then; [|done]. intros box _. apply lifted_then; [|done]. intros [] C.
  assert (validate body (fs_limits files) = Some (Ok f)) as V.
  { unfold check_upload, measured in F. destruct (validate body (fs_limits files)) as [[]|]; cbn in F; [congruence|done..]. }
  unfold store_object. apply obeys_then, lifted_then; [|done]. intros f' F'. rewrite F in F'. injection F' as <-.
  apply obeys_then, obeys_ask; [split; [done|]; left; split; [done|]; by exists f|]. intros [[]|e]; [|done]. cbn [obeys].
  apply quiet_then; [quietly| |done]. intros t3 [] _.
  set (h2 := (h ++ _) ++ t3). assert (Ev (OPut key (content_type f) body) (Ok ()) ∈ h2) as S by (unfold h2; set_solver).
  clearbody h2. clear h K t3.
  apply obeys_then. unfold insert_file. apply obeys_then, obeys_call; [done|]. intros id. apply obeys_then, obeys_db.
  { intros _. exists user. split; [done|]. exists key, body, f, collection, (up_field u). split_and!; try done.
    - set_solver.
    - intros fl E. rewrite E in C. done. }
  intros [n|e]; [|done]. set (h3 := (h2 ++ _) ++ _).
  assert (∃ params n, Ev (OExecute INSERT_FILE_SQL params) (DbOk n) ∈ h3) as R by (unfold h3; eexists _, n; apply elem_of_app; right; by left).
  clearbody h3. clear h2 S. apply quiet_then; [apply get_file_avoids| |done]. intros t4 row _.
  apply obeys_lift; [|done]. intros file _.
  assert (∀ t, ∃ params n, Ev (OExecute INSERT_FILE_SQL params) (DbOk n) ∈ (h3 ++ t4) ++ t) as R2
    by (intros t; destruct R as (params & m & M); exists params, m; set_solver).
  revert R2. generalize (h3 ++ t4). clear -SU. intros h R2.
  apply obeys_then. destruct (decide _).
  - cbn [obeys give]. apply quiet_then; [apply load_presets_avoids| |done]. intros t presets _. apply R2.
  - eapply obeys_mono; [apply obeys_frame; by apply generate_variants_ok|]. intros h' [file'|e] (_ & t & -> & _); [|done].
    apply quiet_then; [apply load_presets_avoids| |done]. intros t' presets _. cbn. rewrite <-app_assoc. apply R2.
Qed.

(** what the upload endpoint stores are images, for callers with an
    account. On every path, whatever the database and the backend answer: an
    object is stored only for a signed-in caller, under a key the server drew
    for it, with bytes that pass the checks of an upload and the type those
    bytes have, not the one the client said — or it is a thumbnail under its
    own name and type; a row is inserted only after its object is stored, and
    its type, size, checksum and uploader are those of the object and the
    caller, within the limits of the field it names; and an upload that
    succeeds has its row. *)
Theorem uploads_are_images parts t r :
  runs (upload resize files schema p parts) t r →
  (∀ t1 key type body x t2, t = t1 ++ Ev (OPut key type body) x :: t2 → is_Some (user_id p) ∧ may_store t1 key type body)
  ∧ (∀ t1 params x t2, t = t1 ++ Ev (OExecute INSERT_FILE_SQL params) x :: t2 →
      ∃ user, user_id p = Some user ∧ describes t1 user params)
  ∧ recorded t r.
Proof.
  intros R. destruct (obeys_runs _ _ _ _ _ _ (upload_obeys parts) R) as [Q P]. split_and!; [| |done].
  - intros t1 key type body x t2 E. exact (P t1 _ _ x t2 E).
  - intros t1 params x t2 E. exact (P t1 _ _ x t2 E eq_refl).
Qed.
End uploads.

(** * A deletion is the rule's, and whole *)

(** The nine steps of a deletion that is carried out. *)
Definition deletion_trace `{JsonText} (p : Principal) (id : string) (row again : FileRow) (usage : list FileRef) (n : Z) : list event :=
  [Ev OClient (Ok ()); Ev OBegin (DbOk ()); Ev (OContext (request_context p ADelete)) (DbOk ());
   Ev (OFile ("select " +:+ FILE_COLUMNS +:+ " from _files where id = $1::text") [text_param id]) (DbOk (Some row));
   Ev OOwner (DbOk ()); Ev (ORows FileRef REFS_FOR_FILE_SQL [text_param id]) (DbOk usage);
   Ev (OContext (request_context p ADelete)) (DbOk ());
   Ev (OFile ("select " +:+ FILE_COLUMNS +:+ " from _files where id = $1::text") [text_param id]) (DbOk (Some again));
   Ev (OExecute DELETE_FILE_SQL [text_param id]) (DbOk n); Ev OCommit (DbOk ())].

(** A commit that succeeded. *)
Definition committed (e : event) : bool :=
  match e with
  | @Ev X o x =>
      match o in op X return X → bool with
      | OCommit => λ r, match r with DbOk _ => true | DbErr _ => false end
      | _ => λ _, false
      end x
  end.

Section deletion.
Context `{JsonText}.

(** What a deletion must have behind it: the request runs as the caller with
    the row visible to it for deletion, and nothing refers to the file, unless a
    superuser insists. *)
Definition deletion_rule (p : Principal) (id : string) (force : bool) (h : list event) (X : Type) (o : op X) : Prop :=
  match o with
  | OExecute sql params =>
      is_Some (user_id p) ∧ sql = DELETE_FILE_SQL ∧ params = [text_param id]
      ∧ ∃ row again usage n, h = take 8 (deletion_trace p id row again usage n) ∧ (usage = [] ∨ force = true ∧ is_superuser p = true)
  | OCommit => ∃ row again usage n, h = take 9 (deletion_trace p id row again usage n)
  | OPut _ _ _ | ORemove _ | OBatch _ => False
  | _ => True
  end.
Definition deletion_end (p : Principal) (id : string) (force : bool) (h : list event) (r : attempt Answer) : Prop :=
  (r = Done (AEmpty 204) → ∃ row again usage n, h = deletion_trace p id row again usage n)
  ∧ (existsb committed h = true → r = Done (AEmpty 204)).

Ltac early := cbn [obeys refuse fail give]; split; [done|by intros].
Lemma remove_file_obeys p id force : obeys (deletion_rule p id force) [] (remove_file p id force) (deletion_end p id force).
Proof.
  unfold remove_file. apply obeys_then, obeys_lift; [|early]. intros user U.
  assert (is_Some (user_id p)) as SU by (destruct (user_id p); cbn in U; [by eexists|done]).
  apply obeys_then, obeys_ask; [done|]. intros [[]|e]; [|early].
  apply obeys_then, obeys_db; [done|]. intros [[]|e]; [|early].
  apply obeys_then, obeys_db; [done|]. intros [[]|e]; [|early].
  unfold get_file at 1. apply obeys_then, obeys_db; [done|]. intros [[row|]|e]; [| |early].
  2:{ apply obeys_then, obeys_db; [done|]. intros [[]|e]; [|early]. apply obeys_then, obeys_db; [done|]. intros [[]|]; early. }
  apply obeys_then, obeys_db; [done|]. intros [[]|e]; [|early].
  apply obeys_then, obeys_db; [done|]. intros [usage|e]; [|early].
  destruct (_ && _)%bool eqn:G; [early|].
  assert (usage = [] ∨ force = true ∧ is_superuser p = true) as A.
  { apply andb_false_iff in G as [G|G]; [left|right].
    - apply negb_false_iff, bool_decide_eq_true in G. done.
    - by apply negb_false_iff, andb_true_iff in G. }
  clear G. apply obeys_then, obeys_db; [done|]. intros [[]|e]; [|early].
  apply obeys_then. unfold remove_file_row, get_file. apply obeys_then, obeys_db; [done|]. intros [[again|]|e]; [|early..].
  apply obeys_then, obeys_db.
  { split_and!; [done..|]. by exists row, again, usage, 0%Z. }
  intros [n|e]; [|early]. apply obeys_then, obeys_db; [by exists row, again, usage, n|].
  intros [[]|e]; [|early]. split; [|done]. intros _. by exists row, again, usage, n.
Qed.

(** deleting a file is what its rule and its references allow, whole or
    not at all. Over every answer of the database: a row is deleted only for a
    caller with an account, in a transaction under that caller's context for a
    deletion, in which the select policies showed the row, and only when no
    record refers to the file, unless a superuser forces it; nothing else is
    ever written, no object is touched, and the request answers that the file
    is gone exactly when that transaction has committed. *)
Theorem deletion_is_authorised p id force t r :
  runs (remove_file p id force) t r →
  (∀ t1 sql params x t2, t = t1 ++ Ev (OExecute sql params) x :: t2 →
     is_Some (user_id p) ∧ sql = DELETE_FILE_SQL ∧ params = [text_param id]
     ∧ ∃ row again usage n, t1 = take 8 (deletion_trace p id row again usage n)
         ∧ (usage = [] ∨ force = true ∧ is_superuser p = true))
  ∧ (∀ t1 key x t2, t ≠ t1 ++ Ev (ORemove key) x :: t2)
  ∧ (∀ t1 x t2, t = t1 ++ Ev OCommit x :: t2 → ∃ row again usage n, t1 = take 9 (deletion_trace p id row again usage n))
  ∧ (r = Done (AEmpty 204) ↔ existsb committed t = true).
Proof.
  intros R. destruct (obeys_runs _ _ _ _ _ _ (remove_file_obeys p id force) R) as [Q P]. change ([] ++ t) with t in Q. split_and!.
  - intros t1 sql params x t2 E. exact (P t1 _ _ x t2 E).
  - intros t1 key x t2 E. exact (P t1 _ _ x t2 E).
  - intros t1 x t2 E. exact (P t1 _ _ x t2 E).
  - split; [|exact (proj2 Q)]. intros E. destruct (proj1 Q E) as (row & again & usage & n & ->). done.
Qed.
End deletion.

(** * A sweep queues orphans only *)

(** The record an object is filed under was looked for and is not there. *)
Definition gone (h : list event) (collection record : string) : Prop :=
  Ev (ORows unit (EXISTS_SQL collection) [text_param record]) (DbOk []) ∈ h.
Definition orphan_for_a_reason (h : list event) (keys collections presets : list string) (key : string) : Prop :=
  match classify key with
  | OUnrecognised => False
  | OSource collection record => collection ∉ collections ∨ gone h collection record
  | OThumbnail collection record source preset => preset ∉ presets ∨ source ∉ keys ∨ collection ∉ collections ∨ gone h collection record
  end.

(** What a sweep may do: with the lists it read, queue such an object. *)
Definition sweep_rule (o : SweepOptions) (h : list event) (X : Type) (x : op X) : Prop :=
  match x with
  | OExecute sql params =>
      so_dry_run o = false ∧ sql = ENQUEUE_FILE_SQL
      ∧ ∃ id key keys collections presets, params = [text_param id; text_param key]
          ∧ Ev (OKeys (so_prefix o)) (Ok keys) ∈ h ∧ Ev (ORows string SWEEP_COLLECTIONS_SQL []) (DbOk collections) ∈ h
          ∧ Ev (ORows string SWEEP_PRESETS_SQL []) (DbOk presets) ∈ h ∧ key ∈ keys ∧ orphan_for_a_reason h keys collections presets key
  | OPut _ _ _ | ORemove _ | OBatch _ => False
  | _ => True
  end.

Definition report_adds_up (o : SweepOptions) (r : SweepReport) : Prop :=
  (sr_scanned r ≤ so_limit o ∧ sr_orphans r + sr_unrecognised r ≤ sr_scanned r ∧ sr_enqueued r = (if so_dry_run o then 0 else sr_orphans r)
   ∧ length (sr_sample r) = Nat.min SAMPLE (sr_orphans r) ∧ sr_dry_run r = so_dry_run o)%nat.
Definition sweep_end (o : SweepOptions) (h : list event) (r : attempt SweepReport) : Prop :=
  match r with Done r => report_adds_up o r | Failed _ => True end.

Section sweeping.
Context (o : SweepOptions) (keys collections presets : list string).

Definition lists_read (h : list event) : Prop :=
  Ev (OKeys (so_prefix o)) (Ok keys) ∈ h ∧ Ev (ORows string SWEEP_COLLECTIONS_SQL []) (DbOk collections) ∈ h
  ∧ Ev (ORows string SWEEP_PRESETS_SQL []) (DbOk presets) ∈ h.
Definition cache_holds (h : list event) (cache : Cache) : Prop := ∀ c r, ((c, r), false) ∈ cache → gone h c r.

Lemma lists_stay h t : lists_read h → lists_read (h ++ t).
Proof. unfold lists_read. set_solver. Qed.
Lemma cache_stays h t cache : cache_holds h cache → cache_holds (h ++ t) cache.
Proof. unfold cache_holds, gone. set_solver. Qed.

Lemma record_is_present_ok h cache c r : lists_read h → cache_holds h cache →
  obeys (sweep_rule o) h (record_is_present cache c r) (λ h' a, match a with
    | Done (there, cache') => lists_read h' ∧ cache_holds h' cache' ∧ (there = false → gone h' c r)
    | Failed _ => True
    end).
Proof.
  intros L C. unfold record_is_present. destruct (list_find _ _) as [[i [k there]]|] eqn:F.
  - apply list_find_Some in F as (E & K & _). cbn in K. subst k. cbn [obeys give]. split_and!; [done..|]. intros ->. apply C.
    by eapply list_elem_of_lookup_2.
  - apply obeys_then, obeys_lift; [|done]. intros [] _. apply obeys_then, obeys_db; [done|]. intros [rows|e]; [|done].
    cbn [obeys give]. split_and!; [by apply lists_stay| |].
    + intros c' r' [E|M]%elem_of_cons; [|by eapply cache_stays]. injection E as -> -> E. unfold gone.
      destruct rows; [|done]. set_solver.
    + intros E. destruct rows; [|done]. unfold gone. set_solver.
Qed.

Lemma orphaned_ok h cache key : lists_read h → cache_holds h cache →
  obeys (sweep_rule o) h (orphaned keys collections presets cache key) (λ h' a, match a with
    | Done (orphan, cache') => lists_read h' ∧ cache_holds h' cache' ∧ (orphan = Some true → orphan_for_a_reason h' keys collections presets key)
    | Failed _ => True
    end).
Proof.
  intros L C. unfold orphaned, orphan_for_a_reason. destruct (classify key) as [c r|c r s q|].
  - destruct (negb _) eqn:E; [cbn; split_and!; [done..|]; intros _; left; by apply negb_true_iff, bool_decide_eq_false in E|].
    apply obeys_then. eapply obeys_mono; [by apply record_is_present_ok|]. intros h' [[there cache']|e]; [|done]. intros (L' & C' & G).
    cbn. split_and!; [done..|]. intros [= N]. right. apply G. by destruct there.
  - destruct (_ || _)%bool eqn:E.
    + cbn. split_and!; [done..|]. intros _. rewrite !orb_true_iff, !negb_true_iff, !bool_decide_eq_false in E. tauto.
    + apply obeys_then. eapply obeys_mono; [by apply record_is_present_ok|]. intros h' [[there cache']|e]; [|done]. intros (L' & C' & G).
      cbn. split_and!; [done..|]. intros [= N]. do 3 right. apply G. by destruct there.
  - by cbn.
Qed.

Lemma sweep_keys_ok h rest r cache : lists_read h → cache_holds h cache → (∀ k, k ∈ rest → k ∈ keys) → report_adds_up o r →
  obeys (sweep_rule o) h (sweep_keys o keys collections presets rest r cache) (sweep_end o).
Proof.
  revert h r cache. induction rest as [|key rest IH]; intros h r cache L C I A; [done|]. cbn [sweep_keys].
  destruct (so_limit o <=? sr_scanned r)%nat eqn:T; [done|]. apply Nat.leb_gt in T.
  assert (∀ k, k ∈ rest → k ∈ keys) as I2 by set_solver. assert (key ∈ keys) as K by set_solver.
  destruct A as (A1 & A2 & A3 & A4 & A5).
  apply obeys_then. eapply obeys_mono; [by apply orphaned_ok|]. intros h' [[orphan cache']|e]; [|done]. intros (L' & C' & R).
  assert (length (if (length (sr_sample r) <? SAMPLE)%nat then sr_sample r ++ [key] else sr_sample r) = Nat.min SAMPLE (S (sr_orphans r))) as A4'.
  { destruct (_ <? _)%nat eqn:F; [apply Nat.ltb_lt in F; rewrite length_app; cbn [length]; lia|apply Nat.ltb_ge in F; lia]. }
  destruct orphan as [[]|].
  - cbv zeta. destruct (so_dry_run o) eqn:D.
    + apply IH; [done..|]. unfold report_adds_up. rewrite D. cbn. split_and!; [lia|lia|done|done|done].
    + unfold enqueue_key. apply obeys_then, obeys_then, obeys_call; [done|]. intros id. apply obeys_then, obeys_db.
      { split; [done|]. split; [done|]. exists id, key, keys, collections, presets. split; [done|].
        destruct L' as (L1 & L2 & L3). split_and!; [set_solver..|]. specialize (R eq_refl). revert R. unfold orphan_for_a_reason, gone.
        destruct (classify key); set_solver. }
      intros [n|e]; [|done]. cbn [obeys give]. apply IH; [by do 2 apply lists_stay|by do 2 apply cache_stays|done|].
      unfold report_adds_up. rewrite D. cbn. split_and!; [lia|lia|lia|done|done].
  - apply IH; [done..|]. unfold report_adds_up. cbn. split_and!; [lia|lia|done..].
  - apply IH; [done..|]. unfold report_adds_up. cbn. split_and!; [lia|lia|done..].
Qed.
End sweeping.

Lemma sweep_obeys o : obeys (sweep_rule o) [] (sweep o) (sweep_end o).
Proof.
  unfold sweep. apply obeys_then, obeys_ask; [done|]. intros [keys|e]; [|done].
  apply obeys_then, obeys_db; [done|]. intros [collections|e]; [|done]. apply obeys_then, obeys_db; [done|]. intros [presets|e]; [|done].
  apply sweep_keys_ok; [by unfold lists_read; set_solver|by intros c r ?%not_elem_of_nil|done|].
  unfold report_adds_up. cbn. split_and!; [lia|lia|by destruct (so_dry_run o)|done|done].
Qed.

(** a sweep queues orphans and nothing else. Over every answer: a dry run
    writes nothing; otherwise each write queues one key of the listed store
    that has an owner in its name, and the owner is not there: its collection
    is not one of the collections read, its record was looked for and not
    found, or, for a thumbnail, its preset or its source is gone. No object
    is removed by the sweep itself, at most as many keys as the limit are
    looked at, and the counts of the report are those of what was done. *)
Theorem sweep_queues_orphans o t r :
  runs (sweep o) t r →
  (∀ t1 sql params x t2, t = t1 ++ Ev (OExecute sql params) x :: t2 →
     so_dry_run o = false ∧ sql = ENQUEUE_FILE_SQL
     ∧ ∃ id key keys collections presets, params = [text_param id; text_param key]
        ∧ Ev (OKeys (so_prefix o)) (Ok keys) ∈ t1 ∧ Ev (ORows string SWEEP_COLLECTIONS_SQL []) (DbOk collections) ∈ t1
        ∧ Ev (ORows string SWEEP_PRESETS_SQL []) (DbOk presets) ∈ t1 ∧ key ∈ keys ∧ orphan_for_a_reason t1 keys collections presets key)
  ∧ (∀ t1 key x t2, t ≠ t1 ++ Ev (ORemove key) x :: t2)
  ∧ ∀ report, r = Done report → report_adds_up o report.
Proof.
  intros R. destruct (obeys_runs _ _ _ _ _ _ (sweep_obeys o) R) as [Q P]. split_and!.
  - intros t1 sql params x t2 E. exact (P t1 _ _ x t2 E).
  - intros t1 key x t2 E. exact (P t1 _ _ x t2 E).
  - by intros report ->.
Qed.

(** * Concrete inputs *)

Section samples.
#[local] Existing Instance Samples.sample_json_text.
#[local] Instance sample_digest : Sha256 := λ s, [Z.of_nat (String.length s); 255%Z].

Definition sample_files : FilesState := {| fs_prefix := ""; fs_public_base_url := None; fs_backend := "local"; fs_limits := default_limits |}.
Definition sample_png : string := PNG_SIGNATURE +:+ (byte_string [0; 0; 0; 13]%N +:+ ("IHDR" +:+ byte_string [0; 0; 0; 2; 0; 0; 0; 3; 8; 6; 0; 0; 0]%N)).
Definition no_resize (source : string) (f : ImageFormat) (p : ImagePreset) : result string := Err Unsupported.
Definition any_header (s : string) : bool := true.
Definition no_message (e : Error) : string := "".
Definition sample_part : Part :=
  {| pt_name := Some "file"; pt_file_name := Some "../a.png"; pt_type := Some "text/html"; pt_text := Err Invalid; pt_bytes := Ok sample_png |}.
Definition sample_file (id path : string) : FileRow :=
  {| f_id := id; f_filename := "a.png"; f_extension := "png"; f_mime_type := "image/png"; f_size := 33; f_storage_path := path;
     f_storage_backend := "local"; f_collection_name := ""; f_record_id := ""; f_field_name := ""; f_variants := JObject [];
     f_status := "pending"; f_origin := "field"; f_original_name := Some "a.png"; f_width := Some 2%Z; f_height := Some 3%Z;
     f_checksum := None; f_uploaded_by := "u1"; f_attached_at := None; f_created_at := ""; f_updated_at := "" |}.
Definition sample_user : Principal :=
  from_claims {| c_sub := "u1"; c_col := "c"; c_name := "users"; c_email := "a@b.c"; c_typ := SAuth; c_iat := 0; c_exp := 10; c_kid := ""; c_tkey := "" |} [].

Ltac answer x := exists x; eexists; split; [reflexivity|].

Lemma uploads_are_images_witness : ∃ t r,
  runs (upload no_resize sample_files [] sample_user [Ok sample_part]) t (Done r)
  ∧ (∃ t1 x t2, t = t1 ++ Ev (OPut "library/i1/a.png" "image/png" sample_png) x :: t2
      ∧ may_store sample_files t1 "library/i1/a.png" "image/png" sample_png)
  ∧ ∃ params n, Ev (OExecute INSERT_FILE_SQL params) (DbOk n) ∈ t.
Proof.
  assert (∃ t r, runs (upload no_resize sample_files [] sample_user [Ok sample_part]) t (Done r)
    ∧ ∃ t2, t = [Ev ONewId "i1"] ++ Ev (OPut "library/i1/a.png" "image/png" sample_png) (Ok ()) :: t2) as (t & r & R & t2 & E).
  { eexists _, _. split.
    - answer "i1". answer (Ok () : result unit). answer (Ok () : result unit). answer "f1". answer (DbOk 1%Z).
      answer (DbOk (Some (sample_file "f1" "library/i1/a.png"))). answer (DbOk (A:=list PresetRow) []). split; reflexivity.
    - by eexists. }
  destruct (uploads_are_images no_resize sample_files [] sample_user [Ok sample_part] t (Done r) R) as (P & _ & Q).
  exists t, r. split_and!; [exact R| |exact Q]. eexists _, _, t2. split; [exact E|]. exact (proj2 (P _ _ _ _ _ _ E)).
Defined.

Lemma deletion_is_authorised_witness : ∃ t,
  runs (remove_file sample_user "f1" true) t (Done (AEmpty 204)) ∧ existsb committed t = true
  ∧ ∀ sql params x, Ev (OExecute sql params) x ∈ t → sql = DELETE_FILE_SQL.
Proof.
  assert (∃ t, runs (remove_file sample_user "f1" true) t (Done (AEmpty 204))) as [t R].
  { eexists. answer (Ok () : result unit). answer (DbOk ()). answer (DbOk ()). answer (DbOk (Some (sample_file "f1" "library/i1/a.png"))).
    answer (DbOk ()). answer (DbOk (A:=list FileRef) []). answer (DbOk ()). answer (DbOk (Some (sample_file "f1" "library/i1/a.png"))).
    answer (DbOk 1%Z). answer (DbOk ()). split; reflexivity. }
  destruct (deletion_is_authorised sample_user "f1" true t (Done (AEmpty 204)) R) as (P & _ & _ & Q).
  exists t. split_and!; [exact R|by apply Q|]. intros sql params x (t1 & t2 & E)%list_elem_of_split. by destruct (P _ _ _ _ _ E) as (_ & ? & _).
Defined.

Definition sample_sweep : SweepOptions := {| so_dry_run := false; so_limit := 10; so_prefix := "" |}.
Definition sample_stored : list string := ["posts/p1/abcDEF123456789_a.png"; "old/p1/abcDEF123456789_a.png"; "odd"].

Lemma sweep_queues_orphans_witness : ∃ t r,
  runs (sweep sample_sweep) t (Done r) ∧ report_adds_up sample_sweep r ∧ sr_sample r = ["old/p1/abcDEF123456789_a.png"].
Proof.
  assert (∃ t r, runs (sweep sample_sweep) t (Done r) ∧ sr_sample r = ["old/p1/abcDEF123456789_a.png"]) as (t & r & R & E).
  { eexists _, _. split.
    - answer (Ok sample_stored : result (list string)). answer (DbOk ["posts"]). answer (DbOk (A:=list string) []). answer (DbOk [()]).
      answer "i2". answer (DbOk 1%Z). split; reflexivity.
    - reflexivity. }
  destruct (sweep_queues_orphans sample_sweep t (Done r) R) as (_ & _ & Q). exists t, r. split_and!; [exact R|by apply Q|exact E].
Defined.

(** A file of the library has no record its key could name, so a sweep queues
    it, and with it every object an editor uploaded. *)
Example library_uploads_are_swept : ∃ t r,
  runs (sweep {| so_dry_run := false; so_limit := 10; so_prefix := "" |}) t (Done r)
  ∧ Ev (OKeys "") (Ok [pending_key sample_id "" "a.png"]) ∈ t
  ∧ Ev (OExecute ENQUEUE_FILE_SQL [text_param "i2"; text_param (pending_key sample_id "" "a.png")]) (DbOk 1%Z) ∈ t.
Proof.
  eexists _, _. split; [|split].
  - answer (Ok [pending_key sample_id "" "a.png"] : result (list string)). answer (DbOk ["posts"]). answer (DbOk (A:=list string) []).
    answer "i2". answer (DbOk 1%Z). split; reflexivity.
  - left.
  - do 4 right. left.
Qed.

(** An upload that was reserved and not completed is served as the client sent
    it, with the type the client gave it, from the server's own origin. *)
Example presigned_upload_is_served_unchecked : ∃ t,
  runs (serve_by_id no_resize any_header "f1" None None) t (Done (AImage "text/html" "<script>"))
  ∧ Ev (OGet "library/i1/a.png") (Ok (Some {| so_content_type := "text/html"; so_body := "<script>" |})) ∈ t.
Proof.
  eexists. split.
  - answer (Ok () : result unit). answer (DbOk (Some (sample_file "f1" "library/i1/a.png"))).
    answer (Ok (Some {| so_content_type := "text/html"; so_body := "<script>" |})). split; reflexivity.
  - do 2 right. left.
Qed.

(** Completing an upload that never arrived leaves its row. *)
Example complete_keeps_the_reservation : ∃ t,
  runs (complete no_resize sample_files sample_user "f1" None) t (Failed (Other NotFound))
  ∧ ∀ sql params x, Ev (OExecute sql params) x ∉ t.
Proof.
  eexists. split.
  - answer (Ok () : result unit). answer (DbOk (Some (sample_file "f1" "library/i1/a.png"))). answer (Ok None : result (option StoredObject)).
    split; reflexivity.
  - intros sql params x M. by repeat (apply elem_of_cons in M as [M|M]; [discriminate|]); apply elem_of_nil in M.
Qed.

(** The number of pages is rounded down, the offset of a far page wraps below
    zero, and a preset with an x in its name is read as a size. *)
Example library_pages : total_pages 51 50 = 1%Z ∧ total_pages 101 50 = 2%Z.
Proof. split; reflexivity. Qed.
Example far_page_is_negative : 
  list_offset {| q_page := 2 ^ 62; q_per_page := 3; q_collection := None; q_record := None; q_field := None; q_mime := None; q_search := None;
                 q_origin := None; q_status := None; q_uploaded_by := None; q_restriction := None |} = (- 2 ^ 62 - 3)%Z.
Proof. reflexivity. Qed.
Example preset_named_as_a_size t r : runs (variant_preset "box") t r → r = Failed (Other Invalid).
Proof. by intros [_ ->]. Qed.
End samples.
