(* ===== verification/Backup.v ===== *)
(** Backup archives: their format, and what an import or a restore does,
    [crates/db/src/backup.rs].

    The operations on the schema are an interface, [SchemaOps], which
    Collections.v implements; the container of an archive is the [zip] crate's,
    so an archive is the list of its entries. *)
From S2P Require Import Prelude CoreError Json Types Ddl Compile Sql Rls Effects History ViewBuilder Collections CollectionsApi Samples.

Local Set Warnings "-register-all,-clear-no-such-hyp".

(** * Dates *)

(** [civil_from_days] and [format_rfc3339]. *)
Definition civil_from_days (days : Z) : Z * Z * Z :=
  let shifted := (days + 719468)%Z in
  let era := (shifted / 146097)%Z in
  let day_of_era := (shifted mod 146097)%Z in
  let year_of_era := ((day_of_era - day_of_era / 1460 + day_of_era / 36524 - day_of_era / 146096) / 365)%Z in
  let year := (year_of_era + era * 400)%Z in
  let day_of_year := (day_of_era - (365 * year_of_era + year_of_era / 4 - year_of_era / 100))%Z in
  let march_month := ((5 * day_of_year + 2) / 153)%Z in
  let day := (day_of_year - (153 * march_month + 2) / 5 + 1)%Z in
  let month := (if march_month <? 10 then march_month + 3 else march_month - 9)%Z in
  ((if month <=? 2 then year + 1 else year)%Z, month, day).

(** [{n:0width$}], a sign before the zeros. *)
Definition zeros (n : nat) : string := Nat.iter n (String "0"%char) "".
Definition padded (width : nat) (n : Z) : string :=
  if (n <? 0)%Z then "-" +:+ zeros (width - 1 - String.length (pretty (- n)%Z)) +:+ pretty (- n)%Z
  else zeros (width - String.length (pretty n)) +:+ pretty n.
Definition format_rfc3339 (seconds : Z) : string :=
  let days := (seconds / 86400)%Z in
  let time := (seconds mod 86400)%Z in
  let '(year, month, day) := civil_from_days days in
  padded 4 year +:+ "-" +:+ padded 2 month +:+ "-" +:+ padded 2 day +:+ "T" +:+ padded 2 (time / 3600) +:+ ":"
  +:+ padded 2 (time mod 3600 / 60) +:+ ":" +:+ padded 2 (time mod 60) +:+ "Z".

(** * The archive *)

Definition ARCHIVE_FORMAT : string := "lazypock-archive".
Definition ARCHIVE_FORMAT_VERSION : Z := 1.
Definition MANIFEST_ENTRY : string := "manifest.json".
Definition SCHEMA_ENTRY : string := "schema.json".
Definition DATA_PREFIX : string := "data/".
Definition FILES_ENTRY : string := "files.ndjson".

Definition is_system_collection (name : string) : bool := starts_with "_" name.

(** [struct ArchiveCollection]. *)
Record ArchiveCollection := {
  ac_name : string; ac_type : option string; ac_schema : list Value; ac_rules : option Value; ac_options : option Value; ac_records : list Value;
}.
Record ManifestCollection := { mc_name : string; mc_type : option string; mc_records : Z }.
Record ManifestFiles := { mf_total : Z; mf_bytes : Z; mf_missing : Z }.
Record ManifestTotals := { mt_collections : Z; mt_records : Z; mt_files : Z }.
Record Manifest := {
  m_format : string; m_version : Z; m_lazypock : option string; m_created : option string; m_collections : list ManifestCollection;
  m_files : option ManifestFiles; m_totals : option ManifestTotals;
}.
Record Archive := { a_manifest : Manifest; a_schema : list ArchiveCollection; a_data : list (string * list Value) }.

(** ** As JSON *)

(** [Serialize]; objects have their keys in order. *)
Definition of_option {A} (f : A → Value) (v : option A) : Value := match v with Some v => f v | None => JNull end.
Definition of_int (n : Z) : Value := JNumber (if (n <? 0)%Z then NegInt n else PosInt n).
Definition collection_value (c : ArchiveCollection) : Value :=
  JObject [("name", JString (ac_name c)); ("options", of_option id (ac_options c)); ("records", JArray (ac_records c));
           ("rules", of_option id (ac_rules c)); ("schema", JArray (ac_schema c)); ("type", of_option JString (ac_type c))].
Definition schema_value (l : list ArchiveCollection) : Value := JObject [("collections", JArray (collection_value <$> l))].
Definition manifest_collection_value (c : ManifestCollection) : Value :=
  JObject [("name", JString (mc_name c)); ("records", of_int (mc_records c)); ("type", of_option JString (mc_type c))].
Definition manifest_files_value (f : ManifestFiles) : Value :=
  JObject [("bytes", of_int (mf_bytes f)); ("missing", of_int (mf_missing f)); ("total", of_int (mf_total f))].
Definition manifest_totals_value (t : ManifestTotals) : Value :=
  JObject [("collections", of_int (mt_collections t)); ("files", of_int (mt_files t)); ("records", of_int (mt_records t))].
Definition manifest_value (m : Manifest) : Value :=
  JObject [("collections", JArray (manifest_collection_value <$> m_collections m)); ("created_at", of_option JString (m_created m));
           ("files", of_option manifest_files_value (m_files m)); ("format", JString (m_format m)); ("format_version", of_int (m_version m));
           ("lazypock_version", of_option JString (m_lazypock m)); ("totals", of_option manifest_totals_value (m_totals m))].

(** [Deserialize]: a required key, one with a default, and an optional one,
    which may be null. *)
Definition text_value (v : Value) : result string := ok_or (as_str v) Invalid.
Definition array_value (v : Value) : result (list Value) := ok_or (as_array v) Invalid.
Definition uint_value (bound : Z) (v : Value) : result Z :=
  match v with JNumber (PosInt n) => if (n <? bound)%Z then Ok n else Err Invalid | _ => Err Invalid end.
Definition required_key {A} (key : string) (f : Value → result A) (l : list (string * Value)) : result A := v ← ok_or (assoc key l) Invalid; f v.
Definition defaulted_key {A} (key : string) (d : A) (f : Value → result A) (l : list (string * Value)) : result A :=
  match assoc key l with None => Ok d | Some v => f v end.
Definition optional_key {A} (key : string) (f : Value → result A) (l : list (string * Value)) : result (option A) :=
  match assoc key l with None | Some JNull => Ok None | Some v => Some <$> f v end.
Definition object_of (v : Value) : result (list (string * Value)) := ok_or (as_object v) Invalid.

(** [ArchiveCollection::deserialize]: [fields] before [schema], and a view's
    definition folded into the options. *)
Definition entry_or_insert (key : string) (value : option Value) (l : list (string * Value)) : list (string * Value) :=
  match value, assoc key l with Some v, None => l ++ [(key, v)] | _, _ => l end.
Definition decode_archive_collection (v : Value) : result ArchiveCollection :=
  l ← object_of v;
  name ← required_key "name" text_value l;
  type ← optional_key "type" text_value l;
  schema ← optional_key "schema" array_value l;
  fields ← optional_key "fields" array_value l;
  rules ← optional_key "rules" Ok l;
  options ← optional_key "options" Ok l;
  view_query ← optional_key "viewQuery" text_value l;
  view_builder ← optional_key "viewBuilder" Ok l;
  records ← defaulted_key "records" [] array_value l;
  let options := default (JObject []) options in
  let options := match options with
                 | JObject o => JObject (entry_or_insert "view_builder" view_builder (entry_or_insert "view_query" (JString <$> view_query) o))
                 | v => v
                 end in
  Ok {| ac_name := name; ac_type := type; ac_schema := (let fs := default [] fields in if decide (fs = []) then default [] schema else fs);
        ac_rules := rules; ac_options := Some options; ac_records := records |}.
Definition decode_schema (v : Value) : result (list ArchiveCollection) :=
  l ← object_of v; items ← required_key "collections" array_value l; try_map decode_archive_collection items.
Definition U64 : Z := 2 ^ 64.
Definition decode_manifest_collection (v : Value) : result ManifestCollection :=
  l ← object_of v;
  name ← required_key "name" text_value l; type ← optional_key "type" text_value l; records ← defaulted_key "records" 0%Z (uint_value U64) l;
  Ok {| mc_name := name; mc_type := type; mc_records := records |}.
Definition decode_manifest_files (v : Value) : result ManifestFiles :=
  l ← object_of v;
  total ← defaulted_key "total" 0%Z (uint_value U64) l; bytes ← defaulted_key "bytes" 0%Z (uint_value U64) l;
  missing ← defaulted_key "missing" 0%Z (uint_value U64) l;
  Ok {| mf_total := total; mf_bytes := bytes; mf_missing := missing |}.
Definition decode_manifest_totals (v : Value) : result ManifestTotals :=
  l ← object_of v;
  collections ← defaulted_key "collections" 0%Z (uint_value U64) l; records ← defaulted_key "records" 0%Z (uint_value U64) l;
  files ← defaulted_key "files" 0%Z (uint_value U64) l;
  Ok {| mt_collections := collections; mt_records := records; mt_files := files |}.
Definition decode_manifest (v : Value) : result Manifest :=
  l ← object_of v;
  format ← required_key "format" text_value l;
  version ← required_key "format_version" (uint_value (2 ^ 32)) l;
  lazypock ← optional_key "lazypock_version" text_value l;
  created ← optional_key "created_at" text_value l;
  collections ← defaulted_key "collections" [] (λ v, items ← array_value v; try_map decode_manifest_collection items) l;
  files ← optional_key "files" decode_manifest_files l;
  totals ← optional_key "totals" decode_manifest_totals l;
  Ok {| m_format := format; m_version := version; m_lazypock := lazypock; m_created := created; m_collections := collections;
        m_files := files; m_totals := totals |}.

(** * Payloads *)

(** [data.iter().find(...)], and the definition of a name. *)
Definition records_of (a : Archive) (name : string) : option (list Value) := assoc name (a_data a).
Definition definition_of (a : Archive) (name : string) : result ArchiveCollection :=
  ok_or (head (filter (λ c, ac_name c = name) (a_schema a))) Invalid.
Definition record_count (a : Archive) : nat := sum_list (length ∘ snd <$> a_data a).

(** [to_payload]. *)
Definition with_records (c : ArchiveCollection) (records : list Value) : ArchiveCollection :=
  {| ac_name := ac_name c; ac_type := ac_type c; ac_schema := ac_schema c; ac_rules := ac_rules c; ac_options := ac_options c; ac_records := records |}.
Definition to_payload (a : Archive) : Value :=
  schema_value ((λ c, with_records c (default [] (records_of a (ac_name c)))) <$> a_schema a).

(** [archive_from_payload], written by the version [server] at [now]. *)
Definition records_in (data : list (string * list Value)) (name : string) : Z := Z.of_nat (length (default [] (assoc name data))).
Definition fresh_manifest (server now : string) (collections : list ManifestCollection) : Manifest :=
  {| m_format := ARCHIVE_FORMAT; m_version := ARCHIVE_FORMAT_VERSION; m_lazypock := Some server; m_created := Some now; m_collections := collections;
     m_files := Some {| mf_total := 0; mf_bytes := 0; mf_missing := 0 |};
     m_totals := Some {| mt_collections := Z.of_nat (length collections); mt_records := foldr Z.add 0%Z (mc_records <$> collections); mt_files := 0 |} |}.
Definition archive_from_payload (server now : string) (payload : Value) : result Archive :=
  envelope ← match payload with
             | JArray _ => Ok (JObject [("collections", payload)])
             | JObject l => match assoc "collections" l with Some _ => Ok payload | None => Err Invalid end
             | _ => Err Invalid
             end;
  schema ← decode_schema envelope;
  let data := (λ c, (ac_name c, ac_records c)) <$> schema in
  let collections := (λ c, {| mc_name := ac_name c; mc_type := ac_type c; mc_records := records_in data (ac_name c) |}) <$> schema in
  Ok {| a_manifest := fresh_manifest server now collections; a_schema := (λ c, with_records c []) <$> schema; a_data := data |}.

(** * The container *)

(** [start]: the [zip] writer refuses a name it has. *)
Definition add_entry (entries : list (string * string)) (name text : string) : result (list (string * string)) :=
  match assoc name entries with Some _ => Err Internal | None => Ok (entries ++ [(name, text)]) end.

Section container.
Context `{JsonText} (parse_json : string → option Value).

(** [write]: the manifest first, a line per record. *)
Definition data_entry (name : string) : string := DATA_PREFIX +:+ name +:+ ".ndjson".
Definition lines_text (records : list Value) : string := foldr (λ v s, json_text v +:+ newline +:+ s) "" records.
Definition write_archive (a : Archive) : result (list (string * string)) :=
  entries ← add_entry [] MANIFEST_ENTRY (json_text (manifest_value (a_manifest a)));
  entries ← add_entry entries SCHEMA_ENTRY (json_text (schema_value (a_schema a)));
  entries ← try_fold (λ entries '(name, records), add_entry entries (data_entry name) (lines_text records)) entries (a_data a);
  add_entry entries FILES_ENTRY "".

(** [read_text] and [read_json]. *)
Definition read_json (entries : list (string * string)) (name : string) : result Value :=
  text ← ok_or (assoc name entries) Invalid; ok_or (parse_json text) Invalid.

(** [str::lines]: a line ends at a newline, with the carriage return before it;
    what follows the last newline is a line when it is not empty. *)
Definition without_cr (s : string) : string := default s (strip_suffix (String "013"%char "") s).
Definition text_lines (s : string) : list string :=
  let parts := split_on "010"%char s in
  without_cr <$> (match last parts with Some EmptyString => take (length parts - 1) parts | _ => parts end).
Definition read_records (text : string) : result (list Value) :=
  try_map (λ line, ok_or (parse_json line) Invalid) (filter (λ line, trim line ≠ "") (text_lines text)).

(** [read]. *)
Definition read_archive (entries : list (string * string)) : result Archive :=
  manifest ← (v ← read_json entries MANIFEST_ENTRY; decode_manifest v);
  if decide (m_format manifest ≠ ARCHIVE_FORMAT) then Err Invalid
  else if decide (ARCHIVE_FORMAT_VERSION < m_version manifest)%Z then Err Invalid
  else
    schema ← (v ← read_json entries SCHEMA_ENTRY; decode_schema v);
    data ← try_map (λ c,
      match assoc (data_entry (ac_name c)) entries with
      | None => Ok (ac_name c, [])
      | Some text => records ← read_records text; Ok (ac_name c, records)
      end) schema;
    Ok {| a_manifest := manifest; a_schema := schema; a_data := data |}.
End container.

(** * What an import would do *)

(** [enum ImportAction], [plan], [writable]. *)
Inductive ImportAction := ICreate | IUpdate | ISkip.
Definition plan_action (existing : list string) (name : string) : ImportAction :=
  if is_system_collection name then ISkip else if decide (name ∈ existing) then IUpdate else ICreate.
Definition import_plan (archive : list ArchiveCollection) (existing : list string) : list (string * ImportAction) :=
  (λ c, (ac_name c, plan_action existing (ac_name c))) <$> archive.
Definition is_writable (action : ImportAction) : bool := match action with ISkip => false | _ => true end.
Definition writable (actions : list (string * ImportAction)) : list (string * ImportAction) := filter (λ e, is_writable e.2 = true) actions.

(** [enum AtomicMode], [struct ImportOptions] and [struct Preflight]. *)
Inductive AtomicMode := Batch | PerCollection | Continue.
#[export] Instance AtomicMode_eq_dec : EqDecision AtomicMode.
Proof. solve_decision. Defined.
Definition atomic_parse (value : string) : result AtomicMode :=
  if decide (value = "batch") then Ok Batch
  else if decide (value = "per_collection" ∨ value = "perCollection") then Ok PerCollection
  else if decide (value = "false" ∨ value = "none" ∨ value = "continue") then Ok Continue
  else Err Invalid.
Definition atomic_as_str (m : AtomicMode) : string := match m with Batch => "batch" | PerCollection => "per_collection" | Continue => "false" end.
Record ImportOptions := { io_atomic : AtomicMode; io_confirm : bool; io_threshold : Z; io_delete_missing : bool }.
Definition default_import_options : ImportOptions := {| io_atomic := Batch; io_confirm := false; io_threshold := 10000; io_delete_missing := false |}.
Record Preflight := { pf_collections : list ManifestCollection; pf_skipped : list string; pf_total : Z; pf_requires_confirmation : bool }.
Definition type_of (a : Archive) (name : string) : option string :=
  match definition_of a name with Ok c => ac_type c | Err _ => None end.
Definition preflight (a : Archive) (o : ImportOptions) : Preflight :=
  let actions := import_plan (a_schema a) [] in
  let collections := (λ '(name, _), {| mc_name := name; mc_type := type_of a name; mc_records := records_in (a_data a) name |}) <$> writable actions in
  let total := foldr Z.add 0%Z (mc_records <$> collections) in
  {| pf_collections := collections; pf_skipped := fst <$> filter (λ e, is_writable e.2 = false) actions; pf_total := total;
     pf_requires_confirmation := (io_threshold o <? total)%Z && negb (io_confirm o) |}.

(** * Applying an archive *)

(** What the import asks of the operations on the schema. *)
Class SchemaOps := {
  schema_list : W (list Collection);
  schema_create : CreateCollection → W Collection;
  schema_update : string → UpdateCollection → W Collection;
  schema_delete : string → bool → W Collection;
}.

(** [parse_collection_type], [field_to_create], [declared_fields] and
    [declared_field_names]. *)
Definition parse_archive_type (value : option string) : result CollectionType :=
  let value := default "base" value in
  if decide (value = "base") then Ok CBase
  else if decide (value = "auth") then Ok CAuth
  else if decide (value = "view") then Ok CView
  else Err Invalid.
Definition field_to_create (t : CollectionType) (v : Value) : result (option CreateField) :=
  name ← ok_or (get v "name" ≫= as_str) Invalid;
  if default false (get v "system" ≫= as_bool) || is_builtin_column t name then Ok None
  else Some <$> (match decode_field v with Ok f => Ok f | Err _ => Err Invalid end).
Definition order_of (position : Z) (f : CreateField) : Z :=
  match get (nf_options f) "sort_order" with
  | Some (JNumber (PosInt n)) => if (n <? 2 ^ 63)%Z then n else position
  | Some (JNumber (NegInt n)) => n
  | _ => position
  end.
Definition order_le (a b : Z * Z * CreateField) : Prop := (a.1.1 < b.1.1 ∨ a.1.1 = b.1.1 ∧ a.1.2 ≤ b.1.2)%Z.
#[export] Instance order_le_dec : RelDecision order_le := λ a b, _.
Fixpoint keyed_fields (t : CollectionType) (position : Z) (l : list Value) : result (list (Z * Z * CreateField)) :=
  match l with
  | [] => Ok []
  | v :: l =>
      f ← field_to_create t v;
      rest ← keyed_fields t (position + 1) l;
      Ok (match f with Some f => (order_of position f, position, f) :: rest | None => rest end)
  end.
Definition declared_fields (c : ArchiveCollection) (t : CollectionType) : result (list CreateField) :=
  keyed ← keyed_fields t 0 (ac_schema c); Ok (snd <$> merge_sort order_le keyed).
Definition declared_field_names (c : ArchiveCollection) : list string := omap (λ f, get f "name" ≫= as_str) (ac_schema c).

(** [undeclared_fields], [create_collection] and [apply_definition]. *)
Definition undeclared_names (a : Archive) (name : string) (c : Collection) : result (list string) :=
  definition ← definition_of a name; Ok (field_name <$> undeclared_fields c (declared_field_names definition)).

Section apply.
Context `{SchemaOps}.

Definition create_collection (a : Archive) (name : string) : W unit :=
  lift (definition_of a name) ≫= λ definition,
  lift (parse_archive_type (ac_type definition)) ≫= λ t,
  lift (declared_fields definition t) ≫= λ fs,
  schema_create {| nc_name := name; nc_type := t; nc_fields := fs; nc_rules := default (JObject []) (ac_rules definition);
                   nc_options := default (JObject []) (ac_options definition); adopt_existing_table := false |} ≫= λ _, give tt.
Definition apply_definition (a : Archive) (name : string) (delete_missing : bool) : W unit :=
  lift (definition_of a name) ≫= λ definition,
  lift (parse_archive_type (ac_type definition)) ≫= λ t,
  lift (if is_table t then Some <$> declared_fields definition t else Ok None) ≫= λ fs,
  schema_update name {| up_rules := ac_rules definition; up_options := ac_options definition; up_fields := fs;
                        delete_missing_fields := delete_missing |} ≫= λ _, give tt.

(** [table_columns] and [upsert]. *)
Definition TABLE_COLUMNS_SQL : string :=
  "select column_name from information_schema.columns where table_name = $1 and table_schema = current_schema()".
Definition upsert_sql (table : string) (declared : list string) : string :=
  let assignments := join ", " ((λ column, quote_ident column +:+ " = excluded." +:+ quote_ident column) <$> filter (λ column, column ≠ "id") declared) in
  "insert into " +:+ quote_ident table +:+ " (" +:+ join ", " (quote_ident <$> declared) +:+ ") select "
  +:+ join ", " ((λ column, "row." +:+ quote_ident column) <$> declared) +:+ " from jsonb_populate_record(null::" +:+ quote_ident table
  +:+ ", $1::jsonb) as row on conflict (" +:+ dq +:+ "id" +:+ dq +:+ ") do "
  +:+ (if decide (assignments = "") then "nothing" else "update set " +:+ assignments).
Definition upsert (table : string) (columns : list string) (record : Value) : W unit :=
  lift (ok_or (as_object record) Invalid) ≫= λ object,
  lift (ok_or (assoc "id" object) Invalid) ≫= λ _,
  let declared := filter (λ column, column ∈ columns) object.*1 in
  Do (OExecute (upsert_sql table declared) [PJson record]) (λ r, match r with DbOk _ => give tt | DbErr _ => refuse Invalid end).

(** [apply_records]. *)
Definition apply_records (a : Archive) (name : string) : W unit :=
  lift (definition_of a name) ≫= λ definition,
  lift (parse_archive_type (ac_type definition)) ≫= λ t,
  if decide (t = CView) then give tt
  else match records_of a name with
       | None | Some [] => give tt
       | Some records =>
           db (ORows string TABLE_COLUMNS_SQL [PText (Some name)]) ≫= λ columns,
           for_each (upsert name columns) records
       end.

(** [struct ImportedCollection], [imported_of] and [struct ImportReport]. *)
Record ImportedCollection := { ic_name : string; ic_type : option string; ic_records : Z; ic_fields_removed : list string }.
Definition imported_of (a : Archive) (name : string) (fields_removed : list string) : ImportedCollection :=
  {| ic_name := name; ic_type := type_of a name; ic_records := records_in (a_data a) name; ic_fields_removed := fields_removed |}.
Record ImportReport := { ir_imported : list ImportedCollection; ir_skipped : list string; ir_errors : list string; ir_removed : list string }.
Inductive ImportOutcome := Applied (r : ImportReport) | NeedsConfirmation (p : Preflight).

(** The definitions, with the columns each one is about to lose. *)
Definition find_named (current : list Collection) (name : string) : option Collection := head (filter (λ c, collection_name c = name) current).
Definition dropped_fields (a : Archive) (current : list Collection) (name : string) (delete_missing : bool) : result (list string) :=
  match find_named current name with
  | Some c => if delete_missing then undeclared_names a name c else Ok []
  | None => Ok []
  end.
Fixpoint import_definitions (a : Archive) (o : ImportOptions) (current : list Collection) (actions : list (string * ImportAction))
    (removed : list (string * list string)) : W (list (string * list string)) :=
  match actions with
  | [] => give removed
  | (name, ICreate) :: actions => create_collection a name ≫= λ _, import_definitions a o current actions removed
  | (name, IUpdate) :: actions =>
      lift (dropped_fields a current name (io_delete_missing o)) ≫= λ dropped,
      apply_definition a name (io_delete_missing o) ≫= λ _,
      import_definitions a o current actions (removed ++ [(name, dropped)])
  | (_, ISkip) :: actions => import_definitions a o current actions removed
  end.

(** The records: all in one transaction, or one each. *)
Definition removed_for (removed : list (string * list string)) (name : string) : list string := default [] (assoc name removed).
Fixpoint import_batch (a : Archive) (removed : list (string * list string)) (actions : list (string * ImportAction)) (imported : list ImportedCollection)
    : W (list ImportedCollection) :=
  match actions with
  | [] => give imported
  | (name, _) :: actions => apply_records a name ≫= λ _, import_batch a removed actions (imported ++ [imported_of a name (removed_for removed name)])
  end.
(** The names that were not attempted after a failure. *)
Definition not_attempted (all : list (string * ImportAction)) (imported : list ImportedCollection) (errors : list string) : list string :=
  foldl (λ errors name, if decide (name ∉ (ic_name <$> imported) ∧ name ∉ errors) then errors ++ [name] else errors) errors all.*1.
Fixpoint import_each (a : Archive) (mode : AtomicMode) (removed : list (string * list string)) (all actions : list (string * ImportAction))
    (imported : list ImportedCollection) (errors : list string) : W (list ImportedCollection * list string) :=
  match actions with
  | [] => give (imported, errors)
  | (name, _) :: actions =>
      db OBegin ≫= λ _,
      pbind (apply_records a name) (λ r,
        match r with
        | Done _ => Do OCommit (λ r,
            match r with
            | DbOk _ => import_each a mode removed all actions (imported ++ [imported_of a name (removed_for removed name)]) errors
            | DbErr _ => import_each a mode removed all actions imported (errors ++ [name])
            end)
        | Failed _ => Do ORollback (λ _,
            if decide (mode = PerCollection) then give (imported, not_attempted all imported (errors ++ [name]))
            else import_each a mode removed all actions imported (errors ++ [name]))
        end)
  end.

(** [drop_undeclared_collections]. *)
Definition undeclared_collections (a : Archive) (current : list Collection) : list string :=
  filter (λ name, is_system_collection name = false ∧ name ∉ (ac_name <$> a_schema a)) (collection_name <$> current).
Fixpoint drop_collections (names : list string) : W unit :=
  match names with [] => give tt | name :: names => schema_delete name true ≫= λ _, drop_collections names end.

(** [import]. *)
Definition import (a : Archive) (o : ImportOptions) : W ImportOutcome :=
  schema_list ≫= λ current,
  let actions := writable (import_plan (a_schema a) (collection_name <$> current)) in
  let p := preflight a o in
  if pf_requires_confirmation p then give (NeedsConfirmation p)
  else
    import_definitions a o current actions [] ≫= λ removed,
    (if decide (io_atomic o = Batch)
     then db OBegin ≫= λ _, import_batch a removed actions [] ≫= λ imported, db OCommit ≫= λ _, give (imported, [])
     else import_each a (io_atomic o) removed actions actions [] []) ≫= λ '(imported, errors),
    (if io_delete_missing o then drop_collections (undeclared_collections a current) ≫= λ _, give (undeclared_collections a current)
     else give []) ≫= λ dropped,
    give (Applied {| ir_imported := imported; ir_skipped := pf_skipped p; ir_errors := errors; ir_removed := dropped |}).

(** * Restoring a snapshot *)

(** The collections whose rows a restore replaces. *)
Definition data_names (a : Archive) (names : list string) : result (list string) :=
  (@concat string) <$> try_map (λ name,
    definition ← definition_of a name;
    t ← parse_archive_type (ac_type definition);
    Ok (if decide (t = CView) then [] else [name])) names.
Fixpoint restore_definitions (a : Archive) (current : list Collection) (existing : list string) (names : list string)
    (removed : list (string * list string)) : W (list (string * list string)) :=
  match names with
  | [] => give removed
  | name :: names =>
      if decide (name ∉ existing) then create_collection a name ≫= λ _, restore_definitions a current existing names removed
      else
        lift (dropped_fields a current name true) ≫= λ dropped,
        apply_definition a name true ≫= λ _,
        restore_definitions a current existing names (removed ++ [(name, dropped)])
  end.
Definition trigger_sql (switch name : string) : string := "alter table " +:+ quote_ident name +:+ " " +:+ switch +:+ " trigger all".
Definition run_batch (sql : string) : W unit := db (OBatch sql).

(** [restore_snapshot]. *)
Definition restore_snapshot (server now : string) (payload : Value) : W ImportReport :=
  lift (archive_from_payload server now payload) ≫= λ a,
  let names := filter (λ name, is_system_collection name = false) (ac_name <$> a_schema a) in
  schema_list ≫= λ current,
  let surplus := filter (λ name, is_system_collection name = false ∧ name ∉ names) (collection_name <$> current) in
  drop_collections surplus ≫= λ _,
  schema_list ≫= λ after,
  restore_definitions a current (collection_name <$> after) names [] ≫= λ removed,
  lift (data_names a names) ≫= λ tables,
  db OBegin ≫= λ _,
  for_each (λ name, run_batch (trigger_sql "disable" name)) tables ≫= λ _,
  for_each (λ name, run_batch ("delete from " +:+ quote_ident name)) tables ≫= λ _,
  for_each (λ name, apply_records a name) tables ≫= λ _,
  for_each (λ name, run_batch (trigger_sql "enable" name)) names ≫= λ _,
  db OCommit ≫= λ _,
  give {| ir_imported := (λ name, imported_of a name (removed_for removed name)) <$> tables; ir_skipped := []; ir_errors := []; ir_removed := surplus |}.

(** * Exporting *)

Definition ROWS_SQL (name : string) : string := "select to_jsonb(t) as row from " +:+ quote_ident name +:+ " t order by id".
(** [Field]'s [Serialize]. *)
Definition export_field (f : Field) : Value :=
  JObject [("collectionId", JString (field_collection_id f)); ("id", JString (field_id f)); ("name", JString (field_name f));
           ("options", field_options f); ("required", JBool (required f)); ("sort_order", of_int (position f));
           ("type", JString (field_type_as_str (field_type f))); ("unique", JBool (is_unique f))].
Definition archived (c : Collection) : ArchiveCollection :=
  {| ac_name := collection_name c; ac_type := Some (collection_type_as_str (collection_type c)); ac_schema := export_field <$> fields c;
     ac_rules := Some (rules c); ac_options := Some (collection_options c); ac_records := [] |}.
Fixpoint export_rows (cs : list Collection) : W (list (string * list Value)) :=
  match cs with
  | [] => give []
  | c :: cs =>
      (if is_table (collection_type c) then db (ORows Value (ROWS_SQL (collection_name c)) []) else give []) ≫= λ records,
      export_rows cs ≫= λ data, give ((collection_name c, records) :: data)
  end.
Definition export (server now : string) : W Archive :=
  schema_list ≫= λ cs,
  let cs := filter (λ c, is_system_collection (collection_name c) = false) cs in
  export_rows cs ≫= λ data,
  let collections := (λ '(c, (_, records)), {| mc_name := collection_name c; mc_type := Some (collection_type_as_str (collection_type c));
                                               mc_records := Z.of_nat (length (records : list Value)) |}) <$> zip cs data in
  give {| a_manifest := fresh_manifest server now collections; a_schema := archived <$> cs; a_data := data |}.
End apply.

(** Collections.v implements the interface. *)
#[export] Instance collections_schema `{JsonText, Sha256} : SchemaOps :=
  {| schema_list := list_collections; schema_create := create; schema_update := update; schema_delete := delete |}.

(** * The calendar *)

(** The Gregorian rule for the day after a date. *)
Definition leap (y : Z) : bool := (y mod 4 =? 0)%Z && (negb (y mod 100 =? 0)%Z || (y mod 400 =? 0)%Z).
Definition days_in_month (y m : Z) : Z :=
  if (m =? 2)%Z then (if leap y then 29 else 28) else if bool_decide (m ∈ [4; 6; 9; 11]%Z) then 30 else 31.
Definition next_day (date : Z * Z * Z) : Z * Z * Z :=
  let '(y, m, d) := date in
  if (d <? days_in_month y m)%Z then (y, m, d + 1)%Z else if (m <? 12)%Z then (y, m + 1, 1)%Z else (y + 1, 1, 1)%Z.

(** The parts of [civil_from_days] within an era of 400 years from March: the
    days before a year, and the month and day of a day of the year. *)
Definition year_start (y : Z) : Z := (365 * y + y / 4 - y / 100 + y / 400)%Z.
Definition year_scale (n : Z) : Z := (n - n / 1460 + n / 36524 - n / 146096)%Z.
Definition month_day (doy : Z) : Z * Z :=
  let march_month := ((5 * doy + 2) / 153)%Z in
  ((if march_month <? 10 then march_month + 3 else march_month - 9)%Z, (doy - (153 * march_month + 2) / 5 + 1)%Z).
Definition year_of (y m : Z) : Z := (if m <=? 2 then y + 1 else y)%Z.

Fixpoint below (p : Z → bool) (fuel : nat) (n : Z) : bool := match fuel with O => true | S fuel => p n && below p fuel (n + 1)%Z end.
Lemma below_ok p fuel n k : below p fuel n = true → (n ≤ k < n + Z.of_nat fuel)%Z → p k = true.
Proof.
  revert n. induction fuel as [|fuel IH]; intros n C B; [lia|]. cbn [below] in C. apply andb_true_iff in C as [C1 C2].
  destruct (decide (k = n)) as [->|N]; [done|]. apply (IH (n + 1)%Z C2). lia.
Qed.

Lemma year_bounds y : (0 ≤ y < 400)%Z →
  (365 * y ≤ year_scale (year_start y))%Z ∧ (year_scale (year_start (y + 1) - 1) < 365 * (y + 1))%Z
  ∧ (year_start (y + 1) - year_start y = if leap (y + 1) then 366 else 365)%Z.
Proof.
  intros B. pose proof (below_ok (λ y, (365 * y <=? year_scale (year_start y)) && (year_scale (year_start (y + 1) - 1) <? 365 * (y + 1))
    && (year_start (y + 1) - year_start y =? if leap (y + 1) then 366 else 365))%Z 400 0 y) as C.
  lapply C; [|by vm_compute]. intros D. specialize (D ltac:(lia)). rewrite !andb_true_iff, Z.leb_le, Z.ltb_lt, Z.eqb_eq in D. tauto.
Qed.

Lemma year_scale_mono a b : (0 ≤ a ≤ b)%Z → (b < 146097)%Z → (year_scale a ≤ year_scale b)%Z.
Proof.
  intros [A B] L. revert L. replace b with (a + Z.of_nat (Z.to_nat (b - a)))%Z by lia. generalize (Z.to_nat (b - a)) as n. clear b B.
  induction n as [|n IH]; intros L; [rewrite Z.add_0_r; lia|].
  etransitivity; [apply IH; lia|]. rewrite Nat2Z.inj_succ, <-Z.add_1_r, Z.add_assoc in *. revert L. generalize (a + Z.of_nat n)%Z (Z.le_trans 0 a (a + Z.of_nat n) A ltac:(lia)).
  clear. intros m P L. unfold year_scale. Z.div_mod_to_equations. lia.
Qed.

Lemma year_of_day n : (0 ≤ n < 146097)%Z → ∃ y, (0 ≤ y < 400)%Z ∧ (year_start y ≤ n < year_start (y + 1))%Z.
Proof.
  intros [P L]. assert (∀ k, (0 ≤ k)%Z → (k ≤ 400)%Z → (n < year_start k)%Z → ∃ y, (0 ≤ y < k)%Z ∧ (year_start y ≤ n < year_start (y + 1))%Z) as S.
  { apply (natlike_ind (λ k, (k ≤ 400)%Z → (n < year_start k)%Z → ∃ y, (0 ≤ y < k)%Z ∧ (year_start y ≤ n < year_start (y + 1))%Z)).
    - intros _ N. change (year_start 0) with 0%Z in N. lia.
    - intros k K IH B N. rewrite <-Z.add_1_r in *. destruct (decide (n < year_start k)%Z) as [M|M].
      + destruct IH as (y & Y & R); [lia|done|]. exists y. split; [lia|done].
      + exists k. split; [lia|]. lia. }
  destruct (S 400%Z) as (y & Y & R); [lia|lia|change (year_start 400) with 146097%Z; lia|]. by exists y.
Qed.

(** The date of a day of the era. *)
Lemma civil_in_era n y : (0 ≤ y < 400)%Z → (year_start y ≤ n < year_start (y + 1))%Z →
  civil_from_days (n - 719468) = let '(m, d) := month_day (n - year_start y) in (year_of y m, m, d).
Proof.
  intros Y N. destruct (year_bounds y Y) as (L & U & W).
  assert (0 ≤ year_start y)%Z as P by (unfold year_start; Z.div_mod_to_equations; lia).
  assert (year_start (y + 1) ≤ 146097)%Z as Q.
  { unfold year_start. assert (y + 1 ≤ 400)%Z as K by lia. revert K. clear -Y. intros K. Z.div_mod_to_equations. lia. }
  assert (year_scale n / 365 = y)%Z as E.
  { pose proof (year_scale_mono (year_start y) n ltac:(lia) ltac:(lia)). pose proof (year_scale_mono n (year_start (y + 1) - 1) ltac:(lia) ltac:(lia)).
    symmetry. apply (Z.div_unique_pos _ _ _ (year_scale n - 365 * y)%Z); lia. }
  unfold civil_from_days. replace (n - 719468 + 719468)%Z with n by lia.
  rewrite (Z.div_small n 146097), (Z.mod_small n 146097) by lia. cbv zeta. fold (year_scale n). rewrite E.
  assert (y / 400 = 0)%Z as Z0 by (apply Z.div_small; lia).
  replace (n - (365 * y + y / 4 - y / 100))%Z with (n - year_start y)%Z by (unfold year_start; rewrite Z0; lia).
  unfold month_day, year_of. cbv zeta. by rewrite Z.mul_0_l, Z.add_0_r.
Qed.

(** The day after, within a year from March. *)
Lemma month_day_next doy y : (0 ≤ doy < 365)%Z → (doy = 364%Z → leap (y + 1) = true) →
  next_day (let '(m, d) := month_day doy in (year_of y m, m, d)) = let '(m, d) := month_day (doy + 1) in (year_of y m, m, d).
Proof.
  intros B L.
  pose (step := λ b : bool, λ doy : Z, (let '(m, d) := month_day doy in let '(m', d') := month_day (doy + 1) in
    let len := if m =? 2 then (if b then 29 else 28) else if bool_decide (m ∈ [4; 6; 9; 11]%Z) then 30 else 31 in
    if d <? len then (m' =? m) && (d' =? d + 1)
    else if m <? 12 then (m' =? m + 1) && (d' =? 1) && (bool_decide ((m <=? 2) = (m + 1 <=? 2)))
    else (m' =? 1) && (d' =? 1))%Z).
  assert (step (leap (y + 1)) doy = true) as C.
  { destruct (leap (y + 1)) eqn:E.
    - apply (below_ok (step true) 365 0); [by vm_compute|lia].
    - apply (below_ok (step false) 364 0); [by vm_compute|]. destruct (decide (doy = 364%Z)); [naive_solver|lia]. }
  unfold step in C. clear step L. destruct (month_day doy) as [m d], (month_day (doy + 1)) as [m' d']. unfold next_day, days_in_month.
  assert ((if m =? 2 then if leap (year_of y m) then 29 else 28 else if bool_decide (m ∈ [4; 6; 9; 11]%Z) then 30 else 31)%Z
        = (if m =? 2 then if leap (y + 1) then 29 else 28 else if bool_decide (m ∈ [4; 6; 9; 11]%Z) then 30 else 31)%Z) as ->.
  { destruct (m =? 2)%Z eqn:E; [|done]. apply Z.eqb_eq in E as ->. done. }
  destruct (d <? _)%Z; [|destruct (m <? 12)%Z eqn:M].
  - apply andb_true_iff in C as [->%Z.eqb_eq ->%Z.eqb_eq]. done.
  - rewrite !andb_true_iff in C. destruct C as [[->%Z.eqb_eq ->%Z.eqb_eq] E%bool_decide_eq_true]. unfold year_of. by rewrite E.
  - apply andb_true_iff in C as [->%Z.eqb_eq ->%Z.eqb_eq]. unfold year_of. apply Z.ltb_ge in M.
    assert (m <=? 2 = false)%Z as -> by (apply Z.leb_gt; lia). done.
Qed.

Lemma civil_era_step n : (0 ≤ n < 146097)%Z → civil_from_days (n - 719468 + 1) = next_day (civil_from_days (n - 719468)).
Proof.
  intros B. destruct (decide (n = 146096%Z)) as [->|N]; [by vm_compute|].
  destruct (year_of_day n B) as (y & Y & R). destruct (year_bounds y Y) as (_ & _ & W).
  replace (n - 719468 + 1)%Z with (n + 1 - 719468)%Z by lia. rewrite (civil_in_era n y Y R).
  destruct (decide (n + 1 < year_start (y + 1))%Z) as [I|I].
  - rewrite (civil_in_era (n + 1) y Y) by lia. replace (n + 1 - year_start y)%Z with (n - year_start y + 1)%Z by lia.
    symmetry. apply month_day_next; [destruct (leap (y + 1)); lia|]. intros E. destruct (leap (y + 1)); [done|lia].
  - assert (n + 1 = year_start (y + 1))%Z as E by lia. assert (y ≠ 399%Z) as Y9.
    { intros ->. change (year_start (399 + 1)) with 146097%Z in E. lia. }
    destruct (year_bounds (y + 1) ltac:(lia)) as (_ & _ & W').
    rewrite (civil_in_era (n + 1) (y + 1)) by (destruct (leap (y + 1 + 1)); lia).
    replace (n + 1 - year_start (y + 1))%Z with 0%Z by lia. change (month_day 0) with (3, 1)%Z. unfold year_of at 1. change (3 <=? 2)%Z with false.
    destruct (leap (y + 1)) eqn:L.
    + replace (n - year_start y)%Z with 365%Z by lia. change (month_day 365) with (2, 29)%Z. unfold next_day, days_in_month, year_of.
      change (2 <=? 2)%Z with true. change (2 =? 2)%Z with true. cbv iota. by rewrite L.
    + replace (n - year_start y)%Z with 364%Z by lia. change (month_day 364) with (2, 28)%Z. unfold next_day, days_in_month, year_of.
      change (2 <=? 2)%Z with true. change (2 =? 2)%Z with true. cbv iota. by rewrite L.
Qed.

Lemma civil_shift n k : civil_from_days (n + 146097 * k) = let '(y, m, d) := civil_from_days n in (y + 400 * k, m, d)%Z.
Proof.
  unfold civil_from_days.
  assert ((n + 146097 * k + 719468) / 146097 = (n + 719468) / 146097 + k)%Z as ->
    by (rewrite <-Z.div_add by done; f_equal; lia).
  assert ((n + 146097 * k + 719468) mod 146097 = (n + 719468) mod 146097)%Z as ->
    by (rewrite <-(Z.mod_add (n + 719468) k) by done; f_equal; lia).
  cbv zeta. destruct (_ <=? 2)%Z; f_equal; f_equal; lia.
Qed.

Lemma leap_shift y k : leap (y + 400 * k) = leap y.
Proof.
  unfold leap. assert ((y + 400 * k) mod 4 = y mod 4)%Z as -> by (rewrite <-(Z.mod_add y (100 * k)) by done; f_equal; lia).
  assert ((y + 400 * k) mod 100 = y mod 100)%Z as -> by (rewrite <-(Z.mod_add y (4 * k)) by done; f_equal; lia).
  assert ((y + 400 * k) mod 400 = y mod 400)%Z as -> by (rewrite <-(Z.mod_add y k) by done; f_equal; lia). done.
Qed.

Lemma next_day_shift y m d k : next_day (y + 400 * k, m, d)%Z = let '(y', m', d') := next_day (y, m, d) in (y' + 400 * k, m', d')%Z.
Proof. unfold next_day, days_in_month. rewrite leap_shift. repeat case_match; simplify_eq; f_equal; f_equal; lia. Qed.

Lemma civil_successor n : civil_from_days (n + 1) = next_day (civil_from_days n).
Proof.
  assert (∃ r k, n = (r - 719468 + 146097 * k)%Z ∧ (0 ≤ r < 146097)%Z) as (r & k & -> & B).
  { exists ((n + 719468) mod 146097)%Z, ((n + 719468) / 146097)%Z. pose proof (Z.div_mod (n + 719468) 146097). split; [lia|apply Z.mod_pos_bound; lia]. }
  assert (civil_from_days (r - 719468 + 1) = next_day (civil_from_days (r - 719468))) as E by by apply civil_era_step.
  replace (r - 719468 + 146097 * k + 1)%Z with (r - 719468 + 1 + 146097 * k)%Z by lia.
  rewrite !civil_shift, E. destruct (civil_from_days (r - 719468)) as [[y m] d]. by rewrite next_day_shift.
Qed.

(** The year fits four digits for the years 0 to 9999. *)
Definition well_dated (date : Z * Z * Z) : Prop := let '(y, m, d) := date in (1 ≤ m ≤ 12)%Z ∧ (1 ≤ d ≤ days_in_month y m)%Z.
Lemma next_day_well_dated date : well_dated date → well_dated (next_day date).
Proof.
  destruct date as [[y m] d]. unfold well_dated, next_day. intros [M D]. assert (∀ y m, (28 ≤ days_in_month y m)%Z) as L
    by (intros y' m'; unfold days_in_month; repeat case_match; lia).
  destruct (_ <? _)%Z eqn:E; [apply Z.ltb_lt in E; lia|]. destruct (m <? 12)%Z eqn:E2.
  - apply Z.ltb_lt in E2. specialize (L y (m + 1)%Z). lia.
  - specialize (L (y + 1)%Z 1%Z). lia.
Qed.

(** the dates written in a backup are the calendar's: day 0 is the first
    of January 1970, and every other day, before and after, is the day that
    follows the one before it by the Gregorian rule; the month and day are in
    range. *)
Theorem dates_follow_the_calendar :
  civil_from_days 0 = (1970, 1, 1)%Z ∧ (∀ n, civil_from_days (n + 1) = next_day (civil_from_days n))
  ∧ ∀ n, (0 ≤ n)%Z → well_dated (civil_from_days n).
Proof.
  split; [reflexivity|]. split; [exact civil_successor|]. apply natlike_ind; [by vm_compute|].
  intros n _ IH. rewrite <-Z.add_1_r, civil_successor. by apply next_day_well_dated.
Qed.
