(* ===== verification/BackupProps.v ===== *)
(** What Backup.v promises: an archive and a payload are read back as they were
    written, and an import does only what it was asked to. *)
From S2P Require Import Prelude CoreError Json Types Ddl Compile Sql Rls Effects History ViewBuilder Collections CollectionsApi Samples Backup.

Local Set Warnings "-register-all,-clear-no-such-hyp".

(** * What is written is read back *)

(** A value under a key that may be null is not null. *)
Definition given_value (v : option Value) : Prop := ∃ w, v = Some w ∧ w ≠ JNull.
Definition definition_wf (c : ArchiveCollection) : Prop := ac_rules c ≠ Some JNull ∧ given_value (ac_options c) ∧ ac_records c = [].
Definition u64 (n : Z) : Prop := (0 ≤ n < 2 ^ 64)%Z.
Definition manifest_wf (m : Manifest) : Prop :=
  m_format m = ARCHIVE_FORMAT ∧ m_version m = ARCHIVE_FORMAT_VERSION ∧ Forall (λ c, u64 (mc_records c)) (m_collections m)
  ∧ (∀ f, m_files m = Some f → u64 (mf_total f) ∧ u64 (mf_bytes f) ∧ u64 (mf_missing f))
  ∧ (∀ t, m_totals m = Some t → u64 (mt_collections t) ∧ u64 (mt_records t) ∧ u64 (mt_files t)).
Definition archive_wf (a : Archive) : Prop :=
  NoDup (ac_name <$> a_schema a) ∧ (a_data a).*1 = ac_name <$> a_schema a ∧ Forall definition_wf (a_schema a) ∧ manifest_wf (a_manifest a).

Lemma of_int_u64 bound n : (0 ≤ n < bound)%Z → uint_value bound (of_int n) = Ok n.
Proof. intros [P L]. unfold of_int. assert (n <? 0 = false)%Z as -> by (apply Z.ltb_ge; lia). cbn. by apply Z.ltb_lt in L as ->. Qed.

Lemma optional_back {A} key (f : Value → result A) (g : A → Value) (v : option A) l :
  (∀ w, v = Some w → f (g w) = Ok w ∧ g w ≠ JNull) → assoc key l = Some (of_option g v) → optional_key key f l = Ok v.
Proof.
  intros F E. unfold optional_key. rewrite E. destruct v as [w|]; [|done]. cbn. destruct (F w eq_refl) as [Fw N].
  destruct (g w); try done; by rewrite Fw.
Qed.

Lemma required_back {A} key (f : Value → result A) v w l : assoc key l = Some v → f v = Ok w → required_key key f l = Ok w.
Proof. unfold required_key. by intros ->. Qed.
Lemma defaulted_back {A} key (d : A) (f : Value → result A) v w l : assoc key l = Some v → f v = Ok w → defaulted_key key d f l = Ok w.
Proof. unfold defaulted_key. by intros ->. Qed.
Lemma uint_back key n l : u64 n → assoc key l = Some (of_int n) → defaulted_key key 0%Z (uint_value U64) l = Ok n.
Proof. intros B E. unfold defaulted_key. rewrite E. by apply of_int_u64. Qed.

Lemma collection_reads_back c : ac_rules c ≠ Some JNull → given_value (ac_options c) → decode_archive_collection (collection_value c) = Ok c.
Proof.
  destruct c as [name type schema rules options records]. cbn. intros NR (o & -> & NO).
  unfold decode_archive_collection, collection_value. cbn [object_of as_object ok_or mbind result_bind ac_name ac_type ac_schema ac_rules ac_options ac_records].
  rewrite (optional_back "type" text_value JString type) by (try done; by intros w).
  rewrite (optional_back "rules" Ok id rules); [|intros w ->; split; [done|]; unfold id; congruence|done].
  rewrite (optional_back "options" Ok id (Some o)); [|intros w [= ->]; by split|done]. cbn. by destruct o.
Qed.

Lemma try_map_back {A B} (f : B → result A) (g : A → B) l : Forall (λ x, f (g x) = Ok x) l → try_map f (g <$> l) = Ok l.
Proof. induction 1 as [|x l E _ IH]; [done|]. cbn. rewrite E. cbn. by rewrite IH. Qed.

Lemma schema_reads_back l : Forall (λ c, ac_rules c ≠ Some JNull ∧ given_value (ac_options c)) l → decode_schema (schema_value l) = Ok l.
Proof.
  intros F. unfold decode_schema, schema_value. cbn. apply try_map_back. eapply Forall_impl; [exact F|]. intros c [R O].
  by apply collection_reads_back.
Qed.

Lemma manifest_reads_back m : manifest_wf m → decode_manifest (manifest_value m) = Ok m.
Proof.
  destruct m as [format version lazypock created collections files totals]. unfold manifest_wf. cbn. intros (-> & -> & C & F & T).
  unfold decode_manifest, manifest_value.
  cbn [object_of as_object ok_or mbind result_bind m_format m_version m_lazypock m_created m_collections m_files m_totals].
  rewrite (optional_back "lazypock_version" text_value JString lazypock) by (try done; by intros w).
  rewrite (optional_back "created_at" text_value JString created) by (try done; by intros w).
  rewrite (optional_back "files" decode_manifest_files manifest_files_value files).
  2:{ intros [t b i] E. destruct (F _ E) as (F1 & F2 & F3). cbn in *. split; [|done].
      unfold decode_manifest_files, manifest_files_value. cbn [object_of as_object ok_or mbind result_bind mf_total mf_bytes mf_missing].
      by rewrite (uint_back "total" t), (uint_back "bytes" b), (uint_back "missing" i). }
  2:{ done. }
  rewrite (optional_back "totals" decode_manifest_totals manifest_totals_value totals).
  2:{ intros [t b i] E. destruct (T _ E) as (F1 & F2 & F3). cbn in *. split; [|done].
      unfold decode_manifest_totals, manifest_totals_value. cbn [object_of as_object ok_or mbind result_bind mt_collections mt_records mt_files].
      by rewrite (uint_back "collections" t), (uint_back "records" b), (uint_back "files" i). }
  2:{ done. }
  assert (try_map decode_manifest_collection (manifest_collection_value <$> collections) = Ok collections) as E.
  { apply try_map_back. eapply Forall_impl; [exact C|]. intros [name type records] R. cbn in R.
    unfold decode_manifest_collection, manifest_collection_value.
    cbn [object_of as_object ok_or mbind result_bind mc_name mc_type mc_records].
    rewrite (optional_back "type" text_value JString type) by (try done; by intros w). by rewrite (uint_back "records" records). }
  rewrite (required_back "format" text_value (JString ARCHIVE_FORMAT) ARCHIVE_FORMAT) by done. cbn [mbind result_bind].
  rewrite (required_back "format_version" _ (of_int ARCHIVE_FORMAT_VERSION) ARCHIVE_FORMAT_VERSION) by done. cbn [mbind result_bind].
  by rewrite (defaulted_back "collections" [] _ (JArray (manifest_collection_value <$> collections)) collections).
Qed.

Lemma records_of_self (data : list (string * list Value)) name records : NoDup data.*1 → (name, records) ∈ data → assoc name data = Some records.
Proof.
  induction data as [|[n r] data IH]; intros N I; [by apply not_elem_of_nil in I|]. cbn in N. apply NoDup_cons in N as [N1 N2].
  apply elem_of_cons in I as [[= -> ->]|I]; cbn; [by rewrite decide_True|].
  rewrite decide_False; [by apply IH|]. intros ->. apply N1. apply list_elem_of_fmap. by exists (name, records).
Qed.

(** The records of every definition, in its order. *)
Lemma data_of_schema schema (data : list (string * list Value)) :
  NoDup (ac_name <$> schema) → data.*1 = ac_name <$> schema → (λ c, (ac_name c, default [] (assoc (ac_name c) data))) <$> schema = data.
Proof.
  intros N E. rewrite <-E in N. assert (∀ l l' : list (string * list Value), data = l ++ l' → ∀ s, l'.*1 = ac_name <$> s →
    (λ c, (ac_name c, default [] (assoc (ac_name c) data))) <$> s = l') as G.
  { intros l l'. revert l. induction l' as [|[n r] l' IH]; intros l D s F; destruct s as [|c s]; try done. rewrite !fmap_cons in F. cbn [fst] in F.
    injection F as F1 F2. rewrite fmap_cons, <-F1, (IH (l ++ [(n, r)]) ltac:(by rewrite D, <-app_assoc) s F2).
    by rewrite (records_of_self data n r N) by (rewrite D; set_solver). }
  by apply (G [] data).
Qed.

Lemma payload_archive server now a : archive_wf a → ∃ a',
  archive_from_payload server now (to_payload a) = Ok a' ∧ a_schema a' = a_schema a ∧ a_data a' = a_data a ∧ to_payload a' = to_payload a.
Proof.
  intros (N & D & W & _). set (cs := (λ c, with_records c (default [] (records_of a (ac_name c)))) <$> a_schema a).
  assert (to_payload a = schema_value cs) as -> by done.
  assert (archive_from_payload server now (schema_value cs) = (schema ← decode_schema (schema_value cs);
    let data := (λ c, (ac_name c, ac_records c)) <$> schema in
    let collections := (λ c, {| mc_name := ac_name c; mc_type := ac_type c; mc_records := records_in data (ac_name c) |}) <$> schema in
    Ok {| a_manifest := fresh_manifest server now collections; a_schema := (λ c, with_records c []) <$> schema; a_data := data |})) as -> by done.
  rewrite schema_reads_back.
  2:{ apply Forall_fmap. eapply Forall_impl; [exact W|]. intros c (R & O & _). by split. }
  cbn [mbind result_bind]. eexists. split; [reflexivity|].
  assert ((λ c, with_records c []) <$> cs = a_schema a) as E1.
  { unfold cs. rewrite <-list_fmap_compose. rewrite <-(list_fmap_id (a_schema a)) at 2. apply list_fmap_ext. intros i c I.
    apply list_elem_of_lookup_2 in I. rewrite Forall_forall in W. destruct (W c I) as (_ & _ & E). destruct c. cbn in *. by subst. }
  assert ((λ c, (ac_name c, ac_records c)) <$> cs = a_data a) as E2.
  { unfold cs. rewrite <-list_fmap_compose. by apply data_of_schema. }
  match goal with |- context [to_payload ?x] => set (a' := x) end. assert (a_schema a' = a_schema a) as Es by exact E1.
  assert (a_data a' = a_data a) as Ed by exact E2. clearbody a'. clear E1 E2. split_and!; [done|done|]. unfold to_payload, records_of.
  by rewrite Es, Ed.
Qed.

(** ** In the container *)

Lemma add_entry_new entries name text : assoc name entries = None → add_entry entries name text = Ok (entries ++ [(name, text)]).
Proof. unfold add_entry. by intros ->. Qed.

Lemma assoc_app {A} key (l l' : list (string * A)) : assoc key (l ++ l') = match assoc key l with Some v => Some v | None => assoc key l' end.
Proof. induction l as [|[k v] l IH]; [done|]. cbn. case_decide; [done|]. exact IH. Qed.

Lemma assoc_absent {A} key (l : list (string * A)) : key ∉ l.*1 → assoc key l = None.
Proof. induction l as [|[k v] l IH]; [done|]. cbn. intros N. rewrite not_elem_of_cons in N. rewrite decide_False by naive_solver. naive_solver. Qed.

Lemma data_entry_inj a b : data_entry a = data_entry b → a = b.
Proof.
  unfold data_entry, DATA_PREFIX. intros E. injection E as E. revert b E. induction a as [|c a IH]; intros [|d b] E; try done.
  - exfalso. cbn in E. injection E as E1 E2. destruct d as [[] [] [] [] [] [] [] []]; try discriminate E1.
    apply (f_equal String.length) in E2. rewrite str_length_app in E2. cbn in E2. lia.
  - exfalso. cbn in E. injection E as E1 E2. apply (f_equal String.length) in E2. rewrite str_length_app in E2. cbn in E2. lia.
  - cbn in E. injection E as -> E. f_equal. by apply IH.
Qed.
Lemma data_entry_other name : data_entry name ≠ MANIFEST_ENTRY ∧ data_entry name ≠ SCHEMA_ENTRY ∧ data_entry name ≠ FILES_ENTRY.
Proof. by split_and!. Qed.

Section readable.
Context `{JsonText} (parse_json : string → option Value).

(** A value the text of which is one line that parses to it. *)
Definition reads_back (v : Value) : Prop :=
  parse_json (json_text v) = Some v ∧ str_forall (λ c, bool_decide (c ≠ "010"%char)) (json_text v) = true
  ∧ without_cr (json_text v) = json_text v ∧ trim (json_text v) ≠ "".
Definition archive_reads_back (a : Archive) : Prop :=
  reads_back (manifest_value (a_manifest a)) ∧ reads_back (schema_value (a_schema a)) ∧ Forall (λ d, Forall reads_back d.2) (a_data a).

Lemma lines_split records : Forall reads_back records → split_on "010"%char (lines_text records) = (json_text <$> records) ++ [""].
Proof.
  induction 1 as [|v records (_ & N & _) _ IH]; [done|]. cbn [lines_text foldr fmap list_fmap app]. unfold newline.
  rewrite str_app_cons, str_app_nil_l. rewrite split_on_app by done. by rewrite <-IH.
Qed.

Lemma records_read_back records : Forall reads_back records → read_records parse_json (lines_text records) = Ok records.
Proof.
  intros F. unfold read_records, text_lines. rewrite lines_split by done. rewrite last_snoc, length_app, Nat.add_sub, take_app_length.
  assert (without_cr <$> (json_text <$> records) = json_text <$> records) as ->.
  { rewrite <-list_fmap_compose. apply list_fmap_ext. intros i v I. apply list_elem_of_lookup_2 in I. rewrite Forall_forall in F.
    by destruct (F v I) as (_ & _ & E & _). }
  rewrite filter_all by (apply Forall_fmap; eapply Forall_impl; [exact F|]; by intros v (_ & _ & _ & N)).
  apply try_map_back. eapply Forall_impl; [exact F|]. intros v (E & _). cbn. by rewrite E.
Qed.

Lemma data_entries entries data : NoDup data.*1 → (∀ name, name ∈ data.*1 → assoc (data_entry name) entries = None) →
  try_fold (λ entries '(name, records), add_entry entries (data_entry name) (lines_text records)) entries data
  = Ok (entries ++ ((λ '(name, records), (data_entry name, lines_text records)) <$> data)).
Proof.
  revert entries. induction data as [|[name records] data IH]; intros entries N F; [cbn; by rewrite app_nil_r|].
  cbn in N. apply NoDup_cons in N as [N1 N2]. cbn [try_fold]. rewrite add_entry_new by (apply F; left). cbn [mbind result_bind].
  rewrite IH; [by rewrite <-app_assoc|done|]. intros other I. rewrite assoc_app, F by by right. cbn. rewrite decide_False; [done|].
  intros E%data_entry_inj. by subst.
Qed.

Lemma data_entry_read (data : list (string * list Value)) name records rest : NoDup data.*1 → (name, records) ∈ data →
  assoc (data_entry name) (((λ '(name, records), (data_entry name, lines_text records)) <$> data) ++ rest) = Some (lines_text records).
Proof.
  induction data as [|[n r] data IH]; intros N I; [by apply not_elem_of_nil in I|]. cbn in N. apply NoDup_cons in N as [N1 N2].
  apply elem_of_cons in I as [[= -> ->]|I]; cbn; [by rewrite decide_True|].
  rewrite decide_False; [by apply IH|]. intros E%data_entry_inj. subst. apply N1. apply list_elem_of_fmap. by exists (name, records).
Qed.

Lemma try_map_pairs {A B} (f : A → result B) (s : list A) (l : list B) : Forall2 (λ x y, f x = Ok y) s l → try_map f s = Ok l.
Proof. induction 1 as [|x y s l E _ IH]; [done|]. cbn. rewrite E. cbn. by rewrite IH. Qed.

Lemma archive_reads_container a : archive_wf a → archive_reads_back a →
  ∃ entries, write_archive a = Ok entries ∧ read_archive parse_json entries = Ok a.
Proof.
  intros (N & D & W & M) (RM & RS & RD). rewrite <-D in N. unfold write_archive.
  rewrite add_entry_new by done. cbn [mbind result_bind]. rewrite add_entry_new by done. cbn [mbind result_bind app].
  rewrite data_entries; [|done|intros name _; cbn; by rewrite !decide_False by done]. cbn [mbind result_bind].
  set (es := (λ '(name, records), (data_entry name, lines_text records)) <$> a_data a).
  assert (∀ key, (∀ name, data_entry name ≠ key) → assoc key es = None) as A.
  { intros key K. apply assoc_absent. unfold es. rewrite <-list_fmap_compose. intros ([name r] & E & _)%list_elem_of_fmap. by apply (K name). }
  rewrite add_entry_new by (cbn; rewrite A; done). eexists. split; [reflexivity|]. unfold read_archive.
  destruct RM as [RM _], RS as [RS _].
  assert (∀ rest : list (string * string), read_json parse_json ((MANIFEST_ENTRY, json_text (manifest_value (a_manifest a))) :: rest) MANIFEST_ENTRY
    = Ok (manifest_value (a_manifest a))) as E1 by (intros rest; unfold read_json; cbn [assoc]; rewrite decide_True by done; cbn [ok_or mbind result_bind]; by rewrite RM).
  assert (∀ m (rest : list (string * string)), read_json parse_json ((MANIFEST_ENTRY, m) :: (SCHEMA_ENTRY, json_text (schema_value (a_schema a))) :: rest) SCHEMA_ENTRY
    = Ok (schema_value (a_schema a))) as E2 by (intros m rest; unfold read_json; cbn [assoc]; rewrite decide_False, decide_True by done; cbn [ok_or mbind result_bind]; by rewrite RS).
  cbn [app]. rewrite E1. cbn [mbind result_bind]. rewrite manifest_reads_back by done. cbn [mbind result_bind].
  destruct M as (-> & -> & M). rewrite !decide_False by (try lia; naive_solver). rewrite E2. cbn [mbind result_bind].
  rewrite schema_reads_back by (eapply Forall_impl; [exact W|]; intros c (R & O & _); by split). cbn [mbind result_bind].
  rewrite (try_map_pairs _ _ (a_data a)); [by destruct a|]. apply Forall2_same_length_lookup_2.
  { apply (f_equal length) in D. by rewrite !length_fmap in D. }
  intros i c [name records] Ic Id.
  assert (ac_name c = name) as ->.
  { apply (f_equal (lookup i)) in D. rewrite !list_lookup_fmap, Ic, Id in D. cbn in D. by injection D. }
  cbn. rewrite !decide_False by done.
  apply list_elem_of_lookup_2 in Id. unfold es. rewrite (data_entry_read _ _ records) by done. cbn.
  rewrite Forall_forall in RD. by rewrite records_read_back by apply (RD _ Id).
Qed.
End readable.

(** C27. what a backup holds is what was written: an archive whose collections
    have distinct names and a record list each, whose manifest is of this format
    and version, and whose values are texts of one line, is written to a
    container - no entry is refused - from which reading gives the archive back;
    and the payload of an archive, as a snapshot stores it, gives the same
    definitions and records back. *)
Theorem backups_read_back `{JsonText} (parse_json : string → option Value) (server now : string) (a : Archive)
    (W : archive_wf a) (R : archive_reads_back parse_json a) :
  (∃ entries, write_archive a = Ok entries ∧ read_archive parse_json entries = Ok a)
  ∧ ∃ a', archive_from_payload server now (to_payload a) = Ok a' ∧ a_schema a' = a_schema a ∧ a_data a' = a_data a ∧ to_payload a' = to_payload a.
Proof. split; [by apply archive_reads_container|by apply payload_archive]. Qed.

(** * What an import may do *)

Section import_safety.
Context `{SchemaOps} (P : list event → ∀ X, op X → Prop) (a : Archive) (o : ImportOptions).

Definition user_names : list string := filter (λ name, is_system_collection name = false) (ac_name <$> a_schema a).
Definition cleared : Prop := pf_requires_confirmation (preflight a o) = false.
Definition anyhow {A} (h : list event) (r : A) : Prop := True.

(** The operations an import is made of: [P] holds of everything when it holds
    of the schema operations and statements the import is allowed. *)
Record import_rights : Prop := {
  may_list : ∀ h, obeys P h schema_list anyhow;
  may_create : ∀ h c, cleared → nc_name c ∈ user_names → adopt_existing_table c = false → obeys P h (schema_create c) anyhow;
  may_update : ∀ h name u, cleared → name ∈ user_names → delete_missing_fields u = io_delete_missing o → obeys P h (schema_update name u) anyhow;
  may_delete : ∀ h name, cleared → io_delete_missing o = true → is_system_collection name = false → name ∉ ac_name <$> a_schema a →
    obeys P h (schema_delete name true) anyhow;
  may_begin : ∀ h, cleared → P h _ OBegin;
  may_commit : ∀ h, cleared → P h _ OCommit;
  may_rollback : ∀ h, cleared → io_atomic o ≠ Batch → P h _ ORollback;
  may_columns : ∀ h name, cleared → name ∈ user_names → P h _ (ORows string TABLE_COLUMNS_SQL [PText (Some name)]);
  may_upsert : ∀ h name columns record records, cleared → name ∈ user_names → records_of a name = Some records → record ∈ records →
    P h _ (OExecute (upsert_sql name columns) [PJson record]);
}.
Context (R : import_rights) (C : cleared).

Lemma seq_anyhow {A B} h (p : W A) (f : A → W B) (Q : list event → attempt B → Prop) :
  obeys P h p anyhow → (∀ h' x, obeys P h' (f x) Q) → (∀ h' e, Q h' (Failed e)) → obeys P h (p ≫= f) Q.
Proof. intros O F E. apply obeys_then. eapply obeys_mono; [exact O|]. intros h' [x|e] _; [apply F|apply E]. Qed.
Lemma lift_anyhow {A B} h (r : result A) (f : A → W B) (Q : list event → attempt B → Prop) :
  (∀ x, r = Ok x → obeys P h (f x) Q) → (∀ h' e, Q h' (Failed e)) → obeys P h (lift r ≫= f) Q.
Proof. intros F E. apply obeys_then, obeys_lift; [done|]. intros e _. apply E. Qed.

Lemma create_collection_ok h name : name ∈ user_names → obeys P h (create_collection a name) anyhow.
Proof.
  intros I. unfold create_collection. apply lift_anyhow; [|done]. intros d _. apply lift_anyhow; [|done]. intros t _.
  apply lift_anyhow; [|done]. intros fs _. apply seq_anyhow; [|done..]. by apply (may_create R).
Qed.

Lemma apply_definition_ok h name : name ∈ user_names → obeys P h (apply_definition a name (io_delete_missing o)) anyhow.
Proof.
  intros I. unfold apply_definition. apply lift_anyhow; [|done]. intros d _. apply lift_anyhow; [|done]. intros t _.
  apply lift_anyhow; [|done]. intros fs _. apply seq_anyhow; [|done..]. by apply (may_update R).
Qed.

Lemma apply_records_ok h name : name ∈ user_names → obeys P h (apply_records a name) anyhow.
Proof.
  intros I. unfold apply_records. apply lift_anyhow; [|done]. intros d _. apply lift_anyhow; [|done]. intros t _.
  case_decide; [done|]. destruct (records_of a name) as [records|] eqn:E; [|done]. destruct records as [|r records]; [done|].
  apply obeys_then, obeys_db; [by apply (may_columns R)|]. intros [columns|e]; [|done].
  assert (∀ l h, (∀ x, x ∈ l → x ∈ r :: records) → obeys P h (for_each (upsert name columns) l) anyhow) as G; [|by apply G].
  clear h. induction l as [|x l IH]; intros h L; [done|]. cbn [for_each]. apply seq_anyhow; [|intros h' _; apply IH; intros y Y; apply L; by right|done].
  unfold upsert. apply lift_anyhow; [|done]. intros object _. apply lift_anyhow; [|done]. intros i _. cbn [obeys]. split.
  - eapply (may_upsert R); [done..|exact E|]. apply L. by left.
  - by intros [n|e].
Qed.

(** The names of the actions that are applied. *)
Definition names_ok (actions : list (string * ImportAction)) : Prop := Forall (λ e, e.1 ∈ user_names) actions.

Lemma import_definitions_ok current actions removed h : names_ok actions → obeys P h (import_definitions a o current actions removed) anyhow.
Proof.
  intros N. revert removed h. induction N as [|[name act] actions I _ IH]; intros removed h; [done|]. cbn [import_definitions].
  destruct act; [| |apply IH].
  - apply seq_anyhow; [by apply create_collection_ok| |done]. intros h' _. apply IH.
  - apply lift_anyhow; [|done]. intros dropped _. apply seq_anyhow; [by apply apply_definition_ok| |done]. intros h' _. apply IH.
Qed.

Lemma import_batch_ok removed actions imported h : names_ok actions →
  obeys P h (import_batch a removed actions imported) (λ _ r, match r with Done l => ic_name <$> l = (ic_name <$> imported) ++ actions.*1 | _ => True end).
Proof.
  intros N. revert imported h. induction N as [|[name act] actions I _ IH]; intros imported h; [cbn; by rewrite app_nil_r|]. cbn [import_batch].
  apply seq_anyhow; [by apply apply_records_ok| |done]. intros h' _. eapply obeys_mono; [apply IH|]. intros h2 [l|]; [|done]. intros ->.
  by rewrite fmap_app, <-app_assoc.
Qed.

Lemma import_each_ok mode removed all actions imported errors h : names_ok actions → io_atomic o ≠ Batch →
  obeys P h (import_each a mode removed all actions imported errors)
    (λ _ r, match r with Done (l, _) => ∃ k, ic_name <$> l = (ic_name <$> imported) ++ k ∧ k `sublist_of` actions.*1 | _ => True end).
Proof.
  intros N B. revert imported errors h. induction N as [|[name act] actions I _ IH]; intros imported errors h.
  { cbn. exists []. by rewrite app_nil_r. }
  assert (∀ imported errors h, obeys P h (import_each a mode removed all actions imported errors)
    (λ _ r, match r with Done (l, _) => ∃ k, ic_name <$> l = (ic_name <$> imported) ++ k ∧ k `sublist_of` name :: actions.*1 | _ => True end)) as IH2.
  { intros i e h'. eapply obeys_mono; [apply IH|]. intros h2 [[l e2]|]; [|done]. intros (k & E & S). exists k. split; [done|by constructor]. }
  cbn [import_each]. apply obeys_then, obeys_db; [by apply (may_begin R)|]. intros [u|e]; [|done]. apply obeys_bind.
  eapply obeys_mono; [by apply apply_records_ok|]. intros h' r _. destruct r as [u2|e].
  - cbn [obeys]. split; [by apply (may_commit R)|]. intros [u3|e3]; [|apply IH2]. eapply obeys_mono; [apply IH|].
    intros h2 [[l e2]|]; [|done]. intros (k & E & S). exists (name :: k). split; [rewrite E, fmap_app; by rewrite <-app_assoc|by constructor].
  - cbn [obeys]. split; [by apply (may_rollback R)|]. intros u4. case_decide; [|apply IH2]. cbn. exists []. rewrite app_nil_r.
    split; [done|]. apply sublist_nil_l.
Qed.

Lemma drop_collections_ok names h : io_delete_missing o = true →
  Forall (λ name, is_system_collection name = false ∧ name ∉ ac_name <$> a_schema a) names → obeys P h (drop_collections names) anyhow.
Proof.
  intros D F. revert h. induction F as [|name names [S M] _ IH]; intros h; [done|]. cbn [drop_collections].
  apply seq_anyhow; [by apply (may_delete R)| |done]. intros h' _. apply IH.
Qed.
End import_safety.

Lemma writable_actions a existing : writable (import_plan (a_schema a) existing) = (λ name, (name, plan_action existing name)) <$> user_names a.
Proof.
  assert (∀ name, is_writable (plan_action existing name) = negb (is_system_collection name)) as P.
  { intros name. unfold plan_action. destruct (is_system_collection name); [done|]. by case_decide. }
  unfold writable, import_plan, user_names. induction (a_schema a) as [|c schema IH]; [done|]. rewrite !fmap_cons, !filter_cons. cbn [fst snd].
  rewrite P. destruct (is_system_collection (ac_name c)); cbn [negb]; [by rewrite !decide_False|]. rewrite !decide_True by done. by rewrite fmap_cons, IH.
Qed.

(** * What the report of an import says *)

Section import_report.
Context `{SchemaOps} (a : Archive) (o : ImportOptions).

(** A trace with one part for each of a list, in order. *)
Fixpoint in_turn {A} (Q : A → list event → Prop) (l : list A) (t : list event) : Prop :=
  match l with [] => t = [] | x :: l => ∃ t1 t2, t = t1 ++ t2 ∧ Q x t1 ∧ in_turn Q l t2 end.

(** The definition of a collection has been created or brought up to date. *)
Definition defined (e : string * ImportAction) (t : list event) : Prop :=
  match e.2 with
  | ICreate => ∃ c x, nc_name c = e.1 ∧ runs (schema_create c) t (Done x)
  | IUpdate => ∃ u x, delete_missing_fields u = io_delete_missing o ∧ runs (schema_update e.1 u) t (Done x)
  | ISkip => t = []
  end.
Definition deleted_whole (name : string) (t : list event) : Prop := ∃ x, runs (schema_delete name true) t (Done x).

(** The records of a collection have been written, each by one statement; a
    view has none. *)
Definition upserted (name : string) (record : Value) (t : list event) : Prop :=
  ∃ columns n, t = [Ev (OExecute (upsert_sql name columns) [PJson record]) (DbOk n)].
Definition declared_view (name : string) : Prop := ∃ d, definition_of a name = Ok d ∧ parse_archive_type (ac_type d) = Ok CView.
Definition written (name : string) (t : list event) : Prop :=
  t = [] ∧ (declared_view name ∨ default [] (records_of a name) = [])
  ∨ ∃ columns t', t = Ev (ORows string TABLE_COLUMNS_SQL [PText (Some name)]) (DbOk columns) :: t'
    ∧ in_turn (upserted name) (default [] (records_of a name)) t'.

(** Collections filled in a transaction each: those whose transaction was
    committed, and those it failed for. *)
Inductive filled : list string → list event → list string → list string → Prop :=
  | Fl_end : filled [] [] [] []
  | Fl_written name names t t' i f : written name t → filled names t' i f →
      filled (name :: names) (Ev OBegin (DbOk tt) :: t ++ Ev OCommit (DbOk tt) :: t') (name :: i) f
  | Fl_uncommitted name names t t' e i f : written name t → filled names t' i f →
      filled (name :: names) (Ev OBegin (DbOk tt) :: t ++ Ev OCommit (DbErr e) :: t') i (name :: f)
  | Fl_undone name names t t' e x i f : runs (apply_records a name) t (Failed e) → io_atomic o ≠ PerCollection → filled names t' i f →
      filled (name :: names) (Ev OBegin (DbOk tt) :: t ++ Ev ORollback x :: t') i (name :: f)
  | Fl_stopped name names t e x : runs (apply_records a name) t (Failed e) → io_atomic o = PerCollection →
      filled (name :: names) (Ev OBegin (DbOk tt) :: t ++ [Ev ORollback x]) [] [name].

(** What was done for the records: in one transaction that was committed, or
    one each. An error is a collection the records of which were not kept, or,
    after a failure that ends the import, were not attempted. *)
Definition filled_as_reported (t : list event) (imported errors : list string) : Prop :=
  if decide (io_atomic o = Batch)
  then imported = user_names a ∧ errors = []
       ∧ ∃ t', t = Ev OBegin (DbOk tt) :: t' ++ [Ev OCommit (DbOk tt)] ∧ in_turn written (user_names a) t'
  else ∃ f rest, filled (user_names a) t imported f ∧ errors = f ++ rest
       ∧ Forall (λ name, name ∈ user_names a ∧ name ∉ imported ∧ name ∉ f) rest
       ∧ (io_atomic o = Continue → rest = []) ∧ ∀ name, name ∈ user_names a → name ∈ imported ∨ name ∈ errors.

(** An import that was applied, read off its trace: the collections that were
    there, the definitions, the records, and the collections it deleted, which
    are all those of a user the archive does not have. *)
Definition done_as_reported (t : list event) (r : ImportReport) : Prop :=
  ∃ current t1 t2 t3 t4, t = t1 ++ t2 ++ t3 ++ t4 ∧ runs schema_list t1 (Done current)
  ∧ in_turn defined ((λ name, (name, plan_action (collection_name <$> current) name)) <$> user_names a) t2
  ∧ filled_as_reported t3 (ic_name <$> ir_imported r) (ir_errors r)
  ∧ in_turn deleted_whole (ir_removed r) t4
  ∧ ir_removed r = (if io_delete_missing o then undeclared_collections a current else [])
  ∧ Forall (λ c, ic_type c = type_of a (ic_name c) ∧ ic_records c = records_in (a_data a) (ic_name c)
                 ∧ dropped_fields a current (ic_name c) (io_delete_missing o) = Ok (ic_fields_removed c)) (ir_imported r).

Lemma runs_lifted {A B} (r : result A) (f : A → W B) t b : runs (lift r ≫= f) t (Done b) → ∃ x, r = Ok x ∧ runs (f x) t (Done b).
Proof. intros (t1 & x & t2 & -> & R & K)%runs_done. apply runs_lift_done in R as [-> E]. by exists x. Qed.

Lemma create_collection_runs name t : runs (create_collection a name) t (Done tt) → ∃ c x, nc_name c = name ∧ runs (schema_create c) t (Done x).
Proof.
  unfold create_collection. do 3 (intros (? & _ & K)%runs_lifted; revert K).
  intros (t1 & y & t2 & -> & R & [-> _])%runs_done. rewrite app_nil_r. eexists _, y. by split; [|exact R].
Qed.
Lemma apply_definition_runs name d t : runs (apply_definition a name d) t (Done tt) →
  ∃ u x, delete_missing_fields u = d ∧ runs (schema_update name u) t (Done x).
Proof.
  unfold apply_definition. do 3 (intros (? & _ & K)%runs_lifted; revert K).
  intros (t1 & y & t2 & -> & R & [-> _])%runs_done. rewrite app_nil_r. eexists _, y. by split; [|exact R].
Qed.

Lemma apply_records_runs name t : runs (apply_records a name) t (Done tt) → written name t.
Proof.
  unfold apply_records, written. intros (d & D & K)%runs_lifted. apply runs_lifted in K as (ty & T & K). case_decide as V.
  { destruct K as [-> _]. left. split; [done|]. left. exists d. by subst ty. }
  destruct (records_of a name) as [records|]; cbn [default id]; [|destruct K as [-> _]; auto].
  destruct records as [|r records]; [destruct K as [-> _]; auto|]. apply runs_done in K as (t1 & columns & t2 & -> & K1%runs_db_done & K).
  subst t1. right. exists columns, t2. split; [done|]. change (default [] (Some (r :: records))) with (r :: records). revert t2 K.
  generalize (r :: records). clear. intros l. induction l as [|r l IH]; intros t K; [by destruct K|].
  cbn in K. apply runs_done in K as (t1 & [] & t2 & -> & R & K). exists t1, t2. split_and!; [done| |by apply IH].
  unfold upsert in R. apply runs_lifted in R as (object & _ & R). apply runs_lifted in R as (i & _ & R).
  destruct R as ([n|e] & t' & -> & R); [|by destruct R]. destruct R as [-> _]. by eexists _, n.
Qed.

Lemma plan_skips existing name : is_system_collection name = false → plan_action existing name ≠ ISkip.
Proof. intros U. unfold plan_action. rewrite U. by case_decide. Qed.

(** The columns each updated collection is about to lose. *)
Definition losses (current : list Collection) (removed : list (string * list string)) : Prop :=
  Forall (λ e, dropped_fields a current e.1 (io_delete_missing o) = Ok e.2) removed.

Lemma import_definitions_runs current actions removed removed' t : Forall (λ e, e.2 ≠ ISkip) actions →
  runs (import_definitions a o current actions removed) t (Done removed') → losses current removed →
  in_turn defined actions t ∧ losses current removed' ∧ removed.*1 `prefix_of` removed'.*1
  ∧ ∀ name, (name, IUpdate) ∈ actions → name ∈ removed'.*1.
Proof.
  intros N. revert removed t. induction N as [|[name act] actions I N IH]; intros removed t R L.
  - destruct R as [-> E]. injection E as ->. split_and!; [done..|]. intros name X. by apply not_elem_of_nil in X.
  - destruct act; [| |done]; cbn [import_definitions] in R.
    + apply runs_done in R as (t1 & [] & t2 & -> & R & K). destruct (IH _ _ K L) as (D & L' & P & U). split_and!; [|done..|].
      * exists t1, t2. split_and!; [done| |done]. by apply create_collection_runs.
      * intros n [X|X]%elem_of_cons; [done|by apply U].
    + apply runs_lifted in R as (dropped & E & R). apply runs_done in R as (t1 & [] & t2 & -> & R & K).
      destruct (IH _ _ K) as (D & L' & P & U); [by apply Forall_app; split; [|apply Forall_singleton]|].
      assert (removed.*1 ++ [name] `prefix_of` removed'.*1) as P' by (by rewrite fmap_app in P). split_and!; [|done| |].
      * exists t1, t2. split_and!; [done| |done]. by apply apply_definition_runs.
      * etrans; [|exact P']. by apply prefix_app_r.
      * intros n [X|X]%elem_of_cons; [|by apply U]. injection X as ->. destruct P' as [k ->]. apply elem_of_app. left. apply elem_of_app. right. by left.
Qed.

(** What is said of a collection the records of which were kept. *)
Definition as_defined (current : list Collection) (c : ImportedCollection) : Prop :=
  ic_type c = type_of a (ic_name c) ∧ ic_records c = records_in (a_data a) (ic_name c)
  ∧ dropped_fields a current (ic_name c) (io_delete_missing o) = Ok (ic_fields_removed c).

Lemma imported_as_defined current removed name act : losses current removed → act = plan_action (collection_name <$> current) name →
  act ≠ ISkip → (act = IUpdate → name ∈ removed.*1) → as_defined current (imported_of a name (removed_for removed name)).
Proof.
  intros L E S U. split_and!; [done..|]. cbn. unfold removed_for. destruct (assoc name removed) as [l|] eqn:A; cbn.
  - apply assoc_In, list_elem_of_In in A. exact (proj1 (Forall_forall _ _) L _ A).
  - unfold dropped_fields. destruct (find_named current name) as [c|] eqn:F; [|done]. exfalso.
    apply head_Some in F as [k F]. assert (c ∈ filter (λ c, collection_name c = name) current) as M by (rewrite F; by left).
    apply list_elem_of_filter in M as [Nc M]. assert (act = IUpdate) as X.
    { subst act. unfold plan_action in *. destruct (is_system_collection name); [done|]. rewrite decide_True; [done|]. rewrite <-Nc. by apply list_elem_of_fmap_2. }
    specialize (U X). clear -A U. induction removed as [|[n l] r IH]; [by apply not_elem_of_nil in U|]. cbn in *. case_decide; [done|].
    apply elem_of_cons in U as [->|U]; [done|]. by apply IH.
Qed.

Lemma import_batch_runs removed actions imported l t : runs (import_batch a removed actions imported) t (Done l) →
  l = imported ++ ((λ name, imported_of a name (removed_for removed name)) <$> actions.*1) ∧ in_turn written actions.*1 t.
Proof.
  revert imported t. induction actions as [|[name act] actions IH]; intros imported t R.
  - destruct R as [-> E]. injection E as ->. by rewrite app_nil_r.
  - cbn [import_batch] in R. apply runs_done in R as (t1 & [] & t2 & -> & R & K). destruct (IH _ _ K) as [-> T].
    split; [by rewrite <-app_assoc|]. exists t1, t2. by apply apply_records_runs in R.
Qed.

Lemma not_attempted_spec (all : list (string * ImportAction)) imported errors : ∃ rest, not_attempted all imported errors = errors ++ rest
  ∧ Forall (λ name, name ∈ all.*1 ∧ name ∉ ic_name <$> imported ∧ name ∉ errors) rest
  ∧ ∀ name, name ∈ all.*1 → name ∈ ic_name <$> imported ∨ name ∈ errors ++ rest.
Proof.
  unfold not_attempted. generalize all.*1. clear all. intros names. revert errors. induction names as [|n names IH]; intros errors.
  { exists []. rewrite app_nil_r. split_and!; [done|constructor|]. intros name X. by apply not_elem_of_nil in X. }
  cbn [foldl]. case_decide as D.
  - destruct (IH (errors ++ [n])) as (rest & -> & F & C). exists (n :: rest). rewrite <-app_assoc in *. cbn in *. split_and!; [done| |].
    + constructor; [set_solver|]. eapply Forall_impl; [exact F|]. set_solver.
    + intros name [->|X]%elem_of_cons; [set_solver|by apply C].
  - destruct (IH errors) as (rest & -> & F & C). exists rest. split_and!; [done| |].
    + eapply Forall_impl; [exact F|]. set_solver.
    + intros name [->|X]%elem_of_cons; [|by apply C]. destruct (decide (n ∈ ic_name <$> imported)); [by left|right].
      apply elem_of_app. left. destruct (decide (n ∈ errors)); [done|]. by destruct D.
Qed.

Lemma import_each_runs removed all actions imported errors l es t : io_atomic o ≠ Batch →
  runs (import_each a (io_atomic o) removed all actions imported errors) t (Done (l, es)) →
  ∃ i f rest, filled actions.*1 t i f ∧ l = imported ++ ((λ name, imported_of a name (removed_for removed name)) <$> i)
  ∧ es = errors ++ f ++ rest ∧ i `sublist_of` actions.*1
  ∧ (rest = [] ∧ (∀ name, name ∈ actions.*1 → name ∈ i ∨ name ∈ f)
     ∨ io_atomic o = PerCollection ∧ Forall (λ name, name ∈ all.*1 ∧ name ∉ ic_name <$> l ∧ name ∉ errors ++ f) rest
       ∧ ∀ name, name ∈ all.*1 → name ∈ ic_name <$> l ∨ name ∈ es).
Proof.
  intros B. revert imported errors t. induction actions as [|[name act] actions IH]; intros imported errors t R.
  { destruct R as [-> E]. injection E as -> ->. exists [], [], []. rewrite !app_nil_r. split_and!; [constructor|done|done|done|].
    left. split; [done|]. intros name X. by apply not_elem_of_nil in X. }
  cbn [import_each] in R. apply runs_done in R as (t0 & [] & t1 & -> & R0%runs_db_done & R). subst t0.
  apply runs_bind in R as (t2 & r & t3 & -> & R2 & R). destruct r as [[]|e].
  - destruct R as (c & t4 & -> & R). apply apply_records_runs in R2. destruct c as [[]|e].
    + destruct (IH _ _ _ R) as (i & f & rest & F & -> & -> & S & X). exists (name :: i), f, rest. split_and!; [by apply (Fl_written name)|by rewrite <-app_assoc|done|by constructor|].
      destruct X as [[-> X]|X]; [left; split; [done|]; cbn; set_solver|by right].
    + destruct (IH _ _ _ R) as (i & f & rest & F & -> & -> & S & X). exists i, (name :: f), rest.
      split_and!; [by apply (Fl_uncommitted name)|done|by rewrite <-app_assoc|by constructor|].
      destruct X as [[-> X]|X]; [left; split; [done|]; cbn; set_solver|right]. rewrite <-(app_assoc errors [name] f) in X. exact X.
  - destruct R as (c & t4 & -> & R). case_decide as M.
    + destruct R as [-> E]. injection E as -> ->. destruct (not_attempted_spec all imported (errors ++ [name])) as (rest & E & F & C).
      exists [], [name], rest. rewrite E, !app_nil_r. split_and!; [by eapply Fl_stopped|done|by rewrite <-app_assoc|apply sublist_nil_l|].
      right. by split_and!.
    + destruct (IH _ _ _ R) as (i & f & rest & F & -> & -> & S & X). exists i, (name :: f), rest.
      split_and!; [by eapply Fl_undone|done|by rewrite <-app_assoc|by constructor|].
      destruct X as [[-> X]|X]; [left; split; [done|]; cbn; set_solver|right]. rewrite <-(app_assoc errors [name] f) in X. exact X.
Qed.

Lemma drop_collections_runs names t u : runs (drop_collections names) t (Done u) → in_turn deleted_whole names t.
Proof.
  revert t. induction names as [|name names IH]; intros t R; [by destruct R|]. cbn in R.
  apply runs_done in R as (t1 & x & t2 & -> & R & K). exists t1, t2. split_and!; [done|by exists x|by apply IH].
Qed.

Lemma names_back removed (i : list string) : ic_name <$> ((λ name, imported_of a name (removed_for removed name)) <$> i) = i.
Proof. induction i as [|name i IH]; [done|]. by rewrite !fmap_cons, IH. Qed.

Lemma applied_runs t r : runs (import a o) t (Done (Applied r)) → done_as_reported t r.
Proof.
  unfold import. intros (t1 & current & ta & -> & R1 & R)%runs_done. cbv zeta in R. case_match; [by destruct R|].
  rewrite (writable_actions a (collection_name <$> current)) in R. set (actions := _ <$> user_names a) in R.
  assert (actions.*1 = user_names a) as An by (unfold actions; rewrite <-list_fmap_compose; apply list_fmap_id).
  apply runs_done in R as (t2 & removed & tb & -> & R2 & R). apply import_definitions_runs in R2 as (D & L & _ & U);
    [|apply Forall_fmap, Forall_forall; intros name [N _]%list_elem_of_filter; by apply plan_skips|constructor].
  apply runs_done in R as (t3 & [imported errors] & tc & -> & R3 & R).
  assert (∃ i, imported = (λ name, imported_of a name (removed_for removed name)) <$> i ∧ (∀ name, name ∈ i → name ∈ user_names a)
    ∧ filled_as_reported t3 i errors) as (i & -> & I & F).
  { unfold filled_as_reported. case_decide as B.
    - apply runs_done in R3 as (t4 & [] & t5 & -> & R4%runs_db_done & R3). apply runs_done in R3 as (t6 & l & t7 & -> & R6 & R3).
      apply runs_done in R3 as (t8 & [] & t9 & -> & R8%runs_db_done & [-> E]). injection E as -> ->. subst t4 t8.
      apply import_batch_runs in R6 as [-> T]. rewrite An in T |- *. exists (user_names a). split_and!; [done|done|done|done|]. by exists t6.
    - apply import_each_runs in R3 as (i & f & rest & F & -> & -> & S & X); [|done]. rewrite An in F, S, X. exists i.
      assert (∀ name, name ∈ i → name ∈ user_names a) as I by (intros name Ni; by eapply elem_of_sublist).
      assert (ic_name <$> ([] ++ ((λ name, imported_of a name (removed_for removed name)) <$> i)) = i) as E.
      { apply names_back. }
      rewrite E in X. split_and!; [done|done|]. exists f, rest. split_and!; [done|done| | |].
      + destruct X as [[-> _]|(_ & X & _)]; [constructor|exact X].
      + intros M. destruct X as [[-> _]|(X & _)]; [done|congruence].
      + destruct X as [[-> X]|(_ & _ & X)]; [|exact X]. cbn. rewrite app_nil_r. exact X. }
  apply runs_done in R as (t4 & dropped & t5 & -> & R4 & [-> E]). injection E as ->. exists current, t1, t2, t3, t4. cbn.
  rewrite app_nil_r. rewrite names_back. split_and!; [by rewrite <-?app_assoc|done|done|done| | |].
  - destruct (io_delete_missing o); [|by destruct R4 as [-> [= ->]]]. apply runs_done in R4 as (t6 & u & t7 & -> & R6 & [-> [= ->]]).
    rewrite app_nil_r. by eapply drop_collections_runs.
  - destruct (io_delete_missing o); [|by destruct R4 as [-> [= ->]]]. by apply runs_done in R4 as (t6 & u & t7 & -> & R6 & [-> [= ->]]).
  - apply Forall_fmap, Forall_forall. intros name Ni. apply I in Ni. pose proof Ni as [Ns _]%list_elem_of_filter.
    eapply imported_as_defined; [done|done|by apply plan_skips|]. intros Up. apply U. unfold actions. rewrite <-Up.
    apply list_elem_of_fmap. by exists name.
Qed.
End import_report.

(** How an import may end. *)
Definition import_end (a : Archive) (o : ImportOptions) (r : attempt ImportOutcome) : Prop :=
  match r with
  | Done (NeedsConfirmation p) => p = preflight a o ∧ ¬ cleared a o
  | Done (Applied r) =>
      cleared a o ∧ ir_skipped r = pf_skipped (preflight a o)
      ∧ (ic_name <$> ir_imported r) `sublist_of` user_names a
      ∧ (io_atomic o = Batch → ic_name <$> ir_imported r = user_names a ∧ ir_errors r = [])
      ∧ (io_delete_missing o = false → ir_removed r = [])
      ∧ Forall (λ name, is_system_collection name = false ∧ name ∉ ac_name <$> a_schema a) (ir_removed r)
  | Failed _ => True
  end.

Lemma writable_names a existing : (writable (import_plan (a_schema a) existing)).*1 = user_names a.
Proof. rewrite writable_actions. rewrite <-list_fmap_compose. apply list_fmap_id. Qed.

(** C28. an import does only what it was asked to: whatever holds of the schema
    operations and statements it may make holds of everything it does. It creates
    and updates only collections of the archive the names of which do not begin
    with an underscore, never by adopting a table, and drops fields only under
    [delete_missing]; it deletes a collection only under [delete_missing], one that
    is not the system's and that the archive does not have; it writes only records
    of the archive, into the table of their collection. An import that needs a
    confirmation it was not given does nothing but read the schema. And its report
    is what its trace did: every user collection of the archive was created or
    updated; the imported ones are those whose records were written and committed,
    in batch mode all of them in one transaction; an error is a collection whose
    transaction was rolled back or not committed, or, when the first failure ends
    the import, one that was not attempted; the removed ones were deleted, and are
    all those the archive does not have; and the fields said to be removed are
    those the update was to drop. *)
Theorem import_keeps_to_its_archive `{SchemaOps} (P : list event → ∀ X, op X → Prop) (a : Archive) (o : ImportOptions) h
    (R : import_rights P a o) :
  obeys P h (import a o) (λ _ r, import_end a o r)
  ∧ ∀ t r, runs (import a o) t (Done (Applied r)) → done_as_reported a o t r.
Proof.
  split; [|intros t r; apply applied_runs]. unfold import. apply seq_anyhow; [by apply (may_list _ _ _ R)| |done]. clear h. intros h current. cbv zeta.
  destruct (pf_requires_confirmation (preflight a o)) eqn:C; [cbn; unfold cleared; split; [done|congruence]|].
  pose proof (writable_names a (collection_name <$> current)) as W. set (actions := writable _) in *.
  assert (names_ok a actions) as N.
  { apply Forall_forall. intros e I. rewrite <-W. by apply list_elem_of_fmap_2. }
  apply seq_anyhow; [by apply (import_definitions_ok P a o R C)| |done]. clear h. intros h removed.
  apply obeys_then. eapply obeys_mono with (Q := λ _ r, match r with
    | Done (l, es) => (ic_name <$> l) `sublist_of` user_names a ∧ (io_atomic o = Batch → ic_name <$> l = user_names a ∧ es = []) | _ => True end).
  { case_decide as M.
    - apply obeys_then, obeys_db; [by apply (may_begin _ _ _ R)|]. intros [u|e]; [|done]. apply obeys_then.
      eapply obeys_mono; [by apply (import_batch_ok P a o R C)|]. intros h' [l|e]; [|done]. intros E. apply obeys_then, obeys_db; [by apply (may_commit _ _ _ R)|].
      intros [u2|e]; [|done]. cbn in E |- *. rewrite E, W. by split.
    - eapply obeys_mono; [by apply (import_each_ok P a o R C)|]. intros h' [[l es]|e]; [|done]. intros (k & E & S). cbn in E. split; [|done].
      by rewrite E, <-W. }
  clear h. intros h [[l es]|e]; [|done]. intros [L B].
  assert (Forall (λ name, is_system_collection name = false ∧ name ∉ ac_name <$> a_schema a) (undeclared_collections a current)) as U.
  { apply Forall_forall. unfold undeclared_collections. by intros name [I _]%list_elem_of_filter. }
  destruct (io_delete_missing o) eqn:D.
  - apply obeys_then. apply seq_anyhow; [by apply (drop_collections_ok P a o R C)| |done]. intros h' _. cbn. by rewrite D.
  - cbn. by rewrite D.
Qed.

(** * Witnesses *)

Definition notes_definition : ArchiveCollection :=
  {| ac_name := "notes"; ac_type := Some "base"; ac_schema := [JObject [("name", JString "title"); ("type", JString "text")]];
     ac_rules := None; ac_options := Some (JObject []); ac_records := [] |}.
Definition note : Value := JObject [("id", JString "n1"); ("title", JString "hi")].
Definition system_definition : ArchiveCollection := with_records notes_definition [].
Definition sample_archive : Archive :=
  {| a_manifest := fresh_manifest "1.0" "2026-01-01T00:00:00Z" [{| mc_name := "notes"; mc_type := Some "base"; mc_records := 1 |}];
     a_schema := [notes_definition]; a_data := [("notes", [note])] |}.

(** A text per value of the sample, and its reading. *)
Definition tagged_text : JsonText := λ v,
  match v with
  | JObject l => match assoc "format" l, assoc "id" l with Some _, _ => "{m}" | _, Some _ => "{r}" | _, _ => "{s}" end
  | _ => "{}"
  end.
Definition tagged_parse (s : string) : option Value :=
  if decide (s = "{m}") then Some (manifest_value (a_manifest sample_archive))
  else if decide (s = "{s}") then Some (schema_value (a_schema sample_archive))
  else if decide (s = "{r}") then Some note else None.

Lemma backups_read_back_witness :
  (∃ entries, @write_archive tagged_text sample_archive = Ok entries ∧ read_archive tagged_parse entries = Ok sample_archive)
  ∧ ∃ a', archive_from_payload "2.0" "later" (to_payload sample_archive) = Ok a' ∧ a_schema a' = a_schema sample_archive
    ∧ a_data a' = a_data sample_archive ∧ to_payload a' = to_payload sample_archive.
Proof.
  apply (@backups_read_back tagged_text tagged_parse "2.0" "later" sample_archive).
  - unfold archive_wf, manifest_wf, u64. split_and!; try done.
    + apply NoDup_singleton.
    + apply Forall_singleton. split_and!; [done| |done]. by exists (JObject []).
    + by apply Forall_singleton.
    + intros f [= <-]. done.
    + intros t [= <-]. done.
  - unfold archive_reads_back, reads_back. split_and!; try done. apply Forall_singleton. cbn [snd]. apply Forall_singleton. done.
Defined.

(** A schema whose every change is a statement. *)
Definition change (sql : string) (c : Collection) : W Collection := Do (OExecute sql []) (λ _, give c).
Definition statements_schema : SchemaOps :=
  {| schema_list := give [sample_users]; schema_create := λ _, change "create" sample_users; schema_update := λ _ _, change "alter" sample_users;
     schema_delete := λ _ _, change "drop" sample_users |}.
Definition drops_nothing (_ : list event) X (o : op X) : Prop := match o with OExecute sql _ => starts_with "drop" sql = false | _ => True end.
Definition archive_with_system : Archive :=
  {| a_manifest := a_manifest sample_archive;
     a_schema := [notes_definition; {| ac_name := "_admins"; ac_type := Some "base"; ac_schema := []; ac_rules := None; ac_options := None; ac_records := [] |}];
     a_data := [("notes", [note]); ("_admins", [note])] |}.

Lemma import_keeps_to_its_archive_witness :
  obeys drops_nothing [] (@import statements_schema archive_with_system default_import_options)
    (λ _ r, import_end archive_with_system default_import_options r)
  ∧ ∀ t r, runs (@import statements_schema archive_with_system default_import_options) t (Done (Applied r)) →
      @done_as_reported statements_schema archive_with_system default_import_options t r.
Proof.
  apply (@import_keeps_to_its_archive statements_schema drops_nothing archive_with_system default_import_options []).
  by split.
Defined.
