(* ===== verification/Emails.v ===== *)
(** The e-mail flows, [crates/api/src/emails.rs]: verification, password reset
    and change of address, each a request that mails a one-time token and a
    confirmation that spends it.

    Argon2 is a parameter; a token is what the system draws ([OToken]). The
    handlers are programs of interactions ([Effects]); what they leave in the
    table of tokens is [Otps]. *)
From S2P Require Import Prelude CoreError Json Types Ddl Compile Projection Rls Principal Accounts Effects Records FileLinks Handlers Hooks History Mail Samples.

Local Set Warnings "-register-all,-clear-no-such-hyp".

(** [Client::query_opt]: at most one row, and an error for more. *)
Definition query_opt {A} (sql : string) (params : Params) : W (option A) :=
  db (ORows A sql params) ≫= λ rows, match rows with [] => give None | [row] => give (Some row) | _ => refuse Internal end.

(** [TOKEN_TTL_SECONDS] and [MIN_PASSWORD_LEN]. *)
Definition TOKEN_TTL_SECONDS : Z := 24 * 60 * 60.
Definition MIN_PASSWORD_LEN : N := 8.

(** [struct Otp]. *)
Record Otp := { record_ref : string; sent_to : option string }.

Definition SWEEP_OTPS_SQL : string := "delete from _otps where collection_ref = $1 and created_at < now() - make_interval(secs => $2)".
Definition INSERT_OTP_SQL : string :=
  "insert into _otps (id, collection_ref, record_ref, password_hash, sent_to) values ($1, $2, $3, $4, $5)".
Definition LOOKUP_OTP_SQL : string :=
  "select record_ref, sent_to from _otps where collection_ref = $1 and password_hash = $2 and created_at >= now() - make_interval(secs => $3)".
Definition CONSUME_OTP_SQL : string :=
  "delete from _otps where collection_ref = $1 and password_hash = $2 and created_at >= now() - make_interval(secs => $3) returning record_ref, sent_to".

Section emails.
Context `{JsonText, Sha256} (argon2_hash : string → result string) (argon2_verify : string → string → bool).
Context (schema : list Collection).

(** [hash_token]. *)
Definition hash_token (token : string) : string := join "" (Ddl.hex_byte <$> sha256 token).
Definition token_params (collection token : string) : Params :=
  [text_param collection; text_param (hash_token token); PNumber TOKEN_TTL_SECONDS].

(** [mint], [lookup] and [consume]. *)
Definition mint (collection record_ref sent_to : string) : W string :=
  db (OExecute SWEEP_OTPS_SQL [text_param collection; PNumber TOKEN_TTL_SECONDS]) ≫= λ _,
  call OToken ≫= λ drawn,
  lift (ok_or drawn Internal) ≫= λ raw,
  call ONewId ≫= λ id,
  db (OExecute INSERT_OTP_SQL [text_param id; text_param collection; text_param record_ref; text_param (hash_token raw); text_param sent_to]) ≫= λ _,
  give raw.
Definition lookup (collection token : string) : W (option Otp) := query_opt LOOKUP_OTP_SQL (token_params collection token).
Definition consume (collection token : string) : W (option Otp) := query_opt CONSUME_OTP_SQL (token_params collection token).

(** [require_auth_collection], [email_field] and [password_field]. *)
Definition require_auth_collection (c : Collection) : result unit := if is_auth (collection_type c) then Ok () else Err NotFound.
Definition field_of_type (t : FieldType) (absent : string) (c : Collection) : string :=
  match head (filter (λ f, field_type f = t) (fields c)) with Some f => field_name f | None => absent end.
Definition email_field : Collection → string := field_of_type FEmail "email".
Definition password_field : Collection → string := field_of_type FPassword "password_hash".

(** [find_account]: the id and the name to greet the account by. *)
Definition has_name (c : Collection) : bool := existsb (λ f, bool_decide (field_name f = "name")) (fields c).
Definition find_account_sql (c : Collection) : string :=
  let from := " from " +:+ quote_ident (collection_name c) +:+ " where lower(" +:+ quote_ident (email_field c) +:+ ") = lower($1::text)" in
  if has_name c then "select " +:+ dq +:+ "id" +:+ dq +:+ ", " +:+ dq +:+ "name" +:+ dq +:+ from else "select " +:+ dq +:+ "id" +:+ dq +:+ from.
Definition find_account (c : Collection) (email : string) : W (option (string * string)) :=
  query_opt (find_account_sql c) [text_param email] ≫= λ row,
  give (match row with
        | Some (id, name) =>
            let name := if has_name c then name else None in
            Some (id, match name with Some name => if decide (trim name = "") then email else name | None => email end)
        | None => None
        end).

(** [stored_password] and [load_account]. *)
Definition stored_password_sql (c : Collection) : string :=
  "select " +:+ quote_ident (password_field c) +:+ " from " +:+ quote_ident (collection_name c) +:+ " where " +:+ dq +:+ "id" +:+ dq +:+ " = $1::text".
Definition stored_password (c : Collection) (id : string) : W (option string) :=
  query_opt (A:=option string) (stored_password_sql c) [text_param id] ≫= λ row, give (mjoin row).
Definition load_account (c : Collection) (ctx : FilterContext) (id : string) : W Value :=
  get_one c ctx id selection_all expand_none ≫= λ record, lift (ok_or record NotFound).

(** [require_member]: the signed-in account of this collection. *)
Definition require_member (collection : string) (p : Principal) : result (string * string) :=
  claims ← ok_or (claims ← p_claims p; if is_superuser_subject (c_typ claims) then None else Some claims) Unauthorized;
  if decide (c_name claims ≠ collection) then Err Forbidden else Ok (c_sub claims, c_email claims).

(** [validate_password]. *)
Definition validate_password (password : string) (confirm : option string) : result unit :=
  if decide (password = "") then Err Invalid
  else if decide (confirm ≠ Some password) then Err Invalid
  else if (char_count password <? MIN_PASSWORD_LEN)%N then Err Invalid
  else Ok ().

(** An auth collection by its name or id, and a connection. *)
Definition resolved (collection : string) : W (Collection * FilterContext) :=
  lift (resolve schema collection) ≫= λ '(c, ctx), lift (require_auth_collection c) ≫= λ _, give (c, ctx).

(** [request_email], shared by the two requests for an address. *)
Definition request_email (collection email template : string) : W unit :=
  resolved collection ≫= λ '(c, _),
  ask OClient ≫= λ _,
  find_account c email ≫= λ account,
  match account with
  | Some (id, name) =>
      mint collection id email ≫= λ token,
      enqueue_job (mail_job template name email (JObject [("token", JString token)])) ≫= λ _, give tt
  | None => give tt
  end.

(** The bodies. *)
Definition decode_text_body (key : string) (v : Value) : result string := l ← struct_fields [key] v; required_text (assoc key l).
Definition decode_new_password (v : Value) : result (string * string * option string) :=
  l ← struct_fields ["token"; "password"; "passwordConfirm"] v;
  token ← required_text (assoc "token" l); password ← required_text (assoc "password" l); confirm ← optional_text (assoc "passwordConfirm" l);
  Ok (token, password, confirm).
Definition decode_confirm_change (v : Value) : result (string * string) :=
  l ← struct_fields ["token"; "password"] v;
  token ← required_text (assoc "token" l); password ← required_text (assoc "password" l); Ok (token, password).

Definition request_verification (collection : string) (body : Value) : W unit :=
  lift (decode_text_body "email" body) ≫= λ email, request_email collection email "verification".
Definition request_password_reset (collection : string) (body : Value) : W unit :=
  lift (decode_text_body "email" body) ≫= λ email, request_email collection email "password_reset".

(** [confirm_verification]: the table is named by the path. *)
Definition verify_sql (table : string) : string :=
  "update " +:+ quote_ident table +:+ " set " +:+ dq +:+ "verified" +:+ dq +:+ " = true, " +:+ dq +:+ "updated" +:+ dq +:+ " = now() where "
  +:+ dq +:+ "id" +:+ dq +:+ " = $1::text".
Definition record_body (record : Value) : Value := JObject [("record", record)].
Definition confirm_verification (collection : string) (body : Value) : W Value :=
  lift (decode_text_body "token" body) ≫= λ token,
  resolved collection ≫= λ '(c, ctx),
  ask OClient ≫= λ _,
  consume collection token ≫= λ found,
  lift (ok_or found Invalid) ≫= λ otp,
  db (OExecute (verify_sql collection) [text_param (record_ref otp)]) ≫= λ _,
  load_account c ctx (record_ref otp) ≫= λ record, give (record_body record).

(** [confirm_password_reset]. *)
Definition set_field_sql (table field : string) : string :=
  "update " +:+ quote_ident table +:+ " set " +:+ quote_ident field +:+ " = $1, " +:+ dq +:+ "updated" +:+ dq +:+ " = now() where "
  +:+ dq +:+ "id" +:+ dq +:+ " = $2::text".
Definition confirm_password_reset (collection : string) (body : Value) : W unit :=
  lift (decode_new_password body) ≫= λ '(token, password, confirm),
  lift (validate_password password confirm) ≫= λ _,
  resolved collection ≫= λ '(c, _),
  ask OClient ≫= λ _,
  consume collection token ≫= λ found,
  lift (ok_or found Invalid) ≫= λ otp,
  lift (Accounts.hash argon2_hash password) ≫= λ hashed,
  db (OExecute (set_field_sql collection (password_field c)) [text_param hashed; text_param (record_ref otp)]) ≫= λ _,
  revoke_sessions (collection_id c) (record_ref otp) ≫= λ _, give tt.

(** [request_email_change] and [confirm_email_change]. *)
Definition request_email_change (collection : string) (p : Principal) (body : Value) : W unit :=
  lift (decode_text_body "newEmail" body) ≫= λ raw,
  resolved collection ≫= λ _,
  lift (require_member collection p) ≫= λ '(user_id, _),
  let new_email := trim raw in
  if decide (new_email = "") then refuse Invalid
  else
    ask OClient ≫= λ _,
    mint collection user_id new_email ≫= λ token,
    enqueue_job (mail_job "email_change" new_email new_email (JObject [("email", JString new_email); ("token", JString token)])) ≫= λ _, give tt.

Definition confirm_email_change (collection : string) (p : Principal) (body : Value) : W Value :=
  lift (decode_confirm_change body) ≫= λ '(token, password),
  resolved collection ≫= λ '(c, ctx),
  lift (require_member collection p) ≫= λ '(user_id, _),
  ask OClient ≫= λ _,
  lookup collection token ≫= λ found,
  lift (ok_or found Invalid) ≫= λ found,
  if decide (record_ref found ≠ user_id) then refuse Invalid
  else
    stored_password c user_id ≫= λ stored,
    if negb (match stored with Some stored => argon2_verify password stored | None => false end) then refuse Unauthorized
    else
      consume collection token ≫= λ claimed,
      lift (ok_or claimed Invalid) ≫= λ otp,
      lift (ok_or (sent_to otp) Internal) ≫= λ new_email,
      db (OExecute (set_field_sql collection (email_field c)) [text_param new_email; text_param user_id]) ≫= λ _,
      load_account c ctx user_id ≫= λ record, give (record_body record).
End emails.

(** * The table of tokens *)

(** A row of [_otps]; instants are seconds. A token's hash is unique in its
    collection ([_otps_token_idx]). *)
Record OtpRow := { o_collection : string; o_record : string; o_hash : string; o_sent : option string; o_created : Z }.
Definition otp_of (r : OtpRow) : Otp := {| record_ref := o_record r; sent_to := o_sent r |}.
Definition names_token (collection hash : string) (r : OtpRow) : Prop := o_collection r = collection ∧ o_hash r = hash.
#[export] Instance names_token_dec collection hash r : Decision (names_token collection hash r).
Proof. unfold names_token. apply _. Defined.
Definition fresh (now : Z) (r : OtpRow) : Prop := (now - TOKEN_TTL_SECONDS ≤ o_created r)%Z.

(** The statements of [mint], [lookup] and [consume] on the rows. *)
Definition sweep_otps (now : Z) (collection : string) (t : list OtpRow) : list OtpRow :=
  filter (λ r, ¬ (o_collection r = collection ∧ (o_created r < now - TOKEN_TTL_SECONDS)%Z)) t.
Definition insert_otp (r : OtpRow) (t : list OtpRow) : option (list OtpRow) :=
  if decide (Exists (names_token (o_collection r) (o_hash r)) t) then None else Some (t ++ [r]).
Definition is_live (now : Z) (collection hash : string) (r : OtpRow) : bool :=
  bool_decide (names_token collection hash r) && (now - TOKEN_TTL_SECONDS <=? o_created r)%Z.
Definition lookup_otps (now : Z) (collection hash : string) (t : list OtpRow) : list Otp := otp_of <$> filter (λ r, is_live now collection hash r = true) t.
Definition consume_otps (now : Z) (collection hash : string) (t : list OtpRow) : list OtpRow * list Otp :=
  (filter (λ r, is_live now collection hash r = false) t, lookup_otps now collection hash t).

(** What any number of requests do to the table, with what happened: the rows
    minted and the rows spent. *)
Record OtpWorld := { w_rows : list OtpRow; w_minted : list OtpRow; w_spent : list (Z * OtpRow) }.
Inductive otp_step : OtpWorld → OtpWorld → Prop :=
  | step_sweep now collection w : otp_step w {| w_rows := sweep_otps now collection (w_rows w); w_minted := w_minted w; w_spent := w_spent w |}
  | step_mint r t w : insert_otp r (w_rows w) = Some t → o_hash r ∉ (o_hash <$> w_minted w) →
      otp_step w {| w_rows := t; w_minted := w_minted w ++ [r]; w_spent := w_spent w |}
  | step_consume now collection hash w :
      otp_step w {| w_rows := (consume_otps now collection hash (w_rows w)).1; w_minted := w_minted w;
                    w_spent := w_spent w ++ ((λ r, (now, r)) <$> filter (λ r, is_live now collection hash r = true) (w_rows w)) |}.
Definition no_tokens : OtpWorld := {| w_rows := []; w_minted := []; w_spent := [] |}.

Definition otps_ok (w : OtpWorld) : Prop :=
  NoDup (o_hash <$> w_minted w) ∧ (o_hash <$> w_rows w) ++ (o_hash ∘ snd <$> w_spent w) ⊆+ o_hash <$> w_minted w
  ∧ (∀ r, r ∈ w_rows w → r ∈ w_minted w) ∧ (∀ now r, (now, r) ∈ w_spent w → r ∈ w_minted w ∧ fresh now r).

Lemma NoDup_sub {A} (l k : list A) : l ⊆+ k → NoDup k → NoDup l.
Proof. intros [r ->]%submseteq_Permutation N. by apply NoDup_app in N as [N _]. Qed.

Lemma filter_parts {A B} (f : A → B) (P : A → bool) (l : list A) :
  (f <$> filter (λ x, P x = false) l) ++ (f <$> filter (λ x, P x = true) l) ≡ₚ f <$> l.
Proof.
  induction l as [|x l IH]; [done|]. rewrite !filter_cons. destruct (P x); cbn.
  - rewrite decide_False, decide_True by done. cbn. by rewrite <-Permutation_middle, IH.
  - rewrite decide_True, decide_False by done. cbn. by rewrite IH.
Qed.

Lemma otp_step_ok w w' : otp_step w w' → otps_ok w → otps_ok w'.
Proof.
  intros S (N & M & R & C). destruct S as [now collection w|r t w I F|now collection hash w]; unfold otps_ok; cbn.
  - split_and!; try done; [|by intros r [_ I]%list_elem_of_filter; apply R]. etransitivity; [|exact M]. apply submseteq_app; [|done].
    by apply sublist_submseteq, fmap_sublist, sublist_filter.
  - unfold insert_otp in I. case_decide; [done|]. injection I as <-. split_and!.
    + rewrite fmap_app. cbn. apply NoDup_app. split_and!; [done| |apply NoDup_singleton]. intros x X ->%list_elem_of_singleton. by apply F.
    + rewrite !fmap_app. cbn. rewrite (Permutation_app_comm (o_hash <$> w_rows w)), <-app_assoc. cbn.
      rewrite (Permutation_app_comm (o_hash <$> w_minted w)). cbn. by apply submseteq_skip.
    + intros x [X| ->%list_elem_of_singleton]%elem_of_app; apply elem_of_app; [left; by apply R|right; by left].
    + intros now x X. destruct (C now x X) as [C1 C2]. split; [apply elem_of_app; by left|done].
  - split_and!; [done| | |].
    + rewrite fmap_app, <-list_fmap_compose. etransitivity; [|exact M]. rewrite app_assoc, (Permutation_app_comm (_ <$> filter _ _)), <-app_assoc.
      rewrite (Permutation_app_comm (o_hash <$> w_rows w)). apply submseteq_app; [done|].
      rewrite <-(filter_parts o_hash (is_live now collection hash) (w_rows w)). done.
    + intros x [_ X]%list_elem_of_filter. by apply R.
    + intros n x [X|X]%elem_of_app; [by apply C|]. apply list_elem_of_fmap in X as (y & [= -> ->] & [L X]%list_elem_of_filter). split; [by apply R|].
      unfold is_live in L. apply andb_true_iff in L as [_ L]. apply Z.leb_le in L. done.
Qed.

Lemma otps_reachable w : rtc otp_step no_tokens w → otps_ok w.
Proof.
  assert (∀ w0, rtc otp_step w0 w → otps_ok w0 → otps_ok w) as G; [|intros S; apply (G no_tokens S)].
  - intros w0 S. induction S as [|x y z S _ IH]; [done|]. intros O. apply IH. by eapply otp_step_ok.
  - split_and!; cbn; [constructor|done|by intros r ?%not_elem_of_nil|by intros n r ?%not_elem_of_nil].
Qed.

(** However requests interleave, a token is spent at most once, within a day of
    being minted, for the record and the address it was minted for. *)
Theorem tokens_are_spent_once w : rtc otp_step no_tokens w →
  NoDup (o_hash ∘ snd <$> w_spent w) ∧ ∀ now r, (now, r) ∈ w_spent w → r ∈ w_minted w ∧ fresh now r ∧ ∀ r', r' ∈ w_minted w → o_hash r' = o_hash r → r' = r.
Proof.
  intros S. destruct (otps_reachable w S) as (N & M & R & C). split.
  - eapply NoDup_sub; [|exact N]. etransitivity; [|exact M]. by apply submseteq_inserts_l.
  - intros now r I. destruct (C now r I) as [C1 C2]. split_and!; [done..|]. intros r' I' E.
    apply list_elem_of_lookup in I' as [i I']. apply list_elem_of_lookup in C1 as [j C1].
    assert (i = j) as ->; [|congruence]. eapply NoDup_lookup; [exact N| |]; rewrite list_lookup_fmap; [by rewrite I'|]. by rewrite C1, E.
Qed.

(** * What the requests answer *)

(** An operation that went well: a connection, a statement that ran, at most
    one row where one is asked for, and a token drawn. *)
Definition answered (e : event) : Prop :=
  match e with
  | Ev o x =>
      match o in op X return X → Prop with
      | OClient => λ x, x = Ok ()
      | OExecute _ _ => λ x, ∃ n, x = DbOk n
      | ORows _ _ _ => λ x, ∃ rows, x = DbOk rows ∧ length rows ≤ 1
      | OToken => λ x, is_Some x
      | _ => λ _, True
      end x
  end.
Definition all_answered (h : list event) : Prop := Forall answered h.

Lemma not_answered h e : ¬ answered e → ¬ all_answered (h ++ [e]).
Proof. intros N F. unfold all_answered in F. rewrite Forall_app, Forall_singleton in F. by apply N, F. Qed.

Section queries.
Context (P : list event → ∀ X, op X → Prop).

Lemma query_opt_obeys {A} h sql params (Q : list event → attempt (option A) → Prop) :
  P h _ (ORows A sql params) → Q (h ++ [Ev (ORows A sql params) (DbOk [])]) (Done None) →
  (∀ row, Q (h ++ [Ev (ORows A sql params) (DbOk [row])]) (Done (Some row))) →
  (∀ x, ¬ answered (Ev (ORows A sql params) x) → Q (h ++ [Ev (ORows A sql params) x]) (Failed (Other Internal))) →
  obeys P h (query_opt (A:=A) sql params) Q.
Proof.
  intros R N S F. unfold query_opt. apply obeys_then, obeys_db; [done|]. intros [[|row [|row2 rows]]|e]; [exact N|apply S| |].
  - apply F. cbn. intros (l & E & L). injection E as <-. cbn in L. lia.
  - apply F. cbn. by intros (l & E & _).
Qed.

(** Steps that may fail. *)
Lemma db_step {A B} h (o : op (Reply A)) (f : A → W B) (Q : list event → attempt B → Prop) :
  P h _ o → (∀ a, obeys P (h ++ [Ev o (DbOk a)]) (f a) Q) → (∀ e, Q (h ++ [Ev o (DbErr e)]) (Failed (Other Internal))) →
  obeys P h (db o ≫= f) Q.
Proof. intros R S F. apply obeys_then, obeys_db; [done|]. intros [a|e]; [apply S|apply F]. Qed.
Lemma lift_step {A B} h (r : result A) (f : A → W B) (Q : list event → attempt B → Prop) :
  (∀ a, r = Ok a → obeys P h (f a) Q) → (∀ e, r = Err e → Q h (Failed (Other e))) → obeys P h (lift r ≫= f) Q.
Proof. intros S F. apply obeys_then, obeys_lift; [exact S|exact F]. Qed.
Lemma client_step {B} h (f : unit → W B) (Q : list event → attempt B → Prop) :
  P h _ OClient → obeys P (h ++ [Ev OClient (Ok ())]) (f tt) Q → (∀ e, Q (h ++ [Ev OClient (Err e)]) (Failed (Other e))) →
  obeys P h (ask OClient ≫= f) Q.
Proof. intros R S F. apply obeys_then, obeys_ask; [done|]. intros [[]|e]; [exact S|apply F]. Qed.
Lemma call_step {X B} h (o : op X) (f : X → W B) (Q : list event → attempt B → Prop) :
  P h _ o → (∀ x, obeys P (h ++ [Ev o x]) (f x) Q) → obeys P h (call o ≫= f) Q.
Proof. intros R S. apply obeys_then, obeys_call; [done|exact S]. Qed.
Lemma query_step {A B} h sql params (f : option A → W B) (Q : list event → attempt B → Prop) :
  P h _ (ORows A sql params) → obeys P (h ++ [Ev (ORows A sql params) (DbOk [])]) (f None) Q →
  (∀ row, obeys P (h ++ [Ev (ORows A sql params) (DbOk [row])]) (f (Some row)) Q) →
  (∀ x, ¬ answered (Ev (ORows A sql params) x) → Q (h ++ [Ev (ORows A sql params) x]) (Failed (Other Internal))) →
  obeys P h (query_opt (A:=A) sql params ≫= f) Q.
Proof. intros R N S F. by apply obeys_then, query_opt_obeys. Qed.
End queries.

(** The first event is among the history of what follows. *)
Ltac in_history := repeat (rewrite elem_of_app || rewrite elem_of_cons || rewrite elem_of_nil); tauto.

Section requests.
Context `{JsonText, Sha256} (schema : list Collection) (collection email template : string) (c : Collection) (ctx : FilterContext).
Context (Resolved : resolve schema collection = Ok (c, ctx)) (Auth : is_auth (collection_type c) = true).

(** The one message a request queues: to the address that was given, with a
    token the hash of which was stored for the account that has the address. *)
Definition token_mailed (h : list event) (payload : Value) : Prop :=
  ∃ id name shown raw key n,
    Ev (ORows (string * option string) (find_account_sql c) [text_param email]) (DbOk [(id, name)]) ∈ h
    ∧ Ev (OExecute INSERT_OTP_SQL [text_param key; text_param collection; text_param id; text_param (hash_token raw); text_param email]) (DbOk n) ∈ h
    ∧ Ev OToken (Some raw) ∈ h ∧ payload = (mail_job template shown email (JObject [("token", JString raw)])).2.
Definition request_rule (h : list event) (X : Type) (o : op X) : Prop :=
  match o with
  | OExecute sql params =>
      sql = SWEEP_OTPS_SQL ∨ sql = INSERT_OTP_SQL
      ∨ sql = ENQUEUE_SQL ∧ ∃ id kind payload priority most delay, params = [id; kind; PJson payload; priority; most; delay] ∧ token_mailed h payload
  | OClient | ONewId | OToken | ORows _ _ _ => True
  | _ => False
  end.

Lemma request_email_obeys : obeys request_rule [] (request_email schema collection email template) (λ h r, all_answered h → r = Done tt).
Proof.
  unfold request_email, resolved. apply obeys_then. rewrite Resolved. cbn [lift]. rewrite give_then. unfold require_auth_collection. rewrite Auth.
  cbn [lift]. rewrite give_then. cbn [give obeys]. apply client_step; [done| |].
  2:{ intros e N. by apply not_answered in N. }
  unfold find_account. apply obeys_then, query_step; [done| | |].
  - cbn [give obeys]. done.
  - intros [id name]. rewrite give_then || cbn [give obeys]. set (shown := match _ with Some _ => _ | None => _ end).
    unfold mint. apply obeys_then. apply db_step; [by left| |intros e N; by apply not_answered in N; [|intros []]].
    intros n1. apply call_step; [done|]. intros [raw|]; [|intros N; by apply not_answered in N; [|intros []]]. cbn [ok_or lift]. rewrite give_then.
    apply call_step; [done|]. intros key. apply db_step; [by right; left| |intros e N; by apply not_answered in N; [|intros []]].
    intros n2. cbn [give obeys]. unfold enqueue_job, mail_job. apply obeys_then. apply call_step; [done|]. intros job.
    apply db_step; [|intros n3; cbn [give obeys]; done|intros e N; by apply not_answered in N; [|intros []]].
    right. right. split; [done|]. eexists _, _, _, _, _, _. split; [reflexivity|]. exists id, name, shown, raw, key, n2. split_and!; [in_history..|done].
  - intros x N F. by apply not_answered in F.
Qed.
End requests.

(** C29. asking for a verification or a password reset reveals nothing: for an
    auth collection the answer is the same whether or not the address has an
    account, unless an operation of the server failed; and a message is queued
    only for an account that has the address, to that address, with a token drawn
    for it the hash of which was stored for that account. *)
Theorem email_requests_reveal_nothing `{JsonText, Sha256} schema collection email template c ctx
    (Resolved : resolve schema collection = Ok (c, ctx)) (Auth : is_auth (collection_type c) = true) t r
    (R : runs (request_email schema collection email template) t r) :
  (all_answered t → r = Done tt)
  ∧ ∀ t1 params x t2, t = t1 ++ Ev (OExecute ENQUEUE_SQL params) x :: t2 →
      ∃ id kind payload priority most delay, params = [id; kind; PJson payload; priority; most; delay]
        ∧ token_mailed collection email template c t1 payload.
Proof.
  destruct (obeys_runs _ _ _ _ _ _ (request_email_obeys schema collection email template c ctx Resolved Auth) R) as [Q P]. split; [exact Q|].
  intros t1 params x t2 E. destruct (P _ _ _ _ _ E) as [E2|[E2|[_ G]]]; [discriminate E2..|exact G].
Qed.

(** * What the confirmations change *)

Section confirms.
Context `{JsonText, Sha256} (argon2_hash : string → result string) (argon2_verify : string → string → bool).
Context (schema : list Collection) (collection token : string).

(** The token was spent, and this is its row. *)
Definition spent (h : list event) (otp : Otp) : Prop := Ev (ORows Otp CONSUME_OTP_SQL (token_params collection token)) (DbOk [otp]) ∈ h.
(** A confirmation reads, and changes what [may] allows. *)
Definition confirm_rule (may : list event → string → Params → Prop) (h : list event) (X : Type) (o : op X) : Prop :=
  match o with
  | OExecute sql params => may h sql params
  | OClient | ORows _ _ _ | ORecord _ _ => True
  | _ => False
  end.
Definition may_verify (h : list event) (sql : string) (params : Params) : Prop :=
  ∃ otp, spent h otp ∧ sql = verify_sql collection ∧ params = [text_param (record_ref otp)].
Definition may_reset (c : Collection) (password : string) (h : list event) (sql : string) (params : Params) : Prop :=
  ∃ otp hashed, spent h otp ∧ Accounts.hash argon2_hash password = Ok hashed
    ∧ (sql = set_field_sql collection (password_field c) ∧ params = [text_param hashed; text_param (record_ref otp)]
       ∨ sql = REVOKE_SQL ∧ params = [text_param (record_ref otp); text_param (collection_id c)]).
Definition may_move (c : Collection) (user password : string) (h : list event) (sql : string) (params : Params) : Prop :=
  ∃ otp found stored new_email, spent h otp ∧ sent_to otp = Some new_email
    ∧ Ev (ORows Otp LOOKUP_OTP_SQL (token_params collection token)) (DbOk [found]) ∈ h ∧ record_ref found = user
    ∧ Ev (ORows (option string) (stored_password_sql c) [text_param user]) (DbOk [Some stored]) ∈ h ∧ argon2_verify password stored = true
    ∧ sql = set_field_sql collection (email_field c) ∧ params = [text_param new_email; text_param user].

Definition done_after (what : list event → Prop) {A} (h : list event) (r : attempt A) : Prop := match r with Done _ => what h | Failed _ => True end.
Definition did (sql : string) (params : Params) (h : list event) : Prop := ∃ n, Ev (OExecute sql params) (DbOk n) ∈ h.

Lemma load_account_obeys {A} may h c ctx id (f : Value → W A) (Q : list event → attempt A → Prop) :
  (∀ x v, obeys (confirm_rule may) (h ++ [x]) (f v) Q) → (∀ h' e, Q h' (Failed e)) → obeys (confirm_rule may) h (load_account c ctx id ≫= f) Q.
Proof.
  intros F E. unfold load_account, get_one. apply obeys_then, obeys_then. apply lift_step; [|intros; apply E].
  intros document _. apply obeys_db; [done|]. intros [[v|]|e]; cbn; [apply F|apply E..].
Qed.

(** Steps that leave nothing to show. *)
Ltac skip := intros; exact I.

Lemma confirm_verification_obeys body : decode_text_body "token" body = Ok token →
  obeys (confirm_rule may_verify) [] (confirm_verification schema collection body)
    (done_after (λ h, ∃ otp, spent h otp ∧ did (verify_sql collection) [text_param (record_ref otp)] h)).
Proof.
  intros D. unfold confirm_verification. rewrite D. cbn [lift]. rewrite give_then. unfold resolved.
  apply obeys_then, lift_step; [|skip]. intros [c ctx] _. apply lift_step; [|skip]. intros _ _. cbn [give obeys].
  apply client_step; [done| |skip]. apply query_step; [done|exact I| |skip]. intros otp. cbn [ok_or lift]. rewrite give_then.
  apply db_step; [exists otp; split_and!; [unfold spent; in_history|done..]| |skip]. intros n. apply load_account_obeys; [|skip].
  intros x v. cbn. exists otp. split; [unfold spent; in_history|]. exists n. in_history.
Qed.

Lemma confirm_reset_obeys body password confirm c ctx : decode_new_password body = Ok (token, password, confirm) →
  resolve schema collection = Ok (c, ctx) →
  obeys (confirm_rule (may_reset c password)) [] (confirm_password_reset argon2_hash schema collection body)
    (done_after (λ h, ∃ otp hashed, spent h otp ∧ did (set_field_sql collection (password_field c)) [text_param hashed; text_param (record_ref otp)] h
                  ∧ did REVOKE_SQL [text_param (record_ref otp); text_param (collection_id c)] h)).
Proof.
  intros D S. unfold confirm_password_reset. rewrite D. cbn [lift]. rewrite give_then. apply lift_step; [|skip]. intros [] _.
  unfold resolved. rewrite S. apply obeys_then, lift_step; [|skip]. intros [c' ctx'] [= <- <-]. apply lift_step; [|skip]. intros _ _. cbn [give obeys].
  apply client_step; [done| |skip]. apply query_step; [done|exact I| |skip]. intros otp. cbn [ok_or lift]. rewrite give_then.
  apply lift_step; [|skip]. intros hashed Hh. apply db_step; [| |skip].
  { exists otp, hashed. split_and!; [unfold spent; in_history|done|by left]. }
  intros n. unfold revoke_sessions. apply db_step; [| |skip].
  { exists otp, hashed. split_and!; [unfold spent; in_history|done|by right]. }
  intros n2. cbn. exists otp, hashed. split; [unfold spent; in_history|]. split; [exists n; in_history|exists n2; in_history].
Qed.

Lemma confirm_change_obeys p body password c ctx user mail : decode_confirm_change body = Ok (token, password) →
  resolve schema collection = Ok (c, ctx) → require_member collection p = Ok (user, mail) →
  obeys (confirm_rule (may_move c user password)) [] (confirm_email_change argon2_verify schema collection p body)
    (done_after (λ h, ∃ otp new_email, spent h otp ∧ sent_to otp = Some new_email
       ∧ did (set_field_sql collection (email_field c)) [text_param new_email; text_param user] h)).
Proof.
  intros D S M. unfold confirm_email_change. rewrite D. cbn [lift]. rewrite give_then.
  unfold resolved. rewrite S. apply obeys_then, lift_step; [|skip]. intros [c' ctx'] [= <- <-]. apply lift_step; [|skip]. intros _ _. cbn [give obeys].
  rewrite M. cbn [lift]. rewrite give_then. apply client_step; [done| |skip]. apply query_step; [done|exact I| |skip]. intros found.
  cbn [ok_or lift]. rewrite give_then. case_decide as E; [exact I|]. unfold stored_password. apply obeys_then.
  apply query_step; [done|exact I| |skip]. intros [stored|]; cbn [mjoin option_join give obeys]; [|exact I].
  destruct (argon2_verify password stored) eqn:V; [|exact I]. cbn [negb]. apply query_step; [done|exact I| |skip]. intros otp.
  cbn [ok_or lift]. rewrite give_then. apply lift_step; [|skip]. intros new_email N.
  assert (sent_to otp = Some new_email) as N' by (destruct (sent_to otp); [by injection N as <-|done]).
  apply db_step; [| |skip].
  { exists otp, found, stored, new_email. unfold spent. split_and!; try done; in_history. }
  intros n. apply load_account_obeys; [|skip]. intros x v. cbn. exists otp, new_email. split_and!; [unfold spent; in_history|done|].
  exists n. in_history.
Qed.
End confirms.

(** C30. a confirmation changes only the account its token names, and only once
    the token was taken out of the table: a verification marks the record the token
    was minted for; a reset stores the hash of the password it was sent and, before
    it succeeds, has revoked every session of the account; a change of address,
    made by a signed-in account of the collection, needs the token to be that
    account's and its current password, and stores the address the token was mailed
    to. *)
Theorem confirmations_act_on_their_token `{JsonText, Sha256} (argon2_hash : string → result string) (argon2_verify : string → string → bool)
    schema collection token c ctx (Resolved : resolve schema collection = Ok (c, ctx)) t :
  (∀ body r, decode_text_body "token" body = Ok token → runs (confirm_verification schema collection body) t r →
     (∀ t1 sql params x t2, t = t1 ++ Ev (OExecute sql params) x :: t2 → may_verify collection token t1 sql params)
     ∧ done_after (λ h, ∃ otp, spent collection token h otp ∧ did (verify_sql collection) [text_param (record_ref otp)] h) t r)
  ∧ (∀ body password confirm r, decode_new_password body = Ok (token, password, confirm) →
     runs (confirm_password_reset argon2_hash schema collection body) t r →
     (∀ t1 sql params x t2, t = t1 ++ Ev (OExecute sql params) x :: t2 → may_reset argon2_hash collection token c password t1 sql params)
     ∧ done_after (λ h, ∃ otp hashed, spent collection token h otp
          ∧ did (set_field_sql collection (password_field c)) [text_param hashed; text_param (record_ref otp)] h
          ∧ did REVOKE_SQL [text_param (record_ref otp); text_param (collection_id c)] h) t r)
  ∧ ∀ p body password user mail r, decode_confirm_change body = Ok (token, password) → require_member collection p = Ok (user, mail) →
     runs (confirm_email_change argon2_verify schema collection p body) t r →
     (∀ t1 sql params x t2, t = t1 ++ Ev (OExecute sql params) x :: t2 → may_move argon2_verify collection token c user password t1 sql params)
     ∧ done_after (λ h, ∃ otp new_email, spent collection token h otp ∧ sent_to otp = Some new_email
          ∧ did (set_field_sql collection (email_field c)) [text_param new_email; text_param user] h) t r.
Proof.
  split_and!.
  - intros body r D R. destruct (obeys_runs _ _ _ _ _ _ (confirm_verification_obeys argon2_hash argon2_verify schema collection token body D) R) as [Q P].
    split; [|exact Q]. intros t1 sql params x t2 E. exact (P _ _ _ _ _ E).
  - intros body password confirm r D R.
    destruct (obeys_runs _ _ _ _ _ _ (confirm_reset_obeys argon2_hash argon2_verify schema collection token body password confirm c ctx D Resolved) R) as [Q P].
    split; [|exact Q]. intros t1 sql params x t2 E. exact (P _ _ _ _ _ E).
  - intros p body password user mail r D M R.
    destruct (obeys_runs _ _ _ _ _ _ (confirm_change_obeys argon2_hash argon2_verify schema collection token p body password c ctx user mail D Resolved M) R) as [Q P].
    split; [|exact Q]. intros t1 sql params x t2 E. exact (P _ _ _ _ _ E).
Qed.

(** * Witnesses *)

Definition no_digest : Sha256 := λ _, [].
Definition members_schema : list Collection := [sample_users].
Definition plain_hash (s : string) : result string := Ok ("hash:" +:+ s).
Definition plain_verify (password stored : string) : bool := bool_decide (stored = "hash:" +:+ password).
Definition members_context : FilterContext :=
  match @resolve sample_json_text members_schema "users" with Ok (_, ctx) => ctx | Err _ => MkContext "" "" ∅ [] end.

#[local] Existing Instance sample_json_text.
#[local] Existing Instance no_digest.

(** The next answer of a run. *)
Ltac answer x := exists x; eexists; split; [reflexivity|].
Abbreviation account_row := (list (string * option string)).

Lemma email_requests_reveal_nothing_witness : ∃ t1 t2,
  (runs (request_email members_schema "users" "a@b.c" "verification") t1 (Done tt) ∧ all_answered t1 ∧ length t1 = 8)
  ∧ runs (request_email members_schema "users" "nobody@b.c" "verification") t2 (Done tt) ∧ all_answered t2 ∧ length t2 = 2
  ∧ ∀ t r, runs (request_email members_schema "users" "a@b.c" "verification") t r → all_answered t → r = Done tt.
Proof.
  assert (∀ t r, runs (request_email members_schema "users" "a@b.c" "verification") t r → all_answered t → r = Done tt) as G.
  { intros t r R. by apply (email_requests_reveal_nothing members_schema "users" "a@b.c" "verification" sample_users members_context eq_refl eq_refl t r R). }
  eexists _, _. split_and!; [| | |answer (Ok () : result unit); answer (DbOk (A:=account_row) []); split; reflexivity| | |exact G].
  - answer (Ok () : result unit). answer (DbOk (A:=account_row) [("u1", None)]). answer (DbOk 0%Z). answer (Some "tok"). answer "o1".
    answer (DbOk 1%Z). answer "j1". answer (DbOk 1%Z). split; reflexivity.
  - repeat (apply Forall_cons; split; [cbn; eauto|]). apply Forall_nil_2.
  - reflexivity.
  - repeat (apply Forall_cons; split; [cbn; eauto|]). apply Forall_nil_2.
  - reflexivity.
Defined.

Definition member : Principal :=
  from_claims {| c_sub := "u1"; c_col := "u"; c_name := "users"; c_email := "a@b.c"; c_typ := SAuth; c_iat := 0; c_exp := 10; c_kid := ""; c_tkey := "" |} [].
Definition reset_body : Value := JObject [("password", JString "new secret"); ("passwordConfirm", JString "new secret"); ("token", JString "tok")].
Definition move_body : Value := JObject [("password", JString "secret"); ("token", JString "tok")].

Lemma confirmations_act_on_their_token_witness : ∃ t r,
  runs (confirm_password_reset plain_hash members_schema "users" reset_body) t r
  ∧ (∀ t1 sql params x t2, t = t1 ++ Ev (OExecute sql params) x :: t2 → may_reset plain_hash "users" "tok" sample_users "new secret" t1 sql params)
  ∧ r = Done tt.
Proof.
  assert (∃ t, runs (confirm_password_reset plain_hash members_schema "users" reset_body) t (Done tt)) as [t R].
  { eexists. answer (Ok () : result unit). answer (DbOk (A:=list Otp) [{| record_ref := "u1"; sent_to := Some "a@b.c" |}]).
    answer (DbOk 1%Z). answer (DbOk 2%Z). split; reflexivity. }
  exists t, (Done tt). split; [exact R|].
  destruct (confirmations_act_on_their_token plain_hash plain_verify members_schema "users" "tok" sample_users members_context eq_refl t) as (_ & G & _).
  destruct (G reset_body "new secret" (Some "new secret") (Done tt) eq_refl R) as [P _]. by split.
Defined.

(** A token that was mailed to a new address resets the password: the table
    does not say what a token is for. *)
Example change_token_resets_the_password :
  let row := {| o_collection := "users"; o_record := "u1"; o_hash := hash_token "tok"; o_sent := Some "new@b.c"; o_created := 100 |} in
  let '(rest, found) := consume_otps 200 "users" (hash_token "tok") [row] in
  (∃ t, runs (request_email_change members_schema "users" member (JObject [("newEmail", JString "new@b.c")])) t (Done tt)
     ∧ Ev (OExecute INSERT_OTP_SQL [text_param "o1"; text_param "users"; text_param "u1"; text_param (hash_token "tok"); text_param "new@b.c"]) (DbOk 1%Z) ∈ t)
  ∧ rest = [] ∧ ∃ t, runs (confirm_password_reset plain_hash members_schema "users" reset_body) t (Done tt)
     ∧ Ev (ORows Otp CONSUME_OTP_SQL (token_params "users" "tok")) (DbOk found) ∈ t
     ∧ did (set_field_sql "users" "password_hash") [text_param "hash:new secret"; text_param "u1"] t.
Proof.
  cbn zeta. split_and!.
  - eexists. split.
    + answer (Ok () : result unit). answer (DbOk 0%Z). answer (Some "tok"). answer "o1". answer (DbOk 1%Z). answer "j1". answer (DbOk 1%Z). split; reflexivity.
    + do 4 right. left.
  - reflexivity.
  - eexists. split_and!.
    + answer (Ok () : result unit). answer (DbOk (A:=list Otp) [{| record_ref := "u1"; sent_to := Some "new@b.c" |}]). answer (DbOk 1%Z). answer (DbOk 2%Z).
      split; reflexivity.
    + right. left.
    + exists 1%Z. do 2 right. left.
Qed.

(** A collection named by its id is found, but its table is not: the statement
    names the id, after the token was spent. *)
Example confirmation_by_id_updates_no_table : ∃ t,
  runs (confirm_password_reset plain_hash members_schema "u" reset_body) t (Failed (Other Internal))
  ∧ Ev (OExecute (set_field_sql "u" "password_hash") [text_param "hash:new secret"; text_param "u1"]) (DbErr {| db_code := Some "42P01" |}) ∈ t.
Proof.
  eexists. split.
  - answer (Ok () : result unit). answer (DbOk (A:=list Otp) [{| record_ref := "u1"; sent_to := None |}]).
    answer (DbErr (A:=Z) {| db_code := Some "42P01" |}). split; reflexivity.
  - do 2 right. left.
Qed.
