(* ===== verification/OAuth2.v ===== *)
(** Signing in through a provider: the flow of [crates/api/src/oauth2.rs] and
    its endpoints in [crates/api/src/auth.rs], with the list of origins of
    [crates/api/src/cors.rs] that decides where a code may be posted.

    The network, the form encoding of a query ([serde_urlencoded]), base64 and
    the signature of a token are parameters; the provider may answer anything. *)
From S2P Require Import Prelude CoreError Json Types Ddl Compile Projection Read Rls Principal Accounts HookHttp Effects Records FileLinks Handlers Hooks History Emails Samples.

Local Set Warnings "-register-all,-clear-no-such-hyp".

(** * Texts *)

(** [str::split_whitespace]: the pieces between white space that are not empty. *)
Definition onto_head (a : ascii) (l : list string) : list string := match l with [] => [String a ""] | p :: ps => String a p :: ps end.
Fixpoint white_pieces (s : string) : list string :=
  match s with
  | EmptyString => [""]
  | String a r =>
      if is_ws1 a then "" :: white_pieces r
      else match r with
           | EmptyString => onto_head a (white_pieces r)
           | String b r2 =>
               if is_ws2 a b then "" :: white_pieces r2
               else match r2 with
                    | EmptyString => onto_head a (white_pieces r)
                    | String c r3 => if is_ws3 a b c then "" :: white_pieces r3 else onto_head a (white_pieces r)
                    end
           end
  end.
Definition split_whitespace (s : string) : list string := filter (λ p, p ≠ "") (white_pieces s).

(** [split_once] of a text, and [replace("</", "<\/")]. *)
Fixpoint split_once_text (sep s : string) : option (string * string) :=
  match strip_prefix sep s with
  | Some r => Some ("", r)
  | None => match s with EmptyString => None | String c r => (λ '(a, b), (String c a, b)) <$> split_once_text sep r end
  end.
Definition lt_char : ascii := "060"%char.
Definition slash : ascii := "047"%char.
Fixpoint escape_close (s : string) : string :=
  match s with
  | EmptyString => EmptyString
  | String a r =>
      match r with
      | String b r2 =>
          if decide (a = lt_char ∧ b = slash) then String lt_char (String backslash (String slash (escape_close r2)))
          else String a (escape_close r)
      | EmptyString => String a (escape_close r)
      end
  end.

(** * Providers *)

(** [enum ProviderKind], [struct Provider], [struct Preset] and [preset]. *)
Inductive ProviderKind := Google | GitHub | Generic.
#[export] Instance ProviderKind_eq_dec : EqDecision ProviderKind.
Proof. solve_decision. Defined.
Record Provider := {
  pv_name : string; pv_client_id : string; pv_client_secret : string; pv_authorize_url : string; pv_token_url : string; pv_user_url : string;
  pv_scopes : list string; pv_redirect_uri : string; pv_kind : ProviderKind;
}.
Record Preset := { ps_authorize_url : string; ps_token_url : string; ps_user_url : string; ps_scopes : string; ps_kind : ProviderKind }.
Definition preset (name : string) : option Preset :=
  if decide (name = "google") then
    Some {| ps_authorize_url := "https://accounts.google.com/o/oauth2/v2/auth"; ps_token_url := "https://oauth2.googleapis.com/token";
            ps_user_url := "https://openidconnect.googleapis.com/v1/userinfo"; ps_scopes := "openid email profile"; ps_kind := Google |}
  else if decide (name = "github") then
    Some {| ps_authorize_url := "https://github.com/login/oauth/authorize"; ps_token_url := "https://github.com/login/oauth/access_token";
            ps_user_url := "https://api.github.com/user"; ps_scopes := "read:user user:email"; ps_kind := GitHub |}
  else None.

(** [provider] and [providers]. *)
Definition given_text (l : list (string * Value)) (key : string) : option string :=
  v ← assoc key l; s ← as_str v; if decide (trim s = "") then None else Some (trim s).
Definition provider (name : string) (config : list (string * Value)) : result Provider :=
  client_id ← ok_or (given_text config "client_id") Config;
  client_secret ← ok_or (given_text config "client_secret") Config;
  redirect_uri ← ok_or (given_text config "redirect_uri") Config;
  let p := preset name in
  let url key built_in := ok_or (match given_text config key with Some u => Some u | None => built_in <$> p end) Config in
  authorize_url ← url "authorize_url" ps_authorize_url;
  token_url ← url "token_url" ps_token_url;
  user_url ← url "user_url" ps_user_url;
  let scopes := match assoc "scopes" config with
                | Some (JArray items) => omap as_str items
                | Some (JString raw) => split_whitespace raw
                | _ => match p with Some p => split_whitespace (ps_scopes p) | None => [] end
                end in
  Ok {| pv_name := name; pv_client_id := client_id; pv_client_secret := client_secret; pv_authorize_url := authorize_url;
        pv_token_url := token_url; pv_user_url := user_url; pv_scopes := scopes; pv_redirect_uri := redirect_uri;
        pv_kind := match p with Some p => ps_kind p | None => Generic end |}.
Definition provider_of (entry : Value) : result Provider :=
  raw ← ok_or (get entry "name" ≫= as_str) Config;
  let name := trim raw in
  if decide (name = "") then Err Config else provider name (default [] (get entry "config" ≫= as_object)).
Definition providers (settings : Value) : result (list Provider) :=
  match get settings "providers" ≫= as_array with None => Ok [] | Some list => try_map provider_of list end.

(** [configured]. *)
Definition OAUTH2_SETTING_SQL : string := "select value from _settings where key = 'oauth2'".
Definition configured : W (list Provider) :=
  query_opt OAUTH2_SETTING_SQL [] ≫= λ row, lift (providers (default JNull row)).

(** * The user of a provider *)

(** [struct OAuthUser], [scalar_string] and [field_string]. *)
Record OAuthUser := { ou_provider_id : string; ou_email : option string; ou_name : option string; ou_picture : option string }.
Definition scalar_string `{JsonText} (v : Value) : option string :=
  match v with
  | JString s => if decide (trim s = "") then None else Some (trim s)
  | JNumber _ => Some (json_text v)
  | _ => None
  end.
Definition field_string `{JsonText} (payload : Value) (keys : list string) : option string :=
  head (omap (λ key, get payload key ≫= scalar_string) keys).

(** [normalize_redirect_uri]. *)
Definition normalize_redirect_uri (url : string) : option string :=
  let trimmed := trim url in
  let lower := to_ascii_lowercase trimmed in
  if negb (starts_with "http://" lower || starts_with "https://" lower) then None
  else
    let without_fragment := default trimmed (head (split_on "#"%char trimmed)) in
    let rest := match split_once_text "://" without_fragment with Some (_, rest) => rest | None => "" end in
    if decide (rest = "") then None else if starts_with "/" rest then None else Some without_fragment.

Definition is_success (status : Z) : bool := (200 <=? status)%Z && (status <? 300)%Z.

Section oauth2.
Context `{JsonText, Sha256} (parse_json : string → option Value) (form : list (string * string) → string) (base64_url : list Z → string).

(** [struct Pkce], its [new], and [authorize_url]. *)
Record Pkce := { pk_verifier : string; pk_challenge : string; pk_state : string }.
Definition new_pkce : W Pkce :=
  call OToken ≫= λ verifier, lift (ok_or verifier Internal) ≫= λ verifier,
  call OToken ≫= λ state, lift (ok_or state Internal) ≫= λ state,
  give {| pk_verifier := verifier; pk_challenge := base64_url (sha256 verifier); pk_state := state |}.
Definition authorize_url (p : Provider) (k : Pkce) : string :=
  let params := [("response_type", "code"); ("client_id", pv_client_id p); ("redirect_uri", pv_redirect_uri p); ("state", pk_state k);
                 ("code_challenge", pk_challenge k); ("code_challenge_method", "S256")]
                ++ (if decide (pv_scopes p = []) then [] else [("scope", join " " (pv_scopes p))]) in
  pv_authorize_url p +:+ (if str_contains "?" (pv_authorize_url p) then "&" else "?") +:+ form params.

(** [exchange]: what the provider's token endpoint answers to the code. *)
Definition exchange_call (p : Provider) (code verifier redirect_uri : string) : HttpCall :=
  {| c_method := "POST"; c_url := pv_token_url p;
     c_headers := [("accept", "application/json"); ("content-type", "application/x-www-form-urlencoded")];
     c_body := Some (form [("grant_type", "authorization_code"); ("code", code); ("redirect_uri", redirect_uri);
                           ("client_id", pv_client_id p); ("client_secret", pv_client_secret p); ("code_verifier", verifier)]);
     c_timeout := Some 30000%Z |}.
Definition access_token_of (r : HttpResponse) : option string :=
  if is_success (r_status r) then token ← get (default JNull (parse_json (r_body r))) "access_token" ≫= as_str; if decide (token = "") then None else Some token
  else None.
Definition http (c : HttpCall) : W HttpResponse :=
  Do (OHttp c) (λ r, match r with Ok r => give r | Err _ => refuse Unauthorized end).
Definition exchange (p : Provider) (code verifier redirect_uri : string) : W string :=
  lift (ok_or (normalize_redirect_uri redirect_uri) Invalid) ≫= λ redirect_uri,
  http (exchange_call p code verifier redirect_uri) ≫= λ r,
  lift (ok_or (access_token_of r) Unauthorized).

(** [fetch_json], [github_primary_email] and [user]. *)
Definition profile_call (url token : string) : HttpCall :=
  {| c_method := "GET"; c_url := url; c_headers := [("authorization", "Bearer " +:+ token); ("accept", "application/json"); ("user-agent", "lazypock")];
     c_body := None; c_timeout := Some 30000%Z |}.
Definition json_of (r : HttpResponse) : option Value := if is_success (r_status r) then parse_json (r_body r) else None.
Definition fetch_json (url token : string) : W Value :=
  http (profile_call url token) ≫= λ r, lift (ok_or (json_of r) Unauthorized).
Definition flag (key : string) (v : Value) : bool := bool_decide (get v key ≫= as_bool = Some true).
Definition primary_email (list : list Value) : option string :=
  let found := match head (filter (λ e, flag "primary" e = true ∧ flag "verified" e = true) list) with
               | Some e => Some e
               | None => head (filter (λ e, flag "verified" e = true) list)
               end in
  e ← found; get e "email" ≫= as_str.
Definition GITHUB_EMAILS_URL : string := "https://api.github.com/user/emails".
Definition github_primary_email (token : string) : W (option string) :=
  pbind (fetch_json GITHUB_EMAILS_URL token) (λ r, give (match r with Done v => as_array v ≫= primary_email | Failed _ => None end)).
Definition provider_id_of (p : Provider) (payload : Value) : option string :=
  if decide (pv_kind p = GitHub) then get payload "id" ≫= scalar_string else field_string payload ["sub"; "id"].
Definition user_of_provider (p : Provider) (token : string) : W OAuthUser :=
  fetch_json (pv_user_url p) token ≫= λ payload,
  lift (ok_or (provider_id_of p payload) Unauthorized) ≫= λ provider_id,
  (match field_string payload ["email"] with
   | Some email => give (Some email)
   | None => if decide (pv_kind p = GitHub) then github_primary_email token else give None
   end) ≫= λ email,
  give {| ou_provider_id := provider_id; ou_email := email; ou_name := field_string payload ["name"; "login"; "preferred_username"];
          ou_picture := field_string payload ["picture"; "avatar_url"] |}.

(** * Links and flows *)

(** [find_link] and [link]. *)
Definition FIND_LINK_SQL : string := "select user_id from _external_auths where collection = $1 and provider = $2 and provider_id = $3".
Definition LINK_SQL : string :=
  "insert into _external_auths (id, collection, provider, provider_id, user_id) values ($1, $2, $3, $4, $5) on conflict (collection, provider, provider_id) do nothing".
Definition identity_params (collection provider provider_id : string) : Params :=
  [text_param collection; text_param provider; text_param provider_id].
Definition find_link (collection provider provider_id : string) : W (option string) :=
  query_opt FIND_LINK_SQL (identity_params collection provider provider_id).
Definition link (collection provider provider_id user_id : string) : W string :=
  call ONewId ≫= λ id,
  db (OExecute LINK_SQL (text_param id :: identity_params collection provider provider_id ++ [text_param user_id])) ≫= λ _,
  find_link collection provider provider_id ≫= λ found, lift (ok_or found Internal).

(** [remember_flow] and [take_flow]. *)
Definition FLOW_TTL_SECONDS : Z := 10 * 60.
Definition SWEEP_FLOWS_SQL : string := "delete from _auth_origins where created_at < now() - make_interval(secs => $1)".
Definition REMEMBER_FLOW_SQL : string :=
  "insert into _auth_origins (id, collection_ref, fingerprint, data) values ($1, $2, $3, $4) on conflict (collection_ref, fingerprint) do update set data = excluded.data, updated_at = now()".
Definition TAKE_FLOW_SQL : string :=
  "delete from _auth_origins where fingerprint = $1 and created_at >= now() - make_interval(secs => $2) returning data".
Definition remember_flow (collection state : string) (data : Value) : W unit :=
  db (OExecute SWEEP_FLOWS_SQL [PNumber FLOW_TTL_SECONDS]) ≫= λ _,
  call ONewId ≫= λ id,
  db (OExecute REMEMBER_FLOW_SQL [text_param id; text_param collection; text_param state; PJson data]) ≫= λ _, give tt.
Definition take_flow (state : string) : W (option Value) := query_opt TAKE_FLOW_SQL [text_param state; PNumber FLOW_TTL_SECONDS].
End oauth2.

(** * The endpoints *)

(** [CorsPolicy]: the allowlist of a setting, and what it allows. *)
Definition ANY : string := "*".
Fixpoint trim_slashes (s : string) : string :=
  match s with
  | EmptyString => EmptyString
  | String c r => let r' := trim_slashes r in if decide (r' = "" ∧ c = slash) then "" else String c r'
  end.
Definition origins_of (setting : option Value) : list string :=
  filter (λ o, o ≠ "") ((λ o, trim_slashes (trim o)) <$> omap as_str (default [] (setting ≫= as_array))).
Definition allows (origins : list string) (origin : string) : bool :=
  let candidate := trim_slashes (trim origin) in
  existsb (λ entry, bool_decide (entry = ANY) || bool_decide (to_ascii_lowercase entry = to_ascii_lowercase candidate)) origins.

(** [app_origin], of the headers [Origin] and [Host]. *)
Definition app_origin (origins : list string) (public_url origin host : option string) : string :=
  let own := match public_url with
             | Some url => trim_slashes url
             | None => match host with Some host => "http://" +:+ host | None => "" end
             end in
  match origin with Some origin => if allows origins (trim origin) then trim origin else own | None => own end.

(** [is_protected_create_field] and [oauth2_create_input], with the password
    that was drawn. *)
Definition PROTECTED : list string :=
  ["id"; "created"; "updated"; "collectionId"; "collectionName"; "expand"; "password"; "passwordConfirm"; "tokenKey"; "verified"; "emailVisibility"].
Definition is_protected_create_field (key : string) : bool := bool_decide (key ∈ PROTECTED).
Definition has_field (c : Collection) (name : string) : bool := existsb (λ f, bool_decide (field_name f = name)) (fields c).
Definition put (key : string) (v : Value) (l : list (string * Value)) : list (string * Value) := assoc_insert key v l.
Definition put_some (key : string) (v : option string) (l : list (string * Value)) : list (string * Value) :=
  match v with Some s => put key (JString s) l | None => l end.
Definition may_fill (c : Collection) (key : string) : bool :=
  negb (is_protected_create_field key) && bool_decide (key ≠ email_field c) && bool_decide (key ≠ password_field c) && has_field c key.
Definition server_input (c : Collection) (u : OAuthUser) (password : string) : list (string * Value) :=
  let l := put_some (email_field c) (ou_email u) [] in
  let l := put (password_field c) (JString password) l in
  let l := if has_field c "verified" then put "verified" (JBool true) l else l in
  let l := if has_field c "name" then put_some "name" (ou_name u) l else l in
  if has_field c "avatar" then put_some "avatar" (ou_picture u) l else l.
Definition oauth2_create_input (c : Collection) (u : OAuthUser) (create_data : option Value) (password : string) : Value :=
  JObject (foldl (λ l '(key, v), if may_fill c key then put key v l else l) (server_input c u password)
                 (match create_data with Some (JObject extra) => extra | _ => [] end)).
(** [random_password]: 24 bytes as text, zeros when the generator fails. *)
Definition no_random_password : string := Nat.iter 32 (String "A"%char) "".
Definition random_password : W string := call OToken ≫= λ drawn, give (default no_random_password drawn).

Section endpoints.
Context `{JsonText, Sha256} (parse_json : string → option Value) (form : list (string * string) → string) (base64_url : list Z → string).
Context (argon2_hash : string → result string) (sign : Claims → option string) (k : Signer) (schema : list Collection).

(** [AuthService::issue_for_record] with [sessions::issue], as statements. *)
Definition account_sql (c : Collection) : string :=
  "select " +:+ dq +:+ "email" +:+ dq +:+ ", " +:+ dq +:+ "token_key" +:+ dq +:+ " from " +:+ quote_ident (collection_name c) +:+ " where "
  +:+ dq +:+ "id" +:+ dq +:+ " = $1::text".
Definition INSERT_SESSION_SQL : string :=
  "insert into _sessions (id, collection_id, user_id, token_hash, family_id, expires_at, user_agent, ip) values ($1::text, nullif($2::text, ''), $3::text, $4::text, $5::text, now() + make_interval(secs => $6::text::int), nullif($7::text, ''), nullif($8::text, '')) returning id, collection_id, user_id, family_id, expires_at, revoked_at".
Definition session_params (id collection user token family : string) : Params :=
  [text_param id; text_param collection; text_param user; text_param (hash_token token); text_param family; text_param "2592000"; text_param ""; text_param ""].
Definition issue_session (collection user : string) : W string :=
  call ONewId ≫= λ family,
  call OToken ≫= λ token, lift (ok_or token Internal) ≫= λ token,
  call ONewId ≫= λ id,
  db (ORows Sessions.Session INSERT_SESSION_SQL (session_params id collection user token family)) ≫= λ rows,
  match rows with [_] => give token | _ => refuse Internal end.
Definition sign_in_record (c : Collection) (record_id : string) : W AuthOutcome :=
  ask OClient ≫= λ _,
  query_opt (A:=option string * option string) (account_sql c) [text_param record_id] ≫= λ row,
  lift (ok_or row Unauthorized) ≫= λ '(email, token_key),
  ask OClient ≫= λ _,
  issue_session (Types.collection_id c) record_id ≫= λ refresh,
  lift (sign_for sign k SAuth record_id (default "" email) (Types.collection_id c) (collection_name c) (default "" token_key)) ≫= λ access,
  give {| access_token := access; refresh_token := refresh; expires_in := ACCESS_TOKEN_TTL; o_subject := SAuth; o_user := record_id;
          o_collection_id := Types.collection_id c; o_collection_name := collection_name c |}.
Definition auth_body (o : AuthOutcome) (record : Value) : Value :=
  JObject [("expiresIn", number (expires_in o)); ("record", record); ("refreshToken", JString (refresh_token o)); ("token", JString (access_token o))].

(** [auth_methods]. *)
Definition provider_method (collection origin : string) (p : Provider) : W Value :=
  new_pkce base64_url ≫= λ pkce,
  remember_flow collection (pk_state pkce) (JObject [("app_origin", JString origin); ("provider", JString (pv_name p))]) ≫= λ _,
  give (JObject [("authURL", JString (authorize_url form p pkce)); ("codeVerifier", JString (pk_verifier pkce)); ("name", JString (pv_name p));
                 ("state", JString (pk_state pkce))]).
Fixpoint provider_methods (collection origin : string) (ps : list Provider) : W (list Value) :=
  match ps with
  | [] => give []
  | p :: ps => provider_method collection origin p ≫= λ m, provider_methods collection origin ps ≫= λ ms, give (m :: ms)
  end.
Definition enabled (b : bool) : Value := JObject [("enabled", JBool b)].
Definition auth_methods (collection origin : string) : W Value :=
  (if decide (collection = SUPERUSERS) then give []
   else
     resolved schema collection ≫= λ _,
     ask OClient ≫= λ _, configured ≫= λ ps, provider_methods collection origin ps) ≫= λ listed,
  give (JObject [("mfa", enabled false); ("oauth2", JObject [("enabled", JBool (negb (bool_decide (listed = [])))); ("providers", JArray listed)]);
                 ("otp", enabled false); ("password", enabled true)]).

(** [struct OAuth2Auth] and [auth_with_oauth2]. *)
Record OAuth2Auth := { oa_provider : string; oa_code : string; oa_code_verifier : string; oa_redirect_url : string; oa_create_data : option Value }.
Definition find_provider (name : string) (ps : list Provider) : option Provider := head (filter (λ p, pv_name p = name) ps).
Definition first_sign_in (collection : string) (c : Collection) (ctx : FilterContext) (p : Provider) (u : OAuthUser) (create_data : option Value) : W string :=
  random_password ≫= λ password,
  let input := oauth2_create_input c u create_data password in
  validate_first c input false ≫= λ _,
  auth_extra argon2_hash c input ≫= λ extra,
  create_with c ctx input extra (scoped_before (hook_anonymous (collection_name c))) ≫= λ record,
  lift (ok_or (get record "id" ≫= as_str) Internal) ≫= λ created,
  link collection (pv_name p) (ou_provider_id u) created.
Definition auth_with_oauth2 (collection : string) (q : OAuth2Auth) : W Value :=
  if decide (collection = SUPERUSERS) then refuse NotFound
  else
    resolved schema collection ≫= λ '(c, ctx),
    ask OClient ≫= λ _,
    configured ≫= λ ps,
    lift (ok_or (find_provider (oa_provider q) ps) NotFound) ≫= λ p,
    exchange parse_json form p (oa_code q) (oa_code_verifier q) (oa_redirect_url q) ≫= λ token,
    user_of_provider parse_json p token ≫= λ u,
    find_link collection (pv_name p) (ou_provider_id u) ≫= λ linked,
    (match linked with
     | Some id => give id
     | None => first_sign_in collection c ctx p u (oa_create_data q)
     end) ≫= λ record_id,
    get_one c ctx record_id selection_all expand_none ≫= λ record,
    lift (ok_or record Internal) ≫= λ record,
    sign_in_record c record_id ≫= λ outcome,
    give (auth_body outcome record).
End endpoints.

(** [oauth2_bridge] and [oauth2_redirect]. *)
Definition quoted (s : string) : string := dq +:+ s +:+ dq.
Definition page_head : string :=
  "<!doctype html><meta charset=" +:+ quoted "utf-8" +:+ "><title>Signing in…</title><script id=" +:+ quoted "payload" +:+ " type="
  +:+ quoted "application/json" +:+ ">".
Definition page_script : string := "</script><script>(function(){var p = JSON.parse(document.getElementById('payload').textContent);if (window.opener) { window.opener.postMessage(p, ".
Definition page_tail : string := "); }window.close();})();</script>".
Definition bridge_page `{JsonText} (origin : string) (payload : Value) : string :=
  page_head +:+ escape_close (json_text payload) +:+ page_script +:+ json_text (JString origin) +:+ page_tail.
Definition unknown_origin_page : string := "<p>This sign-in could not be completed: the app origin is unknown.</p>".
Definition oauth2_bridge `{JsonText} (origin : string) (payload : Value) : Z * string :=
  if decide (trim origin = "") then (400%Z, unknown_origin_page) else (200%Z, bridge_page origin payload).

Definition error_payload (message : string) : Value := JObject [("message", JString message); ("type", JString "lazypock:oauth2:error")].
Definition code_payload (code state : string) : Value := JObject [("code", JString code); ("state", JString state); ("type", JString "lazypock:oauth2")].
Definition oauth2_redirect `{JsonText} (params : list (string * string)) : prog (Z * string) :=
  let state := default "" (assoc "state" params) in
  pbind (ask OClient ≫= λ _, take_flow state) (λ r,
    let flow := match r with Done flow => flow | Failed _ => None end in
    let origin := default "" (flow ≫= λ f, get f "app_origin" ≫= as_str) in
    let given key := v ← assoc key params; if decide (v = "") then None else Some v in
    Ret (match flow with
         | None => oauth2_bridge origin (error_payload "This sign-in link has expired or was already used.")
         | Some _ =>
             match given "error" with
             | Some error => oauth2_bridge origin (error_payload ("The provider rejected the sign-in (" +:+ error +:+ ")."))
             | None =>
                 match given "code" with
                 | Some code => oauth2_bridge origin (code_payload code state)
                 | None => oauth2_bridge origin (error_payload "The provider returned no authorization code.")
                 end
             end
         end)).

(** * The account of a first sign-in *)

(** The fields the server fills are different ones. *)
Definition plain_account (c : Collection) : Prop :=
  email_field c ∉ ["verified"; "name"; "avatar"] ∧ password_field c ∉ ["verified"; "name"; "avatar"] ∧ email_field c ≠ password_field c.

Lemma put_same key v l : assoc key (put key v l) = Some v.
Proof. unfold put. induction l as [|[k w] l IH]; cbn; [by rewrite decide_True|]. case_decide; cbn; [by rewrite decide_True|]. by rewrite decide_False. Qed.
Lemma put_other key k v l : key ≠ k → assoc key (put k v l) = assoc key l.
Proof.
  intros N. unfold put. induction l as [|[j w] l IH]; cbn; [by rewrite decide_False by congruence|].
  destruct (decide (j = k)) as [->|M]; cbn; [by rewrite !decide_False by congruence|]. case_decide; [done|]. exact IH.
Qed.
Lemma put_some_other key k v l : key ≠ k → assoc key (put_some k v l) = assoc key l.
Proof. destruct v; [apply put_other|done]. Qed.
Lemma put_some_same key v l : assoc key l = None → assoc key (put_some key v l) = JString <$> v.
Proof. intros N. destruct v; [apply put_same|done]. Qed.

Lemma filled_elsewhere c extra key l : may_fill c key = false →
  assoc key (foldl (λ l '(k, v), if may_fill c k then put k v l else l) l extra) = assoc key l.
Proof.
  intros N. revert l. induction extra as [|[k v] extra IH]; intros l; [done|]. cbn. rewrite IH. destruct (may_fill c k) eqn:F; [|done].
  apply put_other. congruence.
Qed.

Lemma server_input_fields c u password : plain_account c →
  assoc (email_field c) (server_input c u password) = JString <$> ou_email u
  ∧ assoc (password_field c) (server_input c u password) = Some (JString password).
Proof.
  intros (E & P & N). rewrite !not_elem_of_cons in E, P. destruct E as (E1 & E2 & E3 & _), P as (P1 & P2 & P3 & _). unfold server_input. split.
  - destruct (has_field c "avatar"), (has_field c "name"), (has_field c "verified");
      rewrite ?put_some_other, ?put_other, ?put_some_other by done; apply put_some_same; reflexivity.
  - destruct (has_field c "avatar"), (has_field c "name"), (has_field c "verified"); rewrite ?put_some_other, ?put_other, ?put_some_other by done;
      apply put_same.
Qed.

Lemma server_input_protected c u password key : key ∈ PROTECTED → key ≠ email_field c → key ≠ password_field c →
  assoc key (server_input c u password) = (if decide (key = "verified") then if has_field c "verified" then Some (JBool true) else None else None).
Proof.
  intros K E P. assert (key ≠ "name" ∧ key ≠ "avatar") as [N A].
  { split; intros ->; revert K; apply (bool_decide_unpack _); reflexivity. }
  unfold server_input. case_decide as V.
  - subst key. destruct (has_field c "avatar"), (has_field c "name"), (has_field c "verified"); rewrite ?put_some_other by done;
      first [apply put_same|by rewrite put_other, put_some_other by done].
  - destruct (has_field c "avatar"), (has_field c "name"), (has_field c "verified"); rewrite ?put_some_other, ?put_other, ?put_some_other by done; reflexivity.
Qed.

(** the account of a first sign-in is the provider's: whatever fields the
    client sends along, the address is the one the provider gave, or none, the
    password is the one the server drew, the account is marked verified exactly
    when the collection has that field, and no other protected key is set. *)
Theorem first_account_is_the_providers c u create_data password (A : plain_account c) :
  ∃ l, oauth2_create_input c u create_data password = JObject l
    ∧ assoc (email_field c) l = JString <$> ou_email u
    ∧ assoc (password_field c) l = Some (JString password)
    ∧ ∀ key, key ∈ PROTECTED → key ≠ email_field c → key ≠ password_field c →
        assoc key l = (if decide (key = "verified") then if has_field c "verified" then Some (JBool true) else None else None).
Proof.
  eexists. split; [reflexivity|]. destruct (server_input_fields c u password A) as [E P]. split_and!.
  - rewrite filled_elsewhere; [exact E|]. unfold may_fill. by rewrite (bool_decide_false (email_field c ≠ email_field c)), andb_false_r by tauto.
  - rewrite filled_elsewhere; [exact P|]. unfold may_fill. by rewrite (bool_decide_false (password_field c ≠ password_field c)), andb_false_r by tauto.
  - intros key K NE NP. rewrite filled_elsewhere; [by apply server_input_protected|]. unfold may_fill, is_protected_create_field.
    by rewrite bool_decide_true.
Qed.

(** * Where a code goes *)

Lemma escaped_head s : ∀ r, escape_close s = String slash r → ∃ r', s = String slash r'.
Proof.
  destruct s as [|a s]; [done|]. intros r. cbn. destruct s as [|b s].
  - intros E. injection E as -> _. by eexists.
  - case_decide; intros E; injection E; [intros _ K; discriminate K|]. intros _ ->. by eexists.
Qed.

Definition closing : string := String lt_char (String slash "").
Lemma closing_skips a t : (a ≠ lt_char ∨ ∀ r, t ≠ String slash r) → contains_text closing (String a t) = contains_text closing t.
Proof.
  intros N. cbn [contains_text]. assert (starts_with closing (String a t) = false) as ->; [|done]. unfold starts_with, closing. cbn [strip_prefix].
  case_decide as A; [|done]. destruct t as [|b t]; [done|]. case_decide as B; [|done]. subst. destruct N as [N|N]; [done|]. by destruct (N t).
Qed.
Lemma escape_close_closes_nothing s : contains_text closing (escape_close s) = false.
Proof.
  assert (∀ n s, String.length s ≤ n → contains_text closing (escape_close s) = false) as G; [|by eapply G].
  clear s. induction n as [|n IH]; intros s L; [by destruct s; [|cbn in L; lia]|]. destruct s as [|a [|b s]]; [done| |]; cbn in L.
  - cbn [escape_close]. rewrite closing_skips by by right. done.
  - change (escape_close (String a (String b s))) with (if decide (a = lt_char ∧ b = slash) then String lt_char (String backslash (String slash (escape_close s)))
      else String a (escape_close (String b s))). case_decide as D.
    + rewrite closing_skips by by right. rewrite !closing_skips by by left. apply IH. lia.
    + rewrite closing_skips; [apply IH; cbn; lia|]. destruct (decide (a = lt_char)) as [->|N]; [|by left]. right. intros r E.
      destruct (escaped_head _ _ E) as [r' [= -> _]]. tauto.
Qed.

(** A page that posts something posts it to [origin]. *)
Lemma bridge_answers `{JsonText} origin payload status page : oauth2_bridge origin payload = (status, page) →
  status = 400%Z ∧ page = unknown_origin_page ∨ status = 200%Z ∧ trim origin ≠ "" ∧ page = bridge_page origin payload.
Proof. unfold oauth2_bridge. case_decide as T; intros [= <- <-]; [by left|right]. by split_and!. Qed.

(** A page that posts to the origin remembered with a flow of the state. *)
Definition posts_back `{JsonText} (params : list (string * string)) (t : list event) (page : string) : Prop :=
  let state := default "" (assoc "state" params) in
  ∃ data origin payload,
    Ev (ORows Value TAKE_FLOW_SQL [text_param state; PNumber FLOW_TTL_SECONDS]) (DbOk [data]) ∈ t
    ∧ get data "app_origin" = Some (JString origin) ∧ trim origin ≠ "" ∧ page = bridge_page origin payload
    ∧ contains_text closing (escape_close (json_text payload)) = false
    ∧ ((∃ code, assoc "code" params = Some code ∧ payload = code_payload code state) ∨ ∃ message, payload = error_payload message).

Lemma take_flow_runs state t data : runs (ask OClient ≫= λ _, take_flow state) t (Done (Some data)) →
  Ev (ORows Value TAKE_FLOW_SQL [text_param state; PNumber FLOW_TTL_SECONDS]) (DbOk [data]) ∈ t.
Proof.
  intros R. apply runs_done in R as (u1 & [] & u2 & -> & _ & R2).
  unfold take_flow, query_opt in R2. apply runs_done in R2 as (u3 & rows & u4 & -> & (x & u5 & -> & R3) & R4).
  destruct x as [rows'|e]; cbn in R3; destruct R3 as [-> R3]; [|done]. injection R3 as <-.
  destruct rows as [|row [|? ?]]; cbn in R4; destruct R4 as [-> R4]; [done| |done]. injection R4 as <-. rewrite !elem_of_app. right. left. by left.
Qed.

(** a code goes back where its flow started: whatever the provider sends
    the browser with, the answer is the page of an unknown origin, or a page that
    posts to the origin that was remembered with a flow of that state, which the
    same statement takes out of the table; it posts the code it was given only for
    such a flow, and no text of the payload ends the element that holds it. *)
Theorem codes_go_back_where_they_started `{JsonText} params t status page :
  runs (oauth2_redirect params) t (status, page) →
  status = 400%Z ∧ page = unknown_origin_page ∨ status = 200%Z ∧ posts_back params t page.
Proof.
  intros R. unfold oauth2_redirect in R. apply runs_bind in R as (t1 & r & t2 & -> & R1 & [-> E]). rewrite app_nil_r.
  set (flow := match r with Done flow => flow | Failed _ => None end) in E. destruct flow as [data|] eqn:F.
  2:{ left. symmetry in E. by destruct (bridge_answers _ _ _ _ E) as [?|(_ & M & _)]. }
  assert (r = Done (Some data)) as -> by (unfold flow in F; destruct r; by subst). apply take_flow_runs in R1.
  set (origin := default "" (Some data ≫= λ f, get f "app_origin" ≫= as_str)) in E.
  assert (∀ payload, oauth2_bridge origin payload = (status, page) →
    ((∃ code, assoc "code" params = Some code ∧ payload = code_payload code (default "" (assoc "state" params))) ∨ ∃ message, payload = error_payload message) →
    status = 400%Z ∧ page = unknown_origin_page ∨ status = 200%Z ∧ posts_back params t1 page) as G.
  { intros payload O C. destruct (bridge_answers _ _ _ _ O) as [?|(S & N & Pg)]; [by left|right]. split; [done|]. exists data, origin, payload.
    split_and!; try done; [|apply escape_close_closes_nothing]. unfold origin in *. cbn in N |- *. destruct (get data "app_origin") as [[| | |o| |]|]; cbn in N |- *; try done. }
  cbv zeta in E. destruct (v ← assoc "error" params; if decide (v = "") then None else Some v) as [error|].
  { symmetry in E. eapply G; [exact E|]. right. by eexists. }
  destruct (assoc "code" params) as [code|] eqn:Cd; cbn in E.
  - case_decide; cbn in E; symmetry in E; (eapply G; [exact E|]); [right; by eexists|]. left. by exists code.
  - symmetry in E. eapply G; [exact E|]. right. by eexists.
Qed.

(** * Whom a sign-in signs in *)

Section identity.
Context `{JsonText, Sha256} (parse_json : string → option Value) (form : list (string * string) → string) (base64_url : list Z → string).
Context (argon2_hash : string → result string) (sign : Claims → option string) (k : Signer) (schema : list Collection).
Context (collection : string) (q : OAuth2Auth) (c : Collection) (ctx : FilterContext).
Context (Resolved : resolve schema collection = Ok (c, ctx)).

(** The provider said, for the code of the request, that this is its user. *)
Definition identified (h : list event) (p : Provider) (provider_id : string) : Prop :=
  pv_name p = oa_provider q
  ∧ (∃ rows ps, Ev (ORows Value OAUTH2_SETTING_SQL []) (DbOk rows) ∈ h ∧ providers (default JNull (head rows)) = Ok ps ∧ p ∈ ps)
  ∧ ∃ uri r token rp payload,
      normalize_redirect_uri (oa_redirect_url q) = Some uri
      ∧ Ev (OHttp (exchange_call form p (oa_code q) (oa_code_verifier q) uri)) (Ok r) ∈ h ∧ access_token_of parse_json r = Some token
      ∧ Ev (OHttp (profile_call (pv_user_url p) token)) (Ok rp) ∈ h ∧ json_of parse_json rp = Some payload ∧ provider_id_of p payload = Some provider_id.
Definition link_found (h : list event) (p : Provider) (provider_id : string) (rows : list string) : Prop :=
  Ev (ORows string FIND_LINK_SQL (identity_params collection (pv_name p) provider_id)) (DbOk rows) ∈ h.
(** A session is only for the account an identity is linked to; a write is only
    for an identity that was looked up and had none. *)
Definition sign_in_rule (h : list event) (X : Type) (o : op X) : Prop :=
  match o with
  | ORows _ sql params => sql = INSERT_SESSION_SQL →
      ∃ p provider_id user id token family, identified h p provider_id ∧ link_found h p provider_id [user]
        ∧ params = session_params id (Types.collection_id c) user token family
  | OExecute _ _ | OBefore _ _ _ _ => ∃ p provider_id, identified h p provider_id ∧ link_found h p provider_id []
  | OClient | ONewId | OToken | OOwner | ORecord _ _ | OHttp _ => True
  | _ => False
  end.
Definition signed_in (h : list event) (r : attempt Value) : Prop :=
  match r with
  | Done _ => ∃ p provider_id user id token family s, identified h p provider_id ∧ link_found h p provider_id [user]
      ∧ Ev (ORows Sessions.Session INSERT_SESSION_SQL (session_params id (Types.collection_id c) user token family)) (DbOk [s]) ∈ h
  | Failed _ => True
  end.

Lemma identified_stays h t p i : identified h p i → identified (h ++ t) p i.
Proof.
  intros (N & (rows & ps & C1 & C2 & C3) & uri & r & token & rp & payload & U & E1 & A & E2 & J & I). split_and!; [done| |].
  - exists rows, ps. split_and!; try done. apply elem_of_app; by left.
  - exists uri, r, token, rp, payload. split_and!; try done; apply elem_of_app; by left.
Qed.
Lemma link_stays h t p i rows : link_found h p i rows → link_found (h ++ t) p i rows.
Proof. intros L. apply elem_of_app. by left. Qed.

Ltac skip := intros; exact I.

Lemma sign_in_obeys h p i user f : identified h p i → link_found h p i [user] →
  (∀ o, ∃ v, f o = give v) → obeys sign_in_rule h (sign_in_record sign k c user ≫= f) signed_in.
Proof.
  intros Id L F. unfold sign_in_record. apply obeys_then, client_step; [done| |skip].
  apply query_step; [discriminate|exact I| |skip]. intros [email token_key]. cbn [ok_or lift]. rewrite give_then. apply client_step; [done| |skip].
  unfold issue_session. apply obeys_then. apply call_step; [done|]. intros family. apply call_step; [done|]. intros [token|]; [|exact I].
  cbn [ok_or lift]. rewrite give_then. apply call_step; [done|]. intros id. apply db_step; [| |skip].
  { intros _. exists p, i, user, id, token, family. split_and!; [by repeat apply identified_stays|by repeat apply link_stays|done]. }
  intros rows. destruct rows as [|s [|? ?]]; [exact I| |exact I]. cbn [give obeys]. apply lift_step; [|skip]. intros access _. cbn [give obeys].
  match goal with |- obeys _ _ (f ?o) _ => destruct (F o) as [v ->] end. cbn [give obeys]. exists p, i, user, id, token, family, s.
  split_and!; [by repeat apply identified_stays|by repeat apply link_stays|]. apply elem_of_app. right. by left.
Qed.

(** What a sign-in does besides. *)
Definition off_limits (X : Type) (o : op X) : Prop :=
  match o with
  | ORows _ sql _ => sql = INSERT_SESSION_SQL
  | OExecute _ _ | OBefore _ _ _ _ | OClient | ONewId | OToken | OOwner | ORecord _ _ | OHttp _ => False
  | _ => True
  end.
Lemma unlinked_then {A B} h p i (w : W A) (f : A → W B) (Q : list event → attempt B → Prop) :
  identified h p i → link_found h p i [] → avoids off_limits w → (∀ t a, obeys sign_in_rule (h ++ t) (f a) Q) → (∀ h' e, Q h' (Failed e)) →
  obeys sign_in_rule h (w ≫= f) Q.
Proof.
  intros Id L V F E. apply obeys_then. eapply obeys_avoids_from; [|exact V|].
  - intros t X o N. destruct o; cbn in N |- *; try tauto; exists p, i; (split; [by apply identified_stays|by apply link_stays]).
  - intros t [a|e] _; [apply F|apply E].
Qed.

Lemma http_step {B} h call (f : HttpResponse → W B) (Q : list event → attempt B → Prop) :
  (∀ r, obeys sign_in_rule (h ++ [Ev (OHttp call) (Ok r)]) (f r) Q) →
  (∀ e, Q (h ++ [Ev (OHttp call) (Err e)]) (Failed (Other Unauthorized))) → obeys sign_in_rule h (http call ≫= f) Q.
Proof. intros F E. split; [done|]. intros [r|e]; cbn; [apply F|apply E]. Qed.

Lemma first_sign_in_obeys {B} h p i u data (f : string → W B) (Q : list event → attempt B → Prop) :
  identified h p i → link_found h p i [] → ou_provider_id u = i →
  (∀ h' user, identified h' p i → link_found h' p i [user] → obeys sign_in_rule h' (f user) Q) → (∀ h' e, Q h' (Failed e)) →
  obeys sign_in_rule h (first_sign_in argon2_hash collection c ctx p u data ≫= f) Q.
Proof.
  intros Id L U F E. unfold first_sign_in. apply obeys_then.
  apply (unlinked_then h p i); [done|done|unfold random_password; avoid; tauto| |intros; apply E]. intros t1 password.
  assert (∀ t, identified (h ++ t) p i ∧ link_found (h ++ t) p i []) as S by (intros t; split; [by apply identified_stays|by apply link_stays]).
  apply (unlinked_then _ p i); [apply S|apply S|unfold validate_first; repeat (avoid; try case_match); try done| |intros; apply E]. intros t2 [].
  rewrite <-app_assoc. apply (unlinked_then _ p i); [apply S|apply S|unfold auth_extra; avoid; try case_decide; avoid; tauto| |intros; apply E].
  intros t3 extra. rewrite <-app_assoc. apply (unlinked_then _ p i); [apply S|apply S| | |intros; apply E].
  { unfold create_with, checked_input, resolve_id, execute, read_back, get_one, scoped_before. repeat (avoid; try case_match); try tauto.
    split; [tauto|]. by intros [?|?]. }
  intros t4 record. rewrite <-app_assoc. apply lift_step; [|intros; apply E]. intros created _. unfold link.
  set (h' := h ++ _). assert (identified h' p i ∧ link_found h' p i []) as [Id' L'] by apply S. clearbody h'.
  apply call_step; [done|]. intros id. apply db_step; [exists p, i; split; [by apply identified_stays|by apply link_stays]| |intros; apply E].
  intros n. rewrite U. unfold find_link. apply query_step; [discriminate|apply E| |intros; apply E]. intros user. cbn [ok_or lift obeys give].
  apply F; [by repeat apply identified_stays|]. apply elem_of_app. right. by left.
Qed.

Lemma configured_step {B} h (f : list Provider → W B) (Q : list event → attempt B → Prop) :
  (∀ h' rows ps, Ev (ORows Value OAUTH2_SETTING_SQL []) (DbOk rows) ∈ h' → providers (default JNull (head rows)) = Ok ps → obeys sign_in_rule h' (f ps) Q) →
  (∀ h' e, Q h' (Failed e)) → obeys sign_in_rule h (configured ≫= f) Q.
Proof.
  intros F E. unfold configured. apply obeys_then, query_step; [discriminate| | |intros; apply E].
  - apply obeys_lift; [intros ps Hp; eapply F; [apply elem_of_app; right; by left|exact Hp]|intros; apply E].
  - intros row. apply obeys_lift; [intros ps Hp; eapply F; [apply elem_of_app; right; by left|exact Hp]|intros; apply E].
Qed.

Lemma user_obeys {B} h p token (f : OAuthUser → W B) (Q : list event → attempt B → Prop) :
  (∀ h' u rp payload, (∃ t, h' = h ++ t) → Ev (OHttp (profile_call (pv_user_url p) token)) (Ok rp) ∈ h' → json_of parse_json rp = Some payload →
     provider_id_of p payload = Some (ou_provider_id u) → obeys sign_in_rule h' (f u) Q) →
  (∀ h' e, Q h' (Failed e)) → obeys sign_in_rule h (user_of_provider parse_json p token ≫= f) Q.
Proof.
  intros F E. unfold user_of_provider. apply obeys_then, obeys_then. unfold fetch_json at 1. apply http_step; [|intros; apply E]. intros rp.
  apply obeys_lift; [|intros; apply E]. intros payload J%ok_or_Ok. apply lift_step; [|intros; apply E]. intros i I%ok_or_Ok.
  assert (∀ h' email, (∃ t, h' = (h ++ [Ev (OHttp (profile_call (pv_user_url p) token)) (Ok rp)]) ++ t) → obeys sign_in_rule h' (give {| ou_provider_id := i; ou_email := email; ou_name := field_string payload ["name"; "login"; "preferred_username"]; ou_picture := field_string payload ["picture"; "avatar_url"] |})
    (λ h' r, match r with Done a => obeys sign_in_rule h' (f a) Q | Failed e => Q h' (Failed e) end)) as G.
  { intros h' email [t ->]. cbn [give obeys]. eapply F; [eexists; by rewrite <-app_assoc|rewrite !elem_of_app; left; right; by left|exact J|exact I]. }
  destruct (field_string payload ["email"]) as [email|]; [apply G; exists []; by rewrite app_nil_r|].
  case_decide; [|apply G; exists []; by rewrite app_nil_r]. unfold github_primary_email. apply obeys_then, obeys_bind. unfold fetch_json.
  apply http_step; [|intros e; apply G; by eexists]. intros re. apply obeys_lift; [|intros e _; apply G; by eexists].
  intros v _. apply G. by eexists.
Qed.

Lemma auth_with_oauth2_obeys : obeys sign_in_rule [] (auth_with_oauth2 parse_json form argon2_hash sign k schema collection q) signed_in.
Proof.
  unfold auth_with_oauth2. case_decide; [exact I|]. unfold resolved. rewrite Resolved. apply obeys_then, lift_step; [|skip].
  intros [c' ctx'] [= <- <-]. apply lift_step; [|skip]. intros _ _. cbn [give obeys]. apply client_step; [done| |skip].
  apply configured_step; [|skip]. intros h rows ps Cf Ps. apply lift_step; [|skip]. intros p Fp%ok_or_Ok.
  assert (pv_name p = oa_provider q ∧ p ∈ ps) as [Np Ip] by (unfold find_provider in Fp; apply head_Some_elem_of in Fp; by apply list_elem_of_filter in Fp).
  unfold exchange. apply obeys_then, lift_step; [|skip]. intros uri Uri%ok_or_Ok. apply http_step; [|skip]. intros r.
  apply obeys_lift; [|skip]. intros token Tk%ok_or_Ok. apply user_obeys; [|skip]. intros h1 u rp payload [t1 E1] M J I1.
  set (i := ou_provider_id u) in *.
  assert (identified h1 p i) as Id.
  { subst h1. split_and!; [done| |].
    - exists rows, ps. split_and!; try done. rewrite !elem_of_app. by do 2 left.
    - exists uri, r, token, rp, payload. split_and!; try done. rewrite !elem_of_app. left. right. by left. }
  assert (∀ h user, identified h p i → link_found h p i [user] →
    obeys sign_in_rule h (get_one c ctx user selection_all expand_none ≫= λ record, lift (ok_or record Internal) ≫= λ record,
      sign_in_record sign k c user ≫= λ outcome, give (auth_body outcome record)) signed_in) as G.
  { intros h2 user Id2 L2. unfold get_one. apply obeys_then, lift_step; [|skip]. intros document _. apply obeys_db; [done|].
    intros [row|e]; [|exact I]. apply lift_step; [|skip]. intros record _.
    apply (sign_in_obeys _ p i user); [by apply identified_stays|by apply link_stays|]. intros o. by eexists. }
  unfold find_link. apply query_step; [discriminate| | |skip].
  - apply (first_sign_in_obeys _ p i); [by apply identified_stays|apply elem_of_app; right; by left|done|exact G|skip].
  - intros user. cbn [give]. rewrite give_then. apply G; [by apply identified_stays|apply elem_of_app; right; by left].
Qed.
End identity.

(** whom a provider sign-in signs in: a session is stored only for the
    account that the provider's id is linked to, when the provider answered that id
    to the token its token endpoint gave for the code of the request, at the
    addresses of a provider that is configured under the requested name; a record
    and a link are written only for an id that was looked up and had none; and a
    sign-in that succeeds stored such a session. *)
Theorem provider_sign_in_is_the_identity `{JsonText, Sha256} parse_json form argon2_hash sign k schema collection q c ctx
    (Resolved : resolve schema collection = Ok (c, ctx)) t r
    (R : runs (auth_with_oauth2 parse_json form argon2_hash sign k schema collection q) t r) :
  signed_in parse_json form collection q c t r
  ∧ (∀ t1 A params (x : Reply (list A)) t2, t = t1 ++ Ev (ORows A INSERT_SESSION_SQL params) x :: t2 →
       ∃ p provider_id user id token family, identified parse_json form q t1 p provider_id ∧ link_found collection t1 p provider_id [user]
         ∧ params = session_params id (Types.collection_id c) user token family)
  ∧ ∀ t1 sql params x t2, t = t1 ++ Ev (OExecute sql params) x :: t2 →
      ∃ p provider_id, identified parse_json form q t1 p provider_id ∧ link_found collection t1 p provider_id [].
Proof.
  destruct (obeys_runs _ _ _ _ _ _ (auth_with_oauth2_obeys parse_json form argon2_hash sign k schema collection q c ctx Resolved) R) as [Q P].
  split_and!; [exact Q| |].
  - intros t1 A params x t2 E. exact (P _ _ _ _ _ E eq_refl).
  - intros t1 sql params x t2 E. exact (P _ _ _ _ _ E).
Qed.

(** * Witnesses *)

#[local] Existing Instance sample_json_text.
#[local] Existing Instance no_digest.
Ltac answer x := exists x; eexists; split; [reflexivity|].

Definition people : Collection :=
  {| collection_id := "u"; collection_name := "people"; collection_type := CAuth; collection_options := JObject []; rules := JObject [];
     fields := [sample_field "mail" FEmail (JObject []); sample_field "secret" FPassword (JObject []); sample_field "verified" FBool (JObject []);
                sample_field "name" FText (JObject [])] |}.
Definition provider_user : OAuthUser := {| ou_provider_id := "7"; ou_email := Some "a@b.c"; ou_name := Some "Ada"; ou_picture := None |}.
Lemma first_account_is_the_providers_witness :
  plain_account people ∧ ∃ l,
    oauth2_create_input people provider_user (Some (JObject [("mail", JString "x@y.z"); ("name", JString "Eve"); ("verified", JBool false)])) "pw" = JObject l
    ∧ assoc "mail" l = Some (JString "a@b.c") ∧ assoc "verified" l = Some (JBool true) ∧ assoc "name" l = Some (JString "Eve").
Proof.
  assert (plain_account people) as A by (split_and!; [set_solver..|done]). split; [exact A|].
  destruct (first_account_is_the_providers people provider_user (Some (JObject [("mail", JString "x@y.z"); ("name", JString "Eve"); ("verified", JBool false)])) "pw" A)
    as (l & E & M & _ & V). exists l. split; [exact E|]. split; [exact M|]. split; [|injection E as <-; reflexivity].
  rewrite (V "verified"); [reflexivity|apply (bool_decide_unpack _); reflexivity|done|done].
Defined.

Lemma codes_go_back_where_they_started_witness : ∃ t,
  runs (oauth2_redirect [("code", "c1"); ("state", "s1")]) t (200%Z, bridge_page "https://app" (code_payload "c1" "s1"))
  ∧ posts_back [("code", "c1"); ("state", "s1")] t (bridge_page "https://app" (code_payload "c1" "s1")).
Proof.
  assert (∃ t, runs (oauth2_redirect [("code", "c1"); ("state", "s1")]) t (200%Z, bridge_page "https://app" (code_payload "c1" "s1"))) as [t R].
  { eexists. answer (Ok () : result unit). answer (DbOk (A:=list Value) [JObject [("app_origin", JString "https://app")]]). split; reflexivity. }
  exists t. split; [exact R|]. by destruct (codes_go_back_where_they_started _ _ _ _ R) as [[? _]|[_ ?]].
Defined.

Definition acme_setting : Value :=
  JObject [("providers", JArray [JObject [("config", JObject [("authorize_url", JString "https://acme/a"); ("client_id", JString "i"); ("client_secret", JString "s");
     ("redirect_uri", JString "https://me/r"); ("token_url", JString "https://acme/t"); ("user_url", JString "https://acme/u")]); ("name", JString "acme")]])].
Definition acme_json (s : string) : option Value :=
  if decide (s = "T") then Some (JObject [("access_token", JString "at")])
  else if decide (s = "U") then Some (JObject [("email", JString "a@b.c"); ("email_verified", JBool false); ("sub", JString "7")]) else None.
Definition no_form (l : list (string * string)) : string := "".
Definition no_sign (c : Claims) : option string := Some "jwt".
Definition now_signer : Signer := {| kid := "k"; clock := 1 |}.
Definition acme_request : OAuth2Auth :=
  {| oa_provider := "acme"; oa_code := "c"; oa_code_verifier := "v"; oa_redirect_url := "https://me/r"; oa_create_data := None |}.
Definition reply (body : string) : HttpResponse := {| r_status := 200; r_headers := []; r_body := body |}.
Definition sample_session : Sessions.Session :=
  {| Sessions.id := "s"; Sessions.collection_id := "u"; Sessions.user_id := "u1"; Sessions.family_id := "f"; Sessions.expires_at := 0; Sessions.revoked := false |}.
Definition acme_sign_in : W Value := auth_with_oauth2 acme_json no_form plain_hash no_sign now_signer members_schema "users" acme_request.

Lemma acme_runs c ctx doc : resolve members_schema "users" = Ok (c, ctx) → is_auth (collection_type c) = true →
  record_document ctx (quote_ident (collection_name c)) selection_all expand_none = Ok doc →
  (∃ t r, runs acme_sign_in t (Done r))
  ∧ ∃ t, runs acme_sign_in t (Failed (Other Internal)) ∧ Ev (ORows string FIND_LINK_SQL (identity_params "users" "acme" "7")) (DbOk ["gone"]) ∈ t.
Proof.
  intros R A D. unfold acme_sign_in, auth_with_oauth2, resolved, require_auth_collection. rewrite R. cbn [lift give mbind W_bind pbind]. rewrite A.
  rewrite decide_False by done. unfold get_one. split.
  - eexists _, _. cbn [lift give mbind W_bind pbind]. rewrite D.
    answer (Ok () : result unit). answer (DbOk (A:=list Value) [acme_setting]). answer (Ok (reply "T") : result HttpResponse).
    answer (Ok (reply "U") : result HttpResponse). answer (DbOk (A:=list string) ["u1"]). answer (DbOk (Some (JObject [("id", JString "u1")]))).
    answer (Ok () : result unit). answer (DbOk (A:=list (option string * option string)) [(Some "a@b.c", None)]). answer (Ok () : result unit).
    answer "f1". answer (Some "tok"). answer "s1". answer (DbOk (A:=list Sessions.Session) [sample_session]). split; reflexivity.
  - eexists. cbn [lift give mbind W_bind pbind]. rewrite D. split.
    + answer (Ok () : result unit). answer (DbOk (A:=list Value) [acme_setting]). answer (Ok (reply "T") : result HttpResponse).
      answer (Ok (reply "U") : result HttpResponse). answer (DbOk (A:=list string) ["gone"]). answer (DbOk (None : option Value)). split; reflexivity.
    + do 4 right. left.
Qed.

Definition acme_facts : ∃ c ctx doc, resolve members_schema "users" = Ok (c, ctx) ∧ is_auth (collection_type c) = true
  ∧ record_document ctx (quote_ident (collection_name c)) selection_all expand_none = Ok doc.
Proof. eexists _, _, _. split; [vm_compute; reflexivity|]. split; [done|]. vm_compute. reflexivity. Defined.

Lemma provider_sign_in_is_the_identity_witness : ∃ t r c,
  runs acme_sign_in t (Done r) ∧ signed_in acme_json no_form "users" acme_request c t (Done r).
Proof.
  destruct acme_facts as (c & ctx & doc & R & A & D). destruct (acme_runs c ctx doc R A D) as [(t & r & Ru) _]. exists t, r, c. split; [exact Ru|].
  by destruct (provider_sign_in_is_the_identity acme_json no_form plain_hash no_sign now_signer members_schema "users" acme_request c ctx R t (Done r) Ru) as [Q _].
Defined.

(** An account that was deleted leaves its link: the identity can sign in no more. *)
Example deleted_account_locks_the_identity : ∃ t, runs acme_sign_in t (Failed (Other Internal))
  ∧ Ev (ORows string FIND_LINK_SQL (identity_params "users" "acme" "7")) (DbOk ["gone"]) ∈ t.
Proof. destruct acme_facts as (c & ctx & doc & R & A & D). by destruct (acme_runs c ctx doc R A D). Qed.

(** An address the provider says is not verified makes a verified account. *)
Example unverified_address_is_verified : ∃ u t l,
  runs (user_of_provider acme_json {| pv_name := "acme"; pv_client_id := ""; pv_client_secret := ""; pv_authorize_url := ""; pv_token_url := ""; pv_user_url := "https://acme/u";
     pv_scopes := []; pv_redirect_uri := ""; pv_kind := Generic |} "at") t (Done u)
  ∧ oauth2_create_input people u None "pw" = JObject l ∧ assoc "mail" l = Some (JString "a@b.c") ∧ assoc "verified" l = Some (JBool true).
Proof.
  exists {| ou_provider_id := "7"; ou_email := Some "a@b.c"; ou_name := None; ou_picture := None |}. eexists _, _. split_and!.
  - answer (Ok (reply "U") : result HttpResponse). split; reflexivity.
  - reflexivity.
  - reflexivity.
  - reflexivity.
Qed.

(** When the generator fails the password of the account is the same for all. *)
Example password_without_randomness : runs random_password [Ev OToken None] (Done no_random_password).
Proof. by exists None, []. Qed.
