(* ===== verification/StorageConfig.v ===== *)
(** Where uploads go: the credentials kept in the database,
    [crates/core/src/secret.rs], and the configuration of the file layer,
    [crates/files/src/config.rs].

    The cipher is the [ring] crate's, [Aead]; bytes are the characters of a
    string. The environment is a function from names to values. *)
From S2P Require Import Prelude CoreError Json Net Principal Pagination HookHttp FileKeys.

Local Set Warnings "-register-all,-clear-no-such-hyp".

(** * Secrets at rest *)

(** [LessSafeKey::seal_in_place_append_tag] and [open_in_place] of AES-256-GCM:
    key, nonce, associated data, text. *)
Class Aead := { seal : string → string → string → string → option string; open : string → string → string → string → option string }.

(** What the cipher promises: a text is opened exactly when it is what sealing
    gives. *)
Definition aead_ok `{Aead} : Prop :=
  ∀ key nonce aad text sealed, seal key nonce aad text = Some sealed ↔ open key nonce aad sealed = Some text.

Definition CIPHER_PREFIX : string := "v1".
Definition KEY_HEX_LENGTH : nat := 64.
Definition NONCE_LEN : nat := 12.

(** [decode_hex]; [encode_hex] is [hex] of Principal.v. *)
Fixpoint decode_hex (text : string) : option string :=
  match text with
  | EmptyString => Some ""
  | String a r =>
      match r with
      | EmptyString => None
      | String b r =>
          high ← hex_value a; low ← hex_value b; rest ← decode_hex r;
          Some (String (ascii_of_N (Z.to_N (high * 16 + low))) rest)
      end
  end.

(** [SecretCipher::parse]: the key is its bytes. [SecretCipher::from_env]. *)
Definition cipher_parse (raw : string) : result string :=
  let trimmed := trim raw in
  if decide (String.length trimmed = KEY_HEX_LENGTH) then ok_or (decode_hex trimmed) Config else Err Config.
Definition KEY_VARIABLE : string := "LAZYPOCK_SECRET_KEY".
Definition cipher_from_env (env : string → option string) : result (option string) :=
  match env KEY_VARIABLE with
  | None => Ok None
  | Some raw => if decide (trim raw = "") then Ok None else Some <$> cipher_parse raw
  end.

Definition is_encrypted (stored : string) : bool := starts_with CIPHER_PREFIX stored.

Section cipher.
Context `{Aead}.

(** [encrypt], with the nonce that is drawn. *)
Definition encrypt (key : string) (nonce : option string) (field plaintext : string) : result string :=
  nonce ← ok_or nonce Internal;
  sealed ← ok_or (seal key nonce field plaintext) Internal;
  Ok (CIPHER_PREFIX +:+ ":" +:+ hex nonce +:+ ":" +:+ hex sealed).

(** [decrypt]. *)
Definition is_utf8 (s : string) : Prop := lossy s = s.
#[export] Instance is_utf8_dec s : Decision (is_utf8 s) := decide (lossy s = s).
Definition decrypt (key field stored : string) : result string :=
  match split_on ":" stored with
  | [prefix; nonce; ciphertext] =>
      if decide (prefix = CIPHER_PREFIX) then
        nonce ← ok_or (decode_hex nonce) Config;
        if decide (String.length nonce = NONCE_LEN) then
          sealed ← ok_or (decode_hex ciphertext) Config;
          text ← ok_or (open key nonce field sealed) Config;
          if decide (is_utf8 text) then Ok text else Err Config
        else Err Config
      else Err Config
  | _ => Err Config
  end.
End cipher.

(** * The configuration *)

(** [enum StorageAdapter]. *)
Inductive StorageAdapter := Local_ | S3.
#[export] Instance StorageAdapter_eq_dec : EqDecision StorageAdapter.
Proof. solve_decision. Defined.
Definition adapter_parse (raw : string) : result StorageAdapter :=
  let raw := to_ascii_lowercase (trim raw) in
  if decide (raw = "local" ∨ raw = "fs") then Ok Local_ else if decide (raw = "s3" ∨ raw = "r2") then Ok S3 else Err Config.

(** [struct FilesConfig]. *)
Record FilesConfig := {
  adapter : StorageAdapter; directory : string; public_base_url : option string; endpoint : option string; bucket : option string;
  region : string; access_key : option string; secret_key : option string; image_service_url : option string;
  image_service_token : option string; presign_ttl_seconds : Z; key_prefix : string; force_remote : bool;
}.
Definition adapter_str (c : FilesConfig) : string := match adapter c with Local_ => "local" | S3 => "s3" end.

Definition DEFAULT_DIRECTORY : string := "data/files".
Definition DEFAULT_REGION : string := "auto".
Definition DEFAULT_PRESIGN_TTL_SECONDS : Z := 15 * 60.
Definition default_config : FilesConfig := {|
  adapter := Local_; directory := DEFAULT_DIRECTORY; public_base_url := None; endpoint := None; bucket := None; region := DEFAULT_REGION;
  access_key := None; secret_key := None; image_service_url := None; image_service_token := None;
  presign_ttl_seconds := DEFAULT_PRESIGN_TTL_SECONDS; key_prefix := ""; force_remote := false |}.

(** [validate]; its errors are all [Config]. *)
Definition is_web_url (url : string) : bool := starts_with "http://" url || starts_with "https://" url.
Definition web_url_or_none (url : option string) : bool := match url with Some url => is_web_url url | None => true end.
Definition require (b : bool) : result unit := if b then Ok () else Err Config.
Definition is_set {A} (v : option A) : bool := match v with Some _ => true | None => false end.
Definition validate_config (c : FilesConfig) : result unit :=
  _ ← require (web_url_or_none (public_base_url c));
  _ ← match image_service_url c with Some url => require (is_web_url url) | None => require (negb (is_set (image_service_token c))) end;
  _ ← require ((1 <=? presign_ttl_seconds c)%Z && (presign_ttl_seconds c <=? 7 * 24 * 60 * 60)%Z);
  prefix ← normalize_prefix (key_prefix c);
  _ ← require (bool_decide (prefix = key_prefix c));
  _ ← require (negb (force_remote c && bool_decide (adapter c = Local_)));
  if decide (adapter c = S3) then require (is_set (endpoint c) && is_set (bucket c) && is_set (access_key c) && is_set (secret_key c))
  else Ok ().

(** [str::parse::<i64>]. *)
Definition parse_i64 (s : string) : option Z :=
  match s with
  | String "-" r => match r with String "+" _ => None | _ => Z.opp <$> parse_uint (2 ^ 63 + 1) r end
  | _ => parse_uint (2 ^ 63) s
  end.

(** [from_source]. *)
Definition optional (env : string → option string) (key : string) : option string :=
  value ← env key; let value := trim value in if decide (value = "") then None else Some value.
Definition parse_switch (raw : string) : option bool :=
  let raw := to_ascii_lowercase raw in
  if decide (raw ∈ ["1"; "on"; "true"; "yes"]) then Some true else if decide (raw ∈ ["0"; "off"; "false"; "no"]) then Some false else None.
Definition files_from_source (env : string → option string) : result FilesConfig :=
  let var := optional env in
  adapter ← match var "LAZYPOCK_FILES_ADAPTER" with Some raw => adapter_parse raw | None => Ok Local_ end;
  ttl ← match var "LAZYPOCK_PRESIGN_TTL" with Some raw => ok_or (parse_i64 raw) Config | None => Ok DEFAULT_PRESIGN_TTL_SECONDS end;
  prefix ← normalize_prefix (default "" (var "LAZYPOCK_FILES_PREFIX"));
  forced ← match var "LAZYPOCK_FILES_FORCE_REMOTE" with Some raw => ok_or (parse_switch raw) Config | None => Ok false end;
  let c := {|
    adapter := adapter; directory := default DEFAULT_DIRECTORY (var "LAZYPOCK_FILES_DIR"); public_base_url := var "LAZYPOCK_FILES_PUBLIC_URL";
    endpoint := var "LAZYPOCK_S3_ENDPOINT"; bucket := var "LAZYPOCK_S3_BUCKET"; region := default DEFAULT_REGION (var "LAZYPOCK_S3_REGION");
    access_key := var "LAZYPOCK_S3_ACCESS_KEY"; secret_key := var "LAZYPOCK_S3_SECRET_KEY";
    image_service_url := var "LAZYPOCK_IMAGE_SERVICE_URL"; image_service_token := var "LAZYPOCK_IMAGE_SERVICE_TOKEN";
    presign_ttl_seconds := ttl; key_prefix := prefix; force_remote := forced |} in
  _ ← validate_config c; Ok c.

(** [STORAGE_FIELDS]. *)
Definition STORAGE_FIELDS : list (string * string) := [
  ("backend", "LAZYPOCK_FILES_ADAPTER"); ("endpoint", "LAZYPOCK_S3_ENDPOINT"); ("bucket", "LAZYPOCK_S3_BUCKET"); ("region", "LAZYPOCK_S3_REGION");
  ("access_key_id", "LAZYPOCK_S3_ACCESS_KEY"); ("secret_access_key", "LAZYPOCK_S3_SECRET_KEY"); ("public_base_url", "LAZYPOCK_FILES_PUBLIC_URL")].

(** [Value::as_i64]. *)
Definition as_i64 (v : Value) : option Z :=
  match v with
  | JNumber (PosInt z) => if decide (z < 2 ^ 63)%Z then Some z else None
  | JNumber (NegInt z) => Some z
  | _ => None
  end.

(** [apply_storage_setting]. *)
Definition saved (setting : Value) (field : string) : option string :=
  v ← get setting field; text ← as_str v; let text := trim text in if decide (text = "") then None else Some text.
Definition saved_or {A} (setting : Value) (field : string) (f : string → A) (otherwise : A) : A :=
  match saved setting field with Some text => f text | None => otherwise end.
Definition saved_ttl (setting : Value) (otherwise : Z) : Z :=
  match get setting "presign_ttl" ≫= as_i64 with Some ttl => if decide (0 < ttl)%Z then ttl else otherwise | None => otherwise end.
Section storage.
Context `{Aead}.

Definition apply_storage_setting (setting : Value) (secrets : option string) (c : FilesConfig) : result FilesConfig :=
  adapter ← match saved setting "backend" with Some backend => adapter_parse backend | None => Ok (adapter c) end;
  secret ← match saved setting "secret_access_key" with
           | None => Ok (secret_key c)
           | Some stored => key ← ok_or secrets Config; Some <$> decrypt key "secret_access_key" stored
           end;
  let c := {|
    adapter := adapter; directory := directory c; public_base_url := saved_or setting "public_base_url" Some (public_base_url c);
    endpoint := saved_or setting "endpoint" Some (endpoint c); bucket := saved_or setting "bucket" Some (bucket c);
    region := saved_or setting "region" id (region c); access_key := saved_or setting "access_key_id" Some (access_key c);
    secret_key := secret; image_service_url := image_service_url c; image_service_token := image_service_token c;
    presign_ttl_seconds := saved_ttl setting (presign_ttl_seconds c); key_prefix := key_prefix c; force_remote := force_remote c |} in
  _ ← validate_config c; Ok c.
End storage.

(** [storage_env_fields] and [summary]. *)
Definition storage_env_fields (env : string → option string) (setting : Value) : list string :=
  (filter (λ p, saved setting p.1 = None ∧ optional env p.2 ≠ None) STORAGE_FIELDS).*1.
Definition or_unset (v : option string) : string := default "(unset)" v.
Definition set_or_unset (v : option string) : string := if is_set v then "(set)" else "(unset)".
Definition files_summary (c : FilesConfig) : list (string * string) := [
  ("files_adapter", adapter_str c); ("files_directory", directory c); ("files_public_url", or_unset (public_base_url c));
  ("s3_endpoint", or_unset (endpoint c)); ("s3_bucket", or_unset (bucket c)); ("s3_region", region c); ("s3_access_key", or_unset (access_key c));
  ("s3_secret_key", set_or_unset (secret_key c)); ("image_service", or_unset (image_service_url c));
  ("image_service_token", set_or_unset (image_service_token c))].

(** * Encrypting and decrypting *)

Lemma hex_byte_value b :
  match hex_value (Principal.hex_digit (byte_of b / 16)), hex_value (Principal.hex_digit (byte_of b mod 16)) with
  | Some high, Some low => ascii_of_N (Z.to_N (high * 16 + low)) = b
  | _, _ => False
  end.
Proof. by_bytes b. Qed.

Lemma decode_hex_hex s : decode_hex (hex s) = Some s.
Proof.
  induction s as [|b s IH]; [done|]. unfold hex; fold hex. unfold hex_byte. rewrite str_app_cons, str_app_cons, str_app_nil_l. cbn [decode_hex].
  pose proof (hex_byte_value b) as V. destruct (hex_value _) as [high|]; [|done]. cbn [mbind option_bind].
  destruct (hex_value _) as [low|]; [|done]. cbn [mbind option_bind]. rewrite IH. cbn [mbind option_bind]. by rewrite V.
Qed.

Lemma hex_value_digit c n : hex_value c = Some n → (0 ≤ n < 16)%Z ∧ Principal.hex_digit (Z.to_N n) = ascii_lower c.
Proof.
  assert (match hex_value c with
          | Some n => (0 <=? n)%Z && (n <? 16)%Z && bool_decide (Principal.hex_digit (Z.to_N n) = ascii_lower c)
          | None => true end = true) as H by by_bytes c.
  intros E. rewrite E in H. apply andb_true_iff in H as [H D%bool_decide_eq_true]. split; [lia|done].
Qed.

Lemma hex_decode s t : decode_hex t = Some s → hex s = to_ascii_lowercase t.
Proof.
  unfold to_ascii_lowercase. remember (String.length t) as n eqn:L. assert (String.length t ≤ n)%nat as B by lia. clear L. revert s t B.
  induction n as [|n IH]; intros s t B D.
  - destruct t; [|cbn in B; lia]. by injection D as <-.
  - destruct t as [|a [|b t]]; [by injection D as <-|done|]. cbn in B, D.
    destruct (hex_value a) as [high|] eqn:A; [|done]. destruct (hex_value b) as [low|] eqn:E; [|done]. cbn in D.
    destruct (decode_hex t) as [rest|] eqn:R; [|done]. injection D as <-. apply hex_value_digit in A as [A1 A2], E as [E1 E2].
    cbn [hex str_map]. rewrite (IH rest t) by (done || lia). unfold hex_byte, byte_of. rewrite N_ascii_embedding by lia.
    assert (Z.to_N (high * 16 + low) = (Z.to_N high * 16 + Z.to_N low)%N) as -> by lia.
    rewrite N.div_add_l, N.div_small, N.add_0_r by lia. rewrite N.add_comm, N.Div0.mod_add, N.mod_small by lia.
    by rewrite A2, E2.
Qed.

Definition no_colon (s : string) : bool := str_forall (λ c, bool_decide (c ≠ ":"%char)) s.
Lemma hex_no_colon s : no_colon (hex s) = true.
Proof.
  unfold no_colon. induction s as [|b s IH]; [done|]. cbn [hex]. rewrite str_forall_app, IH, andb_true_r. by_bytes b.
Qed.

Lemma split_envelope nonce sealed : split_on ":" (CIPHER_PREFIX +:+ ":" +:+ hex nonce +:+ ":" +:+ hex sealed) = [CIPHER_PREFIX; hex nonce; hex sealed].
Proof.
  change (CIPHER_PREFIX +:+ ":" +:+ hex nonce +:+ ":" +:+ hex sealed) with (join (String ":" "") [CIPHER_PREFIX; hex nonce; hex sealed]).
  apply split_join; [done|]. repeat constructor; apply hex_no_colon.
Qed.

Lemma join_split_on c s : join (String c "") (split_on c s) = s.
Proof.
  induction s as [|d s IH]; [done|]. cbn [split_on]. pose proof (split_on_nonempty c s). destruct (split_on c s) as [|p l] eqn:E; [done|]. case_decide.
  - subst d. rewrite join_cons2, IH. done.
  - rewrite <-IH. by destruct l.
Qed.

Lemma lowercase_app s t : to_ascii_lowercase (s +:+ t) = to_ascii_lowercase s +:+ to_ascii_lowercase t.
Proof. unfold to_ascii_lowercase. induction s as [|c s IH]; [done|]. rewrite !str_app_cons. cbn. by rewrite IH, str_app_cons. Qed.

(** A secret kept in the database reads back as it was saved under the
    same key and field; and what decrypting accepts is, but for the case of its
    digits, a text that encrypting that secret under that key for that field
    writes, with a nonce of twelve bytes: a text saved for another field or
    under another key, or changed, is refused. *)
Theorem secrets_read_back `{Aead} (key field : string) : aead_ok →
  (∀ nonce text stored, String.length nonce = NONCE_LEN → is_utf8 text → encrypt key (Some nonce) field text = Ok stored →
     decrypt key field stored = Ok text ∧ is_encrypted stored = true)
  ∧ (∀ stored text, decrypt key field stored = Ok text →
       ∃ nonce, String.length nonce = NONCE_LEN ∧ is_utf8 text ∧ encrypt key (Some nonce) field text = Ok (to_ascii_lowercase stored)).
Proof.
  intros A. split.
  - intros nonce text stored L U E. unfold encrypt in E. cbn [mbind result_bind ok_or] in E.
    destruct (seal key nonce field text) as [sealed|] eqn:S; [|done]. injection E as <-. split; [|done].
    unfold decrypt. rewrite split_envelope, decide_True by done. rewrite !decode_hex_hex. cbn [mbind result_bind ok_or].
    rewrite decide_True by done. apply A in S. rewrite S. cbn [mbind result_bind ok_or]. by rewrite decide_True.
  - intros stored text D. unfold decrypt in D. pose proof (join_split_on ":" stored) as J.
    destruct (split_on ":" stored) as [|p [|n [|c [|]]]]; try done. case_decide as P; [|done]. subst p.
    destruct (decode_hex n) as [nonce|] eqn:N; [|done]. cbn [mbind result_bind ok_or] in D. case_decide as L; [|done].
    destruct (decode_hex c) as [sealed|] eqn:C; [|done]. cbn [mbind result_bind ok_or] in D.
    destruct (open key nonce field sealed) as [u|] eqn:O; [|done]. cbn [mbind result_bind ok_or] in D. case_decide as U; [|done].
    injection D as ->. exists nonce. split_and!; [done..|]. apply A in O. unfold encrypt. cbn [mbind result_bind ok_or]. rewrite O.
    cbn [mbind result_bind ok_or]. do 2 f_equal. apply hex_decode in N, C. rewrite N, C, <-J. rewrite !join_cons2, !lowercase_app. done.
Qed.

(** * Prefixes are normal *)

Lemma plain_chars_edges s : str_forall plain_char s = true → s ≠ "" →
  ∃ c r, s = String c r ∧ c ≠ "/"%char ∧ ends_with "/" s = false.
Proof.
  intros P N. destruct s as [|c r]; [done|]. exists c, r. split; [done|]. cbn in P. apply andb_true_iff in P as [Pc Pr]. split.
  - intros ->. done.
  - clear N. revert c Pc. induction r as [|d r IH]; intros c Pc.
    + cbn. apply orb_false_iff. split; [apply bool_decide_eq_false; intros [= ->]; done|]. by apply orb_false_iff.
    + cbn in Pr. apply andb_true_iff in Pr as [Pd Pr]. cbn [ends_with]. rewrite bool_decide_false by done. apply (IH Pr d Pd).
Qed.

Lemma ends_with_snoc c s t : t ≠ "" → ends_with (String c "") (s +:+ t) = ends_with (String c "") t.
Proof.
  intros N. induction s as [|d s IH]; [done|]. rewrite str_app_cons. cbn [ends_with]. rewrite IH, bool_decide_false; [done|].
  intros [= _ E]. destruct s; [done|done].
Qed.

Lemma join_plain_edges segments : segments ≠ [] → Forall plain_name segments →
  let s := join "/" segments in
  str_forall is_graphic s = true ∧ ends_with "/" s = false ∧ ∃ c r, s = String c r ∧ c ≠ "/"%char.
Proof.
  intros N F. cbn zeta. split; [|split].
  - apply join_forall; [done|]. eapply Forall_impl; [exact F|]. intros s (_ & _ & _ & P). eapply str_forall_impl; [|exact P]. intros c. by_bytes c.
  - clear N. induction F as [|s l (E & _ & _ & P) F IH]; [done|]. destruct l as [|t l].
    + by destruct (plain_chars_edges s P E) as (c & r & _ & _ & X).
    + rewrite join_cons2, !ends_with_snoc; [done| |done]. inversion F as [|? ? (Et & _) _]. destruct l; [done|]. rewrite join_cons2. by destruct t.
  - destruct segments as [|s l]; [done|]. inversion F as [|? ? (E & _ & _ & P) _]. destruct (plain_chars_edges s P E) as (c & r & -> & X & _).
    destruct l; [by exists c, r|]. rewrite join_cons2, str_app_cons. eauto.
Qed.

(** A prefix that was normalised is its own normal form. *)
Lemma normalize_prefix_idempotent raw prefix : normalize_prefix raw = Ok prefix → normalize_prefix prefix = Ok prefix.
Proof.
  intros N. apply normalize_prefix_segments in N as [->|(segments & NE & -> & P)]; [done|].
  destruct (join_plain_edges segments NE P) as (G & E & c & r & S & C). unfold normalize_prefix. rewrite trim_graphic by done.
  assert (trim_start_matches "/" (join "/" segments) = join "/" segments) as -> by (rewrite S; cbn; by rewrite decide_False).
  rewrite trim_end_matches_id by done.
  rewrite decide_False by (rewrite S; done). rewrite split_join; [|done|].
  - destruct (existsb prefix_segment_refused segments) eqn:X; [|done]. apply existsb_exists in X as (s & I & R). exfalso.
    rewrite <-list_elem_of_In in I. rewrite Forall_forall in P. destruct (P s I) as (P1 & P2 & P3 & P4). unfold prefix_segment_refused in R.
    rewrite P4, bool_decide_false in R by tauto. done.
  - eapply Forall_impl; [exact P|]. intros s (_ & _ & _ & Q). by apply plain_no_slash.
Qed.

(** * Configurations that work *)

(** What the rest of the file layer relies on. *)
Definition usable (c : FilesConfig) : Prop :=
  (adapter c = S3 → is_Some (endpoint c) ∧ is_Some (bucket c) ∧ is_Some (access_key c) ∧ is_Some (secret_key c))
  ∧ (force_remote c = true → adapter c = S3)
  ∧ normalize_prefix (key_prefix c) = Ok (key_prefix c) ∧ Forall plain_name (prefix_segments (key_prefix c))
  ∧ (1 ≤ presign_ttl_seconds c ≤ 604800)%Z
  ∧ (∀ url, public_base_url c = Some url ∨ image_service_url c = Some url → is_web_url url = true)
  ∧ (is_Some (image_service_token c) → is_Some (image_service_url c)).

Lemma require_ok b : require b = Ok () ↔ b = true.
Proof. by destruct b. Qed.

Lemma validate_config_usable c : validate_config c = Ok () ↔ usable c.
Proof.
  split.
  - unfold validate_config. intros V. apply bind_Ok in V as ([] & P & V). apply bind_Ok in V as ([] & I & V). apply bind_Ok in V as ([] & T & V).
    apply bind_Ok in V as (prefix & N & V). apply bind_Ok in V as ([] & E & V). apply bind_Ok in V as ([] & R & V).
    rewrite require_ok in P, T, E, R. apply bool_decide_eq_true in E. subst prefix. split_and!.
    + intros A. rewrite decide_True in V by done. rewrite require_ok in V. destruct (endpoint c), (bucket c), (access_key c), (secret_key c); try done; split_and!; eauto.
    + intros F. rewrite F in R. destruct (adapter c); [done|done].
    + done.
    + by eapply prefix_segments_plain.
    + lia.
    + lia.
    + intros url [U|U]; rewrite U in *; [done|]. by rewrite require_ok in I.
    + intros [t Tk]. rewrite Tk in I. destruct (image_service_url c); [eauto|]. done.
  - intros (S & F & N & _ & T & U & K). unfold validate_config.
    assert (web_url_or_none (public_base_url c) = true) as ->. { destruct (public_base_url c) eqn:E; [|done]. apply U. by left. }
    assert (match image_service_url c with Some url => require (is_web_url url) | None => require (negb (is_set (image_service_token c))) end = Ok ()) as ->.
    { destruct (image_service_url c) as [url|] eqn:E; [rewrite (U url) by eauto; done|]. destruct (image_service_token c); [|done]. destruct K as [? K]; [eauto|]. congruence. }
    assert (((1 <=? presign_ttl_seconds c)%Z && (presign_ttl_seconds c <=? 7 * 24 * 60 * 60)%Z) = true) as -> by lia.
    cbn [mbind result_bind require]. rewrite N. cbn [mbind result_bind]. rewrite (bool_decide_true (key_prefix c = key_prefix c)) by done. cbn [require mbind result_bind].
    assert (negb (force_remote c && bool_decide (adapter c = Local_)) = true) as ->.
    { destruct (force_remote c) eqn:E; [|done]. rewrite F by done. done. }
    cbn [require mbind result_bind]. case_decide as A; [|done]. destruct (S A) as ([? ->] & [? ->] & [? ->] & [? ->]). done.
Qed.

Lemma files_from_source_usable env c : files_from_source env = Ok c → usable c.
Proof.
  unfold files_from_source. intros F. apply bind_Ok in F as (a & _ & F). apply bind_Ok in F as (t & _ & F). apply bind_Ok in F as (p & _ & F).
  apply bind_Ok in F as (f & _ & F). apply bind_Ok in F as ([] & V & F). injection F as <-. by apply validate_config_usable.
Qed.

(** The values of the credentials, changed: nothing else. *)
Definition with_credentials (s t : option string) (c : FilesConfig) : FilesConfig := {|
  adapter := adapter c; directory := directory c; public_base_url := public_base_url c; endpoint := endpoint c; bucket := bucket c;
  region := region c; access_key := access_key c; secret_key := s; image_service_url := image_service_url c; image_service_token := t;
  presign_ttl_seconds := presign_ttl_seconds c; key_prefix := key_prefix c; force_remote := force_remote c |}.

(** A setting names a text for a field: a string that is not blank, without the
    blanks around it. What a field becomes under a setting: what the text reads
    as, or what it was. *)
Definition names_text (setting : Value) (field text : string) : Prop :=
  ∃ raw, get setting field = Some (JString raw) ∧ text = trim raw ∧ text ≠ "".
Definition follows {A} (setting : Value) (field : string) (reads : string → A → Prop) (was now : A) : Prop :=
  (∀ text, names_text setting field text → reads text now) ∧ ((∀ text, ¬ names_text setting field text) → now = was).
Definition as_text (text : string) (v : option string) : Prop := v = Some text.

Lemma saved_names setting field text : saved setting field = Some text ↔ names_text setting field text.
Proof.
  unfold saved, names_text. destruct (get setting field) as [[| | |raw| |]|]; cbn; try (split; [done|by intros (? & ? & _)]). split.
  - case_decide; [done|]. intros [= <-]. by exists raw.
  - intros (? & [= <-] & -> & N). by rewrite decide_False.
Qed.

Lemma saved_follows {A} setting field (reads : string → A → Prop) was now :
  match saved setting field with Some text => reads text now | None => now = was end → follows setting field reads was now.
Proof.
  intros F. split.
  - intros text E%saved_names. by rewrite E in F.
  - intros N. destruct (saved setting field) as [text|] eqn:E; [|done]. apply saved_names in E. by destruct (N text).
Qed.

Lemma saved_or_follows {A} setting field (f : string → A) was : follows setting field (λ text v, v = f text) was (saved_or setting field f was).
Proof. apply saved_follows. unfold saved_or. by destruct (saved setting field). Qed.

(** C31. Whatever was saved for the storage, the configuration it gives over a
    running one is usable: complete when it is a bucket's, within the limits,
    its key prefix made of plain segments, and remote where the deployment
    demands it. Each of the fields a setting may name, the backend, the
    endpoint, the bucket, the region, the two halves of the access key, the
    public address and the lifetime of presigned URLs, is what the setting names
    under its own key, or what it was when it names none; a saved secret is
    decrypted, or the whole refused. What only the environment sets stays,
    applying the same setting again changes nothing, and what is printed of it
    does not depend on its credentials. *)
Theorem saved_storage_over_the_running `{Aead} (setting : Value) (secrets : option string) (c c' : FilesConfig) :
  apply_storage_setting setting secrets c = Ok c' →
  usable c' ∧ apply_storage_setting setting secrets c' = Ok c'
  ∧ follows setting "backend" (λ text v, adapter_parse text = Ok v) (adapter c) (adapter c')
  ∧ follows setting "endpoint" as_text (endpoint c) (endpoint c')
  ∧ follows setting "bucket" as_text (bucket c) (bucket c')
  ∧ follows setting "region" eq (region c) (region c')
  ∧ follows setting "access_key_id" as_text (access_key c) (access_key c')
  ∧ follows setting "public_base_url" as_text (public_base_url c) (public_base_url c')
  ∧ follows setting "secret_access_key"
      (λ stored v, ∃ key text, secrets = Some key ∧ decrypt key "secret_access_key" stored = Ok text ∧ v = Some text) (secret_key c) (secret_key c')
  ∧ (∀ ttl, get setting "presign_ttl" ≫= as_i64 = Some ttl → (0 < ttl)%Z → presign_ttl_seconds c' = ttl)
  ∧ ((∀ ttl, get setting "presign_ttl" ≫= as_i64 = Some ttl → (ttl ≤ 0)%Z) → presign_ttl_seconds c' = presign_ttl_seconds c)
  ∧ key_prefix c' = key_prefix c ∧ directory c' = directory c ∧ force_remote c' = force_remote c
  ∧ image_service_url c' = image_service_url c ∧ image_service_token c' = image_service_token c
  ∧ (∀ s t, is_set s = is_set (secret_key c') → is_set t = is_set (image_service_token c') →
       files_summary (with_credentials s t c') = files_summary c').
Proof.
  intros S. unfold apply_storage_setting in S. apply bind_Ok in S as (a & A & S). apply bind_Ok in S as (s & K & S).
  apply bind_Ok in S as ([] & V & S). injection S as <-. split_and!; cbn; try done.
  - by apply validate_config_usable.
  - unfold apply_storage_setting. cbn.
    assert (match saved setting "backend" with Some backend => adapter_parse backend | None => Ok a end = Ok a) as ->.
    { by destruct (saved setting "backend"). }
    assert (match saved setting "secret_access_key" with
            | None => Ok s
            | Some stored => key ← ok_or secrets Config; Some <$> decrypt key "secret_access_key" stored
            end = Ok s) as ->.
    { by destruct (saved setting "secret_access_key"). }
    cbn [mbind result_bind]. match goal with |- (validate_config ?d ≫= _) = Ok ?e => assert (d = e) as E end.
    { unfold saved_or, saved_ttl. destruct (saved setting "public_base_url"), (saved setting "endpoint"), (saved setting "bucket"),
        (saved setting "region"), (saved setting "access_key_id"), (get setting "presign_ttl" ≫= as_i64); try done; case_decide; done. }
    rewrite E, V. done.
  - apply saved_follows. destruct (saved setting "backend"); [done|]. by injection A as <-.
  - apply saved_or_follows.
  - apply saved_or_follows.
  - apply saved_follows. unfold saved_or. by destruct (saved setting "region").
  - apply saved_or_follows.
  - apply saved_or_follows.
  - apply saved_follows. destruct (saved setting "secret_access_key") as [stored|]; [|by injection K as <-].
    apply bind_Ok in K as (key & K1 & K). rewrite ok_or_Ok in K1. apply fmap_Ok in K as (text & K & ->). eauto.
  - intros ttl E P. unfold saved_ttl. rewrite E. by rewrite decide_True.
  - intros N. unfold saved_ttl. destruct (get setting "presign_ttl" ≫= as_i64) as [ttl|] eqn:E; [|done]. rewrite decide_False; [done|].
    specialize (N ttl eq_refl). lia.
  - intros x y X Y. unfold files_summary, with_credentials, set_or_unset; cbn in *. by rewrite X, Y.
Qed.

(** * Witnesses *)

(** A cipher that meets the promise, for the examples: it writes the key, the
    nonce and the field before the text. *)
#[local] Instance sample_aead : Aead := {
  seal key nonce aad text := Some (key +:+ nonce +:+ aad +:+ text);
  open key nonce aad sealed := strip_prefix (key +:+ nonce +:+ aad) sealed }.
Lemma strip_prefix_iff p s t : strip_prefix p s = Some t ↔ s = p +:+ t.
Proof.
  revert s. induction p as [|c p IH]; intros s; cbn [strip_prefix].
  - rewrite str_app_nil_l. naive_solver.
  - destruct s as [|d s]; [done|]. rewrite str_app_cons. case_decide as E; [subst d; rewrite IH|]; naive_solver.
Qed.
Lemma sample_aead_ok : aead_ok.
Proof. intros key nonce aad text sealed. cbn. rewrite strip_prefix_iff, <-!str_app_assoc. naive_solver. Qed.

Definition sample_key : string := "0123456789abcdef0123456789abcdef".
Definition sample_nonce : string := "nonce-of-12b".

Lemma secrets_read_back_witness : ∃ stored,
  encrypt sample_key (Some sample_nonce) "secret_access_key" "s3cret" = Ok stored ∧ decrypt sample_key "secret_access_key" stored = Ok "s3cret"
  ∧ is_encrypted stored = true.
Proof.
  eexists. split; [vm_compute; reflexivity|].
  apply (proj1 (secrets_read_back sample_key "secret_access_key" sample_aead_ok) sample_nonce); vm_compute; reflexivity.
Defined.

Definition sample_storage : Value := JObject [
  ("access_key_id", JString "AK"); ("backend", JString " S3 "); ("bucket", JString "media"); ("endpoint", JString "https://s3.example.com");
  ("presign_ttl", JNumber (PosInt 60)); ("region", JString "");
  ("secret_access_key", JString (match encrypt sample_key (Some sample_nonce) "secret_access_key" "s3cret" with Ok s => s | Err _ => "" end))].

Lemma saved_storage_over_the_running_witness : ∃ c,
  apply_storage_setting sample_storage (Some sample_key) default_config = Ok c ∧ usable c ∧ secret_key c = Some "s3cret" ∧ adapter c = S3
  ∧ region c = DEFAULT_REGION ∧ presign_ttl_seconds c = 60%Z.
Proof.
  eexists. split; [vm_compute; reflexivity|]. split; [|by vm_compute].
  eapply (saved_storage_over_the_running sample_storage (Some sample_key) default_config). vm_compute; reflexivity.
Defined.
