(* ===== verification/S3.v ===== *)
(** The bucket backend, [crates/files/src/s3.rs]: signed requests, presigned
    URLs and listings.

    SHA-256 and HMAC are parameters, and so is the network: an exchange takes
    the request that is sent to its answer. What a bucket does with a request is
    written down from the service's documentation ([verify], [verify_presigned],
    [listing_xml]), apart from the code, to be what the code is proved against. *)
From S2P Require Import Prelude CoreError F64 Json Ddl Validation Principal Mail Net FileKeys Effects Collections Backup OAuth2 StorageConfig.

Local Set Warnings "-register-all,-clear-no-such-hyp".

(** [hmac], on bytes. *)
Class Hmac := hmac : string → string → string.

Definition ALGORITHM : string := "AWS4-HMAC-SHA256".

(** [struct SignableRequest] and [struct SignedRequest]. *)
Record SignableRequest := {
  rq_method : string; rq_uri : string; rq_query : string; rq_headers : list (string * string); rq_payload_hash : string;
  rq_region : string; rq_service : string; rq_access_key : string; rq_secret_key : string; rq_timestamp : string;
}.
Record SignedRequest := { sg_method : string; sg_uri : string; sg_query : string; sg_headers : list (string * string); sg_authorization : string }.

(** [&timestamp[..8]], which panics on a shorter text. *)
Definition date_of (timestamp : string) : option string :=
  if decide (8 ≤ String.length timestamp)%nat then Some (String.substring 0 8 timestamp) else None.

(** [sort] of the headers. *)
Definition header_le (a b : string * string) : Prop := (if decide (a.1 = b.1) then String.leb a.2 b.2 else String.ltb a.1 b.1) = true.
#[export] Instance header_le_dec : RelDecision header_le := λ a b, decide ((if decide (a.1 = b.1) then String.leb a.2 b.2 else String.ltb a.1 b.1) = true).

(** [encode_path] and [encode_query_value]. *)
Definition upper_digit (n : N) : ascii := ascii_of_N (if (n <? 10)%N then 48 + n else 55 + n)%N.
Definition percent_byte (c : ascii) : string := String "%" (String (upper_digit (byte_of c / 16)) (String (upper_digit (byte_of c mod 16)) "")).
Definition unreserved (c : ascii) : bool :=
  is_ascii_alphanumeric c || bool_decide (c = "-"%char ∨ c = "."%char ∨ c = "_"%char ∨ c = "~"%char).
Fixpoint percent_encode (keep : ascii → bool) (s : string) : string :=
  match s with
  | EmptyString => ""
  | String c r => (if keep c then String c "" else percent_byte c) +:+ percent_encode keep r
  end.
Definition kept_in_path (c : ascii) : bool := unreserved c || bool_decide (c = "/"%char).
Definition encode_path : string → string := percent_encode kept_in_path.
Definition encode_query_value : string → string := percent_encode unreserved.

(** [trim_start_matches] of a text, and [host_of]. *)
Fixpoint trim_start_text (fuel : nat) (p s : string) : string :=
  match fuel with
  | O => s
  | S fuel => match strip_prefix p s with Some r => trim_start_text fuel p r | None => s end
  end.
Definition host_of (endpoint : string) : string :=
  let n := String.length endpoint in
  trim_end_matches "/" (trim_start_text n "http://" (trim_start_text n "https://" endpoint)).

(** [format_timestamp], with [civil_from_days] of this module, which is that of
    crates/db/src/backup.rs. *)
Definition format_timestamp (seconds : Z) : string :=
  let days := (seconds / 86400)%Z in
  let time := (seconds mod 86400)%Z in
  let '(year, month, day) := civil_from_days days in
  padded 4 year +:+ padded 2 month +:+ padded 2 day +:+ "T" +:+ padded 2 (time / 3600) +:+ padded 2 (time mod 3600 / 60)
  +:+ padded 2 (time mod 60) +:+ "Z".

(** [struct S3Storage]; [S3Storage::new], with what building the HTTP client comes to. *)
Record S3Storage := { s3_endpoint : string; s3_host : string; s3_bucket : string; s3_region : string; s3_access_key : string; s3_secret_key : string }.
Definition s3_new (client : result unit) (c : FilesConfig) : result S3Storage :=
  endpoint ← ok_or (endpoint c) Config; bucket ← ok_or (bucket c) Config;
  access_key ← ok_or (access_key c) Config; secret_key ← ok_or (secret_key c) Config;
  _ ← client;
  Ok {| s3_endpoint := trim_end_matches "/" endpoint; s3_host := host_of endpoint; s3_bucket := bucket; s3_region := region c;
        s3_access_key := access_key; s3_secret_key := secret_key |}.
Definition uri_for (s : S3Storage) (key : string) : string :=
  if decide (key = "") then "/" +:+ s3_bucket s +:+ "/" else "/" +:+ s3_bucket s +:+ "/" +:+ encode_path key.

Section signing.
Context `{Sha256, Hmac}.

Definition sha256_hex (s : string) : string := join "" (Ddl.hex_byte <$> sha256 s).
Definition payload_hash : string → string := sha256_hex.

(** [signing_key] and [signature_of]. *)
Definition signing_key (secret date region service : string) : string :=
  hmac (hmac (hmac (hmac ("AWS4" +:+ secret) date) region) service) "aws4_request".
Definition signature_of (canonical_request timestamp region service secret_key : string) : option string :=
  date ← date_of timestamp;
  let scope := date +:+ "/" +:+ region +:+ "/" +:+ service +:+ "/aws4_request" in
  let string_to_sign := ALGORITHM +:+ nl +:+ timestamp +:+ nl +:+ scope +:+ nl +:+ sha256_hex canonical_request in
  Some (hex (hmac (signing_key secret_key date region service) string_to_sign)).

(** [sign]; [None] is its panic. *)
Definition sign (r : SignableRequest) : option SignedRequest :=
  date ← date_of (rq_timestamp r);
  let headers := rq_headers r ++ [("x-amz-date", rq_timestamp r)] in
  let headers := (λ '(name, value), (to_ascii_lowercase name, value)) <$> headers in
  let headers := merge_sort header_le headers in
  let signed_headers := join ";" headers.*1 in
  let canonical_headers := join "" ((λ '(name, value), name +:+ ":" +:+ value +:+ nl) <$> headers) in
  let canonical_request := rq_method r +:+ nl +:+ rq_uri r +:+ nl +:+ rq_query r +:+ nl +:+ canonical_headers +:+ nl +:+ signed_headers
                           +:+ nl +:+ rq_payload_hash r in
  let scope := date +:+ "/" +:+ rq_region r +:+ "/" +:+ rq_service r +:+ "/aws4_request" in
  signature ← signature_of canonical_request (rq_timestamp r) (rq_region r) (rq_service r) (rq_secret_key r);
  Some {| sg_method := rq_method r; sg_uri := rq_uri r; sg_query := rq_query r; sg_headers := headers;
          sg_authorization := ALGORITHM +:+ " Credential=" +:+ rq_access_key r +:+ "/" +:+ scope +:+ ", SignedHeaders=" +:+ signed_headers
                              +:+ ", Signature=" +:+ signature |}.

(** [S3Storage::signed]. *)
Definition signed (s : S3Storage) (method uri query payload : string) (content_type : option string) (timestamp : string) : option SignedRequest :=
  let headers := [("host", s3_host s); ("x-amz-content-sha256", payload_hash payload)] in
  let headers := match content_type with Some t => headers ++ [("content-type", t)] | None => headers end in
  sign {| rq_method := method; rq_uri := uri; rq_query := query; rq_headers := headers; rq_payload_hash := payload_hash payload;
          rq_region := s3_region s; rq_service := "s3"; rq_access_key := s3_access_key s; rq_secret_key := s3_secret_key s;
          rq_timestamp := timestamp |}.

(** [S3Storage::presign_put]. *)
Definition presign_put (s : S3Storage) (key : string) (expires_seconds : Z) (timestamp : string) : option string :=
  date ← date_of timestamp;
  let credential := s3_access_key s +:+ "/" +:+ date +:+ "/" +:+ s3_region s +:+ "/s3/aws4_request" in
  let parameters := [("X-Amz-Algorithm", ALGORITHM); ("X-Amz-Credential", credential); ("X-Amz-Date", timestamp);
                     ("X-Amz-Expires", pretty expires_seconds); ("X-Amz-SignedHeaders", "host")] in
  let query := join "&" ((λ '(name, value), encode_query_value name +:+ "=" +:+ encode_query_value value) <$> parameters) in
  let uri := uri_for s key in
  let canonical_request := "PUT" +:+ nl +:+ uri +:+ nl +:+ query +:+ nl +:+ "host:" +:+ s3_host s +:+ nl +:+ nl +:+ "host" +:+ nl +:+ "UNSIGNED-PAYLOAD" in
  signature ← signature_of canonical_request timestamp (s3_region s) "s3" (s3_secret_key s);
  Some (s3_endpoint s +:+ uri +:+ "?" +:+ query +:+ "&X-Amz-Signature=" +:+ signature).
End signing.

(** * The exchange *)

(** What [send] hands the HTTP client. *)
Record Sent := { st_method : string; st_url : string; st_headers : list (string * string); st_body : string }.
Definition request_of (s : S3Storage) (r : SignedRequest) (body : string) : Sent :=
  {| st_method := sg_method r;
     st_url := if decide (sg_query r = "") then s3_endpoint s +:+ sg_uri r else s3_endpoint s +:+ sg_uri r +:+ "?" +:+ sg_query r;
     st_headers := filter (λ h, to_ascii_lowercase h.1 ≠ "host") (sg_headers r) ++ [("authorization", sg_authorization r)];
     st_body := body |}.

(** An answer: its status, its content type when it is text, and its body when
    it can be read. *)
Record S3Response := { an_status : Z; an_content_type : option string; an_body : option string }.
Definition is_success (status : Z) : bool := (200 <=? status)%Z && (status <? 300)%Z.

(** [parse_listing], [element], [is_truncated], [parse_continuation] and
    [unescape_xml]. *)
Definition unescape_xml (value : string) : string :=
  str_replace "&amp;" "&" (str_replace "&#39;" "'" (str_replace "&quot;" dq (str_replace "&gt;" ">" (str_replace "&lt;" "<" value)))).
Fixpoint parse_keys (fuel : nat) (xml : string) : list string :=
  match fuel with
  | O => []
  | S fuel =>
      match split_once_text "<Key>" xml with
      | Some (_, after) =>
          match split_once_text "</Key>" after with Some (key, rest) => unescape_xml key :: parse_keys fuel rest | None => [] end
      | None => []
      end
  end.
Definition parse_listing (xml : string) : list string := parse_keys (String.length xml) xml.
Definition element (xml name : string) : option string :=
  '(_, after) ← split_once_text ("<" +:+ name +:+ ">") xml;
  '(text, _) ← split_once_text ("</" +:+ name +:+ ">") after;
  Some (unescape_xml text).
Definition is_truncated (xml : string) : bool := bool_decide (element xml "IsTruncated" = Some "true").
Definition parse_continuation (xml : string) : option string :=
  token ← element xml "NextContinuationToken"; if decide (token = "") then None else Some token.

Definition LIST_PAGE : Z := 1000.
Definition list_query (prefix : string) (token : option string) : string :=
  "list-type=2&max-keys=" +:+ pretty LIST_PAGE +:+ "&prefix=" +:+ encode_query_value prefix
  +:+ match token with Some token => "&continuation-token=" +:+ encode_query_value token | None => "" end.
Definition HEALTH_QUERY : string := "list-type=2&max-keys=1&prefix=" +:+ encode_query_value "".

Section transport.
Context `{Sha256, Hmac} (s : S3Storage).

(** The requests of each operation, at an instant. *)
Definition put_request (now : Z) (key content_type body : string) : option Sent :=
  r ← signed s "PUT" (uri_for s key) "" body (Some content_type) (format_timestamp now); Some (request_of s r body).
Definition get_request (now : Z) (key : string) : option Sent :=
  r ← signed s "GET" (uri_for s key) "" "" None (format_timestamp now); Some (request_of s r "").
Definition delete_request (now : Z) (key : string) : option Sent :=
  r ← signed s "DELETE" (uri_for s key) "" "" None (format_timestamp now); Some (request_of s r "").
Definition query_request (now : Z) (query : string) : option Sent :=
  r ← signed s "GET" (uri_for s "") query "" None (format_timestamp now); Some (request_of s r "").

(** [put], [get], [delete], [health] and [list]: the exchange is the network's. *)
Context (exchange : Sent → result S3Response).
Definition exchanged {A} (r : option Sent) (f : S3Response → result A) : option (result A) :=
  r ← r; Some (answer ← match exchange r with Ok a => Ok a | Err _ => Err Internal end; f answer).

Definition s3_put (now : Z) (key content_type body : string) : option (result unit) :=
  exchanged (put_request now key content_type body) (λ a, if is_success (an_status a) then Ok () else Err Internal).
Definition s3_get (now : Z) (key : string) : option (result (option StoredObject)) :=
  exchanged (get_request now key) (λ a,
    if decide (an_status a = 200%Z) then
      body ← ok_or (an_body a) Internal;
      Ok (Some {| so_content_type := default "application/octet-stream" (an_content_type a); so_body := body |})
    else if decide (an_status a = 404%Z) then Ok None else Err Internal).
Definition s3_delete (now : Z) (key : string) : option (result unit) :=
  exchanged (delete_request now key) (λ a, if decide (an_status a ∈ [200; 204; 404]%Z) then Ok () else Err Internal).
Definition s3_health (now : Z) : option (result unit) :=
  exchanged (query_request now HEALTH_QUERY) (λ a, if is_success (an_status a) then Ok () else Err Internal).

(** The loop of [list] runs as long as there are readings of the clock, one to
    a page; [None] is a panic, [Some None] a listing that has not ended. *)
Definition list_page (now : Z) (prefix : string) (token : option string) : option (result (list string * option string)) :=
  exchanged (query_request now (list_query prefix token)) (λ a,
    if is_success (an_status a) then
      body ← ok_or (an_body a) Internal;
      Ok (parse_listing body, if is_truncated body then parse_continuation body else None)
    else Err Internal).
Fixpoint list_from (clock : list Z) (prefix : string) (token : option string) (keys : list string) : option (option (result (list string))) :=
  match clock with
  | [] => Some None
  | now :: clock =>
      page ← list_page now prefix token;
      match page with
      | Err e => Some (Some (Err e))
      | Ok (found, None) => Some (Some (Ok (sort_names (keys ++ found))))
      | Ok (found, Some token) => list_from clock prefix (Some token) (keys ++ found)
      end
  end.
Definition list_keys (clock : list Z) (prefix : string) : option (option (result (list string))) := list_from clock prefix None [].
End transport.

(** * What the service does with a request *)

(** A request as it arrives. The HTTP client reads the URL as the URL standard
    says: an ASCII host is put in lower case, the port of the scheme is left out,
    and dot segments, their dots percent-encoded or not, are resolved; what is
    left of the authority goes into [host]. What it does to other hosts
    (internationalised names, addresses that are not written canonically) and
    with credentials in the authority is left out: [plain_authority] below names
    the authorities this holds of. *)
Record Arrived := { ar_method : string; ar_path : string; ar_query : string; ar_headers : list (string * string); ar_body : string }.
Definition split_url (url : string) : option (string * string * string * string) :=
  '(scheme, rest) ← split_once_text "://" url;
  '(authority, rest) ← split_once "/" rest;
  match split_once "?" rest with
  | Some (path, query) => Some (scheme, authority, path, query)
  | None => Some (scheme, authority, rest, "")
  end.
Definition default_port (scheme : string) : string := if decide (scheme = "https") then ":443" else ":80".
Definition sent_authority (scheme authority : string) : string :=
  let authority := to_ascii_lowercase authority in default authority (strip_suffix (default_port scheme) authority).
Definition single_dot (segment : string) : bool := bool_decide (to_ascii_lowercase segment ∈ ["."; "%2e"]).
Definition double_dot (segment : string) : bool := bool_decide (to_ascii_lowercase segment ∈ [".."; ".%2e"; "%2e."; "%2e%2e"]).
Fixpoint resolve_dots (out segments : list string) : list string :=
  match segments with
  | [] => reverse out
  | segment :: rest =>
      let out' := if double_dot segment then tail out else if single_dot segment then out else segment :: out in
      if (double_dot segment || single_dot segment) && bool_decide (rest = []) then reverse ("" :: out') else resolve_dots out' rest
  end.
Definition sent_path (path : string) : string := "/" +:+ join "/" (resolve_dots [] (split_on "/" path)).
Definition arrives (r : Sent) : option Arrived :=
  '(scheme, authority, path, query) ← split_url (st_url r);
  Some {| ar_method := st_method r; ar_path := sent_path path; ar_query := query;
          ar_headers := ("host", sent_authority scheme authority) :: st_headers r; ar_body := st_body r |}.

(** Percent-decoding; a text that is not encoded properly stays. *)
Definition hex_pair (a b : ascii) : option ascii :=
  high ← Pagination.hex_value a; low ← Pagination.hex_value b; Some (ascii_of_N (Z.to_N (high * 16 + low))).
Fixpoint percent_decode (s : string) : string :=
  match s with
  | EmptyString => ""
  | String c r =>
      match r with
      | String a (String b r2) =>
          if decide (c = "%"%char) then
            match hex_pair a b with Some d => String d (percent_decode r2) | None => String c (percent_decode r) end
          else String c (percent_decode r)
      | _ => String c (percent_decode r)
      end
  end.

(** The canonical request of Signature Version 4: the path, the parameters of
    the query sorted by their encoded names, and the signed headers with their
    values trimmed and their spaces in sequence made one. *)
Definition query_pair (p : string) : string * string :=
  let '(name, value) := default (p, "") (split_once "=" p) in
  (encode_query_value (percent_decode name), encode_query_value (percent_decode value)).
Definition pair_text (p : string * string) : string := p.1 +:+ "=" +:+ p.2.
Definition canonical_query (query : string) : string :=
  if decide (query = "") then "" else join "&" (pair_text <$> merge_sort header_le (query_pair <$> split_on "&" query)).
Definition canonical_path (path : string) : string := encode_path (percent_decode path).
Definition trim_all (value : string) : string := join " " (filter (λ word, word ≠ "") (split_on " " value)).
Definition canonical_headers (names : list string) (headers : list (string * string)) : option string :=
  join "" <$> mapM (λ name, value ← assoc name headers; Some (name +:+ ":" +:+ trim_all value +:+ nl)) names.

Section service.
Context `{Sha256, Hmac} (secret_of : string → option string).

Definition expected_signature (secret date region service timestamp canonical : string) : string :=
  let date_key := hmac ("AWS4" +:+ secret) date in
  let region_key := hmac date_key region in
  let service_key := hmac region_key service in
  let signing_key := hmac service_key "aws4_request" in
  hex (hmac signing_key (join nl ["AWS4-HMAC-SHA256"; timestamp; join "/" [date; region; service; "aws4_request"]; sha256_hex canonical])).

(** The account a request is accepted for: its signature is the one the service
    computes from what arrived and the account's secret, and its body is the one
    that was signed. *)
Definition verify (r : Arrived) : option string :=
  auth ← assoc "authorization" (ar_headers r);
  auth ← strip_prefix "AWS4-HMAC-SHA256 Credential=" auth;
  '(credential, auth) ← split_once_text ", SignedHeaders=" auth;
  '(names, signature) ← split_once_text ", Signature=" auth;
  match split_on "/" credential with
  | [account; date; region; "s3"; "aws4_request"] =>
      secret ← secret_of account;
      timestamp ← assoc "x-amz-date" (ar_headers r);
      hash ← assoc "x-amz-content-sha256" (ar_headers r);
      headers ← canonical_headers (split_on ";" names) (ar_headers r);
      let canonical := join nl [ar_method r; canonical_path (ar_path r); canonical_query (ar_query r); headers; names; hash] in
      if decide (hash = sha256_hex (ar_body r) ∧ starts_with date timestamp = true ∧ "host" ∈ split_on ";" names
                 ∧ signature = expected_signature secret date region "s3" timestamp canonical)
      then Some account else None
  | _ => None
  end.

(** The same for a presigned URL: who signed it, when, and for how long. *)
Definition verify_presigned (r : Arrived) : option (string * string * string) :=
  let pairs := (λ p, let '(name, value) := default (p, "") (split_once "=" p) in (percent_decode name, percent_decode value)) <$> split_on "&" (ar_query r) in
  algorithm ← assoc "X-Amz-Algorithm" pairs; credential ← assoc "X-Amz-Credential" pairs; timestamp ← assoc "X-Amz-Date" pairs;
  expires ← assoc "X-Amz-Expires" pairs; names ← assoc "X-Amz-SignedHeaders" pairs; signature ← assoc "X-Amz-Signature" pairs;
  match split_on "/" credential with
  | [account; date; region; "s3"; "aws4_request"] =>
      secret ← secret_of account;
      headers ← canonical_headers (split_on ";" names) (ar_headers r);
      let rest := filter (λ p, starts_with "X-Amz-Signature=" p = false) (split_on "&" (ar_query r)) in
      let canonical := join nl [ar_method r; canonical_path (ar_path r); canonical_query (join "&" rest); headers; names; "UNSIGNED-PAYLOAD"] in
      if decide (algorithm = "AWS4-HMAC-SHA256" ∧ starts_with date timestamp = true ∧ "host" ∈ split_on ";" names
                 ∧ signature = expected_signature secret date region "s3" timestamp canonical)
      then Some (account, timestamp, expires) else None
  | _ => None
  end.

(** The object a path addresses: its bucket and its key. *)
Definition addressed (path : string) : option (string * string) :=
  rest ← strip_prefix "/" path; '(bucket, key) ← split_once "/" rest; Some (bucket, percent_decode key).
End service.

(** * Encoding *)

Definition is_percent_char (c : ascii) : bool := bool_decide (c = "%"%char) || is_ascii_digit c || in_range 65 70 c.

Lemma percent_byte_decodes c t : percent_decode (percent_byte c +:+ t) = String c (percent_decode t).
Proof.
  unfold percent_byte. rewrite !str_app_cons, str_app_nil_l. cbn [percent_decode]. rewrite decide_True by done.
  assert (hex_pair (upper_digit (byte_of c / 16)) (upper_digit (byte_of c mod 16)) = Some c) as -> by by_bytes c. done.
Qed.
Lemma percent_decode_char c t : c ≠ "%"%char → percent_decode (String c t) = String c (percent_decode t).
Proof. intros N. destruct t as [|a [|b t]]; [done|done|]. cbn [percent_decode]. by rewrite decide_False. Qed.

Lemma percent_decode_encode keep s t : keep "%"%char = false → percent_decode (percent_encode keep s +:+ t) = s +:+ percent_decode t.
Proof.
  intros K. induction s as [|c s IH]; [done|]. cbn [percent_encode]. rewrite <-str_app_assoc, str_app_cons. destruct (keep c) eqn:E.
  - rewrite str_app_cons, str_app_nil_l, percent_decode_char by congruence. by rewrite IH.
  - by rewrite percent_byte_decodes, IH.
Qed.
Lemma percent_decode_encoded keep s : keep "%"%char = false → percent_decode (percent_encode keep s) = s.
Proof. intros K. rewrite <-(str_app_nil_r (percent_encode keep s)), percent_decode_encode by done. by rewrite str_app_nil_r. Qed.
Lemma percent_decode_plain s t : str_forall unreserved s = true → percent_decode (s +:+ t) = s +:+ percent_decode t.
Proof.
  induction s as [|c s IH]; [done|]. cbn [str_forall]. intros [C S]%andb_true_iff. rewrite !str_app_cons, percent_decode_char, IH; [done..|].
  intros ->. done.
Qed.

Lemma percent_encode_app keep s t : percent_encode keep (s +:+ t) = percent_encode keep s +:+ percent_encode keep t.
Proof. induction s as [|c s IH]; [done|]. rewrite !str_app_cons. cbn [percent_encode]. by rewrite IH, str_app_assoc. Qed.
Lemma percent_encode_kept keep s : str_forall keep s = true → percent_encode keep s = s.
Proof. induction s as [|c s IH]; [done|]. cbn. intros [-> S]%andb_true_iff. by rewrite str_app_cons, IH. Qed.
Lemma percent_encode_forall p keep s : (∀ c, keep c = true → p c = true) → (∀ c, is_percent_char c = true → p c = true) →
  str_forall p (percent_encode keep s) = true.
Proof.
  intros K P. induction s as [|c s IH]; [done|]. cbn [percent_encode]. rewrite str_forall_app, IH, andb_true_r. destruct (keep c) eqn:E.
  - cbn. by rewrite K.
  - unfold percent_byte. cbn [str_forall].
    assert (is_percent_char "%" && is_percent_char (upper_digit (byte_of c / 16)) && is_percent_char (upper_digit (byte_of c mod 16)) = true) as B by by_bytes c.
    apply andb_true_iff in B as [[B1 B2]%andb_true_iff B3]. by rewrite !P.
Qed.

(** The characters an encoded text does not hold. *)
Definition free_of (c : ascii) (s : string) : Prop := str_forall (λ d, bool_decide (d ≠ c)) s = true.
Lemma free_of_unreserved c s : unreserved c = false → str_forall unreserved s = true → free_of c s.
Proof. intros U. apply str_forall_impl. intros d D. apply bool_decide_eq_true. congruence. Qed.
Lemma free_of_path c key : kept_in_path c = false → is_percent_char c = false → free_of c (encode_path key).
Proof. intros K P. apply percent_encode_forall; intros d D; apply bool_decide_eq_true; congruence. Qed.
Lemma free_of_value c v : unreserved c = false → is_percent_char c = false → free_of c (encode_query_value v).
Proof. intros K P. apply percent_encode_forall; intros d D; apply bool_decide_eq_true; congruence. Qed.
Lemma free_of_app c s t : free_of c s → free_of c t → free_of c (s +:+ t).
Proof. intros S T. unfold free_of. by rewrite str_forall_app, S, T. Qed.
Lemma free_of_join c sep l : free_of c sep → Forall (free_of c) l → free_of c (join sep l).
Proof. apply join_forall. Qed.

Lemma split_once_free c s t : free_of c s → split_once c (s +:+ String c t) = Some (s, t).
Proof. intros F. apply split_once_spec. by split. Qed.
Lemma split_once_absent c s : free_of c s → split_once c s = None.
Proof.
  induction s as [|d s IH]; [done|]. unfold free_of. cbn. intros [D S]%andb_true_iff. apply bool_decide_eq_true in D.
  rewrite decide_False by done. by rewrite IH.
Qed.
Lemma split_once_text_free c sep s t : free_of c s → split_once_text (String c sep) (s +:+ String c sep +:+ t) = Some (s, t).
Proof.
  induction s as [|d s IH]; intros F.
  - rewrite str_app_nil_l. pose proof (proj2 (strip_prefix_iff (String c sep) _ t) eq_refl) as E. rewrite str_app_cons in E |- *.
    unfold split_once_text; fold split_once_text. by rewrite E.
  - unfold free_of in F. cbn in F. apply andb_true_iff in F as [D F]. apply bool_decide_eq_true in D. rewrite str_app_cons. cbn [split_once_text].
    cbn [strip_prefix]. rewrite decide_False by congruence. by rewrite IH.
Qed.

Lemma cancel_head s t u : s +:+ t = s +:+ u → t = u.
Proof. induction s as [|c s IH]; [done|]. rewrite !str_app_cons. intros [= E]. by apply IH. Qed.
Lemma cancel_tail s t u : s +:+ u = t +:+ u → s = t.
Proof. intros E. apply strip_suffix_spec in E as X. pose proof (proj2 (strip_suffix_spec u (s +:+ u) s) eq_refl) as Y. congruence. Qed.

(** * Times *)

Lemma zeros_plain n : str_forall unreserved (zeros n) = true ∧ String.length (zeros n) = n.
Proof. unfold zeros. induction n as [|n [I L]]; [done|].
  change (Nat.iter (S n) (String "0"%char) "") with (String "0"%char (Nat.iter n (String "0"%char) "")). cbn [str_forall String.length]. by rewrite I, L.
Qed.
Lemma pretty_plain (z : Z) : str_forall unreserved (pretty z) = true.
Proof. eapply str_forall_impl; [|apply pretty_Z_chars]. intros c. by_bytes c. Qed.
Lemma padded_plain width z : str_forall unreserved (padded width z) = true ∧ (width ≤ String.length (padded width z))%nat.
Proof.
  unfold padded. destruct (z <? 0)%Z.
  - rewrite !str_forall_app, !str_length_app. destruct (zeros_plain (width - 1 - String.length (pretty (- z)%Z))) as [-> ->]. rewrite pretty_plain.
    split; [done|]. cbn. lia.
  - rewrite !str_forall_app, !str_length_app. destruct (zeros_plain (width - String.length (pretty z))) as [-> ->]. rewrite pretty_plain.
    split; [done|]. lia.
Qed.
Lemma format_timestamp_plain seconds : str_forall unreserved (format_timestamp seconds) = true ∧ (8 ≤ String.length (format_timestamp seconds))%nat.
Proof.
  unfold format_timestamp. destruct (civil_from_days _) as [[y m] d]. rewrite !str_forall_app, !str_length_app.
  destruct (padded_plain 4 y) as [-> ?], (padded_plain 2 m) as [-> ?], (padded_plain 2 d) as [-> ?].
  destruct (padded_plain 2 (seconds mod 86400 / 3600)) as [-> ?], (padded_plain 2 (seconds mod 86400 mod 3600 / 60)) as [-> ?],
    (padded_plain 2 (seconds mod 86400 mod 60)) as [-> ?]. split; [done|]. cbn. lia.
Qed.
Lemma date_of_timestamp t : str_forall unreserved t = true → (8 ≤ String.length t)%nat →
  ∃ date, date_of t = Some date ∧ str_forall unreserved date = true ∧ starts_with date t = true.
Proof.
  intros U L. unfold date_of. rewrite decide_True by done. eexists. split; [done|]. split; [by apply (truncate_forall unreserved 8)|].
  apply starts_with_spec. clear. generalize 8%nat. induction t as [|c t IH]; intros [|n]; cbn; [by exists ""|by exists ""|by eexists|].
  destruct (IH n) as [rest E]. exists rest. rewrite str_app_cons. by f_equal.
Qed.

(** * Endpoints *)

(** The authorities a URL says as they are: a name in lower case the last label
    of which does not make it a number, or four numbers, and a port that is not
    the scheme's. *)
Definition host_char (c : ascii) : bool := in_range 97 122 c || is_ascii_digit c || bool_decide (c = "-"%char ∨ c = "."%char).
Definition plain_host (name : string) : Prop :=
  str_forall host_char name = true
  ∧ ((∃ front c r, split_on "." name = front ++ [String c r] ∧ in_range 97 122 c = true ∧ Forall (λ label, starts_with "xn--" label = false) (split_on "." name))
     ∨ ∃ numbers : list N, length numbers = 4%nat ∧ Forall (λ n, n < 256)%N numbers ∧ name = join "." (pretty <$> numbers)).
Definition plain_authority (scheme authority : string) : Prop :=
  ∃ name port, authority = name +:+ port ∧ plain_host name ∧ name ≠ ""
    ∧ (port = "" ∨ ∃ n : N, (0 < n < 65536)%N ∧ port = ":" +:+ pretty n ∧ port ≠ default_port scheme).

Definition authority_char (c : ascii) : bool := host_char c || bool_decide (c = ":"%char).
Lemma pretty_host (n : N) : str_forall host_char (pretty n) = true.
Proof. eapply str_forall_impl; [|apply (pretty_N_value n)]. intros c. by_bytes c. Qed.
Lemma plain_authority_chars scheme authority : plain_authority scheme authority → authority ≠ "" ∧ str_forall authority_char authority = true.
Proof.
  intros (name & port & -> & [C _] & N & P). split; [by destruct name|]. rewrite str_forall_app. apply andb_true_iff. split.
  - eapply str_forall_impl; [|exact C]. intros c H. unfold authority_char. by rewrite H.
  - destruct P as [->|(n & B & -> & _)]; [done|]. cbn [str_forall String.append]. rewrite str_app_cons, str_app_nil_l. cbn [str_forall].
    eapply str_forall_impl; [|apply (pretty_host n)]. intros c H. unfold authority_char. by rewrite H.
Qed.
Lemma authority_free scheme authority : plain_authority scheme authority →
  free_of "/" authority ∧ free_of "?" authority ∧ str_forall is_graphic authority = true.
Proof. intros [_ H]%plain_authority_chars. split_and!; (eapply str_forall_impl; [|exact H]); intros c; by_bytes c. Qed.

Lemma lowercase_id s : str_forall (λ c, bool_decide (ascii_lower c = c)) s = true → to_ascii_lowercase s = s.
Proof.
  unfold to_ascii_lowercase. induction s as [|c s IH]; [done|]. cbn. intros [C S]%andb_true_iff. apply bool_decide_eq_true in C. by rewrite C, IH.
Qed.
Lemma sent_plain scheme authority : plain_authority scheme authority → sent_authority scheme authority = authority.
Proof.
  intros P. pose proof (plain_authority_chars _ _ P) as [_ C]. unfold sent_authority. rewrite lowercase_id.
  2:{ eapply str_forall_impl; [|exact C]. intros c. by_bytes c. }
  destruct (strip_suffix (default_port scheme) authority) as [x|] eqn:E; [exfalso|done]. apply strip_suffix_spec in E.
  destruct P as (name & port & -> & [N _] & _ & P). assert (free_of ":" name) as F by (eapply str_forall_impl; [|exact N]; intros c; by_bytes c).
  assert (∃ digits, default_port scheme = String ":" digits) as [digits D] by (unfold default_port; case_decide; eauto).
  destruct (split_once ":" x) as [[u v]|] eqn:X.
  - apply split_once_spec in X as [-> U]. rewrite <-str_app_assoc, str_app_cons in E.
    pose proof (split_once_free ":" u (v +:+ default_port scheme) U) as E1. rewrite <-E in E1. destruct P as [->|(n & B & -> & _)].
    + rewrite str_app_nil_r, split_once_absent in E1 by done. done.
    + change (":" +:+ pretty n) with (String ":" (pretty n)) in E1. rewrite split_once_free in E1 by done. injection E1 as _ E1.
      pose proof (pretty_host n) as H. rewrite E1, str_forall_app, D in H. apply andb_true_iff in H as [_ H]. done.
  - assert (free_of ":" x) as Fx.
    { clear -X. induction x as [|c x IH]; [done|]. cbn in X. case_decide as Q; [done|]. unfold free_of. cbn. apply andb_true_iff.
      split; [by apply bool_decide_eq_true|]. apply IH. by destruct (split_once ":" x) as [[]|]. }
    rewrite D in E. pose proof (split_once_free ":" x digits Fx) as E1. rewrite <-E in E1. destruct P as [->|(n & B & -> & NP)].
    + rewrite str_app_nil_r, split_once_absent in E1 by done. done.
    + change (":" +:+ pretty n) with (String ":" (pretty n)) in E1. rewrite split_once_free in E1 by done. injection E1 as _ E1.
      apply NP. rewrite D, <-E1. done.
Qed.

(** Keys whose segments are not dots, which are those of FileKeys.v. *)
Definition steady (key : string) : Prop := Forall (λ segment, segment ≠ "." ∧ segment ≠ "..") (split_on "/" key).
Lemma file_key_steady key : Forall plain_name (split_on "/" key) → steady key.
Proof. intros F. eapply Forall_impl; [exact F|]. by intros segment (_ & ? & ? & _). Qed.

Lemma encode_path_app s t : encode_path (s +:+ t) = encode_path s +:+ encode_path t.
Proof. apply percent_encode_app. Qed.
Lemma encoded_free s : free_of "/" s → free_of "/" (encode_path s).
Proof.
  intros F. induction s as [|d s IH]; [done|]. unfold free_of in F. cbn in F. apply andb_true_iff in F as [D F].
  apply bool_decide_eq_true in D. unfold encode_path. cbn [percent_encode]. apply free_of_app; [|by apply IH]. destruct (kept_in_path d).
  - unfold free_of. cbn. rewrite andb_true_r. by apply bool_decide_eq_true.
  - clear. unfold free_of. by_bytes d.
Qed.
Lemma split_encoded key : split_on "/" (encode_path key) = encode_path <$> split_on "/" key.
Proof.
  rewrite <-(join_split_on "/" key) at 1. pose proof (split_on_parts "/" key) as F. pose proof (split_on_nonempty "/" key) as N.
  revert F N. generalize (split_on "/" key). intros l F N.
  assert (encode_path (join "/" l) = join "/" (encode_path <$> l)) as ->.
  { clear F N. induction l as [|a l IH]; [done|]. destruct l as [|b l]; [done|]. rewrite join_cons2, !encode_path_app, IH. done. }
  apply split_join; [by destruct l|]. apply Forall_fmap. eapply Forall_impl; [exact F|]. intros x X. by apply encoded_free.
Qed.

Lemma lowercase_app' s t : to_ascii_lowercase (s +:+ t) = to_ascii_lowercase s +:+ to_ascii_lowercase t.
Proof. apply lowercase_app. Qed.
Lemma encoded_dot seg t : to_ascii_lowercase (encode_path seg) = String "." t → ∃ r, seg = String "." r ∧ to_ascii_lowercase (encode_path r) = t.
Proof.
  destruct seg as [|c r]; [done|]. unfold encode_path. cbn [percent_encode]. rewrite lowercase_app.
  assert (kept_in_path c = true → ascii_lower c = "."%char → c = "."%char) as D by by_bytes c. destruct (kept_in_path c).
  - cbn. intros [= E <-]. exists r. by rewrite (D eq_refl E).
  - done.
Qed.
Lemma encoded_percent seg t : to_ascii_lowercase (encode_path seg) ≠ String "%" (String "2" (String "e" t)).
Proof.
  destruct seg as [|c r]; [done|]. unfold encode_path. cbn [percent_encode]. rewrite lowercase_app.
  assert (kept_in_path c = true → ascii_lower c ≠ "%"%char) as D by by_bytes c.
  assert (ascii_lower (upper_digit (byte_of c / 16)) = "2"%char → ascii_lower (upper_digit (byte_of c mod 16)) = "e"%char → kept_in_path c = true) as P by by_bytes c.
  destruct (kept_in_path c).
  - cbn. intros [= E _]. by apply D.
  - cbn. rewrite !str_app_cons. intros [= E1 E2 _]. by specialize (P E1 E2).
Qed.
Lemma encoded_no_dots seg : seg ≠ "." → seg ≠ ".." → double_dot (encode_path seg) = false ∧ single_dot (encode_path seg) = false.
Proof.
  intros N1 N2. split; apply bool_decide_eq_false; intros X; set_unfold.
  - destruct_or! X; try by apply encoded_percent in X.
    + apply encoded_dot in X as (r & -> & X). apply encoded_dot in X as (r' & -> & X). destruct r' as [|c r']; [done|]. revert X.
      unfold encode_path. cbn [percent_encode]. destruct (kept_in_path c); [done|]. done.
    + apply encoded_dot in X as (r & -> & X). by apply encoded_percent in X.
  - destruct_or! X; [|by apply encoded_percent in X]. apply encoded_dot in X as (r & -> & X). destruct r as [|c r]; [done|]. revert X.
    unfold encode_path. cbn [percent_encode]. destruct (kept_in_path c); done.
Qed.
Lemma resolve_steady out l : Forall (λ seg, double_dot seg = false ∧ single_dot seg = false) l → resolve_dots out l = reverse out ++ l.
Proof.
  intros F. revert out. induction F as [|seg l [D S] F IH]; intros out; [by rewrite app_nil_r|]. cbn. rewrite D, S. cbn. rewrite IH.
  rewrite reverse_cons. by rewrite <-app_assoc.
Qed.

Lemma trim_slash p host slash : free_of "/" host → host ≠ "" → slash ∈ [""; "/"] → trim_end_matches "/" (p +:+ host +:+ slash) = p +:+ host.
Proof.
  intros F N S. assert (trim_end_matches "/" (host +:+ slash) = host) as H.
  { assert (trim_end_matches "/" slash = "") as T. { apply elem_of_cons in S as [->|[->|S%not_elem_of_nil]%elem_of_cons]; done. }
    induction host as [|c r IH]; [done|]. unfold free_of in F. cbn in F. apply andb_true_iff in F as [C F]. apply bool_decide_eq_true in C.
    rewrite str_app_cons. cbn [trim_end_matches]. destruct r as [|d r]; [rewrite str_app_nil_l, T; by rewrite decide_False|].
    by rewrite IH. }
  induction p as [|c p IH]; [by rewrite !str_app_nil_l|]. rewrite !str_app_cons. cbn [trim_end_matches]. rewrite IH. destruct p, host; done.
Qed.

Lemma no_second_scheme scheme host slash : scheme ∈ ["https:"; "http:"] → free_of "/" host → slash ∈ [""; "/"] →
  strip_prefix (scheme +:+ "//") (host +:+ slash) = None.
Proof.
  intros S F L. destruct (strip_prefix _ _) as [r|] eqn:E; [|done]. exfalso. apply strip_prefix_iff in E.
  assert (free_of "/" scheme) as FS by (apply elem_of_cons in S as [->|[->|S%not_elem_of_nil]%elem_of_cons]; done).
  apply (f_equal (split_once "/")) in E. rewrite <-str_app_assoc, str_app_cons, split_once_free in E by done.
  apply elem_of_cons in L as [->|[->|L%not_elem_of_nil]%elem_of_cons].
  - by rewrite str_app_nil_r, split_once_absent in E.
  - rewrite split_once_free in E by done. injection E as E1 E2. done.
  - done.
Qed.
Lemma trim_start_text_none n p s : strip_prefix p s = None → trim_start_text n p s = s.
Proof. destruct n; [done|]. cbn. by intros ->. Qed.

Lemma host_of_endpoint scheme host slash : scheme ∈ ["https:"; "http:"] → free_of "/" host → host ≠ "" → slash ∈ [""; "/"] →
  host_of (scheme +:+ "//" +:+ host +:+ slash) = host.
Proof.
  intros Sc F N L. unfold host_of. set (n := String.length _). assert (n <> 0)%nat as NZ.
  { unfold n. rewrite !str_length_app. apply elem_of_cons in Sc as [->|[->|Sc%not_elem_of_nil]%elem_of_cons]; cbn; lia. }
  clearbody n. destruct n as [|n]; [done|]. clear NZ.
  assert (trim_start_text (S n) "http://" (trim_start_text (S n) "https://" (scheme +:+ "//" +:+ host +:+ slash)) = host +:+ slash) as ->.
  { apply elem_of_cons in Sc as [->|[->|Sc%not_elem_of_nil]%elem_of_cons]; [| |done].
    - assert (trim_start_text (S n) "https://" ("https:" +:+ "//" +:+ host +:+ slash) = host +:+ slash) as ->.
      { cbn [trim_start_text]. rewrite (proj2 (strip_prefix_iff _ _ (host +:+ slash))) by done.
        apply trim_start_text_none. apply (no_second_scheme "https:"); [by left|done..]. }
      apply trim_start_text_none. apply (no_second_scheme "http:"); [by right; left|done..].
    - rewrite (trim_start_text_none _ "https://") by done. cbn [trim_start_text].
      rewrite (proj2 (strip_prefix_iff _ _ (host +:+ slash))) by done. apply trim_start_text_none.
      apply (no_second_scheme "http:"); [by right; left|done..]. }
  rewrite <-(str_app_nil_l (host +:+ slash)). by rewrite (trim_slash "" host slash).
Qed.

(** A backend whose names go into a URL unchanged. *)
Definition scheme_name (scheme : string) : string := if decide (scheme = "https:") then "https" else "http".
Record plain_backend (s : S3Storage) (scheme : string) : Prop := {
  pb_scheme : scheme ∈ ["https:"; "http:"];
  pb_endpoint : s3_endpoint s = scheme +:+ "//" +:+ s3_host s;
  pb_authority : plain_authority (scheme_name scheme) (s3_host s);
  pb_bucket : str_forall unreserved (s3_bucket s) = true;
  pb_bucket_dots : s3_bucket s ≠ "." ∧ s3_bucket s ≠ "..";
  pb_region : str_forall unreserved (s3_region s) = true;
  pb_access : str_forall unreserved (s3_access_key s) = true;
}.
Lemma s3_new_plain client c s scheme host slash : s3_new client c = Ok s →
  endpoint c = Some (scheme +:+ "//" +:+ host +:+ slash) → scheme ∈ ["https:"; "http:"] → slash ∈ [""; "/"] → plain_authority (scheme_name scheme) host →
  (∀ name, bucket c = Some name ∨ region c = name ∨ access_key c = Some name → str_forall unreserved name = true) →
  bucket c ≠ Some "." → bucket c ≠ Some ".." →
  plain_backend s scheme ∧ s3_host s = host.
Proof.
  intros N E S L H P B1 B2. destruct (plain_authority_chars _ _ H) as [NE _]. unfold s3_new in N. rewrite E in N. cbn [ok_or mbind result_bind] in N.
  destruct (bucket c) as [b|] eqn:B; [|done]. cbn [ok_or mbind result_bind] in N. destruct (access_key c) as [a|] eqn:A; [|done].
  cbn [ok_or mbind result_bind] in N. destruct (secret_key c) as [k|]; [|done]. cbn [ok_or mbind result_bind] in N. destruct client; [|done].
  injection N as <-. destruct (authority_free _ host H) as (F & _ & _). assert (host_of (scheme +:+ "//" +:+ host +:+ slash) = host) as HO by (by apply host_of_endpoint).
  split; [|done]. constructor; cbn [s3_endpoint s3_host s3_bucket s3_region s3_access_key]; rewrite ?HO; [done| |done|apply P; auto|split; congruence|apply P; auto..].
  rewrite !str_app_assoc. rewrite <-(str_app_assoc (scheme +:+ "//")). by rewrite trim_slash.
Qed.

(** * What the service finds *)

Section accepted.
Context `{Sha256, Hmac} (secret_of : string → option string) (s : S3Storage) (scheme : string).
Context (Plain : plain_backend s scheme) (Secret : secret_of (s3_access_key s) = Some (s3_secret_key s)).

Lemma uri_for_eq key : uri_for s key = "/" +:+ s3_bucket s +:+ "/" +:+ encode_path key.
Proof. unfold uri_for. case_decide as E; [by subst|done]. Qed.
Lemma decode_path key : percent_decode (encode_path key) = key.
Proof. by apply percent_decode_encoded. Qed.
Lemma uri_canonical key : canonical_path (uri_for s key) = uri_for s key.
Proof.
  unfold canonical_path. rewrite uri_for_eq. rewrite !str_app_cons, !str_app_nil_l. rewrite percent_decode_char by done.
  rewrite percent_decode_plain by apply (pb_bucket _ _ Plain). rewrite percent_decode_char, decode_path by done.
  change (String "/" (s3_bucket s +:+ String "/" key)) with ("/" +:+ s3_bucket s +:+ "/" +:+ key). unfold encode_path.
  rewrite !percent_encode_app, (percent_encode_kept _ (s3_bucket s)); [done|]. eapply str_forall_impl; [|apply (pb_bucket _ _ Plain)].
  intros c C. unfold kept_in_path. by rewrite C.
Qed.
Lemma uri_addressed key : addressed (uri_for s key) = Some (s3_bucket s, key).
Proof.
  unfold addressed. rewrite uri_for_eq. rewrite (proj2 (strip_prefix_iff "/" _ (s3_bucket s +:+ "/" +:+ encode_path key))) by done.
  cbn [mbind option_bind]. change ("/" +:+ encode_path key) with (String "/" (encode_path key)). rewrite split_once_free.
  - cbn. by rewrite decode_path.
  - apply free_of_unreserved; [done|apply (pb_bucket _ _ Plain)].
Qed.
Lemma uri_free key : free_of "?" (s3_bucket s +:+ "/" +:+ encode_path key).
Proof. repeat apply free_of_app; [apply free_of_unreserved; [done|apply (pb_bucket _ _ Plain)]|done|by apply free_of_path]. Qed.

Lemma uri_sent key : steady key → sent_path (s3_bucket s +:+ "/" +:+ encode_path key) = uri_for s key.
Proof.
  intros St. unfold sent_path. change ("/" +:+ encode_path key) with (String "/" (encode_path key)).
  rewrite split_on_app by (apply free_of_unreserved; [done|apply (pb_bucket _ _ Plain)]). rewrite resolve_steady.
  - cbn [app reverse]. change (reverse [] ++ ?l) with l. rewrite uri_for_eq. f_equal. rewrite <-(join_split_on "/" (encode_path key)) at 2.
    pose proof (split_on_nonempty "/" (encode_path key)). destruct (split_on "/" (encode_path key)); [done|]. by rewrite join_cons2.
  - constructor.
    + pose proof (pb_bucket_dots _ _ Plain) as [B1 B2]. pose proof (encoded_no_dots (s3_bucket s) B1 B2) as X.
      unfold encode_path in X. rewrite percent_encode_kept in X; [done|]. eapply str_forall_impl; [|apply (pb_bucket _ _ Plain)].
      intros c C. unfold kept_in_path. by rewrite C.
    + rewrite split_encoded. apply Forall_fmap. eapply Forall_impl; [exact St|]. intros x [X Y]. by apply encoded_no_dots.
Qed.

Lemma url_split key query : ∃ name,
  sent_authority name (s3_host s) = s3_host s
  ∧ split_url (s3_endpoint s +:+ uri_for s key) = Some (name, s3_host s, s3_bucket s +:+ "/" +:+ encode_path key, "")
  ∧ split_url (s3_endpoint s +:+ uri_for s key +:+ "?" +:+ query) = Some (name, s3_host s, s3_bucket s +:+ "/" +:+ encode_path key, query).
Proof.
  destruct Plain as [Sc E Ho _ _ _ _]. destruct (authority_free _ _ Ho) as (F & _ & _). exists (scheme_name scheme).
  split; [by apply sent_plain|]. rewrite E, !uri_for_eq. unfold split_url.
  assert (∀ rest, split_once_text "://" ((scheme +:+ "//" +:+ s3_host s) +:+ rest) = Some (scheme_name scheme, s3_host s +:+ rest)) as X.
  { intros rest. apply elem_of_cons in Sc as [->|[->|Sc%not_elem_of_nil]%elem_of_cons]; [| |done].
    - exact (split_once_text_free ":" "//" "https" (s3_host s +:+ rest) eq_refl).
    - exact (split_once_text_free ":" "//" "http" (s3_host s +:+ rest) eq_refl). }
  pose proof (uri_free key) as U. split.
  - rewrite (X ("/" +:+ s3_bucket s +:+ "/" +:+ encode_path key)). cbn [mbind option_bind].
    rewrite (str_app_cons "/" "" (_ +:+ _)), str_app_nil_l. rewrite split_once_free by done. cbn [mbind option_bind].
    rewrite split_once_absent by done. done.
  - assert (∀ q, ("/" +:+ s3_bucket s +:+ "/" +:+ encode_path key) +:+ q = "/" +:+ s3_bucket s +:+ "/" +:+ encode_path key +:+ q) as ->.
    { intros q. by rewrite <-!str_app_assoc. }
    rewrite (X ("/" +:+ s3_bucket s +:+ "/" +:+ encode_path key +:+ "?" +:+ query)). cbn [mbind option_bind].
    rewrite (str_app_cons "/" "" (s3_bucket s +:+ _)), str_app_nil_l. rewrite split_once_free by done. cbn [mbind option_bind].
    assert (s3_bucket s +:+ "/" +:+ encode_path key +:+ "?" +:+ query = (s3_bucket s +:+ "/" +:+ encode_path key) +:+ String "?" query) as ->.
    { by rewrite <-!str_app_assoc. }
    rewrite split_once_free by done. done.
Qed.

(** The authorization of a request reads back as what was signed. *)
Definition header_text (h : string * string) : string := let '(name, value) := h in name +:+ ":" +:+ value +:+ nl.
Definition authorization (date names signature : string) : string :=
  ALGORITHM +:+ " Credential=" +:+ s3_access_key s +:+ "/" +:+ (date +:+ "/" +:+ s3_region s +:+ "/" +:+ "s3" +:+ "/aws4_request")
  +:+ ", SignedHeaders=" +:+ names +:+ ", Signature=" +:+ signature.
Definition received (hs : list (string * string)) (auth : string) : list (string * string) :=
  ("host", s3_host s) :: filter (λ h, to_ascii_lowercase h.1 ≠ "host") hs ++ [("authorization", auth)].
Definition canonical_text (method uri query hash : string) (hs : list (string * string)) : string :=
  method +:+ nl +:+ uri +:+ nl +:+ query +:+ nl +:+ join "" (header_text <$> hs) +:+ nl +:+ join ";" hs.*1 +:+ nl +:+ hash.

Lemma credential_parts date : str_forall unreserved date = true →
  split_on "/" (s3_access_key s +:+ "/" +:+ date +:+ "/" +:+ s3_region s +:+ "/" +:+ "s3" +:+ "/aws4_request")
  = [s3_access_key s; date; s3_region s; "s3"; "aws4_request"].
Proof.
  intros D. apply (split_join "/" [s3_access_key s; date; s3_region s; "s3"; "aws4_request"]); [done|].
  destruct Plain. repeat constructor; first [done|by apply free_of_unreserved].
Qed.

(** What the service makes of a signed request: it takes it exactly when the
    signature is that of the canonical query. *)
Lemma verify_signed method key query payload hs ts date signature :
  let auth := authorization date (join ";" hs.*1) signature in
  let expected q := expected_signature (s3_secret_key s) date (s3_region s) "s3" ts
    (join nl [method; uri_for s key; q; join "" (header_text <$> hs); join ";" hs.*1; sha256_hex payload]) in
  date_of ts = Some date → str_forall unreserved date = true → starts_with date ts = true →
  split_on ";" (join ";" hs.*1) = hs.*1 → "host" ∈ hs.*1 → free_of "," (join ";" hs.*1) →
  assoc "authorization" (received hs auth) = Some auth → assoc "x-amz-date" (received hs auth) = Some ts →
  assoc "x-amz-content-sha256" (received hs auth) = Some (sha256_hex payload) →
  canonical_headers hs.*1 (received hs auth) = Some (join "" (header_text <$> hs)) →
  signature_of (canonical_text method (uri_for s key) query (sha256_hex payload) hs) ts (s3_region s) "s3" (s3_secret_key s) = Some signature →
  signature = expected query
  ∧ verify secret_of {| ar_method := method; ar_path := uri_for s key; ar_query := query; ar_headers := received hs auth; ar_body := payload |}
    = if decide (signature = expected (canonical_query query)) then Some (s3_access_key s) else None.
Proof.
  intros auth expected D DU DT N HN C A1 A2 A3 CH Sg. split.
  { unfold signature_of in Sg. rewrite D in Sg. cbn [mbind option_bind] in Sg. injection Sg as <-. unfold expected, expected_signature, signing_key.
    unfold canonical_text. rewrite !join_cons2, <-!str_app_assoc. done. }
  unfold verify. cbn [ar_headers]. rewrite A1. cbn [mbind option_bind].
  set (credential := s3_access_key s +:+ "/" +:+ date +:+ "/" +:+ s3_region s +:+ "/" +:+ "s3" +:+ "/aws4_request").
  assert (auth = "AWS4-HMAC-SHA256 Credential=" +:+ credential +:+ ", SignedHeaders=" +:+ join ";" hs.*1 +:+ ", Signature=" +:+ signature) as AE.
  { unfold auth, authorization, credential. rewrite <-!str_app_assoc. done. }
  rewrite (proj2 (strip_prefix_iff _ _ _) AE). cbn [mbind option_bind].
  assert (free_of "," credential) as CF.
  { unfold credential. destruct Plain. repeat apply free_of_app; first [done|by apply free_of_unreserved]. }
  change ", SignedHeaders=" with (String "," " SignedHeaders="). rewrite split_once_text_free by done. cbn [mbind option_bind].
  change ", Signature=" with (String "," " Signature="). rewrite split_once_text_free by done. cbn [mbind option_bind].
  unfold credential. rewrite credential_parts by done. rewrite Secret. cbn [mbind option_bind]. rewrite A2, A3. cbn [mbind option_bind].
  rewrite N, CH. cbn [mbind option_bind ar_method ar_path ar_query ar_body]. rewrite uri_canonical. fold (expected (canonical_query query)).
  destruct (decide (signature = expected (canonical_query query))) as [E|E]; [by rewrite decide_True|]. rewrite decide_False; [done|]. tauto.
Qed.

Lemma trim_all_graphic v : str_forall is_graphic v = true → trim_all v = v.
Proof.
  intros G. unfold trim_all. rewrite split_on_none by (eapply str_forall_impl; [|exact G]; intros c; by_bytes c).
  destruct v as [|c v]; [done|]. by rewrite filter_cons_True.
Qed.
Lemma trim_plain v : str_forall unreserved v = true → trim_all v = v.
Proof. intros P. apply trim_all_graphic. eapply str_forall_impl; [|exact P]. intros c. by_bytes c. Qed.
Lemma sha256_hex_plain x : str_forall unreserved (sha256_hex x) = true → trim_all (sha256_hex x) = sha256_hex x.
Proof. apply trim_plain. Qed.

(** What the digest is written with. *)
Context (Digits : ∀ x, str_forall unreserved (sha256_hex x) = true).

Definition sorted_headers (hash ts : string) (content_type : option string) : list (string * string) :=
  match content_type with Some t => [("content-type", t)] | None => [] end
  ++ [("host", s3_host s); ("x-amz-content-sha256", hash); ("x-amz-date", ts)].

Lemma signed_headers_sorted hash ts content_type :
  merge_sort header_le ((λ '(name, value), (to_ascii_lowercase name, value)) <$>
    ((match content_type with
      | Some t => [("host", s3_host s); ("x-amz-content-sha256", hash)] ++ [("content-type", t)]
      | None => [("host", s3_host s); ("x-amz-content-sha256", hash)]
      end) ++ [("x-amz-date", ts)])) = sorted_headers hash ts content_type.
Proof. destruct content_type; reflexivity. Qed.

Lemma received_canonical hash ts content_type auth : trim_all hash = hash → trim_all ts = ts → match content_type with Some t => trim_all t = t | None => True end →
  canonical_headers (sorted_headers hash ts content_type).*1 (received (sorted_headers hash ts content_type) auth)
  = Some (join "" (header_text <$> sorted_headers hash ts content_type)).
Proof.
  intros TH TT TC. assert (trim_all (s3_host s) = s3_host s) as H1. { apply trim_all_graphic. by destruct (authority_free _ _ (pb_authority _ _ Plain)) as (_ & _ & ?). }
  transitivity (Some (join "" ((λ h, h.1 +:+ ":" +:+ trim_all h.2 +:+ nl) <$> sorted_headers hash ts content_type))).
  { by destruct content_type. }
  unfold sorted_headers. destruct content_type as [t|]; cbn [app fmap list_fmap fst snd header_text].
  - by rewrite TH, TT, TC, H1.
  - by rewrite TH, TT, H1.
Qed.

(** Two texts with one signature. *)
Definition collision : Prop := ∃ date ts x y, x ≠ y
  ∧ expected_signature (s3_secret_key s) date (s3_region s) "s3" ts x = expected_signature (s3_secret_key s) date (s3_region s) "s3" ts y.

Lemma signed_arrives method key query payload content_type now :
  steady key → match content_type with Some t => trim_all t = t | None => True end →
  ∃ r a, signed s method (uri_for s key) query payload content_type (format_timestamp now) = Some r ∧ arrives (request_of s r payload) = Some a
    ∧ ar_method a = method ∧ ar_path a = uri_for s key ∧ ar_query a = query ∧ ar_body a = payload
    ∧ (canonical_query query = query → verify secret_of a = Some (s3_access_key s))
    ∧ (canonical_query query ≠ query → verify secret_of a = None ∨ collision).
Proof.
  intros St T. destruct (format_timestamp_plain now) as [PT L]. destruct (date_of_timestamp _ PT L) as (date & D & DU & DT).
  set (ts := format_timestamp now) in *. clearbody ts. set (hash := sha256_hex payload). set (hs := sorted_headers hash ts content_type).
  destruct (signature_of (canonical_text method (uri_for s key) query hash hs) ts (s3_region s) "s3" (s3_secret_key s)) as [signature|] eqn:Sg.
  2:{ exfalso. unfold signature_of in Sg. by rewrite D in Sg. }
  set (auth := authorization date (join ";" hs.*1) signature).
  assert (signed s method (uri_for s key) query payload content_type ts
          = Some {| sg_method := method; sg_uri := uri_for s key; sg_query := query; sg_headers := hs; sg_authorization := auth |}) as Sd.
  { unfold signed, sign. cbn [rq_timestamp rq_headers rq_method rq_uri rq_query rq_payload_hash rq_region rq_service rq_access_key rq_secret_key].
    unfold payload_hash. fold hash. rewrite D. cbn [mbind option_bind].
    rewrite (signed_headers_sorted hash ts content_type). fold hs. unfold canonical_text in Sg. fold header_text. rewrite Sg. done. }
  exists {| sg_method := method; sg_uri := uri_for s key; sg_query := query; sg_headers := hs; sg_authorization := auth |},
    {| ar_method := method; ar_path := uri_for s key; ar_query := query; ar_headers := received hs auth; ar_body := payload |}.
  split; [done|]. split.
  { unfold arrives, request_of. cbn [sg_method sg_uri sg_query sg_headers sg_authorization st_url st_method st_headers st_body].
    destruct (url_split key query) as (name & A & U1 & U2). case_decide as E; [subst query; rewrite U1|rewrite U2]; cbn [mbind option_bind];
      by rewrite A, uri_sent. }
  split; [done|]. split; [done|]. split; [done|]. split; [done|].
  destruct (verify_signed method key query payload hs ts date signature) as [E V]; try done.
  - by destruct content_type.
  - destruct content_type; cbn; [right|]; left.
  - by destruct content_type.
  - by destruct content_type.
  - by destruct content_type.
  - by destruct content_type.
  - apply received_canonical; [by apply sha256_hex_plain|by apply trim_plain|done].
  - fold auth in V. rewrite V. split; [intros Q; rewrite Q; by rewrite decide_True|]. intros Q. case_decide as X; [right|by left].
    rewrite E in X. eexists date, ts, _, _. split; [|exact X]. intros Y. rewrite !join_cons2 in Y. apply Q. symmetry.
    do 4 apply cancel_head in Y. by apply cancel_tail in Y.
Qed.

Lemma signed_accepted method key query payload content_type now :
  steady key → canonical_query query = query → match content_type with Some t => trim_all t = t | None => True end →
  ∃ r a, signed s method (uri_for s key) query payload content_type (format_timestamp now) = Some r ∧ arrives (request_of s r payload) = Some a
    ∧ verify secret_of a = Some (s3_access_key s) ∧ ar_method a = method ∧ ar_path a = uri_for s key ∧ ar_query a = query ∧ ar_body a = payload.
Proof.
  intros St Q T. destruct (signed_arrives method key query payload content_type now St T) as (r & a & R & A & M & P & Qa & B & V & _).
  exists r, a. auto 10.
Qed.
End accepted.

(** ** Queries *)

Lemma decode_value v : percent_decode (encode_query_value v) = v.
Proof. by apply percent_decode_encoded. Qed.
Lemma decode_name name : str_forall unreserved name = true → percent_decode name = name.
Proof. intros N. rewrite <-(str_app_nil_r name) at 1. rewrite percent_decode_plain by done. apply str_app_nil_r. Qed.
Lemma encode_name name : str_forall unreserved name = true → encode_query_value name = name.
Proof. apply percent_encode_kept. Qed.
Lemma query_pair_encoded name v : str_forall unreserved name = true → query_pair (name +:+ "=" +:+ encode_query_value v) = (name, encode_query_value v).
Proof.
  intros N. unfold query_pair. change ("=" +:+ encode_query_value v) with (String "=" (encode_query_value v)).
  rewrite split_once_free by (by apply free_of_unreserved). cbn [default from_option id].
  by rewrite decode_value, decode_name, encode_name.
Qed.

(** A query of parameters whose names are in order is canonical. *)
Definition parameter_text (p : string * string) : string := p.1 +:+ "=" +:+ encode_query_value p.2.
Lemma parameter_free p : str_forall unreserved p.1 = true → free_of "&" (parameter_text p).
Proof.
  intros N. unfold parameter_text. repeat apply free_of_app; [by apply free_of_unreserved|done|by apply free_of_value].
Qed.
Lemma parameters_canonical l : l ≠ [] → Forall (λ p, str_forall unreserved p.1 = true) l →
  merge_sort header_le ((λ p, (p.1, encode_query_value p.2)) <$> l) = (λ p, (p.1, encode_query_value p.2)) <$> l →
  canonical_query (join "&" (parameter_text <$> l)) = join "&" (parameter_text <$> l).
Proof.
  intros NE F S. unfold canonical_query. rewrite decide_False.
  2:{ destruct l as [|p l]; [done|]. cbn [fmap list_fmap]. unfold parameter_text at 1. destruct l; [cbn; by destruct p.1|]. cbn [fmap list_fmap].
      rewrite join_cons2. by destruct p.1. }
  rewrite split_join; [|by destruct l|].
  - assert (query_pair <$> (parameter_text <$> l) = (λ p, (p.1, encode_query_value p.2)) <$> l) as ->.
    { rewrite <-list_fmap_compose. apply list_fmap_ext. intros i p E. apply list_elem_of_lookup_2 in E. rewrite Forall_forall in F.
      cbn. by apply query_pair_encoded, F. }
    rewrite S, <-list_fmap_compose. done.
  - apply Forall_fmap. eapply Forall_impl; [exact F|]. intros p P. by apply parameter_free.
Qed.

Lemma health_query_canonical : canonical_query HEALTH_QUERY = HEALTH_QUERY.
Proof. vm_compute; reflexivity. Qed.
Lemma list_query_canonical prefix : canonical_query (list_query prefix None) = list_query prefix None.
Proof.
  assert (list_query prefix None = join "&" (parameter_text <$> [("list-type", "2"); ("max-keys", "1000"); ("prefix", prefix)])) as E.
  { unfold list_query. rewrite str_app_nil_r. reflexivity. }
  rewrite E. apply parameters_canonical; [done|by repeat constructor|reflexivity].
Qed.

Lemma hex_plain x : str_forall unreserved (hex x) = true.
Proof. induction x as [|b x IH]; [done|]. cbn [hex]. rewrite str_forall_app, IH, andb_true_r. by_bytes b. Qed.
Lemma hex_byte_plain b : (0 ≤ b < 256)%Z → str_forall unreserved (Ddl.hex_byte b) = true.
Proof.
  intros B. assert (∀ n, (0 ≤ n < 16)%Z → unreserved (Ddl.hex_digit n) = true) as D.
  { intros n N. assert (n = 0 ∨ n = 1 ∨ n = 2 ∨ n = 3 ∨ n = 4 ∨ n = 5 ∨ n = 6 ∨ n = 7 ∨ n = 8 ∨ n = 9 ∨ n = 10 ∨ n = 11 ∨ n = 12 ∨ n = 13 ∨ n = 14 ∨ n = 15)%Z as C by lia.
    repeat (destruct C as [->|C]; [done|]). by subst. }
  unfold Ddl.hex_byte. cbn [str_forall]. rewrite !D; [done| |].
  - apply Z.mod_pos_bound. lia.
  - split; [apply Z.div_pos; lia|apply Z.div_lt_upper_bound; lia].
Qed.

(** ** Presigned URLs *)

Section presigned.
Context `{Sha256, Hmac} (secret_of : string → option string) (s : S3Storage) (scheme : string).
Context (Plain : plain_backend s scheme) (Secret : secret_of (s3_access_key s) = Some (s3_secret_key s)).

Definition presign_parameters (date ts : string) (expires : Z) : list (string * string) := [
  ("X-Amz-Algorithm", ALGORITHM);
  ("X-Amz-Credential", s3_access_key s +:+ "/" +:+ date +:+ "/" +:+ s3_region s +:+ "/" +:+ "s3" +:+ "/aws4_request");
  ("X-Amz-Date", ts); ("X-Amz-Expires", pretty expires); ("X-Amz-SignedHeaders", "host")].

Lemma presign_url key expires ts date : date_of ts = Some date → ∃ signature,
  signature = expected_signature (s3_secret_key s) date (s3_region s) "s3" ts
    (join nl ["PUT"; uri_for s key; join "&" (parameter_text <$> presign_parameters date ts expires); "host:" +:+ s3_host s +:+ nl; "host"; "UNSIGNED-PAYLOAD"])
  ∧ str_forall unreserved signature = true
  ∧ presign_put s key expires ts = Some (s3_endpoint s +:+ uri_for s key +:+ "?"
      +:+ join "&" ((parameter_text <$> presign_parameters date ts expires) ++ [parameter_text ("X-Amz-Signature", signature)])).
Proof.
  intros D. eexists. split; [reflexivity|]. split; [apply hex_plain|]. unfold presign_put. rewrite D. cbn [mbind option_bind].
  set (query := join "&" (parameter_text <$> presign_parameters date ts expires)).
  match goal with |- context [join "&" ?l] => assert (join "&" l = query) as -> end.
  { unfold query, presign_parameters. unfold parameter_text. cbn [fmap list_fmap fst snd]. rewrite <-?str_app_assoc. reflexivity. }
  unfold signature_of. rewrite D. cbn [mbind option_bind].
  match goal with |- Some (_ +:+ _ +:+ _ +:+ _ +:+ _ +:+ ?sig) = Some (_ +:+ _ +:+ _ +:+ join _ (_ ++ [parameter_text (_, ?sig')])) => assert (sig = sig') as -> end.
  { unfold expected_signature, signing_key. rewrite !join_cons2, <-?str_app_assoc. reflexivity. }
  set (sig := expected_signature _ _ _ _ _ _). do 4 f_equal. unfold query, parameter_text at 3. cbn [fst snd].
  rewrite (encode_name sig) by apply hex_plain. unfold presign_parameters. cbn [fmap list_fmap app]. rewrite !join_cons2, <-?str_app_assoc. reflexivity.
Qed.

Definition decoded_pair (p : string) : string * string :=
  let '(name, value) := default (p, "") (split_once "=" p) in (percent_decode name, percent_decode value).
Lemma decoded_parameter p : str_forall unreserved p.1 = true → decoded_pair (parameter_text p) = p.
Proof.
  intros N. unfold decoded_pair, parameter_text. change ("=" +:+ encode_query_value p.2) with (String "=" (encode_query_value p.2)).
  rewrite split_once_free by (by apply free_of_unreserved). cbn [default from_option id]. rewrite decode_value, decode_name by done. by destruct p.
Qed.

Lemma presigned_accepted key expires now : steady key → ∃ url, presign_put s key expires (format_timestamp now) = Some url ∧
  ∀ headers body, ∃ a, arrives {| st_method := "PUT"; st_url := url; st_headers := headers; st_body := body |} = Some a
    ∧ verify_presigned secret_of a = Some (s3_access_key s, format_timestamp now, pretty expires)
    ∧ addressed (ar_path a) = Some (s3_bucket s, key) ∧ ar_body a = body.
Proof.
  intros St. destruct (format_timestamp_plain now) as [PT L]. destruct (date_of_timestamp _ PT L) as (date & D & DU & DT).
  set (ts := format_timestamp now) in *. clearbody ts. destruct (presign_url key expires ts date D) as (sig & Sg & SP & U).
  eexists. split; [exact U|]. intros headers body. set (ps := presign_parameters date ts expires) in *.
  set (query := join "&" ((parameter_text <$> ps) ++ [parameter_text ("X-Amz-Signature", sig)])).
  exists {| ar_method := "PUT"; ar_path := uri_for s key; ar_query := query; ar_headers := ("host", s3_host s) :: headers; ar_body := body |}.
  split. { unfold arrives. cbn [st_url st_method st_headers st_body]. destruct (url_split s scheme Plain key query) as (name & A & _ & U2). rewrite U2. cbn [mbind option_bind].
    by rewrite A, (uri_sent s scheme Plain). }
  split; [|split; [by apply (uri_addressed s scheme)|done]].
  assert (Forall (λ p, str_forall unreserved p.1 = true) (ps ++ [("X-Amz-Signature", sig)])) as NP by (by repeat constructor).
  assert (split_on "&" query = parameter_text <$> (ps ++ [("X-Amz-Signature", sig)])) as SQ.
  { unfold query. assert ((parameter_text <$> ps) ++ [parameter_text ("X-Amz-Signature", sig)] = parameter_text <$> (ps ++ [("X-Amz-Signature", sig)])) as ->.
    { by rewrite fmap_app. }
    apply split_join; [done|]. apply Forall_fmap. eapply Forall_impl; [exact NP|].
    intros p P. by apply parameter_free. }
  unfold verify_presigned. cbn [ar_query ar_headers ar_method ar_path]. rewrite SQ. fold decoded_pair.
  assert (decoded_pair <$> (parameter_text <$> (ps ++ [("X-Amz-Signature", sig)])) = ps ++ [("X-Amz-Signature", sig)]) as ->.
  { rewrite <-list_fmap_compose. rewrite <-(list_fmap_id (ps ++ _)) at 2. apply list_fmap_ext. intros i p E. apply list_elem_of_lookup_2 in E.
    rewrite Forall_forall in NP. by apply decoded_parameter, NP. }
  assert (assoc "X-Amz-Credential" (ps ++ [("X-Amz-Signature", sig)])
          = Some (s3_access_key s +:+ "/" +:+ date +:+ "/" +:+ s3_region s +:+ "/" +:+ "s3" +:+ "/aws4_request")) as A2 by reflexivity.
  assert (assoc "X-Amz-Algorithm" (ps ++ [("X-Amz-Signature", sig)]) = Some ALGORITHM) as A1 by reflexivity.
  assert (assoc "X-Amz-Date" (ps ++ [("X-Amz-Signature", sig)]) = Some ts) as A3 by reflexivity.
  assert (assoc "X-Amz-Expires" (ps ++ [("X-Amz-Signature", sig)]) = Some (pretty expires)) as A4 by reflexivity.
  assert (assoc "X-Amz-SignedHeaders" (ps ++ [("X-Amz-Signature", sig)]) = Some "host") as A5 by reflexivity.
  assert (assoc "X-Amz-Signature" (ps ++ [("X-Amz-Signature", sig)]) = Some sig) as A6 by reflexivity.
  rewrite A1, A2, A3, A4, A5, A6. cbn [mbind option_bind]. rewrite (credential_parts s scheme Plain) by done. rewrite Secret. cbn [mbind option_bind].
  change (split_on ";" "host") with ["host"]. assert (canonical_headers ["host"] (("host", s3_host s) :: headers) = Some ("host:" +:+ s3_host s +:+ nl)) as ->.
  { transitivity (Some ("host:" +:+ trim_all (s3_host s) +:+ nl)); [done|]. rewrite trim_all_graphic; [done|].
    by destruct (authority_free _ _ (pb_authority _ _ Plain)) as (_ & _ & ?). }
  cbn [mbind option_bind].
  assert (filter (λ p, starts_with "X-Amz-Signature=" p = false) (parameter_text <$> (ps ++ [("X-Amz-Signature", sig)])) = parameter_text <$> ps) as -> by reflexivity.
  rewrite decide_True; [done|]. split_and!; [done..|by left|]. rewrite (uri_canonical s scheme Plain). rewrite parameters_canonical; [exact Sg|done| |reflexivity].
  apply Forall_app in NP. tauto.
Qed.
End presigned.

(** * Listings *)

(** The answer to a listing as the service documents it. XML leaves it to the
    writer how to spell a character: by an entity, or, but for [<] and [&], as
    it is. *)
Definition escape_char (c : ascii) : string :=
  if decide (c = "<"%char) then "&lt;" else if decide (c = ">"%char) then "&gt;" else if decide (c = quote_char) then "&quot;"
  else if decide (c = "'"%char) then "&#39;" else if decide (c = "&"%char) then "&amp;" else String c "".
Definition undone (spell : ascii → string) : Prop :=
  ∀ c, spell c = escape_char c ∨ (c ≠ "<"%char ∧ c ≠ "&"%char ∧ spell c = String c "").
Fixpoint spelled (f : ascii → string) (s : string) : string := match s with EmptyString => "" | String c r => f c +:+ spelled f r end.
Definition content_xml (spell : ascii → string) (key : string) : string := "<Contents><Key>" +:+ spelled spell key +:+ "</Key><Size>1</Size></Contents>".
Definition listing_xml (spell : ascii → string) (bucket : string) (keys : list string) (token : option string) : string :=
  "<ListBucketResult><Name>" +:+ spelled spell bucket +:+ "</Name>"
  +:+ match token with
      | Some token => "<IsTruncated>true</IsTruncated><NextContinuationToken>" +:+ spelled spell token +:+ "</NextContinuationToken>"
      | None => "<IsTruncated>false</IsTruncated>"
      end
  +:+ join "" (content_xml spell <$> keys) +:+ "</ListBucketResult>".

(** One replacement turns one entity back, wherever it stands. *)
Lemma replace_skips from to t r : replace_all from to (String.length t) (t +:+ r) = replace_all from to 0 r.
Proof. induction t as [|c t IH]; [done|]. rewrite str_app_cons. cbn. exact IH. Qed.
Lemma replace_free from to t r : free_of "&" t → replace_all (String "&" from) to 0 (t +:+ r) = t +:+ replace_all (String "&" from) to 0 r.
Proof.
  induction t as [|c t IH]; [done|]. unfold free_of. cbn [str_forall]. intros [C T]%andb_true_iff. apply bool_decide_eq_true in C.
  rewrite !str_app_cons. cbn [replace_all]. unfold starts_with. cbn [strip_prefix]. rewrite decide_False by done. by rewrite IH.
Qed.
Lemma replace_spelled from to (f g : ascii → string) s :
  (∀ c, (f c = String "&" from ∧ g c = to) ∨ (g c = f c ∧ ∃ a t, f c = String a t ∧ free_of "&" t ∧ ∀ r, starts_with (String "&" from) (String a t +:+ r) = false)) →
  str_replace (String "&" from) to (spelled f s) = spelled g s.
Proof.
  intros F. unfold str_replace. induction s as [|c s IH]; [done|]. cbn [spelled]. destruct (F c) as [[-> ->]|(-> & a & t & E & T & N)].
  - rewrite str_app_cons. cbn [replace_all]. assert (starts_with (String "&" from) (String "&" (from +:+ spelled f s)) = true) as ->.
    { apply starts_with_spec. exists (spelled f s). by rewrite str_app_cons. }
    replace (String.length (String "&" from) - 1)%nat with (String.length from) by (cbn; lia). rewrite replace_skips. by rewrite IH.
  - rewrite E. specialize (N (spelled f s)). rewrite str_app_cons in N |- *. cbn [replace_all]. rewrite N, replace_free by done. by rewrite IH.
Qed.

Ltac by_entity c :=
  destruct c as [[] [] [] [] [] [] [] []];
  first [left; split; reflexivity
        |right; split; [reflexivity|]; eexists _, _; split; [reflexivity|]; split; [reflexivity|]; intros; reflexivity].

Section spelling.
Context (spell : ascii → string) (Undone : undone spell).
Definition spell_but (l : list ascii) (c : ascii) : string := if decide (c ∈ l) then String c "" else spell c.
Lemma starts_other from c t r : c ≠ "&"%char → starts_with (String "&" from) (String c t +:+ r) = false.
Proof. intros N. unfold starts_with. rewrite str_app_cons. cbn [strip_prefix]. by rewrite decide_False by congruence. Qed.
Ltac by_spelling c :=
  let E := fresh in let N := fresh in destruct (Undone c) as [E|(_ & N & E)]; unfold spell_but; rewrite E; clear E;
  [by_entity c|right; split; [repeat case_decide; reflexivity|]; exists c, ""; split; [repeat case_decide; reflexivity|]; split; [reflexivity|];
     intros; by apply starts_other].
Lemma unescape_escape s : unescape_xml (spelled spell s) = s.
Proof.
  unfold unescape_xml.
  rewrite (replace_spelled "lt;" "<" _ (spell_but ["<"%char])) by (intros c; by_spelling c).
  rewrite (replace_spelled "gt;" ">" _ (spell_but ["<"; ">"]%char)) by (intros c; by_spelling c).
  rewrite (replace_spelled "quot;" Mail.dq _ (spell_but ["<"; ">"; quote_char]%char)) by (intros c; by_spelling c).
  rewrite (replace_spelled "#39;" "'" _ (spell_but ["<"; ">"; quote_char; "'"]%char)) by (intros c; by_spelling c).
  rewrite (replace_spelled "amp;" "&" _ (λ c, String c "")) by (intros c; by_spelling c).
  induction s as [|c s IH]; [done|]. cbn [spelled]. by rewrite IH.
Qed.

(** What follows the first occurrence of a text. *)
Fixpoint rest_after (sep s : string) : option string :=
  match strip_prefix sep s with
  | Some r => Some r
  | None => match s with EmptyString => None | String _ r => rest_after sep r end
  end.
Lemma split_once_text_rest sep s : snd <$> split_once_text sep s = rest_after sep s.
Proof.
  induction s as [|c s IH]; cbn [split_once_text rest_after]; destruct (strip_prefix _ _) eqn:E; try done.
  rewrite <-IH. by destruct (split_once_text sep s) as [[a b]|].
Qed.
Lemma rest_after_free c sep s t : free_of c s → rest_after (String c sep) (s +:+ t) = rest_after (String c sep) t.
Proof.
  induction s as [|d s IH]; intros F; [done|]. unfold free_of in F. cbn in F. apply andb_true_iff in F as [D F]. apply bool_decide_eq_true in D.
  rewrite str_app_cons. cbn [rest_after strip_prefix]. rewrite decide_False by congruence. by apply IH.
Qed.
Lemma escape_free s : free_of "<" (spelled spell s).
Proof.
  unfold free_of. induction s as [|c s IH]; [done|]. cbn [spelled]. rewrite str_forall_app, IH, andb_true_r.
  destruct (Undone c) as [-> |(N & _ & ->)]; [by_bytes c|]. cbn. rewrite andb_true_r. by apply bool_decide_eq_true.
Qed.
Lemma join_nothing_cons a l : join "" (a :: l) = a +:+ join "" l.
Proof. destruct l; [by rewrite str_app_nil_r|]. by rewrite join_cons2. Qed.

Lemma parse_keys_rest fuel s t : rest_after "<Key>" s = rest_after "<Key>" t → parse_keys fuel s = parse_keys fuel t.
Proof.
  rewrite <-!split_once_text_rest. destruct fuel as [|fuel]; [done|]. cbn [parse_keys].
  destruct (split_once_text "<Key>" s) as [[a b]|], (split_once_text "<Key>" t) as [[a' b']|]; cbn; intros E; by simplify_eq.
Qed.

Lemma keys_read_back fuel keys tail : (length keys ≤ fuel)%nat → rest_after "<Key>" tail = None →
  parse_keys fuel (join "" (content_xml spell <$> keys) +:+ tail) = keys.
Proof.
  intros L T. revert fuel L. induction keys as [|key keys IH]; intros fuel L; cbn [fmap list_fmap].
  - change (join "" []) with "". rewrite str_app_nil_l. destruct fuel as [|fuel]; [done|]. cbn [parse_keys].
    rewrite <-split_once_text_rest in T. by destruct (split_once_text "<Key>" tail).
  - cbn [length] in L. destruct fuel as [|fuel]; [lia|]. rewrite join_nothing_cons. unfold content_xml at 1. rewrite <-!str_app_assoc. cbn [parse_keys].
    set (rest := "<Size>1</Size></Contents>" +:+ join "" (content_xml spell <$> keys) +:+ tail).
    assert (rest_after "<Key>" ("<Contents><Key>" +:+ spelled spell key +:+ "</Key><Size>1</Size></Contents>" +:+ join "" (content_xml spell <$> keys) +:+ tail)
            = Some (spelled spell key +:+ "</Key>" +:+ rest)) as R by reflexivity.
    rewrite <-split_once_text_rest in R. destruct (split_once_text "<Key>" _) as [[a b]|]; [|done]. injection R as ->.
    change "</Key>" with (String "<" "/Key>"). rewrite split_once_text_free by apply escape_free. rewrite unescape_escape. f_equal.
    rewrite (parse_keys_rest fuel rest (join "" (content_xml spell <$> keys) +:+ tail)) by reflexivity. apply IH. lia.
Qed.

(** The rest of a listing after its name. *)
Definition listing_tail (keys : list string) (token : option string) : string :=
  match token with
  | Some token => "<IsTruncated>true</IsTruncated><NextContinuationToken>" +:+ spelled spell token +:+ "</NextContinuationToken>"
  | None => "<IsTruncated>false</IsTruncated>"
  end +:+ join "" (content_xml spell <$> keys) +:+ "</ListBucketResult>".
Lemma listing_rest sep c bucket keys token :
  (∀ x, rest_after (String "<" (String c sep)) ("<ListBucketResult><Name>" +:+ x) = rest_after (String "<" (String c sep)) x) →
  (∀ x, rest_after (String "<" (String c sep)) ("</Name>" +:+ x) = rest_after (String "<" (String c sep)) x) →
  rest_after (String "<" (String c sep)) (listing_xml spell bucket keys token) = rest_after (String "<" (String c sep)) (listing_tail keys token).
Proof. intros A B. unfold listing_xml. rewrite A, rest_after_free, B by apply escape_free. done. Qed.

Lemma element_rest xml name raw rest : free_of "<" raw → rest_after ("<" +:+ name +:+ ">") xml = Some (raw +:+ "</" +:+ name +:+ ">" +:+ rest) →
  element xml name = Some (unescape_xml raw).
Proof.
  intros F R. unfold element. rewrite <-split_once_text_rest in R. destruct (split_once_text _ xml) as [[a b]|]; [|done]. injection R as ->. cbn [mbind option_bind].
  assert ("</" +:+ name +:+ ">" +:+ rest = String "<" ("/" +:+ name +:+ ">") +:+ rest) as ->.
  { rewrite !str_app_cons, !str_app_nil_l. by rewrite <-str_app_assoc. }
  change ("</" +:+ name +:+ ">") with (String "<" ("/" +:+ name +:+ ">")). rewrite split_once_text_free by done. done.
Qed.

Lemma listing_page bucket keys token : token ≠ Some "" →
  parse_listing (listing_xml spell bucket keys token) = keys
  ∧ (if is_truncated (listing_xml spell bucket keys token) then parse_continuation (listing_xml spell bucket keys token) else None) = token.
Proof.
  intros NE. split.
  - unfold parse_listing. set (n := String.length _). assert (length keys ≤ n)%nat as L.
    { assert (∀ l, length l ≤ String.length (join "" (content_xml spell <$> l)))%nat as C.
      { induction l as [|k l IH]; [cbn; lia|]. cbn [fmap list_fmap]. rewrite join_nothing_cons, str_length_app. unfold content_xml at 1.
        rewrite !str_length_app. cbn in *. lia. }
      specialize (C keys). unfold n, listing_xml. rewrite !str_length_app. lia. }
    rewrite (parse_keys_rest n _ (join "" (content_xml spell <$> keys) +:+ "</ListBucketResult>")); [by apply keys_read_back|].
    rewrite (listing_rest "ey>" "K") by done. unfold listing_tail. destruct token as [token|]; [|done]. rewrite <-!str_app_assoc.
    transitivity (rest_after "<Key>" (spelled spell token +:+ "</NextContinuationToken>" +:+ join "" (content_xml spell <$> keys) +:+ "</ListBucketResult>")); [done|].
    rewrite rest_after_free by apply escape_free. done.
  - assert (element (listing_xml spell bucket keys token) "IsTruncated" = Some (match token with Some _ => "true" | None => "false" end)) as E.
    { destruct token as [token|].
      - eapply (element_rest _ "IsTruncated" "true"); [done|]. rewrite (listing_rest "sTruncated>" "I") by done. reflexivity.
      - eapply (element_rest _ "IsTruncated" "false"); [done|]. rewrite (listing_rest "sTruncated>" "I") by done. reflexivity. }
    unfold is_truncated. rewrite E. destruct token as [token|]; [|done]. rewrite bool_decide_true by done. unfold parse_continuation.
    assert (element (listing_xml spell bucket keys (Some token)) "NextContinuationToken" = Some token) as ->.
    { rewrite <-(unescape_escape token) at 2.
      apply (element_rest _ "NextContinuationToken" (spelled spell token) (join "" (content_xml spell <$> keys) +:+ "</ListBucketResult>")); [apply escape_free|].
      rewrite (listing_rest "extContinuationToken>" "N") by done. unfold listing_tail. rewrite <-!str_app_assoc. reflexivity. }
    cbn [mbind option_bind]. rewrite decide_False; [done|]. congruence.
Qed.

End spelling.

(** * What the requests come to *)

(** The values a header may have. *)
Definition printable (c : ascii) : bool := in_range 32 126 c.

Section requests.
Context `{Sha256, Hmac} (secret_of : string → option string) (s : S3Storage).

(** The service accepts a request for the account, as the method on the object
    with the query and the body. *)
Definition accepted (r : option Sent) (method key query body : string) : Prop :=
  ∃ q a, r = Some q ∧ arrives q = Some a ∧ verify secret_of a = Some (s3_access_key s) ∧ ar_method a = method
    ∧ addressed (ar_path a) = Some (s3_bucket s, key) ∧ ar_query a = query ∧ ar_body a = body.
End requests.

(** C32. A bucket that checks Signature Version 4 as it is documented accepts
    every request of the backend: an upload, a read, a removal, the check of
    the bucket and the first page of a listing arrive, through a client that
    reads URLs as their standard says, as signed by the configured account, on
    the bucket and the key they are for, with the body that was given; and a
    presigned URL lets whoever holds it put any body under its one key, as that
    account, from the instant and for the time it was made for. The endpoint is
    a scheme and an authority the client leaves as it is (in lower case, without
    the scheme's own port and without a path), the names of the bucket, the
    region and the account need no escaping, and the key has any characters but
    no segment that is [.] or [..], as those of FileKeys.v have none. No instant
    makes the signing panic. *)
Theorem signed_requests_are_accepted `{Sha256, Hmac} client (c : FilesConfig) (s : S3Storage) scheme host slash secret_of :
  (∀ x, Forall (λ b, 0 ≤ b < 256)%Z (sha256 x)) → s3_new client c = Ok s →
  endpoint c = Some (scheme +:+ "//" +:+ host +:+ slash) → scheme ∈ ["https:"; "http:"] → slash ∈ [""; "/"] →
  plain_authority (scheme_name scheme) host →
  (∀ name, bucket c = Some name ∨ region c = name ∨ access_key c = Some name → str_forall unreserved name = true) →
  bucket c ≠ Some "." → bucket c ≠ Some ".." → secret_of (s3_access_key s) = Some (s3_secret_key s) →
  ∀ now key, steady key →
    (∀ content_type body, str_forall printable content_type = true → trim_all content_type = content_type →
       accepted secret_of s (put_request s now key content_type body) "PUT" key "" body)
    ∧ accepted secret_of s (get_request s now key) "GET" key "" ""
    ∧ accepted secret_of s (delete_request s now key) "DELETE" key "" ""
    ∧ accepted secret_of s (query_request s now HEALTH_QUERY) "GET" "" HEALTH_QUERY ""
    ∧ (∀ prefix, accepted secret_of s (query_request s now (list_query prefix None)) "GET" "" (list_query prefix None) "")
    ∧ (∀ expires, ∃ url, presign_put s key expires (format_timestamp now) = Some url
       ∧ ∀ headers body, ∃ a, arrives {| st_method := "PUT"; st_url := url; st_headers := headers; st_body := body |} = Some a
           ∧ verify_presigned secret_of a = Some (s3_access_key s, format_timestamp now, pretty expires)
           ∧ addressed (ar_path a) = Some (s3_bucket s, key) ∧ ar_body a = body).
Proof.
  intros Bytes N E Sc Sl Ho Names B1 B2 Secret now key St.
  destruct (s3_new_plain client c s scheme host slash N E Sc Sl Ho Names B1 B2) as [Plain _].
  assert (steady "") as Se by (repeat constructor; done).
  assert (∀ x, str_forall unreserved (sha256_hex x) = true) as Digits.
  { intros x. unfold sha256_hex. apply join_forall; [done|]. apply Forall_fmap. eapply Forall_impl; [apply Bytes|]. intros b B. by apply hex_byte_plain. }
  assert (∀ method k query payload content_type, steady k → canonical_query query = query → match content_type with Some t => trim_all t = t | None => True end →
            accepted secret_of s (r ← signed s method (uri_for s k) query payload content_type (format_timestamp now); Some (request_of s r payload))
              method k query payload) as A.
  { intros method k query payload content_type Sk Q T.
    destruct (signed_accepted secret_of s scheme Plain Secret Digits method k query payload content_type now Sk Q T) as (r & a & R & Ar & V & M & P & Qa & B).
    exists (request_of s r payload), a. rewrite R. split; [done|]. rewrite P, (uri_addressed s scheme Plain). done. }
  split; [|split; [|split; [|split; [|split]]]].
  - intros content_type body _ T. by apply (A "PUT" key "" body (Some content_type)).
  - by apply (A "GET" key "" "" None).
  - by apply (A "DELETE" key "" "" None).
  - apply (A "GET" "" HEALTH_QUERY "" None); [done|apply health_query_canonical|done].
  - intros prefix. apply (A "GET" "" (list_query prefix None) "" None); [done|apply list_query_canonical|done].
  - intros expires. by apply (presigned_accepted secret_of s scheme).
Qed.

(** * What a listing comes to *)

(** What a service that answers the pages of a listing one after the other is
    asked, and what it gives: each page but the last says that it is cut off and
    where to go on. *)
Fixpoint serves `{Sha256, Hmac} (spell : ascii → string) (s : S3Storage) (exchange : Sent → result S3Response) (prefix : string) (clock : list Z)
    (pages : list (list string)) (token : option string) : Prop :=
  match clock, pages with
  | now :: clock, keys :: pages =>
      ∃ q next bucket content_type, query_request s now (list_query prefix token) = Some q ∧ next ≠ Some ""
        ∧ exchange q = Ok {| an_status := 200; an_content_type := content_type; an_body := Some (listing_xml spell bucket keys next) |}
        ∧ match next with Some token => serves spell s exchange prefix clock pages (Some token) | None => pages = [] end
  | _, _ => False
  end.

(** A bucket that does what its documentation says of listings. It refuses what
    it does not accept as signed; of the keys it holds it answers the first
    thousand with the prefix, and says whether there are more. *)
Definition matching (prefix : string) (held : list string) : list string := filter (λ key, starts_with prefix key = true) held.
Definition first_page (query : string) : option string :=
  let pairs := decoded_pair <$> split_on "&" query in
  if decide (assoc "list-type" pairs = Some "2" ∧ assoc "max-keys" pairs = Some "1000" ∧ assoc "continuation-token" pairs = None)
  then assoc "prefix" pairs else None.
Definition page_size : nat := Z.to_nat 1000.
Definition documented `{Sha256, Hmac} (secret_of : string → option string) (spell : ascii → string) (bucket : string) (held : list string)
    (exchange : Sent → result S3Response) : Prop :=
  ∀ q a, arrives q = Some a →
    match verify secret_of a with
    | None => ∃ answer, exchange q = Ok answer ∧ is_success (an_status answer) = false
    | Some _ => ∀ prefix, ar_method a = "GET" → addressed (ar_path a) = Some (bucket, "") → first_page (ar_query a) = Some prefix →
        ∃ content_type token, (token = None ↔ (length (matching prefix held) ≤ page_size)%nat) ∧ token ≠ Some ""
          ∧ exchange q = Ok {| an_status := 200; an_content_type := content_type;
                               an_body := Some (listing_xml spell bucket (take page_size (matching prefix held)) token) |}
    end.

Lemma list_query_parameters prefix token : list_query prefix token = join "&" (parameter_text <$>
  [("list-type", "2"); ("max-keys", "1000"); ("prefix", prefix)] ++ match token with Some token => [("continuation-token", token)] | None => [] end).
Proof.
  unfold list_query. destruct token as [token|]; [|rewrite str_app_nil_r; reflexivity]. unfold parameter_text. cbn [app fmap list_fmap fst snd].
  rewrite !join_cons2, <-?str_app_assoc. reflexivity.
Qed.
Lemma list_query_split prefix token : split_on "&" (list_query prefix token) = parameter_text <$>
  [("list-type", "2"); ("max-keys", "1000"); ("prefix", prefix)] ++ match token with Some token => [("continuation-token", token)] | None => [] end.
Proof.
  rewrite list_query_parameters. apply split_join; [done|]. apply Forall_fmap. destruct token; repeat constructor; by apply parameter_free.
Qed.
Lemma first_page_asked prefix : first_page (list_query prefix None) = Some prefix.
Proof. unfold first_page. rewrite list_query_split. cbn [app fmap list_fmap]. by rewrite !decoded_parameter. Qed.
Lemma next_page_not_canonical prefix token : canonical_query (list_query prefix (Some token)) ≠ list_query prefix (Some token).
Proof.
  unfold canonical_query. rewrite decide_False by (unfold list_query; done). rewrite list_query_split. cbn [app fmap list_fmap].
  unfold parameter_text. cbn [fst snd]. rewrite !query_pair_encoded by done.
  change (merge_sort header_le [("list-type", encode_query_value "2"); ("max-keys", encode_query_value "1000"); ("prefix", encode_query_value prefix);
            ("continuation-token", encode_query_value token)])
    with [("continuation-token", encode_query_value token); ("list-type", encode_query_value "2"); ("max-keys", encode_query_value "1000");
          ("prefix", encode_query_value prefix)]. done.
Qed.

Lemma digits_plain `{Sha256} : (∀ x, Forall (λ b, 0 ≤ b < 256)%Z (sha256 x)) → ∀ x, str_forall unreserved (sha256_hex x) = true.
Proof.
  intros Bytes x. unfold sha256_hex. apply join_forall; [done|]. apply Forall_fmap. eapply Forall_impl; [apply Bytes|]. intros b B. by apply hex_byte_plain.
Qed.


(** * Witnesses *)

(** Digests that keep what they are of, for the examples. *)
#[local] Instance sample_sha : Sha256 := λ x, (λ c, Z.of_N (byte_of c)) <$> String.list_ascii_of_string x.
#[local] Instance sample_hmac : Hmac := λ key data, "[" +:+ key +:+ "|" +:+ data +:+ "]".
Definition sample_files : FilesConfig := {|
  adapter := S3; directory := DEFAULT_DIRECTORY; public_base_url := None; endpoint := Some "https://s3.example.com:9000/"; bucket := Some "media";
  region := DEFAULT_REGION; access_key := Some "AK"; secret_key := Some "secret"; image_service_url := None; image_service_token := None;
  presign_ttl_seconds := 900; key_prefix := ""; force_remote := false |}.
Definition sample_bucket : S3Storage := {|
  s3_endpoint := "https://s3.example.com:9000"; s3_host := "s3.example.com:9000"; s3_bucket := "media"; s3_region := "auto"; s3_access_key := "AK";
  s3_secret_key := "secret" |}.
Definition sample_secret_of (account : string) : option string := if decide (account = "AK") then Some "secret" else None.

Lemma sample_sha_bytes x : Forall (λ b, 0 ≤ b < 256)%Z (sha256 x).
Proof.
  unfold sha256, sample_sha. apply Forall_fmap, Forall_forall. intros c _. cbn. unfold byte_of. pose proof (N_ascii_bounded c). lia.
Qed.

Lemma sample_authority : plain_authority "https" "s3.example.com:9000".
Proof.
  exists "s3.example.com", ":9000". split_and!; [done| |done|].
  - split; [reflexivity|]. left. exists ["s3"; "example"], "c"%char, "om". split_and!; [reflexivity|reflexivity|by repeat constructor].
  - right. exists 9000%N. split_and!; [lia|lia|reflexivity|done].
Qed.
Lemma signed_requests_are_accepted_witness :
  s3_new (Ok ()) sample_files = Ok sample_bucket
  ∧ accepted sample_secret_of sample_bucket (put_request sample_bucket 1700000000 "posts/r1/a b+c.png" "text/plain; charset=utf-8" "bytes") "PUT"
      "posts/r1/a b+c.png" "" "bytes".
Proof.
  split; [vm_compute; reflexivity|].
  refine (proj1 (signed_requests_are_accepted (Ok ()) sample_files sample_bucket "https:" "s3.example.com:9000" "/" sample_secret_of
                   sample_sha_bytes _ _ _ _ _ _ _ _ _ 1700000000%Z "posts/r1/a b+c.png" _) "text/plain; charset=utf-8" "bytes" _ _);
    try (vm_compute; reflexivity).
  - left.
  - right. left.
  - exact sample_authority.
  - intros name [E|[E|E]]; vm_compute in E; simplify_eq; vm_compute; reflexivity.
  - done.
  - done.
  - repeat constructor; done.
Defined.

(** A bucket that does what is documented, with the keys it holds. *)
Definition sample_service (held : list string) (q : Sent) : result S3Response :=
  let refused := Ok {| an_status := 403; an_content_type := None; an_body := None |} in
  match arrives q with
  | None => refused
  | Some a =>
      match verify sample_secret_of a, first_page (ar_query a) with
      | Some _, Some prefix =>
          Ok {| an_status := 200; an_content_type := Some "application/xml";
                an_body := Some (listing_xml escape_char "media" (take page_size (matching prefix held))
                                   (if decide (length (matching prefix held) ≤ page_size)%nat then None else Some "next")) |}
      | _, _ => refused
      end
  end.
Lemma sample_documented held : documented sample_secret_of escape_char "media" held (sample_service held).
Proof.
  intros q a A. unfold sample_service. rewrite A. destruct (verify sample_secret_of a) as [account|]; [|by eexists].
  intros prefix _ _ P. rewrite P. eexists _, _. split; [|split; [|reflexivity]]; by case_decide.
Qed.
Lemma sample_plain : plain_backend sample_bucket "https:".
Proof. constructor; [left|reflexivity|exact sample_authority|reflexivity|done|reflexivity|reflexivity]. Qed.
Lemma escapes_undone : undone escape_char.
Proof. intros c. by left. Qed.

(** * Findings *)

(** The query of a page after the first is signed in the order it is built in,
    not in the order of its names: the service refuses it. *)
Example next_page_is_not_canonical : canonical_query (list_query "" (Some "next")) = "continuation-token=next&list-type=2&max-keys=1000&prefix=".
Proof. vm_compute; reflexivity. Qed.
Example next_page_is_refused : ∃ q a, query_request sample_bucket 1700000000 (list_query "" (Some "next")) = Some q ∧ arrives q = Some a
  ∧ verify sample_secret_of a = None.
Proof. eexists _, _. split; [vm_compute; reflexivity|]. split; [vm_compute; reflexivity|]. vm_compute; reflexivity. Qed.

(** A listing that is cut off without a token is taken for the whole store. *)
Example cut_off_listing : list_keys sample_bucket (λ _, Ok {| an_status := 200; an_content_type := None;
    an_body := Some "<ListBucketResult><IsTruncated>true</IsTruncated><Contents><Key>a</Key></Contents></ListBucketResult>" |}) [0%Z] ""
  = Some (Some (Ok ["a"])).
Proof. vm_compute; reflexivity. Qed.

(** What is signed is the endpoint as it was configured; what the client sends
    is what the URL standard makes of it. An upper-case letter in the host, the
    port of the scheme, a path in the endpoint, and a key with a dot segment are
    signed one way and sent another. *)
Definition bucket_at (endpoint : string) : S3Storage := {|
  s3_endpoint := trim_end_matches "/" endpoint; s3_host := host_of endpoint; s3_bucket := "media"; s3_region := "auto"; s3_access_key := "AK";
  s3_secret_key := "secret" |}.
Definition outcome (s : S3Storage) (key : string) : option (option string * option (string * string)) :=
  q ← get_request s 1700000000 key; a ← arrives q; Some (verify sample_secret_of a, addressed (ar_path a)).
Example written_as_it_is_sent : outcome (bucket_at "https://s3.example.com/") "a/b" = Some (Some "AK", Some ("media", "a/b")).
Proof. vm_compute; reflexivity. Qed.
Example written_otherwise_is_refused :
  outcome (bucket_at "https://S3.Example.com") "a/b" = Some (None, Some ("media", "a/b"))
  ∧ outcome (bucket_at "https://s3.example.com:443") "a/b" = Some (None, Some ("media", "a/b"))
  ∧ outcome (bucket_at "https://s3.example.com/store") "a/b" = Some (None, Some ("store", "media/a/b"))
  ∧ outcome (bucket_at "https://s3.example.com") "a/../b" = Some (None, Some ("media", "b")).
Proof. by vm_compute. Qed.

(** XML's fifth entity is [&apos;], which stays as it is. *)
Example apostrophe_entity : unescape_xml "it&apos;s" = "it&apos;s" ∧ unescape_xml "it&#39;s" = "it's".
Proof. by vm_compute. Qed.
