(* ===== verification/Settings.v ===== *)
(** The settings and the endpoints over them, [crates/api/src/settings.rs]:
    what is read and written, the export without its credentials and the import
    that merges it back, the storage configuration
    ([crates/files/src/settings.rs]), the origins and the API keys.

    A handler is a program of interactions ([Effects]); those that change the
    running file service or the list of origins take it and give back what it
    is afterwards. *)
From S2P Require Import Prelude CoreError Json Types Ddl Sql Compile Projection Rls Principal Effects History FileKeys FileRules FilesApi Mail Hooks Collections CollectionsApi Emails OAuth2 StorageConfig S3 Samples.

Local Set Warnings "-register-all,-clear-no-such-hyp".

(** * Credentials in settings *)

Definition INTERNAL_PREFIX : string := "auth.".
Definition is_internal (key : string) : bool := starts_with INTERNAL_PREFIX key.
Definition EXPORT_VERSION : Z := 1.

(** [is_secret_name] and [is_encrypted_envelope]. *)
Definition is_secret_name (key : string) : bool :=
  let key := to_ascii_lowercase key in
  contains_text "password" key || contains_text "secret" key || ends_with "token" key || ends_with "api_key" key || ends_with "signing_key" key
  || bool_decide (key = "private_key").
Definition is_encrypted_envelope (value : string) : bool := starts_with "v1:" value.

(** [redact]: the value and the paths it adds. *)
Definition leaf_of (path : string) : string := match rsplit_once "." path with Some (_, leaf) => leaf | None => path end.
Definition redact_scalar (path : string) (value : Value) : Value * list string :=
  if is_secret_name (leaf_of path) then (JNull, [path]) else (value, []).
Fixpoint redact (path : string) (value : Value) : Value * list string :=
  match value with
  | JObject object =>
      let children := map (λ p, match p with (key, value) => (key, redact (path +:+ "." +:+ key) value) end) object in
      (JObject (map (λ p, (p.1, p.2.1)) children), concat (map (λ p, p.2.2) children))
  | JArray items =>
      let children := map (redact path) items in
      (JArray (map fst children), concat (map snd children))
  | JString text => if is_encrypted_envelope text then (JNull, [path]) else redact_scalar path value
  | _ => redact_scalar path value
  end.

(** [merge_keep]. *)
Fixpoint merge_keep (stored imported : Value) {struct imported} : Value :=
  match stored, imported with
  | JObject stored, JObject imported =>
      JObject ((fix merge (imported merged : list (string * Value)) :=
                  match imported with
                  | [] => merged
                  | (key, value) :: imported =>
                      merge imported (btree_insert key (match assoc key merged with Some existing => merge_keep existing value | None => value end) merged)
                  end) imported stored)
  | _, JNull => stored
  | _, _ => imported
  end.

(** * Reading and writing *)

Definition SETTINGS_UPDATE : string := "settings.update".
Definition UPSERT_SETTING_SQL : string :=
  "insert into _settings (key, value, updated) values ($1, $2, now()) on conflict (key) do update set value = excluded.value, updated = now()".
Definition DELETE_SETTING_SQL : string := "delete from _settings where key = $1".
Definition SETTING_SQL : string := "select value from _settings where key = $1".
Definition json_keys (keys : list string) : Value := JArray (JString <$> keys).

(** [get]. *)
Definition shown_settings (rows : list (string * Value)) : list (string * Value) :=
  foldl (λ settings '(key, value), if is_internal key then settings else btree_insert key value settings) [] rows.
Definition get_settings (p : Principal) : W Value :=
  lift (require_superuser p) ≫= λ _,
  ask OClient ≫= λ _,
  db OSettings ≫= λ rows,
  give (JObject (shown_settings rows)).

(** [update]; [policy::apply] of crates/files/src/policy.rs. *)
Definition write_setting '((key, value) : string * Value) : W unit :=
  if is_internal key then refuse Invalid
  else if is_null value then db (OExecute DELETE_SETTING_SQL [PText (Some key)]) ≫= λ _, give tt
  else db (OExecute UPSERT_SETTING_SQL [PText (Some key); PJson value]) ≫= λ _, give tt.
Definition apply_file_rules (rules : FileRules) : W unit :=
  lift (file_statements rules) ≫= λ statements, Collections.batch (join separator statements) Invalid.
Definition update_settings (p : Principal) (body : Value) : W Value :=
  lift (require_superuser p) ≫= λ _,
  lift (ok_or (as_object body) Invalid) ≫= λ object,
  ask OClient ≫= λ _,
  db OBegin ≫= λ _,
  for_each write_setting object ≫= λ _,
  (match assoc "files" object with Some setting => apply_file_rules (file_rules_from_setting setting) | None => give tt end) ≫= λ _,
  (match assoc "realtime" object with Some setting => apply_global (enabled_from_setting setting) | None => give tt end) ≫= λ _,
  audit_record (actor p) SETTINGS_UPDATE None (JObject [("keys", json_keys object.*1)]) ≫= λ _,
  db OCommit ≫= λ _,
  give (JObject [("updated", json_keys object.*1)]).

(** [export]. *)
Definition export_step (acc : list (string * Value) * list string) '((key, value) : string * Value) : list (string * Value) * list string :=
  if is_internal key then acc
  else let '(value, paths) := redact key value in (btree_insert key value acc.1, acc.2 ++ paths).
Definition exported (rows : list (string * Value)) : list (string * Value) * list string := foldl export_step ([], []) rows.
Definition export_settings (p : Principal) : W Value :=
  lift (require_superuser p) ≫= λ _,
  ask OClient ≫= λ _,
  db OSettings ≫= λ rows,
  let '(settings, redacted) := exported rows in
  give (JObject [("secrets", json_keys redacted); ("settings", JObject settings); ("version", JNumber (PosInt EXPORT_VERSION))]).

(** [struct ImportSettings], as it is decoded. *)
Record ImportSettings := { im_version : Z; im_settings : list (string * Value); im_secrets : list string }.
Definition decode_import (v : Value) : result ImportSettings :=
  l ← struct_fields ["version"; "settings"; "secrets"] v;
  version ← ok_or (v ← assoc "version" l; n ← as_u64 v; if decide (n < 2 ^ 32)%Z then Some n else None) Invalid;
  settings ← match assoc "settings" l with None => Ok [] | Some v => ok_or (as_object v) Invalid end;
  secrets ← match assoc "secrets" l with None => Ok [] | Some v => ok_or (items ← as_array v; mapM as_str items) Invalid end;
  Ok {| im_version := version; im_settings := settings; im_secrets := secrets |}.

(** [import]: the keys that were written and those that were skipped. *)
Fixpoint import_keys (settings : list (string * Value)) (done_ skipped : list string) : W (list string * list string) :=
  match settings with
  | [] => give (done_, skipped)
  | (key, value) :: settings =>
      if is_internal key then refuse Invalid
      else
        query_opt (A:=Value) SETTING_SQL [PText (Some key)] ≫= λ stored,
        let merged := merge_keep (default JNull stored) value in
        if is_null merged then import_keys settings done_ (skipped ++ [key])
        else db (OExecute UPSERT_SETTING_SQL [PText (Some key); PJson merged]) ≫= λ _, import_keys settings (done_ ++ [key]) skipped
  end.
Definition import_settings (p : Principal) (body : Value) : W Value :=
  lift (require_superuser p) ≫= λ _,
  lift (decode_import body) ≫= λ body,
  if decide (im_version body ≠ EXPORT_VERSION) then refuse Invalid
  else
    ask OClient ≫= λ _,
    db OBegin ≫= λ _,
    import_keys (im_settings body) [] [] ≫= λ '(imported, skipped),
    audit_record (actor p) SETTINGS_UPDATE (Some "import") (JObject [("keys", json_keys imported); ("redacted_in_file", json_keys (im_secrets body))]) ≫= λ _,
    db OCommit ≫= λ _,
    give (JObject [("imported", json_keys imported); ("skipped", json_keys skipped)]).

(** * The storage configuration *)

Definition STORAGE_SETTING : string := "storage".
Definition READ_SETTING_SQL : string := "select value from _settings where key = $1::text".
Definition SAVE_STORAGE_SQL : string :=
  "insert into _settings (key, value) values ($1::text, $2) on conflict (key) do update set value = excluded.value, updated = now()".
Definition storage_setting : W (list (string * Value)) :=
  query_opt (A:=Value) READ_SETTING_SQL [PText (Some STORAGE_SETTING)] ≫= λ row, give (default [] (row ≫= as_object)).
Definition save_storage_setting (setting : Value) : W unit :=
  db (OExecute SAVE_STORAGE_SQL [PText (Some STORAGE_SETTING); PJson setting]) ≫= λ _, give tt.

(** [Inner::build] and [Files::reconfigure] of crates/files/src/storage.rs: what
    may fail is building the client of a bucket and that of an image service. *)
Definition build (client : result unit) (image_client : string → result unit) (c : FilesConfig) : result unit :=
  _ ← match adapter c with Local_ => Ok () | S3 => _ ← s3_new client c; Ok () end;
  match image_service_url c with Some url => image_client url | None => Ok () end.

Definition of_default (v : option string) : Value := JString (default "" v).
Section storage.
Context `{Aead} (env : string → option string).

(** [storage_view]. *)
Definition storage_view (c : FilesConfig) (setting : Value) : Value := JObject [
  ("access_key_id", of_default (access_key c)); ("backend", JString (adapter_str c)); ("bucket", of_default (bucket c));
  ("configured_from_env", json_keys (storage_env_fields env setting)); ("endpoint", of_default (endpoint c)); ("force_path_style", JBool true);
  ("prefix", JString ""); ("presign_ttl", JNumber (if (presign_ttl_seconds c <? 0)%Z then NegInt (presign_ttl_seconds c) else PosInt (presign_ttl_seconds c)));
  ("public_base_url", of_default (public_base_url c)); ("region", JString (region c)); ("secret_access_key", JString "");
  ("secret_set", JBool (is_set (secret_key c)))].

(** [storage_get], with the running configuration. *)
Definition storage_get (running : FilesConfig) (p : Principal) : W Value :=
  lift (require_superuser p) ≫= λ _,
  ask OClient ≫= λ _,
  storage_setting ≫= λ setting,
  lift (cipher_from_env env) ≫= λ secrets,
  lift (apply_storage_setting (JObject setting) secrets running) ≫= λ config,
  give (storage_view config (JObject setting)).

(** [storage_update]: what is refused, the setting after the fields of the body,
    and the secret, encrypted with the nonce that is drawn. *)
Definition refused_fields (body : list (string * Value)) : bool :=
  bool_decide ((assoc "force_path_style" body ≫= as_bool) = Some false)
  || match assoc "prefix" body ≫= as_str with Some prefix => bool_decide (trim prefix ≠ "") | None => false end.
Definition copy_field (body : list (string * Value)) (object : list (string * Value)) (field : string) : list (string * Value) :=
  match assoc field body with Some value => btree_insert field value object | None => object end.
Definition merged_fields (body setting : list (string * Value)) : list (string * Value) :=
  copy_field body (foldl (copy_field body) setting STORAGE_FIELDS.*1) "presign_ttl".
Definition typed_secret (body : list (string * Value)) : option string :=
  secret ← assoc "secret_access_key" body ≫= as_str; if decide (secret = "") then None else Some secret.
Definition with_secret (secrets nonce : option string) (body object : list (string * Value)) : result (list (string * Value)) :=
  match typed_secret body with
  | None => Ok object
  | Some secret =>
      key ← ok_or secrets Invalid;
      encrypted ← encrypt key nonce "secret_access_key" secret;
      Ok (btree_insert "secret_access_key" (JString encrypted) object)
  end.
Definition new_storage (nonce : option string) (running : FilesConfig) (p : Principal) (body : Value)
    : W (list (string * Value) * FilesConfig * list (string * Value)) :=
  lift (require_superuser p) ≫= λ _,
  lift (ok_or (as_object body) Invalid) ≫= λ body,
  if refused_fields body then refuse Invalid
  else
    ask OClient ≫= λ _,
    storage_setting ≫= λ stored,
    lift (cipher_from_env env) ≫= λ secrets,
    lift (with_secret secrets nonce body (merged_fields body stored)) ≫= λ setting,
    lift (apply_storage_setting (JObject setting) secrets running) ≫= λ config,
    give (setting, config, body).
Definition save_storage (p : Principal) (setting : list (string * Value)) (config : FilesConfig) (body : list (string * Value)) : W Value :=
  save_storage_setting (JObject setting) ≫= λ _,
  audit_record (actor p) SETTINGS_UPDATE (Some "storage") (JObject [("fields", json_keys body.*1)]) ≫= λ _,
  give (storage_view config (JObject setting)).

(** The running configuration afterwards, and the answer: the service is
    replaced once it was built, before the setting is stored. *)
Definition storage_update (client : result unit) (image_client : string → result unit) (nonce : option string) (running : FilesConfig) (p : Principal)
    (body : Value) : prog (FilesConfig * attempt Value) :=
  pbind (new_storage nonce running p body) (λ r,
    match r with
    | Failed e => Ret (running, Failed e)
    | Done (setting, config, body) =>
        match build client image_client config with
        | Err e => Ret (running, Failed (Other e))
        | Ok _ => pbind (save_storage p setting config body) (λ r, Ret (config, r))
        end
    end).
End storage.

(** [storage_test], with the backend's name and its error when it has one: the
    status and the body of the answer. *)
Definition test_steps (backend : string) (error : option string) : Value :=
  JArray [JObject [("error", match error with Some e => JString e | None => JNull end); ("ok", JBool (negb (is_set error))); ("step", JString backend)]].
Definition storage_test (backend : string) (error : option string) : Z * Value :=
  match error with
  | None => (200%Z, JObject [("ok", JBool true); ("steps", test_steps backend None)])
  | Some e =>
      let message := "the " +:+ backend +:+ " backend is not usable: " +:+ e in
      let steps := test_steps backend (Some e) in
      (422%Z, JObject [("data", JObject [("message", JString message); ("steps", steps)]); ("message", JString message);
                       ("status", JNumber (PosInt 422)); ("steps", steps)])
  end.

(** [refresh_cors] with [CorsPolicy::load]: the list of origins afterwards. *)
Definition ORIGINS_KEY : string := "cors_origins".
Definition refresh_cors (p : Principal) : W (list string) :=
  lift (require_superuser p) ≫= λ _,
  ask OClient ≫= λ _,
  query_opt (A:=Value) READ_SETTING_SQL [PText (Some ORIGINS_KEY)] ≫= λ setting,
  give (origins_of setting).

(** * API keys *)

(** [struct ApiKey] and [public], with its times as the database writes them. *)
Record ApiKey := { ak_id : string; ak_hash : string; ak_created_at : string; ak_expires_at : option string; ak_revoked : bool }.
Definition public_key (k : ApiKey) : Value := JObject [
  ("created_at", JString (ak_created_at k)); ("expires_at", match ak_expires_at k with Some t => JString t | None => JNull end);
  ("id", JString (ak_id k)); ("revoked", JBool (ak_revoked k))].

Definition utc_text (column as_ : string) : string :=
  "to_char(" +:+ column +:+ " at time zone 'UTC', 'YYYY-MM-DD" +:+ Ddl.dq +:+ "T" +:+ Ddl.dq +:+ "HH24:MI:SS.MS" +:+ Ddl.dq +:+ "Z" +:+ Ddl.dq +:+ "') as " +:+ as_.
Definition KEY_COLUMNS : string :=
  "id, hash, " +:+ utc_text "created" "created_at" +:+ ", " +:+ utc_text "expires_at" "expires_at" +:+ ", revoked_at is not null as revoked".
Definition LIST_KEYS_SQL : string := "select " +:+ KEY_COLUMNS +:+ " from _api_keys order by created, id".
Definition CREATE_KEY_SQL : string :=
  "insert into _api_keys (id, hash, expires_at) values ($1::text, $2::text, case when $3::text is null then null else now() + make_interval(days => $3::text::int) end) returning "
  +:+ KEY_COLUMNS.
Definition REVOKE_KEY_SQL : string := "update _api_keys set revoked_at = coalesce(revoked_at, now()) where id = $1::text".



Section api_keys.
Context (digest : string → string).

(** [public_items], [create] and [revoke], with the bytes that are drawn for a key. *)
Definition public_items : W (list Value) := db (ORows ApiKey LIST_KEYS_SQL []) ≫= λ keys, give (public_key <$> keys).
Definition create_api_key (bytes : string) (expires_in_days : option Z) : W (string * ApiKey) :=
  call ONewId ≫= λ id,
  let raw := new_key bytes in
  let days := days ← expires_in_days; if decide (0 < days)%Z then Some (pretty days) else None in
  query_one ApiKey CREATE_KEY_SQL [PText (Some id); PText (Some (digest raw)); PText days] ≫= λ key,
  give (raw, key).

(** [list_api_keys], [generate_api_key] and [revoke_api_key]. *)
Definition list_api_keys (p : Principal) : W Value :=
  lift (require_superuser p) ≫= λ _, ask OClient ≫= λ _, public_items ≫= λ items, give (JObject [("items", JArray items)]).
Definition decode_create_key (v : Value) : result (option Z) :=
  l ← struct_fields ["expiresInDays"] v;
  match assoc "expiresInDays" l with None | Some JNull => Ok None | Some v => ok_or (Some <$> StorageConfig.as_i64 v) Invalid end.
Definition number_value (n : Z) : Value := JNumber (if (n <? 0)%Z then NegInt n else PosInt n).
Definition generate_api_key (bytes : string) (p : Principal) (body : Value) : W Value :=
  lift (require_superuser p) ≫= λ _,
  lift (decode_create_key body) ≫= λ days,
  ask OClient ≫= λ _,
  create_api_key bytes days ≫= λ '(raw, key),
  audit_record (actor p) "api_key.create" (Some (ak_id key)) (JObject [("expiresInDays", match days with Some n => number_value n | None => JNull end)]) ≫= λ _,
  public_items ≫= λ items,
  give (JObject [("api_key", JString raw); ("items", JArray items)]).
Definition revoke_api_key (p : Principal) (id : string) : W Value :=
  lift (require_superuser p) ≫= λ _,
  ask OClient ≫= λ _,
  db (OExecute REVOKE_KEY_SQL [PText (Some id)]) ≫= λ updated,
  if decide (0 < updated)%Z then audit_record (actor p) "api_key.revoke" (Some id) (JObject []) ≫= λ _, give (JObject [("ok", JBool true)])
  else refuse NotFound.
End api_keys.
