(* ===== verification/SettingsProps.v ===== *)
(** The settings and the storage configuration, their properties: what the
    export hides and the import gives back, and what a save leaves in the
    database and in the running server. *)
From S2P Require Import Prelude CoreError Json Types Ddl Sql Compile Projection Rls Principal Effects History FileKeys FileRules FilesApi Mail Hooks Collections CollectionsApi Emails OAuth2 StorageConfig S3 Settings Samples.

Local Set Warnings "-register-all,-clear-no-such-hyp".

(** * What the export hides *)

(** A scalar of a value, with its path as the export writes it. *)
Definition is_scalar (v : Value) : bool := match v with JArray _ | JObject _ => false | _ => true end.
Inductive found : string → Value → string → Value → Prop :=
  | found_here path v : is_scalar v = true → found path v path v
  | found_item path l v p w : v ∈ l → found path v p w → found path (JArray l) p w
  | found_entry path l key v p w : (key, v) ∈ l → found (path +:+ "." +:+ key) v p w → found path (JObject l) p w.

(** A scalar of a value with its own name: the key it sits under, itself or as an
    item of an array. *)
Inductive named : string → Value → string → Value → Prop :=
  | named_here name v : is_scalar v = true → named name v name v
  | named_item name l v n w : v ∈ l → named name v n w → named name (JArray l) n w
  | named_entry name l key v n w : (key, v) ∈ l → named key v n w → named name (JObject l) n w.
Definition dotless (s : string) : Prop := str_forall (λ c, bool_decide (c ≠ "."%char)) s = true.

Lemma named_found prefix name v n w : named name v n w → dotless n → ∀ path, (path = name ∨ path = prefix +:+ "." +:+ name) →
  ∃ p, found path v p w ∧ leaf_of p = n.
Proof.
  intros N D. assert (∀ pre, leaf_of n = n ∧ leaf_of (pre +:+ "." +:+ n) = n) as L.
  { intros pre. unfold leaf_of. change ("." +:+ n) with (String "." n). rewrite rsplit_once_app by done. split; [|done].
    destruct (rsplit_once "." n) as [[a b]|] eqn:E; [|done]. apply rsplit_once_Some in E as ->. unfold dotless in D.
    rewrite str_forall_app in D. by apply andb_true_iff in D as [_ D]. }
  revert D L prefix. induction N as [name v S|name l v n w I N IH|name l key v n w I N IH]; intros D L prefix path P.
  - exists path. split; [by constructor|]. destruct P as [->| ->]; apply (L prefix).
  - destruct (IH D L prefix path P) as (p & F & E). exists p. split; [by econstructor|done].
  - destruct (IH D L path (path +:+ "." +:+ key) ltac:(by right)) as (p & F & E). exists p. split; [by econstructor|done].
Qed.

(** Whether the scalar at a path is a credential. *)
Definition is_credential (path : string) (v : Value) : bool :=
  match v with JString s => is_encrypted_envelope s | _ => false end || is_secret_name (leaf_of path).

Lemma redact_scalar_spec path v : is_scalar v = true → redact path v = if is_credential path v then (JNull, [path]) else (v, []).
Proof.
  unfold is_credential. destruct v; try done; intros _; cbn; unfold redact_scalar; try (by destruct (is_secret_name _)).
  destruct (is_encrypted_envelope s); [done|]. by destruct (is_secret_name _).
Qed.

Lemma found_scalar path v p w : is_scalar v = true → found path v p w ↔ p = path ∧ w = v.
Proof. intros S. split; [|intros [-> ->]; by constructor]. intros F. destruct F; done. Qed.
Lemma found_array path l p w : found path (JArray l) p w ↔ ∃ v, v ∈ l ∧ found path v p w.
Proof. split; [|intros (v & I & F); by econstructor]. intros F. inversion F; subst; [done|eauto]. Qed.
Lemma found_object path l p w : found path (JObject l) p w ↔ ∃ key v, (key, v) ∈ l ∧ found (path +:+ "." +:+ key) v p w.
Proof. split; [|intros (key & v & I & F); by econstructor]. intros F. inversion F; subst; [done|eauto 6]. Qed.

Lemma redact_array path l : redact path (JArray l) = (JArray ((λ v, (redact path v).1) <$> l), concat ((λ v, (redact path v).2) <$> l)).
Proof. cbn. unfold fmap, list_fmap. f_equal; [f_equal|f_equal]; apply map_map. Qed.
Lemma redact_object path l : redact path (JObject l)
  = (JObject ((λ p, (p.1, (redact (path +:+ "." +:+ p.1) p.2).1)) <$> l), concat ((λ p, (redact (path +:+ "." +:+ p.1) p.2).2) <$> l)).
Proof.
  cbn. f_equal; [f_equal|f_equal]; rewrite map_map; apply map_ext; by intros [k v].
Qed.

Lemma redact_scalar_found path v : is_scalar v = true →
  (∀ p w, found path (redact path v).1 p w ↔ ∃ w0, found path v p w0 ∧ w = if is_credential p w0 then JNull else w0)
  ∧ (∀ p, p ∈ (redact path v).2 ↔ ∃ w0, found path v p w0 ∧ is_credential p w0 = true).
Proof.
  intros Sc. pose proof (λ p w, found_scalar path v p w Sc) as F. rewrite redact_scalar_spec by done. setoid_rewrite F.
  destruct (is_credential path v) eqn:C; cbn [fst snd]; split.
  - intros p w. rewrite found_scalar by done. split; [intros [-> ->]; exists v; by rewrite C|intros (w0 & [-> ->] & ->); by rewrite C].
  - intros p. rewrite list_elem_of_singleton. split; [intros ->; by exists v|by intros (w0 & [-> ->] & _)].
  - intros p w. rewrite F. split; [intros [-> ->]; exists v; by rewrite C|intros (w0 & [-> ->] & ->); by rewrite C].
  - intros p. split; [by intros ?%not_elem_of_nil|]. intros (w0 & [-> ->] & E). congruence.
Qed.

(** Every scalar stays where it is, a credential as null; and the paths are
    those of the credentials. *)
Lemma redact_spec path v :
  (∀ p w, found path (redact path v).1 p w ↔ ∃ w0, found path v p w0 ∧ w = if is_credential p w0 then JNull else w0)
  ∧ (∀ p, p ∈ (redact path v).2 ↔ ∃ w0, found path v p w0 ∧ is_credential p w0 = true).
Proof.
  revert path. induction v as [| | | |l IH|l IH] using nested_value_ind; intros path.
  1-4: by apply redact_scalar_found.
  - rewrite redact_array. cbn [fst snd]. split.
    + intros p w. rewrite found_array. setoid_rewrite found_array. setoid_rewrite list_elem_of_fmap. rewrite Forall_forall in IH. split.
      * intros (? & (v & -> & I) & F). apply (IH v I path) in F as (w0 & F & E). eauto 6.
      * intros (w0 & (v & I & F) & E). exists (redact path v).1. split; [eauto|]. apply (IH v I path). eauto.
    + intros p. rewrite list_elem_of_In, in_concat. setoid_rewrite <-list_elem_of_In. setoid_rewrite found_array. setoid_rewrite list_elem_of_fmap.
      rewrite Forall_forall in IH. split.
      * intros (? & (v & -> & I) & F). apply (IH v I path) in F as (w0 & F & E). eauto 6.
      * intros (w0 & (v & I & F) & E). exists (redact path v).2. split; [eauto|]. apply (IH v I path). eauto.
  - rewrite redact_object. cbn [fst snd]. split.
    + intros p w. rewrite found_object. setoid_rewrite found_object. setoid_rewrite list_elem_of_fmap. rewrite Forall_forall in IH. split.
      * intros (k & ? & ([k' v] & [= -> ->] & I) & F). apply (IH (k', v) I (path +:+ "." +:+ k')) in F as (w0 & F & E). eauto 8.
      * intros (w0 & (k & v & I & F) & E). exists k, (redact (path +:+ "." +:+ k) v).1. split; [by exists (k, v)|]. apply (IH (k, v) I). eauto.
    + intros p. rewrite list_elem_of_In, in_concat. setoid_rewrite <-list_elem_of_In. setoid_rewrite found_object. setoid_rewrite list_elem_of_fmap.
      rewrite Forall_forall in IH. split.
      * intros (? & ([k v] & -> & I) & F). apply (IH (k, v) I (path +:+ "." +:+ k)) in F as (w0 & F & E). eauto 8.
      * intros (w0 & (k & v & I & F) & E). exists (redact (path +:+ "." +:+ k) v).2. split; [by exists (k, v)|]. apply (IH (k, v) I). eauto.
Qed.

(** ** Its entries *)

Lemma elem_btree_insert {A} key (w : A) l k v : key ∉ l.*1 → (k, v) ∈ btree_insert key w l ↔ (k = key ∧ v = w) ∨ (k, v) ∈ l.
Proof.
  intros N. split; [apply btree_insert_elem|]. induction l as [|[j x] l IH]; cbn in *.
  - intros [[-> ->]|I%not_elem_of_nil]; [by left|done].
  - apply not_elem_of_cons in N as [N1 N2]. rewrite decide_False by congruence. destruct (String.ltb key j).
    + intros [[-> ->]|I]; [by left|by right].
    + intros [[-> ->]|I%elem_of_cons]; [right; apply IH; auto|]. destruct I as [[= -> ->]|I]; [by left|right; apply IH; auto].
Qed.

Lemma exported_app rows r : exported (rows ++ [r]) = export_step (exported rows) r.
Proof. unfold exported. by rewrite foldl_app. Qed.

Lemma exported_spec rows : NoDup rows.*1 →
  (∀ k v, (k, v) ∈ (exported rows).1 ↔ ∃ w, (k, w) ∈ rows ∧ is_internal k = false ∧ v = (redact k w).1)
  ∧ (∀ p, p ∈ (exported rows).2 ↔ ∃ k w, (k, w) ∈ rows ∧ is_internal k = false ∧ p ∈ (redact k w).2).
Proof.
  induction rows as [|[key value] rows IH] using rev_ind; intros N.
  { split; intros; split; try (by intros ?%not_elem_of_nil); [intros (? & ?%not_elem_of_nil & _)|intros (? & ? & ?%not_elem_of_nil & _)]; done. }
  rewrite fmap_app, NoDup_app in N. destruct N as (N & D & _). destruct (IH N) as [I1 I2]. rewrite exported_app. unfold export_step.
  destruct (is_internal key) eqn:K.
  - split; intros; rewrite ?I1, ?I2; (split; [intros; destruct_and?; naive_solver set_solver|]).
    + intros (w & I & E & ->). exists w. apply elem_of_app in I as [I|I%list_elem_of_singleton]; [done|]. injection I as -> ->. congruence.
    + intros (k & w & I & E & P). exists k, w. apply elem_of_app in I as [I|I%list_elem_of_singleton]; [done|]. injection I as -> ->. congruence.
  - destruct (redact key value) as [out paths] eqn:R. cbn [fst snd]. split.
    + intros k v. rewrite elem_btree_insert.
      2:{ intros (x & E & I)%list_elem_of_fmap. destruct x as [k' v']. cbn in E. subst k'. apply I1 in I as (w & I & _). apply (D key).
          - apply list_elem_of_fmap. by exists (key, w).
          - by left. }
      setoid_rewrite elem_of_app. setoid_rewrite list_elem_of_singleton. rewrite I1. split.
      * intros [[-> ->]|(w & I & E & ->)]; [exists value; rewrite R; auto|eauto 6].
      * intros (w & [I|[= -> ->]] & E & ->); [right; eauto|left; by rewrite R].
    + intros p. rewrite elem_of_app. setoid_rewrite elem_of_app. setoid_rewrite list_elem_of_singleton. rewrite I2. split.
      * intros [(k & w & I & E & P)|P]; [eauto 8|]. exists key, value. rewrite R. auto.
      * intros (k & w & [I|[= -> ->]] & E & P); [left; eauto 6|right; by rewrite R in P].
Qed.

(** * An import of an export *)

Definition before (a b : string) : Prop := String.ltb a b = true.
Lemma before_not a b : before a b → a ≠ b ∧ String.ltb b a = false.
Proof.
  unfold before, String.ltb. rewrite (String.compare_antisym b a). destruct (String.compare a b) eqn:C; try done. intros _. split; [|done].
  intros ->. assert (String.compare b b = Eq) as X; [|congruence]. clear. induction b as [|c b IH]; [done|]. cbn. unfold Ascii.compare.
  by rewrite N.compare_refl.
Qed.

(** An object whose keys are in order, and no credential of which sits in an
    array. *)
Fixpoint restorable (path : string) (v : Value) : Prop :=
  match v with
  | JObject l => StronglySorted before l.*1 ∧ foldr (λ p P, match p with (k, w) => restorable (path +:+ "." +:+ k) w ∧ P end) True l
  | JArray l => (redact path (JArray l)).1 = JArray l
  | _ => True
  end.
Lemma restorable_object path l : restorable path (JObject l) ↔ StronglySorted before l.*1 ∧ Forall (λ p, restorable (path +:+ "." +:+ p.1) p.2) l.
Proof.
  cbn [restorable]. apply and_iff_compat_l. induction l as [|[k w] l IH]; cbn; [split; [constructor|done]|]. rewrite Forall_cons, IH. done.
Qed.

Lemma btree_insert_here {A} k (v w : A) l r : Forall (λ p, before p.1 k) l → btree_insert k v (l ++ (k, w) :: r) = l ++ (k, v) :: r.
Proof.
  induction l as [|[j x] l IH]; intros F; cbn; [by rewrite decide_True|]. inversion_clear F as [|? ? B F']. apply before_not in B as [B1 B2]. cbn in *.
  rewrite decide_False by congruence. rewrite B2. by rewrite IH.
Qed.
Lemma assoc_here {A} k (w : A) l r : Forall (λ p, before p.1 k) l → assoc k (l ++ (k, w) :: r) = Some w.
Proof.
  induction l as [|[j x] l IH]; intros F; cbn; [by rewrite decide_True|]. inversion_clear F as [|? ? B F']. apply before_not in B as [B1 B2]. cbn in *.
  rewrite decide_False by congruence. by apply IH.
Qed.

Fixpoint merge_entries (imported merged : list (string * Value)) : list (string * Value) :=
  match imported with
  | [] => merged
  | (key, value) :: imported =>
      merge_entries imported (btree_insert key (match assoc key merged with Some existing => merge_keep existing value | None => value end) merged)
  end.
Lemma merge_keep_object s i : merge_keep (JObject s) (JObject i) = JObject (merge_entries i s).
Proof. reflexivity. Qed.

Lemma merge_entries_id (f : string * Value → Value) l r :
  StronglySorted before (l ++ r).*1 → Forall (λ p, merge_keep p.2 (f p) = p.2) r →
  merge_entries ((λ p, (p.1, f p)) <$> r) (l ++ r) = l ++ r.
Proof.
  revert l. induction r as [|[k w] r IH]; intros l S F; [done|]. inversion_clear F as [|? ? M F']. cbn [fmap list_fmap merge_entries fst].
  assert (Forall (λ p, before p.1 k) l) as B.
  { clear -S. induction l as [|[j x] l IH]; [done|]. cbn in S. inversion_clear S as [|? ? S' F]. constructor; [|by apply IH].
    cbn. rewrite Forall_forall in F. apply F. rewrite fmap_app. apply elem_of_app. right. by left. }
  rewrite assoc_here, btree_insert_here by done. cbn in M. rewrite M. specialize (IH (l ++ [(k, w)])). rewrite <-app_assoc in IH. by apply IH.
Qed.

Lemma merge_redacted path v : restorable path v → merge_keep v (redact path v).1 = v.
Proof.
  revert path. induction v as [| | | |l IH|l IH] using nested_value_ind; intros path R.
  1-4: rewrite redact_scalar_spec by done; destruct (is_credential path _); done.
  - cbn [restorable] in R. rewrite R. done.
  - apply restorable_object in R as [S R]. rewrite redact_object. cbn [fst]. rewrite merge_keep_object. f_equal.
    apply (merge_entries_id (λ p, (redact (path +:+ "." +:+ p.1) p.2).1) []); [done|]. rewrite Forall_forall in IH, R |- *.
    intros p I. apply IH; [done|]. by apply R.
Qed.

(** * What the handlers do *)

(** The document an export answers. *)
Definition export_document (rows : list (string * Value)) : Value :=
  JObject [("secrets", json_keys (exported rows).2); ("settings", JObject (exported rows).1); ("version", JNumber (PosInt EXPORT_VERSION))].

Lemma mapM_strings l : mapM as_str (JString <$> l) = Some l.
Proof. apply mapM_Some, Forall2_fmap_l. induction l; by constructor. Qed.
Lemma export_decodes rows : decode_import (export_document rows)
  = Ok {| im_version := EXPORT_VERSION; im_settings := (exported rows).1; im_secrets := (exported rows).2 |}.
Proof.
  transitivity (secrets ← ok_or (mapM as_str (JString <$> (exported rows).2)) Invalid;
                Ok {| im_version := EXPORT_VERSION; im_settings := (exported rows).1; im_secrets := secrets |}); [reflexivity|].
  by rewrite mapM_strings.
Qed.

Lemma runs_ask_done {A} (o : op (result A)) t a : runs (ask o) t (Done a) → t = [Ev o (Ok a)].
Proof. unfold ask. intros (x & u & -> & R). destruct x; [by destruct R as [-> [= ->]]|by destruct R as [_ ?]]. Qed.

Definition settings_answered (e : event) : option (list (string * Value)) :=
  match e with Ev o x => match o in op X return X → _ with OSettings => λ x, match x with DbOk rows => Some rows | DbErr _ => None end | _ => λ _, None end x end.


(** ** Importing an export *)

(** The answers of the settings table while it holds [rows]. *)
Definition answers_rows (rows : list (string * Value)) (h : list event) : Prop :=
  ∀ k x, Ev (ORows Value SETTING_SQL [PText (Some k)]) x ∈ h →
    match x with DbOk l => l = match assoc k rows with Some v => [v] | None => [] end | DbErr _ => True end.

Definition import_rule (rows : list (string * Value)) (h : list event) (X : Type) (o : op X) : Prop :=
  match o with
  | OClient | OBegin | OCommit | ORows _ _ _ => True
  | OExecute sql params =>
      (sql = AUDIT_SQL ∧ Ev OBegin (DbOk ()) ∈ h)
      ∨ (sql = UPSERT_SETTING_SQL ∧ Ev OBegin (DbOk ()) ∈ h
         ∧ (answers_rows rows h → ∃ k v, params = [PText (Some k); PJson v] ∧ (k, v) ∈ rows ∧ is_internal k = false))
  | _ => False
  end.

Lemma assoc_row {A} (rows : list (string * A)) k v : NoDup rows.*1 → (k, v) ∈ rows → assoc k rows = Some v.
Proof.
  induction rows as [|[j w] rows IH]; intros N I; [by apply not_elem_of_nil in I|]. cbn in N |- *. inversion_clear N as [|? ? NI N'].
  apply elem_of_cons in I as [[= -> ->]|I]; [by rewrite decide_True|]. rewrite decide_False; [by apply IH|].
  intros ->. apply NI, list_elem_of_fmap. by exists (k, v).
Qed.

Section importing.
Context (rows : list (string * Value)) (Distinct : NoDup rows.*1).
Context (Kept : ∀ k v, (k, v) ∈ rows → is_internal k = false → restorable k v).

Lemma import_keys_obeys settings done_ skipped h :
  Ev OBegin (DbOk ()) ∈ h → (∀ k v, (k, v) ∈ settings → ∃ w, (k, w) ∈ rows ∧ is_internal k = false ∧ v = (redact k w).1) →
  obeys (import_rule rows) h (import_keys settings done_ skipped) (λ _ _, True).
Proof.
  revert h done_ skipped. induction settings as [|[k v] settings IH]; intros h done_ skipped B S; cbn [import_keys]; [done|].
  destruct (S k v) as (w & I & K & ->); [by left|]. rewrite K.
  assert (∀ t done_ skipped, obeys (import_rule rows) (h ++ t) (import_keys settings done_ skipped) (λ _ _, True)) as Next.
  { intros t d s. apply IH; [apply elem_of_app; by left|]. intros j u J. apply S. by right. }
  apply query_step; [done| | |done].
  - cbn [default from_option]. set (merged := merge_keep JNull (redact k w).1).
    destruct (is_null merged); [apply Next|]. apply db_step; [|intros n; rewrite <-app_assoc; apply Next|done].
    right. split; [done|]. split; [apply elem_of_app; by left|]. intros A. exfalso. specialize (A k (DbOk [])).
    rewrite (assoc_row rows k w) in A by done. cbn in A. enough ([] = [w]) by done. apply A, elem_of_app. right. by left.
  - intros row. cbn [default from_option]. unfold id. set (merged := merge_keep row (redact k w).1).
    destruct (is_null merged); [apply Next|]. apply db_step; [|intros n; rewrite <-app_assoc; apply Next|done].
    right. split; [done|]. split; [apply elem_of_app; by left|]. intros A. exists k, w. split_and!; [|done..].
    specialize (A k (DbOk [row])). rewrite (assoc_row rows k w) in A by done. cbn in A.
    assert ([row] = [w]) as [= ->]. { apply A, elem_of_app. right. by left. }
    unfold merged. rewrite merge_redacted; [done|]. by apply Kept.
Qed.

Lemma import_obeys p : obeys (import_rule rows) [] (import_settings p (export_document rows)) (λ _ _, True).
Proof.
  unfold import_settings. apply lift_step; [|done]. intros [] _. apply lift_step; [|done]. intros body B. rewrite export_decodes in B. injection B as <-.
  cbn [im_version im_settings im_secrets]. rewrite decide_False by (intros X; by apply X). apply client_step; [done| |done].
  apply db_step; [done| |done]. intros []. eapply obeys_then, obeys_mono.
  - apply obeys_frame, import_keys_obeys; [by right; left|]. intros k v I. by apply (exported_spec rows Distinct) in I.
  - cbn beta. intros h [[imported skipped]|e] [_ (t & -> & _)]; [|done]. unfold audit_record. apply obeys_then.
    apply db_step; [left; split; [done|by right; left]|intros n|done]. cbn. split; [done|]. by intros [[]|e].
Qed.
End importing.

(** C35. Importing an export over the settings it was made of changes none of
    them: whatever else is answered, every row the import writes is the row that
    is stored, inside one transaction and none of the server's own, as long as
    no credential sits in an array; and a value merged with its own export is
    that value. *)
Theorem exports_import_back (p : Principal) (rows : list (string * Value)) :
  NoDup rows.*1 → (∀ k v, (k, v) ∈ rows → is_internal k = false → restorable k v) →
  (∀ k v, (k, v) ∈ rows → is_internal k = false → merge_keep v (redact k v).1 = v)
  ∧ ∀ t r, runs (import_settings p (export_document rows)) t r → answers_rows rows t →
      ∀ t1 sql params x t2, t = t1 ++ Ev (OExecute sql params) x :: t2 →
        Ev OBegin (DbOk ()) ∈ t1 ∧ (sql = AUDIT_SQL ∨ ∃ k v, sql = UPSERT_SETTING_SQL ∧ params = [PText (Some k); PJson v] ∧ (k, v) ∈ rows ∧ is_internal k = false).
Proof.
  intros N K. split; [intros k v I E; by apply merge_redacted, K|]. intros t r R A t1 sql params x t2 E.
  destruct (obeys_runs _ _ _ _ _ _ (import_obeys rows N K p) R) as [_ P]. specialize (P t1 _ _ _ _ E). cbn [app import_rule] in P.
  destruct P as [[-> B]|(-> & B & P)]; [auto|]. split; [done|]. right. destruct P as (k & v & -> & I & IK); [|eauto 6].
  intros k y Y. apply A. rewrite E. apply elem_of_app. by left.
Qed.

(** ** Saving settings *)

(** A loop does for each of its elements what its body does. *)
Lemma for_each_obeys {A} (P : list event → ∀ X, op X → Prop) (f : A → W unit) (l : list A) (R : A → list event → Prop) h :
  (∀ x h' t, R x h' → R x (h' ++ t)) →
  (∀ x t, x ∈ l → obeys P (h ++ t) (f x) (λ h' r, match r with Done _ => R x h' | Failed _ => True end)) →
  obeys P h (for_each f l) (λ h' r, match r with Done _ => ∀ x, x ∈ l → R x h' | Failed _ => True end).
Proof.
  intros Mono. revert h. induction l as [|x l IH]; intros h F; cbn [for_each]; [by intros x ?%not_elem_of_nil|].
  apply obeys_then. eapply obeys_mono; [apply obeys_frame; pose proof (F x []) as F0; rewrite app_nil_r in F0; apply F0; by left|].
  cbn beta. intros h' [[]|e] [Rx (t & -> & _)]; [|done]. eapply obeys_mono; [apply obeys_frame, IH|].
  - intros y u Y. rewrite <-app_assoc. apply F. by right.
  - cbn beta. intros h'' [[]|e] [Ry (u & -> & _)]; [|done]. intros y [->|Y]%elem_of_cons; [by apply Mono|by apply Ry].
Qed.

Section saving.
Context (p : Principal) (object : list (string * Value)).

Definition began (h : list event) : Prop := Ev OBegin (DbOk ()) ∈ h.
Definition is_write (sql : string) (params : Params) (entry : string * Value) : Prop :=
  is_internal entry.1 = false
  ∧ ((entry.2 = JNull ∧ sql = DELETE_SETTING_SQL ∧ params = [PText (Some entry.1)])
     ∨ (entry.2 ≠ JNull ∧ sql = UPSERT_SETTING_SQL ∧ params = [PText (Some entry.1); PJson entry.2])).
Definition written (entry : string * Value) (h : list event) : Prop :=
  ∃ sql params n, is_write sql params entry ∧ Ev (OExecute sql params) (DbOk n) ∈ h.
Definition names_only : Params :=
  [PText (Some (actor p)); PText (Some SETTINGS_UPDATE); PText None; PJson (JObject [("keys", json_keys object.*1)])].
Definition files_batch (sql : string) : Prop :=
  ∃ setting statements, assoc "files" object = Some setting ∧ file_statements (file_rules_from_setting setting) = Ok statements ∧ sql = join separator statements.
Definition realtime_batch (sql : string) : Prop :=
  ∃ setting name own statements, assoc "realtime" object = Some setting
    ∧ realtime_trigger_statements name (enabled_from_setting setting && own) = Ok statements ∧ sql = join separator statements.
Definition files_applied (h : list event) : Prop :=
  ∀ setting, assoc "files" object = Some setting → ∃ sql, files_batch sql ∧ Ev (OBatch sql) (DbOk ()) ∈ h.

Definition saving_rule (h : list event) (X : Type) (o : op X) : Prop :=
  match o with
  | OClient => is_superuser p = true
  | OBegin => True
  | OExecute sql params => began h ∧ ((∃ entry, entry ∈ object ∧ is_write sql params entry) ∨ (sql = AUDIT_SQL ∧ params = names_only))
  | ORows _ sql _ => began h ∧ sql = "select name, type, options from _collections order by name"
  | OBatch sql => began h ∧ (files_batch sql ∨ realtime_batch sql)
  | OCommit => (∀ entry, entry ∈ object → written entry h) ∧ files_applied h ∧ ∃ n, Ev (OExecute AUDIT_SQL names_only) (DbOk n) ∈ h
  | _ => False
  end.

Lemma began_app h t : began h → began (h ++ t).
Proof. intros B. apply elem_of_app. by left. Qed.

Lemma written_app entry h t : written entry h → written entry (h ++ t).
Proof. intros (sql & params & n & W & I). exists sql, params, n. split; [done|]. apply elem_of_app. by left. Qed.
Lemma files_applied_app h t : files_applied h → files_applied (h ++ t).
Proof. intros F setting E. destruct (F setting E) as (sql & B & I). exists sql. split; [done|]. apply elem_of_app. by left. Qed.

Lemma write_setting_obeys h entry : began h → entry ∈ object →
  obeys saving_rule h (write_setting entry) (λ h' r, match r with Done _ => written entry h' | Failed _ => True end).
Proof.
  intros B I. destruct entry as [key value]. unfold write_setting. destruct (is_internal key) eqn:K; [done|].
  assert (∀ sql params, is_write sql params (key, value) → obeys saving_rule h (db (OExecute sql params) ≫= λ _, give tt)
            (λ h' r, match r with Done _ => written (key, value) h' | Failed _ => True end)) as G.
  { intros sql params W. apply db_step; [|intros n|done].
    - split; [done|]. left. by exists (key, value).
    - exists sql, params, n. split; [done|]. apply elem_of_app. right. by left. }
  destruct value; apply G; (split; [done|]); (by left) || (by right).
Qed.

Lemma batch_step {A} h sql (f : unit → W A) Q : saving_rule h _ (OBatch sql) → obeys saving_rule (h ++ [Ev (OBatch sql) (DbOk ())]) (f tt) Q →
  (∀ h e, Q h (Failed e)) → obeys saving_rule h (Collections.batch sql Invalid ≫= f) Q.
Proof. intros R F E. split; [done|]. intros [[]|e]; [exact F|apply E]. Qed.

Lemma switch_obeys h setting rows : began h → assoc "realtime" object = Some setting →
  obeys saving_rule h (apply_switch (enabled_from_setting setting) rows) (λ _ _, True).
Proof.
  intros B A. revert h B. induction rows as [|[[name type_] options] rows IH]; intros h B; cbn [apply_switch]; [done|].
  apply lift_step; [|done]. intros t _. apply obeys_then. eapply obeys_mono; [apply (obeys_frame _ _ _ (λ _ _, True))|].
  - destruct (decide (t = CView)); [done|]. apply lift_step; [|done]. intros statements E. split; [|by intros [[]|e]].
    split; [done|]. right. by eexists setting, name, _, statements.
  - cbn beta. intros h' [[]|e] [_ (u & -> & _)]; [|done]. by apply IH, began_app.
Qed.
End saving.

(** Only a superuser saves settings, and in one transaction: the rows of
    the keys that were sent are written or, for a null, removed, none of them
    the server's own; a new value of [files] has the policies of exactly its
    rules built and one of [realtime] the triggers of every collection set; and
    the transaction is committed only after every key was written, the policies
    are in force and the change is in the audit trail, which names the keys and
    holds no value. A save that succeeds was committed. *)
Theorem settings_are_saved_whole (p : Principal) (body : Value) t r :
  runs (update_settings p body) t r →
  (∀ v, r = Done v → is_superuser p = true ∧ Ev OCommit (DbOk ()) ∈ t)
  ∧ ∀ t1 X (o : op X) x t2, t = t1 ++ Ev o x :: t2 → ∃ object, body = JObject object ∧ saving_rule p object t1 X o.
Proof.
  intros R. destruct (is_superuser p) eqn:SU; [destruct body as [| | | | |object]|].
  7:{ unfold update_settings, require_superuser in R. rewrite SU in R. destruct R as [-> ->]. split; [done|]. intros [|] *; done. }
  1-5: (unfold update_settings, require_superuser in R; rewrite SU in R; destruct R as [-> ->]; split; [done|]; intros [|] *; done).
  assert (obeys (saving_rule p object) [] (update_settings p (JObject object)) (λ h r, match r with Done _ => Ev OCommit (DbOk ()) ∈ h | Failed _ => True end)) as O.
  { unfold update_settings. apply lift_step; [|done]. intros [] _. apply lift_step; [|done]. intros o [= <-]. apply client_step; [done| |done].
    apply db_step; [done| |done]. intros []. set (h0 := ([] ++ [Ev OClient (Ok ())]) ++ [Ev OBegin (DbOk ())]).
    assert (began h0) as B0 by (by right; left). apply obeys_then. eapply obeys_mono; [apply obeys_frame, (for_each_obeys _ _ _ written)|].
    - intros e h t0. apply written_app.
    - intros e t0 I. apply write_setting_obeys; [by apply began_app|done].
    - cbn beta. intros h1 [[]|e] [W (u & -> & _)]; [|done]. apply obeys_then.
      eapply obeys_mono; [apply (obeys_frame _ _ _ (λ h r, match r with Done _ => files_applied object h | Failed _ => True end))|].
      + destruct (assoc "files" object) as [setting|] eqn:F; [|by intros s E; rewrite F in E].
        unfold apply_file_rules. apply lift_step; [|done]. intros statements S. split.
        * split; [by apply began_app|]. left. by exists setting, statements.
        * intros [[]|e]; [|done]. intros s _. exists (join separator statements). split; [by exists setting, statements|]. apply elem_of_app. right. by left.
      + cbn beta. intros h2 [[]|e] [FA (v & -> & _)]; [|done]. apply obeys_then.
        eapply obeys_mono; [apply (obeys_frame _ _ _ (λ _ _, True))|].
        * destruct (assoc "realtime" object) as [setting|] eqn:F; [|done]. unfold apply_global. apply db_step; [| |done].
          -- split; [by do 2 apply began_app|done].
          -- intros rows. apply switch_obeys; [by do 3 apply began_app|done].
        * cbn beta. intros h3 [[]|e] [_ (w & -> & _)]; [|done]. assert (began (((h0 ++ u) ++ v) ++ w)) as B by (by do 3 apply began_app).
          assert (∀ entry, entry ∈ object → written entry (((h0 ++ u) ++ v) ++ w)) as Wh by (intros entry I; by do 2 apply written_app; apply W).
          assert (files_applied object (((h0 ++ u) ++ v) ++ w)) as Fh by (by apply files_applied_app).
          set (h3 := ((h0 ++ u) ++ v) ++ w) in *. clearbody h3. apply obeys_then. apply db_step; [split; [exact B|by right]|intros n|done].
          split; [|by intros [[]|e]; cbn; [apply elem_of_app; right; left|]]. split_and!.
          -- intros entry I. by apply written_app, Wh.
          -- by apply files_applied_app.
          -- exists n. apply elem_of_app. right. by left. }
  destruct (obeys_runs _ _ _ _ _ _ O R) as [Q P]. split.
  - intros v ->. by split.
  - intros t1 X o x t2 E. exists object. split; [done|]. by apply (P t1 X o x t2).
Qed.

(** ** Saving the storage configuration *)

Section saving_storage.
Context `{Aead} (env : string → option string) (client : result unit) (image_client : string → result unit).

Definition is_statement (X : Type) (o : op X) : Prop := match o with OExecute _ _ | OBatch _ => True | _ => False end.
Lemma new_storage_only_reads nonce running p body : avoids is_statement (new_storage env nonce running p body).
Proof.
  unfold new_storage, storage_setting, query_opt. apply avoids_lift_then. intros _ _. apply avoids_lift_then. intros object _.
  destruct (refused_fields object); [done|]. apply avoids_then; [apply avoids_ask; by intros []|]. intros _. apply avoids_then.
  - apply avoids_then; [|done]. apply avoids_then; [apply avoids_db; by intros []|]. by intros [|row [|]].
  - intros stored. repeat (apply avoids_lift_then; intros ? _). done.
Qed.

Lemma new_storage_config nonce running p body t setting config fields :
  runs (new_storage env nonce running p body) t (Done (setting, config, fields)) →
  is_superuser p = true ∧ body = JObject fields ∧ ∃ secrets stored,
    cipher_from_env env = Ok secrets ∧ with_secret secrets nonce fields (merged_fields fields stored) = Ok setting
    ∧ apply_storage_setting (JObject setting) secrets running = Ok config.
Proof.
  unfold new_storage. intros R. apply runs_done in R as (t1 & [] & t2 & -> & [-> SU]%runs_lift_done & R).
  apply runs_done in R as (t3 & object & t4 & -> & [-> B]%runs_lift_done & R). destruct (refused_fields object); [by destruct R|].
  apply runs_done in R as (t5 & [] & t6 & -> & _ & R). apply runs_done in R as (t7 & stored & t8 & -> & _ & R).
  apply runs_done in R as (t9 & secrets & t10 & -> & [-> C]%runs_lift_done & R). apply runs_done in R as (t11 & s & t12 & -> & [-> W]%runs_lift_done & R).
  apply runs_done in R as (t13 & c & t14 & -> & [-> A]%runs_lift_done & R). destruct R as [_ [= -> -> ->]].
  unfold require_superuser in SU. destruct (is_superuser p); [|done]. split; [done|]. split; [by destruct body; simplify_eq/=|]. eauto 8.
Qed.

Lemma typed_secret_is_encrypted secrets nonce fields stored setting text : with_secret secrets nonce fields stored = Ok setting →
  typed_secret fields = Some text →
  ∃ key encrypted, secrets = Some key ∧ encrypt key nonce "secret_access_key" text = Ok encrypted
    ∧ assoc "secret_access_key" setting = Some (JString encrypted).
Proof.
  unfold with_secret. intros W T. rewrite T in W. apply bind_Ok in W as (key & K & W). apply bind_Ok in W as (encrypted & E & W).
  injection W as <-. rewrite ok_or_Ok in K. exists key, encrypted. split_and!; [done..|]. rewrite assoc_btree_insert. by rewrite decide_True.
Qed.

Definition save_params (setting : list (string * Value)) : Params := [PText (Some STORAGE_SETTING); PJson (JObject setting)].
Definition fields_only (p : Principal) (fields : list (string * Value)) : Params :=
  [PText (Some (actor p)); PText (Some SETTINGS_UPDATE); PText (Some "storage"); PJson (JObject [("fields", json_keys fields.*1)])].
Definition save_rule (p : Principal) (setting fields : list (string * Value)) (h : list event) (X : Type) (o : op X) : Prop :=
  match o with
  | OExecute sql params => (sql = SAVE_STORAGE_SQL ∧ params = save_params setting) ∨ (sql = AUDIT_SQL ∧ params = fields_only p fields)
  | _ => False
  end.
Lemma save_storage_obeys p setting config fields : obeys (save_rule p setting fields) [] (save_storage env p setting config fields)
  (λ h r, ∀ v, r = Done v → (∃ n, Ev (OExecute SAVE_STORAGE_SQL (save_params setting)) (DbOk n) ∈ h) ∧ v = storage_view env config (JObject setting)).
Proof.
  unfold save_storage, save_storage_setting, audit_record. apply obeys_then. apply db_step; [by left|intros n|done]. cbn.
  split; [by right|]. intros [m|e]; [|done]. intros v [= <-]. split; [|done]. exists n. by left.
Qed.

(** C36. Whatever the database answers, saving the storage configuration leaves
    the server running as it was with nothing written, or running a usable
    configuration whose clients were built, which is the running one under the
    setting that is saved; the one row written is that setting, the audit line
    holds the names of the fields only, a secret that was typed is in the
    setting encrypted, and an answer of success means the row was saved and
    shows no credential. Only a superuser saves. *)
Theorem storage_is_never_left_broken nonce running p body t running' r :
  runs (storage_update env client image_client nonce running p body) t (running', r) →
  (running' = running ∧ (∃ e, r = Failed e) ∧ ∀ X (o : op X) x, Ev o x ∈ t → ¬ is_statement X o)
  ∨ (is_superuser p = true ∧ usable running' ∧ build client image_client running' = Ok () ∧ ∃ setting fields secrets,
       body = JObject fields ∧ cipher_from_env env = Ok secrets ∧ apply_storage_setting (JObject setting) secrets running = Ok running'
       ∧ (∀ text, typed_secret fields = Some text → ∃ key encrypted, secrets = Some key
            ∧ encrypt key nonce "secret_access_key" text = Ok encrypted ∧ assoc "secret_access_key" setting = Some (JString encrypted))
       ∧ (∀ sql params x, Ev (OExecute sql params) x ∈ t → (sql = SAVE_STORAGE_SQL ∧ params = save_params setting) ∨ (sql = AUDIT_SQL ∧ params = fields_only p fields))
       ∧ (∀ v, r = Done v → (∃ n, Ev (OExecute SAVE_STORAGE_SQL (save_params setting)) (DbOk n) ∈ t)
            ∧ v = storage_view env running' (JObject setting) ∧ get v "secret_access_key" = Some (JString ""))).
Proof.
  unfold storage_update. intros R. apply runs_bind in R as (t1 & a & t2 & -> & R1 & R2).
  assert (∀ X (o : op X) x, Ev o x ∈ t1 → ¬ is_statement X o) as Reads by (intros X o x; apply (avoids_runs _ _ _ _ _ _ _ (new_storage_only_reads nonce running p body) R1)).
  destruct a as [[[setting config] fields]|e].
  2:{ left. destruct R2 as [-> [= -> ->]]. rewrite app_nil_r. eauto. }
  destruct (build client image_client config) as [[]|e] eqn:B.
  2:{ left. destruct R2 as [-> [= -> ->]]. rewrite app_nil_r. eauto. }
  right. apply runs_bind in R2 as (t3 & r' & t4 & -> & R3 & [-> [= -> ->]]). rewrite app_nil_r.
  destruct (new_storage_config _ _ _ _ _ _ _ _ R1) as (SU & -> & secrets & stored & C & W & A).
  split; [done|]. split.
  { unfold apply_storage_setting in A. apply bind_Ok in A as (? & _ & A). apply bind_Ok in A as (? & _ & A). apply bind_Ok in A as ([] & V & A).
    injection A as <-. by apply validate_config_usable. }
  split; [done|]. exists setting, fields, secrets. split_and!; [done..| | |].
  - intros text T. by eapply typed_secret_is_encrypted.
  - intros sql params x I. apply elem_of_app in I as [I|I]; [by destruct (Reads _ _ _ I)|].
    apply list_elem_of_split in I as (u1 & u2 & E). destruct (obeys_runs _ _ _ _ _ _ (save_storage_obeys p setting config fields) R3) as [_ P].
    exact (P u1 _ _ x u2 E).
  - intros v ->. destruct (obeys_runs _ _ _ _ _ _ (save_storage_obeys p setting config fields) R3) as [Q _].
    destruct (Q v eq_refl) as [(n & I) ->]. split; [exists n; apply elem_of_app; by right|done].
Qed.
End saving_storage.

(** * Witnesses *)

Ltac answer x := exists x; eexists; split; [reflexivity|].

Definition sample_mail : Value := JObject [("host", JString "smtp"); ("password", JString "hunter2"); ("port", JNumber (PosInt 25))].
Definition sample_settings : list (string * Value) := [
  ("app", JObject [("name", JString "pock")]);
  ("auth.signing_key", JString "k");
  ("mail", sample_mail);
  ("storage", JObject [("bucket", JString "media"); ("secret_access_key", JString "v1:aa:bb")])].

Lemma sample_distinct : NoDup sample_settings.*1.
Proof. apply (bool_decide_unpack _). by vm_compute. Qed.
Lemma sample_restorable k v : (k, v) ∈ sample_settings → is_internal k = false → restorable k v.
Proof.
  assert (StronglySorted before ["host"; "password"; "port"] ∧ StronglySorted before ["bucket"; "secret_access_key"] ∧ StronglySorted before ["name"]) as (A & B & C).
  { split_and!; repeat constructor. }
  intros I N. unfold sample_settings in I. repeat (apply elem_of_cons in I as [[= -> ->]|I]); [..|by apply not_elem_of_nil in I]; try done.
Qed.


Ltac stored_row v := answer (DbOk [v : Value]).

Lemma exports_import_back_witness : ∃ t r,
  runs (import_settings sample_admin (export_document sample_settings)) t (Done r)
  ∧ get r "imported" = Some (json_keys ["app"; "mail"; "storage"])
  ∧ merge_keep sample_mail (redact "mail" sample_mail).1 = sample_mail ∧ (redact "mail" sample_mail).1 ≠ sample_mail.
Proof.
  assert (∃ t r, runs (import_settings sample_admin (export_document sample_settings)) t (Done r) ∧ get r "imported" = Some (json_keys ["app"; "mail"; "storage"]))
    as (t & r & R & G).
  { eexists _, _. split.
    - answer (Ok () : result unit). answer (DbOk tt).
      stored_row (JObject [("name", JString "pock")]). answer (DbOk 1%Z).
      stored_row sample_mail. answer (DbOk 1%Z).
      stored_row (JObject [("bucket", JString "media"); ("secret_access_key", JString "v1:aa:bb")]). answer (DbOk 1%Z).
      answer (DbOk 1%Z). answer (DbOk tt). split; reflexivity.
    - reflexivity. }
  exists t, r. split; [exact R|]. split; [exact G|]. split; [|done].
  apply (proj1 (exports_import_back sample_admin sample_settings sample_distinct sample_restorable)); [|reflexivity].
  right. right. left.
Defined.

Lemma settings_are_saved_whole_witness : ∃ t v,
  runs (update_settings sample_admin (JObject [("app", JString "a"); ("old", JNull)])) t (Done v)
  ∧ Ev OCommit (DbOk ()) ∈ t
  ∧ ∃ t1 x t2, t = t1 ++ Ev OCommit x :: t2 ∧ written ("app", JString "a") t1 ∧ written ("old", JNull) t1.
Proof.
  assert (∃ t v, runs (update_settings sample_admin (JObject [("app", JString "a"); ("old", JNull)])) t (Done v)
    ∧ ∃ t1 x t2, t = t1 ++ Ev OCommit x :: t2) as (t & v & R & t1 & x & t2 & E).
  { eexists _, _. split.
    - answer (Ok () : result unit). answer (DbOk tt). answer (DbOk 1%Z). answer (DbOk 1%Z). answer (DbOk 1%Z). answer (DbOk tt). split; reflexivity.
    - eexists [_; _; _; _; _], _, []. reflexivity. }
  destruct (settings_are_saved_whole _ _ _ _ R) as [D P]. exists t, v. split; [exact R|]. split; [exact (proj2 (D v eq_refl))|].
  exists t1, x, t2. split; [exact E|]. destruct (P _ _ _ _ _ E) as (object & [= <-] & W & _).
  split; apply W; [left|right; left].
Defined.

#[local] Existing Instance sample_aead.
Definition sample_env (key : string) : option string :=
  if decide (key = KEY_VARIABLE) then Some "3031323334353637383961626364656630313233343536373839616263646566" else None.
Definition sample_change : list (string * Value) := [("bucket", JString "media"); ("secret_access_key", JString "s3cret")].

Lemma storage_is_never_left_broken_witness : ∃ t config v,
  runs (storage_update sample_env (Ok ()) (λ _, Ok ()) (Some sample_nonce) default_config sample_admin (JObject sample_change)) t (config, Done v)
  ∧ bucket config = Some "media" ∧ secret_key config = Some "s3cret" ∧ usable config ∧ get v "secret_access_key" = Some (JString "").
Proof.
  assert (∃ t config v,
    runs (storage_update sample_env (Ok ()) (λ _, Ok ()) (Some sample_nonce) default_config sample_admin (JObject sample_change)) t (config, Done v)
    ∧ bucket config = Some "media" ∧ secret_key config = Some "s3cret") as (t & config & v & R & B & K).
  { eexists _, _, _. split; [|split].
    - answer (Ok () : result unit). answer (DbOk (A:=list Value) []). answer (DbOk 1%Z). answer (DbOk 1%Z). split; reflexivity.
    - by vm_compute.
    - by vm_compute. }
  exists t, config, v. split; [exact R|]. split; [exact B|]. split; [exact K|].
  destruct (storage_is_never_left_broken _ _ _ _ _ _ _ _ _ _ R) as [(_ & [e [=]] & _)|(_ & U & _ & setting & fields & secrets & _ & _ & _ & _ & _ & Q)].
  split; [exact U|]. apply (Q v eq_refl).
Defined.

(** * What is lost *)

(** A credential in an array is not kept: the import replaces the list, its
    credential null. *)
Definition sample_providers : Value := JObject [("providers", JArray [JObject [("client_secret", JString "s"); ("name", JString "github")]])].
Example array_credentials_are_lost :
  (redact "oauth2" sample_providers).2 = ["oauth2.providers.client_secret"]
  ∧ merge_keep sample_providers (redact "oauth2" sample_providers).1
    = JObject [("providers", JArray [JObject [("client_secret", JNull); ("name", JString "github")]])].
Proof. by vm_compute. Qed.

(** Only the name of the scalar counts: what is nested under a credential's name
    is exported, and so is what has a dot in its name. *)
Example nested_credentials_are_exported :
  redact "mail" (JObject [("password", JObject [("value", JString "hunter2")])]) = (JObject [("password", JObject [("value", JString "hunter2")])], [])
  ∧ is_secret_name "secret.v2" = true ∧ redact "mail" (JObject [("secret.v2", JString "hunter2")]) = (JObject [("secret.v2", JString "hunter2")], []).
Proof. by vm_compute. Qed.

(** An import never builds a policy nor a trigger, though it may change the rules
    and the switch. *)
Definition is_batch (X : Type) (o : op X) : Prop := match o with OBatch _ => True | _ => False end.
Lemma import_keys_build_nothing settings done_ skipped : avoids is_batch (import_keys settings done_ skipped).
Proof.
  revert done_ skipped. induction settings as [|[key value] settings IH]; intros done_ skipped; cbn [import_keys]; [done|].
  destruct (is_internal key); [done|]. apply avoids_then.
  - unfold query_opt. apply avoids_then; [apply avoids_db; by intros []|]. by intros [|row [|]].
  - intros stored. cbn beta. destruct (is_null _); [apply IH|]. apply avoids_then; [apply avoids_db; by intros []|]. intros _. apply IH.
Qed.
Lemma imports_build_nothing p body t r sql x : runs (import_settings p body) t r → Ev (OBatch sql) x ∉ t.
Proof.
  intros R I. enough (avoids is_batch (import_settings p body)) as V by (by apply (avoids_runs _ _ _ _ _ _ _ V R I)).
  unfold import_settings. apply avoids_lift_then. intros [] _. apply avoids_lift_then. intros b _. destruct (decide _); [done|].
  apply avoids_then; [apply avoids_ask; by intros []|]. intros _. apply avoids_then; [apply avoids_db; by intros []|]. intros _.
  apply avoids_then; [apply import_keys_build_nothing|]. intros [imported skipped]. unfold audit_record.
  repeat (apply avoids_then; [|intros ?; try done]); try (apply avoids_db; by intros []); done.
Qed.

(** A form sent with its secret left blank stores the blank over the secret. *)
Example blank_secret_is_stored :
  with_secret (Some sample_key) None [("bucket", JString "media"); ("secret_access_key", JString "")]
    (merged_fields [("bucket", JString "media"); ("secret_access_key", JString "")] [("secret_access_key", JString "v1:aa:bb")])
  = Ok [("bucket", JString "media"); ("secret_access_key", JString "")].
Proof. by vm_compute. Qed.
