(* ===== verification/Migrate.v ===== *)
(** The migration runner, [crates/db/src/migrate.rs], and what it does when
    several nodes boot at once and any of them may die.

    A run is a program of interactions ([Effects]). The second half puts any
    number of such programs over one database: each has its session, which holds
    the advisory lock or not and may have a transaction open. [wp] is the proof
    rule: a program is followed from what its session knows, the tables fixed
    while it holds the lock and growing in the hands of others while it does
    not. *)
From Stdlib Require Eqdep.
From S2P Require Import Prelude CoreError Json Ddl Effects Collections.

Local Set Warnings "-register-all,-clear-no-such-hyp".

(** [struct Migration] and [SYSTEM_MIGRATIONS], with the files that are
    compiled in. *)
Record Migration := { version : Z; mg_name : string; sql : string }.
Definition SYSTEM_MIGRATIONS (include_str : string → string) : list Migration :=
  (λ '(v, name, file), {| version := v; mg_name := name; sql := include_str ("../../../migrations/" +:+ file) |}) <$> [
    (1%Z, "system_tables", "0001_system_tables.sql"); (2%Z, "superusers", "0002_superusers.sql"); (3%Z, "rls", "0003_rls.sql");
    (4%Z, "realtime", "0004_realtime.sql"); (5%Z, "image_presets", "0005_image_presets.sql");
    (6%Z, "auth_system_fields", "0006_auth_system_fields.sql"); (7%Z, "request_logs", "0007_request_logs.sql"); (8%Z, "crons", "0008_crons.sql");
    (9%Z, "import_snapshots", "0009_import_snapshots.sql"); (10%Z, "token_key_is_not_a_field", "0010_token_key_is_not_a_field.sql");
    (11%Z, "files", "0011_files.sql"); (12%Z, "oauth2", "0012_oauth2.sql"); (13%Z, "otps", "0013_otps.sql"); (14%Z, "api_keys", "0014_api_keys.sql");
    (15%Z, "file_rls", "0015_file_rls.sql"); (16%Z, "reflected_field_defaults", "0016_reflected_field_defaults.sql");
    (17%Z, "auth_claims", "0017_auth_claims.sql"); (18%Z, "realtime_hardening", "0018_realtime_hardening.sql");
    (19%Z, "mail_templates", "0019_mail_templates.sql")].

Definition MIGRATION_LOCK_KEY : Z := 0x6c61_7a79_706f_636b.
Definition nl : string := String (ascii_of_N 10) "".
Definition LEDGER_DDL : string :=
  "create table if not exists _migrations (" +:+ nl +:+
  "    version    bigint primary key," +:+ nl +:+
  "    name       text        not null," +:+ nl +:+
  "    checksum   text        not null," +:+ nl +:+
  "    applied_at timestamptz not null default now()" +:+ nl +:+ ")".

(** [struct MigrationReport] and [struct MigrationStatus]; a row of the ledger. *)
Record MigrationReport := { applied : list Z; already_applied : list Z }.
Record MigrationStatus := { ms_version : Z; ms_name : string; ms_applied : bool; ms_checksum_matches : bool }.
Abbreviation LedgerRow := (Z * string * string)%type.
Definition row_version (r : LedgerRow) : Z := r.1.1.
Definition row_checksum (r : LedgerRow) : string := r.2.

Definition LOCK_SQL : string := "select pg_advisory_lock($1::bigint)".
Definition UNLOCK_SQL : string := "select pg_advisory_unlock($1::bigint)".
Definition LEDGER_EXISTS_SQL : string := "select to_regclass('_migrations') is not null".
Definition LEDGER_SQL : string := "select version, name, checksum from _migrations order by version".
Definition RECORD_SQL : string := "insert into _migrations (version, name, checksum) values ($1, $2, $3)".
Definition lock_params : Params := [PNumber MIGRATION_LOCK_KEY].

Section migrate.
Context (sha256 : string → list Z).

(** [checksum]. *)
Definition checksum (sql : string) : string := join "" (Ddl.hex_byte <$> sha256 sql).

(** [lock], [unlock], [ensure_ledger], [load_applied]. *)
Definition lock : W unit := db (OExecute LOCK_SQL lock_params) ≫= λ _, give tt.
Definition unlock : W unit := db (OExecute UNLOCK_SQL lock_params) ≫= λ _, give tt.
Definition ensure_ledger : W unit :=
  query_one bool LEDGER_EXISTS_SQL [] ≫= λ exists_,
  if exists_ : bool then give tt else Collections.batch LEDGER_DDL Internal.
Definition load_applied : W (list LedgerRow) := db (ORows LedgerRow LEDGER_SQL []).

(** [apply]. *)
Definition apply (m : Migration) : W unit :=
  db OBegin ≫= λ _,
  Collections.batch (sql m) Internal ≫= λ _,
  db (OExecute RECORD_SQL [PNumber (version m); PText (Some (mg_name m)); PText (Some (checksum (sql m)))]) ≫= λ _,
  db OCommit ≫= λ _,
  give tt.

(** [run_locked] and [status_locked], for the migrations of a binary. *)
Definition recorded_row (v : Z) (rows : list LedgerRow) : option LedgerRow := snd <$> list_find (λ r, row_version r = v) rows.
Definition knows (ms : list Migration) (r : LedgerRow) : bool := existsb (λ m, bool_decide (version m = row_version r)) ms.
Fixpoint run_pending (rows : list LedgerRow) (ms : list Migration) (report : MigrationReport) : W MigrationReport :=
  match ms with
  | [] => give report
  | m :: ms =>
      match recorded_row (version m) rows with
      | Some r =>
          if decide (row_checksum r ≠ checksum (sql m)) then refuse Invalid
          else run_pending rows ms {| applied := applied report; already_applied := already_applied report ++ [version m] |}
      | None =>
          apply m ≫= λ _, run_pending rows ms {| applied := applied report ++ [version m]; already_applied := already_applied report |}
      end
  end.
Definition run_locked (ms : list Migration) : W MigrationReport :=
  ensure_ledger ≫= λ _,
  load_applied ≫= λ rows,
  if forallb (knows ms) rows then run_pending rows ms {| applied := []; already_applied := [] |} else refuse Invalid.
Definition status_locked (ms : list Migration) : W (list MigrationStatus) :=
  ensure_ledger ≫= λ _,
  load_applied ≫= λ rows,
  give ((λ m, let r := recorded_row (version m) rows in
         {| ms_version := version m; ms_name := mg_name m; ms_applied := match r with Some _ => true | None => false end;
            ms_checksum_matches := match r with Some r => bool_decide (row_checksum r = checksum (sql m)) | None => false end |}) <$> ms).

(** [run] and [status]: whatever happens in between, the lock is given back. *)
Definition between_locks {A} (locked : W A) : W A :=
  lock ≫= λ _,
  pbind locked (λ outcome,
  pbind unlock (λ unlocked,
  match outcome, unlocked with
  | Failed e, _ => Ret (Failed e)
  | Done a, Failed e => Ret (Failed e)
  | Done a, Done _ => Ret (Done a)
  end)).
Definition run (ms : list Migration) : W MigrationReport := between_locks (run_locked ms).
Definition status (ms : list Migration) : W (list MigrationStatus) := between_locks (status_locked ms).

(** * Nodes over one database *)

(** What a transaction has done so far, a session, and the tables: the ledger,
    which may be missing, and the texts that were run, in order. *)
Record Transaction := { ran : list string; recorded : list LedgerRow }.
Record Session := { held : bool; tx : option Transaction }.
Record Tables := { ledger : option (list LedgerRow); schema : list string }.
Definition ledger_rows (d : Tables) : list LedgerRow := default [] (ledger d).

(** An error leaves the tables and no transaction, and may have ended the
    session; of a commit and of the statement that creates the ledger it may also
    be the answer alone that was lost. *)
Definition broken (s : Session) (d : Tables) (s' : Session) (d' : Tables) : Prop :=
  d' = d ∧ tx s' = None ∧ (held s' = true → held s = true).
Definition committed (t : Transaction) (d : Tables) : Tables :=
  {| ledger := Some (ledger_rows d ++ recorded t); schema := schema d ++ ran t |}.
Definition created (d : Tables) : Tables := {| ledger := Some (ledger_rows d); schema := schema d |}.
Definition in_tx (s : Session) (t : option Transaction) : Session := {| held := held s; tx := t |}.
Definition row_of_params (sql : string) (params : Params) : option LedgerRow :=
  match params with
  | [PNumber v; PText (Some name); PText (Some sum)] => if decide (sql = RECORD_SQL) then Some (v, name, sum) else None
  | _ => None
  end.
(** The call of a lock function, for the key of migrations. *)
Definition calls (function sql : string) (params : Params) : bool :=
  bool_decide (sql = function) && match params with [PNumber key] => bool_decide (key = MIGRATION_LOCK_KEY) | _ => false end.
Definition rows_as {A B : Type} (E : A = B) (rows : list A) : list B := eq_rect A list rows B E.

(** The answer to an operation, the session and the tables after it. What a run
    does not ask may do anything. *)
Definition answers (free : Prop) (s : Session) (d : Tables) {X} (o : op X) : X → Session → Tables → Prop :=
  match o in op X return X → Session → Tables → Prop with
  | OExecute sql params => λ r s' d',
      if calls LOCK_SQL sql params then
        match r with
        | DbOk _ => (held s = true ∨ free) ∧ s' = {| held := true; tx := tx s |} ∧ d' = d
        | DbErr _ => broken s d s' d'
        end
      else if calls UNLOCK_SQL sql params then
        match r with
        | DbOk _ => s' = {| held := false; tx := tx s |} ∧ d' = d
        | DbErr _ => broken s d s' d'
        end
      else
        match tx s, row_of_params sql params with
        | Some t, Some row =>
            match r with
            | DbOk _ => s' = in_tx s (Some {| ran := ran t; recorded := recorded t ++ [row] |}) ∧ d' = d
            | DbErr _ => broken s d s' d'
            end
        | _, _ => True
        end
  | ORows A sql params => λ r s' d',
      match tx s, r with
      | None, DbOk rows =>
          s' = s ∧ d' = d ∧ (sql = LEDGER_EXISTS_SQL → ∀ E : A = bool, rows_as E rows = [bool_decide (is_Some (ledger d))])
          ∧ (sql = LEDGER_SQL → ∀ E : A = LedgerRow, rows_as E rows ≡ₚ ledger_rows d)
      | None, DbErr _ => broken s d s' d'
      | Some _, _ => True
      end
  | OBatch sql => λ r s' d',
      match tx s, r with
      | Some t, DbOk _ => s' = in_tx s (Some {| ran := ran t ++ [sql]; recorded := recorded t |}) ∧ d' = d
      | Some t, DbErr _ => broken s d s' d'
      | None, DbOk _ => sql = LEDGER_DDL → s' = s ∧ d' = created d
      | None, DbErr _ => sql = LEDGER_DDL → broken s d s' d' ∨ broken s (created d) s' d'
      end
  | OBegin => λ r s' d',
      match tx s, r with
      | None, DbOk _ => s' = in_tx s (Some {| ran := []; recorded := [] |}) ∧ d' = d
      | None, DbErr _ => broken s d s' d'
      | Some _, _ => True
      end
  | OCommit => λ r s' d',
      match tx s, r with
      | Some t, DbOk _ => s' = in_tx s None ∧ d' = committed t d
      | Some t, DbErr _ => broken s d s' d' ∨ broken s (committed t d) s' d'
      | None, _ => True
      end
  | _ => λ _ _ _, True
  end.

(** A node: what it has left to do, its session and its binary. The nodes that
    are up share the tables; one boots with a binary that is about, one does its
    next operation, and one that ends or dies is rolled back and gives up its
    lock. *)
Record Node := { code : prog (attempt MigrationReport); session : Session; binary : list Migration }.
Record World := { tables : Tables; nodes : gmap nat Node }.
Definition lock_free (w : World) : Prop := map_Forall (λ _ n, held (session n) = false) (nodes w).
Definition no_session : Session := {| held := false; tx := None |}.

Inductive step (binaries : list (list Migration)) : World → World → Prop :=
  | boots w (i : nat) ms : nodes w !! i = None → ms ∈ binaries →
      step binaries w {| tables := tables w; nodes := <[i := {| code := run ms; session := no_session; binary := ms |}]> (nodes w) |}
  | proceeds w (i : nat) n X (o : op X) k x s d : nodes w !! i = Some n → code n = Do o k →
      answers (lock_free w) (session n) (tables w) o x s d →
      step binaries w {| tables := d; nodes := <[i := {| code := k x; session := s; binary := binary n |}]> (nodes w) |}
  | dies w (i : nat) : is_Some (nodes w !! i) → step binaries w {| tables := tables w; nodes := base.delete i (nodes w) |}.
Inductive reachable (binaries : list (list Migration)) (d : Tables) : World → Prop :=
  | initially : reachable binaries d {| tables := d; nodes := ∅ |}
  | after w w' : reachable binaries d w → step binaries w w' → reachable binaries d w'.

(** * The proof rule *)

Section lock.
Context (before : list LedgerRow) (binaries : list (list Migration)).
Definition row_of (m : Migration) : LedgerRow := (version m, mg_name m, checksum (sql m)).

(** The tables at rest: the rows that were there before, then those of the
    migrations that ran, each recorded with its text, no version twice; and when
    every binary is a beginning of one history, so is what ran. *)
Definition chained (done_ : list Migration) : Prop :=
  ∀ history earlier, NoDup (version <$> history) → (∀ ms, ms ∈ binaries → ms `prefix_of` history) →
    before = row_of <$> earlier → earlier `prefix_of` history → earlier ++ done_ `prefix_of` history.
Definition consistent (d : Tables) (done_ : list Migration) : Prop :=
  ledger_rows d = before ++ (row_of <$> done_) ∧ schema d = sql <$> done_ ∧ NoDup (row_version <$> ledger_rows d)
  ∧ (∀ m, m ∈ done_ → ∃ ms, ms ∈ binaries ∧ m ∈ ms) ∧ chained done_.
Definition at_rest (d : Tables) : Prop := ∃ done_, consistent d done_.

Definition extends (d d' : Tables) : Prop := ledger_rows d `prefix_of` ledger_rows d' ∧ schema d `prefix_of` schema d'.
#[global] Instance extends_preorder : PreOrder extends.
Proof. split; [by split|]. intros a b c [A B] [C D]. by split; etransitivity. Qed.

(** What a session may do to the tables, and what others may do to them after. *)
Definition change (s : Session) (d d' : Tables) : Prop := d' = d ∨ (held s = true ∧ extends d d' ∧ at_rest d').
Definition later (s : Session) (d d' : Tables) : Prop := if held s then d' = d else extends d d' ∧ at_rest d'.

Fixpoint wp {A} (p : prog A) (s : Session) (d : Tables) (Q : Session → Tables → A → Prop) : Prop :=
  match p with
  | Ret a => Q s d a
  | Do o k => ∀ free x s' d', answers free s d o x s' d' →
      change s d d' ∧ (held s' = true → held s = true ∨ free) ∧ ∀ d2, later s' d' d2 → wp (k x) s' d2 Q
  end.

Lemma wp_mono {A} (p : prog A) s d (Q R : Session → Tables → A → Prop) :
  wp p s d Q → (∀ s' d' a, Q s' d' a → R s' d' a) → wp p s d R.
Proof.
  intros V I. revert s d V. induction p as [a|X o k IH]; intros s d V; cbn in *; [by apply I|].
  intros free x s' d' E. destruct (V free x s' d' E) as (C & H & N). split_and!; [done..|]. intros d2 L. by apply IH, N.
Qed.
Lemma wp_bind {A B} (p : prog A) (f : A → prog B) s d Q : wp p s d (λ s' d' a, wp (f a) s' d' Q) → wp (pbind p f) s d Q.
Proof.
  revert s d. induction p as [a|X o k IH]; intros s d V; cbn in *; [done|].
  intros free x s' d' E. destruct (V free x s' d' E) as (C & H & N). split_and!; [done..|]. intros d2 L. by apply IH, N.
Qed.
Lemma wp_then {A B} (p : W A) (f : A → W B) s d Q :
  wp p s d (λ s' d' r, match r with Done a => wp (f a) s' d' Q | Failed e => Q s' d' (Failed e) end) → wp (p ≫= f) s d Q.
Proof. intros V. apply wp_bind. eapply wp_mono; [exact V|]. by intros s' d' [a|e]. Qed.

(** One operation, the tables at rest before and after it. *)
Lemma wp_op {A X} (o : op X) (k : X → prog A) s d Q :
  (∀ free x s' d', answers free s d o x s' d' → change s d d' ∧ at_rest d' ∧ (held s' = true → held s = true ∨ free)
     ∧ ∀ d2, extends d' d2 → at_rest d2 → (held s' = true → d2 = d') → wp (k x) s' d2 Q) → wp (Do o k) s d Q.
Proof.
  intros V free x s' d' E. destruct (V free x s' d' E) as (C & I & H & N). split_and!; [done..|]. intros d2 L. unfold later in L.
  destruct (held s') eqn:S'; [subst d2; by apply N|]. destruct L. by apply N.
Qed.

(** After an error a run has its lock to give back at most. *)
Definition failed (s : Session) (d : Tables) : Prop := tx s = None ∧ at_rest d.
Lemma broken_step {A} (p : prog A) s d s' d' free Q : broken s d s' d' → at_rest d →
  (∀ s2 d2, failed s2 d2 → wp p s2 d2 Q) → change s d d' ∧ at_rest d' ∧ (held s' = true → held s = true ∨ free)
     ∧ ∀ d2, extends d' d2 → at_rest d2 → (held s' = true → d2 = d') → wp p s' d2 Q.
Proof. intros (-> & T & H) I F. split_and!; [by left|done|tauto|]. intros d2 _ I2 _. by apply F. Qed.

(** ** The runner *)

Lemma unlock_wp s d (Q : Session → Tables → attempt () → Prop) :
  failed s d → (∀ s' d' r, extends d d' → at_rest d' → Q s' d' r) → wp unlock s d Q.
Proof.
  intros [T I] F. apply wp_op. intros free [n|e] s' d' E; cbn in E; change (calls LOCK_SQL UNLOCK_SQL lock_params) with false in E;
    change (calls UNLOCK_SQL UNLOCK_SQL lock_params) with true in E; cbn in E.
  - destruct E as [-> ->]. split_and!; [by left|done|done|]. intros d2 X I2 _. by apply F.
  - destruct E as (-> & _ & H). split_and!; [by left|done|tauto|]. intros d2 X I2 _. by apply F.
Qed.

Definition versions_of (d : Tables) : list Z := row_version <$> ledger_rows d.

(** A migration that is not recorded, run after everything that comes before it
    in its binary. *)
Lemma next_consistent d done_ m pre post :
  consistent d done_ → pre ++ m :: post ∈ binaries → version m ∉ versions_of d → (∀ m', m' ∈ pre → version m' ∈ versions_of d) →
  at_rest (committed {| ran := [sql m]; recorded := [row_of m] |} d).
Proof.
  intros (L & S & N & B & C) M Fresh Pre. exists (done_ ++ [m]).
  assert (ledger_rows (committed {| ran := [sql m]; recorded := [row_of m] |} d) = ledger_rows d ++ [row_of m]) as L' by done.
  unfold consistent. rewrite L'. split_and!.
  - by rewrite L, <-app_assoc, fmap_app.
  - cbn [committed schema ran]. by rewrite S, fmap_app.
  - rewrite fmap_app. apply NoDup_app. split; [done|]. split; [|apply NoDup_singleton]. intros v V. cbn. intros ->%list_elem_of_singleton. by apply Fresh.
  - intros m' [I| ->%list_elem_of_singleton]%elem_of_app; [by apply B|]. eexists. split; [exact M|]. apply elem_of_app. right. by left.
  - intros history earlier NH P BE PE. specialize (C history earlier NH P BE PE).
    assert (earlier ++ done_ = pre) as E.
    { assert (versions_of d = version <$> (earlier ++ done_)) as V.
      { unfold versions_of. rewrite L, BE, <-fmap_app, <-list_fmap_compose. done. }
      pose proof (P _ M) as P1. assert (pre `prefix_of` history) as P0 by (etransitivity; [apply prefix_app_r; reflexivity|exact P1]).
      destruct (prefix_weak_total _ _ _ C P0) as [[u U]|[u U]].
      - destruct u as [|x u]; [by rewrite app_nil_r in U|]. exfalso. assert (x ∈ pre) as X by (rewrite U; apply elem_of_app; right; by left).
        apply Pre in X. rewrite V in X. destruct C as [z Z]. rewrite U in P0. destruct P0 as [z' Z']. rewrite Z' in NH.
        rewrite <-app_assoc, fmap_app in NH. apply NoDup_app in NH as (_ & NH & _). apply (NH _ X). cbn. by left.
      - destruct u as [|x u]; [by rewrite app_nil_r in U|]. exfalso. apply Fresh. rewrite V, U, fmap_app. apply elem_of_app. right.
        enough (x = m) as -> by (cbn; by left). destruct C as [z Z]. destruct P1 as [z1 Z1]. rewrite U, <-!app_assoc in Z. rewrite <-app_assoc in Z1.
        rewrite Z in Z1. apply app_inv_head in Z1. by injection Z1. }
    rewrite app_assoc, E. etransitivity; [|exact (P _ M)]. exists post. by rewrite <-app_assoc.
Qed.

(** An operation of a session that holds the lock: nobody else changes the
    tables, and what fails leaves no transaction. *)
Definition grows (d d' : Tables) : Prop := d' = d ∨ (extends d d' ∧ at_rest d').
Lemma held_step {A B} (o : op (Reply A)) (k : Reply A → prog B) s d Q : held s = true → at_rest d →
  (∀ free a s' d', answers free s d o (DbOk a) s' d' → held s' = true ∧ grows d d' ∧ wp (k (DbOk a)) s' d' Q) →
  (∀ free e s' d', answers free s d o (DbErr e) s' d' → tx s' = None ∧ grows d d') →
  (∀ s' d' e, failed s' d' → wp (k (DbErr e)) s' d' Q) → wp (Do o k) s d Q.
Proof.
  intros H I G E F free [a|e] s' d' R.
  - destruct (G _ _ _ _ R) as (H' & C & N). split_and!; [destruct C; [by left|by right]|by left|]. unfold later. rewrite H'. by intros d2 ->.
  - destruct (E _ _ _ _ R) as [T C]. split_and!; [destruct C; [by left|by right]|by left|]. intros d2 L. apply F. split; [done|].
    unfold later in L. destruct (held s'); [|by destruct L]. subst d2. by destruct C as [->|[_ ?]].
Qed.
Lemma broken_grows s d s' d' : broken s d s' d' → tx s' = None ∧ grows d d'.
Proof. intros (-> & T & _). split; [done|by left]. Qed.

Lemma at_rest_created d : at_rest d → grows d (created d).
Proof. intros R. right. split; [by split|exact R]. Qed.

(** A session that holds the lock, outside a transaction. *)
Definition holding : Session := {| held := true; tx := None |}.

Lemma ensure_ledger_wp d (Q : Session → Tables → attempt () → Prop) : at_rest d →
  (∀ d', ledger_rows d' = ledger_rows d → schema d' = schema d → at_rest d' → Q holding d' (Done tt)) →
  (∀ s' d' e, failed s' d' → Q s' d' (Failed e)) → wp ensure_ledger holding d Q.
Proof.
  intros I G F. unfold ensure_ledger, query_one. apply wp_then, wp_then, held_step; [done..| | |].
  - intros free rows s' d' E. cbn in E. destruct E as (-> & -> & E & _). specialize (E eq_refl eq_refl). cbn in E. subst rows.
    split; [done|]. split; [by left|]. cbn -[Collections.batch]. destruct (bool_decide (is_Some (ledger d))); [by apply G|].
    apply held_step; [done..| | |].
    + intros free' [] s2 d2 E. destruct (E eq_refl) as [-> ->]. split; [done|]. split; [by apply at_rest_created|]. by apply G.
    + intros free' e s2 d2 E. destruct (E eq_refl) as [B|(-> & T & _)]; [exact (broken_grows _ _ _ _ B)|]. split; [done|]. by apply at_rest_created.
    + intros s2 d2 e X. by apply F.
  - intros free e s' d' E. exact (broken_grows _ _ _ _ E).
  - intros s' d' e X. by apply F.
Qed.

Lemma load_applied_wp d (Q : Session → Tables → attempt (list LedgerRow) → Prop) : at_rest d →
  (∀ rows, rows ≡ₚ ledger_rows d → Q holding d (Done rows)) → (∀ s' d' e, failed s' d' → Q s' d' (Failed e)) → wp load_applied holding d Q.
Proof.
  intros I G F. apply held_step; [done..| | |].
  - intros free rows s' d' (-> & -> & _ & E). specialize (E eq_refl eq_refl). split; [done|]. split; [by left|]. by apply G.
  - intros free e s' d' E. exact (broken_grows _ _ _ _ E).
  - intros s' d' e X. by apply F.
Qed.

Lemma apply_wp d m (Q : Session → Tables → attempt () → Prop) : at_rest d →
  at_rest (committed {| ran := [sql m]; recorded := [row_of m] |} d) →
  Q holding (committed {| ran := [sql m]; recorded := [row_of m] |} d) (Done tt) →
  (∀ s' d' e, failed s' d' → Q s' d' (Failed e)) → wp (apply m) holding d Q.
Proof.
  set (t := {| ran := [sql m]; recorded := [row_of m] |}). intros I IC G F.
  assert (grows d (committed t d)) as XC by (right; split; [split; by eexists|done]).
  unfold apply. apply wp_then, held_step; [done..| | |intros s' d' e X; by apply F].
  2:{ intros free e s' d' E. exact (broken_grows _ _ _ _ E). }
  intros free [] s' d' [-> ->]. split; [done|]. split; [by left|]. apply wp_then, held_step; [done..| | |intros s' d' e X; by apply F].
  2:{ intros free' e s' d' E. exact (broken_grows _ _ _ _ E). }
  intros free' [] s' d' [-> ->]. split; [done|]. split; [by left|]. apply wp_then, held_step; [done..| | |intros s' d' e X; by apply F].
  2:{ intros free'' e s' d' E. exact (broken_grows _ _ _ _ E). }
  intros free'' n s' d' [-> ->]. split; [done|]. split; [by left|]. apply wp_then, held_step; [done..| | |intros s' d' e X; by apply F].
  2:{ intros free3 e s' d' [B|(-> & T & _)]; [exact (broken_grows _ _ _ _ B)|done]. }
  intros free3 [] s' d' [-> ->]. split; [done|]. split; [exact XC|]. exact G.
Qed.

Definition is_recorded (d : Tables) (m : Migration) : Prop := ∃ name, (version m, name, checksum (sql m)) ∈ ledger_rows d.
Lemma is_recorded_extends d d' m : extends d d' → is_recorded d m → is_recorded d' m.
Proof. intros [[l E] _] [name I]. exists name. rewrite E. apply elem_of_app. by left. Qed.
Lemma is_recorded_version d m : is_recorded d m → version m ∈ versions_of d.
Proof. intros [name I]. apply list_elem_of_fmap. by exists (version m, name, checksum (sql m)). Qed.

Lemma recorded_row_Some v rows r : recorded_row v rows = Some r → r ∈ rows ∧ row_version r = v.
Proof. unfold recorded_row. intros ([i r0] & (L & P & _)%list_find_Some & ->)%fmap_Some. split; [by eapply list_elem_of_lookup_2|done]. Qed.
Lemma recorded_row_None v rows : recorded_row v rows = None → v ∉ row_version <$> rows.
Proof.
  unfold recorded_row. intros F%fmap_None I. apply list_find_None in F. apply list_elem_of_fmap in I as (r & -> & I).
  rewrite Forall_forall in F. by apply (F r I).
Qed.

(** What a run leaves that succeeds. *)
Definition settled (ms : list Migration) (report : MigrationReport) (d : Tables) : Prop :=
  (∀ m, m ∈ ms → is_recorded d m)
  ∧ (∀ r, r ∈ before → ∃ m, m ∈ ms ∧ version m = row_version r ∧ row_checksum r = checksum (sql m))
  ∧ already_applied report ++ applied report ≡ₚ version <$> ms.
Lemma settled_extends ms report d d' : extends d d' → settled ms report d → settled ms report d'.
Proof. intros X (A & B & C). split_and!; [|done..]. intros m I. by eapply is_recorded_extends, A. Qed.

Section run.
Context (ms : list Migration) (Binary : ms ∈ binaries) (Distinct : NoDup (version <$> ms)).
Context (rows : list LedgerRow).

Lemma run_pending_wp pre post report d (Q : Session → Tables → attempt MigrationReport → Prop) :
  ms = pre ++ post → at_rest d → (∃ new, ledger_rows d ≡ₚ rows ++ (row_of <$> new) ∧ version <$> new ⊆ version <$> pre) →
  (∀ m, m ∈ pre → is_recorded d m) → already_applied report ++ applied report ≡ₚ version <$> pre →
  (∀ report' d', at_rest d' → (∀ m, m ∈ ms → is_recorded d' m) → (∀ m r, m ∈ post → r ∈ rows → version m = row_version r → row_checksum r = checksum (sql m)) →
     already_applied report' ++ applied report' ≡ₚ version <$> ms → Q holding d' (Done report')) →
  (∀ s' d' e, failed s' d' → Q s' d' (Failed e)) → wp (run_pending rows post report) holding d Q.
Proof.
  revert pre report d Q. induction post as [|m post IH]; intros pre report d Q E I (new & L & V) Rec Rep G F.
  - rewrite app_nil_r in E. subst pre. apply G; [done..| |done]. by intros m r ?%not_elem_of_nil.
  - assert (is_Some (recorded_row (version m) rows) ∨ recorded_row (version m) rows = None) as [[r Row]|Row]
      by (destruct (recorded_row _ _); eauto); cbn [run_pending]; rewrite Row.
    + apply recorded_row_Some in Row as [Ir Vr]. destruct (decide _) as [N|Sum]; [cbn; apply F; by split|].
      assert (row_checksum r = checksum (sql m)) as Sum' by (by destruct (decide (row_checksum r = checksum (sql m)))).
      assert (is_recorded d m) as Rm.
      { exists (r.1.2). rewrite L. apply elem_of_app. left. rewrite <-Sum', <-Vr. by destruct r as [[??]?]. }
      apply (IH (pre ++ [m])); [by rewrite <-app_assoc|done| | | | |done].
      * exists new. split; [done|]. rewrite fmap_app. set_solver.
      * intros m' [I'| ->%list_elem_of_singleton]%elem_of_app; [by apply Rec|done].
      * cbn. rewrite fmap_app, <-Rep. cbn. solve_Permutation.
      * intros report' d' I' Rec' Sums Rep'. apply G; [done..| |done]. intros m' r' [->|I2]%elem_of_cons Ir' Vr'; [|by eapply Sums].
        assert (r' = r) as ->; [|done]. destruct I as (done_ & _ & _ & N & _). rewrite L, fmap_app in N. apply NoDup_app in N as (N & _ & _).
        apply list_elem_of_lookup in Ir as [i Ir]. apply list_elem_of_lookup in Ir' as [j Ir'].
        enough (i = j) as -> by congruence. eapply (NoDup_lookup _ _ _ (row_version r)); [exact N|by rewrite list_lookup_fmap, Ir|].
        rewrite list_lookup_fmap, Ir'. cbn. by rewrite <-Vr', Vr.
    + apply recorded_row_None in Row.
      assert (version m ∉ versions_of d) as Fresh.
      { unfold versions_of. rewrite L, fmap_app. intros [X|X]%elem_of_app; [done|]. rewrite <-list_fmap_compose in X. apply V in X.
        rewrite E, fmap_app in Distinct. apply NoDup_app in Distinct as (_ & D & _). apply (D _ X). by left. }
      destruct I as [done_ C] eqn:HI. clear HI.
      assert (at_rest (committed {| ran := [sql m]; recorded := [row_of m] |} d)) as I2.
      { eapply (next_consistent _ done_ m pre post); [done|by rewrite <-E|done|]. intros m' I'. by apply is_recorded_version, Rec. }
      apply wp_then, apply_wp; [by exists done_|done| |by intros s' d' e X; apply F].
      set (d2 := committed {| ran := [sql m]; recorded := [row_of m] |} d) in *.
      assert (ledger_rows d2 = ledger_rows d ++ [row_of m]) as L2 by done. clearbody d2. cbn beta iota.
      apply (IH (pre ++ [m])); [by rewrite <-app_assoc|done| | | | |done].
      * exists (new ++ [m]). rewrite L2, L, !fmap_app, <-app_assoc. split; [done|]. set_solver.
      * intros m' [I'| ->%list_elem_of_singleton]%elem_of_app.
        -- destruct (Rec _ I') as [name J]. exists name. rewrite L2. apply elem_of_app. by left.
        -- exists (mg_name m). rewrite L2. apply elem_of_app. right. by left.
      * cbn. rewrite fmap_app, <-Rep, app_assoc. done.
      * intros report' d' I' Rec' Sums Rep'. apply G; [done..| |done]. intros m' r' [->|I3]%elem_of_cons Ir' Vr'; [|by eapply Sums].
        destruct Row. rewrite Vr'. by apply list_elem_of_fmap_2.
Qed.
End run.

Lemma run_wp ms d : ms ∈ binaries → NoDup (version <$> ms) → at_rest d →
  wp (run ms) no_session d (λ _ d' r, match r with Done report => settled ms report d' | Failed _ => True end).
Proof.
  intros B N I. unfold run, between_locks, lock. apply wp_then, wp_then, wp_op. intros free r s' d' E.
  destruct r as [n|e].
  2:{ destruct E as (-> & T & H). split_and!; [by left|done|by intros Hs%H|done]. }
  destruct E as (H & -> & ->). split_and!; [by left|done|tauto|]. intros d2 _ _ S2. rewrite (S2 eq_refl). clear d2 S2. cbn beta iota.
  change (wp (pbind (run_locked ms) (λ outcome, pbind unlock (λ unlocked, match outcome, unlocked with
    | Failed e, _ => Ret (Failed e) | Done a, Failed e => Ret (Failed e) | Done a, Done _ => Ret (Done a) end))) holding d
    (λ _ d' r, match r with Done report => settled ms report d' | Failed _ => True end)).
  apply wp_bind.
  assert (∀ s' d' e, failed s' d' → wp (pbind unlock (λ unlocked, match Failed (A:=MigrationReport) e, unlocked with
    | Failed e, _ => Ret (Failed e) | Done a, Failed e => Ret (Failed e) | Done a, Done _ => Ret (Done a) end)) s' d'
    (λ _ d' r, match r with Done report => settled ms report d' | Failed _ => True end)) as F.
  { intros s' d' e X. apply wp_bind, unlock_wp; [done|]. by intros. }
  unfold run_locked. apply wp_then, ensure_ledger_wp; [done| |done]. clear I. intros d2 L2 _ I.
  apply wp_then, load_applied_wp; [done| |done]. intros rows P. destruct (forallb (knows ms) rows) eqn:K; [|by apply F].
  eapply (run_pending_wp ms B N rows [] ms); [done|done| |by intros m ?%not_elem_of_nil|done| |done].
  { exists []. rewrite app_nil_r. done. }
  intros report d3 I3 Rec Sums Rep. apply wp_bind, unlock_wp; [done|]. intros s' d4 [[]|e] X4 _; [|done]. cbn.
  apply (settled_extends _ _ d3); [done|]. split_and!; [done| |done]. intros r Ir.
  assert (r ∈ rows) as Ir'.
  { rewrite P. destruct I as (done_ & -> & _). apply elem_of_app. by left. }
  assert (knows ms r = true) as Kr by (apply forallb_forall with (x := r) in K; [done|by apply list_elem_of_In]).
  unfold knows in Kr. apply existsb_exists in Kr as (m & Im & V%bool_decide_eq_true). apply list_elem_of_In in Im.
  exists m. split_and!; [done..|]. by eapply Sums.
Qed.

(** ** Any number of nodes *)

Section world.
Context (Distinct : ∀ ms, ms ∈ binaries → NoDup (version <$> ms)).

Definition final (ms : list Migration) (_ : Session) (d : Tables) (r : attempt MigrationReport) : Prop :=
  match r with Done report => settled ms report d | Failed _ => True end.
Definition node_ok (d : Tables) (n : Node) : Prop :=
  binary n ∈ binaries ∧ ∀ d2, later (session n) d d2 → wp (code n) (session n) d2 (final (binary n)).
Definition one_holder (w : World) : Prop := ∀ i j n m,
  nodes w !! i = Some n → nodes w !! j = Some m → held (session n) = true → held (session m) = true → i = j.
Definition in_order (w : World) : Prop := at_rest (tables w) ∧ one_holder w ∧ map_Forall (λ _, node_ok (tables w)) (nodes w).

Lemma later_now s d : at_rest d → later s d d.
Proof. intros I. unfold later. by destruct (held s). Qed.

(** What a session does leaves the others where they are. *)
Lemma node_ok_stable s d d' n : node_ok d n → change s d d' → (held s = true → held (session n) = false) → node_ok d' n.
Proof.
  intros [B V] C H. split; [done|]. intros d2 L. apply V. destruct C as [->|(Hs & X & _)]; [done|].
  unfold later in *. rewrite (H Hs) in *. destruct L as [X2 I2]. split; [by etransitivity|done].
Qed.

Lemma step_in_order w w' : step binaries w w' → in_order w → in_order w'.
Proof.
  intros S (I & One & Ok). destruct S as [w i ms Free B|w i n X o k x s d L C A|w i Up].
  - split_and!; unfold one_holder; cbn [nodes tables]; [done| |].
    + intros j1 j2 n m L1 L2 H1 H2. destruct (decide (j1 = i)) as [->|N1]; [by rewrite lookup_insert_eq in L1; simplify_eq|].
      destruct (decide (j2 = i)) as [->|N2]; [by rewrite lookup_insert_eq in L2; simplify_eq|]. rewrite lookup_insert_ne in L1, L2 by done. by eapply One.
    + apply map_Forall_insert_2; [|done]. split; [done|]. cbn [code session binary]. intros d2 [_ I2]. eapply wp_mono; [apply run_wp; [done|by apply Distinct|done]|].
      by intros s d [report|e].
  - destruct (Ok _ _ L) as [B V]. specialize (V _ (later_now _ _ I)). rewrite C in V. destruct (V _ _ _ _ A) as (Ch & Hs & Next).
    assert (at_rest d) as I' by (by destruct Ch as [->|(_ & _ & ?)]).
    split_and!; unfold one_holder; cbn [nodes tables]; [done| |].
    + assert (∀ j m, j ≠ i → nodes w !! j = Some m → held (session m) = true → held s = true → False) as Other.
      { intros j m N Lj Hm H'. destruct (Hs H') as [Hn|Free]; [by apply N, (One j i m n)|]. specialize (Free _ _ Lj). cbn in Free. congruence. }
      intros j1 j2 n1 n2 L1 L2 H1 H2. destruct (decide (j1 = i)) as [->|N1], (decide (j2 = i)) as [->|N2]; [done| | |].
      * rewrite lookup_insert_eq in L1. rewrite lookup_insert_ne in L2 by done. simplify_eq/=. by destruct (Other j2 n2).
      * rewrite lookup_insert_eq in L2. rewrite lookup_insert_ne in L1 by done. simplify_eq/=. by destruct (Other j1 n1).
      * rewrite lookup_insert_ne in L1, L2 by done. by eapply One.
    + intros j m Lj. destruct (decide (j = i)) as [->|N].
      * rewrite lookup_insert_eq in Lj. injection Lj as <-. split; [done|exact Next].
      * rewrite lookup_insert_ne in Lj by done. apply (node_ok_stable (session n) (tables w)); [by eapply Ok|done|].
        intros Hn. destruct (held (session m)) eqn:Hm; [|done]. by destruct N; eapply One.
  - split_and!; unfold one_holder; cbn [nodes tables]; [done| |].
    + intros j1 j2 n m (_ & L1)%lookup_delete_Some (_ & L2)%lookup_delete_Some. by apply One.
    + by apply map_Forall_delete.
Qed.

Lemma reachable_in_order d w : at_rest d → reachable binaries d w → in_order w.
Proof.
  intros I R. induction R as [|w w' R IH S]; [|by eapply step_in_order].
  split_and!; [done| |]; [|by apply map_Forall_empty]. by intros i j n m.
Qed.
End world.
End lock.

(** C37. However many nodes boot, with whatever binaries, whenever they die and
    whichever statements fail, the answer to a commit being lost included: what
    ran is exactly what the ledger records, in that order and each with the
    checksum of its text, no version runs twice or again, and where the binaries
    are releases of one history what ran is a beginning of it. At most one node
    holds the lock. A node whose run succeeds has every migration of its binary
    recorded, and knew every migration that was there, unedited. *)
Theorem migrations_run_once before binaries d w :
  ledger_rows d = before → schema d = [] → NoDup (row_version <$> before) →
  (∀ ms, ms ∈ binaries → NoDup (version <$> ms)) → reachable binaries d w →
  (∃ done_, ledger_rows (tables w) = before ++ (row_of <$> done_) ∧ schema (tables w) = sql <$> done_
     ∧ NoDup (row_version <$> ledger_rows (tables w)) ∧ (∀ m, m ∈ done_ → ∃ ms, ms ∈ binaries ∧ m ∈ ms)
     ∧ ∀ history, NoDup (version <$> history) → (∀ ms, ms ∈ binaries → ms `prefix_of` history) → before = [] → done_ `prefix_of` history)
  ∧ (∀ i j n m, nodes w !! i = Some n → nodes w !! j = Some m → held (session n) = true → held (session m) = true → i = j)
  ∧ ∀ i n report, nodes w !! i = Some n → code n = Ret (Done report) →
      (∀ m, m ∈ binary n → ∃ name, (version m, name, checksum (sql m)) ∈ ledger_rows (tables w))
      ∧ (∀ r, r ∈ before → ∃ m, m ∈ binary n ∧ version m = row_version r ∧ row_checksum r = checksum (sql m))
      ∧ already_applied report ++ applied report ≡ₚ version <$> binary n.
Proof.
  intros L S N Distinct R.
  assert (at_rest before binaries d) as I.
  { exists []. split_and!; [by rewrite app_nil_r|done|by rewrite L|by intros m ?%not_elem_of_nil|]. intros history earlier _ _ -> P. by rewrite app_nil_r. }
  destruct (reachable_in_order before binaries Distinct d w I R) as ((done_ & A & B & C & D & E) & One & Ok). split_and!; [|exact One|].
  - exists done_. split_and!; [done..|]. intros history NH P ->. by apply (E history []), prefix_nil.
  - intros i n report Ln Cn. destruct (Ok _ _ Ln) as [Bn V]. specialize (V (tables w)). rewrite Cn in V. apply V.
    apply later_now. by exists done_.
Qed.
End migrate.

(** * A run of one node *)

Section alone.
Context (sha256 : string → list Z) (binaries : list (list Migration)) (d : Tables).
Definition alone (t : Tables) (s : Session) (b : list Migration) (p : prog (attempt MigrationReport)) : World :=
  {| tables := t; nodes := {[0%nat := {| code := p; session := s; binary := b |}]} |}.
Lemma alone_proceeds {X} t s b (o : op X) k x s' t' : reachable sha256 binaries d (alone t s b (Do o k)) →
  answers (held s = false) s t o x s' t' → reachable sha256 binaries d (alone t' s' b (k x)).
Proof.
  intros R A. eapply after; [exact R|]. unfold alone. replace ({[0%nat := {| code := k x; session := s'; binary := b |}]} : gmap nat Node)
    with (<[0%nat := {| code := k x; session := s'; binary := b |}]> (nodes (alone t s b (Do o k)))) by (cbn; by rewrite insert_singleton_eq).
  eapply (proceeds sha256 binaries (alone t s b (Do o k)) 0 {| code := Do o k; session := s; binary := b |}); [apply lookup_singleton_eq|done|].
  assert (lock_free (alone t s b (Do o k)) ↔ held s = false) as F by (unfold lock_free; cbn [nodes alone]; by rewrite map_Forall_singleton).
  clear R. destruct o; try done. cbn in *. destruct (calls LOCK_SQL _ _); [|done]. destruct x; [by rewrite F|done].
Qed.
Lemma alone_next t s b p : reachable sha256 binaries d (alone t s b p) →
  match p with
  | Ret _ => True
  | @Do _ X o k => ∀ x s' t', answers (held s = false) s t o x s' t' → reachable sha256 binaries d (alone t' s' b (k x))
  end.
Proof. destruct p as [a|X o k]; [done|]. intros R x s' t'. by apply alone_proceeds. Qed.
End alone.

Definition sample_migration : Migration := {| version := 1; mg_name := "system_tables"; sql := "create table t ()" |}.
Definition empty_database : Tables := {| ledger := None; schema := [] |}.
Lemma rows_as_refl {A : Type} (E : A = A) (rows : list A) : rows_as E rows = rows.
Proof. unfold rows_as. by rewrite (Eqdep.EqdepTheory.UIP_refl _ _ E). Qed.

Definition sample_sha (_ : string) : list Z := [1%Z; 255%Z].
Definition after_migration : Tables := {| ledger := Some [row_of sample_sha sample_migration]; schema := [sql sample_migration] |}.
Definition begun (ran_ : list string) (recorded_ : list LedgerRow) : Session :=
  {| held := true; tx := Some {| ran := ran_; recorded := recorded_ |} |}.

Ltac next R x s d := apply alone_next in R; hnf in R; specialize (R x s d); match type of R with ?A → _ => let H := fresh in assert A as H; [|specialize (R H); clear H] end.

Lemma sample_run : reachable sample_sha [[sample_migration]] empty_database
  (alone after_migration no_session [sample_migration] (Ret (Done {| applied := [1%Z]; already_applied := [] |}))).
Proof.
  assert (reachable sample_sha [[sample_migration]] empty_database (alone empty_database no_session [sample_migration] (run sample_sha [sample_migration]))) as R.
  { eapply after; [apply initially|]. apply (boots sample_sha [[sample_migration]] {| tables := empty_database; nodes := ∅ |} 0%nat [sample_migration]); [done|by left]. }
  next R (DbOk 1%Z) holding empty_database; [by split_and!; [right|..]|].
  next R (DbOk [false]) holding empty_database; [by split_and!; [..|intros _ E; apply rows_as_refl|]|].
  next R (DbOk tt) holding (created empty_database); [by intros|].
  next R (DbOk (@nil LedgerRow)) holding (created empty_database); [by split_and!; [..|intros _ E; rewrite rows_as_refl]|].
  next R (DbOk tt) (begun [] []) (created empty_database); [done|].
  next R (DbOk tt) (begun [sql sample_migration] []) (created empty_database); [done|].
  next R (DbOk 1%Z) (begun [sql sample_migration] [row_of sample_sha sample_migration]) (created empty_database); [done|].
  next R (DbOk tt) holding after_migration; [done|].
  next R (DbOk 1%Z) no_session after_migration; [done|].
  exact R.
Qed.

Lemma migrations_run_once_witness : ∃ w,
  reachable sample_sha [[sample_migration]] empty_database w
  ∧ schema (tables w) = ["create table t ()"] ∧ (∃ name, (1%Z, name, "01ff") ∈ ledger_rows (tables w))
  ∧ ∃ done_, schema (tables w) = sql <$> done_ ∧ ∀ m, m ∈ done_ → ∃ ms, ms ∈ [[sample_migration]] ∧ m ∈ ms.
Proof.
  eexists. split; [exact sample_run|]. split; [reflexivity|].
  destruct (migrations_run_once sample_sha [] [[sample_migration]] empty_database _ eq_refl eq_refl (NoDup_nil_2)
    ltac:(by intros ms ->%list_elem_of_singleton; apply NoDup_singleton) sample_run) as ((done_ & A & B & _ & C & _) & _ & D).
  split; [|by exists done_].
  destruct (proj1 (D 0%nat _ _ (lookup_singleton_eq _ _) eq_refl) sample_migration) as [name I]; [by left|].
  exists name. exact I.
Defined.

(** The migrations of this release. *)
Example system_migrations_are_ordered include_str :
  StronglySorted Z.lt (version <$> SYSTEM_MIGRATIONS include_str) ∧ NoDup (version <$> SYSTEM_MIGRATIONS include_str).
Proof.
  replace (version <$> SYSTEM_MIGRATIONS include_str) with (Z.of_nat <$> seq 1 19) by reflexivity.
  split; [by repeat constructor|apply NoDup_fmap_2; [apply _|apply NoDup_seq]].
Qed.
