(* ===== verification/Thumbnail.v ===== *)
(** The size of a thumbnail, [crates/files/src/thumbnail.rs], and what is sent
    to an external image service, [crates/files/src/image_service.rs].

    The arithmetic is that of the code, on binary64 numbers: a positive one is
    its significand and its exponent, and a quotient or a product is the number
    nearest to the exact one. The sides of an image are 32-bit, so neither can
    leave the range of normal numbers. The codecs are an interface. *)
From S2P Require Import Prelude CoreError ImageCheck FileKeys.

Local Open Scope Z_scope.

(** * Binary64 *)

(** The number [mant * 2 ^ expo]. *)
Record Float := { mant : Z; expo : Z }.

(** [n / d] in units of [2 ^ e], as a numerator and a denominator, and the
    integer nearest to a quotient, ties to even. *)
Definition in_units (n d e : Z) : Z * Z := if e <? 0 then (n * 2 ^ (- e), d) else (n, d * 2 ^ e).
Definition nearest_even (a b : Z) : Z :=
  let q := a / b in
  let r := a mod b in
  if 2 * r <? b then q else if b <? 2 * r then q + 1 else if Z.even q then q else q + 1.

(** The number of 53 bits nearest to [n / d]. *)
Definition nearest (n d : Z) : Float :=
  let low := Z.log2 n - Z.log2 d - 53 in
  let '(a, b) := in_units n d low in
  let e := if a <? 2 ^ 53 * b then low else low + 1 in
  let '(a, b) := in_units n d e in
  {| mant := nearest_even a b; expo := e |}.

(** [x as f64 / y as f64] and [x as f64 * f]. *)
Definition f64_ratio (x y : Z) : Float := nearest x y.
Definition f64_times (x : Z) (f : Float) : Float :=
  if expo f <? 0 then nearest (x * mant f) (2 ^ (- expo f)) else nearest (x * mant f * 2 ^ expo f) 1.
Definition f64_one : Float := {| mant := 1; expo := 0 |}.

(** [f64::min] and [f64::max]; [f.round() as u32], half away from zero and
    saturating. *)
Definition f64_le (f g : Float) : bool :=
  if expo f <=? expo g then mant f <=? mant g * 2 ^ (expo g - expo f) else mant f * 2 ^ (expo f - expo g) <=? mant g.
Definition f64_min (f g : Float) : Float := if f64_le f g then f else g.
Definition f64_max (f g : Float) : Float := if f64_le f g then g else f.
Definition round_u32 (f : Float) : Z :=
  Z.min (2 ^ 32 - 1) (if expo f <? 0 then (mant f + 2 ^ (- expo f - 1)) / 2 ^ (- expo f) else mant f * 2 ^ expo f).

(** * The resize *)

(** What the code asks of the codecs. *)
Class Codecs := {
  Image : Type;
  img_width : Image → Z;
  img_height : Image → Z;
  decode_as : ImageFormat → string → option Image;
  resize_exact : Image → Z → Z → Image;
  crop_imm : Image → Z → Z → Z → Z → Image;
  encode_png : Image → option string;
  encode_jpeg : Image → Z → option string;
  encode_webp : Image → option string;
}.

(** [struct ResizeRequest], the source aside, and [check_quality]. *)
Record ResizeRequest := {
  r_source : string; r_source_format : ImageFormat; r_width : option Z; r_height : option Z;
  r_mode : ResizeMode; r_format : OutputFormat; r_quality : Z;
}.
Definition check_quality (quality : Z) : result unit := if (1 <=? quality) && (quality <=? 100) then Ok tt else Err Config.

(** [ResizeMode::enlarges]. *)
Definition enlarges (m : ResizeMode) : bool := match m with Contain | Outside | Fill => true | Cover | Inside => false end.

(** [resolve_box]. *)
Definition check_side (value : Z) : result Z := if (value =? 0) || (MAX_PRESET_DIMENSION <? value) then Err Invalid else Ok value.
Definition derived (side : Z) (ratio : Float) : Z := Z.max 1 (round_u32 (f64_times side ratio)).
Definition resolve_box (source_width source_height : Z) (width height : option Z) : result (Z * Z) :=
  match width, height with
  | Some width, Some height => width ← check_side width; height ← check_side height; Ok (width, height)
  | Some width, None => width ← check_side width; Ok (width, derived width (f64_ratio source_height source_width))
  | None, Some height => height ← check_side height; Ok (derived height (f64_ratio source_width source_height), height)
  | None, None => Err Config
  end.

(** [fit], without its last two steps: the size it scales to. *)
Definition scale_of (source_width source_height box_width box_height : Z) (mode : ResizeMode) : Float :=
  let horizontal := f64_ratio box_width source_width in
  let vertical := f64_ratio box_height source_height in
  let scale := match mode with Cover | Outside => f64_max horizontal vertical | _ => f64_min horizontal vertical end in
  if enlarges mode then scale else f64_min scale f64_one.

Section codecs.
Context `{Codecs}.

(** [fit]. *)
Definition fit (source : Image) '((box_width, box_height) : Z * Z) (mode : ResizeMode) : Image :=
  let source_width := img_width source in
  let source_height := img_height source in
  if decide (mode = Fill) then resize_exact source box_width box_height
  else
    let scale := scale_of source_width source_height box_width box_height mode in
    let target_width := derived source_width scale in
    let target_height := derived source_height scale in
    let scaled :=
      if decide ((target_width, target_height) = (source_width, source_height)) then source
      else resize_exact source target_width target_height in
    if decide (mode = Cover) then
      crop_imm scaled (Z.max 0 (target_width - box_width) / 2) (Z.max 0 (target_height - box_height) / 2)
        (Z.min box_width target_width) (Z.min box_height target_height)
    else scaled.

(** [encode]. *)
Definition encode (image : Image) (format : OutputFormat) (quality : Z) : result string :=
  match format with
  | OPng => ok_or (encode_png image) Internal
  | OJpeg => ok_or (encode_jpeg image quality) Internal
  | OWebp => ok_or (encode_webp image) Internal
  | OAvif => Err Unsupported
  end.

(** [resize_local]. *)
Definition resize_local (r : ResizeRequest) : result string :=
  _ ← check_quality (r_quality r);
  decoded ← ok_or (decode_as (r_source_format r) (r_source r)) Invalid;
  box ← resolve_box (img_width decoded) (img_height decoded) (r_width r) (r_height r);
  encode (fit decoded box (r_mode r)) (r_format r) (r_quality r).
End codecs.

(** In a build without codecs. *)
Definition resize_without_codecs (r : ResizeRequest) : result string := Err Config.

(** [ImageService::resize]: what is posted, and what is made of the answer, [Err]
    when the service could not be reached or read. *)
Record ServiceCall := { sc_query : list (string * string); sc_content_type : string; sc_bearer : option string; sc_body : string }.
Definition service_call (token : option string) (r : ResizeRequest) : ServiceCall := {|
  sc_query := match r_width r with Some w => [("width", pretty w)] | None => [] end ++ match r_height r with Some h => [("height", pretty h)] | None => [] end
    ++ [("fit", mode_as_str (r_mode r)); ("format", output_as_str (r_format r)); ("quality", pretty (r_quality r))];
  sc_content_type := content_type (r_source_format r); sc_bearer := token; sc_body := r_source r |}.
Definition service_answer (answer : result (Z * string)) : result string :=
  '(status, body) ← match answer with Ok a => Ok a | Err _ => Err Internal end;
  if negb ((200 <=? status) && (status <? 300)) then Err (if (400 <=? status) && (status <? 500) then Invalid else Internal)
  else if decide (body = "") then Err Internal
  else Ok body.

(** [resize], with the exchange of the service that is configured. *)
Definition resize (local : ResizeRequest → result string) (service : option (option string * (ServiceCall → result (Z * string))))
    (r : ResizeRequest) : result string :=
  _ ← check_quality (r_quality r);
  match service with
  | Some (token, exchange) => service_answer (exchange (service_call token r))
  | None => local r
  end.

(** As the endpoints call it, for a preset. *)
Definition request_of (source : string) (f : ImageFormat) (p : ImagePreset) : ResizeRequest := {|
  r_source := source; r_source_format := f; r_width := p_width p; r_height := p_height p; r_mode := p_mode p; r_format := p_format p; r_quality := p_quality p |}.

(** * What the arithmetic gives *)

(** A number in units of [2 ^ -200], an integer for every one that occurs. *)
Definition val (f : Float) : Z := mant f * 2 ^ (200 + expo f).
Definition normal (f : Float) : Prop := 0 < mant f ∧ -150 <= expo f.
Definition one : Z := 2 ^ 200.
Definition eps : Z := 2 ^ 53.

(** Within half a unit in the last place. *)
Definition close (x y : Z) : Prop := Z.abs (x - y) * eps <= y.

Lemma nearest_even_spec a b : 0 < b → 2 * Z.abs (nearest_even a b * b - a) <= b.
Proof.
  intros B. unfold nearest_even. pose proof (Z.div_mod a b ltac:(lia)) as D. pose proof (Z.mod_pos_bound a b B) as M.
  set (q := a / b) in *. set (r := a mod b) in *. clearbody q r. subst a.
  destruct (2 * r <? b) eqn:E1; [lia|]. destruct (b <? 2 * r) eqn:E2; [|destruct (Z.even q)]; lia.
Qed.

Lemma in_units_spec n d e a b : 0 < n → 0 < d → -200 <= e → in_units n d e = (a, b) →
  0 < b ∧ a * (2 ^ (200 + e) * d) = n * one * b.
Proof.
  intros N D E. unfold in_units, one. destruct (e <? 0) eqn:S; intros [= <- <-].
  - split; [done|]. assert (2 ^ 200 = 2 ^ (- e) * 2 ^ (200 + e)) as -> by (rewrite <-Z.pow_add_r by lia; f_equal; lia). ring.
  - split; [apply Z.mul_pos_pos; [done|apply Z.pow_pos_nonneg; lia]|]. rewrite Z.pow_add_r by lia. ring.
Qed.

(** The nearest number is as near as 53 bits allow. *)
Lemma nearest_close n d : 0 < n → 0 < d → Z.log2 d <= 90 →
  normal (nearest n d) ∧ close (val (nearest n d) * d) (n * one).
Proof.
  intros N D LD. unfold nearest. set (low := Z.log2 n - Z.log2 d - 53).
  pose proof (Z.log2_spec n N) as [N1 _]. pose proof (Z.log2_spec d D) as [_ D2]. pose proof (Z.log2_nonneg n) as N0. pose proof (Z.log2_nonneg d) as D0.
  assert (-143 <= low) as Low by lia.
  destruct (in_units n d low) as [a0 b0] eqn:U0. destruct (in_units_spec n d low a0 b0) as [B0 E0]; [lia..|done|].
  set (e := if a0 <? eps * b0 then low else low + 1). fold eps. fold e.
  assert (low <= e) as Le by (subst e; destruct (a0 <? eps * b0); lia).
  destruct (in_units n d e) as [a b] eqn:U. destruct (in_units_spec n d e a b) as [B E]; [lia..|done|].
  set (P := 2 ^ (200 + e) * d) in *. assert (0 < P) as P0 by (apply Z.mul_pos_pos; [apply Z.pow_pos_nonneg; lia|done]).
  assert (2 ^ 52 * P <= n * one) as Big.
  { assert (2 ^ 53 * (2 ^ (200 + low) * d) < 2 * (n * one)) as Small.
    { assert (2 ^ 53 * 2 ^ (200 + low) * 2 ^ Z.succ (Z.log2 d) = 2 * (2 ^ Z.log2 n * one)) as Q.
      { unfold one. rewrite <-!Z.pow_add_r by lia. rewrite <-Z.pow_succ_r by lia. f_equal. lia. }
      assert (0 < 2 ^ 53 * 2 ^ (200 + low)) as X by (rewrite <-Z.pow_add_r by lia; apply Z.pow_pos_nonneg; lia).
      set (x := 2 ^ 53 * 2 ^ (200 + low)) in *. rewrite Z.mul_assoc. fold x. assert (0 < one) by done. nia. }
    subst P e. destruct (a0 <? eps * b0) eqn:C; [lia|].
    replace (200 + (low + 1)) with (Z.succ (200 + low)) by lia. rewrite Z.pow_succ_r by lia.
    apply Z.ltb_ge in C. assert (eps * (2 ^ (200 + low) * d) <= n * one); [|unfold eps in *; lia].
    apply (Zmult_le_reg_r _ _ b0); [lia|]. rewrite <-E0.
    assert (0 <= 2 ^ (200 + low) * d) by (apply Z.mul_nonneg_nonneg; [apply Z.pow_nonneg|]; lia). nia. }
  pose proof (nearest_even_spec a b B) as H. set (m := nearest_even a b) in *.
  assert (Z.abs (m * P - n * one) * eps <= n * one) as Cl.
  { assert (2 * Z.abs (m * P - n * one) <= P) as H2; [|unfold eps; lia].
    apply (Zmult_le_reg_r _ _ b); [lia|]. assert ((m * P - n * one) * b = P * (m * b - a)) as Q by (rewrite Z.mul_sub_distr_r, <-E; ring).
    assert (Z.abs (m * P - n * one) * b = P * Z.abs (m * b - a)) as Q2.
    { rewrite <-(Z.abs_eq b) at 1 by lia. rewrite <-Z.abs_mul, Q, Z.abs_mul. by rewrite (Z.abs_eq P) by lia. }
    nia. }
  split; [split; cbn|].
  - assert (0 < one) by done. assert (0 < m * P) by (unfold eps in Cl; nia). nia.
  - lia.
  - unfold close, val. cbn. subst P. by rewrite Z.mul_assoc in Cl.
Qed.

(** A side of an image or of a box. *)
Definition side (x : Z) : Prop := 1 <= x < 2 ^ 32.

Lemma ratio_close x y : side x → side y →
  normal (f64_ratio x y) ∧ -90 <= expo (f64_ratio x y) <= 0 ∧ close (val (f64_ratio x y) * y) (x * one).
Proof.
  intros X Y. assert (Z.log2 y < 32) by (apply Z.log2_lt_pow2; unfold side in *; lia). unfold side in *.
  destruct (nearest_close x y) as [N C]; [lia..|]. refine (conj N (conj _ C)).
  assert (Z.log2 x < 32) by (apply Z.log2_lt_pow2; lia). pose proof (Z.log2_nonneg y). pose proof (Z.log2_nonneg x).
  unfold f64_ratio, nearest. destruct (in_units _ _ (Z.log2 x - Z.log2 y - 53)) as [a b].
  destruct (a <? 2 ^ 53 * b); destruct (in_units x y _); cbn; lia.
Qed.

Lemma val_pos f : normal f → 0 < val f.
Proof. intros [M E]. apply Z.mul_pos_pos; [done|apply Z.pow_pos_nonneg; lia]. Qed.

Lemma times_close x f : side x → normal f → -90 <= expo f <= 0 →
  normal (f64_times x f) ∧ close (val (f64_times x f)) (x * val f).
Proof.
  intros X [M _] E. unfold side in X. unfold f64_times. destruct (expo f <? 0) eqn:S.
  - apply Z.ltb_lt in S. assert (0 < 2 ^ (- expo f)) as P by (apply Z.pow_pos_nonneg; lia).
    destruct (nearest_close (x * mant f) (2 ^ (- expo f))) as [N C]; [nia|done|rewrite Z.log2_pow2 by lia; lia|]. split; [done|].
    unfold close in *. assert (x * mant f * one = x * val f * 2 ^ (- expo f)) as Q.
    { unfold val, one. assert (2 ^ 200 = 2 ^ (200 + expo f) * 2 ^ (- expo f)) as -> by (rewrite <-Z.pow_add_r by lia; f_equal; lia). ring. }
    rewrite Q, <-Z.mul_sub_distr_r, Z.abs_mul, (Z.abs_eq (2 ^ _)) in C by lia. nia.
  - assert (expo f = 0) as E0 by (apply Z.ltb_ge in S; lia).
    destruct (nearest_close (x * mant f * 2 ^ expo f) 1) as [N C]; [rewrite E0, Z.pow_0_r; nia|done|done|]. split; [done|].
    unfold close in *. rewrite Z.mul_1_r in C. assert (x * mant f * 2 ^ expo f * one = x * val f) as Q; [|by rewrite Q in C].
    unfold val. rewrite E0, Z.pow_0_r. unfold one. change (200 + 0) with 200. ring.
Qed.

Lemma round_val f : normal f → round_u32 f = Z.min (2 ^ 32 - 1) ((2 * val f + one) / (2 * one)).
Proof.
  intros [M E]. unfold round_u32. f_equal. unfold val, one. destruct (expo f <? 0) eqn:S.
  - apply Z.ltb_lt in S. set (k := 2 ^ (201 + expo f)). assert (0 < k) as K by (apply Z.pow_pos_nonneg; lia).
    assert (2 * 2 ^ 200 = 2 ^ (- expo f) * k) as ->.
    { unfold k. rewrite <-Z.pow_add_r by lia. rewrite <-(Z.pow_succ_r 2 200) by lia. f_equal. lia. }
    assert (2 * (mant f * 2 ^ (200 + expo f)) = mant f * k) as ->.
    { unfold k. replace (201 + expo f) with (Z.succ (200 + expo f)) by lia. rewrite Z.pow_succ_r by lia. ring. }
    assert (2 ^ 200 = 2 ^ (- expo f - 1) * k) as ->.
    { unfold k. rewrite <-Z.pow_add_r by lia. f_equal. lia. }
    rewrite <-Z.mul_add_distr_r, Z.div_mul_cancel_r; [done| |lia]. apply Z.pow_nonzero; lia.
  - apply Z.ltb_ge in S. rewrite Z.pow_add_r by lia.
    apply (Z.div_unique _ _ _ (2 ^ 200)); [left; done|]. ring.
Qed.

Lemma f64_le_val f g : normal f → normal g → f64_le f g = true ↔ val f <= val g.
Proof.
  intros [Mf Ef] [Mg Eg]. unfold f64_le, val. destruct (expo f <=? expo g) eqn:S.
  - apply Z.leb_le in S. rewrite Z.leb_le. replace (200 + expo g) with ((expo g - expo f) + (200 + expo f)) by lia.
    rewrite (Z.pow_add_r 2 (expo g - expo f)) by lia. assert (0 < 2 ^ (200 + expo f)) by (apply Z.pow_pos_nonneg; lia).
    rewrite Z.mul_assoc. by rewrite <-Z.mul_le_mono_pos_r.
  - apply Z.leb_gt in S. rewrite Z.leb_le. replace (200 + expo f) with ((expo f - expo g) + (200 + expo g)) by lia.
    rewrite (Z.pow_add_r 2 (expo f - expo g)) by lia. assert (0 < 2 ^ (200 + expo g)) by (apply Z.pow_pos_nonneg; lia).
    rewrite Z.mul_assoc. by rewrite <-Z.mul_le_mono_pos_r.
Qed.

Lemma f64_min_spec f g : normal f → normal g → (f64_min f g = f ∨ f64_min f g = g) ∧ val (f64_min f g) = Z.min (val f) (val g).
Proof.
  intros F G. unfold f64_min. pose proof (f64_le_val f g F G) as L. destruct (f64_le f g); [split; [by left|]|split; [by right|]].
  - assert (val f <= val g) by (by apply L). lia.
  - assert (¬ val f <= val g) by (intros X; by apply L in X). lia.
Qed.
Lemma f64_max_spec f g : normal f → normal g → (f64_max f g = f ∨ f64_max f g = g) ∧ val (f64_max f g) = Z.max (val f) (val g).
Proof.
  intros F G. unfold f64_max. pose proof (f64_le_val f g F G) as L. destruct (f64_le f g); [split; [by right|]|split; [by left|]].
  - assert (val f <= val g) by (by apply L). lia.
  - assert (¬ val f <= val g) by (intros X; by apply L in X). lia.
Qed.

(** ** The sides it gives *)

(** A factor as the code computes them. *)
Definition factor (f : Float) : Prop := normal f ∧ -90 <= expo f <= 0.

Lemma derived_bounds x f : side x → factor f →
  ∃ v, close v (x * val f) ∧ derived x f = Z.max 1 (Z.min (2 ^ 32 - 1) ((2 * v + one) / (2 * one))).
Proof.
  intros X [N E]. destruct (times_close x f X N E) as [N2 C]. exists (val (f64_times x f)). split; [done|]. unfold derived. by rewrite round_val.
Qed.
Lemma derived_le x f b : side x → factor f → side b → x * val f * eps <= b * one * (eps + 1) → derived x f <= b.
Proof.
  intros X F B L. destruct (derived_bounds x f X F) as (v & C & ->). unfold close, side in *. set (y := x * val f) in *. clearbody y.
  assert ((2 * v + one) / (2 * one) < b + 1); [|lia]. apply Z.div_lt_upper_bound; [done|]. change one with (2 ^ 200) in *. unfold eps in *. lia.
Qed.
Lemma derived_ge x f b : side x → factor f → side b → b * one * (eps - 1) <= x * val f * eps → b <= derived x f.
Proof.
  intros X F B L. destruct (derived_bounds x f X F) as (v & C & ->). unfold close, side in *. set (y := x * val f) in *. clearbody y.
  assert (b <= (2 * v + one) / (2 * one)); [|lia]. apply Z.div_le_lower_bound; [done|]. unfold one, eps in *. lia.
Qed.
Lemma derived_near x f : side x → factor f → x * val f <= 2 ^ 31 * one →
  1 <= derived x f ∧ Z.abs (derived x f * one - x * val f) < one.
Proof.
  intros X F L. destruct (derived_bounds x f X F) as (v & C & ->). destruct F as [N _]. pose proof (val_pos f N). unfold close, side in *.
  assert (0 < x * val f) by nia. set (y := x * val f) in *. clearbody y. split; [lia|].
  pose proof (Z.div_mod (2 * v + one) (2 * one) ltac:(done)) as D. pose proof (Z.mod_pos_bound (2 * v + one) (2 * one) ltac:(done)) as M.
  set (q := (2 * v + one) / (2 * one)) in *. clearbody q. set (r := (2 * v + one) mod (2 * one)) in *. clearbody r. unfold one, eps in *. lia.
Qed.

(** ** Every mode *)

(** The size of the result for a source of [sw] by [sh] and a box of [bw] by
    [bh]. *)
Definition same_shape (sw sh w h : Z) : Prop := Z.abs (w * sh - h * sw) < sw + sh.
Definition fits (mode : ResizeMode) (sw sh bw bh w h : Z) : Prop :=
  match mode with
  | Fill => w = bw ∧ h = bh
  | Cover => w = Z.min sw bw ∧ h = Z.min sh bh
  | Contain => w <= bw ∧ h <= bh ∧ (w = bw ∨ h = bh) ∧ same_shape sw sh w h
  | Inside => w <= Z.min sw bw ∧ h <= Z.min sh bh ∧ (w = Z.min sw bw ∨ h = Z.min sh bh) ∧ same_shape sw sh w h
  | Outside => bw <= w ∧ bh <= h ∧ (w = bw ∨ h = bh) ∧ same_shape sw sh w h
  end.

Lemma factor_one : factor f64_one ∧ val f64_one = one.
Proof. by vm_compute. Qed.

Section sizes.
Context (sw sh bw bh : Z) (SW : side sw) (SH : side sh) (BW : side bw) (BH : side bh).
Abbreviation horizontal := (f64_ratio bw sw).
Abbreviation vertical := (f64_ratio bh sh).

Lemma factor_min f g : factor f → factor g → factor (f64_min f g) ∧ val (f64_min f g) = Z.min (val f) (val g).
Proof. intros F G. destruct (f64_min_spec f g) as [[E|E] V]; [apply F|apply G| |]; rewrite V, ?E; by split. Qed.
Lemma factor_max f g : factor f → factor g → factor (f64_max f g) ∧ val (f64_max f g) = Z.max (val f) (val g).
Proof. intros F G. destruct (f64_max_spec f g) as [[E|E] V]; [apply F|apply G| |]; rewrite V, ?E; by split. Qed.

Lemma factors : factor horizontal ∧ factor vertical ∧ close (sw * val horizontal) (bw * one) ∧ close (sh * val vertical) (bh * one).
Proof.
  destruct (ratio_close bw sw) as (N1 & E1 & C1); [done..|]. destruct (ratio_close bh sh) as (N2 & E2 & C2); [done..|].
  rewrite Z.mul_comm in C1, C2. by split_and!.
Qed.

Lemma shape f : factor f → sw * val f <= 2 ^ 31 * one → sh * val f <= 2 ^ 31 * one → same_shape sw sh (derived sw f) (derived sh f).
Proof.
  intros F L1 L2. destruct (derived_near sw f SW F L1) as [_ D1]. destruct (derived_near sh f SH F L2) as [_ D2].
  unfold same_shape, side in *. set (w := derived sw f) in *. set (h := derived sh f) in *. clearbody w h.
  assert ((w * sh - h * sw) * one = (w * one - sw * val f) * sh - (h * one - sh * val f) * sw) as E by ring.
  assert (Z.abs (w * sh - h * sw) * one < (sw + sh) * one); [|assert (0 < one) by done; nia].
  assert (Z.abs (w * sh - h * sw) * one = Z.abs ((w * sh - h * sw) * one)) as -> by (rewrite Z.abs_mul; by rewrite (Z.abs_eq one)).
  rewrite E. set (x := w * one - sw * val f) in *. set (y := h * one - sh * val f) in *. clearbody x y.
  assert (Z.abs (x * sh - y * sw) <= Z.abs x * sh + Z.abs y * sw); [|nia].
  rewrite <-(Z.abs_eq sh) at 2 by lia. rewrite <-(Z.abs_eq sw) at 2 by lia. rewrite <-!Z.abs_mul. lia.
Qed.

(** A factor under the smaller or over the larger of the two. *)
Lemma shrunk f : factor f → val f <= Z.min (val horizontal) (val vertical) → derived sw f <= bw ∧ derived sh f <= bh.
Proof.
  intros F L. destruct factors as (_ & _ & C1 & C2). unfold close, side in *. split; apply derived_le; try done;
    [assert (sw * val f <= sw * val horizontal) by nia|assert (sh * val f <= sh * val vertical) by nia]; unfold eps in *; lia.
Qed.
Lemma grown f : factor f → Z.max (val horizontal) (val vertical) <= val f → bw <= derived sw f ∧ bh <= derived sh f.
Proof.
  intros F L. destruct factors as (_ & _ & C1 & C2). unfold close, side in *. split; apply derived_ge; try done;
    [assert (sw * val horizontal <= sw * val f) by nia|assert (sh * val vertical <= sh * val f) by nia]; unfold eps in *; lia.
Qed.
Lemma touches f : factor f → val f = val horizontal ∨ val f = val vertical → derived sw f = bw ∨ derived sh f = bh.
Proof.
  intros F V. destruct factors as (_ & _ & C1 & C2). unfold close in *.
  destruct V as [V|V]; [left|right]; apply Z.le_antisymm;
    first [apply derived_le|apply derived_ge]; try done; rewrite V; unfold eps in *; lia.
Qed.
Lemma unscaled f x : factor f → val f = one → side x → derived x f = x.
Proof.
  intros F V X. unfold side in X. apply Z.le_antisymm; [apply derived_le|apply derived_ge]; try done; rewrite V; unfold one, eps; lia.
Qed.

(** The factors differ by no more than the sides do. *)
Lemma horizontal_one : val horizontal <= one → bw <= sw.
Proof. destruct factors as (_ & _ & C & _). unfold close, side, one, eps in *. intros L. assert (sw * val horizontal <= sw * 2 ^ 200) by nia. lia. Qed.
Lemma horizontal_more : one < val horizontal → sw <= bw.
Proof. destruct factors as (_ & _ & C & _). unfold close, side, one, eps in *. intros L. assert (sw * 2 ^ 200 <= sw * val horizontal) by nia. lia. Qed.
Lemma vertical_one : val vertical <= one → bh <= sh.
Proof. destruct factors as (_ & _ & _ & C). unfold close, side, one, eps in *. intros L. assert (sh * val vertical <= sh * 2 ^ 200) by nia. lia. Qed.
Lemma vertical_more : one < val vertical → sh <= bh.
Proof. destruct factors as (_ & _ & _ & C). unfold close, side, one, eps in *. intros L. assert (sh * 2 ^ 200 <= sh * val vertical) by nia. lia. Qed.

(** Sides whose ratios stay in 32 bits. *)
Definition moderate : Prop := sw <= 2 ^ 30 ∧ sh <= 2 ^ 30 ∧ bw <= 2 ^ 30 ∧ bh <= 2 ^ 30 ∧ sw * bh <= 2 ^ 30 * sh ∧ sh * bw <= 2 ^ 30 * sw.
Context (Mod : moderate).

Lemma shape_max f : factor f → val f = Z.max (val horizontal) (val vertical) → same_shape sw sh (derived sw f) (derived sh f).
Proof.
  intros F V. destruct factors as (_ & _ & C1 & C2). destruct Mod as (A & B & C & D & E1 & E2).
  assert (sw * val vertical * sh <= 2 ^ 31 * one * sh) as X1 by (unfold close, side, one, eps in *; nia).
  assert (sh * val horizontal * sw <= 2 ^ 31 * one * sw) as X2 by (unfold close, side, one, eps in *; nia).
  assert (sw * val vertical <= 2 ^ 31 * one) by (unfold side in *; nia). assert (sh * val horizontal <= 2 ^ 31 * one) by (unfold side in *; nia).
  unfold close, side, eps in *. apply shape; [done|..]; rewrite V; unfold one in *; destruct (Z.max_spec (val horizontal) (val vertical)) as [[_ ->]|[_ ->]]; lia.
Qed.
Lemma shape_min f : factor f → val f <= Z.min (val horizontal) (val vertical) → same_shape sw sh (derived sw f) (derived sh f).
Proof.
  intros F V. destruct factors as (_ & _ & C1 & C2). destruct Mod as (A & B & C & D & _). unfold close, side, eps, one in *.
  apply shape; [done|assert (sw * val f <= sw * val horizontal) by nia|assert (sh * val f <= sh * val vertical) by nia]; unfold one; lia.
Qed.
Lemma shape_one f : factor f → val f = one → same_shape sw sh (derived sw f) (derived sh f).
Proof. intros F V. rewrite !unscaled by done. unfold same_shape, side in *. lia. Qed.

Lemma scaled_fits mode f : f = scale_of sw sh bw bh mode → mode ≠ Fill →
  fits mode sw sh bw bh (if decide (mode = Cover) then Z.min bw (derived sw f) else derived sw f)
    (if decide (mode = Cover) then Z.min bh (derived sh f) else derived sh f).
Proof.
  intros -> NF. destruct factors as (F1 & F2 & _). destruct (factor_min _ _ F1 F2) as [Fmin Vmin]. destruct (factor_max _ _ F1 F2) as [Fmax Vmax].
  destruct factor_one as [Fone Vone].
  pose proof horizontal_one as H1. pose proof horizontal_more as H2. pose proof vertical_one as V1. pose proof vertical_more as V2.
  destruct mode; try done; unfold scale_of; cbn [enlarges].
  - rewrite !decide_True by done. destruct (factor_min _ _ Fmax Fone) as [F V]. set (f := f64_min (f64_max _ _) _) in *.
    destruct (decide (Z.max (val horizontal) (val vertical) <= one)) as [L|L].
    + destruct (grown f F) as [G1 G2]; [lia|]. cbn. lia.
    + rewrite !(unscaled f) by (done || lia). cbn. lia.
  - rewrite !decide_False by done. set (f := f64_min _ _) in *. destruct (shrunk f Fmin) as [S1 S2]; [lia|].
    split_and!; [done|done|apply touches; [done|lia]|apply shape_min; [done|lia]].
  - rewrite !decide_False by done. destruct (factor_min _ _ Fmin Fone) as [F V]. set (f := f64_min (f64_min _ _) _) in *.
    destruct (decide (Z.min (val horizontal) (val vertical) <= one)) as [L|L].
    + destruct (shrunk f F) as [S1 S2]; [lia|].
      assert (derived sw f <= sw) by (apply derived_le; [done..|]; unfold side, one, eps in *; nia).
      assert (derived sh f <= sh) by (apply derived_le; [done..|]; unfold side, one, eps in *; nia).
      destruct (touches f F); [lia|cbn; split_and!; [lia..|left; lia|apply shape_min; [done|lia]]|cbn; split_and!; [lia..|right; lia|apply shape_min; [done|lia]]].
    + rewrite !(unscaled f) by (done || lia). cbn. split_and!; [lia..|left; lia|]. unfold same_shape, side in *. lia.
  - rewrite !decide_False by done. set (f := f64_max _ _) in *. destruct (grown f Fmax) as [G1 G2]; [lia|].
    split_and!; [done|done|apply touches; [done|lia]|by apply shape_max].
Qed.
End sizes.

(** * The box and the result *)

(** The box of a request: its sides as they are asked for, a side that is left
    out as the source has it, to within a pixel. *)
Definition asked (x : Z) : Prop := 1 <= x <= MAX_PRESET_DIMENSION.
Definition box_for (width height : option Z) (sw sh bw bh : Z) : Prop :=
  match width, height with
  | Some w, Some h => asked w ∧ asked h ∧ bw = w ∧ bh = h
  | Some w, None => asked w ∧ bw = w ∧ 1 <= bh ∧ Z.abs (bh * sw - w * sh) <= sw
  | None, Some h => asked h ∧ bh = h ∧ 1 <= bw ∧ Z.abs (bw * sh - h * sw) <= sh
  | None, None => False
  end.

Lemma check_side_Ok v x : 0 <= v → check_side v = Ok x → x = v ∧ asked v.
Proof.
  unfold check_side, asked. intros P. destruct (v =? 0) eqn:E1; [done|]. destruct (MAX_PRESET_DIMENSION <? v) eqn:E2; [done|]. intros [= <-].
  apply Z.eqb_neq in E1. apply Z.ltb_ge in E2. split; [done|]. lia.
Qed.

Lemma derived_side w x y : asked w → 1 <= x <= 65535 → 1 <= y <= 65535 →
  1 <= derived w (f64_ratio x y) ∧ Z.abs (derived w (f64_ratio x y) * y - w * x) <= y.
Proof.
  unfold asked, MAX_PRESET_DIMENSION. intros W X Y. assert (side x ∧ side y ∧ side w) as (SX & SY & SW) by (unfold side; lia).
  destruct (ratio_close x y SX SY) as (N & E & C). pose proof (val_pos _ N) as VP. set (f := f64_ratio x y) in *. set (u := val f) in *.
  assert (w * u * y <= 2 ^ 31 * one * y) by (unfold close, one, eps in *; nia).
  destruct (derived_near w f) as [P D]; [done|by split|fold u; nia|]. fold u in D. split; [done|]. set (t := derived w f) in *. clearbody t u.
  assert ((t * y - w * x) * one = (t * one - w * u) * y + w * (u * y - x * one)) as Q by ring.
  assert (Z.abs (t * y - w * x) * one <= Z.abs (t * one - w * u) * y + w * Z.abs (u * y - x * one)) as T.
  { assert (Z.abs (t * y - w * x) * one = Z.abs ((t * y - w * x) * one)) as -> by (rewrite Z.abs_mul; by rewrite (Z.abs_eq one)).
    rewrite Q. pose proof (Z.abs_triangle ((t * one - w * u) * y) (w * (u * y - x * one))) as Tri.
    rewrite !Z.abs_mul, (Z.abs_eq y), (Z.abs_eq w) in Tri by lia. exact Tri. }
  unfold close in C. set (a := Z.abs (t * one - w * u)) in *. set (b := Z.abs (u * y - x * one)) in *. clearbody a b.
  assert (w * b * eps <= w * x * one) by nia. assert (w * x <= 8192 * 65535) by nia. assert (a * y <= (one - 1) * y) by nia.
  set (wb := w * b) in *. set (ay := a * y) in *. set (wx := w * x) in *. clearbody wb ay wx. unfold one, eps in *. lia.
Qed.

Lemma resolve_box_spec sw sh width height bw bh : 1 <= sw <= 65535 → 1 <= sh <= 65535 →
  (∀ w, width = Some w → 0 <= w) → (∀ h, height = Some h → 0 <= h) →
  resolve_box sw sh width height = Ok (bw, bh) → box_for width height sw sh bw bh ∧ side bw ∧ side bh ∧ moderate sw sh bw bh.
Proof.
  intros SW SH PW PH. unfold resolve_box, side, moderate. destruct width as [w|], height as [h|]; [| | |done]; intros R.
  - apply bind_Ok in R as (w' & [-> W]%check_side_Ok & R); [|by apply PW]. apply bind_Ok in R as (h' & [-> H]%check_side_Ok & R); [|by apply PH].
    injection R as <- <-. unfold box_for, asked, MAX_PRESET_DIMENSION in *. split_and!; try done; try lia; nia.
  - apply bind_Ok in R as (w' & [-> W]%check_side_Ok & R); [|by apply PW]. injection R as <- <-.
    destruct (derived_side w sh sw W SH SW) as [P D]. set (t := derived w _) in *. clearbody t.
    unfold box_for, asked, MAX_PRESET_DIMENSION in *. split_and!; try done; try lia; nia.
  - apply bind_Ok in R as (h' & [-> W]%check_side_Ok & R); [|by apply PH]. injection R as <- <-.
    destruct (derived_side h sw sh W SW SH) as [P D]. set (t := derived h _) in *. clearbody t.
    unfold box_for, asked, MAX_PRESET_DIMENSION in *. split_and!; try done; try lia; nia.
Qed.

(** What the codecs are documented to do. *)
Section result.
Context `{Codecs}.
Record codec_laws : Prop := {
  decoded_sides f s i : decode_as f s = Some i → 1 <= img_width i ∧ 1 <= img_height i;
  resized_sides i w h : side w → side h → img_width (resize_exact i w h) = w ∧ img_height (resize_exact i w h) = h;
  cropped_sides i x y w h : 0 <= x → 0 <= y → 1 <= w → 1 <= h → x + w <= img_width i → y + h <= img_height i →
    img_width (crop_imm i x y w h) = w ∧ img_height (crop_imm i x y w h) = h;
}.

Lemma derived_range x f : 1 <= derived x f < 2 ^ 32.
Proof. unfold derived, round_u32. lia. Qed.

Lemma fit_sides i bw bh mode : codec_laws → side (img_width i) → side (img_height i) → side bw → side bh → moderate (img_width i) (img_height i) bw bh →
  fits mode (img_width i) (img_height i) bw bh (img_width (fit i (bw, bh) mode)) (img_height (fit i (bw, bh) mode))
  ∧ 1 <= img_width (fit i (bw, bh) mode) ∧ 1 <= img_height (fit i (bw, bh) mode).
Proof.
  intros L SW SH BW BH Mod. unfold fit. destruct (decide (mode = Fill)) as [->|NF].
  { destruct (resized_sides L i bw bh BW BH) as [-> ->]. unfold side in *. split; [by split|lia]. }
  cbv zeta. set (f := scale_of _ _ _ _ _). pose proof (derived_range (img_width i) f) as RW. pose proof (derived_range (img_height i) f) as RH.
  pose proof (scaled_fits _ _ _ _ SW SH BW BH Mod mode f eq_refl NF) as F.
  set (tw := derived (img_width i) f) in *. set (th := derived (img_height i) f) in *. clearbody tw th f.
  set (s := if decide ((tw, th) = _) then i else _).
  assert (img_width s = tw ∧ img_height s = th) as [W T].
  { subst s. destruct (decide ((tw, th) = _)) as [E|]; [by injection E|]. by apply (resized_sides L). }
  clearbody s. unfold side in *. destruct (decide (mode = Cover)); [|rewrite W, T; split; [exact F|lia]].
  pose proof (Z.div_mod (Z.max 0 (tw - bw)) 2 ltac:(done)) as DX. pose proof (Z.mod_pos_bound (Z.max 0 (tw - bw)) 2 ltac:(done)) as MX.
  pose proof (Z.div_mod (Z.max 0 (th - bh)) 2 ltac:(done)) as DY. pose proof (Z.mod_pos_bound (Z.max 0 (th - bh)) 2 ltac:(done)) as MY.
  destruct (cropped_sides L s (Z.max 0 (tw - bw) / 2) (Z.max 0 (th - bh) / 2) (Z.min bw tw) (Z.min bh th)) as [-> ->]; [lia..|].
  split; [exact F|lia].
Qed.
End result.

(** C38. A thumbnail that is made has the size its preset and its source give:
    the box is the sides that are asked for, one that is left out being the
    source's to within a pixel; [fill] is the box, [cover] the part of the box
    the source has, [contain] lies in the box and touches it, [inside] does and
    never enlarges, [outside] holds the box and touches it, the shape kept to
    within a pixel a side whatever the arithmetic rounds. Its quality is in range
    and it is never encoded as AVIF. *)
Theorem thumbnails_fit_their_preset `{Codecs} (r : ResizeRequest) (bytes : string) :
  codec_laws → (∀ w, r_width r = Some w → 0 <= w) → (∀ h, r_height r = Some h → 0 <= h) → resize_local r = Ok bytes →
  1 <= r_quality r <= 100 ∧ r_format r ≠ OAvif ∧ ∃ source out bw bh,
    decode_as (r_source_format r) (r_source r) = Some source ∧ encode out (r_format r) (r_quality r) = Ok bytes
    ∧ (img_width source <= 65535 → img_height source <= 65535 →
         box_for (r_width r) (r_height r) (img_width source) (img_height source) bw bh
         ∧ fits (r_mode r) (img_width source) (img_height source) bw bh (img_width out) (img_height out)
         ∧ 1 <= img_width out ∧ 1 <= img_height out).
Proof.
  intros L PW PH R. unfold resize_local in R. apply bind_Ok in R as ([] & Q & R). apply bind_Ok in R as (source & D & R). rewrite ok_or_Ok in D.
  apply bind_Ok in R as ([bw bh] & B & R). split.
  { unfold check_quality in Q. destruct (1 <=? r_quality r) eqn:E1; [|done]. destruct (r_quality r <=? 100) eqn:E2; [|done]. lia. }
  split; [by intros E; rewrite E in R|]. exists source, (fit source (bw, bh) (r_mode r)), bw, bh. split_and!; [done..|]. intros W T.
  destruct (decoded_sides L _ _ _ D) as [W1 T1].
  destruct (resolve_box_spec (img_width source) (img_height source) (r_width r) (r_height r) bw bh) as (X & SW & SH & M); [lia..|done|done|done|].
  split; [done|]. by apply fit_sides; [..|unfold side; lia|unfold side; lia| | |].
Qed.

(** * Witness *)

#[local] Instance plain_codecs : Codecs := {
  Image := Z * Z; img_width := fst; img_height := snd; decode_as _ s := if decide (s = "photo") then Some (400, 200) else None;
  resize_exact _ w h := (w, h); crop_imm _ _ _ w h := (w, h);
  encode_png i := Some (pretty i.1 +:+ "x" +:+ pretty i.2); encode_jpeg _ _ := None; encode_webp i := Some (pretty i.1 +:+ "x" +:+ pretty i.2) }.
Lemma plain_laws : codec_laws.
Proof. split; [|done..]. cbn. intros f s i. destruct (decide _); [|done]. by intros [= <-]. Qed.
Definition sample_request (mode : ResizeMode) (width height : option Z) : ResizeRequest := {|
  r_source := "photo"; r_source_format := Png; r_width := width; r_height := height; r_mode := mode; r_format := OWebp; r_quality := 80 |}.

Lemma thumbnails_fit_their_preset_witness :
  resize_local (sample_request Cover (Some 150) (Some 150)) = Ok "150x150" ∧ resize_local (sample_request Inside (Some 300) None) = Ok "300x150"
  ∧ resize_local (sample_request Contain (Some 150) (Some 90)) = Ok "150x75"
  ∧ ∃ out, encode out OWebp 80 = Ok "150x75" ∧ img_width out <= 150 ∧ img_height out <= 90.
Proof.
  split; [vm_compute; reflexivity|]. split; [vm_compute; reflexivity|].
  assert (resize_local (sample_request Contain (Some 150) (Some 90)) = Ok "150x75") as R by (vm_compute; reflexivity). split; [exact R|].
  destruct (thumbnails_fit_their_preset (sample_request Contain (Some 150) (Some 90)) "150x75" plain_laws) as (_ & _ & source & out & bw & bh & D & E & F);
    [by intros w [= <-]|by intros h [= <-]|exact R|].
  exists out. split; [exact E|]. injection D as <-. destruct F as ((_ & _ & -> & ->) & (W & T & _) & _); [done..|]. by split.
Defined.

(** The side that is left out has no bound, and neither has the long side of
    [outside]. *)
Example thumbnails_may_be_huge :
  resolve_box 1 8192 (Some 8192) None = Ok (8192, 67108864)
  ∧ (let f := scale_of 1 8192 320 320 Outside in (derived 1 f, derived 8192 f)) = (320, 2621440).
Proof. by vm_compute. Qed.
