(* ===== verification/Logs.v ===== *)
(** Request logs, [crates/api/src/logs.rs], with the address of a caller that
    they and the rate limits record, [crates/api/src/client.rs].

    The recorder is a function of the request and of the handler it stands in
    front of; the endpoints are programs ([Effects]). *)
From Stdlib Require SpecFloat.
From S2P Require Import Prelude CoreError F64 Json Ddl Sql Net Rls Principal Effects History ImageCheck FileKeys Mail Handlers FilesApi Hooks CollectionsApi Collections Emails StorageConfig S3 Settings Samples.

Local Set Warnings "-register-all,-clear-no-such-hyp".

(** * The address of a caller *)

(** [HeaderMap::get]: the first value of a name; [HeaderValue::to_str]. *)
Abbreviation Headers := (list (string * string)).
Definition visible (c : ascii) : bool := bool_decide (c = "009"%char) || ((32 <=? byte_of c)%N && (byte_of c <? 127)%N).
Definition to_str (value : string) : option string := if str_forall visible value then Some value else None.
Definition header_string (headers : Headers) (name : string) : option string := assoc name headers ≫= to_str.

(** [forwarded] and [address]. *)
Definition chain_of (raw : string) : list IpAddr := omap (λ entry, parse_ip (trim entry)) (rev (split_on "," raw)).
Definition forwarded (headers : Headers) : list IpAddr :=
  match (match assoc "x-forwarded-for" headers with Some v => Some v | None => assoc "x-real-ip" headers end) ≫= to_str with
  | Some raw => chain_of raw
  | None => []
  end.
Definition address (trusted : list TrustedNet) (peer : option IpAddr) (headers : Headers) : option IpAddr :=
  peer ← peer;
  if negb (proxies_contain trusted peer) then Some peer
  else Some (default peer (head (filter (λ a, proxies_contain trusted a = false) (forwarded headers)))).

(** * The recorder *)

Definition MAX_BODY_BYTES : N := 64 * 1024.
Definition SENSITIVE_KEYS : list string :=
  ["password"; "passwordconfirm"; "password_confirm"; "oldpassword"; "newpassword"; "token"; "verificationtoken"; "resettoken"; "secret"; "apikey"; "api_key"].

(** [redact]. *)
Definition is_sensitive (key : string) : bool := bool_decide (to_ascii_lowercase key ∈ SENSITIVE_KEYS).
Fixpoint redact (value : Value) : Value :=
  match value with
  | JObject map_ => JObject (map (λ '(key, value), (key, if is_sensitive key then JString "[REDACTED]" else redact value)) map_)
  | JArray items => JArray (map redact items)
  | other => other
  end.

(** A body: its bytes, its size when that is known beforehand, and whether it can
    be read to its end; [to_bytes]. *)
Record Body := { b_bytes : string; b_size : option N; b_readable : bool }.
Definition whole (bytes : string) : Body := {| b_bytes := bytes; b_size := Some (size_of bytes); b_readable := true |}.
Definition to_bytes (b : Body) (limit : N) : option string := if b_readable b && (size_of (b_bytes b) <=? limit)%N then Some (b_bytes b) else None.
Record Response := { rs_status : Z; rs_body : Body }.

(** [capturable_body], [collection_from_path]. *)
Definition capturable_body (method : string) (headers : Headers) (b : Body) : bool :=
  bool_decide (method ∈ ["POST"; "PATCH"; "PUT"])
  && match header_string headers "content-type" with Some v => starts_with "application/json" v | None => false end
  && match b_size b with Some n => (n <=? MAX_BODY_BYTES)%N | None => false end.
Definition collection_from_path (path : string) : option string :=
  match split_on "/" (trim_start_matches "/" path) with
  | "api" :: "collections" :: collection :: _ => if decide (collection = "") then None else Some collection
  | _ => None
  end.

(** [struct Recorded]; a request, with the address of its caller. *)
Record Recorded := {
  rc_method : string; rc_path : string; rc_status : Z; rc_duration : f64; rc_ip : option string; rc_user_agent : option string;
  rc_referer : option string; rc_collection : option string; rc_error : option string; rc_body : option string;
}.
Record LoggedRequest := { rq_method : string; rq_path : string; rq_headers : Headers; rq_ip : option string; rq_body : Body }.

Section recorder.
Context `{JsonText} (parse_json : string → option Value).

(** [redacted_json], [capture_error]. *)
Definition redacted_json (bytes : string) : option string := v ← parse_json bytes; Some (json_text (redact v)).
Definition error_message (bytes : string) : option string :=
  value ← parse_json bytes;
  message ← (match get value "message" with Some m => Some m | None => get value "error" end);
  as_str message.
Definition capture_error (r : Response) : Response * option string :=
  if negb ((400 <=? rs_status r) && (rs_status r <? 600))%Z then (r, None)
  else
    match to_bytes (rs_body r) MAX_BODY_BYTES with
    | Some bytes => ({| rs_status := rs_status r; rs_body := whole bytes |}, error_message bytes)
    | None => ({| rs_status := rs_status r; rs_body := whole "" |}, None)
    end.

(** [record]: the response, and the entry that is written apart. *)
Definition is_recorded (path : string) : bool := starts_with "/api/" path && negb (bool_decide (path = "/api/health")).
Definition too_large : Response := {| rs_status := 413; rs_body := whole "the request body is larger than the log recorder buffers" |}.
Definition record (duration : f64) (next : Body → Response) (r : LoggedRequest) : Response * option Recorded :=
  if negb (is_recorded (rq_path r)) then (next (rq_body r), None)
  else
    let run (b : Body) (request_body : option string) :=
      let response := next b in
      let '(answer, error) := capture_error response in
      (answer, Some {| rc_method := rq_method r; rc_path := rq_path r; rc_status := rs_status response; rc_duration := duration; rc_ip := rq_ip r;
                       rc_user_agent := header_string (rq_headers r) "user-agent"; rc_referer := header_string (rq_headers r) "referer";
                       rc_collection := collection_from_path (rq_path r); rc_error := error; rc_body := request_body |}) in
    if capturable_body (rq_method r) (rq_headers r) (rq_body r) then
      match to_bytes (rq_body r) (MAX_BODY_BYTES + 1) with
      | Some bytes => run (whole bytes) (redacted_json bytes)
      | None => (too_large, None)
      end
    else run (rq_body r) None.
End recorder.

(** [insert]: nothing that fails there is anyone's. *)
Definition INSERT_LOG_SQL : string :=
  "insert into _logs (method, path, status, duration_ms, ip, user_agent, referer, collection, error, body) values ($1, $2, $3, $4, $5, $6, $7, $8, $9, $10)".
Definition log_params (e : Recorded) : Params :=
  [PText (Some (rc_method e)); PText (Some (rc_path e)); PNumber (rc_status e); PJson (JNumber (Float (rc_duration e))); PText (rc_ip e);
   PText (rc_user_agent e); PText (rc_referer e); PText (rc_collection e); PText (rc_error e); PText (rc_body e)].
Definition insert_log (e : Recorded) : prog unit :=
  pbind (ask OClient) (λ client,
    match client with
    | Done _ => pbind (db (OExecute INSERT_LOG_SQL (log_params e))) (λ _, Ret tt)
    | Failed _ => Ret tt
    end).

(** * Reading *)

(** [enum StatusFilter] and [status_condition]. *)
Inductive StatusFilter := Exact (code : Z) | Range (low high : Z).
Definition digit (c : ascii) : Z := Z.of_N (byte_of c) - 48.
Definition status_condition (raw : string) : option StatusFilter :=
  match trim raw with
  | String a (String b (String c EmptyString)) =>
      if is_ascii_digit a && bool_decide (b = "x"%char) && bool_decide (c = "x"%char) then Some (Range (digit a * 100) (digit a * 100 + 100))
      else if is_ascii_digit a && is_ascii_digit b && is_ascii_digit c then Some (Exact (digit a * 100 + digit b * 10 + digit c))
      else None
  | _ => None
  end.

(** [struct ListQuery] and the statement of [list]. *)
Record ListQuery := { lq_page : option Z; lq_per_page : option Z; lq_collection : option string; lq_status : option string; lq_order : option string }.
Definition placeholder (n : nat) : string := "$" +:+ pretty (Z.of_nat n).
Definition by_collection (q : ListQuery) : list string * Params :=
  match lq_collection q with
  | Some c => if decide (c = "") then ([], []) else (["collection = " +:+ placeholder 1], [PText (Some c)])
  | None => ([], [])
  end.
Definition by_status (q : ListQuery) (st : list string * Params) : list string * Params :=
  match lq_status q ≫= status_condition with
  | None => st
  | Some (Exact code) => (st.1 ++ ["status = " +:+ placeholder (length st.2 + 1)], st.2 ++ [PNumber code])
  | Some (Range low high) =>
      (st.1 ++ ["status >= " +:+ placeholder (length st.2 + 1) +:+ " and status < " +:+ placeholder (length st.2 + 2)], st.2 ++ [PNumber low; PNumber high])
  end.
Definition log_conditions (q : ListQuery) : list string * Params := by_status q (by_collection q).
Definition log_where (conditions : list string) : string := if decide (conditions = []) then "" else " where " +:+ join " and " conditions.
Definition iso_text (column as_ : string) : string :=
  "to_char(" +:+ column +:+ " at time zone 'UTC', 'YYYY-MM-DD" +:+ Ddl.dq +:+ "T" +:+ Ddl.dq +:+ "HH24:MI:SS.MS" +:+ Ddl.dq +:+ "Z" +:+ Ddl.dq +:+ "') as " +:+ as_.
Definition LOG_COLUMNS : string :=
  "select id, method, path, status, duration_ms as duration, ip, user_agent, referer, collection, error, body, " +:+ iso_text "created" "created_at" +:+ " from _logs".
Definition log_order (q : ListQuery) : string := if decide (lq_order q = Some "asc") then "asc" else "desc".
Definition count_logs_sql (q : ListQuery) : string := "select count(*) from _logs" +:+ log_where (log_conditions q).1.
Definition list_logs_sql (q : ListQuery) : string :=
  let '(conditions, args) := log_conditions q in
  LOG_COLUMNS +:+ log_where conditions +:+ " order by created " +:+ log_order q +:+ ", id " +:+ log_order q
  +:+ " limit " +:+ placeholder (length args + 1) +:+ " offset " +:+ placeholder (length args + 2).

(** [log_json]. *)
Record LogRow := {
  lr_id : Z; lr_method : option string; lr_path : option string; lr_status : option Z; lr_duration : option f64; lr_ip : option string;
  lr_user_agent : option string; lr_referer : option string; lr_collection : option string; lr_error : option string; lr_body : option string;
  lr_created_at : option string;
}.
Definition text_or_null (t : option string) : Value := match t with Some t => JString t | None => JNull end.
Definition log_json (r : LogRow) : Value := JObject [
  ("body", text_or_null (lr_body r)); ("collection", text_or_null (lr_collection r)); ("created_at", text_or_null (lr_created_at r));
  ("duration", match lr_duration r with Some d => JNumber (Float d) | None => JNull end); ("error", text_or_null (lr_error r));
  ("id", number (lr_id r)); ("ip", text_or_null (lr_ip r)); ("method", text_or_null (lr_method r)); ("path", text_or_null (lr_path r));
  ("referer", text_or_null (lr_referer r)); ("status", match lr_status r with Some n => number n | None => JNull end); ("user_agent", text_or_null (lr_user_agent r))].

(** [list], [show], [collections]. *)
Definition log_page (q : ListQuery) : Z := Z.max 1 (default 1%Z (lq_page q)).
Definition log_per_page (q : ListQuery) : Z := Z.max 1 (Z.min 200 (default 50%Z (lq_per_page q))).
Definition list_logs (p : Principal) (q : ListQuery) : W Value :=
  lift (require_superuser p) ≫= λ _,
  ask OClient ≫= λ _,
  let args := (log_conditions q).2 in
  query_one Z (count_logs_sql q) args ≫= λ total,
  db (ORows LogRow (list_logs_sql q) (args ++ [PNumber (log_per_page q); PNumber (wrap_i64 ((log_page q - 1) * log_per_page q))])) ≫= λ rows,
  give (JObject [("items", JArray (log_json <$> rows)); ("page", number (log_page q)); ("perPage", number (log_per_page q));
                 ("totalItems", number total); ("totalPages", number (Z.max 1 (Z.quot (total + log_per_page q - 1) (log_per_page q))))]).
Definition SHOW_LOG_SQL : string := LOG_COLUMNS +:+ " where id = $1".
Definition show_log (p : Principal) (id : Z) : W Value :=
  lift (require_superuser p) ≫= λ _,
  ask OClient ≫= λ _,
  query_opt (A:=LogRow) SHOW_LOG_SQL [PNumber id] ≫= λ row,
  lift (ok_or row NotFound) ≫= λ row,
  give (log_json row).
Definition log_collections (p : Principal) : W Value :=
  lift (require_superuser p) ≫= λ _,
  ask OClient ≫= λ _,
  db (ORows string "select distinct collection from _logs where collection is not null order by collection" []) ≫= λ items,
  give (JObject [("items", JArray (JString <$> items))]).

(** [stats_window] and [stats]. *)
Definition stats_window (range : option string) : string * string * string :=
  if decide (range = Some "7d") then ("7d", "7 days", "6 hours")
  else if decide (range = Some "30d") then ("30d", "30 days", "1 day")
  else ("24h", "24 hours", "1 hour").
Definition series_sql (interval bucket : string) : string :=
  "with buckets as ( select date_bin(interval '" +:+ bucket +:+ "', gs, timestamptz '2000-01-01') as t from generate_series( date_bin(interval '"
  +:+ bucket +:+ "', now(), timestamptz '2000-01-01') - interval '" +:+ interval +:+ "', now(), interval '" +:+ bucket
  +:+ "' ) as gs ), agg as ( select date_bin(interval '" +:+ bucket
  +:+ "', created, timestamptz '2000-01-01') as t, count(*) as total, count(*) filter (where status >= 400) as errors, avg(duration_ms) as avg_duration from _logs where created > now() - interval '"
  +:+ interval +:+ "' group by t ) select to_char(b.t at time zone 'UTC', 'YYYY-MM-DD" +:+ Ddl.dq +:+ "T" +:+ Ddl.dq +:+ "HH24:MI:SS" +:+ Ddl.dq +:+ "Z" +:+ Ddl.dq
  +:+ "') as date, coalesce(a.total, 0) as total, coalesce(a.errors, 0) as errors, coalesce(a.avg_duration, 0) as avg_duration from buckets b left join agg a on a.t = b.t order by b.t".
Definition average_sql (interval : string) : string :=
  "select coalesce(avg(duration_ms), 0) from _logs where created > now() - interval '" +:+ interval +:+ "'".
Record SeriesRow := { sr_date : string; sr_total : Z; sr_errors : Z; sr_avg_duration : f64 }.
Definition series_json (r : SeriesRow) : Value := JObject [
  ("avg_duration", JNumber (Float (sr_avg_duration r))); ("date", JString (sr_date r)); ("errors", number (sr_errors r)); ("total", number (sr_total r))].
Definition stats (p : Principal) (range : option string) : W Value :=
  lift (require_superuser p) ≫= λ _,
  ask OClient ≫= λ _,
  let '(range, interval, bucket) := stats_window range in
  query_one Z "select count(*) from _logs" [] ≫= λ total,
  db (ORows SeriesRow (series_sql interval bucket) []) ≫= λ series,
  query_one f64 (average_sql interval) [] ≫= λ average,
  give (JObject [("range", JString range); ("series", JArray (series_json <$> series));
    ("summary", JObject [("avg_duration", JNumber (Float average)); ("errors", number (wrap_i64 (foldr (λ r n, sr_errors r + n) 0 series)));
                         ("requests", number (wrap_i64 (foldr (λ r n, sr_total r + n) 0 series)))]);
    ("total", number total)])%Z.

(** * Retention *)

Definition RETENTION_KEY : string := "logs".
Definition positive_days (days : option Z) : option Z := n ← days; if decide (0 < n)%Z then Some n else None.
Definition retention_days : W (option Z) :=
  query_opt (A:=Value) SETTING_SQL [PText (Some RETENTION_KEY)] ≫= λ row,
  give (positive_days (value ← row; days ← get value "retention_days"; StorageConfig.as_i64 days)).
Definition days_json (days : option Z) : Value := match days with Some n => number n | None => JNull end.
Definition get_retention (p : Principal) : W Value :=
  lift (require_superuser p) ≫= λ _, ask OClient ≫= λ _, retention_days ≫= λ days, give (JObject [("days", days_json days)]).
Definition set_retention (p : Principal) (days : option Z) : W Value :=
  lift (require_superuser p) ≫= λ _,
  ask OClient ≫= λ _,
  let days := positive_days days in
  db (OExecute UPSERT_SETTING_SQL [PText (Some RETENTION_KEY); PJson (JObject [("retention_days", days_json days)])]) ≫= λ _,
  give (JObject [("days", days_json days)]).

(** [delete]; [days as i32]. *)
Definition as_i32 (n : Z) : Z := ((n + 2 ^ 31) mod 2 ^ 32 - 2 ^ 31)%Z.
Definition DELETE_LOGS_SQL : string := "delete from _logs".
Definition DELETE_OLD_LOGS_SQL : string := "delete from _logs where created < now() - make_interval(days => $1::int)".
Definition delete_logs (p : Principal) (all_ days : option string) : W Value :=
  lift (require_superuser p) ≫= λ _,
  ask OClient ≫= λ _,
  if decide (all_ = Some "true") then
    db (OExecute DELETE_LOGS_SQL []) ≫= λ _, give (JObject [("all", JBool true); ("ok", JBool true)])
  else
    (match days with
     | None => retention_days ≫= λ kept, give (match kept with Some n => Some n | None => Some 7%Z end)
     | Some raw => give (positive_days (StorageConfig.parse_i64 (trim raw)))
     end) ≫= λ days,
    match days with
    | None => give (JObject [("days", JNull); ("deleted", number 0); ("ok", JBool true)])
    | Some days =>
        db (OExecute DELETE_OLD_LOGS_SQL [PNumber (as_i32 days)]) ≫= λ deleted,
        give (JObject [("days", number days); ("deleted", number deleted); ("ok", JBool true)])
    end.

(** * Who a caller is *)

Lemma split_on_again c s t : split_on c (s +:+ String c t) = split_on c s ++ split_on c t.
Proof.
  induction s as [|a s IH]; cbn.
  { change ("" +:+ ?x) with x. cbn. by rewrite decide_True. }
  rewrite str_app_cons. cbn. rewrite IH. destruct (decide (a = c)); [done|].
  destruct (split_on c s) as [|p ps] eqn:E; [by apply split_on_nonempty in E|done].
Qed.
Lemma chain_of_app forged told : chain_of (forged +:+ "," +:+ told) = chain_of told ++ chain_of forged.
Proof. unfold chain_of. change ("," +:+ told) with (String "," told). by rewrite split_on_again, rev_app_distr, omap_app. Qed.

Lemma address_answers trusted peer headers : ∃ a, address trusted (Some peer) headers = Some a
  ∧ (a = peer ∨ (a ∈ forwarded headers ∧ proxies_contain trusted a = false)).
Proof.
  unfold address. cbn [mbind option_bind]. destruct (proxies_contain trusted peer); cbn; [|eauto]. destruct (filter _ _) as [|x l] eqn:F; cbn; [eauto|].
  exists x. split; [done|]. right. assert (x ∈ filter (λ a, proxies_contain trusted a = false) (forwarded headers)) as X by (rewrite F; by left).
  apply list_elem_of_filter in X. tauto.
Qed.

(** C39. A caller cannot name itself. Without a proxy that is trusted its headers
    are not read. Behind one that lengthens the line of the forwarding header it
    was given by a part that names an address that is not itself a trusted
    proxy's, the answer does not depend on which bytes the caller wrote before
    that part, but for one thing: it is what the part alone gives, or, when the
    caller wrote a byte that is not visible ASCII, the address of the connection,
    which is the proxy's. So it is never an address the caller wrote and the
    proxy did not. In any case the answer is the peer or an address, of the one
    line that is read, no trusted proxy has. *)
Theorem caller_cannot_name_itself (trusted : list TrustedNet) (peer : IpAddr) (headers : Headers) :
  (proxies_contain trusted peer = false → address trusted (Some peer) headers = Some peer)
  ∧ (∀ forged told a, assoc "x-forwarded-for" headers = Some (forged +:+ "," +:+ told) → str_forall visible told = true →
       a ∈ chain_of told → proxies_contain trusted a = false →
       address trusted (Some peer) headers
       = (if str_forall visible forged then address trusted (Some peer) [("x-forwarded-for", told)] else Some peer)
       ∧ ∃ b, address trusted (Some peer) headers = Some b ∧ (b = peer ∨ (b ∈ chain_of told ∧ proxies_contain trusted b = false)))
  ∧ (∃ a, address trusted (Some peer) headers = Some a ∧ (a = peer ∨ (a ∈ forwarded headers ∧ proxies_contain trusted a = false))).
Proof.
  split; [unfold address; cbn [mbind option_bind]; by intros ->|]. split; [|apply address_answers].
  intros forged told a H V I U.
  assert (address trusted (Some peer) headers
          = if str_forall visible forged then address trusted (Some peer) [("x-forwarded-for", told)] else Some peer) as E.
  { unfold address. cbn [mbind option_bind]. destruct (negb _); [by destruct (str_forall visible forged)|]. unfold forwarded. rewrite H. cbn.
    unfold to_str. rewrite !str_forall_app, V. rewrite decide_True by done. cbn [mbind option_bind]. rewrite V.
    destruct (str_forall visible forged); [|done]. change (true && (str_forall visible "," && true)) with true. do 2 f_equal. rewrite chain_of_app, filter_app.
    destruct (filter _ (chain_of told)) as [|x l] eqn:F; [|done]. exfalso.
    assert (a ∈ filter (λ a, proxies_contain trusted a = false) (chain_of told)) as X by (by apply list_elem_of_filter). rewrite F in X. by apply not_elem_of_nil in X. }
  split; [exact E|]. rewrite E. destruct (str_forall visible forged); [|eauto].
  destruct (address_answers trusted peer [("x-forwarded-for", told)]) as (b & Eb & [->|[Ib Ub]]); [eauto|]. exists b. split; [done|]. right.
  split; [|done]. unfold forwarded in Ib. change (assoc "x-forwarded-for" [("x-forwarded-for", told)]) with (Some told) in Ib.
  cbn [mbind option_bind] in Ib. unfold to_str in Ib. by rewrite V in Ib.
Qed.

Definition sample_proxies : list TrustedNet := default [] (proxies_parse "10.0.0.0/8").
Definition ip (s : string) : IpAddr := default (V4 0) (parse_ip s).
Lemma caller_cannot_name_itself_witness :
  address sample_proxies (Some (ip "10.0.0.1")) [("x-forwarded-for", "6.6.6.6, 1.2.3.4, 10.0.0.7")] = Some (ip "1.2.3.4")
  ∧ address sample_proxies (Some (ip "8.8.8.8")) [("x-forwarded-for", "6.6.6.6")] = Some (ip "8.8.8.8").
Proof.
  split.
  - assert (chain_of " 1.2.3.4, 10.0.0.7" = [ip "10.0.0.7"; ip "1.2.3.4"]) as C by (vm_compute; reflexivity).
    rewrite (proj1 (proj1 (proj2 (caller_cannot_name_itself sample_proxies (ip "10.0.0.1") [("x-forwarded-for", "6.6.6.6, 1.2.3.4, 10.0.0.7")]))
      "6.6.6.6" " 1.2.3.4, 10.0.0.7" (ip "1.2.3.4") eq_refl eq_refl ltac:(rewrite C; right; left) ltac:(vm_compute; reflexivity))).
    vm_compute. reflexivity.
  - apply (proj1 (caller_cannot_name_itself sample_proxies (ip "8.8.8.8") [("x-forwarded-for", "6.6.6.6")])). vm_compute. reflexivity.
Defined.

(** A proxy that adds a line of its own after the caller's is not heard; and a
    byte that is not visible ASCII hides a caller behind its proxy. *)
Example second_header_line_is_not_read :
  address sample_proxies (Some (ip "10.0.0.1")) [("x-forwarded-for", "6.6.6.6"); ("x-forwarded-for", "1.2.3.4")] = Some (ip "6.6.6.6").
Proof. by vm_compute. Qed.
Example one_byte_hides_the_caller :
  address sample_proxies (Some (ip "10.0.0.1")) [("x-forwarded-for", String "255"%char ", 1.2.3.4")] = Some (ip "10.0.0.1").
Proof. by vm_compute. Qed.

(** * What is recorded *)

(** An entry of an object, anywhere in a value, below no entry that is
    sensitive. *)
Inductive entry_of : Value → string → Value → Prop :=
  | entry_here l key w : (key, w) ∈ l → entry_of (JObject l) key w
  | entry_below l k v key w : (k, v) ∈ l → is_sensitive k = false → entry_of v key w → entry_of (JObject l) key w
  | entry_item l v key w : v ∈ l → entry_of v key w → entry_of (JArray l) key w.

Lemma entry_object l key w :
  entry_of (JObject l) key w ↔ (key, w) ∈ l ∨ ∃ k v, (k, v) ∈ l ∧ is_sensitive k = false ∧ entry_of v key w.
Proof. split; [intros E; inversion E; subst; [by left|right; eauto 6]|]. intros [I|(k & v & I & S & E)]; [by constructor|by eapply entry_below]. Qed.
Lemma entry_array l key w : entry_of (JArray l) key w ↔ ∃ v, v ∈ l ∧ entry_of v key w.
Proof. split; [intros E; inversion E; subst; eauto|]. intros (v & I & E). by econstructor. Qed.
Lemma entry_scalar v key w : match v with JObject _ | JArray _ => False | _ => True end → ¬ entry_of v key w.
Proof. intros S E. by destruct E. Qed.

(** Every entry stays, and is redacted or hidden as a whole. *)
Definition redacted_entry (key : string) (w : Value) : Value := if is_sensitive key then JString "[REDACTED]" else redact w.
Lemma redact_entries v key u : entry_of (redact v) key u ↔ ∃ w, entry_of v key w ∧ u = redacted_entry key w.
Proof.
  revert key u. induction v as [| | | |l IH|l IH] using nested_value_ind; intros key u; cbn [redact];
    try (split; [by intros E%entry_scalar|by intros (w & E%entry_scalar & _)]).
  - rewrite entry_array. setoid_rewrite entry_array. rewrite Forall_forall in IH. split.
    + intros (v' & (v & <- & I)%list_elem_of_In%in_map_iff & E). apply list_elem_of_In in I. apply (IH v I) in E as (w & E & ->). eauto.
    + intros (w & (v & I & E) & ->). exists (redact v). split; [apply list_elem_of_In, in_map, list_elem_of_In, I|]. apply (IH v I). eauto.
  - rewrite entry_object. setoid_rewrite entry_object. rewrite Forall_forall in IH. split.
    + intros [I|(k & v' & I & S & E)].
      * apply list_elem_of_In, in_map_iff in I as ([k w] & [= <- <-] & I). apply list_elem_of_In in I. exists w. split; [by left|done].
      * apply list_elem_of_In, in_map_iff in I as ([k' v] & [= -> <-] & I). rewrite S in E. apply list_elem_of_In in I.
        apply (IH _ I) in E as (w & E & ->). exists w. split; [right; eauto 6|done].
    + intros (w & [I|(k & v & I & S & E)] & ->).
      * left. apply list_elem_of_In, in_map_iff. exists (key, w). split; [done|]. by apply list_elem_of_In.
      * right. exists k, (redact v). split; [|split; [done|apply (IH _ I); eauto]].
        apply list_elem_of_In, in_map_iff. exists (k, v). split; [by rewrite S|]. by apply list_elem_of_In.
Qed.

Lemma capture_error_spec `{JsonText} parse_json r a error : capture_error parse_json r = (a, error) →
  rs_status a = rs_status r ∧ (b_bytes (rs_body a) = b_bytes (rs_body r)
    ∨ (400 <= rs_status r < 600)%Z ∧ to_bytes (rs_body r) MAX_BODY_BYTES = None ∧ b_bytes (rs_body a) = "").
Proof.
  unfold capture_error. destruct ((400 <=? _)%Z && _) eqn:E; cbn [negb]; [|intros [= <- <-]; split; [done|by left]].
  destruct (to_bytes _ _) as [bytes|] eqn:T; intros [= <- <-]; (split; [done|]); [left|right; split; [lia|done]].
  unfold to_bytes in T. destruct (b_readable _ && _); by simplify_eq.
Qed.

(** What the recorder writes and what it leaves alone. Nothing but requests
    to the API is recorded. The handler is given the bytes that were sent, and
    its answer goes out with its status and its bytes, or, of an error whose body
    cannot be buffered, with its status. The body of an entry is that of a small
    JSON write, every entry of its objects there, in its place: those under a
    sensitive key as the mark, the others unchanged but for what is sensitive
    below them. *)
Theorem recorded_bodies_are_redacted `{JsonText} (parse_json : string → option Value) (duration : f64) (next : Body → Response) (r : LoggedRequest)
    (answer : Response) (entry : option Recorded) :
  (∀ n, b_size (rq_body r) = Some n → n = size_of (b_bytes (rq_body r))) → record parse_json duration next r = (answer, entry) →
  (is_recorded (rq_path r) = false → answer = next (rq_body r) ∧ entry = None)
  ∧ (entry = None → is_recorded (rq_path r) = true → answer = too_large ∧ b_readable (rq_body r) = false)
  ∧ ∀ e, entry = Some e →
      is_recorded (rq_path r) = true ∧ rc_path e = rq_path r ∧ rc_ip e = rq_ip r
      ∧ ∃ given, b_bytes given = b_bytes (rq_body r) ∧ (b_readable (rq_body r) = true → b_readable given = true)
        ∧ rc_status e = rs_status (next given) ∧ rs_status answer = rs_status (next given)
        ∧ (b_bytes (rs_body answer) = b_bytes (rs_body (next given))
           ∨ (400 <= rs_status (next given) < 600)%Z ∧ to_bytes (rs_body (next given)) MAX_BODY_BYTES = None ∧ b_bytes (rs_body answer) = "")
        ∧ ∀ text, rc_body e = Some text →
            rq_method r ∈ ["POST"; "PATCH"; "PUT"] ∧ (size_of (b_bytes (rq_body r)) <= MAX_BODY_BYTES)%N
            ∧ ∃ v, parse_json (b_bytes (rq_body r)) = Some v ∧ text = json_text (redact v)
              ∧ ∀ key u, entry_of (redact v) key u ↔ ∃ w, entry_of v key w ∧ u = if is_sensitive key then JString "[REDACTED]" else redact w.
Proof.
  intros Size R. unfold record in R. destruct (is_recorded (rq_path r)); cbn [negb] in R.
  2:{ injection R as <- <-. by split_and!. }
  split; [done|].
  pose proof (capture_error_spec parse_json) as Cap.
  destruct (capturable_body _ _ _) eqn:C.
  - unfold capturable_body in C. apply andb_prop in C as [C Small]. apply andb_prop in C as [M _]. apply bool_decide_eq_true in M.
    destruct (b_size (rq_body r)) as [n|]; [|done]. specialize (Size n eq_refl). subst n. apply N.leb_le in Small.
    unfold to_bytes in R. assert ((size_of (b_bytes (rq_body r)) <=? MAX_BODY_BYTES + 1)%N = true) as L by (apply N.leb_le; lia). rewrite L, andb_true_r in R.
    destruct (b_readable (rq_body r)) eqn:Rd; [|injection R as <- <-; by split_and!].
    destruct (capture_error _ _) as [a error] eqn:Ce. apply Cap in Ce as [S B]. injection R as <- <-. split; [done|]. intros e [= <-]. cbn.
    split_and!; [done..|]. exists (whole (b_bytes (rq_body r))). split_and!; [done..|]. intros text T. unfold redacted_json in T.
    destruct (parse_json _) as [v|] eqn:Pv; [|done]. injection T as <-. split_and!; [done..|]. exists v. split_and!; [done..|]. apply redact_entries.
  - destruct (capture_error _ _) as [a error] eqn:Ce. apply Cap in Ce as [S B]. injection R as <- <-. split; [done|]. intros e [= <-]. cbn.
    split_and!; [done..|]. exists (rq_body r). by split_and!.
Qed.

#[local] Existing Instance Samples.sample_json_text.
Definition sample_body : Value := JObject [("email", JString "a@b.c"); ("nested", JObject [("passwordConfirm", JString "x")]); ("password", JString "hunter2")].
Definition sample_login : LoggedRequest := {|
  rq_method := "POST"; rq_path := "/api/collections/users/auth-with-password"; rq_headers := [("content-type", "application/json")]; rq_ip := Some "1.2.3.4";
  rq_body := whole "the login" |}.
Definition read_sample (bytes : string) : option Value := if decide (bytes = "the login") then Some sample_body else None.
Definition accepts (b : Body) : Response := {| rs_status := 200; rs_body := whole ("answer to " +:+ b_bytes b) |}.

Lemma recorded_bodies_are_redacted_witness : ∃ answer entry,
  record read_sample (SpecFloat.S754_zero false) accepts sample_login = (answer, Some entry)
  ∧ b_bytes (rs_body answer) = "answer to the login" ∧ rc_collection entry = Some "users" ∧ rc_body entry = Some (json_text (redact sample_body))
  ∧ ∀ u, entry_of (redact sample_body) "passwordConfirm" u → u = JString "[REDACTED]".
Proof.
  assert (∃ answer entry, record read_sample (SpecFloat.S754_zero false) accepts sample_login = (answer, Some entry)
    ∧ b_bytes (rs_body answer) = "answer to the login" ∧ rc_collection entry = Some "users" ∧ rc_body entry = Some (json_text (redact sample_body)))
    as (answer & entry & R & B & C & T).
  { eexists _, _. split; [vm_compute; reflexivity|]. split_and!; vm_compute; reflexivity. }
  exists answer, entry. split_and!; [done..|]. intros u E.
  destruct (recorded_bodies_are_redacted read_sample (SpecFloat.S754_zero false) accepts sample_login answer (Some entry)) as (_ & _ & P); [by intros n [= <-]|exact R|].
  destruct (P entry eq_refl) as (_ & _ & _ & given & _ & _ & _ & _ & _ & Q). destruct (Q _ T) as (_ & _ & v & Pv & _ & I).
  assert (Some sample_body = Some v) as [= <-] by exact Pv. apply I in E as (w & _ & ->). reflexivity.
Defined.

(** Keys that hold credentials and are not in the list. *)
Example refresh_tokens_are_recorded :
  redact (JObject [("client_secret", JString "s"); ("refreshToken", JString "t"); ("secret_access_key", JString "k")])
  = JObject [("client_secret", JString "s"); ("refreshToken", JString "t"); ("secret_access_key", JString "k")].
Proof. by vm_compute. Qed.

(** The number of days is cut to 32 bits. *)
Example days_are_cut : as_i32 2147483648 = (-2147483648)%Z ∧ as_i32 4294967297 = 1%Z.
Proof. by vm_compute. Qed.

(** The statement of a listing holds nothing of the request: it depends on which
    filters there are. *)
Lemma list_sql_is_fixed q q' :
  (lq_collection q ≠ None ∧ lq_collection q ≠ Some "" ↔ lq_collection q' ≠ None ∧ lq_collection q' ≠ Some "") →
  match lq_status q ≫= status_condition, lq_status q' ≫= status_condition with
  | None, None | Some (Exact _), Some (Exact _) | Some (Range _ _), Some (Range _ _) => True | _, _ => False end →
  log_order q = log_order q' → list_logs_sql q = list_logs_sql q' ∧ count_logs_sql q = count_logs_sql q'.
Proof.
  intros C S O.
  assert ((log_conditions q).1 = (log_conditions q').1 ∧ length (log_conditions q).2 = length (log_conditions q').2) as [E L].
  { unfold log_conditions, by_status, by_collection. destruct (lq_collection q) as [c|], (lq_collection q') as [c'|];
      repeat match goal with |- context [decide (?a = ?b)] => destruct (decide (a = b)) end; subst; cbn; try naive_solver;
      destruct (lq_status q ≫= status_condition) as [[]|], (lq_status q' ≫= status_condition) as [[]|]; try done; naive_solver. }
  unfold list_logs_sql, count_logs_sql. destruct (log_conditions q) as [a b], (log_conditions q') as [a' b']. cbn in *. subst a'. by rewrite O, L.
Qed.
