(* ===== verification/BackupApi.v ===== *)
(** Backups over HTTP, [crates/api/src/backup.rs]: the exports, the import with
    its checkpoint, and the rollback.

    The handlers are programs ([Effects]) over the interface to the schema of
    Backup.v, which that file implements by Collections.v. A password is checked
    by the authentication service, whose flow Accounts.v models; here it is a
    program that succeeds or not. The reader of the container and the decoders
    of texts are parameters, as in Backup.v. *)
From S2P Require Import Prelude CoreError Json Types Ddl Sql Rls Principal Effects History FileKeys FileRules FilesApi Mail Net Handlers Hooks Collections CollectionsApi Emails Backup BackupProps Settings Samples.

Local Set Warnings "-register-all,-clear-no-such-hyp".

Definition CONFIRM_VARIABLE : string := "LAZYPOCK_IMPORT_CONFIRM_RECORDS".
Definition DELETE_SNAPSHOTS_SQL : string := "delete from _import_snapshots".
Definition INSERT_SNAPSHOT_SQL : string := "insert into _import_snapshots (id, payload) values ($1, $2)".
Definition LATEST_SNAPSHOT_SQL : string := "select payload from _import_snapshots order by created_at desc, id desc limit 1".
Definition SNAPSHOT_STATUS_SQL : string :=
  "select " +:+ utc_text "created_at" "created_at" +:+ " from _import_snapshots order by created_at desc, id desc limit 1".
Definition FIND_SUPERUSER_SQL : string :=
  "select id, email, password_hash, token_key, created, updated from _superusers where id = $1::text".

(** [confirm_threshold]. *)
Definition confirm_threshold (env : string → option string) : result Z :=
  match env CONFIRM_VARIABLE with None => Ok 10000%Z | Some raw => ok_or (parse_uint (2 ^ 64) (trim raw)) Config end.

(** [is_true]. *)
Definition is_true (value : string) : bool := bool_decide (trim value ∈ ["true"; "1"; "yes"; "on"]).

(** What an import is asked for: the archive, the text of its mode, whether it
    is confirmed and whether it removes, and an option that is ignored. *)
Record ImportRequest := { iq_archive : Archive; iq_atomic : string; iq_confirm : bool; iq_delete_missing : bool; iq_ignored : option string }.

(** The forms of a request: a document, or the parts of a form with each text or
    file as it could be read. *)
Inductive ImportForm := JsonForm (body : result Value) | MultipartForm (parts : list (result FilesApi.Part)).
Definition not_null (v : option Value) : option Value := match v with Some JNull => None | v => v end.
Definition optional_bool (v : option Value) : result bool :=
  match v with None | Some JNull => Ok false | Some v => ok_or (as_bool v) Invalid end.

(** What is kept of the parts of a form so far. *)
Record Form := { fo_file : option string; fo_atomic : string; fo_confirm : bool; fo_delete_missing : bool; fo_ignored : option string }.
Definition no_form : Form := {| fo_file := None; fo_atomic := ""; fo_confirm := false; fo_delete_missing := false; fo_ignored := None |}.

Section backup.
Context `{SchemaOps} (env : string → option string) (server now : string).
Context (unzip : string → result (list (string * string))) (parse_json : string → option Value) (reason : string → string).
Context (authenticate_superuser : string → string → W unit).

(** [struct JsonImport] and the first branch of [import]. *)
Definition json_request (body : result Value) : result ImportRequest :=
  body ← body;
  l ← struct_fields ["collections"; "atomic"; "confirm"; "deleteMissing"; "password"] body;
  confirm ← optional_bool (assoc "confirm" l);
  delete_missing ← optional_bool (assoc "deleteMissing" l);
  password ← match not_null (assoc "password" l) with None => Ok None | Some v => _ ← ok_or (as_str v) Invalid; Ok (Some "password") end;
  collections ← ok_or (not_null (assoc "collections" l)) Invalid;
  archive ← archive_from_payload server now collections;
  atomic ← match not_null (assoc "atomic" l) with
           | None | Some (JBool false) => Ok ""
           | Some (JString value) => Ok value
           | Some (JBool true) => Ok "batch"
           | Some _ => Err Invalid
           end;
  Ok {| iq_archive := archive; iq_atomic := atomic; iq_confirm := confirm; iq_delete_missing := delete_missing; iq_ignored := password |}.

(** [parse_multipart]. *)
Definition as_refused {A} (r : result A) : result A := match r with Ok a => Ok a | Err _ => Err Invalid end.
Definition form_part (f : Form) (p : FilesApi.Part) : result Form :=
  let name := default "" (FilesApi.pt_name p) in
  if decide (name = "file") then
    bytes ← as_refused (FilesApi.pt_bytes p);
    Ok {| fo_file := Some bytes; fo_atomic := fo_atomic f; fo_confirm := fo_confirm f; fo_delete_missing := fo_delete_missing f; fo_ignored := fo_ignored f |}
  else if decide (name = "atomic") then
    text ← as_refused (FilesApi.pt_text p);
    Ok {| fo_file := fo_file f; fo_atomic := text; fo_confirm := fo_confirm f; fo_delete_missing := fo_delete_missing f; fo_ignored := fo_ignored f |}
  else if decide (name = "confirm") then
    text ← as_refused (FilesApi.pt_text p);
    Ok {| fo_file := fo_file f; fo_atomic := fo_atomic f; fo_confirm := is_true text; fo_delete_missing := fo_delete_missing f; fo_ignored := fo_ignored f |}
  else if decide (name = "deleteMissing") then
    text ← as_refused (FilesApi.pt_text p);
    Ok {| fo_file := fo_file f; fo_atomic := fo_atomic f; fo_confirm := fo_confirm f; fo_delete_missing := is_true text; fo_ignored := fo_ignored f |}
  else if decide (name = "password") then
    Ok {| fo_file := fo_file f; fo_atomic := fo_atomic f; fo_confirm := fo_confirm f; fo_delete_missing := fo_delete_missing f; fo_ignored := Some "password" |}
  else Err Invalid.
Definition parse_multipart (parts : list (result FilesApi.Part)) : result ImportRequest :=
  f ← try_fold (λ f part, part ← as_refused part; form_part f part) no_form parts;
  file ← ok_or (fo_file f) Invalid;
  entries ← unzip file;
  archive ← read_archive parse_json entries;
  Ok {| iq_archive := archive; iq_atomic := fo_atomic f; iq_confirm := fo_confirm f; iq_delete_missing := fo_delete_missing f; iq_ignored := fo_ignored f |}.

Definition parse_request (form : ImportForm) : result ImportRequest :=
  match form with JsonForm body => json_request body | MultipartForm parts => parse_multipart parts end.
Definition import_options (r : ImportRequest) : result ImportOptions :=
  atomic ← (if decide (trim (iq_atomic r) = "") then Ok Batch else atomic_parse (trim (iq_atomic r)));
  threshold ← confirm_threshold env;
  Ok {| io_atomic := atomic; io_confirm := iq_confirm r; io_threshold := threshold; io_delete_missing := iq_delete_missing r |}.

(** [capture_snapshot]. *)
Definition capture_snapshot : W unit :=
  export server now ≫= λ a,
  db (OExecute DELETE_SNAPSHOTS_SQL []) ≫= λ _,
  call ONewId ≫= λ id,
  db (OExecute INSERT_SNAPSHOT_SQL [PText (Some id); PJson (to_payload a)]) ≫= λ _,
  give tt.

(** The reports as they are serialized. *)
Definition reasons (names : list string) : Value := JArray ((λ name, JArray [JString name; JString (reason name)]) <$> names).
Definition imported_value (c : ImportedCollection) : Value := JObject [
  ("fields_removed", json_keys (ic_fields_removed c)); ("name", JString (ic_name c)); ("records_imported", of_int (ic_records c));
  ("type", of_option JString (ic_type c))].
Definition report_value (r : ImportReport) (ignored : option string) : Value :=
  JObject ([("errors", reasons (ir_errors r))] ++ match ignored with Some o => [("ignoredOptions", JArray [JString o])] | None => [] end
    ++ [("imported", JArray (imported_value <$> ir_imported r)); ("removed", json_keys (ir_removed r)); ("skipped", reasons (ir_skipped r))]).
Definition preflight_value (p : Preflight) : Value := JObject [
  ("collections", JArray (manifest_collection_value <$> pf_collections p)); ("requires_confirmation", JBool (pf_requires_confirmation p));
  ("skipped", reasons (pf_skipped p)); ("total_records", of_int (pf_total p))].
Definition confirmation_value (p : Preflight) : Value := JObject [
  ("data", JObject [("preflight", preflight_value p); ("requires_confirmation", JBool true)]);
  ("message", JString ("this import holds " +:+ pretty (pf_total p) +:+ " records; confirm it to proceed")); ("status", JNumber (PosInt 409))].
Definition count_value {A} (l : list A) : Value := of_int (Z.of_nat (length l)).

(** The policies of the stored file rules, built again. *)
Definition rebuild_file_rules : W unit := load_file_rules ≫= λ rules, apply_file_rules rules.

(** [import]: the status and the body. *)
Definition after_import (p : Principal) (o : ImportOptions) (ignored : option string) (outcome : ImportOutcome) : W (Z * Value) :=
  match outcome with
  | Applied r =>
      rebuild_file_rules ≫= λ _,
      audit_record (actor p) "import" None (JObject [("atomic", JString (atomic_as_str (io_atomic o))); ("collections", count_value (ir_imported r));
        ("errors", count_value (ir_errors r)); ("removed", json_keys (ir_removed r)); ("skipped", count_value (ir_skipped r))]) ≫= λ _,
      give (200%Z, report_value r ignored)
  | NeedsConfirmation p => give (409%Z, confirmation_value p)
  end.
Definition import_endpoint (p : Principal) (form : ImportForm) : W (Z * Value) :=
  lift (require_superuser p) ≫= λ _,
  lift (parse_request form) ≫= λ r,
  lift (import_options r) ≫= λ o,
  ask OClient ≫= λ _,
  capture_snapshot ≫= λ _,
  Backup.import (iq_archive r) o ≫= λ outcome,
  after_import p o (iq_ignored r) outcome.

(** [export_json], [preflight] and [import_status]. *)
Definition export_json (p : Principal) : W Value :=
  lift (require_superuser p) ≫= λ _, ask OClient ≫= λ _, export server now ≫= λ a, give (to_payload a).
Definition preflight_endpoint (p : Principal) : W Value :=
  lift (require_superuser p) ≫= λ _,
  ask OClient ≫= λ _,
  schema_list ≫= λ cs,
  lift (confirm_threshold env) ≫= λ threshold,
  give (JObject [("available", JBool true); ("collections", count_value cs); ("confirm_records", of_int threshold)]).
Definition import_status (p : Principal) : W Value :=
  lift (require_superuser p) ≫= λ _,
  ask OClient ≫= λ _,
  query_opt (A:=string) SNAPSHOT_STATUS_SQL [] ≫= λ row,
  give (JObject [("snapshot", match row with Some t => JObject [("created_at", JString t)] | None => JNull end)]).

(** [import_rollback]. *)
Record SuperuserRow := { sr_id : string; sr_email : string }.
Definition after_rollback (p : Principal) (r : ImportReport) : W Value :=
  rebuild_file_rules ≫= λ _,
  db (OExecute DELETE_SNAPSHOTS_SQL []) ≫= λ _,
  audit_record (actor p) "import.rollback" None (JObject [("collections", count_value (ir_imported r)); ("errors", count_value (ir_errors r))]) ≫= λ _,
  give (JObject [("errors", reasons (ir_errors r)); ("imported", JArray (imported_value <$> ir_imported r)); ("rolled_back", JBool true)]).
Definition rollback_confirmed (p : Principal) : W Value :=
  query_opt (A:=Value) LATEST_SNAPSHOT_SQL [] ≫= λ row,
  lift (ok_or row NotFound) ≫= λ payload,
  restore_snapshot server now payload ≫= λ report,
  after_rollback p report.
Definition import_rollback (p : Principal) (password : option string) : W Value :=
  lift (require_superuser p) ≫= λ _,
  let password := default "" password in
  if decide (password = "") then refuse Unauthorized
  else
    ask OClient ≫= λ _,
    lift (ok_or (user_id p) Unauthorized) ≫= λ id,
    query_opt (A:=SuperuserRow) FIND_SUPERUSER_SQL [PText (Some id)] ≫= λ row,
    lift (ok_or row Unauthorized) ≫= λ account,
    pbind (authenticate_superuser (sr_email account) password) (λ r,
      match r with Done _ => rollback_confirmed p | Failed _ => refuse Unauthorized end).
End backup.

(** * Runs *)

Lemma runs_then_inv {A B} (p : W A) (f : A → W B) t r : runs (p ≫= f) t r →
  (∃ e, runs p t (Failed e) ∧ r = Failed e) ∨ ∃ t1 a t2, t = t1 ++ t2 ∧ runs p t1 (Done a) ∧ runs (f a) t2 r.
Proof.
  intros (t1 & [a|e] & t2 & -> & R1 & R2)%runs_bind; [right; eauto 6|]. left. cbn in R2. destruct R2 as [-> ->]. exists e. by rewrite app_nil_r.
Qed.
Lemma runs_lift_inv {A} (x : result A) t r : runs (lift x) t r → t = [] ∧ r = match x with Ok a => Done a | Err e => Failed (Other e) end.
Proof. by destruct x. Qed.
Lemma runs_lift_then_inv {A B} (x : result A) (f : A → W B) t r : runs (lift x ≫= f) t r →
  (∃ e, t = [] ∧ r = Failed e) ∨ ∃ a, x = Ok a ∧ runs (f a) t r.
Proof. destruct x as [a|e]; cbn; [right; eauto|]. intros [-> ->]. left. eauto. Qed.
Lemma runs_ask_inv {A} (o : op (result A)) t r : runs (ask o) t r → ∃ x, t = [Ev o x] ∧ r = match x with Ok a => Done a | Err e => Failed (Other e) end.
Proof. intros (x & u & -> & R). exists x. by apply runs_lift_inv in R as [-> ->]. Qed.
Lemma runs_db_inv {A} (o : op (Reply A)) t r : runs (db o) t r → ∃ x, t = [Ev o x] ∧ r = match x with DbOk a => Done a | DbErr _ => Failed (Other Internal) end.
Proof. intros (x & u & -> & R). exists x. by destruct x, R as [-> ->]. Qed.

Section properties.
Context `{SchemaOps} (env : string → option string) (server now : string).
Context (unzip : string → result (list (string * string))) (parse_json : string → option Value) (reason : string → string).
Context (authenticate_superuser : string → string → W unit).

(** The checkpoint: the rows before it gone, then one row of the payload. *)
Definition checkpoint (before : Archive) (n1 : Z) (id : string) (n2 : Z) : list event :=
  [Ev (OExecute DELETE_SNAPSHOTS_SQL []) (DbOk n1); Ev ONewId id; Ev (OExecute INSERT_SNAPSHOT_SQL [PText (Some id); PJson (to_payload before)]) (DbOk n2)].

Lemma capture_snapshot_runs t : runs (capture_snapshot server now) t (Done ()) →
  ∃ before t0 n1 id n2, runs (export server now) t0 (Done before) ∧ t = t0 ++ checkpoint before n1 id n2.
Proof.
  unfold capture_snapshot. intros (t0 & before & t1 & -> & R0 & R)%runs_done. apply runs_done in R as (t2 & n1 & t3 & -> & ->%runs_db_done & R).
  apply runs_done in R as (t4 & id & t5 & -> & (x & u & -> & [-> [= ->]]) & R). apply runs_done in R as (t6 & n2 & t7 & -> & ->%runs_db_done & [-> _]).
  exists before, t0, n1, x, n2. by split.
Qed.

Lemma import_endpoint_runs p form t r : runs (import_endpoint env server now unzip parse_json reason p form) t r →
  (∃ e, r = Failed e ∧ (t = [] ∨ ∃ x tc, t = Ev OClient x :: tc ∧ (tc = [] ∨ runs (capture_snapshot server now) tc (Failed e))))
  ∨ (is_superuser p = true ∧ ∃ q o before t0 n1 id n2 t1 outcome t2,
       parse_request server now unzip parse_json form = Ok q ∧ import_options env q = Ok o
       ∧ t = Ev OClient (Ok ()) :: (t0 ++ checkpoint before n1 id n2) ++ t1 ++ t2
       ∧ runs (export server now) t0 (Done before) ∧ runs (Backup.import (iq_archive q) o) t1 outcome
       ∧ match outcome with
         | Done outcome => runs (after_import reason p o (iq_ignored q) outcome) t2 r
         | Failed e => t2 = [] ∧ r = Failed e
         end).
Proof.
  unfold import_endpoint. intros [(e & -> & ->)|([] & SU & R)]%runs_lift_then_inv; [left; eauto|].
  apply runs_lift_then_inv in R as [(e & -> & ->)|(q & Q & R)]; [left; eauto|].
  apply runs_lift_then_inv in R as [(e & -> & ->)|(o & O & R)]; [left; eauto|].
  apply runs_then_inv in R as [(e & (x & -> & _)%runs_ask_inv & ->)|(t1 & [] & t2 & -> & (x & -> & X)%runs_ask_inv & R)]; [left; eauto 8|].
  assert (x = Ok ()) as -> by (by destruct x as [[]|]). clear X.
  apply runs_then_inv in R as [(e & R & ->)|(t3 & [] & t4 & -> & R3 & R)]; [left; exists e; split; [done|]; right; eauto|].
  right. split; [unfold require_superuser in SU; by destruct (is_superuser p)|].
  apply capture_snapshot_runs in R3 as (before & t0 & n1 & id & n2 & R0 & ->). exists q, o, before, t0, n1, id, n2.
  apply runs_then_inv in R as [(e & R & ->)|(t5 & outcome & t6 & -> & R5 & R)].
  - exists t4, (Failed e), []. rewrite app_nil_r. by split_and!.
  - exists t5, (Done outcome), t6. by split_and!.
Qed.

(** C40. An import writes nothing before its checkpoint: whatever happens, every
    operation of the import comes after the collections and records there were
    have been exported and stored as the one snapshot, from which reading gives
    the same definitions and records back; and an import that was applied had its
    file policies built again from the stored rules and is in the audit trail. *)
Theorem imports_can_be_undone p form t r : runs (import_endpoint env server now unzip parse_json reason p form) t r →
  (∃ e, r = Failed e ∧ (t = [] ∨ ∃ x tc, t = Ev OClient x :: tc ∧ (tc = [] ∨ runs (capture_snapshot server now) tc (Failed e))))
  ∨ (is_superuser p = true ∧ ∃ q o before t0 n1 id n2 t1 outcome t2,
       parse_request server now unzip parse_json form = Ok q ∧ import_options env q = Ok o
       ∧ t = Ev OClient (Ok ()) :: (t0 ++ checkpoint before n1 id n2) ++ t1 ++ t2
       ∧ runs (export server now) t0 (Done before) ∧ runs (Backup.import (iq_archive q) o) t1 outcome
       ∧ (archive_wf before → ∃ a, archive_from_payload server now (to_payload before) = Ok a ∧ a_schema a = a_schema before ∧ a_data a = a_data before)
       ∧ (∀ report v, outcome = Done (Applied report) → r = Done v → ∃ rows statements n,
            t2 = [Ev (ORows Value LOAD_RULES_SQL []) (DbOk rows); Ev (OBatch (join separator statements)) (DbOk ());
                  Ev (OExecute AUDIT_SQL [PText (Some (actor p)); PText (Some "import"); PText None;
                    PJson (JObject [("atomic", JString (atomic_as_str (io_atomic o))); ("collections", count_value (ir_imported report));
                      ("errors", count_value (ir_errors report)); ("removed", json_keys (ir_removed report)); ("skipped", count_value (ir_skipped report))])]) (DbOk n)]
            ∧ file_statements (file_rules_from_setting (default JNull (head rows))) = Ok statements ∧ v = (200%Z, report_value reason report (iq_ignored q)))
       ∧ (∀ pf, outcome = Done (NeedsConfirmation pf) → t2 = [] ∧ r = Done (409%Z, confirmation_value reason pf))
       ∧ (∀ e, outcome = Failed e → t2 = [] ∧ r = Failed e)).
Proof.
  intros R. apply import_endpoint_runs in R as [F|(SU & q & o & before & t0 & n1 & id & n2 & t1 & outcome & t2 & Q & O & -> & R0 & R1 & R2)]; [by left|].
  right. split; [done|]. exists q, o, before, t0, n1, id, n2, t1, outcome, t2. split_and!; [done..| | | |].
  - intros W. destruct (payload_archive server now before W) as (a & A & S & D & _). eauto.
  - intros report v -> ->. cbn [after_import] in R2. apply runs_done in R2 as (u1 & [] & u2 & -> & R3 & R2).
    apply runs_done in R3 as (u3 & rules & u4 & -> & R3 & R4). unfold load_file_rules in R3. apply runs_done in R3 as (u5 & rows & u6 & -> & ->%runs_db_done & [-> [= ->]]).
    unfold apply_file_rules in R4. apply runs_done in R4 as (u7 & statements & u8 & -> & [-> S]%runs_lift_done & R4). apply runs_batch_done in R4 as ->.
    apply runs_done in R2 as (u9 & [] & u10 & -> & R5 & [-> [= ->]]). unfold audit_record in R5. apply runs_done in R5 as (v1 & n & v2 & -> & ->%runs_db_done & [-> _]).
    exists rows, statements, n. by split_and!.
  - intros pf ->. by destruct R2 as [-> ->].
  - by intros e ->.
Qed.

(** A rollback does nothing but look its caller up until the password of that
    account was right; then it restores the latest snapshot, and what it answers
    came of that, the policies built again and the snapshot spent. *)
Lemma rollback_needs_the_password p password t r : runs (import_rollback server now reason authenticate_superuser p password) t r →
  (∃ e, r = Failed e ∧ (t = [] ∨ ∃ x ta, t = Ev OClient x :: ta ∧ (ta = [] ∨ ∃ id y tb, ta = Ev (ORows SuperuserRow FIND_SUPERUSER_SQL [PText (Some id)]) y :: tb
      ∧ (tb = [] ∨ ∃ account pw f, runs (authenticate_superuser (sr_email account) pw) tb (Failed f)))))
  ∨ (is_superuser p = true ∧ ∃ id account pw ta tr, password = Some pw ∧ pw ≠ "" ∧ user_id p = Some id
       ∧ t = Ev OClient (Ok ()) :: Ev (ORows SuperuserRow FIND_SUPERUSER_SQL [PText (Some id)]) (DbOk [account]) :: ta ++ tr
       ∧ runs (authenticate_superuser (sr_email account) pw) ta (Done ()) ∧ runs (rollback_confirmed server now reason p) tr r
       ∧ ∀ v, r = Done v → ∃ payload report ts tl, tr = Ev (ORows Value LATEST_SNAPSHOT_SQL []) (DbOk [payload]) :: ts ++ tl
           ∧ runs (restore_snapshot server now payload) ts (Done report) ∧ runs (after_rollback reason p report) tl (Done v)).
Proof.
  unfold import_rollback. intros [(e & -> & ->)|([] & SU & R)]%runs_lift_then_inv; [left; eauto|].
  destruct (decide (default "" password = "")) as [E|N]; [destruct R as [-> ->]; left; eauto|].
  apply runs_then_inv in R as [(e & (x & -> & _)%runs_ask_inv & ->)|(t1 & [] & t2 & -> & (x & -> & X)%runs_ask_inv & R)]; [left; eauto 8|].
  assert (x = Ok ()) as -> by (by destruct x as [[]|]). clear X.
  apply runs_lift_then_inv in R as [(e & -> & ->)|(id & U & R)]; [left; eauto 8|]. rewrite ok_or_Ok in U.
  apply runs_then_inv in R as [(e & R & ->)|(t3 & row & t4 & -> & R3 & R)].
  { left. exists e. split; [done|]. right. exists (Ok ()), t2. split; [done|]. right. unfold query_opt in R.
    apply runs_then_inv in R as [(e' & (y & -> & _)%runs_db_inv & _)|(u1 & rows & u2 & -> & (y & -> & _)%runs_db_inv & R)]; [eauto 8|].
    exists id, y, u2. split; [done|]. left. by destruct rows as [|? [|]], R as [-> ?]. }
  unfold query_opt in R3. apply runs_done in R3 as (u1 & rows & u2 & -> & ->%runs_db_done & R3).
  apply runs_lift_then_inv in R as [(e & -> & ->)|(account & A & R)].
  { left. exists e. split; [done|]. right. do 2 eexists. split; [done|]. right. do 3 eexists. split; [done|]. left.
    by destruct rows as [|? [|]], R3 as [-> ?]. }
  rewrite ok_or_Ok in A. subst row. assert (rows = [account] ∧ u2 = []) as [-> ->].
  { destruct rows as [|a [|]]; destruct R3 as [-> [=]]. by subst. }
  clear R3. apply runs_bind in R as (ta & a & tr & -> & Ra & R). destruct password as [pw|]; [|done]. destruct a as [[]|f].
  2:{ destruct R as [-> ->]. left. eexists. split; [done|]. right. do 2 eexists. split; [done|]. right. do 3 eexists. split; [done|]. right.
      exists account, pw, f. cbn. by rewrite app_nil_r. }
  right. split; [unfold require_superuser in SU; by destruct (is_superuser p)|]. exists id, account, pw, ta, tr. split_and!; [done..|].
  intros v ->. unfold rollback_confirmed in R. apply runs_done in R as (v1 & row & v2 & -> & R1 & R). unfold query_opt in R1.
  apply runs_done in R1 as (v3 & rows & v4 & -> & ->%runs_db_done & R1). apply runs_done in R as (v5 & payload & v6 & -> & [-> L]%runs_lift_done & R).
  rewrite ok_or_Ok in L. subst row. apply runs_done in R as (v7 & report & v8 & -> & R7 & R). exists payload, report, v7, v8.
  assert (rows = [payload] ∧ v4 = []) as [-> ->] by (destruct rows as [|a [|]]; destruct R1 as [-> [=]]; by subst). by split_and!.
Qed.

(** A checkpoint is taken, and the one of the import before it lost, when all the
    import does is to ask for its confirmation. *)
Lemma unconfirmed_import_takes_the_checkpoint p form t v : runs (import_endpoint env server now unzip parse_json reason p form) t (Done (409%Z, v)) →
  ∃ n, Ev (OExecute DELETE_SNAPSHOTS_SQL []) (DbOk n) ∈ t.
Proof.
  intros R. apply import_endpoint_runs in R as [(e & ? & _)|(_ & q & o & before & t0 & n1 & id & n2 & t1 & outcome & t2 & _ & _ & -> & _)]; [done|].
  exists n1. right. rewrite <-app_assoc. apply elem_of_app. right. by left.
Qed.
End properties.

(** The mode [false] is one thing in a form and another in a document. *)
Example false_is_two_modes env server now unzip parse_json : env CONFIRM_VARIABLE = None →
  (q ← json_request server now (Ok (JObject [("atomic", JBool false); ("collections", JArray [])])); io_atomic <$> import_options env q) = Ok Batch
  ∧ (∀ bytes entries, unzip bytes = Ok entries → ∀ a, read_archive parse_json entries = Ok a →
      ∀ part, FilesApi.pt_name part = Some "file" → FilesApi.pt_bytes part = Ok bytes →
      ∀ mode, FilesApi.pt_name mode = Some "atomic" → FilesApi.pt_text mode = Ok "false" →
      (q ← parse_multipart unzip parse_json [Ok part; Ok mode]; io_atomic <$> import_options env q) = Ok Continue).
Proof.
  intros E. unfold import_options, confirm_threshold. rewrite E. split; [by vm_compute|].
  intros bytes entries U a A part N1 B mode N2 T. unfold parse_multipart.
  assert (try_fold (λ f part, part ← as_refused part; form_part f part) no_form [Ok part; Ok mode]
    = Ok {| fo_file := Some bytes; fo_atomic := "false"; fo_confirm := false; fo_delete_missing := false; fo_ignored := None |}) as ->.
  { unfold form_part. cbn -[form_part]. rewrite N1. cbn. rewrite B. cbn. rewrite N2. cbn. by rewrite T. }
  cbn. rewrite U. cbn. by rewrite A.
Qed.

(** * Witness *)

Ltac answer x := exists x; eexists; split; [reflexivity|].
#[local] Instance empty_schema : SchemaOps := {|
  schema_list := give []; schema_create _ := refuse Invalid; schema_update _ _ := refuse Invalid; schema_delete _ _ := refuse NotFound |}.
Definition no_env (key : string) : option string := None.
Definition no_zip (bytes : string) : result (list (string * string)) := Err Invalid.
Definition empty_import : ImportForm := JsonForm (Ok (JObject [("collections", JArray [])])).

Lemma imports_can_be_undone_witness : ∃ t v,
  runs (import_endpoint no_env "1.0" "2026-01-01T00:00:00Z" no_zip (λ _, None) (λ _, "") sample_admin empty_import) t (Done v)
  ∧ ∃ before t0 id n, runs (export "1.0" "2026-01-01T00:00:00Z") t0 (Done before)
    ∧ Ev (OExecute INSERT_SNAPSHOT_SQL [PText (Some id); PJson (to_payload before)]) (DbOk n) ∈ t.
Proof.
  assert (∃ t v, runs (import_endpoint no_env "1.0" "2026-01-01T00:00:00Z" no_zip (λ _, None) (λ _, "") sample_admin empty_import) t (Done v))
    as (t & v & R).
  { eexists _, _. answer (Ok () : result unit). answer (DbOk 1%Z). answer "s1". answer (DbOk 1%Z). answer (DbOk tt). answer (DbOk tt).
    answer (DbOk (A:=list Value) []). answer (DbOk tt). answer (DbOk 1%Z). split; reflexivity. }
  exists t, v. split; [exact R|].
  destruct (imports_can_be_undone _ _ _ _ _ _ _ _ _ _ R) as [(e & [=] & _)|(_ & q & o & before & t0 & n1 & id & n2 & t1 & outcome & t2 & _ & _ & T & R0 & _)].
  exists before, t0, id, n2. split; [exact R0|]. rewrite T. right. rewrite <-app_assoc. apply elem_of_app. right. right. right. left.
Defined.
